(* ===== verification/_CoqProject ===== *)
-Q . S2P
Prelude.v
Float64.v
ReadingState.v
ReadingService.v
ReadingSessions.v
ProgressMutations.v
Sequence.v
Alignment.v
JobQueue.v
JobWorker.v
JobLifecycle.v
Permissions.v
VirtualPath.v
SourceProtocol.v
EditionPair.v
MediaTypes.v
IngestContract.v
IngestApply.v
IngestPolicy.v
CoverFetch.v
IngestPaths.v
Explode.v
IngestProgress.v
IngestJobs.v
MetadataTypes.v
MetadataScoring.v
MetadataMerge.v
SearchCache.v
PageCache.v
SourceHealth.v
Notifications.v
Devices.v
DevicePairing.v
WorkerQueue.v
LiseurSync.v
LiseurStore.v
LiseurOps.v
LiseurAnnotations.v
LiseurNative.v
LiseurAttachments.v
