(* ===== verification/Prelude.v ===== *)
(** * Coppice: a verification development

    Coppice is a media server: it scans folders of books, comics and audiobooks, serves
    them over several client protocols, merges the reading positions those clients
    report, and runs background work on its own machine and on remote workers.  This
    library models the parts of the Rust code that decide something, and proves what
    makes them correct.

    ** The parts and how they interact

    - [ReadingState] -- [crates/models/src/domain/reading_state.rs] and
      [shared/readium.rs].  Client updates are projected to a canonical position
      ([project]), merged with the stored head by the conflict rule ([resolve]), and
      converted between text and audio editions ([map_time_to_locator],
      [map_locator_to_time]).  Progressions are IEEE binary64 values ([Float64], on the
      Standard Library's [SpecFloat]); [rust_decimal] is the class [DecimalOps] with
      laws [DecimalLaws] and a concrete instance.
    - [ReadingService] -- [crates/models/src/services/reading_state.rs].  One head per
      (user, media) and an append-only provenance log; [apply], [clear] and the queries
      as functions on an explicit database in which any SQL statement may fail.  It
      calls [ReadingState.resolve].
    - [ReadingSessions] and [ProgressMutations] -- [services/reading_progress.rs],
      [domain/reading_progress.rs] and the progress mutations of
      [crates/graphql/src/mutation/reading_progress.rs].  Sessions of reading, grouped into
      numbered readthroughs, and the mutations that move heads and sessions together in
      transactions; they call [ReadingService.apply] and [clear].
    - [Sequence] -- [crates/scanner/src/sequence.rs].  File names are cleaned, tokenised
      on their UTF-8 bytes, identified as chapter or volume, and a folder is analysed
      for gaps.
    - [Alignment] -- [crates/worker/src/alignment.rs].  Validation of read-aloud timing
      maps that remote workers upload.
    - [JobQueue], [JobWorker], [JobLifecycle] -- [crates/jobs/src/queue.rs], [worker.rs]
      (with [context.rs], [progress.rs], [error.rs], [runtime.rs]) and [lifecycle.rs].
      The counters; the worker's handlers and the step relation of their interleaving;
      [run_job] over a record of hooks.  The worker uses the counters only through the
      refinement of bags of kinds that [JobQueue] proves.
    - [Permissions] -- [crates/models/src/shared/permission_set.rs] and the permission
      part of [enums.rs] and [entity/user.rs].
    - [VirtualPath] -- [crates/provider/src/virtual_path.rs].  [provider://] URIs and the
      names of provider-backed rows; percent-encoding is the class [UrlEncoding].
    - [SourceProtocol] -- [crates/worker/src/source_protocol.rs].  Frames, limits, read
      grants and their expiry.
    - [EditionPair] -- [crates/models/src/domain/edition_pair.rs] with
      [services/liseur_annotation.rs].  Which media rows are editions of one work: a
      state machine over link rows, again with failing statements.
    - [MediaTypes] -- [crates/media/src/content_type.rs].  Content types with their
      extensions and MIME strings; the byte sniffer is the class [Sniffer].
    - Ingest, [crates/ingest/src], takes files from a drop folder or an upload to a
      library.  [IngestContract] is its vocabulary ([contract.rs]): fields, picks,
      statuses and the quality score.  [IngestPaths] and [Explode] ([staging.rs],
      [archive.rs], with the path predicates of [crates/media/src/common.rs]) decide
      where bytes are staged and what an extracted archive contains.  [IngestJobs]
      ([coordinator.rs] and the job operations of [store.rs]) queues the analysis of
      items and media rows and runs it in tasks; a system of rows and tasks, with a
      step relation for their interleaving.  [IngestProgress] ([progress.rs]) stores
      and broadcasts what the tasks report.  [IngestPolicy] ([policy.rs]) turns the
      candidates providers found into a recipe, [IngestApply] ([providers/apply.rs])
      resolves a recipe and writes the metadata row, and [CoverFetch] (the same file)
      downloads the cover it names.  Policy is stated against apply: [auto_apply_safe]
      composes the two.
    - Metadata of library rows, [crates/integrations/metadata/src] and
      [core/src/filesystem/metadata/apply.rs].  [MetadataTypes] is the data providers
      return ([types/], [editions.rs]).  [MetadataScoring] scores the results of a search
      against its query ([scoring.rs]) and groups the results of several providers into
      works ([scoring/cross_provider.rs]); confidences are IEEE binary32, the string
      measures of the strsim crate the class [Strsim].  [MetadataMerge] applies an
      accepted result to a media or series row ([merge/merger.rs], [apply.rs]), sharing
      strategies and fields with ingest.  [SearchCache] ([search_cache.rs]) keeps
      interactive searches, with a step relation for searches that interleave.
    - [WorkerQueue] -- [crates/worker/src/service.rs] with [hub.rs], [kind.rs],
      [protocol.rs] and the upload route.  Jobs for remote machines: calls are programs of
      atomic actions over the table and the hub of connections, and a step relation
      interleaves them.
    - [SourceHealth] -- [crates/provider/src/health.rs] with parts of [http.rs] and
      [catalog.rs].  Probes of remote sources over a network that is a parameter, and the
      rows that count their failures.
    - [Notifications] -- [crates/notify/src], [core/src/notification.rs] and
      [core/src/job/notification.rs], with the GraphQL mutations.  Events become
      notifications, rules route them, a job delivers them with retries and with the
      decrypted settings of the account; libraries are the class [Library].
    - [Devices] -- [crates/devices/src/service.rs] and [credential.rs].  Devices of an
      account and their keys and tokens, in one registry whose statements may fail, with
      transactions.  [DevicePairing] -- [device_pairing.rs] of the server's API, of the
      GraphQL mutations and of the entities -- uses it for a device that asks to be paired:
      requests are tasks whose statements interleave.
    - [PageCache] -- [crates/provider/src/cache.rs].  Pages of remote sources, kept as files
      below a byte bound; calls are tasks whose file operations interleave and may fail.
    - liseur-sync, the protocol of reading clients.  [LiseurSync] is the protocol crate
      ([crates/liseur-sync/src/lib.rs]): routes, bearer tokens and scopes, validation and
      refusals, over the class [LiseurSyncBackend].  The storage behind it
      ([apps/server/src/routers/liseur_sync]) is one database, [LiseurStore.Store], in which
      every statement may fail and a transaction that fails is undone: [LiseurStore] has
      tokens and settings, [LiseurOps] the log of positions, which moves the heads of
      [ReadingService] and mirrors the moves of other protocols, [LiseurAnnotations] the
      annotations of the clients with their feed, the mirrors of Stump's own annotations
      and the projections of the clients' ([LiseurNative] relates these to native rows),
      and [LiseurAttachments] the files that hang off an annotation.

    This file holds what they share: Rust's [Result] and early returns, the state and
    error monad of database code, machine integers, strings as lists of Unicode scalar
    values with their UTF-8 bytes, iterator adaptors, JSON values and the lemmas about
    them.

    ** What the theorems show

    - Reading positions: progressions stay in the unit interval whatever a client
      sends; positions are kept verbatim; an update is demoted exactly when it is stale
      and behind; completion is undone only by an explicit un-read; edition conversion
      stays inside the mapped chapter; every reachable database backs each head by an
      applied event, under every pattern of failures; [apply], [clear], [heads_since]
      and [winning_event] do exactly what they promise, and a failing [apply] leaves
      the heads alone.
    - Sessions and progress: whatever mutations accounts send, readthrough numbers never
      decrease in time and a finished session ends its readthrough; a mutation that fails
      changed nothing, with one exception that is stated; head and session agree after an
      update; an update is stored and its time counted exactly once; marking and clearing a
      series touches exactly its books.
    - Sequences: tokenising terminates within one step per byte and yields bounded
      numbers; printing and scanning numbers are inverse; identifier choice, gap
      detection, grouping into ranges and the accounting of files are exact.
    - Alignment: [validate] accepts exactly the well-formed maps -- pairwise ordered,
      non-overlapping cues -- and blames the first bad cue; [validate_for] adds exactly
      the identities of the request.
    - Jobs: the counters refine bags of kinds; under every interleaving the queue depth
      is the work in flight and drains to zero; the operations, as the code runs them,
      are runs of that interleaved system; cancellation reaches exactly one job;
      [run_job] ends a job exactly once on every path, runs tasks depth first, and a
      dispatched job is accounted for exactly once.
    - Permissions: after storing and loading, the checks accept exactly what is
      reachable through associations; the stored column round-trips.
    - Provider paths: printing and parsing are inverse exactly for non-empty
      components; row names are distinct for source ids without a colon, and collide
      otherwise.
    - Source protocol: frames and grants are accepted exactly within their limits;
      expiry is the same instant in both units and permanent.
    - Edition pairs: verdicts are sticky and evidence never weakens under every sequence
      of calls and failures; repeating a call changes nothing; the book page shows what
      was decided.
    - Ingest analysis: under every interleaving of calls and tasks the queue's tables
      are well formed -- plans decode to existing targets, queued and running jobs have
      a task, at most two permits are out -- and the queue drains; a progress subscriber
      gets every event it wants once and in order across replay and live delivery, the
      table holds exactly the retained events, and a cursor is refused exactly when
      events are gone.
    - Ingest metadata: the report score is within 0 and 100 and depends on the applicable
      checks only; a policy plan, the union of lists, the resolution of a recipe and the
      row it writes are exact, and no composition of them changes a locked field; a
      policy override is refused exactly when invalid and read back as stored.
    - Ingest files: relative paths, archive members and staging paths stay below their
      directory; staging paths are injective; an extractor's table is read back; an
      extracted archive becomes exactly its publications with every file accounted for;
      a cover is only ever requested from public addresses, and accepted exactly when it
      is a complete decodable image within its limits.
    - Provider matches: confidences lie between zero and one whatever the string measures
      return, results come best first and an ISBN or title tier is never undercut; only
      records of different providers with similar titles match automatically; grouping
      is a partition into pairwise matches; a match changes exactly the columns of a stored
      row that locks, exclusions, overrides and strategy allow, under every pattern of
      failures (a new row takes everything the provider offers), and accepting it twice is
      accepting it once; a cached search is the latest answer to the same account's search
      for the same words and limit, within its time to live.
    - Remote jobs: under every interleaving of calls, frames, reconnections and sweeps, a
      result is validated and final and is what a waiting caller gets; while statements do
      not fail no job is lost; dispatching a job offers it to the first connected worker by
      id that can run it, or, without one or when its transport is gone, runs the job locally
      or parks it, and changes nothing else.
    - Source health: the row of a source counts exactly the failures in a row, and says dead
      exactly at the threshold; as long as no probe repeated with configured headers breaks
      off, a challenge is never counted as a failure; a run over the catalogue is the same in whatever order its
      probes finish, and its summary is the truth about the table.
    - Notifications: the deliveries of an event are exactly what the rules ask for; a
      delivery goes out a bounded number of times, each time after its account was looked up
      and found, and a POST that was refused does not go out again; submitted settings are
      read back, secrets too, without secrets in the answer.
    - Devices: every key and token that works belongs to one live device of its account and
      allows what the kind does, and nothing is left of a revoked one, under every
      interleaving but two races, which are shown; under every
      interleaving a pairing yields credentials at most once, for the account that approved
      it with its code or nonce, and a deleted account keeps none.
    - Page cache: under every interleaving and failure the index accounts for its bytes
      and a hit is bytes that were stored for that page of that item and source (up to what
      directory names keep of them); what is stored and fits is read back.
    - liseur-sync protocol, over any backend: no route does anything without a token of the
      right kind and scope, and then only for the account of the token; batches are
      refused exactly when invalid, and invalid annotations never spoil the valid ones.
    - liseur-sync storage: a secret authenticates only as what it was minted for and only
      while its token lives; settings converge to the newest value of every key whatever
      the order; the log of positions is numbered without gaps and only grows, but for merges
      of works, which move operations to the surviving work; a client that follows it gets
      each operation once, a batch pushed again changes nothing as long as its works were not
      merged, and the moves of other protocols are mirrored exactly; annotations keep one record per
      id with rising revisions, no update is lost, a client that follows the feed ends
      with exactly the records of the account, a retry is a duplicate, mirrors follow
      their native rows and settle once locators read back, projections are exactly the rows
      their records stand for; attachments have the digest their row records whatever is
      interleaved, torn writes included, but for two uploads of one file at once, and what is
      stored is what is served.

    ** Bounds and fuel

    Integers are [Z] with the width written out where the code can reach it: counters
    saturate or wrap at [i32], offsets are checked against [u64], expiries fit [i128].
    [tokenize] runs with one unit of fuel per byte, enough because every iteration
    advances ([tokenize_sound]).  [run_tasks] takes fuel because a job's tasks may spawn
    subtasks forever; the number of tasks done suffices when it is finite
    ([run_job_completes]), and the accounting theorem covers a run that never returns.
    [fetch_loop] recurses on the redirects left, five in the code.  [poll_all] runs with
    two more units than there are records, enough because every item consumes a record
    or a lag.  [number_from], which looks for a free name, tries one more candidate than
    there are names ([numbered_name_new]).  The analysis queue needs no fuel: [jobs_drain]
    is an inductive [eventually], so that every schedule is finite.
    The step relation of the worker admits an enqueue while fewer than [i32_max - 1]
    jobs are in flight, which memory enforces long before.

    ** Not modelled

    Serialization derived by serde and strum (names and stored plans aside), SQL beyond
    the statements the services issue, transactions outside the liseur-sync storage, the
    progress mutations and the devices (the state a failed call leaves is explicit
    instead), the Tokio tasks, channels and timers around the job worker, UUID and digest functions, DNS, HTTP
    and image decoding.  The rest of the repository is left out because it is network,
    process or file-format code around libraries, or SQL joins whose meaning is the
    database's: of ingest, uploads, drop-folder scans, approval, preprocessing, audio
    assembly, quality checks and the HTTP providers; the clients of the metadata providers
    and of remote sources; of liseur-sync, the catalogue, the resolution of works and
    reading sessions; of devices, library scopes, sightings and telemetry; the other HTTP
    and GraphQL routes and compatibility APIs, readers and writers of file formats, tools, migrations and the user interfaces. *)

From stdpp Require Import base gmap list strings sorting.
From Stdlib Require Import ZArith Lia.

(** ** Scope and notation *)

Declare Scope coppice_scope.
Delimit Scope coppice_scope with cop.
#[local] Open Scope Z_scope.

(** ** Fallible code: Rust's [Result] *)

Inductive result (A E : Type) : Type :=
| Ok (a : A)
| Err (e : E).

Arguments Ok {A E} _.
Arguments Err {A E} _.

Definition result_bind {A B E} (r : result A E) (k : A -> result B E) : result B E :=
  match r with
  | Ok a => k a
  | Err e => Err e
  end.

Definition is_ok {A E} (r : result A E) : bool :=
  match r with Ok _ => true | Err _ => false end.

Notation "'let?' x ':=' r 'in' k" := (result_bind r (fun x => k))
  (at level 10, x pattern, r at level 100, k at level 200) : coppice_scope.

(** [early c e k] is [if c { return Err(e) }; k]. *)
Definition early {A E} (c : bool) (e : E) (k : result A E) : result A E :=
  if c then Err e else k.

(** ** Stateful fallible code: [async fn(conn, ...) -> Result<_, _>]

    The state a failing statement leaves behind is part of the outcome. *)

Definition db_ret {S E A : Type} (a : A) : S -> result A E * S := fun db => (Ok a, db).

Definition db_err {S E A : Type} (e : E) : S -> result A E * S := fun db => (Err e, db).

Definition db_bind {S E A B : Type} (c : S -> result A E * S) (k : A -> S -> result B E * S)
  : S -> result B E * S := fun db =>
  match c db with
  | (Ok a, db') => k a db'
  | (Err e, db') => (Err e, db')
  end.

Notation "x <-- c ;; k" := (db_bind c (fun x => k))
  (at level 100, c at next level, right associativity) : coppice_scope.

(** ** Machine integers *)

Definition i32_min : Z := - 2 ^ 31.
Definition i32_max : Z := 2 ^ 31 - 1.
Definition i64_min : Z := - 2 ^ 63.
Definition i64_max : Z := 2 ^ 63 - 1.
Definition u64_max : Z := 2 ^ 64 - 1.

Definition in_i32 (z : Z) : Prop := i32_min <= z <= i32_max.
Definition in_i64 (z : Z) : Prop := i64_min <= z <= i64_max.
Definition in_u64 (z : Z) : Prop := 0 <= z <= u64_max.

(** Two's complement wrap-around, what release builds do on overflow. *)
Definition wrap_i32 (z : Z) : Z := (z + 2 ^ 31) mod 2 ^ 32 - 2 ^ 31.

Definition saturating_add_i32 (a b : Z) : Z := Z.max i32_min (Z.min i32_max (a + b)).
Definition saturating_sub_i32 (a b : Z) : Z := Z.max i32_min (Z.min i32_max (a - b)).

(** ** Strings: a Rust [str] is a list of Unicode scalar values *)

Abbreviation str := (list Z).

(** A literal of the source (ASCII) as a [str]. *)
Fixpoint lit (s : string) : str :=
  match s with
  | EmptyString => []
  | String c s' => Z.of_nat (Ascii.nat_of_ascii c) :: lit s'
  end.

(** [str::as_bytes]: the UTF-8 encoding of one scalar value. *)
Definition utf8_char (c : Z) : list Z :=
  if c <? 0x80 then [c]
  else if c <? 0x800 then [0xC0 + c / 0x40; 0x80 + c mod 0x40]
  else if c <? 0x10000 then [0xE0 + c / 0x1000; 0x80 + c / 0x40 mod 0x40; 0x80 + c mod 0x40]
  else [0xF0 + c / 0x40000; 0x80 + c / 0x1000 mod 0x40; 0x80 + c / 0x40 mod 0x40;
        0x80 + c mod 0x40].

Definition as_bytes (s : str) : list Z := s ≫= utf8_char.

(** [str::len] counts bytes. *)
Definition str_len (s : str) : Z := Z.of_nat (length (as_bytes s)).

Definition is_ascii_digit (b : Z) : bool := (48 <=? b) && (b <=? 57).
Definition is_ascii_upper (b : Z) : bool := (65 <=? b) && (b <=? 90).
Definition is_ascii_lower (b : Z) : bool := (97 <=? b) && (b <=? 122).
Definition is_ascii_alphabetic (b : Z) : bool := is_ascii_upper b || is_ascii_lower b.
Definition is_ascii_alphanumeric (b : Z) : bool := is_ascii_alphabetic b || is_ascii_digit b.

Definition to_ascii_lowercase (b : Z) : Z := if is_ascii_upper b then b + 32 else b.

Definition eq_ignore_ascii_case (s t : str) : bool :=
  bool_decide (map to_ascii_lowercase s = map to_ascii_lowercase t).

(** [str::to_lowercase], driven by the Unicode tables; on ASCII text it is the ASCII
    mapping. *)
Class Lowercase := { to_lowercase : str -> str }.

Class LowercaseLaws `{Lowercase} := {
  to_lowercase_ascii : forall s, Forall (fun c => c < 0x80) s ->
    to_lowercase s = map to_ascii_lowercase s;
}.

(** [char::is_whitespace]: the Unicode [White_Space] property. *)
Definition is_whitespace (c : Z) : bool :=
  ((9 <=? c) && (c <=? 13)) || (c =? 0x20) || (c =? 0x85) || (c =? 0xA0)
  || (c =? 0x1680) || ((0x2000 <=? c) && (c <=? 0x200A)) || (c =? 0x2028)
  || (c =? 0x2029) || (c =? 0x202F) || (c =? 0x205F) || (c =? 0x3000).

Fixpoint drop_while {A} (p : A -> bool) (l : list A) : list A :=
  match l with
  | [] => []
  | x :: l' => if p x then drop_while p l' else l
  end.

Fixpoint take_while {A} (p : A -> bool) (l : list A) : list A :=
  match l with
  | [] => []
  | x :: l' => if p x then x :: take_while p l' else []
  end.

(** [str::trim_end_matches] and [str::trim]. *)
Definition drop_while_end {A} (p : A -> bool) (l : list A) : list A :=
  rev (drop_while p (rev l)).

Definition trim (s : str) : str := drop_while_end is_whitespace (drop_while is_whitespace s).

(** [str::ends_with]. *)
Definition ends_with (s suffix : str) : bool :=
  bool_decide (suffix = drop (length s - length suffix) s) && (length suffix <=? length s)%nat.

(** [str::split] on one separator: always at least one piece. *)
Fixpoint split_on (p : Z -> bool) (s : str) : list str :=
  match s with
  | [] => [[]]
  | c :: s' =>
      if p c then [] :: split_on p s'
      else match split_on p s' with
           | [] => [[c]]
           | piece :: rest => (c :: piece) :: rest
           end
  end.

(** [str::split_whitespace]. *)
Definition split_whitespace (s : str) : list str :=
  List.filter (fun piece => negb (bool_decide (piece = []))) (split_on is_whitespace s).

(** [Vec<String>::join] and [Itertools::join]. *)
Fixpoint str_join (separator : str) (pieces : list str) : str :=
  match pieces with
  | [] => []
  | [piece] => piece
  | piece :: rest => piece ++ separator ++ str_join separator rest
  end.

(** [str::strip_prefix]. *)
Fixpoint strip_prefix (prefix s : str) : option str :=
  match prefix, s with
  | [], _ => Some s
  | c :: prefix', d :: s' => if c =? d then strip_prefix prefix' s' else None
  | _ :: _, [] => None
  end.

(** [str::starts_with]. *)
Definition starts_with (s prefix : str) : bool :=
  match strip_prefix prefix s with Some _ => true | None => false end.

(** [Path::file_name] and [Path::extension] of a Unix path: the last component that is
    not [.], unless it is [..]; what follows its last dot, unless nothing precedes it. *)
Definition path_pieces (path : str) : list str :=
  List.filter (fun piece => negb (bool_decide (piece = [])) && negb (bool_decide (piece = [46])))
    (split_on (Z.eqb 47) path).

Definition file_name (path : str) : option str :=
  match last (path_pieces path) with
  | Some name => if bool_decide (name = [46; 46]) then None else Some name
  | None => None
  end.

Definition name_extension (name : str) : option str :=
  let pieces := split_on (Z.eqb 46) name in
  match last pieces, str_join [46] (removelast pieces) with
  | Some after, _ :: _ => Some after
  | _, _ => None
  end.

Definition path_extension (path : str) : option str := file_name path ≫= name_extension.

(** Lexicographic order of strings by scalar value, as SQL orders text. *)
Fixpoint str_le (s t : str) : bool :=
  match s, t with
  | [], _ => true
  | _ :: _, [] => false
  | a :: s', b :: t' => (a <? b) || ((a =? b) && str_le s' t')
  end.

(** ** Decimal printing of integers ([Display] for [i32], [i64], ...) *)

Fixpoint dec_digits (fuel : nat) (n : Z) : list Z :=
  match fuel with
  | O => []
  | S fuel' => if n <? 10 then [n + 48] else dec_digits fuel' (n / 10) ++ [n mod 10 + 48]
  end.

Definition dec_fuel (n : Z) : nat := S (Z.to_nat (Z.log2 n)).

Definition show_nonneg (n : Z) : str := dec_digits (dec_fuel n) n.

Definition show_Z (n : Z) : str :=
  if n <? 0 then 45 :: show_nonneg (- n) else show_nonneg n.

(** The value of a run of ASCII digits. *)
Definition dec_value (ds : list Z) : Z := fold_left (fun acc d => acc * 10 + (d - 48)) ds 0.

(** [str::parse] for an integer type with the given range: an optional sign ([-] only for
    signed types) and at least one digit, nothing else. *)
Definition parse_digits (lo hi : Z) (negative : bool) (ds : str) : option Z :=
  match ds with
  | [] => None
  | _ =>
      let n := if negative then - dec_value ds else dec_value ds in
      if forallb is_ascii_digit ds && (lo <=? n) && (n <=? hi) then Some n else None
  end.

Definition parse_int (lo hi : Z) (s : str) : option Z :=
  match s with
  | 43 :: ds => parse_digits lo hi false ds
  | 45 :: ds => if lo <? 0 then parse_digits lo hi true ds else None
  | _ => parse_digits lo hi false s
  end.

Definition parse_i32 : str -> option Z := parse_int i32_min i32_max.
Definition parse_u32 : str -> option Z := parse_int 0 (2 ^ 32 - 1).
Definition parse_u64 : str -> option Z := parse_int 0 u64_max.

(** ** Iterator adaptors *)

(** [Iterator::max_by_key]: the last of the maximal elements. *)
Definition max_by_key {A} (key : A -> Z) (l : list A) : option A :=
  fold_left (fun acc x =>
    match acc with
    | None => Some x
    | Some y => if key y <=? key x then Some x else Some y
    end) l None.

(** [Iterator::sum] over integers. *)
Definition sum_Z (l : list Z) : Z := fold_right Z.add 0 l.

(** [Option::or_else] with a lazily computed alternative. *)
Definition or_else {A} (o alt : option A) : option A :=
  match o with Some _ => o | None => alt end.

(** [Option::is_none]. *)
Definition is_none {A} (o : option A) : bool := match o with None => true | Some _ => false end.

(** [Option::is_some_and] and [Option::is_none_or]. *)
Definition is_some_and {A} (o : option A) (f : A -> bool) : bool :=
  match o with Some a => f a | None => false end.

Definition is_none_or {A} (o : option A) (f : A -> bool) : bool :=
  match o with Some a => f a | None => true end.

(** [Iterator::find_map]. *)
Definition find_map {A B} (g : A -> option B) (l : list A) : option B :=
  List.hd_error (omap g l).

(** [bool::then_some]. *)
Definition then_some {A} (b : bool) (a : A) : option A := if b then Some a else None.

Notation "o 'orelse' alt" := (or_else o alt) (at level 55, right associativity) : coppice_scope.

(** ** JSON values ([serde_json::Value]) *)

Inductive json (F : Type) : Type :=
| JNull
| JBool (b : bool)
| JInt (n : Z)
| JFloat (x : F)
| JString (s : str)
| JArray (l : list (json F))
| JObject (fields : list (str * json F)).

Arguments JNull {F}.
Arguments JBool {F} _.
Arguments JInt {F} _.
Arguments JFloat {F} _.
Arguments JString {F} _.
Arguments JArray {F} _.
Arguments JObject {F} _.

(** ** Lemmas shared by the components *)

Lemma or_else_Some {A} (o alt : option A) x :
  or_else o alt = Some x <-> o = Some x \/ (o = None /\ alt = Some x).
Proof. destruct o; naive_solver. Qed.

Lemma then_some_Some {A} (b : bool) (a x : A) : then_some b a = Some x <-> b = true /\ a = x.
Proof. destruct b; naive_solver. Qed.

Lemma not_none {A} (o : option A) : is_none o = false -> exists x, o = Some x.
Proof. destruct o; [eauto|done]. Qed.

Lemma early_Ok {A E} c (e : E) (k : result A E) a : early c e k = Ok a <-> c = false /\ k = Ok a.
Proof. destruct c; naive_solver. Qed.

Lemma early_Err {A E} c (e x : E) (k : result A E) :
  early c e k = Err x <-> (c = true /\ x = e) \/ (c = false /\ k = Err x).
Proof. destruct c; naive_solver. Qed.

Lemma result_bind_Err {A B E} (r : result A E) (k : A -> result B E) e :
  result_bind r k = Err e <-> r = Err e \/ exists a, r = Ok a /\ k a = Err e.
Proof. destruct r; naive_solver. Qed.

Lemma result_bind_Ok {A B E} (r : result A E) (k : A -> result B E) b :
  result_bind r k = Ok b <-> exists a, r = Ok a /\ k a = Ok b.
Proof. destruct r; naive_solver. Qed.

Lemma db_bind_cases {S E A B : Type} (c : S -> result A E * S) (k : A -> S -> result B E * S) db r db' :
  db_bind c k db = (r, db') ->
  (exists e, c db = (Err e, db') /\ r = Err e) \/
  (exists a db1, c db = (Ok a, db1) /\ k a db1 = (r, db')).
Proof. unfold db_bind. destruct (c db) as [[a|e] db1]; naive_solver. Qed.

Lemma db_bind_run {S E A B : Type} (c : S -> result A E * S) (k : A -> S -> result B E * S) db a db' :
  c db = (Ok a, db') -> db_bind c k db = k a db'.
Proof. unfold db_bind. by intros ->. Qed.

Lemma db_bind_fail {S E A B : Type} (c : S -> result A E * S) (k : A -> S -> result B E * S) db e db' :
  c db = (Err e, db') -> db_bind c k db = (Err e, db').
Proof. unfold db_bind. by intros ->. Qed.

Lemma hd_error_none {A} (l : list A) : is_none (List.hd_error l) = false <-> l <> [].
Proof. by destruct l. Qed.

Lemma StronglySorted_snoc {A} (R : A -> A -> Prop) l x :
  StronglySorted R (l ++ [x]) <-> StronglySorted R l /\ Forall (fun y => R y x) l.
Proof.
  induction l as [|y l IH]; simpl.
  - split; [by repeat constructor|repeat constructor].
  - split.
    + intros [Hs Hy]%StronglySorted_inv. apply IH in Hs as [H1 H2].
      apply Forall_app in Hy as [Hy1 Hy2]. apply Forall_inv in Hy2. split; by constructor.
    + intros [[H1 H2]%StronglySorted_inv H3]. inversion H3; subst. constructor; [by apply IH|].
      apply Forall_app. auto.
Qed.

Lemma StronglySorted_filter {A} (R : A -> A -> Prop) (p : A -> bool) l :
  StronglySorted R l -> StronglySorted R (List.filter p l).
Proof.
  induction 1 as [|x l Hs IH Hx]; simpl; [constructor|]. destruct (p x); [|done]. constructor; [done|].
  apply Forall_forall. intros y Hy%list_elem_of_In%filter_In. rewrite Forall_forall in Hx.
  apply Hx, list_elem_of_In, Hy.
Qed.

Lemma str_le_total s t : str_le s t = true \/ str_le t s = true.
Proof.
  revert t. induction s as [|a s IH]; intros [|b t]; simpl; auto.
  destruct (Z.lt_trichotomy a b) as [?|[->|?]].
  - left. by replace (a <? b) with true by lia.
  - rewrite Z.ltb_irrefl, Z.eqb_refl. simpl. auto.
  - right. by replace (b <? a) with true by lia.
Qed.

Lemma str_le_trans s t u : str_le s t = true -> str_le t u = true -> str_le s u = true.
Proof.
  revert t u. induction s as [|a s IH]; intros [|b t] [|c u]; simpl; try done.
  rewrite !orb_true_iff, !andb_true_iff, !Z.ltb_lt, !Z.eqb_eq.
  intros [?|[-> ?]] [?|[-> ?]]; eauto with lia.
Qed.

Lemma str_le_antisymm s t : str_le s t = true -> str_le t s = true -> s = t.
Proof.
  revert t. induction s as [|a s IH]; intros [|b t]; simpl; try done.
  rewrite !orb_true_iff, !andb_true_iff, !Z.ltb_lt, !Z.eqb_eq.
  intros [?|[-> ?]] [?|[? ?]]; try lia. f_equal. by apply IH.
Qed.

(** The order of strings as a relation, for sorting. *)
Definition str_ord (s t : str) : Prop := str_le s t = true.

#[export] Instance str_ord_dec s t : Decision (str_ord s t).
Proof. unfold str_ord. apply _. Defined.

#[export] Instance str_ord_total : Total str_ord.
Proof. intros s t. apply str_le_total. Qed.

#[export] Instance str_ord_trans : Transitive str_ord.
Proof. intros s t u. apply str_le_trans. Qed.

Lemma split_on_piece p piece rest :
  forallb (fun c => negb (p c)) piece = true ->
  split_on p (piece ++ rest) =
    match split_on p rest with
    | [] => [piece]
    | q :: qs => (piece ++ q) :: qs
    end.
Proof.
  induction piece as [|c piece IH]; simpl; [|rewrite andb_true_iff, negb_true_iff; intros [-> Hp]].
  - intros _. destruct rest as [|d rest]; simpl; [done|]. destruct (p d); [done|]. by destruct (split_on p rest).
  - rewrite (IH Hp). by destruct (split_on p rest).
Qed.

Lemma split_on_join p sep pieces :
  p sep = true -> pieces <> [] -> Forall (fun q => forallb (fun c => negb (p c)) q = true) pieces ->
  split_on p (str_join [sep] pieces) = pieces.
Proof.
  intros Hsep Hne Hall. induction Hall as [|piece rest Hp Hall IH]; [done|].
  destruct rest as [|q rest].
  - simpl. rewrite <- (app_nil_r piece) at 1. rewrite split_on_piece by done. simpl. by rewrite app_nil_r.
  - change (str_join [sep] (piece :: q :: rest)) with (piece ++ sep :: str_join [sep] (q :: rest)).
    rewrite split_on_piece by done. cbn [split_on]. rewrite Hsep, IH by done. by rewrite app_nil_r.
Qed.

Lemma strip_prefix_app prefix s : strip_prefix prefix (prefix ++ s) = Some s.
Proof. induction prefix as [|c prefix IH]; simpl; [done|]. by rewrite Z.eqb_refl. Qed.

Lemma strip_prefix_Some prefix s rest : strip_prefix prefix s = Some rest -> s = prefix ++ rest.
Proof.
  revert s. induction prefix as [|c prefix IH]; intros [|d s]; simpl; try naive_solver.
  destruct (Z.eqb_spec c d) as [->|]; [|done]. intros E. by rewrite (IH _ E).
Qed.

Lemma starts_with_iff s prefix : starts_with s prefix = true <-> exists rest, s = prefix ++ rest.
Proof.
  unfold starts_with. split.
  - destruct (strip_prefix prefix s) as [rest|] eqn:E; [|done]. intros _. exists rest. by apply strip_prefix_Some.
  - intros [rest ->]. by rewrite strip_prefix_app.
Qed.

Lemma find_app {A} (p : A -> bool) l l' :
  List.find p (l ++ l') = match List.find p l with Some x => Some x | None => List.find p l' end.
Proof. induction l as [|y l IH]; cbn; [done|]. by destruct (p y). Qed.

Lemma find_Some_iff {A} (p : A -> bool) l x :
  List.find p l = Some x -> x ∈ l /\ p x = true.
Proof. intros H. apply List.find_some in H as [??]. split; [by apply list_elem_of_In|done]. Qed.

Lemma find_None_iff {A} (p : A -> bool) l :
  List.find p l = None <-> forall x, x ∈ l -> p x = false.
Proof.
  split.
  - intros H x Hx. eapply List.find_none; [done|by apply list_elem_of_In].
  - intros H. destruct (List.find p l) eqn:E; [|done].
    apply find_Some_iff in E as [??]. rewrite H in *; done.
Qed.

(** The accumulator of [max_by_key] always dominates what has been seen. *)
Lemma max_by_key_acc {A} (key : A -> Z) l acc m :
  fold_left (fun acc x =>
    match acc with
    | None => Some x
    | Some y => if key y <=? key x then Some x else Some y
    end) l acc = Some m ->
  (m ∈ l \/ acc = Some m) /\ (forall x, x ∈ l \/ acc = Some x -> key x <= key m).
Proof.
  revert acc. induction l as [|x l IH]; intros acc H; simpl in H.
  - subst acc. split; [auto|]. intros y [Hy|Hy]; [by apply not_elem_of_nil in Hy|]. naive_solver.
  - apply IH in H as [H1 H2]. destruct acc as [y|]; [destruct (Z.leb_spec (key y) (key x))|].
    + split; [set_solver|]. intros z [Hz|Hz]; [|simplify_eq; pose proof (H2 x (or_intror eq_refl)); lia].
      apply elem_of_cons in Hz as [->|?]; auto.
    + split; [set_solver|]. intros z [Hz|Hz]; [|auto].
      apply elem_of_cons in Hz as [->|?]; [pose proof (H2 y (or_intror eq_refl)); lia|auto].
    + split; [set_solver|]. intros z [Hz|Hz]; [|done].
      apply elem_of_cons in Hz as [->|?]; auto.
Qed.

Lemma max_by_key_spec {A} (key : A -> Z) l m :
  max_by_key key l = Some m -> m ∈ l /\ forall x, x ∈ l -> key x <= key m.
Proof. intros [[H|H] H2]%max_by_key_acc; [|done]. eauto. Qed.

Lemma max_by_key_None {A} (key : A -> Z) l : max_by_key key l = None <-> l = [].
Proof.
  split; [|by intros ->]. destruct l as [|x l]; [done|]. unfold max_by_key; simpl.
  intros H; exfalso; revert x H. induction l as [|y l IH]; intros x; simpl; [done|].
  destruct (key x <=? key y); apply IH.
Qed.

Lemma sum_Z_nonneg l : (forall x, x ∈ l -> 0 <= x) -> 0 <= sum_Z l.
Proof.
  induction l as [|x l IH]; simpl; [lia|]. intros H.
  pose proof (H x ltac:(set_solver)). specialize (IH ltac:(set_solver)). lia.
Qed.

(** ** [take_while] and [drop_while] *)

Lemma take_while_Forall {A} (p : A -> bool) l : Forall (fun x => p x = true) (take_while p l).
Proof. induction l as [|x l IH]; simpl; [done|]. destruct (p x) eqn:E; auto. Qed.

Lemma take_while_le {A} (p : A -> bool) l : (length (take_while p l) <= length l)%nat.
Proof. induction l as [|x l IH]; simpl; [done|]. destruct (p x); simpl; lia. Qed.

Lemma take_while_prefix {A} (p : A -> bool) l : take (length (take_while p l)) l = take_while p l.
Proof. induction l as [|x l IH]; simpl; [done|]. destruct (p x); simpl; [by rewrite IH|done]. Qed.

(** [take_while] stops exactly at the first element that fails. *)
Lemma take_while_app_stop {A} (p : A -> bool) l1 l2 :
  Forall (fun x => p x = true) l1 ->
  (forall x, List.hd_error l2 = Some x -> p x = false) ->
  take_while p (l1 ++ l2) = l1.
Proof.
  intros H1 H2. induction H1 as [|x l Hx _ IH]; simpl.
  - destruct l2 as [|y l2]; simpl; [done|]. by rewrite (H2 y eq_refl).
  - by rewrite Hx, IH.
Qed.

Lemma drop_while_app_stop {A} (p : A -> bool) l1 l2 :
  Forall (fun x => p x = true) l1 ->
  (forall x, List.hd_error l2 = Some x -> p x = false) ->
  drop_while p (l1 ++ l2) = l2.
Proof.
  intros H1 H2. induction H1 as [|x l Hx _ IH]; simpl.
  - destruct l2 as [|y l2]; simpl; [done|]. by rewrite (H2 y eq_refl).
  - by rewrite Hx.
Qed.

Lemma take_drop_while {A} (p : A -> bool) l : take_while p l ++ drop_while p l = l.
Proof. induction l as [|x l IH]; [done|]. cbn. destruct (p x); cbn; by rewrite ?IH. Qed.

Lemma drop_while_suffix {A} (p : A -> bool) (l : list A) : exists l1, l = l1 ++ drop_while p l.
Proof.
  induction l as [|x l [l1 IH]]; simpl; [by exists []|]. destruct (p x); [|by exists []].
  exists (x :: l1). simpl. by rewrite <- IH.
Qed.

Lemma drop_while_head {A} (p : A -> bool) (l : list A) x : head (drop_while p l) = Some x -> p x = false.
Proof.
  induction l as [|y l IH]; simpl; [done|]. destruct (p y) eqn:Ey; [done|]. by intros [= <-].
Qed.

Lemma drop_while_end_prefix {A} (p : A -> bool) (l : list A) :
  exists tail, l = drop_while_end p l ++ tail.
Proof.
  unfold drop_while_end. exists (rev (take_while p (rev l))).
  rewrite <- rev_app_distr. rewrite <- (rev_involutive l) at 1. f_equal.
  induction (rev l) as [|x r IH]; simpl; [done|]. destruct (p x); simpl; [by f_equal|done].
Qed.

Lemma drop_while_end_last {A} (p : A -> bool) (l : list A) x :
  last (drop_while_end p l) = Some x -> p x = false.
Proof.
  unfold drop_while_end. induction (rev l) as [|y r IH]; simpl; [done|].
  destruct (p y) eqn:E; [done|]. simpl. rewrite last_snoc. congruence.
Qed.

Lemma drop_while_nil {A} (p : A -> bool) l : drop_while p l = [] <-> Forall (fun x => p x = true) l.
Proof.
  induction l as [|x l IH]; simpl; [done|]. rewrite Forall_cons. destruct (p x) eqn:E; [by rewrite IH; tauto|].
  split; [done|by intros []].
Qed.

Lemma trim_nil s : trim s = [] <-> Forall (fun c => is_whitespace c = true) s.
Proof.
  unfold trim, drop_while_end. split.
  - intros H. apply (f_equal (@rev Z)) in H. rewrite rev_involutive in H. apply drop_while_nil in H.
    apply List.Forall_rev in H. rewrite rev_involutive in H. induction s as [|c s IH]; [done|]. simpl in H.
    destruct (is_whitespace c) eqn:E; [constructor; auto|]. by apply Forall_inv in H; rewrite E in H.
  - intros H. by rewrite (proj2 (drop_while_nil _ _) H).
Qed.

Lemma drop_while_elem {A} (p : A -> bool) l x : x ∈ l -> x ∈ drop_while p l \/ p x = true.
Proof.
  induction l as [|y l IH]; simpl; [by rewrite elem_of_nil|].
  rewrite elem_of_cons. destruct (p y) eqn:Ey; [naive_solver|]. rewrite elem_of_cons. naive_solver.
Qed.

Lemma trim_elem c s : c ∈ s -> c ∈ trim s \/ is_whitespace c = true.
Proof.
  intros Hc. unfold trim, drop_while_end.
  destruct (drop_while_elem is_whitespace s c Hc) as [H1|]; [|by right].
  assert (H2 : c ∈ rev (drop_while is_whitespace s)) by (by rewrite list_elem_of_In, <- in_rev, <- list_elem_of_In).
  destruct (drop_while_elem is_whitespace _ c H2) as [H3|]; [left|by right].
  by rewrite list_elem_of_In, <- in_rev, <- list_elem_of_In.
Qed.

Lemma drop_while_id {A} (p : A -> bool) l :
  (forall x, head l = Some x -> p x = false) -> drop_while p l = l.
Proof. destruct l as [|x l]; simpl; [done|]. intros H. by rewrite (H x eq_refl). Qed.

Lemma trim_trim s : trim (trim s) = trim s.
Proof.
  unfold trim at 1. rewrite drop_while_id.
  - unfold drop_while_end. rewrite drop_while_id; [by rewrite rev_involutive|].
    unfold trim, drop_while_end. rewrite rev_involutive. apply drop_while_head.
  - intros x Hx. apply (drop_while_head is_whitespace s).
    destruct (drop_while_end_prefix is_whitespace (drop_while is_whitespace s)) as [tail ->].
    fold (trim s). by destruct (trim s).
Qed.

Lemma trim_space c s : is_whitespace c = true -> trim (c :: s) = trim s.
Proof. intros H. unfold trim. simpl. by rewrite H. Qed.

Lemma elem_of_trim c s : c ∈ trim s -> c ∈ s.
Proof.
  intros H. destruct (drop_while_suffix is_whitespace s) as [l1 ->].
  destruct (drop_while_end_prefix is_whitespace (drop_while is_whitespace s)) as [l2 E].
  fold (trim s) in E. rewrite E. set_solver.
Qed.

(** ** ASCII *)

Lemma as_bytes_ascii s : Forall (fun c => c < 0x80) s -> as_bytes s = s.
Proof.
  unfold as_bytes. induction 1 as [|c s Hc _ IH]; [done|]. rewrite bind_cons, IH.
  unfold utf8_char. by replace (c <? 0x80) with true by lia.
Qed.

Lemma is_ascii_digit_iff b : is_ascii_digit b = true <-> 48 <= b <= 57.
Proof. unfold is_ascii_digit. rewrite andb_true_iff, !Z.leb_le. lia. Qed.

(** ** Decimal digits *)

Lemma dec_value_snoc ds d : dec_value (ds ++ [d]) = dec_value ds * 10 + (d - 48).
Proof. unfold dec_value. by rewrite fold_left_app. Qed.

Lemma dec_value_bounds ds :
  Forall (fun b => is_ascii_digit b = true) ds -> 0 <= dec_value ds < 10 ^ Z.of_nat (length ds).
Proof.
  induction ds as [|d ds IH] using rev_ind; intros H; [unfold dec_value; simpl; lia|].
  apply Forall_app in H as [H1 H2]. apply Forall_inv, is_ascii_digit_iff in H2.
  rewrite dec_value_snoc, length_app. specialize (IH H1). simpl length.
  rewrite Nat2Z.inj_add, Z.pow_add_r by lia. change (10 ^ Z.of_nat 1) with 10. lia.
Qed.

Lemma dec_digits_spec fuel n :
  0 <= n < 2 ^ Z.of_nat fuel -> (0 < fuel)%nat ->
  Forall (fun b => is_ascii_digit b = true) (dec_digits fuel n) /\ dec_value (dec_digits fuel n) = n.
Proof.
  revert n. induction fuel as [|fuel IH]; intros n Hn Hf; [lia|]. simpl.
  destruct (Z.ltb_spec n 10).
  - split; [|unfold dec_value; simpl; lia]. constructor; [|done]. apply is_ascii_digit_iff. lia.
  - assert (Hq : 0 <= n / 10 < 2 ^ Z.of_nat fuel).
    { split; [apply Z.div_pos; lia|]. apply Z.div_lt_upper_bound; [lia|].
      rewrite Nat2Z.inj_succ, Z.pow_succ_r in Hn by lia. lia. }
    assert (0 < fuel)%nat by (destruct fuel; [simpl in *; lia|lia]).
    destruct (IH (n / 10) Hq ltac:(lia)) as [H1 H2].
    pose proof (Z.mod_pos_bound n 10 ltac:(lia)).
    split.
    + apply Forall_app. split; [done|]. constructor; [|done]. apply is_ascii_digit_iff. lia.
    + rewrite dec_value_snoc, H2. pose proof (Z.div_mod n 10). lia.
Qed.

Lemma show_nonneg_spec n :
  0 <= n ->
  Forall (fun b => is_ascii_digit b = true) (show_nonneg n) /\ dec_value (show_nonneg n) = n.
Proof.
  intros Hn. apply dec_digits_spec; [|unfold dec_fuel; lia].
  split; [done|]. unfold dec_fuel. rewrite Nat2Z.inj_succ, Z2Nat.id by apply Z.log2_nonneg.
  destruct (Z.eq_dec n 0) as [->|]; [done|]. apply Z.log2_spec. lia.
Qed.

Lemma dec_digits_length fuel n k :
  0 <= n < 10 ^ Z.of_nat k -> (0 < k)%nat -> (length (dec_digits fuel n) <= k)%nat.
Proof.
  revert n k. induction fuel as [|fuel IH]; intros n k Hn Hk; simpl; [lia|].
  destruct (Z.ltb_spec n 10); simpl; [lia|]. rewrite length_app. simpl.
  destruct k as [|[|k]]; [lia|simpl in *; lia|].
  assert (length (dec_digits fuel (n / 10)) <= S k)%nat; [|lia]. apply IH; [|lia].
  split; [apply Z.div_pos; lia|]. apply Z.div_lt_upper_bound; [lia|].
  rewrite Nat2Z.inj_succ, Z.pow_succ_r in Hn by lia. lia.
Qed.

Lemma show_nonneg_nonempty n : show_nonneg n <> [].
Proof.
  unfold show_nonneg, dec_fuel. simpl. destruct (n <? 10); [done|]. by destruct (dec_digits _ _).
Qed.

Create Rewrite HintDb coppice.
#[export] Hint Rewrite @or_else_Some @then_some_Some @early_Ok @result_bind_Ok : coppice.
