(* ===== verification/Float64.v ===== *)
(** * IEEE-754 binary64, as the code's [f64]

    The reading-state code computes progressions in [f64].  [f64] is modelled by
    the Standard Library's executable specification of IEEE-754 floats
    ([SpecFloat], precision 53, exponent bound 1024, round to nearest even), so
    every division, product and comparison of the model is the one the machine
    performs; nothing is replaced by exact rationals. *)

From stdpp Require Import base list.
From Stdlib Require Import ZArith Lia SpecFloat.
From S2P Require Import Prelude.

#[local] Open Scope Z_scope.

Abbreviation f64 := spec_float.

Definition prec : Z := 53.
Definition emax : Z := 1024.

(** ** Operations *)

Definition f64_zero : f64 := S754_zero false.
Definition f64_one : f64 := S754_finite false 4503599627370496 (-52).

(** [f64::from(i32)] and [i64 as f64]: round to nearest even. *)
Definition f64_of_Z (z : Z) : f64 := binary_normalize prec emax z 0 false.

Definition fadd : f64 -> f64 -> f64 := SFadd prec emax.
Definition fsub : f64 -> f64 -> f64 := SFsub prec emax.
Definition fmul : f64 -> f64 -> f64 := SFmul prec emax.
Definition fdiv : f64 -> f64 -> f64 := SFdiv prec emax.

(** The comparison operators; every one is [false] on NaN. *)
Definition flt (x y : f64) : bool := SFltb x y.
Definition fle (x y : f64) : bool := SFleb x y.
Definition feq (x y : f64) : bool := SFeqb x y.

Definition is_nan (x : f64) : bool :=
  match x with S754_nan => true | _ => false end.

Definition is_finite (x : f64) : bool :=
  match x with S754_zero _ | S754_finite _ _ _ => true | _ => false end.

(** [f64::clamp]: two conditional assignments, NaN passes through. *)
Definition fclamp (x lo hi : f64) : f64 :=
  let x := if flt x lo then lo else x in
  if flt hi x then hi else x.

(** The integer part of the magnitude, half away from zero: [m * 2^e] rounded. *)
Definition round_magnitude (m : positive) (e : Z) : Z :=
  if 0 <=? e then Z.shiftl (Zpos m) e
  else (2 * Zpos m + 2 ^ (- e)) / (2 * 2 ^ (- e)).

(** [f64::round]: half away from zero. *)
Definition fround (x : f64) : f64 :=
  match x with
  | S754_finite s m e =>
      binary_normalize prec emax (cond_Zopp s (round_magnitude m e)) 0 s
  | _ => x
  end.

(** [f64 as i64]: truncating and saturating, NaN to 0. *)
Definition f64_to_i64 (x : f64) : Z :=
  match x with
  | S754_nan => 0
  | S754_zero _ => 0
  | S754_infinity s => if s then i64_min else i64_max
  | S754_finite s m e =>
      let mag := if 0 <=? e then Z.shiftl (Zpos m) e else Z.shiftr (Zpos m) (- e) in
      Z.max i64_min (Z.min i64_max (cond_Zopp s mag))
  end.

(** [f64::total_cmp] compares the bit patterns as signed integers, the magnitude bits of
    negative values flipped; [SpecFloat] has one NaN, taken as the positive one. *)
Definition magnitude_bits (x : f64) : Z :=
  match x with
  | S754_zero _ => 0
  | S754_infinity _ => 0x7FF0000000000000
  | S754_nan => 0x7FF8000000000000
  | S754_finite _ m e =>
      if Zpos m <? 2 ^ 52 then Zpos m else (e + 1075) * 2 ^ 52 + (Zpos m - 2 ^ 52)
  end.

Definition total_key (x : f64) : Z :=
  match x with
  | S754_zero true | S754_infinity true | S754_finite true _ _ => - magnitude_bits x - 1
  | _ => magnitude_bits x
  end.

(** A float that lies in the closed unit interval (in particular not NaN). *)
Definition in_unit (x : f64) : Prop := fle f64_zero x = true /\ fle x f64_one = true.

(** ** The order on non-NaN floats *)

Definition fsgn (s : bool) : Z := if s then -1 else 1.

(** A strict key: [SFcompare] is the lexicographic comparison of these triples. *)
Definition fkey (x : f64) : Z * Z * Z :=
  match x with
  | S754_nan => (0, 0, 0)
  | S754_infinity s => (2 * fsgn s, 0, 0)
  | S754_zero _ => (0, 0, 0)
  | S754_finite s m e => (fsgn s, fsgn s * e, fsgn s * Zpos m)
  end.

Definition key_lt (a b : Z * Z * Z) : Prop :=
  let '(a1, a2, a3) := a in
  let '(b1, b2, b3) := b in
  a1 < b1 \/ (a1 = b1 /\ (a2 < b2 \/ (a2 = b2 /\ a3 < b3))).

Lemma key_lt_trans a b c : key_lt a b -> key_lt b c -> key_lt a c.
Proof. destruct a as [[??]?], b as [[??]?], c as [[??]?]; simpl; lia. Qed.

Lemma key_lt_total a b : key_lt a b \/ a = b \/ key_lt b a.
Proof.
  destruct a as [[a1 a2] a3], b as [[b1 b2] b3]; simpl.
  destruct (Z.lt_trichotomy a1 b1) as [?|[->|?]], (Z.lt_trichotomy a2 b2) as [?|[->|?]],
    (Z.lt_trichotomy a3 b3) as [?|[->|?]]; auto with lia.
Qed.

Lemma key_lt_irrefl a : ~ key_lt a a.
Proof. destruct a as [[??]?]; simpl; lia. Qed.

Lemma SFcompare_spec x y :
  is_nan x = false -> is_nan y = false ->
  match SFcompare x y with
  | Some Lt => key_lt (fkey x) (fkey y)
  | Some Eq => fkey x = fkey y
  | Some Gt => key_lt (fkey y) (fkey x)
  | None => False
  end.
Proof.
  destruct x as [sx|sx| |sx mx ex], y as [sy|sy| |sy my ey]; try discriminate;
    intros _ _; try (destruct sx); try (destruct sy); simpl; try lia; try done.
  all: destruct (Z.compare_spec ex ey); subst; simpl; try lia.
  all: change (Pos.compare_cont Eq mx my) with (Pos.compare mx my);
    destruct (Pos.compare_spec mx my); subst; simpl; try lia; repeat f_equal; lia.
Qed.

Lemma SFcompare_nan x y : is_nan x = true \/ is_nan y = true -> SFcompare x y = None.
Proof. by intros [H|H]; destruct x, y. Qed.

Lemma key_lt_asym a b : key_lt a b -> ~ key_lt b a.
Proof. destruct a as [[??]?], b as [[??]?]; simpl; lia. Qed.

(** Case analysis on a comparison, discharging the order contradictions. *)
Ltac fcompare_cases x y :=
  let Hx := fresh "Hx" in let Hy := fresh "Hy" in let H := fresh "H" in
  destruct (is_nan x) eqn:Hx; [rewrite SFcompare_nan by auto; naive_solver|];
  destruct (is_nan y) eqn:Hy; [rewrite SFcompare_nan by auto; naive_solver|];
  pose proof (SFcompare_spec x y Hx Hy) as H;
  pose proof (key_lt_irrefl (fkey x)); pose proof (key_lt_asym (fkey x) (fkey y));
  destruct (SFcompare x y) as [[]|]; try rewrite H in *; try done.

Lemma flt_iff x y :
  flt x y = true <-> is_nan x = false /\ is_nan y = false /\ key_lt (fkey x) (fkey y).
Proof. unfold flt, SFltb. fcompare_cases x y; naive_solver. Qed.

Lemma fle_iff x y :
  fle x y = true <-> is_nan x = false /\ is_nan y = false /\
    (key_lt (fkey x) (fkey y) \/ fkey x = fkey y).
Proof.
  unfold fle, SFleb. fcompare_cases x y; try naive_solver.
  split; [done|]. intros (_ & _ & [?|E]); [naive_solver|]. rewrite E in *. naive_solver.
Qed.

Lemma fle_trans x y z : fle x y = true -> fle y z = true -> fle x z = true.
Proof.
  rewrite !fle_iff. intros (? & ? & [H1|H1]) (? & ? & [H2|H2]); repeat split; auto.
  - left. eauto using key_lt_trans.
  - left. congruence.
  - left. congruence.
  - right. congruence.
Qed.

Lemma fle_refl x : is_nan x = false -> fle x x = true.
Proof. rewrite fle_iff. auto. Qed.

Lemma flt_fle x y : flt x y = true -> fle x y = true.
Proof. rewrite flt_iff, fle_iff. naive_solver. Qed.

(** On non-NaN floats [!(x < y)] is [y <= x]. *)
Lemma flt_false x y :
  is_nan x = false -> is_nan y = false -> flt x y = false -> fle y x = true.
Proof.
  intros Hx Hy H. apply fle_iff. repeat split; [done..|].
  destruct (key_lt_total (fkey x) (fkey y)) as [?|[?|?]]; auto.
  assert (flt x y = true) as E by (apply flt_iff; auto). congruence.
Qed.

Lemma flt_true_not_fle x y : flt x y = true -> fle y x = false.
Proof.
  rewrite flt_iff. intros (Hx & Hy & H). destruct (fle y x) eqn:E; [|done].
  apply fle_iff in E as (_ & _ & [E|E]).
  - by destruct (key_lt_asym _ _ H).
  - rewrite E in H. by destruct (key_lt_irrefl _ H).
Qed.

Lemma flt_irrefl x : flt x x = false.
Proof.
  destruct (flt x x) eqn:E; [|done]. apply flt_iff in E as (_ & _ & E).
  by destruct (key_lt_irrefl _ E).
Qed.

Lemma flt_nan_l x y : is_nan x = true -> flt x y = false.
Proof. intros. unfold flt, SFltb. rewrite SFcompare_nan; auto. Qed.

Lemma fle_not_nan_l x y : fle x y = true -> is_nan x = false.
Proof. rewrite fle_iff. naive_solver. Qed.

Lemma fle_not_nan_r x y : fle x y = true -> is_nan y = false.
Proof. rewrite fle_iff. naive_solver. Qed.

(** ** Clamping *)

Lemma fclamp_bounds x lo hi :
  fle lo hi = true -> is_nan x = false ->
  fle lo (fclamp x lo hi) = true /\ fle (fclamp x lo hi) hi = true.
Proof.
  intros Hlh Hx. pose proof (fle_not_nan_l _ _ Hlh). pose proof (fle_not_nan_r _ _ Hlh).
  unfold fclamp. destruct (flt x lo) eqn:E1; cbn zeta.
  - destruct (flt hi lo) eqn:E2.
    + apply flt_true_not_fle in E2. congruence.
    + split; [by apply fle_refl|done].
  - apply flt_false in E1; [|done..]. destruct (flt hi x) eqn:E2.
    + split; [done|by apply fle_refl].
    + split; [done|by apply flt_false].
Qed.

Lemma fclamp_id x lo hi : fle lo x = true -> fle x hi = true -> fclamp x lo hi = x.
Proof.
  intros H1 H2. unfold fclamp. destruct (flt x lo) eqn:E1.
  - apply flt_true_not_fle in E1. congruence.
  - destruct (flt hi x) eqn:E2; [|done]. apply flt_true_not_fle in E2. congruence.
Qed.

Lemma unit_interval_ordered : fle f64_zero f64_one = true.
Proof. reflexivity. Qed.

Lemma fclamp_unit x : is_nan x = false -> in_unit (fclamp x f64_zero f64_one).
Proof. apply fclamp_bounds, unit_interval_ordered. Qed.

Lemma in_unit_not_nan x : in_unit x -> is_nan x = false.
Proof. intros [_ H]. by apply fle_not_nan_l in H. Qed.

Lemma in_unit_zero : in_unit f64_zero.
Proof. by split. Qed.

Lemma in_unit_one : in_unit f64_one.
Proof. by split. Qed.

Lemma in_unit_finite x : in_unit x -> is_finite x = true.
Proof. destruct x as [[]|[]| |]; by intros [??]. Qed.

Create HintDb f64.
#[export] Hint Resolve fle_refl flt_fle fclamp_unit in_unit_not_nan in_unit_zero in_unit_one
  in_unit_finite : f64.

(** ** Rounding

    [SpecFloat] rounds by shifting the mantissa right one bit at a time, keeping
    a round bit and a sticky bit.  [shr_spec] says what the shifted record is:
    the quotient by a power of two, with the two bits both clear exactly when
    the division is exact. *)

Definition shr_rep (m0 : Z) (k : Z) (mrs : shr_record) : Prop :=
  0 <= k /\ shr_m mrs = m0 / 2 ^ k /\
  (shr_r mrs || shr_s mrs = false <-> m0 mod 2 ^ k = 0).

(** A finite mantissa that fits the 53-bit precision; every [f64] value does. *)
Definition fwf (x : f64) : Prop :=
  match x with S754_finite _ m _ => Zpos m < 2 ^ 53 | _ => True end.

Lemma digits2_pos_log2 p : Zpos (digits2_pos p) = Z.log2 (Zpos p) + 1.
Proof.
  assert (Z.log2 (Zpos p) + 1 = Zpos (Pos.size p)) as ->.
  { destruct p; simpl; lia. }
  induction p; simpl; congruence.
Qed.

Lemma Zdigits2_bound m : 0 <= m -> m < 2 ^ Zdigits2 m.
Proof.
  destruct m as [|p|p]; simpl; try lia. intros _.
  change (Z.pow_pos 2 (digits2_pos p)) with (2 ^ Zpos (digits2_pos p)).
  rewrite digits2_pos_log2. destruct (Z.log2_spec (Zpos p)); lia.
Qed.

Lemma Zdigits2_nonneg m : 0 <= Zdigits2 m.
Proof. destruct m; simpl; lia. Qed.

Lemma Zdigits2_le m n : 0 <= m -> 0 <= n -> m < 2 ^ n -> Zdigits2 m <= n.
Proof.
  destruct m as [|p|p]; simpl; try lia. intros _ Hn H.
  rewrite digits2_pos_log2. apply Z.log2_lt_pow2 in H; lia.
Qed.

Lemma iter_pos_counted {A} (f : A -> A) (P : Z -> A -> Prop) :
  (forall k x, P k x -> P (k + 1) (f x)) ->
  forall n k x, P k x -> P (k + Zpos n) (iter_pos f n x).
Proof.
  intros Hf n. induction n as [n IH|n IH|]; intros k x Hx; simpl.
  - replace (k + Zpos n~1) with (k + 1 + Zpos n + Zpos n) by lia. auto.
  - replace (k + Zpos n~0) with (k + Zpos n + Zpos n) by lia. auto.
  - auto.
Qed.

Lemma shr_1_nonneg m r s :
  0 <= m -> shr_1 (Build_shr_record m r s) = Build_shr_record (m / 2) (m mod 2 =? 1) (r || s).
Proof.
  intros Hm. destruct m as [|[p|p|]|p]; try done; cbn [shr_1].
  - replace (Zpos p~1 / 2) with (Zpos p) by (Z.to_euclidean_division_equations; lia).
    by replace (Zpos p~1 mod 2) with 1 by (Z.to_euclidean_division_equations; lia).
  - replace (Zpos p~0 / 2) with (Zpos p) by (Z.to_euclidean_division_equations; lia).
    by replace (Zpos p~0 mod 2) with 0 by (Z.to_euclidean_division_equations; lia).
Qed.

Lemma shr_1_rep m0 k mrs : 0 <= m0 -> shr_rep m0 k mrs -> shr_rep m0 (k + 1) (shr_1 mrs).
Proof.
  intros Hm0 (Hk & Hm & Hbits). destruct mrs as [m r s]; cbn [shr_m shr_r shr_s] in *.
  assert (0 < 2 ^ k) by lia.
  assert (0 <= m) by (subst m; apply Z.div_pos; lia).
  assert (Hq : m0 / 2 ^ (k + 1) = m / 2).
  { by rewrite Z.pow_add_r, <- Z.div_div, <- Hm by lia. }
  assert (Hr : m0 mod 2 ^ (k + 1) = (m mod 2) * 2 ^ k + m0 mod 2 ^ k).
  { pose proof (Z.div_mod m0 (2 ^ k) ltac:(lia)). pose proof (Z.div_mod m 2 ltac:(lia)).
    pose proof (Z.mod_pos_bound m0 (2 ^ k) ltac:(lia)). pose proof (Z.mod_pos_bound m 2 ltac:(lia)).
    symmetry. apply Z.mod_unique with (m / 2); rewrite Z.pow_add_r, Z.pow_1_r by lia; nia. }
  pose proof (Z.mod_pos_bound m0 (2 ^ k) ltac:(lia)) as B0.
  pose proof (Z.mod_pos_bound m 2 ltac:(lia)) as B1.
  rewrite shr_1_nonneg by done. unfold shr_rep; cbn [shr_m shr_r shr_s].
  rewrite Hq, Hr. split_and!; [lia|done|].
  rewrite orb_false_iff, Hbits, Z.eqb_neq.
  split; [intros [? ->]; lia|]. intros. split; nia.
Qed.

Lemma shr_spec m e n :
  0 <= m -> 0 <= n ->
  exists mrs, shr (Build_shr_record m false false) e n = (mrs, e + n) /\ shr_rep m n mrs.
Proof.
  intros Hm Hn. destruct n as [|p|p]; simpl; [| |lia].
  - eexists. split; [by rewrite Z.add_0_r|].
    unfold shr_rep; simpl. rewrite Z.div_1_r, Z.mod_1_r. done.
  - eexists. split; [done|].
    apply (iter_pos_counted shr_1 (shr_rep m) (fun k x => shr_1_rep m k x Hm) p 0).
    unfold shr_rep; simpl. rewrite Z.div_1_r, Z.mod_1_r. done.
Qed.

Lemma shr_fexp_exact m e :
  0 <= m ->
  let n := Z.max 0 (fexp prec emax (Zdigits2 m + e) - e) in
  exists mrs, shr_fexp prec emax m e loc_Exact = (mrs, e + n) /\ shr_rep m n mrs.
Proof.
  intros Hm. cbv zeta. unfold shr_fexp. cbn [shr_record_of_loc].
  set (d := fexp prec emax (Zdigits2 m + e) - e).
  destruct (Z.le_ge_cases 0 d) as [Hd|Hd].
  - rewrite Z.max_r by done. by apply shr_spec.
  - rewrite Z.max_l by done. exists (Build_shr_record m false false).
    split; [destruct d; simpl; [| lia |]; by rewrite Z.add_0_r|].
    unfold shr_rep; simpl. by rewrite Z.div_1_r, Z.mod_1_r.
Qed.

Lemma shr_fexp_nonneg pr em m e l : 0 <= m -> 0 <= shr_m (fst (shr_fexp pr em m e l)).
Proof.
  intros Hm. unfold shr_fexp, shr.
  destruct (_ - e) as [|p|p]; cbn [fst]; [destruct l as [|[]]; done| |destruct l as [|[]]; done].
  apply (iter_pos_counted shr_1 (fun _ x => 0 <= shr_m x)) with (k := 0).
  - intros _ [m' r s] H. rewrite shr_1_nonneg by done. apply Z.div_pos; simpl in *; lia.
  - destruct l as [|[]]; done.
Qed.

Lemma round_nearest_even_bounds m l :
  m <= round_nearest_even m l <= m + 1 /\ (l = loc_Exact -> round_nearest_even m l = m).
Proof. destruct l as [|[]]; simpl; try destruct (Z.even m); split; try lia; done. Qed.

Lemma shr_fexp_lt_prec m e mrs n :
  0 <= m -> shr_fexp prec emax m e loc_Exact = (mrs, n) -> 0 <= shr_m mrs < 2 ^ 53.
Proof.
  intros Hm H. destruct (shr_fexp_exact m e Hm) as (mrs' & E & Hk & Hq & _).
  rewrite H in E. injection E as <- _. rewrite Hq.
  set (k := Z.max _ _) in *.
  split; [apply Z.div_pos; lia|]. apply Z.div_lt_upper_bound; [lia|].
  rewrite <- Z.pow_add_r by lia.
  apply Z.lt_le_trans with (2 ^ Zdigits2 m); [by apply Zdigits2_bound|].
  apply Z.pow_le_mono_r; [lia|]. unfold k, fexp, prec. lia.
Qed.

(** Every rounded result carries the given sign, is not NaN, and is well formed. *)
Definition same_sign (s : bool) (x : f64) : Prop :=
  match x with
  | S754_zero s' | S754_infinity s' => s' = s
  | S754_finite s' m _ => s' = s /\ Zpos m < 2 ^ 53
  | S754_nan => False
  end.

Lemma binary_round_aux_sign s m e l : 0 <= m -> same_sign s (binary_round_aux prec emax s m e l).
Proof.
  intros Hm. unfold binary_round_aux.
  pose proof (shr_fexp_nonneg prec emax m e l Hm) as H1.
  destruct (shr_fexp prec emax m e l) as [mrs e'] eqn:E1. cbn [fst] in H1.
  destruct (round_nearest_even_bounds (shr_m mrs) (loc_of_shr_record mrs)) as [B _].
  destruct (shr_fexp prec emax (round_nearest_even _ _) e' loc_Exact) as [mrs' e''] eqn:E2.
  apply shr_fexp_lt_prec in E2; [|lia].
  destruct (shr_m mrs') as [|p|p]; simpl; [done| |lia].
  destruct (_ <=? _); simpl; auto with lia.
Qed.

Lemma same_sign_not_nan s x : same_sign s x -> is_nan x = false.
Proof. by destruct x. Qed.

Lemma same_sign_fwf s x : same_sign s x -> fwf x.
Proof. destruct x; naive_solver. Qed.

(** A non-negative float: [+0], [+inf] or a positive finite. *)
Lemma same_sign_nonneg x : same_sign false x -> fle f64_zero x = true.
Proof. destruct x as [[]|[]| |[]]; naive_solver. Qed.

(** ** Integers as floats *)

Lemma digits_double p k : Zpos (digits2_pos (Pos.iter xO p k)) = Zpos (digits2_pos p) + Zpos k.
Proof.
  induction k as [|k IH] using Pos.peano_ind; simpl; [lia|].
  rewrite Pos.iter_succ; simpl. lia.
Qed.

Lemma iter_xO_value p k : Zpos (Pos.iter xO p k) = Zpos p * 2 ^ Zpos k.
Proof.
  induction k as [|k IH] using Pos.peano_ind; [by rewrite Z.mul_comm|].
  rewrite Pos.iter_succ, Pos2Z.inj_xO, IH, Pos2Z.inj_succ, Z.pow_succ_r by lia. lia.
Qed.

(** Rounding a mantissa that already has 53 bits or fewer, at its own exponent,
    changes nothing. *)
Lemma binary_round_aux_exact s p e :
  Zpos (digits2_pos p) = 53 -> - 1074 <= e <= 971 ->
  binary_round_aux prec emax s (Zpos p) e loc_Exact = S754_finite s p e.
Proof.
  intros Hd He.
  assert (Hf : fexp prec emax (Zdigits2 (Zpos p) + e) = e).
  { unfold fexp, emin, prec, emax. simpl Zdigits2. lia. }
  unfold binary_round_aux, shr_fexp. rewrite Hf, Z.sub_diag.
  cbn [shr shr_record_of_loc shr_m loc_of_shr_record round_nearest_even].
  rewrite Hf, Z.sub_diag. cbn [shr shr_m]. unfold emax, prec.
  by destruct (Z.leb_spec e (1024 - 53)); [|lia].
Qed.

Lemma digits2_pos_bounds p :
  2 ^ (Zpos (digits2_pos p) - 1) <= Zpos p < 2 ^ Zpos (digits2_pos p).
Proof.
  rewrite digits2_pos_log2. destruct (Z.log2_spec (Zpos p)) as [H1 H2]; [lia|].
  split; [|exact H2]. by replace (Z.log2 (Zpos p) + 1 - 1) with (Z.log2 (Zpos p)) by lia.
Qed.

(** Integers below [2^53] convert exactly, to a normalised 53-bit mantissa. *)
Lemma binary_round_small s p :
  Zpos p < 2 ^ 53 ->
  exists mz k, binary_round prec emax s p 0 = S754_finite s mz (- k) /\ 0 <= k <= 52 /\
    Zpos mz = Zpos p * 2 ^ k /\ Zpos (digits2_pos mz) = 53.
Proof.
  intros Hp. pose proof (Zdigits2_le (Zpos p) 53 ltac:(lia) ltac:(lia) Hp) as Hd.
  simpl in Hd. unfold binary_round, shl_align.
  replace (fexp prec emax (Zpos (digits2_pos p) + 0)) with (Zpos (digits2_pos p) - 53)
    by (unfold fexp, emin, prec, emax; lia).
  destruct (Zpos (digits2_pos p) - 53 - 0) as [|q|q] eqn:E; [|lia|].
  - rewrite binary_round_aux_exact by lia. exists p, 0. rewrite Z.mul_1_r. split_and!; [done|lia..].
  - pose proof (digits_double p q).
    rewrite binary_round_aux_exact by lia. exists (Pos.iter xO p q), (Zpos q).
    rewrite iter_xO_value. split_and!; [f_equal; lia|lia..].
Qed.

Lemma f64_of_Z_small p :
  Zpos p < 2 ^ 53 ->
  exists mz k, f64_of_Z (Zpos p) = S754_finite false mz (- k) /\ 0 <= k <= 52 /\
    Zpos mz = Zpos p * 2 ^ k /\ Zpos (digits2_pos mz) = 53.
Proof. apply binary_round_small. Qed.

Lemma binary_round_big s p :
  2 ^ 53 <= Zpos p ->
  (exists m e, binary_round prec emax s p 0 = S754_finite s m e /\ 1 <= e <= Zpos (digits2_pos p) - 52) \/
  (binary_round prec emax s p 0 = S754_infinity s /\ 971 < Zpos (digits2_pos p) - 52).
Proof.
  intros Hl. pose proof (digits2_pos_bounds p) as [B1 B2].
  assert (54 <= Zpos (digits2_pos p)) as Hd.
  { destruct (Z.le_gt_cases 54 (Zpos (digits2_pos p))); [done|].
    assert (2 ^ Zpos (digits2_pos p) <= 2 ^ 53) by (apply Z.pow_le_mono_r; lia). lia. }
  unfold binary_round, shl_align.
  assert (Hf : fexp prec emax (Zpos (digits2_pos p) + 0) = Zpos (digits2_pos p) - 53)
    by (unfold fexp, emin, prec, emax; lia).
  rewrite Hf. destruct (Zpos (digits2_pos p) - 53 - 0) as [|q|q] eqn:E; [lia| |lia].
  unfold binary_round_aux.
  destruct (shr_fexp_exact (Zpos p) 0 ltac:(lia)) as (mrs & -> & _ & Hm & _).
  change (Zdigits2 (Zpos p)) with (Zpos (digits2_pos p)) in *. rewrite Hf in *.
  rewrite Z.max_r in * by lia. set (n := Zpos (digits2_pos p) - 53 - 0) in *.
  destruct (round_nearest_even_bounds (shr_m mrs) (loc_of_shr_record mrs)) as [B _].
  set (r := round_nearest_even _ _) in *.
  assert (Hq : 2 ^ 52 <= shr_m mrs < 2 ^ 53).
  { rewrite Hm. split; [apply Z.div_le_lower_bound|apply Z.div_lt_upper_bound]; try lia;
      rewrite <- Z.pow_add_r by lia.
    - by replace (n + 52) with (Zpos (digits2_pos p) - 1) by lia.
    - by replace (n + 53) with (Zpos (digits2_pos p)) by lia. }
  assert (Hr : Zdigits2 r <= 54) by (apply Zdigits2_le; lia).
  destruct (shr_fexp_exact r (0 + n) ltac:(lia)) as (mrs' & -> & _ & Hm' & _).
  set (k := Z.max _ _) in *. assert (0 <= k <= 1) by (unfold k, fexp, emin, prec, emax; lia).
  assert (0 < shr_m mrs').
  { rewrite Hm'. apply Z.div_str_pos. assert (2 ^ k <= 2 ^ 1) by (apply Z.pow_le_mono_r; lia). lia. }
  destruct (shr_m mrs') as [|m|m]; [lia| |lia].
  unfold emax, prec. destruct (Z.leb_spec (0 + n + k) (1024 - 53)).
  - left. exists m, (0 + n + k). split; [done|lia].
  - right. split; [done|lia].
Qed.

Lemma binary_round_large s p :
  2 ^ 53 <= Zpos p < 2 ^ 64 -> exists m e, binary_round prec emax s p 0 = S754_finite s m e.
Proof.
  intros [Hl Hu]. assert (Zpos (digits2_pos p) <= 64) by (apply (Zdigits2_le (Zpos p) 64); lia).
  destruct (binary_round_big s p Hl) as [(m & e & -> & _)|[_ ?]]; [eauto|lia].
Qed.

(** Every 64-bit integer converts to a finite float of the same sign; only 0 to a zero. *)
Lemma f64_of_Z_finite z :
  - 2 ^ 64 < z < 2 ^ 64 ->
  (z = 0 /\ f64_of_Z z = S754_zero false) \/
  (z <> 0 /\ exists m e, f64_of_Z z = S754_finite (z <? 0) m e).
Proof.
  intros Hz. destruct z as [|p|p]; [by left|right..]; (split; [done|]);
    unfold f64_of_Z; cbn [binary_normalize Z.ltb Z.compare].
  - destruct (Z.lt_ge_cases (Zpos p) (2 ^ 53)) as [H|H].
    + destruct (binary_round_small false p H) as (m & k & -> & _). eauto.
    + apply binary_round_large. lia.
  - destruct (Z.lt_ge_cases (Zpos p) (2 ^ 53)) as [H|H].
    + destruct (binary_round_small true p H) as (m & k & -> & _). eauto.
    + apply binary_round_large. lia.
Qed.

(** ** Division by a positive integer, and products with a unit fraction *)

Lemma fdiv_by_positive x b :
  is_finite x = true -> 0 < b < 2 ^ 64 ->
  is_nan (fdiv x (f64_of_Z b)) = false /\ fwf (fdiv x (f64_of_Z b)).
Proof.
  intros Hx Hb. destruct (f64_of_Z_finite b) as [[??]|(_ & m & e & ->)]; [lia..|].
  replace (b <? 0) with false by lia.
  destruct x as [s|s| |s mx ex]; try done. cbn [fdiv SFdiv].
  destruct (SFdiv_core_binary _ _ _ _ _ _) as [[mz ez] lz] eqn:E.
  assert (0 <= mz).
  { unfold SFdiv_core_binary in E. set (q := match _ with Zpos _ => _ | _ => _ end) in E.
    assert (0 <= q).
    { unfold q. destruct (_ - _); try lia. apply Z.shiftl_nonneg. lia. }
    pose proof (Z.div_pos q (Zpos m) ltac:(done) ltac:(lia)) as Hq. unfold Z.div in Hq.
    destruct (Z.div_eucl q (Zpos m)) as [q' r]. congruence. }
  pose proof (binary_round_aux_sign (xorb s false) mz ez lz ltac:(done)) as S.
  split; [by eapply same_sign_not_nan|by eapply same_sign_fwf].
Qed.

(** The quotient is well formed whatever the dividend. *)
Lemma fdiv_positive_wf x b : 0 < b < 2 ^ 64 -> fwf (fdiv x (f64_of_Z b)).
Proof.
  intros Hb. destruct (is_finite x) eqn:Hx; [by apply fdiv_by_positive|].
  destruct (f64_of_Z_finite b) as [[??]|(_ & m & e & ->)]; [lia..|]. by destruct x.
Qed.

Lemma f64_of_Z_is_finite z : - 2 ^ 64 < z < 2 ^ 64 -> is_finite (f64_of_Z z) = true.
Proof. intros H. destruct (f64_of_Z_finite z H) as [[_ ->]|(_ & m & e & ->)]; done. Qed.

(** [m * 2^e <= D] for a non-negative finite float. *)
Definition value_le (x : f64) (d : Z) : Prop :=
  match x with
  | S754_zero _ => 0 <= d
  | S754_finite false m e => Zpos m * 2 ^ Z.max 0 e <= d * 2 ^ Z.max 0 (- e)
  | _ => False
  end.

(** A unit fraction times an integer below [2^53] rounds to at most the integer:
    the integer lies on the rounding grid of the product. *)
Lemma round_product_le m e md k d :
  Zpos m < 2 ^ 53 -> (e < -52 \/ (e = -52 /\ Zpos m <= 2 ^ 52)) ->
  0 <= k <= 52 -> Zpos md = Zpos d * 2 ^ k -> Zpos (digits2_pos md) = 53 -> Zpos d < 2 ^ 53 ->
  value_le (binary_round_aux prec emax false (Zpos (m * md)) (e + - k) loc_Exact) (Zpos d).
Proof.
  intros Hm He Hk Hmd Hdig Hd.
  set (M := Zpos (m * md)). set (E := e + - k).
  assert (HE : E <= -52) by (unfold E; lia).
  (* the exact product is at most d *)
  assert (HM : M <= Zpos d * 2 ^ (- E)).
  { unfold M. rewrite Pos2Z.inj_mul, Hmd.
    replace (- E) with (- e + k) by (unfold E; lia). rewrite Z.pow_add_r by lia.
    assert (Zpos m <= 2 ^ (- e)).
    { destruct He as [He|[-> He]]; [|done].
      apply Z.le_trans with (2 ^ 53); [lia|]. apply Z.pow_le_mono_r; lia. }
    nia. }
  (* the grid of the product is no coarser than the grid of d *)
  assert (Hdg : Zdigits2 M <= 53 - k - E).
  { assert (Zdigits2 M <= Z.log2 (Zpos d * 2 ^ (- E)) + 1).
    { unfold M at 1. simpl Zdigits2. rewrite digits2_pos_log2.
      apply Z.add_le_mono_r, Z.log2_le_mono. exact HM. }
    rewrite Z.log2_mul_pow2 in * by lia.
    assert (Z.log2 (Zpos d) = 52 - k).
    { rewrite digits2_pos_log2, Hmd, Z.log2_mul_pow2 in Hdig; lia. }
    lia. }
  unfold binary_round_aux.
  destruct (shr_fexp_exact M E ltac:(lia)) as (mrs & Esh & Hn & Hq & Hbits).
  pose proof (shr_fexp_lt_prec M E _ _ ltac:(lia) Esh) as Hlt. rewrite Esh.
  set (n := Z.max 0 _) in *.
  assert (HnE : E + n <= - k \/ n = 0).
  { unfold n, fexp, emin, prec, emax. lia. }
  assert (E + n <= 0) as HnE' by lia.
  destruct (round_nearest_even_bounds (shr_m mrs) (loc_of_shr_record mrs)) as [B Bx].
  set (r := round_nearest_even _ _) in *.
  (* r is at most d on the grid 2^(E+n) *)
  assert (Hr : r <= Zpos d * 2 ^ (- (E + n))).
  { assert (HM' : M <= Zpos d * 2 ^ (- (E + n)) * 2 ^ n).
    { rewrite <- Z.mul_assoc, <- Z.pow_add_r by lia. by replace (- (E + n) + n) with (- E) by lia. }
    pose proof (Z.div_mod M (2 ^ n) ltac:(lia)). pose proof (Z.mod_pos_bound M (2 ^ n) ltac:(lia)).
    destruct (Z.eq_dec (M mod 2 ^ n) 0) as [Ez|Ez].
    - apply Hbits in Ez. rewrite orb_false_iff in Ez. destruct Ez as [Er Es].
      rewrite Bx by (destruct mrs as [? [] []]; done). rewrite Hq. nia.
    - rewrite Hq in B. nia. }
  assert (0 <= r) by (pose proof (Z.div_pos M (2 ^ n)); lia).
  destruct (shr_fexp_exact r (E + n) ltac:(lia)) as (mrs' & -> & Hn' & Hq' & _).
  set (n' := Z.max 0 (fexp prec emax (Zdigits2 r + (E + n)) - (E + n))) in *.
  assert (Hn1 : n' <= 1).
  { assert (Zdigits2 r <= 54) by (apply Zdigits2_le; lia).
    assert (-1074 <= E + n) by (unfold n, fexp, emin, prec, emax; lia).
    unfold n', fexp, emin, prec, emax. lia. }
  assert (Hfin : shr_m mrs' * 2 ^ n' <= Zpos d * 2 ^ (- (E + n))).
  { pose proof (Z.div_mod r (2 ^ n') ltac:(lia)). pose proof (Z.mod_pos_bound r (2 ^ n') ltac:(lia)).
    rewrite Hq'. nia. }
  destruct (shr_m mrs') as [|p|p] eqn:Ep; [simpl; lia| |].
  2: { pose proof (Z.div_pos r (2 ^ n') ltac:(lia) ltac:(lia)) as Hp. by rewrite <- Hq' in Hp. }
  unfold emax, prec. destruct (Z.leb_spec (E + n + n') (1024 - 53)); [|lia]. simpl.
  destruct (Z.le_gt_cases (E + n + n') 0).
  - rewrite (Z.max_l 0), (Z.max_r 0) by lia. rewrite Z.mul_1_r.
    replace (- (E + n)) with (- (E + n + n') + n') in Hfin by lia.
    rewrite Z.pow_add_r in Hfin by lia. assert (0 < 2 ^ n') by lia. nia.
  - rewrite (Z.max_r 0), (Z.max_l 0) by lia. rewrite Z.mul_1_r.
    replace n' with (E + n + n' + - (E + n)) in Hfin by lia.
    rewrite Z.pow_add_r in Hfin by lia. assert (0 < 2 ^ (- (E + n))) by lia. nia.
Qed.

Lemma fmul_unit_le w d :
  in_unit w -> fwf w -> 0 <= d < 2 ^ 53 -> value_le (fmul w (f64_of_Z d)) d.
Proof.
  intros [Hw0 Hw1] Hwf Hd. apply fle_iff in Hw0 as (_ & Hnan & Hw0). apply fle_iff in Hw1 as (_ & _ & Hw1).
  destruct d as [|p|p]; [| |lia].
  { clear Hd. destruct w as [s|s| |s m e]; try done; try destruct s; try done; exfalso;
      unfold key_lt, fkey, fsgn, f64_zero, f64_one in *; destruct Hw0 as [?|[=]], Hw1 as [?|[=]]; lia. }
  destruct (f64_of_Z_small p) as (mz & k & -> & Hk & Hmz & Hdig); [lia|].
  destruct w as [s|s| |s m e]; try (simpl in *; lia).
  { destruct s; simpl in *; destruct Hw0 as [?|[=]], Hw1 as [?|[=]]; lia. }
  destruct s; [simpl in *; destruct Hw0 as [?|[=]]; lia|].
  cbn [fmul SFmul xorb]. apply round_product_le; try done; try lia.
  destruct Hw1 as [Hw1|[= Hw1 Hw2]]; simpl in *; lia.
Qed.

Lemma round_magnitude_le m e d :
  0 <= d -> value_le (S754_finite false m e) d -> 0 <= round_magnitude m e <= d.
Proof.
  intros Hd H. unfold value_le in H. unfold round_magnitude. destruct (Z.leb_spec 0 e).
  - rewrite Z.max_r, (Z.max_l 0) in H by lia. rewrite Z.shiftl_mul_pow2 by lia. nia.
  - rewrite Z.max_l, (Z.max_r 0) in H by lia. rewrite Z.mul_1_r in H.
    assert (0 < 2 ^ (- e)) by lia. split; [apply Z.div_pos; lia|].
    apply Z.lt_succ_r, Z.div_lt_upper_bound; nia.
Qed.

Lemma f64_to_i64_small z : 0 <= z < 2 ^ 53 -> f64_to_i64 (f64_of_Z z) = z.
Proof.
  intros Hz. destruct z as [|p|p]; [done| |lia].
  destruct (f64_of_Z_small p) as (m & k & -> & Hk & Hm & _); [lia|].
  unfold f64_to_i64, cond_Zopp, i64_min, i64_max. destruct (Z.leb_spec 0 (- k)).
  - replace k with 0 in * by lia. rewrite Z.shiftl_0_r. lia.
  - rewrite Z.opp_involutive, Z.shiftr_div_pow2, Hm, Z.div_mul by lia. lia.
Qed.

(** [(w * d as f64).round() as i64] lies in [0, d] for a unit fraction [w]. *)
Lemma scale_round_bounds w d :
  in_unit w -> fwf w -> 0 <= d < 2 ^ 53 ->
  0 <= f64_to_i64 (fround (fmul w (f64_of_Z d))) <= d.
Proof.
  intros Hw Hwf Hd. pose proof (fmul_unit_le w d Hw Hwf Hd) as H.
  destruct (fmul w (f64_of_Z d)) as [s|s| |s m e]; try done.
  destruct s; [done|]. destruct (round_magnitude_le m e d ltac:(lia) H).
  cbn [fround cond_Zopp]. fold (f64_of_Z (round_magnitude m e)).
  rewrite f64_to_i64_small; lia.
Qed.

(** ** Rounding to an integer in a range *)

(** Conversion of integers below [2^53] is strictly monotone. *)
Lemma f64_of_Z_lt p q :
  Zpos p < Zpos q < 2 ^ 53 -> flt (f64_of_Z (Zpos p)) (f64_of_Z (Zpos q)) = true.
Proof.
  intros [H1 H2]. destruct (f64_of_Z_small p) as (m & k & -> & Hk & Hm & Dm); [lia|].
  destruct (f64_of_Z_small q) as (n & l & -> & Hl & Hn & Dn); [lia|].
  pose proof (digits2_pos_bounds m) as [Bm1 Bm2]. pose proof (digits2_pos_bounds n) as [Bn1 Bn2].
  rewrite Dm in *. rewrite Dn in *.
  apply flt_iff. split_and!; [done..|]. cbn [fkey fsgn key_lt]. right. split; [done|].
  destruct (Z.lt_trichotomy k l) as [Hkl|[->|Hkl]]; [exfalso|right; nia|left; lia].
  assert (2 ^ l = 2 ^ k * 2 ^ (l - k)) as E by (rewrite <- Z.pow_add_r by lia; f_equal; lia).
  assert (2 ^ 1 <= 2 ^ (l - k)) by (apply Z.pow_le_mono_r; lia).
  assert (0 < 2 ^ k) by lia. rewrite E in Hn.
  assert (Zpos p * 2 ^ k * 2 ^ (l - k) < Zpos n) by nia.
  rewrite <- Hm in *. change (2 ^ (53 - 1)) with (2 ^ 52) in *. nia.
Qed.

(** A rounded positive value above [b] compares above it, however large. *)
Lemma fround_above b z :
  0 < b < Zpos z -> b < 2 ^ 53 -> flt (f64_of_Z b) (f64_of_Z (Zpos z)) = true.
Proof.
  intros Hz Hb. destruct b as [|b|b]; [lia| |lia].
  destruct (Z.lt_ge_cases (Zpos z) (2 ^ 53)) as [Hs|Hs]; [apply f64_of_Z_lt; lia|].
  destruct (f64_of_Z_small b Hb) as (m & k & -> & Hk & _). unfold f64_of_Z. cbn [binary_normalize].
  destruct (binary_round_big false z Hs) as [(m' & e & -> & He)|[-> _]]; apply flt_iff;
    split_and!; try done; cbn [fkey fsgn key_lt]; lia.
Qed.

(** [x.round().clamp(0.0, b) as _] lies in [0, b], whatever [x] is. *)
Lemma round_clamp_bounds x b :
  0 < b < 2 ^ 53 -> 0 <= f64_to_i64 (fclamp (fround x) f64_zero (f64_of_Z b)) <= b.
Proof.
  intros Hb. destruct (f64_of_Z_finite b ltac:(lia)) as [[??]|(_ & mb & eb & Eb)]; [lia|].
  replace (b <? 0) with false in Eb by lia.
  assert (Hhi : f64_to_i64 (f64_of_Z b) = b) by (apply f64_to_i64_small; lia).
  destruct x as [s|s| |s m e]; cbn [fround].
  - unfold fclamp. rewrite Eb. destruct s; cbn; lia.
  - unfold fclamp. rewrite Eb in *. destruct s; cbn in *; lia.
  - unfold fclamp. rewrite Eb. cbn. lia.
  - assert (0 <= round_magnitude m e).
    { unfold round_magnitude. destruct (Z.leb_spec 0 e); [apply Z.shiftl_nonneg; lia|].
      assert (0 < 2 ^ (- e)) by lia. apply Z.div_pos; lia. }
    destruct (round_magnitude m e) as [|z|z] eqn:Ez; [|clear Ez|lia].
    { unfold fclamp. rewrite Eb. destruct s; cbn [cond_Zopp]; rewrite ?Z.opp_0; cbn; lia. }
    destruct s; cbn [cond_Zopp]; [change (- Zpos z) with (Zneg z)|].
    + assert (Hneg : flt (binary_normalize prec emax (Zneg z) 0 true) f64_zero = true).
      { cbn [binary_normalize]. destruct (Z.lt_ge_cases (Zpos z) (2 ^ 53)) as [Hs|Hs].
        - by destruct (binary_round_small true z Hs) as (m' & k & -> & _).
        - by destruct (binary_round_big true z Hs) as [(m' & e' & -> & _)|[-> _]]. }
      unfold fclamp. rewrite Hneg, Eb. cbn. lia.
    + change (binary_normalize prec emax (Zpos z) 0 false) with (f64_of_Z (Zpos z)).
      assert (Hpos : flt (f64_of_Z (Zpos z)) f64_zero = false).
      { unfold f64_of_Z. cbn [binary_normalize]. destruct (Z.lt_ge_cases (Zpos z) (2 ^ 53)) as [Hs|Hs].
        - by destruct (binary_round_small false z Hs) as (m' & k & -> & _).
        - by destruct (binary_round_big false z Hs) as [(m' & e' & -> & _)|[-> _]]. }
      unfold fclamp. rewrite Hpos. destruct (flt (f64_of_Z b) (f64_of_Z (Zpos z))) eqn:E; [lia|].
      destruct (Z.le_gt_cases (Zpos z) b) as [Hle|Hgt]; [rewrite f64_to_i64_small; lia|].
      rewrite fround_above in E; [done|lia..].
Qed.

#[export] Hint Resolve same_sign_not_nan same_sign_fwf f64_of_Z_is_finite : f64.

(** ** JSON values *)

(** [PartialEq] of values; the entries of an object are in the order of their keys. *)
Fixpoint value_eq (a b : json f64) : bool :=
  match a, b with
  | JNull, JNull => true
  | JBool x, JBool y => Bool.eqb x y
  | JInt x, JInt y => x =? y
  | JFloat x, JFloat y => feq x y
  | JString x, JString y => bool_decide (x = y)
  | JArray l, JArray m =>
      (fix go l m := match l, m with
                     | [], [] => true
                     | x :: l, y :: m => value_eq x y && go l m
                     | _, _ => false
                     end) l m
  | JObject l, JObject m =>
      (fix go l m := match l, m with
                     | [], [] => true
                     | (j, x) :: l, (k, y) :: m => bool_decide (j = k) && value_eq x y && go l m
                     | _, _ => false
                     end) l m
  | _, _ => false
  end.
