(* ===== verification/ReadingState.v ===== *)
(** * Reading state: projection and conflict resolution

    Models [src/crates/models/src/domain/reading_state.rs] (the protocol-neutral
    projection of a reading position, the conflict rule, and the conversion of a
    position between the ebook and the audiobook edition of a work) with the
    Readium locator types of [src/crates/models/src/shared/readium.rs].

    [rust_decimal] is a third-party crate: its conversions are the operations of
    the class [DecimalOps]; what the code relies on is the class [DecimalLaws].
    Instants ([DateTime<Utc>]) are integers, nanoseconds since the epoch. *)

From stdpp Require Import base gmap list strings.
From Stdlib Require Import ZArith Lia SpecFloat.
From S2P Require Import Prelude Float64.

#[local] Open Scope Z_scope.
#[local] Open Scope coppice_scope.

Abbreviation value := (json f64).

(** ** The decimal interface *)

Class DecimalOps := {
  Decimal : Type;
  (** [Decimal::try_from(f64).ok()] *)
  decimal_of_f64 : f64 -> option Decimal;
  (** [value.to_string().parse::<f64>().ok()] *)
  decimal_parse_f64 : Decimal -> option f64;
}.

(** Parsing a string as [f64] yields a value of the type: its mantissa fits. *)
Class DecimalLaws `{DecimalOps} := {
  decimal_parse_wf : forall d x, decimal_parse_f64 d = Some x -> fwf x;
}.

(** ** Readium locators *)

Section readium.
Context `{DecimalOps}.

Record ReadiumLocation := {
  loc_fragments : option (list str);
  loc_progression : option Decimal;
  loc_position : option Z;
  loc_total_progression : option Decimal;
  loc_css_selector : option str;
  loc_partial_cfi : option str;
}.

Record ReadiumText := {
  text_after : option str;
  text_before : option str;
  text_highlight : option str;
}.

Record ReadiumLocator := {
  chapter_title : str;
  href : str;
  title : option str;
  locations : option ReadiumLocation;
  text : option ReadiumText;
  kobo_span : option str;
  type_ : str;
}.

End readium.

(** ** Updates, projections and heads *)

Definition STALE_TOLERANCE_SECS : Z := 60.

Definition nanos_per_sec : Z := 1000000000.

(** [Duration::seconds]. *)
Definition seconds (n : Z) : Z := n * nanos_per_sec.

Inductive SourceProtocol :=
| Stump | Komga | Kobo | Koreader | Opds | Liseur | Kavita | Abs.

Inductive TimestampKind := Device | Server.

#[export] Instance SourceProtocol_eq_dec : EqDecision SourceProtocol.
Proof. solve_decision. Defined.

#[export] Instance TimestampKind_eq_dec : EqDecision TimestampKind.
Proof. solve_decision. Defined.

Inductive Outcome := Accepted | ProvenanceOnly.

#[export] Instance Outcome_eq_dec : EqDecision Outcome.
Proof. solve_decision. Defined.

Section updates.
Context `{DecimalOps}.

Inductive Position :=
| PPage (page : Z)
| PLocator (locator : ReadiumLocator)
| PTime (position_ms : Z) (track_index : option Z)
| PNone.

Record ProtocolUpdate := {
  u_protocol : SourceProtocol;
  u_device_id : option str;
  u_updated_at : option Z;
  u_position : Position;
  u_progression : option f64;
  u_completed : option bool;
  u_raw_payload : value;
}.

Record Publication := {
  pub_media_id : str;
  pub_pages : Z;
  pub_duration_ms : option Z;
}.

Definition with_duration_ms (p : Publication) (duration_ms : Z) : Publication :=
  {| pub_media_id := pub_media_id p;
     pub_pages := pub_pages p;
     pub_duration_ms := Some duration_ms |}.

(** [From<&media::Model>]: the two columns of the media row a projection needs. *)
Definition publication_of_media (id : str) (pages : Z) : Publication :=
  {| pub_media_id := id; pub_pages := pages; pub_duration_ms := None |}.

Record Projection := {
  p_locator : option ReadiumLocator;
  p_page : option Z;
  p_position_ms : option Z;
  p_track_index : option Z;
  p_progression : option f64;
  p_completed : option bool;
}.

Record HeadState := {
  hs_updated_at : Z;
  hs_progression : f64;
  hs_completed : bool;
}.

Record Resolved := {
  r_outcome : Outcome;
  r_progression : f64;
  r_completed : bool;
}.

Definition page_progression (page pages : Z) : option f64 :=
  then_some (0 <? pages)
    (fclamp (fdiv (f64_of_Z page) (f64_of_Z pages)) f64_zero f64_one).

Definition time_progression (position_ms duration_ms : Z) : option f64 :=
  then_some (0 <? duration_ms)
    (fclamp (fdiv (f64_of_Z position_ms) (f64_of_Z duration_ms)) f64_zero f64_one).

Definition page_locator (media_id : str) (page pages : Z) : ReadiumLocator :=
  let progression := page_progression page pages ≫= decimal_of_f64 in
  {| chapter_title := [];
     href := lit "/api/v2/media/" ++ media_id ++ lit "/page/" ++ show_Z page;
     title := Some (lit "Page " ++ show_Z page);
     locations := Some
       {| loc_fragments := None;
          loc_progression := progression;
          loc_position := Some page;
          loc_total_progression := progression;
          loc_css_selector := None;
          loc_partial_cfi := None |};
     text := None;
     kobo_span := None;
     type_ := lit "image/jpeg" |}.

Definition clamp_unit (x : f64) : option f64 :=
  then_some (is_finite x) (fclamp x f64_zero f64_one).

Definition decimal_to_f64 (d : Decimal) : option f64 :=
  decimal_parse_f64 d ≫= clamp_unit.

(** The [match &update.position] of [project]. *)
Definition project_position (update : ProtocolUpdate) (publication : Publication) : Projection :=
  let asserted := u_progression update ≫= clamp_unit in
  match u_position update with
  | PPage page =>
      {| p_locator := Some (page_locator (pub_media_id publication) page (pub_pages publication));
         p_page := Some page;
         p_position_ms := None;
         p_track_index := None;
         p_progression := asserted orelse page_progression page (pub_pages publication);
         p_completed := u_completed update |}
  | PLocator locator =>
      let locs := locations locator in
      let position := locs ≫= loc_position in
      let progression :=
        asserted
        orelse ((locs ≫= loc_total_progression) ≫= decimal_to_f64)
        orelse (position ≫= fun page => page_progression page (pub_pages publication)) in
      {| p_locator := Some locator;
         p_page := position;
         p_position_ms := None;
         p_track_index := None;
         p_progression := progression;
         p_completed := u_completed update |}
  | PTime position_ms track_index =>
      {| p_locator := None;
         p_page := None;
         p_position_ms := Some position_ms;
         p_track_index := track_index;
         p_progression :=
           asserted
           orelse (pub_duration_ms publication ≫= time_progression position_ms);
         p_completed := u_completed update |}
  | PNone =>
      {| p_locator := None;
         p_page := None;
         p_position_ms := None;
         p_track_index := None;
         p_progression := asserted;
         p_completed := u_completed update |}
  end.

(** The bare completion branch: the last millisecond or the last page, at 1.0. *)
Definition complete_projection (publication : Publication) (p : Projection) : Projection :=
  let on_pages :=
    {| p_locator := p_locator p;
       p_page := then_some (0 <? pub_pages publication) (pub_pages publication);
       p_position_ms := p_position_ms p;
       p_track_index := p_track_index p;
       p_progression := Some f64_one;
       p_completed := p_completed p |} in
  match pub_duration_ms publication with
  | Some duration =>
      if 0 <? duration then
        {| p_locator := p_locator p;
           p_page := p_page p;
           p_position_ms := Some duration;
           p_track_index := p_track_index p;
           p_progression := Some f64_one;
           p_completed := p_completed p |}
      else on_pages
  | None => on_pages
  end.

Definition project (update : ProtocolUpdate) (publication : Publication) : Projection :=
  let projection := project_position update publication in
  if bool_decide (u_completed update = Some true)
     && is_none (p_page projection)
     && is_none (p_position_ms projection)
     && is_none (p_progression projection)
  then complete_projection publication projection
  else projection.

(** The guard of the conflict rule: older than the head by more than the
    tolerance, and reporting a lower progression. *)
Definition is_stale (head : HeadState) (progression : f64) (incoming_at : Z) : bool :=
  (seconds STALE_TOLERANCE_SECS <? hs_updated_at head - incoming_at)
  && flt progression (hs_progression head).

Definition resolve (head : option HeadState) (projection : Projection) (incoming_at : Z)
  : Resolved :=
  match head with
  | None =>
      let completed := default false (p_completed projection) in
      {| r_outcome := Accepted;
         r_progression :=
           default (if completed then f64_one else f64_zero) (p_progression projection);
         r_completed := completed |}
  | Some head =>
      let progression := default (hs_progression head) (p_progression projection) in
      if is_stale head progression incoming_at then
        {| r_outcome := ProvenanceOnly;
           r_progression := hs_progression head;
           r_completed := hs_completed head |}
      else
        {| r_outcome := Accepted;
           r_progression := progression;
           r_completed := default (hs_completed head) (p_completed projection) |}
  end.

End updates.

(** ** Positions across the ebook and the audiobook edition *)

Record SpineItem := {
  sp_index : Z;
  sp_href : str;
  sp_char_count : Z;
}.

Record AudioChapterSpan := {
  ch_index : Z;
  ch_start_ms : Z;
  ch_end_ms : Z;
}.

Definition duration_ms (c : AudioChapterSpan) : Z := ch_end_ms c - ch_start_ms c.

Record ChapterMapping := {
  ebook_spine_index : Z;
  audio_chapter_index : Z;
  confidence : f64;
}.

Definition chapter_at (chapters : list AudioChapterSpan) (position_ms : Z)
  : option AudioChapterSpan :=
  max_by_key ch_start_ms
    (List.filter (fun c => (0 <? duration_ms c) && (ch_start_ms c <=? position_ms)) chapters).

Definition mapped_spine_index (mappings : list ChapterMapping) (index : Z)
  : option ChapterMapping :=
  List.find (fun entry => audio_chapter_index entry =? index) mappings.

Definition mapped_chapter_index (mappings : list ChapterMapping) (index : Z)
  : option ChapterMapping :=
  List.find (fun entry => ebook_spine_index entry =? index) mappings.

Definition chars (item : SpineItem) : Z := Z.max (sp_char_count item) 0.

Definition spine_offsets (spine : list SpineItem) (index : Z) : option (Z * Z) :=
  let total := sum_Z (map chars spine) in
  let before := sum_Z (map chars (take_while (fun item => negb (sp_index item =? index)) spine)) in
  then_some (existsb (fun item => sp_index item =? index) spine) (before, Z.max total 1).

Section editions.
Context `{DecimalOps}.

Record MappedPosition := {
  mp_locator : option ReadiumLocator;
  mp_position_ms : option Z;
  mp_progression : f64;
  mp_confidence : f64;
  mp_approximate : bool;
}.

Definition map_time_to_locator (position_ms : Z) (chapters : list AudioChapterSpan)
    (spine : list SpineItem) (mappings : list ChapterMapping) : option MappedPosition :=
  chapter ← chapter_at chapters position_ms;
  mapping ← mapped_spine_index mappings (ch_index chapter);
  item ← List.find (fun item => sp_index item =? ebook_spine_index mapping) spine;
  '(chars_before, total_chars) ← spine_offsets spine (sp_index item);
  within ← clamp_unit
    (fdiv (f64_of_Z (position_ms - ch_start_ms chapter)) (f64_of_Z (duration_ms chapter)));
  let char_offset := fadd (f64_of_Z chars_before) (fmul within (f64_of_Z (chars item))) in
  total_progression ← clamp_unit (fdiv char_offset (f64_of_Z total_chars));
  Some
    {| mp_locator := Some
         {| chapter_title := [];
            href := sp_href item;
            title := None;
            locations := Some
              {| loc_fragments := None;
                 loc_progression := decimal_of_f64 within;
                 loc_position := None;
                 loc_total_progression := decimal_of_f64 total_progression;
                 loc_css_selector := None;
                 loc_partial_cfi := None |};
            text := None;
            kobo_span := None;
            type_ := lit "application/xhtml+xml" |};
       mp_position_ms := None;
       mp_progression := total_progression;
       mp_confidence := confidence mapping;
       mp_approximate := true |}.

(** The suffix match of a locator's [href] against the spine. *)
Definition spine_by_href (spine : list SpineItem) (locator_href : str) : option SpineItem :=
  let h := drop_while_end (Z.eqb 47) locator_href in
  match h with
  | [] => None
  | _ =>
      List.find (fun item =>
        match sp_href item with
        | [] => false
        | item_href => ends_with h item_href || ends_with item_href h
        end) spine
  end.

(** The loop over the cumulative character counts; [last_index] is
    [spine.last()?.index]. *)
Fixpoint locate_by_target (spine : list SpineItem) (last_index : Z) (target : f64)
    (cumulative : Z) : option (SpineItem * f64) :=
  match spine with
  | [] => None
  | item :: rest =>
      let cs := chars item in
      if flt target (f64_of_Z (cumulative + cs)) || (sp_index item =? last_index) then
        within ← (if 0 <? cs
                  then clamp_unit (fdiv (fsub target (f64_of_Z cumulative)) (f64_of_Z cs))
                  else Some f64_zero);
        Some (item, within)
      else locate_by_target rest last_index target (cumulative + cs)
  end.

Definition locate_in_spine (locator : ReadiumLocator) (spine : list SpineItem)
  : option (SpineItem * f64) :=
  match spine_by_href spine (href locator) with
  | Some item =>
      Some (item, default f64_zero ((locations locator ≫= loc_progression) ≫= decimal_to_f64))
  | None =>
      total_progression ← (locations locator ≫= loc_total_progression) ≫= decimal_to_f64;
      let total := sum_Z (map chars spine) in
      let target := fmul total_progression (f64_of_Z (Z.max total 1)) in
      last_item ← last spine;
      locate_by_target spine (sp_index last_item) target 0
  end.

Definition map_locator_to_time (locator : ReadiumLocator) (spine : list SpineItem)
    (chapters : list AudioChapterSpan) (mappings : list ChapterMapping) : option MappedPosition :=
  '(item, within) ← locate_in_spine locator spine;
  mapping ← mapped_chapter_index mappings (sp_index item);
  chapter ← List.find (fun c => ch_index c =? audio_chapter_index mapping) chapters;
  chapter ← then_some (0 <? duration_ms chapter) chapter;
  within ← clamp_unit within;
  let position_ms :=
    ch_start_ms chapter + f64_to_i64 (fround (fmul within (f64_of_Z (duration_ms chapter)))) in
  let duration_ms := default 0 (ch_end_ms <$> max_by_key ch_end_ms chapters) in
  Some
    {| mp_locator := None;
       mp_position_ms := Some position_ms;
       mp_progression := default f64_zero (time_progression position_ms duration_ms);
       mp_confidence := confidence mapping;
       mp_approximate := true |}.

End editions.

(** ** Well-typed inputs *)

Section well_typed.
Context `{DecimalOps}.

(** The inputs are values of their Rust types. *)
Definition position_ok (p : Position) : Prop :=
  match p with
  | PPage page => in_i32 page
  | PLocator l => forall locs page, locations l = Some locs -> loc_position locs = Some page -> in_i32 page
  | PTime position_ms _ => in_i64 position_ms
  | PNone => True
  end.

Definition publication_ok (p : Publication) : Prop :=
  in_i32 (pub_pages p) /\ forall d, pub_duration_ms p = Some d -> in_i64 d.

Definition spine_ok (spine : list SpineItem) : Prop :=
  forall item, item ∈ spine -> in_i64 (sp_char_count item).

Definition chapters_ok (chapters : list AudioChapterSpan) : Prop :=
  forall c, c ∈ chapters -> duration_ms c < 2 ^ 53.

End well_typed.

(** ** A fixed-point decimal, the instance the examples compute with *)

Definition fixed_ops : DecimalOps := {|
  Decimal := Z;
  decimal_of_f64 := fun x =>
    if is_finite x then Some (f64_to_i64 (fround (fmul x (f64_of_Z 1000)))) else None;
  decimal_parse_f64 := fun d =>
    Some (fdiv (f64_of_Z (Z.max (-1000000) (Z.min 1000000 d))) (f64_of_Z 1000));
|}.

(** ** Theorems *)

Lemma fixed_laws : @DecimalLaws fixed_ops.
Proof.
  constructor. intros d x E. cbn [decimal_parse_f64 fixed_ops] in E. apply (inj Some) in E as <-.
  apply fdiv_by_positive; [apply f64_of_Z_is_finite|]; lia.
Qed.

Lemma clamp_unit_Some x y : clamp_unit x = Some y -> in_unit y.
Proof.
  unfold clamp_unit. intros [Hf <-]%then_some_Some. apply fclamp_unit. by destruct x.
Qed.

Lemma fclamp_wf x : fwf x -> fwf (fclamp x f64_zero f64_one).
Proof. intros H. unfold fclamp. destruct (flt x f64_zero), (flt _ _); simpl; done. Qed.

Lemma clamp_unit_wf x y : clamp_unit x = Some y -> fwf x -> fwf y.
Proof. intros [_ <-]%then_some_Some H. by apply fclamp_wf. Qed.

Lemma clamp_unit_id x : in_unit x -> clamp_unit x = Some x.
Proof.
  intros Hx. unfold clamp_unit. rewrite (in_unit_finite _ Hx). simpl.
  destruct Hx. by rewrite fclamp_id.
Qed.

Lemma ratio_unit a b x :
  in_i64 a -> in_i64 b ->
  then_some (0 <? b) (fclamp (fdiv (f64_of_Z a) (f64_of_Z b)) f64_zero f64_one) = Some x ->
  in_unit x /\ fwf x.
Proof.
  unfold in_i64, i64_min, i64_max. intros Ha Hb [Hp <-]%then_some_Some.
  destruct (fdiv_by_positive (f64_of_Z a) b); [apply f64_of_Z_is_finite|..]; try lia.
  split; [by apply fclamp_unit|by apply fclamp_wf].
Qed.

Section theorems.
Context `{DecimalLaws}.

Lemma decimal_to_f64_Some d x : decimal_to_f64 d = Some x -> in_unit x /\ fwf x.
Proof.
  unfold decimal_to_f64. intros (y & Hy & Hx)%bind_Some.
  split; [by eapply clamp_unit_Some|]. eapply clamp_unit_wf; [done|]. by eapply decimal_parse_wf.
Qed.

Lemma i32_i64 z : in_i32 z -> in_i64 z.
Proof. unfold in_i32, in_i64, i32_min, i32_max, i64_min, i64_max. lia. Qed.

Lemma page_progression_unit page pages x :
  in_i32 page -> in_i32 pages -> page_progression page pages = Some x -> in_unit x.
Proof. intros ?? Hx. eapply ratio_unit in Hx as [??]; auto using i32_i64. Qed.

Lemma time_progression_unit position duration x :
  in_i64 position -> in_i64 duration -> time_progression position duration = Some x -> in_unit x.
Proof. intros ?? Hx. eapply ratio_unit in Hx as [??]; auto. Qed.

Lemma project_position_unit update publication x :
  position_ok (u_position update) -> publication_ok publication ->
  p_progression (project_position update publication) = Some x -> in_unit x.
Proof.
  intros Hpos [Hpages Hdur] Hx.
  assert (Ha : forall y, (u_progression update ≫= clamp_unit) = Some y -> in_unit y).
  { intros y (? & _ & ?)%bind_Some. by eapply clamp_unit_Some. }
  unfold project_position in Hx. destruct (u_position update) as [page|l|ms t|]; simpl in *.
  - apply or_else_Some in Hx as [?|[_ ?]]; eauto using page_progression_unit.
  - apply or_else_Some in Hx as [?|[_ Hx]]; [eauto|].
    apply or_else_Some in Hx as [Hx|[_ Hx]].
    + apply bind_Some in Hx as (d & _ & Hd). by apply decimal_to_f64_Some in Hd as [??].
    + apply bind_Some in Hx as (page & Hpage & Hx).
      apply bind_Some in Hpage as (locs & Hl & Hp). eauto using page_progression_unit.
  - apply or_else_Some in Hx as [?|[_ Hx]]; [eauto|].
    apply bind_Some in Hx as (d & Hd & Hx). eauto using time_progression_unit.
  - eauto.
Qed.

Lemma project_unit update publication x :
  position_ok (u_position update) -> publication_ok publication ->
  p_progression (project update publication) = Some x -> in_unit x.
Proof.
  intros Hpos Hpub. unfold project. destruct (_ && _ && _ && _).
  - unfold complete_projection. intros Hx.
    assert (x = f64_one) as ->; [|apply in_unit_one].
    repeat case_match; simpl in Hx; congruence.
  - by apply project_position_unit.
Qed.

Lemma project_position_kinds update publication :
  p_page (project_position update publication) = None \/
  p_position_ms (project_position update publication) = None.
Proof. unfold project_position. destruct (u_position update); auto. Qed.

(** A page ordinal is never interchangeable with a millisecond offset: a
    projection never sets both; a time position is kept verbatim with its track and
    synthesises neither page nor locator; a page position is kept with the locator
    synthesised for it; a locator is kept verbatim. *)
Theorem project_position_verbatim update publication :
  let p := project update publication in
  (p_page p = None \/ p_position_ms p = None) /\
  match u_position update with
  | PPage page =>
      p_page p = Some page /\ p_track_index p = None /\
      p_locator p = Some (page_locator (pub_media_id publication) page (pub_pages publication))
  | PLocator locator => p_locator p = Some locator /\ p_track_index p = None
  | PTime position_ms track_index =>
      p_position_ms p = Some position_ms /\ p_track_index p = track_index /\
      p_page p = None /\ p_locator p = None
  | PNone => p_locator p = None /\ p_track_index p = None
  end.
Proof.
  cbv zeta. unfold project.
  destruct (project_position_kinds update publication) as [E|E];
    destruct (_ && _ && _ && _) eqn:C; [|by unfold project_position in *; case_match; auto
                                        | |by unfold project_position in *; case_match; auto].
  all: rewrite !andb_true_iff in C; destruct C as [[[_ C1] C2] C3];
    destruct (p_page _) eqn:E1, (p_position_ms _) eqn:E2; try done;
    unfold complete_projection; split;
    [repeat case_match; simpl; auto|].
  all: unfold project_position in *; destruct (u_position update); simplify_eq/=;
    repeat case_match; auto.
Qed.

(** The conflict rule, exactly: an update is kept as provenance only when there
    is a head, the update is older than it by more than the tolerance, and it
    asserts a progression strictly below the head's; then the head's progression and
    completion stand.  Every other update is accepted. *)
Theorem resolve_provenance_iff head projection incoming_at :
  (r_outcome (resolve head projection incoming_at) = ProvenanceOnly <->
   exists h x, head = Some h /\ p_progression projection = Some x /\
     seconds STALE_TOLERANCE_SECS < hs_updated_at h - incoming_at /\
     flt x (hs_progression h) = true) /\
  (forall h, head = Some h ->
   r_outcome (resolve head projection incoming_at) = ProvenanceOnly ->
   resolve head projection incoming_at =
     {| r_outcome := ProvenanceOnly;
        r_progression := hs_progression h;
        r_completed := hs_completed h |}).
Proof.
  destruct head as [h|]; [|split; [split; [done|naive_solver]|done]].
  unfold resolve, is_stale. split.
  - destruct (p_progression projection) as [x|]; cbn [from_option id].
    + destruct (Z.ltb_spec (seconds STALE_TOLERANCE_SECS) (hs_updated_at h - incoming_at));
        destruct (flt x (hs_progression h)) eqn:E; simpl;
        (split; [intros ?; try done; by exists h, x|]);
        intros (? & ? & ? & ? & ? & ?); simplify_eq; first [done|congruence|lia].
    + rewrite flt_irrefl, andb_false_r. split; [done|naive_solver].
  - intros h' [= <-]. by destruct (_ && _).
Qed.

(** Completion is sticky: an accepted or losing update that does not explicitly
    un-read leaves a finished publication finished, and an accepted one takes the
    completion it asserts. *)
Theorem resolve_completion_sticky h projection incoming_at :
  let r := resolve (Some h) projection incoming_at in
  (hs_completed h = true -> p_completed projection <> Some false -> r_completed r = true) /\
  (forall b, r_outcome r = Accepted -> p_completed projection = Some b -> r_completed r = b) /\
  (r_outcome r = Accepted -> p_completed projection = None -> r_completed r = hs_completed h).
Proof.
  unfold resolve. destruct (is_stale _ _ _); simpl; [naive_solver|].
  destruct (p_completed projection) as [[]|]; naive_solver.
Qed.

Lemma resolve_progression_unit head projection incoming_at :
  (forall h, head = Some h -> in_unit (hs_progression h)) ->
  (forall x, p_progression projection = Some x -> in_unit x) ->
  in_unit (r_progression (resolve head projection incoming_at)).
Proof.
  intros Hh Hp. unfold resolve. destruct head as [h|]; [destruct (is_stale _ _ _)|]; simpl.
  - auto.
  - destruct (p_progression projection); simpl; auto.
  - destruct (p_progression projection); simpl; auto. destruct (default _ _); auto with f64.
Qed.

(** C1.  Whatever a client sends (a page past the end, a negative offset, a NaN or
    infinite progression, an arbitrary decimal in a locator), the progression
    [project] asserts is a number in the closed unit interval, and resolving it
    against a head in the unit interval stays there. *)
Theorem project_progression_in_unit update publication :
  position_ok (u_position update) -> publication_ok publication ->
  (forall x, p_progression (project update publication) = Some x -> in_unit x) /\
  (forall head incoming_at,
     (forall h, head = Some h -> in_unit (hs_progression h)) ->
     in_unit (r_progression (resolve head (project update publication) incoming_at))).
Proof.
  intros Hpos Hpub. split; [intros x; by apply project_unit|].
  intros head at_ Hh. apply resolve_progression_unit; [done|]. intros x. by apply project_unit.
Qed.

Lemma chapter_at_spec chapters position_ms c :
  chapter_at chapters position_ms = Some c ->
  c ∈ chapters /\ 0 < duration_ms c /\ ch_start_ms c <= position_ms /\
  forall c', c' ∈ chapters -> 0 < duration_ms c' -> ch_start_ms c' <= position_ms ->
    ch_start_ms c' <= ch_start_ms c.
Proof.
  unfold chapter_at. intros [Hin Hmax]%max_by_key_spec.
  apply list_elem_of_In, filter_In in Hin as [Hin Hc]. apply list_elem_of_In in Hin.
  rewrite andb_true_iff, Z.ltb_lt, Z.leb_le in Hc. destruct Hc. split_and!; [done..|].
  intros c' Hc' ??. apply Hmax, list_elem_of_In, filter_In. split; [by apply list_elem_of_In|].
  by rewrite andb_true_iff, Z.ltb_lt, Z.leb_le.
Qed.

Lemma chapter_at_None chapters position_ms :
  chapter_at chapters position_ms = None ->
  forall c, c ∈ chapters -> 0 < duration_ms c -> position_ms < ch_start_ms c.
Proof.
  unfold chapter_at. rewrite max_by_key_None. intros Hn c Hc Hd.
  destruct (Z.le_gt_cases (ch_start_ms c) position_ms); [|lia].
  assert (List.In c []) as []; rewrite <- Hn. apply filter_In.
  split; [by apply list_elem_of_In|]. by rewrite andb_true_iff, Z.ltb_lt, Z.leb_le.
Qed.

(** Audio to ebook: a converted position goes through the chapter that contains
    the offset (the last one starting at or before it), a chapter-map entry of that
    chapter and the spine item the entry names; the locator names that item's
    resource, carries no page ordinal, and the progression is in the unit interval. *)
Theorem map_time_to_locator_sound position_ms chapters spine mappings r :
  map_time_to_locator position_ms chapters spine mappings = Some r ->
  exists c mapping item locator locs,
    chapter_at chapters position_ms = Some c /\
    mapping ∈ mappings /\ audio_chapter_index mapping = ch_index c /\
    item ∈ spine /\ sp_index item = ebook_spine_index mapping /\
    mp_locator r = Some locator /\ href locator = sp_href item /\
    locations locator = Some locs /\ loc_position locs = None /\
    mp_position_ms r = None /\ in_unit (mp_progression r) /\
    mp_confidence r = confidence mapping /\ mp_approximate r = true.
Proof.
  unfold map_time_to_locator. intros (c & Hc & Hr)%bind_Some.
  apply bind_Some in Hr as (mapping & Hm & Hr). apply bind_Some in Hr as (item & Hi & Hr).
  apply bind_Some in Hr as ([before total] & Ho & Hr). apply bind_Some in Hr as (within & Hw & Hr).
  apply bind_Some in Hr as (tp & Htp & [= <-]).
  apply find_Some_iff in Hm as [Hm1 Hm2%Z.eqb_eq]. apply find_Some_iff in Hi as [Hi1 Hi2%Z.eqb_eq].
  apply clamp_unit_Some in Htp. do 5 eexists. split_and!; done.
Qed.

Lemma chars_range spine item : spine_ok spine -> item ∈ spine -> 0 <= chars item < 2 ^ 64.
Proof.
  intros Hs Hi. specialize (Hs _ Hi). unfold chars, in_i64, i64_min, i64_max in *. lia.
Qed.

Lemma locate_by_target_spec spine last_index target cumulative item within :
  spine_ok spine -> locate_by_target spine last_index target cumulative = Some (item, within) ->
  item ∈ spine /\ in_unit within /\ fwf within.
Proof.
  revert cumulative. induction spine as [|x spine IH]; intros cumulative Hok Hl; [done|].
  simpl in Hl. pose proof (chars_range (x :: spine) x Hok ltac:(set_solver)) as Hr.
  destruct (_ || _).
  - destruct (Z.ltb_spec 0 (chars x)).
    + apply bind_Some in Hl as (w & Hw & [= <- <-]). split_and!; [set_solver|..].
      * by eapply clamp_unit_Some.
      * eapply clamp_unit_wf; [done|]. apply fdiv_positive_wf. lia.
    + simplify_eq/=. split_and!; [set_solver|apply in_unit_zero|done].
  - apply IH in Hl as (? & ? & ?); [split_and!; [set_solver|done..]|].
    intros y Hy. apply Hok. set_solver.
Qed.

Lemma locate_in_spine_spec locator spine item within :
  spine_ok spine -> locate_in_spine locator spine = Some (item, within) ->
  item ∈ spine /\ in_unit within /\ fwf within.
Proof.
  intros Hok. unfold locate_in_spine. destruct (spine_by_href _ _) as [i|] eqn:Eh.
  - intros [= <- <-]. split.
    + unfold spine_by_href in Eh. case_match; [done|]. by apply find_Some_iff in Eh as [??].
    + destruct (_ ≫= decimal_to_f64) as [x|] eqn:E; simpl; [|split; [apply in_unit_zero|done]].
      apply bind_Some in E as (d & _ & Hd). by eapply decimal_to_f64_Some.
  - intros (tp & _ & Hl)%bind_Some. apply bind_Some in Hl as (l & _ & Hl).
    by apply locate_by_target_spec in Hl.
Qed.

(** Ebook to audio: a converted position lies inside the runtime of the chapter
    the map names for the reader's spine item, despite the floating-point scaling,
    never past either end.  (Chapter runtimes below
    2^53 ms, so that they are exact as [f64].) *)
Theorem map_locator_to_time_in_chapter locator spine chapters mappings r :
  spine_ok spine -> chapters_ok chapters ->
  map_locator_to_time locator spine chapters mappings = Some r ->
  exists item mapping c ms,
    item ∈ spine /\ mapping ∈ mappings /\ ebook_spine_index mapping = sp_index item /\
    c ∈ chapters /\ ch_index c = audio_chapter_index mapping /\
    mp_position_ms r = Some ms /\ ch_start_ms c <= ms <= ch_end_ms c /\
    mp_locator r = None /\ mp_approximate r = true.
Proof.
  intros Hs Hc. unfold map_locator_to_time.
  intros ([item within] & Hl & Hr)%bind_Some. apply bind_Some in Hr as (mapping & Hm & Hr).
  apply bind_Some in Hr as (c & Hf & Hr). apply bind_Some in Hr as (c' & Ht & Hr).
  apply bind_Some in Hr as (w & Hw & [= <-]).
  apply then_some_Some in Ht as [Hd%Z.ltb_lt <-].
  apply locate_in_spine_spec in Hl as (Hi & Hu & Hwf); [|done].
  rewrite clamp_unit_id in Hw by done. simplify_eq.
  apply find_Some_iff in Hm as [Hm1 Hm2%Z.eqb_eq]. apply find_Some_iff in Hf as [Hf1 Hf2%Z.eqb_eq].
  pose proof (Hc _ Hf1) as Hlt.
  pose proof (scale_round_bounds w (duration_ms c) Hu Hwf ltac:(lia)) as Hb.
  do 4 eexists. split_and!; try done; unfold duration_ms in *; lia.
Qed.

End theorems.

(** ** Concrete inputs *)

(** A page update past the end of a five-page publication, with a NaN progression. *)
Definition ex_update : @ProtocolUpdate fixed_ops :=
  {| u_protocol := Komga;
     u_device_id := None;
     u_updated_at := None;
     u_position := PPage 7;
     u_progression := Some S754_nan;
     u_completed := None;
     u_raw_payload := JNull |}.

Definition ex_publication : Publication :=
  {| pub_media_id := lit "m1"; pub_pages := 5; pub_duration_ms := None |}.

Definition ex_spine : list SpineItem :=
  [ {| sp_index := 0; sp_href := lit "OEBPS/front.xhtml"; sp_char_count := 50 |};
    {| sp_index := 1; sp_href := lit "OEBPS/ch1.xhtml"; sp_char_count := 300 |};
    {| sp_index := 2; sp_href := lit "OEBPS/ch2.xhtml"; sp_char_count := 650 |} ].

Definition ex_chapters : list AudioChapterSpan :=
  [ {| ch_index := 0; ch_start_ms := 0; ch_end_ms := 600000 |};
    {| ch_index := 1; ch_start_ms := 600000; ch_end_ms := 1800000 |} ].

Definition ex_mappings : list ChapterMapping :=
  [ {| ebook_spine_index := 1; audio_chapter_index := 0; confidence := f64_one |};
    {| ebook_spine_index := 2; audio_chapter_index := 1; confidence := f64_one |} ].

(** A locator minted by a reader, half way through the second chapter. *)
Definition ex_locator : @ReadiumLocator fixed_ops :=
  @Build_ReadiumLocator fixed_ops [] (lit "/api/v2/media/m1/resource/OEBPS/ch2.xhtml") None
    (Some (@Build_ReadiumLocation fixed_ops None (Some 500) None None None None))
    None None (lit "application/xhtml+xml").

Lemma project_progression_in_unit_witness :
  exists x, p_progression (project ex_update ex_publication) = Some x /\ in_unit x.
Proof.
  eexists. split; [vm_compute; reflexivity|].
  apply (@project_progression_in_unit fixed_ops fixed_laws ex_update ex_publication).
  - simpl; unfold in_i32, i32_min, i32_max; lia.
  - split; [unfold in_i32, i32_min, i32_max; simpl; lia|done].
  - vm_compute. reflexivity.
Defined.

Lemma map_time_to_locator_sound_witness :
  exists r item, @map_time_to_locator fixed_ops 1200000 ex_chapters ex_spine ex_mappings = Some r /\
    item ∈ ex_spine /\ (href <$> mp_locator r) = Some (sp_href item).
Proof.
  destruct (not_none (@map_time_to_locator fixed_ops 1200000 ex_chapters ex_spine ex_mappings))
    as [r E]; [vm_compute; reflexivity|].
  destruct (map_time_to_locator_sound _ _ _ _ _ E)
    as (c & mp & item & l & locs & _ & _ & _ & Hi & _ & Hl & Hh & _).
  exists r, item. split; [exact E|]. split; [exact Hi|]. rewrite Hl. cbn. by rewrite Hh.
Defined.

Lemma map_locator_to_time_in_chapter_witness :
  exists r, map_locator_to_time ex_locator ex_spine ex_chapters ex_mappings = Some r /\
    mp_position_ms r = Some 1200000 /\ mp_locator r = None.
Proof.
  destruct (not_none (map_locator_to_time ex_locator ex_spine ex_chapters ex_mappings))
    as [r E]; [vm_compute; reflexivity|].
  exists r. split; [exact E|].
  destruct (@map_locator_to_time_in_chapter fixed_ops fixed_laws
              ex_locator ex_spine ex_chapters ex_mappings r) as (item & mp & c & ms & Hrest).
  - intros item Hi. unfold ex_spine in Hi. rewrite !elem_of_cons in Hi.
    unfold in_i64, i64_min, i64_max. destruct Hi as [->|[->|[->|Hi]]]; simpl; try lia.
    by apply not_elem_of_nil in Hi.
  - intros c Hc. unfold ex_chapters in Hc. rewrite !elem_of_cons in Hc.
    unfold duration_ms. destruct Hc as [->|[->|Hc]]; simpl; try lia. by apply not_elem_of_nil in Hc.
  - exact E.
  - split; [|apply Hrest].
    assert (Hms : (map_locator_to_time ex_locator ex_spine ex_chapters ex_mappings
                     ≫= mp_position_ms) = Some 1200000) by (vm_compute; reflexivity).
    rewrite E in Hms. exact Hms.
Defined.
