(* ===== verification/ReadingService.v ===== *)
(** * The unified reading-state service

    Models [src/crates/models/src/services/reading_state.rs] over the tables of
    [src/crates/models/src/entity/reading_head.rs] and
    [src/crates/models/src/entity/reading_head_event.rs]: one canonical head per
    (user, media) and an append-only provenance log.

    The database is explicit state.  Every statement may fail: [db_faults] lists,
    statement by statement, which ones do, so a theorem about every database is a
    theorem about every pattern of failures.  The effects of the statements before a
    failure stay in the state; rolling them back is the caller's transaction. *)

From stdpp Require Import base gmap list strings sorting.
From Stdlib Require Import ZArith Lia SpecFloat.
From S2P Require Import Prelude Float64 ReadingState.

#[local] Open Scope Z_scope.
#[local] Open Scope coppice_scope.

(** ** Tables *)

Section service.
Context `{DecimalOps}.

Record HeadRow := {
  h_user_id : str;
  h_media_id : str;
  h_locator : option ReadiumLocator;
  h_progression : f64;
  h_page : option Z;
  h_position_ms : option Z;
  h_track_index : option Z;
  h_completed : bool;
  h_updated_at : Z;
  h_created_at : Z;
  h_changed_at : Z;
  h_source_protocol : SourceProtocol;
  h_source_device_id : option str;
  h_revision : Z;
  h_event_id : Z;
}.

Record EventRow := {
  e_id : Z;
  e_user_id : str;
  e_media_id : str;
  e_protocol : SourceProtocol;
  e_device_id : option str;
  e_raw_payload : value;
  e_locator : option ReadiumLocator;
  e_progression : option f64;
  e_page : option Z;
  e_position_ms : option Z;
  e_track_index : option Z;
  e_completed : option bool;
  e_timestamp_kind : TimestampKind;
  e_source_updated_at : Z;
  e_received_at : Z;
  e_applied : bool;
}.

(** [db_next_id] is the auto-increment counter of the event table. *)
Record Db := {
  db_heads : gmap (str * str) HeadRow;
  db_events : list EventRow;
  db_next_id : Z;
  db_faults : list bool;
}.

(** [Panicked] is the [unreachable!] of [apply]. *)
Inductive ServiceError := DbErr | Panicked.

Definition DB (A : Type) : Type := Db -> result A ServiceError * Db.

(** One SQL statement: it fails with [DbErr] when the next fault says so. *)
Definition statement {A} (run : Db -> result A ServiceError * Db) : DB A := fun db =>
  match db_faults db with
  | [] => run db
  | fault :: faults =>
      let db' := {| db_heads := db_heads db; db_events := db_events db;
                    db_next_id := db_next_id db; db_faults := faults |} in
      if (fault : bool) then (Err DbErr, db') else run db'
  end.

Definition with_heads (db : Db) (heads : gmap (str * str) HeadRow) : Db :=
  {| db_heads := heads; db_events := db_events db;
     db_next_id := db_next_id db; db_faults := db_faults db |}.

(** [INSERT INTO reading_head_events]: the row gets the next id. *)
Definition insert_event (mk : Z -> EventRow) : DB EventRow := statement (fun db =>
  let event := mk (db_next_id db) in
  (Ok event,
   {| db_heads := db_heads db; db_events := db_events db ++ [event];
      db_next_id := db_next_id db + 1; db_faults := db_faults db |})).

(** [INSERT INTO reading_heads]: a second row for a primary key is an error. *)
Definition insert_head (row : HeadRow) : DB HeadRow := statement (fun db =>
  let key := (h_user_id row, h_media_id row) in
  match db_heads db !! key with
  | Some _ => (Err DbErr, db)
  | None => (Ok row, with_heads db (<[key := row]> (db_heads db)))
  end).

(** [UPDATE reading_heads ... WHERE pk]: updating no row is an error. *)
Definition update_head (row : HeadRow) : DB HeadRow := statement (fun db =>
  let key := (h_user_id row, h_media_id row) in
  match db_heads db !! key with
  | None => (Err DbErr, db)
  | Some _ => (Ok row, with_heads db (<[key := row]> (db_heads db)))
  end).

(** ** Queries *)

(** [head]. *)
Definition head (user_id media_id : str) : DB (option HeadRow) :=
  statement (fun db => (Ok (db_heads db !! (user_id, media_id)), db)).

(** [reading_head::Entity::find_for_user] with [media_id IN (...)]. *)
Definition heads_in (db : Db) (user_id : str) (media_ids : list str) : list HeadRow :=
  snd <$> filter (fun kv : (str * str) * HeadRow => kv.1.1 = user_id /\ kv.1.2 ∈ media_ids)
    (map_to_list (db_heads db)).

Definition heads (user_id : str) (media_ids : list str) : DB (gmap str HeadRow) :=
  match media_ids with
  | [] => db_ret ∅
  | _ =>
      rows <-- statement (fun db => (Ok (heads_in db user_id media_ids), db)) ;;
      db_ret (list_to_map ((fun h => (h_media_id h, h)) <$> rows))
  end.

(** Ascending [changed_at], then [media_id]. *)
Definition change_order (a b : HeadRow) : Prop :=
  h_changed_at a < h_changed_at b \/
  (h_changed_at a = h_changed_at b /\ str_le (h_media_id a) (h_media_id b) = true).

#[global] Instance change_order_dec a b : Decision (change_order a b).
Proof. unfold change_order. apply _. Defined.

Definition heads_since (user_id : str) (since : Z) : DB (list HeadRow) :=
  statement (fun db =>
    (Ok (merge_sort change_order
           (snd <$> filter (fun kv : (str * str) * HeadRow =>
                      kv.1.1 = user_id /\ since < h_changed_at kv.2)
              (map_to_list (db_heads db)))), db)).

Definition latest_event (user_id media_id : str) (protocol : SourceProtocol)
  : DB (option EventRow) :=
  statement (fun db =>
    (Ok (max_by_key e_id
           (filter (fun e => e_user_id e = user_id /\ e_media_id e = media_id /\
                             e_protocol e = protocol) (db_events db))), db)).

Definition winning_event (row : HeadRow) : DB (option EventRow) :=
  statement (fun db => (Ok (List.find (fun e => e_id e =? h_event_id row) (db_events db)), db)).

(** ** [apply] *)

Record Applied := {
  a_head : HeadRow;
  a_event : EventRow;
  a_outcome : Outcome;
}.

Definition accepted (a : Applied) : bool := bool_decide (a_outcome a = Accepted).

Definition head_state (h : HeadRow) : HeadState :=
  {| hs_updated_at := h_updated_at h;
     hs_progression := h_progression h;
     hs_completed := h_completed h |}.

(** The provenance row of an update. *)
Definition event_of (user_id media_id : str) (now : Z) (update : ProtocolUpdate)
    (projection : Projection) (resolved : Resolved) (id : Z) : EventRow :=
  {| e_id := id;
     e_user_id := user_id;
     e_media_id := media_id;
     e_protocol := u_protocol update;
     e_device_id := u_device_id update;
     e_raw_payload := u_raw_payload update;
     e_locator := p_locator projection;
     e_progression := p_progression projection;
     e_page := p_page projection;
     e_position_ms := p_position_ms projection;
     e_track_index := p_track_index projection;
     e_completed := p_completed projection;
     e_timestamp_kind := match u_updated_at update with Some _ => Device | None => Server end;
     e_source_updated_at := default now (u_updated_at update);
     e_received_at := now;
     e_applied := bool_decide (r_outcome resolved = Accepted) |}.

(** The head row an accepted update writes over [previous]. *)
Definition next_head (user_id media_id : str) (now : Z) (update : ProtocolUpdate)
    (projection : Projection) (resolved : Resolved) (previous : option HeadRow) (event_id : Z)
  : HeadRow :=
  {| h_user_id := user_id;
     h_media_id := media_id;
     h_locator := or_else (p_locator projection) (previous ≫= h_locator);
     h_progression := r_progression resolved;
     h_page := or_else (p_page projection) (previous ≫= h_page);
     h_position_ms := or_else (p_position_ms projection) (previous ≫= h_position_ms);
     h_track_index := or_else (p_track_index projection) (previous ≫= h_track_index);
     h_completed := r_completed resolved;
     h_updated_at := default now (u_updated_at update);
     h_created_at := match previous with Some p => h_created_at p | None => now end;
     h_changed_at := now;
     h_source_protocol := u_protocol update;
     h_source_device_id := u_device_id update;
     h_revision := match previous with Some p => wrap_i32 (h_revision p + 1) | None => 1 end;
     h_event_id := event_id |}.

Definition apply (now : Z) (user_id : str) (publication : Publication) (update : ProtocolUpdate)
  : DB Applied :=
  let source_updated_at := default now (u_updated_at update) in
  let media_id := pub_media_id publication in
  let projection := project update publication in
  existing <-- head user_id media_id ;;
  let resolved := resolve (head_state <$> existing) projection source_updated_at in
  event <-- insert_event (event_of user_id media_id now update projection resolved) ;;
  row <--
    match existing, r_outcome resolved with
    | Some row, ProvenanceOnly => db_ret row
    | previous, Accepted =>
        let row := next_head user_id media_id now update projection resolved previous (e_id event) in
        match previous with
        | Some _ => update_head row
        | None => insert_head row
        end
    | None, ProvenanceOnly => fun db => (Err Panicked, db)
    end ;;
  db_ret {| a_head := row; a_event := event; a_outcome := r_outcome resolved |}.

(** ** [clear] *)

Definition cleared_event (user_id : str) (protocol : SourceProtocol) (device_id : option str)
    (now : Z) (row : HeadRow) (id : Z) : EventRow :=
  {| e_id := id;
     e_user_id := user_id;
     e_media_id := h_media_id row;
     e_protocol := protocol;
     e_device_id := device_id;
     e_raw_payload := JObject [(lit "cleared", JBool true)];
     e_locator := None;
     e_progression := None;
     e_page := None;
     e_position_ms := None;
     e_track_index := None;
     e_completed := Some false;
     e_timestamp_kind := Server;
     e_source_updated_at := now;
     e_received_at := now;
     e_applied := true |}.

Fixpoint insert_events (mks : list (Z -> EventRow)) : DB unit :=
  match mks with
  | [] => db_ret tt
  | mk :: mks' => _ <-- insert_event mk ;; insert_events mks'
  end.

(** [DELETE FROM reading_heads WHERE user_id = ? AND media_id IN (...)]. *)
Definition delete_heads (user_id : str) (media_ids : list str) : DB Z := statement (fun db =>
  let doomed := (fun kv : (str * str) * HeadRow => kv.1.1 = user_id /\ kv.1.2 ∈ media_ids) in
  (Ok (Z.of_nat (size (filter doomed (db_heads db)))),
   with_heads db (filter (fun kv => ~ doomed kv) (db_heads db)))).

Definition clear (now : Z) (user_id : str) (media_ids : list str) (protocol : SourceProtocol)
    (device_id : option str) : DB Z :=
  match media_ids with
  | [] => db_ret 0
  | _ =>
      rows <-- statement (fun db => (Ok (heads_in db user_id media_ids), db)) ;;
      match rows with
      | [] => db_ret 0
      | _ =>
          _ <-- insert_events (cleared_event user_id protocol device_id now <$> rows) ;;
          delete_heads user_id (h_media_id <$> rows)
      end
  end.

(** ** Runs of the service *)

(** A head is backed by the event that materialised it. *)
Definition head_backed (events : list EventRow) (key : str * str) (h : HeadRow) : Prop :=
  h_user_id h = key.1 /\ h_media_id h = key.2 /\ in_unit (h_progression h) /\
  exists e, e ∈ events /\ e_id e = h_event_id h /\ e_applied e = true /\
    e_user_id e = key.1 /\ e_media_id e = key.2 /\ e_protocol e = h_source_protocol h /\
    e_device_id e = h_source_device_id h /\
    e_source_updated_at e = h_updated_at h /\ e_received_at e = h_changed_at h.

Record db_wf (db : Db) : Prop := {
  wf_heads : forall key h, db_heads db !! key = Some h -> head_backed (db_events db) key h;
  wf_ids_sorted : StronglySorted Z.lt (e_id <$> db_events db);
  wf_ids_fresh : forall e, e ∈ db_events db -> e_id e < db_next_id db;
}.

Inductive service_step : Db -> Db -> Prop :=
| step_apply db now user_id publication update :
    position_ok (u_position update) -> publication_ok publication ->
    service_step db (snd (apply now user_id publication update db))
| step_clear db now user_id media_ids protocol device_id :
    service_step db (snd (clear now user_id media_ids protocol device_id db)).

Definition empty_db (faults : list bool) : Db :=
  {| db_heads := ∅; db_events := []; db_next_id := 1; db_faults := faults |}.

End service.

Arguments DB {_} _.
Notation "x <-- c ;; k" := (db_bind c (fun x => k))
  (at level 100, c at next level, right associativity).

(** ** Statements *)

Section proofs.
Context `{DecimalOps}.

(** Same rows, possibly fewer faults left. *)
Definition same_tables (db db' : Db) : Prop :=
  db_heads db' = db_heads db /\ db_events db' = db_events db /\ db_next_id db' = db_next_id db.

Lemma statement_cases {A} (run : Db -> result A ServiceError * Db) db r db' :
  statement run db = (r, db') ->
  (r = Err DbErr /\ same_tables db db') \/ (exists db0, same_tables db db0 /\ run db0 = (r, db')).
Proof.
  unfold statement, same_tables. destruct (db_faults db) as [|[] fs]; intros E.
  - right. by exists db.
  - injection E as <- <-. by left.
  - right. eexists. split; [|exact E]. done.
Qed.

Lemma insert_event_cases mk db r db' :
  insert_event mk db = (r, db') ->
  (r = Err DbErr /\ same_tables db db') \/
  (r = Ok (mk (db_next_id db)) /\ db_heads db' = db_heads db /\
   db_events db' = db_events db ++ [mk (db_next_id db)] /\ db_next_id db' = db_next_id db + 1).
Proof.
  intros [?|(db0 & (Hh & He & Hn) & [= <- <-])]%statement_cases; [by left|right].
  simpl. by rewrite Hh, He, Hn.
Qed.

(** What [insert_head] does when the row is new and [update_head] when it exists. *)
Definition head_written (row : HeadRow) (db : Db) (r : result HeadRow ServiceError) (db' : Db)
  : Prop :=
  (r = Err DbErr /\ same_tables db db') \/
  (r = Ok row /\ db_heads db' = <[(h_user_id row, h_media_id row) := row]> (db_heads db) /\
   db_events db' = db_events db /\ db_next_id db' = db_next_id db).

Lemma insert_head_cases row db r db' :
  insert_head row db = (r, db') -> head_written row db r db'.
Proof.
  intros [?|(db0 & (Hh & He & Hn) & E)]%statement_cases; [by left|].
  cbv zeta in E. rewrite Hh in E.
  destruct (db_heads db !! (h_user_id row, h_media_id row)); injection E as <- <-.
  - by left.
  - right. simpl. by rewrite ?Hh.
Qed.

Lemma update_head_cases row db r db' :
  update_head row db = (r, db') -> head_written row db r db'.
Proof.
  intros [?|(db0 & (Hh & He & Hn) & E)]%statement_cases; [by left|].
  cbv zeta in E. rewrite Hh in E.
  destruct (db_heads db !! (h_user_id row, h_media_id row)); injection E as <- <-.
  - right. simpl. by rewrite ?Hh.
  - by left.
Qed.

(** The resolution [apply] performs in database [db]. *)
Definition resolution (now : Z) (user_id : str) (publication : Publication)
    (update : ProtocolUpdate) (db : Db) : Resolved :=
  resolve (head_state <$> db_heads db !! (user_id, pub_media_id publication))
    (project update publication) (default now (u_updated_at update)).

Definition applied_event (now : Z) (user_id : str) (publication : Publication)
    (update : ProtocolUpdate) (db : Db) : EventRow :=
  event_of user_id (pub_media_id publication) now update (project update publication)
    (resolution now user_id publication update db) (db_next_id db).

Definition applied_head (now : Z) (user_id : str) (publication : Publication)
    (update : ProtocolUpdate) (db : Db) : HeadRow :=
  next_head user_id (pub_media_id publication) now update (project update publication)
    (resolution now user_id publication update db)
    (db_heads db !! (user_id, pub_media_id publication)) (db_next_id db).

(** Every run of [apply]: it fails with the heads table untouched and at most the
    provenance row written, or it succeeds with exactly one new event. *)
Lemma apply_cases now user_id publication update db r db' :
  apply now user_id publication update db = (r, db') ->
  let key := (user_id, pub_media_id publication) in
  let event := applied_event now user_id publication update db in
  (r = Err DbErr /\ db_heads db' = db_heads db /\
   ((db_events db' = db_events db /\ db_next_id db' = db_next_id db) \/
    (db_events db' = db_events db ++ [event] /\ db_next_id db' = db_next_id db + 1))) \/
  (exists row,
   r = Ok {| a_head := row; a_event := event;
             a_outcome := r_outcome (resolution now user_id publication update db) |} /\
   db_events db' = db_events db ++ [event] /\ db_next_id db' = db_next_id db + 1 /\
   db_heads db' !! key = Some row /\
   match r_outcome (resolution now user_id publication update db) with
   | Accepted => row = applied_head now user_id publication update db /\
                 db_heads db' = <[key := row]> (db_heads db)
   | ProvenanceOnly => db_heads db' = db_heads db
   end).
Proof.
  intros E. cbv zeta. unfold apply in E.
  apply db_bind_cases in E as [(e & Eh & ->)|(existing & db1 & Eh & E)].
  { apply statement_cases in Eh as [[[= ->] (-> & -> & ->)]|(db0 & _ & [=])]. left; auto. }
  apply statement_cases in Eh as [[[=] _]|(db0 & (Hh & He & Hn) & Eh)].
  injection Eh as <- <-. rewrite Hh in E.
  set (ex := db_heads db !! (user_id, pub_media_id publication)) in *.
  fold (resolution now user_id publication update db) in E.
  assert (Hres : resolve (head_state <$> ex) (project update publication)
                   (default now (u_updated_at update))
                 = resolution now user_id publication update db) by done.
  rewrite Hres in E. set (res := resolution now user_id publication update db) in *.
  apply db_bind_cases in E as [(e & Ei & ->)|(event & db1 & Ei & E)].
  { apply insert_event_cases in Ei as [[[= ->] (-> & -> & ->)]|([=] & _)].
    left. rewrite Hh, He, Hn. auto. }
  apply insert_event_cases in Ei as [([=] & _)|([= ->] & Hh1 & He1 & Hn1)].
  rewrite Hn in *. fold (applied_event now user_id publication update db) in *.
  rewrite He in He1. rewrite Hh in Hh1.
  apply db_bind_cases in E as [(e & Ew & ->)|(row & db2 & Ew & E)].
  - left. destruct ex as [row|] eqn:Hex, (r_outcome res) eqn:Hout; try done.
    + apply update_head_cases in Ew as [[[= ->] (-> & -> & ->)]|([=] & _)]. auto.
    + apply insert_head_cases in Ew as [[[= ->] (-> & -> & ->)]|([=] & _)]. auto.
    + exfalso. unfold res, resolution in Hout. fold ex in Hout. by rewrite Hex in Hout.
  - injection E as <- <-. right. exists row. split; [done|].
    destruct ex as [prev|] eqn:Hex, (r_outcome res) eqn:Hout; try done.
    + apply update_head_cases in Ew as [([=] & _)|([= ->] & Hh2 & He2 & Hn2)].
      rewrite Hh1 in Hh2. rewrite He2, Hn2, Hh2. split_and!; try done.
      * apply lookup_insert_eq.
      * unfold applied_head. fold ex res. by rewrite Hex.
    + injection Ew as <- <-. rewrite Hh1. by split_and!.
    + apply insert_head_cases in Ew as [([=] & _)|([= ->] & Hh2 & He2 & Hn2)].
      rewrite Hh1 in Hh2. rewrite He2, Hn2, Hh2. split_and!; try done.
      * apply lookup_insert_eq.
      * unfold applied_head. fold ex res. by rewrite Hex.
Qed.

(** ** The invariant *)

Lemma head_backed_app events evs key h :
  head_backed events key h -> head_backed (events ++ evs) key h.
Proof.
  intros (? & ? & ? & e & He & Hrest). split_and!; [done..|]. exists e.
  split; [|done]. apply elem_of_app. by left.
Qed.

Lemma empty_db_wf faults : db_wf (empty_db faults).
Proof. constructor; simpl; [done|constructor|set_solver]. Qed.

Lemma same_tables_wf db db' : same_tables db db' -> db_wf db -> db_wf db'.
Proof. intros (Hh & He & Hn) [H1 H2 H3]. constructor; rewrite ?Hh, ?He, ?Hn; auto. Qed.

(** Appending one event with the next id keeps the invariant; the heads may change
    as long as each is backed in the longer log. *)
Lemma append_event_wf db db' event :
  db_wf db -> e_id event = db_next_id db ->
  db_events db' = db_events db ++ [event] -> db_next_id db' = db_next_id db + 1 ->
  (forall key h, db_heads db' !! key = Some h ->
     db_heads db !! key = Some h \/ head_backed (db_events db ++ [event]) key h) ->
  db_wf db'.
Proof.
  intros [H1 H2 H3] Hid He Hn Hh. constructor.
  - intros key h Hk. rewrite He. destruct (Hh _ _ Hk) as [Hk'|?]; [|done].
    by apply head_backed_app, H1.
  - rewrite He, fmap_app. apply StronglySorted_snoc; split; [done|]. apply Forall_forall.
    intros y (e & -> & Hy)%list_elem_of_fmap. rewrite Hid. auto.
  - intros e. rewrite He, Hn, elem_of_app, list_elem_of_singleton.
    intros [Hin| ->]; [specialize (H3 _ Hin)|]; lia.
Qed.

Lemma insert_event_wf mk db r db' :
  (forall id, e_id (mk id) = id) -> insert_event mk db = (r, db') -> db_wf db -> db_wf db'.
Proof.
  intros Hid [[_ Hs]|(_ & Hh & He & Hn)]%insert_event_cases Hwf.
  - by eapply same_tables_wf.
  - eapply append_event_wf; [done| |done..|]; [done|]. rewrite Hh. auto.
Qed.

Lemma insert_events_wf mks db r db' :
  Forall (fun mk => forall id, e_id (mk id) = id) mks ->
  insert_events mks db = (r, db') -> db_wf db -> db_wf db'.
Proof.
  intros Hmks. revert db. induction Hmks as [|mk mks Hmk _ IH]; intros db E Hwf; simpl in E.
  - by injection E as _ <-.
  - apply db_bind_cases in E as [(e & Ei & _)|(ev & db1 & Ei & E)];
      eauto using insert_event_wf.
Qed.

Lemma delete_heads_wf user_id media_ids db r db' :
  delete_heads user_id media_ids db = (r, db') -> db_wf db -> db_wf db'.
Proof.
  intros [[_ Hs]|(db0 & Hs & [= _ <-])]%statement_cases Hwf; [by eapply same_tables_wf|].
  destruct (same_tables_wf _ _ Hs Hwf) as [H1 H2 H3]. constructor; simpl; auto.
  intros key h [Hk _]%map_lookup_filter_Some. auto.
Qed.

Lemma clear_wf now user_id media_ids protocol device_id db :
  db_wf db -> db_wf (snd (clear now user_id media_ids protocol device_id db)).
Proof.
  intros Hwf. destruct (clear _ _ _ _ _ db) as [r db'] eqn:E. simpl.
  unfold clear in E. destruct media_ids as [|m ms]; [by injection E as _ <-|].
  apply db_bind_cases in E as [(e & Es & _)|(rows & db1 & Es & E)].
  { apply statement_cases in Es as [[_ ?]|(? & _ & [=])]; eauto using same_tables_wf. }
  assert (db_wf db1).
  { apply statement_cases in Es as [[[=] ?]|(? & ? & [= _ <-])]; eauto using same_tables_wf. }
  destruct rows as [|row rows]; [by injection E as _ <-|].
  assert (Forall (fun mk : Z -> EventRow => forall id, e_id (mk id) = id)
            (cleared_event user_id protocol device_id now <$> row :: rows)).
  { apply Forall_fmap, Forall_true. done. }
  apply db_bind_cases in E as [(e & Ei & _)|([] & db2 & Ei & E)];
    eauto using insert_events_wf, delete_heads_wf.
Qed.

End proofs.

Section theorems.
Context `{DecimalLaws}.

Lemma apply_wf now user_id publication update db :
  position_ok (u_position update) -> publication_ok publication ->
  db_wf db -> db_wf (snd (apply now user_id publication update db)).
Proof.
  intros Hpos Hpub Hwf. destruct (apply _ _ _ _ db) as [r db'] eqn:E. simpl.
  apply apply_cases in E as [(_ & Hh & [[He Hn]|[He Hn]])|(row & _ & He & Hn & Hrow & Hout)].
  - by eapply same_tables_wf.
  - eapply append_event_wf; [done| |done..|]; [done|]. rewrite Hh. auto.
  - eapply append_event_wf; [done| |done..|]; [done|]. intros key h Hk.
    set (res := resolution now user_id publication update db) in *.
    destruct (r_outcome res) eqn:Ho; [|rewrite Hout in Hk; auto].
    destruct Hout as [-> Hheads]. rewrite Hheads in Hk.
    apply lookup_insert_Some in Hk as [[<- <-]|[_ Hk]]; [right|auto].
    split_and!; [done..| |].
    + apply resolve_progression_unit; [|intros x; by apply project_unit].
      intros hs (h0 & Hk & ->)%fmap_Some. simpl. by apply wf_heads in Hk as (_ & _ & ? & _).
    + eexists. split; [apply elem_of_app; right; by apply list_elem_of_singleton|].
      split_and!; try done. simpl. fold res. rewrite Ho. done.
Qed.

(** C2.  In every database the service can reach, whatever updates arrive, in any
    order and with any statements failing, each head belongs to its key, has a
    progression in the unit interval, and is backed by an applied provenance row of
    the same user, media, protocol, device and times; event ids strictly increase. *)
Theorem reachable_db_wf faults db : rtc service_step (empty_db faults) db -> db_wf db.
Proof.
  intros Hr. remember (empty_db faults) as db0 eqn:E0.
  assert (Hwf : db_wf db0) by (subst; apply empty_db_wf). clear E0.
  induction Hr as [|x y z Hs _ IH]; [done|]. apply IH.
  destruct Hs; [by apply apply_wf|by apply clear_wf].
Qed.

End theorems.

(** ** Functional behaviour *)

Section behaviour.
Context `{DecimalOps}.

Lemma apply_total now user_id publication update db :
  db_faults db = [] -> is_ok (fst (apply now user_id publication update db)) = true.
Proof.
  intros Hf. unfold apply, db_bind, head, insert_event, statement. rewrite !Hf. simpl.
  destruct (db_heads db !! (user_id, pub_media_id publication)) as [h|] eqn:Eh; simpl.
  - destruct (is_stale _ _ _); simpl; [done|].
    unfold update_head, statement; simpl. by rewrite Eh.
  - unfold insert_head, statement; simpl. by rewrite Eh.
Qed.

(** When no statement fails, [apply] returns the head now stored for the key and
    the provenance row it appended.  The head is the merge of the update over the
    previous head when the conflict rule accepts it and the previous head, untouched,
    when it does not; no other head changes. *)
Theorem apply_functional now user_id publication update db :
  db_faults db = [] ->
  let key := (user_id, pub_media_id publication) in
  let event := applied_event now user_id publication update db in
  let outcome := r_outcome (resolution now user_id publication update db) in
  exists row db',
    apply now user_id publication update db =
      (Ok {| a_head := row; a_event := event; a_outcome := outcome |}, db') /\
    db_events db' = db_events db ++ [event] /\
    db_heads db' !! key = Some row /\
    (outcome = Accepted -> row = applied_head now user_id publication update db) /\
    (outcome = ProvenanceOnly -> db_heads db !! key = Some row) /\
    (forall key', key' <> key -> db_heads db' !! key' = db_heads db !! key').
Proof.
  intros Hf. cbv zeta. pose proof (apply_total now user_id publication update db Hf) as Hok.
  destruct (apply now user_id publication update db) as [r db'] eqn:E.
  apply apply_cases in E as [(-> & _)|(row & -> & He & Hn & Hrow & Hout)]; [done|].
  exists row, db'. split_and!; try done; destruct (r_outcome _); try done.
  - by destruct Hout.
  - by rewrite <- Hout.
  - intros key' Hne. destruct Hout as [_ ->]. by rewrite lookup_insert_ne.
  - by rewrite Hout.
Qed.

(** Every failure of [apply], at any statement, is a database error (the
    [unreachable!] is never reached), leaves every head as it was, and can only have
    appended the one provenance row: the log is append-only in every run. *)
Theorem apply_failure_safe now user_id publication update db :
  let '(r, db') := apply now user_id publication update db in
  db_events db `prefix_of` db_events db' /\
  (forall e, r = Err e ->
     e = DbErr /\ db_heads db' = db_heads db /\
     (length (db_events db') <= length (db_events db) + 1)%nat).
Proof.
  destruct (apply now user_id publication update db) as [r db'] eqn:E.
  apply apply_cases in E as [(-> & Hh & [[He Hn]|[He Hn]])|(row & -> & He & _)]; rewrite He.
  - split; [done|]. intros e [= <-]. split_and!; [done..|lia].
  - split; [by apply prefix_app_r|]. intros e [= <-]. rewrite length_app. split_and!; [done..|simpl; lia].
  - split; [by apply prefix_app_r|done].
Qed.

Lemma project_completed update publication :
  p_completed (project update publication) = u_completed update.
Proof.
  unfold project. destruct (_ && _ && _ && _).
  - unfold complete_projection, project_position. repeat case_match; done.
  - unfold project_position. by case_match.
Qed.

(** One call of [apply], as an element of a sequence of calls. *)
Definition apply_call : Type := Z * str * Publication * ProtocolUpdate.

Definition run_call (db : Db) (c : apply_call) : Db :=
  let '(now, user_id, publication, update) := c in snd (apply now user_id publication update db).

Definition call_unreads (key : str * str) (c : apply_call) : Prop :=
  let '(now, user_id, publication, update) := c in
  (user_id, pub_media_id publication) = key /\ u_completed update = Some false.

Definition finished (db : Db) (key : str * str) : Prop :=
  exists h, db_heads db !! key = Some h /\ h_completed h = true.

Lemma run_call_finished db key c :
  finished db key -> ~ call_unreads key c -> finished (run_call db c) key.
Proof.
  destruct c as [[[now user_id] publication] update]. simpl. intros (h & Hh & Hc) Hun.
  destruct (apply now user_id publication update db) as [r db'] eqn:E; simpl.
  apply apply_cases in E as [(-> & Hh' & _)|(row & -> & _ & _ & Hrow & Hout)].
  { exists h. by rewrite Hh'. }
  destruct (r_outcome _) eqn:Ho; [|exists h; by rewrite Hout].
  destruct Hout as [-> Hheads]. unfold finished. rewrite Hheads, lookup_insert.
  case_decide as Hk; [|by exists h]. eexists. split; [done|]. simpl.
  unfold resolution. rewrite Hk, Hh. simpl.
  unfold resolution in Ho. rewrite Hk, Hh in Ho. simpl in Ho.
  unfold resolve in *. simpl in *. destruct (is_stale _ _ _); simpl in *; [done|].
  rewrite project_completed. destruct (u_completed update) as [[]|] eqn:Eu; simpl; try done.
  exfalso. by apply Hun.
Qed.

(** Completion is sticky across any sequence of updates of any users, devices
    and protocols, in any order and under any failures: a finished publication stays
    finished until some call explicitly un-reads it (or it is cleared). *)
Theorem finished_until_unread db key calls :
  finished db key -> Forall (fun c => ~ call_unreads key c) calls ->
  finished (fold_left run_call calls db) key.
Proof.
  intros Hf Hc. revert db Hf. induction Hc as [|c calls Hc _ IH]; intros db Hf; simpl; [done|].
  by apply IH, run_call_finished.
Qed.

(** ** [clear] *)

Lemma insert_events_total mks db :
  db_faults db = [] ->
  exists db', insert_events mks db = (Ok tt, db') /\ db_faults db' = [] /\
    db_heads db' = db_heads db /\ db_events db `prefix_of` db_events db' /\
    length (db_events db') = (length (db_events db) + length mks)%nat.
Proof.
  revert db. induction mks as [|mk mks IH]; intros db Hf; simpl.
  - exists db. split_and!; [done..|lia].
  - unfold db_bind, insert_event, statement. rewrite Hf.
    edestruct IH as (db' & -> & Hf' & Hh & Hp & Hl); [|exists db'; split_and!; [done..| |]].
    + done.
    + etrans; [|exact Hp]. simpl. by apply prefix_app_r.
    + rewrite Hl. simpl. rewrite length_app. simpl. lia.
Qed.

Lemma heads_in_spec db user_id media_ids h :
  db_wf db ->
  h ∈ heads_in db user_id media_ids <->
  db_heads db !! (user_id, h_media_id h) = Some h /\ h_media_id h ∈ media_ids.
Proof.
  intros Hwf. unfold heads_in. rewrite list_elem_of_fmap. split.
  - intros ([[u m] h'] & -> & [[Hu Hm] Hin]%list_elem_of_filter). simpl in *. subst u.
    apply elem_of_map_to_list in Hin. destruct (wf_heads _ Hwf _ _ Hin) as (_ & Hmid & _).
    simpl in Hmid. by rewrite Hmid.
  - intros [Hh Hm]. exists ((user_id, h_media_id h), h). split; [done|].
    apply list_elem_of_filter. split; [done|]. by apply elem_of_map_to_list.
Qed.

Lemma heads_in_length db user_id media_ids :
  length (heads_in db user_id media_ids) =
  size (filter (fun kv : (str * str) * HeadRow => kv.1.1 = user_id /\ kv.1.2 ∈ media_ids)
          (db_heads db)).
Proof.
  unfold heads_in. rewrite length_fmap, <- length_map_to_list, map_filter_alt.
  apply Permutation_length. symmetry. apply map_to_list_to_map.
  eapply sublist_NoDup; [apply (NoDup_fst_map_to_list (db_heads db))|].
  apply fmap_sublist, sublist_filter.
Qed.

(** No row found: there was nothing to delete. *)
Lemma heads_in_nil db user_id media_ids key :
  db_wf db -> heads_in db user_id media_ids = [] ->
  db_heads db !! key =
    if decide (key.1 = user_id /\ key.2 ∈ media_ids) then None else db_heads db !! key.
Proof.
  intros Hwf E. destruct key as [u m]. case_decide as Hk; [|done]. simpl in Hk.
  destruct Hk as [-> Hm]. destruct (db_heads db !! (user_id, m)) as [h|] eqn:Hh; [|done].
  destruct (wf_heads _ Hwf _ _ Hh) as (_ & Hmid & _). simpl in Hmid.
  assert (h ∈ heads_in db user_id media_ids) as Hin
    by (apply heads_in_spec; [done|]; rewrite Hmid; done).
  rewrite E in Hin. by apply not_elem_of_nil in Hin.
Qed.

Lemma heads_in_no_media db user_id : db_wf db -> heads_in db user_id [] = [].
Proof.
  intros Hwf. destruct (heads_in db user_id []) as [|h l] eqn:E; [done|].
  assert (h ∈ heads_in db user_id []) as Hh by (rewrite E; set_solver).
  apply heads_in_spec in Hh as [_ Hh]; [by apply not_elem_of_nil in Hh|done].
Qed.

(** Deleting by the media ids of the rows found is deleting by the ids given. *)
Lemma doomed_iff db user_id media_ids key h :
  db_wf db -> db_heads db !! key = Some h ->
  key.1 = user_id /\ key.2 ∈ (h_media_id <$> heads_in db user_id media_ids) <->
  key.1 = user_id /\ key.2 ∈ media_ids.
Proof.
  intros Hwf Hk. destruct key as [u m]; simpl in *. split; intros [-> Hm]; (split; [done|]).
  - apply list_elem_of_fmap in Hm as (h' & -> & Hh'). by apply heads_in_spec in Hh' as [_ ?].
  - destruct (wf_heads _ Hwf _ _ Hk) as (_ & Hmid & _). simpl in Hmid.
    apply list_elem_of_fmap. exists h. split; [done|]. apply heads_in_spec; [done|].
    by rewrite Hmid.
Qed.

Lemma doomed_count db user_id media_ids :
  db_wf db ->
  size (filter (fun kv : (str * str) * HeadRow =>
          kv.1.1 = user_id /\ kv.1.2 ∈ (h_media_id <$> heads_in db user_id media_ids)) (db_heads db))
  = length (heads_in db user_id media_ids).
Proof.
  intros Hwf. rewrite heads_in_length. f_equal. apply map_filter_ext.
  intros k h Hh. by apply (doomed_iff db user_id media_ids k h).
Qed.

(** A reset: on a reachable database where no statement fails, [clear] deletes
    exactly the user's heads for the given media, touches no other head, reports how
    many it deleted, and appends one provenance row per deleted head. *)
Theorem clear_functional now user_id media_ids protocol device_id db :
  db_wf db -> db_faults db = [] ->
  exists n db',
    clear now user_id media_ids protocol device_id db = (Ok (Z.of_nat n), db') /\
    (forall key, db_heads db' !! key =
       if decide (key.1 = user_id /\ key.2 ∈ media_ids) then None else db_heads db !! key) /\
    n = length (heads_in db user_id media_ids) /\
    length (db_events db') = (length (db_events db) + n)%nat.
Proof.
  intros Hwf Hf. unfold clear. destruct media_ids as [|m0 ms0] eqn:Ems.
  { exists 0%nat, db. rewrite heads_in_no_media by done. split_and!; [done| |done|lia].
    intros key. by apply heads_in_nil, heads_in_no_media. }
  rewrite <- Ems. unfold db_bind, statement. rewrite Hf.
  destruct (insert_events_total (cleared_event user_id protocol device_id now <$>
              heads_in db user_id media_ids) db Hf) as (db1 & E1 & Hf1 & Hh1 & _ & Hl1).
  pose proof (doomed_count db user_id media_ids Hwf) as Hcount.
  destruct (heads_in db user_id media_ids) as [|row rows] eqn:Erows.
  { exists 0%nat, db. split_and!; [done| |done|lia]. intros key. by apply heads_in_nil. }
  rewrite E1. unfold delete_heads, statement. rewrite Hf1, Hh1. rewrite <- Erows in *.
  eexists _, _. split; [done|]. split_and!; [|done|cbn [with_heads db_events]; by rewrite Hl1, length_fmap, Hcount].
  intros key. simpl. apply option_eq. intros h. rewrite map_lookup_filter_Some. case_decide as Hk.
  - split; [|done]. intros [Hh Hn]. exfalso. apply Hn. by apply (doomed_iff db user_id media_ids key h).
  - split; [by intros [??]|]. intros Hh. split; [done|]. intros Hin. apply Hk.
    by apply (doomed_iff db user_id media_ids key h).
Qed.

(** ** Queries *)

#[local] Instance change_order_trans : Transitive change_order.
Proof.
  intros a b c [?|[E1 H1]] [?|[E2 H2]]; unfold change_order; [lia..|].
  right. split; [lia|]. by eapply str_le_trans.
Qed.

#[local] Instance change_order_total : Total change_order.
Proof.
  intros a b. unfold change_order.
  destruct (Z.lt_trichotomy (h_changed_at a) (h_changed_at b)) as [?|[E|?]]; auto.
  rewrite E. destruct (str_le_total (h_media_id a) (h_media_id b)); auto.
Qed.

(** The change feed: [heads_since] returns exactly the user's heads whose
    server change time is after the cursor, oldest change first, ties by media id. *)
Theorem heads_since_complete user_id since db :
  db_wf db -> db_faults db = [] ->
  exists rows, heads_since user_id since db = (Ok rows, db) /\
    StronglySorted change_order rows /\
    forall h, h ∈ rows <->
      db_heads db !! (user_id, h_media_id h) = Some h /\ since < h_changed_at h.
Proof.
  intros Hwf Hf. unfold heads_since, statement. rewrite Hf. eexists. split; [done|].
  split; [apply StronglySorted_merge_sort; apply _|]. intros h.
  rewrite merge_sort_Permutation, list_elem_of_fmap. split.
  - intros ([[u m] h'] & -> & [[Hu Ht] Hin]%list_elem_of_filter). simpl in *. subst u.
    apply elem_of_map_to_list in Hin. destruct (wf_heads _ Hwf _ _ Hin) as (_ & Hmid & _).
    simpl in Hmid. by rewrite Hmid.
  - intros [Hh Ht]. exists ((user_id, h_media_id h), h). split; [done|].
    apply list_elem_of_filter. split; [done|]. by apply elem_of_map_to_list.
Qed.

Lemma ids_unique (events : list EventRow) e1 e2 :
  StronglySorted Z.lt (e_id <$> events) -> e1 ∈ events -> e2 ∈ events -> e_id e1 = e_id e2 -> e1 = e2.
Proof.
  induction events as [|x events IH]; simpl; intros Hs H1 H2 E; [by apply not_elem_of_nil in H1|].
  apply StronglySorted_inv in Hs as [Hs Hx]. rewrite Forall_forall in Hx.
  assert (Hlt : forall e, e ∈ events -> e_id x < e_id e).
  { intros e He. apply Hx, list_elem_of_fmap. eauto. }
  apply elem_of_cons in H1 as [->|H1], H2 as [->|H2]; auto.
  - specialize (Hlt _ H2). lia.
  - specialize (Hlt _ H1). lia.
Qed.

(** The provenance of a stored head can always be recovered: in a reachable
    database [winning_event] finds the very row that materialised it. *)
Theorem winning_event_found key h db :
  db_wf db -> db_faults db = [] -> db_heads db !! key = Some h ->
  exists e, winning_event h db = (Ok (Some e), db) /\
    e_applied e = true /\ e_user_id e = key.1 /\ e_media_id e = key.2 /\
    e_protocol e = h_source_protocol h /\ e_source_updated_at e = h_updated_at h.
Proof.
  intros Hwf Hf Hh. destruct (wf_heads _ Hwf _ _ Hh)
    as (_ & _ & _ & e & Hin & Hid & Ha & Hu & Hm & Hp & _ & Ht & _).
  unfold winning_event, statement. rewrite Hf.
  destruct (List.find _ _) as [e'|] eqn:E.
  - apply find_Some_iff in E as [Hin' Hid'%Z.eqb_eq].
    assert (e' = e) as ->; [|by exists e].
    eapply ids_unique; [apply Hwf|done..|congruence].
  - rewrite find_None_iff in E. specialize (E _ Hin). by rewrite Hid, Z.eqb_refl in E.
Qed.

End behaviour.

(** ** Concrete runs *)

Definition ex_user : str := lit "u1".

Definition ex_update_at (at_ : Z) (page : Z) (completed : option bool) : @ProtocolUpdate fixed_ops :=
  {| u_protocol := Komga;
     u_device_id := Some (lit "kobo");
     u_updated_at := Some at_;
     u_position := PPage page;
     u_progression := None;
     u_completed := completed;
     u_raw_payload := JNull |}.

(** The head after finishing the five-page publication at second 1000. *)
Definition ex_db : @Db fixed_ops :=
  snd (apply (seconds 1000) ex_user ex_publication
         (ex_update_at (seconds 1000) 5 (Some true)) (empty_db [])).

Lemma ex_publication_ok : publication_ok ex_publication.
Proof. split; [unfold in_i32, i32_min, i32_max; simpl; lia|done]. Qed.

Lemma ex_update_ok at_ page completed : in_i32 page -> position_ok (u_position (ex_update_at at_ page completed)).
Proof. done. Qed.

Lemma ex_db_reachable : rtc service_step (empty_db []) ex_db.
Proof.
  apply rtc_once. unfold ex_db. apply step_apply; [|apply ex_publication_ok].
  apply ex_update_ok. unfold in_i32, i32_min, i32_max. lia.
Qed.

Lemma ex_db_wf : db_wf ex_db.
Proof.
  unfold ex_db. apply (@apply_wf fixed_ops fixed_laws); [|apply ex_publication_ok|apply empty_db_wf].
  apply ex_update_ok. unfold in_i32, i32_min, i32_max. lia.
Qed.

Definition ex_head : option (@HeadRow fixed_ops) := db_heads ex_db !! (ex_user, lit "m1").

Lemma ex_db_finished : finished ex_db (ex_user, lit "m1").
Proof.
  destruct (not_none (db_heads ex_db !! (ex_user, lit "m1"))) as [h Hh]; [vm_compute; reflexivity|].
  assert (Hc : option_map h_completed ex_head = Some true)
    by (vm_compute; reflexivity).
  unfold ex_head in Hc. rewrite Hh in Hc. injection Hc as Hc. by exists h.
Qed.

(** A stale re-read of page 2 from ten minutes before does not move the head. *)
Example stale_update_is_provenance :
  (a_outcome <$> (match fst (apply (seconds 2000) ex_user ex_publication
     (ex_update_at (seconds 400) 2 None) ex_db) with Ok a => Some a | Err _ => None end))
  = Some ProvenanceOnly.
Proof. vm_compute. reflexivity. Qed.

Lemma reachable_db_wf_witness : db_wf ex_db.
Proof. exact (@reachable_db_wf fixed_ops fixed_laws [] ex_db ex_db_reachable). Defined.

Lemma apply_functional_witness :
  exists row db', apply (seconds 1000) ex_user ex_publication
      (ex_update_at (seconds 1000) 5 (Some true)) (empty_db []) = (Ok row, db') /\
    length (db_events db') = 1%nat.
Proof.
  destruct (apply_functional (seconds 1000) ex_user ex_publication
              (ex_update_at (seconds 1000) 5 (Some true)) (empty_db []) eq_refl)
    as (row & db' & E & He & _).
  eexists _, db'. split; [exact E|]. by rewrite He.
Defined.

Lemma finished_until_unread_witness :
  finished (fold_left run_call
    [(seconds 2000, ex_user, ex_publication, ex_update_at (seconds 2000) 1 None)] ex_db)
    (ex_user, lit "m1").
Proof.
  apply (finished_until_unread ex_db).
  - exact ex_db_finished.
  - repeat constructor. intros [_ H]. discriminate H.
Defined.

Lemma clear_functional_witness :
  exists n db', clear (seconds 3000) ex_user [lit "m1"] Komga None ex_db = (Ok (Z.of_nat n), db') /\
    db_heads db' !! (ex_user, lit "m1") = None.
Proof.
  destruct (clear_functional (seconds 3000) ex_user [lit "m1"] Komga None ex_db ex_db_wf eq_refl)
    as (n & db' & E & Hk & _).
  exists n, db'. split; [exact E|]. rewrite Hk. apply decide_True.
  split; [reflexivity|]. apply elem_of_cons. left. reflexivity.
Defined.

Lemma heads_since_complete_witness :
  exists rows, heads_since ex_user (seconds 500) ex_db = (Ok rows, ex_db) /\
    StronglySorted change_order rows.
Proof.
  destruct (heads_since_complete ex_user (seconds 500) ex_db ex_db_wf eq_refl) as (rows & E & Hs & _).
  exists rows. split; [exact E|exact Hs].
Defined.

Lemma winning_event_found_witness :
  exists h e, db_heads ex_db !! (ex_user, lit "m1") = Some h /\
    winning_event h ex_db = (Ok (Some e), ex_db).
Proof.
  destruct (not_none (db_heads ex_db !! (ex_user, lit "m1"))) as [h Hh]; [vm_compute; reflexivity|].
  destruct (winning_event_found (ex_user, lit "m1") h ex_db ex_db_wf eq_refl Hh) as (e & E & _).
  exists h, e. split; [exact Hh|exact E].
Defined.
