(* ===== verification/ReadingSessions.v ===== *)
(** * Reading sessions

    Models [src/crates/models/src/domain/reading_progress.rs] and
    [src/crates/models/src/services/reading_progress.rs] over the table of
    [src/crates/models/src/entity/reading_session.rs]: the history of when a book was read,
    one row per sitting, numbered by the readthrough it belongs to.

    Every statement may fail, as the next fault says; a statement that fails has no
    effect, and rolling back is the caller's transaction.  A call reads the clock once.
    Where rows of one book were created at the same instant the order of a query is that
    of their insertion.  Arithmetic of [rust_decimal] is the class [DecimalMath]. *)

From stdpp Require Import base gmap list strings sorting.
From Stdlib Require Import ZArith Lia.
From S2P Require Import Prelude Float64 ReadingState ReadingService.

#[local] Open Scope Z_scope.
#[local] Open Scope coppice_scope.

(** ** Rows *)

Inductive ReadingStatus := Reading | Finished | Abandoned | NotStarted.

#[export] Instance ReadingStatus_eq_dec : EqDecision ReadingStatus.
Proof. solve_decision. Defined.

(** [Decimal::new(mantissa, scale)], division, comparison and [from_f64_retain]. *)
Class DecimalMath `{DecimalOps} := {
  decimal_new : Z -> Z -> Decimal;
  decimal_div : Decimal -> Decimal -> Decimal;
  decimal_le : Decimal -> Decimal -> bool;
  from_f64_retain : f64 -> option Decimal;
}.

(** [i64] addition of a release build. *)
Definition add_i64 (a b : Z) : Z := (a + b + 2 ^ 63) mod 2 ^ 64 - 2 ^ 63.

Section sessions.
Context `{DecimalOps}.

Record SessionRow := {
  sn_id : Z;
  sn_session_date : Z;
  sn_start_locator : option ReadiumLocator;
  sn_end_locator : option ReadiumLocator;
  sn_start_page : option Z;
  sn_end_page : option Z;
  sn_end_position_ms : option Z;
  sn_start_percentage : option Decimal;
  sn_end_percentage : option Decimal;
  sn_koreader_progress : option str;
  sn_elapsed_seconds : option Z;
  sn_readthrough_number : Z;
  sn_status : ReadingStatus;
  sn_notes : option str;
  sn_kobo_state : option value;
  sn_device_ids : option (list str);
  sn_liseur_session_id : option str;
  sn_media_id : str;
  sn_user_id : str;
  sn_created_at : Z;
  sn_updated_at : option Z;
}.

Definition is_finalized (r : SessionRow) : bool :=
  match sn_status r with Finished | Abandoned => true | _ => false end.

Definition is_complete (r : SessionRow) : bool := bool_decide (sn_status r = Finished).

(** [se_next_id] is the auto-increment counter of the table. *)
Record Sessions := { se_rows : list SessionRow; se_next_id : Z }.

Record SessionDb := { sd_table : Sessions; sd_faults : list bool }.

Definition SessionDB (A : Type) : Type := SessionDb -> result A ServiceError * SessionDb.

Definition on_table {A} (run : Sessions -> result A ServiceError * Sessions) : SessionDB A := fun db =>
  match sd_faults db with
  | true :: faults => (Err DbErr, {| sd_table := sd_table db; sd_faults := faults |})
  | faults =>
      let '(r, t) := run (sd_table db) in
      (r, {| sd_table := t; sd_faults := tail faults |})
  end.

Definition select {A} (f : list SessionRow -> A) : SessionDB A := on_table (fun t => (Ok (f (se_rows t)), t)).

(** ** Statements *)

Definition of_pair (user_id media_id : str) (r : SessionRow) : bool :=
  bool_decide (sn_user_id r = user_id) && bool_decide (sn_media_id r = media_id).

Definition created_desc (a b : SessionRow) : Prop := sn_created_at b <= sn_created_at a.

#[global] Instance created_desc_dec a b : Decision (created_desc a b).
Proof. unfold created_desc. apply _. Defined.

(** [order_by_desc(CreatedAt)]. *)
Definition newest_first (rows : list SessionRow) : list SessionRow := merge_sort created_desc rows.

Definition latest_of (user_id media_id : str) (rows : list SessionRow) : option SessionRow :=
  hd_error (newest_first (List.filter (of_pair user_id media_id) rows)).

Definition find_latest (user_id media_id : str) : SessionDB (option SessionRow) := select (latest_of user_id media_id).

Definition set_rows (t : Sessions) (rows : list SessionRow) : Sessions := {| se_rows := rows; se_next_id := se_next_id t |}.

(** An insert: an id beyond the [i32] of its column is an error, and the key of a projected
    session is unique per account. *)
Definition insert_session (mk : Z -> SessionRow) : SessionDB SessionRow := on_table (fun t =>
  let row := mk (se_next_id t) in
  if (i32_max <? se_next_id t) ||
     match sn_liseur_session_id row with
     | Some _ => existsb (fun r => bool_decide (sn_user_id r = sn_user_id row) &&
                                   bool_decide (sn_liseur_session_id r = sn_liseur_session_id row)) (se_rows t)
     | None => false
     end
  then (Err DbErr, t)
  else (Ok row, {| se_rows := se_rows t ++ [row]; se_next_id := se_next_id t + 1 |})).

Definition stored_as (row r : SessionRow) : SessionRow := if sn_id r =? sn_id row then row else r.

(** An update by primary key; updating no row is an error. *)
Definition update_session (row : SessionRow) : SessionDB SessionRow := on_table (fun t =>
  if existsb (fun r => sn_id r =? sn_id row) (se_rows t)
  then (Ok row, set_rows t (stored_as row <$> se_rows t)) else (Err DbErr, t)).

(** Deletes and updates of many rows, with how many they were. *)
Definition delete_sessions (doomed : SessionRow -> bool) : SessionDB Z := on_table (fun t =>
  (Ok (Z.of_nat (length (List.filter doomed (se_rows t)))),
   set_rows t (List.filter (fun r => negb (doomed r)) (se_rows t)))).

Definition update_sessions (which : SessionRow -> bool) (f : SessionRow -> SessionRow) : SessionDB Z := on_table (fun t =>
  (Ok (Z.of_nat (length (List.filter which (se_rows t)))),
   set_rows t ((fun r => if which r then f r else r) <$> se_rows t))).

(** ** The domain rules *)

Definition nanos_per_hour : Z := seconds 3600.
Definition nanos_per_day : Z := seconds 86400.

(** The calendar date, in days since the epoch. *)
Definition calculate_logical_date (now offset_hours : Z) : Z := (now - offset_hours * nanos_per_hour) / nanos_per_day.

(** [num_seconds] rounds towards zero. *)
Definition seconds_between (now t : Z) : Z := Z.quot (now - t) nanos_per_sec.

Definition is_within_grace_period_at (session : SessionRow) (grace_period_secs now : Z) : bool :=
  match sn_updated_at session with Some t => seconds_between now t | None => 0 end <=? grace_period_secs.

Definition should_extend_session_at (session : SessionRow) (grace_period_secs now : Z) : bool :=
  if bool_decide (sn_status session = Abandoned) then false
  else is_within_grace_period_at session grace_period_secs now.

Definition is_recent_completion (session : SessionRow) (timeout_secs now : Z) : bool :=
  if negb (is_finalized session) then false
  else match sn_updated_at session with Some t => seconds_between now t <=? timeout_secs | None => false end.

Definition decimal_clamp `{!DecimalMath} (d low high : Decimal) : Decimal :=
  if negb (decimal_le low d) then low else if negb (decimal_le d high) then high else d.

Definition compute_page_based_percentage `{!DecimalMath} (current_page pages : Z) : Decimal :=
  if pages <=? 0 then decimal_new 0 0
  else decimal_clamp (decimal_div (decimal_new current_page 0) (decimal_new pages 0)) (decimal_new 0 0) (decimal_new 100 0).

(** ** The service *)

Record NormalizedProgression := {
  np_page : option Z;
  np_locator : option ReadiumLocator;
  np_percentage : option Decimal;
  np_elapsed_seconds_delta : option Z;
  np_did_complete : bool;
  np_device_id : option str;
  np_reset_elapsed_seconds : bool;
}.

Definition delta_of (p : NormalizedProgression) : Z := Z.max (default 0 (np_elapsed_seconds_delta p)) 0.

Definition status_after (did_complete : bool) : ReadingStatus := if did_complete then Finished else Reading.

Definition with_device (device_id : option str) (ids : option (list str)) : option (list str) :=
  match device_id with
  | Some incoming =>
      let current := default [] ids in
      if bool_decide (incoming ∈ current) then ids else Some (current ++ [incoming])
  | None => ids
  end.

(** [before_save] of an update stamps the row. *)
Definition apply_progression (now : Z) (p : NormalizedProgression) (r : SessionRow) : SessionRow :=
  {| sn_id := sn_id r; sn_session_date := sn_session_date r; sn_start_locator := sn_start_locator r;
     sn_end_locator := np_locator p orelse sn_end_locator r; sn_start_page := sn_start_page r;
     sn_end_page := np_page p orelse sn_end_page r; sn_end_position_ms := sn_end_position_ms r;
     sn_start_percentage := sn_start_percentage r; sn_end_percentage := np_percentage p orelse sn_end_percentage r;
     sn_koreader_progress := sn_koreader_progress r;
     sn_elapsed_seconds := Some (add_i64 (default 0 (sn_elapsed_seconds r)) (delta_of p));
     sn_readthrough_number := sn_readthrough_number r; sn_status := status_after (np_did_complete p);
     sn_notes := sn_notes r; sn_kobo_state := sn_kobo_state r;
     sn_device_ids := with_device (np_device_id p) (sn_device_ids r); sn_liseur_session_id := sn_liseur_session_id r;
     sn_media_id := sn_media_id r; sn_user_id := sn_user_id r; sn_created_at := sn_created_at r;
     sn_updated_at := Some now |}.

(** A row with the columns that have no default; an insert stamps it. *)
Definition blank_session (now : Z) (user_id media_id : str) (date number id : Z) : SessionRow :=
  {| sn_id := id; sn_session_date := date; sn_start_locator := None; sn_end_locator := None; sn_start_page := None;
     sn_end_page := None; sn_end_position_ms := None; sn_start_percentage := None; sn_end_percentage := None;
     sn_koreader_progress := None; sn_elapsed_seconds := None; sn_readthrough_number := number; sn_status := Reading;
     sn_notes := None; sn_kobo_state := None; sn_device_ids := None; sn_liseur_session_id := None;
     sn_media_id := media_id; sn_user_id := user_id; sn_created_at := now; sn_updated_at := Some now |}.

Definition new_session `{!DecimalMath} (now : Z) (user_id media_id : str) (date number : Z) (p : NormalizedProgression) (id : Z)
  : SessionRow :=
  {| sn_id := id; sn_session_date := date; sn_start_locator := np_locator p; sn_end_locator := np_locator p;
     sn_start_page := np_page p; sn_end_page := np_page p; sn_end_position_ms := None;
     sn_start_percentage := np_percentage p orelse Some (decimal_new 0 2); sn_end_percentage := np_percentage p;
     sn_koreader_progress := None; sn_elapsed_seconds := Some (delta_of p); sn_readthrough_number := number;
     sn_status := status_after (np_did_complete p); sn_notes := None; sn_kobo_state := None;
     sn_device_ids := (fun id => [id]) <$> np_device_id p; sn_liseur_session_id := None;
     sn_media_id := media_id; sn_user_id := user_id; sn_created_at := now; sn_updated_at := Some now |}.

Definition next_number (latest : option SessionRow) : Z :=
  match latest with
  | None => 1
  | Some session => if is_finalized session then wrap_i32 (sn_readthrough_number session + 1) else sn_readthrough_number session
  end.

Definition derive_readthrough_number (user_id media_id : str) : SessionDB Z :=
  latest <-- find_latest user_id media_id ;;
  db_ret (next_number latest).

Definition no_elapsed (r : SessionRow) : SessionRow :=
  {| sn_id := sn_id r; sn_session_date := sn_session_date r; sn_start_locator := sn_start_locator r;
     sn_end_locator := sn_end_locator r; sn_start_page := sn_start_page r; sn_end_page := sn_end_page r;
     sn_end_position_ms := sn_end_position_ms r; sn_start_percentage := sn_start_percentage r;
     sn_end_percentage := sn_end_percentage r; sn_koreader_progress := sn_koreader_progress r;
     sn_elapsed_seconds := Some 0; sn_readthrough_number := sn_readthrough_number r; sn_status := sn_status r;
     sn_notes := sn_notes r; sn_kobo_state := sn_kobo_state r; sn_device_ids := sn_device_ids r;
     sn_liseur_session_id := sn_liseur_session_id r; sn_media_id := sn_media_id r; sn_user_id := sn_user_id r;
     sn_created_at := sn_created_at r; sn_updated_at := sn_updated_at r |}.

Definition in_readthrough (user_id media_id : str) (number : Z) (r : SessionRow) : bool :=
  of_pair user_id media_id r && (sn_readthrough_number r =? number).

Definition reset_cumulative_elapsed_seconds (user_id media_id : str) : SessionDB bool :=
  current_session <-- find_latest user_id media_id ;;
  match current_session with
  | None => db_ret false
  | Some session =>
      affected <-- update_sessions (in_readthrough user_id media_id (sn_readthrough_number session)) no_elapsed ;;
      db_ret (0 <? affected)
  end.

(** The account with its preferences: the grace period in seconds and the hour the day
    starts at. *)
Record SessionUser := { su_id : str; su_preferences : option (Z * Z) }.

Definition preferences_of (user : SessionUser) : Z * Z := default (1800, 0) (su_preferences user).

Definition upsert_reading_session `{!DecimalMath} (now : Z) (user : SessionUser) (media_id : str) (input : NormalizedProgression)
  : SessionDB SessionRow :=
  let '(grace_period, day_reset_offset) := preferences_of user in
  let logical_today := calculate_logical_date now day_reset_offset in
  _ <-- (if np_reset_elapsed_seconds input then reset_cumulative_elapsed_seconds (su_id user) media_id else db_ret false) ;;
  latest <-- find_latest (su_id user) media_id ;;
  match (latest ≫= fun session => then_some ((sn_session_date session =? logical_today) &&
                                             should_extend_session_at session grace_period now) session) with
  | Some session => update_session (apply_progression now input session)
  | None =>
      number <-- derive_readthrough_number (su_id user) media_id ;;
      insert_session (new_session now (su_id user) media_id logical_today number input)
  end.

End sessions.

Arguments SessionDB {_} _.

(** ** The numbering of readthroughs *)

Section numbering.
Context `{DecimalOps}.

Definition same_pair (a b : SessionRow) : Prop := sn_user_id a = sn_user_id b /\ sn_media_id a = sn_media_id b.

(** What the numbering depends on. *)
Definition session_key (r : SessionRow) : Z * str * str * Z * Z :=
  (sn_id r, sn_user_id r, sn_media_id r, sn_created_at r, sn_readthrough_number r).

(** The sessions of a book, in the order they were created: the readthrough never
    decreases, and a session that ended a readthrough is its last. *)
Record sessions_wf (t : Sessions) : Prop := {
  sw_first : 1 <= se_next_id t;
  sw_ids : NoDup (sn_id <$> se_rows t);
  sw_next r : r ∈ se_rows t -> sn_id r < se_next_id t;
  sw_numbers r : r ∈ se_rows t -> 1 <= sn_readthrough_number r <= sn_id r;
  sw_times a b : a ∈ se_rows t -> b ∈ se_rows t -> same_pair a b -> sn_created_at a = sn_created_at b -> a = b;
  sw_order a b : a ∈ se_rows t -> b ∈ se_rows t -> same_pair a b -> sn_created_at a < sn_created_at b ->
    sn_readthrough_number a <= sn_readthrough_number b /\
    (is_finalized a = true -> sn_readthrough_number a < sn_readthrough_number b);
}.

Definition newest (rows : list SessionRow) (r : SessionRow) : Prop :=
  forall b, b ∈ rows -> same_pair r b -> sn_created_at b <= sn_created_at r.

Lemma of_pair_iff user_id media_id r :
  of_pair user_id media_id r = true <-> sn_user_id r = user_id /\ sn_media_id r = media_id.
Proof. unfold of_pair. by rewrite andb_true_iff, !bool_decide_eq_true. Qed.

#[export] Instance created_desc_total : Total created_desc.
Proof. intros a b. unfold created_desc. lia. Qed.

#[export] Instance created_desc_trans : Transitive created_desc.
Proof. intros a b c. unfold created_desc. lia. Qed.

Lemma latest_none user_id media_id rows :
  latest_of user_id media_id rows = None <-> forall r, r ∈ rows -> of_pair user_id media_id r = false.
Proof.
  unfold latest_of, newest_first. destruct (merge_sort _ _) as [|r l] eqn:E; cbn.
  - split; [|done]. intros _ r Hr. destruct (of_pair user_id media_id r) eqn:Hp; [|done].
    assert (Hin : r ∈ List.filter (of_pair user_id media_id) rows).
    { apply list_elem_of_In, filter_In. split; [by apply list_elem_of_In|done]. }
    rewrite <- (merge_sort_Permutation created_desc), E in Hin. by apply elem_of_nil in Hin.
  - split; [done|]. intros Hall. assert (Hin : r ∈ List.filter (of_pair user_id media_id) rows).
    { rewrite <- (merge_sort_Permutation created_desc), E. by left. }
    apply list_elem_of_In, filter_In in Hin as [Hin Hp]. apply list_elem_of_In in Hin. by rewrite (Hall r Hin) in Hp.
Qed.

Lemma latest_some user_id media_id rows r :
  latest_of user_id media_id rows = Some r ->
  r ∈ rows /\ of_pair user_id media_id r = true /\
  forall b, b ∈ rows -> of_pair user_id media_id b = true -> sn_created_at b <= sn_created_at r.
Proof.
  unfold latest_of, newest_first. destruct (merge_sort _ _) as [|r0 l] eqn:E; [done|]. intros [= ->].
  assert (Hin : forall b, b ∈ r :: l <-> b ∈ rows /\ of_pair user_id media_id b = true).
  { intros b. rewrite <- E, merge_sort_Permutation, list_elem_of_In, filter_In, list_elem_of_In. done. }
  destruct (proj1 (Hin r)) as [Hr Hp]; [by left|]. split_and!; [done|done|]. intros b Hb Hpb.
  assert (Hs : StronglySorted created_desc (r :: l)) by (rewrite <- E; apply StronglySorted_merge_sort; apply _).
  apply StronglySorted_inv in Hs as [_ Hs]. rewrite Forall_forall in Hs.
  pose proof (proj2 (Hin b) (conj Hb Hpb)) as [->|Hl]%elem_of_cons; [done|by apply Hs].
Qed.

Lemma latest_newest user_id media_id rows r : latest_of user_id media_id rows = Some r -> newest rows r.
Proof.
  intros (_ & [<- <-]%of_pair_iff & Hmax)%latest_some b Hb [Hu Hm]. apply Hmax; [done|]. by apply of_pair_iff.
Qed.

(** *** Operations on the table that keep it *)

Lemma wf_map (f : SessionRow -> SessionRow) t :
  sessions_wf t -> (forall r, r ∈ se_rows t -> session_key (f r) = session_key r) ->
  (forall r, r ∈ se_rows t -> is_finalized (f r) = true -> is_finalized r = true \/ newest (se_rows t) r) ->
  sessions_wf (set_rows t (f <$> se_rows t)).
Proof.
  intros [W1 W2 W3 W4 W5 W6] Hk Hf. unfold session_key in Hk. split; cbn [se_rows se_next_id set_rows]; [done| | | | |].
  - rewrite <- list_fmap_compose. erewrite (Forall_fmap_ext_1 _ sn_id); [done|]. apply Forall_forall. intros r Hr.
    specialize (Hk r Hr). cbn. congruence.
  - intros r (r0 & -> & Hr)%list_elem_of_fmap. specialize (Hk r0 Hr). specialize (W3 r0 Hr). injection Hk. lia.
  - intros r (r0 & -> & Hr)%list_elem_of_fmap. specialize (Hk r0 Hr). specialize (W4 r0 Hr). injection Hk. lia.
  - intros a b (a0 & -> & Ha)%list_elem_of_fmap (b0 & -> & Hb)%list_elem_of_fmap [Hu Hm] E. f_equal.
    pose proof (Hk a0 Ha) as Ka. pose proof (Hk b0 Hb) as Kb. injection Ka. injection Kb. intros.
    apply W5; [done|done|split; congruence|congruence].
  - intros a b (a0 & -> & Ha)%list_elem_of_fmap (b0 & -> & Hb)%list_elem_of_fmap [Hu Hm] E.
    pose proof (Hk a0 Ha) as Ka. pose proof (Hk b0 Hb) as Kb. injection Ka. injection Kb. intros.
    assert (Hp : same_pair a0 b0) by (split; congruence).
    destruct (W6 a0 b0 Ha Hb Hp) as [Hle Hlt]; [lia|]. split; [lia|]. intros Hfin.
    destruct (Hf a0 Ha Hfin) as [Hfa|Hn]; [specialize (Hlt Hfa); lia|]. specialize (Hn b0 Hb Hp). lia.
Qed.

Lemma wf_filter (p : SessionRow -> bool) t : sessions_wf t -> sessions_wf (set_rows t (List.filter p (se_rows t))).
Proof.
  intros [W1 W2 W3 W4 W5 W6]. assert (Hin : forall r, r ∈ List.filter p (se_rows t) -> r ∈ se_rows t).
  { intros r Hr%list_elem_of_In. apply filter_In in Hr as [Hr _]. by apply list_elem_of_In. }
  split; cbn [se_rows se_next_id set_rows]; eauto. clear -W2. induction (se_rows t) as [|r rows IH]; [constructor|].
  cbn in W2. apply NoDup_cons in W2 as [Hn W2]. cbn. destruct (p r); cbn; [|by apply IH]. apply NoDup_cons. split; [|by apply IH].
  intros (r' & E & Hr')%list_elem_of_fmap. apply Hn. rewrite E. apply list_elem_of_fmap_2.
  apply list_elem_of_In, filter_In in Hr' as [Hr' _]. by apply list_elem_of_In.
Qed.

(** A row that is newer than the other sessions of its book. *)
Definition appendable (t : Sessions) (row : SessionRow) : Prop :=
  forall a, a ∈ se_rows t -> same_pair a row ->
    sn_created_at a < sn_created_at row /\ sn_readthrough_number a <= sn_readthrough_number row /\
    (is_finalized a = true -> sn_readthrough_number a < sn_readthrough_number row).

Lemma wf_insert row t :
  sessions_wf t -> sn_id row = se_next_id t -> 1 <= sn_readthrough_number row <= sn_id row -> appendable t row ->
  sessions_wf {| se_rows := se_rows t ++ [row]; se_next_id := se_next_id t + 1 |}.
Proof.
  intros [W1 W2 W3 W4 W5 W6] Hid Hnum Hnew.
  split; cbn [se_rows se_next_id]; [lia| | | | |]; try (intros r [Hr| ->%list_elem_of_singleton]%elem_of_app).
  - rewrite fmap_app. apply NoDup_app. split_and!; [done| |apply NoDup_singleton].
    intros x (r & -> & Hr)%list_elem_of_fmap Hx%list_elem_of_singleton. specialize (W3 r Hr). cbn in Hx. lia.
  - specialize (W3 r Hr). lia.
  - lia.
  - by apply W4.
  - done.
  - intros a b [Ha| ->%list_elem_of_singleton]%elem_of_app [Hb| ->%list_elem_of_singleton]%elem_of_app Hp E; [by apply W5| | |done].
    + destruct (Hnew a Ha Hp). lia.
    + destruct Hp as [Hu Hm]. destruct (Hnew b Hb); [by split|]. lia.
  - intros a b [Ha| ->%list_elem_of_singleton]%elem_of_app [Hb| ->%list_elem_of_singleton]%elem_of_app Hp E; [by apply W6| | |lia].
    + by destruct (Hnew a Ha Hp) as (_ & ? & ?).
    + destruct Hp as [Hu Hm]. destruct (Hnew b Hb); [by split|]. lia.
Qed.

(** The number of a new session, which fits its column when its id does. *)
Lemma next_number_fits user_id media_id t a :
  sessions_wf t -> se_next_id t <= i32_max ->
  let number := next_number (latest_of user_id media_id (se_rows t)) in
  1 <= number <= se_next_id t /\
  (a ∈ se_rows t -> of_pair user_id media_id a = true ->
   sn_readthrough_number a <= number /\ (is_finalized a = true -> sn_readthrough_number a < number)).
Proof.
  intros [W1 W2 W3 W4 W5 W6] Hmax. cbv zeta. destruct (latest_of user_id media_id (se_rows t)) as [r|] eqn:E; cbn [next_number].
  - apply latest_some in E as (Hr & Hp & Hnew). pose proof (W4 r Hr). pose proof (W3 r Hr).
    assert (Hw : wrap_i32 (sn_readthrough_number r + 1) = sn_readthrough_number r + 1).
    { unfold wrap_i32, i32_max in *. rewrite Z.mod_small; lia. }
    rewrite Hw. split; [destruct (is_finalized r); lia|]. intros Ha Hpa. specialize (Hnew a Ha Hpa).
    apply of_pair_iff in Hp as [Hu Hm]. apply of_pair_iff in Hpa as [Hu' Hm']. assert (Hsame : same_pair a r) by (split; congruence).
    destruct (decide (sn_created_at a = sn_created_at r)) as [Heq|Hne].
    + rewrite (W5 a r Ha Hr Hsame Heq). destruct (is_finalized r); [lia|]. split; [lia|done].
    + destruct (W6 a r Ha Hr Hsame) as [Hle Hlt]; [lia|]. destruct (is_finalized r); split; [lia|intros F; specialize (Hlt F); lia|lia|done].
  - split; [lia|]. intros Ha Hpa. rewrite latest_none in E. by rewrite (E a Ha) in Hpa.
Qed.

End numbering.

(** ** The service keeps the numbering and accounts for the time *)

Section service_lemmas.
Context `{DecimalOps} `{!DecimalMath}.

Lemma on_table_cases {A} (run : Sessions -> result A ServiceError * Sessions) db r db' :
  on_table run db = (r, db') ->
  (r = Err DbErr /\ sd_table db' = sd_table db) \/ run (sd_table db) = (r, sd_table db').
Proof.
  unfold on_table. destruct (sd_faults db) as [|[] fs].
  - destruct (run (sd_table db)) as [r1 t] eqn:E. intros [= <- <-]. by right.
  - intros [= <- <-]. by left.
  - destruct (run (sd_table db)) as [r1 t] eqn:E. intros [= <- <-]. by right.
Qed.

Lemma select_cases {A} (f : list SessionRow -> A) db r db' :
  select f db = (r, db') -> sd_table db' = sd_table db /\ (r = Err DbErr \/ r = Ok (f (se_rows (sd_table db)))).
Proof. intros [[-> ->]|[= <- <-]]%on_table_cases; auto. Qed.

Lemma insert_cases mk db r db' :
  insert_session mk db = (r, db') ->
  (r = Err DbErr /\ sd_table db' = sd_table db) \/
  (let row := mk (se_next_id (sd_table db)) in
   r = Ok row /\ se_next_id (sd_table db) <= i32_max /\
   sd_table db' = {| se_rows := se_rows (sd_table db) ++ [row]; se_next_id := se_next_id (sd_table db) + 1 |}).
Proof.
  intros [[-> ->]|E]%on_table_cases; [auto|]. cbv zeta in E. destruct (_ || _) eqn:Eb in E.
  - injection E as <- <-. auto.
  - apply orb_false_iff in Eb as [Eb _]. apply Z.ltb_ge in Eb. injection E as <- E. right. done.
Qed.

Lemma update_cases row db r db' :
  update_session row db = (r, db') ->
  (r = Err DbErr /\ sd_table db' = sd_table db) \/
  (r = Ok row /\ sd_table db' = set_rows (sd_table db) (stored_as row <$> se_rows (sd_table db))).
Proof. intros [[-> ->]|E]%on_table_cases; [auto|]. destruct (existsb _ _) in E; injection E as <- E; auto. Qed.

Lemma update_sessions_cases which f db r db' :
  update_sessions which f db = (r, db') ->
  (r = Err DbErr /\ sd_table db' = sd_table db) \/
  (r = Ok (Z.of_nat (length (List.filter which (se_rows (sd_table db))))) /\
   sd_table db' = set_rows (sd_table db) ((fun r => if which r then f r else r) <$> se_rows (sd_table db))).
Proof. intros [[-> ->]|[= <- E]]%on_table_cases; auto. Qed.

Lemma delete_cases doomed db r db' :
  delete_sessions doomed db = (r, db') ->
  (r = Err DbErr /\ sd_table db' = sd_table db) \/
  (r = Ok (Z.of_nat (length (List.filter doomed (se_rows (sd_table db))))) /\
   sd_table db' = set_rows (sd_table db) (List.filter (fun r => negb (doomed r)) (se_rows (sd_table db)))).
Proof. intros [[-> ->]|[= <- E]]%on_table_cases; auto. Qed.

(** Every session of the book was created before. *)
Definition fresh (user_id media_id : str) (now : Z) (t : Sessions) : Prop :=
  forall a, a ∈ se_rows t -> of_pair user_id media_id a = true -> sn_created_at a < now.

(** A step on the sessions of one book: the numbering is kept, and the sessions of other
    books are the same. *)
Record paces (user_id media_id : str) (now : Z) (t t' : Sessions) : Prop := {
  pc_wf : sessions_wf t -> fresh user_id media_id now t -> sessions_wf t';
  pc_others : List.filter (fun r => negb (of_pair user_id media_id r)) (se_rows t') =
              List.filter (fun r => negb (of_pair user_id media_id r)) (se_rows t);
}.

Lemma paces_refl user_id media_id now t t' : t' = t -> paces user_id media_id now t t'.
Proof. by intros ->. Qed.

Lemma filter_map_same (p : SessionRow -> bool) (f : SessionRow -> SessionRow) rows :
  (forall r, r ∈ rows -> p (f r) = p r) -> (forall r, r ∈ rows -> p r = true -> f r = r) ->
  List.filter p (f <$> rows) = List.filter p rows.
Proof.
  induction rows as [|r rows IH]; intros Hp Hf; [done|]. cbn. rewrite (Hp r) by (by left).
  rewrite IH by (intros; (apply Hp || apply Hf); [by right|done..]). destruct (p r) eqn:E; [|done].
  by rewrite Hf by (done || by left).
Qed.

Lemma stored_as_key row rows r0 : NoDup (sn_id <$> rows) -> r0 ∈ rows -> session_key row = session_key r0 ->
  forall r, r ∈ rows -> session_key (stored_as row r) = session_key r.
Proof.
  intros Hnd Hr0 Hk r Hr. unfold stored_as. destruct (Z.eqb_spec (sn_id r) (sn_id row)) as [E|]; [|done]. rewrite Hk. f_equal.
  assert (Ei : sn_id row = sn_id r0) by (unfold session_key in Hk; congruence). rewrite Ei in E. clear Ei Hk. symmetry in E.
  induction rows as [|a rows IH]; [by apply elem_of_nil in Hr|]. cbn in Hnd. apply NoDup_cons in Hnd as [Hn Hnd].
  apply elem_of_cons in Hr as [->|Hr]; apply elem_of_cons in Hr0 as [->|Hr0]; [done| | |by apply IH].
  - destruct Hn. rewrite <- E. by apply list_elem_of_fmap_2.
  - destruct Hn. rewrite E. by apply list_elem_of_fmap_2.
Qed.

Lemma key_pair user_id media_id a b :
  session_key a = session_key b -> of_pair user_id media_id a = of_pair user_id media_id b.
Proof. intros [= _ Hu Hm _ _]. unfold of_pair. by rewrite Hu, Hm. Qed.

Lemma update_paces user_id media_id now t row r0 :
  r0 ∈ se_rows t -> of_pair user_id media_id r0 = true -> newest (se_rows t) r0 -> session_key row = session_key r0 ->
  NoDup (sn_id <$> se_rows t) -> paces user_id media_id now t (set_rows t (stored_as row <$> se_rows t)).
Proof.
  intros Hr0 Hp Hn Hk Hnd. pose proof (stored_as_key row (se_rows t) r0 Hnd Hr0 Hk) as Hkeys.
  assert (Hpair : forall r, r ∈ se_rows t -> of_pair user_id media_id (stored_as row r) = of_pair user_id media_id r).
  { intros r Hr. by apply key_pair, Hkeys. }
  assert (Hid : forall r, r ∈ se_rows t -> sn_id r = sn_id row -> session_key r = session_key r0).
  { intros r Hr E. rewrite <- (Hkeys r Hr). unfold stored_as. by rewrite (proj2 (Z.eqb_eq _ _) E). }
  split; cbn [se_rows set_rows].
  - intros Hwf _. apply wf_map; [done|done|]. intros r Hr. unfold stored_as.
    destruct (Z.eqb_spec (sn_id r) (sn_id row)) as [E|]; [|auto]. intros _. right. specialize (Hid r Hr E).
    unfold session_key in Hid. intros b Hb [Hu Hm]. specialize (Hn b Hb). unfold same_pair in Hn. injection Hid. intros.
    assert (sn_created_at b <= sn_created_at r0) by (apply Hn; split; congruence). congruence.
  - apply filter_map_same; [intros r Hr; by rewrite Hpair|]. intros r Hr Hnp%negb_true_iff. unfold stored_as.
    destruct (Z.eqb_spec (sn_id r) (sn_id row)) as [E|]; [|done]. pose proof (key_pair user_id media_id _ _ (Hid r Hr E)). congruence.
Qed.

Lemma insert_paces user_id media_id now t row :
  of_pair user_id media_id row = true -> sn_created_at row = now -> sn_id row = se_next_id t ->
  se_next_id t <= i32_max -> sn_readthrough_number row = next_number (latest_of user_id media_id (se_rows t)) ->
  paces user_id media_id now t {| se_rows := se_rows t ++ [row]; se_next_id := se_next_id t + 1 |}.
Proof.
  intros Hp Hc Hid Hmax Hnum. split; cbn [se_rows].
  - intros Hwf Hf. pose proof (fun a => next_number_fits user_id media_id t a Hwf Hmax) as Hfit. cbv zeta in Hfit.
    apply wf_insert; [done|done|rewrite Hnum, Hid; apply (Hfit row)|]. intros a Ha [Hu Hm].
    assert (Hpa : of_pair user_id media_id a = true) by (rewrite of_pair_iff in *; naive_solver).
    split; [rewrite Hc; by apply Hf|]. rewrite Hnum. by apply (Hfit a).
  - rewrite List.filter_app. cbn. rewrite Hp. cbn. by rewrite app_nil_r.
Qed.

Lemma delete_paces user_id media_id now t (p : SessionRow -> bool) :
  (forall r, p r = true -> of_pair user_id media_id r = true) ->
  paces user_id media_id now t (set_rows t (List.filter (fun r => negb (p r)) (se_rows t))).
Proof.
  intros Hp. split; [by intros Hwf _; apply wf_filter|]. cbn. induction (se_rows t) as [|r rows IH]; [done|]. cbn.
  specialize (Hp r). destruct (p r); cbn; [rewrite (Hp eq_refl); done|]. destruct (of_pair user_id media_id r); cbn; [done|by f_equal].
Qed.

Lemma zero_paces user_id media_id now t number :
  paces user_id media_id now t
    (set_rows t ((fun r => if in_readthrough user_id media_id number r then no_elapsed r else r) <$> se_rows t)).
Proof.
  split; cbn [se_rows set_rows].
  - intros Hwf _. apply wf_map; [done|intros r _; by destruct (in_readthrough _ _ _ r)|].
    intros r _. destruct (in_readthrough _ _ _ r); auto.
  - apply filter_map_same; intros r _.
    + f_equal. apply key_pair. by destruct (in_readthrough _ _ _ r).
    + intros Hn%negb_true_iff. unfold in_readthrough. by rewrite Hn.
Qed.

End service_lemmas.

(** ** An update of the progress of a book *)

Section upserting.
Context `{DecimalOps} `{!DecimalMath}.

Lemma latest_unique user_id media_id t r :
  sessions_wf t -> r ∈ se_rows t -> of_pair user_id media_id r = true ->
  (forall b, b ∈ se_rows t -> of_pair user_id media_id b = true -> sn_created_at b <= sn_created_at r) ->
  latest_of user_id media_id (se_rows t) = Some r.
Proof.
  intros Hwf Hr Hp Hmax. destruct (latest_of user_id media_id (se_rows t)) as [r'|] eqn:E.
  - apply latest_some in E as (Hr' & Hp' & Hmax'). f_equal. specialize (Hmax r' Hr' Hp'). specialize (Hmax' r Hr Hp).
    apply of_pair_iff in Hp as [Hu Hm]. apply of_pair_iff in Hp' as [Hu' Hm'].
    apply (sw_times t Hwf); [done|done|split; congruence|lia].
  - rewrite latest_none in E. by rewrite (E r Hr) in Hp.
Qed.

(** The session an update continues: the latest, when it is of today, was not given up and
    is within the grace period. *)
Definition continued (now : Z) (user : SessionUser) (latest : option SessionRow) : option SessionRow :=
  let '(grace_period, day_reset_offset) := preferences_of user in
  latest ≫= fun session => then_some ((sn_session_date session =? calculate_logical_date now day_reset_offset) &&
                                      should_extend_session_at session grace_period now) session.

Definition today (now : Z) (user : SessionUser) : Z := calculate_logical_date now (preferences_of user).2.

Lemma continued_is now user latest s : continued now user latest = Some s -> latest = Some s.
Proof.
  unfold continued. destruct (preferences_of user). intros (s' & -> & E)%bind_Some. by apply then_some_Some in E as [_ ->].
Qed.

(** The time read, with the elapsed seconds of the current readthrough set to zero first
    when the update says so. *)
Definition zeroed (user_id media_id : str) (t : Sessions) : Sessions :=
  match latest_of user_id media_id (se_rows t) with
  | None => t
  | Some s => set_rows t ((fun r => if in_readthrough user_id media_id (sn_readthrough_number s) r then no_elapsed r else r) <$> se_rows t)
  end.

Definition prepared (user_id media_id : str) (input : NormalizedProgression) (t : Sessions) : Sessions :=
  if np_reset_elapsed_seconds input then zeroed user_id media_id t else t.

Lemma prepared_paces user_id media_id now input t : paces user_id media_id now t (prepared user_id media_id input t).
Proof.
  unfold prepared, zeroed. destruct (np_reset_elapsed_seconds input); [|by apply paces_refl].
  destruct (latest_of _ _ _) as [s|]; [apply zero_paces|by apply paces_refl].
Qed.

Lemma prepared_fresh user_id media_id now input t :
  fresh user_id media_id now t -> fresh user_id media_id now (prepared user_id media_id input t).
Proof.
  unfold prepared, zeroed. destruct (np_reset_elapsed_seconds input); [|done]. destruct (latest_of _ _ _) as [s|]; [|done].
  intros Hf a (r & -> & Hr)%list_elem_of_fmap Hp. specialize (Hf r Hr).
  destruct (in_readthrough _ _ _ r) eqn:E; [|by apply Hf]. apply andb_true_iff in E as [E _]. by apply Hf.
Qed.

Lemma paces_after user_id media_id now t t1 t2 :
  (fresh user_id media_id now t -> fresh user_id media_id now t1) ->
  paces user_id media_id now t t1 -> paces user_id media_id now t1 t2 -> paces user_id media_id now t t2.
Proof. intros Hf [W1 O1] [W2 O2]. split; [auto|congruence]. Qed.

Lemma reset_cases user_id media_id db r db' :
  reset_cumulative_elapsed_seconds user_id media_id db = (r, db') ->
  sd_table db' = sd_table db \/ sd_table db' = zeroed user_id media_id (sd_table db).
Proof.
  unfold reset_cumulative_elapsed_seconds, find_latest. intros [(e & E & _)|(latest & db1 & E1 & E)]%db_bind_cases.
  - apply select_cases in E as [E _]. auto.
  - apply select_cases in E1 as [Ht [[=]|[= ->]]]. unfold zeroed.
    destruct (latest_of user_id media_id (se_rows (sd_table db))) as [s|]; [|injection E as _ <-; auto].
    apply db_bind_cases in E as [(e & E & _)|(n & db2 & E2 & E)].
    + apply update_sessions_cases in E as [[_ E]|[[=] _]]. left. congruence.
    + apply update_sessions_cases in E2 as [[[=] _]|[_ E2]]. injection E as _ <-. right. by rewrite E2, Ht.
Qed.

Lemma reset_done user_id media_id db n db' :
  reset_cumulative_elapsed_seconds user_id media_id db = (Ok n, db') -> sd_table db' = zeroed user_id media_id (sd_table db).
Proof.
  unfold reset_cumulative_elapsed_seconds, find_latest. intros [(e & _ & [=])|(latest & db1 & E1 & E)]%db_bind_cases.
  apply select_cases in E1 as [Ht [[=]|[= ->]]]. unfold zeroed.
  destruct (latest_of user_id media_id (se_rows (sd_table db))) as [s|]; [|by injection E as _ <-].
  apply db_bind_cases in E as [(e & _ & [=])|(k & db2 & E2 & E)].
  apply update_sessions_cases in E2 as [[[=] _]|[_ E2]]. injection E as _ <-. by rewrite E2, Ht.
Qed.

(** What an update that goes through stores. *)
Definition upserts (now : Z) (user : SessionUser) (media_id : str) (input : NormalizedProgression) (t : Sessions) (row : SessionRow)
    (t' : Sessions) : Prop :=
  let t1 := prepared (su_id user) media_id input t in
  match continued now user (latest_of (su_id user) media_id (se_rows t1)) with
  | Some s => row = apply_progression now input s /\ t' = set_rows t1 (stored_as row <$> se_rows t1)
  | None =>
      row = new_session now (su_id user) media_id (today now user) (next_number (latest_of (su_id user) media_id (se_rows t1))) input (se_next_id t1) /\
      se_next_id t1 <= i32_max /\ t' = {| se_rows := se_rows t1 ++ [row]; se_next_id := se_next_id t1 + 1 |}
  end.

Lemma upsert_cases now user media_id input db r db' :
  upsert_reading_session now user media_id input db = (r, db') ->
  (exists e, r = Err e /\ (sd_table db' = sd_table db \/ sd_table db' = prepared (su_id user) media_id input (sd_table db))) \/
  (exists row, r = Ok row /\ upserts now user media_id input (sd_table db) row (sd_table db')).
Proof.
  unfold upsert_reading_session. destruct (preferences_of user) as [grace offset] eqn:Epref.
  intros [(e & E & ->)|(z & db1 & E1 & E)]%db_bind_cases.
  - left. exists e. split; [done|]. unfold prepared. destruct (np_reset_elapsed_seconds input); [|done]. by eapply reset_cases.
  - assert (Ht1 : sd_table db1 = prepared (su_id user) media_id input (sd_table db)).
    { unfold prepared. destruct (np_reset_elapsed_seconds input); [by eapply reset_done|by injection E1 as _ <-]. }
    clear E1. apply db_bind_cases in E as [(e & E & ->)|(latest & db2 & E2 & E)].
    { apply select_cases in E as [E _]. left. exists e. split; [done|]. right. congruence. }
    apply select_cases in E2 as [Ht2 [[=]|[= ->]]]. unfold upserts. rewrite <- Ht1.
    unfold continued, today. rewrite Epref. cbn [snd].
    destruct (latest_of (su_id user) media_id (se_rows (sd_table db1)) ≫= _) as [s|] eqn:Es.
    + apply update_cases in E as [[-> E]|[-> E]]; [left|right]; eexists; (split; [done|]); [right; congruence|]. by rewrite E, Ht2.
    + apply db_bind_cases in E as [(e & E & ->)|(number & db3 & E3 & E)].
      * left. exists e. split; [done|]. right. unfold derive_readthrough_number, find_latest in E.
        apply db_bind_cases in E as [(e' & E & _)|(l & db3 & _ & [=])]. apply select_cases in E as [E _]. congruence.
      * unfold derive_readthrough_number, find_latest in E3. apply db_bind_cases in E3 as [(e' & _ & [=])|(l & db4 & E4 & [= <- <-])].
        apply select_cases in E4 as [Ht4 [[=]|[= ->]]]. apply insert_cases in E as [[-> E]|(-> & Hmax & E)].
        -- left. eexists. split; [done|]. right. congruence.
        -- right. eexists. split; [done|]. rewrite Ht4, Ht2 in Hmax, E. rewrite Ht4, Ht2, E. by split_and!.
Qed.

Lemma upserts_paces now user media_id input t row t' :
  NoDup (sn_id <$> se_rows t) -> upserts now user media_id input t row t' -> paces (su_id user) media_id now t t'.
Proof.
  intros Hnd Hu. apply (paces_after _ _ _ _ (prepared (su_id user) media_id input t)); [apply prepared_fresh|apply prepared_paces|].
  assert (Hnd1 : NoDup (sn_id <$> se_rows (prepared (su_id user) media_id input t))).
  { unfold prepared, zeroed. destruct (np_reset_elapsed_seconds input); [|done]. destruct (latest_of _ _ _) as [s|]; [|done].
    cbn. rewrite <- list_fmap_compose. erewrite list_fmap_ext; [exact Hnd|]. intros i r _. cbn. by destruct (in_readthrough _ _ _ r). }
  unfold upserts in Hu. cbv zeta in Hu. destruct (continued _ _ _) as [s|] eqn:Ec.
  - destruct Hu as [Hrow ->]. apply continued_is in Ec. pose proof (latest_newest _ _ _ _ Ec). apply latest_some in Ec as (Hs & Hp & _).
    apply (update_paces _ _ _ _ _ s); [done|done|done|by rewrite Hrow|done].
  - destruct Hu as (Hrow & Hmax & ->). apply insert_paces; try (by rewrite Hrow); [|done]. rewrite Hrow. apply of_pair_iff. done.
Qed.

Lemma upsert_paces now user media_id input db :
  NoDup (sn_id <$> se_rows (sd_table db)) ->
  paces (su_id user) media_id now (sd_table db) (sd_table (upsert_reading_session now user media_id input db).2).
Proof.
  intros Hnd. destruct (upsert_reading_session now user media_id input db) as [r db'] eqn:E. cbn [snd].
  apply upsert_cases in E as [(e & _ & [-> | ->])|(row & _ & E)]; [by apply paces_refl|apply prepared_paces|by eapply upserts_paces].
Qed.

End upserting.

(** ** What an update leaves *)

Section recorded.
Context `{DecimalOps} `{!DecimalMath}.

Definition elapsed_of (r : SessionRow) : Z := default 0 (sn_elapsed_seconds r).

(** The time spent on a book, over the sessions that satisfy [p]. *)
Definition time_read (user_id media_id : str) (p : SessionRow -> bool) (rows : list SessionRow) : Z :=
  sum_Z ((fun r => if of_pair user_id media_id r && p r then elapsed_of r else 0) <$> rows).

(** The sessions whose time an update keeps. *)
Definition kept (user_id media_id : str) (input : NormalizedProgression) (t : Sessions) (r : SessionRow) : bool :=
  match latest_of user_id media_id (se_rows t) with
  | Some s => negb (np_reset_elapsed_seconds input && (sn_readthrough_number r =? sn_readthrough_number s))
  | None => true
  end.

Lemma sum_stored (g : SessionRow -> Z) row rows r0 :
  NoDup (sn_id <$> rows) -> r0 ∈ rows -> sn_id row = sn_id r0 ->
  sum_Z (g <$> (stored_as row <$> rows)) = sum_Z (g <$> rows) - g r0 + g row.
Proof.
  intros Hnd Hin Hid. induction rows as [|r rows IH]; [by apply elem_of_nil in Hin|].
  cbn in Hnd. apply NoDup_cons in Hnd as [Hn Hnd]. cbn [fmap list_fmap sum_Z fold_right] in *. unfold stored_as at 1.
  apply elem_of_cons in Hin as [<-|Hin].
  - rewrite (proj2 (Z.eqb_eq _ _)) by done.
    assert (E : stored_as row <$> rows = rows).
    { rewrite <- (list_fmap_id rows) at 2. apply list_fmap_ext. intros i r Hr. unfold stored_as.
      destruct (Z.eqb_spec (sn_id r) (sn_id row)) as [Er|]; [|done]. destruct Hn. rewrite <- Hid, <- Er.
      apply list_elem_of_fmap_2. by eapply list_elem_of_lookup_2. }
    rewrite E. lia.
  - rewrite (proj2 (Z.eqb_neq (sn_id r) (sn_id row))).
    + specialize (IH Hnd Hin). unfold sum_Z in IH. lia.
    + rewrite Hid. intros E. apply Hn. rewrite E. by apply list_elem_of_fmap_2.
Qed.

Lemma time_le (g : SessionRow -> Z) rows r : (forall r, r ∈ rows -> 0 <= g r) -> r ∈ rows -> g r <= sum_Z (g <$> rows).
Proof.
  induction rows as [|a rows IH]; intros Hg Hr; [by apply elem_of_nil in Hr|]. cbn. fold (sum_Z (g <$> rows)).
  assert (0 <= g a) by (apply Hg; by left). assert (0 <= sum_Z (g <$> rows)).
  { apply sum_Z_nonneg. intros x (b & -> & Hb)%list_elem_of_fmap. apply Hg. by right. }
  apply elem_of_cons in Hr as [->|Hr]; [lia|]. specialize (IH (fun r Hr => Hg r (list_elem_of_further _ _ _ Hr)) Hr). lia.
Qed.

Lemma prepared_rows user_id media_id input t :
  se_rows (prepared user_id media_id input t) =
  (fun r => if of_pair user_id media_id r && negb (kept user_id media_id input t r) then no_elapsed r else r) <$> se_rows t.
Proof.
  unfold prepared, zeroed, kept, in_readthrough. symmetry.
  destruct (np_reset_elapsed_seconds input), (latest_of user_id media_id (se_rows t)) as [s|]; cbn [se_rows set_rows andb negb];
    [apply list_fmap_ext; intros i r _; by rewrite negb_involutive|..];
    (rewrite <- (list_fmap_id (se_rows t)) at 2; apply list_fmap_ext; intros i r _; by rewrite andb_false_r).
Qed.

Lemma prepared_time user_id media_id input t :
  time_read user_id media_id (fun _ => true) (se_rows (prepared user_id media_id input t)) =
  time_read user_id media_id (kept user_id media_id input t) (se_rows t).
Proof.
  rewrite prepared_rows. unfold time_read. rewrite <- list_fmap_compose. f_equal. apply list_fmap_ext. intros i r _. cbn.
  destruct (of_pair user_id media_id r) eqn:E, (kept user_id media_id input t r); cbn;
    try (change (of_pair user_id media_id (no_elapsed r)) with (of_pair user_id media_id r)); by rewrite E.
Qed.

Lemma add_i64_small a b : 0 <= a -> 0 <= b -> a + b <= i64_max -> add_i64 a b = a + b.
Proof. intros. unfold add_i64, i64_max in *. rewrite Z.mod_small; lia. Qed.

Definition count_of (user_id media_id : str) (rows : list SessionRow) : nat := length (List.filter (of_pair user_id media_id) rows).

Lemma count_map user_id media_id (f : SessionRow -> SessionRow) rows :
  (forall r, r ∈ rows -> of_pair user_id media_id (f r) = of_pair user_id media_id r) ->
  count_of user_id media_id (f <$> rows) = count_of user_id media_id rows.
Proof.
  unfold count_of. induction rows as [|r rows IH]; intros Hf; [done|]. cbn. rewrite (Hf r) by (by left).
  destruct (of_pair user_id media_id r); cbn; rewrite IH; auto; intros; apply Hf; by right.
Qed.

Lemma prepared_count user_id media_id input t :
  count_of user_id media_id (se_rows (prepared user_id media_id input t)) = count_of user_id media_id (se_rows t).
Proof. rewrite prepared_rows. apply count_map. intros r _. by destruct (_ && _). Qed.

(** With the table and the disk answering, an update stores. *)
Lemma upsert_total now user media_id input db :
  sd_faults db = [] -> se_next_id (sd_table db) <= i32_max ->
  exists row db', upsert_reading_session now user media_id input db = (Ok row, db').
Proof.
  intros Hf Hmax. destruct db as [t0 fs]. cbn [sd_faults sd_table] in *. subst fs.
  assert (Hsel : forall A (f : list SessionRow -> A) t,
    select f {| sd_table := t; sd_faults := [] |} = (Ok (f (se_rows t)), {| sd_table := t; sd_faults := [] |})) by done.
  unfold upsert_reading_session. destruct (preferences_of user) as [grace offset].
  assert (Hprep : exists z t1, (if np_reset_elapsed_seconds input then reset_cumulative_elapsed_seconds (su_id user) media_id else db_ret false)
    {| sd_table := t0; sd_faults := [] |} = (Ok z, {| sd_table := t1; sd_faults := [] |}) /\ se_next_id t1 <= i32_max).
  { destruct (np_reset_elapsed_seconds input); [|by exists false, t0].
    unfold reset_cumulative_elapsed_seconds, find_latest. rewrite (db_bind_run _ _ _ _ _ (Hsel _ _ _)).
    destruct (latest_of _ _ _) as [s|]; [|eauto]. unfold update_sessions, on_table, db_bind. cbn. eauto. }
  destruct Hprep as (z & t1 & Ep & Hmax1). rewrite (db_bind_run _ _ _ _ _ Ep). unfold find_latest at 1. rewrite (db_bind_run _ _ _ _ _ (Hsel _ _ _)). cbn [sd_table].
  destruct (latest_of (su_id user) media_id (se_rows t1)) as [s|] eqn:El; cbn [mbind option_bind].
  - destruct (then_some _ s) as [s'|] eqn:Es.
    + apply then_some_Some in Es as [_ <-]. unfold update_session, on_table. cbn [sd_faults sd_table tail].
      apply latest_some in El as (Hs & _ & _). rewrite (proj2 (existsb_exists _ _)); [eauto|].
      exists s. split; [by apply list_elem_of_In|apply Z.eqb_refl].
    + unfold derive_readthrough_number, find_latest. erewrite db_bind_run.
      2: { rewrite (db_bind_run _ _ _ _ _ (Hsel _ _ _)). reflexivity. }
      unfold insert_session, on_table. cbn [sd_faults sd_table tail]. cbn. rewrite (proj2 (Z.ltb_ge _ _) Hmax1). cbn. eauto.
  - unfold derive_readthrough_number, find_latest. erewrite db_bind_run.
    2: { rewrite (db_bind_run _ _ _ _ _ (Hsel _ _ _)). reflexivity. }
    unfold insert_session, on_table. cbn [sd_faults sd_table tail]. cbn. rewrite (proj2 (Z.ltb_ge _ _) Hmax1). cbn. eauto.
Qed.

End recorded.

(** ** The history of a book *)

Section history.
Context `{DecimalOps} `{!DecimalMath}.

Lemma upserts_latest now user media_id input t row t' :
  sessions_wf t -> fresh (su_id user) media_id now t -> upserts now user media_id input t row t' ->
  latest_of (su_id user) media_id (se_rows t') = Some row.
Proof.
  intros Hwf Hf Hu. pose proof (upserts_paces _ _ _ _ _ _ _ (sw_ids t Hwf) Hu) as [Hwf' _]. specialize (Hwf' Hwf Hf).
  pose proof (prepared_fresh _ _ _ input t Hf) as Hf1. unfold upserts in Hu. cbv zeta in Hu.
  set (t1 := prepared (su_id user) media_id input t) in *.
  destruct (continued now user _) as [s|] eqn:Ec.
  - destruct Hu as [Hrow ->]. apply continued_is, latest_some in Ec as (Hs & Hp & Hmax).
    assert (Hk : session_key row = session_key s) by (by rewrite Hrow).
    assert (Hwf1 : sessions_wf t1) by (apply (prepared_paces (su_id user) media_id now input t); done).
    pose proof (stored_as_key row (se_rows t1) s (sw_ids t1 Hwf1) Hs Hk) as Hkeys.
    apply latest_unique; [done| |by rewrite (key_pair _ _ _ _ Hk)|].
    + cbn. apply list_elem_of_fmap. exists s. split; [|done]. unfold stored_as. injection Hk as -> _. by rewrite Z.eqb_refl.
    + cbn. intros b (b0 & -> & Hb0)%list_elem_of_fmap Hpb. specialize (Hkeys b0 Hb0). rewrite (key_pair _ _ _ _ Hkeys) in Hpb.
      specialize (Hmax b0 Hb0 Hpb). unfold session_key in Hkeys, Hk. injection Hkeys. injection Hk. lia.
  - destruct Hu as (Hrow & _ & ->). apply latest_unique; [done|cbn; apply elem_of_app; right; by left|rewrite Hrow; by apply of_pair_iff|].
    cbn. intros b [Hb|Hb]%elem_of_app Hpb.
    + specialize (Hf1 b Hb Hpb). rewrite Hrow. cbn. lia.
    + apply list_elem_of_singleton in Hb. by subst b.
Qed.

Lemma upserts_time now user media_id input t row t' :
  let spent := time_read (su_id user) media_id (kept (su_id user) media_id input t) (se_rows t) in
  sessions_wf t -> (forall r, r ∈ se_rows t -> 0 <= elapsed_of r) -> spent + delta_of input <= i64_max ->
  upserts now user media_id input t row t' ->
  time_read (su_id user) media_id (fun _ => true) (se_rows t') = spent + delta_of input /\
  count_of (su_id user) media_id (se_rows t') =
    (count_of (su_id user) media_id (se_rows t) +
     match continued now user (latest_of (su_id user) media_id (se_rows (prepared (su_id user) media_id input t))) with
     | Some _ => 0 | None => 1 end)%nat.
Proof.
  cbv zeta. intros Hwf Hpos Hmax Hu. rewrite <- prepared_time in *. rewrite <- (prepared_count _ _ input t). unfold upserts in Hu. cbv zeta in Hu.
  assert (Hpos1 : forall r, r ∈ se_rows (prepared (su_id user) media_id input t) -> 0 <= elapsed_of r).
  { rewrite prepared_rows. intros r (r0 & -> & Hr)%list_elem_of_fmap. destruct (_ && _); [done|by apply Hpos]. }
  assert (Hwf1 : NoDup (sn_id <$> se_rows (prepared (su_id user) media_id input t))).
  { rewrite prepared_rows, <- list_fmap_compose. erewrite list_fmap_ext; [apply (sw_ids t Hwf)|]. intros i r _. cbn. by destruct (_ && _). }
  set (t1 := prepared (su_id user) media_id input t) in *.
  assert (Hd : 0 <= delta_of input) by (unfold delta_of; lia).
  destruct (continued now user _) as [s|] eqn:Ec.
  - destruct Hu as [Hrow ->]. apply continued_is, latest_some in Ec as (Hs & Hp & _).
    assert (Hk : session_key row = session_key s) by (by rewrite Hrow). cbn [se_rows set_rows]. split.
    + unfold time_read in *. rewrite (sum_stored _ row (se_rows t1) s); [|done|done|by rewrite Hrow].
      rewrite (key_pair _ _ _ _ Hk), Hp. cbn [andb].
      assert (Hle : elapsed_of s <= sum_Z ((fun r => if of_pair (su_id user) media_id r && true then elapsed_of r else 0) <$> se_rows t1)).
      { pose proof (time_le (fun r => if of_pair (su_id user) media_id r && true then elapsed_of r else 0) (se_rows t1) s) as Hle.
        cbv beta in Hle. rewrite Hp in Hle. cbn [andb] in Hle. apply Hle; [|done]. intros r Hr. destruct (_ && _); [by apply Hpos1|done]. }
      assert (He : elapsed_of row = elapsed_of s + delta_of input).
      { rewrite Hrow. unfold elapsed_of at 1. cbn [sn_elapsed_seconds apply_progression default]. apply add_i64_small; [by apply Hpos1|done|lia]. }
      lia.
    + rewrite Nat.add_0_r. apply count_map. intros r Hr. apply key_pair, (stored_as_key row (se_rows t1) s); done.
  - destruct Hu as (Hrow & _ & ->). assert (Hp : of_pair (su_id user) media_id row = true) by (rewrite Hrow; by apply of_pair_iff).
    cbn [se_rows]. split.
    + unfold time_read. rewrite fmap_app. unfold sum_Z. rewrite fold_right_app. cbn [fmap list_fmap fold_right]. rewrite Hp. cbn [andb].
      assert (He : elapsed_of row = delta_of input) by (by rewrite Hrow). rewrite He, Z.add_0_r.
      fold (sum_Z ((fun r => if of_pair (su_id user) media_id r && true then elapsed_of r else 0) <$> se_rows t1)).
      generalize ((fun r => if of_pair (su_id user) media_id r && true then elapsed_of r else 0) <$> se_rows t1). intros l.
      induction l as [|x l IH]; cbn; [lia|]. rewrite IH. unfold sum_Z. lia.
    + unfold count_of. rewrite List.filter_app, length_app. cbn. by rewrite Hp.
Qed.

Lemma upserts_complete now user media_id input t row t' :
  upserts now user media_id input t row t' -> is_complete row = np_did_complete input.
Proof.
  unfold upserts, is_complete. cbv zeta. intros Hu. destruct (continued _ _ _); destruct Hu as [-> _]; cbn; by destruct (np_did_complete input).
Qed.

(** C6. Progress is recorded.  For a table whose sessions all began before the clock of
    the request, none with a negative time, and as long as the time spent on the book
    still fits 64 bits ([elapsed_wraps] shows what happens when it does not): when no
    statement fails and the next id fits, the update of the progress of a book is stored;
    and whenever it is stored, the row it returns is the latest session of the book, a new
    one unless the latest before was of the same day, not given up and within the grace
    period, and says whether the book was finished.  The time spent on the book is then
    what it was, less the time of the current readthrough if the update asks to reset it,
    plus the seconds the update reports, where a negative or missing number counts as none
    ([delta_of]); and the sessions of every other book and account are as they were. *)
Theorem progress_recorded now user media_id input db :
  let t := sd_table db in
  let spent := time_read (su_id user) media_id (kept (su_id user) media_id input t) (se_rows t) in
  sessions_wf t -> fresh (su_id user) media_id now t -> (forall r, r ∈ se_rows t -> 0 <= elapsed_of r) ->
  spent + delta_of input <= i64_max ->
  (sd_faults db = [] -> se_next_id t <= i32_max ->
   exists row db', upsert_reading_session now user media_id input db = (Ok row, db')) /\
  forall row db', upsert_reading_session now user media_id input db = (Ok row, db') ->
    let t' := sd_table db' in
    latest_of (su_id user) media_id (se_rows t') = Some row /\ is_complete row = np_did_complete input /\
    time_read (su_id user) media_id (fun _ => true) (se_rows t') = spent + delta_of input /\
    count_of (su_id user) media_id (se_rows t') =
      (count_of (su_id user) media_id (se_rows t) +
       match continued now user (latest_of (su_id user) media_id (se_rows (prepared (su_id user) media_id input t))) with
       | Some _ => 0 | None => 1 end)%nat /\
    List.filter (fun r => negb (of_pair (su_id user) media_id r)) (se_rows t') =
      List.filter (fun r => negb (of_pair (su_id user) media_id r)) (se_rows t).
Proof.
  cbv zeta. intros Hwf Hf Hpos Hmax. split; [by intros; apply upsert_total|]. intros row db' E.
  apply upsert_cases in E as [(e & [=] & _)|(row' & [= <-] & Hu)].
  split; [by eapply upserts_latest|]. split; [by eapply upserts_complete|].
  destruct (upserts_time _ _ _ _ _ _ _ Hwf Hpos Hmax Hu) as [-> ->]. split_and!; [done|done|].
  apply (upserts_paces _ _ _ _ _ _ _ (sw_ids _ Hwf) Hu).
Qed.

End history.

(** ** Concrete inputs *)

#[local] Existing Instance fixed_ops.

(** Thousandths, as [fixed_ops] has them. *)
Definition fixed_math : DecimalMath :=
  {| decimal_new m e := (m * 1000 / 10 ^ e : @Decimal fixed_ops); decimal_div a b := (a * 1000 / b : @Decimal fixed_ops);
     decimal_le a b := (a : Z) <=? b; from_f64_retain x := decimal_of_f64 x |}.

#[local] Existing Instance fixed_math.

Definition no_sessions : SessionDb := {| sd_table := {| se_rows := []; se_next_id := 1 |}; sd_faults := [] |}.

Definition demo_account : SessionUser := {| su_id := lit "u"; su_preferences := None |}.

Definition demo_progress (page delta : Z) (done : bool) : NormalizedProgression :=
  {| np_page := Some page; np_locator := None; np_percentage := None; np_elapsed_seconds_delta := Some delta;
     np_did_complete := done; np_device_id := Some (lit "d"); np_reset_elapsed_seconds := false |}.

Lemma no_sessions_wf : sessions_wf (sd_table no_sessions).
Proof. split; cbn; try (intros; by match goal with E : _ ∈ [] |- _ => apply elem_of_nil in E end); [lia|constructor]. Qed.

Lemma progress_recorded_witness :
  exists row db', upsert_reading_session 100 demo_account (lit "m") (demo_progress 5 60 false) no_sessions = (Ok row, db') /\
    latest_of (lit "u") (lit "m") (se_rows (sd_table db')) = Some row.
Proof.
  destruct (progress_recorded 100 demo_account (lit "m") (demo_progress 5 60 false) no_sessions no_sessions_wf) as [Hrun Hrow].
  - intros a Ha. by apply elem_of_nil in Ha.
  - intros r Hr. by apply elem_of_nil in Hr.
  - by vm_compute.
  - destruct Hrun as (row & db' & E); [reflexivity|by vm_compute|]. exists row, db'. split; [exact E|apply (Hrow row db' E)].
Defined.

(** A delta that a client makes up wraps the time of a session around. *)
Example elapsed_wraps :
  let first := upsert_reading_session 100 demo_account (lit "m") (demo_progress 5 i64_max false) no_sessions in
  let again := upsert_reading_session 200 demo_account (lit "m") (demo_progress 6 1 false) first.2 in
  (match again.1 with Ok row => sn_elapsed_seconds row | Err _ => None end) = Some (- 2 ^ 63).
Proof. vm_compute. reflexivity. Qed.

(** A page beyond the last gives a percentage above one. *)
Example percentage_above_one : compute_page_based_percentage 20 10 = (2000 : Z).
Proof. vm_compute. reflexivity. Qed.
