(* ===== verification/ProgressMutations.v ===== *)
(** * The progress of a reader

    Models [src/crates/graphql/src/mutation/reading_progress.rs] and the inputs of
    [src/crates/graphql/src/input/media.rs]: the mutations with which the web reader moves
    the position in a book ([ReadingService]) and writes the history of its sessions
    ([ReadingSessions]) in one transaction.

    Every statement may fail, as the next fault says; a transaction that does not commit
    is undone.  A mutation reads the clock once.  The pages and the duration of a book,
    and which books of a series an account may see, are tables that other parts of the
    server keep.  Notifications are not modelled. *)

From stdpp Require Import base gmap list strings sorting.
From Stdlib Require Import ZArith Lia.
From S2P Require Import Prelude Float64 ReadingState ReadingService ReadingSessions.

#[local] Open Scope Z_scope.
#[local] Open Scope coppice_scope.

(** ** State *)

Section mutations.
Context `{DecimalOps}.

Record Shelf := {
  sh_reading : Db;
  sh_sessions : Sessions;
  sh_pages : gmap str Z;
  sh_durations : gmap str Z;
  sh_series : gmap (str * str) (list (str * Z));
}.

Definition shelf_faults (s : Shelf) : list bool := db_faults (sh_reading s).

Definition set_shelf_faults (s : Shelf) (faults : list bool) : Shelf :=
  {| sh_reading := {| db_heads := db_heads (sh_reading s); db_events := db_events (sh_reading s);
                      db_next_id := db_next_id (sh_reading s); db_faults := faults |};
     sh_sessions := sh_sessions s; sh_pages := sh_pages s; sh_durations := sh_durations s; sh_series := sh_series s |}.

Definition with_reading (s : Shelf) (db : Db) : Shelf :=
  {| sh_reading := db; sh_sessions := sh_sessions s; sh_pages := sh_pages s; sh_durations := sh_durations s;
     sh_series := sh_series s |}.

Definition with_sessions (s : Shelf) (t : Sessions) : Shelf :=
  {| sh_reading := sh_reading s; sh_sessions := t; sh_pages := sh_pages s; sh_durations := sh_durations s;
     sh_series := sh_series s |}.

(** [async_graphql::Error]: of the database, or with a message; and a panic. *)
Inductive MutationError := Database | Message (message : str) | MutationPanicked.

Definition Mutation (A : Type) : Type := Shelf -> result A MutationError * Shelf.

Definition as_mutation {A} (r : result A ServiceError) : result A MutationError :=
  match r with
  | Ok a => Ok a
  | Err DbErr => Err Database
  | Err Panicked => Err MutationPanicked
  end.

(** Calls of the two services within the same database. *)
Definition of_reading {A} (c : DB A) : Mutation A := fun s =>
  let '(r, db) := c (sh_reading s) in (as_mutation r, with_reading s db).

Definition of_sessions {A} (c : SessionDB A) : Mutation A := fun s =>
  let '(r, db) := c {| sd_table := sh_sessions s; sd_faults := shelf_faults s |} in
  (as_mutation r, set_shelf_faults (with_sessions s (sd_table db)) (sd_faults db)).

Definition ask {A} (f : Shelf -> A) : Mutation A := fun s =>
  match shelf_faults s with
  | true :: faults => (Err Database, set_shelf_faults s faults)
  | faults => (Ok (f s), set_shelf_faults s (tail faults))
  end.

(** A transaction: its body says whether it commits.  What is not committed is undone. *)
Inductive Ending (A : Type) := Committing (a : A) | Leaving (a : A).

Arguments Committing {A} _.
Arguments Leaving {A} _.

Definition undone (s s' : Shelf) : Shelf := set_shelf_faults s (shelf_faults s').

Definition in_transaction {A} (body : Mutation (Ending A)) : Mutation A := fun s =>
  match (_ <-- ask (fun _ => tt) ;; body) s with
  | (Ok (Committing a), s') =>
      match ask (fun _ => tt) s' with
      | (Ok _, s'') => (Ok a, s'')
      | (Err e, s'') => (Err e, undone s s'')
      end
  | (Ok (Leaving a), s') => (Ok a, undone s s')
  | (Err e, s') => (Err e, undone s s')
  end.

Definition committing {A} (body : Mutation A) : Mutation A := in_transaction (a <-- body ;; db_ret (Committing a)).

(** ** Inputs *)

Record EpubProgressInput := {
  ep_locator : ReadiumLocator;
  ep_percentage : option Decimal;
  ep_is_complete : option bool;
  ep_elapsed_seconds_delta : option Z;
  ep_device_id : option str;
  ep_reset_elapsed_seconds : option bool;
}.

Record PagedProgressInput := {
  pg_page : Z;
  pg_elapsed_seconds_delta : option Z;
  pg_device_id : option str;
  pg_reset_elapsed_seconds : option bool;
}.

Record AudioProgressInput := {
  ap_position_ms : Z;
  ap_track_index : option Z;
  ap_is_complete : option bool;
  ap_elapsed_seconds_delta : option Z;
  ap_device_id : option str;
  ap_reset_elapsed_seconds : option bool;
}.

Inductive MediaProgressInput :=
| Epub (input : EpubProgressInput)
| Paged (input : PagedProgressInput)
| Audio (input : AudioProgressInput).

Definition input_reset_elapsed_seconds (input : MediaProgressInput) : bool :=
  default false
    match input with
    | Epub i => ep_reset_elapsed_seconds i
    | Paged i => pg_reset_elapsed_seconds i
    | Audio i => ap_reset_elapsed_seconds i
    end.

(** The [Debug] text of an input. *)
Class InputDebug := { debug_input : MediaProgressInput -> str }.

Context `{!DecimalMath} `{!InputDebug}.

Definition epub_complete (i : EpubProgressInput) : bool :=
  default (decimal_le (decimal_new 1 0) (default (decimal_new 0 0) (ep_percentage i))) (ep_is_complete i).

Definition audio_progression (i : AudioProgressInput) (duration : option Z) : option f64 :=
  duration ≫= time_progression (ap_position_ms i).

Definition audio_complete (i : AudioProgressInput) (duration : option Z) : bool :=
  default (is_some_and (audio_progression i duration) (fle f64_one)) (ap_is_complete i).

Definition normalized (input : MediaProgressInput) (pages : Z) (duration : option Z) (reset : bool) : NormalizedProgression :=
  match input with
  | Epub i =>
      {| np_page := None; np_locator := Some (ep_locator i); np_percentage := ep_percentage i;
         np_elapsed_seconds_delta := ep_elapsed_seconds_delta i; np_did_complete := epub_complete i;
         np_device_id := ep_device_id i; np_reset_elapsed_seconds := reset |}
  | Paged i =>
      {| np_page := Some (pg_page i); np_locator := None;
         np_percentage := Some (compute_page_based_percentage (pg_page i) pages);
         np_elapsed_seconds_delta := pg_elapsed_seconds_delta i; np_did_complete := pages <=? pg_page i;
         np_device_id := pg_device_id i; np_reset_elapsed_seconds := reset |}
  | Audio i =>
      {| np_page := None; np_locator := None; np_percentage := audio_progression i duration ≫= from_f64_retain;
         np_elapsed_seconds_delta := ap_elapsed_seconds_delta i; np_did_complete := audio_complete i duration;
         np_device_id := ap_device_id i; np_reset_elapsed_seconds := reset |}
  end.

Definition head_update (input : MediaProgressInput) (pages : Z) (duration : option Z) : ProtocolUpdate :=
  let raw_payload := JObject [(lit "input", JString (debug_input input))] in
  match input with
  | Epub i =>
      {| u_protocol := Stump; u_device_id := ep_device_id i; u_updated_at := None; u_position := PLocator (ep_locator i);
         u_progression := ep_percentage i ≫= decimal_parse_f64; u_completed := then_some (epub_complete i) true;
         u_raw_payload := raw_payload |}
  | Paged i =>
      {| u_protocol := Stump; u_device_id := pg_device_id i; u_updated_at := None; u_position := PPage (pg_page i);
         u_progression := None; u_completed := then_some (pages <=? pg_page i) true; u_raw_payload := raw_payload |}
  | Audio i =>
      {| u_protocol := Stump; u_device_id := ap_device_id i; u_updated_at := None;
         u_position := PTime (ap_position_ms i) (ap_track_index i); u_progression := None;
         u_completed := then_some (audio_complete i duration) true; u_raw_payload := raw_payload |}
  end.

(** ** Mutations *)

Definition get_book_pages (book_id : str) : Mutation Z :=
  pages <-- ask (fun s => sh_pages s !! book_id) ;;
  match pages with Some pages => db_ret pages | None => db_err Database end.

Definition audio_duration_ms (media_id : str) : Mutation (option Z) := ask (fun s => sh_durations s !! media_id).

Definition update_media_progress (now : Z) (user : SessionUser) (id : str) (input : MediaProgressInput) : Mutation SessionRow :=
  let reset := input_reset_elapsed_seconds input in
  book_pages <-- get_book_pages id ;;
  duration <-- audio_duration_ms id ;;
  session <-- committing (
    applied <-- of_reading (apply now (su_id user) {| pub_media_id := id; pub_pages := book_pages; pub_duration_ms := duration |}
                              (head_update input book_pages duration)) ;;
    if accepted applied
    then row <-- of_sessions (upsert_reading_session now user id (normalized input book_pages duration reset)) ;; db_ret (Some row)
    else of_sessions (find_latest (su_id user) id)) ;;
  match session with
  | Some row => db_ret row
  | None => db_err (Message (lit "Rejected progress has no existing reading session"))
  end.

Definition accept_local_progress (now : Z) (user : SessionUser) (id : str) (ancestor_session_id : option Z) (input : MediaProgressInput)
  : Mutation SessionRow :=
  ancestor <--
    match ancestor_session_id with
    | Some session_id =>
        row <-- of_sessions (select (List.find (fun r => (sn_id r =? session_id) && of_pair (su_id user) id r))) ;;
        match row with
        | Some row => db_ret (Some row)
        | None => db_err (Message (lit "Ancestor session not found"))
        end
    | None => db_ret None
    end ;;
  committing (
    _ <-- of_sessions (delete_sessions (fun r =>
            of_pair (su_id user) id r && match ancestor with Some a => sn_id a <? sn_id r | None => true end)) ;;
    let reset := input_reset_elapsed_seconds input && negb (is_none ancestor) in
    progression <--
      match input with
      | Epub _ => db_ret (normalized input 0 None reset)
      | Paged _ => pages <-- get_book_pages id ;; db_ret (normalized input pages None reset)
      | Audio _ => duration <-- audio_duration_ms id ;; db_ret (normalized input 0 duration reset)
      end ;;
    of_sessions (upsert_reading_session now user id progression)).

Definition clear_media_progress (user : SessionUser) (id : str) : Mutation bool :=
  in_transaction (
    current_session <-- of_sessions (find_latest (su_id user) id) ;;
    match current_session with
    | None => db_ret (Leaving false)
    | Some session =>
        if is_finalized session then db_ret (Leaving true)
        else
          affected <-- of_sessions (delete_sessions (fun r =>
                         in_readthrough (su_id user) id (sn_readthrough_number session) r && bool_decide (sn_status r = Reading))) ;;
          db_ret (Committing (0 <? affected))
    end).

Definition reset_elapsed_seconds (user : SessionUser) (id : str) : Mutation bool :=
  committing (of_sessions (reset_cumulative_elapsed_seconds (su_id user) id)).

(** A session that is marked, by an update that stamps it. *)
Definition marked (now : Z) (status : ReadingStatus) (pages : option Z) (r : SessionRow) : SessionRow :=
  {| sn_id := sn_id r; sn_session_date := sn_session_date r; sn_start_locator := sn_start_locator r;
     sn_end_locator := sn_end_locator r; sn_start_page := sn_start_page r; sn_end_page := pages orelse sn_end_page r;
     sn_end_position_ms := sn_end_position_ms r; sn_start_percentage := sn_start_percentage r;
     sn_end_percentage := (match pages with Some _ => Some (decimal_new 1 0) | None => sn_end_percentage r end);
     sn_koreader_progress := sn_koreader_progress r; sn_elapsed_seconds := sn_elapsed_seconds r;
     sn_readthrough_number := sn_readthrough_number r; sn_status := status; sn_notes := sn_notes r;
     sn_kobo_state := sn_kobo_state r; sn_device_ids := sn_device_ids r; sn_liseur_session_id := sn_liseur_session_id r;
     sn_media_id := sn_media_id r; sn_user_id := sn_user_id r; sn_created_at := sn_created_at r; sn_updated_at := Some now |}.

Definition finish_media_progress (now : Z) (user : SessionUser) (id : str) (dnf : option bool) : Mutation bool :=
  let '(grace_period, day_reset_offset) := preferences_of user in
  let logical_today := calculate_logical_date now day_reset_offset in
  in_transaction (
    current_session <-- of_sessions (find_latest (su_id user) id) ;;
    if match current_session with Some s => is_finalized s | None => false end then db_ret (Leaving true)
    else
      session <--
        match current_session with
        | Some s =>
            if should_extend_session_at s grace_period now then db_ret s
            else of_sessions (insert_session (blank_session now (su_id user) id logical_today (sn_readthrough_number s)))
        | None =>
            readthrough_number <-- of_sessions (derive_readthrough_number (su_id user) id) ;;
            of_sessions (insert_session (blank_session now (su_id user) id logical_today readthrough_number))
        end ;;
      marking <--
        (if default false dnf then db_ret (marked now Abandoned None session)
         else book_pages <-- get_book_pages id ;; db_ret (marked now Finished (Some book_pages) session)) ;;
      _ <-- of_sessions (update_session marking) ;;
      db_ret (Committing true)).

Definition delete_media_reading_history (user : SessionUser) (id : str) : Mutation Z :=
  current <-- of_sessions (select (fun rows =>
    hd_error (newest_first (List.filter (fun r => of_pair (su_id user) id r && negb (is_finalized r)) rows)))) ;;
  of_sessions (delete_sessions (fun r =>
    of_pair (su_id user) id r &&
    match current with Some s => negb (sn_readthrough_number r =? sn_readthrough_number s) | None => true end)).

(** The first session met for each book. *)
Definition first_by_book (rows : list SessionRow) : gmap str SessionRow :=
  foldl (fun seen r => match seen !! sn_media_id r with Some _ => seen | None => <[sn_media_id r := r]> seen end) ∅ rows.

Definition sessions_of_books (user_id : str) (books : list str) (rows : list SessionRow) : list SessionRow :=
  newest_first (List.filter (fun r => bool_decide (sn_user_id r = user_id) && bool_decide (sn_media_id r ∈ books)) rows).

Fixpoint finish_books (now : Z) (user : SessionUser) (books : list (str * Z)) (latest_by_book : gmap str SessionRow) (changed : Z)
  : Mutation Z :=
  let '(grace_period, day_reset_offset) := preferences_of user in
  let logical_today := calculate_logical_date now day_reset_offset in
  match books with
  | [] => db_ret changed
  | (book_id, pages) :: books =>
      let finalize (session_to_finalize : Mutation SessionRow) : Mutation Z :=
        session <-- session_to_finalize ;;
        _ <-- of_sessions (update_session (marked now Finished (Some pages) session)) ;;
        finish_books now user books (delete book_id latest_by_book) (changed + 1) in
      match latest_by_book !! book_id with
      | Some session =>
          if is_finalized session then finish_books now user books (delete book_id latest_by_book) changed
          else if should_extend_session_at session grace_period now then finalize (db_ret session)
          else finalize (of_sessions (insert_session (blank_session now (su_id user) book_id logical_today (sn_readthrough_number session))))
      | None => finalize (of_sessions (insert_session (blank_session now (su_id user) book_id logical_today 1)))
      end
  end.

Definition finish_series_progress (now : Z) (user : SessionUser) (id : str) : Mutation Z :=
  in_transaction (
    books <-- ask (fun s => default [] (sh_series s !! (su_id user, id))) ;;
    match books with
    | [] => db_ret (Leaving 0)
    | _ =>
        existing <-- of_sessions (select (sessions_of_books (su_id user) books.*1)) ;;
        changed <-- finish_books now user books (first_by_book existing) 0 ;;
        db_ret (Committing changed)
    end).

Fixpoint clear_books (user : SessionUser) (books : list str) (latest_by_book : gmap str SessionRow) (deleted : Z) : Mutation Z :=
  match books with
  | [] => db_ret deleted
  | book_id :: books =>
      match latest_by_book !! book_id with
      | Some session =>
          affected <-- of_sessions (delete_sessions (fun r =>
            of_pair (su_id user) book_id r &&
            (if is_finalized session then sn_readthrough_number r <=? sn_readthrough_number session
             else sn_readthrough_number r <? sn_readthrough_number session))) ;;
          clear_books user books (delete book_id latest_by_book) (deleted + affected)
      | None => clear_books user books latest_by_book deleted
      end
  end.

Definition clear_series_reading_history (user : SessionUser) (id : str) : Mutation Z :=
  in_transaction (
    books <-- ask (fun s => (default [] (sh_series s !! (su_id user, id))).*1) ;;
    match books with
    | [] => db_ret (Leaving 0)
    | _ =>
        existing <-- of_sessions (select (sessions_of_books (su_id user) books)) ;;
        deleted <-- clear_books user books (first_by_book existing) 0 ;;
        db_ret (Committing deleted)
    end).

End mutations.

Arguments Mutation {_} _.
Arguments Committing {A} _.
Arguments Leaving {A} _.

(** ** Statements and transactions *)

Section running.
Context `{DecimalOps}.

(** Nothing but the faults differs. *)
Definition unchanged (s s' : Shelf) : Prop := exists faults, s' = set_shelf_faults s faults.

#[export] Instance unchanged_order : PreOrder unchanged.
Proof.
  split; [intros s; exists (shelf_faults s); by destruct s as [[]]|].
  intros s1 s2 s3 [fs ->] [fs' ->]. by exists fs'.
Qed.

Lemma unchanged_sessions s s' : unchanged s s' -> sh_sessions s' = sh_sessions s.
Proof. by intros [fs ->]. Qed.

Lemma ask_cases {A} (f : Shelf -> A) s r s' :
  ask f s = (r, s') -> unchanged s s' /\ (r = Err Database \/ r = Ok (f s)).
Proof. unfold ask. destruct (shelf_faults s) as [|[] fs]; intros [= <- <-]; (split; [by eexists|auto]). Qed.

(** What a call of the sessions does to the rest. *)
Definition only_sessions (s : Shelf) (t : Sessions) (s' : Shelf) : Prop :=
  exists faults, s' = set_shelf_faults (with_sessions s t) faults.

Lemma of_sessions_cases {A} (c : SessionDB A) s r s' :
  of_sessions c s = (r, s') ->
  exists r0 db, c {| sd_table := sh_sessions s; sd_faults := shelf_faults s |} = (r0, db) /\ r = as_mutation r0 /\
    only_sessions s (sd_table db) s'.
Proof. unfold of_sessions. destruct (c _) as [r0 db]. intros [= <- <-]. exists r0, db. split_and!; [done..|]. by eexists. Qed.

Lemma of_sessions_ok {A} (c : SessionDB A) s a s' :
  of_sessions c s = (Ok a, s') ->
  exists db, c {| sd_table := sh_sessions s; sd_faults := shelf_faults s |} = (Ok a, db) /\ only_sessions s (sd_table db) s'.
Proof. intros ([a0|[]] & db & E & [= ->] & Ho)%of_sessions_cases. eauto. Qed.

Lemma only_sessions_table s t s' : only_sessions s t s' -> sh_sessions s' = t.
Proof. by intros [fs ->]. Qed.

Lemma only_sessions_same s t s' : only_sessions s t s' -> t = sh_sessions s -> unchanged s s'.
Proof. intros [fs ->] ->. exists fs. by destruct s as [[]]. Qed.

Lemma only_sessions_trans s t s1 t' s' : only_sessions s t s1 -> only_sessions s1 t' s' -> only_sessions s t' s'.
Proof. intros [fs ->] [fs' ->]. by exists fs'. Qed.

Lemma unchanged_only s s1 t s' : unchanged s s1 -> only_sessions s1 t s' -> only_sessions s t s'.
Proof. intros [fs ->] [fs' ->]. by exists fs'. Qed.

Lemma only_unchanged s t s1 s' : only_sessions s t s1 -> unchanged s1 s' -> only_sessions s t s'.
Proof. intros [fs ->] [fs' ->]. by exists fs'. Qed.

(** A transaction: it commits what its body did, or does nothing. *)
Lemma in_transaction_cases {A} (body : Mutation (Ending A)) s r s' :
  in_transaction body s = (r, s') ->
  (unchanged s s' /\ ((exists e, r = Err e) \/ exists a s1 s2, r = Ok a /\ unchanged s s1 /\ body s1 = (Ok (Leaving a), s2))) \/
  exists a s1 s2, r = Ok a /\ unchanged s s1 /\ body s1 = (Ok (Committing a), s2) /\ unchanged s2 s'.
Proof.
  unfold in_transaction. destruct (db_bind _ _ s) as [rb s2] eqn:E.
  apply db_bind_cases in E as [(e & E & ->)|([] & s1 & E1 & E)].
  - intros [= <- <-]. left. split; [by eexists|eauto].
  - apply ask_cases in E1 as [Hs1 _]. destruct rb as [[a|a]|e].
    + destruct (ask (fun _ => tt) s2) as [[u|e] s3] eqn:E3; intros [= <- <-].
      * apply ask_cases in E3 as [Hs3 _]. right. exists a, s1, s2. done.
      * left. split; [by eexists|eauto].
    + intros [= <- <-]. left. split; [by eexists|]. right. exists a, s1, s2. done.
    + intros [= <- <-]. left. split; [by eexists|eauto].
Qed.

Lemma committing_cases {A} (body : Mutation A) s r s' :
  committing body s = (r, s') ->
  (unchanged s s' /\ exists e, r = Err e) \/
  exists a s1 s2, r = Ok a /\ unchanged s s1 /\ body s1 = (Ok a, s2) /\ unchanged s2 s'.
Proof.
  intros [[Hu [?|(a & s1 & s2 & _ & _ & E)]]|(a & s1 & s2 & -> & Hu & E & Hu2)]%in_transaction_cases; [auto| |].
  - apply db_bind_cases in E as [(e & _ & [=])|(a' & s3 & _ & [=])].
  - apply db_bind_cases in E as [(e & _ & [=])|(a' & s3 & E & [= -> ->])]. right. exists a, s1, s2. done.
Qed.

End running.

(** Steps through a mutation that went through. *)
Ltac step_ok E x s1 E1 := apply db_bind_cases in E as [(? & _ & [=])|(x & s1 & E1 & E)]; cbv beta in E.

(** ** Marking the latest session *)

Section marking.
Context `{DecimalOps} `{!DecimalMath}.

(** The table after the latest session of a book became [row]. *)
Record marks (user_id media_id : str) (now : Z) (t : Sessions) (row : SessionRow) (t' : Sessions) : Prop := {
  ms_paces : paces user_id media_id now t t';
  ms_latest : sessions_wf t -> fresh user_id media_id now t -> latest_of user_id media_id (se_rows t') = Some row;
}.

Lemma marked_latest now status pages user_id media_id t s :
  sessions_wf t -> latest_of user_id media_id (se_rows t) = Some s ->
  let row := marked now status pages s in
  paces user_id media_id now t (set_rows t (stored_as row <$> se_rows t)) /\
  (sessions_wf (set_rows t (stored_as row <$> se_rows t)) ->
   latest_of user_id media_id (stored_as row <$> se_rows t) = Some row).
Proof.
  intros Hwf El row. assert (Hk : session_key row = session_key s) by done.
  pose proof (latest_newest _ _ _ _ El) as Hn. apply latest_some in El as (Hs & Hp & Hmax). split.
  - by apply (update_paces _ _ _ _ _ s); [..|apply (sw_ids t Hwf)].
  - intros Hwf'. pose proof (stored_as_key row (se_rows t) s (sw_ids t Hwf) Hs Hk) as Hkeys.
    pose proof (latest_unique user_id media_id _ row Hwf') as Hl. cbn [se_rows set_rows] in Hl.
    apply Hl; [|by rewrite (key_pair _ _ _ _ Hk)|].
    + apply list_elem_of_fmap. exists s. split; [|done]. unfold stored_as. cbn. by rewrite Z.eqb_refl.
    + intros b (b0 & -> & Hb0)%list_elem_of_fmap Hpb. specialize (Hkeys b0 Hb0).
      rewrite (key_pair _ _ _ _ Hkeys) in Hpb. specialize (Hmax b0 Hb0 Hpb). unfold session_key in Hkeys.
      change (sn_created_at row) with (sn_created_at s). injection Hkeys. lia.
Qed.

Lemma blank_latest now user_id media_id date number t :
  sessions_wf t -> fresh user_id media_id now t -> se_next_id t <= i32_max ->
  number = next_number (latest_of user_id media_id (se_rows t)) ->
  let row := blank_session now user_id media_id date number (se_next_id t) in
  let t' := {| se_rows := se_rows t ++ [row]; se_next_id := se_next_id t + 1 |} in
  paces user_id media_id now t t' /\ sessions_wf t' /\ latest_of user_id media_id (se_rows t') = Some row.
Proof.
  intros Hwf Hf Hmax Hnum row t'. assert (Hp : of_pair user_id media_id row = true) by (by apply of_pair_iff).
  assert (Hpaces : paces user_id media_id now t t') by (by apply insert_paces).
  split_and!; [done|by apply Hpaces|]. apply latest_unique; [by apply Hpaces|cbn; apply elem_of_app; right; by left|done|].
  cbn. intros b [Hb|Hb]%elem_of_app Hpb; [specialize (Hf b Hb Hpb); lia|]. apply list_elem_of_singleton in Hb. by subst b.
Qed.

(** The session that is to be marked: the latest, or a new one of the same readthrough. *)
Definition opens (now : Z) (user_id media_id : str) (t : Sessions) (session : SessionRow) (t1 : Sessions) : Prop :=
  (t1 = t /\ latest_of user_id media_id (se_rows t) = Some session) \/
  exists date number, session = blank_session now user_id media_id date number (se_next_id t) /\
    se_next_id t <= i32_max /\ number = next_number (latest_of user_id media_id (se_rows t)) /\
    t1 = {| se_rows := se_rows t ++ [session]; se_next_id := se_next_id t + 1 |}.

Lemma opens_marks now status pages user_id media_id t session t1 :
  sessions_wf t -> fresh user_id media_id now t -> opens now user_id media_id t session t1 ->
  marks user_id media_id now t (marked now status pages session)
    (set_rows t1 (stored_as (marked now status pages session) <$> se_rows t1)).
Proof.
  intros Hwf Hf [[-> El]|(date & number & -> & Hmax & Hnum & ->)].
  - destruct (marked_latest now status pages user_id media_id t session Hwf El) as [Hp Hl]. split; [done|].
    intros _ _. apply Hl, Hp; done.
  - destruct (blank_latest now user_id media_id date number t Hwf Hf Hmax Hnum) as (Hp1 & Hwf1 & El).
    set (t1 := {| se_rows := se_rows t ++ _; se_next_id := se_next_id t + 1 |}) in *.
    destruct (marked_latest now status pages user_id media_id t1 _ Hwf1 El) as [[_ Ho] Hl].
    destruct Hp1 as [_ Ho1].
    assert (Hwf2 : sessions_wf (set_rows t1 (stored_as (marked now status pages (blank_session now user_id media_id date number (se_next_id t))) <$> se_rows t1))).
    { apply wf_map; [done| |].
      - intros r Hr. apply (stored_as_key _ (se_rows t1) (blank_session now user_id media_id date number (se_next_id t)));
          [apply (sw_ids t1 Hwf1)|apply latest_some in El; apply El|done|done].
      - intros r Hr. unfold stored_as. destruct (Z.eqb_spec (sn_id r) (sn_id (marked now status pages (blank_session now user_id media_id date number (se_next_id t))))) as [E|]; [|auto].
        intros _. right. assert (r = blank_session now user_id media_id date number (se_next_id t)) as ->; [|by apply latest_newest in El].
        cbn in E. apply elem_of_app in Hr as [Hr|Hr%list_elem_of_singleton]; [|done]. pose proof (sw_next t Hwf r Hr). lia. }
    split; [|intros _ _; by apply Hl]. split; [done|]. congruence.
Qed.

End marking.

(** ** The sessions of several books *)

Section series.
Context `{DecimalOps} `{!DecimalMath}.

Lemma first_by_book_lookup rows b :
  first_by_book rows !! b = List.find (fun r => bool_decide (sn_media_id r = b)) rows.
Proof.
  assert (Hacc : forall acc : gmap str SessionRow, foldl (fun (seen : gmap str SessionRow) r => match seen !! sn_media_id r with Some _ => seen | None => <[sn_media_id r := r]> seen end) acc rows !! b
    = match acc !! b with Some r => Some r | None => List.find (fun r => bool_decide (sn_media_id r = b)) rows end);
    [|unfold first_by_book; rewrite Hacc; done].
  induction rows as [|r rows IH]; intros acc; cbn; [by destruct (acc !! b)|]. rewrite IH.
  case_bool_decide as E.
  - subst b. destruct (acc !! sn_media_id r) as [r0|] eqn:Er; [by rewrite Er|by rewrite lookup_insert_eq].
  - destruct (acc !! sn_media_id r) as [r0|]; [done|by rewrite lookup_insert_ne].
Qed.

Lemma find_sorted (R : SessionRow -> SessionRow -> Prop) (p : SessionRow -> bool) l r :
  StronglySorted R l -> List.find p l = Some r -> forall x, x ∈ l -> p x = true -> x = r \/ R r x.
Proof.
  induction 1 as [|a l Hs IH Ha]; cbn; [done|]. intros E x [->|Hx]%elem_of_cons Hp.
  - rewrite Hp in E. injection E as ->. by left.
  - destruct (p a); [|by apply IH]. injection E as ->. right. rewrite Forall_forall in Ha. by apply Ha.
Qed.

Lemma first_by_book_latest user_id books t b :
  sessions_wf t -> b ∈ books ->
  first_by_book (sessions_of_books user_id books (se_rows t)) !! b = latest_of user_id b (se_rows t).
Proof.
  intros Hwf Hb. rewrite first_by_book_lookup.
  assert (Hin : forall r, r ∈ sessions_of_books user_id books (se_rows t) /\ sn_media_id r = b <->
                          r ∈ se_rows t /\ of_pair user_id b r = true).
  { intros r. unfold sessions_of_books, newest_first.
    rewrite merge_sort_Permutation, list_elem_of_In, filter_In, <- list_elem_of_In, andb_true_iff, !bool_decide_eq_true, of_pair_iff.
    naive_solver. }
  destruct (List.find _ _) as [r|] eqn:E.
  - symmetry. pose proof E as E'. apply find_some in E as [Hr Hm]. apply list_elem_of_In in Hr. apply bool_decide_eq_true in Hm.
    destruct (proj1 (Hin r) (conj Hr Hm)) as [Hrow Hp]. apply latest_unique; [done..|]. intros x Hx Hpx.
    destruct (proj2 (Hin x) (conj Hx Hpx)) as [Hxs Hxm].
    destruct (find_sorted created_desc _ _ _ (StronglySorted_merge_sort created_desc _) E' x Hxs) as [->|Hle];
      [by apply bool_decide_eq_true|lia|exact Hle].
  - symmetry. apply latest_none. intros r Hr. destruct (of_pair user_id b r) eqn:Hp; [|done].
    destruct (proj2 (Hin r) (conj Hr Hp)) as [Hrs Hm]. apply list_elem_of_In in Hrs.
    pose proof (find_none _ _ E r Hrs) as Hno. cbn in Hno. by rewrite bool_decide_eq_true_2 in Hno.
Qed.

(** The sessions of every book that is not [media_id]'s are the same. *)
Lemma paces_pair user_id media_id now t t' u m :
  paces user_id media_id now t t' -> (u, m) <> (user_id, media_id) ->
  List.filter (of_pair u m) (se_rows t') = List.filter (of_pair u m) (se_rows t).
Proof.
  intros [_ Hothers] Hne.
  assert (Hf : forall rows, List.filter (of_pair u m) rows =
    List.filter (of_pair u m) (List.filter (fun r => negb (of_pair user_id media_id r)) rows)).
  { induction rows as [|r rows IH]; [done|]. cbn. destruct (of_pair u m r) eqn:E.
    - assert (of_pair user_id media_id r = false) as ->.
      { apply not_true_iff_false. rewrite of_pair_iff in *. naive_solver. }
      cbn. rewrite E. by f_equal.
    - destruct (negb _); cbn; [by rewrite E|done]. }
  by rewrite (Hf (se_rows t')), (Hf (se_rows t)), Hothers.
Qed.

Lemma paces_fresh user_id media_id now t t' m :
  paces user_id media_id now t t' -> m <> media_id -> fresh user_id m now t -> fresh user_id m now t'.
Proof.
  intros Hp Hne Hf a Ha Hpa. apply (Hf a); [|done].
  assert (Hin : a ∈ List.filter (of_pair user_id m) (se_rows t')) by (apply list_elem_of_In, filter_In; split; [by apply list_elem_of_In|done]).
  rewrite (paces_pair _ _ _ _ _ user_id m Hp) in Hin by congruence. apply list_elem_of_In, filter_In in Hin as [Hin _]. by apply list_elem_of_In.
Qed.

Lemma latest_of_pair user_id m t t' :
  List.filter (of_pair user_id m) (se_rows t') = List.filter (of_pair user_id m) (se_rows t) ->
  latest_of user_id m (se_rows t') = latest_of user_id m (se_rows t).
Proof. unfold latest_of. by intros ->. Qed.

(** The books whose latest session is not marked yet. *)
Definition unmarked (user_id : str) (t : Sessions) (b : str) : bool :=
  match latest_of user_id b (se_rows t) with Some s => negb (is_finalized s) | None => true end.

(** What marking books leaves. *)
Record finishes (user_id : str) (books : list str) (t t' : Sessions) (n : Z) : Prop := {
  fi_wf : sessions_wf t';
  fi_marked b : b ∈ books -> unmarked user_id t b = true ->
    exists r, latest_of user_id b (se_rows t') = Some r /\ is_complete r = true;
  fi_count : n = Z.of_nat (length (List.filter (unmarked user_id t) books));
  fi_frame u m : ~ (u = user_id /\ m ∈ books /\ unmarked user_id t m = true) ->
    List.filter (of_pair u m) (se_rows t') = List.filter (of_pair u m) (se_rows t);
}.

Lemma finishes_cons user_id b books t t1 t' now n :
  sessions_wf t1 -> paces user_id b now t t1 -> b ∉ books ->
  (unmarked user_id t b = true -> exists r, latest_of user_id b (se_rows t1) = Some r /\ is_complete r = true) ->
  (unmarked user_id t b = false -> t1 = t) ->
  finishes user_id books t1 t' n ->
  finishes user_id (b :: books) t t' (n + if unmarked user_id t b then 1 else 0).
Proof.
  intros Hwf1 Hp Hb Hmark Hsame [F1 F2 F3 F4].
  assert (Hun : forall m, m <> b -> unmarked user_id t1 m = unmarked user_id t m).
  { intros m Hm. unfold unmarked. rewrite (latest_of_pair user_id m t t1); [done|]. apply (paces_pair _ _ _ _ _ _ _ Hp). congruence. }
  assert (Hlb : List.filter (of_pair user_id b) (se_rows t') = List.filter (of_pair user_id b) (se_rows t1)).
  { apply F4. intros (_ & Hin & _). done. }
  split; [done| | |].
  - intros m [->|Hm]%elem_of_cons E; [rewrite (latest_of_pair user_id b t1 t' Hlb); by apply Hmark|].
    apply F2; [done|]. rewrite Hun; [done|]. by intros ->.
  - cbn. assert (Hfil : List.filter (unmarked user_id t1) books = List.filter (unmarked user_id t) books).
    { apply filter_ext_in. intros m Hm%list_elem_of_In. apply Hun. by intros ->. }
    rewrite F3, Hfil. destruct (unmarked user_id t b); cbn [length]; lia.
  - intros u m Hnot. destruct (decide ((u, m) = (user_id, b))) as [[= -> ->]|Hne].
    + rewrite Hlb. destruct (unmarked user_id t b) eqn:E; [|by rewrite (Hsame eq_refl)]. destruct Hnot. split_and!; [done|by left|done].
    + rewrite F4; [by apply (paces_pair _ _ _ _ _ _ _ Hp)|]. intros (-> & Hm & Hu). apply Hnot. split_and!; [done|by right|].
      rewrite <- (Hun m); [done|]. by intros ->.
Qed.

(** One book that is marked. *)
Definition opening (now : Z) (user_id media_id : str) (s : Shelf) (open : Mutation SessionRow) : Prop :=
  forall session s1, open s = (Ok session, s1) ->
    exists t1, only_sessions s t1 s1 /\ opens now user_id media_id (sh_sessions s) session t1.

Lemma latest_opening now user_id media_id s session :
  latest_of user_id media_id (se_rows (sh_sessions s)) = Some session -> opening now user_id media_id s (db_ret session).
Proof.
  intros El session' s1 [= <- <-]. exists (sh_sessions s). split; [exists (shelf_faults s); by destruct s as [[]]|]. by left.
Qed.

Lemma insert_opening now user_id media_id date number s :
  number = next_number (latest_of user_id media_id (se_rows (sh_sessions s))) ->
  opening now user_id media_id s (of_sessions (insert_session (blank_session now user_id media_id date number))).
Proof.
  intros Hnum session s1 (db & E1 & Ho1)%of_sessions_ok. apply insert_cases in E1 as [[[=] _]|([= ->] & Hmax & Et)].
  exists (sd_table db). split; [done|]. right. by exists date, number.
Qed.

Lemma mark_done {A} now status pages user_id media_id s session s1 (k : Mutation A) a s' :
  sessions_wf (sh_sessions s) -> fresh user_id media_id now (sh_sessions s) ->
  (exists t1, only_sessions s t1 s1 /\ opens now user_id media_id (sh_sessions s) session t1) ->
  (_ <-- of_sessions (update_session (marked now status pages session)) ;; k) s1 = (Ok a, s') ->
  exists s2, only_sessions s (sh_sessions s2) s2 /\ k s2 = (Ok a, s') /\ sessions_wf (sh_sessions s2) /\
    paces user_id media_id now (sh_sessions s) (sh_sessions s2) /\
    latest_of user_id media_id (se_rows (sh_sessions s2)) = Some (marked now status pages session).
Proof.
  intros Hwf Hf (t1 & Ho1 & Hop) E. step_ok E u s2 E2. apply of_sessions_ok in E2 as (db & E2 & Ho2).
  rewrite (only_sessions_table _ _ _ Ho1) in E2. apply update_cases in E2 as [[[=] _]|[_ Et2]]. cbn [sd_table] in Et2.
  pose proof (opens_marks now status pages user_id media_id _ session t1 Hwf Hf Hop) as [Hpac Hlat].
  pose proof (only_sessions_table _ _ _ Ho2) as Ht2. rewrite <- Et2, <- Ht2 in Hpac. exists s2.
  split; [rewrite Ht2; by eapply only_sessions_trans|]. split_and!; [done|by apply Hpac|done|]. rewrite Ht2, Et2. by apply Hlat.
Qed.

Lemma finish_books_done now user books m changed s n s' :
  finish_books now user books m changed s = (Ok n, s') ->
  sessions_wf (sh_sessions s) -> NoDup books.*1 ->
  (forall b, b ∈ books.*1 -> fresh (su_id user) b now (sh_sessions s)) ->
  (forall b, b ∈ books.*1 -> m !! b = latest_of (su_id user) b (se_rows (sh_sessions s))) ->
  exists k, n = changed + k /\ only_sessions s (sh_sessions s') s' /\ finishes (su_id user) books.*1 (sh_sessions s) (sh_sessions s') k.
Proof.
  revert m changed s. induction books as [|[b pages] books IH]; intros m changed s E Hwf Hnd Hfresh Hm; cbn [finish_books] in E;
    destruct (preferences_of user) as [grace offset].
  - injection E as <- <-. exists 0. split; [lia|]. split; [exists (shelf_faults s); by destruct s as [[]]|].
    split; [done|by intros b ?%elem_of_nil|done|done].
  - cbn in Hnd. apply NoDup_cons in Hnd as [Hb Hnd]. assert (Hfb : fresh (su_id user) b now (sh_sessions s)) by (apply Hfresh; by left).
    (* the books that follow one that was settled *)
    assert (Hrest : forall s1 changed1, finish_books now user books (delete b m) changed1 s1 = (Ok n, s') ->
      only_sessions s (sh_sessions s1) s1 -> sessions_wf (sh_sessions s1) -> paces (su_id user) b now (sh_sessions s) (sh_sessions s1) ->
      exists k, n = changed1 + k /\ only_sessions s (sh_sessions s') s' /\ finishes (su_id user) books.*1 (sh_sessions s1) (sh_sessions s') k).
    { intros s1 changed1 E1 Ho Hwf1 Hpac. apply IH in E1 as (k & -> & Ho' & Hfin); [|done|done| |].
      - exists k. split_and!; [done|by eapply only_sessions_trans|done].
      - intros b' Hb'. apply (paces_fresh _ _ _ _ _ b' Hpac); [by intros ->|]. apply Hfresh. by right.
      - intros b' Hb'. assert (b' <> b) by (by intros ->). rewrite lookup_delete_ne by done. rewrite Hm by (by right).
        symmetry. apply latest_of_pair, (paces_pair _ _ _ _ _ _ _ Hpac). congruence. }
    assert (Hmark : forall open, opening now (su_id user) b s open -> unmarked (su_id user) (sh_sessions s) b = true ->
      (session <-- open ;; _ <-- of_sessions (update_session (marked now Finished (Some pages) session)) ;;
       finish_books now user books (delete b m) (changed + 1)) s = (Ok n, s') ->
      exists k, n = changed + k /\ only_sessions s (sh_sessions s') s' /\ finishes (su_id user) (b :: books.*1) (sh_sessions s) (sh_sessions s') k).
    { intros open Hopen Hun E0. step_ok E0 session s1 E1.
      apply (mark_done now Finished (Some pages) (su_id user) b s session s1) in E0 as (s2 & Ho & E2 & Hwf2 & Hpac & Hl); [|done|done|by apply Hopen].
      destruct (Hrest _ _ E2 Ho Hwf2 Hpac) as (k & -> & Ho' & Hfin). exists (k + 1). split_and!; [lia|done|].
      assert (Hno : unmarked (su_id user) (sh_sessions s) b = false -> sh_sessions s2 = sh_sessions s) by congruence.
      pose proof (finishes_cons _ b _ _ _ _ now _ Hwf2 Hpac Hb (fun _ => ex_intro _ _ (conj Hl eq_refl)) Hno Hfin) as Hc.
      by rewrite Hun in Hc. }
    rewrite (Hm b) in E by (by left). destruct (latest_of (su_id user) b (se_rows (sh_sessions s))) as [session|] eqn:El.
    + destruct (is_finalized session) eqn:Efin.
      * assert (Hun : unmarked (su_id user) (sh_sessions s) b = false) by (unfold unmarked; by rewrite El, Efin).
        destruct (Hrest _ _ E) as (k & -> & Ho & Hfin); [exists (shelf_faults s); by destruct s as [[]]|done|by apply paces_refl|].
        exists k. split_and!; [done|done|].
        assert (Hno : unmarked (su_id user) (sh_sessions s) b = true ->
          exists r, latest_of (su_id user) b (se_rows (sh_sessions s)) = Some r /\ is_complete r = true) by congruence.
        pose proof (finishes_cons _ b _ _ _ _ now _ Hwf (paces_refl _ _ now _ _ eq_refl) Hb Hno (fun _ => eq_refl) Hfin) as Hc.
        by rewrite Hun, Z.add_0_r in Hc.
      * assert (Hun : unmarked (su_id user) (sh_sessions s) b = true) by (unfold unmarked; by rewrite El, Efin).
        destruct (should_extend_session_at session grace now); (eapply Hmark; [|done|exact E]); [by apply latest_opening|].
        apply insert_opening. rewrite El. cbn. by rewrite Efin.
    + eapply Hmark; [|unfold unmarked; by rewrite El|exact E]. apply insert_opening. by rewrite El.
Qed.

End series.

Section clearing.
Context `{DecimalOps} `{!DecimalMath}.

(** A session of the readthrough its book is in. *)
Definition ongoing (rows : list SessionRow) (r : SessionRow) : bool :=
  match latest_of (sn_user_id r) (sn_media_id r) rows with
  | Some s => negb (is_finalized s) && (sn_readthrough_number r =? sn_readthrough_number s)
  | None => false
  end.

Definition of_books (user_id : str) (books : list str) (r : SessionRow) : bool :=
  bool_decide (sn_user_id r = user_id) && bool_decide (sn_media_id r ∈ books).

Lemma filter_length_split {A} (p : A -> bool) l :
  (length (List.filter p l) + length (List.filter (fun x => negb (p x)) l) = length l)%nat.
Proof. induction l as [|x l IH]; [done|]. cbn. destruct (p x); cbn; lia. Qed.

Lemma filter_twice {A} (p q : A -> bool) l : List.filter p (List.filter q l) = List.filter (fun x => q x && p x) l.
Proof. induction l as [|x l IH]; [done|]. cbn. destruct (q x); cbn; [destruct (p x)|]; by rewrite IH. Qed.

(** The sessions of a book that clearing its history removes are those before the
    readthrough it is in. *)
Lemma cleared_ongoing user_id b t s r :
  sessions_wf t -> latest_of user_id b (se_rows t) = Some s -> r ∈ se_rows t -> of_pair user_id b r = true ->
  (if is_finalized s then sn_readthrough_number r <=? sn_readthrough_number s
   else sn_readthrough_number r <? sn_readthrough_number s) = negb (ongoing (se_rows t) r).
Proof.
  intros Hwf El Hr Hp. unfold ongoing. pose proof Hp as [-> ->]%of_pair_iff. rewrite El.
  apply latest_some in El as (Hs & [Hu Hm]%of_pair_iff & Hmax). specialize (Hmax r Hr Hp). apply of_pair_iff in Hp as [Hu' Hm'].
  assert (Hle : sn_readthrough_number r <= sn_readthrough_number s).
  { destruct (decide (sn_created_at r = sn_created_at s)) as [E|Hne].
    - rewrite (sw_times t Hwf r s Hr Hs); [lia|split; congruence|done].
    - apply (sw_order t Hwf r s Hr Hs); [split; congruence|lia]. }
  destruct (is_finalized s); cbn [negb andb]; [by apply Z.leb_le|].
  destruct (Z.eqb_spec (sn_readthrough_number r) (sn_readthrough_number s)), (Z.ltb_spec (sn_readthrough_number r) (sn_readthrough_number s)); cbn; lia.
Qed.

Lemma clear_books_done user books m deleted s n s' :
  clear_books user books m deleted s = (Ok n, s') ->
  sessions_wf (sh_sessions s) -> NoDup books ->
  (forall b, b ∈ books -> m !! b = latest_of (su_id user) b (se_rows (sh_sessions s))) ->
  only_sessions s (sh_sessions s') s' /\
  se_rows (sh_sessions s') =
    List.filter (fun r => negb (of_books (su_id user) books r) || ongoing (se_rows (sh_sessions s)) r) (se_rows (sh_sessions s)) /\
  n = deleted + Z.of_nat (length (se_rows (sh_sessions s))) - Z.of_nat (length (se_rows (sh_sessions s'))).
Proof.
  revert m deleted s. induction books as [|b books IH]; intros m deleted s E Hwf Hnd Hm; cbn [clear_books] in E.
  - injection E as <- <-. split; [exists (shelf_faults s); by destruct s as [[]]|]. split; [|lia].
    symmetry. apply forallb_filter_id, forallb_forall. intros r _. unfold of_books. rewrite (bool_decide_eq_false_2 (sn_media_id r ∈ [])), andb_false_r; [done|by intros ?%elem_of_nil].
  - apply NoDup_cons in Hnd as [Hb Hnd]. rewrite (Hm b) in E by (by left).
    assert (Hsplit : forall r, of_books (su_id user) (b :: books) r = of_pair (su_id user) b r || of_books (su_id user) books r).
    { intros r. unfold of_books, of_pair. destruct (bool_decide (sn_user_id r = su_id user)); cbn [andb orb]; [|done].
      rewrite <- bool_decide_or. apply bool_decide_ext. set_solver. }
    destruct (latest_of (su_id user) b (se_rows (sh_sessions s))) as [session|] eqn:El.
    + step_ok E affected s1 E1. apply of_sessions_ok in E1 as (db & E1 & Ho1).
      apply delete_cases in E1 as [[[=] _]|[[= Haff] Et]]. cbn [sd_table] in Haff, Et.
      pose proof (only_sessions_table _ _ _ Ho1) as Ht1. rewrite Et in Ht1.
      set (doomed := fun r => of_pair (su_id user) b r && _) in *.
      assert (Hpac : paces (su_id user) b 0 (sh_sessions s) (sh_sessions s1)).
      { rewrite Ht1. apply delete_paces. by intros r [? _]%andb_true_iff. }
      assert (Hwf1 : sessions_wf (sh_sessions s1)) by (rewrite Ht1; by apply wf_filter).
      assert (Hlat : forall m', m' <> b -> latest_of (su_id user) m' (se_rows (sh_sessions s1)) = latest_of (su_id user) m' (se_rows (sh_sessions s))).
      { intros m' Hne. apply latest_of_pair, (paces_pair _ _ _ _ _ _ _ Hpac). congruence. }
      apply IH in E as (Ho & Hrows & Hn); [|done|done|].
      2: { intros b' Hb'. assert (b' <> b) by (by intros ->). rewrite lookup_delete_ne, Hlat by done. apply Hm. by right. }
      split; [by eapply only_sessions_trans|]. split.
      * rewrite Hrows, Ht1. cbn [se_rows set_rows]. rewrite filter_twice. apply filter_ext_in. intros r Hr%list_elem_of_In.
        rewrite Hsplit. unfold doomed. destruct (of_pair (su_id user) b r) eqn:Hp; cbn [andb orb negb].
        -- rewrite (cleared_ongoing _ _ _ _ _ Hwf El Hr Hp), negb_involutive. destruct (ongoing (se_rows (sh_sessions s)) r); [|done]. cbn [andb].
           unfold of_books. apply of_pair_iff in Hp as [_ ->]. by rewrite (bool_decide_eq_false_2 (b ∈ books)), andb_false_r.
        -- destruct (of_books (su_id user) books r) eqn:Eo; [|done]. cbn [negb orb]. unfold ongoing.
           apply andb_true_iff in Eo as [Eu%bool_decide_eq_true Em%bool_decide_eq_true]. rewrite Eu.
           pose proof (Hlat (sn_media_id r)) as Hl. rewrite Ht1 in Hl. cbn [se_rows set_rows] in Hl. rewrite Hl; [done|]. intros Eb. by rewrite Eb in Em.
      * rewrite Hn, Haff, Ht1. cbn [se_rows set_rows]. pose proof (filter_length_split doomed (se_rows (sh_sessions s))) as Hlen. unfold doomed in *. cbv beta in Hlen. lia.
    + apply IH in E as (Ho & Hrows & Hn); [|done|done|intros b' Hb'; apply Hm; by right].
      split_and!; [done| |done]. rewrite Hrows. apply filter_ext_in. intros r Hr%list_elem_of_In. rewrite Hsplit.
      rewrite latest_none in El. by rewrite (El r Hr).
Qed.

Lemma clear_books_counter user books m deleted s r s' :
  clear_books user books m deleted s = (r, s') -> se_next_id (sh_sessions s') = se_next_id (sh_sessions s).
Proof.
  revert m deleted s. induction books as [|b books IH]; intros m deleted s E; cbn [clear_books] in E; [by injection E as _ <-|].
  destruct (m !! b); [|by apply IH in E]. apply db_bind_cases in E as [(e & E & _)|(n & s1 & E1 & E)].
  - apply of_sessions_cases in E as (r0 & db & E & _ & Ho). rewrite (only_sessions_table _ _ _ Ho).
    by apply delete_cases in E as [[_ ->]|[_ ->]].
  - rewrite (IH _ _ _ E). apply of_sessions_cases in E1 as (r0 & db & E1 & _ & Ho). rewrite (only_sessions_table _ _ _ Ho).
    by apply delete_cases in E1 as [[_ ->]|[_ ->]].
Qed.

End clearing.

(** ** What each mutation does *)

Section cases.
Context `{DecimalOps} `{!DecimalMath} `{!InputDebug}.

Lemma unchanged_trans s s1 s' : unchanged s s1 -> unchanged s1 s' -> unchanged s s'.
Proof. intros. by etrans. Qed.

Lemma get_book_pages_cases b s r s' : get_book_pages b s = (r, s') -> unchanged s s'.
Proof.
  unfold get_book_pages. intros [(e & E & _)|(pages & s1 & E1 & E)]%db_bind_cases; [by apply ask_cases in E as [E _]|].
  apply ask_cases in E1 as [Hu _]. by destruct pages; injection E as _ <-.
Qed.

Lemma of_sessions_fails {A} (c : SessionDB A) s e s' :
  of_sessions c s = (Err e, s') -> (forall db r db', c db = (Err r, db') -> sd_table db' = sd_table db) -> unchanged s s'.
Proof.
  intros (r0 & db & E & Hr & Ho)%of_sessions_cases Hc. destruct r0 as [a|e0]; [done|].
  eapply only_sessions_same; [exact Ho|]. by apply Hc in E.
Qed.

Lemma select_quiet {A} (f : list SessionRow -> A) s r s' : of_sessions (select f) s = (r, s') ->
  unchanged s s' /\ forall a, r = Ok a -> a = f (se_rows (sh_sessions s)).
Proof.
  intros (r0 & db & E & -> & Ho)%of_sessions_cases. apply select_cases in E as [Et Hr]. cbn [sd_table] in *.
  split; [by eapply only_sessions_same|]. destruct Hr as [-> | ->]; [done|]. by intros a [= <-].
Qed.

(** An update moves the position, and then the history if the position was accepted. *)
Lemma update_cases_media now user id input s r s' :
  update_media_progress now user id input s = (r, s') ->
  (unchanged s s' /\ exists e, r = Err e) \/
  exists pages duration applied faults db,
    let publication := {| pub_media_id := id; pub_pages := pages; pub_duration_ms := duration |} in
    apply now (su_id user) publication (head_update input pages duration) (sh_reading (set_shelf_faults s faults)) = (Ok applied, db) /\
    sh_series s' = sh_series s /\ db_heads (sh_reading s') = db_heads db /\ db_events (sh_reading s') = db_events db /\
    if accepted applied
    then exists row sdb sdb', r = Ok row /\ sd_table sdb = sh_sessions s /\ sh_sessions s' = sd_table sdb' /\
      upsert_reading_session now user id (normalized input pages duration (input_reset_elapsed_seconds input)) sdb = (Ok row, sdb')
    else sh_sessions s' = sh_sessions s /\
      r = match latest_of (su_id user) id (se_rows (sh_sessions s)) with
          | Some row => Ok row
          | None => Err (Message (lit "Rejected progress has no existing reading session"))
          end.
Proof.
  unfold update_media_progress. intros [(e & E & ->)|(pages & s1 & E1 & E)]%db_bind_cases.
  { apply get_book_pages_cases in E. left. eauto. }
  apply get_book_pages_cases in E1. apply db_bind_cases in E as [(e & E & ->)|(duration & s2 & E2 & E)].
  { apply ask_cases in E as [E _]. left. split; [by etrans|eauto]. }
  apply ask_cases in E2 as [E2 _]. assert (Hu : unchanged s s2) by (by etrans). clear E1 E2.
  apply db_bind_cases in E as [(e & E & ->)|(session & s3 & E3 & E)].
  { apply committing_cases in E as [[E _]|(a & s4 & s5 & [=] & _)]. left. split; [by etrans|eauto]. }
  apply committing_cases in E3 as [[_ [e [=]]]|(a & s4 & s5 & [= <-] & Hu4 & E3 & Hu5)].
  right. step_ok E3 applied s6 E6. destruct (unchanged_trans _ _ _ Hu Hu4) as [fs ->]. unfold of_reading in E6.
  destruct (apply now (su_id user) _ _ _) as [[applied'|e] db] eqn:Ea; [|by destruct e]. injection E6 as -> <-.
  exists pages, duration, applied, fs, db. cbv zeta. split; [done|]. destruct Hu5 as [fs5 ->].
  destruct (accepted applied) eqn:Eacc.
  - step_ok E3 row s7 E7. apply of_sessions_ok in E7 as (sdb & E7 & Ho). injection E3 as <- <-. injection E as <- <-.
    destruct Ho as [fs7 ->]. split_and!; [done..|]. do 3 eexists. split_and!; [done| |done|exact E7]. done.
  - apply select_quiet in E3 as [[fs7 ->] Hl]. rewrite (Hl session eq_refl) in E. cbn [se_rows sh_sessions with_reading set_shelf_faults] in E.
    destruct (latest_of (su_id user) id (se_rows (sh_sessions s))) as [row|]; injection E as <- <-; by split_and!.
Qed.

Lemma accept_cases now user id ancestor input s r s' :
  accept_local_progress now user id ancestor input s = (r, s') ->
  (unchanged s s' /\ exists e, r = Err e) \/
  exists p progression row sdb sdb', r = Ok row /\ only_sessions s (sd_table sdb') s' /\
    sd_table sdb = set_rows (sh_sessions s) (List.filter (fun r => negb (of_pair (su_id user) id r && p r)) (se_rows (sh_sessions s))) /\
    upsert_reading_session now user id progression sdb = (Ok row, sdb').
Proof.
  unfold accept_local_progress. intros [(e & E & ->)|(anc & s1 & E1 & E)]%db_bind_cases.
  - left. split; [|eauto]. destruct ancestor as [session_id|]; [|done].
    apply db_bind_cases in E as [(e' & E & _)|(row & s1 & E1 & E)]; [by apply select_quiet in E as [E _]|].
    apply select_quiet in E1 as [Hu _]. by destruct row; injection E as _ <-.
  - assert (Hu1 : unchanged s s1).
    { destruct ancestor as [session_id|]; [|by injection E1 as _ <-]. step_ok E1 row s2 E2. apply select_quiet in E2 as [Hu _].
      destruct row; [by injection E1 as _ <-|done]. }
    clear E1. apply committing_cases in E as [[E He]|(row & s2 & s3 & -> & Hu2 & E & Hu3)]; [left; split; [by etrans|done]|].
    right. step_ok E n s4 E4. apply of_sessions_ok in E4 as (db & E4 & Ho4). apply delete_cases in E4 as [[[=] _]|[_ Et4]]. cbn [sd_table] in Et4.
    step_ok E progression s5 E5. assert (Hu5 : unchanged s4 s5).
    { destruct input; [by injection E5 as _ <-|..]; step_ok E5 x s6 E6; injection E5 as _ <-;
        [by apply get_book_pages_cases in E6|by apply ask_cases in E6 as [E6 _]]. }
    apply of_sessions_ok in E as (sdb' & E & Ho). exists (fun r => match anc with Some a => sn_id a <? sn_id r | None => true end), progression, row.
    eexists _, sdb'. split; [done|]. split; [|split; [|exact E]].
    + eapply only_unchanged; [|exact Hu3]. eapply unchanged_only; [exact (unchanged_trans _ _ _ Hu1 Hu2)|].
      eapply only_sessions_trans; [exact Ho4|]. by eapply unchanged_only.
    + cbn [sd_table]. rewrite (unchanged_sessions _ _ Hu5), (only_sessions_table _ _ _ Ho4), Et4.
      by rewrite (unchanged_sessions _ _ (unchanged_trans _ _ _ Hu1 Hu2)).
Qed.

Lemma clear_cases user id s r s' :
  clear_media_progress user id s = (r, s') ->
  unchanged s s' \/
  exists b p, r = Ok b /\ only_sessions s (set_rows (sh_sessions s) (List.filter (fun r => negb (of_pair (su_id user) id r && p r)) (se_rows (sh_sessions s)))) s'.
Proof.
  unfold clear_media_progress. intros [[Hu _]|(b & s1 & s2 & -> & Hu1 & E & Hu2)]%in_transaction_cases; [auto|]. right.
  step_ok E current s3 E3. apply select_quiet in E3 as [Hu3 _]. destruct current as [session|]; [|done].
  destruct (is_finalized session); [done|]. step_ok E n s4 E4. injection E as <- <-.
  apply of_sessions_ok in E4 as (db & E4 & Ho). apply delete_cases in E4 as [[[=] _]|[_ Et]]. cbn [sd_table] in Et.
  exists (0 <? n), (fun r => (sn_readthrough_number r =? sn_readthrough_number session) && bool_decide (sn_status r = Reading)). split; [done|].
  pose proof (unchanged_trans _ _ _ Hu1 Hu3) as Hu. rewrite (unchanged_sessions _ _ Hu) in Et. eapply only_unchanged; [|exact Hu2].
  eapply unchanged_only; [exact Hu|]. rewrite Et in Ho. destruct Ho as [fs ->]. exists fs. f_equal. f_equal. f_equal.
  apply filter_ext. intros r. unfold in_readthrough. by rewrite andb_assoc.
Qed.

Lemma reset_media_cases user id s r s' :
  reset_elapsed_seconds user id s = (r, s') ->
  (unchanged s s' /\ exists e, r = Err e) \/ (exists b, r = Ok b /\ only_sessions s (zeroed (su_id user) id (sh_sessions s)) s').
Proof.
  unfold reset_elapsed_seconds. intros [?|(b & s1 & s2 & -> & Hu1 & E & Hu2)]%committing_cases; [auto|]. right. exists b. split; [done|].
  apply of_sessions_ok in E as (db & E & Ho). apply reset_done in E. cbn [sd_table] in E. rewrite E, (unchanged_sessions _ _ Hu1) in Ho.
  eapply only_unchanged; [|exact Hu2]. by eapply unchanged_only.
Qed.

Lemma history_cases user id s r s' :
  delete_media_reading_history user id s = (r, s') ->
  (unchanged s s') \/
  exists n p, r = Ok n /\ only_sessions s (set_rows (sh_sessions s) (List.filter (fun r => negb (of_pair (su_id user) id r && p r)) (se_rows (sh_sessions s)))) s'.
Proof.
  unfold delete_media_reading_history. intros [(e & E & ->)|(current & s1 & E1 & E)]%db_bind_cases; [left; by apply select_quiet in E as [E _]|].
  apply select_quiet in E1 as [Hu _]. destruct r as [n|e].
  - right. apply of_sessions_ok in E as (db & E & Ho). apply delete_cases in E as [[[=] _]|[_ Et]]. cbn [sd_table] in Et.
    exists n, (fun r => match current with Some s => negb (sn_readthrough_number r =? sn_readthrough_number s) | None => true end).
    split; [done|]. eapply unchanged_only; [exact Hu|]. by rewrite Et, (unchanged_sessions _ _ Hu) in Ho.
  - left. etrans; [exact Hu|]. eapply of_sessions_fails; [exact E|]. intros db e' db' E'. by apply delete_cases in E' as [[_ ?]|[[=] _]].
Qed.

Lemma finish_cases now user id dnf s r s' :
  finish_media_progress now user id dnf s = (r, s') -> sessions_wf (sh_sessions s) -> fresh (su_id user) id now (sh_sessions s) ->
  (unchanged s s' /\ forall b, r = Ok b -> unmarked (su_id user) (sh_sessions s) id = false /\ b = true) \/
  (r = Ok true /\ unmarked (su_id user) (sh_sessions s) id = true /\ only_sessions s (sh_sessions s') s' /\ sessions_wf (sh_sessions s') /\
   paces (su_id user) id now (sh_sessions s) (sh_sessions s') /\
   exists row, latest_of (su_id user) id (se_rows (sh_sessions s')) = Some row /\
     sn_status row = (if default false dnf then Abandoned else Finished)).
Proof.
  unfold finish_media_progress. destruct (preferences_of user) as [grace offset]. intros E Hwf Hf. unfold unmarked.
  apply in_transaction_cases in E as [[Hu [[e ->]|(b & s1 & s2 & -> & Hu1 & E)]]|(b & s1 & s2 & -> & Hu1 & E & Hu2)].
  - left. by split.
  - left. split; [done|]. intros b' [= <-]. step_ok E current s3 E3. apply select_quiet in E3 as [Hu3 Hl]. rewrite (Hl current eq_refl) in E.
    rewrite (unchanged_sessions _ _ Hu1) in E. destruct (latest_of (su_id user) id (se_rows (sh_sessions s))) as [session|].
    + destruct (is_finalized session) eqn:Efin; [by injection E as <- _|]. step_ok E x s4 E4. step_ok E y s5 E5. step_ok E z s6 E6. done.
    + step_ok E x s4 E4. step_ok E y s5 E5. step_ok E z s6 E6. done.
  - right. step_ok E current s3 E3. apply select_quiet in E3 as [Hu3 Hl]. specialize (Hl current eq_refl). rewrite (unchanged_sessions _ _ Hu1) in Hl.
    pose proof (unchanged_trans _ _ _ Hu1 Hu3) as Hu. pose proof (unchanged_sessions _ _ Hu) as Ht3. subst current.
    destruct (match latest_of _ _ _ with Some s => is_finalized s | None => false end) eqn:Efin; [done|].
    step_ok E session s4 E4.
    assert (Hopen : exists t1, only_sessions s3 t1 s4 /\ opens now (su_id user) id (sh_sessions s3) session t1).
    { destruct (latest_of (su_id user) id (se_rows (sh_sessions s))) as [latest|] eqn:El; rewrite <- Ht3 in El.
      - destruct (should_extend_session_at latest grace now); [by apply (latest_opening now _ _ _ _ El) in E4|].
        apply insert_opening in E4; [done|]. rewrite El. cbn. by rewrite Efin.
      - step_ok E4 number s5 E5. apply of_sessions_ok in E5 as (db & E5 & Ho5). unfold derive_readthrough_number, find_latest in E5.
        apply db_bind_cases in E5 as [(e & _ & [=])|(l & db1 & E6 & [= <- <-])]. apply select_cases in E6 as [Et [[=]|[= ->]]].
        cbn [sd_table] in Et. rewrite Et in Ho5. pose proof (only_sessions_same _ _ _ Ho5 eq_refl) as [fs5 ->].
        apply insert_opening in E4; [|done]. destruct E4 as (t1 & Ho & Hop). exists t1. split; [|done].
        eapply unchanged_only; [|exact Ho]. by exists fs5. }
    step_ok E marking s5 E5.
    assert (Hmark : exists status pages, marking = marked now status pages session /\ unchanged s4 s5 /\
                      status = if default false dnf then Abandoned else Finished).
    { destruct (default false dnf); [injection E5 as <- <-; by eexists _, _|]. step_ok E5 pages s6 E6. apply get_book_pages_cases in E6.
      injection E5 as <- <-. by eexists _, _. }
    destruct Hmark as (status & pages & -> & Hu5 & Hst).
    assert (Hopen5 : exists t1, only_sessions s3 t1 s5 /\ opens now (su_id user) id (sh_sessions s3) session t1).
    { destruct Hopen as (t1 & Ho & Hop). exists t1. split; [by eapply only_unchanged|done]. }
    apply (mark_done now status pages (su_id user) id s3 session s5) in E as (s6 & Ho6 & [= <- <-] & Hwf6 & Hpac & Hlat); [|by rewrite Ht3..|done].
    rewrite Ht3 in Hpac. rewrite <- (unchanged_sessions _ _ Hu2) in *. split; [done|]. split_and!; [|by eapply only_unchanged; [eapply unchanged_only|]|done|done|by eexists].
    destruct (latest_of (su_id user) id (se_rows (sh_sessions s))); [by rewrite Efin|done].
Qed.

End cases.

(** ** Every mutation *)

Section requests.
Context `{DecimalOps} `{!DecimalMath} `{!InputDebug}.

Inductive Request :=
| UpdateProgress (id : str) (input : MediaProgressInput)
| AcceptLocal (id : str) (ancestor_session_id : option Z) (input : MediaProgressInput)
| ClearProgress (id : str)
| ResetElapsed (id : str)
| FinishProgress (id : str) (dnf : option bool)
| DeleteHistory (id : str)
| FinishSeries (id : str)
| ClearSeries (id : str).

Inductive Answer := ASession (row : SessionRow) | ADone (done : bool) | ACount (count : Z).

Definition answering {A} (f : A -> Answer) (c : Mutation A) : Mutation Answer := a <-- c ;; db_ret (f a).

Definition perform (now : Z) (user : SessionUser) (request : Request) : Mutation Answer :=
  match request with
  | UpdateProgress id input => answering ASession (update_media_progress now user id input)
  | AcceptLocal id ancestor input => answering ASession (accept_local_progress now user id ancestor input)
  | ClearProgress id => answering ADone (clear_media_progress user id)
  | ResetElapsed id => answering ADone (reset_elapsed_seconds user id)
  | FinishProgress id dnf => answering ADone (finish_media_progress now user id dnf)
  | DeleteHistory id => answering ACount (delete_media_reading_history user id)
  | FinishSeries id => answering ACount (finish_series_progress now user id)
  | ClearSeries id => answering ACount (clear_series_reading_history user id)
  end.

Definition series_books (user_id id : str) (s : Shelf) : list str := (default [] (sh_series s !! (user_id, id))).*1.

(** A series lists a book once. *)
Definition series_ok (s : Shelf) : Prop := forall user_id id, NoDup (series_books user_id id s).

(** The clock is past every session. *)
Definition clock (now : Z) (t : Sessions) : Prop := forall r, r ∈ se_rows t -> sn_created_at r < now.

Lemma clock_fresh now t u m : clock now t -> fresh u m now t.
Proof. intros Hc a Ha _. by apply Hc. Qed.

Lemma answering_cases {A} (f : A -> Answer) (c : Mutation A) s r s' :
  answering f c s = (r, s') -> exists r0, c s = (r0, s') /\ forall e, r = Err e <-> r0 = Err e.
Proof.
  unfold answering. intros [(e & E & ->)|(a & s1 & E1 & [= <- <-])]%db_bind_cases; eexists; (split; [eassumption|]); naive_solver.
Qed.

Lemma finish_series_cases now user id s r s' :
  finish_series_progress now user id s = (r, s') ->
  sessions_wf (sh_sessions s) -> NoDup (series_books (su_id user) id s) -> clock now (sh_sessions s) ->
  (unchanged s s' /\ exists e, r = Err e) \/
  exists n, r = Ok n /\ only_sessions s (sh_sessions s') s' /\
    finishes (su_id user) (series_books (su_id user) id s) (sh_sessions s) (sh_sessions s') n.
Proof.
  unfold finish_series_progress, series_books. intros E Hwf Hnd Hc.
  apply in_transaction_cases in E as [[Hu [?|(n & s1 & s2 & -> & Hu1 & E)]]|(n & s1 & s2 & -> & Hu1 & E & Hu2)]; [by left| |].
  - right. exists n. split; [done|]. step_ok E books s3 E3. apply ask_cases in E3 as [_ [[=]|[= Hb]]].
    assert (Hb' : books = default [] (sh_series s !! (su_id user, id))) by (by destruct Hu1 as [fs ->]). rewrite <- Hb'.
    destruct books as [|b books]; [|by step_ok E x s4 E4; step_ok E y s5 E5].
    injection E as <- <-. destruct Hu as [fs ->]. split; [exists fs; by destruct s as [[]]|]. by split; [|intros b ?%elem_of_nil|..].
  - right. exists n. split; [done|]. step_ok E books s3 E3. apply ask_cases in E3 as [Hu3 [[=]|[= Hb]]].
    assert (Hb' : books = default [] (sh_series s !! (su_id user, id))) by (by destruct Hu1 as [fs ->]). rewrite <- Hb' in *.
    destruct books as [|b books]; [done|]. step_ok E existing s4 E4. apply select_quiet in E4 as [Hu4 Hex].
    specialize (Hex existing eq_refl). step_ok E changed s5 E5. injection E as <- <-.
    pose proof (unchanged_trans _ _ _ Hu1 (unchanged_trans _ _ _ Hu3 Hu4)) as Hu.
    pose proof (unchanged_sessions _ _ (unchanged_trans _ _ _ Hu1 Hu3)) as Ht3. pose proof (unchanged_sessions _ _ Hu) as Ht.
    apply finish_books_done in E5 as (k & -> & Ho & Hf); [|by rewrite Ht|done| |].
    + rewrite Ht in Hf. rewrite (unchanged_sessions _ _ Hu2). split; [|exact Hf].
      eapply only_unchanged; [|exact Hu2]. by eapply unchanged_only.
    + intros b' _. rewrite Ht. by apply clock_fresh.
    + intros b' Hb0. rewrite Hex, Ht3, Ht. by apply first_by_book_latest.
Qed.

Lemma clear_series_cases user id s r s' :
  clear_series_reading_history user id s = (r, s') ->
  sessions_wf (sh_sessions s) -> NoDup (series_books (su_id user) id s) ->
  (unchanged s s' /\ exists e, r = Err e) \/
  exists n, r = Ok n /\ only_sessions s (sh_sessions s') s' /\
    se_rows (sh_sessions s') =
      List.filter (fun r => negb (of_books (su_id user) (series_books (su_id user) id s) r) || ongoing (se_rows (sh_sessions s)) r)
        (se_rows (sh_sessions s)) /\
    se_next_id (sh_sessions s') = se_next_id (sh_sessions s) /\
    n = Z.of_nat (length (se_rows (sh_sessions s))) - Z.of_nat (length (se_rows (sh_sessions s'))).
Proof.
  unfold clear_series_reading_history, series_books. intros E Hwf Hnd.
  apply in_transaction_cases in E as [[Hu [?|(n & s1 & s2 & -> & Hu1 & E)]]|(n & s1 & s2 & -> & Hu1 & E & Hu2)]; [by left| |].
  - right. exists n. split; [done|]. step_ok E books s3 E3. apply ask_cases in E3 as [_ [[=]|[= Hb]]].
    assert (Hb' : books = (default [] (sh_series s !! (su_id user, id))).*1) by (by destruct Hu1 as [fs ->]). rewrite <- Hb'.
    destruct books as [|b books]; [|by step_ok E x s4 E4; step_ok E y s5 E5].
    injection E as <- <-. destruct Hu as [fs ->]. split; [exists fs; by destruct s as [[]]|]. split_and!; [|done|cbn; lia].
    symmetry. apply forallb_filter_id, forallb_forall. intros r _. unfold of_books.
    rewrite (bool_decide_eq_false_2 (sn_media_id r ∈ [])), andb_false_r; [done|by intros ?%elem_of_nil].
  - right. exists n. split; [done|]. step_ok E books s3 E3. apply ask_cases in E3 as [Hu3 [[=]|[= Hb]]].
    assert (Hb' : books = (default [] (sh_series s !! (su_id user, id))).*1) by (by destruct Hu1 as [fs ->]). rewrite <- Hb' in *.
    destruct books as [|b books]; [done|]. step_ok E existing s4 E4. apply select_quiet in E4 as [Hu4 Hex].
    specialize (Hex existing eq_refl). step_ok E changed s5 E5. injection E as <- <-.
    pose proof (unchanged_trans _ _ _ Hu1 (unchanged_trans _ _ _ Hu3 Hu4)) as Hu.
    pose proof (unchanged_sessions _ _ (unchanged_trans _ _ _ Hu1 Hu3)) as Ht3. pose proof (unchanged_sessions _ _ Hu) as Ht.
    pose proof E5 as E6. apply clear_books_done in E5 as (Ho & Hrows & Hn); [|by rewrite Ht|done|].
    + rewrite Ht in Hrows, Hn. rewrite (unchanged_sessions _ _ Hu2). split_and!; [|exact Hrows| |lia].
      * eapply only_unchanged; [|exact Hu2]. by eapply unchanged_only.
      * rewrite <- Ht. by apply clear_books_counter in E6.
    + intros b' Hb0. rewrite Hex, Ht3, Ht. by apply first_by_book_latest.
Qed.

End requests.

(** ** The history under every mutation *)

Section histories.
Context `{DecimalOps} `{!DecimalMath} `{!InputDebug}.

(** What a mutation keeps. *)
Record keeps (user_id : str) (s s' : Shelf) : Prop := {
  kp_wf : sessions_wf (sh_sessions s');
  kp_series : sh_series s' = sh_series s;
  kp_others v m : v <> user_id ->
    List.filter (of_pair v m) (se_rows (sh_sessions s')) = List.filter (of_pair v m) (se_rows (sh_sessions s));
}.

Lemma keeps_unchanged user_id s s' : sessions_wf (sh_sessions s) -> unchanged s s' -> keeps user_id s s'.
Proof. by intros Hwf [fs ->]. Qed.

Lemma keeps_paces user_id m now s s' :
  sessions_wf (sh_sessions s) -> clock now (sh_sessions s) -> sh_series s' = sh_series s ->
  paces user_id m now (sh_sessions s) (sh_sessions s') -> keeps user_id s s'.
Proof.
  intros Hwf Hc Hs Hp. split; [apply Hp; [done|by apply clock_fresh]|done|].
  intros v m' Hv. apply (paces_pair _ _ _ _ _ _ _ Hp). congruence.
Qed.

Lemma keeps_removed user_id m p s s' :
  sessions_wf (sh_sessions s) ->
  only_sessions s (set_rows (sh_sessions s) (List.filter (fun r => negb (of_pair user_id m r && p r)) (se_rows (sh_sessions s)))) s' ->
  keeps user_id s s'.
Proof.
  intros Hwf Ho. pose proof (only_sessions_table _ _ _ Ho) as Ht.
  assert (Hp : paces user_id m 0 (sh_sessions s) (sh_sessions s')) by (rewrite Ht; apply delete_paces; by intros r [? _]%andb_true_iff).
  split; [rewrite Ht; by apply wf_filter|by destruct Ho as [fs ->]|]. intros v m' Hv. apply (paces_pair _ _ _ _ _ _ _ Hp). congruence.
Qed.

Lemma perform_keeps now user request s r s' :
  perform now user request s = (r, s') -> sessions_wf (sh_sessions s) -> series_ok s -> clock now (sh_sessions s) ->
  keeps (su_id user) s s'.
Proof.
  intros E Hwf Hser Hc. destruct request as [id input|id anc input|id|id|id dnf|id|id|id]; cbn [perform] in E;
    apply answering_cases in E as (r0 & E & _).
  - apply update_cases_media in E as [[Hu _]|(pages & duration & applied & fs & db & E)]; [by apply keeps_unchanged|].
    cbv zeta in E. destruct E as (_ & Hs & _ & _ & E). destruct (accepted applied).
    + destruct E as (row & sdb & sdb' & _ & Ht & Ht' & E). eapply (keeps_paces _ id now); [done..|].
      rewrite <- Ht, Ht'. pose proof (upsert_paces now user id (normalized input pages duration (input_reset_elapsed_seconds input)) sdb) as Hp.
      rewrite E in Hp. apply Hp. rewrite Ht. apply (sw_ids _ Hwf).
    + destruct E as [Ht _]. eapply (keeps_paces _ id now); [done..|]. by apply paces_refl.
  - apply accept_cases in E as [[Hu _]|(p & progression & row & sdb & sdb' & _ & Ho & Ht & E)]; [by apply keeps_unchanged|].
    set (doomed := fun r => of_pair (su_id user) id r && p r) in *.
    assert (Hp1 : paces (su_id user) id now (sh_sessions s) (sd_table sdb)).
    { rewrite Ht. apply (delete_paces _ _ _ _ doomed). by intros r' [? _]%andb_true_iff. }
    eapply (keeps_paces _ id now); [done|done|by destruct Ho as [fs ->]|]. rewrite (only_sessions_table _ _ _ Ho).
    eapply paces_after; [|exact Hp1|].
    + intros Hf a Ha. apply Hf. rewrite Ht in Ha. apply list_elem_of_In, filter_In in Ha as [Ha _]. by apply list_elem_of_In.
    + pose proof (upsert_paces now user id progression sdb) as Hp. rewrite E in Hp. apply Hp. rewrite Ht.
      apply (sw_ids (set_rows (sh_sessions s) _)). by apply wf_filter.
  - apply clear_cases in E as [Hu|(b & p & _ & Ho)]; [by apply keeps_unchanged|by eapply keeps_removed].
  - apply reset_media_cases in E as [[Hu _]|(b & _ & Ho)]; [by apply keeps_unchanged|].
    eapply (keeps_paces _ id now); [done|done|by destruct Ho as [fs ->]|]. rewrite (only_sessions_table _ _ _ Ho).
    unfold zeroed. destruct (latest_of _ _ _) as [session|]; [apply zero_paces|by apply paces_refl].
  - apply finish_cases in E as [[Hu _]|(_ & _ & Ho & _ & Hp & _)]; [by apply keeps_unchanged| |done|by apply clock_fresh].
    eapply (keeps_paces _ id now); [done|done|by destruct Ho as [fs ->]|done].
  - apply history_cases in E as [Hu|(n & p & _ & Ho)]; [by apply keeps_unchanged|by eapply keeps_removed].
  - apply finish_series_cases in E as [[Hu _]|(n & _ & Ho & Hf)]; [by apply keeps_unchanged| |done|by apply Hser|done].
    split; [apply Hf|by destruct Ho as [fs ->]|]. intros v m Hv. apply (fi_frame _ _ _ _ _ Hf). naive_solver.
  - apply clear_series_cases in E as [[Hu _]|(n & _ & Ho & Hrows & Hid & _)]; [by apply keeps_unchanged| |done|by apply Hser].
    split; [|by destruct Ho as [fs ->]|].
    + assert (Ht : sh_sessions s' = set_rows (sh_sessions s) (se_rows (sh_sessions s'))) by (unfold set_rows; rewrite <- Hid; by destruct (sh_sessions s')).
      rewrite Ht, Hrows. by apply wf_filter.
    + intros v m Hv. rewrite Hrows, filter_twice. apply filter_ext. intros r'. destruct (of_pair v m r') eqn:Hp; [|by rewrite andb_false_r].
      rewrite andb_true_r. apply of_pair_iff in Hp as [Hu _]. unfold of_books. by rewrite bool_decide_eq_false_2 by congruence.
Qed.

(** A request of one of the accounts [who], at a time past every session; or another part
    of the server, which does not write sessions. *)
Inductive progress_step (who : str -> Prop) : Shelf -> Shelf -> Prop :=
| request_step now user request s : who (su_id user) -> clock now (sh_sessions s) ->
    progress_step who s (perform now user request s).2
| server_step s s' : sh_sessions s' = sh_sessions s -> series_ok s' -> progress_step who s s'.

(** C3. The history of every book stays in order.  Whatever mutations the accounts [who]
    send, in whatever order, and whichever statements fail: the sessions of a book keep
    readthrough numbers from one on that never decrease in time, and a session that ended
    a readthrough is its last; and no session of any other account is created, changed or
    deleted. *)
Theorem history_numbered who s s' :
  sessions_wf (sh_sessions s) -> series_ok s -> rtc (progress_step who) s s' ->
  sessions_wf (sh_sessions s') /\
  forall v m, ~ who v ->
    List.filter (of_pair v m) (se_rows (sh_sessions s')) = List.filter (of_pair v m) (se_rows (sh_sessions s)).
Proof.
  intros Hwf Hser Hr. induction Hr as [s|s s1 s2 Hs Hr IH]; [done|].
  assert (Hk : sessions_wf (sh_sessions s1) /\ series_ok s1 /\ forall v m, ~ who v ->
    List.filter (of_pair v m) (se_rows (sh_sessions s1)) = List.filter (of_pair v m) (se_rows (sh_sessions s))).
  { destruct Hs as [now user request s Hw Hc|s s1 Ht Hok]; [|by rewrite Ht].
    destruct (perform now user request s) as [r s1] eqn:E. destruct (perform_keeps _ _ _ _ _ _ E Hwf Hser Hc) as [K1 K2 K3]. cbn [snd].
    split_and!; [done|unfold series_ok, series_books; by rewrite K2|]. intros v m Hv. apply K3. by intros ->. }
  destruct Hk as (Hwf1 & Hser1 & Hsame). destruct (IH Hwf1 Hser1) as [Hwf2 Hsame2]. split; [done|].
  intros v m Hv. by rewrite Hsame2, Hsame.
Qed.

(** C4. A mutation that fails does nothing.  When a request of a reader is answered with
    an error, whichever statement failed, the positions, their log and the sessions are as
    they were; with one exception, an update that is refused because the position is newer
    and that finds no session to return: it is answered with an error although its
    transaction was committed, and then it left one entry in the log and nothing else. *)
Theorem mutations_atomic now user request s e s' :
  sessions_wf (sh_sessions s) -> series_ok s -> clock now (sh_sessions s) ->
  perform now user request s = (Err e, s') ->
  unchanged s s' \/
  (exists id input event, request = UpdateProgress id input /\
     e = Message (lit "Rejected progress has no existing reading session") /\
     latest_of (su_id user) id (se_rows (sh_sessions s)) = None /\
     sh_sessions s' = sh_sessions s /\ db_heads (sh_reading s') = db_heads (sh_reading s) /\
     db_events (sh_reading s') = db_events (sh_reading s) ++ [event] /\ e_applied event = false).
Proof.
  intros Hwf Hser Hc E. destruct request as [id input|id anc input|id|id|id dnf|id|id|id]; cbn [perform] in E;
    apply answering_cases in E as (r0 & E & He); specialize (proj1 (He e) eq_refl) as ->.
  - apply update_cases_media in E as [[Hu _]|(pages & duration & applied & fs & db & E)]; [by left|]. right. cbv zeta in E.
    destruct E as (Ea & _ & Hh & Hev & E). apply apply_cases in Ea as [([=] & _)|(row & [= ->] & Hevs & _ & _ & Hout)].
    unfold accepted in E. cbn [a_outcome] in E. destruct (r_outcome _) eqn:Eo; [by destruct E as (? & ? & ? & [=] & _)|].
    cbn [bool_decide] in E. destruct E as [Ht Er]. destruct (latest_of _ _ _) eqn:El; [done|]. injection Er as ->.
    exists id, input. eexists. split_and!; [done..|by rewrite Hh, Hout|by rewrite Hev, Hevs|].
    unfold applied_event, event_of. cbn [e_applied]. by rewrite Eo.
  - apply accept_cases in E as [[Hu _]|(? & ? & ? & ? & ? & [=] & _)]. by left.
  - apply clear_cases in E as [Hu|(? & ? & [=] & _)]. by left.
  - apply reset_media_cases in E as [[Hu _]|(? & [=] & _)]. by left.
  - apply finish_cases in E as [[Hu _]|([=] & _)]; [by left|done|by apply clock_fresh].
  - apply history_cases in E as [Hu|(? & ? & [=] & _)]. by left.
  - apply finish_series_cases in E as [[Hu _]|(? & [=] & _)]; [by left|done|by apply Hser|done].
  - apply clear_series_cases in E as [[Hu _]|(? & [=] & _)]; [by left|done|by apply Hser].
Qed.

End histories.

(** ** Runs with a database that answers *)

Section totality.
Context `{DecimalOps} `{!DecimalMath} `{!InputDebug}.

Definition answers (s : Shelf) : Prop := shelf_faults s = [].

Lemma run_ask {A} (f : Shelf -> A) s : answers s -> ask f s = (Ok (f s), s).
Proof. unfold answers, ask. intros E. rewrite E. f_equal. destruct s as [[]]. cbn in *. by subst. Qed.

(** A statement on the sessions. *)
Lemma run_sessions {A} (run : Sessions -> result A ServiceError * Sessions) s a t :
  answers s -> run (sh_sessions s) = (Ok a, t) ->
  exists s1, of_sessions (on_table run) s = (Ok a, s1) /\ answers s1 /\ sh_sessions s1 = t.
Proof.
  intros Ha E. unfold of_sessions, on_table. cbn [sd_faults sd_table]. rewrite Ha, E. by eexists.
Qed.

Lemma run_select {A} (f : list SessionRow -> A) s :
  answers s -> exists s1, of_sessions (select f) s = (Ok (f (se_rows (sh_sessions s))), s1) /\ answers s1 /\ sh_sessions s1 = sh_sessions s.
Proof. intros Ha. by apply run_sessions. Qed.

Lemma run_update row s :
  answers s -> sn_id row ∈ sn_id <$> se_rows (sh_sessions s) ->
  exists s1, of_sessions (update_session row) s = (Ok row, s1) /\ answers s1 /\
    sh_sessions s1 = set_rows (sh_sessions s) (stored_as row <$> se_rows (sh_sessions s)).
Proof.
  intros Ha (r & Hid & Hr)%list_elem_of_fmap. apply run_sessions; [done|]. rewrite (proj2 (existsb_exists _ _)); [done|].
  exists r. split; [by apply list_elem_of_In|by apply Z.eqb_eq].
Qed.

Lemma run_insert now user_id media_id date number s :
  answers s -> se_next_id (sh_sessions s) <= i32_max ->
  let row := blank_session now user_id media_id date number (se_next_id (sh_sessions s)) in
  exists s1, of_sessions (insert_session (blank_session now user_id media_id date number)) s = (Ok row, s1) /\ answers s1 /\
    sh_sessions s1 = {| se_rows := se_rows (sh_sessions s) ++ [row]; se_next_id := se_next_id (sh_sessions s) + 1 |}.
Proof. intros Ha Hmax row. apply run_sessions; [done|]. cbn. by rewrite (proj2 (Z.ltb_ge _ _) Hmax). Qed.

Lemma stored_ids row (rows : list SessionRow) : sn_id <$> (stored_as row <$> rows) = sn_id <$> rows.
Proof.
  rewrite <- list_fmap_compose. apply list_fmap_ext. intros i r _. cbn. unfold stored_as. by destruct (Z.eqb_spec (sn_id r) (sn_id row)).
Qed.

Lemma finish_books_total now user books m changed s :
  answers s -> se_next_id (sh_sessions s) + Z.of_nat (length books) <= i32_max + 1 ->
  (forall b session, m !! b = Some session -> sn_id session ∈ sn_id <$> se_rows (sh_sessions s)) ->
  exists n s', finish_books now user books m changed s = (Ok n, s') /\ answers s'.
Proof.
  revert m changed s. induction books as [|[b pages] books IH]; intros m changed s Ha Hmax Hm; cbn [finish_books];
    destruct (preferences_of user) as [grace offset]; [by exists changed, s|]. cbn [length] in Hmax.
  (* a book whose session was opened *)
  assert (Hmark : forall open session s1, open s = (Ok session, s1) -> answers s1 -> se_next_id (sh_sessions s1) <= se_next_id (sh_sessions s) + 1 ->
    sn_id session ∈ sn_id <$> se_rows (sh_sessions s1) -> sn_id <$> se_rows (sh_sessions s) ⊆ sn_id <$> se_rows (sh_sessions s1) ->
    exists n s', (session <-- open ;; _ <-- of_sessions (update_session (marked now Finished (Some pages) session)) ;;
       finish_books now user books (delete b m) (changed + 1)) s = (Ok n, s') /\ answers s').
  { intros open session s1 E Ha1 Hn Hin Hsub. rewrite (db_bind_run _ _ _ _ _ E).
    destruct (run_update (marked now Finished (Some pages) session) s1 Ha1 Hin) as (s2 & E2 & Ha2 & Ht2). rewrite (db_bind_run _ _ _ _ _ E2).
    apply IH; [done|rewrite Ht2; cbn [se_next_id set_rows]; lia|]. intros b' r [_ Hb]%lookup_delete_Some. rewrite Ht2. cbn [se_rows set_rows].
    rewrite stored_ids. by apply Hsub, (Hm b'). }
  assert (Hopen : forall number, exists n s',
    (session <-- of_sessions (insert_session (blank_session now (su_id user) b (calculate_logical_date now offset) number)) ;;
     _ <-- of_sessions (update_session (marked now Finished (Some pages) session)) ;;
     finish_books now user books (delete b m) (changed + 1)) s = (Ok n, s') /\ answers s').
  { intros number. destruct (run_insert now (su_id user) b (calculate_logical_date now offset) number s Ha) as (s1 & E1 & Ha1 & Ht1); [lia|].
    apply (Hmark _ _ _ E1 Ha1); rewrite Ht1; cbn [se_rows se_next_id]; [done| |]; rewrite fmap_app; set_solver. }
  destruct (m !! b) as [session|] eqn:Eb; [|apply Hopen]. destruct (is_finalized session).
  - apply IH; [done|lia|]. intros b' r [_ Hb]%lookup_delete_Some. by apply (Hm b').
  - destruct (should_extend_session_at session grace now); [|apply Hopen]. apply (Hmark _ session s); [done|done|lia|by apply (Hm b)|done].
Qed.

Lemma clear_books_total user books m deleted s :
  answers s -> exists n s', clear_books user books m deleted s = (Ok n, s') /\ answers s'.
Proof.
  revert m deleted s. induction books as [|b books IH]; intros m deleted s Ha; cbn [clear_books]; [by exists deleted, s|].
  destruct (m !! b) as [session|]; [|by apply IH].
  match goal with |- context [delete_sessions ?p] => set (doomed := p) end.
  destruct (run_sessions (fun t => (Ok (Z.of_nat (length (List.filter doomed (se_rows t)))),
    set_rows t (List.filter (fun r => negb (doomed r)) (se_rows t)))) s _ _ Ha eq_refl) as (s1 & E1 & Ha1 & _).
  rewrite (db_bind_run _ _ _ _ _ E1). by apply IH.
Qed.

Lemma run_transaction {A} (body : Mutation (Ending A)) s ending s1 :
  answers s -> body s = (Ok ending, s1) -> answers s1 ->
  exists a s', in_transaction body s = (Ok a, s').
Proof.
  intros Ha E Ha1. unfold in_transaction. rewrite (db_bind_run _ _ _ _ _ (run_ask (fun _ => tt) s Ha)), E.
  destruct ending as [a|a]; [|by eexists _, _]. rewrite (run_ask (fun _ => tt) s1 Ha1). by eexists _, _.
Qed.

Lemma sessions_of_books_in user_id books rows b session :
  first_by_book (sessions_of_books user_id books rows) !! b = Some session -> session ∈ rows.
Proof.
  rewrite first_by_book_lookup. intros [Hr _]%find_some. apply list_elem_of_In in Hr. unfold sessions_of_books, newest_first in Hr.
  rewrite merge_sort_Permutation in Hr. apply list_elem_of_In, filter_In in Hr as [Hr _]. by apply list_elem_of_In.
Qed.

Lemma finish_series_total now user id s :
  answers s -> se_next_id (sh_sessions s) + Z.of_nat (length (series_books (su_id user) id s)) <= i32_max + 1 ->
  exists n s', finish_series_progress now user id s = (Ok n, s').
Proof.
  unfold series_books. intros Ha Hmax. unfold finish_series_progress.
  set (books := default [] (sh_series s !! (su_id user, id))) in *.
  match goal with |- context [in_transaction ?body] => assert (Hbody : exists ending s1, body s = (Ok ending, s1) /\ answers s1) end;
    [|destruct Hbody as (ending & s1 & E & Ha1); by apply (run_transaction _ _ _ _ Ha E)].
  rewrite (db_bind_run _ _ _ _ _ (run_ask _ s Ha)). fold books. destruct books as [|b books]; [by eexists _, _|].
  destruct (run_select (sessions_of_books (su_id user) (b :: books).*1) s Ha) as (s1 & E1 & Ha1 & Ht1). rewrite (db_bind_run _ _ _ _ _ E1).
  destruct (finish_books_total now user (b :: books) (first_by_book (sessions_of_books (su_id user) (b :: books).*1 (se_rows (sh_sessions s)))) 0 s1)
    as (n & s2 & E2 & Ha2); [done|rewrite Ht1; by rewrite length_fmap in Hmax| |rewrite (db_bind_run _ _ _ _ _ E2); by eexists _, _].
  intros b' session Hb. rewrite Ht1. by eapply list_elem_of_fmap_2, sessions_of_books_in.
Qed.

Lemma clear_series_total user id s : answers s -> exists n s', clear_series_reading_history user id s = (Ok n, s').
Proof.
  intros Ha. unfold clear_series_reading_history.
  match goal with |- context [in_transaction ?body] => assert (Hbody : exists ending s1, body s = (Ok ending, s1) /\ answers s1) end;
    [|destruct Hbody as (ending & s1 & E & Ha1); by apply (run_transaction _ _ _ _ Ha E)].
  rewrite (db_bind_run _ _ _ _ _ (run_ask _ s Ha)). destruct (default [] (sh_series s !! (su_id user, id))).*1 as [|b books]; [by eexists _, _|].
  destruct (run_select (sessions_of_books (su_id user) (b :: books)) s Ha) as (s1 & E1 & Ha1 & Ht1). rewrite (db_bind_run _ _ _ _ _ E1).
  destruct (clear_books_total user (b :: books) (first_by_book (sessions_of_books (su_id user) (b :: books) (se_rows (sh_sessions s)))) 0 s1 Ha1)
    as (n & s2 & E2 & Ha2). rewrite (db_bind_run _ _ _ _ _ E2). by eexists _, _.
Qed.

End totality.

(** ** What a reader gets *)

Section readers.
Context `{DecimalOps} `{!DecimalMath} `{!InputDebug}.

Lemma head_update_completed input pages duration reset :
  u_completed (head_update input pages duration) = then_some (np_did_complete (normalized input pages duration reset)) true.
Proof. by destruct input. Qed.

Lemma head_update_stump input pages duration :
  u_protocol (head_update input pages duration) = Stump /\ u_updated_at (head_update input pages duration) = None.
Proof. by destruct input. Qed.

(** C5. The position and the history agree.  When an update of the progress of a book is
    answered with a session, that session is the latest of the book.  Either the position
    was moved now, by this lane, and is completed if the session is; or another device
    had moved it to a time beyond the clock, and then neither the positions nor the
    sessions changed.  The positions and the sessions of other books and accounts are as
    they were. *)
Theorem update_consistent now user id input s row s' :
  sessions_wf (sh_sessions s) -> clock now (sh_sessions s) ->
  update_media_progress now user id input s = (Ok row, s') ->
  let key := (su_id user, id) in
  latest_of (su_id user) id (se_rows (sh_sessions s')) = Some row /\
  ((exists h, db_heads (sh_reading s') !! key = Some h /\ h_updated_at h = now /\ h_changed_at h = now /\
      h_source_protocol h = Stump /\ (is_complete row = true -> h_completed h = true)) \/
   (sh_sessions s' = sh_sessions s /\ db_heads (sh_reading s') = db_heads (sh_reading s) /\
    exists h, db_heads (sh_reading s) !! key = Some h /\ now + seconds STALE_TOLERANCE_SECS < h_updated_at h)) /\
  (forall key', key' <> key -> db_heads (sh_reading s') !! key' = db_heads (sh_reading s) !! key') /\
  (forall u m, (u, m) <> key ->
     List.filter (of_pair u m) (se_rows (sh_sessions s')) = List.filter (of_pair u m) (se_rows (sh_sessions s))).
Proof.
  intros Hwf Hc E key. apply update_cases_media in E as [[_ [e [=]]]|(pages & duration & applied & fs & db & E)]. cbv zeta in E.
  destruct E as (Ea & _ & Hh & _ & E). rewrite Hh. destruct (head_update_stump input pages duration) as [Hstump Hat].
  apply apply_cases in Ea as [([=] & _)|(h & [= ->] & _ & _ & Hrow & Hout)]. cbn [pub_media_id] in Hrow, Hout. fold key in Hrow, Hout.
  unfold accepted in E. cbn [a_outcome] in E. destruct (r_outcome _) eqn:Eo; cbn [bool_decide] in E.
  - destruct E as (row' & sdb & sdb' & [= <-] & Ht & Ht' & E). destruct Hout as [Hhead Hheads].
    apply upsert_cases in E as [(? & [=] & _)|(? & [= <-] & Hu)]. rewrite Ht in Hu.
    split; [rewrite Ht'; eapply upserts_latest; [done|by apply clock_fresh|exact Hu]|]. split; [left|split].
    + exists h. split; [done|]. rewrite Hhead. unfold applied_head, next_head. cbn [h_updated_at h_changed_at h_source_protocol h_completed].
      rewrite Hat, Hstump. split_and!; [done..|]. rewrite (upserts_complete _ _ _ _ _ _ _ Hu). intros Hdone.
      unfold resolution, resolve in *. cbn [pub_media_id] in *. rewrite project_completed, (head_update_completed _ _ _ (input_reset_elapsed_seconds input)), Hdone in *.
      destruct (head_state <$> _) as [hs|]; [|done]. by destruct (is_stale _ _ _).
    + intros key' Hne. rewrite Hheads. by rewrite lookup_insert_ne.
    + intros u m Hne. rewrite Ht'. eapply paces_pair; [|exact Hne]. eapply (upserts_paces now); [apply (sw_ids _ Hwf)|exact Hu].
  - destruct E as [Ht Er]. rewrite Ht, Hout. cbn [set_shelf_faults sh_reading db_heads].
    destruct (latest_of (su_id user) id (se_rows (sh_sessions s))) as [latest|]; [|done]. injection Er as ->. split; [done|]. split; [right|done].
    split_and!; [done|done|]. unfold resolution, resolve in Eo. cbn [pub_media_id set_shelf_faults sh_reading db_heads] in Eo. fold key in Eo.
    destruct (db_heads (sh_reading s) !! key) as [h0|]; [|done]. exists h0. split; [done|]. cbn [fmap option_fmap option_map] in Eo.
    destruct (is_stale _ _ _) eqn:Es; [|done]. apply andb_true_iff in Es as [Es%Z.ltb_lt _]. rewrite Hat in Es. cbn in Es |- *. lia.
Qed.

(** Marking a series as read.  With a database that answers, the call goes through;
    and then every book of the series that was not marked has a latest session that says
    finished, the answer is how many there were, and everything else is as it was: the
    sessions of the books that were marked before, of other books and accounts, and the
    positions. *)
Theorem finish_series_exact now user id s :
  let books := series_books (su_id user) id s in
  sessions_wf (sh_sessions s) -> NoDup books -> clock now (sh_sessions s) ->
  (answers s -> se_next_id (sh_sessions s) + Z.of_nat (length books) <= i32_max + 1 ->
   exists n s', finish_series_progress now user id s = (Ok n, s')) /\
  forall n s', finish_series_progress now user id s = (Ok n, s') ->
    (forall b, b ∈ books -> unmarked (su_id user) (sh_sessions s) b = true ->
       exists r, latest_of (su_id user) b (se_rows (sh_sessions s')) = Some r /\ is_complete r = true) /\
    n = Z.of_nat (length (List.filter (unmarked (su_id user) (sh_sessions s)) books)) /\
    (forall u m, ~ (u = su_id user /\ m ∈ books /\ unmarked (su_id user) (sh_sessions s) m = true) ->
       List.filter (of_pair u m) (se_rows (sh_sessions s')) = List.filter (of_pair u m) (se_rows (sh_sessions s))) /\
    only_sessions s (sh_sessions s') s'.
Proof.
  intros books Hwf Hnd Hc. split; [intros Ha Hmax; by apply finish_series_total|]. intros n s' E.
  apply finish_series_cases in E as [[_ [e [=]]]|(n' & [= <-] & Ho & [F1 F2 F3 F4])]; done.
Qed.

(** Clearing the history of a series.  With a database that answers, the call goes
    through; and then what is left of the sessions is exactly those that are not of the
    account and the series, and those of the readthrough a book is in the middle of; the
    answer is how many were deleted, and the positions are as they were. *)
Theorem clear_series_exact user id s :
  let books := series_books (su_id user) id s in
  sessions_wf (sh_sessions s) -> NoDup books ->
  (answers s -> exists n s', clear_series_reading_history user id s = (Ok n, s')) /\
  forall n s', clear_series_reading_history user id s = (Ok n, s') ->
    (forall r, r ∈ se_rows (sh_sessions s') <->
       r ∈ se_rows (sh_sessions s) /\
       (~ (sn_user_id r = su_id user /\ sn_media_id r ∈ books) \/
        exists current, latest_of (sn_user_id r) (sn_media_id r) (se_rows (sh_sessions s)) = Some current /\
          is_finalized current = false /\ sn_readthrough_number r = sn_readthrough_number current)) /\
    n = Z.of_nat (length (se_rows (sh_sessions s))) - Z.of_nat (length (se_rows (sh_sessions s'))) /\
    only_sessions s (sh_sessions s') s'.
Proof.
  intros books Hwf Hnd. split; [intros Ha; by apply clear_series_total|]. intros n s' E.
  apply clear_series_cases in E as [[_ [e [=]]]|(n' & [= <-] & Ho & Hrows & _ & Hn)]; [|done|done]. split_and!; [|done|done].
  intros r. rewrite Hrows, list_elem_of_In, filter_In, <- list_elem_of_In, orb_true_iff, negb_true_iff.
  assert (Hof : of_books (su_id user) books r = false <-> ~ (sn_user_id r = su_id user /\ sn_media_id r ∈ books)).
  { unfold of_books. rewrite andb_false_iff, !bool_decide_eq_false. destruct (decide (sn_user_id r = su_id user)), (decide (sn_media_id r ∈ books)); naive_solver. }
  fold books. rewrite Hof. unfold ongoing. destruct (latest_of _ _ _) as [current|]; [|naive_solver].
  rewrite andb_true_iff, negb_true_iff, Z.eqb_eq. naive_solver.
Qed.

End readers.

(** ** Concrete inputs *)

#[local] Existing Instance fixed_ops.
#[local] Existing Instance fixed_math.

Definition plain_debug : InputDebug := {| debug_input _ := lit "input" |}.

#[local] Existing Instance plain_debug.

Definition demo_shelf (faults : list bool) : Shelf :=
  {| sh_reading := empty_db faults; sh_sessions := sd_table no_sessions;
     sh_pages := {[ lit "m" := 10; lit "n" := 20 ]}; sh_durations := ∅;
     sh_series := {[ (lit "u", lit "s") := [(lit "m", 10); (lit "n", 20)] ]} |}.

Definition turn_to (page : Z) : MediaProgressInput :=
  Paged {| pg_page := page; pg_elapsed_seconds_delta := Some 60; pg_device_id := None; pg_reset_elapsed_seconds := None |}.

Lemma demo_clock now faults : clock now (sh_sessions (demo_shelf faults)).
Proof. intros r Hr. by apply elem_of_nil in Hr. Qed.

Lemma demo_series_ok faults : series_ok (demo_shelf faults).
Proof.
  intros u i. unfold series_books. cbn [sh_series demo_shelf]. destruct (decide ((u, i) = (lit "u", lit "s"))) as [->|Hne].
  - rewrite lookup_singleton_eq. cbn. apply NoDup_cons. split; [|apply NoDup_singleton]. by intros ?%list_elem_of_singleton.
  - rewrite lookup_singleton_ne by done. constructor.
Qed.

Definition demo_read : Request := UpdateProgress (lit "m") (turn_to 4).

Lemma history_numbered_witness :
  sessions_wf (sh_sessions (perform 100 demo_account demo_read (demo_shelf [])).2).
Proof.
  refine (proj1 (history_numbered (fun u => u = lit "u") (demo_shelf []) _ no_sessions_wf (demo_series_ok []) _)).
  apply rtc_once, request_step; [reflexivity|apply demo_clock].
Defined.

Lemma mutations_atomic_witness :
  match perform 100 demo_account (ResetElapsed (lit "m")) (demo_shelf [false; true]) with
  | (Err e, s') =>
      unchanged (demo_shelf [false; true]) s' \/
      exists id input event, ResetElapsed (lit "m") = UpdateProgress id input /\
        e = Message (lit "Rejected progress has no existing reading session") /\
        latest_of (su_id demo_account) id (se_rows (sh_sessions (demo_shelf [false; true]))) = None /\
        sh_sessions s' = sh_sessions (demo_shelf [false; true]) /\
        db_heads (sh_reading s') = db_heads (sh_reading (demo_shelf [false; true])) /\
        db_events (sh_reading s') = db_events (sh_reading (demo_shelf [false; true])) ++ [event] /\ e_applied event = false
  | (Ok _, _) => False
  end.
Proof.
  assert (Hr : is_ok (perform 100 demo_account (ResetElapsed (lit "m")) (demo_shelf [false; true])).1 = false) by (by vm_compute).
  destruct (perform 100 demo_account (ResetElapsed (lit "m")) (demo_shelf [false; true])) as [[a|e] s'] eqn:E.
  - discriminate Hr.
  - exact (mutations_atomic 100 demo_account (ResetElapsed (lit "m")) (demo_shelf [false; true]) e s'
      no_sessions_wf (demo_series_ok _) (demo_clock _ _) E).
Defined.

Lemma update_consistent_witness :
  match update_media_progress 100 demo_account (lit "m") (turn_to 4) (demo_shelf []) with
  | (Ok row, s') => latest_of (lit "u") (lit "m") (se_rows (sh_sessions s')) = Some row
  | (Err _, _) => False
  end.
Proof.
  assert (Hr : is_ok (update_media_progress 100 demo_account (lit "m") (turn_to 4) (demo_shelf [])).1 = true) by (by vm_compute).
  destruct (update_media_progress 100 demo_account (lit "m") (turn_to 4) (demo_shelf [])) as [[row|e] s'] eqn:E.
  - exact (proj1 (update_consistent 100 demo_account (lit "m") (turn_to 4) (demo_shelf []) row s' no_sessions_wf (demo_clock _ _) E)).
  - discriminate Hr.
Defined.

Lemma finish_series_exact_witness :
  exists n s', finish_series_progress 100 demo_account (lit "s") (demo_shelf []) = (Ok n, s') /\ n = 2.
Proof.
  destruct (finish_series_exact 100 demo_account (lit "s") (demo_shelf []) no_sessions_wf (demo_series_ok _ _ _) (demo_clock _ _)) as [Hrun Hall].
  destruct Hrun as (n & s' & E); [reflexivity|by vm_compute|]. exists n, s'. split; [exact E|].
  destruct (Hall n s' E) as (_ & -> & _). reflexivity.
Defined.

(** A book of the series, finished in two sittings on two days. *)
Definition two_days : Shelf :=
  let s1 := (perform 100 demo_account demo_read (demo_shelf [])).2 in
  (perform (100 + nanos_per_day) demo_account (UpdateProgress (lit "m") (turn_to 10)) s1).2.

Lemma two_days_ok : sessions_wf (sh_sessions two_days) /\ series_ok two_days.
Proof.
  assert (H1 : keeps (lit "u") (demo_shelf []) (perform 100 demo_account demo_read (demo_shelf [])).2).
  { destruct (perform 100 demo_account demo_read (demo_shelf [])) as [r s1] eqn:E.
    exact (perform_keeps _ demo_account _ _ _ _ E no_sessions_wf (demo_series_ok _) (demo_clock _ _)). }
  unfold two_days. cbv zeta. set (s1 := (perform 100 _ _ _).2) in *. destruct H1 as [W1 S1 _].
  assert (O1 : series_ok s1) by (unfold series_ok, series_books; rewrite S1; apply (demo_series_ok [])).
  assert (C1 : forallb (fun r => sn_created_at r <? 100 + nanos_per_day) (se_rows (sh_sessions s1)) = true) by (by vm_compute).
  destruct (perform (100 + nanos_per_day) demo_account (UpdateProgress (lit "m") (turn_to 10)) s1) as [r s2] eqn:E.
  apply perform_keeps in E as [W2 S2 _]; [|done|done|].
  - split; [done|]. unfold series_ok, series_books. cbn [snd]. rewrite S2. exact O1.
  - intros r' Hr'. rewrite forallb_forall in C1. apply Z.ltb_lt, C1. by apply list_elem_of_In.
Qed.

Lemma clear_series_exact_witness :
  exists n s', clear_series_reading_history demo_account (lit "s") two_days = (Ok n, s') /\ n = 2 - Z.of_nat (length (se_rows (sh_sessions s'))).
Proof.
  destruct (clear_series_exact demo_account (lit "s") two_days (proj1 two_days_ok) (proj2 two_days_ok _ _)) as [Hrun Hall].
  destruct Hrun as (n & s' & E); [reflexivity|]. exists n, s'. split; [exact E|].
  destruct (Hall n s' E) as (_ & -> & _). reflexivity.
Defined.

(** Deleting the history of a book keeps a finished readthrough of several sittings: the
    earlier of them count as the current one.  Clearing the history of its series deletes
    both. *)
Example history_survives :
  (delete_media_reading_history demo_account (lit "m") two_days).1 = Ok 0 /\
  (clear_series_reading_history demo_account (lit "s") two_days).1 = Ok 2.
Proof. split; vm_compute; reflexivity. Qed.

(** An update that starts a new readthrough and asks for the time to be reset drops the
    time of the readthrough that was finished. *)
Example reset_erases_finished :
  let again := Paged {| pg_page := 1; pg_elapsed_seconds_delta := Some 60; pg_device_id := None; pg_reset_elapsed_seconds := Some true |} in
  (fun r => (sn_readthrough_number r, sn_elapsed_seconds r)) <$>
    se_rows (sh_sessions (perform (100 + 2 * nanos_per_day) demo_account (UpdateProgress (lit "m") again) two_days).2)
  = [(1, Some 0); (1, Some 0); (2, Some 60)].
Proof. by vm_compute. Qed.
