(* ===== verification/Sequence.v ===== *)
(** * Chapter and volume sequences in file names

    Models [src/crates/scanner/src/sequence.rs], the single sequence parser of the
    workspace: cleaning a file name, tokenising it, picking its chapter or volume
    identifier, the changing-number fallback, and gap detection over a folder.

    Names are strings of Unicode scalar values; the tokeniser works on their UTF-8
    bytes, by index, as the code does. *)

From stdpp Require Import base sets list strings sorting.
From Stdlib Require Import ZArith Lia.
From S2P Require Import Prelude.

#[local] Open Scope Z_scope.

Definition MAX_RANGE_LEN : Z := 500.
Definition MAX_SEQUENCE_SPAN : Z := 10000.

Inductive SequenceKind := Chapter | Volume.

#[export] Instance SequenceKind_eq_dec : EqDecision SequenceKind.
Proof. solve_decision. Defined.

Definition kind_as_str (k : SequenceKind) : str :=
  match k with Chapter => lit "chapter" | Volume => lit "volume" end.

(** ** Fixed-point sequence numbers: thousandths *)

Abbreviation SequenceNumber := Z (only parsing).

Definition SCALE : Z := 1000.
Definition from_integer (value : Z) : SequenceNumber := value * SCALE.
Definition from_thousandths (value : Z) : SequenceNumber := value.
Definition thousandths (n : SequenceNumber) : Z := n.

(** [div_euclid] and [rem_euclid] by a positive divisor are floor division. *)
Definition integer_part (n : SequenceNumber) : Z := n / SCALE.

(** [%] truncates; it is zero exactly when the division is exact. *)
Definition is_integer (n : SequenceNumber) : bool := Z.rem n SCALE =? 0.

(** [{fraction:03}]: zero-padded to three digits. *)
Definition pad3 (n : Z) : str := [n / 100 + 48; n / 10 mod 10 + 48; n mod 10 + 48].

Definition number_fmt (n : SequenceNumber) : str :=
  let whole := integer_part n in
  let fraction := n mod SCALE in
  if fraction =? 0 then show_Z whole
  else show_Z whole ++ [46] ++ drop_while_end (Z.eqb 48) (pad3 fraction).

Record SequenceRange := { rg_start : Z; rg_end : Z }.

Definition range_fmt (r : SequenceRange) : str :=
  if rg_start r =? rg_end r then show_Z (rg_start r)
  else show_Z (rg_start r) ++ [45] ++ show_Z (rg_end r).

Inductive SequenceSource := Identifier | Fallback | Unidentified.

#[export] Instance SequenceSource_eq_dec : EqDecision SequenceSource.
Proof. solve_decision. Defined.

Definition source_as_str (s : SequenceSource) : str :=
  match s with
  | Identifier => lit "identifier"
  | Fallback => lit "fallback"
  | Unidentified => lit "unidentified"
  end.

Record ParsedIdentifier := {
  pi_kind : SequenceKind;
  pi_start : SequenceNumber;
  pi_end : SequenceNumber;
}.

Record SequenceEntry := {
  se_name : str;
  se_kind : option SequenceKind;
  se_source : SequenceSource;
  se_span : option (SequenceNumber * SequenceNumber);
}.

Record SequenceAnalysis := {
  sa_kind : option SequenceKind;
  sa_source : SequenceSource;
  sa_entries : list SequenceEntry;
  sa_found_ranges : list SequenceRange;
  sa_missing : list Z;
  sa_decimals : list SequenceNumber;
  sa_unidentified : list str;
  sa_span_exceeded : bool;
}.

(** ** Cleaning a file name *)

(** [str::rsplit_once]. *)
Definition rsplit_once (c : Z) (s : str) : option (str * str) :=
  let tail := rev (take_while (fun x => negb (x =? c)) (rev s)) in
  if (length tail =? length s)%nat then None
  else Some (take (length s - length tail - 1) s, tail).

Definition strip_extension (name : str) : str :=
  match rsplit_once 46 name with
  | Some (stem, extension) =>
      if negb (is_none (List.hd_error stem))
         && (1 <=? str_len extension) && (str_len extension <=? 5)
         && forallb is_ascii_alphanumeric extension
         && existsb is_ascii_alphabetic extension
      then stem else name
  | None => name
  end.

(** The output is kept in order; [ends_with(' ')] looks at its last character. *)
Definition ends_space (cleaned : str) : bool :=
  match last cleaned with Some c => c =? 32 | None => false end.

Definition push_space (cleaned : str) : str :=
  if negb (is_none (List.hd_error cleaned)) && negb (ends_space cleaned)
  then cleaned ++ [32] else cleaned.

Definition clean_step (st : str * nat) (character : Z) : str * nat :=
  let '(cleaned, depth) := st in
  if (character =? 40) || (character =? 91) then (push_space cleaned, S depth)
  else if (character =? 41) || (character =? 93) then (push_space cleaned, Nat.pred depth)
  else if (0 <? depth)%nat then (cleaned, depth)
  else if is_whitespace character || (character =? 95) then (push_space cleaned, depth)
  else (cleaned ++ [character], depth).

Definition clean_name (file_name : str) : str :=
  let name := trim (default file_name (last (split_on (fun c => (c =? 47) || (c =? 92)) file_name))) in
  let stem := strip_extension name in
  let '(cleaned, _) := fold_left clean_step stem ([], 0%nat) in
  drop_while_end (Z.eqb 32) cleaned.

(** ** Tokenising *)

Inductive Token :=
| Word (start end_ : nat)
| Number (start end_ : SequenceNumber).

(** [while index < bytes.len() && p(bytes[index]) { index += 1 }]. *)
Definition skip_while (p : Z -> bool) (bytes : list Z) (index : nat) : nat :=
  index + length (take_while p (drop index bytes)).

(** [bytes[start..end]]. *)
Definition slice (bytes : list Z) (start end_ : nat) : list Z :=
  take (end_ - start) (drop start bytes).

(** The fraction digits, until the scale runs out. *)
Fixpoint scan_fraction (digits : list Z) (number scale : Z) : Z :=
  match digits with
  | [] => number
  | byte :: digits' =>
      if scale =? 0 then number
      else scan_fraction digits' (number + (byte - 48) * scale) (scale / 10)
  end.

Definition byte_is (p : Z -> bool) (bytes : list Z) (index : nat) : bool :=
  match bytes !! index with Some b => p b | None => false end.

Definition scan_decimal (bytes : list Z) (index : nat) : option SequenceNumber * nat :=
  let start := index in
  let index := skip_while is_ascii_digit bytes index in
  if (index =? start)%nat then (None, index)
  else if (9 <? index - start)%nat then (None, index)
  else
    let value := dec_value (slice bytes start index) in
    let number := value * SCALE in
    if byte_is (Z.eqb 46) bytes index && byte_is is_ascii_digit bytes (index + 1) then
      let fraction_start := (index + 1)%nat in
      let index := skip_while is_ascii_digit bytes fraction_start in
      (Some (from_thousandths
               (scan_fraction (slice bytes fraction_start index) number (SCALE / 10))), index)
    else (Some (from_thousandths number), index).

Definition scan_span (bytes : list Z) (index : nat)
  : option (SequenceNumber * SequenceNumber) * nat :=
  match scan_decimal bytes index with
  | (None, after_start) => (None, after_start)
  | (Some start, after_start) =>
      let single := (Some (start, start), after_start) in
      let probe := skip_while (Z.eqb 32) bytes after_start in
      if byte_is (fun b => (b =? 45) || (b =? 126)) bytes probe then
        let probe := skip_while (Z.eqb 32) bytes (probe + 1) in
        match scan_decimal bytes probe with
        | (Some end_, after_end) =>
            if (start <=? end_) && (integer_part end_ - integer_part start <=? MAX_RANGE_LEN)
            then (Some (start, end_), after_end) else single
        | (None, _) => single
        end
      else single
  end.

(** The loop, with fuel; [tokenize] gives it one unit per byte, which is enough
    because every iteration advances the index. *)
Fixpoint tokenize_from (fuel : nat) (bytes : list Z) (index : nat) : list Token :=
  match fuel with
  | O => []
  | S fuel' =>
      match bytes !! index with
      | None => []
      | Some b =>
          if is_ascii_alphabetic b then
            let next := skip_while is_ascii_alphabetic bytes index in
            Word index next :: tokenize_from fuel' bytes next
          else if is_ascii_digit b then
            let '(span, next) := scan_span bytes index in
            let rest := tokenize_from fuel' bytes (Nat.max next (index + 1)) in
            match span with
            | Some (start, end_) => Number start end_ :: rest
            | None => rest
            end
          else tokenize_from fuel' bytes (index + 1)
      end
  end.

Definition tokenize (cleaned : str) : list Token :=
  let bytes := as_bytes cleaned in
  tokenize_from (length bytes) bytes 0.

(** ** Identifiers *)

Definition CHAPTER : list str :=
  lit <$> ["chapter"; "chap"; "ch"; "c"; "episode"; "ep"]%string.
Definition VOLUME : list str := lit <$> ["volume"; "vol"; "v"]%string.

Definition identifier_kind (word : str) : option SequenceKind :=
  if existsb (eq_ignore_ascii_case word) CHAPTER then Some Chapter
  else if existsb (eq_ignore_ascii_case word) VOLUME then Some Volume
  else None.

(** [only.is_none_or(|only| only == kind)]. *)
Definition kind_allowed (only : option SequenceKind) (kind : SequenceKind) : bool :=
  match only with None => true | Some k => bool_decide (k = kind) end.

(** The candidate an adjacent word and number make. *)
Definition candidate_at (bytes : list Z) (only : option SequenceKind) (tokens : list Token)
  : option ParsedIdentifier :=
  match tokens with
  | Word start end_ :: Number number_start number_end :: _ =>
      match identifier_kind (slice bytes start end_) with
      | Some kind =>
          if kind_allowed only kind
          then Some {| pi_kind := kind; pi_start := number_start; pi_end := number_end |}
          else None
      | None => None
      end
  | _ => None
  end.

(** Chapters outrank volumes; within one kind the right-most wins. *)
Definition better (best : option ParsedIdentifier) (candidate : ParsedIdentifier)
  : option ParsedIdentifier :=
  match best with
  | Some previous =>
      if bool_decide (pi_kind previous = Chapter) && bool_decide (pi_kind candidate = Volume)
      then Some previous else Some candidate
  | None => Some candidate
  end.

Fixpoint best_from (bytes : list Z) (only : option SequenceKind) (tokens : list Token)
    (best : option ParsedIdentifier) : option ParsedIdentifier :=
  match tokens with
  | [] => best
  | _ :: rest =>
      best_from bytes only rest
        (match candidate_at bytes only tokens with
         | Some candidate => better best candidate
         | None => best
         end)
  end.

Definition best_identifier (cleaned : str) (only : option SequenceKind)
  : option ParsedIdentifier :=
  best_from (as_bytes cleaned) only (tokenize cleaned) None.

Definition parse_identifier (file_name : str) : option ParsedIdentifier :=
  best_identifier (clean_name file_name) None.

Definition parse_identifier_of (file_name : str) (kind : SequenceKind)
  : option ParsedIdentifier :=
  best_identifier (clean_name file_name) (Some kind).

Fixpoint folder_kind_from (identifiers : list (option ParsedIdentifier))
    (volume : option SequenceKind) : option SequenceKind :=
  match identifiers with
  | [] => volume
  | None :: rest => folder_kind_from rest volume
  | Some identifier :: rest =>
      match pi_kind identifier with
      | Chapter => Some Chapter
      | Volume => folder_kind_from rest (Some Volume)
      end
  end.

Definition folder_kind (identifiers : list (option ParsedIdentifier)) : option SequenceKind :=
  folder_kind_from identifiers None.

(** ** Entries *)

Definition unidentified_entry (name : str) : SequenceEntry :=
  {| se_name := name; se_kind := None; se_source := Unidentified; se_span := None |}.

Definition identifier_entry (kind : SequenceKind) (ni : str * option ParsedIdentifier)
  : SequenceEntry :=
  match ni.2 with
  | Some identifier =>
      if bool_decide (pi_kind identifier = kind) then
        {| se_name := ni.1; se_kind := Some kind; se_source := Identifier;
           se_span := Some (pi_start identifier, pi_end identifier) |}
      else unidentified_entry ni.1
  | None => unidentified_entry ni.1
  end.

Definition identifier_entries (file_names : list str)
    (identifiers : list (option ParsedIdentifier)) (kind : SequenceKind) : list SequenceEntry :=
  identifier_entry kind <$> zip file_names identifiers.

Definition numbers_in (cleaned : str) : list (SequenceNumber * SequenceNumber) :=
  omap (fun token => match token with Number start end_ => Some (start, end_) | Word _ _ => None end)
    (tokenize cleaned).

(** [numbers.len().checked_sub(position + 1).and_then(|i| numbers.get(i))]. *)
Definition from_right {A} (numbers : list A) (position : nat) : option A :=
  if (position + 1 <=? length numbers)%nat
  then numbers !! (length numbers - (position + 1))%nat else None.

(** [(distinct.len(), coverage)] of one position. *)
Definition position_score (spans : list (list (SequenceNumber * SequenceNumber)))
    (position : nat) : nat * nat :=
  let starts := omap (fun numbers => fst <$> from_right numbers position) spans in
  (length (remove_dups starts), length starts).

Definition score_ge (a b : nat * nat) : bool :=
  (b.1 <? a.1)%nat || ((a.1 =? b.1)%nat && (b.2 <=? a.2)%nat).

Fixpoint best_position (spans : list (list (SequenceNumber * SequenceNumber)))
    (positions : list nat) (best : option ((nat * nat) * nat)) : option ((nat * nat) * nat) :=
  match positions with
  | [] => best
  | position :: rest =>
      let score := position_score spans position in
      let best' :=
        if (score.2 =? 0)%nat then best
        else match best with
             | Some current => if score_ge current.1 score then best else Some (score, position)
             | None => Some (score, position)
             end in
      best_position spans rest best'
  end.

Definition changing_position (spans : list (list (SequenceNumber * SequenceNumber)))
  : option nat :=
  let longest := foldr Nat.max 0%nat (length <$> spans) in
  snd <$> best_position spans (seq 0 longest) None.

Definition fallback_entry (position : nat) (ns : str * list (SequenceNumber * SequenceNumber))
  : SequenceEntry :=
  match from_right ns.2 position with
  | Some span =>
      {| se_name := ns.1; se_kind := None; se_source := Fallback; se_span := Some span |}
  | None => unidentified_entry ns.1
  end.

Definition fallback_entries (file_names cleaned : list str) : list SequenceEntry :=
  let spans := numbers_in <$> cleaned in
  match changing_position spans with
  | None => unidentified_entry <$> file_names
  | Some position => fallback_entry position <$> zip file_names spans
  end.

(** ** Gaps *)

(** [last_mut]: [acc] holds the ranges built so far, the last one first. *)
Definition extend_ranges (acc : list SequenceRange) (value : Z) : list SequenceRange :=
  match acc with
  | range :: rest =>
      if rg_end range + 1 =? value
      then {| rg_start := rg_start range; rg_end := value |} :: rest
      else {| rg_start := value; rg_end := value |} :: acc
  | [] => [{| rg_start := value; rg_end := value |}]
  end.

Definition to_ranges (values : list Z) : list SequenceRange :=
  rev (fold_left extend_ranges values []).

(** [start..=end]. *)
Definition range_inclusive (start end_ : Z) : list Z := seqZ start (end_ - start + 1).

(** [BTreeSet::insert] on the ascending list of the elements. *)
Fixpoint bset_insert (x : Z) (s : list Z) : list Z :=
  match s with
  | [] => [x]
  | y :: s' => if x <? y then x :: s else if x =? y then s else y :: bset_insert x s'
  end.

Definition bset_extend (s xs : list Z) : list Z := fold_left (fun s x => bset_insert x s) xs s.

(** The loop over the entries: the covered integers and the decimals pushed. *)
Definition gap_step (st : list Z * list SequenceNumber) (entry : SequenceEntry)
  : list Z * list SequenceNumber :=
  let '(covered, decimals) := st in
  match se_span entry with
  | None => st
  | Some (start, end_) =>
      (bset_extend covered (range_inclusive (integer_part start) (integer_part end_)),
       decimals ++ (if is_integer start then [] else [start])
                ++ (if negb (end_ =? start) && negb (is_integer end_) then [end_] else []))
  end.

(** [Vec::dedup]: drops consecutive repetitions. *)
Fixpoint dedup (l : list Z) : list Z :=
  match l with
  | [] => []
  | x :: l' => match l' with
               | [] => [x]
               | y :: _ => if x =? y then dedup l' else x :: dedup l'
               end
  end.

Definition fill_gaps (analysis : SequenceAnalysis) : SequenceAnalysis :=
  let '(covered, decimals) := fold_left gap_step (sa_entries analysis) ([], sa_decimals analysis) in
  let decimals := dedup (merge_sort Z.le decimals) in
  let finish ranges missing exceeded :=
    {| sa_kind := sa_kind analysis; sa_source := sa_source analysis;
       sa_entries := sa_entries analysis; sa_found_ranges := ranges; sa_missing := missing;
       sa_decimals := decimals; sa_unidentified := sa_unidentified analysis;
       sa_span_exceeded := exceeded |} in
  match List.hd_error covered, last covered with
  | Some lowest, Some highest =>
      if MAX_SEQUENCE_SPAN <? highest - lowest
      then finish (to_ranges covered) (sa_missing analysis) true
      else finish (to_ranges covered)
             (List.filter (fun value => negb (existsb (Z.eqb value) covered))
                (range_inclusive lowest highest)) (sa_span_exceeded analysis)
  | _, _ => finish (sa_found_ranges analysis) (sa_missing analysis) (sa_span_exceeded analysis)
  end.

Definition analyze_sequence (file_names : list str) : SequenceAnalysis :=
  let cleaned := clean_name <$> file_names in
  let identifiers := (fun name => best_identifier name None) <$> cleaned in
  let kind := folder_kind identifiers in
  let entries :=
    match kind with
    | Some kind => identifier_entries file_names identifiers kind
    | None => fallback_entries file_names cleaned
    end in
  let source :=
    default Unidentified
      (List.find (fun source => negb (bool_decide (source = Unidentified))) (se_source <$> entries)) in
  fill_gaps
    {| sa_kind := kind; sa_source := source; sa_entries := entries;
       sa_found_ranges := []; sa_missing := []; sa_decimals := [];
       sa_unidentified :=
         se_name <$> List.filter (fun entry => is_none (se_span entry)) entries;
       sa_span_exceeded := false |}.

(** ** Reports *)

Definition has_gaps (a : SequenceAnalysis) : bool := negb (is_none (List.hd_error (sa_missing a))).

Definition found_ranges_display (a : SequenceAnalysis) : list str := range_fmt <$> sa_found_ranges a.

Definition missing_summary (a : SequenceAnalysis) : str :=
  str_join (lit ", ") (range_fmt <$> to_ranges (sa_missing a)).

Definition identified_count (a : SequenceAnalysis) : nat :=
  length (List.filter (fun entry => negb (is_none (se_span entry))) (sa_entries a)).

(** ** Examples *)

Example clean_name_ex :
  clean_name (lit "/lib/Series/[Grp] My_Series  Ch 05-07 (2020) [x].cbz") = lit "My Series Ch 05-07".
Proof. vm_compute. reflexivity. Qed.

Example analyze_ex :
  let a := analyze_sequence (lit <$> ["S Ch 48.cbz"; "S Ch 50-52.cbz"; "S Ch 52.5.cbz"; "notes.txt"]%string) in
  sa_missing a = [49] /\ sa_decimals a = [52500] /\
  sa_found_ranges a = [{| rg_start := 48; rg_end := 48 |}; {| rg_start := 50; rg_end := 52 |}].
Proof. vm_compute. auto. Qed.

(** ** The scanner *)

Lemma skip_while_ge p bytes i : (i <= skip_while p bytes i)%nat.
Proof. unfold skip_while. lia. Qed.

Lemma skip_while_le p bytes i : (i <= length bytes)%nat -> (skip_while p bytes i <= length bytes)%nat.
Proof.
  intros Hi. unfold skip_while. pose proof (take_while_le p (drop i bytes)) as H.
  rewrite length_drop in H. lia.
Qed.

Lemma skip_while_progress p bytes i b :
  bytes !! i = Some b -> p b = true -> (i < skip_while p bytes i)%nat.
Proof.
  intros Hb Hp. unfold skip_while. rewrite (drop_S _ _ _ Hb). simpl. rewrite Hp. simpl. lia.
Qed.

Lemma skip_while_slice p bytes i :
  slice bytes i (skip_while p bytes i) = take_while p (drop i bytes).
Proof.
  unfold slice, skip_while. replace (_ + _ - _)%nat with (length (take_while p (drop i bytes))) by lia.
  apply take_while_prefix.
Qed.

Lemma byte_is_Some p bytes i : byte_is p bytes i = true -> exists b, bytes !! i = Some b /\ p b = true.
Proof. unfold byte_is. destruct (bytes !! i); naive_solver. Qed.

Lemma scan_fraction_zero ds n : scan_fraction ds n 0 = n.
Proof. by destruct ds. Qed.

(** At most three digits of the fraction count. *)
Lemma scan_fraction_bounds ds n :
  Forall (fun b => is_ascii_digit b = true) ds ->
  n <= scan_fraction ds n (SCALE / 10) <= n + 999.
Proof.
  intros H. assert (Hd : forall b, b ∈ ds -> 48 <= b <= 57).
  { intros b Hb. apply is_ascii_digit_iff. rewrite Forall_forall in H. auto. }
  change (SCALE / 10) with 100.
  assert (E1 : 100 / 10 = 10) by done. assert (E2 : 10 / 10 = 1) by done.
  assert (E3 : 1 / 10 = 0) by done.
  destruct ds as [|a [|b [|c ds]]]; cbn [scan_fraction]; rewrite ?E1, ?E2, ?E3, ?scan_fraction_zero;
    cbn [Z.eqb]; rewrite ?E1, ?E2, ?E3, ?scan_fraction_zero.
  - lia.
  - pose proof (Hd a ltac:(set_solver)). lia.
  - pose proof (Hd a ltac:(set_solver)). pose proof (Hd b ltac:(set_solver)). lia.
  - pose proof (Hd a ltac:(set_solver)). pose proof (Hd b ltac:(set_solver)).
    pose proof (Hd c ltac:(set_solver)). lia.
Qed.

Definition number_limit : Z := 10 ^ 12.

Lemma scan_decimal_spec bytes i r j :
  scan_decimal bytes i = (r, j) -> (i <= length bytes)%nat ->
  (i <= j <= length bytes)%nat /\ forall n, r = Some n -> 0 <= n < number_limit /\ (i < j)%nat.
Proof.
  unfold scan_decimal. intros E Hi.
  set (k := skip_while is_ascii_digit bytes i) in *.
  assert (i <= k)%nat by apply skip_while_ge.
  assert (k <= length bytes)%nat by by apply skip_while_le.
  destruct (Nat.eqb_spec k i); [simplify_eq; split; [lia|done]|].
  destruct (Nat.ltb_spec 9 (k - i)); [simplify_eq; split; [lia|done]|].
  assert (Hv : 0 <= dec_value (slice bytes i k) < 10 ^ 9).
  { unfold k. rewrite skip_while_slice.
    destruct (dec_value_bounds _ (take_while_Forall is_ascii_digit (drop i bytes))) as [Hv1 Hv2].
    split; [done|]. eapply Z.lt_le_trans; [exact Hv2|]. apply Z.pow_le_mono_r; [lia|].
    unfold k, skip_while in *. lia. }
  unfold number_limit, from_thousandths, SCALE in *. destruct (_ && _) eqn:Ef; simplify_eq.
  - apply andb_true_iff in Ef as [_ (b & Hb & _)%byte_is_Some].
    apply lookup_lt_Some in Hb. split.
    + pose proof (skip_while_ge is_ascii_digit bytes (k + 1)).
      pose proof (skip_while_le is_ascii_digit bytes (k + 1) ltac:(lia)). lia.
    + intros m [= <-]. rewrite skip_while_slice.
      pose proof (scan_fraction_bounds _ (dec_value (slice bytes i k) * 1000)
                    (take_while_Forall is_ascii_digit (drop (k + 1) bytes))) as Hf.
      unfold SCALE in Hf. pose proof (skip_while_ge is_ascii_digit bytes (k + 1)). lia.
  - split; [lia|]. intros m [= <-]. lia.
Qed.

(** A number token is an ordered span of bounded width, far from the [i64] limits. *)
Definition span_ok (a b : SequenceNumber) : Prop :=
  0 <= a <= b /\ b < number_limit /\ integer_part b - integer_part a <= MAX_RANGE_LEN.

Lemma span_ok_refl a : 0 <= a < number_limit -> span_ok a a.
Proof. intros H. unfold span_ok, MAX_RANGE_LEN. lia. Qed.

Lemma scan_span_spec bytes i r j :
  scan_span bytes i = (r, j) -> (i <= length bytes)%nat ->
  (i <= j <= length bytes)%nat /\ forall a b, r = Some (a, b) -> span_ok a b.
Proof.
  unfold scan_span. intros E Hi. destruct (scan_decimal bytes i) as [[a|] k] eqn:E1.
  2: { apply scan_decimal_spec in E1 as [? _]; [|done]. by simplify_eq. }
  apply scan_decimal_spec in E1 as [Hk Ha]; [|done]. destruct (Ha _ eq_refl) as [Ha' Hlt].
  assert (Hsingle : forall r' j', (Some (a, a), k) = (r', j') ->
    (i <= j' <= length bytes)%nat /\ forall a0 b, r' = Some (a0, b) -> span_ok a0 b).
  { intros r' j' [= <- <-]. split; [lia|]. intros ?? [= <- <-]. by apply span_ok_refl. }
  destruct (byte_is _ bytes (skip_while _ bytes k)) eqn:Eb; [|by apply Hsingle].
  apply byte_is_Some in Eb as (b & Hb%lookup_lt_Some & _).
  set (q := skip_while (Z.eqb 32) bytes (skip_while (Z.eqb 32) bytes k + 1)) in *.
  assert (k <= q <= length bytes)%nat.
  { unfold q. pose proof (skip_while_ge (Z.eqb 32) bytes k).
    pose proof (skip_while_ge (Z.eqb 32) bytes (skip_while (Z.eqb 32) bytes k + 1)).
    pose proof (skip_while_le (Z.eqb 32) bytes (skip_while (Z.eqb 32) bytes k + 1) ltac:(lia)). lia. }
  destruct (scan_decimal bytes q) as [[e|] l] eqn:E2; [|by apply Hsingle].
  apply scan_decimal_spec in E2 as [Hl He]; [|lia]. destruct (He _ eq_refl).
  destruct (_ && _) eqn:Ec; [|by apply Hsingle].
  rewrite andb_true_iff, !Z.leb_le in Ec. simplify_eq. split; [lia|].
  intros ?? [= <- <-]. unfold span_ok. lia.
Qed.

Definition token_ok (bytes : list Z) (t : Token) : Prop :=
  match t with
  | Word s e => (s < e <= length bytes)%nat /\
                Forall (fun b => is_ascii_alphabetic b = true) (slice bytes s e)
  | Number a b => span_ok a b
  end.

Lemma tokenize_from_ok fuel bytes i :
  Forall (token_ok bytes) (tokenize_from fuel bytes i).
Proof.
  revert i. induction fuel as [|fuel IH]; intros i; simpl; [done|].
  destruct (bytes !! i) as [b|] eqn:Hb; [|done]. pose proof (lookup_lt_Some _ _ _ Hb).
  destruct (is_ascii_alphabetic b) eqn:Ea.
  - constructor; [|done]. simpl. split.
    + split; [by eapply skip_while_progress|apply skip_while_le; lia].
    + rewrite skip_while_slice. apply take_while_Forall.
  - destruct (is_ascii_digit b); [|done].
    destruct (scan_span bytes i) as [[[s e]|] j] eqn:Es; [|done].
    apply scan_span_spec in Es as [_ Hok]; [|lia]. constructor; [by apply Hok|done].
Qed.

(** Fuel: one unit per remaining byte is enough, more changes nothing. *)
Lemma tokenize_from_fuel fuel extra bytes i :
  (length bytes <= i + fuel)%nat ->
  tokenize_from (fuel + extra) bytes i = tokenize_from fuel bytes i.
Proof.
  revert i. induction fuel as [|fuel IH]; intros i Hf; simpl.
  - destruct extra; simpl; [done|]. by rewrite (lookup_ge_None_2 bytes i) by lia.
  - destruct (bytes !! i) as [b|] eqn:Hb; [|done].
    destruct (is_ascii_alphabetic b) eqn:Ea.
    + rewrite IH; [done|]. pose proof (skip_while_progress _ _ _ _ Hb Ea). lia.
    + destruct (is_ascii_digit b).
      * destruct (scan_span bytes i) as [[[s e]|] j]; rewrite IH by lia; done.
      * apply IH. lia.
Qed.

(** Tokenising terminates within one step per byte (any larger fuel gives the
    same tokens), and every token is sound: words are non-empty ASCII letter runs in
    range, numbers are ordered spans at most 500 wide and below 10^12, so no [i64]
    arithmetic of the scanner can overflow. *)
Theorem tokenize_sound cleaned :
  (forall fuel, (length (as_bytes cleaned) <= fuel)%nat ->
     tokenize_from fuel (as_bytes cleaned) 0 = tokenize cleaned) /\
  Forall (token_ok (as_bytes cleaned)) (tokenize cleaned).
Proof.
  split; [|apply tokenize_from_ok]. intros fuel Hf. unfold tokenize.
  replace fuel with (length (as_bytes cleaned) + (fuel - length (as_bytes cleaned)))%nat by lia.
  apply tokenize_from_fuel. lia.
Qed.

(** ** Printing and scanning *)

Abbreviation all_digits := (Forall (fun b => is_ascii_digit b = true)).

Lemma drop_app_length' {A} (l1 l2 : list A) k : k = length l1 -> drop k (l1 ++ l2) = l2.
Proof. intros ->. apply drop_app_length. Qed.

Lemma skip_digits ds rest :
  all_digits ds -> (forall x, List.hd_error rest = Some x -> is_ascii_digit x = false) ->
  forall pre, skip_while is_ascii_digit (pre ++ ds ++ rest) (length pre) = (length pre + length ds)%nat.
Proof.
  intros Hd Hr pre. unfold skip_while. rewrite drop_app_length' by done.
  by rewrite take_while_app_stop.
Qed.

Lemma slice_middle {A} (pre ds rest : list A) :
  take (length pre + length ds - length pre) (drop (length pre) (pre ++ ds ++ rest)) = ds.
Proof.
  rewrite drop_app_length' by done. replace (_ - _)%nat with (length ds) by lia.
  apply take_app_length.
Qed.

(** A digit run of at most nine digits scans to its value; a fraction follows or not. *)
Lemma scan_decimal_whole ds :
  all_digits ds -> ds <> [] -> (length ds <= 9)%nat ->
  scan_decimal ds 0 = (Some (dec_value ds * SCALE), length ds).
Proof.
  intros Hd Hne Hl. unfold scan_decimal.
  pose proof (skip_digits ds [] Hd ltac:(done) []) as Hs. simpl in Hs. rewrite app_nil_r in Hs.
  rewrite Hs. destruct ds as [|d ds]; [done|].
  destruct (Nat.eqb_spec (length (d :: ds)) 0); [done|].
  destruct (Nat.ltb_spec 9 (length (d :: ds) - 0)); [lia|].
  unfold byte_is at 1. rewrite (lookup_ge_None_2 (d :: ds) (length (d :: ds))) by lia. simpl andb.
  unfold slice, from_thousandths. rewrite Nat.sub_0_r, drop_0, firstn_all. done.
Qed.

Lemma scan_decimal_fraction ds fs :
  all_digits ds -> ds <> [] -> (length ds <= 9)%nat -> all_digits fs -> fs <> [] ->
  scan_decimal (ds ++ 46 :: fs) 0 =
    (Some (scan_fraction fs (dec_value ds * SCALE) (SCALE / 10)), (length ds + 1 + length fs)%nat).
Proof.
  intros Hd Hne Hl Hf Hfne. unfold scan_decimal.
  assert (Hs : skip_while is_ascii_digit (ds ++ 46 :: fs) 0 = length ds).
  { apply (skip_digits ds (46 :: fs) Hd) with (pre := []). by intros x [= <-]. }
  rewrite Hs. assert (0 < length ds)%nat by (destruct ds; [done|simpl; lia]).
  destruct (Nat.eqb_spec (length ds) 0); [lia|].
  destruct (Nat.ltb_spec 9 (length ds - 0)); [lia|].
  unfold byte_is. rewrite list_lookup_middle by done.
  replace (ds ++ 46 :: fs) with ((ds ++ [46]) ++ fs ++ []) by (by rewrite app_nil_r, <- app_assoc).
  assert (Hl1 : (length ds + 1)%nat = length (ds ++ [46])) by (by rewrite length_app).
  rewrite Hl1, (skip_digits fs [] Hf ltac:(done)).
  rewrite (lookup_app_r (ds ++ [46])), Nat.sub_diag, app_nil_r by lia.
  destruct fs as [|f fs]; [done|]. simpl lookup.
  cbv beta iota. rewrite (Forall_inv Hf). change (46 =? 46) with true. cbn [andb].
  unfold slice, from_thousandths. rewrite drop_app_length' by done.
  rewrite (Nat.add_comm (length (ds ++ [46]))), Nat.add_sub.
  by rewrite firstn_all, Nat.sub_0_r, drop_0, <- app_assoc, take_app_length.
Qed.

(** The printed fraction: three digits without the trailing zeros. *)
Definition fraction_digits (f : Z) : str := drop_while_end (Z.eqb 48) (pad3 f).

Lemma fraction_digits_spec f n :
  0 < f < 1000 ->
  all_digits (fraction_digits f) /\ fraction_digits f <> [] /\
  scan_fraction (fraction_digits f) n (SCALE / 10) = n + f.
Proof.
  intros Hf. unfold fraction_digits, drop_while_end, pad3.
  set (a := f / 100). set (b := f / 10 mod 10). set (c := f mod 10).
  assert (Hv : f = a * 100 + b * 10 + c /\ 0 <= a <= 9 /\ 0 <= b <= 9 /\ 0 <= c <= 9).
  { unfold a, b, c. Z.to_euclidean_division_equations. lia. }
  clearbody a b c. destruct Hv as (-> & Ha & Hb & Hc).
  assert (Hda : is_ascii_digit (a + 48) = true) by (apply is_ascii_digit_iff; lia).
  assert (Hdb : is_ascii_digit (b + 48) = true) by (apply is_ascii_digit_iff; lia).
  assert (Hdc : is_ascii_digit (c + 48) = true) by (apply is_ascii_digit_iff; lia).
  cbn [rev app drop_while]. change (SCALE / 10) with 100.
  destruct (Z.eqb_spec 48 (c + 48)); [destruct (Z.eqb_spec 48 (b + 48));
    [destruct (Z.eqb_spec 48 (a + 48)); [lia|]|]|].
  all: cbn [rev app]; split; [repeat constructor; done|]; split; [done|].
  all: cbn [scan_fraction]; change (100 / 10) with 10; cbn [Z.eqb scan_fraction];
    change (10 / 10) with 1; cbn [Z.eqb scan_fraction]; lia.
Qed.

(** Printing and scanning are inverse: a non-negative sequence number below
    10^12 thousandths (nine integer digits), printed by [Display] and scanned by the
    tokeniser's decimal scanner, gives the same number and consumes every byte. *)
Theorem number_print_scan n :
  0 <= n < number_limit ->
  scan_decimal (as_bytes (number_fmt n)) 0 = (Some n, length (as_bytes (number_fmt n))).
Proof.
  unfold number_limit. intros Hn.
  assert (Hw : 0 <= integer_part n < 10 ^ 9).
  { unfold integer_part, SCALE. split; [apply Z.div_pos; lia|apply Z.div_lt_upper_bound; lia]. }
  assert (Hr : 0 <= n mod SCALE < 1000) by (apply Z.mod_pos_bound; done).
  assert (En : n = integer_part n * SCALE + n mod SCALE).
  { unfold integer_part. rewrite Z.mul_comm. apply Z.div_mod. done. }
  unfold number_fmt. set (w := integer_part n) in *. set (f := n mod SCALE) in *.
  destruct (show_nonneg_spec w ltac:(lia)) as [Hd Hv].
  assert (Hl : (length (show_nonneg w) <= 9)%nat) by (apply dec_digits_length; simpl; lia).
  pose proof (show_nonneg_nonempty w) as Hne.
  assert (Hsz : show_Z w = show_nonneg w) by (unfold show_Z; by replace (w <? 0) with false by lia).
  assert (Hascii : forall ds, all_digits ds -> Forall (fun c => c < 0x80) ds).
  { intros ds Hds. eapply Forall_impl; [exact Hds|]. intros c Hc%is_ascii_digit_iff. lia. }
  rewrite Hsz. destruct (Z.eqb_spec f 0).
  - rewrite as_bytes_ascii by auto. rewrite scan_decimal_whole by done.
    rewrite Hv. do 2 f_equal. lia.
  - destruct (fraction_digits_spec f (w * SCALE) ltac:(lia)) as (Hf & Hfne & Hsf).
    fold (fraction_digits f). rewrite as_bytes_ascii.
    + simpl app. rewrite scan_decimal_fraction by done. rewrite Hv, Hsf, <- En.
      f_equal. rewrite length_app. simpl. lia.
    + apply Forall_app. split; [auto|]. constructor; [lia|auto].
Qed.

(** ** Ranges *)

Definition range_values (r : SequenceRange) : list Z := range_inclusive (rg_start r) (rg_end r).

(** Consecutive ranges leave at least one integer between them. *)
Definition apart (r1 r2 : SequenceRange) : Prop := rg_end r1 + 1 < rg_start r2.

(** [to_ranges] as a function of the current range and the remaining values. *)
Fixpoint group (cur : SequenceRange) (values : list Z) : list SequenceRange :=
  match values with
  | [] => [cur]
  | v :: values' =>
      if rg_end cur + 1 =? v then group {| rg_start := rg_start cur; rg_end := v |} values'
      else cur :: group {| rg_start := v; rg_end := v |} values'
  end.

Lemma extend_ranges_group values cur acc :
  fold_left extend_ranges values (cur :: acc) = rev (group cur values) ++ acc.
Proof.
  revert cur acc. induction values as [|v values IH]; intros cur acc; simpl; [done|].
  destruct (_ =? v); rewrite IH; simpl; [done|]. by rewrite <- app_assoc.
Qed.

Lemma to_ranges_cons v values :
  to_ranges (v :: values) = group {| rg_start := v; rg_end := v |} values.
Proof. unfold to_ranges; simpl. by rewrite extend_ranges_group, app_nil_r, rev_involutive. Qed.

Lemma range_inclusive_snoc a b : a <= b -> range_inclusive a b = range_inclusive a (b - 1) ++ [b].
Proof.
  intros H. unfold range_inclusive.
  replace (b - a + 1) with ((b - 1 - a + 1) + 1) by lia. rewrite seqZ_app by lia.
  f_equal. replace (a + (b - 1 - a + 1)) with b by lia. done.
Qed.

Lemma range_inclusive_elem a b x : x ∈ range_inclusive a b <-> a <= x <= b.
Proof. unfold range_inclusive. rewrite elem_of_seqZ. lia. Qed.

Lemma group_values values cur :
  rg_start cur <= rg_end cur -> StronglySorted Z.lt (rg_end cur :: values) ->
  concat (range_values <$> group cur values) = range_values cur ++ values.
Proof.
  revert cur. induction values as [|v values IH]; intros cur Hc Hs; simpl.
  - done.
  - apply StronglySorted_inv in Hs as [Hs Hall]. apply Forall_inv in Hall.
    destruct (Z.eqb_spec (rg_end cur + 1) v).
    + rewrite IH; [|simpl; lia|done]. unfold range_values; simpl.
      rewrite (range_inclusive_snoc _ v) by lia. rewrite <- app_assoc. simpl.
      by replace (v - 1) with (rg_end cur) by lia.
    + simpl. rewrite IH; [|simpl; lia|done]. f_equal. unfold range_values; simpl.
      rewrite range_inclusive_snoc by lia. unfold range_inclusive. by rewrite seqZ_nil by lia.
Qed.

Lemma group_apart values cur :
  StronglySorted Z.lt (rg_end cur :: values) -> Sorted apart (group cur values) /\
  exists e rest, group cur values = {| rg_start := rg_start cur; rg_end := e |} :: rest.
Proof.
  revert cur. induction values as [|v values IH]; intros cur Hs; simpl.
  - split; [repeat constructor|]. destruct cur. eauto.
  - apply StronglySorted_inv in Hs as [Hs Hall]. apply Forall_inv in Hall.
    destruct (Z.eqb_spec (rg_end cur + 1) v).
    + destruct (IH {| rg_start := rg_start cur; rg_end := v |} Hs) as [H1 H2]. auto.
    + destruct (IH {| rg_start := v; rg_end := v |} Hs) as [H1 (e & rest & E)].
      split; [|destruct cur; eauto]. rewrite E in *. constructor; [done|]. constructor.
      unfold apart; simpl. lia.
Qed.

Lemma to_ranges_spec values :
  StronglySorted Z.lt values ->
  concat (range_values <$> to_ranges values) = values /\ Sorted apart (to_ranges values).
Proof.
  destruct values as [|v values]; [by repeat constructor|]. intros Hs. rewrite to_ranges_cons.
  split.
  - rewrite group_values; [|simpl; lia|done]. simpl.
    unfold range_values, range_inclusive; simpl.
    by replace (v - v + 1) with 1 by lia.
  - by apply group_apart.
Qed.

(** Run-length grouping loses nothing and is maximal: for ascending distinct
    integers the ranges of [to_ranges] expand back to exactly the input, and between
    any two consecutive ranges at least one integer is absent. *)
Theorem to_ranges_exact values :
  StronglySorted Z.lt values ->
  concat (range_values <$> to_ranges values) = values /\ Sorted apart (to_ranges values).
Proof. apply to_ranges_spec. Qed.

(** ** Covered integers *)

Lemma bset_insert_elem x y s : y ∈ bset_insert x s <-> y = x \/ y ∈ s.
Proof.
  induction s as [|z s IH]; simpl; [set_solver|].
  destruct (Z.ltb_spec x z); [set_solver|]. destruct (Z.eqb_spec x z); [subst; set_solver|].
  rewrite !elem_of_cons, IH. tauto.
Qed.

Lemma bset_insert_sorted x s : StronglySorted Z.lt s -> StronglySorted Z.lt (bset_insert x s).
Proof.
  induction 1 as [|z s Hs IH Hz]; simpl; [repeat constructor|].
  destruct (Z.ltb_spec x z).
  - constructor; [by constructor|]. constructor; [done|].
    eapply Forall_impl; [exact Hz|]. simpl. lia.
  - destruct (Z.eqb_spec x z); [by constructor|]. constructor; [done|].
    apply Forall_forall. intros y [->|Hy]%bset_insert_elem; [lia|].
    rewrite Forall_forall in Hz. auto.
Qed.

Lemma bset_extend_spec xs s :
  StronglySorted Z.lt s ->
  StronglySorted Z.lt (bset_extend s xs) /\ forall y, y ∈ bset_extend s xs <-> y ∈ xs \/ y ∈ s.
Proof.
  revert s. induction xs as [|x xs IH]; intros s Hs; simpl; [set_solver|].
  destruct (IH (bset_insert x s) (bset_insert_sorted x s Hs)) as [H1 H2].
  split; [exact H1|]. intros y. unfold bset_extend in *; simpl. rewrite H2, bset_insert_elem. set_solver.
Qed.

(** The integers an entry covers. *)
Definition entry_covers (e : SequenceEntry) (x : Z) : Prop :=
  exists a b, se_span e = Some (a, b) /\ integer_part a <= x <= integer_part b.

Definition covers (entries : list SequenceEntry) (x : Z) : Prop :=
  exists e, e ∈ entries /\ entry_covers e x.

Lemma gap_fold_covered entries covered decimals :
  StronglySorted Z.lt covered ->
  let st := fold_left gap_step entries (covered, decimals) in
  StronglySorted Z.lt st.1 /\ forall x, x ∈ st.1 <-> x ∈ covered \/ covers entries x.
Proof.
  revert covered decimals. induction entries as [|e entries IH]; intros covered decimals Hs.
  { cbn. split; [done|]. unfold covers. intros x. split; [by left|]. intros [?|(? & ?%not_elem_of_nil & _)]; done. }
  cbn zeta. simpl fold_left.
  destruct (se_span e) as [[a b]|] eqn:Es.
  - destruct (bset_extend_spec (range_inclusive (integer_part a) (integer_part b)) covered Hs) as [H1 H2].
    edestruct IH as [H3 H4]; [exact H1|]. split; [exact H3|]. intros x. cbn zeta in H4.
    rewrite H4, H2, range_inclusive_elem. unfold covers, entry_covers. split.
    + intros [[?|?]|(e' & ? & ?)]; [right; exists e; split; [set_solver|]; eauto|by left|].
      right. exists e'. split; [set_solver|done].
    + intros [?|(e' & [->|?]%elem_of_cons & Hc)]; [auto| |right; eauto].
      destruct Hc as (a' & b' & E & ?). rewrite Es in E. simplify_eq. auto.
  - edestruct (IH covered decimals Hs) as [H3 H4]. split; [exact H3|]. intros x. cbn zeta in H4.
    rewrite H4. unfold covers, entry_covers. split.
    + intros [?|(e' & ? & ?)]; [by left|]. right. exists e'. split; [set_solver|done].
    + intros [?|(e' & [->|?]%elem_of_cons & Hc)]; [auto| |right; eauto].
      destruct Hc as (a' & b' & E & ?). by rewrite Es in E.
Qed.

Lemma sorted_hd_min (l : list Z) lo :
  StronglySorted Z.lt l -> List.hd_error l = Some lo -> lo ∈ l /\ forall x, x ∈ l -> lo <= x.
Proof.
  destruct 1 as [|y l Hs Hy]; [done|]. intros [= ->]. split; [set_solver|].
  intros x [->|Hx]%elem_of_cons; [lia|]. rewrite Forall_forall in Hy. specialize (Hy _ Hx). lia.
Qed.

Lemma sorted_last_max (l : list Z) hi :
  StronglySorted Z.lt l -> last l = Some hi -> hi ∈ l /\ forall x, x ∈ l -> x <= hi.
Proof.
  induction 1 as [|y l Hs IH Hy]; [done|]. intros Hl. destruct l as [|z l].
  - simplify_eq/=. split; [set_solver|]. intros x Hx. apply list_elem_of_singleton in Hx as ->. lia.
  - rewrite last_cons_cons in Hl. destruct (IH Hl) as [H1 H2]. split; [set_solver|].
    intros x [->|Hx]%elem_of_cons; [|auto]. rewrite Forall_forall in Hy. specialize (Hy _ H1). lia.
Qed.

Lemma elem_of_ranges x ranges :
  x ∈ concat (range_values <$> ranges) <-> exists r, r ∈ ranges /\ rg_start r <= x <= rg_end r.
Proof.
  rewrite list_elem_of_In, in_concat. setoid_rewrite <- list_elem_of_In. split.
  - intros (l & (r & -> & Hr)%list_elem_of_fmap & Hx). exists r. split; [done|].
    by apply range_inclusive_elem.
  - intros (r & Hr & Hx). exists (range_values r). split; [|by apply range_inclusive_elem].
    apply list_elem_of_fmap. eauto.
Qed.

Lemma existsb_eqb_elem x l : existsb (Z.eqb x) l = true <-> x ∈ l.
Proof.
  rewrite existsb_exists. split.
  - intros (y & Hy & ->%Z.eqb_eq). by apply list_elem_of_In.
  - intros Hx. exists x. split; [by apply list_elem_of_In|by apply Z.eqb_refl].
Qed.

(** What gap detection promises about a set of covered integers. *)
Record gaps_ok (covered : Z -> Prop) (found : list SequenceRange) (missing : list Z)
    (exceeded : bool) : Prop := {
  go_found : forall x, covered x <-> exists r, r ∈ found /\ rg_start r <= x <= rg_end r;
  go_apart : Sorted apart found;
  go_exceeded : exceeded = true <->
    exists lo hi, covered lo /\ covered hi /\ MAX_SEQUENCE_SPAN < hi - lo;
  go_refused : exceeded = true -> missing = [];
  go_missing : exceeded = false -> forall x, x ∈ missing <->
    ~ covered x /\ exists lo hi, covered lo /\ covered hi /\ lo < x < hi;
}.

Lemma gaps_ok_computed (covered : list Z) :
  StronglySorted Z.lt covered ->
  match List.hd_error covered, last covered with
  | Some lowest, Some highest =>
      let missing := List.filter (fun value => negb (existsb (Z.eqb value) covered))
                       (range_inclusive lowest highest) in
      if MAX_SEQUENCE_SPAN <? highest - lowest
      then gaps_ok (fun x => x ∈ covered) (to_ranges covered) [] true
      else gaps_ok (fun x => x ∈ covered) (to_ranges covered) missing false
  | _, _ => gaps_ok (fun x => x ∈ covered) [] [] false
  end.
Proof.
  intros Hs. destruct (to_ranges_spec covered Hs) as [Hr Ha].
  assert (Hfound : forall x, x ∈ covered <->
            exists r, r ∈ to_ranges covered /\ rg_start r <= x <= rg_end r).
  { intros x. by rewrite <- elem_of_ranges, Hr. }
  destruct (List.hd_error covered) as [lo|] eqn:Elo.
  2: { destruct covered; [|done]. simpl.
       constructor; [set_solver|constructor|split; [done|]|done|]; set_solver. }
  destruct (last covered) as [hi|] eqn:Ehi; [|by destruct covered; [|apply last_None in Ehi]].
  destruct (sorted_hd_min _ _ Hs Elo) as [Hlo Hmin]. destruct (sorted_last_max _ _ Hs Ehi) as [Hhi Hmax].
  cbn zeta. destruct (Z.ltb_spec MAX_SEQUENCE_SPAN (hi - lo)); constructor; try done.
  - split; [|done]. eauto.
  - split; [done|]. intros (lo' & hi' & H1%Hmin & H2%Hmax & ?). lia.
  - intros _ x. rewrite list_elem_of_In, filter_In, <- list_elem_of_In, range_inclusive_elem,
      negb_true_iff, <- not_true_iff_false, existsb_eqb_elem. split.
    + intros [Hx Hn]. split; [done|]. exists lo, hi. split_and!; [done..| |].
      * destruct (Z.eq_dec x lo); [by subst|lia].
      * destruct (Z.eq_dec x hi); [by subst|lia].
    + intros (Hn & lo' & hi' & H1%Hmin & H2%Hmax & ?). split; [lia|done].
Qed.

Lemma gaps_ok_ext P Q found missing exceeded :
  (forall x, P x <-> Q x) -> gaps_ok P found missing exceeded -> gaps_ok Q found missing exceeded.
Proof. intros HPQ [H1 H2 H3 H4 H5]. constructor; try setoid_rewrite <- HPQ; auto. Qed.

Lemma fill_gaps_spec a :
  sa_found_ranges a = [] -> sa_missing a = [] -> sa_span_exceeded a = false ->
  sa_entries (fill_gaps a) = sa_entries a /\ sa_unidentified (fill_gaps a) = sa_unidentified a /\
  gaps_ok (covers (sa_entries a)) (sa_found_ranges (fill_gaps a)) (sa_missing (fill_gaps a))
    (sa_span_exceeded (fill_gaps a)).
Proof.
  intros Hf Hm He. unfold fill_gaps.
  destruct (gap_fold_covered (sa_entries a) [] (sa_decimals a) ltac:(constructor)) as [Hs Hc].
  cbn zeta in Hs, Hc. destruct (fold_left gap_step _ _) as [covered decimals]. cbn [fst] in Hs, Hc.
  assert (HPQ : forall x, x ∈ covered <-> covers (sa_entries a) x) by (intros x; rewrite Hc; set_solver).
  pose proof (gaps_ok_computed covered Hs) as Hok.
  destruct (List.hd_error covered) as [lo|]; [destruct (last covered) as [hi|]|].
  2, 3: cbn; rewrite Hf, Hm, He; split_and!; [done..|exact (gaps_ok_ext _ _ _ _ _ HPQ Hok)].
  cbn zeta in Hok. destruct (MAX_SEQUENCE_SPAN <? hi - lo); cbn; rewrite ?Hm, ?He;
    (split_and!; [done..|exact (gaps_ok_ext _ _ _ _ _ HPQ Hok)]).
Qed.

(** Gap detection is exact for every folder: the found ranges contain exactly
    the integers some file covers (an interstitial chapter 112.1 covers 112 and opens
    no gap of its own), the missing list is exactly the uncovered integers strictly
    between two covered ones, and it is withheld precisely when the covered span
    exceeds the limit. *)
Theorem analyze_sequence_gaps file_names :
  let a := analyze_sequence file_names in
  gaps_ok (covers (sa_entries a)) (sa_found_ranges a) (sa_missing a) (sa_span_exceeded a).
Proof.
  cbv zeta. unfold analyze_sequence.
  match goal with |- context [fill_gaps ?a] => destruct (fill_gaps_spec a) as (He & _ & Hok) end;
    [done..|]. by rewrite He.
Qed.

(** ** Identifiers *)

(** Every identifier candidate of a token list, from left to right. *)
Fixpoint candidates (bytes : list Z) (only : option SequenceKind) (tokens : list Token)
  : list ParsedIdentifier :=
  match tokens with
  | [] => []
  | _ :: rest => option_list (candidate_at bytes only tokens) ++ candidates bytes only rest
  end.

Definition of_kind (kind : SequenceKind) (c : ParsedIdentifier) : bool :=
  bool_decide (pi_kind c = kind).

(** The right-most chapter, or else the right-most candidate. *)
Definition preferred (cs : list ParsedIdentifier) : option ParsedIdentifier :=
  or_else (last (List.filter (of_kind Chapter) cs)) (last cs).

Lemma best_from_candidates bytes only tokens best :
  best_from bytes only tokens best = fold_left better (candidates bytes only tokens) best.
Proof.
  revert best. induction tokens as [|t tokens IH]; intros best; cbn [best_from candidates]; [done|].
  rewrite fold_left_app, IH. by destruct (candidate_at _ _ _).
Qed.

Lemma best_preferred cs : fold_left better cs None = preferred cs.
Proof.
  induction cs as [|c cs IH] using rev_ind; [done|].
  rewrite fold_left_app, IH. unfold preferred. rewrite List.filter_app, last_snoc. cbn [fold_left List.filter].
  assert (Hc : of_kind Chapter c = bool_decide (pi_kind c = Chapter)) by done.
  rewrite Hc. clear Hc. destruct (pi_kind c) eqn:Ec.
  - rewrite bool_decide_true, last_snoc by done. cbn [or_else]. unfold better.
    destruct (or_else _ _) as [p|]; [|done]. rewrite Ec.
    by rewrite (bool_decide_false (Chapter = Volume)), andb_false_r.
  - rewrite bool_decide_false, app_nil_r by done.
    destruct (last (List.filter _ cs)) as [p|] eqn:Ep; cbn [or_else].
    + apply last_Some_elem_of, list_elem_of_In, filter_In in Ep as [_ Hp].
      unfold of_kind in Hp. unfold better. rewrite Hp, Ec. by rewrite (bool_decide_true (Volume = Volume)).
    + destruct (last cs) as [p|] eqn:El; [|done]. unfold better.
      rewrite bool_decide_false; [done|]. intros Hp.
      apply last_None in Ep. assert (Hin : p ∈ List.filter (of_kind Chapter) cs).
      { apply list_elem_of_In, filter_In. split; [by apply list_elem_of_In, last_Some_elem_of|].
        by apply bool_decide_eq_true. }
      rewrite Ep in Hin. set_solver.
Qed.

Lemma candidates_only bytes kind tokens :
  candidates bytes (Some kind) tokens = List.filter (of_kind kind) (candidates bytes None tokens).
Proof.
  induction tokens as [|t tokens IH]; cbn [candidates]; [done|].
  rewrite IH, List.filter_app. f_equal. destruct t as [s e|]; [|done].
  destruct tokens as [|[|a b] rest]; [done..|]. cbn. destruct (identifier_kind _) as [k|]; [|done].
  unfold of_kind; cbn. destruct kind, k; done.
Qed.

Lemma filter_of_kind_all kind cs :
  List.filter (of_kind kind) (List.filter (of_kind kind) cs) = List.filter (of_kind kind) cs.
Proof.
  induction cs as [|c cs IH]; simpl; [done|]. destruct (of_kind kind c) eqn:E; simpl; [|done].
  by rewrite E, IH.
Qed.

Lemma filter_volume_chapter cs : List.filter (of_kind Chapter) (List.filter (of_kind Volume) cs) = [].
Proof.
  induction cs as [|c cs IH]; simpl; [done|]. destruct (of_kind Volume c) eqn:E; simpl; [|done].
  rewrite IH. unfold of_kind in *. apply bool_decide_eq_true in E. by rewrite bool_decide_false by (by rewrite E).
Qed.

Definition name_candidates (file_name : str) : list ParsedIdentifier :=
  candidates (as_bytes (clean_name file_name)) None (tokenize (clean_name file_name)).

Lemma parse_identifier_of_last file_name kind :
  parse_identifier_of file_name kind = last (List.filter (of_kind kind) (name_candidates file_name)).
Proof.
  unfold parse_identifier_of, best_identifier.
  rewrite best_from_candidates, best_preferred, candidates_only. fold (name_candidates file_name).
  unfold preferred. destruct kind.
  - rewrite filter_of_kind_all. by destruct (last _).
  - by rewrite filter_volume_chapter.
Qed.

(** No chapter: every candidate is a volume. *)
Lemma last_filter_volume cs :
  last (List.filter (of_kind Chapter) cs) = None -> last cs = last (List.filter (of_kind Volume) cs).
Proof.
  intros E%last_None. f_equal. induction cs as [|c cs IH]; [done|]. simpl in *.
  unfold of_kind at 1 in E. unfold of_kind at 1. destruct (pi_kind c) eqn:Ec; cbn in *.
  - done.
  - f_equal. auto.
Qed.

(** Identifier choice is exact: asking for one kind gives the right-most
    candidate of that kind, and asking for any gives the chapter answer when there is
    one and the volume answer otherwise. *)
Theorem parse_identifier_spec file_name :
  (forall kind, parse_identifier_of file_name kind =
     last (List.filter (of_kind kind) (name_candidates file_name))) /\
  parse_identifier file_name =
    or_else (parse_identifier_of file_name Chapter) (parse_identifier_of file_name Volume).
Proof.
  split; [intros; apply parse_identifier_of_last|].
  rewrite !parse_identifier_of_last. unfold parse_identifier, best_identifier.
  rewrite best_from_candidates, best_preferred. fold (name_candidates file_name). unfold preferred.
  destruct (last (List.filter (of_kind Chapter) _)) eqn:E; [done|]. cbn.
  by apply last_filter_volume.
Qed.

(** ** Accounting *)

(** An entry either carries a span from its identifier (with the folder's kind) or
    from the fallback, or is unidentified without one. *)
Definition entry_ok (kind : option SequenceKind) (e : SequenceEntry) : Prop :=
  match se_source e with
  | Identifier => se_kind e = kind /\ is_Some kind /\ is_Some (se_span e)
  | Fallback => se_kind e = None /\ kind = None /\ is_Some (se_span e)
  | Unidentified => se_kind e = None /\ se_span e = None
  end.

Lemma zip_names (names : list str) {B} (bs : list B) (f : str * B -> SequenceEntry) :
  length names = length bs -> (forall nb, se_name (f nb) = nb.1) ->
  se_name <$> (f <$> zip names bs) = names.
Proof.
  intros Hl Hf. rewrite <- list_fmap_compose. erewrite list_fmap_ext; [|intros ???; apply Hf].
  apply fst_zip. lia.
Qed.

Lemma identifier_entry_ok kind ni : entry_ok (Some kind) (identifier_entry kind ni).
Proof.
  destruct ni as [n [i|]]; unfold identifier_entry; cbn; [|done]. case_bool_decide; cbn; [|done].
  unfold entry_ok; cbn. eauto.
Qed.

Lemma fallback_entry_ok position ns : entry_ok None (fallback_entry position ns).
Proof.
  unfold fallback_entry. destruct (from_right _ _); unfold entry_ok; cbn; eauto.
Qed.

Lemma fill_gaps_kind a : sa_kind (fill_gaps a) = sa_kind a.
Proof.
  unfold fill_gaps. destruct (fold_left _ _ _) as [covered ds].
  destruct (List.hd_error covered), (last covered); cbn; [destruct (_ <? _)|..]; done.
Qed.

Lemma analyze_entries file_names :
  let a := analyze_sequence file_names in
  se_name <$> sa_entries a = file_names /\ Forall (entry_ok (sa_kind a)) (sa_entries a) /\
  sa_unidentified a = se_name <$> List.filter (fun e => is_none (se_span e)) (sa_entries a).
Proof.
  cbv zeta. unfold analyze_sequence.
  match goal with |- context [fill_gaps ?a] => set (a0 := a) end.
  destruct (fill_gaps_spec a0) as (He & Hu & _); [done..|]. rewrite He, Hu.
  rewrite fill_gaps_kind. subst a0. cbn [sa_entries sa_kind sa_unidentified].
  split_and!; [| |done]; destruct (folder_kind _) as [kind|].
  - apply zip_names; [by rewrite !length_fmap|]. intros [n [i|]]; cbn; [|done].
    unfold identifier_entry; cbn. by case_bool_decide.
  - unfold fallback_entries. destruct (changing_position _).
    + apply zip_names; [by rewrite !length_fmap|]. intros [name s]. unfold fallback_entry; cbn.
      by destruct (from_right _ _).
    + rewrite <- list_fmap_compose. by apply list_fmap_id.
  - apply Forall_fmap, Forall_forall. intros ni _. apply identifier_entry_ok.
  - unfold fallback_entries. destruct (changing_position _).
    + apply Forall_fmap, Forall_forall. intros ns _. apply fallback_entry_ok.
    + apply Forall_fmap, Forall_forall. done.
Qed.

(** No file is lost or counted twice: the entries carry the file names in
    order, every entry's source, kind and span agree, and the identified count plus
    the unidentified names is the number of files. *)
Theorem analyze_sequence_accounts file_names :
  let a := analyze_sequence file_names in
  se_name <$> sa_entries a = file_names /\ Forall (entry_ok (sa_kind a)) (sa_entries a) /\
  (identified_count a + length (sa_unidentified a) = length file_names)%nat.
Proof.
  cbv zeta. destruct (analyze_entries file_names) as (Hn & Hok & Hu). split_and!; [done..|].
  transitivity (length (sa_entries (analyze_sequence file_names)));
    [|by rewrite <- (length_fmap se_name), Hn].
  rewrite Hu, length_fmap. unfold identified_count. clear Hn Hok Hu.
  induction (sa_entries _) as [|e es IH]; [done|]. simpl. destruct (is_none _); simpl; lia.
Qed.

(** ** Clean names *)

(** What a cleaned character may be. *)
Definition clean_char (c : Z) : bool :=
  negb (existsb (Z.eqb c) [40; 41; 91; 93; 95]) && (negb (is_whitespace c) || (c =? 32)).

(** No two adjacent spaces, and none in front. *)
Definition spaces_single (s : str) : Prop :=
  List.hd_error s <> Some 32 /\ forall l1 l2, s <> l1 ++ 32 :: 32 :: l2.

Definition clean_inv (s : str) : Prop := forallb clean_char s = true /\ spaces_single s.

Lemma spaces_single_snoc s c :
  spaces_single s -> c <> 32 \/ (s <> [] /\ last s <> Some 32) -> spaces_single (s ++ [c]).
Proof.
  intros [Hh Hd] Hc. split.
  - destruct s; [|done]. simpl. intros [= ->]. naive_solver.
  - intros l1 l2 E. destruct l2 as [|x l2 _] using rev_ind.
    + change (l1 ++ [32; 32]) with (l1 ++ [32] ++ [32]) in E. rewrite app_assoc in E.
      apply app_inj_tail in E as [-> ->]. rewrite last_snoc in Hc. naive_solver.
    + replace (l1 ++ 32 :: 32 :: l2 ++ [x]) with ((l1 ++ 32 :: 32 :: l2) ++ [x]) in E
        by (by rewrite <- app_assoc).
      apply app_inj_tail in E as [-> ->]. by eapply Hd.
Qed.

Lemma push_space_inv s : clean_inv s -> clean_inv (push_space s).
Proof.
  intros [Hc Hs]. unfold push_space, ends_space. destruct s as [|x s]; [done|]. cbn [List.hd_error is_none].
  destruct (last (x :: s)) as [c|] eqn:El; [|by apply last_None in El].
  destruct (Z.eqb_spec c 32); [done|]. split.
  - change (forallb clean_char ((x :: s) ++ [32]) = true). by rewrite forallb_app, Hc.
  - apply (spaces_single_snoc (x :: s)); [done|]. right. split; [done|]. rewrite El. congruence.
Qed.

Lemma clean_step_inv st c : clean_inv st.1 -> clean_inv (clean_step st c).1.
Proof.
  destruct st as [s d]. cbn [fst]. intros H. unfold clean_step.
  destruct (_ || _) eqn:E1; [by apply push_space_inv|].
  destruct ((c =? 41) || _) eqn:E2; [by apply push_space_inv|].
  destruct (0 <? d)%nat; [done|].
  destruct (is_whitespace c || _) eqn:E3; [by apply push_space_inv|]. cbn [fst].
  rewrite orb_false_iff in E1, E2, E3. destruct E1, E2, E3 as [Hw ?], H as [Hc Hs]. split.
  - rewrite forallb_app, Hc. cbn [forallb]. unfold clean_char. cbn [existsb].
    rewrite Hw. by repeat match goal with E : (c =? _) = false |- _ => rewrite E; clear E end.
  - apply spaces_single_snoc; [done|]. left. intros ->. done.
Qed.

(** A cleaned name is normalised: it has no bracket, underscore or whitespace
    other than single inner spaces, and neither starts nor ends with a space, so
    tokens only ever meet single separators. *)
Theorem clean_name_normal file_name :
  clean_inv (clean_name file_name) /\ last (clean_name file_name) <> Some 32.
Proof.
  unfold clean_name. set (stem := strip_extension _).
  assert (H : forall s st, clean_inv st.1 -> clean_inv (fold_left clean_step s st).1).
  { induction s as [|c s IH]; intros st Hst; [done|]. apply IH, clean_step_inv, Hst. }
  specialize (H stem ([], 0%nat)). destruct (fold_left _ _ _) as [cleaned d]. cbn [fst] in H.
  destruct H as [Hc [Hh Hd]].
  { split; [done|]. split; [done|]. by intros [|? [|]]. }
  destruct (drop_while_end_prefix (Z.eqb 32) cleaned) as [tail Ht].
  split; [split; [|split]|].
  - rewrite Ht, forallb_app in Hc. by apply andb_true_iff in Hc as [Hc _].
  - intros E. apply Hh. rewrite Ht. by destruct (drop_while_end _ _).
  - intros l1 l2 E. apply (Hd l1 (l2 ++ tail)). rewrite Ht, E. by rewrite <- app_assoc.
  - intros E%drop_while_end_last. done.
Qed.

(** ** Witnesses *)

Lemma number_print_scan_witness :
  scan_decimal (as_bytes (number_fmt 112100)) 0 = (Some 112100, 5%nat).
Proof. apply (number_print_scan 112100). vm_compute. split; [discriminate|reflexivity]. Defined.

Lemma to_ranges_exact_witness :
  concat (range_values <$> to_ranges [3; 4; 5; 9]) = [3; 4; 5; 9] /\
  length (to_ranges [3; 4; 5; 9]) = 2%nat.
Proof. split; [apply (to_ranges_exact [3; 4; 5; 9]); repeat constructor|reflexivity]. Defined.
