(* ===== verification/Alignment.v ===== *)
(** * Read-aloud alignment artifacts

    Models [src/crates/worker/src/alignment.rs]: the align request and result types,
    the v1 SyncMap, and its validation against the track durations the caller knows
    ([SyncMapV1::validate]) and against the request that produced it
    ([SyncMapV1::validate_for]).

    [serde_json::Value], which the option maps hold, is a type parameter with
    decidable equality.  A [BTreeMap] is a [gmap] iterated in key order. *)

From stdpp Require Import base sets gmap list strings sorting.
From Stdlib Require Import ZArith Lia.
From S2P Require Import Prelude Float64.

#[local] Open Scope Z_scope.
#[local] Open Scope coppice_scope.

Definition SYNC_MAP_SCHEMA_VERSION : Z := 1.
Definition SYNC_MAP_MIME : str := lit "application/vnd.stump.sync-map+json".

Inductive AlignGranularity := Sentence | Word.
Inductive AlignExecutionProvider := Cpu | Cuda | Rocm | Metal.
Inductive AlignPrecision := Fp32 | Fp16 | Int8.

#[export] Instance AlignGranularity_eq_dec : EqDecision AlignGranularity.
Proof. solve_decision. Defined.
#[export] Instance AlignExecutionProvider_eq_dec : EqDecision AlignExecutionProvider.
Proof. solve_decision. Defined.
#[export] Instance AlignPrecision_eq_dec : EqDecision AlignPrecision.
Proof. solve_decision. Defined.

(** ** The result of an align job *)

Record AlignResult := { ar_bytes : Z; ar_sha256 : str }.

(** The struct that crosses the wire, in both directions. *)
Record Wire := { w_bytes : Z; w_sha256 : str; w_mime : str }.

Definition align_result_new (bytes : Z) (sha256 : str) : AlignResult :=
  {| ar_bytes := bytes; ar_sha256 := sha256 |}.

Definition align_result_mime (_ : AlignResult) : str := SYNC_MAP_MIME.

Definition align_result_serialize (r : AlignResult) : Wire :=
  {| w_bytes := ar_bytes r; w_sha256 := ar_sha256 r; w_mime := SYNC_MAP_MIME |}.

Definition align_result_deserialize (wire : Wire) : result AlignResult str :=
  early (negb (bool_decide (w_mime wire = SYNC_MAP_MIME)))
    (lit "align result MIME must be " ++ SYNC_MAP_MIME)
    (Ok (align_result_new (w_bytes wire) (w_sha256 wire))).

(** ** Cues *)

Record TextFragment := { tf_spine_index : Z; tf_ordinal : Z; tf_element_id : str }.

Record AudioClip := { ac_track_index : Z; ac_begin_ms : Z; ac_end_ms : Z }.

Record SyncCue := { cue_text : TextFragment; cue_audio : AudioClip; cue_confidence : option f64 }.

Abbreviation SyncMapValidationContext := (gmap Z Z).

Inductive SyncMapValidationError :=
| UnsupportedSchema (expected found : Z)
| MalformedDigest (field : str)
| EmptyField (field : str)
| InputMismatch (field : str)
| EmptyMap
| DuplicateTarget (cue_index : nat) (spine_index : Z) (element_id : str)
| NegativeSpineIndex (cue_index : nat) (spine_index : Z)
| NegativeOrdinal (cue_index : nat) (ordinal : Z)
| NegativeTrackIndex (cue_index : nat) (track_index : Z)
| EmptyTarget (cue_index : nat)
| NonPositiveInterval (cue_index : nat) (begin_ms end_ms : Z)
| BackwardTextOrder (cue_index : nat) (previous current : TextFragment)
| BackwardAudioOrder (cue_index : nat) (previous_track current_track : Z)
| SameTrackOverlap (cue_index : nat) (track_index : Z)
| UnknownTrack (cue_index : nat) (track_index : Z)
| ClipOutOfBounds (cue_index : nat) (track_index end_ms duration_ms : Z)
| InvalidConfidence (cue_index : nat) (value : f64)
| InvalidTrackDuration (track_index duration_ms : Z).

Definition is_lowercase_sha256 (value : str) : bool :=
  (str_len value =? 64)
  && forallb (fun byte => is_ascii_digit byte || ((97 <=? byte) && (byte <=? 102))) (as_bytes value).

(** Iterating a [BTreeMap<i32, i64>]: by ascending key. *)
Definition key_le (p q : Z * Z) : Prop := p.1 <= q.1.

#[export] Instance key_le_dec p q : Decision (key_le p q).
Proof. unfold key_le. apply _. Defined.

Definition btree_iter (m : gmap Z Z) : list (Z * Z) := merge_sort key_le (map_to_list m).

(** ** The cue loop *)

(** The loop's variables. *)
Record ValidateState := {
  targets : gset (Z * str);
  previous_text : option TextFragment;
  previous_audio : option AudioClip;
}.

Definition initial_state : ValidateState :=
  {| targets := ∅; previous_text := None; previous_audio := None |}.

(** [(a.spine_index, a.ordinal) < (b.spine_index, b.ordinal)]. *)
Definition text_lt (a b : TextFragment) : bool :=
  (tf_spine_index a <? tf_spine_index b)
  || ((tf_spine_index a =? tf_spine_index b) && (tf_ordinal a <? tf_ordinal b)).

Definition bad_confidence (confidence : f64) : bool :=
  negb (is_finite confidence) || negb (fle f64_zero confidence && fle confidence f64_one).

Definition check_confidence {A} (cue_index : nat) (confidence : option f64)
    (k : result A SyncMapValidationError) : result A SyncMapValidationError :=
  match confidence with
  | Some c => early (bad_confidence c) (InvalidConfidence cue_index c) k
  | None => k
  end.

Definition check_text_order {A} (cue_index : nat) (previous : option TextFragment)
    (current : TextFragment) (k : result A SyncMapValidationError) : result A SyncMapValidationError :=
  match previous with
  | Some previous =>
      early (text_lt current previous) (BackwardTextOrder cue_index previous current) k
  | None => k
  end.

Definition check_audio_order {A} (cue_index : nat) (previous : option AudioClip)
    (current : AudioClip) (k : result A SyncMapValidationError) : result A SyncMapValidationError :=
  match previous with
  | Some previous =>
      let backward :=
        BackwardAudioOrder cue_index (ac_track_index previous) (ac_track_index current) in
      early (ac_track_index current <? ac_track_index previous) backward
        (if ac_track_index current =? ac_track_index previous then
           early (ac_begin_ms current <? ac_begin_ms previous) backward
             (early (ac_begin_ms current <? ac_end_ms previous)
                (SameTrackOverlap cue_index (ac_track_index current)) k)
         else k)
  | None => k
  end.

Definition cue_target (cue : SyncCue) : Z * str :=
  (tf_spine_index (cue_text cue), tf_element_id (cue_text cue)).

(** One iteration. *)
Definition check_cue (track_durations_ms : SyncMapValidationContext) (st : ValidateState)
    (cue_index : nat) (cue : SyncCue) : result ValidateState SyncMapValidationError :=
  let text := cue_text cue in
  let audio := cue_audio cue in
  early (tf_spine_index text <? 0) (NegativeSpineIndex cue_index (tf_spine_index text)) (
  early (tf_ordinal text <? 0) (NegativeOrdinal cue_index (tf_ordinal text)) (
  early (ac_track_index audio <? 0) (NegativeTrackIndex cue_index (ac_track_index audio)) (
  early (is_none (List.hd_error (tf_element_id text))) (EmptyTarget cue_index) (
  early (bool_decide (cue_target cue ∈ targets st))
    (DuplicateTarget cue_index (tf_spine_index text) (tf_element_id text)) (
  early ((ac_begin_ms audio <? 0) || (ac_end_ms audio <=? ac_begin_ms audio))
    (NonPositiveInterval cue_index (ac_begin_ms audio) (ac_end_ms audio)) (
  match track_durations_ms !! ac_track_index audio with
  | None => Err (UnknownTrack cue_index (ac_track_index audio))
  | Some duration_ms =>
      early (duration_ms <? ac_end_ms audio)
        (ClipOutOfBounds cue_index (ac_track_index audio) (ac_end_ms audio) duration_ms) (
      check_confidence cue_index (cue_confidence cue) (
      check_text_order cue_index (previous_text st) text (
      check_audio_order cue_index (previous_audio st) audio (
      Ok {| targets := {[ cue_target cue ]} ∪ targets st;
            previous_text := Some text; previous_audio := Some audio |}))))
  end)))))).

Fixpoint check_cues (track_durations_ms : SyncMapValidationContext) (st : ValidateState)
    (cue_index : nat) (cues : list SyncCue) : result unit SyncMapValidationError :=
  match cues with
  | [] => Ok tt
  | cue :: rest =>
      let? st' := check_cue track_durations_ms st cue_index cue in
      check_cues track_durations_ms st' (S cue_index) rest
  end.

(** [for (&track_index, &duration_ms) in track_durations_ms]. *)
Fixpoint check_durations (durations : list (Z * Z)) : result unit SyncMapValidationError :=
  match durations with
  | [] => Ok tt
  | (track_index, duration_ms) :: rest =>
      early (duration_ms <=? 0) (InvalidTrackDuration track_index duration_ms) (check_durations rest)
  end.

(** [if value.trim().is_empty()], over the field table. *)
Fixpoint check_fields (fields : list (string * str)) : result unit SyncMapValidationError :=
  match fields with
  | [] => Ok tt
  | (field, value) :: rest =>
      early (is_none (List.hd_error (trim value))) (EmptyField (lit field)) (check_fields rest)
  end.

(** [if !matches], over the identity table. *)
Fixpoint check_matches (fields : list (string * bool)) : result unit SyncMapValidationError :=
  match fields with
  | [] => Ok tt
  | (field, matches) :: rest =>
      early (negb matches) (InputMismatch (lit field)) (check_matches rest)
  end.

Section SyncMap.
Context {Value : Type} `{EqDecision Value}.

Record AlignInput := {
  ai_text_media_id : str;
  ai_text_digest : str;
  ai_audio_media_id : str;
  ai_audio_manifest_digest : str;
  ai_algorithm : str;
  ai_model : str;
  ai_model_revision : str;
  ai_language : str;
  ai_granularity : AlignGranularity;
  ai_execution_provider : AlignExecutionProvider;
  ai_precision : AlignPrecision;
  ai_options : gmap str Value;
}.

Record SyncMapProvenance := {
  pv_text_digest : str;
  pv_audio_manifest_digest : str;
  pv_implementation : str;
  pv_version : str;
  pv_algorithm : str;
  pv_model : str;
  pv_model_revision : str;
  pv_language : str;
  pv_granularity : AlignGranularity;
  pv_execution_provider : AlignExecutionProvider;
  pv_precision : AlignPrecision;
  pv_options : gmap str Value;
}.

Record SyncMapV1 := {
  sm_schema : Z;
  sm_text_media_id : str;
  sm_audio_media_id : str;
  sm_provenance : SyncMapProvenance;
  sm_cues : list SyncCue;
}.

Definition required_fields (m : SyncMapV1) : list (string * str) :=
  let p := sm_provenance m in
  [("text_media_id", sm_text_media_id m);
   ("audio_media_id", sm_audio_media_id m);
   ("provenance.implementation", pv_implementation p);
   ("provenance.version", pv_version p);
   ("provenance.algorithm", pv_algorithm p);
   ("provenance.model", pv_model p);
   ("provenance.model_revision", pv_model_revision p);
   ("provenance.language", pv_language p)]%string.

Definition validate (m : SyncMapV1) (track_durations_ms : SyncMapValidationContext)
  : result unit SyncMapValidationError :=
  let p := sm_provenance m in
  early (negb (sm_schema m =? SYNC_MAP_SCHEMA_VERSION))
    (UnsupportedSchema SYNC_MAP_SCHEMA_VERSION (sm_schema m)) (
  early (negb (is_lowercase_sha256 (pv_text_digest p)))
    (MalformedDigest (lit "provenance.text_digest")) (
  early (negb (is_lowercase_sha256 (pv_audio_manifest_digest p)))
    (MalformedDigest (lit "provenance.audio_manifest_digest")) (
  let? _ := check_fields (required_fields m) in
  early (is_none (List.hd_error (sm_cues m))) EmptyMap (
  let? _ := check_durations (btree_iter track_durations_ms) in
  check_cues track_durations_ms initial_state 0 (sm_cues m))))).

Definition identity_fields (m : SyncMapV1) (input : AlignInput) : list (string * bool) :=
  let p := sm_provenance m in
  [("text_media_id", bool_decide (sm_text_media_id m = ai_text_media_id input));
   ("provenance.text_digest", bool_decide (pv_text_digest p = ai_text_digest input));
   ("audio_media_id", bool_decide (sm_audio_media_id m = ai_audio_media_id input));
   ("provenance.audio_manifest_digest",
     bool_decide (pv_audio_manifest_digest p = ai_audio_manifest_digest input));
   ("provenance.algorithm", bool_decide (pv_algorithm p = ai_algorithm input));
   ("provenance.model", bool_decide (pv_model p = ai_model input));
   ("provenance.model_revision", bool_decide (pv_model_revision p = ai_model_revision input));
   ("provenance.language", bool_decide (pv_language p = ai_language input));
   ("provenance.granularity", bool_decide (pv_granularity p = ai_granularity input));
   ("provenance.execution_provider",
     bool_decide (pv_execution_provider p = ai_execution_provider input));
   ("provenance.precision", bool_decide (pv_precision p = ai_precision input));
   ("provenance.options", bool_decide (pv_options p = ai_options input))]%string.

Definition validate_for (m : SyncMapV1) (input : AlignInput)
    (track_durations_ms : SyncMapValidationContext) : result unit SyncMapValidationError :=
  let? _ := validate m track_durations_ms in
  check_matches (identity_fields m input).

Definition validate_sync_map (m : SyncMapV1) (track_durations_ms : SyncMapValidationContext) :=
  validate m track_durations_ms.

Definition validate_sync_map_for_input (m : SyncMapV1) (input : AlignInput)
    (track_durations_ms : SyncMapValidationContext) :=
  validate_for m input track_durations_ms.

End SyncMap.

Arguments AlignInput : clear implicits.
Arguments SyncMapProvenance : clear implicits.
Arguments SyncMapV1 : clear implicits.

(** ** Specification *)

(** A cue by itself, against the track durations. *)
Record cue_ok (durations : SyncMapValidationContext) (cue : SyncCue) : Prop := {
  ck_spine : 0 <= tf_spine_index (cue_text cue);
  ck_ordinal : 0 <= tf_ordinal (cue_text cue);
  ck_track : 0 <= ac_track_index (cue_audio cue);
  ck_target : tf_element_id (cue_text cue) <> [];
  ck_interval : 0 <= ac_begin_ms (cue_audio cue) < ac_end_ms (cue_audio cue);
  ck_bounds : exists d, durations !! ac_track_index (cue_audio cue) = Some d /\
                ac_end_ms (cue_audio cue) <= d;
  ck_confidence : forall c, cue_confidence cue = Some c -> in_unit c;
}.

(** [c1] is read before [c2]: text order weakly, audio order without overlap. *)
Definition cue_before (c1 c2 : SyncCue) : Prop :=
  text_lt (cue_text c2) (cue_text c1) = false /\
  (ac_track_index (cue_audio c1) < ac_track_index (cue_audio c2) \/
   ac_track_index (cue_audio c1) = ac_track_index (cue_audio c2) /\
   ac_end_ms (cue_audio c1) <= ac_begin_ms (cue_audio c2)).

(** A cue list as a whole: every pair is ordered, whatever lies between them. *)
Definition valid_cues (durations : SyncMapValidationContext) (cues : list SyncCue) : Prop :=
  Forall (cue_ok durations) cues /\ NoDup (cue_target <$> cues) /\ StronglySorted cue_before cues.

(** The cue an error points at. *)
Definition error_cue (e : SyncMapValidationError) : option nat :=
  match e with
  | DuplicateTarget i _ _ | NegativeSpineIndex i _ | NegativeOrdinal i _ | NegativeTrackIndex i _
  | EmptyTarget i | NonPositiveInterval i _ _ | BackwardTextOrder i _ _ | BackwardAudioOrder i _ _
  | SameTrackOverlap i _ | UnknownTrack i _ | ClipOutOfBounds i _ _ _ | InvalidConfidence i _ => Some i
  | _ => None
  end.

(** [e] describes what is wrong with [cue] after [seen]. *)
Definition explains (durations : SyncMapValidationContext) (seen : list SyncCue) (cue : SyncCue)
    (e : SyncMapValidationError) : Prop :=
  let text := cue_text cue in
  let audio := cue_audio cue in
  match e with
  | DuplicateTarget _ s id => (s, id) = cue_target cue /\ cue_target cue ∈ (cue_target <$> seen)
  | NegativeSpineIndex _ s => s = tf_spine_index text /\ s < 0
  | NegativeOrdinal _ o => o = tf_ordinal text /\ o < 0
  | NegativeTrackIndex _ t => t = ac_track_index audio /\ t < 0
  | EmptyTarget _ => tf_element_id text = []
  | NonPositiveInterval _ b e => b = ac_begin_ms audio /\ e = ac_end_ms audio /\ (b < 0 \/ e <= b)
  | BackwardTextOrder _ p c =>
      c = text /\ cue_text <$> last seen = Some p /\ text_lt c p = true
  | BackwardAudioOrder _ pt ct =>
      exists p, last seen = Some p /\ pt = ac_track_index (cue_audio p) /\ ct = ac_track_index audio /\
        (ct < pt \/ ct = pt /\ ac_begin_ms audio < ac_begin_ms (cue_audio p))
  | SameTrackOverlap _ t =>
      exists p, last seen = Some p /\ t = ac_track_index audio /\ t = ac_track_index (cue_audio p) /\
        ac_begin_ms (cue_audio p) <= ac_begin_ms audio < ac_end_ms (cue_audio p)
  | UnknownTrack _ t => t = ac_track_index audio /\ durations !! t = None
  | ClipOutOfBounds _ t e d =>
      t = ac_track_index audio /\ e = ac_end_ms audio /\ durations !! t = Some d /\ d < e
  | InvalidConfidence _ v => cue_confidence cue = Some v /\ ~ in_unit v
  | _ => False
  end.

(** ** The cue loop *)

Lemma bad_confidence_iff c : bad_confidence c = false <-> in_unit c.
Proof.
  unfold bad_confidence. rewrite orb_false_iff, !negb_false_iff, andb_true_iff. unfold in_unit.
  split; [by intros [_ ?]|]. intros Hu. split; [by apply in_unit_finite|done].
Qed.

(** The loop's state after the cues [seen]. *)
Definition state_after (seen : list SyncCue) : ValidateState :=
  {| targets := list_to_set (cue_target <$> seen);
     previous_text := cue_text <$> last seen;
     previous_audio := cue_audio <$> last seen |}.

Lemma state_after_snoc seen cue :
  state_after (seen ++ [cue]) =
    {| targets := {[ cue_target cue ]} ∪ targets (state_after seen);
       previous_text := Some (cue_text cue); previous_audio := Some (cue_audio cue) |}.
Proof.
  unfold state_after. rewrite last_snoc, fmap_app. cbn. f_equal.
  apply set_eq. intros x. set_solver.
Qed.

Definition follows (previous : option SyncCue) (cue : SyncCue) : Prop :=
  match previous with Some p => cue_before p cue | None => True end.

(** The order checks, on the last cue seen. *)
Lemma check_order_Ok {A} i (previous : option SyncCue) cue (k : result A SyncMapValidationError) a :
  match previous with Some p => ac_begin_ms (cue_audio p) < ac_end_ms (cue_audio p) | None => True end ->
  check_text_order i (cue_text <$> previous) (cue_text cue)
    (check_audio_order i (cue_audio <$> previous) (cue_audio cue) k) = Ok a
  <-> follows previous cue /\ k = Ok a.
Proof.
  destruct previous as [p|]; cbn; [|naive_solver]. intros Hp. unfold cue_before.
  rewrite !early_Ok. destruct (Z.eqb_spec (ac_track_index (cue_audio cue)) (ac_track_index (cue_audio p))).
  - rewrite !early_Ok, !Z.ltb_ge. split; [intros (?&?&?&?&?)|intros [(?&[?|[??]]) ?]]; split_and!; auto; lia.
  - rewrite Z.ltb_ge. split; [intros (?&?&?)|intros [(?&[?|[??]]) ?]]; split_and!; auto; lia.
Qed.

Lemma check_confidence_Ok {A} i c (k : result A SyncMapValidationError) a :
  check_confidence i c k = Ok a <-> (forall x, c = Some x -> in_unit x) /\ k = Ok a.
Proof.
  destruct c as [x|]; cbn; [|naive_solver]. rewrite early_Ok, bad_confidence_iff. naive_solver.
Qed.

Lemma last_interval durations seen :
  Forall (cue_ok durations) seen ->
  match last seen with Some p => ac_begin_ms (cue_audio p) < ac_end_ms (cue_audio p) | None => True end.
Proof.
  intros Hs. destruct (last seen) as [p|] eqn:E; [|done]. apply last_Some_elem_of in E.
  rewrite Forall_forall in Hs. apply (ck_interval _ _ (Hs _ E)).
Qed.

Lemma check_cue_Ok durations seen i cue st :
  Forall (cue_ok durations) seen ->
  check_cue durations (state_after seen) i cue = Ok st <->
  cue_ok durations cue /\ (cue_target cue ∉ (cue_target <$> seen)) /\ follows (last seen) cue /\
  st = state_after (seen ++ [cue]).
Proof.
  intros Hs. pose proof (last_interval _ _ Hs) as Hp. unfold check_cue. rewrite !early_Ok.
  rewrite !Z.ltb_ge, hd_error_none, bool_decide_eq_false, orb_false_iff, Z.ltb_ge, Z.leb_gt.
  assert (Ht : cue_target cue ∈ targets (state_after seen) <-> cue_target cue ∈ (cue_target <$> seen))
    by (unfold state_after; cbn; set_solver).
  rewrite Ht, state_after_snoc. destruct (durations !! _) as [d|] eqn:Ed.
  - rewrite early_Ok, Z.ltb_ge, check_confidence_Ok.
    unfold state_after at 1 2; cbn [previous_text previous_audio]. rewrite check_order_Ok by done.
    split.
    + intros (?&?&?&?&?&[??]&?&?&?&[= <-]). split; [constructor; eauto|done].
    + intros ([????[??](d'&Ed'&?)?]&?&?&->). rewrite Ed in Ed'. simplify_eq. done.
  - split; [naive_solver|]. intros ([?????(d'&Ed'&?)?]&_). congruence.
Qed.

(** ** Growing a valid cue list by one cue *)

Lemma cue_before_trans c1 c2 c3 :
  ac_begin_ms (cue_audio c2) < ac_end_ms (cue_audio c2) ->
  cue_before c1 c2 -> cue_before c2 c3 -> cue_before c1 c3.
Proof.
  unfold cue_before, text_lt. intros ? [T1 A1] [T2 A2].
  rewrite orb_false_iff, andb_false_iff, !Z.ltb_ge, Z.eqb_neq in *. split; lia.
Qed.

Lemma all_before_last durations seen cue :
  valid_cues durations seen -> follows (last seen) cue <-> Forall (fun c => cue_before c cue) seen.
Proof.
  intros (Hok & _ & Hs). destruct seen as [|p seen _] using rev_ind; [by cbn|].
  rewrite last_snoc. cbn. apply StronglySorted_snoc in Hs as [_ Hs].
  apply Forall_app in Hok as [_ Hp%Forall_inv]. rewrite Forall_app, Forall_singleton.
  split; [|by intros [_ ?]]. intros Hpc. split; [|done]. eapply Forall_impl; [exact Hs|].
  intros c Hc. cbn in Hc. eapply cue_before_trans; [|exact Hc|exact Hpc]. apply Hp.
Qed.

Lemma valid_cues_snoc durations seen cue :
  valid_cues durations (seen ++ [cue]) <->
  valid_cues durations seen /\ cue_ok durations cue /\ (cue_target cue ∉ (cue_target <$> seen)) /\
  follows (last seen) cue.
Proof.
  assert (Hiff : valid_cues durations (seen ++ [cue]) <->
            valid_cues durations seen /\ cue_ok durations cue /\
            (cue_target cue ∉ (cue_target <$> seen)) /\ Forall (fun c => cue_before c cue) seen).
  { unfold valid_cues. rewrite Forall_app, Forall_singleton, fmap_app, NoDup_app, StronglySorted_snoc.
    change (cue_target <$> [cue]) with [cue_target cue].
    assert (NoDup [cue_target cue]) by (apply NoDup_singleton).
    assert ((forall x, x ∈ (cue_target <$> seen) -> x ∉ [cue_target cue]) <->
            cue_target cue ∉ (cue_target <$> seen)) as ->.
    { setoid_rewrite list_elem_of_singleton. split; [intros Hx Hin; by eapply Hx|].
      intros Hn x Hx ->. done. }
    tauto. }
  rewrite Hiff. split; intros (Hv & ? & ? & Hf); split_and!; try done; by eapply all_before_last.
Qed.

Lemma valid_cues_nil durations : valid_cues durations [].
Proof. split_and!; constructor. Qed.

Lemma check_cues_Ok durations seen cues :
  valid_cues durations seen ->
  check_cues durations (state_after seen) (length seen) cues = Ok tt <-> valid_cues durations (seen ++ cues).
Proof.
  revert seen. induction cues as [|cue cues IH]; intros seen Hv; cbn [check_cues].
  { rewrite app_nil_r. done. }
  rewrite result_bind_Ok. setoid_rewrite check_cue_Ok; [|apply Hv].
  replace (seen ++ cue :: cues) with ((seen ++ [cue]) ++ cues) by (by rewrite <- app_assoc).
  replace (S (length seen)) with (length (seen ++ [cue])) by (rewrite length_app; simpl; lia).
  split.
  - intros (st & (Hok & Hn & Hf & ->) & Hr). apply IH in Hr; [done|]. by apply valid_cues_snoc.
  - intros Hall. assert (Hv' : valid_cues durations (seen ++ [cue])).
    { destruct Hall as (H1 & H2 & H3). rewrite Forall_app in H1. rewrite fmap_app, NoDup_app in H2.
      split_and!; [apply H1|apply H2|]. clear -H3. induction cues as [|c cues IHc] using rev_ind.
      - by rewrite app_nil_r in H3.
      - rewrite app_assoc in H3. apply StronglySorted_snoc in H3 as [H3 _]. auto. }
    exists (state_after (seen ++ [cue])). split; [|by apply IH].
    apply valid_cues_snoc in Hv' as (?&?&?&?). done.
Qed.

(** ** Errors of the cue loop *)

Lemma check_order_Err {A} durations seen i cue (k : result A SyncMapValidationError) e :
  check_text_order i (cue_text <$> last seen) (cue_text cue)
    (check_audio_order i (cue_audio <$> last seen) (cue_audio cue) k) = Err e ->
  (error_cue e = Some i /\ explains durations seen cue e) \/ k = Err e.
Proof.
  destruct (last seen) as [p|] eqn:El; cbn; [|auto]. rewrite !early_Err.
  intros [[Ht ->]|[_ [[Hb%Z.ltb_lt ->]|[Hb%Z.ltb_ge He]]]].
  - left. cbn. by rewrite El.
  - left. cbn. split; [done|]. exists p. auto.
  - destruct (Z.eqb_spec (ac_track_index (cue_audio cue)) (ac_track_index (cue_audio p)));
      [|by right]. rewrite !early_Err in He.
    destruct He as [[H1%Z.ltb_lt ->]|[H1%Z.ltb_ge [[H2%Z.ltb_lt ->]|[_ ?]]]]; [left..|by right];
      cbn; (split; [done|]); exists p; split_and!; auto.
Qed.

Lemma check_cue_Err durations seen i cue e :
  check_cue durations (state_after seen) i cue = Err e ->
  error_cue e = Some i /\ explains durations seen cue e.
Proof.
  unfold check_cue. rewrite !early_Err, !Z.ltb_lt, bool_decide_eq_true, orb_true_iff, Z.ltb_lt, Z.leb_le.
  intros [[? ->]|[_ [[? ->]|[_ [[? ->]|[_ [[? ->]|[_ [[Ht ->]|[_ [[? ->]|[_ He]]]]]]]]]]]].
  1-3: by cbn.
  - cbn. split; [done|]. by destruct (tf_element_id _).
  - cbn. split_and!; [done..|]. unfold state_after in Ht; cbn in Ht. set_solver.
  - by cbn.
  - destruct (durations !! _) as [d|] eqn:Ed; [|by simplify_eq].
    rewrite early_Err, Z.ltb_lt in He. destruct He as [[? ->]|[_ He]]; [by cbn|].
    destruct (cue_confidence cue) as [c|] eqn:Ec; cbn in He.
    + rewrite early_Err in He. destruct He as [[Hc ->]|[_ He]].
      * cbn. split_and!; [done..|]. rewrite <- bad_confidence_iff. congruence.
      * eapply check_order_Err in He as [?|?]; [done|simplify_eq].
    + eapply check_order_Err in He as [?|?]; [done|simplify_eq].
Qed.

Lemma check_cues_Err durations seen cues e :
  valid_cues durations seen ->
  check_cues durations (state_after seen) (length seen) cues = Err e ->
  exists pre cue post, cues = pre ++ cue :: post /\ valid_cues durations (seen ++ pre) /\
    error_cue e = Some (length (seen ++ pre)) /\ explains durations (seen ++ pre) cue e.
Proof.
  revert seen. induction cues as [|cue cues IH]; intros seen Hv; cbn [check_cues]; [done|].
  rewrite result_bind_Err. intros [He|(st & Hok & He)].
  - exists [], cue, cues. rewrite app_nil_r. by apply check_cue_Err in He as [??].
  - apply check_cue_Ok in Hok as (?&?&?&->); [|apply Hv].
    replace (S (length seen)) with (length (seen ++ [cue])) in He by (rewrite length_app; simpl; lia).
    apply IH in He as (pre & c & post & -> & Hpre & Hi & He); [|by apply valid_cues_snoc].
    exists (cue :: pre), c, post. by rewrite <- !app_assoc in *.
Qed.

(** ** Headers *)

Lemma check_fields_Ok fields :
  check_fields fields = Ok tt <-> Forall (fun fv => trim fv.2 <> []) fields.
Proof.
  induction fields as [|[f v] fields IH]; cbn [check_fields]; [by split|].
  rewrite early_Ok, hd_error_none, IH, Forall_cons. done.
Qed.

Lemma check_matches_Ok fields :
  check_matches fields = Ok tt <-> Forall (fun fm => fm.2 = true) fields.
Proof.
  induction fields as [|[f b] fields IH]; cbn [check_matches]; [by split|].
  rewrite early_Ok, negb_false_iff, IH, Forall_cons. done.
Qed.

Lemma check_durations_Ok l :
  check_durations l = Ok tt <-> Forall (fun td => 0 < td.2) l.
Proof.
  induction l as [|[t d] l IH]; cbn [check_durations]; [by split|].
  rewrite early_Ok, Z.leb_gt, IH, Forall_cons. done.
Qed.

Lemma check_fields_no_cue fields e : check_fields fields = Err e -> error_cue e = None.
Proof.
  induction fields as [|[f v] fields IH]; cbn [check_fields]; [done|].
  rewrite early_Err. intros [[_ ->]|[_ ?]]; auto.
Qed.

Lemma check_durations_no_cue l e : check_durations l = Err e -> error_cue e = None.
Proof.
  induction l as [|[t d] l IH]; cbn [check_durations]; [done|].
  rewrite early_Err. intros [[_ ->]|[_ ?]]; auto.
Qed.

Lemma check_matches_Err fields e :
  check_matches fields = Err e ->
  exists field matches, (field, matches) ∈ fields /\ matches = false /\ e = InputMismatch (lit field).
Proof.
  induction fields as [|[f b] fields IH]; cbn [check_matches]; [done|].
  rewrite early_Err, negb_true_iff. intros [[-> ->]|[_ He]].
  - exists f, false. split; [by left|done].
  - destruct (IH He) as (f' & b' & ? & ?). exists f', b'. split; [by right|done].
Qed.

Lemma btree_iter_positive m :
  check_durations (btree_iter m) = Ok tt <-> map_Forall (fun _ d => 0 < d) m.
Proof.
  rewrite check_durations_Ok. unfold btree_iter. rewrite merge_sort_Permutation.
  rewrite map_Forall_to_list. apply Forall_iff. by intros [].
Qed.

Section Theorems.
Context {Value : Type} `{EqDecision Value}.
Implicit Types (m : SyncMapV1 Value) (input : AlignInput Value).

(** A well-formed SyncMap, whatever order the checks come in. *)
Record valid_map (m : SyncMapV1 Value) (durations : SyncMapValidationContext) : Prop := {
  vm_schema : sm_schema m = SYNC_MAP_SCHEMA_VERSION;
  vm_text_digest : is_lowercase_sha256 (pv_text_digest (sm_provenance m)) = true;
  vm_audio_digest : is_lowercase_sha256 (pv_audio_manifest_digest (sm_provenance m)) = true;
  vm_fields : Forall (fun fv => trim fv.2 <> []) (required_fields m);
  vm_nonempty : sm_cues m <> [];
  vm_durations : map_Forall (fun _ d => 0 < d) durations;
  vm_cues : valid_cues durations (sm_cues m);
}.

(** A map made for a request. *)
Record produced_for (m : SyncMapV1 Value) (input : AlignInput Value) : Prop := {
  pf_text : sm_text_media_id m = ai_text_media_id input;
  pf_audio : sm_audio_media_id m = ai_audio_media_id input;
  pf_provenance : sm_provenance m =
    {| pv_text_digest := ai_text_digest input;
       pv_audio_manifest_digest := ai_audio_manifest_digest input;
       pv_implementation := pv_implementation (sm_provenance m);
       pv_version := pv_version (sm_provenance m);
       pv_algorithm := ai_algorithm input;
       pv_model := ai_model input;
       pv_model_revision := ai_model_revision input;
       pv_language := ai_language input;
       pv_granularity := ai_granularity input;
       pv_execution_provider := ai_execution_provider input;
       pv_precision := ai_precision input;
       pv_options := ai_options input |};
}.

Lemma validate_Ok m durations : validate m durations = Ok tt <-> valid_map m durations.
Proof.
  unfold validate. rewrite !early_Ok, !negb_false_iff, Z.eqb_eq.
  change initial_state with (state_after []).
  pose proof (check_cues_Ok durations [] (sm_cues m) (valid_cues_nil _)) as Hc.
  cbn [length app] in Hc. split.
  - intros (? & ? & ? & He). apply result_bind_Ok in He as ([] & ?%check_fields_Ok & He).
    apply early_Ok in He as [?%hd_error_none He].
    apply result_bind_Ok in He as ([] & ?%btree_iter_positive & ?%Hc). by constructor.
  - intros [? ? ? Hf Hn Hd Hv]. split_and!; [done..|]. apply result_bind_Ok. exists tt.
    split; [by apply check_fields_Ok|]. apply early_Ok. split; [by apply hd_error_none|].
    apply result_bind_Ok. exists tt. split; [by apply btree_iter_positive|by apply Hc].
Qed.

Lemma identity_fields_Ok m input :
  check_matches (identity_fields m input) = Ok tt <-> produced_for m input.
Proof.
  rewrite check_matches_Ok. unfold identity_fields. rewrite !Forall_cons. cbn [snd].
  rewrite !bool_decide_eq_true. split.
  - intros (?&?&?&?&?&?&?&?&?&?&?&?&_). constructor; [done..|].
    destruct (sm_provenance m); cbn in *. by subst.
  - intros [? ? ->]. cbn. by repeat split.
Qed.

(** [validate] accepts exactly the well-formed maps: supported schema, lower-case
    SHA-256 digests, no blank field, positive track durations, and cues that are each
    well formed and within their track, target every text element at most once, and
    are ordered pairwise -- no cue anywhere in the map moves backward in the text or
    overlaps any other cue of its track, although only neighbours are compared. *)
Theorem validate_exact m durations :
  validate m durations = Ok tt <-> valid_map m durations.
Proof. apply validate_Ok. Qed.

(** Validation blames the first bad cue: an error that points at a cue names the
    index at which the map stops being valid (every earlier cue is fine) and states a
    condition that cue really violates; an error that points at no cue leaves the cue
    loop unreached. *)
Theorem validate_blames_first m durations e :
  validate m durations = Err e ->
  match error_cue e with
  | Some i => exists cue, sm_cues m !! i = Some cue /\
      valid_cues durations (take i (sm_cues m)) /\ explains durations (take i (sm_cues m)) cue e
  | None => ~ (sm_schema m = SYNC_MAP_SCHEMA_VERSION /\
               is_lowercase_sha256 (pv_text_digest (sm_provenance m)) = true /\
               is_lowercase_sha256 (pv_audio_manifest_digest (sm_provenance m)) = true /\
               Forall (fun fv => trim fv.2 <> []) (required_fields m) /\ sm_cues m <> [] /\
               map_Forall (fun _ d => 0 < d) durations)
  end.
Proof.
  intros He. unfold validate in He. rewrite !early_Err, !negb_true_iff, Z.eqb_neq in He.
  destruct He as [[? ->]|[_ [[? ->]|[_ [[? ->]|[_ He]]]]]]; [cbn; intuition congruence..|].
  apply result_bind_Err in He as [He|([] & _ & He)].
  { rewrite (check_fields_no_cue _ _ He). intros (_ & _ & _ & Hf%check_fields_Ok & _). congruence. }
  apply early_Err in He as [[? ->]|[_ He]].
  { cbn. intros (_ & _ & _ & _ & Hc & _). by destruct (sm_cues m). }
  apply result_bind_Err in He as [He|([] & _ & He)].
  { rewrite (check_durations_no_cue _ _ He).
    intros (_ & _ & _ & _ & _ & Hd%btree_iter_positive). congruence. }
  change initial_state with (state_after []) in He.
  apply check_cues_Err in He as (pre & cue & post & -> & Hv & Hi & Hx); [|apply valid_cues_nil].
  cbn [app] in *. rewrite Hi. exists cue. rewrite take_app_length, list_lookup_middle; done.
Qed.

(** [validate_for] accepts exactly the well-formed maps whose identities and
    generator options are those of the request; a malformed map is reported as such
    before any mismatch is looked for. *)
Theorem validate_for_exact m input durations :
  (validate_for m input durations = Ok tt <-> valid_map m durations /\ produced_for m input) /\
  (forall e, validate m durations = Err e -> validate_for m input durations = Err e) /\
  (forall e, validate_for m input durations = Err e -> valid_map m durations ->
     exists field matches, (field, matches) ∈ identity_fields m input /\ matches = false /\
       e = InputMismatch (lit field)).
Proof.
  unfold validate_for. split_and!.
  - rewrite result_bind_Ok. split.
    + intros ([] & ?%validate_Ok & ?%identity_fields_Ok). done.
    + intros [?%validate_Ok ?%identity_fields_Ok]. by exists tt.
  - intros e ->. done.
  - intros e He Hv%validate_Ok. rewrite Hv in He. cbn in He. by apply check_matches_Err.
Qed.

End Theorems.

(** ** Align results *)

(** A result round-trips through its wire form, which always advertises the
    SyncMap MIME type; a wire value with any other MIME type is refused. *)
Theorem align_result_roundtrip r wire :
  align_result_deserialize (align_result_serialize r) = Ok r /\
  w_mime (align_result_serialize r) = align_result_mime r /\
  (is_ok (align_result_deserialize wire) = true <-> w_mime wire = SYNC_MAP_MIME).
Proof.
  split_and!.
  - destruct r. unfold align_result_deserialize, align_result_serialize. cbn [w_mime].
    by rewrite bool_decide_true.
  - done.
  - unfold align_result_deserialize. case_bool_decide; by cbn.
Qed.

(** ** Witnesses *)

Definition demo_cue (spine ordinal : Z) (id : string) (begin_ms end_ms : Z) : SyncCue :=
  {| cue_text := {| tf_spine_index := spine; tf_ordinal := ordinal; tf_element_id := lit id |};
     cue_audio := {| ac_track_index := 0; ac_begin_ms := begin_ms; ac_end_ms := end_ms |};
     cue_confidence := Some f64_one |}.

Definition demo_map (cues : list SyncCue) : SyncMapV1 Z :=
  {| sm_schema := 1; sm_text_media_id := lit "t"; sm_audio_media_id := lit "a";
     sm_provenance :=
       {| pv_text_digest := replicate 64 97; pv_audio_manifest_digest := replicate 64 48;
          pv_implementation := lit "w"; pv_version := lit "1"; pv_algorithm := lit "ctc";
          pv_model := lit "m"; pv_model_revision := lit "r"; pv_language := lit "en";
          pv_granularity := Sentence; pv_execution_provider := Cpu; pv_precision := Fp32;
          pv_options := ∅ |};
     sm_cues := cues |}.

Example demo_map_accepted :
  validate (demo_map [demo_cue 0 0 "s1" 0 900; demo_cue 0 1 "s2" 900 1500]) {[ 0 := 2000 ]} = Ok tt.
Proof. vm_compute. reflexivity. Qed.

Lemma validate_blames_first_witness :
  explains {[ 0 := 2000 ]} [demo_cue 0 0 "s1" 0 900] (demo_cue 0 1 "s2" 800 1500) (SameTrackOverlap 1 0).
Proof.
  assert (E : validate (demo_map [demo_cue 0 0 "s1" 0 900; demo_cue 0 1 "s2" 800 1500])
                {[ 0 := 2000 ]} = Err (SameTrackOverlap 1 0)) by (vm_compute; reflexivity).
  destruct (validate_blames_first _ _ _ E) as (cue & Hc & _ & Hx).
  injection Hc as <-. exact Hx.
Defined.
