(* ===== verification/JobQueue.v ===== *)
(** * Job queue counters

    Models [src/crates/jobs/src/queue.rs]: the queued and running counters bucketed by
    job kind, their transitions and the snapshot published after each of them.

    A [BTreeMap<&'static str, i32>] is a [gmap] from strings; counters are [i32]: the
    transitions saturate as the code does, and the snapshot's additions wrap around as
    release builds do. *)

From stdpp Require Import base sets gmap list strings.
From Stdlib Require Import ZArith Lia.
From S2P Require Import Prelude.

#[local] Open Scope Z_scope.

Record JobQueueStatus := { count : Z; count_by_type : gmap str Z }.

Record JobQueueCounts := { queued : gmap str Z; running : gmap str Z }.

Definition empty_counts : JobQueueCounts := {| queued := ∅; running := ∅ |}.

(** ** Snapshots *)

(** The inner loop: [*count_by_type.entry(kind.to_owned()).or_insert(0) += count]. *)
Definition add_count (acc : gmap str Z) (entry : str * Z) : gmap str Z :=
  if 0 <? entry.2
  then <[ entry.1 := wrap_i32 (default 0 (acc !! entry.1) + entry.2) ]> acc
  else acc.

Definition add_counts (acc m : gmap str Z) : gmap str Z := fold_left add_count (map_to_list m) acc.

(** [values().copied().sum()]. *)
Definition sum_values (m : gmap str Z) : Z :=
  fold_left (fun s c => wrap_i32 (s + c)) (map_to_list m).*2 0.

Definition snapshot (counts : JobQueueCounts) : JobQueueStatus :=
  let count_by_type := add_counts (add_counts ∅ (queued counts)) (running counts) in
  {| count := sum_values count_by_type; count_by_type := count_by_type |}.

(** ** Transitions *)

Definition increment (m : gmap str Z) (kind : str) : gmap str Z :=
  <[ kind := saturating_add_i32 (default 0 (m !! kind)) 1 ]> m.

Definition decrement (m : gmap str Z) (kind : str) : gmap str Z :=
  match m !! kind with
  | None => m
  | Some count =>
      let count := saturating_sub_i32 count 1 in
      if count =? 0 then delete kind m else <[ kind := count ]> m
  end.

(** [JobQueueState::change]: run a transition and take the snapshot, under the lock. *)
Definition change (counts : JobQueueCounts) (transition : JobQueueCounts -> JobQueueCounts)
  : JobQueueCounts * JobQueueStatus :=
  let counts := transition counts in
  (counts, snapshot counts).

Definition enqueued (counts : JobQueueCounts) (kind : str) : JobQueueCounts * JobQueueStatus :=
  change counts (fun c => {| queued := increment (queued c) kind; running := running c |}).

Definition enqueue_failed (counts : JobQueueCounts) (kind : str) : JobQueueCounts * JobQueueStatus :=
  change counts (fun c => {| queued := decrement (queued c) kind; running := running c |}).

Definition started (counts : JobQueueCounts) (kind : str) : JobQueueCounts * JobQueueStatus :=
  change counts (fun c => {| queued := decrement (queued c) kind;
                             running := increment (running c) kind |}).

Definition finished (counts : JobQueueCounts) (kind : str) : JobQueueCounts * JobQueueStatus :=
  change counts (fun c => {| queued := queued c; running := decrement (running c) kind |}).

(** ** Specification: bags of kinds *)

(** How often [kind] occurs. *)
Fixpoint occurrences (kind : str) (kinds : list str) : Z :=
  match kinds with
  | [] => 0
  | k :: kinds' => (if bool_decide (k = kind) then 1 else 0) + occurrences kind kinds'
  end.

(** A counter map counts exactly a bag: no entry for an absent kind. *)
Definition counts_bag (m : gmap str Z) (kinds : list str) : Prop :=
  forall kind, m !! kind = then_some (0 <? occurrences kind kinds) (occurrences kind kinds).

(** The counters describe the queued and the running jobs. *)
Definition tracks (c : JobQueueCounts) (qs rs : list str) : Prop :=
  counts_bag (queued c) qs /\ counts_bag (running c) rs.

Lemma occurrences_bounds kind kinds : 0 <= occurrences kind kinds <= Z.of_nat (length kinds).
Proof. induction kinds as [|k kinds IH]; simpl; [lia|]. case_bool_decide; lia. Qed.

Lemma occurrences_app kind l1 l2 :
  occurrences kind (l1 ++ l2) = occurrences kind l1 + occurrences kind l2.
Proof. induction l1 as [|k l1 IH]; simpl; lia. Qed.

Lemma occurrences_perm kind l1 l2 : l1 ≡ₚ l2 -> occurrences kind l1 = occurrences kind l2.
Proof. induction 1; simpl; lia. Qed.

#[export] Instance counts_bag_Proper m : Proper ((≡ₚ) ==> iff) (counts_bag m).
Proof.
  intros l1 l2 Hp. unfold counts_bag. split; intros Hb kind;
    [rewrite <- (occurrences_perm kind _ _ Hp)|rewrite (occurrences_perm kind _ _ Hp)]; done.
Qed.

#[export] Instance tracks_Proper c : Proper ((≡ₚ) ==> (≡ₚ) ==> iff) (tracks c).
Proof. intros q1 q2 Hq r1 r2 Hr. unfold tracks. by rewrite Hq, Hr. Qed.

Lemma counts_bag_empty : counts_bag ∅ [].
Proof. intros kind. by rewrite lookup_empty. Qed.

Lemma tracks_empty : tracks empty_counts [] [].
Proof. split; apply counts_bag_empty. Qed.

Lemma counts_bag_default m kinds kind :
  counts_bag m kinds -> default 0 (m !! kind) = occurrences kind kinds.
Proof.
  intros ->. pose proof (occurrences_bounds kind kinds).
  unfold then_some. destruct (Z.ltb_spec 0 (occurrences kind kinds)); simpl; lia.
Qed.

Lemma saturating_add_small n : 0 <= n < i32_max -> saturating_add_i32 n 1 = n + 1.
Proof. unfold saturating_add_i32, i32_min, i32_max. lia. Qed.

Lemma saturating_sub_small n : 0 < n <= i32_max -> saturating_sub_i32 n 1 = n - 1.
Proof. unfold saturating_sub_i32, i32_min, i32_max. lia. Qed.

(** ** The transitions implement bag insertion and removal *)

Lemma increment_bag m kinds kind :
  Z.of_nat (length kinds) < i32_max -> counts_bag m kinds ->
  counts_bag (increment m kind) (kind :: kinds).
Proof.
  intros Hlen Hb k. unfold increment. pose proof (occurrences_bounds kind kinds).
  rewrite (counts_bag_default _ _ _ Hb), saturating_add_small by lia. simpl.
  case_bool_decide; subst.
  - rewrite lookup_insert. unfold then_some. destruct (Z.ltb_spec 0 (1 + occurrences k kinds)); [|lia].
    destruct (decide (k = k)); [f_equal; lia|done].
  - rewrite lookup_insert_ne by done. apply Hb.
Qed.

Lemma decrement_bag m kinds kind :
  Z.of_nat (length kinds) < i32_max -> counts_bag m (kind :: kinds) ->
  counts_bag (decrement m kind) kinds.
Proof.
  intros Hlen Hb k. unfold decrement. pose proof (occurrences_bounds kind kinds) as Ho.
  pose proof (Hb kind) as Hk. simpl in Hk. rewrite bool_decide_true in Hk by done.
  unfold then_some in Hk. destruct (Z.ltb_spec 0 (1 + occurrences kind kinds)); [|lia].
  rewrite Hk, saturating_sub_small by lia. cbv zeta.
  specialize (Hb k). simpl in Hb. case_bool_decide; subst.
  - unfold then_some in *. destruct (Z.eqb_spec (1 + occurrences k kinds - 1) 0);
      destruct (Z.ltb_spec 0 (occurrences k kinds)); try lia.
    + by rewrite lookup_delete_eq.
    + rewrite lookup_insert_eq. f_equal. lia.
  - destruct (_ =? 0); [rewrite lookup_delete_ne by done|rewrite lookup_insert_ne by done]; done.
Qed.

(** ** The snapshot *)

Lemma wrap_i32_small n : 0 <= n <= i32_max -> wrap_i32 n = n.
Proof.
  unfold wrap_i32, i32_max. intros H. rewrite Z.mod_small by lia. lia.
Qed.

Lemma fold_add_count l acc kind :
  NoDup l.*1 ->
  fold_left add_count l acc !! kind =
    match (list_to_map l : gmap str Z) !! kind with
    | Some c => if 0 <? c then Some (wrap_i32 (default 0 (acc !! kind) + c)) else acc !! kind
    | None => acc !! kind
    end.
Proof.
  revert acc. induction l as [|[k c] l IH]; intros acc Hnd; cbn [fold_left]; [done|].
  cbn in Hnd. apply NoDup_cons in Hnd as [Hk Hnd]. rewrite IH by done. cbn [list_to_map foldr].
  destruct (decide (k = kind)) as [->|Hne].
  - rewrite (not_elem_of_list_to_map_1 l kind Hk). cbn. rewrite lookup_insert_eq.
    unfold add_count; cbn. destruct (0 <? c); [by rewrite lookup_insert_eq|done].
  - cbn. rewrite lookup_insert_ne by done. unfold add_count; cbn.
    destruct (0 <? c); [by rewrite lookup_insert_ne|done].
Qed.

Lemma add_counts_bag acc m ks1 ks2 :
  Z.of_nat (length ks1 + length ks2) <= i32_max ->
  counts_bag acc ks1 -> counts_bag m ks2 -> counts_bag (add_counts acc m) (ks1 ++ ks2).
Proof.
  intros Hlen H1 H2 kind. unfold add_counts. rewrite fold_add_count by apply NoDup_fst_map_to_list.
  rewrite list_to_map_to_list, (counts_bag_default _ _ kind H1), (H1 kind), (H2 kind), occurrences_app.
  pose proof (occurrences_bounds kind ks1). pose proof (occurrences_bounds kind ks2).
  unfold then_some. destruct (Z.ltb_spec 0 (occurrences kind ks2)).
  - destruct (Z.ltb_spec 0 (occurrences kind ks2)); [|lia].
    destruct (Z.ltb_spec 0 (occurrences kind ks1 + occurrences kind ks2)); [|lia].
    by rewrite wrap_i32_small by lia.
  - replace (occurrences kind ks1 + occurrences kind ks2) with (occurrences kind ks1) by lia. done.
Qed.

Definition total (m : gmap str Z) : Z := map_fold (fun _ v acc => v + acc) 0 m.

Lemma total_delete m kind c : m !! kind = Some c -> total m = c + total (delete kind m).
Proof. intros H. unfold total. rewrite (map_fold_delete_L (fun _ v acc => v + acc) 0 kind c m); [done|intros; lia|done]. Qed.

Lemma total_bag m kinds :
  Z.of_nat (length kinds) <= i32_max -> counts_bag m kinds -> total m = Z.of_nat (length kinds).
Proof.
  revert m. induction kinds as [|kind kinds IH]; intros m Hlen Hb.
  - replace m with (∅ : gmap str Z); [done|]. apply map_eq. intros k. by rewrite (Hb k), lookup_empty.
  - simpl length in *. pose proof (decrement_bag m kinds kind ltac:(lia) Hb) as Hd.
    pose proof (IH (decrement m kind) ltac:(lia) Hd) as Ht. pose proof (occurrences_bounds kind kinds).
    assert (Hm : m !! kind = Some (1 + occurrences kind kinds)).
    { rewrite (Hb kind). simpl. rewrite bool_decide_true by done. unfold then_some.
      destruct (Z.ltb_spec 0 (1 + occurrences kind kinds)); [done|lia]. }
    rewrite (total_delete _ _ _ Hm).
    assert (Hdel : delete kind m = delete kind (decrement m kind)).
    { apply map_eq. intros k. destruct (decide (k = kind)) as [->|?]; [by rewrite !lookup_delete_eq|].
      rewrite !lookup_delete_ne by done. unfold decrement. rewrite Hm. cbv zeta.
      destruct (_ =? 0); [by rewrite lookup_delete_ne|by rewrite lookup_insert_ne]. }
    rewrite Hdel. pose proof (Hd kind) as Hk. unfold then_some in Hk.
    destruct (Z.ltb_spec 0 (occurrences kind kinds)).
    + rewrite (total_delete _ _ _ Hk) in Ht. lia.
    + rewrite delete_id by done. lia.
Qed.

Lemma fold_wrap l s :
  Forall (fun c => 0 <= c) l -> 0 <= s -> s + sum_Z l <= i32_max ->
  fold_left (fun s c => wrap_i32 (s + c)) l s = s + sum_Z l.
Proof.
  revert s. induction l as [|c l IH]; intros s Hl Hs Hsum; simpl in *; [lia|].
  inversion Hl; subst. assert (0 <= sum_Z l) by (by apply sum_Z_nonneg, Forall_forall).
  rewrite wrap_i32_small by lia. rewrite IH by (done || lia). lia.
Qed.

Lemma total_sum m : total m = sum_Z (map_to_list m).*2.
Proof.
  unfold total. rewrite map_fold_foldr. induction (map_to_list m) as [|[k v] l IH]; simpl; [done|].
  by rewrite IH.
Qed.

Lemma sum_values_bag m kinds :
  Z.of_nat (length kinds) <= i32_max -> counts_bag m kinds -> sum_values m = Z.of_nat (length kinds).
Proof.
  intros Hlen Hb. pose proof (total_bag _ _ Hlen Hb) as Ht. rewrite total_sum in Ht.
  unfold sum_values. rewrite fold_wrap; [lia| |lia|lia].
  apply Forall_fmap, Forall_forall. intros [k c] Hin%elem_of_map_to_list. cbn.
  rewrite (Hb k), then_some_Some in Hin. destruct Hin as [?%Z.ltb_lt <-]. lia.
Qed.

Lemma snapshot_bag c qs rs :
  Z.of_nat (length qs + length rs) <= i32_max -> tracks c qs rs ->
  count (snapshot c) = Z.of_nat (length qs + length rs) /\
  counts_bag (count_by_type (snapshot c)) (qs ++ rs).
Proof.
  intros Hlen [Hq Hr]. unfold snapshot; cbn.
  assert (Hb : counts_bag (add_counts (add_counts ∅ (queued c)) (running c)) (qs ++ rs)).
  { apply add_counts_bag; [done| |done]. apply (add_counts_bag ∅ _ [] qs); [simpl; lia| |done].
    apply counts_bag_empty. }
  split; [|done]. rewrite (sum_values_bag _ (qs ++ rs)); rewrite ?length_app; done.
Qed.

(** ** Refinement of the bag specification *)

(** A transition of the queued and running bags. *)
Inductive transition := Enqueued | EnqueueFailed | Started | Finished.

Definition run_transition (t : transition) (c : JobQueueCounts) (kind : str)
  : JobQueueCounts * JobQueueStatus :=
  match t with
  | Enqueued => enqueued c kind
  | EnqueueFailed => enqueue_failed c kind
  | Started => started c kind
  | Finished => finished c kind
  end.

Definition spec_transition (t : transition) (kind : str) (qs rs qs' rs' : list str) : Prop :=
  match t with
  | Enqueued => qs' = kind :: qs /\ rs' = rs
  | EnqueueFailed => qs ≡ₚ kind :: qs' /\ rs' = rs
  | Started => qs ≡ₚ kind :: qs' /\ rs' = kind :: rs
  | Finished => qs' = qs /\ rs ≡ₚ kind :: rs'
  end.

Lemma transition_refines t c kind qs rs qs' rs' :
  Z.of_nat (length qs + length rs) < i32_max -> tracks c qs rs ->
  spec_transition t kind qs rs qs' rs' -> tracks (run_transition t c kind).1 qs' rs'.
Proof.
  intros Hlen [Hq Hr] Hs. destruct t; cbn in *; destruct Hs as [H1 H2].
  - subst. split; [apply increment_bag; [lia|done]|done].
  - subst. rewrite H1 in Hq. apply Permutation_length in H1. simpl in H1.
    split; [apply decrement_bag; [lia|done]|done].
  - subst. rewrite H1 in Hq. apply Permutation_length in H1. simpl in H1.
    split; [apply decrement_bag; [lia|done]|apply increment_bag; [lia|done]].
  - subst. rewrite H2 in Hr. apply Permutation_length in H2. simpl in H2.
    split; [done|apply decrement_bag; [lia|done]].
Qed.

(** The counters refine bags of job kinds: below the [i32] limit every transition
    (enqueued, failed to enqueue, started, finished) moves one job of that kind as
    specified, and the snapshot it returns counts exactly the queued and running jobs,
    in total and per kind, with no entry for a kind that has none. *)
Theorem queue_refines_bags t c kind qs rs qs' rs' :
  Z.of_nat (length qs + length rs) < i32_max -> tracks c qs rs ->
  spec_transition t kind qs rs qs' rs' ->
  tracks (run_transition t c kind).1 qs' rs' /\
  count (run_transition t c kind).2 = Z.of_nat (length qs' + length rs') /\
  counts_bag (count_by_type (run_transition t c kind).2) (qs' ++ rs').
Proof.
  intros Hlen Ht Hs. pose proof (transition_refines t c kind _ _ _ _ Hlen Ht Hs) as Ht'.
  split; [done|]. assert (Hs' : (run_transition t c kind).2 = snapshot (run_transition t c kind).1)
    by (by destruct t). rewrite Hs'. apply snapshot_bag; [|done].
  destruct t; cbn in Hs; destruct Hs as [H1 H2]; subst;
    try (apply Permutation_length in H1; simpl in H1);
    try (apply Permutation_length in H2; simpl in H2); simpl; lia.
Qed.

Lemma queue_refines_bags_witness :
  count (started (enqueued (enqueued empty_counts (lit "SCAN")).1 (lit "SCAN")).1 (lit "SCAN")).2 = 2.
Proof.
  assert (Ht : tracks (enqueued (enqueued empty_counts (lit "SCAN")).1 (lit "SCAN")).1
                 [lit "SCAN"; lit "SCAN"] []).
  { apply (transition_refines Enqueued _ _ [lit "SCAN"] []); [cbn; unfold i32_max; lia| |done].
    apply (transition_refines Enqueued _ _ [] []); [cbn; unfold i32_max; lia|apply tracks_empty|done]. }
  apply (queue_refines_bags Started _ (lit "SCAN") [lit "SCAN"; lit "SCAN"] [] [lit "SCAN"] [lit "SCAN"]).
  - cbn. unfold i32_max. lia.
  - exact Ht.
  - split; reflexivity.
Defined.
