(* ===== verification/JobWorker.v ===== *)
(** * The job worker

    Models [src/crates/jobs/src/worker.rs] with the types of [context.rs],
    [progress.rs] and [error.rs] of the same crate: enqueueing, dispatching, the
    per-execution context with its cancellation token, and the release of the running
    counter.

    The host services are what the [JobExecutionContext] trait abstracts: whether a
    send or a persist call succeeds is an argument of the handler.  A
    [CancellationToken] is a shared handle: the registry and the context hold the same
    number, and [cancelled] is the set of cancelled handles.

    The second half gives the concurrent system: one step per critical section, with
    the snapshot of a transition published in a step of its own, because the code
    publishes after it released the lock. *)

From stdpp Require Import base sets gmap list strings.
From Stdlib Require Import ZArith Lia.
From S2P Require Import Prelude JobQueue.

#[local] Open Scope Z_scope.

(** ** Job metadata *)

Class JobPayload (Job : Type) := {
  job_name : Job -> str;
  job_description : Job -> option str;
  job_kind : Job -> str;
}.

Inductive JobStatus := Running | Paused | Completed | Cancelled | Failed | Queued.

#[export] Instance JobStatus_eq_dec : EqDecision JobStatus.
Proof. solve_decision. Defined.

Definition is_resolved (s : JobStatus) : bool :=
  match s with Completed | Cancelled | Failed => true | _ => false end.

Definition is_success (s : JobStatus) : bool :=
  match s with Completed => true | _ => false end.

(** A database error is carried as its rendered message. *)
Inductive JobError :=
| InitFailed (message : str)
| TaskFailed (message : str)
| DbError (message : str)
| Unknown (message : str).

Definition job_error_fmt (e : JobError) : str :=
  match e with
  | InitFailed m => lit "Job failed while initializing: " ++ m
  | TaskFailed m => lit "A task experienced a critical error while executing: " ++ m
  | DbError m => lit "A query error occurred: " ++ m
  | Unknown m => lit "An unknown error occurred: " ++ m
  end.

(** ** Progress patches *)

Record JobProgress := {
  jp_status : option JobStatus;
  jp_message : option str;
  jp_subtitle : option str;
  jp_completed_tasks : option Z;
  jp_remaining_tasks : option Z;
  jp_completed_subtasks : option Z;
  jp_total_subtasks : option Z;
}.

Definition progress_default : JobProgress :=
  {| jp_status := None; jp_message := None; jp_subtitle := None; jp_completed_tasks := None;
     jp_remaining_tasks := None; jp_completed_subtasks := None; jp_total_subtasks := None |}.

(** Functional update of the two fields several constructors share. *)
Definition with_message (p : JobProgress) (msg : str) : JobProgress :=
  {| jp_status := jp_status p; jp_message := Some msg; jp_subtitle := jp_subtitle p;
     jp_completed_tasks := jp_completed_tasks p; jp_remaining_tasks := jp_remaining_tasks p;
     jp_completed_subtasks := jp_completed_subtasks p; jp_total_subtasks := jp_total_subtasks p |}.

Definition progress_msg (msg : str) : JobProgress := with_message progress_default msg.

Definition msg_with_subtitle (msg subtitle : str) : JobProgress :=
  {| jp_status := None; jp_message := Some msg; jp_subtitle := Some subtitle;
     jp_completed_tasks := None; jp_remaining_tasks := None; jp_completed_subtasks := None;
     jp_total_subtasks := None |}.

Definition new_status (status : JobStatus) : JobProgress :=
  {| jp_status := Some status; jp_message := None; jp_subtitle := None; jp_completed_tasks := None;
     jp_remaining_tasks := None; jp_completed_subtasks := None; jp_total_subtasks := None |}.

Definition status_msg (status : JobStatus) (msg : str) : JobProgress :=
  with_message (new_status status) msg.

Definition progress_finished : JobProgress := status_msg Completed (lit "Job finished").

Definition task_position (index size : Z) : JobProgress :=
  {| jp_status := None; jp_message := None; jp_subtitle := None; jp_completed_tasks := Some index;
     jp_remaining_tasks := Some size; jp_completed_subtasks := None; jp_total_subtasks := None |}.

Definition task_position_msg (msg : str) (index size : Z) : JobProgress :=
  with_message (task_position index size) msg.

Definition init_done (index size : Z) : JobProgress :=
  task_position_msg (lit "Job initialized") index size.

Definition restored (index size : Z) : JobProgress :=
  task_position_msg (lit "Job state restored from database") index size.

Definition subtask_position (pos size : Z) : JobProgress :=
  {| jp_status := None; jp_message := None; jp_subtitle := None; jp_completed_tasks := None;
     jp_remaining_tasks := None; jp_completed_subtasks := Some pos; jp_total_subtasks := Some size |}.

Definition subtask_position_msg (msg : str) (index size : Z) : JobProgress :=
  with_message (subtask_position index size) msg.

Record JobUpdate := { ju_id : str; ju_payload : JobProgress }.

Section Worker.
Context {Job Output : Type} `{JobPayload Job}.

Inductive JobEvent :=
| EvStarted (id : str)
| EvProgress (update : JobUpdate)
| EvOutput (id : str) (output : Output)
| EvQueueStatus (status : JobQueueStatus).

(** The shared state; [emitted] is the host's event stream, oldest first. *)
Record WorkerState := {
  cancellation_tokens : gmap str nat;
  wk_queue : JobQueueCounts;
  cancelled : gset nat;
  next_token : nat;
  emitted : list JobEvent;
}.

Definition worker_new : WorkerState :=
  {| cancellation_tokens := ∅; wk_queue := empty_counts; cancelled := ∅; next_token := 0;
     emitted := [] |}.

Definition set_queue (w : WorkerState) (q : JobQueueCounts) : WorkerState :=
  {| cancellation_tokens := cancellation_tokens w; wk_queue := q; cancelled := cancelled w;
     next_token := next_token w; emitted := emitted w |}.

Definition set_tokens (w : WorkerState) (t : gmap str nat) : WorkerState :=
  {| cancellation_tokens := t; wk_queue := wk_queue w; cancelled := cancelled w;
     next_token := next_token w; emitted := emitted w |}.

Definition set_cancelled (w : WorkerState) (c : gset nat) : WorkerState :=
  {| cancellation_tokens := cancellation_tokens w; wk_queue := wk_queue w; cancelled := c;
     next_token := next_token w; emitted := emitted w |}.

Definition emit (w : WorkerState) (event : JobEvent) : WorkerState :=
  {| cancellation_tokens := cancellation_tokens w; wk_queue := wk_queue w; cancelled := cancelled w;
     next_token := next_token w; emitted := emitted w ++ [event] |}.

Definition publish (w : WorkerState) (status : JobQueueStatus) : WorkerState :=
  emit w (EvQueueStatus status).

(** One transition of the counters, under their lock. *)
Definition transit (t : transition) (w : WorkerState) (kind : str) : WorkerState * JobQueueStatus :=
  let '(q, status) := run_transition t (wk_queue w) kind in (set_queue w q, status).

(** [self.publish(self.queue.<transition>(kind))]. *)
Definition transit_publish (t : transition) (w : WorkerState) (kind : str) : WorkerState :=
  let '(w, status) := transit t w kind in publish w status.

Definition enqueue (w : WorkerState) (job : Job) (sent : result unit JobError)
  : WorkerState * result unit JobError :=
  let w := transit_publish Enqueued w (job_kind job) in
  match sent with
  | Err error => (transit_publish EnqueueFailed w (job_kind job), Err error)
  | Ok _ => (w, Ok tt)
  end.

Definition cancel_job (w : WorkerState) (job_id : str) : WorkerState * bool :=
  match cancellation_tokens w !! job_id with
  | Some token => (set_cancelled w ({[ token ]} ∪ cancelled w), true)
  | None => (w, false)
  end.

Definition cancel_all (w : WorkerState) : WorkerState :=
  set_cancelled w (list_to_set (map_to_list (cancellation_tokens w)).*2 ∪ cancelled w).

(** ** The per-execution context *)

Record JobContext := {
  jc_job_id : str;
  jc_kind : str;
  jc_token : nat;
  jc_queue_finished : bool;
}.

#[global] Instance JobContext_eq_dec : EqDecision JobContext.
Proof. solve_decision. Defined.

(** [CancellationToken::new] and its registration. *)
Definition register (w : WorkerState) (job_id : str) : WorkerState * nat :=
  ({| cancellation_tokens := <[ job_id := next_token w ]> (cancellation_tokens w);
      wk_queue := wk_queue w; cancelled := cancelled w; next_token := S (next_token w);
      emitted := emitted w |}, next_token w).

(** The new context, its token registered. *)
Definition open_context (w : WorkerState) (job_id : str) (job : Job) : WorkerState * JobContext :=
  let '(w, token) := register w job_id in
  (w, {| jc_job_id := job_id; jc_kind := job_kind job; jc_token := token;
         jc_queue_finished := false |}).

Definition open (w : WorkerState) (job_id : str) (job : Job) (persisted : result unit JobError)
  : WorkerState * result JobContext JobError :=
  match persisted with
  | Err error => (w, Err error)
  | Ok _ =>
      let '(w, ctx) := open_context w job_id job in
      (transit_publish Started w (job_kind job), Ok ctx)
  end.

Definition is_canceled (w : WorkerState) (ctx : JobContext) : bool :=
  bool_decide (jc_token ctx ∈ cancelled w).

Definition set_finished (ctx : JobContext) : JobContext :=
  {| jc_job_id := jc_job_id ctx; jc_kind := jc_kind ctx; jc_token := jc_token ctx;
     jc_queue_finished := true |}.

(** The removal of the token and [queue_finished.swap(true)], with its negated result:
    whether this call is the one that has to decrement the running counter. *)
Definition finish_swap (w : WorkerState) (ctx : JobContext) : WorkerState * JobContext * bool :=
  (set_tokens w (delete (jc_job_id ctx) (cancellation_tokens w)), set_finished ctx,
   negb (jc_queue_finished ctx)).

Definition finish (w : WorkerState) (ctx : JobContext) : WorkerState * JobContext :=
  let '(w, finished_ctx, first) := finish_swap w ctx in
  (if first then transit_publish Finished w (jc_kind ctx) else w, finished_ctx).

(** [Drop]. *)
Definition drop_context (w : WorkerState) (ctx : JobContext) : WorkerState := (finish w ctx).1.

Definition report_started (w : WorkerState) (ctx : JobContext) : WorkerState :=
  emit w (EvStarted (jc_job_id ctx)).

Definition report_progress (w : WorkerState) (ctx : JobContext) (progress : JobProgress)
  : WorkerState :=
  emit w (EvProgress {| ju_id := jc_job_id ctx; ju_payload := progress |}).

Definition report_output (w : WorkerState) (ctx : JobContext) (output : Output) : WorkerState :=
  emit w (EvOutput (jc_job_id ctx) output).

(** [dispatch]: [run] is the host's dispatch table under the open context, which is
    dropped when the call returns. *)
Definition dispatch (w : WorkerState) (job_id : str) (job : Job) (persisted : result unit JobError)
    (run : WorkerState -> JobContext -> WorkerState * JobContext * result unit JobError)
  : WorkerState * result unit JobError :=
  match open w job_id job persisted with
  | (w, Err error) => (transit_publish EnqueueFailed w (job_kind job), Err error)
  | (w, Ok ctx) =>
      let '(w, ctx, res) := run w ctx in
      (drop_context w ctx, res)
  end.

(** ** The runtime's view *)

Definition queue_depth (w : WorkerState) : JobQueueStatus := snapshot (wk_queue w).

Definition is_idle (w : WorkerState) : bool := bool_decide (cancellation_tokens w = ∅).

(** [JobRuntime::stop], the part that touches the worker. *)
Definition stop (w : WorkerState) : WorkerState := set_tokens (cancel_all w) ∅.

(** ** The concurrent system *)

(** Work in flight: jobs counted and being sent, queued in the channel, dequeued and
    being opened; live contexts; contexts that won the swap and have yet to decrement;
    snapshots taken and not yet published. *)
Record System := {
  sy_worker : WorkerState;
  sy_sending : list Job;
  sy_channel : list Job;
  sy_opening : list Job;
  sy_contexts : list JobContext;
  sy_releasing : list str;
  sy_pending : list JobQueueStatus;
}.

Definition sys_init : System :=
  {| sy_worker := worker_new; sy_sending := []; sy_channel := []; sy_opening := [];
     sy_contexts := []; sy_releasing := []; sy_pending := [] |}.

Definition unfinished (ctxs : list JobContext) : list JobContext :=
  List.filter (fun ctx => negb (jc_queue_finished ctx)) ctxs.

(** The kinds counted as queued and as running. *)
Definition queued_kinds (s : System) : list str :=
  (job_kind <$> sy_sending s) ++ (job_kind <$> sy_channel s) ++ (job_kind <$> sy_opening s).

Definition running_kinds (s : System) : list str :=
  (jc_kind <$> unfinished (sy_contexts s)) ++ sy_releasing s.

Definition in_flight (s : System) : Z :=
  Z.of_nat (length (queued_kinds s) + length (running_kinds s)).

(** A counter transition inside a step: the snapshot is left to be published. *)
Definition sys_transit (t : transition) (kind : str) (s : System) : System :=
  let '(w, status) := transit t (sy_worker s) kind in
  {| sy_worker := w; sy_sending := sy_sending s; sy_channel := sy_channel s;
     sy_opening := sy_opening s; sy_contexts := sy_contexts s; sy_releasing := sy_releasing s;
     sy_pending := sy_pending s ++ [status] |}.

Definition sys_work (s : System) (sending channel opening : list Job) : System :=
  {| sy_worker := sy_worker s; sy_sending := sending; sy_channel := channel; sy_opening := opening;
     sy_contexts := sy_contexts s; sy_releasing := sy_releasing s; sy_pending := sy_pending s |}.

Definition sys_contexts (s : System) (w : WorkerState) (ctxs : list JobContext)
    (releasing : list str) : System :=
  {| sy_worker := w; sy_sending := sy_sending s; sy_channel := sy_channel s;
     sy_opening := sy_opening s; sy_contexts := ctxs; sy_releasing := releasing;
     sy_pending := sy_pending s |}.

(** Job ids are fresh UUIDs: no live context has the new id.  The bound on the work in
    flight keeps the counters inside [i32].  The registry and the counters are separate
    locks that no transition reads together, so opening a context and finishing one
    touch the registry in the same step.  Pending snapshots are published in any
    order, which allows every order the threads can produce. *)
Inductive step : System -> System -> Prop :=
| step_enqueue s job :
    in_flight s < i32_max - 1 ->
    step s (sys_transit Enqueued (job_kind job)
              (sys_work s (job :: sy_sending s) (sy_channel s) (sy_opening s)))
| step_sent s l1 job l2 :
    sy_sending s = l1 ++ job :: l2 ->
    step s (sys_work s (l1 ++ l2) (sy_channel s ++ [job]) (sy_opening s))
| step_send_failed s l1 job l2 :
    sy_sending s = l1 ++ job :: l2 ->
    step s (sys_transit EnqueueFailed (job_kind job)
              (sys_work s (l1 ++ l2) (sy_channel s) (sy_opening s)))
| step_dequeue s job rest :
    sy_channel s = job :: rest ->
    step s (sys_work s (sy_sending s) rest (job :: sy_opening s))
| step_open s l1 job l2 job_id :
    sy_opening s = l1 ++ job :: l2 ->
    job_id ∉ (jc_job_id <$> sy_contexts s) ->
    step s (sys_transit Started (job_kind job)
              (sys_contexts (sys_work s (sy_sending s) (sy_channel s) (l1 ++ l2))
                 (open_context (sy_worker s) job_id job).1
                 ((open_context (sy_worker s) job_id job).2 :: sy_contexts s)
                 (sy_releasing s)))
| step_open_failed s l1 job l2 :
    sy_opening s = l1 ++ job :: l2 ->
    step s (sys_transit EnqueueFailed (job_kind job)
              (sys_work s (sy_sending s) (sy_channel s) (l1 ++ l2)))
| step_finish s l1 ctx l2 :
    sy_contexts s = l1 ++ ctx :: l2 ->
    step s (sys_contexts s
              (finish_swap (sy_worker s) ctx).1.1
              (l1 ++ (finish_swap (sy_worker s) ctx).1.2 :: l2)
              (if (finish_swap (sy_worker s) ctx).2 then jc_kind ctx :: sy_releasing s
               else sy_releasing s))
| step_release s l1 kind l2 :
    sy_releasing s = l1 ++ kind :: l2 ->
    step s (sys_transit Finished kind (sys_contexts s (sy_worker s) (sy_contexts s) (l1 ++ l2)))
| step_drop s l1 ctx l2 :
    sy_contexts s = l1 ++ ctx :: l2 -> jc_queue_finished ctx = true ->
    step s (sys_contexts s (sy_worker s) (l1 ++ l2) (sy_releasing s))
| step_publish s l1 status l2 :
    sy_pending s = l1 ++ status :: l2 ->
    step s {| sy_worker := publish (sy_worker s) status; sy_sending := sy_sending s;
              sy_channel := sy_channel s; sy_opening := sy_opening s; sy_contexts := sy_contexts s;
              sy_releasing := sy_releasing s; sy_pending := l1 ++ l2 |}
| step_cancel s job_id :
    step s (sys_contexts s (cancel_job (sy_worker s) job_id).1 (sy_contexts s) (sy_releasing s))
| step_cancel_all s :
    step s (sys_contexts s (cancel_all (sy_worker s)) (sy_contexts s) (sy_releasing s)).

Inductive reachable : System -> Prop :=
| reachable_init : reachable sys_init
| reachable_step s s' : reachable s -> step s s' -> reachable s'.

(** Nothing is being sent, queued, opened, run or released. *)
Definition quiescent (s : System) : Prop :=
  sy_sending s = [] /\ sy_channel s = [] /\ sy_opening s = [] /\ sy_contexts s = [] /\
  sy_releasing s = [].

End Worker.

Arguments JobEvent : clear implicits.
Arguments WorkerState : clear implicits.
Arguments System : clear implicits.

(** ** The invariant *)

Section Invariant.
Context {Job Output : Type} `{JobPayload Job}.
Implicit Types (s : System Job Output) (w : WorkerState Output).

Record inv (s : System Job Output) : Prop := {
  inv_tracks : tracks (wk_queue (sy_worker s)) (queued_kinds s) (running_kinds s);
  inv_bound : in_flight s < i32_max;
  inv_ids : NoDup (jc_job_id <$> sy_contexts s);
  inv_handles : NoDup (jc_token <$> sy_contexts s);
  inv_next : Forall (fun c => (jc_token c < next_token (sy_worker s))%nat) (sy_contexts s);
  inv_registry : forall id t, cancellation_tokens (sy_worker s) !! id = Some t <->
    exists ctx, ctx ∈ sy_contexts s /\ jc_job_id ctx = id /\ jc_token ctx = t /\
      jc_queue_finished ctx = false;
}.

Lemma transit_worker t w kind :
  transit t w kind = (set_queue w (run_transition t (wk_queue w) kind).1,
                      (run_transition t (wk_queue w) kind).2).
Proof. unfold transit. by destruct (run_transition _ _ _). Qed.

(** A counter transition keeps everything but the counters. *)
Lemma sys_transit_inv t kind s qs rs :
  tracks (wk_queue (sy_worker s)) qs rs -> Z.of_nat (length qs + length rs) < i32_max ->
  spec_transition t kind qs rs (queued_kinds s) (running_kinds s) ->
  in_flight s < i32_max ->
  NoDup (jc_job_id <$> sy_contexts s) -> NoDup (jc_token <$> sy_contexts s) ->
  Forall (fun c => (jc_token c < next_token (sy_worker s))%nat) (sy_contexts s) ->
  (forall id t, cancellation_tokens (sy_worker s) !! id = Some t <->
    exists ctx, ctx ∈ sy_contexts s /\ jc_job_id ctx = id /\ jc_token ctx = t /\
      jc_queue_finished ctx = false) ->
  inv (sys_transit t kind s).
Proof.
  intros Ht Hlen Hs Hb H1 H2 H3 H4. unfold sys_transit. rewrite transit_worker.
  constructor; try assumption. exact (transition_refines t _ kind qs rs _ _ Hlen Ht Hs).
Qed.

Lemma unfinished_app l1 l2 : unfinished (l1 ++ l2) = unfinished l1 ++ unfinished l2.
Proof. apply List.filter_app. Qed.

Lemma inv_init : inv sys_init.
Proof.
  constructor; [apply tracks_empty|done|constructor|constructor|constructor|].
  intros id t. split; [done|]. intros (ctx & Hc & _). by apply not_elem_of_nil in Hc.
Qed.

Lemma spec_transition_length t kind (qs rs qs' rs' : list str) :
  spec_transition t kind qs rs qs' rs' ->
  (length qs' + length rs' <= S (length qs + length rs))%nat /\
  (t <> Enqueued -> length qs' + length rs' <= length qs + length rs)%nat.
Proof.
  destruct t; cbn; intros [H1 H2]; subst; try (apply Permutation_length in H1; simpl in H1);
    try (apply Permutation_length in H2; simpl in H2); simpl; split; try done; lia.
Qed.

(** A step that moves a job between the sending, queued and opening lists. *)
Lemma inv_work s sending channel opening :
  inv s ->
  (job_kind <$> sending) ++ (job_kind <$> channel) ++ (job_kind <$> opening) ≡ₚ queued_kinds s ->
  inv (sys_work s sending channel opening).
Proof.
  intros [Ht Hb Hi Hh Hn Hr] Hp. constructor; cbn; try done.
  - change (queued_kinds (sys_work s sending channel opening)) with
      ((job_kind <$> sending) ++ (job_kind <$> channel) ++ (job_kind <$> opening)).
    rewrite Hp. exact Ht.
  - unfold in_flight. change (queued_kinds (sys_work s sending channel opening)) with
      ((job_kind <$> sending) ++ (job_kind <$> channel) ++ (job_kind <$> opening)).
    rewrite Hp. exact Hb.
Qed.

(** A counter transition over moved work. *)
Lemma inv_work_transit t s kind sending channel opening :
  inv s -> t = Enqueued \/ t = EnqueueFailed ->
  spec_transition t kind (queued_kinds s) (running_kinds s)
    ((job_kind <$> sending) ++ (job_kind <$> channel) ++ (job_kind <$> opening)) (running_kinds s) ->
  (t = Enqueued -> in_flight s < i32_max - 1) ->
  inv (sys_transit t kind (sys_work s sending channel opening)).
Proof.
  intros [Ht Hb Hi Hh Hn Hr] Hor Hs Hguard.
  eapply (sys_transit_inv t kind _ (queued_kinds s) (running_kinds s)); try done.
  destruct (spec_transition_length _ _ _ _ _ _ Hs) as [L1 L2].
  change (Z.of_nat (length ((job_kind <$> sending) ++ (job_kind <$> channel) ++ (job_kind <$> opening))
    + length (running_kinds s)) < i32_max). unfold in_flight in *.
  destruct Hor as [-> | ->]; [specialize (Hguard eq_refl)|specialize (L2 ltac:(done))]; lia.
Qed.

(** Permutations of concatenations that differ in where one element stands. *)
#[local] Ltac solve_middle :=
  rewrite ?fmap_app; cbn; rewrite <- ?app_assoc; cbn;
  repeat (rewrite <- Permutation_middle; cbn); rewrite ?app_nil_r; reflexivity.

Lemma unfinished_perm_finish l1 ctx l2 :
  jc_queue_finished ctx = false ->
  jc_kind <$> unfinished (l1 ++ ctx :: l2) ≡ₚ jc_kind ctx :: (jc_kind <$> unfinished (l1 ++ set_finished ctx :: l2)).
Proof.
  intros E. rewrite !unfinished_app. unfold unfinished at 2 4. cbn. rewrite E. cbn.
  rewrite !fmap_app, fmap_cons. by rewrite <- Permutation_middle.
Qed.

Lemma unfinished_drop l1 ctx l2 :
  jc_queue_finished ctx = true -> unfinished (l1 ++ ctx :: l2) = unfinished (l1 ++ l2).
Proof. intros E. rewrite !unfinished_app. unfold unfinished at 2. cbn. by rewrite E. Qed.

(** Finishing a context, unregistering its token. *)
Lemma inv_finish s l1 ctx l2 :
  inv s -> sy_contexts s = l1 ++ ctx :: l2 ->
  inv (sys_contexts s
         (finish_swap (sy_worker s) ctx).1.1
         (l1 ++ (finish_swap (sy_worker s) ctx).1.2 :: l2)
         (if (finish_swap (sy_worker s) ctx).2 then jc_kind ctx :: sy_releasing s
          else sy_releasing s)).
Proof.
  intros [Ht Hb Hi Hh Hn Hr] E. unfold finish_swap. cbn [fst snd]. set (s' := sys_contexts _ _ _ _).
  assert (Hrun : running_kinds s' ≡ₚ running_kinds s).
  { unfold running_kinds, s'. cbn. rewrite E. destruct (jc_queue_finished ctx) eqn:Ef.
    - rewrite !unfinished_drop by done. done.
    - rewrite (unfinished_perm_finish l1 ctx l2 Ef). cbn. by rewrite <- Permutation_middle. }
  rewrite E in Hi, Hh, Hn, Hr. rewrite fmap_app, fmap_cons in Hi. rewrite fmap_app, fmap_cons in Hh.
  constructor.
  - change (queued_kinds s') with (queued_kinds s). rewrite Hrun. exact Ht.
  - unfold in_flight. change (queued_kinds s') with (queued_kinds s). rewrite Hrun. exact Hb.
  - cbn. by rewrite fmap_app, fmap_cons.
  - cbn. by rewrite fmap_app, fmap_cons.
  - cbn. rewrite Forall_app, Forall_cons in *. done.
  - intros id t. cbn. rewrite lookup_delete_Some, Hr.
    apply NoDup_app in Hi as (_ & Hdis & Hi). apply NoDup_cons in Hi as [Hctx _].
    split.
    + intros (Hne & c & Hc & <- & <- & Hf). exists c. split_and!; try done.
      rewrite elem_of_app, elem_of_cons in *. destruct Hc as [?|[->|?]]; auto. done.
    + intros (c & Hc & <- & <- & Hf). rewrite elem_of_app, elem_of_cons in Hc.
      destruct Hc as [Hc|[->|Hc]]; [|done|].
      * split; [|exists c; rewrite elem_of_app, elem_of_cons; auto].
        intros Heq. apply (Hdis (jc_job_id c)); [by apply list_elem_of_fmap_2|]. rewrite <- Heq. by left.
      * split; [|exists c; rewrite elem_of_app, elem_of_cons; auto].
        intros Heq. apply Hctx. rewrite Heq. by apply list_elem_of_fmap_2.
Qed.

Lemma inv_drop s l1 ctx l2 :
  inv s -> sy_contexts s = l1 ++ ctx :: l2 -> jc_queue_finished ctx = true ->
  inv (sys_contexts s (sy_worker s) (l1 ++ l2) (sy_releasing s)).
Proof.
  intros [Ht Hb Hi Hh Hn Hr] E Ef. set (s' := sys_contexts _ _ _ _).
  assert (Hrun : running_kinds s' = running_kinds s).
  { unfold running_kinds, s'. cbn. by rewrite E, unfinished_drop. }
  rewrite E in Hi, Hh, Hn, Hr. rewrite fmap_app, fmap_cons in Hi. rewrite fmap_app, fmap_cons in Hh.
  rewrite <- Permutation_middle in Hi. rewrite <- Permutation_middle in Hh.
  apply NoDup_cons in Hi as [_ Hi]. apply NoDup_cons in Hh as [_ Hh].
  constructor.
  - rewrite Hrun. exact Ht.
  - unfold in_flight. rewrite Hrun. exact Hb.
  - cbn. by rewrite fmap_app.
  - cbn. by rewrite fmap_app.
  - cbn. rewrite Forall_app, Forall_cons in *. naive_solver.
  - intros id t. cbn. rewrite Hr. split.
    + intros (c & Hc & <- & <- & Hf). exists c. rewrite elem_of_app, elem_of_cons in *.
      destruct Hc as [?|[->|?]]; [auto|congruence|auto].
    + intros (c & Hc & Hrest). exists c. rewrite elem_of_app, elem_of_cons in *. naive_solver.
Qed.

Lemma inv_open s l1 job l2 job_id :
  inv s -> sy_opening s = l1 ++ job :: l2 -> job_id ∉ (jc_job_id <$> sy_contexts s) ->
  inv (sys_transit Started (job_kind job)
         (sys_contexts (sys_work s (sy_sending s) (sy_channel s) (l1 ++ l2))
            (open_context (sy_worker s) job_id job).1
            ((open_context (sy_worker s) job_id job).2 :: sy_contexts s)
            (sy_releasing s))).
Proof.
  intros [Ht Hb Hi Hh Hn Hr] E Hfresh.
  assert (Hq : queued_kinds s ≡ₚ job_kind job ::
            ((job_kind <$> sy_sending s) ++ (job_kind <$> sy_channel s) ++ (job_kind <$> (l1 ++ l2)))).
  { unfold queued_kinds. rewrite E, !fmap_app, fmap_cons. by rewrite <- !Permutation_middle. }
  set (s' := sys_contexts _ _ _ _).
  assert (Hs : spec_transition Started (job_kind job) (queued_kinds s) (running_kinds s)
                 (queued_kinds s') (running_kinds s')) by (by split).
  apply (sys_transit_inv Started _ _ (queued_kinds s) (running_kinds s)); [done|done|done|..].
  - pose proof (proj2 (spec_transition_length _ _ _ _ _ _ Hs) ltac:(done)). unfold in_flight in *. lia.
  - cbn. by constructor.
  - cbn. constructor; [|done]. intros (c & Hc & Hin)%list_elem_of_fmap.
    rewrite Forall_forall in Hn. specialize (Hn _ Hin). cbn in *. lia.
  - cbn. constructor; [cbn; lia|]. eapply Forall_impl; [exact Hn|]. cbn. lia.
  - intros id t. cbn. rewrite lookup_insert_Some, Hr. split.
    + intros [[<- <-]|(Hne & c & Hc & Hrest)].
      * eexists. split; [by left|done].
      * exists c. split; [by right|done].
    + intros (c & [->|Hc]%elem_of_cons & <- & <- & Hf); [by left|]. right. split; [|eauto].
      intros ->. apply Hfresh. by apply list_elem_of_fmap_2.
Qed.

Lemma inv_step s s' : inv s -> step s s' -> inv s'.
Proof.
  intros Hinv Hstep. destruct Hstep as
    [s job Hg|s l1 job l2 E|s l1 job l2 E|s job rest E|s l1 job l2 job_id E Hf|s l1 job l2 E
    |s l1 ctx l2 E|s l1 kind l2 E|s l1 ctx l2 E Ef|s l1 st l2 E|s job_id|s].
  - apply inv_work_transit; [done|by left|by split|done].
  - apply inv_work; [done|]. unfold queued_kinds. rewrite E. solve_middle.
  - apply inv_work_transit; [done|by right| |done]. split; [|done].
    unfold queued_kinds. rewrite E. solve_middle.
  - apply inv_work; [done|]. unfold queued_kinds. rewrite E. solve_middle.
  - by apply inv_open.
  - apply inv_work_transit; [done|by right| |done]. split; [|done].
    unfold queued_kinds. rewrite E. solve_middle.
  - by apply inv_finish.
  - destruct Hinv as [Ht Hb Hi Hh Hn Hr].
    assert (Hp : running_kinds s ≡ₚ kind :: ((jc_kind <$> unfinished (sy_contexts s)) ++ l1 ++ l2)).
    { unfold running_kinds. rewrite E. solve_middle. }
    set (s' := sys_contexts _ _ _ _).
    assert (Hs : spec_transition Finished kind (queued_kinds s) (running_kinds s)
                   (queued_kinds s') (running_kinds s')) by (by split).
    apply (sys_transit_inv Finished _ _ (queued_kinds s) (running_kinds s)); try done.
    pose proof (proj2 (spec_transition_length _ _ _ _ _ _ Hs) ltac:(done)). unfold in_flight in *. lia.
  - by eapply inv_drop.
  - by destruct Hinv.
  - destruct Hinv. unfold cancel_job. destruct (_ !! job_id); by constructor.
  - destruct Hinv. by constructor.
Qed.

Lemma reachable_inv s : reachable s -> inv s.
Proof. induction 1; [apply inv_init|by eapply inv_step]. Qed.

Lemma is_idle_iff w : is_idle w = true <-> cancellation_tokens w = ∅.
Proof. apply bool_decide_eq_true. Qed.

(** C39.  However enqueues, failed sends, dispatches, failed opens, finishes, drops,
    cancellations and publications interleave, the queue depth is exactly the number
    of jobs in flight, in total and per kind; once everything has drained it is zero
    with no per-kind entry left, and the runtime is idle. *)
Theorem worker_depth_exact s :
  reachable s ->
  count (queue_depth (sy_worker s)) = in_flight s /\
  counts_bag (count_by_type (queue_depth (sy_worker s))) (queued_kinds s ++ running_kinds s) /\
  (quiescent s -> count (queue_depth (sy_worker s)) = 0 /\
     count_by_type (queue_depth (sy_worker s)) = ∅ /\ is_idle (sy_worker s) = true).
Proof.
  intros [Ht Hb _ _ _ Hr]%reachable_inv.
  assert (Hlen : Z.of_nat (length (queued_kinds s) + length (running_kinds s)) <= i32_max)
    by (unfold in_flight in Hb; lia).
  destruct (snapshot_bag _ _ _ Hlen Ht) as [Hc Hbag].
  split; [exact Hc|]. split; [exact Hbag|]. intros (E1 & E2 & E3 & E4 & E5).
  unfold queued_kinds, running_kinds in *. rewrite E1, E2, E3, E4, E5 in *.
  split; [exact Hc|]. split.
  - apply map_eq. intros k. rewrite lookup_empty. exact (Hbag k).
  - apply is_idle_iff, map_eq. intros id. rewrite lookup_empty. apply eq_None_not_Some.
    intros [t (ctx & Hctx & _)%Hr]. by apply not_elem_of_nil in Hctx.
Qed.

(** ** The operations as runs of the system *)

(** A counter transition whose snapshot is published at once. *)
Lemma transit_published t kind s s0 :
  step s (sys_transit t kind s0) ->
  rtc step s (sys_contexts s0 (transit_publish t (sy_worker s0) kind) (sy_contexts s0) (sy_releasing s0)).
Proof.
  intros Hs. eapply rtc_l; [exact Hs|]. apply rtc_once.
  unfold sys_transit, transit_publish, sys_contexts.
  destruct (transit t (sy_worker s0) kind) as [w status] eqn:E.
  rewrite <- (app_nil_r (sy_pending s0)) at 2.
  match goal with |- step ?x _ => apply (step_publish x (sy_pending s0) status []) end. done.
Qed.

Lemma enqueue_run s job sent :
  in_flight s < i32_max - 1 ->
  rtc step s (sys_contexts
    (sys_work s (sy_sending s) (sy_channel s ++ match sent with Ok _ => [job] | Err _ => [] end)
       (sy_opening s))
    (enqueue (sy_worker s) job sent).1 (sy_contexts s) (sy_releasing s)).
Proof.
  intros Hg. etrans; [by apply transit_published, (step_enqueue s job)|].
  destruct sent as [u|err]; cbn [enqueue fst].
  - apply rtc_once. match goal with |- step ?x _ => by apply (step_sent x [] job (sy_sending s)) end.
  - rewrite app_nil_r. match goal with |- rtc step ?x _ =>
      apply (transit_published EnqueueFailed (job_kind job) x
               (sys_work x (sy_sending s) (sy_channel s) (sy_opening s))) end.
    match goal with |- step ?x _ => by apply (step_send_failed x [] job (sy_sending s)) end.
Qed.

Lemma finish_run s l1 ctx l2 :
  sy_contexts s = l1 ++ ctx :: l2 ->
  rtc step s (sys_contexts s (finish (sy_worker s) ctx).1
    (l1 ++ (finish (sy_worker s) ctx).2 :: l2) (sy_releasing s)).
Proof.
  intros E. eapply rtc_l; [by apply step_finish|].
  unfold finish, finish_swap. cbn [fst snd]. destruct (jc_queue_finished ctx); [done|]. cbn [negb].
  match goal with |- rtc step ?x (sys_contexts _ _ ?cs _) =>
    apply (transit_published Finished (jc_kind ctx) x
             (sys_contexts x (sy_worker x) cs (sy_releasing s))) end.
  match goal with |- step ?x _ => by apply (step_release x [] (jc_kind ctx) (sy_releasing s)) end.
Qed.

(** The operations as the code runs them are runs of the interleaved system:
    enqueueing (sent or refused), opening a context, the failed open of a dispatch,
    finishing a context and dropping it each take the system from any state to the
    state whose worker is the operation's result, with the job moved accordingly and
    no snapshot left unpublished. *)
Theorem operations_are_runs s :
  (forall job sent, in_flight s < i32_max - 1 ->
     rtc step s (sys_contexts
       (sys_work s (sy_sending s) (sy_channel s ++ match sent with Ok _ => [job] | Err _ => [] end)
          (sy_opening s))
       (enqueue (sy_worker s) job sent).1 (sy_contexts s) (sy_releasing s))) /\
  (forall l1 job l2 job_id ctx w,
     sy_opening s = l1 ++ job :: l2 -> job_id ∉ (jc_job_id <$> sy_contexts s) ->
     open (sy_worker s) job_id job (Ok tt) = (w, Ok ctx) ->
     rtc step s (sys_contexts (sys_work s (sy_sending s) (sy_channel s) (l1 ++ l2)) w
       (ctx :: sy_contexts s) (sy_releasing s))) /\
  (forall l1 job l2 job_id error run, sy_opening s = l1 ++ job :: l2 ->
     rtc step s (sys_contexts (sys_work s (sy_sending s) (sy_channel s) (l1 ++ l2))
       (dispatch (sy_worker s) job_id job (Err error) run).1 (sy_contexts s) (sy_releasing s))) /\
  (forall l1 ctx l2, sy_contexts s = l1 ++ ctx :: l2 ->
     rtc step s (sys_contexts s (finish (sy_worker s) ctx).1
       (l1 ++ (finish (sy_worker s) ctx).2 :: l2) (sy_releasing s)) /\
     rtc step s (sys_contexts s (drop_context (sy_worker s) ctx) (l1 ++ l2) (sy_releasing s))).
Proof.
  split; [intros job sent; apply enqueue_run|]. split; [|split].
  - intros l1 job l2 job_id ctx w E Hf Ho. unfold open in Ho.
    destruct (open_context (sy_worker s) job_id job) as [w0 c0] eqn:Ec. injection Ho as <- <-.
    match goal with |- rtc step s (sys_contexts ?x _ ?cs ?rs) =>
      apply (transit_published Started (job_kind job) s (sys_contexts x w0 cs rs)) end.
    pose proof (step_open s l1 job l2 job_id E Hf) as Hs. by rewrite Ec in Hs.
  - intros l1 job l2 job_id error run E. cbn [dispatch open fst].
    match goal with |- rtc step s (sys_contexts ?x _ _ _) =>
      apply (transit_published EnqueueFailed (job_kind job) s x) end.
    by apply step_open_failed.
  - intros l1 ctx l2 E. split; [by apply finish_run|].
    eapply rtc_r; [by apply (finish_run s l1 ctx l2)|].
    match goal with |- step ?x _ =>
      by apply (step_drop x l1 (finish (sy_worker s) ctx).2 l2) end.
Qed.

(** Cancellation reaches exactly the job asked for: it succeeds for every running
    job, whose context then observes it while no other context does, and it reports
    failure without any effect for an id that is not running. *)
Theorem cancel_job_exact s :
  reachable s ->
  (forall ctx, ctx ∈ sy_contexts s -> jc_queue_finished ctx = false ->
     (cancel_job (sy_worker s) (jc_job_id ctx)).2 = true /\
     forall ctx', ctx' ∈ sy_contexts s ->
       is_canceled (cancel_job (sy_worker s) (jc_job_id ctx)).1 ctx' =
         bool_decide (ctx' = ctx) || is_canceled (sy_worker s) ctx') /\
  (forall id, id ∉ (jc_job_id <$> unfinished (sy_contexts s)) ->
     cancel_job (sy_worker s) id = (sy_worker s, false)).
Proof.
  intros [_ _ _ Hh _ Hr]%reachable_inv. split.
  - intros ctx Hctx Hf. unfold cancel_job.
    assert (E : cancellation_tokens (sy_worker s) !! jc_job_id ctx = Some (jc_token ctx))
      by (apply Hr; eauto).
    rewrite E. split; [done|]. intros ctx' Hctx'. unfold is_canceled. cbn.
    assert (Heq : jc_token ctx' = jc_token ctx <-> ctx' = ctx).
    { split; [|by intros ->]. intros Ht.
      apply list_elem_of_lookup in Hctx as [i Hi], Hctx' as [j Hj].
      assert (i = j) as ->; [|congruence].
      apply (NoDup_lookup _ i j (jc_token ctx) Hh); rewrite list_lookup_fmap;
        [by rewrite Hi|rewrite Hj; cbn; by rewrite Ht]. }
    apply eq_bool_prop_intro. rewrite orb_True, !bool_decide_spec. rewrite elem_of_union, elem_of_singleton.
    by rewrite Heq.
  - intros id Hid. unfold cancel_job. destruct (_ !! id) as [t|] eqn:E; [|done].
    apply Hr in E as (ctx & Hctx & <- & _ & Hf). destruct Hid. apply list_elem_of_fmap_2.
    unfold unfinished. apply list_elem_of_In, filter_In. rewrite Hf.
    split; [by apply list_elem_of_In|done].
Qed.

End Invariant.

(** ** Witnesses *)

(** Payloads that are their own kind. *)
#[local] Instance demo_payload : JobPayload str :=
  {| job_name := id; job_description := fun _ => None; job_kind := id |}.

(** One job, enqueued, sent, dequeued and opened. *)
Lemma demo_running :
  exists s : System str unit, reachable s /\ in_flight s = 1 /\
    exists ctx, sy_contexts s = [ctx] /\ jc_queue_finished ctx = false.
Proof.
  eexists. split.
  - eapply reachable_step; [eapply reachable_step; [eapply reachable_step;
      [eapply reachable_step; [apply reachable_init|]|]|]|].
    + apply (step_enqueue _ (lit "SCAN")). vm_compute. reflexivity.
    + apply (step_sent _ [] (lit "SCAN") []). vm_compute. reflexivity.
    + apply (step_dequeue _ (lit "SCAN") []). vm_compute. reflexivity.
    + apply (step_open _ [] (lit "SCAN") [] (lit "id-1")); [vm_compute; reflexivity|apply not_elem_of_nil].
  - split; [vm_compute; reflexivity|]. eexists. split; vm_compute; reflexivity.
Qed.

Lemma worker_depth_exact_witness :
  exists s : System str unit, reachable s /\ count (queue_depth (sy_worker s)) = 1.
Proof.
  destruct demo_running as (s & Hs & Hn & _). exists s. split; [exact Hs|].
  rewrite <- Hn. apply (worker_depth_exact s Hs).
Defined.

Lemma cancel_job_exact_witness :
  exists (s : System str unit) ctx, reachable s /\ ctx ∈ sy_contexts s /\
    is_canceled (cancel_job (sy_worker s) (jc_job_id ctx)).1 ctx = true.
Proof.
  destruct demo_running as (s & Hs & _ & ctx & Hc & Hf). exists s, ctx.
  assert (Hin : ctx ∈ sy_contexts s) by (rewrite Hc; by left).
  split; [exact Hs|]. split; [exact Hin|].
  destruct (proj1 (cancel_job_exact s Hs) ctx Hin Hf) as [_ Hx].
  rewrite (Hx ctx Hin). by rewrite bool_decide_true.
Defined.
