(* ===== verification/JobLifecycle.v ===== *)
(** * The job lifecycle

    Models [src/crates/jobs/src/lifecycle.rs] ([run_job] and its types) and the parts
    of [worker.rs] that end a job ([complete], [fail], [cancel]).

    A job's hooks and the host's [persist_finished] are parameters: functions from the
    worker's state and the rest of the world ([Env]) to new ones and a result.  Hooks
    report through the worker but do not end their own context, which only [run_job]
    does.  The task loop pops from the front and pushes subtasks to the front, so it
    need not terminate; it takes fuel and returns [None] when that runs out. *)

From stdpp Require Import base sets gmap list strings.
From Stdlib Require Import ZArith Lia.
From S2P Require Import Prelude JobQueue JobWorker.

#[local] Open Scope Z_scope.

(** ** Logs *)

Inductive LogLevel := LevelError | LevelWarn | LevelInfo | LevelDebug.

Record JobExecuteLog := {
  jl_msg : str;
  jl_context : option str;
  jl_level : LogLevel;
  jl_timestamp : Z;
}.

Definition log_new (now : Z) (msg : str) (level : LogLevel) : JobExecuteLog :=
  {| jl_msg := msg; jl_context := None; jl_level := level; jl_timestamp := now |}.

Definition log_error (now : Z) (msg : str) : JobExecuteLog :=
  {| jl_msg := msg; jl_context := None; jl_level := LevelError; jl_timestamp := now |}.

Definition log_warn (now : Z) (msg : str) : JobExecuteLog :=
  {| jl_msg := msg; jl_context := None; jl_level := LevelWarn; jl_timestamp := now |}.

Definition with_ctx (log : JobExecuteLog) (ctx : str) : JobExecuteLog :=
  {| jl_msg := jl_msg log; jl_context := Some ctx; jl_level := jl_level log;
     jl_timestamp := jl_timestamp log |}.

(** The terminal state handed to [persist_finished]; the serialized output is bytes. *)
Record JobOutcome := {
  jo_status : JobStatus;
  jo_elapsed : Z;
  jo_output : option (list Z);
  jo_logs : list JobExecuteLog;
}.

Section Lifecycle.
Context {HostOutput Env Task Out : Type}.

Record WorkingState := {
  ws_output : option Out;
  ws_tasks : list Task;
  ws_logs : list JobExecuteLog;
}.

Definition working_default : WorkingState :=
  {| ws_output := None; ws_tasks := []; ws_logs := [] |}.

Record JobTaskOutput := {
  to_output : Out;
  to_subtasks : list Task;
  to_logs : list JobExecuteLog;
}.

(** What a job and its output type provide ([JobLifecycle], [JobOutputExt], [Default],
    [Into], serde). *)
Record JobHooks := {
  init : WorkerState HostOutput -> Env -> WorkerState HostOutput * Env * result WorkingState JobError;
  execute_task : WorkerState HostOutput -> Env -> Task ->
    WorkerState HostOutput * Env * result JobTaskOutput JobError;
  finalize : WorkerState HostOutput -> Env -> Out -> WorkerState HostOutput * Env * result unit JobError;
  update : Out -> Out -> Out;
  output_default : Out;
  into_host : Out -> HostOutput;
  to_vec : Out -> option (list Z);
}.

(** The default [JobOutputExt::update] is a full replacement. *)
Definition update_default (_ updated : Out) : Out := updated.

(** The host: the clock and the persistence of outcomes. *)
Record Host := {
  elapsed : Env -> Z;
  persist_finished : Env -> str -> JobOutcome -> Env * result unit JobError;
}.

(** [outcomes] records every outcome handed to the host, in order. *)
Record RunState := {
  rs_worker : WorkerState HostOutput;
  rs_ctx : JobContext;
  rs_env : Env;
  outcomes : list JobOutcome;
}.

Definition set_worker (st : RunState) (w : WorkerState HostOutput) : RunState :=
  {| rs_worker := w; rs_ctx := rs_ctx st; rs_env := rs_env st; outcomes := outcomes st |}.

Definition set_world (st : RunState) (w : WorkerState HostOutput) (e : Env) : RunState :=
  {| rs_worker := w; rs_ctx := rs_ctx st; rs_env := e; outcomes := outcomes st |}.

Definition progress (st : RunState) (p : JobProgress) : RunState :=
  set_worker st (report_progress (rs_worker st) (rs_ctx st) p).

Variable host : Host.

(** [persist_finished(..).await?] followed by [self.finish()]. *)
Definition persist_and_finish (st : RunState) (outcome : JobOutcome) : RunState * result unit JobError :=
  let '(e, r) := persist_finished host (rs_env st) (jc_job_id (rs_ctx st)) outcome in
  let logged := outcomes st ++ [outcome] in
  match r with
  | Err error =>
      ({| rs_worker := rs_worker st; rs_ctx := rs_ctx st; rs_env := e; outcomes := logged |}, Err error)
  | Ok _ =>
      let '(w, ctx) := finish (rs_worker st) (rs_ctx st) in
      ({| rs_worker := w; rs_ctx := ctx; rs_env := e; outcomes := logged |}, Ok tt)
  end.

Variable job : JobHooks.

Definition complete (st : RunState) (output : Out) (logs : list JobExecuteLog)
  : RunState * result unit JobError :=
  let elapsed := elapsed host (rs_env st) in
  let st := progress st progress_finished in
  persist_and_finish st
    {| jo_status := Completed; jo_elapsed := elapsed; jo_output := to_vec job output; jo_logs := logs |}.

Definition fail (st : RunState) (status : JobStatus) (message : str)
  : RunState * result unit JobError :=
  let elapsed := elapsed host (rs_env st) in
  let st := progress st (status_msg status message) in
  persist_and_finish st
    {| jo_status := status; jo_elapsed := elapsed; jo_output := None; jo_logs := [] |}.

Definition cancel (st : RunState) : RunState * result unit JobError :=
  fail st Cancelled (lit "Job was cancelled").

(** [ctx.fail(Failed, &format!("{what}{e}")).await?; return Err(e);] *)
Definition fail_with (st : RunState) (what : string) (e : JobError) : RunState * result unit JobError :=
  match fail st Failed (lit what ++ job_error_fmt e) with
  | (st, Err error) => (st, Err error)
  | (st, Ok _) => (st, Err e)
  end.

(** How the loop ends: early, with the function's result, or with all tasks done. *)
Inductive LoopEnd :=
| Returned (r : result unit JobError)
| Drained (output : Out) (logs : list JobExecuteLog) (completed : Z).

(** [while let Some(task) = tasks.pop_front()]. *)
Fixpoint run_tasks (fuel : nat) (st : RunState) (tasks : list Task) (output : Out)
    (logs : list JobExecuteLog) (completed : Z) : option (RunState * LoopEnd) :=
  match tasks with
  | [] => Some (st, Drained output logs completed)
  | task :: tasks =>
      match fuel with
      | O => None
      | S fuel' =>
          if is_canceled (rs_worker st) (rs_ctx st) then
            let '(st, r) := cancel st in
            Some (st, Returned (match r with Err e => Err e | Ok _ => Ok tt end))
          else
            let st := progress st
              (task_position (wrap_i32 completed) (wrap_i32 (Z.of_nat (length tasks) + 1))) in
            match execute_task job (rs_worker st) (rs_env st) task with
            | (w, e, Ok task_output) =>
                run_tasks fuel' (set_world st w e) (to_subtasks task_output ++ tasks)
                  (update job output (to_output task_output)) (logs ++ to_logs task_output)
                  (completed + 1)
            | (w, e, Err error) =>
                let '(st, r) := fail_with (set_world st w e) "Task failed: " error in
                Some (st, Returned r)
            end
      end
  end.

Definition run_job (fuel : nat) (st : RunState) : option (RunState * result unit JobError) :=
  let st := set_worker st (report_started (rs_worker st) (rs_ctx st)) in
  let st := progress st (status_msg Running (lit "Initializing job")) in
  match init job (rs_worker st) (rs_env st) with
  | (w, e, Err error) => Some (fail_with (set_world st w e) "Init failed: " error)
  | (w, e, Ok working_state) =>
      match run_tasks fuel (set_world st w e) (ws_tasks working_state)
              (default (output_default job) (ws_output working_state)) (ws_logs working_state) 0 with
      | None => None
      | Some (st, Returned r) => Some (st, r)
      | Some (st, Drained output logs _) =>
          match finalize job (rs_worker st) (rs_env st) output with
          | (w, e, Err error) => Some (fail_with (set_world st w e) "Finalize failed: " error)
          | (w, e, Ok _) =>
              let st := set_world st w e in
              let st := set_worker st (report_output (rs_worker st) (rs_ctx st) (into_host job output)) in
              Some (complete st output logs)
          end
      end
  end.

End Lifecycle.

Arguments RunState : clear implicits.
Arguments JobHooks : clear implicits.
Arguments Host : clear implicits.
Arguments WorkingState : clear implicits.
Arguments JobTaskOutput : clear implicits.
Arguments LoopEnd : clear implicits.

(** ** Ending a job *)

Section Theorems.
Context {HostOutput Env Task Out : Type}.
Context (host : Host Env) (job : JobHooks HostOutput Env Task Out).
Implicit Types (st : RunState HostOutput Env).

(** Same context identity, whatever happened to its finished flag. *)
Definition same_context (c c' : JobContext) : Prop :=
  jc_job_id c' = jc_job_id c /\ jc_kind c' = jc_kind c /\ jc_token c' = jc_token c.

(** Exactly one outcome [o] was handed to the host since [st]. *)
Record ended (st st' : RunState HostOutput Env) (o : JobOutcome) (r : result unit JobError) : Prop := {
  en_once : outcomes st' = outcomes st ++ [o];
  en_resolved : is_resolved (jo_status o) = true;
  en_failed : jo_status o = Failed -> exists e, r = Err e;
  en_partial : jo_status o <> Completed -> jo_output o = None /\ jo_logs o = [];
  en_finished : r = Ok tt -> jc_queue_finished (rs_ctx st') = true;
  en_context : same_context (rs_ctx st) (rs_ctx st');
}.

(** [ended] from a state that differs only in worker and environment. *)
Lemma ended_from st1 st2 st' o r :
  outcomes st2 = outcomes st1 -> rs_ctx st2 = rs_ctx st1 -> ended st2 st' o r -> ended st1 st' o r.
Proof. intros E1 E2 [H1 H2 H3 H4 H5 H6]. rewrite E1 in H1. rewrite E2 in H6. by constructor. Qed.

Lemma persist_and_finish_ended st o :
  is_resolved (jo_status o) = true -> jo_status o <> Failed ->
  (jo_status o <> Completed -> jo_output o = None /\ jo_logs o = []) ->
  ended st (persist_and_finish host st o).1 o (persist_and_finish host st o).2.
Proof.
  intros Hr Hf Hp. unfold persist_and_finish.
  destruct (persist_finished host _ _ _) as [e [u|err]]; constructor; cbn; try done.
Qed.

Lemma fail_with_ended st what e :
  exists o, ended st (fail_with host st what e).1 o (fail_with host st what e).2 /\ jo_status o = Failed.
Proof.
  unfold fail_with, fail, persist_and_finish.
  exists {| jo_status := Failed; jo_elapsed := elapsed host (rs_env st); jo_output := None; jo_logs := [] |}.
  split; [|done]. destruct (persist_finished host _ _ _) as [e' [u|err]]; constructor; cbn; done || eauto.
Qed.

Lemma cancel_ended st : exists o, ended st (cancel host st).1 o (cancel host st).2 /\ jo_status o = Cancelled.
Proof.
  unfold cancel, fail. eexists. split.
  - eapply ended_from; [| |apply persist_and_finish_ended]; done.
  - done.
Qed.

Lemma complete_ended st output logs :
  exists o, ended st (complete host job st output logs).1 o (complete host job st output logs).2 /\
    jo_status o = Completed /\ jo_output o = to_vec job output /\ jo_logs o = logs.
Proof.
  unfold complete. eexists. split.
  - eapply ended_from; [| |apply persist_and_finish_ended]; done.
  - done.
Qed.

(** The task loop either ends the job or leaves context and outcomes alone. *)
Lemma run_tasks_ends fuel st tasks output logs completed st' res :
  run_tasks host job fuel st tasks output logs completed = Some (st', res) ->
  match res with
  | Returned r => exists o, ended st st' o r /\ jo_status o <> Completed
  | Drained _ _ _ => outcomes st' = outcomes st /\ rs_ctx st' = rs_ctx st
  end.
Proof.
  revert st tasks output logs completed. induction fuel as [|fuel IH];
    intros st [|task tasks] output logs completed; cbn [run_tasks]; try done.
  1, 2: intros [= <- <-]; done.
  destruct (is_canceled _ _).
  - destruct (cancel_ended st) as (o & Ho & Hs). destruct (cancel host st) as [st1 r] eqn:Ec.
    intros [= <- <-]. cbn in Ho. destruct r as [[]|e]; exists o; rewrite Hs; done.
  - cbv zeta. destruct (execute_task job _ _ task) as [[w e] [out|err]].
    + intros Hr. apply IH in Hr. destruct res as [r|]; [|exact Hr].
      destruct Hr as (o & Ho & Hs). exists o. split; [|done]. eapply ended_from; [| |exact Ho]; done.
    + match goal with |- context [fail_with host ?s _ _] =>
        destruct (fail_with_ended s "Task failed: " err) as (o & Ho & Hs);
        destruct (fail_with host s "Task failed: " err) as [st1 r] eqn:Ef end.
      intros [= <- <-]. cbn in Ho. exists o. rewrite Hs. split; [|done]. eapply ended_from; [| |exact Ho]; done.
Qed.

(** Every exit path of [run_job] ends the job exactly once: whatever the hooks and
    the host return, one outcome is handed to the host, with a terminal status; a
    failed job returns an error; only a completed job carries output and logs; and
    when [run_job] succeeds the running counter has been released. *)
Theorem run_job_ends_once fuel st st' r :
  run_job host job fuel st = Some (st', r) -> exists o, ended st st' o r.
Proof.
  unfold run_job. cbv zeta. destruct (init job _ _) as [[w e] [ws|err]].
  2: { intros [= Hf]. match goal with Hf : fail_with host ?s _ _ = _ |- _ =>
         destruct (fail_with_ended s "Init failed: " err) as (o & Ho & _); rewrite Hf in Ho end.
       exists o. eapply ended_from; [| |exact Ho]; done. }
  destruct (run_tasks host job fuel _ _ _ _ _) as [[st1 res]|] eqn:Et; [|done].
  apply run_tasks_ends in Et. destruct res as [r1|output logs n].
  { intros [= <- <-]. destruct Et as (o & Ho & _). exists o. eapply ended_from; [| |exact Ho]; done. }
  destruct Et as [Eo Ec]. cbn in Eo, Ec.
  destruct (finalize job _ _ output) as [[w2 e2] [u|err]]; intros [= Hf].
  - match goal with Hf : complete host job ?s _ _ = _ |- _ =>
      destruct (complete_ended s output logs) as (o & Ho & _); rewrite Hf in Ho end.
    exists o. eapply ended_from; [| |exact Ho]; done.
  - match goal with Hf : fail_with host ?s _ _ = _ |- _ =>
      destruct (fail_with_ended s "Finalize failed: " err) as (o & Ho & _); rewrite Hf in Ho end.
    exists o. eapply ended_from; [| |exact Ho]; done.
Qed.

(** ** The order of tasks *)

(** Hooks that succeed whatever the worker has seen: they may report through it and change
    the environment, which their results may depend on, but nobody cancels the job meanwhile. *)
Definition initializes (e e' : Env) (ws : WorkingState Task Out) : Prop :=
  forall w, exists w', init job w e = (w', e', Ok ws) /\ cancelled w' = cancelled w.

Definition executes (e : Env) (t : Task) (e' : Env) (done_ : JobTaskOutput Task Out) : Prop :=
  forall w, exists w', execute_task job w e t = (w', e', Ok done_) /\ cancelled w' = cancelled w.

Definition finalizes (e : Env) (output : Out) (e' : Env) : Prop :=
  forall w, exists w', finalize job w e output = (w', e', Ok tt).

(** Tasks done depth first, with what each of them returned: a task, then everything under
    it, then the tasks after it. *)
Inductive depth_first : Env -> list Task -> list (JobTaskOutput Task Out) -> Env -> Prop :=
| depth_first_nil e : depth_first e [] [] e
| depth_first_cons e t ts e1 done_ below e2 after e3 :
    executes e t e1 done_ -> depth_first e1 (to_subtasks done_) below e2 -> depth_first e2 ts after e3 ->
    depth_first e (t :: ts) (done_ :: below ++ after) e3.

Lemma depth_first_app e l1 l2 d1 d2 e1 e2 :
  depth_first e l1 d1 e1 -> depth_first e1 l2 d2 e2 -> depth_first e (l1 ++ l2) (d1 ++ d2) e2.
Proof.
  intros H1 H2. induction H1 as [|e t ts e1 done_ below e3 after e4 Ht Hb _ Ha IH]; cbn; [done|].
  rewrite <- app_assoc. econstructor; [done|done|]. by apply IH.
Qed.

(** The first task of a list that is done depth first, and the list that is then left. *)
Lemma depth_first_inv e t ts d e' :
  depth_first e (t :: ts) d e' ->
  exists e1 done_ rest, executes e t e1 done_ /\ d = done_ :: rest /\ depth_first e1 (to_subtasks done_ ++ ts) rest e'.
Proof.
  intros Hd. inversion Hd as [|? ? ? e1 done_ below e2 after ? Ht Hb Ha]; subst.
  exists e1, done_, (below ++ after). split_and!; [done|done|]. by eapply depth_first_app.
Qed.

Lemma run_tasks_drains fuel st tasks dones e output logs completed :
  depth_first (rs_env st) tasks dones e -> is_canceled (rs_worker st) (rs_ctx st) = false -> (length dones <= fuel)%nat ->
  exists st', run_tasks host job fuel st tasks output logs completed =
    Some (st', Drained (fold_left (update job) (to_output <$> dones) output)
                 (logs ++ concat (to_logs <$> dones)) (completed + Z.of_nat (length dones))) /\
    outcomes st' = outcomes st /\ rs_ctx st' = rs_ctx st /\ rs_env st' = e.
Proof.
  revert fuel st tasks output logs completed.
  induction dones as [|done_ dones IH]; intros fuel st tasks output logs completed Hd Hc Hf; destruct tasks as [|t ts].
  - exists st. inversion Hd. destruct fuel; cbn; by rewrite Z.add_0_r, app_nil_r.
  - inversion Hd.
  - inversion Hd.
  - apply depth_first_inv in Hd as (e1 & d & rest & Ht & [= <- <-] & Hd).
    destruct fuel as [|fuel]; [simpl in Hf; lia|]. cbn [run_tasks]. rewrite Hc. cbv zeta.
    match goal with |- context [execute_task job ?w ?e t] =>
      destruct (Ht w) as (w' & He & Hw); change e with (rs_env st); rewrite He; set (st1 := set_world _ w' e1) end.
    destruct (IH fuel st1 (to_subtasks done_ ++ ts) (update job output (to_output done_)) (logs ++ to_logs done_) (completed + 1))
      as (st' & Hr & Ho & Hx & He').
    + exact Hd.
    + unfold is_canceled in *. cbn. rewrite Hw. exact Hc.
    + simpl in Hf. lia.
    + exists st'. rewrite Hr. split; [|done]. cbn. rewrite <- app_assoc. do 3 f_equal. lia.
Qed.

(** C40.  Tasks run depth first and to the end: when initializing succeeds, the tasks end
    with success when they are done depth first, finalizing succeeds, the outcome is
    persisted and nobody cancels the job, whatever the hooks report and do to the environment,
    then fuel equal to the number of tasks suffices, and [run_job] completes with the outputs
    and the logs of all tasks folded in that order -- every subtask before the task's
    successors -- after the initial logs, and releases the counter.  What hooks return may
    depend on the environment, not on what was reported. *)
Theorem run_job_completes fuel st e1 ws dones e2 e3 :
  let output := fold_left (update job) (to_output <$> dones) (default (output_default job) (ws_output ws)) in
  initializes (rs_env st) e1 ws -> depth_first e1 (ws_tasks ws) dones e2 -> finalizes e2 output e3 ->
  (forall o, (persist_finished host e3 (jc_job_id (rs_ctx st)) o).2 = Ok tt) ->
  is_canceled (rs_worker st) (rs_ctx st) = false -> (length dones <= fuel)%nat ->
  exists st' o, run_job host job fuel st = Some (st', Ok tt) /\ outcomes st' = outcomes st ++ [o] /\
    jo_status o = Completed /\ jo_logs o = ws_logs ws ++ concat (to_logs <$> dones) /\ jo_output o = to_vec job output /\
    jc_queue_finished (rs_ctx st') = true.
Proof.
  intros output Hi Hd Hfin Hpers Hc Hf. unfold run_job. cbv zeta.
  match goal with |- context [init job ?w ?e] =>
    destruct (Hi w) as (w1 & Hi1 & Hw1); change e with (rs_env st); rewrite Hi1 end.
  match goal with |- context [run_tasks host job fuel ?s ?ts ?o ?l 0] =>
    destruct (run_tasks_drains fuel s ts dones e2 o l 0 Hd) as (st1 & Hr & Ho & Hx & He) end; [|done|].
  { unfold is_canceled in *. cbn. rewrite Hw1. exact Hc. }
  rewrite Hr. fold output. destruct (Hfin (rs_worker st1)) as (w2 & Hf2). rewrite He, Hf2.
  match goal with |- context [complete host job ?s ?o ?l] =>
    destruct (complete_ended s o l) as (oc & [H1 _ _ _ H5 _] & H2 & H3 & H4);
    destruct (complete host job s o l) as [st2 r] eqn:Ec end.
  cbn in H1. rewrite Ho in H1. cbn in H1.
  assert (r = Ok tt) as ->.
  { unfold complete, persist_and_finish in Ec. cbn [rs_env set_worker set_world progress rs_ctx] in Ec. rewrite Hx in Ec.
    match type of Ec with context [persist_finished host e3 ?i ?o0] => specialize (Hpers o0);
      destruct (persist_finished host e3 i o0) as [e4 r1] eqn:Ep end.
    cbn in Ep, Hpers. rewrite Ep in Hpers. cbn in Hpers. subst r1. by injection Ec as _ <-. }
  exists st2, oc. split_and!; try done. by apply H5.
Qed.

(** ** Accounting *)

(** Hooks that leave the counters and the token registry to the worker. *)
Record hooks_frame : Prop := {
  hf_init : forall w e, wk_queue (init job w e).1.1 = wk_queue w /\
    cancellation_tokens (init job w e).1.1 = cancellation_tokens w;
  hf_execute : forall w e t, wk_queue (execute_task job w e t).1.1 = wk_queue w /\
    cancellation_tokens (execute_task job w e t).1.1 = cancellation_tokens w;
  hf_finalize : forall w e o, wk_queue (finalize job w e o).1.1 = wk_queue w /\
    cancellation_tokens (finalize job w e o).1.1 = cancellation_tokens w;
}.

(** Counters and registry once the context is dropped. *)
Definition after_drop st : JobQueueCounts * gmap str nat :=
  (wk_queue (drop_context (rs_worker st) (rs_ctx st)),
   cancellation_tokens (drop_context (rs_worker st) (rs_ctx st))).

Lemma transit_publish_queue t (w : WorkerState HostOutput) kind :
  wk_queue (transit_publish t w kind) = (run_transition t (wk_queue w) kind).1 /\
  cancellation_tokens (transit_publish t w kind) = cancellation_tokens w.
Proof. unfold transit_publish. by rewrite transit_worker. Qed.

Lemma finish_counters (w : WorkerState HostOutput) ctx :
  wk_queue (finish w ctx).1 =
    (if jc_queue_finished ctx then wk_queue w else (finished (wk_queue w) (jc_kind ctx)).1) /\
  cancellation_tokens (finish w ctx).1 = delete (jc_job_id ctx) (cancellation_tokens w).
Proof.
  unfold finish, finish_swap. destruct (jc_queue_finished ctx); [done|]. cbn [fst negb].
  match goal with |- context [transit_publish Finished ?w' ?k] =>
    destruct (transit_publish_queue Finished w' k) as [E1 E2] end.
  by rewrite E1, E2.
Qed.

Lemma after_drop_ext st1 st2 :
  wk_queue (rs_worker st2) = wk_queue (rs_worker st1) ->
  cancellation_tokens (rs_worker st2) = cancellation_tokens (rs_worker st1) ->
  rs_ctx st2 = rs_ctx st1 -> after_drop st2 = after_drop st1.
Proof.
  intros E1 E2 E3. unfold after_drop, drop_context.
  destruct (finish_counters (rs_worker st1) (rs_ctx st1)) as [F1 F2].
  destruct (finish_counters (rs_worker st2) (rs_ctx st2)) as [G1 G2].
  by rewrite F1, F2, G1, G2, E1, E2, E3.
Qed.

(** Finishing twice releases once. *)
Lemma after_drop_persist st o : after_drop (persist_and_finish host st o).1 = after_drop st.
Proof.
  unfold persist_and_finish. destruct (persist_finished host _ _ _) as [e [u|err]];
    [|by apply after_drop_ext].
  destruct (finish_counters (rs_worker st) (rs_ctx st)) as [F1 F2].
  destruct (finish (rs_worker st) (rs_ctx st)) as [w ctx] eqn:E. cbn [fst] in *.
  assert (ctx = set_finished (rs_ctx st)) as -> by (unfold finish, finish_swap in E; by injection E).
  unfold after_drop, drop_context. cbn [rs_worker rs_ctx].
  destruct (finish_counters w (set_finished (rs_ctx st))) as [G1 G2].
  rewrite G1, G2, E. cbn [fst set_finished jc_queue_finished jc_job_id]. by rewrite F2, delete_delete_eq.
Qed.

Lemma after_drop_fail st status message : after_drop (fail host st status message).1 = after_drop st.
Proof. unfold fail. rewrite after_drop_persist. by apply after_drop_ext. Qed.

Lemma after_drop_fail_with st what e : after_drop (fail_with host st what e).1 = after_drop st.
Proof.
  unfold fail_with. pose proof (after_drop_fail st Failed (lit what ++ job_error_fmt e)) as Hf.
  destruct (fail host st Failed _) as [st' [u|err]]; exact Hf.
Qed.

Lemma run_tasks_after_drop fuel st tasks output logs completed st' res :
  hooks_frame -> run_tasks host job fuel st tasks output logs completed = Some (st', res) ->
  after_drop st' = after_drop st.
Proof.
  intros Hframe. revert st tasks output logs completed. induction fuel as [|fuel IH];
    intros st [|task tasks] output logs completed; cbn [run_tasks]; try done.
  1, 2: by intros [= <- <-].
  destruct (is_canceled _ _).
  - pose proof (after_drop_fail st Cancelled (lit "Job was cancelled")) as Hc.
    fold (cancel host st) in Hc. destruct (cancel host st) as [st1 r]. intros [= <- _]. exact Hc.
  - cbv zeta. match goal with |- context [execute_task job ?w ?e task] =>
      destruct (hf_execute Hframe w e task) as [F1 F2];
      destruct (execute_task job w e task) as [[w' e'] [o|err]] end; cbn [fst] in F1, F2.
    + intros Hr%IH. rewrite Hr. apply after_drop_ext; cbn; done.
    + pose proof (after_drop_fail_with
        (set_world (progress st (task_position (wrap_i32 completed) (wrap_i32 (Z.of_nat (length tasks) + 1)))) w' e')
        "Task failed: " err) as Hf.
      destruct (fail_with host _ "Task failed: " err) as [st1 r]. intros [= <- _].
      cbn [fst] in Hf. rewrite Hf. apply after_drop_ext; cbn; done.
Qed.

Lemma run_job_after_drop fuel st st' r :
  hooks_frame -> run_job host job fuel st = Some (st', r) -> after_drop st' = after_drop st.
Proof.
  intros Hframe. unfold run_job. cbv zeta.
  match goal with |- context [init job ?w ?e] => destruct (hf_init Hframe w e) as [F1 F2];
    destruct (init job w e) as [[w1 e1] [ws|err]] end; cbn [fst] in F1, F2.
  2: { intros [= Hf]. match goal with Hf : fail_with host ?s ?m ?x = _ |- _ =>
         pose proof (after_drop_fail_with s m x) as Hd; rewrite Hf in Hd end.
       cbn [fst] in Hd. rewrite Hd. apply after_drop_ext; cbn; done. }
  destruct (run_tasks host job fuel _ _ _ _ _) as [[st1 res]|] eqn:Et; [|done].
  apply run_tasks_after_drop in Et; [|done].
  assert (Hd1 : after_drop st1 = after_drop st) by (rewrite Et; apply after_drop_ext; cbn; done).
  destruct res as [r1|output logs n]; [by intros [= <- _]|].
  destruct (hf_finalize Hframe (rs_worker st1) (rs_env st1) output) as [G1 G2].
  destruct (finalize job _ _ output) as [[w2 e2] [u|err]]; cbn [fst] in G1, G2; intros [= Hf];
    rewrite <- Hd1.
  - unfold complete in Hf. match goal with Hf : persist_and_finish host ?s ?o = _ |- _ =>
      pose proof (after_drop_persist s o) as Hd; rewrite Hf in Hd end.
    cbn [fst] in Hd. rewrite Hd. apply after_drop_ext; cbn; done.
  - match goal with Hf : fail_with host ?s ?m ?x = _ |- _ =>
      pose proof (after_drop_fail_with s m x) as Hd; rewrite Hf in Hd end.
    cbn [fst] in Hd. rewrite Hd. apply after_drop_ext; cbn; done.
Qed.

(** The dispatch table entry of such a job; a run that does not return is abandoned,
    which drops its context as it was. *)
Definition run_in_context (fuel : nat) (e : Env) (w : WorkerState HostOutput) (ctx : JobContext)
  : WorkerState HostOutput * JobContext * result unit JobError :=
  match run_job host job fuel {| rs_worker := w; rs_ctx := ctx; rs_env := e; outcomes := [] |} with
  | Some (st, r) => (rs_worker st, rs_ctx st, r)
  | None => (w, ctx, Err (Unknown (lit "abandoned")))
  end.

End Theorems.

Section Dispatch.
Context {Job HostOutput Env Task Out : Type} `{JobPayload Job}.
Context (host : Host Env) (job : JobHooks HostOutput Env Task Out).

(** Dispatching a queued job accounts for it exactly once on every path -- the
    record cannot be persisted, a hook or the host fails, the job is cancelled,
    completes, or is abandoned: afterwards one job of that kind has left the queue,
    nothing is counted as running for it, and its cancellation token is gone. *)
Theorem dispatch_accounts fuel e (w : WorkerState HostOutput) id (j : Job) persisted qs rs :
  hooks_frame job -> Z.of_nat (length qs + length rs) + 1 < i32_max ->
  tracks (wk_queue w) (job_kind j :: qs) rs -> cancellation_tokens w !! id = None ->
  let w' := (dispatch w id j persisted (run_in_context host job fuel e)).1 in
  tracks (wk_queue w') qs rs /\ cancellation_tokens w' = cancellation_tokens w.
Proof.
  intros Hframe Hlen Ht Hid. cbv zeta. unfold dispatch, open, open_context.
  destruct persisted as [u|err].
  2: { cbn [fst]. destruct (transit_publish_queue EnqueueFailed w (job_kind j)) as [E1 E2].
       rewrite E1, E2. split; [|done].
       apply (transition_refines EnqueueFailed _ _ (job_kind j :: qs) rs); [simpl; lia|done|done]. }
  destruct (register w id) as [w0 token] eqn:Er. unfold register in Er. injection Er as <- <-.
  set (w1 := transit_publish Started _ _).
  set (ctx := {| jc_job_id := id; jc_kind := job_kind j; jc_token := next_token w; jc_queue_finished := false |}).
  assert (Hq1 : tracks (wk_queue w1) qs (job_kind j :: rs) /\
                cancellation_tokens w1 = <[ id := next_token w ]> (cancellation_tokens w)).
  { unfold w1. match goal with |- context [transit_publish Started ?w' ?k] =>
      destruct (transit_publish_queue Started w' k) as [E1 E2] end.
    rewrite E1, E2. split; [|done].
    apply (transition_refines Started _ _ (job_kind j :: qs) rs); [simpl; lia|done|done]. }
  destruct Hq1 as [Hq1 Htok].
  set (st0 := {| rs_worker := w1; rs_ctx := ctx; rs_env := e; outcomes := [] |}).
  assert (Hdrop : forall w2 ctx2 r, run_in_context host job fuel e w1 ctx = (w2, ctx2, r) ->
            (wk_queue (drop_context w2 ctx2), cancellation_tokens (drop_context w2 ctx2)) = after_drop st0).
  { intros w2 ctx2 r. unfold run_in_context. destruct (run_job host job fuel _) as [[st' r']|] eqn:Ej.
    - intros [= <- <- _]. exact (run_job_after_drop host job fuel st0 st' r' Hframe Ej).
    - by intros [= <- <- _]. }
  destruct (run_in_context host job fuel e w1 ctx) as [[w2 ctx2] r] eqn:Erun.
  specialize (Hdrop _ _ _ eq_refl). cbn [fst].
  destruct (finish_counters w1 ctx) as [F1 F2].
  pose proof (f_equal fst Hdrop) as D1. pose proof (f_equal snd Hdrop) as D2.
  unfold after_drop in D1, D2. cbn [fst snd rs_worker rs_ctx st0] in D1, D2.
  rewrite D1, D2. unfold drop_context. rewrite F1, F2. split.
  - apply (transition_refines Finished _ _ qs (job_kind j :: rs)); [simpl; lia|done|done].
  - rewrite Htok. by rewrite delete_insert_id.
Qed.

End Dispatch.

(** ** Witnesses *)

#[local] Instance lifecycle_payload : JobPayload str :=
  {| job_name := id; job_description := fun _ => None; job_kind := id |}.

(** A task of weight [n + 1] spawns two of weight [n]. *)
Definition demo_sub (n : nat) : list nat := match n with O => [] | S n' => [n'; n'] end.

Definition demo_log (n : nat) : list JobExecuteLog := [log_new 0 [Z.of_nat n] LevelInfo].

Definition demo_hooks : JobHooks Z unit nat Z :=
  {| init := fun w e => (w, e, Ok {| ws_output := None; ws_tasks := [2%nat; 0%nat]; ws_logs := [] |});
     execute_task := fun w e t =>
       (w, e, Ok {| to_output := Z.of_nat t; to_subtasks := demo_sub t; to_logs := demo_log t |});
     finalize := fun w e _ => (w, e, Ok tt);
     update := Z.add; output_default := 0; into_host := id; to_vec := fun o => Some [o] |}.

Definition demo_host : Host unit :=
  {| elapsed := fun _ => 0; persist_finished := fun e _ _ => (e, Ok tt) |}.

Definition demo_state : RunState Z unit :=
  {| rs_worker := worker_new;
     rs_ctx := {| jc_job_id := lit "id-1"; jc_kind := lit "SCAN"; jc_token := 0; jc_queue_finished := false |};
     rs_env := tt; outcomes := [] |}.

Lemma run_job_ends_once_witness :
  exists st' o, run_job demo_host demo_hooks 10 demo_state = Some (st', Ok tt) /\
    ended demo_state st' o (Ok tt).
Proof.
  assert (E : exists st', run_job demo_host demo_hooks 10 demo_state = Some (st', Ok tt))
    by (eexists; vm_compute; reflexivity).
  destruct E as [st' E]. destruct (run_job_ends_once _ _ _ _ _ _ E) as [o Ho].
  exists st', o. split; [exact E|exact Ho].
Defined.

(** A job that reports from every hook; tasks number their outputs through the environment. *)
Definition counting_hooks : JobHooks Z Z nat (list Z) :=
  let tell w := report_progress w (rs_ctx demo_state) (status_msg Running (lit "Working")) in
  {| init := fun w e => (tell w, e + 1, Ok {| ws_output := None; ws_tasks := [1%nat; 0%nat]; ws_logs := demo_log 7 |});
     execute_task := fun w e t =>
       (tell w, e + 1, Ok {| to_output := [e]; to_subtasks := demo_sub t; to_logs := demo_log t |});
     finalize := fun w e _ => (tell w, e + 1, Ok tt);
     update := app; output_default := []; into_host := fun o => Z.of_nat (length o); to_vec := Some |}.

Definition counting_host : Host Z := {| elapsed := id; persist_finished := fun e _ _ => (e, Ok tt) |}.

Definition counting_state : RunState Z Z :=
  {| rs_worker := worker_new; rs_ctx := rs_ctx demo_state; rs_env := 0; outcomes := [] |}.

Lemma run_job_completes_witness :
  exists st' o, run_job counting_host counting_hooks 4 counting_state = Some (st', Ok tt) /\
    jo_logs o = concat (demo_log <$> [7; 1; 0; 0; 0]%nat) /\ jo_output o = Some [1; 2; 3; 4].
Proof.
  set (d (t : nat) (e : Z) := {| to_output := [e]; to_subtasks := demo_sub t; to_logs := demo_log t |}).
  destruct (run_job_completes counting_host counting_hooks 4 counting_state 1
              {| ws_output := None; ws_tasks := [1%nat; 0%nat]; ws_logs := demo_log 7 |}
              [d 1%nat 1; d 0%nat 2; d 0%nat 3; d 0%nat 4] 5 6) as (st' & o & H1 & _ & _ & H4 & H5 & _).
  - intros w. eexists. split; reflexivity.
  - assert (Ht : forall t e, executes counting_hooks e t (e + 1) (d t e)) by (intros t e w; eexists; split; reflexivity).
    apply (depth_first_cons _ 1 1%nat [0%nat] 2 (d 1%nat 1) [d 0%nat 2; d 0%nat 3] 4 [d 0%nat 4] 5 (Ht 1%nat 1)).
    + apply (depth_first_cons _ 2 0%nat [0%nat] 3 (d 0%nat 2) [] 3 [d 0%nat 3] 4 (Ht 0%nat 2)); [constructor|].
      apply (depth_first_cons _ 3 0%nat [] 4 (d 0%nat 3) [] 4 [] 4 (Ht 0%nat 3)); constructor.
    + apply (depth_first_cons _ 4 0%nat [] 5 (d 0%nat 4) [] 5 [] 5 (Ht 0%nat 4)); constructor.
  - intros w. eexists. reflexivity.
  - intros o. reflexivity.
  - vm_compute. reflexivity.
  - cbn. lia.
  - exists st', o. split; [exact H1|]. split; [exact H4|exact H5].
Defined.

Lemma dispatch_accounts_witness :
  let w := (enqueue (Output := Z) worker_new (lit "SCAN") (Ok tt)).1 in
  tracks (wk_queue (dispatch w (lit "id-1") (lit "SCAN") (Ok tt)
    (run_in_context demo_host demo_hooks 10 tt)).1) [] [].
Proof.
  cbv zeta. apply dispatch_accounts.
  - constructor; intros; split; reflexivity.
  - vm_compute. reflexivity.
  - unfold enqueue. cbn [fst].
    destruct (transit_publish_queue Enqueued (worker_new (Output := Z)) (job_kind (lit "SCAN"))) as [E _].
    rewrite E. apply (transition_refines Enqueued _ _ [] []); [vm_compute; reflexivity|apply tracks_empty|].
    split; reflexivity.
  - vm_compute. reflexivity.
Defined.
