(* ===== verification/Permissions.v ===== *)
(** * Permissions

    Models [src/crates/models/src/shared/permission_set.rs], the [UserPermission] enum of
    [src/crates/models/src/shared/enums.rs] and the permission fields of [AuthUser] in
    [src/crates/models/src/entity/user.rs]: associated permissions, the comma-separated
    column they are stored in, and the checks made against a loaded user. *)

From stdpp Require Import base sets list relations.
From Stdlib Require Import ZArith Lia String.
From S2P Require Import Prelude.

#[local] Open Scope Z_scope.

Inductive UserPermission :=
| AccessApiKeys | AccessKoreaderSync | AccessKoboSync | AccessRemoteSource | AcquireReleases
| AccessWorker | AccessBookClub | CreateBookClub | ShareBookClubReader | ChangePassword
| ChangeUsername | ChangeAvatar | EmailerRead | EmailerCreate | EmailerManage | EmailSend
| EmailArbitrarySend | AccessSmartList | FileExplorer | UploadFile | DownloadFile | CreateLibrary
| EditLibrary | ScanLibrary | ManageLibrary | EditThumbnails | EditMetadata | WriteBackMetadata
| DeleteLibrary | ReadUsers | ManageUsers | ReadNotifier | CreateNotifier | ManageNotifier
| DeleteNotifier | ReadJobs | ManageJobs | MetadataFetchRecordRead | MetadataFetchRecordManage
| MetadataProviderRead | MetadataProviderManage | ReadPersistedLogs | ReadSystemLogs | ManageServer.

(** [EnumIter]. *)
Definition all_permissions : list UserPermission :=
  [AccessApiKeys; AccessKoreaderSync; AccessKoboSync; AccessRemoteSource; AcquireReleases;
   AccessWorker; AccessBookClub; CreateBookClub; ShareBookClubReader; ChangePassword;
   ChangeUsername; ChangeAvatar; EmailerRead; EmailerCreate; EmailerManage; EmailSend;
   EmailArbitrarySend; AccessSmartList; FileExplorer; UploadFile; DownloadFile; CreateLibrary;
   EditLibrary; ScanLibrary; ManageLibrary; EditThumbnails; EditMetadata; WriteBackMetadata;
   DeleteLibrary; ReadUsers; ManageUsers; ReadNotifier; CreateNotifier; ManageNotifier;
   DeleteNotifier; ReadJobs; ManageJobs; MetadataFetchRecordRead; MetadataFetchRecordManage;
   MetadataProviderRead; MetadataProviderManage; ReadPersistedLogs; ReadSystemLogs; ManageServer].

(** [Display] with [SCREAMING_SNAKE_CASE]. *)
Definition permission_name (p : UserPermission) : string :=
  (match p with
  | AccessApiKeys => "ACCESS_API_KEYS"
  | AccessKoreaderSync => "ACCESS_KOREADER_SYNC"
  | AccessKoboSync => "ACCESS_KOBO_SYNC"
  | AccessRemoteSource => "ACCESS_REMOTE_SOURCE"
  | AcquireReleases => "ACQUIRE_RELEASES"
  | AccessWorker => "ACCESS_WORKER"
  | AccessBookClub => "ACCESS_BOOK_CLUB"
  | CreateBookClub => "CREATE_BOOK_CLUB"
  | ShareBookClubReader => "SHARE_BOOK_CLUB_READER"
  | ChangePassword => "CHANGE_PASSWORD"
  | ChangeUsername => "CHANGE_USERNAME"
  | ChangeAvatar => "CHANGE_AVATAR"
  | EmailerRead => "EMAILER_READ"
  | EmailerCreate => "EMAILER_CREATE"
  | EmailerManage => "EMAILER_MANAGE"
  | EmailSend => "EMAIL_SEND"
  | EmailArbitrarySend => "EMAIL_ARBITRARY_SEND"
  | AccessSmartList => "ACCESS_SMART_LIST"
  | FileExplorer => "FILE_EXPLORER"
  | UploadFile => "UPLOAD_FILE"
  | DownloadFile => "DOWNLOAD_FILE"
  | CreateLibrary => "CREATE_LIBRARY"
  | EditLibrary => "EDIT_LIBRARY"
  | ScanLibrary => "SCAN_LIBRARY"
  | ManageLibrary => "MANAGE_LIBRARY"
  | EditThumbnails => "EDIT_THUMBNAILS"
  | EditMetadata => "EDIT_METADATA"
  | WriteBackMetadata => "WRITE_BACK_METADATA"
  | DeleteLibrary => "DELETE_LIBRARY"
  | ReadUsers => "READ_USERS"
  | ManageUsers => "MANAGE_USERS"
  | ReadNotifier => "READ_NOTIFIER"
  | CreateNotifier => "CREATE_NOTIFIER"
  | ManageNotifier => "MANAGE_NOTIFIER"
  | DeleteNotifier => "DELETE_NOTIFIER"
  | ReadJobs => "READ_JOBS"
  | ManageJobs => "MANAGE_JOBS"
  | MetadataFetchRecordRead => "METADATA_FETCH_RECORD_READ"
  | MetadataFetchRecordManage => "METADATA_FETCH_RECORD_MANAGE"
  | MetadataProviderRead => "METADATA_PROVIDER_READ"
  | MetadataProviderManage => "METADATA_PROVIDER_MANAGE"
  | ReadPersistedLogs => "READ_PERSISTED_LOGS"
  | ReadSystemLogs => "READ_SYSTEM_LOGS"
  | ManageServer => "MANAGE_SERVER"
  end)%string.

Definition permission_fmt (p : UserPermission) : str := lit (permission_name p).

(** [EnumString]: the exact name. *)
Definition permission_from_str (s : str) : option UserPermission :=
  List.find (fun p => bool_decide (permission_fmt p = s)) all_permissions.

Lemma permission_from_fmt p : permission_from_str (permission_fmt p) = Some p.
Proof. by destruct p; vm_compute. Qed.

#[export] Instance UserPermission_eq_dec : EqDecision UserPermission.
Proof.
  refine (fun p q => cast_if (decide (permission_fmt p = permission_fmt q))).
  - abstract (apply (inj Some); rewrite <- !permission_from_fmt; congruence).
  - abstract congruence.
Defined.

Definition associated (p : UserPermission) : list UserPermission :=
  match p with
  | CreateBookClub => [AccessBookClub]
  | ShareBookClubReader => [AccessBookClub]
  | EmailerRead => [EmailSend]
  | EmailerCreate => [EmailerRead]
  | EmailerManage => [EmailerCreate; EmailerRead]
  | EmailArbitrarySend => [EmailSend]
  | CreateLibrary => [EditLibrary; ScanLibrary]
  | ManageLibrary => [ScanLibrary; EditLibrary; ManageLibrary; EditThumbnails]
  | DeleteLibrary => [ManageLibrary]
  | CreateNotifier => [ReadNotifier]
  | ManageNotifier => [DeleteNotifier; ReadNotifier; CreateNotifier]
  | DeleteNotifier => [ManageNotifier; ReadNotifier]
  | ManageUsers => [ReadUsers]
  | ReadPersistedLogs => [ReadJobs]
  | WriteBackMetadata => [EditMetadata]
  | EditThumbnails => []
  | _ => []
  end.

(** ** Permission sets *)

Record PermissionSet := { ps_permissions : list UserPermission }.

Definition permission_set_new (permissions : list UserPermission) : PermissionSet :=
  {| ps_permissions := permissions |}.

(** [Itertools::unique]: keeps the first of equal elements. *)
Fixpoint unique_from (seen l : list UserPermission) : list UserPermission :=
  match l with
  | [] => []
  | x :: l' => if decide (x ∈ seen) then unique_from seen l' else x :: unique_from (x :: seen) l'
  end.

Definition resolve_into_vec (s : PermissionSet) : list UserPermission :=
  unique_from [] (flat_map (fun permission => permission :: associated permission) (ps_permissions s)).

Definition resolve_into_string (s : PermissionSet) : option str :=
  match resolve_into_vec s with
  | [] => None
  | resolved => Some (str_join [44] (permission_fmt <$> resolved))
  end.

Definition permission_set_from (s : str) : PermissionSet :=
  match s with
  | [] => {| ps_permissions := [] |}
  | _ =>
      {| ps_permissions :=
           omap permission_from_str
             (List.filter (fun s => negb (is_none (List.hd_error s)))
                (trim <$> split_on (Z.eqb 44) s)) |}
  end.

(** ** Users *)

Record AuthUser := { is_server_owner : bool; permissions : list UserPermission }.

(** Loading a user: the column is parsed and resolved. *)
Definition load_permissions (column : option str) : list UserPermission :=
  resolve_into_vec (permission_set_from (default [] column)).

Definition has_permission (user : AuthUser) (permission : UserPermission) : bool :=
  is_server_owner user || bool_decide (permission ∈ permissions user).

Definition user_has_permission (user : AuthUser) (permission : UserPermission) : bool :=
  is_server_owner user
  || existsb (fun p => bool_decide (p = permission) || bool_decide (permission ∈ associated p))
       (permissions user).

Definition user_has_all_permissions (user : AuthUser) (wanted : list UserPermission) : bool :=
  if is_server_owner user then true
  else is_none (List.hd_error
         (List.filter (fun permission => negb (user_has_permission user permission)) wanted)).

(** ** Resolution *)

Lemma unique_from_elem seen l x : x ∈ unique_from seen l <-> x ∈ l /\ x ∉ seen.
Proof.
  revert seen. induction l as [|y l IH]; intros seen; simpl; [set_solver|].
  destruct (decide (y ∈ seen)); [rewrite IH; set_solver|].
  rewrite elem_of_cons, IH. destruct (decide (x = y)) as [->|]; set_solver.
Qed.

Lemma unique_from_NoDup seen l : NoDup (unique_from seen l).
Proof.
  revert seen. induction l as [|y l IH]; intros seen; simpl; [constructor|].
  destruct (decide (y ∈ seen)); [done|]. constructor; [|done]. rewrite unique_from_elem. set_solver.
Qed.

Lemma resolve_elem ps q :
  q ∈ resolve_into_vec (permission_set_new ps) <-> exists p, p ∈ ps /\ (q = p \/ q ∈ associated p).
Proof.
  unfold resolve_into_vec. rewrite unique_from_elem. cbn.
  rewrite list_elem_of_In, in_flat_map. setoid_rewrite <- list_elem_of_In. set_solver.
Qed.

(** ** Storing and loading *)

Lemma permission_fmt_plain p :
  trim (permission_fmt p) = permission_fmt p /\ permission_fmt p <> [] /\
  forallb (fun c => negb (44 =? c)) (permission_fmt p) = true.
Proof. by destruct p; vm_compute. Qed.

Lemma parse_print l :
  l <> [] -> ps_permissions (permission_set_from (str_join [44] (permission_fmt <$> l))) = l.
Proof.
  intros Hne. assert (Hs : split_on (Z.eqb 44) (str_join [44] (permission_fmt <$> l)) = permission_fmt <$> l).
  { apply split_on_join; [done|by destruct l|]. apply Forall_fmap, Forall_forall.
    intros p _. apply permission_fmt_plain. }
  unfold permission_set_from. destruct (str_join _ _) as [|c s] eqn:E.
  - exfalso. rewrite <- E in Hs. destruct l as [|p l]; [done|]. apply (f_equal List.hd_error) in Hs.
    rewrite E in Hs. cbn in Hs. injection Hs as Hp. symmetry in Hp. by apply permission_fmt_plain in Hp.
  - rewrite Hs. cbn [ps_permissions]. clear. induction l as [|p l IH]; [done|]. rewrite !fmap_cons.
    destruct (permission_fmt_plain p) as (Ht & Hn & _). rewrite Ht. cbn [List.filter].
    assert (Hf : negb (is_none (List.hd_error (permission_fmt p))) = true)
      by (by destruct (permission_fmt p)).
    rewrite Hf. cbn [omap list_omap]. rewrite permission_from_fmt. by f_equal.
Qed.

(** Storing and loading loses nothing: a permission set resolved into the
    database column and parsed back is the same list, without duplicates, and holds
    exactly the given permissions and those associated with them. *)
Theorem permissions_roundtrip ps :
  ps_permissions (permission_set_from (default [] (resolve_into_string (permission_set_new ps)))) =
    resolve_into_vec (permission_set_new ps) /\
  NoDup (resolve_into_vec (permission_set_new ps)) /\
  forall q, q ∈ resolve_into_vec (permission_set_new ps) <->
    exists p, p ∈ ps /\ (q = p \/ q ∈ associated p).
Proof.
  split; [|split; [apply unique_from_NoDup|intros; apply resolve_elem]].
  unfold resolve_into_string. destruct (resolve_into_vec _) as [|p l] eqn:E; [done|].
  cbn [default from_option]. by apply parse_print.
Qed.

(** ** Inheritance *)

Definition inherits : UserPermission -> UserPermission -> Prop := rtc (fun p q => q ∈ associated p).

(** What two rounds of resolution reach. *)
Definition two_levels (p : UserPermission) : list UserPermission :=
  flat_map (fun q => q :: associated q) (p :: associated p).

Lemma two_levels_closed p q r : q ∈ two_levels p -> r ∈ associated q -> r ∈ two_levels p.
Proof.
  assert (H : forallb (fun p => forallb (fun q => forallb (fun r => bool_decide (r ∈ two_levels p))
            (associated q)) (two_levels p)) all_permissions = true) by (vm_compute; reflexivity).
  assert (Hp : p ∈ all_permissions).
  { apply list_elem_of_In, (find_some _ _ (permission_from_fmt p)). }
  intros Hq Hr. rewrite forallb_forall in H. specialize (H p (proj1 (list_elem_of_In _ _) Hp)).
  rewrite forallb_forall in H. specialize (H q (proj1 (list_elem_of_In _ _) Hq)).
  rewrite forallb_forall in H. specialize (H r (proj1 (list_elem_of_In _ _) Hr)).
  by apply bool_decide_eq_true in H.
Qed.

Lemma two_levels_elem p q :
  q ∈ two_levels p <-> exists m, (m = p \/ m ∈ associated p) /\ (q = m \/ q ∈ associated m).
Proof.
  unfold two_levels. rewrite list_elem_of_In, in_flat_map. setoid_rewrite <- list_elem_of_In. set_solver.
Qed.

Lemma inherits_two_levels p q : inherits p q <-> q ∈ two_levels p.
Proof.
  split.
  - intros H. assert (Hgen : forall x y, inherits x y -> x ∈ two_levels p -> y ∈ two_levels p).
    { induction 1 as [|x y z Hxy _ IH]; [done|]. intros Hx. apply IH. by eapply two_levels_closed. }
    apply (Hgen p q H). apply two_levels_elem. exists p. auto.
  - rewrite two_levels_elem. unfold inherits. intros (m & [->|Hm] & [->|Hq]).
    + apply rtc_refl.
    + by apply rtc_once.
    + by apply rtc_once.
    + eapply rtc_l; [exact Hm|by apply rtc_once].
Qed.

(** The permissions of a user who was granted [ps] and loaded again. *)
Definition granted_user (ps : list UserPermission) : AuthUser :=
  {| is_server_owner := false;
     permissions := load_permissions (resolve_into_string (permission_set_new ps)) |}.

Lemma granted_elem ps q : q ∈ permissions (granted_user ps) <-> exists p, p ∈ ps /\ inherits p q.
Proof.
  cbn. unfold load_permissions.
  replace (permission_set_from (default [] (resolve_into_string (permission_set_new ps)))) with
    (permission_set_new (resolve_into_vec (permission_set_new ps))).
  2: { unfold resolve_into_string. destruct (resolve_into_vec _) as [|p l] eqn:E; [done|].
       cbn [default from_option id]. pose proof (parse_print (p :: l) ltac:(done)) as Hp.
       destruct (permission_set_from _) as [x]. cbn in Hp. by subst x. }
  rewrite resolve_elem. setoid_rewrite resolve_elem. setoid_rewrite inherits_two_levels.
  setoid_rewrite two_levels_elem. naive_solver.
Qed.

(** A granted user holds exactly the inherited permissions: after storing and
    loading, both the plain check and the association-aware check accept a permission
    if and only if it is reachable from a granted one through any chain of
    associations; checking several means checking each; a server owner has all. *)
Theorem granted_permissions_exact ps wanted :
  (forall q, has_permission (granted_user ps) q = true <-> exists p, p ∈ ps /\ inherits p q) /\
  (forall q, user_has_permission (granted_user ps) q = has_permission (granted_user ps) q) /\
  (user_has_all_permissions (granted_user ps) wanted = true <->
     forall q, q ∈ wanted -> exists p, p ∈ ps /\ inherits p q) /\
  (forall user q, is_server_owner user = true ->
     has_permission user q = true /\ user_has_permission user q = true /\
     user_has_all_permissions user wanted = true).
Proof.
  assert (H1 : forall q, has_permission (granted_user ps) q = true <-> exists p, p ∈ ps /\ inherits p q).
  { intros q. unfold has_permission. cbn [is_server_owner granted_user orb].
    rewrite bool_decide_eq_true. apply granted_elem. }
  assert (H2 : forall q, user_has_permission (granted_user ps) q = has_permission (granted_user ps) q).
  { intros q. apply eq_true_iff_eq. rewrite H1. unfold user_has_permission.
    cbn [is_server_owner granted_user orb]. rewrite existsb_exists. setoid_rewrite <- list_elem_of_In.
    setoid_rewrite orb_true_iff. setoid_rewrite bool_decide_eq_true. split.
    - intros (m & (p & Hp & Hm)%granted_elem & Hq). exists p. split; [done|].
      destruct Hq as [<-|Hq]; [done|]. eapply rtc_r; [exact Hm|exact Hq].
    - intros Hq. exists q. split; [by apply granted_elem|by left]. }
  split; [done|]. split; [done|]. split.
  - unfold user_has_all_permissions. cbn [is_server_owner granted_user]. setoid_rewrite <- H1.
    setoid_rewrite <- H2. induction wanted as [|q wanted IH]; simpl; [set_solver|].
    destruct (user_has_permission (granted_user ps) q) eqn:E; simpl.
    + rewrite IH. set_solver.
    + split; [done|]. intros Hq. rewrite (Hq q) in E; [done|by left].
  - intros user q Ho. unfold has_permission, user_has_permission, user_has_all_permissions. by rewrite Ho.
Qed.
