(* ===== verification/VirtualPath.v ===== *)
(** * Provider paths and row ids

    Models [src/crates/provider/src/virtual_path.rs] and the scheme of
    [src/crates/media/src/virtual_media.rs]: printing and parsing of [provider://] URIs
    and the names hashed into deterministic row ids.

    Percent-encoding ([urlencoding]) and UUID v5 ([uuid]) are library code: a class of
    operations with the documented laws, and a function argument. *)

From stdpp Require Import base sets list strings.
From Stdlib Require Import ZArith Lia.
From S2P Require Import Prelude.

#[local] Open Scope Z_scope.

Definition PROVIDER_SCHEME : str := lit "provider://".

Definition is_virtual_path (path : str) : bool := starts_with path PROVIDER_SCHEME.

(** [urlencoding::encode] and [urlencoding::decode]. *)
Class UrlEncoding := {
  url_encode : str -> str;
  url_decode : str -> option str;
}.

(** Encoding leaves no slash, keeps non-empty text non-empty, and decoding inverts it. *)
Class UrlEncodingLaws `{UrlEncoding} : Prop := {
  encode_no_slash : forall s, forallb (fun c => negb (47 =? c)) (url_encode s) = true;
  encode_nonempty : forall s, s <> [] -> url_encode s <> [];
  encode_empty : url_encode [] = [];
  decode_encode : forall s, url_decode (url_encode s) = Some s;
}.

Section VirtualPath.
Context `{UrlEncoding}.

Record VirtualPath := {
  source_id : str;
  remote_id : str;
  remote_chapter_id : option str;
}.

Definition vp_series (source_id remote_id : str) : VirtualPath :=
  {| source_id := source_id; remote_id := remote_id; remote_chapter_id := None |}.

Definition vp_chapter (source_id remote_id remote_chapter_id : str) : VirtualPath :=
  {| source_id := source_id; remote_id := remote_id; remote_chapter_id := Some remote_chapter_id |}.

Definition is_virtual (path : str) : bool := is_virtual_path path.

Definition decode (component : str) : option str :=
  match component with
  | [] => None
  | _ => url_decode component
  end.

Definition parse (path : str) : option VirtualPath :=
  rest ← strip_prefix PROVIDER_SCHEME path;
  match split_on (Z.eqb 47) rest with
  | source :: remote :: parts =>
      source ← decode source;
      remote ← decode remote;
      chapter ← match parts with
                | [] => Some None
                | chapter :: _ => Some <$> decode chapter
                end;
      let more := match parts with _ :: _ :: _ => true | _ => false end in
      if more || is_none (List.hd_error source) || is_none (List.hd_error remote) then None
      else Some {| source_id := source; remote_id := remote; remote_chapter_id := chapter |}
  | [source] => _ ← decode source; None
  | [] => None
  end.

Definition vp_fmt (p : VirtualPath) : str :=
  PROVIDER_SCHEME ++ url_encode (source_id p) ++ [47] ++ url_encode (remote_id p)
  ++ match remote_chapter_id p with
     | Some chapter => [47] ++ url_encode chapter
     | None => []
     end.

(** ** Row ids *)

Variable new_v5 : list Z -> str.

(** The text under the namespace, by kind of row. *)
Definition series_name (source_id remote_id : str) : str :=
  lit "series:" ++ source_id ++ [58] ++ remote_id.
Definition media_name (source_id remote_chapter_id : str) : str :=
  lit "media:" ++ source_id ++ [58] ++ remote_chapter_id.
Definition library_name (source_id : str) : str := lit "library:" ++ source_id.

Definition series_id (source_id remote_id : str) : str :=
  new_v5 (as_bytes (series_name source_id remote_id)).
Definition media_id (source_id remote_chapter_id : str) : str :=
  new_v5 (as_bytes (media_name source_id remote_chapter_id)).
Definition library_id (source_id : str) : str := new_v5 (as_bytes (library_name source_id)).

End VirtualPath.

Arguments VirtualPath : clear implicits.

(** ** Round trip *)

(** Every component a path has is non-empty. *)
Definition path_ok (p : VirtualPath) : Prop :=
  source_id p <> [] /\ remote_id p <> [] /\ remote_chapter_id p <> Some [].

Section Theorems.
Context `{UrlEncodingLaws}.

Definition components (p : VirtualPath) : list str :=
  url_encode (source_id p) :: url_encode (remote_id p) ::
  match remote_chapter_id p with Some chapter => [url_encode chapter] | None => [] end.

Lemma fmt_components p : vp_fmt p = PROVIDER_SCHEME ++ str_join [47] (components p).
Proof. unfold vp_fmt, components. destruct (remote_chapter_id p); cbn; by rewrite ?app_nil_r. Qed.

Lemma split_components p : split_on (Z.eqb 47) (str_join [47] (components p)) = components p.
Proof.
  apply split_on_join; [done|done|]. unfold components.
  destruct (remote_chapter_id p); repeat constructor; apply encode_no_slash.
Qed.

Lemma decode_component s : s <> [] -> decode (url_encode s) = Some s.
Proof.
  intros Hs. unfold decode. pose proof (encode_nonempty s Hs).
  destruct (url_encode s) eqn:E; [done|]. rewrite <- E. apply decode_encode.
Qed.

Lemma decode_component_empty : decode (url_encode []) = None.
Proof. by rewrite encode_empty. Qed.

(** A provider path prints to a virtual path and parses back to itself if and
    only if each of its components is non-empty, whatever characters they contain --
    slashes included. *)
Theorem virtual_path_roundtrip p :
  is_virtual (vp_fmt p) = true /\ (parse (vp_fmt p) = Some p <-> path_ok p).
Proof.
  rewrite fmt_components. split; [unfold is_virtual, is_virtual_path, starts_with; by rewrite strip_prefix_app|].
  unfold parse. rewrite strip_prefix_app. cbn [mbind option_bind]. rewrite split_components.
  unfold path_ok, components. destruct p as [s r c]; cbn [source_id remote_id remote_chapter_id].
  destruct (decide (s = [])) as [->|Hs].
  { rewrite decode_component_empty. cbn. split; [done|]. by intros [? _]. }
  rewrite (decode_component s Hs). cbn [mbind option_bind].
  destruct (decide (r = [])) as [->|Hr].
  { rewrite decode_component_empty. cbn. split; [done|]. by intros (_ & ? & _). }
  rewrite (decode_component r Hr). cbn [mbind option_bind].
  destruct s as [|s0 s], r as [|r0 r]; try done. destruct c as [c|]; cbn [mbind option_bind fmap option_fmap].
  - destruct (decide (c = [])) as [->|Hc].
    + rewrite decode_component_empty. cbn. split; [done|]. by intros (_ & _ & ?).
    + rewrite (decode_component c Hc). cbn. split; [|done]. intros _. split_and!; congruence.
  - cbn. split; [|done]. intros _. split_and!; done.
Qed.

(** A parsed path is virtual and names a source and a series. *)
Lemma parse_sound path p :
  parse path = Some p -> is_virtual path = true /\ source_id p <> [] /\ remote_id p <> [].
Proof.
  unfold parse, is_virtual, is_virtual_path, starts_with.
  destruct (strip_prefix _ path) as [rest|]; [|done]. cbn [mbind option_bind].
  destruct (split_on _ rest) as [|s [|r parts]]; [done|by destruct (decode s)|].
  destruct (decode s) as [s'|]; [|done]. cbn [mbind option_bind].
  destruct (decode r) as [r'|]; [|done]. cbn [mbind option_bind].
  destruct parts as [|c parts]; cbn [mbind option_bind].
  - destruct s', r'; by intros [= <-].
  - destruct (decode c) as [c'|]; [|done]. cbn. destruct parts, s', r'; by intros [= <-].
Qed.

End Theorems.

(** ** Row names *)

Lemma split_at_colon (s s' r r' : str) :
  58 ∉ s -> 58 ∉ s' -> s ++ [58] ++ r = s' ++ [58] ++ r' -> s = s' /\ r = r'.
Proof.
  revert s'. induction s as [|c s IH]; intros [|c' s'] Hs Hs'; cbn; intros E; simplify_eq.
  - done.
  - exfalso. apply Hs'. by left.
  - exfalso. apply Hs. by left.
  - destruct (IH s') as [-> ->]; [set_solver|set_solver|done|done].
Qed.

(** The names hashed into row ids are distinct: for source ids without a colon a
    series name determines source and series, a media name source and chapter, and
    the names of the three kinds of row never coincide.  The restriction is needed:
    with a colon in the source id two different series get the same id, whatever the
    hash. *)
Theorem row_names_distinct (s s' r r' : str) new_v5 :
  (58 ∉ s -> 58 ∉ s' -> series_name s r = series_name s' r' -> s = s' /\ r = r') /\
  (58 ∉ s -> 58 ∉ s' -> media_name s r = media_name s' r' -> s = s' /\ r = r') /\
  (library_name s = library_name s' -> s = s') /\
  series_name s r <> media_name s' r' /\ series_name s r <> library_name s' /\
  media_name s r <> library_name s' /\
  series_id new_v5 (lit "a:b") (lit "c") = series_id new_v5 (lit "a") (lit "b:c").
Proof.
  split_and!; try done.
  - intros Hs Hs' E%app_inv_head. by apply split_at_colon.
  - intros Hs Hs' E%app_inv_head. by apply split_at_colon.
  - intros E. by apply app_inv_head in E.
Qed.

(** ** A codec that satisfies the laws *)

(** Escapes the slash and the percent sign only. *)
Definition escape_char (c : Z) : str :=
  if c =? 47 then [37; 115] else if c =? 37 then [37; 112] else [c].

Fixpoint unescape (s : str) : option str :=
  match s with
  | [] => Some []
  | 37 :: 115 :: s' => cons 47 <$> unescape s'
  | 37 :: 112 :: s' => cons 37 <$> unescape s'
  | 37 :: _ => None
  | c :: s' => cons c <$> unescape s'
  end.

#[local] Instance escape_encoding : UrlEncoding :=
  {| url_encode := fun s => s ≫= escape_char; url_decode := unescape |}.

Lemma unescape_plain c s : c <> 37 -> unescape (c :: s) = cons c <$> unescape s.
Proof.
  intros Hc. destruct c as [|p|p]; [done| |done]. repeat (destruct p as [p|p|]; try done).
Qed.

#[local] Instance escape_laws : UrlEncodingLaws.
Proof.
  constructor.
  - intros s. unfold url_encode, escape_encoding. induction s as [|c s IH]; [done|]. cbn [mbind list_bind].
    rewrite forallb_app, IH, andb_true_r. unfold escape_char.
    destruct (Z.eqb_spec c 47); [done|]. destruct (Z.eqb_spec c 37); [done|].
    cbn [forallb andb]. assert ((47 =? c) = false) as -> by (apply Z.eqb_neq; congruence). done.
  - intros [|c s] Hs; [done|]. cbn. unfold escape_char. by repeat destruct (_ =? _).
  - done.
  - intros s. unfold url_encode, url_decode, escape_encoding.
    induction s as [|c s IH]; [done|]. change ((c :: s) ≫= escape_char) with (escape_char c ++ (s ≫= escape_char)).
    unfold escape_char at 1. destruct (Z.eqb_spec c 47) as [->|]; [|destruct (Z.eqb_spec c 37) as [->|]].
    + change (cons 47 <$> unescape (s ≫= escape_char) = Some (47 :: s)). by rewrite IH.
    + change (cons 37 <$> unescape (s ≫= escape_char) = Some (37 :: s)). by rewrite IH.
    + cbn [app]. by rewrite unescape_plain, IH.
Qed.

Lemma virtual_path_roundtrip_witness :
  parse (vp_fmt (vp_chapter (lit "mangadex-en") (lit "abc/def") (lit "ch 1"))) =
    Some (vp_chapter (lit "mangadex-en") (lit "abc/def") (lit "ch 1")).
Proof.
  apply (proj2 (virtual_path_roundtrip (vp_chapter (lit "mangadex-en") (lit "abc/def") (lit "ch 1")))).
  split; [discriminate|]. split; discriminate.
Defined.
