(* ===== verification/SourceProtocol.v ===== *)
(** * The source-worker control protocol

    Models [src/crates/worker/src/source_protocol.rs]: the frames source workers and the
    server exchange, the limits enforced before a frame reaches application code, and
    one-use read grants with their byte budget and expiry.

    JSON ([serde_json]) is library code: parsing a text into a frame, rendering a frame
    and the encoded size of a chunk are arguments; [serde_json::Value] is a type. *)

From stdpp Require Import base sets gmap list strings.
From Stdlib Require Import ZArith Lia.
From S2P Require Import Prelude.

#[local] Open Scope Z_scope.
#[local] Open Scope coppice_scope.

Definition MAX_SOURCE_MANIFEST_ITEMS : Z := 256.
Definition MAX_SOURCE_MANIFEST_FRAME_BYTES : Z := 1024 * 1024.
Definition MAX_MANIFEST_ITEMS : Z := MAX_SOURCE_MANIFEST_ITEMS.
Definition MAX_MANIFEST_FRAME_BYTES : Z := MAX_SOURCE_MANIFEST_FRAME_BYTES.

Definition i128_min : Z := - 2 ^ 127.

Inductive SourceTransport := Direct | Tunnel.
Inductive SourceReadMode := Full | Range.

Inductive SourceProtocolError :=
| ManifestItemLimit (actual max : Z)
| ManifestFrameLimit (actual max : Z)
| InvalidHello (what : str)
| InvalidManifest (what : str)
| GrantLengthExceedsMaximum (length max_bytes : Z)
| GrantFieldMissing
| InvalidExpectedDigest
| ExpectedHello
| Json (message : str).

(** [str::is_empty]. *)
Definition is_empty (s : str) : bool := is_none (List.hd_error s).

(** ** Hello *)

Record SourceRootHello := {
  rh_root_id : str;
  rh_label : str;
  rh_kind : str;
  rh_privacy_mode : str;
  rh_transport : SourceTransport;
  rh_direct_base_url : option str;
}.

Definition root_id_byte (byte : Z) : bool :=
  is_ascii_alphanumeric byte || (byte =? 45) || (byte =? 95) || (byte =? 46).

Definition root_hello_validate (r : SourceRootHello) : result unit SourceProtocolError :=
  let valid_id := negb (is_empty (rh_root_id r)) && (str_len (rh_root_id r) <=? 128)
                  && forallb root_id_byte (as_bytes (rh_root_id r)) in
  early (negb valid_id || is_empty (trim (rh_label r)) || (256 <? str_len (rh_label r))
         || is_empty (trim (rh_kind r)) || (64 <? str_len (rh_kind r))
         || negb (bool_decide (rh_privacy_mode r = lit "catalog")))
    (InvalidHello (lit "source root metadata is invalid")) (
  match rh_transport r with
  | Direct =>
      early (is_none_or (rh_direct_base_url r) (fun url => is_empty url || (2048 <? str_len url)))
        (InvalidHello (lit "direct source root requires a bounded base URL")) (Ok tt)
  | Tunnel =>
      early (negb (is_none (rh_direct_base_url r)))
        (InvalidHello (lit "tunnel source root cannot advertise a direct base URL")) (Ok tt)
  end).

Record SourceWorkerHello := {
  wh_name : option str;
  wh_version : option str;
  wh_roots : list SourceRootHello;
}.

(** [for root in &self.roots], with the ids inserted so far. *)
Fixpoint check_roots (root_ids : gset str) (roots : list SourceRootHello)
  : result unit SourceProtocolError :=
  match roots with
  | [] => Ok tt
  | root :: rest =>
      let? _ := root_hello_validate root in
      early (bool_decide (rh_root_id root ∈ root_ids))
        (InvalidHello (lit "source hello contains a duplicate root id"))
        (check_roots ({[ rh_root_id root ]} ∪ root_ids) rest)
  end.

Definition hello_validate (h : SourceWorkerHello) : result unit SourceProtocolError :=
  early (is_some_and (wh_name h) (fun name => 256 <? str_len name)
         || is_some_and (wh_version h) (fun version => 128 <? str_len version)
         || (128 <? Z.of_nat (length (wh_roots h))))
    (InvalidHello (lit "source hello metadata exceeds protocol limits"))
    (check_roots ∅ (wh_roots h)).

(** ** Read grants *)

Definition is_sha256 (value : str) : bool :=
  (str_len value =? 64)
  && forallb (fun byte => is_ascii_digit byte || ((97 <=? byte) && (byte <=? 102))) (as_bytes value).

(** [u64::checked_add]. *)
Definition checked_add_u64 (a b : Z) : option Z := then_some (a + b <=? u64_max) (a + b).

Record SourceReadRequest := {
  rr_root_id : str;
  rr_worker_item_id : str;
  rr_worker_content_version : str;
  rr_expected_sha256 : option str;
  rr_mode : SourceReadMode;
  rr_offset : Z;
  rr_length : Z;
  rr_transport : SourceTransport;
  rr_expires_at : Z;
  rr_max_bytes : Z;
}.

Definition request_validate (r : SourceReadRequest) : result unit SourceProtocolError :=
  early (is_empty (rr_root_id r) || is_empty (rr_worker_item_id r)
         || is_empty (rr_worker_content_version r)) GrantFieldMissing (
  early (is_some_and (rr_expected_sha256 r) (fun digest => negb (is_sha256 digest)))
    InvalidExpectedDigest (
  early ((rr_max_bytes r <? rr_length r) || is_none (checked_add_u64 (rr_offset r) (rr_length r)))
    (GrantLengthExceedsMaximum (rr_length r) (rr_max_bytes r)) (Ok tt))).

Record SourceReadGrant := {
  rg_grant_id : str;
  rg_root_id : str;
  rg_worker_item_id : str;
  rg_worker_content_version : str;
  rg_expected_sha256 : option str;
  rg_mode : SourceReadMode;
  rg_offset : Z;
  rg_length : Z;
  rg_transport : SourceTransport;
  rg_expires_at : Z;
  rg_max_bytes : Z;
}.

Definition grant_validate (g : SourceReadGrant) : result unit SourceProtocolError :=
  early (is_empty (rg_grant_id g) || is_empty (rg_root_id g) || is_empty (rg_worker_item_id g)
         || is_empty (rg_worker_content_version g)) GrantFieldMissing (
  early (is_some_and (rg_expected_sha256 g) (fun digest => negb (is_sha256 digest)))
    InvalidExpectedDigest (
  early ((rg_max_bytes g <? rg_length g) || is_none (checked_add_u64 (rg_offset g) (rg_length g)))
    (GrantLengthExceedsMaximum (rg_length g) (rg_max_bytes g)) (Ok tt))).

(** Seconds below [10^11] in magnitude, milliseconds from there on. *)
Definition expires_at_millis (expires_at : Z) : Z :=
  if Z.abs expires_at <? 100000000000 then expires_at * 1000 else expires_at.

(** [now] in milliseconds since the epoch, [None] before it. *)
Definition is_expired_at (g : SourceReadGrant) (now : option Z) : bool :=
  expires_at_millis (rg_expires_at g) <=? default i128_min now.

(** [From<SourceReadGrant> for SourceReadRequest]. *)
Definition request_of_grant (g : SourceReadGrant) : SourceReadRequest :=
  {| rr_root_id := rg_root_id g; rr_worker_item_id := rg_worker_item_id g;
     rr_worker_content_version := rg_worker_content_version g;
     rr_expected_sha256 := rg_expected_sha256 g; rr_mode := rg_mode g; rr_offset := rg_offset g;
     rr_length := rg_length g; rr_transport := rg_transport g; rr_expires_at := rg_expires_at g;
     rr_max_bytes := rg_max_bytes g |}.

(** ** Manifests and frames *)

Section Frames.
Context {Value : Type}.

Record SourceManifestItem := {
  mi_worker_item_id : str;
  mi_worker_content_version : str;
  mi_relative_path : option str;
  mi_size : Z;
  mi_modified_at : option Value;
  mi_media_type : option str;
  mi_quick_fingerprint : option str;
  mi_sha256 : option str;
  mi_metadata : option Value;
  mi_retention : option Value;
}.

Record SourceManifestChunk := {
  mc_batch_id : str;
  mc_root_id : str;
  mc_revision : Z;
  mc_sequence : Z;
  mc_terminal : bool;
  mc_items : list SourceManifestItem;
}.

Inductive SourceWorkerFrame :=
| Hello (name version : option str) (roots : list SourceRootHello)
| ManifestChunk (chunk : SourceManifestChunk)
| ReadReady (grant_id : str)
| ReadFailed (grant_id error : str).

Inductive SourceServerFrame :=
| ManifestAck (root_id : str) (revision sequence : Z)
| Read (grant : SourceReadGrant).

(** [serde_json]: the encoded size of a chunk's frame, parsing and rendering. *)
Variable encoded_len : SourceManifestChunk -> Z.
Variable from_str_worker : str -> result SourceWorkerFrame str.
Variable from_str_server : str -> result SourceServerFrame str.

Definition item_malformed (item : SourceManifestItem) : bool :=
  is_empty (mi_worker_item_id item) || (256 <? str_len (mi_worker_item_id item))
  || is_empty (mi_worker_content_version item) || (512 <? str_len (mi_worker_content_version item))
  || is_some_and (mi_relative_path item) (fun path => 2048 <? str_len path).

(** [for item in &self.items]. *)
Fixpoint check_items (items : list SourceManifestItem) : result unit SourceProtocolError :=
  match items with
  | [] => Ok tt
  | item :: rest =>
      early (item_malformed item)
        (InvalidManifest (lit "manifest item identity is missing or too long")) (check_items rest)
  end.

Definition chunk_validate (c : SourceManifestChunk) : result unit SourceProtocolError :=
  early (is_empty (mc_batch_id c) || (256 <? str_len (mc_batch_id c))
         || is_empty (mc_root_id c) || (128 <? str_len (mc_root_id c)))
    (InvalidManifest (lit "manifest identity is missing or too long")) (
  let? _ := check_items (mc_items c) in
  early (MAX_SOURCE_MANIFEST_ITEMS <? Z.of_nat (length (mc_items c)))
    (ManifestItemLimit (Z.of_nat (length (mc_items c))) MAX_SOURCE_MANIFEST_ITEMS) (
  early (MAX_SOURCE_MANIFEST_FRAME_BYTES <? encoded_len c)
    (ManifestFrameLimit (encoded_len c) MAX_SOURCE_MANIFEST_FRAME_BYTES) (Ok tt))).

Definition frame_hello (name version : option str) (roots : list SourceRootHello)
  : SourceWorkerFrame := Hello name version roots.

Definition into_hello (f : SourceWorkerFrame) : result SourceWorkerHello SourceProtocolError :=
  match f with
  | Hello name version roots => Ok {| wh_name := name; wh_version := version; wh_roots := roots |}
  | _ => Err ExpectedHello
  end.

Definition frame_validate (f : SourceWorkerFrame) : result unit SourceProtocolError :=
  match f with
  | Hello name version roots =>
      hello_validate {| wh_name := name; wh_version := version; wh_roots := roots |}
  | ManifestChunk chunk => chunk_validate chunk
  | ReadReady grant_id | ReadFailed grant_id _ =>
      early (is_empty grant_id || (256 <? str_len grant_id)) GrantFieldMissing (Ok tt)
  end.

Definition parse_source_worker_frame (text : str) : result SourceWorkerFrame SourceProtocolError :=
  match from_str_worker text with
  | Err message => Err (Json message)
  | Ok frame => let? _ := frame_validate frame in Ok frame
  end.

Definition parse_source_server_frame (text : str) : result SourceServerFrame SourceProtocolError :=
  match from_str_server text with
  | Err message => Err (Json message)
  | Ok frame =>
      match frame with
      | Read grant => let? _ := grant_validate grant in Ok frame
      | ManifestAck _ _ _ => Ok frame
      end
  end.

End Frames.

Arguments SourceManifestItem : clear implicits.
Arguments SourceManifestChunk : clear implicits.
Arguments SourceWorkerFrame : clear implicits.

(** [encode_source_frame]: [rendered] is what [serde_json::to_string] returns. *)
Definition encode_source_frame (rendered : result str str) : str :=
  match rendered with Ok text => text | Err _ => lit "{}" end.

(** ** Specification *)

(** A field that must be present and at most [n] bytes long. *)
Definition bounded (n : Z) (s : str) : Prop := s <> [] /\ str_len s <= n.

Definition opt_at_most (n : Z) (o : option str) : Prop := forall s, o = Some s -> str_len s <= n.

Record root_ok (r : SourceRootHello) : Prop := {
  ro_id : bounded 128 (rh_root_id r);
  ro_id_bytes : Forall (fun b => root_id_byte b = true) (as_bytes (rh_root_id r));
  ro_label : trim (rh_label r) <> [] /\ str_len (rh_label r) <= 256;
  ro_kind : trim (rh_kind r) <> [] /\ str_len (rh_kind r) <= 64;
  ro_privacy : rh_privacy_mode r = lit "catalog";
  ro_url : match rh_transport r with
           | Direct => exists url, rh_direct_base_url r = Some url /\ bounded 2048 url
           | Tunnel => rh_direct_base_url r = None
           end;
}.

Record hello_ok (h : SourceWorkerHello) : Prop := {
  ho_name : opt_at_most 256 (wh_name h);
  ho_version : opt_at_most 128 (wh_version h);
  ho_count : Z.of_nat (length (wh_roots h)) <= 128;
  ho_roots : Forall root_ok (wh_roots h);
  ho_distinct : NoDup (rh_root_id <$> wh_roots h);
}.

(** The byte range a grant opens, its identity and its budget. *)
Record grant_ok (g : SourceReadGrant) : Prop := {
  go_id : rg_grant_id g <> [];
  go_root : rg_root_id g <> [];
  go_item : rg_worker_item_id g <> [];
  go_version : rg_worker_content_version g <> [];
  go_digest : forall d, rg_expected_sha256 g = Some d -> is_sha256 d = true;
  go_budget : rg_length g <= rg_max_bytes g;
  go_range : rg_offset g + rg_length g <= u64_max;
}.

Section FrameSpec.
Context {Value : Type} (encoded_len : SourceManifestChunk Value -> Z).

Record item_ok (i : SourceManifestItem Value) : Prop := {
  io_id : bounded 256 (mi_worker_item_id i);
  io_version : bounded 512 (mi_worker_content_version i);
  io_path : opt_at_most 2048 (mi_relative_path i);
}.

Record chunk_ok (c : SourceManifestChunk Value) : Prop := {
  co_batch : bounded 256 (mc_batch_id c);
  co_root : bounded 128 (mc_root_id c);
  co_items : Forall item_ok (mc_items c);
  co_count : Z.of_nat (length (mc_items c)) <= MAX_SOURCE_MANIFEST_ITEMS;
  co_bytes : encoded_len c <= MAX_SOURCE_MANIFEST_FRAME_BYTES;
}.

Definition frame_ok (f : SourceWorkerFrame Value) : Prop :=
  match f with
  | Hello name version roots =>
      hello_ok {| wh_name := name; wh_version := version; wh_roots := roots |}
  | ManifestChunk c => chunk_ok c
  | ReadReady id | ReadFailed id _ => bounded 256 id
  end.

End FrameSpec.

(** ** Validation is exact *)

Lemma is_empty_false s : is_empty s = false <-> s <> [].
Proof. by destruct s. Qed.

Lemma is_some_and_false {A} (o : option A) f :
  is_some_and o f = false <-> forall a, o = Some a -> f a = false.
Proof. destruct o; naive_solver. Qed.

Lemma bounded_iff n s : is_empty s || (n <? str_len s) = false <-> bounded n s.
Proof. by rewrite orb_false_iff, is_empty_false, Z.ltb_ge. Qed.

Lemma opt_at_most_iff n o : is_some_and o (fun s => n <? str_len s) = false <-> opt_at_most n o.
Proof. rewrite is_some_and_false. unfold opt_at_most. by setoid_rewrite Z.ltb_ge. Qed.

Lemma root_hello_exact r : root_hello_validate r = Ok tt <-> root_ok r.
Proof.
  unfold root_hello_validate. cbv zeta. rewrite early_Ok.
  rewrite !orb_false_iff, !negb_false_iff, !andb_true_iff, negb_true_iff, bool_decide_eq_true.
  rewrite !is_empty_false, !Z.ltb_ge, Z.leb_le, forallb_forall.
  setoid_rewrite <- list_elem_of_In. rewrite <- Forall_forall.
  assert (Hurl : match rh_transport r with
    | Direct => early (is_none_or (rh_direct_base_url r) (fun url => is_empty url || (2048 <? str_len url)))
        (InvalidHello (lit "direct source root requires a bounded base URL")) (Ok tt)
    | Tunnel => early (negb (is_none (rh_direct_base_url r)))
        (InvalidHello (lit "tunnel source root cannot advertise a direct base URL")) (Ok tt)
    end = Ok tt <->
    match rh_transport r with
    | Direct => exists url, rh_direct_base_url r = Some url /\ bounded 2048 url
    | Tunnel => rh_direct_base_url r = None
    end).
  { destruct (rh_transport r); rewrite early_Ok; destruct (rh_direct_base_url r) as [url|]; cbn;
      rewrite ?bounded_iff; naive_solver. }
  rewrite Hurl. split.
  - intros ((((((((?&?)&?)&?)&?)&?)&?)&?)&?). by constructor.
  - intros [[??]?[??][??]??]. done.
Qed.

Lemma check_roots_exact ids roots :
  check_roots ids roots = Ok tt <->
  Forall root_ok roots /\ NoDup (rh_root_id <$> roots) /\ forall r, r ∈ roots -> rh_root_id r ∉ ids.
Proof.
  revert ids. induction roots as [|r roots IH]; intros ids; cbn [check_roots].
  { split; [|done]. intros _. split; [constructor|]. split; [constructor|set_solver]. }
  rewrite result_bind_Ok. rewrite fmap_cons, Forall_cons, NoDup_cons. split.
  - intros ([] & Hr%root_hello_exact & He). apply early_Ok in He as [Hn%bool_decide_eq_false He].
    apply IH in He as (Hall & Hnd & Hids). split_and!; try done.
    + intros (r' & E & Hr')%list_elem_of_fmap. apply (Hids r' Hr'). set_solver.
    + intros r' [->|Hr']%elem_of_cons; [done|]. specialize (Hids r' Hr'). set_solver.
  - intros ((Hr & Hall) & (Hn & Hnd) & Hids). exists tt.
    split; [by apply root_hello_exact|]. apply early_Ok.
    split; [apply bool_decide_eq_false, Hids; by left|]. apply IH. split_and!; try done.
    intros r' Hr'. rewrite not_elem_of_union, not_elem_of_singleton. split.
    + intros E. apply Hn. rewrite <- E. by apply list_elem_of_fmap_2.
    + apply Hids. by right.
Qed.

Lemma hello_exact h : hello_validate h = Ok tt <-> hello_ok h.
Proof.
  unfold hello_validate. rewrite early_Ok, !orb_false_iff, !opt_at_most_iff, Z.ltb_ge, check_roots_exact.
  split.
  - intros (((?&?)&?)&?&?&_). by constructor.
  - intros []. split_and!; try done.
Qed.

Lemma checked_add_iff a b : is_none (checked_add_u64 a b) = false <-> a + b <= u64_max.
Proof. unfold checked_add_u64, then_some. destruct (Z.leb_spec (a + b) u64_max); cbn; naive_solver lia. Qed.

Lemma grant_exact g : grant_validate g = Ok tt <-> grant_ok g.
Proof.
  unfold grant_validate. rewrite !early_Ok, !orb_false_iff, !is_empty_false, Z.ltb_ge, checked_add_iff.
  rewrite is_some_and_false. setoid_rewrite negb_false_iff. split.
  - intros ((((?&?)&?)&?)&?&(?&?)&_). by constructor.
  - intros []. done.
Qed.

Lemma check_items_exact {Value} (items : list (SourceManifestItem Value)) :
  check_items items = Ok tt <-> Forall item_ok items.
Proof.
  induction items as [|i items IH]; cbn [check_items]; [by split|].
  rewrite early_Ok, IH, Forall_cons. unfold item_malformed.
  rewrite !orb_false_iff, opt_at_most_iff, !is_empty_false, !Z.ltb_ge. split.
  - intros [((((?&?)&?)&?)&?) ?]. by split; [constructor|].
  - intros [[[??][??]?] ?]. done.
Qed.

Lemma chunk_exact {Value} (encoded_len : SourceManifestChunk Value -> Z) c :
  chunk_validate encoded_len c = Ok tt <-> chunk_ok encoded_len c.
Proof.
  unfold chunk_validate. rewrite early_Ok, !orb_false_iff, !is_empty_false, !Z.ltb_ge, result_bind_Ok.
  split.
  - intros ((((?&?)&?)&?)&[]&?%check_items_exact&He). rewrite !early_Ok, !Z.ltb_ge in He.
    destruct He as (?&?&_). by constructor.
  - intros [[??][??]?%check_items_exact??]. split; [done|]. exists tt.
    by rewrite !early_Ok, !Z.ltb_ge.
Qed.

(** Nothing malformed gets past the frame parser: a worker frame is accepted
    exactly when it parses and respects every limit of the protocol -- bounded,
    well-formed and pairwise distinct roots, bounded manifests, bounded grant ids --
    and a server frame exactly when its grant, if any, is well formed. *)
Theorem source_frames_exact {Value} (encoded_len : SourceManifestChunk Value -> Z)
    (from_str_worker : str -> result (SourceWorkerFrame Value) str)
    (from_str_server : str -> result SourceServerFrame str) text :
  (forall f, parse_source_worker_frame encoded_len from_str_worker text = Ok f <->
     from_str_worker text = Ok f /\ frame_ok encoded_len f) /\
  (forall f, parse_source_server_frame from_str_server text = Ok f <->
     from_str_server text = Ok f /\ forall g, f = Read g -> grant_ok g).
Proof.
  split; intros f.
  - unfold parse_source_worker_frame. destruct (from_str_worker text) as [f'|m]; [|naive_solver].
    assert (Hf : frame_validate encoded_len f' = Ok tt <-> frame_ok encoded_len f').
    { destruct f'; cbn; [apply hello_exact|apply chunk_exact|..]; rewrite early_Ok, bounded_iff; naive_solver. }
    rewrite result_bind_Ok. split.
    + intros ([] & ?%Hf & [= <-]). done.
    + intros [[= <-] ?%Hf]. by exists tt.
  - unfold parse_source_server_frame. destruct (from_str_server text) as [f'|m]; [|naive_solver].
    destruct f' as [r v q|g]; [naive_solver|]. rewrite result_bind_Ok. split.
    + intros ([] & ?%grant_exact & [= <-]). split; [done|]. by intros g' [= <-].
    + intros [[= <-] Hg]. exists tt. split; [|done]. by apply grant_exact, Hg.
Qed.

(** A grant is accepted exactly when its identity is complete, its digest (if
    any) is a lower-case SHA-256, it asks for no more bytes than its budget and its
    range ends within [u64]; the request read back from an accepted grant is
    accepted too. *)
Theorem grant_validate_exact g :
  (grant_validate g = Ok tt <-> grant_ok g) /\
  (grant_validate g = Ok tt -> request_validate (request_of_grant g) = Ok tt).
Proof.
  split; [apply grant_exact|]. intros [? H1 H2 H3 Hd Hb Hr]%grant_exact.
  unfold request_validate, request_of_grant; cbn. rewrite !early_Ok, !orb_false_iff, !is_empty_false, Z.ltb_ge.
  rewrite checked_add_iff, is_some_and_false. setoid_rewrite negb_false_iff. done.
Qed.

(** Expiry is sound for both units: a timestamp from 1973 to 5138 means the same
    instant in seconds and in milliseconds; a grant that has expired stays expired;
    zero and negative expiries are expired at every instant since the epoch; before
    the epoch nothing is. *)
Theorem expiry_sound g now later :
  0 <= now <= later ->
  (100000000 <= rg_expires_at g < 100000000000 ->
     expires_at_millis (rg_expires_at g) = expires_at_millis (rg_expires_at g * 1000)) /\
  (is_expired_at g (Some now) = true -> is_expired_at g (Some later) = true) /\
  (rg_expires_at g <= 0 -> is_expired_at g (Some now) = true) /\
  (in_i64 (rg_expires_at g) -> is_expired_at g None = false).
Proof.
  intros Hnow. unfold is_expired_at, expires_at_millis. cbn [from_option]. unfold id. split_and!.
  - intros H. destruct (Z.ltb_spec (Z.abs (rg_expires_at g)) 100000000000); [|lia].
    destruct (Z.ltb_spec (Z.abs (rg_expires_at g * 1000)) 100000000000); lia.
  - rewrite !Z.leb_le. destruct (_ <? _); lia.
  - intros H. rewrite Z.leb_le. destruct (_ <? _); lia.
  - unfold in_i64, i64_min, i64_max, i128_min. intros H. apply Z.leb_gt. destruct (_ <? _); lia.
Qed.

(** ** Witnesses *)

Definition demo_grant : SourceReadGrant :=
  {| rg_grant_id := lit "g"; rg_root_id := lit "r"; rg_worker_item_id := lit "i";
     rg_worker_content_version := lit "v"; rg_expected_sha256 := None; rg_mode := Range;
     rg_offset := 10; rg_length := 4; rg_transport := Tunnel; rg_expires_at := 1700000000;
     rg_max_bytes := 4 |}.

Example demo_grant_accepted : grant_validate demo_grant = Ok tt.
Proof. vm_compute. reflexivity. Qed.

Lemma expiry_sound_witness :
  expires_at_millis 1700000000 = expires_at_millis 1700000000000 /\
  is_expired_at demo_grant (Some 1700000001000) = true.
Proof.
  destruct (expiry_sound demo_grant 1700000000000 1700000001000) as (H1 & H2 & _); [lia|].
  split; [apply H1; cbn; lia|apply H2; vm_compute; reflexivity].
Defined.
