(* ===== verification/EditionPair.v ===== *)
(** * Edition pairing

    Models [src/crates/models/src/domain/edition_pair.rs] with the tables it reads and
    writes and [resequence_work_annotations] of
    [src/crates/models/src/services/liseur_annotation.rs]: which media rows are editions
    of one work, as a state machine over link rows with a verdict and its evidence.

    Links are keyed by (user, media), which a unique index enforces.  Verdicts and
    evidence are stored as strings and parsed on read.  Every SQL statement may fail:
    [faults] lists which ones do; what earlier statements wrote stays in the state, for
    the caller's transaction to roll back.  Fresh UUIDs and the clock are arguments. *)

From stdpp Require Import base sets gmap list strings sorting.
From Stdlib Require Import ZArith Lia.
From S2P Require Import Prelude.

#[local] Open Scope Z_scope.
#[local] Open Scope coppice_scope.

Inductive PairStatus := Confirmed | Suggested | Rejected.

#[export] Instance PairStatus_eq_dec : EqDecision PairStatus.
Proof. solve_decision. Defined.

(** [Display] and [EnumString] in [snake_case]. *)
Definition status_fmt (s : PairStatus) : str :=
  match s with
  | Confirmed => lit "confirmed"
  | Suggested => lit "suggested"
  | Rejected => lit "rejected"
  end.

(** [PairStatus::from_stored]: an unrecognised value reads as confirmed. *)
Definition status_from_stored (value : str) : PairStatus :=
  default Confirmed
    (List.find (fun s => bool_decide (status_fmt s = value)) [Confirmed; Suggested; Rejected]).

Inductive PairEvidence := Manual | WorkId | ProviderEditionList | SameDrop | TitleAuthor.

#[export] Instance PairEvidence_eq_dec : EqDecision PairEvidence.
Proof. solve_decision. Defined.

Definition evidence_fmt (e : PairEvidence) : str :=
  match e with
  | Manual => lit "manual"
  | WorkId => lit "work_id"
  | ProviderEditionList => lit "provider_edition_list"
  | SameDrop => lit "same_drop"
  | TitleAuthor => lit "title_author"
  end.

Definition rank (e : PairEvidence) : Z :=
  match e with
  | Manual => 4
  | WorkId => 3
  | ProviderEditionList => 2
  | SameDrop => 1
  | TitleAuthor => 0
  end.

(** [PairEvidence::from_stored]. *)
Definition evidence_from_stored (value : str) : option PairEvidence :=
  List.find (fun e => bool_decide (evidence_fmt e = value))
    [Manual; WorkId; ProviderEditionList; SameDrop; TitleAuthor].

Inductive PairUnchanged :=
| URejected (work_id : str)
| UAlreadySet (work_id : str) (status : PairStatus)
| UWorkConflict (media_id work_id : str)
| UNoLink.

Inductive PairOutcome :=
| Written (work_id : str) (status : PairStatus)
| Unchanged (why : PairUnchanged).

(** [PairOutcome::work_id]. *)
Definition outcome_work_id (o : PairOutcome) : option str :=
  match o with
  | Written work_id _ | Unchanged (URejected work_id) | Unchanged (UAlreadySet work_id _) => Some work_id
  | _ => None
  end.

(** ** Tables *)

Record LinkRow := {
  l_id : str;
  l_user_id : str;
  l_media_id : str;
  l_work_id : str;
  l_edition_sha : str;
  l_resolution_status : str;
  l_created_at : str;
  l_pair_status : str;
  l_pair_evidence : option str;
}.

Record WorkRow := {
  w_id : str;
  w_user_id : str;
  w_title : str;
  w_author : str;
  w_pending : bool;
  w_created_at : str;
}.

Record AliasRow := {
  al_user_id : str;
  al_work_id : str;
  al_kind : str;
  al_value : str;
  al_edition_sha : option str;
}.

Record EditionRow := {
  ed_user_id : str;
  ed_work_id : str;
  ed_edition_sha : str;
  ed_media_id : option str;
}.

Record AnnotationRow := {
  an_row_id : Z;
  an_user_id : str;
  an_work_id : str;
  an_seq : Z;
  an_deleted : bool;
}.

Record PairDb := {
  links : gmap (str * str) LinkRow;
  works : list WorkRow;
  aliases : list AliasRow;
  editions : list EditionRow;
  metadata : gmap str (option str * option str);
  annotations : list AnnotationRow;
  annotation_seq : gmap str Z;
  uuids : nat;
  faults : list bool;
}.

Inductive DbErr := Statement | Custom (message : str).

Definition DB (A : Type) : Type := PairDb -> result A DbErr * PairDb.

Definition set_faults (db : PairDb) (f : list bool) : PairDb :=
  {| links := links db; works := works db; aliases := aliases db; editions := editions db;
     metadata := metadata db; annotations := annotations db; annotation_seq := annotation_seq db;
     uuids := uuids db; faults := f |}.

(** One SQL statement. *)
Definition statement {A} (run : DB A) : DB A := fun db =>
  match faults db with
  | [] => run db
  | fault :: faults =>
      if (fault : bool) then (Err Statement, set_faults db faults) else run (set_faults db faults)
  end.

Definition query {A} (f : PairDb -> A) : DB A := statement (fun db => (Ok (f db), db)).

Definition set_links (db : PairDb) (l : gmap (str * str) LinkRow) : PairDb :=
  {| links := l; works := works db; aliases := aliases db; editions := editions db;
     metadata := metadata db; annotations := annotations db; annotation_seq := annotation_seq db;
     uuids := uuids db; faults := faults db |}.

Definition link_key (row : LinkRow) : str * str := (l_user_id row, l_media_id row).

(** [INSERT]: the unique index refuses a second row for a key. *)
Definition insert_link (row : LinkRow) : DB unit := statement (fun db =>
  match links db !! link_key row with
  | Some _ => (Err Statement, db)
  | None => (Ok tt, set_links db (<[ link_key row := row ]> (links db)))
  end).

(** [UPDATE ... WHERE id]: updating no row is an error. *)
Definition update_link (row : LinkRow) : DB unit := statement (fun db =>
  match links db !! link_key row with
  | None => (Err Statement, db)
  | Some _ => (Ok tt, set_links db (<[ link_key row := row ]> (links db)))
  end).

Definition insert_work (row : WorkRow) : DB unit := statement (fun db =>
  (Ok tt,
   {| links := links db; works := works db ++ [row]; aliases := aliases db; editions := editions db;
      metadata := metadata db; annotations := annotations db; annotation_seq := annotation_seq db;
      uuids := uuids db; faults := faults db |})).

Section Pairing.

(** [Uuid::new_v4] and [Utc::now]. *)
Variable new_v4 : nat -> str.
Variable now : str.

Definition fresh_uuid : DB str := fun db =>
  (Ok (new_v4 (uuids db)),
   {| links := links db; works := works db; aliases := aliases db; editions := editions db;
      metadata := metadata db; annotations := annotations db; annotation_seq := annotation_seq db;
      uuids := S (uuids db); faults := faults db |}).

(** ** Annotation feed positions *)

Definition set_annotations (db : PairDb) (a : list AnnotationRow) : PairDb :=
  {| links := links db; works := works db; aliases := aliases db; editions := editions db;
     metadata := metadata db; annotations := a; annotation_seq := annotation_seq db;
     uuids := uuids db; faults := faults db |}.

Definition set_annotation_seq (db : PairDb) (c : gmap str Z) : PairDb :=
  {| links := links db; works := works db; aliases := aliases db; editions := editions db;
     metadata := metadata db; annotations := annotations db; annotation_seq := c;
     uuids := uuids db; faults := faults db |}.

(** [ORDER BY seq ASC, row_id ASC]. *)
Definition feed_le (a b : AnnotationRow) : Prop :=
  an_seq a < an_seq b \/ an_seq a = an_seq b /\ an_row_id a <= an_row_id b.

#[global] Instance feed_le_dec a b : Decision (feed_le a b).
Proof. unfold feed_le. apply _. Defined.

Definition live_annotations (db : PairDb) (user_id work_id : str) : list AnnotationRow :=
  merge_sort feed_le
    (List.filter (fun a => bool_decide (an_user_id a = user_id) && bool_decide (an_work_id a = work_id)
                    && negb (an_deleted a)) (annotations db)).

Definition set_seq (seq row_id : Z) (a : AnnotationRow) : AnnotationRow :=
  if an_row_id a =? row_id
  then {| an_row_id := an_row_id a; an_user_id := an_user_id a; an_work_id := an_work_id a;
          an_seq := seq; an_deleted := an_deleted a |}
  else a.

(** The update loop, from position [first] on. *)
Fixpoint resequence_rows (first : Z) (rows : list AnnotationRow) : DB unit :=
  match rows with
  | [] => db_ret tt
  | row :: rest =>
      _ <-- statement (fun db =>
              (Ok tt, set_annotations db (set_seq first (an_row_id row) <$> annotations db))) ;;
      resequence_rows (first + 1) rest
  end.

Definition resequence_work_annotations (user_id work_id : str) : DB Z :=
  rows <-- query (fun db => live_annotations db user_id work_id) ;;
  match rows with
  | [] => db_ret 0
  | _ =>
      let moved := Z.of_nat (length rows) in
      _ <-- statement (fun db =>
              (Ok tt, set_annotation_seq db
                 (match annotation_seq db !! user_id with
                  | Some _ => annotation_seq db
                  | None => <[ user_id := 0 ]> (annotation_seq db)
                  end))) ;;
      _ <-- statement (fun db =>
              (Ok tt, set_annotation_seq db (alter (fun n => n + moved) user_id (annotation_seq db)))) ;;
      seq <-- query (fun db => annotation_seq db !! user_id) ;;
      match seq with
      | None => db_err (Custom (lit "liseur-sync counter disappeared"))
      | Some high_water =>
          _ <-- resequence_rows (high_water - moved + 1) rows ;;
          db_ret moved
      end
  end.

(** ** Queries *)

Definition link_for_media (user_id media_id : str) : DB (option LinkRow) :=
  query (fun db => links db !! (user_id, media_id)).

(** The alias query: an alias of the user joined with the editions of its work. *)
Definition alias_names (db : PairDb) (media_id : str) (a : AliasRow) : bool :=
  (bool_decide (al_kind a = lit "source") && bool_decide (al_value a = media_id))
  || existsb (fun e =>
       bool_decide (ed_user_id e = al_user_id a) && bool_decide (ed_work_id e = al_work_id a)
       && match al_edition_sha a with
          | None => true
          | Some sha => bool_decide (sha = ed_edition_sha e)
          end
       && bool_decide (ed_media_id e = Some media_id)) (editions db).

Definition alias_works (db : PairDb) (user_id media_id : str) : list str :=
  remove_dups (al_work_id <$>
    List.filter (fun a => bool_decide (al_user_id a = user_id) && alias_names db media_id a) (aliases db)).

Definition work_for_unlinked_media (user_id media_id : str) : DB (option str) :=
  work_ids <-- query (fun db => alias_works db user_id media_id) ;;
  match work_ids with
  | _ :: _ :: _ =>
      db_err (Custom (lit "media " ++ media_id ++ lit " aliases resolve to multiple works; refusing to pair"))
  | _ => db_ret (List.hd_error work_ids)
  end.

(** ** Writing one side *)

Definition set_verdict (row : LinkRow) (status : str) (evidence : option str) : LinkRow :=
  {| l_id := l_id row; l_user_id := l_user_id row; l_media_id := l_media_id row;
     l_work_id := l_work_id row; l_edition_sha := l_edition_sha row;
     l_resolution_status := l_resolution_status row; l_created_at := l_created_at row;
     l_pair_status := status; l_pair_evidence := evidence |}.

Definition row_status (row : LinkRow) : PairStatus := status_from_stored (l_pair_status row).

Definition row_evidence (row : LinkRow) : option PairEvidence :=
  l_pair_evidence row ≫= evidence_from_stored.

(** The verdict and evidence an existing link ends up with. *)
Definition next_verdict (existing : LinkRow) (status : PairStatus) (evidence : PairEvidence)
  : PairStatus * PairEvidence :=
  let current_status := row_status existing in
  let promote :=
    (bool_decide (status = Confirmed) && negb (bool_decide (current_status = Confirmed)))
    || (bool_decide (current_status = Suggested) && bool_decide (status = Suggested)) in
  (if promote then status else current_status,
   match row_evidence existing with
   | Some current => if rank evidence <=? rank current then current else evidence
   | None => evidence
   end).

Definition upsert_link (user_id media_id work_id : str) (existing : option LinkRow)
    (status : PairStatus) (evidence : PairEvidence) : DB bool :=
  match existing with
  | None =>
      id <-- fresh_uuid ;;
      _ <-- insert_link
              {| l_id := id; l_user_id := user_id; l_media_id := media_id; l_work_id := work_id;
                 l_edition_sha := []; l_resolution_status := lit "unverified"; l_created_at := now;
                 l_pair_status := status_fmt status; l_pair_evidence := Some (evidence_fmt evidence) |} ;;
      _ <-- resequence_work_annotations user_id work_id ;;
      db_ret true
  | Some existing =>
      if negb (bool_decide (l_work_id existing = work_id))
      then db_err (Custom (lit "pairing cannot re-home a media link between work identities"))
      else
        let '(next_status, next_evidence) := next_verdict existing status evidence in
        if bool_decide (next_status = row_status existing)
           && bool_decide (Some next_evidence = row_evidence existing)
        then db_ret false
        else
          _ <-- update_link (set_verdict existing (status_fmt next_status)
                               (Some (evidence_fmt next_evidence))) ;;
          db_ret true
  end.

(** ** Minting a work *)

(** The first of the comma-separated writers, trimmed. *)
Definition first_writer (writers : option str) : str :=
  match writers with
  | Some writers => match split_on (Z.eqb 44) writers with first :: _ => trim first | [] => [] end
  | None => []
  end.

Fixpoint work_title (media_ids : list str) (title author : str) : DB (str * str) :=
  match media_ids with
  | [] => db_ret (title, author)
  | media_id :: rest =>
      row <-- query (fun db => metadata db !! media_id) ;;
      let '(title, author) :=
        match row with
        | Some (t, writers) =>
            (if is_none (List.hd_error title) then default [] t else title,
             if is_none (List.hd_error author) then first_writer writers else author)
        | None => (title, author)
        end in
      if negb (is_none (List.hd_error title)) && negb (is_none (List.hd_error author))
      then db_ret (title, author)
      else work_title rest title author
  end.

Definition create_work (user_id anchor_media_id fallback_media_id : str) : DB str :=
  ta <-- work_title [anchor_media_id; fallback_media_id] [] [] ;;
  id <-- fresh_uuid ;;
  _ <-- insert_work {| w_id := id; w_user_id := user_id; w_title := ta.1; w_author := ta.2;
                       w_pending := false; w_created_at := now |} ;;
  db_ret id.

(** ** Writing a pair *)

(** The work a media row already belongs to, by link or by alias. *)
Definition work_of (user_id media_id : str) (link : option LinkRow) : DB (option str) :=
  match link with
  | Some link => db_ret (Some (l_work_id link))
  | None => work_for_unlinked_media user_id media_id
  end.

(** The first of the two links that rejects the pair about [work_id]. *)
Definition rejecting_link (anchor other : option LinkRow) (work_id : str) : option LinkRow :=
  List.find (fun link => bool_decide (l_work_id link = work_id) && bool_decide (row_status link = Rejected))
    (option_list anchor ++ option_list other).

Definition write_both (user_id anchor_media_id other_media_id work_id : str)
    (anchor other : option LinkRow) (status : PairStatus) (evidence : PairEvidence) : DB PairOutcome :=
  match rejecting_link anchor other work_id with
  | Some link => db_ret (Unchanged (URejected (l_work_id link)))
  | None =>
      wrote_anchor <-- upsert_link user_id anchor_media_id work_id anchor status evidence ;;
      wrote_other <-- upsert_link user_id other_media_id work_id other status evidence ;;
      db_ret (if wrote_anchor || wrote_other then Written work_id status
              else Unchanged (UAlreadySet work_id status))
  end.

Definition write_pair (user_id anchor_media_id other_media_id : str)
    (status : PairStatus) (evidence : PairEvidence) : DB PairOutcome :=
  anchor <-- link_for_media user_id anchor_media_id ;;
  other <-- link_for_media user_id other_media_id ;;
  anchor_work_id <-- work_of user_id anchor_media_id anchor ;;
  other_work_id <-- work_of user_id other_media_id other ;;
  match anchor_work_id, other_work_id with
  | Some aw, Some ow =>
      if negb (bool_decide (aw = ow))
      then db_ret (Unchanged (UWorkConflict other_media_id ow))
      else write_both user_id anchor_media_id other_media_id aw anchor other status evidence
  | Some work_id, None | None, Some work_id =>
      write_both user_id anchor_media_id other_media_id work_id anchor other status evidence
  | None, None =>
      work_id <-- create_work user_id anchor_media_id other_media_id ;;
      write_both user_id anchor_media_id other_media_id work_id anchor other status evidence
  end.

Definition suggest_pair (user_id anchor_media_id other_media_id : str) (evidence : PairEvidence)
  : DB PairOutcome :=
  write_pair user_id anchor_media_id other_media_id Suggested evidence.

Definition confirm_pair (user_id anchor_media_id other_media_id : str) : DB PairOutcome :=
  write_pair user_id anchor_media_id other_media_id Confirmed Manual.

(** [for link in links.into_iter().flatten()]. *)
Fixpoint reject_links (links : list LinkRow) (work_id : option str) : DB (option str) :=
  match links with
  | [] => db_ret work_id
  | link :: rest =>
      if negb (bool_decide (row_status link = Suggested)) then reject_links rest work_id
      else
        _ <-- update_link (set_verdict link (status_fmt Rejected) (l_pair_evidence link)) ;;
        reject_links rest (Some (l_work_id link))
  end.

Definition reject_pair (user_id media_a media_b : str) : DB PairOutcome :=
  a <-- link_for_media user_id media_a ;;
  b <-- link_for_media user_id media_b ;;
  work_id <-- reject_links (option_list a ++ option_list b) None ;;
  db_ret (match work_id with
          | Some work_id => Written work_id Rejected
          | None => Unchanged UNoLink
          end).

(** ** Reading pairs *)

(** [pair_status]: the weaker of the two links. *)
Definition pair_status (left right : PairStatus) : PairStatus :=
  match left, right with
  | Rejected, _ | _, Rejected => Rejected
  | Suggested, _ | _, Suggested => Suggested
  | Confirmed, Confirmed => Confirmed
  end.

(** [ORDER BY created_at, id]. *)
Definition link_le (a b : LinkRow) : Prop :=
  (if bool_decide (l_created_at a = l_created_at b) then str_le (l_id a) (l_id b)
   else str_le (l_created_at a) (l_created_at b)) = true.

#[global] Instance link_le_dec a b : Decision (link_le a b).
Proof. unfold link_le. apply _. Defined.

(** The other links of a work. *)
Definition work_links (db : PairDb) (user_id work_id media_id : str) : list LinkRow :=
  merge_sort link_le
    (List.filter (fun l => bool_decide (l_user_id l = user_id) && bool_decide (l_work_id l = work_id)
                    && negb (bool_decide (l_media_id l = media_id)))
       (map_to_list (links db)).*2).

Definition linked_media (user_id media_id : str) (status : option PairStatus) : DB (list LinkRow) :=
  link <-- link_for_media user_id media_id ;;
  match link with
  | None => db_ret []
  | Some link =>
      let anchor_status := row_status link in
      if bool_decide (anchor_status = Rejected) then db_ret []
      else
        rows <-- query (fun db => work_links db user_id (l_work_id link) media_id) ;;
        db_ret (List.filter (fun candidate =>
                  let pair := pair_status anchor_status (row_status candidate) in
                  match status with
                  | Some wanted => bool_decide (pair = wanted)
                  | None => negb (bool_decide (pair = Rejected))
                  end) rows)
  end.

Definition decided_media_ids (user_id media_id : str) : DB (list str) :=
  link <-- link_for_media user_id media_id ;;
  match link with
  | None => db_ret []
  | Some link =>
      query (fun db => l_media_id <$>
        List.filter (fun l => bool_decide (l_user_id l = user_id) && bool_decide (l_work_id l = l_work_id link))
          (map_to_list (links db)).*2)
  end.

End Pairing.

(** ** Specification *)

(** A verdict only ever moves away from a suggestion. *)
Definition verdict_step (s s' : PairStatus) : Prop := s' = s \/ s = Suggested.

(** Evidence is never replaced by weaker evidence. *)
Definition evidence_kept (e e' : option PairEvidence) : Prop :=
  forall x, e = Some x -> exists y, e' = Some y /\ rank x <= rank y.

(** A link row keeps its identity and its work while its verdict advances. *)
Record link_advances (row row' : LinkRow) : Prop := {
  la_id : l_id row' = l_id row;
  la_key : link_key row' = link_key row;
  la_work : l_work_id row' = l_work_id row;
  la_verdict : verdict_step (row_status row) (row_status row');
  la_evidence : evidence_kept (row_evidence row) (row_evidence row');
}.

Definition db_advances (db db' : PairDb) : Prop :=
  forall k row, links db !! k = Some row ->
    exists row', links db' !! k = Some row' /\ link_advances row row'.

(** Rows are stored under their own key. *)
Definition db_wf (db : PairDb) : Prop :=
  forall k row, links db !! k = Some row -> link_key row = k.

#[export] Instance link_advances_preorder : PreOrder link_advances.
Proof.
  split.
  - intros row. constructor; try done; [by left|]. intros x Hx. exists x. split; [done|lia].
  - intros r1 r2 r3 [A1 A2 A3 A4 A5] [B1 B2 B3 B4 B5]. constructor; try congruence.
    + unfold verdict_step in *. destruct A4 as [A4|A4]; [|by right]. rewrite A4 in B4. done.
    + intros x (y & Hy & ?)%A5. destruct (B5 y Hy) as (z & Hz & ?). exists z. split; [done|lia].
Qed.

#[export] Instance db_advances_preorder : PreOrder db_advances.
Proof.
  split.
  - intros db k row Hk. by exists row.
  - intros d1 d2 d3 H1 H2 k row (row2 & Hk2 & A)%H1. destruct (H2 _ _ Hk2) as (row3 & Hk3 & B).
    exists row3. split; [done|]. by etrans.
Qed.

(** ** Stored verdicts and evidence *)

Lemma status_roundtrip s : status_from_stored (status_fmt s) = s.
Proof. by destruct s; vm_compute. Qed.

Lemma evidence_roundtrip e : evidence_from_stored (evidence_fmt e) = Some e.
Proof. by destruct e; vm_compute. Qed.

(** The row [upsert_link] writes over an existing one. *)
Definition updated (row : LinkRow) (status : PairStatus) (evidence : PairEvidence) : LinkRow :=
  set_verdict row (status_fmt (next_verdict row status evidence).1)
    (Some (evidence_fmt (next_verdict row status evidence).2)).

Lemma updated_verdict row status evidence :
  row_status (updated row status evidence) = (next_verdict row status evidence).1 /\
  row_evidence (updated row status evidence) = Some (next_verdict row status evidence).2.
Proof.
  unfold row_status, row_evidence, updated; cbn [set_verdict l_pair_status l_pair_evidence].
  by rewrite status_roundtrip, <- evidence_roundtrip.
Qed.

Lemma next_verdict_status row status evidence :
  row_status row <> Rejected -> status <> Rejected ->
  verdict_step (row_status row) (next_verdict row status evidence).1 /\
  (next_verdict row status evidence).1 <> Rejected /\
  (status = Confirmed -> (next_verdict row status evidence).1 = Confirmed).
Proof.
  intros Hr Hs. unfold next_verdict, verdict_step; cbn [fst].
  destruct (row_status row), status; try done; vm_compute; auto; split_and!; auto; done.
Qed.

Lemma next_verdict_evidence row status evidence :
  evidence_kept (row_evidence row) (Some (next_verdict row status evidence).2) /\
  rank evidence <= rank (next_verdict row status evidence).2.
Proof.
  unfold next_verdict; cbn [snd]. destruct (row_evidence row) as [e|].
  - destruct (Z.leb_spec (rank evidence) (rank e)).
    + split; [intros x [= <-]; by exists e|done].
    + split; [intros x [= <-]; exists evidence; split; [done|lia]|done].
  - split; [done|lia].
Qed.

Lemma updated_advances row status evidence :
  row_status row <> Rejected -> status <> Rejected ->
  link_advances row (updated row status evidence).
Proof.
  intros Hr Hs. destruct (updated_verdict row status evidence) as [E1 E2].
  constructor; try done.
  - rewrite E1. by apply next_verdict_status.
  - rewrite E2. apply next_verdict_evidence.
Qed.

(** A row that another write of the same verdict and evidence leaves alone. *)
Definition settled (row : LinkRow) (status : PairStatus) (evidence : PairEvidence) : Prop :=
  (next_verdict row status evidence).1 = row_status row /\
  row_evidence row = Some (next_verdict row status evidence).2.

Lemma updated_settled row status evidence :
  status <> Rejected -> settled (updated row status evidence) status evidence.
Proof.
  intros Hs. destruct (updated_verdict row status evidence) as [E1 E2].
  assert (E : next_verdict (updated row status evidence) status evidence = next_verdict row status evidence).
  { unfold next_verdict at 1. rewrite E1, E2.
    rewrite (proj2 (Z.leb_le _ _) (proj2 (next_verdict_evidence row status evidence))).
    apply injective_projections; cbn [fst snd]; [|done].
    unfold next_verdict; cbn [fst]. destruct (row_status row), status; try done; by vm_compute. }
  unfold settled. by rewrite E, E1, E2.
Qed.

(** ** Computations that leave the links alone *)

Definition keeps_links {A} (c : DB A) : Prop := forall db, links (c db).2 = links db.

Lemma keeps_ret {A} (a : A) : keeps_links (db_ret a).
Proof. done. Qed.

Lemma keeps_err {A} e : keeps_links (db_err e : DB A).
Proof. done. Qed.

Lemma keeps_bind {A B} (c : DB A) (k : A -> DB B) :
  keeps_links c -> (forall a, keeps_links (k a)) -> keeps_links (db_bind c k).
Proof.
  intros Hc Hk db. unfold db_bind. specialize (Hc db). destruct (c db) as [[a|e] db1]; [|done].
  by rewrite (Hk a db1).
Qed.

Lemma keeps_statement {A} (run : DB A) : keeps_links run -> keeps_links (statement run).
Proof.
  intros Hr db. unfold statement. destruct (faults db) as [|[] f]; [apply Hr|done|]. by rewrite Hr.
Qed.

Lemma keeps_query {A} (f : PairDb -> A) : keeps_links (query f).
Proof. by apply keeps_statement. Qed.

Create HintDb pair_links.
#[export] Hint Resolve keeps_ret keeps_err keeps_bind keeps_statement keeps_query : pair_links.
#[export] Hint Extern 4 (keeps_links _) => (intros ?; reflexivity) : pair_links.

Lemma keeps_resequence_rows first rows : keeps_links (resequence_rows first rows).
Proof. revert first. induction rows; intros first; cbn [resequence_rows]; auto with pair_links. Qed.
#[export] Hint Resolve keeps_resequence_rows : pair_links.

Lemma keeps_resequence user_id work_id : keeps_links (resequence_work_annotations user_id work_id).
Proof.
  apply keeps_bind; [auto with pair_links|]. intros [|row rows]; [auto with pair_links|].
  do 3 (apply keeps_bind; [auto with pair_links|intros ?]).
  match goal with |- keeps_links (match ?o with _ => _ end) => destruct o end; auto with pair_links.
Qed.

Lemma keeps_work_title media_ids title author : keeps_links (work_title media_ids title author).
Proof.
  revert title author. induction media_ids as [|m ms IH]; intros title author; cbn [work_title];
    [auto with pair_links|]. apply keeps_bind; [auto with pair_links|]. intros row.
  destruct (match row with Some _ => _ | None => _ end) as [t a]. destruct (_ && _); auto with pair_links.
Qed.
#[export] Hint Resolve keeps_work_title : pair_links.

Lemma keeps_create_work new_v4 now user_id a b : keeps_links (create_work new_v4 now user_id a b).
Proof. unfold create_work, insert_work. auto 8 with pair_links. Qed.

Lemma keeps_work_of user_id media_id link : keeps_links (work_of user_id media_id link).
Proof.
  destruct link; cbn [work_of]; [auto with pair_links|].
  apply keeps_bind; [auto with pair_links|]. intros [|? [|]]; auto with pair_links.
Qed.

(** ** One side of a pair *)

(** The link row under a key after [upsert_link] succeeded. *)
Definition linked (db : PairDb) (k : str * str) (work_id : str) (status : PairStatus)
    (evidence : PairEvidence) : Prop :=
  exists row, links db !! k = Some row /\ l_work_id row = work_id /\ settled row status evidence /\
    row_status row <> Rejected /\ (status = Confirmed -> row_status row = Confirmed).

(** [existing] is what the database has under the key, or had before this same write. *)
Definition current (db : PairDb) (k : str * str) (work_id : str) (existing : option LinkRow)
    (status : PairStatus) (evidence : PairEvidence) : Prop :=
  match existing with
  | None => True
  | Some row => link_key row = k /\ (l_work_id row = work_id -> row_status row <> Rejected) /\
      (links db !! k = Some row \/
       links db !! k = Some (updated row status evidence) /\ l_work_id row = work_id)
  end.

Lemma update_link_spec row db r db' old :
  update_link row db = (r, db') -> links db !! link_key row = Some old ->
  (r = Err Statement /\ links db' = links db) \/ (r = Ok tt /\ links db' = <[ link_key row := row ]> (links db)).
Proof.
  unfold update_link, statement. intros E Hk.
  destruct (faults db) as [|[] f]; cbn in E; rewrite ?Hk in E; simplify_eq; auto.
Qed.

Lemma insert_link_spec row db r db' :
  insert_link row db = (r, db') ->
  (r = Err Statement /\ links db' = links db) \/
  (r = Ok tt /\ links db !! link_key row = None /\ links db' = <[ link_key row := row ]> (links db)).
Proof.
  unfold insert_link, statement. intros E.
  destruct (faults db) as [|[] f]; cbn in E; [|simplify_eq; auto|];
    destruct (links db !! link_key row) eqn:Hk; simplify_eq; auto.
Qed.

(** What one [upsert_link] may do to the links. *)
Record upserted (db db' : PairDb) (k : str * str) (work_id : str) (existing : option LinkRow)
    (status : PairStatus) (evidence : PairEvidence) (r : result bool DbErr) : Prop := {
  up_others : forall k', k' <> k -> links db' !! k' = links db !! k';
  up_advances : db_advances db db';
  up_wf : db_wf db -> db_wf db';
  up_current : current db' k work_id existing status evidence;
  up_linked : is_ok r = true -> linked db' k work_id status evidence;
}.

Lemma upserted_same db db' k work_id existing status evidence (r : result bool DbErr) :
  links db' = links db -> current db k work_id existing status evidence ->
  (is_ok r = true -> linked db k work_id status evidence) ->
  upserted db db' k work_id existing status evidence r.
Proof.
  intros E Hc Hl. constructor.
  - by rewrite E.
  - intros k' row Hk. exists row. by rewrite E.
  - unfold db_wf. by rewrite E.
  - unfold current in *. destruct existing; [|done]. by rewrite E.
  - unfold linked in *. by rewrite E.
Qed.

(** Overwriting an existing row by its update. *)
Lemma upserted_update db db' k work_id row status evidence :
  status <> Rejected -> current db k work_id (Some row) status evidence -> l_work_id row = work_id ->
  links db' = <[ k := updated row status evidence ]> (links db) ->
  upserted db db' k work_id (Some row) status evidence (Ok true).
Proof.
  intros Hs (Hkey & Hrej & Hcur) Hw E. specialize (Hrej Hw).
  assert (Hk' : link_key (updated row status evidence) = k) by done.
  constructor.
  - intros k' Hne. by rewrite E, lookup_insert_ne.
  - intros k' r0 Hk0. rewrite E. destruct (decide (k' = k)) as [->|Hne].
    + rewrite lookup_insert_eq. eexists. split; [done|].
      destruct Hcur as [Hc|[Hc _]]; rewrite Hc in Hk0; simplify_eq; [by apply updated_advances|done].
    + rewrite lookup_insert_ne by done. exists r0. by split.
  - intros Hwf k' r0. rewrite E. destruct (decide (k' = k)) as [->|Hne].
    + rewrite lookup_insert_eq. by intros [= <-].
    + rewrite lookup_insert_ne by done. apply Hwf.
  - split_and!; [done|done|]. right. by rewrite E, lookup_insert_eq.
  - intros _. exists (updated row status evidence). rewrite E, lookup_insert_eq.
    destruct (updated_verdict row status evidence) as [E1 _]. rewrite E1.
    split_and!; [done|done|by apply updated_settled|by apply next_verdict_status..].
Qed.

Lemma fresh_settled row status evidence :
  status <> Rejected -> row_status row = status -> row_evidence row = Some evidence ->
  settled row status evidence.
Proof.
  intros Hs E1 E2. unfold settled, next_verdict. rewrite E1, E2, Z.leb_refl. cbn. split; [|done].
  by destruct status; vm_compute.
Qed.

Lemma upsert_spec new_v4 now u m work_id existing status evidence db r db' :
  upsert_link new_v4 now u m work_id existing status evidence db = (r, db') ->
  status <> Rejected -> current db (u, m) work_id existing status evidence ->
  upserted db db' (u, m) work_id existing status evidence r.
Proof.
  intros E Hs Hc. unfold upsert_link in E. destruct existing as [row|].
  - destruct (decide (l_work_id row = work_id)) as [Hw|Hw].
    2: { rewrite bool_decide_false in E by done. cbn [negb] in E. unfold db_err in E. injection E as <- <-.
         by apply upserted_same. }
    rewrite bool_decide_true in E by done. cbn [negb] in E.
    destruct (next_verdict row status evidence) as [ns ne] eqn:En.
    assert (Hu : updated row status evidence = set_verdict row (status_fmt ns) (Some (evidence_fmt ne)))
      by (unfold updated; by rewrite En).
    destruct Hc as (Hkey & Hrej & Hcur). pose proof (Hrej Hw) as Hnr.
    destruct (bool_decide (ns = row_status row) && _) eqn:Eb.
    + apply andb_true_iff in Eb as [E1%bool_decide_eq_true E2%bool_decide_eq_true].
      unfold db_ret in E. injection E as <- <-. apply upserted_same; [done|done|]. intros _.
      destruct Hcur as [Hl|[Hl _]].
      * exists row. unfold settled. rewrite En. split_and!; try done.
        intros Hst. rewrite <- E1. pose proof (next_verdict_status row status evidence Hnr Hs) as (_ & _ & Hx).
        rewrite En in Hx. auto.
      * exists (updated row status evidence). destruct (updated_verdict row status evidence) as [F1 _].
        rewrite F1. split_and!; [done|done|by apply updated_settled|by apply next_verdict_status..].
    + unfold db_bind in E. rewrite <- Hu in E.
      destruct (update_link (updated row status evidence) db) as [r1 db1] eqn:Eu.
      assert (Hold : exists old, links db !! link_key (updated row status evidence) = Some old)
        by (change (link_key (updated row status evidence)) with (link_key row); rewrite Hkey;
            destruct Hcur as [?|[? _]]; eauto).
      destruct Hold as [old Hold].
      destruct (update_link_spec _ _ _ _ _ Eu Hold) as [[-> El]|[-> El]];
        unfold db_ret in E; injection E as <- <-.
      * by apply upserted_same.
      * apply upserted_update; [done|done|done|].
        change (link_key (updated row status evidence)) with (link_key row) in El. by rewrite Hkey in El.
  - unfold db_bind in E at 1. unfold fresh_uuid in E. unfold db_bind in E at 1.
    match type of E with context [insert_link ?x ?d] =>
      set (new := x) in E; set (d1 := d) in E; destruct (insert_link new d1) as [r1 db1] eqn:Ei end.
    destruct (insert_link_spec _ _ _ _ Ei) as [[-> El]|(-> & Hn & El)].
    { injection E as <- <-. by apply upserted_same. }
    assert (Elinks : links db' = <[ (u, m) := new ]> (links db)).
    { unfold db_bind in E. pose proof (keeps_resequence u work_id db1) as Hk.
      destruct (resequence_work_annotations u work_id db1) as [[z|e] db2]; unfold db_ret in E;
        injection E as _ <-; cbn [snd] in Hk; by rewrite Hk, El. }
    change (link_key new) with (u, m) in *.
    change (links d1) with (links db) in *. constructor.
    + intros k' Hne. by rewrite Elinks, lookup_insert_ne.
    + intros k' r0 Hk0. exists r0. rewrite Elinks. destruct (decide (k' = (u, m))) as [->|Hne]; [congruence|].
      by rewrite lookup_insert_ne.
    + intros Hwf k' r0. rewrite Elinks. destruct (decide (k' = (u, m))) as [->|Hne].
      * rewrite lookup_insert_eq. by intros [= <-].
      * rewrite lookup_insert_ne by done. apply Hwf.
    + done.
    + intros _. exists new. rewrite Elinks, lookup_insert_eq.
      assert (Hst : row_status new = status) by apply status_roundtrip.
      assert (Hev : row_evidence new = Some evidence) by apply evidence_roundtrip.
      split_and!; [done|done|by apply fresh_settled|congruence|congruence].
Qed.

(** ** Both sides *)

Lemma query_inv {A} (f : PairDb -> A) db a db1 :
  query f db = (Ok a, db1) -> links db1 = links db /\ exists db0, links db0 = links db /\ a = f db0.
Proof.
  unfold query, statement. destruct (faults db) as [|[] fs]; intros [= <- <-]; (split; [done|]).
  - by exists db.
  - by exists (set_faults db fs).
Qed.

Lemma link_for_media_inv u m db x db1 :
  link_for_media u m db = (Ok x, db1) -> x = links db !! (u, m) /\ links db1 = links db.
Proof. intros (E & db0 & E0 & ->)%query_inv. by rewrite E0. Qed.

Lemma keeps_inv {A} (c : DB A) db r db1 : keeps_links c -> c db = (r, db1) -> links db1 = links db.
Proof. intros Hk E. specialize (Hk db). by rewrite E in Hk. Qed.

(** The links advance and stay well formed. *)
Definition safe_step (db db' : PairDb) : Prop := db_advances db db' /\ (db_wf db -> db_wf db').

#[export] Instance safe_step_preorder : PreOrder safe_step.
Proof.
  split; [intros db; by split|]. intros d1 d2 d3 [A1 W1] [A2 W2]. split; [by etrans|auto].
Qed.

Lemma safe_step_same db db' : links db' = links db -> safe_step db db'.
Proof.
  intros E. split; [intros k row Hk; exists row; by rewrite E|]. unfold db_wf. by rewrite E.
Qed.

(** What a successful write of a pair leaves behind. *)
Definition pair_written (db : PairDb) (u a o : str) (status : PairStatus) (evidence : PairEvidence)
    (out : PairOutcome) : Prop :=
  match out with
  | Written work_id s | Unchanged (UAlreadySet work_id s) =>
      s = status /\ linked db (u, a) work_id status evidence /\ linked db (u, o) work_id status evidence
  | Unchanged (URejected work_id) =>
      exists k row, (k = (u, a) \/ k = (u, o)) /\ links db !! k = Some row /\ l_work_id row = work_id /\
        row_status row = Rejected
  | Unchanged (UWorkConflict media_id _) => media_id = o
  | Unchanged UNoLink => False
  end.

Lemma linked_other db db' k work_id status evidence :
  links db' !! k = links db !! k -> linked db k work_id status evidence -> linked db' k work_id status evidence.
Proof. intros E. unfold linked. by rewrite E. Qed.

Lemma write_both_spec new_v4 now u a o work_id anchor other status evidence db r db' :
  write_both new_v4 now u a o work_id anchor other status evidence db = (r, db') ->
  status <> Rejected -> db_wf db -> anchor = links db !! (u, a) -> other = links db !! (u, o) ->
  safe_step db db' /\ forall out, r = Ok out -> pair_written db' u a o status evidence out.
Proof.
  intros E Hs Hwf Ha Ho. unfold write_both in E.
  destruct (rejecting_link anchor other work_id) as [l|] eqn:Er.
  { unfold db_ret in E. injection E as <- <-. split; [done|]. intros out [= <-].
    apply find_Some_iff in Er as [Hin Hl].
    apply andb_true_iff in Hl as [Hw%bool_decide_eq_true Hr%bool_decide_eq_true].
    apply elem_of_app in Hin as [Hin|Hin]; [exists (u, a), l|exists (u, o), l];
      (split_and!; [auto| |done|done]); [destruct anchor|destruct other]; set_solver. }
  unfold rejecting_link in Er. rewrite find_None_iff in Er.
  assert (Hcur : forall m x, x = links db !! (u, m) -> (x = anchor \/ x = other) ->
            current db (u, m) work_id x status evidence).
  { intros m x Hx Hor. destruct x as [row|]; [|done]. cbn. split_and!; [by apply Hwf|idtac|by left].
    intros Hw Hrej. assert (Hin : row ∈ option_list anchor ++ option_list other)
      by (destruct Hor as [<-|<-]; set_solver).
    specialize (Er row Hin). cbn in Er. by rewrite !bool_decide_true in Er. }
  apply db_bind_cases in E as [(e & E1 & ->)|(wa & db1 & E1 & E)];
    apply upsert_spec in E1 as [O1 A1 W1 C1 L1]; [|done|by apply Hcur; auto| |done|by apply Hcur; auto].
  { split; [by split|done]. }
  assert (Hc2 : current db1 (u, o) work_id other status evidence).
  { destruct (decide (a = o)) as [->|Hne]; [by replace other with anchor by congruence|].
    specialize (Hcur o other Ho (or_intror eq_refl)). unfold current in *. destruct other; [|done].
    rewrite O1 by congruence. done. }
  apply db_bind_cases in E as [(e & E2 & ->)|(wo & db2 & E2 & E)];
    apply upsert_spec in E2 as [O2 A2 W2 C2 L2]; [|done|done| |done|done].
  { split; [|done]. split; [by etrans|auto]. }
  unfold db_ret in E. injection E as <- <-. split; [split; [by etrans|auto]|].
  specialize (L1 eq_refl). specialize (L2 eq_refl).
  assert (L1' : linked db2 (u, a) work_id status evidence).
  { destruct (decide (a = o)) as [->|Hne]; [done|].
    apply (linked_other db1); [|exact L1]. apply O2. congruence. }
  intros out [= <-]. by destruct (wa || wo).
Qed.

Lemma write_pair_spec new_v4 now u a o status evidence db r db' :
  write_pair new_v4 now u a o status evidence db = (r, db') -> status <> Rejected -> db_wf db ->
  safe_step db db' /\ forall out, r = Ok out -> pair_written db' u a o status evidence out.
Proof.
  intros E Hs Hwf. unfold write_pair in E.
  apply db_bind_cases in E as [(e & E1 & ->)|(anchor & db1 & E1 & E)].
  { apply keeps_inv in E1; [|apply keeps_query]. split; [by apply safe_step_same|done]. }
  apply link_for_media_inv in E1 as [Ha K1].
  apply db_bind_cases in E as [(e & E2 & ->)|(other & db2 & E2 & E)].
  { apply keeps_inv in E2; [|apply keeps_query]. split; [apply safe_step_same; congruence|done]. }
  apply link_for_media_inv in E2 as [Ho K2].
  apply db_bind_cases in E as [(e & E3 & ->)|(aw & db3 & E3 & E)];
    (apply keeps_inv in E3; [|apply keeps_work_of]); [split; [apply safe_step_same; congruence|done]|].
  apply db_bind_cases in E as [(e & E4 & ->)|(ow & db4 & E4 & E)];
    (apply keeps_inv in E4; [|apply keeps_work_of]); [split; [apply safe_step_same; congruence|done]|].
  assert (K4 : links db4 = links db) by congruence.
  assert (Hboth : forall w db5, links db5 = links db ->
            write_both new_v4 now u a o w anchor other status evidence db5 = (r, db') ->
            safe_step db db' /\ forall out, r = Ok out -> pair_written db' u a o status evidence out).
  { intros w db5 K5 E5. apply write_both_spec in E5 as [S5 P5]; [|done|..].
    - split; [|done]. etrans; [by apply safe_step_same|done].
    - unfold db_wf. by rewrite K5.
    - by rewrite K5.
    - rewrite K5. congruence. }
  destruct aw as [aw|], ow as [ow|].
  - destruct (decide (aw = ow)) as [->|Hne].
    + rewrite bool_decide_true in E by done. exact (Hboth ow db4 K4 E).
    + rewrite bool_decide_false in E by done. cbn [negb] in E. unfold db_ret in E. injection E as <- <-.
      split; [by apply safe_step_same|]. by intros out [= <-].
  - exact (Hboth aw db4 K4 E).
  - exact (Hboth ow db4 K4 E).
  - apply db_bind_cases in E as [(e & E5 & ->)|(w & db5 & E5 & E)];
      (apply keeps_inv in E5; [|apply keeps_create_work]); [split; [apply safe_step_same; congruence|done]|].
    eapply (Hboth w db5); [congruence|done].
Qed.

(** ** Rejecting *)

Definition rejected (row : LinkRow) : LinkRow :=
  set_verdict row (status_fmt Rejected) (l_pair_evidence row).

Lemma rejected_status row : row_status (rejected row) = Rejected.
Proof. apply (status_roundtrip Rejected). Qed.

Lemma rejected_advances row : row_status row = Suggested -> link_advances row (rejected row).
Proof.
  intros Hs. constructor; try done; [by right|]. intros x Hx. exists x. split; [done|lia].
Qed.

(** A row read earlier in this rejection: unchanged, or rejected by it. *)
Definition reject_current (db : PairDb) (row : LinkRow) : Prop :=
  links db !! link_key row = Some row \/
  row_status row = Suggested /\ links db !! link_key row = Some (rejected row).

Lemma insert_rejected_safe db db' row :
  row_status row = Suggested -> reject_current db row ->
  links db' = <[ link_key row := rejected row ]> (links db) -> safe_step db db'.
Proof.
  intros Hs Hc E. split.
  - intros k r0 Hk. rewrite E. destruct (decide (k = link_key row)) as [->|Hne].
    + rewrite lookup_insert_eq. eexists. split; [done|].
      destruct Hc as [Hc|[_ Hc]]; rewrite Hc in Hk; simplify_eq; [by apply rejected_advances|done].
    + rewrite lookup_insert_ne by done. exists r0. by split.
  - intros Hwf k r0. rewrite E. destruct (decide (k = link_key row)) as [->|Hne].
    + rewrite lookup_insert_eq. by intros [= <-].
    + rewrite lookup_insert_ne by done. apply Hwf.
Qed.

Lemma safe_step_rejected db db' k row :
  safe_step db db' -> links db !! k = Some row -> row_status row = Rejected ->
  exists row', links db' !! k = Some row' /\ row_status row' = Rejected.
Proof.
  intros [Hadv _] Hk Hr. destruct (Hadv _ _ Hk) as (row' & Hk' & Hl). exists row'. split; [done|].
  destruct (la_verdict _ _ Hl) as [E|E]; congruence.
Qed.

Lemma reject_links_spec rows w db r db' :
  reject_links rows w db = (r, db') ->
  (forall l l', l ∈ rows -> l' ∈ rows -> link_key l = link_key l' -> l = l') ->
  (forall l, l ∈ rows -> reject_current db l) ->
  safe_step db db' /\
  forall w', r = Ok w' ->
    (forall l, l ∈ rows -> row_status l = Suggested ->
       exists row', links db' !! link_key l = Some row' /\ row_status row' = Rejected) /\
    (w' = w \/ exists l, l ∈ rows /\ row_status l = Suggested).
Proof.
  revert w db. induction rows as [|l rows IH]; intros w db E Hinj Hcur.
  { cbn in E. unfold db_ret in E. injection E as <- <-. split; [done|].
    intros w' [= <-]. split; [|by left]. by intros l Hl%not_elem_of_nil. }
  assert (Hinj' : forall x y, x ∈ rows -> y ∈ rows -> link_key x = link_key y -> x = y)
    by (intros x y Hx Hy; apply Hinj; by apply list_elem_of_further).
  pose proof (Hcur l (list_elem_of_here _ _)) as Hl.
  assert (Hrest : forall x, x ∈ rows -> reject_current db x)
    by (intros x Hx; apply Hcur; by apply list_elem_of_further).
  cbn [reject_links] in E. destruct (decide (row_status l = Suggested)) as [Hs|Hs].
  2: { rewrite bool_decide_false in E by done. cbn [negb] in E.
       destruct (IH _ _ E Hinj' Hrest) as [S1 R1]. split; [done|]. intros w' Hw.
       destruct (R1 w' Hw) as [R2 R3]. split.
       - intros x [->|Hx]%elem_of_cons; [done|auto].
       - destruct R3 as [?|(x & Hx & ?)]; [by left|]. right. exists x. split; [by apply list_elem_of_further|done]. }
  rewrite bool_decide_true in E by done. cbn [negb] in E. fold (rejected l) in E.
  apply db_bind_cases in E as [(e & E1 & ->)|([] & db1 & E1 & E)].
  - assert (exists old, links db !! link_key (rejected l) = Some old) as [old Hold]
      by (destruct Hl as [Hx|[_ Hx]]; eauto).
    destruct (update_link_spec _ _ _ _ _ E1 Hold) as [[_ K]|[? _]]; [|done].
    split; [by apply safe_step_same|done].
  - assert (exists old, links db !! link_key (rejected l) = Some old) as [old Hold]
      by (destruct Hl as [Hx|[_ Hx]]; eauto).
    destruct (update_link_spec _ _ _ _ _ E1 Hold) as [[? _]|[_ K]]; [done|].
    change (link_key (rejected l)) with (link_key l) in K.
    pose proof (insert_rejected_safe db db1 l Hs Hl K) as S0.
    destruct (IH _ _ E Hinj') as [S1 R1].
    { intros x Hx. unfold reject_current. rewrite K. destruct (decide (link_key x = link_key l)) as [Hk|Hk].
      - assert (x = l) as -> by (apply Hinj; [by apply list_elem_of_further|apply list_elem_of_here|done]).
        right. by rewrite lookup_insert_eq.
      - rewrite lookup_insert_ne by congruence. exact (Hrest x Hx). }
    split; [by etrans|]. intros w' Hw. destruct (R1 w' Hw) as [R2 R3]. split.
    + intros x [->|Hx]%elem_of_cons Hxs; [|auto].
      apply (safe_step_rejected db1 db' (link_key l) (rejected l)); [done| |apply rejected_status].
      by rewrite K, lookup_insert_eq.
    + right. exists l. split; [apply list_elem_of_here|done].
Qed.

Lemma reject_pair_spec u a b db r db' :
  reject_pair u a b db = (r, db') -> db_wf db ->
  safe_step db db' /\
  forall out, r = Ok out -> out <> Unchanged UNoLink ->
    exists m row', (m = a \/ m = b) /\ links db' !! (u, m) = Some row' /\ row_status row' = Rejected.
Proof.
  intros E Hwf. unfold reject_pair in E.
  apply db_bind_cases in E as [(e & E1 & ->)|(la & db1 & E1 & E)].
  { apply keeps_inv in E1; [|apply keeps_query]. split; [by apply safe_step_same|done]. }
  apply link_for_media_inv in E1 as [Ha K1].
  apply db_bind_cases in E as [(e & E2 & ->)|(lb & db2 & E2 & E)].
  { apply keeps_inv in E2; [|apply keeps_query]. split; [apply safe_step_same; congruence|done]. }
  apply link_for_media_inv in E2 as [Hb K2].
  assert (Hrows : forall l, l ∈ option_list la ++ option_list lb ->
            exists m, (m = a \/ m = b) /\ links db2 !! (u, m) = Some l /\ link_key l = (u, m)).
  { intros l [Hl|Hl]%elem_of_app.
    - destruct la as [x|]; [|by apply not_elem_of_nil in Hl]. apply list_elem_of_singleton in Hl as ->.
      exists a. split_and!; [by left|congruence|by apply Hwf].
    - destruct lb as [x|]; [|by apply not_elem_of_nil in Hl]. apply list_elem_of_singleton in Hl as ->.
      exists b. split_and!; [by right|congruence|]. apply Hwf. congruence. }
  assert (Hpost : forall r1 db3, reject_links (option_list la ++ option_list lb) None db2 = (r1, db3) ->
    safe_step db db3 /\ forall w', r1 = Ok w' -> w' <> None ->
      exists m row', (m = a \/ m = b) /\ links db3 !! (u, m) = Some row' /\ row_status row' = Rejected).
  { intros r1 db3 E3. apply reject_links_spec in E3 as [S3 R3].
    - split; [etrans; [apply (safe_step_same _ db2); congruence|done]|]. intros w' Hw Hne.
      destruct (R3 w' Hw) as [R4 [->|(l & Hl & Hsug)]]; [done|].
      destruct (R4 l Hl Hsug) as (row' & Hrow & Hst). destruct (Hrows l Hl) as (m & Hm & _ & Hk).
      exists m, row'. by rewrite <- Hk.
    - intros l l' Hl Hl' Hk. destruct (Hrows l Hl) as (m & _ & L1 & K), (Hrows l' Hl') as (m' & _ & L2 & K').
      rewrite K, K' in Hk. injection Hk as ->. congruence.
    - intros l Hl. left. destruct (Hrows l Hl) as (m & _ & L1 & K). by rewrite K. }
  apply db_bind_cases in E as [(e & E3 & ->)|(w & db3 & E3 & E)].
  - split; [by eapply Hpost|done].
  - unfold db_ret in E. injection E as <- <-. destruct (Hpost _ _ E3) as [S3 P3]. split; [done|].
    intros out [= <-] Hne. apply (P3 w); [done|]. by destruct w.
Qed.

(** ** Sequences of pairing calls *)

Inductive PairOp :=
| OpSuggest (user anchor other : str) (evidence : PairEvidence)
| OpConfirm (user anchor other : str)
| OpReject (user media_a media_b : str).

Definition run_op (new_v4 : nat -> str) (now : str) (op : PairOp) : DB PairOutcome :=
  match op with
  | OpSuggest u a o e => suggest_pair new_v4 now u a o e
  | OpConfirm u a o => confirm_pair new_v4 now u a o
  | OpReject u a b => reject_pair u a b
  end.

(** The database after a sequence of calls, each of which may fail. *)
Definition run_ops (new_v4 : nat -> str) (now : str) (db : PairDb) (ops : list PairOp) : PairDb :=
  fold_left (fun db op => (run_op new_v4 now op db).2) ops db.

Lemma run_op_safe new_v4 now op db : db_wf db -> safe_step db (run_op new_v4 now op db).2.
Proof.
  intros Hwf. destruct (run_op new_v4 now op db) as [r db'] eqn:E. cbn [snd].
  destruct op; cbn in E; [| |by eapply reject_pair_spec];
    by eapply write_pair_spec in E as [? _].
Qed.

Lemma run_ops_safe new_v4 now ops db : db_wf db -> safe_step db (run_ops new_v4 now db ops).
Proof.
  revert db. induction ops as [|op ops IH]; intros db Hwf; [done|]. cbn.
  pose proof (run_op_safe new_v4 now op db Hwf) as S1. etrans; [exact S1|]. apply IH, S1, Hwf.
Qed.

(** Verdicts are sticky under every sequence of suggestions, confirmations and
    rejections and every pattern of database failures: a link is never deleted or
    moved to another work, a confirmed or rejected verdict never changes, and
    evidence is never replaced by weaker evidence. *)
Theorem pairing_monotone new_v4 now ops db k row :
  db_wf db -> links db !! k = Some row ->
  exists row', links (run_ops new_v4 now db ops) !! k = Some row' /\
    l_id row' = l_id row /\ l_work_id row' = l_work_id row /\
    (row_status row <> Suggested -> row_status row' = row_status row) /\
    evidence_kept (row_evidence row) (row_evidence row').
Proof.
  intros Hwf Hk. destruct (run_ops_safe new_v4 now ops db Hwf) as [Hadv _].
  destruct (Hadv k row Hk) as (row' & Hk' & [H1 H2 H3 H4 H5]).
  exists row'. split_and!; try done. intros Hs. by destruct H4.
Qed.

(** ** Repeating a call *)

Lemma upsert_settled new_v4 now u m work_id row status evidence db :
  l_work_id row = work_id -> settled row status evidence ->
  upsert_link new_v4 now u m work_id (Some row) status evidence db = (Ok false, db).
Proof.
  intros Hw [H1 H2]. unfold upsert_link. rewrite bool_decide_true by done. cbn [negb].
  destruct (next_verdict row status evidence) as [ns ne]. cbn [fst snd] in H1, H2.
  rewrite H1, H2. by rewrite !bool_decide_true.
Qed.

Lemma query_ok {A} (f : PairDb -> A) db : faults db = [] -> query f db = (Ok (f db), db).
Proof. intros Hf. unfold query, statement. by rewrite Hf. Qed.

Lemma write_pair_again new_v4 now u a o status evidence db work_id :
  faults db = [] -> linked db (u, a) work_id status evidence -> linked db (u, o) work_id status evidence ->
  write_pair new_v4 now u a o status evidence db = (Ok (Unchanged (UAlreadySet work_id status)), db).
Proof.
  intros Hf (ra & Ha & Wa & Sa & Na & _) (ro & Ho & Wo & So & No & _).
  unfold write_pair, db_bind, link_for_media. rewrite !query_ok, Ha, Ho by done.
  cbn [work_of]. unfold db_ret at 1 2. rewrite Wa, Wo, bool_decide_true by done. cbn [negb].
  assert (Hn : rejecting_link (Some ra) (Some ro) work_id = None).
  { apply find_None_iff. intros x Hx. change (x ∈ [ra; ro]) in Hx. apply andb_false_iff. right.
    apply bool_decide_eq_false. apply elem_of_cons in Hx as [-> | ->%list_elem_of_singleton]; done. }
  unfold write_both. rewrite Hn. unfold db_bind. by rewrite !upsert_settled.
Qed.

(** Pairing is idempotent: when a suggestion or a confirmation went through, both
    media rows are linked to the reported work, and repeating the call with the
    database up changes nothing and reports so. *)
Theorem pairing_idempotent new_v4 now u a o status evidence db db' work_id :
  db_wf db -> status <> Rejected ->
  write_pair new_v4 now u a o status evidence db = (Ok (Written work_id status), db') ->
  faults db' = [] ->
  write_pair new_v4 now u a o status evidence db' = (Ok (Unchanged (UAlreadySet work_id status)), db').
Proof.
  intros Hwf Hs E Hf. apply write_pair_spec in E as [_ P]; [|done|done].
  destruct (P _ eq_refl) as (_ & La & Lo). by apply write_pair_again.
Qed.

(** ** Visibility *)

Lemma work_links_elem db u w m row :
  row ∈ work_links db u w m <->
  l_user_id row = u /\ l_work_id row = w /\ l_media_id row <> m /\ exists k, links db !! k = Some row.
Proof.
  unfold work_links. rewrite merge_sort_Permutation, list_elem_of_In, filter_In, <- list_elem_of_In.
  rewrite !andb_true_iff, negb_true_iff, bool_decide_eq_false, !bool_decide_eq_true.
  rewrite list_elem_of_fmap. split.
  - intros ([[k r] [-> Hin%elem_of_map_to_list]] & (? & ?) & ?). cbn in *. eauto 6.
  - intros (? & ? & ? & k & Hk). split; [|done]. exists (k, row). split; [done|].
    by apply elem_of_map_to_list.
Qed.

Lemma linked_media_ok u m wanted db link :
  faults db = [] -> links db !! (u, m) = Some link -> row_status link <> Rejected ->
  linked_media u m wanted db =
    (Ok (List.filter (fun candidate =>
           let pair := pair_status (row_status link) (row_status candidate) in
           match wanted with
           | Some wanted => bool_decide (pair = wanted)
           | None => negb (bool_decide (pair = Rejected))
           end) (work_links db u (l_work_id link) m)), db).
Proof.
  intros Hf Hl Hr. unfold linked_media, db_bind, link_for_media. rewrite !query_ok, Hl by done.
  cbv zeta. rewrite bool_decide_false by done. rewrite query_ok by done. done.
Qed.

Lemma linked_media_rejected u m wanted db link :
  faults db = [] -> links db !! (u, m) = Some link -> row_status link = Rejected ->
  linked_media u m wanted db = (Ok [], db).
Proof.
  intros Hf Hl Hr. unfold linked_media, db_bind, link_for_media. rewrite query_ok, Hl by done.
  cbv zeta. by rewrite bool_decide_true.
Qed.

Lemma confirmed_visible db u a o w :
  db_wf db -> a <> o -> faults db = [] ->
  linked db (u, a) w Confirmed Manual -> linked db (u, o) w Confirmed Manual ->
  exists rows row, linked_media u a (Some Confirmed) db = (Ok rows, db) /\ row ∈ rows /\ l_media_id row = o.
Proof.
  intros Hwf Hne Hf (ra & Ha & Wa & _ & Na & Ca) (ro & Ho & Wo & _ & _ & Co).
  pose proof (Hwf _ _ Ho) as Hk. unfold link_key in Hk. injection Hk as Hu Hm.
  rewrite (linked_media_ok u a (Some Confirmed) db ra Hf Ha Na). eexists _, ro. split; [done|].
  split; [|done]. apply list_elem_of_In, filter_In. split.
  - apply list_elem_of_In, work_links_elem. split_and!; [done|congruence|congruence|eauto].
  - cbv zeta. rewrite (Ca eq_refl), (Co eq_refl). done.
Qed.

Lemma rejected_hidden db u x y m r' rows row :
  db_wf db -> faults db = [] -> m = x \/ m = y -> links db !! (u, m) = Some r' ->
  row_status r' = Rejected -> linked_media u x None db = (Ok rows, db) -> row ∈ rows ->
  l_media_id row <> y.
Proof.
  intros W Hf Hxy Hr' Hst Hlm Hrow Hm. destruct (links db !! (u, x)) as [rx|] eqn:Hx.
  2: { unfold linked_media, db_bind, link_for_media in Hlm. rewrite query_ok, Hx in Hlm by done.
       unfold db_ret in Hlm. injection Hlm as <-. by apply not_elem_of_nil in Hrow. }
  destruct (decide (row_status rx = Rejected)) as [Hrx|Hrx].
  { rewrite (linked_media_rejected u x None db rx Hf Hx Hrx) in Hlm. injection Hlm as <-.
    by apply not_elem_of_nil in Hrow. }
  destruct Hxy as [-> | ->]; [congruence|].
  rewrite (linked_media_ok u x None db rx Hf Hx Hrx) in Hlm. injection Hlm as <-.
  apply list_elem_of_In, filter_In in Hrow as [Hrow Hp]. apply list_elem_of_In, work_links_elem in Hrow.
  destruct Hrow as (Hu & _ & _ & k & Hk). pose proof (W _ _ Hk) as Hkey. unfold link_key in Hkey.
  rewrite Hu, Hm in Hkey. subst k. rewrite Hr' in Hk. injection Hk as ->.
  cbv zeta in Hp. rewrite Hst in Hp. by destruct (row_status rx).
Qed.

(** What the user decided is what the book page shows: after a confirmation went
    through each of the two books lists the other as a confirmed edition, and after a
    rejection did, neither lists the other in any state. *)
Theorem pairing_visible new_v4 now u a o db :
  db_wf db -> a <> o ->
  (forall db' out, confirm_pair new_v4 now u a o db = (Ok out, db') -> faults db' = [] ->
     forall w s, out = Written w s \/ out = Unchanged (UAlreadySet w s) ->
     (exists rows row, linked_media u a (Some Confirmed) db' = (Ok rows, db') /\ row ∈ rows /\ l_media_id row = o) /\
     (exists rows row, linked_media u o (Some Confirmed) db' = (Ok rows, db') /\ row ∈ rows /\ l_media_id row = a)) /\
  (forall db' w, reject_pair u a o db = (Ok (Written w Rejected), db') -> faults db' = [] ->
     (forall rows row, linked_media u a None db' = (Ok rows, db') -> row ∈ rows -> l_media_id row <> o) /\
     (forall rows row, linked_media u o None db' = (Ok rows, db') -> row ∈ rows -> l_media_id row <> a)).
Proof.
  intros Hwf Hne. split.
  - intros db' out E Hf w s Hout. apply write_pair_spec in E as [[_ W] P]; [|done|done].
    specialize (P _ eq_refl). specialize (W Hwf).
    assert (linked db' (u, a) w Confirmed Manual /\ linked db' (u, o) w Confirmed Manual) as [La Lo]
      by (destruct Hout as [-> | ->]; apply P).
    split; by apply (confirmed_visible db' u _ _ w).
  - intros db' w E Hf. apply reject_pair_spec in E as [[_ W] P]; [|done]. specialize (W Hwf).
    destruct (P _ eq_refl ltac:(done)) as (m & r' & Hm & Hr' & Hst).
    split; intros rows row Hlm Hrow; eapply rejected_hidden; try done. tauto.
Qed.

(** ** Witnesses *)

Definition demo_uuid (n : nat) : str := [Z.of_nat n].

Definition demo_db : PairDb :=
  {| links := ∅; works := []; aliases := []; editions := []; metadata := ∅; annotations := [];
     annotation_seq := ∅; uuids := 0; faults := [] |}.

Lemma demo_db_wf : db_wf demo_db.
Proof. intros k row Hk. cbn in Hk. by rewrite lookup_empty in Hk. Qed.

(** A suggestion written to the empty database. *)
Definition demo_suggested : PairDb :=
  (suggest_pair demo_uuid [] (lit "u") (lit "a") (lit "b") SameDrop demo_db).2.

Lemma demo_suggested_wf : db_wf demo_suggested.
Proof.
  exact (proj2 (run_op_safe demo_uuid [] (OpSuggest (lit "u") (lit "a") (lit "b") SameDrop)
                  demo_db demo_db_wf) demo_db_wf).
Qed.

Lemma pairing_monotone_witness :
  let db := run_ops demo_uuid [] demo_suggested [OpReject (lit "u") (lit "a") (lit "b")] in
  exists row row', links db !! (lit "u", lit "a") = Some row /\ row_status row = Rejected /\
    links (run_ops demo_uuid [] db [OpConfirm (lit "u") (lit "a") (lit "b")]) !! (lit "u", lit "a") = Some row' /\
    row_status row' = Rejected.
Proof.
  cbv zeta. set (db := run_ops demo_uuid [] demo_suggested [OpReject (lit "u") (lit "a") (lit "b")]).
  assert (E : is_none (links db !! (lit "u", lit "a")) = false) by (vm_compute; reflexivity).
  apply not_none in E as [row E].
  assert (Er : (row_status <$> links db !! (lit "u", lit "a")) = Some Rejected) by (vm_compute; reflexivity).
  rewrite E in Er. injection Er as Er.
  assert (Hwf : db_wf db) by (exact (proj2 (run_ops_safe _ _ _ _ demo_suggested_wf) demo_suggested_wf)).
  destruct (pairing_monotone demo_uuid [] [OpConfirm (lit "u") (lit "a") (lit "b")] db _ row Hwf E)
    as (row' & E' & _ & _ & Hs & _).
  exists row, row'. split; [exact E|]. split; [exact Er|]. split; [exact E'|].
  rewrite <- Er. apply Hs. rewrite Er. discriminate.
Defined.

Lemma pairing_idempotent_witness :
  write_pair demo_uuid [] (lit "u") (lit "a") (lit "b") Suggested SameDrop demo_suggested =
    (Ok (Unchanged (UAlreadySet (demo_uuid 0) Suggested)), demo_suggested).
Proof.
  apply (pairing_idempotent demo_uuid [] (lit "u") (lit "a") (lit "b") Suggested SameDrop demo_db).
  - exact demo_db_wf.
  - discriminate.
  - vm_compute. reflexivity.
  - vm_compute. reflexivity.
Defined.

Lemma pairing_visible_witness :
  let db' := (confirm_pair demo_uuid [] (lit "u") (lit "a") (lit "b") demo_suggested).2 in
  exists rows row, linked_media (lit "u") (lit "a") (Some Confirmed) db' = (Ok rows, db') /\
    row ∈ rows /\ l_media_id row = lit "b".
Proof.
  cbv zeta.
  destruct (pairing_visible demo_uuid [] (lit "u") (lit "a") (lit "b") demo_suggested demo_suggested_wf) as [H _];
    [discriminate|].
  refine (proj1 (H _ (Written (demo_uuid 0) Confirmed) _ _ (demo_uuid 0) Confirmed (or_introl eq_refl))).
  - vm_compute. reflexivity.
  - vm_compute. reflexivity.
Defined.
