(* ===== verification/MediaTypes.v ===== *)
(** * Content types

    Models [src/crates/media/src/content_type.rs]: the content types the server knows,
    their MIME strings and extensions, and how a type is chosen from sniffed bytes, an
    extension or both.  The [infer] crate is third-party code: the class [Sniffer] says
    which MIME string it reports. *)

From stdpp Require Import base list strings.
From Stdlib Require Import ZArith Lia.
From S2P Require Import Prelude.

#[local] Open Scope Z_scope.
#[local] Open Scope coppice_scope.

Inductive ContentType :=
| XHTML | XML | HTML | PDF | EPUB_ZIP | MOBI | AZW3 | ZIP | COMIC_ZIP | RAR | COMIC_RAR
| AVIF | HEIF | PNG | JPEG | JPEG_XL | WEBP | GIF | TXT
| M4B | M4A | MP3 | OPUS | OGG | FLAC
| UNKNOWN.

#[export] Instance ContentType_eq_dec : EqDecision ContentType.
Proof. solve_decision. Defined.

(** A [match] on string literals: the value of the first arm whose literal is [s]. *)
Fixpoint match_str {A} (arms : list (string * A)) (s : str) (otherwise : A) : A :=
  match arms with
  | [] => otherwise
  | (l, a) :: arms => if bool_decide (s = lit l) then a else match_str arms s otherwise
  end.

Definition temporary_content_workarounds (extension : str) : ContentType :=
  if bool_decide (extension = lit "opf") || bool_decide (extension = lit "ncx") then XML else UNKNOWN.

Definition extension_arms : list (string * ContentType) :=
  [ ("xhtml", XHTML); ("xml", XML); ("html", HTML); ("pdf", PDF); ("epub", EPUB_ZIP);
    ("mobi", MOBI); ("prc", MOBI); ("azw", MOBI); ("azw3", AZW3); ("zip", ZIP); ("cbz", COMIC_ZIP);
    ("rar", RAR); ("cbr", COMIC_RAR); ("avif", AVIF); ("heif", HEIF); ("png", PNG); ("jpg", JPEG);
    ("jpeg", JPEG); ("jxl", JPEG_XL); ("webp", WEBP); ("gif", GIF); ("txt", TXT); ("m4b", M4B);
    ("m4a", M4A); ("mp3", MP3); ("opus", OPUS); ("ogg", OGG); ("oga", OGG); ("flac", FLAC) ]%string.

Definition mime_arms : list (string * ContentType) :=
  [ ("application/xhtml+xml", XHTML); ("application/xml", XML); ("text/html", HTML);
    ("application/pdf", PDF); ("application/epub+zip", EPUB_ZIP);
    ("application/x-mobipocket-ebook", MOBI); ("application/vnd.amazon.ebook", MOBI);
    ("application/vnd.amazon.mobi8-ebook", AZW3); ("application/zip", ZIP);
    ("application/vnd.comicbook+zip", COMIC_ZIP); ("application/vnd.rar", RAR);
    ("application/vnd.comicbook-rar", COMIC_RAR); ("image/heif", HEIF); ("image/png", PNG);
    ("image/jpeg", JPEG); ("image/jxl", JPEG_XL); ("image/webp", WEBP); ("image/avif", AVIF);
    ("image/gif", GIF); ("audio/mpeg", MP3); ("audio/mp3", MP3); ("audio/mp4", M4A);
    ("audio/m4a", M4A); ("audio/x-m4a", M4A); ("audio/opus", OPUS); ("audio/ogg", OGG);
    ("application/ogg", OGG); ("audio/flac", FLAC); ("audio/x-flac", FLAC) ]%string.

Definition mime_type (ct : ContentType) : str :=
  lit match ct with
  | XHTML => "application/xhtml+xml"
  | XML => "application/xml"
  | HTML => "text/html"
  | PDF => "application/pdf"
  | EPUB_ZIP => "application/epub+zip"
  | MOBI => "application/x-mobipocket-ebook"
  | AZW3 => "application/vnd.amazon.mobi8-ebook"
  | ZIP => "application/zip"
  | COMIC_ZIP => "application/vnd.comicbook+zip"
  | RAR => "application/vnd.rar"
  | COMIC_RAR => "application/vnd.comicbook-rar"
  | AVIF => "image/avif"
  | HEIF => "image/heif"
  | PNG => "image/png"
  | JPEG => "image/jpeg"
  | JPEG_XL => "image/jxl"
  | WEBP => "image/webp"
  | GIF => "image/gif"
  | TXT => "text/plain"
  | M4B => "audio/mp4"
  | M4A => "audio/mp4"
  | MP3 => "audio/mpeg"
  | OPUS => "audio/opus"
  | OGG => "audio/ogg"
  | FLAC => "audio/flac"
  | UNKNOWN => "unknown"
  end.

Definition extension (ct : ContentType) : str :=
  lit match ct with
  | XHTML => "xhtml"
  | XML => "xml"
  | HTML => "html"
  | PDF => "pdf"
  | EPUB_ZIP => "epub"
  | MOBI => "mobi"
  | AZW3 => "azw3"
  | ZIP => "zip"
  | COMIC_ZIP => "cbz"
  | RAR => "rar"
  | COMIC_RAR => "cbr"
  | HEIF => "heif"
  | PNG => "png"
  | JPEG => "jpg"
  | JPEG_XL => "jxl"
  | WEBP => "webp"
  | AVIF => "avif"
  | GIF => "gif"
  | TXT => "txt"
  | M4B => "m4b"
  | M4A => "m4a"
  | MP3 => "mp3"
  | OPUS => "opus"
  | OGG => "ogg"
  | FLAC => "flac"
  | UNKNOWN => ""
  end.

Definition is_image (ct : ContentType) : bool := starts_with (mime_type ct) (lit "image").

Definition is_opds_legacy_image (ct : ContentType) : bool :=
  match ct with PNG | JPEG | GIF => true | _ => false end.

Definition is_decodable_image (ct : ContentType) : bool :=
  match ct with PNG | JPEG | WEBP | GIF => true | _ => false end.

Definition is_zip (ct : ContentType) : bool := bool_decide (ct = ZIP) || bool_decide (ct = COMIC_ZIP).
Definition is_rar (ct : ContentType) : bool := bool_decide (ct = RAR) || bool_decide (ct = COMIC_RAR).
Definition is_epub (ct : ContentType) : bool := bool_decide (ct = EPUB_ZIP).

Definition is_audio (ct : ContentType) : bool :=
  match ct with M4B | M4A | MP3 | OPUS | OGG | FLAC => true | _ => false end.

Definition is_kindle (ct : ContentType) : bool :=
  match ct with MOBI | AZW3 => true | _ => false end.

Definition is_subtype_of (ct parent : ContentType) : bool :=
  match ct, parent with
  | EPUB_ZIP, ZIP | COMIC_ZIP, ZIP | COMIC_RAR, RAR | AZW3, MOBI => true
  | _, _ => false
  end.

(** The formats of the [image] crate the server uses. *)
Inductive ImageFormat := ImagePng | ImageJpeg | ImageWebP | ImageGif.

Definition image_format (ct : ContentType) : option ImageFormat :=
  match ct with
  | PNG => Some ImagePng
  | JPEG => Some ImageJpeg
  | WEBP => Some ImageWebP
  | GIF => Some ImageGif
  | _ => None
  end.

(** What [infer] reports for bytes, and for the head of a file (a read error is [None]). *)
Class Sniffer := {
  infer_mime_from_bytes : list Z -> option str;
  infer_mime : str -> option str;
}.

Section types.
Context `{Lowercase}.

Definition from_extension (e : str) : ContentType :=
  match_str extension_arms (to_lowercase e) (temporary_content_workarounds e).

(** [From<&str>]. *)
Definition from_mime (mime : str) : ContentType := match_str mime_arms (to_lowercase mime) UNKNOWN.

Context `{Sniffer}.

Definition from_bytes (bytes : list Z) : ContentType :=
  from_option from_mime UNKNOWN (infer_mime_from_bytes bytes).

Definition from_bytes_with_fallback (bytes : list Z) (e : str) : ContentType :=
  match from_mime <$> infer_mime_from_bytes bytes, from_extension e with
  | Some bytes_ct, ext_ct =>
      if negb (bool_decide (ext_ct = UNKNOWN)) && is_subtype_of ext_ct bytes_ct then ext_ct else bytes_ct
  | None, ext_ct => if negb (bool_decide (ext_ct = UNKNOWN)) then ext_ct else UNKNOWN
  end.

Definition from_path (path : str) : ContentType :=
  match from_mime <$> infer_mime path with
  | Some UNKNOWN | None => from_extension (default [] (path_extension path))
  | Some ct => ct
  end.

End types.

(** ** Tables *)

Lemma lit_lower_ascii (l : string) :
  forallb (fun c => (c <? 0x80) && negb (is_ascii_upper c)) (lit l) = true ->
  forall `{Lowercase} `{!LowercaseLaws}, to_lowercase (lit l) = lit l.
Proof.
  intros Hl ? ?. rewrite forallb_forall in Hl. rewrite to_lowercase_ascii.
  - rewrite <- (map_id (lit l)) at 2. apply map_ext_in. intros c Hc. specialize (Hl c Hc).
    apply andb_true_iff in Hl as [_ Hu%negb_true_iff]. unfold to_ascii_lowercase. by rewrite Hu.
  - apply List.Forall_forall. intros c Hc. specialize (Hl c Hc). lia.
Qed.

Lemma match_str_arm {A} (arms : list (string * A)) s (o a : A) :
  match_str arms s o = a -> (a = o /\ Forall (fun arm => s <> lit arm.1) arms) \/
    exists l, (l, a) ∈ arms /\ s = lit l.
Proof.
  induction arms as [|[l b] arms IH]; simpl; [intros ->; auto|].
  case_bool_decide as Hs.
  - intros ->. right. exists l. by split; [left|].
  - intros [[-> Hall]|(l' & Hin & ->)]%IH; [left; by auto|right]. exists l'. by split; [right|].
Qed.

Section proofs.
Context `{Lowercase} `{!LowercaseLaws}.

(** The string forms of a content type can be read back.  Every extension the
    server prints is recognised as the same type.  Every printed MIME string is too, with
    two exceptions the model makes exact: [M4B] prints the MIME string of [M4A], and the
    MIME string of [TXT] is not recognised.  Only audio types print [audio/...], only
    [is_image] types print [image/...], and the types decodable as an image are exactly
    those with a format of the [image] crate. *)
Theorem content_type_roundtrip (ct : ContentType) :
  from_extension (extension ct) = ct /\
  from_mime (mime_type ct) = match ct with M4B => M4A | TXT => UNKNOWN | _ => ct end /\
  (is_audio ct = true <-> starts_with (mime_type ct) (lit "audio/") = true) /\
  (is_decodable_image ct = true <-> is_Some (image_format ct)) /\
  (is_decodable_image ct = true -> is_image ct = true).
Proof.
  assert (He : to_lowercase (extension ct) = extension ct) by (destruct ct; by apply lit_lower_ascii).
  assert (Hm : to_lowercase (mime_type ct) = mime_type ct) by (destruct ct; by apply lit_lower_ascii).
  unfold from_extension, from_mime. rewrite He, Hm.
  split_and!; [by destruct ct..| | |by destruct ct].
  - by destruct ct.
  - rewrite is_Some_alt. by destruct ct.
Qed.

Context `{Sniffer}.

(** The extension decides unless the bytes were recognised as something it does not
    refine. *)
Lemma from_bytes_with_fallback_cases bytes e :
  from_bytes_with_fallback bytes e =
    match infer_mime_from_bytes bytes with
    | Some mime =>
        if is_subtype_of (from_extension e) (from_mime mime) then from_extension e else from_mime mime
    | None => from_extension e
    end.
Proof.
  unfold from_bytes_with_fallback. destruct (infer_mime_from_bytes bytes) as [mime|]; simpl.
  - case_bool_decide as Hu; [rewrite Hu|]; done.
  - case_bool_decide; done.
Qed.

End proofs.
