(* ===== verification/IngestContract.v ===== *)
(** * The ingest contract

    Models [src/crates/ingest/src/contract.rs]: the metadata vocabulary shared by
    providers, the policy and the apply path, its mapping to the public vocabulary of
    [crates/integrations/metadata/src/types/enums.rs], the deterministic scorer of a
    quality report, field picks and the drop-item states.  The accessors of
    [serde_json::Value] the ingest crate uses are here too. *)

From stdpp Require Import base gmap list strings finite.
From Stdlib Require Import ZArith Lia SpecFloat.
From S2P Require Import Prelude Float64.

#[local] Open Scope Z_scope.
#[local] Open Scope coppice_scope.

Abbreviation value := (json f64).

(** ** JSON accessors *)

Definition is_null (v : value) : bool := match v with JNull => true | _ => false end.

Definition as_str (v : value) : option str := match v with JString s => Some s | _ => None end.

Definition as_array (v : value) : option (list value) :=
  match v with JArray l => Some l | _ => None end.

Definition is_string (v : value) : bool := negb (is_none (as_str v)).

Definition is_object (v : value) : bool := match v with JObject _ => true | _ => false end.

Definition as_u64 (v : value) : option Z :=
  match v with JInt n => then_some ((0 <=? n) && (n <=? u64_max)) n | _ => None end.

Definition as_i64 (v : value) : option Z :=
  match v with JInt n => then_some ((i64_min <=? n) && (n <=? i64_max)) n | _ => None end.

Definition as_f64 (v : value) : option f64 :=
  match v with JInt n => Some (f64_of_Z n) | JFloat x => Some x | _ => None end.

(** [Value::get] with a string index; the keys of an object are distinct. *)
Definition json_get (key : str) (v : value) : option value :=
  match v with
  | JObject fields => snd <$> List.find (fun kv => bool_decide (kv.1 = key)) fields
  | _ => None
  end.

(** ** The two metadata vocabularies *)

Module Public.

Inductive MetadataField :=
| Title | Summary | Genres | Tags | Artists | Publisher | Year | AgeRating | Cover | Status
| VolumeCount | PageCount | Isbn | ReleaseDate | Colorists | Letterers | CoverArtists
| Writers | Format | TitleSort | Number | Series | SeriesGroup | Notes | Language | Editors
| Inkers | Teams | Links | Characters | StoryArc | StoryArcNumber | BookType | Imprint
| PublicationRun | Pencillers | IdentifierAmazon | IdentifierCalibre | IdentifierGoogle
| IdentifierMobiAsin | IdentifierUuid | ComicId | MetaType | ComicImage
| DescriptionFormatted | Narrators | Subtitle.

(** The serialized names. *)
Definition names : list (MetadataField * str) :=
  [(Title, lit "TITLE"); (Summary, lit "SUMMARY"); (Genres, lit "GENRES"); (Tags, lit "TAGS");
   (Artists, lit "ARTISTS"); (Publisher, lit "PUBLISHER"); (Year, lit "YEAR");
   (AgeRating, lit "AGE_RATING"); (Cover, lit "COVER"); (Status, lit "STATUS");
   (VolumeCount, lit "VOLUME_COUNT"); (PageCount, lit "PAGE_COUNT"); (Isbn, lit "ISBN");
   (ReleaseDate, lit "RELEASE_DATE"); (Colorists, lit "COLORISTS"); (Letterers, lit "LETTERERS");
   (CoverArtists, lit "COVER_ARTISTS"); (Writers, lit "WRITERS"); (Format, lit "FORMAT");
   (TitleSort, lit "TITLE_SORT"); (Number, lit "NUMBER"); (Series, lit "SERIES");
   (SeriesGroup, lit "SERIES_GROUP"); (Notes, lit "NOTES"); (Language, lit "LANGUAGE");
   (Editors, lit "EDITORS"); (Inkers, lit "INKERS"); (Teams, lit "TEAMS"); (Links, lit "LINKS");
   (Characters, lit "CHARACTERS"); (StoryArc, lit "STORY_ARC");
   (StoryArcNumber, lit "STORY_ARC_NUMBER"); (BookType, lit "BOOK_TYPE"); (Imprint, lit "IMPRINT");
   (PublicationRun, lit "PUBLICATION_RUN"); (Pencillers, lit "PENCILLERS");
   (IdentifierAmazon, lit "IDENTIFIER_AMAZON"); (IdentifierCalibre, lit "IDENTIFIER_CALIBRE");
   (IdentifierGoogle, lit "IDENTIFIER_GOOGLE"); (IdentifierMobiAsin, lit "IDENTIFIER_MOBI_ASIN");
   (IdentifierUuid, lit "IDENTIFIER_UUID"); (ComicId, lit "COMIC_ID"); (MetaType, lit "META_TYPE");
   (ComicImage, lit "COMIC_IMAGE"); (DescriptionFormatted, lit "DESCRIPTION_FORMATTED");
   (Narrators, lit "NARRATORS"); (Subtitle, lit "SUBTITLE")].

(** The derived [Deserialize] of a unit variant: its name, or an object of one null. *)
Definition of_value (v : value) : option MetadataField :=
  let of_name name := fst <$> List.find (fun fn : MetadataField * str => bool_decide (fn.2 = name)) names in
  match v with
  | JString name | JObject [(name, JNull)] => of_name name
  | _ => None
  end.

End Public.

Inductive MetadataField :=
| Title | SortTitle | Series | SeriesIndex | Authors | Narrators | Publisher | PublishedDate
| Language | Summary | Tags | Genres | Isbn | Identifiers | AgeRating | PageCount | CoverUrl
| Status.

#[export] Instance MetadataField_eq_dec : EqDecision MetadataField.
Proof. solve_decision. Defined.

(** The derived [Ord] is declaration order, which is also the iteration order of a
    [BTreeMap] keyed by fields. *)
Definition declared_fields : list MetadataField :=
  [Title; SortTitle; Series; SeriesIndex; Authors; Narrators; Publisher; PublishedDate;
   Language; Summary; Tags; Genres; Isbn; Identifiers; AgeRating; PageCount; CoverUrl; Status].

Lemma declared_fields_NoDup : NoDup declared_fields.
Proof. by apply (bool_decide_unpack _). Qed.

Lemma declared_fields_all f : f ∈ declared_fields.
Proof. destruct f; by apply (bool_decide_unpack _). Qed.

#[export] Instance MetadataField_finite : Finite MetadataField :=
  {| enum := declared_fields; NoDup_enum := declared_fields_NoDup;
     elem_of_enum := declared_fields_all |}.

(** [BTreeMap::iter]. *)
Definition btree_iter {A} (m : gmap MetadataField A) : list (MetadataField * A) :=
  omap (fun f => pair f <$> m !! f) declared_fields.

Definition from_public (field : Public.MetadataField) : option MetadataField :=
  match field with
  | Public.Title => Some Title
  | Public.TitleSort => Some SortTitle
  | Public.Summary => Some Summary
  | Public.Series => Some Series
  | Public.Number => Some SeriesIndex
  | Public.Artists | Public.Writers | Public.Editors | Public.Inkers | Public.Letterers
  | Public.Colorists | Public.CoverArtists | Public.Pencillers | Public.Teams => Some Authors
  | Public.Narrators => Some Narrators
  | Public.Publisher | Public.Imprint => Some Publisher
  | Public.Year | Public.ReleaseDate => Some PublishedDate
  | Public.Language => Some Language
  | Public.Tags => Some Tags
  | Public.Genres => Some Genres
  | Public.Isbn => Some Isbn
  | Public.AgeRating => Some AgeRating
  | Public.PageCount => Some PageCount
  | Public.Cover => Some CoverUrl
  | Public.Status => Some Status
  | Public.Links | Public.ComicId | Public.IdentifierAmazon | Public.IdentifierCalibre
  | Public.IdentifierGoogle | Public.IdentifierMobiAsin | Public.IdentifierUuid =>
      Some Identifiers
  | _ => None
  end.

Definition to_public (field : MetadataField) : Public.MetadataField :=
  match field with
  | Title => Public.Title
  | SortTitle => Public.TitleSort
  | Series => Public.Series
  | SeriesIndex => Public.Number
  | Authors => Public.Writers
  | Narrators => Public.Narrators
  | Publisher => Public.Publisher
  | PublishedDate => Public.ReleaseDate
  | Language => Public.Language
  | Summary => Public.Summary
  | Tags => Public.Tags
  | Genres => Public.Genres
  | Isbn => Public.Isbn
  | Identifiers => Public.Links
  | AgeRating => Public.AgeRating
  | PageCount => Public.PageCount
  | CoverUrl => Public.Cover
  | Status => Public.Status
  end.

(** [MetadataField::ALL], the list the policy editor renders. *)
Definition ALL : list MetadataField :=
  [Title; SortTitle; Series; SeriesIndex; Authors; Publisher; PublishedDate; Language; Summary;
   Tags; Genres; Isbn; Identifiers; AgeRating; PageCount; CoverUrl; Status].

(** The serialized name, [SCREAMING_SNAKE_CASE]. *)
Definition field_name (field : MetadataField) : str :=
  lit match field with
      | Title => "TITLE" | SortTitle => "SORT_TITLE" | Series => "SERIES"
      | SeriesIndex => "SERIES_INDEX" | Authors => "AUTHORS" | Narrators => "NARRATORS"
      | Publisher => "PUBLISHER" | PublishedDate => "PUBLISHED_DATE" | Language => "LANGUAGE"
      | Summary => "SUMMARY" | Tags => "TAGS" | Genres => "GENRES" | Isbn => "ISBN"
      | Identifiers => "IDENTIFIERS" | AgeRating => "AGE_RATING" | PageCount => "PAGE_COUNT"
      | CoverUrl => "COVER_URL" | Status => "STATUS"
      end.

(** [serde_json::from_value::<MetadataField>] on a string. *)
Definition field_of_name (name : str) : option MetadataField :=
  List.find (fun f => bool_decide (field_name f = name)) declared_fields.

(** ** Quality reports *)

Inductive QualityStatus := Pass | Warn | Fail_ | NotApplicable.

#[export] Instance QualityStatus_eq_dec : EqDecision QualityStatus.
Proof. solve_decision. Defined.

Record QualityCheckOutcome := {
  qo_check_id : str;
  qo_label : str;
  qo_status : QualityStatus;
  qo_normalized_score : f64;
  qo_evidence : value;
}.

Record QualityReportCheck := {
  qc_outcome : QualityCheckOutcome;
  qc_weight : Z;
  qc_contribution : f64;
}.

Definition applicable (o : QualityCheckOutcome) : bool :=
  negb (bool_decide (qo_status o = NotApplicable)).

(** [Iterator::sum] over [f64]. *)
Definition fsum (l : list f64) : f64 := fold_left fadd l f64_zero.

(** [f64 as u8]: truncating and saturating, NaN to 0. *)
Definition f64_to_u8 (x : f64) : Z := Z.max 0 (Z.min 255 (f64_to_i64 x)).

Definition f64_hundred : f64 := f64_of_Z 100.

Definition contribution (applicable_weight : f64) (o : QualityCheckOutcome) (weight : Z) : f64 :=
  if negb (applicable o) || feq applicable_weight f64_zero then f64_zero
  else fdiv (fmul (fmul f64_hundred (f64_of_Z weight)) (qo_normalized_score o)) applicable_weight.

Definition score_report (outcomes : list (QualityCheckOutcome * Z)) : Z * list QualityReportCheck :=
  let applicable_weight :=
    fsum ((fun ow : QualityCheckOutcome * Z => f64_of_Z ow.2) <$>
            List.filter (fun ow => applicable ow.1) outcomes) in
  let checks :=
    (fun ow : QualityCheckOutcome * Z =>
       {| qc_outcome := ow.1; qc_weight := ow.2;
          qc_contribution := contribution applicable_weight ow.1 ow.2 |}) <$> outcomes in
  let total := fsum (qc_contribution <$> checks) in
  (f64_to_u8 (fclamp (fround total) f64_zero f64_hundred), checks).

(** ** Field picks *)

Inductive FieldPick :=
| KeepExisting (field : MetadataField)
| Candidate (field : MetadataField) (candidate_id : str)
| Manual (field : MetadataField) (v : value)
| Clear (field : MetadataField).

Definition pick_field (p : FieldPick) : MetadataField :=
  match p with
  | KeepExisting field | Candidate field _ | Manual field _ | Clear field => field
  end.

(** ** Drop items *)

Inductive DropItemStatus :=
| Received | Staged | Analyzing | AwaitingReview | Ready | Committed | Rejected | Failed.

#[export] Instance DropItemStatus_eq_dec : EqDecision DropItemStatus.
Proof. solve_decision. Defined.

Definition status_as_str (s : DropItemStatus) : str :=
  lit match s with
      | Received => "RECEIVED" | Staged => "STAGED" | Analyzing => "ANALYZING"
      | AwaitingReview => "AWAITING_REVIEW" | Ready => "READY" | Committed => "COMMITTED"
      | Rejected => "REJECTED" | Failed => "FAILED"
      end.

Definition status_parse (s : str) : option DropItemStatus :=
  if bool_decide (s = lit "RECEIVED") then Some Received
  else if bool_decide (s = lit "STAGED") then Some Staged
  else if bool_decide (s = lit "ANALYZING") then Some Analyzing
  else if bool_decide (s = lit "AWAITING_REVIEW") then Some AwaitingReview
  else if bool_decide (s = lit "READY") then Some Ready
  else if bool_decide (s = lit "COMMITTED") then Some Committed
  else if bool_decide (s = lit "REJECTED") then Some Rejected
  else if bool_decide (s = lit "FAILED") then Some Failed
  else None.

Inductive AnalysisPhase := Staging | Parsing | Pages | Quality | Identify | Lookup | Done.

(** ** Iteration over a field map *)

Lemma elem_of_btree_iter {A} (m : gmap MetadataField A) f a :
  (f, a) ∈ btree_iter m <-> m !! f = Some a.
Proof.
  unfold btree_iter. rewrite list_elem_of_omap. split.
  - intros (g & _ & E). apply fmap_Some in E as (b & Hb & [= -> ->]). done.
  - intros H. exists f. split; [apply declared_fields_all|]. by rewrite H.
Qed.

Lemma btree_iter_fields {A} (m : gmap MetadataField A) :
  (btree_iter m).*1 `sublist_of` declared_fields.
Proof.
  unfold btree_iter. induction declared_fields as [|f fs IH]; simpl; [constructor|].
  destruct (m !! f); simpl; by constructor.
Qed.

Lemma btree_iter_NoDup {A} (m : gmap MetadataField A) : NoDup (btree_iter m).*1.
Proof. eapply sublist_NoDup; [apply declared_fields_NoDup|apply btree_iter_fields]. Qed.

(** ** Vocabulary *)

(** Every ingest field survives the trip through the public vocabulary, so no two
    fields share a public name; and the rendered list [ALL] is complete but for one
    field. *)
Theorem vocabulary_roundtrip f :
  from_public (to_public f) = Some f /\ field_of_name (field_name f) = Some f /\
  (f ∈ ALL <-> f <> Narrators).
Proof.
  split_and!; [by destruct f|by destruct f|].
  rewrite <- (bool_decide_spec (f ∈ ALL)), <- (bool_decide_spec (f <> Narrators)). by destruct f.
Qed.

(** ** The scorer *)

(** Equal up to the sign of a zero, which no later step of the scorer sees. *)
Definition same_value (x y : f64) : Prop :=
  x = y \/ exists s t, x = S754_zero s /\ y = S754_zero t.

#[export] Instance same_value_equiv : Equivalence same_value.
Proof.
  split.
  - by left.
  - intros x y [->|(s & t & -> & ->)]; [by left|right; eauto].
  - intros x y z [->|(s & t & -> & ->)] H; [done|].
    destruct H as [<-|(s' & t' & _ & ->)]; right; eauto.
Qed.

#[export] Instance fadd_proper : Proper (same_value ==> same_value ==> same_value) fadd.
Proof.
  intros x x' Hx y y' Hy. destruct Hx as [->|(s & t & -> & ->)], Hy as [->|(s' & t' & -> & ->)].
  - by left.
  - destruct x' as [[]|[]| |]; try (by left); destruct s', t'; cbn; (by left) || (right; eauto).
  - destruct y' as [[]|[]| |]; try (by left); destruct s, t; cbn; (by left) || (right; eauto).
  - destruct s, t, s', t'; cbn; (by left) || (right; eauto).
Qed.

Lemma fadd_zero_r x : same_value (fadd x f64_zero) x.
Proof. destruct x as [[]|[]| |]; cbn; (by left) || (right; eauto). Qed.

Lemma fsum_skip {A} (keep : A -> bool) (g : A -> f64) l :
  (forall a, a ∈ l -> keep a = false -> g a = f64_zero) ->
  same_value (fsum (g <$> l)) (fsum (g <$> List.filter keep l)).
Proof.
  unfold fsum. assert (H : forall x y, same_value x y ->
    (forall a, a ∈ l -> keep a = false -> g a = f64_zero) ->
    same_value (fold_left fadd (g <$> l) x) (fold_left fadd (g <$> List.filter keep l) y)).
  { induction l as [|a l IH]; intros x y Hxy Hz; simpl; [done|].
    assert (Hl : forall a, a ∈ l -> keep a = false -> g a = f64_zero) by (intros; apply Hz; [by right|done]).
    destruct (keep a) eqn:E; simpl.
    - apply IH; [by rewrite Hxy|done].
    - apply IH; [|done]. rewrite (Hz a); [|by left|done]. by rewrite fadd_zero_r. }
  by apply H.
Qed.

Lemma score_of_total x y :
  same_value x y ->
  f64_to_u8 (fclamp (fround x) f64_zero f64_hundred) = f64_to_u8 (fclamp (fround y) f64_zero f64_hundred).
Proof. by intros [->|([] & [] & -> & ->)]. Qed.

(** The report score is an integer from 0 to 100 for any outcomes, weights and
    normalized scores, NaN and infinities included; checks that do not apply
    contribute nothing, so the score is the score of the applicable checks alone, and
    it is zero when there are none.  Every check is reported, in order. *)
Theorem score_report_exact outcomes :
  0 <= (score_report outcomes).1 <= 100 /\
  (score_report outcomes).1 = (score_report (List.filter (fun ow => applicable ow.1) outcomes)).1 /\
  (List.filter (fun ow => applicable ow.1) outcomes = [] -> (score_report outcomes).1 = 0) /\
  (fun c => (qc_outcome c, qc_weight c)) <$> (score_report outcomes).2 = outcomes /\
  Forall (fun c => applicable (qc_outcome c) = false -> qc_contribution c = f64_zero)
    (score_report outcomes).2.
Proof.
  assert (Hskip : (score_report outcomes).1 =
                  (score_report (List.filter (fun ow => applicable ow.1) outcomes)).1).
  { unfold score_report. cbn [fst]. apply score_of_total. rewrite <- !list_fmap_compose.
    set (ap := List.filter _ outcomes) at 1 2.
    replace (List.filter (fun ow => applicable ow.1) ap) with ap.
    2: { unfold ap. symmetry. apply List.forallb_filter_id, forallb_forall.
         by intros x [_ Hx]%List.filter_In. }
    apply (fsum_skip (fun ow => applicable ow.1)). intros [o w] _ Ho. cbn in *.
    unfold contribution. by rewrite Ho. }
  split; [|split; [exact Hskip|split_and!]].
  - unfold score_report. cbn [fst]. unfold f64_to_u8.
    match goal with |- context [fround ?t] => pose proof (round_clamp_bounds t 100 ltac:(lia)) end.
    unfold f64_hundred. lia.
  - intros E. by rewrite Hskip, E.
  - unfold score_report. cbn [snd]. rewrite <- list_fmap_compose. etrans; [|apply list_fmap_id].
    apply list_fmap_ext. by intros ? [].
  - unfold score_report. cbn [snd]. apply Forall_fmap, Forall_forall. intros [o w] _. cbn.
    unfold contribution. by intros ->.
Qed.
