(* ===== verification/IngestApply.v ===== *)
(** * Resolving and applying metadata picks

    Models the pure part of [src/crates/ingest/src/providers/apply.rs]: validation of a
    recipe of field picks, its resolution against candidate rows under locks and a merge
    strategy, and the change it makes to a metadata row.  A stored number is
    [rust_decimal]'s type, reached through the class [DecimalOps]
    ([Decimal::try_from] is [Decimal::from_f64] with an error). *)

From stdpp Require Import base gmap list strings sorting.
From Stdlib Require Import ZArith Lia SpecFloat.
From S2P Require Import Prelude Float64 ReadingState IngestContract.

#[local] Open Scope Z_scope.
#[local] Open Scope coppice_scope.

(** ** Rows *)

Section rows.
Context `{DecimalOps}.

(** The columns of [media_metadata] that ingest reads or writes. *)
Record MediaMetadata := {
  mm_title : option str;
  mm_title_sort : option str;
  mm_series : option str;
  mm_number : option Decimal;
  mm_writers : option str;
  mm_narrators : option str;
  mm_publisher : option str;
  mm_year : option Z;
  mm_month : option Z;
  mm_day : option Z;
  mm_language : option str;
  mm_summary : option str;
  mm_genres : option str;
  mm_identifier_isbn : option str;
  mm_age_rating : option Z;
  mm_page_count : option Z;
  mm_locked_fields : option value;
}.

(** [ActiveModel] defaults: nothing set. *)
Definition empty_metadata : MediaMetadata :=
  {| mm_title := None; mm_title_sort := None; mm_series := None; mm_number := None;
     mm_writers := None; mm_narrators := None; mm_publisher := None; mm_year := None;
     mm_month := None; mm_day := None; mm_language := None; mm_summary := None;
     mm_genres := None; mm_identifier_isbn := None; mm_age_rating := None;
     mm_page_count := None; mm_locked_fields := None |}.

End rows.

Record CandidateModel := {
  cm_id : str;
  cm_drop_item_id : option str;
  cm_media_id : option str;
  cm_provider_id : str;
  cm_confidence : f64;
  cm_source_sha256 : str;
  cm_fields : value;
}.

(** [serde_json::from_value::<BTreeMap<MetadataField, Value>>]. *)
Definition parse_fields (v : value) : option (gmap MetadataField value) :=
  match v with
  | JObject kvs =>
      list_to_map <$> mapM (fun kv : str * value => (fun f => (f, kv.2)) <$> field_of_name kv.1) kvs
  | _ => None
  end.

Inductive MergeStrategy :=
| FillGaps | PreferExternal | PreferExternalAndMergeLists | FillAndMergeLists.

Record ResolvedFields := {
  rf_values : gmap MetadataField value;
  rf_cleared : list MetadataField;
}.

Definition STORABLE_FIELDS : list MetadataField :=
  [Title; SortTitle; Series; SeriesIndex; Authors; Narrators; Publisher; PublishedDate; Language;
   Summary; Tags; CoverUrl; Genres; Isbn; AgeRating; PageCount].

Definition storable (f : MetadataField) : bool := bool_decide (f ∈ STORABLE_FIELDS).

Inductive ApplyError :=
| UnsupportedFields (fields : list MetadataField)
| InvalidPick (message : str)
| CandidateNotFound (candidate_id : str)
| CandidateMismatch (candidate_id : str)
| CandidateFieldMissing (candidate_id : str) (field : MetadataField)
| InvalidValue (field : MetadataField).

(** The derived [Debug] name of a field. *)
Definition field_debug (f : MetadataField) : str :=
  lit match f with
      | Title => "Title" | SortTitle => "SortTitle" | Series => "Series"
      | SeriesIndex => "SeriesIndex" | Authors => "Authors" | Narrators => "Narrators"
      | Publisher => "Publisher" | PublishedDate => "PublishedDate" | Language => "Language"
      | Summary => "Summary" | Tags => "Tags" | Genres => "Genres" | Isbn => "Isbn"
      | Identifiers => "Identifiers" | AgeRating => "AgeRating" | PageCount => "PageCount"
      | CoverUrl => "CoverUrl" | Status => "Status"
      end.

(** ** Values *)

Definition non_empty (s : str) : bool := negb (bool_decide (trim s = [])).

Definition cover_url (v : value) : option str :=
  match as_str v orelse (json_get (lit "url") v ≫= as_str) with
  | Some url => if non_empty url then Some url else None
  | None => None
  end.

Definition is_list_field (f : MetadataField) : bool :=
  match f with Authors | Narrators | Tags | Genres => true | _ => false end.

Definition valid_value (f : MetadataField) (v : value) : bool :=
  match f with
  | Title | SortTitle | Series | Publisher | Language | Summary | Isbn | Status
  | PublishedDate => is_string v
  | CoverUrl => negb (is_none (cover_url v))
  | SeriesIndex => is_some_and (as_f64 v) is_finite
  | AgeRating | PageCount => negb (is_none (as_i64 v))
  | Authors | Narrators | Tags | Genres => is_some_and (as_array v) (forallb is_string)
  | Identifiers => is_object v
  end.

Definition validate_value (f : MetadataField) (v : value) : result unit ApplyError :=
  if valid_value f v then Ok tt else Err (InvalidValue f).

(** ** Validation of a recipe *)

(** A [BTreeSet] of fields, collected. *)
Definition field_set (fs : list MetadataField) : list MetadataField :=
  List.filter (fun f => bool_decide (f ∈ fs)) declared_fields.

Fixpoint check_picks (seen : list MetadataField) (picks : list FieldPick) : result unit ApplyError :=
  match picks with
  | [] => Ok tt
  | pick :: rest =>
      early (bool_decide (pick_field pick ∈ seen))
        (InvalidPick (lit "field " ++ field_debug (pick_field pick) ++ lit " appears more than once"))
        (let? _ :=
           match pick with
           | KeepExisting _ | Clear _ => Ok tt
           | Candidate _ candidate_id =>
               early (negb (non_empty candidate_id))
                 (InvalidPick (lit "CANDIDATE requires a non-empty candidateId")) (Ok tt)
           | Manual field v =>
               early (is_null v)
                 (InvalidPick (lit "MANUAL for " ++ field_debug field ++
                    lit " requires a non-null value; use CLEAR to clear"))
                 (validate_value field v)
           end in
         check_picks (pick_field pick :: seen) rest)
  end.

Definition validate_picks (picks : list FieldPick) : result unit ApplyError :=
  let unsupported := List.filter (fun f => negb (storable f)) (pick_field <$> picks) in
  early (negb (bool_decide (unsupported = []))) (UnsupportedFields (field_set unsupported))
    (check_picks [] picks).

Definition validate_resolved_fields (resolved : ResolvedFields) : result unit ApplyError :=
  let unsupported :=
    List.filter (fun f => negb (storable f)) ((btree_iter (rf_values resolved)).*1 ++ rf_cleared resolved) in
  early (negb (bool_decide (unsupported = []))) (UnsupportedFields (field_set unsupported)) (Ok tt).

(** ** Resolution *)

Definition context_of (c : CandidateModel) : option str * option str * str :=
  (cm_drop_item_id c, cm_media_id c, cm_source_sha256 c).

Definition candidate_context (candidates : list CandidateModel)
  : result (option (option str * option str * str)) ApplyError :=
  match candidates with
  | [] => Ok None
  | first :: rest =>
      match List.find (fun c => negb (bool_decide (context_of c = context_of first))) rest with
      | Some c => Err (CandidateMismatch (cm_id c))
      | None =>
          early (is_none (cm_drop_item_id first) && is_none (cm_media_id first))
            (CandidateMismatch (cm_id first)) (Ok (Some (context_of first)))
      end
  end.

(** A [BTreeSet<String>], collected: sorted and without duplicates. *)
Definition string_set (l : list str) : list str :=
  merge_sort str_ord (remove_dups l).

Section resolution.
Context `{DecimalOps}.

Definition existing_list (f : MetadataField) (model : MediaMetadata) : option (list str) :=
  let column :=
    match f with
    | Authors => mm_writers model
    | Narrators => mm_narrators model
    | Genres => mm_genres model
    | _ => None
    end in
  column ≫= fun column =>
    let values := List.filter (fun s => negb (bool_decide (s = []))) (trim <$> split_on (Z.eqb 44) column) in
    then_some (negb (bool_decide (values = []))) values.

Definition field_is_present (f : MetadataField) (model : MediaMetadata) : bool :=
  match f with
  | Title => is_some_and (mm_title model) non_empty
  | SortTitle => is_some_and (mm_title_sort model) non_empty
  | Series => is_some_and (mm_series model) non_empty
  | SeriesIndex => negb (is_none (mm_number model))
  | Authors => is_some_and (mm_writers model) non_empty
  | Narrators => is_some_and (mm_narrators model) non_empty
  | Publisher => is_some_and (mm_publisher model) non_empty
  | PublishedDate =>
      negb (is_none (mm_year model)) || negb (is_none (mm_month model)) || negb (is_none (mm_day model))
  | Language => is_some_and (mm_language model) non_empty
  | Summary => is_some_and (mm_summary model) non_empty
  | Tags => false
  | Genres => is_some_and (mm_genres model) non_empty
  | Isbn => is_some_and (mm_identifier_isbn model) non_empty
  | AgeRating => negb (is_none (mm_age_rating model))
  | PageCount => negb (is_none (mm_page_count model))
  | CoverUrl | Identifiers | Status => false
  end.

Definition should_apply_candidate (f : MetadataField) (existing : option MediaMetadata)
    (strategy : MergeStrategy) : bool :=
  match existing with
  | None => true
  | Some existing =>
      match strategy with
      | FillGaps | FillAndMergeLists => negb (field_is_present f existing)
      | PreferExternal | PreferExternalAndMergeLists => true
      end
  end.

Definition merges_lists (strategy : MergeStrategy) : bool :=
  match strategy with FillAndMergeLists | PreferExternalAndMergeLists => true | _ => false end.

Definition merge_candidate_value (f : MetadataField) (v : value) (existing : option MediaMetadata)
    (strategy : MergeStrategy) : result value ApplyError :=
  if negb (merges_lists strategy) || negb (is_list_field f) then Ok v
  else
    match existing ≫= existing_list f with
    | None => Ok v
    | Some stored =>
        match as_array v with
        | None => Err (InvalidValue f)
        | Some incoming =>
            match mapM as_str incoming with
            | None => Err (InvalidValue f)
            | Some items =>
                Ok (JArray (JString <$> string_set
                      (stored ++ List.filter (fun s => negb (bool_decide (s = []))) (trim <$> items))))
            end
        end
    end.

(** What one unlocked pick contributes: a value, a clear, or nothing. *)
Inductive PickEffect := Keep | SetTo (v : value) | ClearIt.

Definition resolve_pick (candidates : list CandidateModel) (existing : option MediaMetadata)
    (strategy : MergeStrategy) (pick : FieldPick) : result PickEffect ApplyError :=
  match pick with
  | KeepExisting _ => Ok Keep
  | Clear _ => Ok ClearIt
  | Manual _ v => Ok (SetTo v)
  | Candidate f candidate_id =>
      match List.find (fun c => bool_decide (cm_id c = candidate_id)) candidates with
      | None => Err (CandidateNotFound candidate_id)
      | Some candidate =>
          match parse_fields (cm_fields candidate) with
          | None => Err (CandidateMismatch candidate_id)
          | Some fields =>
              match fields !! f with
              | None => Err (CandidateFieldMissing candidate_id f)
              | Some v =>
                  let? _ := validate_value f v in
                  if should_apply_candidate f existing strategy then
                    let? v := merge_candidate_value f v existing strategy in Ok (SetTo v)
                  else Ok Keep
              end
          end
      end
  end.

Definition record_effect (f : MetadataField) (effect : PickEffect) (acc : ResolvedFields)
  : ResolvedFields :=
  match effect with
  | Keep => acc
  | SetTo v => {| rf_values := <[ f := v ]> (rf_values acc); rf_cleared := rf_cleared acc |}
  | ClearIt => {| rf_values := rf_values acc; rf_cleared := rf_cleared acc ++ [f] |}
  end.

(** The loop over the picks; a locked field emits nothing. *)
Fixpoint resolve_loop (candidates : list CandidateModel) (existing : option MediaMetadata)
    (locked : list MetadataField) (strategy : MergeStrategy) (picks : list FieldPick)
    (acc : ResolvedFields) : result ResolvedFields ApplyError :=
  match picks with
  | [] => Ok acc
  | pick :: rest =>
      if bool_decide (pick_field pick ∈ locked) then
        resolve_loop candidates existing locked strategy rest acc
      else
        let? effect := resolve_pick candidates existing strategy pick in
        resolve_loop candidates existing locked strategy rest
          (record_effect (pick_field pick) effect acc)
  end.

Definition no_fields : ResolvedFields := {| rf_values := ∅; rf_cleared := [] |}.

Definition resolve_picks_for_context (picks : list FieldPick) (candidates : list CandidateModel)
    (existing : option MediaMetadata) (locked : list MetadataField) (strategy : MergeStrategy)
    (expected_drop_item_id expected_source_sha256 : option str) : result ResolvedFields ApplyError :=
  let? _ := validate_picks picks in
  let? context := candidate_context candidates in
  let mismatch := CandidateMismatch (lit "selected candidates") in
  early (match expected_drop_item_id, context with
         | Some expected, Some (drop_item, _, _) => negb (bool_decide (drop_item = Some expected))
         | _, _ => false
         end) mismatch
    (early (match expected_source_sha256, context with
            | Some expected, Some (_, _, source) => negb (bool_decide (source = expected))
            | _, _ => false
            end) mismatch
       (resolve_loop candidates existing locked strategy picks no_fields)).

End resolution.

(** ** Application to a row *)

(** [i64 as i32] keeps the low 32 bits. *)
Definition as_i32 (n : Z) : Z := wrap_i32 n.

Definition list_strings (v : value) (f : MetadataField) : result (list str) ApplyError :=
  match as_array v ≫= mapM as_str with
  | Some items => Ok (trim <$> items)
  | None => Err (InvalidValue f)
  end.

Definition join_strings (v : value) (f : MetadataField) : result str ApplyError :=
  let? items := list_strings v f in Ok (str_join (lit ", ") items).

(** The parts of a date: a year, and a month and a day that parse or are dropped. *)
Definition parse_date (s : str) : result (Z * option Z * option Z) ApplyError :=
  let parts := split_on (Z.eqb 45) s in
  let invalid := Err (InvalidValue PublishedDate) in
  match parts !! 0%nat ≫= parse_i32 with
  | None => invalid
  | Some year =>
      let month := parts !! 1%nat ≫= parse_i32 in
      let day := parts !! 2%nat ≫= parse_i32 in
      let outside hi o := is_some_and o (fun n => negb ((1 <=? n) && (n <=? hi))) in
      if (3 <? length parts)%nat || outside 12 month then invalid
      else if outside 31 day then invalid
      else Ok (year, month, day)
  end.

Section application.
Context `{DecimalOps}.

Definition set_title (m : MediaMetadata) (c : option str) : MediaMetadata :=
  {| mm_title := c; mm_title_sort := mm_title_sort m; mm_series := mm_series m;
     mm_number := mm_number m; mm_writers := mm_writers m; mm_narrators := mm_narrators m;
     mm_publisher := mm_publisher m; mm_year := mm_year m; mm_month := mm_month m;
     mm_day := mm_day m; mm_language := mm_language m; mm_summary := mm_summary m;
     mm_genres := mm_genres m; mm_identifier_isbn := mm_identifier_isbn m;
     mm_age_rating := mm_age_rating m; mm_page_count := mm_page_count m;
     mm_locked_fields := mm_locked_fields m |}.

Definition set_title_sort (m : MediaMetadata) (c : option str) : MediaMetadata :=
  {| mm_title := mm_title m; mm_title_sort := c; mm_series := mm_series m;
     mm_number := mm_number m; mm_writers := mm_writers m; mm_narrators := mm_narrators m;
     mm_publisher := mm_publisher m; mm_year := mm_year m; mm_month := mm_month m;
     mm_day := mm_day m; mm_language := mm_language m; mm_summary := mm_summary m;
     mm_genres := mm_genres m; mm_identifier_isbn := mm_identifier_isbn m;
     mm_age_rating := mm_age_rating m; mm_page_count := mm_page_count m;
     mm_locked_fields := mm_locked_fields m |}.

Definition set_series (m : MediaMetadata) (c : option str) : MediaMetadata :=
  {| mm_title := mm_title m; mm_title_sort := mm_title_sort m; mm_series := c;
     mm_number := mm_number m; mm_writers := mm_writers m; mm_narrators := mm_narrators m;
     mm_publisher := mm_publisher m; mm_year := mm_year m; mm_month := mm_month m;
     mm_day := mm_day m; mm_language := mm_language m; mm_summary := mm_summary m;
     mm_genres := mm_genres m; mm_identifier_isbn := mm_identifier_isbn m;
     mm_age_rating := mm_age_rating m; mm_page_count := mm_page_count m;
     mm_locked_fields := mm_locked_fields m |}.

Definition set_number (m : MediaMetadata) (c : option Decimal) : MediaMetadata :=
  {| mm_title := mm_title m; mm_title_sort := mm_title_sort m; mm_series := mm_series m;
     mm_number := c; mm_writers := mm_writers m; mm_narrators := mm_narrators m;
     mm_publisher := mm_publisher m; mm_year := mm_year m; mm_month := mm_month m;
     mm_day := mm_day m; mm_language := mm_language m; mm_summary := mm_summary m;
     mm_genres := mm_genres m; mm_identifier_isbn := mm_identifier_isbn m;
     mm_age_rating := mm_age_rating m; mm_page_count := mm_page_count m;
     mm_locked_fields := mm_locked_fields m |}.

Definition set_writers (m : MediaMetadata) (c : option str) : MediaMetadata :=
  {| mm_title := mm_title m; mm_title_sort := mm_title_sort m; mm_series := mm_series m;
     mm_number := mm_number m; mm_writers := c; mm_narrators := mm_narrators m;
     mm_publisher := mm_publisher m; mm_year := mm_year m; mm_month := mm_month m;
     mm_day := mm_day m; mm_language := mm_language m; mm_summary := mm_summary m;
     mm_genres := mm_genres m; mm_identifier_isbn := mm_identifier_isbn m;
     mm_age_rating := mm_age_rating m; mm_page_count := mm_page_count m;
     mm_locked_fields := mm_locked_fields m |}.

Definition set_narrators (m : MediaMetadata) (c : option str) : MediaMetadata :=
  {| mm_title := mm_title m; mm_title_sort := mm_title_sort m; mm_series := mm_series m;
     mm_number := mm_number m; mm_writers := mm_writers m; mm_narrators := c;
     mm_publisher := mm_publisher m; mm_year := mm_year m; mm_month := mm_month m;
     mm_day := mm_day m; mm_language := mm_language m; mm_summary := mm_summary m;
     mm_genres := mm_genres m; mm_identifier_isbn := mm_identifier_isbn m;
     mm_age_rating := mm_age_rating m; mm_page_count := mm_page_count m;
     mm_locked_fields := mm_locked_fields m |}.

Definition set_publisher (m : MediaMetadata) (c : option str) : MediaMetadata :=
  {| mm_title := mm_title m; mm_title_sort := mm_title_sort m; mm_series := mm_series m;
     mm_number := mm_number m; mm_writers := mm_writers m; mm_narrators := mm_narrators m;
     mm_publisher := c; mm_year := mm_year m; mm_month := mm_month m; mm_day := mm_day m;
     mm_language := mm_language m; mm_summary := mm_summary m; mm_genres := mm_genres m;
     mm_identifier_isbn := mm_identifier_isbn m; mm_age_rating := mm_age_rating m;
     mm_page_count := mm_page_count m; mm_locked_fields := mm_locked_fields m |}.

Definition set_language (m : MediaMetadata) (c : option str) : MediaMetadata :=
  {| mm_title := mm_title m; mm_title_sort := mm_title_sort m; mm_series := mm_series m;
     mm_number := mm_number m; mm_writers := mm_writers m; mm_narrators := mm_narrators m;
     mm_publisher := mm_publisher m; mm_year := mm_year m; mm_month := mm_month m;
     mm_day := mm_day m; mm_language := c; mm_summary := mm_summary m; mm_genres := mm_genres m;
     mm_identifier_isbn := mm_identifier_isbn m; mm_age_rating := mm_age_rating m;
     mm_page_count := mm_page_count m; mm_locked_fields := mm_locked_fields m |}.

Definition set_summary (m : MediaMetadata) (c : option str) : MediaMetadata :=
  {| mm_title := mm_title m; mm_title_sort := mm_title_sort m; mm_series := mm_series m;
     mm_number := mm_number m; mm_writers := mm_writers m; mm_narrators := mm_narrators m;
     mm_publisher := mm_publisher m; mm_year := mm_year m; mm_month := mm_month m;
     mm_day := mm_day m; mm_language := mm_language m; mm_summary := c; mm_genres := mm_genres m;
     mm_identifier_isbn := mm_identifier_isbn m; mm_age_rating := mm_age_rating m;
     mm_page_count := mm_page_count m; mm_locked_fields := mm_locked_fields m |}.

Definition set_genres (m : MediaMetadata) (c : option str) : MediaMetadata :=
  {| mm_title := mm_title m; mm_title_sort := mm_title_sort m; mm_series := mm_series m;
     mm_number := mm_number m; mm_writers := mm_writers m; mm_narrators := mm_narrators m;
     mm_publisher := mm_publisher m; mm_year := mm_year m; mm_month := mm_month m;
     mm_day := mm_day m; mm_language := mm_language m; mm_summary := mm_summary m; mm_genres := c;
     mm_identifier_isbn := mm_identifier_isbn m; mm_age_rating := mm_age_rating m;
     mm_page_count := mm_page_count m; mm_locked_fields := mm_locked_fields m |}.

Definition set_identifier_isbn (m : MediaMetadata) (c : option str) : MediaMetadata :=
  {| mm_title := mm_title m; mm_title_sort := mm_title_sort m; mm_series := mm_series m;
     mm_number := mm_number m; mm_writers := mm_writers m; mm_narrators := mm_narrators m;
     mm_publisher := mm_publisher m; mm_year := mm_year m; mm_month := mm_month m;
     mm_day := mm_day m; mm_language := mm_language m; mm_summary := mm_summary m;
     mm_genres := mm_genres m; mm_identifier_isbn := c; mm_age_rating := mm_age_rating m;
     mm_page_count := mm_page_count m; mm_locked_fields := mm_locked_fields m |}.

Definition set_age_rating (m : MediaMetadata) (c : option Z) : MediaMetadata :=
  {| mm_title := mm_title m; mm_title_sort := mm_title_sort m; mm_series := mm_series m;
     mm_number := mm_number m; mm_writers := mm_writers m; mm_narrators := mm_narrators m;
     mm_publisher := mm_publisher m; mm_year := mm_year m; mm_month := mm_month m;
     mm_day := mm_day m; mm_language := mm_language m; mm_summary := mm_summary m;
     mm_genres := mm_genres m; mm_identifier_isbn := mm_identifier_isbn m; mm_age_rating := c;
     mm_page_count := mm_page_count m; mm_locked_fields := mm_locked_fields m |}.

Definition set_page_count (m : MediaMetadata) (c : option Z) : MediaMetadata :=
  {| mm_title := mm_title m; mm_title_sort := mm_title_sort m; mm_series := mm_series m;
     mm_number := mm_number m; mm_writers := mm_writers m; mm_narrators := mm_narrators m;
     mm_publisher := mm_publisher m; mm_year := mm_year m; mm_month := mm_month m;
     mm_day := mm_day m; mm_language := mm_language m; mm_summary := mm_summary m;
     mm_genres := mm_genres m; mm_identifier_isbn := mm_identifier_isbn m;
     mm_age_rating := mm_age_rating m; mm_page_count := c;
     mm_locked_fields := mm_locked_fields m |}.

Definition set_date (m : MediaMetadata) (year month day : option Z) : MediaMetadata :=
  {| mm_title := mm_title m; mm_title_sort := mm_title_sort m; mm_series := mm_series m;
     mm_number := mm_number m; mm_writers := mm_writers m; mm_narrators := mm_narrators m;
     mm_publisher := mm_publisher m; mm_year := year; mm_month := month; mm_day := day;
     mm_language := mm_language m; mm_summary := mm_summary m; mm_genres := mm_genres m;
     mm_identifier_isbn := mm_identifier_isbn m; mm_age_rating := mm_age_rating m;
     mm_page_count := mm_page_count m; mm_locked_fields := mm_locked_fields m |}.

Definition apply_value (m : MediaMetadata) (f : MetadataField) (v : value)
  : result MediaMetadata ApplyError :=
  let? _ := validate_value f v in
  match f with
  | Title => Ok (set_title m (as_str v))
  | SortTitle => Ok (set_title_sort m (as_str v))
  | Series => Ok (set_series m (as_str v))
  | SeriesIndex => Ok (set_number m (as_f64 v ≫= decimal_of_f64))
  | Authors => let? s := join_strings v f in Ok (set_writers m (Some s))
  | Narrators => let? s := join_strings v f in Ok (set_narrators m (Some s))
  | Publisher => Ok (set_publisher m (as_str v))
  | PublishedDate =>
      let? (year, month, day) := parse_date (default [] (as_str v)) in
      Ok (set_date m (Some year) month day)
  | Language => Ok (set_language m (as_str v))
  | Summary => Ok (set_summary m (as_str v))
  | Genres => let? s := join_strings v f in Ok (set_genres m (Some s))
  | Isbn => Ok (set_identifier_isbn m (as_str v))
  | AgeRating => Ok (set_age_rating m (as_i32 <$> as_i64 v))
  | PageCount => Ok (set_page_count m (as_i32 <$> as_i64 v))
  | Tags | CoverUrl | Identifiers | Status => Ok m
  end.

Definition clear_value (m : MediaMetadata) (f : MetadataField) : MediaMetadata :=
  match f with
  | Title => set_title m None
  | SortTitle => set_title_sort m None
  | Series => set_series m None
  | SeriesIndex => set_number m None
  | Authors => set_writers m None
  | Narrators => set_narrators m None
  | Publisher => set_publisher m None
  | PublishedDate => set_date m None None None
  | Language => set_language m None
  | Summary => set_summary m None
  | Genres => set_genres m None
  | Isbn => set_identifier_isbn m None
  | AgeRating => set_age_rating m None
  | PageCount => set_page_count m None
  | Tags | CoverUrl | Identifiers | Status => m
  end.

Fixpoint apply_values (m : MediaMetadata) (values : list (MetadataField * value))
  : result MediaMetadata ApplyError :=
  match values with
  | [] => Ok m
  | (f, v) :: rest => let? m := apply_value m f v in apply_values m rest
  end.

(** The row part of [apply_to_media_txn_with_context_and_cover]. *)
Definition apply_row (existing : option MediaMetadata) (resolved : ResolvedFields)
  : result MediaMetadata ApplyError :=
  let? _ := validate_resolved_fields resolved in
  let? m := apply_values (default empty_metadata existing) (btree_iter (rf_values resolved)) in
  Ok (fold_left clear_value (rf_cleared resolved) m).

End application.

(** ** Validation accepts exactly the well-formed recipes *)

Definition pick_ok (p : FieldPick) : Prop :=
  match p with
  | KeepExisting _ | Clear _ => True
  | Candidate _ candidate_id => non_empty candidate_id = true
  | Manual f v => is_null v = false /\ valid_value f v = true
  end.

Lemma validate_value_Ok f v : validate_value f v = Ok tt <-> valid_value f v = true.
Proof. unfold validate_value. by destruct (valid_value f v). Qed.

Lemma check_picks_Ok seen picks :
  check_picks seen picks = Ok tt <->
  NoDup (pick_field <$> picks) /\ Forall (fun p => pick_field p ∉ seen) picks /\ Forall pick_ok picks.
Proof.
  revert seen. induction picks as [|p picks IH]; intros seen; simpl.
  { split; [|done]. intros _. split_and!; constructor. }
  rewrite early_Ok, bool_decide_eq_false, result_bind_Ok, NoDup_cons, !Forall_cons.
  assert (Hp : forall (r : result unit ApplyError) (k : result unit ApplyError),
    (exists a, r = Ok a /\ k = Ok tt) <-> r = Ok tt /\ k = Ok tt).
  { intros r k. split; [intros ([] & ? & ?)|intros [? ?]; exists tt]; done. }
  rewrite Hp, IH.
  assert (Hseen : Forall (fun q => pick_field q ∉ pick_field p :: seen) picks <->
                  (pick_field p ∉ (pick_field <$> picks)) /\ Forall (fun q => pick_field q ∉ seen) picks).
  { rewrite !Forall_forall, list_elem_of_fmap. setoid_rewrite not_elem_of_cons. split.
    - intros Hq. split; [|intros q Hin; by apply Hq]. intros (q & E & Hin). by destruct (Hq q Hin).
    - intros [Hp' Hs] q Hin. split; [|by apply Hs]. intros E. apply Hp'. by exists q. }
  rewrite Hseen. destruct p as [f|f id|f v|f]; cbn [pick_ok pick_field].
  - tauto.
  - rewrite early_Ok, negb_false_iff. tauto.
  - rewrite early_Ok, validate_value_Ok. tauto.
  - tauto.
Qed.

Lemma early_Ok_2 {A E} c d (e1 e2 : E) (k : result A E) a :
  early c e1 (early d e2 k) = Ok a -> c = false /\ d = false /\ k = Ok a.
Proof. by intros [-> [-> ?]%early_Ok]%early_Ok. Qed.

(** A string that trims to nothing splits into pieces that do. *)
Lemma split_on_Forall (P : Z -> Prop) p s : Forall P s -> Forall (Forall P) (split_on p s).
Proof.
  induction 1 as [|c s Hc Hs IH]; simpl; [by repeat constructor|].
  destruct (p c); [by constructor|]. inversion IH; subst; by repeat constructor.
Qed.

Lemma blank_pieces p s :
  trim s = [] -> List.filter (fun q : str => negb (bool_decide (q = []))) (trim <$> split_on p s) = [].
Proof.
  intros H%trim_nil. apply (split_on_Forall _ p) in H.
  induction H as [|q qs Hq _ IH]; [done|]. cbn. rewrite (proj2 (trim_nil q) Hq). exact IH.
Qed.

Lemma filter_nil_Forall {A} (p : A -> bool) l :
  List.filter p l = [] <-> Forall (fun x => p x = false) l.
Proof.
  induction l as [|x l IH]; simpl; [done|]. rewrite Forall_cons, <- IH.
  destruct (p x); naive_solver.
Qed.

Lemma validate_picks_Ok picks :
  validate_picks picks = Ok tt <->
  NoDup (pick_field <$> picks) /\ Forall (fun p => pick_field p ∈ STORABLE_FIELDS /\ pick_ok p) picks.
Proof.
  unfold validate_picks. rewrite early_Ok, negb_false_iff, bool_decide_eq_true, filter_nil_Forall.
  rewrite check_picks_Ok, Forall_fmap, Forall_and.
  assert (Hs : Forall ((fun f => negb (storable f) = false) ∘ pick_field) picks <->
               Forall (fun p => pick_field p ∈ STORABLE_FIELDS) picks).
  { apply Forall_iff. intros p. unfold storable. cbn. by rewrite negb_false_iff, bool_decide_eq_true. }
  rewrite Hs. assert (Forall (fun p => pick_field p ∉ []) picks) by (apply Forall_true; intros; apply not_elem_of_nil).
  naive_solver.
Qed.

(** ** Resolution *)

Section resolution_facts.
Context `{DecimalOps}.
Implicit Types (existing : option MediaMetadata) (candidates : list CandidateModel).

(** What a resolved recipe says about a field [f] that some pick addresses. *)
Definition resolved_effect candidates existing (locked : list MetadataField) strategy
    (picks : list FieldPick) f effect : Prop :=
  exists p, p ∈ picks /\ pick_field p = f /\ (f ∉ locked) /\
    resolve_pick candidates existing strategy p = Ok effect.

Lemma resolved_effect_cons candidates existing locked strategy p picks f effect :
  resolved_effect candidates existing locked strategy (p :: picks) f effect <->
  (pick_field p = f /\ (f ∉ locked) /\ resolve_pick candidates existing strategy p = Ok effect) \/
  resolved_effect candidates existing locked strategy picks f effect.
Proof.
  unfold resolved_effect. split.
  - intros (q & [->|Hq]%elem_of_cons & Hrest); [by left|right; by exists q].
  - intros [Hp|(q & Hq & Hrest)]; [exists p|exists q]; (split; [|done]); [by left|by right].
Qed.

Lemma resolved_effect_nil candidates existing locked strategy f effect :
  ~ resolved_effect candidates existing locked strategy [] f effect.
Proof. intros (p & Hp & _). by apply not_elem_of_nil in Hp. Qed.

Lemma resolve_loop_values candidates existing locked strategy picks acc r :
  resolve_loop candidates existing locked strategy picks acc = Ok r ->
  NoDup (pick_field <$> picks) ->
  (forall f, f ∈ (pick_field <$> picks) -> rf_values acc !! f = None) ->
  (forall p, p ∈ picks -> pick_field p ∉ locked ->
     exists effect, resolve_pick candidates existing strategy p = Ok effect) /\
  (forall f v, rf_values r !! f = Some v <->
     rf_values acc !! f = Some v \/ resolved_effect candidates existing locked strategy picks f (SetTo v)) /\
  (forall f, f ∈ rf_cleared r <->
     f ∈ rf_cleared acc \/ resolved_effect candidates existing locked strategy picks f ClearIt).
Proof.
  revert acc. induction picks as [|p picks IH]; intros acc Hr Hnd Hacc; simpl in Hr.
  { injection Hr as ->. split_and!; [intros p Hp; by apply not_elem_of_nil in Hp| |]; intros;
      (split; [by left|]); intros [?|Hx]; [done|by apply resolved_effect_nil in Hx|done|by apply resolved_effect_nil in Hx]. }
  rewrite fmap_cons, NoDup_cons in Hnd. destruct Hnd as [Hp Hnd]. case_bool_decide as Hl.
  - destruct (IH _ Hr Hnd) as (H1 & H2 & H3).
    { intros f Hf. apply Hacc. rewrite fmap_cons. by right. }
    split_and!.
    + intros q [->|Hq]%elem_of_cons Hql; [done|]. by apply H1.
    + intros f v. rewrite H2, resolved_effect_cons. split; [tauto|].
      intros [?|[(<- & ? & _)|?]]; [by left|done|by right].
    + intros f. rewrite H3, resolved_effect_cons. split; [tauto|].
      intros [?|[(<- & ? & _)|?]]; [by left|done|by right].
  - apply result_bind_Ok in Hr as (effect & He & Hr).
    assert (Hnone : rf_values acc !! pick_field p = None) by (apply Hacc; rewrite fmap_cons; by left).
    destruct (IH _ Hr Hnd) as (H1 & H2 & H3).
    { intros f Hf. assert (f <> pick_field p) by (by intros ->).
      assert (rf_values acc !! f = None) by (apply Hacc; rewrite fmap_cons; by right).
      destruct effect; cbn; [done| |done]. by rewrite lookup_insert_ne. }
    assert (Heff : forall e, resolve_pick candidates existing strategy p = Ok e <-> e = effect)
      by (intros e; rewrite He; split; [by intros [= ->]|by intros ->]).
    split_and!.
    + intros q [->|Hq]%elem_of_cons Hql; [by eexists|]. by apply H1.
    + intros f v. rewrite H2, resolved_effect_cons, Heff.
      destruct effect as [|w|]; cbn [record_effect rf_values]; try (split; [tauto|by intros [?|[(_ & _ & [=])|?]]; [left|right]]).
      rewrite lookup_insert_Some. split.
      * intros [[[<- <-]|[? ?]]|?]; [right; left; done|by left|by right; right].
      * intros [Hv|[(<- & _ & [= ->])|?]]; [|by left; left|by right].
        left. right. split; [|done]. intros <-. congruence.
    + intros f. rewrite H3, resolved_effect_cons, Heff.
      destruct effect as [|w|]; cbn [record_effect rf_cleared]; try (split; [tauto|by intros [?|[(_ & _ & [=])|?]]; [left|right]]).
      rewrite elem_of_app, list_elem_of_singleton. split.
      * intros [[?| ->]|?]; [by left|right; left; done|by right; right].
      * intros [?|[(<- & _ & _)|?]]; [by left; left|by left; right|by right].
Qed.

Lemma resolve_loop_total candidates existing locked strategy picks acc :
  (forall p, p ∈ picks -> pick_field p ∉ locked ->
     exists effect, resolve_pick candidates existing strategy p = Ok effect) ->
  exists r, resolve_loop candidates existing locked strategy picks acc = Ok r.
Proof.
  revert acc. induction picks as [|p picks IH]; intros acc Hall; simpl; [by eexists|].
  assert (Hr : forall q, q ∈ picks -> pick_field q ∉ locked ->
    exists effect, resolve_pick candidates existing strategy q = Ok effect)
    by (intros; apply Hall; [by right|done]).
  case_bool_decide as Hl; [by apply IH|].
  destruct (Hall p ltac:(by left) Hl) as [effect ->]. by apply IH.
Qed.

(** The candidates all describe one target and one digest, the expected ones. *)
Definition context_ok candidates (drop_item source : option str) : Prop :=
  forall c, c ∈ candidates ->
    (forall c', c' ∈ candidates -> context_of c' = context_of c) /\
    (cm_drop_item_id c <> None \/ cm_media_id c <> None) /\
    (forall d, drop_item = Some d -> cm_drop_item_id c = Some d) /\
    (forall s, source = Some s -> cm_source_sha256 c = s).

Lemma candidate_context_Ok candidates drop_item source :
  (exists context, candidate_context candidates = Ok context /\
    match drop_item, context with
    | Some d, Some (d', _, _) => negb (bool_decide (d' = Some d)) | _, _ => false end = false /\
    match source, context with
    | Some s, Some (_, _, s') => negb (bool_decide (s' = s)) | _, _ => false end = false) <->
  context_ok candidates drop_item source.
Proof.
  unfold candidate_context, context_ok. destruct candidates as [|first rest].
  { split; [intros _ c Hc; by apply not_elem_of_nil in Hc|]. intros _. exists None.
    split_and!; [done|by destruct drop_item|by destruct source]. }
  destruct (List.find _ rest) as [bad|] eqn:Ef.
  - apply find_Some_iff in Ef as [Hbad Hne]. rewrite negb_true_iff, bool_decide_eq_false in Hne.
    split; [by intros (? & [=] & _)|]. intros Hok. destruct Hne.
    apply (proj1 (Hok first ltac:(by left))). by right.
  - rewrite find_None_iff in Ef. setoid_rewrite negb_false_iff in Ef. setoid_rewrite bool_decide_eq_true in Ef.
    assert (Hall : forall c, c ∈ first :: rest -> context_of c = context_of first)
      by (intros c [->|Hc]%elem_of_cons; auto).
    split.
    + intros (context & [Hn [= <-]]%early_Ok & Hd & Hs) c Hc. pose proof (Hall c Hc) as Hcf.
      unfold context_of in Hcf, Hd, Hs. injection Hcf as E1 E2 E3. rewrite E1, E2, E3.
      split_and!.
      * intros c' Hc'. rewrite Hall by done. unfold context_of. by rewrite E1, E2, E3.
      * by destruct (cm_drop_item_id first), (cm_media_id first); auto.
      * intros d ->. by rewrite negb_false_iff, bool_decide_eq_true in Hd.
      * intros d ->. by rewrite negb_false_iff, bool_decide_eq_true in Hs.
    + intros Hok. destruct (Hok first ltac:(by left)) as (_ & Hn & Hd & Hs).
      exists (Some (context_of first)). split_and!.
      * apply early_Ok. split; [|done].
        by destruct (cm_drop_item_id first), (cm_media_id first), Hn.
      * unfold context_of. destruct drop_item as [d|]; [|done]. by rewrite bool_decide_true by auto.
      * unfold context_of. destruct source as [d|]; [|done]. by rewrite bool_decide_true by auto.
Qed.

Lemma resolve_picks_inv picks candidates existing locked strategy drop_item source r :
  resolve_picks_for_context picks candidates existing locked strategy drop_item source = Ok r ->
  validate_picks picks = Ok tt /\ context_ok candidates drop_item source /\
  resolve_loop candidates existing locked strategy picks no_fields = Ok r.
Proof.
  unfold resolve_picks_for_context.
  intros ([] & Hv & (ctx & Hc & (Hd & Hs & Hr)%early_Ok_2)%result_bind_Ok)%result_bind_Ok.
  split_and!; [done| |done]. apply candidate_context_Ok. by exists ctx.
Qed.

(** A resolved recipe, field by field. *)
Lemma resolve_picks_effects picks candidates existing locked strategy drop_item source r :
  resolve_picks_for_context picks candidates existing locked strategy drop_item source = Ok r ->
  (forall f v, rf_values r !! f = Some v <->
     resolved_effect candidates existing locked strategy picks f (SetTo v)) /\
  (forall f, f ∈ rf_cleared r <-> resolved_effect candidates existing locked strategy picks f ClearIt).
Proof.
  intros ([Hnd Hall]%validate_picks_Ok & _ & Hr)%resolve_picks_inv.
  destruct (resolve_loop_values _ _ _ _ _ _ _ Hr Hnd) as (_ & H2 & H3); [done|]. split.
  - intros f v. rewrite H2. split; [by intros [?|?]|by right].
  - intros f. rewrite H3. split; [intros [Hn|?]; [by apply not_elem_of_nil in Hn|done]|by right].
Qed.

(** No field is both set and cleared, and no locked field is either. *)
Lemma resolved_disjoint picks candidates existing locked strategy drop_item source r :
  resolve_picks_for_context picks candidates existing locked strategy drop_item source = Ok r ->
  (forall f, f ∈ rf_cleared r -> rf_values r !! f = None) /\
  (forall f, f ∈ locked -> rf_values r !! f = None /\ (f ∉ rf_cleared r)).
Proof.
  intros Hres. destruct (resolve_picks_effects _ _ _ _ _ _ _ _ Hres) as [H2 H3].
  apply resolve_picks_inv in Hres as ([Hnd _]%validate_picks_Ok & _ & _). split.
  - intros f (p & Hp & Hf & _ & Ep)%H3. apply eq_None_not_Some. intros [v (q & Hq & Hg & _ & Eq)%H2].
    assert (p = q) as ->; [|congruence].
    apply list_elem_of_lookup in Hp as [i Hi], Hq as [j Hj].
    assert (i = j) as ->; [|congruence].
    apply (NoDup_lookup _ i j f Hnd); rewrite list_lookup_fmap, ?Hi, ?Hj; cbn; congruence.
  - intros f Hl. split.
    + apply eq_None_not_Some. by intros [v (p & _ & _ & Hn & _)%H2].
    + by intros (p & _ & _ & Hn & _)%H3.
Qed.

(** Resolution of a recipe is exact.  It succeeds exactly when the recipe is well
    formed (each field storable and named once, candidate ids non-blank, manual values
    non-null and of the field's type), the candidates describe the expected target and
    digest, and every pick of an unlocked field resolves.  The result then sets exactly
    the unlocked fields whose pick yields a value, to that value, clears exactly those
    with an explicit clear, and mentions no locked field. *)
Theorem resolve_picks_exact picks candidates existing locked strategy drop_item source :
  let resolve := resolve_picks_for_context picks candidates existing locked strategy drop_item source in
  ((exists r, resolve = Ok r) <->
     NoDup (pick_field <$> picks) /\
     Forall (fun p => pick_field p ∈ STORABLE_FIELDS /\ pick_ok p) picks /\
     context_ok candidates drop_item source /\
     forall p, p ∈ picks -> pick_field p ∉ locked ->
       exists effect, resolve_pick candidates existing strategy p = Ok effect) /\
  (forall r, resolve = Ok r ->
     (forall f v, rf_values r !! f = Some v <->
        resolved_effect candidates existing locked strategy picks f (SetTo v)) /\
     (forall f, f ∈ rf_cleared r <->
        resolved_effect candidates existing locked strategy picks f ClearIt) /\
     (forall f, f ∈ locked -> rf_values r !! f = None /\ (f ∉ rf_cleared r))).
Proof.
  cbv zeta. split; [split|].
  - intros (r & Hres). apply resolve_picks_inv in Hres as ([Hnd Hall]%validate_picks_Ok & Hctx & Hr).
    split_and!; [done|done|done|]. by destruct (resolve_loop_values _ _ _ _ _ _ _ Hr Hnd) as (H1 & _).
  - intros (Hnd & Hall & (ctx & Hc & Hd & Hs)%candidate_context_Ok & Hres).
    destruct (resolve_loop_total candidates existing locked strategy picks no_fields Hres) as [r Hr].
    exists r. unfold resolve_picks_for_context.
    rewrite (proj2 (validate_picks_Ok picks)) by done. cbn [result_bind]. rewrite Hc.
    cbn [result_bind]. by rewrite Hd, Hs.
  - intros r Hres. destruct (resolve_picks_effects _ _ _ _ _ _ _ _ Hres).
    by destruct (resolved_disjoint _ _ _ _ _ _ _ _ Hres).
Qed.

(** With [FillAndMergeLists] a stored list is never merged: the candidate is
    skipped whenever the row has a list to merge with, and the merged value of any
    resolved candidate is the candidate's own. *)
Theorem fill_and_merge_never_merges candidates m f candidate_id effect :
  resolve_pick candidates (Some m) FillAndMergeLists (Candidate f candidate_id) = Ok effect ->
  (existing_list f m <> None -> effect = Keep) /\
  (effect = Keep \/ exists c fields v, c ∈ candidates /\ parse_fields (cm_fields c) = Some fields /\
     fields !! f = Some v /\ effect = SetTo v).
Proof.
  assert (Hpres : existing_list f m <> None -> field_is_present f m = true).
  { unfold existing_list. intros Hne.
    assert (Hcol : forall c, (c ≫= fun column =>
       let values := List.filter (fun s => negb (bool_decide (s = []))) (trim <$> split_on (Z.eqb 44) column) in
       then_some (negb (bool_decide (values = []))) values) <> None -> is_some_and c non_empty = true).
    { intros [c|]; [|done]. cbn. intros Hn. unfold non_empty. rewrite negb_true_iff, bool_decide_eq_false.
      intros Htrim. apply Hn. clear Hn Hne. rewrite blank_pieces by done. done. }
    destruct f; try (by destruct Hne); apply Hcol; exact Hne. }
  unfold resolve_pick. destruct (List.find _ candidates) as [c|] eqn:Ec; [|done].
  apply find_Some_iff in Ec as [Hc _].
  destruct (parse_fields (cm_fields c)) as [fields|] eqn:Ef; [|done].
  destruct (fields !! f) as [v|] eqn:Ev; [|done].
  intros ([] & _ & Hr)%result_bind_Ok. cbn [should_apply_candidate] in Hr.
  destruct (field_is_present f m) eqn:Ep; cbn [negb] in Hr.
  { injection Hr as <-. split; [done|by left]. }
  assert (Hn : existing_list f m = None) by (destruct (existing_list f m); [by specialize (Hpres ltac:(done))|done]).
  unfold merge_candidate_value in Hr. cbn [merges_lists negb orb] in Hr. cbn [mbind option_bind] in Hr.
  rewrite Hn in Hr. destruct (negb (is_list_field f)); injection Hr as <-;
    (split; [done|right; by exists c, fields, v]).
Qed.

End resolution_facts.

(** ** The row after an application *)

Section row_facts.
Context `{DecimalOps}.
Implicit Types (m : MediaMetadata) (existing : option MediaMetadata).

(** Two rows agree on the columns of a field. *)
Definition same_field (f : MetadataField) m m' : Prop :=
  match f with
  | Title => mm_title m = mm_title m'
  | SortTitle => mm_title_sort m = mm_title_sort m'
  | Series => mm_series m = mm_series m'
  | SeriesIndex => mm_number m = mm_number m'
  | Authors => mm_writers m = mm_writers m'
  | Narrators => mm_narrators m = mm_narrators m'
  | Publisher => mm_publisher m = mm_publisher m'
  | PublishedDate => mm_year m = mm_year m' /\ mm_month m = mm_month m' /\ mm_day m = mm_day m'
  | Language => mm_language m = mm_language m'
  | Summary => mm_summary m = mm_summary m'
  | Genres => mm_genres m = mm_genres m'
  | Isbn => mm_identifier_isbn m = mm_identifier_isbn m'
  | AgeRating => mm_age_rating m = mm_age_rating m'
  | PageCount => mm_page_count m = mm_page_count m'
  | Tags | CoverUrl | Identifiers | Status => True
  end.

(** The row holds value [v] for field [f]. *)
Definition stores (f : MetadataField) (v : value) m : Prop :=
  let joined (column : option str) :=
    exists items, v = JArray (JString <$> items) /\ column = Some (str_join (lit ", ") (trim <$> items)) in
  match f with
  | Title => mm_title m = as_str v /\ is_string v = true
  | SortTitle => mm_title_sort m = as_str v /\ is_string v = true
  | Series => mm_series m = as_str v /\ is_string v = true
  | SeriesIndex => mm_number m = as_f64 v ≫= decimal_of_f64
  | Authors => joined (mm_writers m)
  | Narrators => joined (mm_narrators m)
  | Publisher => mm_publisher m = as_str v /\ is_string v = true
  | PublishedDate =>
      exists s year month day, v = JString s /\ parse_date s = Ok (year, month, day) /\
        mm_year m = Some year /\ mm_month m = month /\ mm_day m = day
  | Language => mm_language m = as_str v /\ is_string v = true
  | Summary => mm_summary m = as_str v /\ is_string v = true
  | Genres => joined (mm_genres m)
  | Isbn => mm_identifier_isbn m = as_str v /\ is_string v = true
  | AgeRating => exists n, v = JInt n /\ in_i64 n /\ mm_age_rating m = Some (as_i32 n)
  | PageCount => exists n, v = JInt n /\ in_i64 n /\ mm_page_count m = Some (as_i32 n)
  | Tags | CoverUrl | Identifiers | Status => True
  end.

#[export] Instance same_field_equiv f : Equivalence (same_field f).
Proof. destruct f; (split; [intros m|intros m m'|intros m m' m'']; cbn; intuition congruence). Qed.

Lemma stores_same f v m m' : same_field f m m' -> stores f v m -> stores f v m'.
Proof.
  destruct f; cbn; try (by intros ->); [|done..].
  intros (-> & -> & ->). done.
Qed.

Lemma mapM_as_str items ss : mapM as_str items = Some ss -> items = JString <$> ss.
Proof.
  intros Hm%mapM_Some. induction Hm as [|v s vs ss Hv _ IH]; [done|].
  destruct v; try done. injection Hv as ->. by rewrite fmap_cons, IH.
Qed.

Lemma join_strings_Ok v f s :
  join_strings v f = Ok s ->
  exists items, v = JArray (JString <$> items) /\ s = str_join (lit ", ") (trim <$> items).
Proof.
  unfold join_strings, list_strings. destruct (as_array v ≫= mapM as_str) as [items|] eqn:E; [|done].
  intros [= <-]. exists items. split; [|done]. destruct v; try done. cbn in E. by rewrite (mapM_as_str _ _ E).
Qed.

Lemma as_i64_present v :
  negb (is_none (as_i64 v)) = true -> exists n, v = JInt n /\ in_i64 n /\ as_i64 v = Some n.
Proof.
  intros Hv. destruct v as [|b|n|x|s|l|fs]; try done. cbn in Hv. exists n. unfold as_i64.
  unfold in_i64. destruct ((i64_min <=? n) && (n <=? i64_max)) eqn:E; [|done]. cbn.
  apply andb_true_iff in E as [??]. split_and!; [done|lia..|done].
Qed.

(** Writing one field changes its columns only. *)
Lemma apply_value_frame m f v m' :
  apply_value m f v = Ok m' ->
  stores f v m' /\ mm_locked_fields m' = mm_locked_fields m /\ forall g, g <> f -> same_field g m m'.
Proof.
  unfold apply_value. intros ([] & Hv%validate_value_Ok & Hr)%result_bind_Ok.
  destruct f; cbn [valid_value] in Hv;
    first [injection Hr as <-
          |apply result_bind_Ok in Hr as ([[year month] day] & Hs & [= <-])
          |apply result_bind_Ok in Hr as (s & Hs & [= <-])];
    (split; [cbn [stores]|split; [done|by intros []]]); try done.
  all: try (by apply join_strings_Ok in Hs as (items & -> & ->); exists items).
  - destruct v; try done. by eexists _, year, month, day.
  - by apply as_i64_present in Hv as (n & -> & Hn & ->); exists n.
  - by apply as_i64_present in Hv as (n & -> & Hn & ->); exists n.
Qed.

Lemma clear_value_frame m f :
  field_is_present f (clear_value m f) = false /\
  mm_locked_fields (clear_value m f) = mm_locked_fields m /\
  forall g, g <> f -> same_field g m (clear_value m f).
Proof. split; [by destruct f|]. split; [by destruct f|]. by intros [] Hg; destruct f. Qed.

Lemma apply_values_frame m values m' :
  apply_values m values = Ok m' -> NoDup values.*1 ->
  (forall f v, (f, v) ∈ values -> stores f v m') /\
  mm_locked_fields m' = mm_locked_fields m /\
  (forall g, g ∉ values.*1 -> same_field g m m').
Proof.
  revert m. induction values as [|[f v] values IH]; intros m Hr Hnd; simpl in Hr.
  { injection Hr as ->. split; [intros f v Hin; by apply not_elem_of_nil in Hin|done]. }
  apply result_bind_Ok in Hr as (m1 & (Hs & Hl & Hf)%apply_value_frame & Hr).
  rewrite fmap_cons, NoDup_cons in Hnd. destruct Hnd as [Hfresh Hnd].
  destruct (IH _ Hr Hnd) as (I1 & I2 & I3). split_and!.
  - intros g w [[= -> ->]|Hin]%elem_of_cons; [|by apply I1].
    eapply stores_same; [|exact Hs]. by apply I3.
  - by rewrite I2.
  - intros g Hg. rewrite fmap_cons, not_elem_of_cons in Hg. destruct Hg as [Hgf Hg].
    etrans; [by apply Hf|by apply I3].
Qed.

Lemma present_same f m m' : same_field f m m' -> field_is_present f m = field_is_present f m'.
Proof. destruct f; cbn; intros; intuition (subst; congruence). Qed.

Lemma clears_frame fs m :
  (forall f, f ∈ fs -> field_is_present f (fold_left clear_value fs m) = false) /\
  mm_locked_fields (fold_left clear_value fs m) = mm_locked_fields m /\
  (forall g, g ∉ fs -> same_field g m (fold_left clear_value fs m)).
Proof.
  revert m. induction fs as [|f fs IH]; intros m; simpl.
  { split; [intros f Hf; by apply not_elem_of_nil in Hf|done]. }
  destruct (clear_value_frame m f) as (C1 & C2 & C3). destruct (IH (clear_value m f)) as (I1 & I2 & I3).
  split_and!.
  - intros g Hg. destruct (decide (g ∈ fs)) as [Hin|Hin]; [by apply I1|].
    apply elem_of_cons in Hg as [->|?]; [|done]. by rewrite <- (present_same _ _ _ (I3 _ Hin)).
  - by rewrite I2.
  - intros g [Hgf Hg]%not_elem_of_cons. etrans; [by apply C3|by apply I3].
Qed.

Lemma apply_row_Ok existing r m' :
  apply_row existing r = Ok m' ->
  exists m1, apply_values (default empty_metadata existing) (btree_iter (rf_values r)) = Ok m1 /\
    m' = fold_left clear_value (rf_cleared r) m1.
Proof.
  unfold apply_row. intros ([] & _ & (m1 & Hm & [= <-])%result_bind_Ok)%result_bind_Ok. by exists m1.
Qed.

Lemma btree_iter_not_elem {A} (vs : gmap MetadataField A) f : vs !! f = None -> f ∉ (btree_iter vs).*1.
Proof. intros Hn ([g a] & -> & Hin)%list_elem_of_fmap. apply elem_of_btree_iter in Hin. cbn in Hn. congruence. Qed.

(** Applying a resolved recipe to a row writes what it says and nothing else: a field
    it sets holds the value (unless the recipe clears it too), a field it clears is
    absent, every other field keeps its columns, and so does the lock list.  A field the
    user locked is in neither part, so it is never changed, by any recipe, strategy or
    candidate. *)
Theorem apply_row_exact existing picks candidates locked strategy drop_item source r m' :
  resolve_picks_for_context picks candidates existing locked strategy drop_item source = Ok r ->
  apply_row existing r = Ok m' ->
  (forall f v, rf_values r !! f = Some v -> stores f v m') /\
  (forall f, f ∈ rf_cleared r -> field_is_present f m' = false) /\
  (forall f, rf_values r !! f = None -> f ∉ rf_cleared r -> same_field f (default empty_metadata existing) m') /\
  (forall f, f ∈ locked -> same_field f (default empty_metadata existing) m') /\
  mm_locked_fields m' = mm_locked_fields (default empty_metadata existing).
Proof.
  intros Hres (m1 & Hv & ->)%apply_row_Ok.
  destruct (resolved_disjoint _ _ _ _ _ _ _ _ Hres) as [Hdis Hlock].
  destruct (apply_values_frame _ _ _ Hv (btree_iter_NoDup _)) as (V1 & V2 & V3).
  destruct (clears_frame (rf_cleared r) m1) as (C1 & C2 & C3).
  assert (Hkeep : forall f, rf_values r !! f = None -> f ∉ rf_cleared r ->
    same_field f (default empty_metadata existing) (fold_left clear_value (rf_cleared r) m1)).
  { intros f Hn Hc. etrans; [apply V3; by apply btree_iter_not_elem|by apply C3]. }
  split_and!; [|done|done| |by rewrite C2].
  - intros f v Hf. eapply stores_same; [|by apply V1, elem_of_btree_iter]. apply C3. intros Hc.
    by rewrite (Hdis f Hc) in Hf.
  - intros f Hf. destruct (Hlock f Hf). by apply Hkeep.
Qed.

End row_facts.

(** ** Stored integers *)

(** Page counts and age ratings are stored modulo [2^32]: any [i64] is accepted, and
    the row holds the number given exactly when it fits [i32]. *)
Theorem stored_integers_wrap `{DecimalOps} (m : MediaMetadata) n :
  in_i64 n ->
  exists pages age,
    apply_value m PageCount (JInt n) = Ok pages /\ apply_value m AgeRating (JInt n) = Ok age /\
    mm_page_count pages = Some (wrap_i32 n) /\ mm_age_rating age = Some (wrap_i32 n) /\
    (mm_page_count pages = Some n <-> in_i32 n) /\ (mm_age_rating age = Some n <-> in_i32 n).
Proof.
  intros Hn. assert (E : as_i64 (JInt n : value) = Some n).
  { unfold as_i64. unfold in_i64 in Hn. by replace ((i64_min <=? n) && (n <=? i64_max)) with true by lia. }
  assert (W : Some (wrap_i32 n) = Some n <-> in_i32 n).
  { unfold wrap_i32, in_i32, i32_min, i32_max. split.
    - intros [= Hw]. pose proof (Z.mod_pos_bound (n + 2 ^ 31) (2 ^ 32)). lia.
    - intros. rewrite Z.mod_small by lia. f_equal. lia. }
  exists (set_page_count m (Some (wrap_i32 n))), (set_age_rating m (Some (wrap_i32 n))).
  unfold apply_value, validate_value. cbn [valid_value]. rewrite E. cbn. done.
Qed.

(** ** Witnesses *)

#[local] Instance demo_decimal : DecimalOps :=
  {| Decimal := f64; decimal_of_f64 := Some; decimal_parse_f64 := Some |}.

Definition demo_row : MediaMetadata := set_genres (set_title empty_metadata (Some (lit "Stored"))) (Some (lit "Drama")).

Definition demo_candidate : CandidateModel :=
  {| cm_id := lit "c1"; cm_drop_item_id := Some (lit "item"); cm_media_id := None;
     cm_provider_id := lit "mal"; cm_confidence := f64_one; cm_source_sha256 := lit "ab";
     cm_fields := JObject [(lit "TITLE", JString (lit "New")); (lit "GENRES", JArray [JString (lit "Comedy")])] |}.

Lemma fill_and_merge_never_merges_witness :
  resolve_pick [demo_candidate] (Some demo_row) FillAndMergeLists (Candidate Genres (lit "c1")) = Ok Keep /\
  (existing_list Genres demo_row <> None -> Keep = Keep).
Proof.
  split; [vm_compute; reflexivity|].
  apply (fill_and_merge_never_merges [demo_candidate] demo_row Genres (lit "c1") Keep).
  vm_compute; reflexivity.
Defined.

Definition demo_resolved : ResolvedFields :=
  {| rf_values := {[ Genres := JArray [JString (lit "Comedy")] ]}; rf_cleared := [] |}.

(** The title is locked, the genres are replaced. *)
Lemma apply_row_exact_witness :
  stores Genres (JArray [JString (lit "Comedy")]) (set_genres demo_row (Some (lit "Comedy"))) /\
  same_field Title demo_row (set_genres demo_row (Some (lit "Comedy"))).
Proof.
  destruct (apply_row_exact (Some demo_row)
    [Candidate Title (lit "c1"); Candidate Genres (lit "c1")] [demo_candidate] [Title] PreferExternal
    (Some (lit "item")) (Some (lit "ab")) demo_resolved (set_genres demo_row (Some (lit "Comedy"))))
    as (H1 & _ & _ & H4 & _); [vm_compute; reflexivity|vm_compute; reflexivity|].
  split; [apply H1; vm_compute; reflexivity|]. apply H4. left.
Defined.

Lemma stored_integers_wrap_witness :
  exists pages, apply_value demo_row PageCount (JInt (2 ^ 32 + 5)) = Ok pages /\ mm_page_count pages = Some 5.
Proof.
  destruct (stored_integers_wrap demo_row (2 ^ 32 + 5)) as (pages & _ & E & _ & Hp & _);
    [split; vm_compute; discriminate|].
  exists pages. split; [exact E|]. rewrite Hp. vm_compute. reflexivity.
Defined.
