(* ===== verification/IngestPolicy.v ===== *)
(** * The per-field metadata policy

    Models [src/crates/ingest/src/policy.rs]: which providers may fill a field, in what
    order, and how their offers combine ([plan]); the server default, library overrides
    and their validation; the advertised width of a cover; the stored override of a
    library.  The derived JSON codec of a policy document is the class [PolicyCodec]. *)

From stdpp Require Import base gmap list strings sorting.
From Stdlib Require Import ZArith Lia SpecFloat.
From S2P Require Import Prelude Float64 ReadingState IngestContract IngestApply.

#[local] Open Scope Z_scope.
#[local] Open Scope coppice_scope.

(** ** Rules *)

Inductive PolicyStrategy := First | MergeUnion | Longest | PreferExisting | HighestResolution.

#[export] Instance PolicyStrategy_eq_dec : EqDecision PolicyStrategy.
Proof. solve_decision. Defined.

Definition applies_to (s : PolicyStrategy) (f : MetadataField) : bool :=
  match s with
  | MergeUnion => is_list_field f
  | HighestResolution => bool_decide (f = CoverUrl)
  | First | Longest | PreferExisting => true
  end.

Record FieldPolicy := {
  fp_providers : list str;
  fp_strategy : PolicyStrategy;
  fp_lock_respected : bool;
}.

Definition field_policy (providers : list str) (strategy : PolicyStrategy) : FieldPolicy :=
  {| fp_providers := providers; fp_strategy := strategy; fp_lock_respected := true |}.

Record AudioPolicy := {
  single_file_weight : Z;
  auto_assemble : bool;
  auto_chapters : bool;
  keep_original : bool;
}.

Definition audio_server_default : AudioPolicy :=
  {| single_file_weight := 30; auto_assemble := false; auto_chapters := false;
     keep_original := true |}.

Definition MAX_CHECK_WEIGHT : Z := 100.

Record MetadataPolicy := {
  mp_fields : gmap MetadataField FieldPolicy;
  mp_audio : option AudioPolicy;
}.

Inductive PolicyError :=
| UnknownLibrary (library_id : str)
| MissingLibraryConfig (library_id : str)
| Invalid (library_id message : str)
| UnknownProvider (field : MetadataField) (provider_id : str)
| DuplicateProvider (field : MetadataField) (provider_id : str)
| StrategyNotApplicable (field : MetadataField) (strategy : PolicyStrategy)
| AudioWeightOutOfRange (weight : Z)
| AudioKeepOriginalWithoutAssemble
| PolicyDatabase.

Definition audio_validate (a : AudioPolicy) : result unit PolicyError :=
  early (MAX_CHECK_WEIGHT <? single_file_weight a) (AudioWeightOutOfRange (single_file_weight a))
    (early (negb (keep_original a) && negb (auto_assemble a)) AudioKeepOriginalWithoutAssemble
       (Ok tt)).

(** ** The server default *)

Definition EMBEDDED_PROVIDER_ID : str := lit "builtin:embedded".
Definition LLM_PROVIDER_ID : str := lit "llm".

Definition KOMF_PRIORITY : list str :=
  [lit "mangaupdates"; lit "mal"; lit "anilist"; lit "mangadex"; lit "comic_vine"; lit "metron";
   lit "openlibrary"; lit "googlebooks"; lit "audible"; lit "hardcover"].

Definition remote : list str := KOMF_PRIORITY.
Definition remote_then_embedded : list str := remote ++ [EMBEDDED_PROVIDER_ID].
Definition embedded_then_remote : list str := EMBEDDED_PROVIDER_ID :: remote.
Definition remote_then_embedded_then_llm : list str := remote_then_embedded ++ [LLM_PROVIDER_ID].

Definition server_default : MetadataPolicy :=
  {| mp_fields := list_to_map
       [(Title, field_policy remote_then_embedded First);
        (SortTitle, field_policy remote_then_embedded First);
        (Series, field_policy remote_then_embedded PreferExisting);
        (SeriesIndex, field_policy embedded_then_remote First);
        (Authors, field_policy remote_then_embedded First);
        (Narrators, field_policy remote_then_embedded First);
        (Publisher, field_policy remote_then_embedded First);
        (PublishedDate, field_policy remote_then_embedded First);
        (Language, field_policy remote_then_embedded First);
        (Summary, field_policy remote_then_embedded_then_llm First);
        (Tags, field_policy remote_then_embedded_then_llm MergeUnion);
        (Genres, field_policy remote_then_embedded_then_llm MergeUnion);
        (Isbn, field_policy embedded_then_remote First);
        (Identifiers, field_policy embedded_then_remote First);
        (AgeRating, field_policy remote_then_embedded First);
        (PageCount, field_policy [EMBEDDED_PROVIDER_ID] First);
        (CoverUrl, field_policy remote HighestResolution);
        (Status, field_policy remote First)];
     mp_audio := Some audio_server_default |}.

Definition overlay (base over : MetadataPolicy) : MetadataPolicy :=
  {| mp_fields :=
       fold_left (fun fields fr => <[ fr.1 := fr.2 ]> fields) (btree_iter (mp_fields over)) (mp_fields base);
     mp_audio := mp_audio over orelse mp_audio base |}.

(** [MetadataPolicy::audio]. *)
Definition policy_audio (p : MetadataPolicy) : AudioPolicy := default audio_server_default (mp_audio p).

Fixpoint check_providers (known : list str) (f : MetadataField) (seen providers : list str)
  : result unit PolicyError :=
  match providers with
  | [] => Ok tt
  | provider_id :: rest =>
      early (negb (bool_decide (provider_id ∈ known))) (UnknownProvider f provider_id)
        (early (bool_decide (provider_id ∈ seen)) (DuplicateProvider f provider_id)
           (check_providers known f (provider_id :: seen) rest))
  end.

Fixpoint check_rules (known : list str) (rules : list (MetadataField * FieldPolicy))
  : result unit PolicyError :=
  match rules with
  | [] => Ok tt
  | (f, rule) :: rest =>
      early (negb (applies_to (fp_strategy rule) f)) (StrategyNotApplicable f (fp_strategy rule))
        (let? _ := check_providers known f [] (fp_providers rule) in check_rules known rest)
  end.

Definition policy_validate (p : MetadataPolicy) (known : list str) : result unit PolicyError :=
  let? _ := check_rules known (btree_iter (mp_fields p)) in
  match mp_audio p with
  | Some audio => audio_validate audio
  | None => Ok tt
  end.

(** ** Offers *)

Record PolicyCandidate := {
  pc_candidate_id : str;
  pc_provider_id : str;
  pc_confidence : f64;
  pc_fields : gmap MetadataField value;
}.

Definition from_model (m : CandidateModel) : option PolicyCandidate :=
  (fun fields => {| pc_candidate_id := cm_id m; pc_provider_id := cm_provider_id m;
                    pc_confidence := cm_confidence m; pc_fields := fields |})
    <$> parse_fields (cm_fields m).

Definition from_models (ms : list CandidateModel) : list PolicyCandidate := omap from_model ms.

Record Offer := {
  of_candidate_id : str;
  of_provider_id : str;
  of_confidence : f64;
  of_value : value;
}.

Fixpoint offered (v : value) : bool :=
  match v with
  | JNull => false
  | JString s => negb (bool_decide (trim s = []))
  | JArray vs => existsb offered vs
  | JObject kvs => negb (match kvs with [] => true | _ => false end)
  | JBool _ | JInt _ | JFloat _ => true
  end.

Definition candidate_offer (f : MetadataField) (c : PolicyCandidate) : option Offer :=
  pc_fields c !! f ≫= fun v =>
    then_some (offered v)
      {| of_candidate_id := pc_candidate_id c; of_provider_id := pc_provider_id c;
         of_confidence := pc_confidence c; of_value := v |}.

(** Descending confidence ([total_cmp]), then candidate id. *)
Definition offer_before (a b : Offer) : Prop :=
  total_key (of_confidence b) < total_key (of_confidence a) \/
  (total_key (of_confidence a) = total_key (of_confidence b) /\
   str_ord (of_candidate_id a) (of_candidate_id b)).

#[export] Instance offer_before_dec a b : Decision (offer_before a b).
Proof. unfold offer_before. apply _. Defined.

Definition provider_offers (f : MetadataField) (candidates : list PolicyCandidate) (provider_id : str)
  : list Offer :=
  merge_sort offer_before
    (omap (candidate_offer f)
       (List.filter (fun c => bool_decide (pc_provider_id c = provider_id)) candidates)).

Definition offers (rule : FieldPolicy) (f : MetadataField) (candidates : list PolicyCandidate)
  : list Offer :=
  fp_providers rule ≫= provider_offers f candidates.

(** The loop of [best] over [offers[1..]]. *)
Definition best (score : Offer -> Z) (first : Offer) (rest : list Offer) : Offer :=
  (fold_left (fun acc offer =>
     if acc.2 <? score offer then (offer, score offer) else acc) rest (first, score first)).1.

Definition u32_max : Z := 2 ^ 32 - 1.

Definition value_length (v : value) : Z :=
  match v with
  | JString s => Z.min (Z.of_nat (length (trim s))) u32_max
  | JArray vs => Z.of_nat (length (List.filter offered vs)) mod 2 ^ 32
  | _ => 0
  end.

(** ** The advertised width of a cover *)

Definition number_of (digits : str) : option Z :=
  if (2 <=? length digits)%nat && (length digits <=? 5)%nat then parse_u32 digits else None.

Definition trailing_number (text : str) : option Z :=
  number_of (rev (take_while is_ascii_digit (rev text))).

Definition leading_number (text : str) : option Z := number_of (take_while is_ascii_digit text).

(** [before] is what precedes the current character, reversed. *)
Fixpoint dimension_from (before url : str) : option Z :=
  match url with
  | [] => None
  | c :: rest =>
      let here :=
        if (c =? 120) || (c =? 88) then
          trailing_number (rev before) ≫= fun width => (fun _ => width) <$> leading_number rest
        else None in
      here orelse dimension_from (c :: before) rest
  end.

Definition dimension_token (url : str) : option Z := dimension_from [] url.

Definition size_component (url : str) : option Z :=
  List.hd_error (split_on (Z.eqb 63) url) ≫= fun path =>
  last (split_on (Z.eqb 47) path) ≫= fun segment =>
    let components := split_on (Z.eqb 46) segment in
    if (length components <? 3)%nat then None
    else components !! (length components - 2)%nat ≫= fun size =>
           if forallb is_ascii_digit size then leading_number size else None.

(** [str::split_once]: what follows the first separator. *)
Definition after_once (sep : Z) (s : str) : option str :=
  match drop_while (fun c => negb (c =? sep)) s with [] => None | _ :: rest => Some rest end.

Definition query_width (url : str) : option Z :=
  after_once 63 url ≫= fun query =>
    find_map (fun parameter =>
      (strip_prefix (lit "width=") parameter orelse strip_prefix (lit "w=") parameter)
        ≫= leading_number) (split_on (Z.eqb 38) query).

Definition advertised_cover_width (v : value) : option Z :=
  match json_get (lit "width") v ≫= as_u64 with
  | Some width => then_some (width <=? u32_max) width
  | None =>
      (as_str v orelse (json_get (lit "url") v ≫= as_str)) ≫= fun url =>
        dimension_token url orelse size_component url orelse query_width url
  end.

(** ** The union of list offers *)

Section policy.
Context `{DecimalOps} `{Lowercase}.

Definition push_value (st : gset str * list str) (s : str) : gset str * list str * bool :=
  let '(seen, values) := st in
  let s := trim s in
  if bool_decide (s = []) then (seen, values, false)
  else if bool_decide (to_lowercase s ∈ seen) then (seen, values, false)
  else ({[ to_lowercase s ]} ∪ seen, values ++ [s], true).

Definition push_all (st : gset str * list str) (ss : list str) : gset str * list str * bool :=
  fold_left (fun acc s => let '(st, contributed) := push_value acc.1 s in (st, acc.2 || contributed))
    ss (st, false).

(** The strings an offer brings. *)
Definition offer_strings (o : Offer) : list str :=
  match of_value o with
  | JArray items => omap as_str items
  | JString s => [s]
  | _ => []
  end.

Definition union_step (acc : gset str * list str * list str) (o : Offer)
  : gset str * list str * list str :=
  let '(st, providers) := acc in
  let '(st, contributed) := push_all st (offer_strings o) in
  (st, if contributed && negb (bool_decide (of_provider_id o ∈ providers))
       then providers ++ [of_provider_id o] else providers).

Definition union (f : MetadataField) (os : list Offer) (existing : option MediaMetadata)
  : value * list str :=
  let stored := default [] (existing ≫= existing_list f) in
  let '(_, values, providers) := fold_left union_step os ((push_all (∅, []) stored).1, []) in
  (JArray (JString <$> values), providers).

(** ** The plan *)

Inductive FieldOutcome := CandidateWon | Merged | Kept | Locked | Unmatched.

Record FieldDecision := {
  fd_field : MetadataField;
  fd_strategy : PolicyStrategy;
  fd_outcome : FieldOutcome;
  fd_providers : list str;
  fd_applied : bool;
}.

Record PolicyPlan := {
  pp_picks : list FieldPick;
  pp_decisions : list FieldDecision;
  pp_enforced_locks : list MetadataField;
}.

(** One turn of the loop: what is pushed on the three lists. *)
Definition plan_field (candidates : list PolicyCandidate) (existing : option MediaMetadata)
    (locked : list MetadataField) (f : MetadataField) (rule : FieldPolicy)
  : list FieldPick * FieldDecision * list MetadataField :=
  let decided outcome providers applied :=
    {| fd_field := f; fd_strategy := fp_strategy rule; fd_outcome := outcome;
       fd_providers := providers; fd_applied := applied |} in
  if fp_lock_respected rule && bool_decide (f ∈ locked) then ([], decided Locked [] false, [f])
  else
    match offers rule f candidates with
    | [] => ([], decided Unmatched [] false, [])
    | first :: rest =>
        let can_store := storable f in
        let strategy := if applies_to (fp_strategy rule) f then fp_strategy rule else First in
        let candidate winner :=
          (if can_store then [Candidate f (of_candidate_id winner)] else [],
           decided CandidateWon [of_provider_id winner] can_store, []) in
        match strategy with
        | PreferExisting =>
            if is_some_and existing (field_is_present f) then ([], decided Kept [] false, [])
            else candidate first
        | MergeUnion =>
            let '(v, providers) := union f (first :: rest) existing in
            (if can_store then [Manual f v] else [], decided Merged providers can_store, [])
        | Longest => candidate (best (fun o => value_length (of_value o)) first rest)
        | HighestResolution =>
            candidate (best (fun o => default 0 (advertised_cover_width (of_value o))) first rest)
        | First => candidate first
        end
    end.

Definition plan (policy : MetadataPolicy) (candidates : list PolicyCandidate)
    (existing : option MediaMetadata) (locked : list MetadataField) : PolicyPlan :=
  let turns := (fun fr : MetadataField * FieldPolicy =>
                  plan_field candidates existing locked fr.1 fr.2) <$> btree_iter (mp_fields policy) in
  {| pp_picks := turns ≫= (fun t => t.1.1);
     pp_decisions := (fun t => t.1.2) <$> turns;
     pp_enforced_locks := turns ≫= snd |}.

(** The locks of a row, in the ingest vocabulary. *)
Definition locked_fields (existing : option MediaMetadata) : list MetadataField :=
  match existing ≫= mm_locked_fields with
  | None => []
  | Some v => field_set (omap from_public (default [] (as_array v ≫= mapM Public.of_value)))
  end.

Definition plan_decision (p : PolicyPlan) (f : MetadataField) : option FieldDecision :=
  List.find (fun d => bool_decide (fd_field d = f)) (pp_decisions p).

End policy.

(** The forms the source documents. *)
Example cover_width_forms :
  advertised_cover_width (JObject [(lit "width", JInt 1200)]) = Some 1200 /\
  advertised_cover_width (JString (lit "https://x/cover_1200x1800.jpg")) = Some 1200 /\
  advertised_cover_width (JString (lit "https://x/abc.jpg.512.jpg")) = Some 512 /\
  advertised_cover_width (JString (lit "https://x/cover.jpg?w=800")) = Some 800 /\
  advertised_cover_width (JString (lit "https://x/cover.jpg")) = None.
Proof. vm_compute. split_and!; reflexivity. Qed.

(** ** Offers *)

#[export] Instance offer_before_total : Total offer_before.
Proof.
  intros a b. unfold offer_before.
  destruct (Z.lt_trichotomy (total_key (of_confidence a)) (total_key (of_confidence b))) as [?|[->|?]];
    [right; by left| |left; by left].
  destruct (total str_ord (of_candidate_id a) (of_candidate_id b)); [left|right]; right; done.
Qed.

#[export] Instance offer_before_trans : Transitive offer_before.
Proof.
  intros a b c. unfold offer_before. intros [?|[E1 ?]] [?|[E2 ?]]; [left; lia|left; lia|left; lia|].
  right. split; [congruence|by etrans].
Qed.

(** Everything the candidates of the allowed providers offer for the field. *)
Lemma elem_of_offers rule f cs o :
  o ∈ offers rule f cs <->
  exists c, c ∈ cs /\ pc_provider_id c ∈ fp_providers rule /\ candidate_offer f c = Some o.
Proof.
  unfold offers. rewrite list_elem_of_bind. unfold provider_offers.
  setoid_rewrite merge_sort_Permutation. setoid_rewrite list_elem_of_omap.
  setoid_rewrite list_elem_of_In. setoid_rewrite filter_In. setoid_rewrite bool_decide_eq_true.
  setoid_rewrite <- list_elem_of_In. split.
  - intros (p & (c & [Hc <-] & Ho) & Hp). by exists c.
  - intros (c & Hc & Hp & Ho). exists (pc_provider_id c). split; [|done]. by exists c.
Qed.

Lemma candidate_offer_provider f c o : candidate_offer f c = Some o -> of_provider_id o = pc_provider_id c.
Proof.
  unfold candidate_offer. intros (v & _ & [_ <-]%then_some_Some)%bind_Some. done.
Qed.

Lemma provider_offers_provider f cs p o : o ∈ provider_offers f cs p -> of_provider_id o = p.
Proof.
  unfold provider_offers. rewrite merge_sort_Permutation, list_elem_of_omap.
  intros (c & Hc & Ho%candidate_offer_provider). rewrite Ho.
  by apply list_elem_of_In, filter_In in Hc as [_ ?%bool_decide_eq_true].
Qed.

(** [o] is at least as good as [o']: its provider is listed first, and within one
    provider it has the higher confidence or the smaller id. *)
Definition preferred (rule : FieldPolicy) (o o' : Offer) : Prop :=
  exists before after, fp_providers rule = before ++ of_provider_id o :: after /\
    (of_provider_id o' ∉ before) /\ (of_provider_id o' = of_provider_id o -> offer_before o o').

Lemma offers_head rule f cs first rest :
  offers rule f cs = first :: rest -> Forall (preferred rule first) (first :: rest).
Proof.
  unfold preferred, offers. intros E. rewrite <- E.
  assert (H : forall before ps, (before ++ ps) = fp_providers rule ->
    (forall p, p ∈ before -> provider_offers f cs p = []) ->
    (ps ≫= provider_offers f cs) = first :: rest ->
    Forall (fun o' => exists before after, fp_providers rule = before ++ of_provider_id first :: after /\
      (of_provider_id o' ∉ before) /\ (of_provider_id o' = of_provider_id first -> offer_before first o'))
      (fp_providers rule ≫= provider_offers f cs)).
  { intros before ps. revert before. induction ps as [|p ps IH]; intros before Hps Hempty Hb; [done|].
    rewrite bind_cons in Hb. destruct (provider_offers f cs p) as [|o os] eqn:Ep.
    - apply (IH (before ++ [p])); [by rewrite <- app_assoc| |done].
      intros q [Hq|Hq%list_elem_of_singleton]%elem_of_app; [by apply Hempty|by subst].
    - injection Hb as -> _. assert (Hp : of_provider_id first = p)
        by (apply (provider_offers_provider f cs); rewrite Ep; by left).
      apply Forall_forall. intros o' (q & Ho' & Hq)%list_elem_of_bind.
      pose proof (provider_offers_provider _ _ _ _ Ho') as Hq'. subst q.
      exists before, ps. rewrite Hp. split; [done|]. split.
      + intros Hin. rewrite (Hempty _ Hin) in Ho'. by apply not_elem_of_nil in Ho'.
      + intros Hsame. rewrite Hsame in Ho'. rewrite Ep in Ho'.
        assert (Hs : StronglySorted offer_before (first :: os)).
        { rewrite <- Ep. apply StronglySorted_merge_sort; apply _. }
        apply StronglySorted_inv in Hs as [_ Hs]. apply elem_of_cons in Ho' as [->|Ho'].
        * destruct (total offer_before first first); done.
        * by apply (Forall_forall _ _) with (x := o') in Hs. }
  by apply (H [] (fp_providers rule)); [|intros p Hp; by apply not_elem_of_nil in Hp|].
Qed.

(** The first offer with the greatest score. *)
Definition first_maximal (score : Offer -> Z) (os : list Offer) (o : Offer) : Prop :=
  exists l1 l2, os = l1 ++ o :: l2 /\ Forall (fun o' => score o' < score o) l1 /\
    Forall (fun o' => score o' <= score o) l2.

Lemma best_first_maximal score first rest : first_maximal score (first :: rest) (best score first rest).
Proof.
  unfold best. assert (H : forall rest l1 cur l2,
    Forall (fun o' => score o' < score cur) l1 -> Forall (fun o' => score o' <= score cur) l2 ->
    first_maximal score ((l1 ++ cur :: l2) ++ rest)
      (fold_left (fun acc offer => if acc.2 <? score offer then (offer, score offer) else acc)
         rest (cur, score cur)).1).
  { clear. induction rest as [|o rest IH]; intros l1 cur l2 H1 H2; cbn [fold_left].
    - rewrite app_nil_r. by exists l1, l2.
    - cbn [snd]. destruct (Z.ltb_spec (score cur) (score o)).
      + replace ((l1 ++ cur :: l2) ++ o :: rest) with (((l1 ++ cur :: l2) ++ o :: []) ++ rest)
          by (rewrite <- app_assoc; done).
        apply IH; [|constructor]. apply Forall_app. split; [eapply Forall_impl; [exact H1|]; cbn; lia|].
        constructor; [lia|]. eapply Forall_impl; [exact H2|]. cbn. lia.
      + replace ((l1 ++ cur :: l2) ++ o :: rest) with ((l1 ++ cur :: (l2 ++ [o])) ++ rest)
          by (rewrite <- !app_assoc; cbn; by rewrite <- app_assoc).
        apply IH; [done|]. apply Forall_app. split; [done|]. by constructor. }
  by apply (H rest [] first []).
Qed.

(** ** The union *)

Section union_facts.
Context `{DecimalOps} `{Lowercase}.

(** The non-blank strings of a list, trimmed. *)
Definition trimmed (ss : list str) : list str :=
  List.filter (fun s => negb (bool_decide (s = []))) (trim <$> ss).

(** What the union keeps of the trimmed strings seen so far. *)
Record kept (sources values : list str) : Prop := {
  kept_order : values `sublist_of` sources;
  kept_distinct : NoDup (to_lowercase <$> values);
  kept_covers : forall s, s ∈ sources -> to_lowercase s ∈ (to_lowercase <$> values);
  kept_first : forall s, s ∈ values ->
    exists l1 l2, sources = l1 ++ s :: l2 /\ (to_lowercase s ∉ (to_lowercase <$> l1));
}.

Lemma kept_nil : kept [] [].
Proof.
  split; [apply sublist_nil_l|apply NoDup_nil_2| |]; intros s Hs; by apply not_elem_of_nil in Hs.
Qed.

Lemma kept_skip sources values s :
  kept sources values -> to_lowercase s ∈ (to_lowercase <$> values) -> kept (sources ++ [s]) values.
Proof.
  intros [H1 H2 H3 H4] Hs. split; [by apply sublist_inserts_r|done| |].
  - intros t [Ht| ->%list_elem_of_singleton]%elem_of_app; auto.
  - intros t Ht. destruct (H4 t Ht) as (l1 & l2 & -> & Hl). exists l1, (l2 ++ [s]).
    by rewrite <- app_assoc.
Qed.

Lemma kept_push sources values s :
  kept sources values -> (to_lowercase s ∉ (to_lowercase <$> values)) -> kept (sources ++ [s]) (values ++ [s]).
Proof.
  intros [H1 H2 H3 H4] Hs. split.
  - by apply sublist_app.
  - rewrite fmap_app. apply NoDup_app. split_and!; [done| |apply NoDup_singleton].
    intros t Ht ->%list_elem_of_singleton. done.
  - intros t [Ht| ->%list_elem_of_singleton]%elem_of_app; rewrite fmap_app, elem_of_app; [left; auto|right; by left].
  - intros t [Ht| ->%list_elem_of_singleton]%elem_of_app.
    + destruct (H4 t Ht) as (l1 & l2 & -> & Hl). exists l1, (l2 ++ [s]). by rewrite <- app_assoc.
    + exists sources, []. split; [done|]. intros (u & Hu & Hin)%list_elem_of_fmap. apply Hs.
      rewrite Hu. by apply H3.
Qed.

(** The set of lower-cased spellings is that of the values. *)
Definition union_inv (sources : list str) (st : gset str * list str) : Prop :=
  kept sources st.2 /\ forall k, k ∈ st.1 <-> k ∈ (to_lowercase <$> st.2).

Lemma push_value_inv sources st s :
  union_inv sources st -> union_inv (sources ++ trimmed [s]) (push_value st s).1.
Proof.
  destruct st as [seen values]. intros [Hk Hs]. unfold push_value, trimmed. cbn [fmap list_fmap List.filter].
  destruct (bool_decide (trim s = [])); cbn [negb]; [by rewrite app_nil_r|].
  case_bool_decide as Hin; cbn [fst snd] in *.
  - split; [|done]. apply kept_skip; [done|by apply Hs].
  - split; cbn [fst snd]; [apply kept_push; [done|by rewrite <- Hs]|].
    intros k. rewrite elem_of_union, elem_of_singleton, fmap_app, elem_of_app, Hs.
    change (to_lowercase <$> [trim s]) with [to_lowercase (trim s)]. rewrite list_elem_of_singleton. tauto.
Qed.

Lemma trimmed_app ss tt : trimmed (ss ++ tt) = trimmed ss ++ trimmed tt.
Proof. unfold trimmed. by rewrite fmap_app, List.filter_app. Qed.

Lemma push_all_inv sources st ss :
  union_inv sources st -> union_inv (sources ++ trimmed ss) (push_all st ss).1.
Proof.
  unfold push_all. generalize false. revert sources st. induction ss as [|s ss IH]; intros sources st b Hi.
  - by rewrite app_nil_r.
  - cbn [fold_left fst snd]. destruct (push_value st s) as [st' c] eqn:E.
    change (s :: ss) with ([s] ++ ss). rewrite trimmed_app, app_assoc. apply IH.
    change st' with (st', c).1. rewrite <- E. by apply push_value_inv.
Qed.

Lemma push_all_prefix st ss : st.2 `prefix_of` (push_all st ss).1.2.
Proof.
  unfold push_all. generalize false. revert st. induction ss as [|s ss IH]; intros st b; [done|].
  cbn [fold_left fst snd]. destruct (push_value st s) as [st' c] eqn:E. etrans; [|apply IH].
  destruct st as [seen values]. unfold push_value in E.
  repeat case_bool_decide; injection E as <- _; cbn; [done|done|by apply prefix_app_r].
Qed.

Lemma sublist_same_length {A} (l1 l2 : list A) :
  l1 `sublist_of` l2 -> (length l2 <= length l1)%nat -> l1 = l2.
Proof.
  induction 1 as [|x l1 l2 _ IH|x l1 l2 Hs IH]; simpl; intros Hl; [done|by rewrite IH by lia|].
  apply sublist_length in Hs. lia.
Qed.

(** Sources that differ up to case are all kept. *)
Lemma kept_all sources values : kept sources values -> NoDup (to_lowercase <$> sources) -> values = sources.
Proof.
  intros [H1 H2 H3 _] Hnd. apply sublist_same_length; [done|].
  assert (Hsub : (to_lowercase <$> sources) ⊆+ (to_lowercase <$> values)).
  { apply NoDup_submseteq; [done|]. intros k (s & -> & Hs)%list_elem_of_fmap. by apply H3. }
  apply submseteq_length in Hsub. by rewrite !length_fmap in Hsub.
Qed.

(** The union of list offers keeps the stored values first, then the offers in
    priority order: every non-blank string of either, trimmed, is represented up to
    case, no two kept values are equal up to case, the first spelling of each wins,
    and the order is that of the sources.  Nothing stored is dropped. *)
Theorem union_exact f os existing :
  let stored := default [] (existing ≫= existing_list f) in
  exists values,
    (union f os existing).1 = JArray (JString <$> values) /\
    kept (trimmed (stored ++ (os ≫= offer_strings))) values /\
    (NoDup (to_lowercase <$> trimmed stored) -> trimmed stored `prefix_of` values).
Proof.
  cbv zeta. set (stored := default [] (existing ≫= existing_list f)). unfold union. fold stored.
  assert (Hi0 : union_inv (trimmed stored) (push_all (∅, []) stored).1).
  { apply (push_all_inv []). split; [apply kept_nil|]. cbn. intros k. split; [set_solver|].
    intros Hk. by apply not_elem_of_nil in Hk. }
  assert (Hpre : NoDup (to_lowercase <$> trimmed stored) ->
                 (push_all (∅, []) stored).1.2 = trimmed stored).
  { intros Hnd. apply kept_all; [by apply Hi0|done]. }
  revert Hi0 Hpre. generalize (push_all (∅, []) stored).1. generalize (@nil str).
  intros ps st Hi Hpre.
  assert (Hu : forall os ps st sources, union_inv sources st ->
    union_inv (sources ++ trimmed (os ≫= offer_strings)) (fold_left union_step os (st, ps)).1 /\
    st.2 `prefix_of` (fold_left union_step os (st, ps)).1.2).
  { clear. induction os as [|o os IH]; intros ps st sources Hi.
    - cbn. by rewrite app_nil_r.
    - rewrite bind_cons, trimmed_app, app_assoc. cbn [fold_left]. unfold union_step at 2 4.
      destruct (push_all st (offer_strings o)) as [st' c] eqn:E.
      pose proof (push_all_inv sources st (offer_strings o) Hi) as Hi'. pose proof (push_all_prefix st (offer_strings o)) as Hp.
      rewrite E in Hi', Hp. destruct (IH (if c && negb (bool_decide (of_provider_id o ∈ ps)) then ps ++ [of_provider_id o] else ps) st' _ Hi') as [I1 I2].
      split; [exact I1|]. by etrans. }
  destruct (Hu os ps st _ Hi) as [[Hk _] Hp]. destruct (fold_left union_step os (st, ps)) as [[seen values] providers].
  exists values. rewrite trimmed_app. split; [done|]. split; [done|]. intros Hnd. by rewrite <- (Hpre Hnd).
Qed.

End union_facts.

(** ** The plan *)

Section plan_facts.
Context `{DecimalOps} `{Lowercase}.
Implicit Types (existing : option MediaMetadata) (policy : MetadataPolicy).

Definition effective_strategy (rule : FieldPolicy) (f : MetadataField) : PolicyStrategy :=
  if applies_to (fp_strategy rule) f then fp_strategy rule else First.

(** The rule forbids writing the field: the user locked it, or the row has a value and
    the rule prefers it. *)
Definition withheld (locked : list MetadataField) existing (f : MetadataField) (rule : FieldPolicy) : Prop :=
  (fp_lock_respected rule = true /\ f ∈ locked) \/
  (effective_strategy rule f = PreferExisting /\ is_some_and existing (field_is_present f) = true).

(** What a pick for field [f] must be, given the rule and the ordered offers. *)
Definition pick_spec existing (rule : FieldPolicy) (os : list Offer) (pick : FieldPick) : Prop :=
  match pick with
  | Candidate f id =>
      exists o, of_candidate_id o = id /\
        match effective_strategy rule f with
        | First | PreferExisting => List.hd_error os = Some o
        | Longest => first_maximal (fun o => value_length (of_value o)) os o
        | HighestResolution =>
            first_maximal (fun o => default 0 (advertised_cover_width (of_value o))) os o
        | MergeUnion => False
        end
  | Manual f v => effective_strategy rule f = MergeUnion /\ v = (union f os existing).1
  | KeepExisting _ | Clear _ => False
  end.

Lemma plan_field_spec cs existing locked f rule :
  let '(picks, d, locks) := plan_field cs existing locked f rule in
  fd_field d = f /\
  (forall g, g ∈ locks <-> g = f /\ fp_lock_respected rule = true /\ f ∈ locked) /\
  ((picks = [] /\ (storable f = false \/ withheld locked existing f rule \/ offers rule f cs = [])) \/
   (exists pick, picks = [pick] /\ pick_field pick = f /\ storable f = true /\
      ~ withheld locked existing f rule /\ offers rule f cs <> [] /\
      pick_spec existing rule (offers rule f cs) pick)).
Proof.
  unfold plan_field. fold (effective_strategy rule f).
  destruct (fp_lock_respected rule && bool_decide (f ∈ locked)) eqn:El.
  { apply andb_true_iff in El as [El1 El2%bool_decide_eq_true]. split; [done|]. split.
    - intros g. rewrite list_elem_of_singleton. tauto.
    - left. split; [done|]. right. left. by left. }
  assert (Hnl : ~ (fp_lock_respected rule = true /\ f ∈ locked)).
  { intros [E1 E2]. rewrite E1, bool_decide_true in El by done. done. }
  assert (Hlocks : forall g, g ∈ [] <-> g = f /\ fp_lock_respected rule = true /\ f ∈ locked).
  { intros g. split; [intros Hg; by apply not_elem_of_nil in Hg|by intros [_ ?]]. }
  destruct (offers rule f cs) as [|first rest] eqn:Eo.
  { split; [done|]. split; [exact Hlocks|]. left. auto. }
  assert (Hwin : forall o, ~ (effective_strategy rule f = PreferExisting /\
      is_some_and existing (field_is_present f) = true) ->
    pick_spec existing rule (first :: rest) (Candidate f (of_candidate_id o)) ->
    let picks := if storable f then [Candidate f (of_candidate_id o)] else [] in
    (picks = [] /\ (storable f = false \/ withheld locked existing f rule \/ first :: rest = [])) \/
    (exists pick, picks = [pick] /\ pick_field pick = f /\ storable f = true /\
       ~ withheld locked existing f rule /\ first :: rest <> [] /\
       pick_spec existing rule (first :: rest) pick)).
  { intros o Hn Hp. cbv zeta. destruct (storable f); [right|left; by auto]. unfold withheld.
    eexists. split; [done|]. split_and!; [done|done|tauto|done|done]. }
  destruct (effective_strategy rule f) eqn:Es; cbn [fst snd fd_field].
  - split; [done|]. split; [exact Hlocks|]. apply Hwin; [by intros [? _]|]. exists first. by rewrite Es.
  - destruct (union f (first :: rest) existing) as [v providers] eqn:Eu.
    split; [done|]. split; [exact Hlocks|]. destruct (storable f); [right|left; by auto].
    eexists. split; [done|]. split_and!; [done|done| |done|cbn [pick_spec]; by rewrite Eu].
    intros [?|[E _]]; [done|congruence].
  - split; [done|]. split; [exact Hlocks|]. apply Hwin; [by intros [? _]|].
    eexists. rewrite Es. split; [done|]. apply best_first_maximal.
  - destruct (is_some_and existing (field_is_present f)) eqn:Ep.
    + split; [done|]. split; [exact Hlocks|]. left. split; [done|]. right. left. right. by rewrite Es, Ep.
    + split; [done|]. split; [exact Hlocks|]. apply Hwin; [by intros [_ ?]|]. exists first. by rewrite Es.
  - split; [done|]. split; [exact Hlocks|]. apply Hwin; [by intros [? _]|].
    eexists. rewrite Es. split; [done|]. apply best_first_maximal.
Qed.

Lemma plan_picks_elem policy cs existing locked pick :
  pick ∈ pp_picks (plan policy cs existing locked) <->
  exists rule, mp_fields policy !! pick_field pick = Some rule /\
    pick ∈ (plan_field cs existing locked (pick_field pick) rule).1.1.
Proof.
  cbn [pp_picks plan]. rewrite list_elem_of_bind. setoid_rewrite list_elem_of_fmap. split.
  - intros (t & Hp & ([f rule] & -> & Hr%elem_of_btree_iter)). cbn [fst snd] in *.
    pose proof (plan_field_spec cs existing locked f rule) as Hs.
    destruct (plan_field cs existing locked f rule) as [[picks d] locks] eqn:E.
    destruct Hs as (_ & _ & [[-> _]|(p & -> & Hf & _)]); cbn in Hp; [by apply not_elem_of_nil in Hp|].
    apply list_elem_of_singleton in Hp as ->. exists rule. rewrite Hf, E. split; [done|by left].
  - intros (rule & Hr & Hp). eexists. split; [exact Hp|]. exists (pick_field pick, rule).
    split; [done|by apply elem_of_btree_iter].
Qed.

(** The picks name the fields in declaration order, each at most once. *)
Lemma plan_picks_NoDup policy cs existing locked :
  NoDup (pick_field <$> pp_picks (plan policy cs existing locked)).
Proof.
  cbn [pp_picks plan].
  eapply sublist_NoDup; [apply (btree_iter_NoDup (mp_fields policy))|].
  induction (btree_iter (mp_fields policy)) as [|[f rule] rules IH]; [apply sublist_nil_l|].
  rewrite !fmap_cons, bind_cons, fmap_app. cbn [fst snd].
  pose proof (plan_field_spec cs existing locked f rule) as Hs.
  destruct (plan_field cs existing locked f rule) as [[picks d] locks]. cbn [fst snd].
  destruct Hs as (_ & _ & [[-> _]|(p & -> & Hf & _)]); cbn.
  - by apply sublist_cons.
  - rewrite Hf. by apply sublist_skip.
Qed.

Lemma plan_enforced_locks policy cs existing locked f :
  f ∈ pp_enforced_locks (plan policy cs existing locked) <->
  exists rule, mp_fields policy !! f = Some rule /\ fp_lock_respected rule = true /\ f ∈ locked.
Proof.
  cbn [pp_enforced_locks plan]. rewrite list_elem_of_bind. setoid_rewrite list_elem_of_fmap. split.
  - intros (t & Hf & ([g rule] & -> & Hr%elem_of_btree_iter)). cbn [fst snd] in *.
    pose proof (plan_field_spec cs existing locked g rule) as Hs.
    destruct (plan_field cs existing locked g rule) as [[picks d] locks]. cbn in Hf.
    destruct Hs as (_ & Hl & _). apply Hl in Hf as (-> & ? & ?). by exists rule.
  - intros (rule & Hr & Hlr & Hl). eexists. split; [|exists (f, rule); split; [done|by apply elem_of_btree_iter]].
    cbn [fst snd]. pose proof (plan_field_spec cs existing locked f rule) as Hs.
    destruct (plan_field cs existing locked f rule) as [[picks d] locks]. destruct Hs as (_ & Hx & _). by apply Hx.
Qed.

(** The plan is exact: one decision per rule in declaration order; the enforced
    locks are the locked fields whose rule respects locks; a field is picked exactly
    when its rule has an offer, the field can be stored and nothing withholds it; and
    the pick is the one the strategy prescribes -- the first offer, the first of the
    longest, the first of the widest covers, or the union.  Offers are those of the
    listed providers' candidates, the head preferred by provider order, confidence and
    id. *)
Theorem plan_exact policy cs existing locked :
  let p := plan policy cs existing locked in
  fd_field <$> pp_decisions p = (btree_iter (mp_fields policy)).*1 /\
  (forall f, f ∈ pp_enforced_locks p <->
     exists rule, mp_fields policy !! f = Some rule /\ fp_lock_respected rule = true /\ f ∈ locked) /\
  NoDup (pick_field <$> pp_picks p) /\
  (forall f, f ∈ (pick_field <$> pp_picks p) <->
     exists rule, mp_fields policy !! f = Some rule /\ storable f = true /\
       ~ withheld locked existing f rule /\ offers rule f cs <> []) /\
  (forall pick, pick ∈ pp_picks p ->
     exists rule, mp_fields policy !! pick_field pick = Some rule /\
       pick_spec existing rule (offers rule (pick_field pick) cs) pick) /\
  (forall rule f first rest, offers rule f cs = first :: rest -> Forall (preferred rule first) (first :: rest)).
Proof.
  cbv zeta. split_and!.
  - cbn [pp_decisions plan]. rewrite <- !list_fmap_compose. apply list_fmap_ext. intros i [f rule] _. cbn.
    pose proof (plan_field_spec cs existing locked f rule) as Hs.
    destruct (plan_field cs existing locked f rule) as [[picks d] locks]. by destruct Hs.
  - apply plan_enforced_locks.
  - apply plan_picks_NoDup.
  - intros f. rewrite list_elem_of_fmap. split.
    + intros (pick & -> & (rule & Hr & Hp)%plan_picks_elem). exists rule.
      pose proof (plan_field_spec cs existing locked (pick_field pick) rule) as Hs.
      destruct (plan_field cs existing locked (pick_field pick) rule) as [[picks d] locks]. cbn in Hp.
      destruct Hs as (_ & _ & [[-> _]|(p & _ & _ & Hst & Hw & Ho & _)]); [by apply not_elem_of_nil in Hp|done].
    + intros (rule & Hr & Hst & Hw & Ho).
      pose proof (plan_field_spec cs existing locked f rule) as Hs.
      destruct (plan_field cs existing locked f rule) as [[picks d] locks] eqn:E.
      destruct Hs as (_ & _ & [[-> [Hn|[Hn|Hn]]]|(p & -> & Hf & _)]); [congruence|done|done|].
      exists p. split; [done|]. apply plan_picks_elem. exists rule. rewrite Hf, E. split; [done|by left].
  - intros pick (rule & Hr & Hp)%plan_picks_elem. exists rule. split; [done|].
    pose proof (plan_field_spec cs existing locked (pick_field pick) rule) as Hs.
    destruct (plan_field cs existing locked (pick_field pick) rule) as [[picks d] locks]. cbn in Hp.
    destruct Hs as (_ & _ & [[-> _]|(p & -> & _ & _ & _ & _ & Hsp)]); [by apply not_elem_of_nil in Hp|].
    by apply list_elem_of_singleton in Hp as ->.
  - intros rule f first rest. apply offers_head.
Qed.

(** ** From the plan to the row *)

Lemma find_by_id (models : list CandidateModel) c :
  NoDup (cm_id <$> models) -> c ∈ models ->
  List.find (fun c' => bool_decide (cm_id c' = cm_id c)) models = Some c.
Proof.
  intros Hnd Hc. destruct (List.find _ models) as [c'|] eqn:E.
  - apply find_Some_iff in E as [Hc' He%bool_decide_eq_true].
    apply list_elem_of_lookup in Hc as [i Hi], Hc' as [j Hj].
    assert (i = j) as ->; [|congruence].
    apply (NoDup_lookup _ i j (cm_id c) Hnd); rewrite list_lookup_fmap, ?Hi, ?Hj; cbn; congruence.
  - rewrite find_None_iff in E. specialize (E c Hc). by rewrite bool_decide_true in E.
Qed.

Lemma list_value_strings f v :
  is_list_field f = true -> valid_value f v = true ->
  exists items, as_array v = Some items /\ exists ss, mapM as_str items = Some ss.
Proof.
  intros Hf Hv. assert (Hs : is_some_and (as_array v) (forallb is_string) = true) by (by destruct f).
  destruct (as_array v) as [items|]; [|done]. exists items. split; [done|]. cbn in Hs.
  rewrite forallb_forall in Hs. apply mapM_is_Some_2, Forall_forall. intros x Hx%list_elem_of_In.
  specialize (Hs x Hx). unfold is_string in Hs. cbn. destruct (as_str x); [by eexists|done].
Qed.

Lemma hd_error_elem {A} (l : list A) x : List.hd_error l = Some x -> x ∈ l.
Proof. destruct l; [done|]. intros [= ->]. by left. Qed.

Lemma union_array f os existing : exists values, (union f os existing).1 = JArray (JString <$> values).
Proof. unfold union. destruct (fold_left _ _ _) as [[seen values] providers]. by exists values. Qed.

Lemma first_maximal_elem score os o : first_maximal score os o -> o ∈ os.
Proof. intros (l1 & l2 & -> & _). apply elem_of_app. right. by left. Qed.

(** The candidate a pick names is one of the rows, and offers the field. *)
Lemma plan_candidate_source policy models existing locked f id :
  Candidate f id ∈ pp_picks (plan policy (from_models models) existing locked) ->
  exists c fields v, c ∈ models /\ cm_id c = id /\ parse_fields (cm_fields c) = Some fields /\
    fields !! f = Some v /\ offered v = true.
Proof.
  intros (rule & Hr & Hp)%plan_picks_elem. cbn [pick_field] in *.
  pose proof (plan_field_spec (from_models models) existing locked f rule) as Hs.
  destruct (plan_field _ existing locked f rule) as [[picks d] locks]. cbn in Hp.
  destruct Hs as (_ & _ & [[-> _]|(p & -> & _ & _ & _ & _ & Hsp)]); [by apply not_elem_of_nil in Hp|].
  apply list_elem_of_singleton in Hp as <-. destruct Hsp as (o & <- & Hw).
  assert (Ho : o ∈ offers rule f (from_models models)).
  { destruct (effective_strategy rule f); try done; try (by eapply first_maximal_elem).
    all: by apply hd_error_elem. }
  apply elem_of_offers in Ho as (pc & (c & Hc & Epc)%list_elem_of_omap & _ & Ho).
  unfold from_model in Epc. apply fmap_Some in Epc as (fields & Ef & ->).
  unfold candidate_offer in Ho. cbn in Ho. apply bind_Some in Ho as (v & Hv & [Hoff <-]%then_some_Some).
  by exists c, fields, v.
Qed.

(** The recipe a plan hands to the apply path is well formed. *)
Lemma plan_recipe_valid policy models existing locked :
  Forall (fun c => non_empty (cm_id c) = true) models ->
  validate_picks (pp_picks (plan policy (from_models models) existing locked)) = Ok tt.
Proof.
  intros Hids. apply validate_picks_Ok. split; [apply plan_picks_NoDup|].
  apply Forall_forall. intros pick Hpick. pose proof Hpick as (rule & Hr & Hp)%plan_picks_elem.
  pose proof (plan_field_spec (from_models models) existing locked (pick_field pick) rule) as Hs.
  destruct (plan_field _ existing locked _ rule) as [[picks d] locks]. cbn in Hp.
  destruct Hs as (_ & _ & [[-> _]|(p & -> & _ & Hst & _ & _ & Hsp)]); [by apply not_elem_of_nil in Hp|].
  apply list_elem_of_singleton in Hp as <-. split; [by apply bool_decide_eq_true in Hst|].
  destruct pick as [f|f id|f v|f]; [done| | |done].
  - apply plan_candidate_source in Hpick as (c & _ & _ & Hc & <- & _).
    by apply (Forall_forall _ _) with (x := c) in Hids.
  - destruct Hsp as [Hm ->]. destruct (union_array f (offers rule f (from_models models)) existing) as (values & E).
    cbn [pick_field] in E |- *. rewrite E. split; [done|]. unfold effective_strategy in Hm. destruct (applies_to (fp_strategy rule) f) eqn:Ea; [|done].
    rewrite Hm in Ea. destruct f; try done; cbn; apply forallb_forall; by intros ? (? & <- & _)%in_map_iff.
Qed.

(** C34.  Auto-apply, from the stored candidates to the row: the plan's recipe always
    passes the apply path's validation, a candidate it picks can only be refused for
    the type of its value, and when the recipe is applied under the plan's enforced
    locks, a field the user locked keeps its columns unless its rule opts out of locks,
    and a field without a rule keeps its columns whatever the candidates say. *)
Theorem auto_apply_safe policy models existing locked strategy drop_item source :
  Forall (fun c => non_empty (cm_id c) = true) models -> NoDup (cm_id <$> models) ->
  let p := plan policy (from_models models) existing locked in
  validate_picks (pp_picks p) = Ok tt /\
  (forall pick, pick ∈ pp_picks p ->
     is_ok (resolve_pick models existing strategy pick) = true \/
     resolve_pick models existing strategy pick = Err (InvalidValue (pick_field pick))) /\
  (forall r m', resolve_picks_for_context (pp_picks p) models existing (pp_enforced_locks p) strategy
                  drop_item source = Ok r ->
     apply_row existing r = Ok m' ->
     forall f, (f ∈ locked /\ forall rule, mp_fields policy !! f = Some rule -> fp_lock_respected rule = true) \/
               mp_fields policy !! f = None ->
       same_field f (default empty_metadata existing) m').
Proof.
  intros Hids Hnd. cbv zeta. split; [by apply plan_recipe_valid|]. split.
  - intros pick Hpick. destruct pick as [f|f id|f v|f]; [by left| |by left|by left].
    apply plan_candidate_source in Hpick as (c & fields & v & Hc & <- & Hf & Hv & _).
    cbn [resolve_pick pick_field]. rewrite (find_by_id models c Hnd Hc), Hf, Hv.
    unfold validate_value. destruct (valid_value f v) eqn:Ev; [|by right]. cbn [result_bind].
    destruct (should_apply_candidate f existing strategy); [|by left].
    unfold merge_candidate_value. destruct (negb (merges_lists strategy) || negb (is_list_field f)) eqn:El; [by left|].
    destruct (existing ≫= existing_list f); [|by left].
    apply orb_false_iff in El as [_ El%negb_false_iff].
    destruct (list_value_strings f v El Ev) as (items & -> & ss & ->). by left.
  - intros r m' Hres Happly f Hf. pose proof (resolve_picks_effects _ _ _ _ _ _ _ _ Hres) as [H1 H2].
    apply apply_row_Ok in Happly as (m1 & Hv & ->).
    assert (Hout : forall effect, ~ resolved_effect models existing
       (pp_enforced_locks (plan policy (from_models models) existing locked)) strategy
       (pp_picks (plan policy (from_models models) existing locked)) f effect).
    { intros effect (pick & (rule & Hr & Hp)%plan_picks_elem & Ef & Hnl & _). rewrite Ef in *.
      destruct Hf as [[Hl Hlr]|Hn]; [|congruence]. apply Hnl.
      by apply plan_enforced_locks; exists rule; auto. }
    etrans; [apply (apply_values_frame _ _ _ Hv (btree_iter_NoDup _))|apply clears_frame].
    + apply btree_iter_not_elem, eq_None_not_Some. intros [v Hx%H1]. by eapply Hout.
    + intros Hx%H2. by eapply Hout.
Qed.

End plan_facts.

(** ** Validation and overrides *)

(** The documents [policy_validate] is meant to let through. *)
Definition policy_ok (known : list str) (p : MetadataPolicy) : Prop :=
  (forall f rule, mp_fields p !! f = Some rule ->
     applies_to (fp_strategy rule) f = true /\ NoDup (fp_providers rule) /\ fp_providers rule ⊆ known) /\
  (forall a, mp_audio p = Some a ->
     single_file_weight a <= MAX_CHECK_WEIGHT /\ (keep_original a = false -> auto_assemble a = true)).

Lemma check_providers_Ok known f seen providers :
  check_providers known f seen providers = Ok tt <->
  providers ⊆ known /\ NoDup providers /\ Forall (fun p => p ∉ seen) providers.
Proof.
  revert seen. induction providers as [|p ps IH]; intros seen; simpl.
  { split; [|done]. intros _. split_and!; [apply list_subseteq_nil|apply NoDup_nil_2|constructor]. }
  rewrite !early_Ok, negb_false_iff, bool_decide_eq_true, bool_decide_eq_false, IH.
  rewrite NoDup_cons, Forall_cons, list_subseteq_cons_iff, !Forall_forall.
  setoid_rewrite not_elem_of_cons. split.
  - intros (Hk & Hs & Hsub & Hnd & Hall). split_and!; try done; [by intros Hp; destruct (Hall p Hp)|].
    intros q Hq. by apply Hall.
  - intros ([Hk Hsub] & [Hp Hnd] & Hs & Hall). split_and!; try done. intros q Hq.
    split; [by intros ->|by apply Hall].
Qed.

Lemma check_rules_Ok known rules :
  check_rules known rules = Ok tt <->
  Forall (fun fr => applies_to (fp_strategy fr.2) fr.1 = true /\ NoDup (fp_providers fr.2) /\
                    fp_providers fr.2 ⊆ known) rules.
Proof.
  induction rules as [|[f rule] rules IH]; simpl; [by split; [constructor|]|].
  rewrite early_Ok, negb_false_iff, Forall_cons, <- IH. cbn.
  assert (Hn : Forall (fun p : str => p ∉ []) (fp_providers rule))
    by (apply Forall_true; intros; apply not_elem_of_nil).
  pose proof (check_providers_Ok known f [] (fp_providers rule)) as Hc. rewrite result_bind_Ok. split.
  - intros (Ha & [] & Hp & Hr). apply Hc in Hp as (? & ? & _). done.
  - intros ((Ha & Hnd & Hsub) & Hr). split; [done|]. exists tt. split; [by apply Hc|done].
Qed.

Lemma policy_validate_Ok p known : policy_validate p known = Ok tt <-> policy_ok known p.
Proof.
  unfold policy_validate, policy_ok. rewrite result_bind_Ok.
  assert (Hr : check_rules known (btree_iter (mp_fields p)) = Ok tt <->
    forall f rule, mp_fields p !! f = Some rule ->
     applies_to (fp_strategy rule) f = true /\ NoDup (fp_providers rule) /\ fp_providers rule ⊆ known).
  { rewrite check_rules_Ok, Forall_forall. split.
    - intros Hall f rule Hf. apply (Hall (f, rule)). by apply elem_of_btree_iter.
    - intros Hall [f rule] Hin. by apply Hall, elem_of_btree_iter. }
  assert (Ha : (match mp_audio p with Some audio => audio_validate audio | None => Ok tt end) = Ok tt <->
    forall a, mp_audio p = Some a ->
     single_file_weight a <= MAX_CHECK_WEIGHT /\ (keep_original a = false -> auto_assemble a = true)).
  { destruct (mp_audio p) as [a|]; [|by split]. unfold audio_validate. rewrite !early_Ok, Z.ltb_ge. split.
    - intros (Hw & Hk & _) a' [= <-]. split; [done|]. intros E. rewrite E in Hk. by destruct (auto_assemble a).
    - intros Hall. destruct (Hall a eq_refl) as [Hw Hk]. split_and!; [done| |done].
      destruct (keep_original a); [done|]. by rewrite Hk. }
  rewrite <- Ha, <- Hr. split; [by intros ([] & ?)|]. intros [??]. by exists tt.
Qed.

Lemma overlay_lookup base over f :
  mp_fields (overlay base over) !! f = mp_fields over !! f orelse mp_fields base !! f.
Proof.
  cbn [overlay mp_fields]. pose proof (btree_iter_NoDup (mp_fields over)) as Hnd.
  assert (Hin : forall r, mp_fields over !! f = Some r <-> (f, r) ∈ btree_iter (mp_fields over))
    by (intros; by rewrite elem_of_btree_iter).
  revert Hin Hnd. generalize (mp_fields over !! f), (mp_fields base), (btree_iter (mp_fields over)).
  intros o fields rules. revert fields. induction rules as [|[g r] rules IH]; intros fields Hin Hnd; cbn.
  - destruct o as [r|]; [|done]. pose proof (proj1 (Hin r) eq_refl) as Hx. by apply not_elem_of_nil in Hx.
  - rewrite fmap_cons, NoDup_cons in Hnd. cbn in Hnd. destruct Hnd as [Hg Hnd].
    destruct (decide (g = f)) as [->|Hne].
    + assert (o = Some r) as -> by (apply Hin; by left). cbn.
      assert (Hskip : forall rules (m : gmap MetadataField FieldPolicy), f ∉ rules.*1 ->
        fold_left (fun m fr => <[ fr.1 := fr.2 ]> m) rules m !! f = m !! f).
      { clear. induction rules as [|[g r] rules IH]; intros m Hf; [done|]. cbn.
        rewrite fmap_cons, not_elem_of_cons in Hf. rewrite IH by tauto. apply lookup_insert_ne. naive_solver. }
      rewrite Hskip by done. apply lookup_insert_eq.
    + rewrite IH; [by rewrite lookup_insert_ne| |done]. intros r'. rewrite Hin, elem_of_cons.
      split; [by intros [[= -> _]|?]|by right].
Qed.

(** ** The stored override *)

(** The derived [Serialize] and [Deserialize] of a policy document. *)
Class PolicyCodec := {
  policy_to_string : MetadataPolicy -> result str str;
  policy_from_str : str -> result MetadataPolicy str;
}.

Class PolicyCodecLaws `{PolicyCodec} : Prop := {
  policy_codec_roundtrip : forall p s, policy_to_string p = Ok s -> policy_from_str s = Ok p;
}.

(** The two tables; the head of [pd_faults] says whether the next statement fails. *)
Record PolicyDb := {
  pd_libraries : gmap str Z;
  pd_configs : gmap Z (option str);
  pd_faults : list bool;
}.

Abbreviation PDB A := (PolicyDb -> result A PolicyError * PolicyDb).

Definition with_faults (db : PolicyDb) (faults : list bool) : PolicyDb :=
  {| pd_libraries := pd_libraries db; pd_configs := pd_configs db; pd_faults := faults |}.

Definition policy_statement {A} (run : PolicyDb -> A * PolicyDb) : PDB A := fun db =>
  match pd_faults db with
  | true :: faults => (Err PolicyDatabase, with_faults db faults)
  | false :: faults => let '(a, db) := run (with_faults db faults) in (Ok a, db)
  | [] => let '(a, db) := run db in (Ok a, db)
  end.

Definition ok_or {A} (o : option A) (e : PolicyError) : PDB A := fun db =>
  match o with Some a => (Ok a, db) | None => (Err e, db) end.

(** The id and the document of the library's configuration row. *)
Definition library_config_for (library_id : str) : PDB (Z * option str) :=
  library <-- policy_statement (fun db => (pd_libraries db !! library_id, db)) ;;
  config_id <-- ok_or library (UnknownLibrary library_id) ;;
  config <-- policy_statement (fun db => (pd_configs db !! config_id, db)) ;;
  document <-- ok_or config (MissingLibraryConfig library_id) ;;
  db_ret (config_id, document).

Record EffectivePolicy := {
  ep_library_id : str;
  ep_policy : MetadataPolicy;
  ep_override : option MetadataPolicy;
}.

Definition is_overridden (e : EffectivePolicy) (f : MetadataField) : bool :=
  is_some_and (ep_override e) (fun p => negb (is_none (mp_fields p !! f))).

Definition audio_overridden (e : EffectivePolicy) : bool :=
  is_some_and (ep_override e) (fun p => negb (is_none (mp_audio p))).

Section store.
Context `{PolicyCodec}.

Definition library_override (library_id : str) : PDB (option MetadataPolicy) :=
  config <-- library_config_for library_id ;;
  match config.2 with
  | None => db_ret None
  | Some document =>
      match policy_from_str document with
      | Ok p => db_ret (Some p)
      | Err message => db_err (Invalid library_id message)
      end
  end.

Definition effective_policy (library_id : str) : PDB EffectivePolicy :=
  over <-- library_override library_id ;;
  db_ret {| ep_library_id := library_id;
            ep_policy := match over with Some o => overlay server_default o | None => server_default end;
            ep_override := over |}.

Definition set_library_override (library_id : str) (policy : option MetadataPolicy) (known : list str)
  : PDB EffectivePolicy :=
  _ <-- (match policy with
         | Some p => fun db => (policy_validate p known, db)
         | None => db_ret tt
         end) ;;
  document <-- (match policy with
                | Some p =>
                    match policy_to_string p with
                    | Ok s => db_ret (Some s)
                    | Err message => db_err (Invalid library_id message)
                    end
                | None => db_ret None
                end) ;;
  config <-- library_config_for library_id ;;
  _ <-- policy_statement (fun db =>
          (tt, {| pd_libraries := pd_libraries db; pd_configs := <[ config.1 := document ]> (pd_configs db);
                  pd_faults := pd_faults db |})) ;;
  effective_policy library_id.

End store.

Section store_facts.
Context `{PolicyCodecLaws}.

Lemma policy_statement_ok {A} (run : PolicyDb -> A * PolicyDb) db :
  pd_faults db = [] -> policy_statement run db = (Ok (run db).1, (run db).2).
Proof. intros E. unfold policy_statement. rewrite E. by destruct (run db). Qed.

Lemma library_config_for_ok library_id db cid doc :
  pd_faults db = [] -> pd_libraries db !! library_id = Some cid -> pd_configs db !! cid = Some doc ->
  library_config_for library_id db = (Ok (cid, doc), db).
Proof.
  intros Hf Hl Hc. unfold library_config_for, db_bind. rewrite policy_statement_ok by done. cbn. rewrite Hl.
  cbn. rewrite policy_statement_ok by done. cbn. by rewrite Hc.
Qed.

(** The effective policy of a library whose stored document parses to [over]. *)
Definition effective_of (library_id : str) (over : option MetadataPolicy) : EffectivePolicy :=
  {| ep_library_id := library_id;
     ep_policy := match over with Some o => overlay server_default o | None => server_default end;
     ep_override := over |}.

Lemma effective_policy_ok library_id db cid doc over :
  pd_faults db = [] -> pd_libraries db !! library_id = Some cid -> pd_configs db !! cid = Some doc ->
  match doc with Some s => policy_from_str s = Ok (default server_default over) /\ over <> None | None => over = None end ->
  effective_policy library_id db = (Ok (effective_of library_id over), db).
Proof.
  intros Hf Hl Hc Hd. unfold effective_policy, library_override, db_bind.
  rewrite (library_config_for_ok _ _ _ _ Hf Hl Hc). cbn. destruct doc as [s|]; [|by subst].
  destruct Hd as [-> Hne]. by destruct over.
Qed.

(** Storing an override: a document is refused exactly when a rule names an unknown
    or repeated provider or a strategy its field cannot have, or the audio section is
    out of range or would delete sources it does not replace; a refusal touches
    nothing.  An accepted override is stored for that library's configuration only, the
    returned policy is the override field by field with the server default beneath it,
    and reading it back gives the same policy. *)
Theorem set_override_exact library_id policy known db cid doc :
  pd_faults db = [] -> pd_libraries db !! library_id = Some cid -> pd_configs db !! cid = Some doc ->
  (forall p, policy = Some p -> exists s, policy_to_string p = Ok s) ->
  let set := set_library_override library_id policy known db in
  (is_ok set.1 = true <-> forall p, policy = Some p -> policy_ok known p) /\
  (is_ok set.1 = false -> set.2 = db) /\
  (forall e db', set = (Ok e, db') ->
     (forall f, mp_fields (ep_policy e) !! f =
        (policy ≫= fun p => mp_fields p !! f) orelse mp_fields server_default !! f) /\
     (forall f, is_overridden e f = true <-> exists p rule, policy = Some p /\ mp_fields p !! f = Some rule) /\
     policy_audio (ep_policy e) = default audio_server_default (policy ≫= mp_audio) /\
     effective_policy library_id db' = (Ok e, db') /\
     (forall cid', cid' <> cid -> pd_configs db' !! cid' = pd_configs db !! cid')).
Proof.
  intros Hf Hl Hc Hser. cbv zeta.
  assert (Hcase : (exists p err, policy = Some p /\ policy_validate p known = Err err /\
      set_library_override library_id policy known db = (Err err, db)) \/
    ((forall p, policy = Some p -> policy_ok known p) /\ exists document,
      match document with
      | Some s => exists p, policy = Some p /\ policy_from_str s = Ok p
      | None => policy = None end /\
      set_library_override library_id policy known db =
        (Ok (effective_of library_id policy),
         {| pd_libraries := pd_libraries db; pd_configs := <[ cid := document ]> (pd_configs db); pd_faults := [] |}))).
  { assert (Hset : forall document, match document with
      | Some s => exists p, policy = Some p /\ policy_from_str s = Ok p
      | None => policy = None end ->
      (config <-- library_config_for library_id ;;
       _ <-- policy_statement (fun db =>
          (tt, {| pd_libraries := pd_libraries db; pd_configs := <[ config.1 := document ]> (pd_configs db);
                  pd_faults := pd_faults db |})) ;;
       effective_policy library_id) db =
       (Ok (effective_of library_id policy),
         {| pd_libraries := pd_libraries db; pd_configs := <[ cid := document ]> (pd_configs db); pd_faults := [] |})).
    { intros document Hd. rewrite (db_bind_run _ _ _ _ _ (library_config_for_ok _ _ _ _ Hf Hl Hc)).
      etrans; [apply db_bind_run; by apply policy_statement_ok|]. cbn [fst snd]. rewrite Hf.
      apply (effective_policy_ok _ _ cid document); [done|done|apply lookup_insert_eq|].
      destruct document as [s|]; [|done]. destruct Hd as (p & -> & ->). done. }
    unfold set_library_override. destruct policy as [p|].
    - destruct (policy_validate p known) as [[]|err] eqn:Ev.
      + right. split; [by intros p' [= <-]; apply policy_validate_Ok|].
        destruct (Hser p eq_refl) as [s Es]. exists (Some s).
        assert (Hs : exists p', Some p = Some p' /\ policy_from_str s = Ok p')
          by (exists p; split; [done|by apply policy_codec_roundtrip]).
        split; [exact Hs|]. etrans; [|exact (Hset (Some s) Hs)].
        etrans; [by apply (db_bind_run _ _ db tt db)|]. by rewrite Es.
      + left. exists p, err. split_and!; [done|done|]. by apply db_bind_fail.
    - right. split; [done|]. exists None. split; [done|]. by apply (Hset None). }
  destruct Hcase as [(p & err & -> & Ev & ->)|(Hok & document & Hd & ->)].
  - split_and!; [|done|done]. cbn. split; [done|]. intros Hp. specialize (Hp p eq_refl).
    apply policy_validate_Ok in Hp. congruence.
  - split_and!; [by split|done|]. intros e db' [= <- <-]. split_and!.
    + intros f. destruct policy as [p|]; [exact (overlay_lookup server_default p f)|done].
    + intros f. unfold is_overridden. destruct policy as [p|]; cbn; [|naive_solver].
      destruct (mp_fields p !! f) as [rule|] eqn:E; cbn; [|naive_solver]. split; [by exists p, rule|done].
    + unfold policy_audio. destruct policy as [p|]; [|done]. cbn [effective_of ep_policy overlay mp_audio mbind option_bind].
      by destruct (mp_audio p).
    + apply (effective_policy_ok _ _ cid document); [done|done|apply lookup_insert_eq|].
      destruct document as [s|]; [|done]. destruct Hd as (p & -> & ->). done.
    + intros cid' Hne. cbn. by rewrite lookup_insert_ne.
Qed.

End store_facts.

(** ** Witnesses *)

#[local] Instance demo_decimal : DecimalOps :=
  {| Decimal := f64; decimal_of_f64 := Some; decimal_parse_f64 := Some |}.

#[local] Instance demo_lowercase : Lowercase := {| to_lowercase := map to_ascii_lowercase |}.

Definition demo_rows : list CandidateModel :=
  [ {| cm_id := lit "c1"; cm_drop_item_id := Some (lit "i"); cm_media_id := None;
       cm_provider_id := lit "mal"; cm_confidence := f64_one; cm_source_sha256 := lit "ab";
       cm_fields := JObject [(lit "TITLE", JString (lit "From MAL")); (lit "GENRES", JArray [JString (lit "Drama")])] |};
    {| cm_id := lit "c2"; cm_drop_item_id := Some (lit "i"); cm_media_id := None;
       cm_provider_id := lit "mangaupdates"; cm_confidence := f64_zero; cm_source_sha256 := lit "ab";
       cm_fields := JObject [(lit "TITLE", JString (lit "From MU")); (lit "GENRES", JArray [JString (lit "drama"); JString (lit "Action")])] |} ].

(** The higher-priority provider wins whatever its confidence; lists are merged. *)
Example demo_plan :
  pp_picks (plan server_default (from_models demo_rows) None []) =
    [Candidate Title (lit "c2"); Manual Genres (JArray [JString (lit "drama"); JString (lit "Action")])].
Proof. vm_compute. reflexivity. Qed.

Lemma auto_apply_safe_witness :
  validate_picks (pp_picks (plan server_default (from_models demo_rows) None [Title])) = Ok tt.
Proof.
  apply (auto_apply_safe server_default demo_rows None [Title] FillGaps None None).
  - repeat constructor.
  - apply (bool_decide_unpack _). vm_compute. exact I.
Defined.

#[local] Instance FieldPolicy_eq_dec : EqDecision FieldPolicy.
Proof. solve_decision. Defined.

#[local] Instance AudioPolicy_eq_dec : EqDecision AudioPolicy.
Proof. solve_decision. Defined.

#[local] Instance MetadataPolicy_eq_dec : EqDecision MetadataPolicy.
Proof. solve_decision. Defined.

Definition demo_policy : MetadataPolicy :=
  {| mp_fields := {[ Title := field_policy [lit "mal"] Longest ]}; mp_audio := None |}.

(** A codec that knows one document. *)
#[local] Instance demo_codec : PolicyCodec :=
  {| policy_to_string := fun p => if bool_decide (p = demo_policy) then Ok (lit "doc") else Err (lit "unsupported");
     policy_from_str := fun s => if bool_decide (s = lit "doc") then Ok demo_policy else Err (lit "unknown") |}.

#[local] Instance demo_codec_laws : PolicyCodecLaws.
Proof. split. intros p s. cbn. case_bool_decide as E; [|done]. intros [= <-]. by rewrite bool_decide_true, E. Qed.

Lemma set_override_exact_witness :
  is_ok (set_library_override (lit "lib") (Some demo_policy) [lit "mal"]
    {| pd_libraries := {[ lit "lib" := 7 ]}; pd_configs := {[ 7 := None ]}; pd_faults := [] |}).1 = true.
Proof.
  apply (set_override_exact (lit "lib") (Some demo_policy) [lit "mal"]
    {| pd_libraries := {[ lit "lib" := 7 ]}; pd_configs := {[ 7 := None ]}; pd_faults := [] |} 7 None).
  - reflexivity.
  - vm_compute. reflexivity.
  - vm_compute. reflexivity.
  - intros p [= <-]. exists (lit "doc"). vm_compute. reflexivity.
  - intros p [= <-]. apply policy_validate_Ok. vm_compute. reflexivity.
Defined.
