(* ===== verification/CoverFetch.v ===== *)
(** * Where a cover may be downloaded from

    Models the network guard of [src/crates/ingest/src/providers/apply.rs]:
    [is_public_ip], [is_allowed_cover_hostname], [validated_cover_endpoint], the
    redirect loop of [fetch_cover_response], and [download_cover].  URL parsing, name
    resolution and the HTTP client are third-party code: a URL is the record of what its
    accessors return, and the rest are the operations of the class [CoverNetwork].
    Content types come from [MediaTypes]. *)

From stdpp Require Import base list strings.
From Stdlib Require Import ZArith Lia Sorted.
From S2P Require Import Prelude MediaTypes.

#[local] Open Scope Z_scope.
#[local] Open Scope coppice_scope.

(** ** Addresses *)

(** The octets, and the eight 16-bit segments. *)
Inductive IpAddr :=
| V4 (a b c d : Z)
| V6 (s0 s1 s2 s3 s4 s5 s6 s7 : Z).

Definition octet (n : Z) : Prop := 0 <= n <= 255.
Definition segment (n : Z) : Prop := 0 <= n <= 65535.

Definition ip_wf (ip : IpAddr) : Prop :=
  match ip with
  | V4 a b c d => octet a /\ octet b /\ octet c /\ octet d
  | V6 s0 s1 s2 s3 s4 s5 s6 s7 =>
      segment s0 /\ segment s1 /\ segment s2 /\ segment s3 /\
      segment s4 /\ segment s5 /\ segment s6 /\ segment s7
  end.

(** The predicates of [std::net::Ipv4Addr]. *)
Definition v4_is_private (a b c d : Z) : bool :=
  (a =? 10) || ((a =? 172) && (16 <=? b) && (b <=? 31)) || ((a =? 192) && (b =? 168)).
Definition v4_is_loopback (a b c d : Z) : bool := a =? 127.
Definition v4_is_link_local (a b c d : Z) : bool := (a =? 169) && (b =? 254).
Definition v4_is_unspecified (a b c d : Z) : bool := (a =? 0) && (b =? 0) && (c =? 0) && (d =? 0).
Definition v4_is_multicast (a b c d : Z) : bool := (224 <=? a) && (a <=? 239).
Definition v4_is_broadcast (a b c d : Z) : bool := (a =? 255) && (b =? 255) && (c =? 255) && (d =? 255).

Definition is_public_v4 (a b c d : Z) : bool :=
  negb (v4_is_private a b c d)
  && negb (v4_is_loopback a b c d)
  && negb (v4_is_link_local a b c d)
  && negb (v4_is_unspecified a b c d)
  && negb (v4_is_multicast a b c d)
  && negb (v4_is_broadcast a b c d)
  && negb (a =? 0) && (a <? 224)
  && negb ((a =? 100) && ((64 <=? b) && (b <=? 127)))
  && negb ((a =? 192) && (b =? 0) && (c <=? 2))
  && negb ((a =? 192) && (b =? 0) && (c =? 9))
  && negb ((a =? 192) && (b =? 0) && (c =? 10))
  && negb ((a =? 192) && (b =? 88) && (c =? 99))
  && negb ((a =? 198) && (b =? 18))
  && negb ((a =? 198) && (b =? 19))
  && negb ((a =? 198) && (b =? 51) && (c =? 100))
  && negb ((a =? 203) && (b =? 0) && (c =? 113)).

(** The predicates of [std::net::Ipv6Addr]. *)
Definition v6_is_loopback (s0 s1 s2 s3 s4 s5 s6 s7 : Z) : bool :=
  forallb (Z.eqb 0) [s0; s1; s2; s3; s4; s5; s6] && (s7 =? 1).
Definition v6_is_unspecified (s0 s1 s2 s3 s4 s5 s6 s7 : Z) : bool :=
  forallb (Z.eqb 0) [s0; s1; s2; s3; s4; s5; s6; s7].
Definition v6_is_multicast (s0 : Z) : bool := Z.land s0 0xff00 =? 0xff00.

Definition is_public_v6 (s0 s1 s2 s3 s4 s5 s6 s7 : Z) : bool :=
  if forallb (Z.eqb 0) [s0; s1; s2; s3; s4] && (s5 =? 0xffff) then
    is_public_v4 (Z.shiftr s6 8) (Z.land s6 0xff) (Z.shiftr s7 8) (Z.land s7 0xff)
  else
    (Z.land s0 0xe000 =? 0x2000)
    && negb (Z.land s0 0xfe00 =? 0xfc00)
    && negb (Z.land s0 0xffc0 =? 0xfe80)
    && negb ((s0 =? 0x2001) && (s1 =? 0x0db8))
    && negb (s0 =? 0x2002)
    && negb (v6_is_loopback s0 s1 s2 s3 s4 s5 s6 s7)
    && negb (v6_is_unspecified s0 s1 s2 s3 s4 s5 s6 s7)
    && negb (v6_is_multicast s0).

Definition is_public_ip (ip : IpAddr) : bool :=
  match ip with
  | V4 a b c d => is_public_v4 a b c d
  | V6 s0 s1 s2 s3 s4 s5 s6 s7 => is_public_v6 s0 s1 s2 s3 s4 s5 s6 s7
  end.

(** ** Host names *)

Definition is_allowed_cover_hostname (host : str) : bool :=
  let host := map to_ascii_lowercase (drop_while_end (Z.eqb 46) host) in
  negb (bool_decide (host = []))
  && negb (bool_decide (37 ∈ host))
  && negb (bool_decide (host = lit "localhost"))
  && negb (ends_with host (lit ".localhost"))
  && negb (ends_with host (lit ".local"))
  && negb (ends_with host (lit ".localdomain"))
  && negb (ends_with host (lit ".internal"))
  && negb (ends_with host (lit ".lan"))
  && negb (ends_with host (lit ".home.arpa"))
  && negb (ends_with host (lit ".test"))
  && negb (ends_with host (lit ".invalid"))
  && negb (ends_with host (lit ".example")).

(** ** Endpoints *)

(** A parsed URL, as its accessors show it. *)
Record Url := {
  url_text : str;
  url_scheme : str;
  url_host : option str;
  url_username : str;
  url_password : option str;
  url_port : option Z;
}.

(** A response: its status, the two headers read as text, the declared length, and the
    chunks its body arrives in, one of which may be a transport error. *)
Record Response := {
  rs_status : Z;
  rs_location : option str;
  rs_content_length : option Z;
  rs_content_type : option str;
  rs_chunks : list (result (list Z) str);
}.

Definition rs_is_redirection (r : Response) : bool := (300 <=? rs_status r) && (rs_status r <? 400).
Definition rs_is_success (r : Response) : bool := (200 <=? rs_status r) && (rs_status r <? 300).

Record SocketAddr := { sa_ip : IpAddr; sa_port : Z }.

Inductive FetchError := CoverDownload (message : str) | CoverTooLarge (max_bytes : Z) | CoverInvalid (message : str).

(** The network: the URL parser and [Url::join], the standard library's address parser
    and resolver, one GET with the host pinned to an address, and the reader of an
    image's dimensions.  Errors carry the text
    they display. *)
Class CoverNetwork := {
  url_parse : str -> result Url str;
  parse_ip : str -> option IpAddr;
  lookup_host : str -> Z -> result (list IpAddr) str;
  send : Url -> str -> SocketAddr -> result Response str;
  url_join : Url -> str -> result Url str;
  blob_size : list Z -> result (Z * Z) str;
}.

Section fetch.
Context `{CoverNetwork}.

Definition denied (message : string) : FetchError := CoverDownload (lit message).

Definition validated_cover_endpoint (url : Url) : result (str * SocketAddr) FetchError :=
  let bad :=
    negb (bool_decide (url_scheme url = lit "http") || bool_decide (url_scheme url = lit "https"))
    || is_none (url_host url)
    || negb (bool_decide (url_username url = []))
    || negb (is_none (url_password url)) in
  early bad (denied "cover URL must use http or https without credentials")
    match url_host url with
    | None => Err (denied "cover URL has no host")
    | Some host =>
        early (negb (is_allowed_cover_hostname host)) (denied "cover URL host is not a public destination")
          match url_port url with
          | None => Err (denied "cover URL has no supported port")
          | Some port =>
              match parse_ip host with
              | Some ip =>
                  early (negb (is_public_ip ip)) (denied "cover URL host is not a public destination")
                    (Ok (host, {| sa_ip := ip; sa_port := port |}))
              | None =>
                  match lookup_host host port with
                  | Err error => Err (CoverDownload (lit "cover host lookup failed: " ++ error))
                  | Ok addresses =>
                      match List.find is_public_ip addresses with
                      | Some ip => Ok (host, {| sa_ip := ip; sa_port := port |})
                      | None => Err (denied "cover URL host resolved only to non-public addresses")
                      end
                  end
              end
          end
    end.

(** The requests made, and how the loop ended; [remaining] redirects are still allowed. *)
Fixpoint fetch_loop (remaining : nat) (url : Url)
  : list (Url * SocketAddr) * result Response FetchError :=
  match validated_cover_endpoint url with
  | Err e => ([], Err e)
  | Ok (host, address) =>
      let request := (url, address) in
      match send url host address with
      | Err error => ([request], Err (CoverDownload error))
      | Ok response =>
          if negb (rs_is_redirection response) then ([request], Ok response)
          else
            match remaining with
            | O => ([request], Err (denied "cover URL exceeded the redirect limit"))
            | S remaining =>
                match rs_location response with
                | None => ([request], Err (denied "redirect response has no valid Location"))
                | Some location =>
                    match url_join url location with
                    | Err error => ([request], Err (CoverDownload (lit "invalid redirect URL: " ++ error)))
                    | Ok url' =>
                        let '(requests, outcome) := fetch_loop remaining url' in
                        (request :: requests, outcome)
                    end
                end
            end
      end
  end.

Definition fetch_cover_response (url : Url) : list (Url * SocketAddr) * result Response FetchError :=
  fetch_loop 5 url.

(** The body, read chunk by chunk under the limit ([bytes.len()] saturates at [usize]). *)
Fixpoint read_body (max_bytes : Z) (bytes : list Z) (chunks : list (result (list Z) str))
  : result (list Z) FetchError :=
  match chunks with
  | [] => Ok bytes
  | Err error :: _ => Err (CoverDownload error)
  | Ok chunk :: chunks =>
      early (max_bytes <? Z.min u64_max (Z.of_nat (length bytes) + Z.of_nat (length chunk)))
        (CoverTooLarge max_bytes)
        (read_body max_bytes (bytes ++ chunk) chunks)
  end.

(** The declared content type: the header up to its first semicolon, trimmed. *)
Definition declared_type (response : Response) : option str :=
  match rs_content_type response with
  | Some value =>
      let value := trim (default [] (head (split_on (Z.eqb 59) value))) in
      if bool_decide (value = []) then None else Some value
  | None => None
  end.

Context `{Lowercase} `{Sniffer}.

Definition check_declared (content_type : ContentType) (declared : option str) : result unit FetchError :=
  match declared with
  | None => Ok tt
  | Some declared =>
      let declared_content_type := from_mime declared in
      let is_octet_stream := eq_ignore_ascii_case declared (lit "application/octet-stream") in
      early (negb is_octet_stream && negb (is_decodable_image declared_content_type))
        (CoverInvalid (lit "unsupported MIME type " ++ declared))
        (early (is_decodable_image declared_content_type
                && negb (bool_decide (declared_content_type = content_type)))
           (CoverInvalid (lit "MIME type " ++ declared ++ lit " does not match image bytes " ++
                          mime_type content_type))
           (Ok tt))
  end.

(** What happens to the response; [status_text] is the status as it displays. *)
Definition accept_response (max_bytes : Z) (status_text : Z -> str) (response : Response)
  : result (list Z * ContentType) FetchError :=
  early (negb (rs_is_success response)) (CoverDownload (lit "HTTP " ++ status_text (rs_status response)))
    (early (match rs_content_length response with Some size => max_bytes <? size | None => false end)
       (CoverTooLarge max_bytes)
       (let? bytes := read_body max_bytes [] (rs_chunks response) in
        let content_type := from_bytes bytes in
        early (negb (is_decodable_image content_type))
          (CoverInvalid (lit "downloaded bytes are not a supported image"))
          (let? _ := check_declared content_type (declared_type response) in
           match blob_size (take (64 * 1024) bytes) with
           | Err error => Err (CoverInvalid (lit "invalid dimensions: " ++ error))
           | Ok (width, height) =>
               early ((width =? 0) || (height =? 0))
                 (CoverInvalid (lit "image dimensions must be non-zero"))
                 (Ok (bytes, content_type))
           end))).

Definition download_cover (max_bytes : Z) (status_text : Z -> str) (url : str)
  : list (Url * SocketAddr) * result (list Z * ContentType) FetchError :=
  match url_parse url with
  | Err error => ([], Err (CoverDownload (lit "invalid URL: " ++ error)))
  | Ok parsed =>
      match fetch_cover_response parsed with
      | (requests, Err error) => (requests, Err error)
      | (requests, Ok response) => (requests, accept_response max_bytes status_text response)
      end
  end.

End fetch.

(** ** What is refused *)

(** An IPv4 block [base/prefix] as a set of 32-bit numbers. *)
Definition v4_number (a b c d : Z) : Z := ((a * 256 + b) * 256 + c) * 256 + d.

Definition in_block (n : Z) (block : Z * Z) : Prop :=
  n / 2 ^ (32 - block.2) = block.1 / 2 ^ (32 - block.2).

(** The special-purpose blocks, with the two that border [192.0.0.0/24]. *)
Definition reserved_v4 : list (Z * Z) :=
  [ (v4_number 0 0 0 0, 8); (v4_number 10 0 0 0, 8); (v4_number 100 64 0 0, 10);
    (v4_number 127 0 0 0, 8); (v4_number 169 254 0 0, 16); (v4_number 172 16 0 0, 12);
    (v4_number 192 0 0 0, 24); (v4_number 192 0 1 0, 24); (v4_number 192 0 2 0, 24);
    (v4_number 192 0 9 0, 24); (v4_number 192 0 10 0, 24); (v4_number 192 88 99 0, 24);
    (v4_number 192 168 0 0, 16); (v4_number 198 18 0 0, 15); (v4_number 198 51 100 0, 24);
    (v4_number 203 0 113 0, 24); (v4_number 224 0 0 0, 3) ].

(** The three shorter numbers a block compares. *)
Lemma v4_div24 a b c d : octet a -> octet b -> octet c -> octet d -> v4_number a b c d / 16777216 = a.
Proof. unfold octet, v4_number. intros. symmetry. apply (Z.div_unique _ _ _ ((b * 256 + c) * 256 + d)); lia. Qed.

Lemma v4_div16 a b c d : octet c -> octet d -> v4_number a b c d / 65536 = a * 256 + b.
Proof. unfold octet, v4_number. intros. symmetry. apply (Z.div_unique _ _ _ (c * 256 + d)); lia. Qed.

Lemma v4_div8 a b c d : octet d -> v4_number a b c d / 256 = (a * 256 + b) * 256 + c.
Proof. unfold octet, v4_number. intros. symmetry. apply (Z.div_unique _ _ _ d); lia. Qed.

Lemma v4_div_more a b c d k : 0 < k -> octet c -> octet d ->
  v4_number a b c d / (65536 * k) = (a * 256 + b) / k.
Proof. intros Hk Hc Hd. rewrite <- Z.div_div by lia. by rewrite v4_div16. Qed.

Lemma v4_div_top a b c d k : 0 < k -> octet a -> octet b -> octet c -> octet d ->
  v4_number a b c d / (16777216 * k) = a / k.
Proof. intros Hk Ha Hb Hc Hd. rewrite <- Z.div_div by lia. by rewrite v4_div24. Qed.

(** The blocks, octet by octet. *)
Definition reserved_octets (a b c : Z) : Prop :=
  a = 0 \/ a = 10 \/ (a = 100 /\ 64 <= b <= 127) \/ a = 127 \/ (a = 169 /\ b = 254) \/
  (a = 172 /\ 16 <= b <= 31) \/ (a = 192 /\ b = 0 /\ c <= 2) \/ (a = 192 /\ b = 0 /\ 9 <= c <= 10) \/
  (a = 192 /\ b = 88 /\ c = 99) \/ (a = 192 /\ b = 168) \/ (a = 198 /\ 18 <= b <= 19) \/
  (a = 198 /\ b = 51 /\ c = 100) \/ (a = 203 /\ b = 0 /\ c = 113) \/ 224 <= a.

#[local] Ltac solve_block := lia || (Z.to_euclidean_division_equations; lia).

Lemma reserved_octets_blocks a b c d :
  octet a -> octet b -> octet c -> octet d ->
  (reserved_octets a b c <-> Exists (in_block (v4_number a b c d)) reserved_v4).
Proof.
  intros Ha Hb Hc Hd. unfold reserved_v4, in_block. rewrite !Exists_cons, Exists_nil. cbn [fst snd].
  change (2 ^ (32 - 8)) with 16777216. change (2 ^ (32 - 10)) with (65536 * 64). change (2 ^ (32 - 16)) with 65536.
  change (2 ^ (32 - 12)) with (65536 * 16). change (2 ^ (32 - 24)) with 256. change (2 ^ (32 - 15)) with (65536 * 2).
  change (2 ^ (32 - 3)) with (16777216 * 32).
  rewrite v4_div24, v4_div16, v4_div8, !v4_div_more, v4_div_top by (done || lia).
  unfold reserved_octets, octet in *.
  repeat match goal with |- context [v4_number ?w ?x ?y ?z / ?k] =>
    let r := eval vm_compute in (v4_number w x y z / k) in change (v4_number w x y z / k) with r end.
  change ((100 * 256 + 64) / 64) with 401. change ((172 * 256 + 16) / 16) with 2753.
  change ((198 * 256 + 18) / 2) with 25353.
  split.
  - intros Hr. destruct_or! Hr;
      try (assert (Hc' : c = 0 \/ c = 1 \/ c = 2 \/ c = 9 \/ c = 10) by lia; destruct_or! Hc');
      repeat first [left; solve_block|right]; solve_block.
  - intros Hr. destruct_or! Hr; try (by destruct Hr); repeat first [left; solve_block|right]; solve_block.
Qed.

Lemma is_public_v4_octets a b c d :
  octet a -> octet b -> octet c -> octet d ->
  (is_public_v4 a b c d = true <-> ~ reserved_octets a b c).
Proof.
  unfold octet, reserved_octets. intros Ha Hb Hc Hd.
  unfold is_public_v4, v4_is_private, v4_is_loopback, v4_is_link_local, v4_is_unspecified,
    v4_is_multicast, v4_is_broadcast.
  rewrite !andb_true_iff, !negb_true_iff. split.
  - intros Hp Hr. decompose [and] Hp. clear Hp.
    destruct_or! Hr;
      try (assert (Hn : c = 9 \/ c = 10) by (clear -Hr; lia); destruct Hn as [Hn|Hn]);
      try (assert (Hn : b = 18 \/ b = 19) by (clear -Hr; lia); destruct Hn as [Hn|Hn]);
      match goal with
      | Hcl : @eq bool _ _ |- _ => clear -Hr Hcl Ha Hb Hc Hd Hn; exfalso; lia
      | Hcl : @eq bool _ _ |- _ => clear -Hr Hcl Ha Hb Hc Hd; exfalso; lia
      end.
  - intros Hr. split_and!;
      match goal with
      | |- ?clause = false => apply not_true_is_false; intros Hcl; apply Hr; clear Hr
      | |- ?clause = true => apply not_false_is_true; intros Hcl; apply Hr; clear Hr
      end; rewrite ?orb_true_iff in Hcl; destruct_or? Hcl; repeat first [left; lia|right]; lia.
Qed.

(** ** IPv6 *)

(** [scan p] holds of every 16-bit number. *)
Fixpoint scan (fuel : nat) (n : Z) (p : Z -> bool) : bool :=
  match fuel with
  | O => true
  | S fuel => p n && scan fuel (n + 1) p
  end.

Lemma scan_spec fuel n p m : scan fuel n p = true -> n <= m < n + Z.of_nat fuel -> p m = true.
Proof.
  revert n. induction fuel as [|fuel IH]; intros n; simpl; [lia|].
  intros [Hn Hs]%andb_true_iff Hm. destruct (Z.eq_dec m n) as [->|]; [done|]. apply (IH (n + 1)); [done|lia].
Qed.

Lemma global_unicast_segment s0 :
  segment s0 ->
  (Z.land s0 0xe000 =? 0x2000) && negb (Z.land s0 0xfe00 =? 0xfc00)
    && negb (Z.land s0 0xffc0 =? 0xfe80) && negb (v6_is_multicast s0)
  = (0x2000 <=? s0) && (s0 <=? 0x3fff).
Proof.
  intros Hs. unfold segment in Hs. apply eqb_prop.
  refine (scan_spec (Z.to_nat 65536) 0 (fun s0 => Bool.eqb _ _) s0 _ _); [|lia].
  by vm_compute.
Qed.

Definition mapped_v4 (s0 s1 s2 s3 s4 s5 : Z) : bool :=
  forallb (Z.eqb 0) [s0; s1; s2; s3; s4] && (s5 =? 0xffff).

(** The addresses a cover may come from: no special-purpose IPv4 block, directly or as a
    mapped address; in IPv6 only [2000::/3] without the documentation and 6to4 prefixes. *)
Definition public_v4 (n : Z) : Prop := Forall (fun block => ~ in_block n block) reserved_v4.

Definition public_address (ip : IpAddr) : Prop :=
  match ip with
  | V4 a b c d => public_v4 (v4_number a b c d)
  | V6 s0 s1 s2 s3 s4 s5 s6 s7 =>
      if mapped_v4 s0 s1 s2 s3 s4 s5 then public_v4 (s6 * 65536 + s7)
      else 0x2000 <= s0 <= 0x3fff /\ ~ (s0 = 0x2001 /\ s1 = 0xdb8) /\ s0 <> 0x2002
  end.

Lemma is_public_v4_exact a b c d :
  octet a -> octet b -> octet c -> octet d ->
  (is_public_v4 a b c d = true <-> public_v4 (v4_number a b c d)).
Proof.
  intros Ha Hb Hc Hd. rewrite is_public_v4_octets by done. rewrite (reserved_octets_blocks a b c d) by done.
  unfold public_v4. by rewrite Forall_Exists_neg.
Qed.

Lemma segment_bytes s : segment s ->
  octet (Z.shiftr s 8) /\ octet (Z.land s 0xff) /\ s = Z.shiftr s 8 * 256 + Z.land s 0xff.
Proof.
  unfold segment, octet. intros Hs. change (Z.land s 0xff) with (Z.land s (Z.ones 8)).
  rewrite Z.shiftr_div_pow2, Z.land_ones by lia. change (2 ^ 8) with 256.
  Z.to_euclidean_division_equations. lia.
Qed.

Lemma is_public_ip_exact ip : ip_wf ip -> (is_public_ip ip = true <-> public_address ip).
Proof.
  destruct ip as [a b c d|s0 s1 s2 s3 s4 s5 s6 s7]; simpl.
  - intros (? & ? & ? & ?). by apply is_public_v4_exact.
  - intros (H0 & ? & ? & ? & ? & ? & H6 & H7). unfold is_public_v6, mapped_v4. cbn [forallb].
    destruct (_ && _) eqn:Em.
    + apply segment_bytes in H6 as (Ha & Hb & E6), H7 as (Hc & Hd & E7).
      rewrite is_public_v4_exact by done. unfold v4_number.
      replace (s6 * 65536 + s7) with
        (((Z.shiftr s6 8 * 256 + Z.land s6 0xff) * 256 + Z.shiftr s7 8) * 256 + Z.land s7 0xff) by lia.
      done.
    + pose proof (global_unicast_segment s0 H0) as Hg. clear Em.
      unfold v6_is_loopback, v6_is_unspecified. cbn [forallb]. clear - Hg.
      rewrite !andb_true_iff, !negb_true_iff. split.
      * intros Hp. decompose [and] Hp. clear Hp.
        assert (Hr : (0x2000 <=? s0) && (s0 <=? 0x3fff) = true).
        { rewrite <- Hg, !andb_true_iff, !negb_true_iff. tauto. }
        clear Hg. split_and!; lia.
      * intros (Hr & Hdoc & H6to4). replace (0 =? s0) with false by lia. cbn [andb].
        assert (Ht : (0x2000 <=? s0) && (s0 <=? 0x3fff) = true) by lia.
        rewrite Ht, !andb_true_iff, !negb_true_iff in Hg. split_and!; try tauto; try done; lia.
Qed.

(** ** Requests *)

(** The address parser and the resolver return addresses of the standard library. *)
Class CoverNetworkLaws `{CoverNetwork} := {
  parse_ip_wf : forall host ip, parse_ip host = Some ip -> ip_wf ip;
  lookup_host_wf : forall host port ips, lookup_host host port = Ok ips -> Forall ip_wf ips;
}.

Section requests.
Context `{CoverNetwork} `{!CoverNetworkLaws}.

(** A request that is allowed: plain HTTP(S) without credentials, to an allowed host, at a
    public address that the host is or resolves to. *)
Definition safe_request (request : Url * SocketAddr) : Prop :=
  let '(u, address) := request in
  (url_scheme u = lit "http" \/ url_scheme u = lit "https") /\
  url_username u = [] /\ url_password u = None /\
  exists host port,
    url_host u = Some host /\ url_port u = Some port /\ sa_port address = port /\
    is_allowed_cover_hostname host = true /\ public_address (sa_ip address) /\
    (parse_ip host = Some (sa_ip address) \/
     exists ips, parse_ip host = None /\ lookup_host host port = Ok ips /\ sa_ip address ∈ ips).

(** [r2] goes where the answer to [r1] redirected. *)
Definition hop (r1 r2 : Url * SocketAddr) : Prop :=
  exists host response location,
    url_host r1.1 = Some host /\ send r1.1 host r1.2 = Ok response /\
    rs_is_redirection response = true /\ rs_location response = Some location /\
    url_join r1.1 location = Ok r2.1.

Lemma validated_endpoint_safe url host address :
  validated_cover_endpoint url = Ok (host, address) ->
  url_host url = Some host /\ safe_request (url, address).
Proof.
  unfold validated_cover_endpoint. rewrite early_Ok. intros [Hbad Hrest].
  rewrite !orb_false_iff, !negb_false_iff, orb_true_iff, !bool_decide_eq_true in Hbad.
  destruct Hbad as [[[Hscheme _] Huser] Hpass]. destruct (url_password url) eqn:Ep; [done|].
  destruct (url_host url) as [h|] eqn:Eh; [|done].
  apply early_Ok in Hrest as [Hname%negb_false_iff Hrest].
  destruct (url_port url) as [port|] eqn:Eport; [|done].
  destruct (parse_ip h) as [ip|] eqn:Eip.
  - apply early_Ok in Hrest as [Hpub%negb_false_iff [= -> <-]]. split; [done|]. unfold safe_request.
    split_and!; try done. exists host, port. split_and!; try done; [|by left].
    apply is_public_ip_exact; [by eapply parse_ip_wf|done].
  - destruct (lookup_host h port) as [ips|] eqn:El; [|done].
    destruct (List.find is_public_ip ips) as [ip|] eqn:Ef; [|done]. injection Hrest as -> <-.
    apply find_Some_iff in Ef as [Hin Hpub]. split; [done|]. unfold safe_request.
    split_and!; try done. exists host, port. split_and!; try done; [|by right; eauto].
    apply is_public_ip_exact; [|done]. pose proof (lookup_host_wf _ _ _ El) as Hwf.
    rewrite Forall_forall in Hwf. by apply Hwf.
Qed.

(** What a run of the loop shows to the network. *)
Definition fetch_trace (remaining : nat) (url : Url) (requests : list (Url * SocketAddr))
    (outcome : result Response FetchError) : Prop :=
  (length requests <= S remaining)%nat /\
  Forall safe_request requests /\
  Sorted hop requests /\
  (forall r, head requests = Some r -> r.1 = url) /\
  (forall response, outcome = Ok response ->
     exists r host, last requests = Some r /\ url_host r.1 = Some host /\
       send r.1 host r.2 = Ok response /\ rs_is_redirection response = false).

Lemma fetch_trace_one remaining url address outcome :
  safe_request (url, address) ->
  (forall response, outcome = Ok response -> exists host, url_host url = Some host /\
     send url host address = Ok response /\ rs_is_redirection response = false) ->
  fetch_trace remaining url [(url, address)] outcome.
Proof.
  intros Hs Hok. split_and!; [simpl; lia|by apply Forall_singleton|by repeat constructor|by intros ? [= <-]|].
  intros response (host & ? & ? & ?)%Hok. by exists (url, address), host.
Qed.

Lemma fetch_loop_trace remaining url requests outcome :
  fetch_loop remaining url = (requests, outcome) -> fetch_trace remaining url requests outcome.
Proof.
  revert url requests outcome. induction remaining as [|remaining IH]; intros url requests outcome;
    cbn [fetch_loop]; destruct (validated_cover_endpoint url) as [[host address]|e] eqn:Ev;
    try (intros [= <- <-]; split_and!; [simpl; lia|by constructor|by constructor|done|done]);
    apply validated_endpoint_safe in Ev as [Eh Hs];
    destruct (send url host address) as [response|e] eqn:Es;
    try (intros [= <- <-]; by apply fetch_trace_one);
    destruct (rs_is_redirection response) eqn:Er; simpl;
    try (intros [= <- <-]; apply fetch_trace_one; [done|]; intros ? [= <-]; eauto; done);
    destruct (rs_location response) as [location|] eqn:El;
    try (intros [= <- <-]; by apply fetch_trace_one);
    destruct (url_join url location) as [url'|e] eqn:Ej;
    try (intros [= <- <-]; by apply fetch_trace_one).
  destruct (fetch_loop remaining url') as [requests' outcome'] eqn:Ef. intros [= <- <-].
  apply IH in Ef as (Hlen & Hall & Hsorted & Hhead & Hok). split_and!.
  - simpl. lia.
  - by constructor.
  - constructor; [done|]. destruct requests' as [|r requests']; constructor.
    exists host, response, location. specialize (Hhead r eq_refl). by rewrite Hhead.
  - by intros ? [= <-].
  - intros response' (r & host' & Hlast & Hr)%Hok. exists r, host'. split; [|done].
    destruct requests' as [|r' requests']; [done|]. by rewrite last_cons_cons.
Qed.

(** C35.  Fetching a cover never reaches inside the network.  Whatever the URL, the
    redirects and the resolver answer, there are at most six requests; the first is for
    the given URL and each next one for where the previous answer redirected; every
    request uses HTTP or HTTPS without credentials, on a host name that is not reserved
    for local use, and is pinned to an address that the host is or resolves to and that
    lies in no special-purpose block -- private, loopback, link-local, shared, reserved,
    documentation, benchmarking, multicast; an IPv4 address mapped into IPv6 is held to
    the same blocks.  A returned response answers the last of them and is no redirect. *)
Theorem cover_requests_safe url requests outcome :
  fetch_cover_response url = (requests, outcome) ->
  (length requests <= 6)%nat /\
  Forall safe_request requests /\
  Sorted hop requests /\
  (forall r, head requests = Some r -> r.1 = url) /\
  (forall response, outcome = Ok response ->
     exists r host, last requests = Some r /\ url_host r.1 = Some host /\
       send r.1 host r.2 = Ok response /\ rs_is_redirection response = false).
Proof. apply fetch_loop_trace. Qed.

(** ** Bodies *)

Lemma read_body_exact max_bytes acc chunks bytes :
  0 <= max_bytes < u64_max ->
  Z.of_nat (length acc) <= max_bytes ->
  read_body max_bytes acc chunks = Ok bytes <->
  exists parts, chunks = Ok <$> parts /\ bytes = acc ++ concat parts /\ Z.of_nat (length bytes) <= max_bytes.
Proof.
  intros Hmax. revert acc. induction chunks as [|[chunk|e] chunks IH]; intros acc Hacc; cbn [read_body].
  - split.
    + intros [= <-]. exists []. by rewrite app_nil_r.
    + intros ([|part parts] & Hp & -> & _); [|done]. by rewrite app_nil_r.
  - rewrite early_Ok, Z.ltb_ge. split.
    + intros [Hlen Hr]. apply IH in Hr as (parts & -> & -> & Hb); [|rewrite length_app; lia].
      exists (chunk :: parts). by rewrite <- app_assoc in *.
    + intros ([|part parts] & Hp & -> & Hb); [done|]. injection Hp as <- ->.
      cbn [concat] in *. rewrite !length_app in Hb. split; [lia|].
      apply IH; [rewrite length_app; lia|]. exists parts. rewrite <- app_assoc, !length_app. split_and!; [done..|lia].
  - split; [done|]. by intros ([|part parts] & Hp & _).
Qed.

Context `{Lowercase} `{Sniffer}.

(** The declared type says nothing, says octets, or agrees with the bytes. *)
Definition declared_agrees (ct : ContentType) (declared : option str) : Prop :=
  match declared with
  | None => True
  | Some d => from_mime d = ct \/
      (eq_ignore_ascii_case d (lit "application/octet-stream") = true /\ is_decodable_image (from_mime d) = false)
  end.

Lemma check_declared_exact ct declared :
  is_decodable_image ct = true -> (check_declared ct declared = Ok tt <-> declared_agrees ct declared).
Proof.
  intros Hct. destruct declared as [d|]; simpl; [|done]. rewrite !early_Ok, !andb_false_iff, !negb_false_iff, bool_decide_eq_true.
  destruct (is_decodable_image (from_mime d)) eqn:Ed.
  - split; [|intros [Hd|[_ ?]]; [|done]; auto]. intros (_ & [?|?] & _); [done|auto].
  - split.
    + intros ([?|?] & _); [auto|done].
    + intros [Hd|[Ho _]]; [congruence|]. auto.
Qed.

(** A downloaded cover is exactly what it should be.  The download succeeds with
    bytes and a type precisely when the response is a success whose declared length, if
    any, is within the limit, all its chunks arrive, the bytes are their concatenation and
    within the limit, their sniffed type is a decodable image, the declared MIME type is
    absent, opaque or the same, and the first 64 KiB give non-zero dimensions. *)
Theorem accept_response_exact max_bytes status_text response bytes ct :
  0 <= max_bytes < u64_max ->
  accept_response max_bytes status_text response = Ok (bytes, ct) <->
  rs_is_success response = true /\
  (forall size, rs_content_length response = Some size -> size <= max_bytes) /\
  (exists parts, rs_chunks response = Ok <$> parts /\ bytes = concat parts) /\
  Z.of_nat (length bytes) <= max_bytes /\
  ct = from_bytes bytes /\ is_decodable_image ct = true /\
  declared_agrees ct (declared_type response) /\
  (exists width height, blob_size (take (64 * 1024) bytes) = Ok (width, height) /\ width <> 0 /\ height <> 0).
Proof.
  intros Hmax. unfold accept_response. rewrite !early_Ok, negb_false_iff, result_bind_Ok.
  assert (Hlen : match rs_content_length response with Some size => max_bytes <? size | None => false end = false <->
    forall size, rs_content_length response = Some size -> size <= max_bytes).
  { destruct (rs_content_length response) as [size|]; [|naive_solver]. rewrite Z.ltb_ge. naive_solver. }
  rewrite Hlen. clear Hlen.
  assert (Hbody : forall b, read_body max_bytes [] (rs_chunks response) = Ok b <->
    (exists parts, rs_chunks response = Ok <$> parts /\ b = concat parts) /\ Z.of_nat (length b) <= max_bytes).
  { intros b. rewrite read_body_exact by (simpl; lia). naive_solver. }
  setoid_rewrite Hbody. clear Hbody. setoid_rewrite early_Ok. setoid_rewrite result_bind_Ok.
  split.
  - intros (Hsucc & Hlen & b & (Hparts & Hb) & Hct%negb_false_iff & [] & Hdecl & Hdim).
    destruct (blob_size _) as [[w h]|] eqn:Ed; [|done]. apply early_Ok in Hdim as [Hz [= <- <-]].
    apply check_declared_exact in Hdecl; [|done]. split_and!; try done. exists w, h. split_and!; [done|lia|lia].
  - intros (Hsucc & Hlen & Hparts & Hb & -> & Hct & Hdecl & w & h & Ed & Hw & Hh).
    split_and!; [done|done|]. exists bytes. split_and!; [done|done|by rewrite Hct|].
    exists tt. split; [by apply check_declared_exact|]. rewrite Ed. apply early_Ok. split; [lia|done].
Qed.

End requests.

(** ** A concrete network *)

Definition demo_url (text : string) : Url := {|
  url_text := lit text; url_scheme := lit "https"; url_host := Some (lit "covers.org");
  url_username := []; url_password := None; url_port := Some 443 |}.

Definition demo_response (status : Z) (location : option str) : Response := {|
  rs_status := status; rs_location := location; rs_content_length := Some 3;
  rs_content_type := Some (lit "image/png; q=1"); rs_chunks := [Ok [137; 80]; Ok [78]] |}.

(** [/a] redirects to [/b], which answers with three bytes of a PNG. *)
#[local] Instance demo_network : CoverNetwork := {|
  url_parse := fun text => Ok (demo_url "/a");
  parse_ip := fun _ => None;
  lookup_host := fun _ _ => Ok [V4 127 0 0 1; V4 93 184 216 34];
  send := fun url _ _ =>
    Ok (if bool_decide (url_text url = lit "/a") then demo_response 302 (Some (lit "/b"))
        else demo_response 200 None);
  url_join := fun _ _ => Ok (demo_url "/b");
  blob_size := fun _ => Ok (600, 900);
|}.

#[local] Instance demo_network_laws : CoverNetworkLaws.
Proof. split; [done|]. intros host port ips [= <-]. unfold ip_wf, octet. repeat constructor; lia. Qed.

#[local] Instance demo_lower : Lowercase := {| to_lowercase := map to_ascii_lowercase |}.
#[local] Instance demo_sniffer : Sniffer :=
  {| infer_mime_from_bytes := fun _ => Some (lit "image/png"); infer_mime := fun _ => None |}.

Lemma cover_requests_safe_witness :
  exists requests, fetch_cover_response (demo_url "/a") = (requests, Ok (demo_response 200 None)) /\
  length requests = 2%nat /\ Forall safe_request requests.
Proof.
  eexists. split; [by vm_compute|]. split; [done|].
  refine (proj1 (proj2 (cover_requests_safe (demo_url "/a") _ (Ok (demo_response 200 None)) _))). by vm_compute.
Defined.

Lemma accept_response_exact_witness :
  rs_is_success (demo_response 200 None) = true /\ Z.of_nat (length [137; 80; 78]) <= 3.
Proof.
  assert (Hmax : 0 <= 3 < u64_max) by (split; [lia|by vm_compute]).
  assert (Ha : accept_response 3 show_Z (demo_response 200 None) = Ok ([137; 80; 78], PNG)) by (by vm_compute).
  destruct (proj1 (accept_response_exact 3 show_Z (demo_response 200 None) [137; 80; 78] PNG Hmax) Ha)
    as (Hs & _ & _ & Hl & _).
  by split.
Defined.
