(* ===== verification/IngestPaths.v ===== *)
(** * Names and paths of dropped files

    Models the string-level part of [src/crates/ingest/src/staging.rs] (path
    normalisation, filename sanitising, the staging layout, digests as hex) and of
    [archive.rs] (container formats, classification of members by name, member paths that
    cannot escape, and the tables printed by [unrar l] and [7z l]). *)

From stdpp Require Import base list strings.
From Stdlib Require Import ZArith Lia.
From S2P Require Import Prelude.

#[local] Open Scope Z_scope.
#[local] Open Scope coppice_scope.

(** ** Staging *)

Definition NUL : Z := 0.
Definition SLASH : Z := 47.
Definition BACKSLASH : Z := 92.

(** [value.replace('\\', "/")]. *)
Definition replace_backslash (s : str) : str := map (fun c => if c =? BACKSLASH then SLASH else c) s.

Definition has_windows_drive_prefix (value : str) : bool :=
  match as_bytes value with
  | b0 :: b1 :: _ => is_ascii_alphabetic b0 && (b1 =? 58)
  | _ => false
  end.

Inductive IngestError := BadRequest (message : str).

Definition bad (message : string) : IngestError := BadRequest (lit message).

(** The loop over the components: blank and [.] skipped, [..] refused. *)
Fixpoint push_components (components pieces : list str) : result (list str) IngestError :=
  match pieces with
  | [] => Ok components
  | piece :: pieces =>
      if bool_decide (piece = []) || bool_decide (piece = lit ".") then push_components components pieces
      else if bool_decide (piece = lit "..") then Err (bad "relative path must not contain '..'")
      else push_components (components ++ [piece]) pieces
  end.

Definition normalize_relative_path (value : option str) : result (option str) IngestError :=
  match value with
  | None => Ok None
  | Some [] => Ok None
  | Some value =>
      early (bool_decide (NUL ∈ value)) (bad "relative path contains NUL")
        (let value := replace_backslash value in
         early (starts_with value (lit "/") || starts_with value (lit "//") || has_windows_drive_prefix value)
           (bad "relative path must not be absolute")
           (let? components := push_components [] (split_on (Z.eqb SLASH) value) in
            match components with
            | [] => Ok None
            | _ => Ok (Some (str_join [SLASH] components))
            end))
  end.

(** The guard [sanitize_filename] and [validate_segment] share. *)
Definition unsafe_segment (value : str) : bool :=
  bool_decide (value = []) || bool_decide (value = lit ".") || bool_decide (value = lit "..")
  || bool_decide (SLASH ∈ value) || bool_decide (BACKSLASH ∈ value) || bool_decide (NUL ∈ value)
  || has_windows_drive_prefix value.

Definition sanitize_char (c : Z) : Z :=
  if is_ascii_alphanumeric c || (c =? 46) || (c =? 45) || (c =? 95) then c else 95.

(** [String::truncate] counts bytes; the text is ASCII by then. *)
Definition sanitize_filename (filename : str) : result str IngestError :=
  early (unsafe_segment filename) (bad "filename must be a non-empty relative file name")
    (let sanitized := drop_while (Z.eqb 46) (map sanitize_char filename) in
     let sanitized := if bool_decide (sanitized = []) then lit "file" else sanitized in
     Ok (if 200 <? str_len sanitized then take 200 sanitized else sanitized)).

Definition validate_segment (value label : str) : result unit IngestError :=
  early (unsafe_segment value) (BadRequest (label ++ lit " is not a safe path segment")) (Ok tt).

Definition is_ascii_hexdigit (b : Z) : bool :=
  is_ascii_digit b || ((65 <=? b) && (b <=? 70)) || ((97 <=? b) && (b <=? 102)).

(** [Path::join] on a Unix path. *)
Definition path_join (base component : str) : str :=
  if starts_with component (lit "/") then component
  else if bool_decide (base = []) || ends_with base (lit "/") then base ++ component
  else base ++ SLASH :: component.

Definition staging_path (staging_root library_id sha256 filename : str) : result str IngestError :=
  let? _ := validate_segment library_id (lit "library id") in
  early (bool_decide (sha256 = []) || negb (forallb is_ascii_hexdigit (as_bytes sha256)))
    (bad "invalid source digest")
    (let? filename := sanitize_filename filename in
     Ok (path_join (path_join staging_root library_id) (sha256 ++ lit "-" ++ filename))).

Definition HEX (n : Z) : Z := nth (Z.to_nat n) (lit "0123456789abcdef") 0.

Definition digest_hex (digest : list Z) : str :=
  digest ≫= fun byte => [HEX (Z.shiftr byte 4); HEX (Z.land byte 0x0f)].

(** ** Member names *)

Definition AUDIO_EXTENSIONS : list str := lit <$> ["m4b"; "m4a"; "mp3"; "opus"; "ogg"; "flac"]%string.
Definition COVER_STEMS : list str := lit <$> ["cover"; "folder"; "front"; "cover_art"]%string.
Definition BOOK_EXTENSIONS : list str :=
  lit <$> ["epub"; "mobi"; "azw"; "azw3"; "prc"; "cbz"; "cbr"; "pdf"]%string.
Definition SIDECAR_EXTENSIONS : list str :=
  lit <$> ["nfo"; "txt"; "cue"; "opf"; "json"; "url"; "md"; "log"; "sfv"]%string.
Definition IMAGE_EXTENSIONS : list str := lit <$> ["jpg"; "jpeg"; "png"; "webp"; "gif"; "avif"]%string.

Inductive IngestMediaKind := ComicArchive | ComicRarArchive | Epub | Pdf | Audio | UnknownKind.

#[export] Instance IngestMediaKind_eq_dec : EqDecision IngestMediaKind.
Proof. solve_decision. Defined.

Definition is_audio_name (name : str) : bool :=
  match path_extension name with
  | Some e => bool_decide (map to_ascii_lowercase e ∈ AUDIO_EXTENSIONS)
  | None => false
  end.

Inductive ArchiveFormat := Zip | Rar | SevenZip.

Definition extension_of (path : str) : str := map to_ascii_lowercase (default [] (path_extension path)).

Definition for_filename (filename : str) : option ArchiveFormat :=
  let e := extension_of filename in
  if bool_decide (e = lit "zip") then Some Zip
  else if bool_decide (e = lit "rar") then Some Rar
  else if bool_decide (e = lit "7z") then Some SevenZip
  else None.

Definition archive_as_str (f : ArchiveFormat) : str :=
  lit match f with Zip => "zip" | Rar => "rar" | SevenZip => "7z" end.

(** [Path::file_stem]: the name without the extension [Path::extension] finds. *)
Definition name_stem (name : str) : str :=
  match name_extension name with
  | Some e => take (length name - S (length e)) name
  | None => name
  end.

Definition stem_of (path : str) : str := map to_ascii_lowercase (default [] (name_stem <$> file_name path)).

Definition kind_for_extension (e : str) : IngestMediaKind :=
  if bool_decide (e = lit "epub") then Epub
  else if bool_decide (e = lit "pdf") then Pdf
  else if bool_decide (e = lit "cbz") then ComicArchive
  else if bool_decide (e = lit "cbr") then ComicRarArchive
  else UnknownKind.

Inductive Member := Publication (kind : IngestMediaKind) | Sidecar | Page | Other.

#[export] Instance Member_eq_dec : EqDecision Member.
Proof. solve_decision. Defined.

Definition classify_member (path : str) : Member :=
  let e := extension_of path in
  if bool_decide (e ∈ BOOK_EXTENSIONS) then Publication (kind_for_extension e)
  else if bool_decide (e ∈ AUDIO_EXTENSIONS) then Publication Audio
  else if bool_decide (e ∈ IMAGE_EXTENSIONS) then
    if bool_decide (stem_of path ∈ COVER_STEMS) then Sidecar else Page
  else if bool_decide (e ∈ SIDECAR_EXTENSIONS) then Sidecar
  else Other.

Record ArchiveMember := { am_path : str; am_byte_size : Z; am_is_dir : bool }.

Definition is_publication (m : Member) : bool := match m with Publication _ => true | _ => false end.

Definition holds_publications (members : list ArchiveMember) : bool :=
  existsb (fun m => negb (am_is_dir m) && is_publication (classify_member (am_path m))) members.

(** [Path::components] of a relative Unix path: [.] survives only in front. *)
Fixpoint safe_components (relative pieces : list str) : option (list str) :=
  match pieces with
  | [] => Some relative
  | piece :: pieces =>
      if bool_decide (piece = []) || bool_decide (piece = lit ".") then safe_components relative pieces
      else if bool_decide (piece = lit "..") then None
      else safe_components (relative ++ [piece]) pieces
  end.

Definition safe_member_path (name : str) : option str :=
  let name := replace_backslash name in
  if bool_decide (name = []) || starts_with name (lit "/") then None
  else
    match safe_components [] (split_on (Z.eqb SLASH) name) with
    | None | Some [] => None
    | Some components => Some (str_join [SLASH] components)
    end.

(** ** Listings of installed extractors *)

(** [str::lines]: pieces between newlines, a final empty one dropped, a carriage return
    before the newline removed. *)
Definition strip_cr (line : str) : str :=
  match last line with Some 13 => removelast line | _ => line end.

Definition lines (text : str) : list str :=
  let pieces := split_on (Z.eqb 10) text in
  strip_cr <$> match last pieces with Some [] => removelast pieces | _ => pieces end.

(** [str::find]: the byte offset of the first occurrence. *)
Fixpoint find_str (needle s : str) : option Z :=
  if starts_with s needle then Some 0
  else match s with
       | [] => None
       | c :: s' => (fun at_ => Z.of_nat (length (utf8_char c)) + at_) <$> find_str needle s'
       end.

(** [(&s[..offset], &s[offset..])], which panics ([None]) inside a character. *)
Fixpoint split_at_byte (s : str) (offset : Z) : option (str * str) :=
  if offset =? 0 then Some ([], s)
  else match s with
       | [] => None
       | c :: s' =>
           (fun '(prefix, rest) => (c :: prefix, rest)) <$>
             split_at_byte s' (offset - Z.of_nat (length (utf8_char c)))
       end.

Definition is_rule (line : str) : bool :=
  let trimmed := trim line in
  negb (bool_decide (trimmed = [])) && forallb (fun c => (c =? 45) || (c =? 32)) trimmed.

Definition row_size (prefix : str) : Z := default 0 (find_map parse_u64 (split_whitespace prefix)).

Definition row_is_dir (prefix : str) : bool :=
  existsb (fun column => bool_decide (68 ∈ column) || bool_decide (100 ∈ column))
    (List.filter (fun column => (4 <=? str_len column)
       && forallb (fun c => (c =? 46) || is_ascii_alphabetic c) column) (split_whitespace prefix)).

Definition row_member (prefix name : str) : ArchiveMember :=
  {| am_path := replace_backslash name; am_byte_size := row_size prefix; am_is_dir := row_is_dir prefix |}.

(** Inside the table, with the names starting at byte [offset]; [None] is a panic. *)
Fixpoint parse_rows (offset : Z) (rows : list str) : option (list ArchiveMember) :=
  match rows with
  | [] => Some []
  | line :: rows =>
      if is_rule line then Some []
      else if str_len line <=? offset then parse_rows offset rows
      else
        match split_at_byte line offset with
        | None => None
        | Some (prefix, rest) =>
            let name := trim rest in
            if bool_decide (name = []) then parse_rows offset rows
            else (cons (row_member prefix name)) <$> parse_rows offset rows
        end
  end.

(** Before the table: the last header seen gives the offset, a rule after one opens it. *)
Fixpoint parse_preamble (name_offset : option Z) (ls : list str) : option (list ArchiveMember) :=
  match ls with
  | [] => Some []
  | line :: ls =>
      match find_str (lit "Name") line with
      | Some at_ => parse_preamble (Some at_) ls
      | None =>
          match name_offset with
          | Some offset => if is_rule line then parse_rows offset ls else parse_preamble name_offset ls
          | None => parse_preamble name_offset ls
          end
      end
  end.

Definition parse_listing (text : str) : option (list ArchiveMember) := parse_preamble None (lines text).

(** ** Components *)

(** The components a path keeps. *)
Definition kept_pieces (pieces : list str) : list str :=
  List.filter (fun piece => negb (bool_decide (piece = [])) && negb (bool_decide (piece = lit "."))) pieces.

(** A component that names something directly inside its directory. *)
Definition safe_piece (piece : str) : Prop :=
  piece <> [] /\ piece <> lit "." /\ piece <> lit ".." /\ (SLASH ∉ piece) /\ (BACKSLASH ∉ piece).

Lemma split_on_chars p s piece c : piece ∈ split_on p s -> c ∈ piece -> c ∈ s /\ p c = false.
Proof.
  revert piece. induction s as [|d s IH]; intros piece; simpl.
  - rewrite list_elem_of_singleton. intros ->. by rewrite elem_of_nil.
  - destruct (p d) eqn:Ed.
    + rewrite elem_of_cons. intros [->|Hin]; [by rewrite elem_of_nil|].
      intros Hc. destruct (IH _ Hin Hc). split; [by right|done].
    + destruct (split_on p s) as [|q qs].
      * rewrite list_elem_of_singleton. intros ->. rewrite list_elem_of_singleton. intros ->. by split; [left|].
      * rewrite elem_of_cons. intros [->|Hin] Hc.
        -- apply elem_of_cons in Hc as [->|Hc]; [by split; [left|]|].
           destruct (IH q ltac:(by left) Hc). split; [by right|done].
        -- destruct (IH piece ltac:(by right) Hc). split; [by right|done].
Qed.

Lemma safe_components_spec rel pieces components :
  safe_components rel pieces = Some components <->
  (lit ".." ∉ pieces) /\ components = rel ++ kept_pieces pieces.
Proof.
  revert rel. induction pieces as [|piece pieces IH]; intros rel; cbn [safe_components kept_pieces List.filter].
  - rewrite app_nil_r. pose proof (not_elem_of_nil (lit "..")). naive_solver.
  - rewrite not_elem_of_cons. case_bool_decide as Hne; [|case_bool_decide as Hdot]; cbn [orb andb negb].
    + rewrite IH. subst piece. naive_solver.
    + rewrite IH. subst piece. naive_solver.
    + case_bool_decide as Hdots; [naive_solver|]. rewrite IH, <- app_assoc. naive_solver.
Qed.

(** The two loops over components agree. *)
Lemma push_components_safe rel pieces :
  push_components rel pieces =
    match safe_components rel pieces with
    | Some components => Ok components
    | None => Err (bad "relative path must not contain '..'")
    end.
Proof.
  revert rel. induction pieces as [|piece pieces IH]; intros rel; cbn [safe_components push_components]; [done|].
  rewrite !IH. by repeat case_match.
Qed.

Lemma kept_pieces_safe s :
  (lit ".." ∉ split_on (Z.eqb SLASH) s) -> (BACKSLASH ∉ s) ->
  Forall safe_piece (kept_pieces (split_on (Z.eqb SLASH) s)).
Proof.
  intros Hdots Hback. apply Forall_forall. intros piece Hin. unfold kept_pieces in Hin.
  apply list_elem_of_In, filter_In in Hin as [Hin Hk]. apply list_elem_of_In in Hin.
  apply andb_true_iff in Hk as [Hne%negb_true_iff%bool_decide_eq_false Hdot%negb_true_iff%bool_decide_eq_false].
  split_and!; try done.
  - intros ->. done.
  - intros Hc. by destruct (split_on_chars _ _ _ _ Hin Hc).
  - intros Hc. by destruct (split_on_chars _ _ _ _ Hin Hc).
Qed.

Lemma replace_backslash_none s : BACKSLASH ∉ replace_backslash s.
Proof.
  unfold replace_backslash. rewrite list_elem_of_In, in_map_iff. intros (c & Hc & _).
  unfold BACKSLASH, SLASH in *. destruct (Z.eqb_spec c 92); lia.
Qed.

Lemma replace_backslash_id s : (BACKSLASH ∉ s) -> replace_backslash s = s.
Proof.
  intros Hb. unfold replace_backslash. rewrite <- (map_id s) at 2. apply map_ext_in. intros c Hc%list_elem_of_In.
  destruct (Z.eqb_spec c BACKSLASH) as [->|]; done.
Qed.

Lemma replace_backslash_elem c s : c <> SLASH -> c ∈ replace_backslash s -> c ∈ s.
Proof.
  intros Hc. unfold replace_backslash. rewrite !list_elem_of_In, in_map_iff. intros (d & <- & Hd).
  destruct (d =? BACKSLASH); done.
Qed.

Lemma str_join_elem sep pieces c : c ∈ str_join [sep] pieces -> c = sep \/ exists piece, piece ∈ pieces /\ c ∈ piece.
Proof.
  induction pieces as [|piece [|q rest] IH]; simpl str_join.
  - by rewrite elem_of_nil.
  - intros Hc. right. exists piece. by split; [left|].
  - rewrite elem_of_app, elem_of_cons. intros [Hc|[->|Hc]]; [right|by left|].
    + exists piece. by split; [left|].
    + destruct (IH Hc) as [->|(p & Hp & Hc')]; [by left|right]. exists p. by split; [right|].
Qed.

Lemma safe_pieces_split pieces :
  Forall safe_piece pieces -> pieces <> [] -> split_on (Z.eqb SLASH) (str_join [SLASH] pieces) = pieces.
Proof.
  intros Hall Hne. apply split_on_join; [done|done|]. eapply Forall_impl; [done|]. intros piece (_ & _ & _ & Hs & _).
  apply forallb_forall. intros c Hc%list_elem_of_In. apply negb_true_iff, Z.eqb_neq. by intros <-.
Qed.

Lemma safe_pieces_kept pieces : Forall safe_piece pieces -> kept_pieces pieces = pieces.
Proof.
  induction 1 as [|piece pieces (Hne & Hdot & _) _ IH]; [done|]. cbn [kept_pieces List.filter].
  rewrite !bool_decide_eq_false_2 by done. cbn. by f_equal.
Qed.

(** A path made of safe components stays below the directory it is joined to. *)
Definition contained (pieces : list str) (path : str) : Prop :=
  pieces <> [] /\ Forall safe_piece pieces /\ path = str_join [SLASH] pieces /\
  path_pieces path = pieces /\ starts_with path (lit "/") = false.

Lemma safe_pieces_contained pieces :
  pieces <> [] -> Forall safe_piece pieces -> contained pieces (str_join [SLASH] pieces).
Proof.
  intros Hne Hall. split_and!; try done.
  - unfold path_pieces. change (Z.eqb 47) with (Z.eqb SLASH). rewrite safe_pieces_split by done.
    change [46] with (lit "."). by apply safe_pieces_kept.
  - destruct pieces as [|piece rest]; [done|]. apply Forall_cons in Hall as [(Hp & _ & _ & Hs & _) _].
    destruct piece as [|c piece]; [done|]. rewrite not_elem_of_cons in Hs.
    assert (E : exists tail, str_join [SLASH] ((c :: piece) :: rest) = c :: tail) by (destruct rest; simpl; eauto).
    destruct E as [tail ->]. unfold starts_with. cbn. destruct c as [|c|c]; try done.
    destruct (Pos.eqb_spec 47 c) as [<-|]; [by destruct Hs|].
    by repeat (destruct c as [c|c|]; try done).
Qed.

(** The components a string yields when none is [..]. *)
Lemma components_contained name pieces :
  (BACKSLASH ∉ name) -> safe_components [] (split_on (Z.eqb SLASH) name) = Some pieces -> pieces <> [] ->
  pieces = kept_pieces (split_on (Z.eqb SLASH) name) /\ contained pieces (str_join [SLASH] pieces).
Proof.
  intros Hb [Hd ->]%safe_components_spec Hne. split; [done|]. apply safe_pieces_contained; [done|]. by apply kept_pieces_safe.
Qed.

(** A contained path is already normal. *)
Lemma contained_normal pieces r :
  contained pieces r ->
  replace_backslash r = r /\ r <> [] /\ safe_components [] (split_on (Z.eqb SLASH) r) = Some pieces.
Proof.
  intros (Hne & Hs & -> & _ & _). split_and!.
  - apply replace_backslash_id. intros [?|(p & Hp & Hc)]%str_join_elem; [done|].
    rewrite Forall_forall in Hs. by destruct (Hs p Hp) as (_ & _ & _ & _ & ?).
  - destruct pieces as [|[|c p] rest]; [done| |by destruct rest]. by apply Forall_cons in Hs as [(? & _) _].
  - rewrite safe_pieces_split, safe_components_spec by done. split; [|by rewrite safe_pieces_kept].
    intros Hd. rewrite Forall_forall in Hs. by destruct (Hs _ Hd) as (_ & _ & ? & _).
Qed.

Definition is_absolute (value : str) : bool :=
  starts_with value (lit "/") || starts_with value (lit "//") || has_windows_drive_prefix value.

Lemma normalize_Some value r :
  normalize_relative_path (Some value) = Ok (Some r) <->
  (NUL ∉ value) /\ is_absolute (replace_backslash value) = false /\
  exists pieces, safe_components [] (split_on (Z.eqb SLASH) (replace_backslash value)) = Some pieces /\
    pieces <> [] /\ r = str_join [SLASH] pieces.
Proof.
  destruct value as [|c value'].
  - split; [done|]. intros (_ & _ & pieces & [= <-] & ? & _). done.
  - cbn [normalize_relative_path]. generalize (c :: value'). intros value.
    rewrite early_Ok, bool_decide_eq_false, early_Ok, push_components_safe. unfold is_absolute.
    destruct (safe_components _ _) as [[|p pieces]|]; cbn [result_bind]; [naive_solver| |naive_solver].
    split; [|naive_solver]. intros (? & ? & [= <-]). split_and!; [done..|]. by exists (p :: pieces).
Qed.

Lemma safe_member_Some name r :
  safe_member_path name = Some r <->
  replace_backslash name <> [] /\ starts_with (replace_backslash name) (lit "/") = false /\
  exists pieces, safe_components [] (split_on (Z.eqb SLASH) (replace_backslash name)) = Some pieces /\
    pieces <> [] /\ r = str_join [SLASH] pieces.
Proof.
  unfold safe_member_path. case_bool_decide as He; cbn [orb]; [naive_solver|].
  destruct (starts_with _ _); [naive_solver|]. destruct (safe_components _ _) as [[|p pieces]|]; naive_solver.
Qed.

Lemma join_nul name pieces :
  safe_components [] (split_on (Z.eqb SLASH) (replace_backslash name)) = Some pieces ->
  (NUL ∉ name) -> NUL ∉ str_join [SLASH] pieces.
Proof.
  intros [_ ->]%safe_components_spec Hnul [?|(p & Hp & Hin)]%str_join_elem; [done|].
  apply Hnul. apply list_elem_of_In, filter_In in Hp as [Hp%list_elem_of_In _].
  destruct (split_on_chars _ _ _ _ Hp Hin) as [Hin' _]. by apply replace_backslash_elem in Hin'.
Qed.

(** Relative paths given by clients and member paths found in archives stay below
    the directory they are joined to.  When [normalize_relative_path] or
    [safe_member_path] returns a path, it is its input's components in order, joined by
    slashes: none is empty, [.] or [..], none holds a slash or backslash, there is at
    least one, and the path is not absolute.  The normalised path contains no NUL.  Doing
    it again changes nothing, except that normalising refuses a path in which skipping a
    leading [.] has uncovered a drive letter. *)
Theorem relative_paths_contained (value r : str) :
  let pieces := kept_pieces (split_on (Z.eqb SLASH) (replace_backslash value)) in
  (normalize_relative_path (Some value) = Ok (Some r) ->
     contained pieces r /\ (NUL ∉ r) /\
     (has_windows_drive_prefix r = false -> normalize_relative_path (Some r) = Ok (Some r)) /\
     (has_windows_drive_prefix r = true -> exists e, normalize_relative_path (Some r) = Err e)) /\
  (safe_member_path value = Some r -> contained pieces r /\ safe_member_path r = Some r).
Proof.
  intros pieces. split.
  - intros (Hnul & Habs & pieces' & Hsafe & Hne & Hr)%normalize_Some.
    destruct (components_contained _ _ (replace_backslash_none value) Hsafe Hne) as [Hk Hc].
    pose proof (join_nul _ _ Hsafe Hnul) as Hnul'. rewrite <- Hr in Hnul', Hc. rewrite Hk in Hc. fold pieces in Hc.
    pose proof (contained_normal _ _ Hc) as (Hrb & Hrne & Hrs). destruct Hc as (Hpne & Hall & Hj & Hpp & Hslash).
    split_and!; [done|done| |].
    + intros Hw. apply normalize_Some. rewrite Hrb. split_and!; [done| |by eauto].
      unfold is_absolute. rewrite Hslash, Hw. destruct r as [|c r]; [done|].
      revert Hslash. unfold starts_with. cbn. by destruct c as [|c|c]; repeat (destruct c as [c|c|]; try done).
    + intros Hw. destruct r as [|c r']; [done|]. cbn [normalize_relative_path]. rewrite Hrb, Hw, orb_true_r.
      unfold early. case_bool_decide; eauto.
  - intros (_ & Habs & pieces' & Hsafe & Hne & Hr)%safe_member_Some.
    destruct (components_contained _ _ (replace_backslash_none value) Hsafe Hne) as [Hk Hc].
    rewrite <- Hr in Hc. rewrite Hk in Hc. fold pieces in Hc. split; [done|]. apply safe_member_Some.
    pose proof (contained_normal _ _ Hc) as (Hrb & Hrne & Hrs). destruct Hc as (Hpne & Hall & Hj & Hpp & Hslash).
    rewrite Hrb. eauto 10.
Qed.

(** Normalising can uncover a drive letter. *)
Example normalize_uncovers_drive :
  normalize_relative_path (Some (lit "./C:/x")) = Ok (Some (lit "C:/x")) /\
  (exists e, normalize_relative_path (Some (lit "C:/x")) = Err e).
Proof. split; [by vm_compute|]. eexists. by vm_compute. Qed.

(** ** The staging layout *)

Definition portable_char (c : Z) : Prop := is_ascii_alphanumeric c = true \/ c = 46 \/ c = 45 \/ c = 95.

Lemma sanitize_char_portable c : portable_char (sanitize_char c).
Proof.
  unfold portable_char, sanitize_char. destruct (is_ascii_alphanumeric c) eqn:E; cbn [orb]; [by left|].
  destruct (Z.eqb_spec c 46) as [->|]; cbn [orb]; [auto|]. destruct (Z.eqb_spec c 45) as [->|]; cbn [orb]; [auto|].
  destruct (Z.eqb_spec c 95) as [->|]; auto.
Qed.

Lemma portable_fixed c : portable_char c -> sanitize_char c = c.
Proof.
  unfold portable_char, sanitize_char. intros [-> |[-> |[-> | ->]]]; cbn [orb]; try done.
Qed.

Lemma portable_range c : portable_char c -> 45 <= c <= 122 /\ c <> 47 /\ c <> 58 /\ c <> 92.
Proof.
  unfold portable_char, is_ascii_alphanumeric, is_ascii_alphabetic, is_ascii_upper, is_ascii_lower, is_ascii_digit.
  intros [Hc| [->|[->| ->]]]; lia.
Qed.

(** What every sanitised name is: short, portable, visible. *)
Definition portable_name (name : str) : Prop :=
  name <> [] /\ (length name <= 200)%nat /\ Forall portable_char name /\ head name <> Some 46.

Lemma portable_ascii name : Forall portable_char name -> as_bytes name = name.
Proof.
  intros Hn. apply as_bytes_ascii. eapply Forall_impl; [done|]. intros c Hc%portable_range. simpl. lia.
Qed.

Lemma sanitize_filename_portable filename name :
  sanitize_filename filename = Ok name -> portable_name name.
Proof.
  unfold sanitize_filename. rewrite early_Ok. intros [_ Hn].
  set (s := drop_while (Z.eqb 46) (map sanitize_char filename)) in *.
  assert (Hs : Forall portable_char s).
  { destruct (drop_while_suffix (Z.eqb 46) (map sanitize_char filename)) as [l1 Hl].
    assert (Hm : Forall portable_char (map sanitize_char filename)).
    { apply List.Forall_map, Forall_true. intros c. apply sanitize_char_portable. }
    rewrite Hl, Forall_app in Hm. by destruct Hm. }
  assert (Hh : head s <> Some 46).
  { intros He. apply drop_while_head in He. done. }
  clearbody s. set (s' := if bool_decide (s = []) then lit "file" else s) in *.
  assert (Hs' : s' <> [] /\ Forall portable_char s' /\ head s' <> Some 46).
  { subst s'. case_bool_decide as He; [|done]. split_and!; [done| |done].
    repeat (constructor; [left; reflexivity|]). constructor. }
  clearbody s'. destruct Hs' as (Hne & Hp & Hd). unfold str_len in Hn. rewrite portable_ascii in Hn by done.
  injection Hn as <-. destruct (Z.ltb_spec 200 (Z.of_nat (length s'))).
  - split_and!.
    + destruct s'; [done|]. by simpl.
    + rewrite length_take. lia.
    + by apply Forall_take.
    + by destruct s'.
  - split_and!; try done. lia.
Qed.

Lemma portable_safe name : portable_name name -> unsafe_segment name = false.
Proof.
  intros (Hne & _ & Hp & Hh).
  assert (Hin : forall c, c ∈ name -> 45 <= c <= 122 /\ c <> 47 /\ c <> 58 /\ c <> 92).
  { rewrite Forall_forall in Hp. intros c Hc. by apply portable_range, Hp. }
  unfold unsafe_segment, has_windows_drive_prefix. rewrite portable_ascii by done.
  repeat (rewrite bool_decide_eq_false_2; cbn [orb]).
  - destruct name as [|b0 [|b1 name]]; [done|done|]. destruct (Hin b1) as (_ & _ & ? & _); [by right; left|].
    replace (b1 =? 58) with false by lia. apply andb_false_r.
  - intros Hc%Hin. unfold NUL in *. lia.
  - intros Hc%Hin. unfold BACKSLASH in *. lia.
  - intros Hc%Hin. unfold SLASH in *. lia.
  - by intros ->.
  - by intros ->.
  - done.
Qed.

Lemma sanitize_portable name : portable_name name -> sanitize_filename name = Ok name.
Proof.
  intros Hn. unfold sanitize_filename. rewrite (portable_safe _ Hn). cbn [early].
  destruct Hn as (Hne & Hlen & Hp & Hh).
  assert (Hm : map sanitize_char name = name).
  { rewrite <- (map_id name) at 2. apply map_ext_in. intros c Hc%list_elem_of_In. apply portable_fixed.
    rewrite Forall_forall in Hp. by apply Hp. }
  rewrite Hm. destruct name as [|c name]; [done|]. cbn [drop_while].
  destruct (Z.eqb_spec 46 c) as [<-|]; [done|]. rewrite bool_decide_eq_false_2 by done.
  unfold str_len. rewrite portable_ascii by done. by replace (200 <? _) with false by lia.
Qed.

Lemma split_on_sep p a sep b : p sep = true -> split_on p (a ++ sep :: b) = split_on p a ++ split_on p b.
Proof.
  intros Hsep. induction a as [|c a IH]; simpl; [by rewrite Hsep|]. rewrite IH.
  destruct (p c); [done|]. destruct (split_on p a) as [|q qs] eqn:E; [|done].
  exfalso. destruct a as [|d a]; simpl in E; [done|]. destruct (p d); [done|]. by destruct (split_on p a).
Qed.

Lemma path_pieces_single c : c <> [] -> c <> lit "." -> (SLASH ∉ c) -> path_pieces c = [c].
Proof.
  intros Hne Hdot Hs. unfold path_pieces. rewrite <- (app_nil_r c) at 1. rewrite split_on_piece.
  - simpl. rewrite app_nil_r. change [46] with (lit "."). by rewrite !bool_decide_eq_false_2.
  - apply forallb_forall. intros d Hd%list_elem_of_In. apply negb_true_iff, Z.eqb_neq. by intros <-.
Qed.

Lemma starts_with_slash c : c <> [] -> (SLASH ∉ c) -> starts_with c (lit "/") = false.
Proof.
  destruct c as [|d c]; [done|]. intros _ Hs. unfold starts_with.
  change (lit "/") with [SLASH]. cbn [strip_prefix]. destruct (Z.eqb_spec SLASH d) as [<-|]; [|done].
  by destruct Hs; left.
Qed.

Lemma ends_with_slash base : ends_with base (lit "/") = true -> exists b, base = b ++ [SLASH].
Proof.
  unfold ends_with. rewrite andb_true_iff, bool_decide_eq_true. intros [Hd _].
  set (n := (length base - length (lit "/"))%nat) in *. exists (take n base).
  rewrite <- (take_drop n base) at 1. by rewrite <- Hd.
Qed.

Lemma path_pieces_join base c :
  c <> [] -> c <> lit "." -> (SLASH ∉ c) ->
  path_pieces (path_join base c) = path_pieces base ++ [c] /\ starts_with (path_join base c) base = true.
Proof.
  intros Hne Hdot Hs. pose proof (path_pieces_single c Hne Hdot Hs) as Hc.
  assert (Hsep : forall b, path_pieces (b ++ SLASH :: c) = path_pieces b ++ path_pieces c).
  { intros b. unfold path_pieces. by rewrite split_on_sep, List.filter_app. }
  unfold path_join. rewrite starts_with_slash by done. unfold starts_with.
  case_bool_decide as Hb; cbn [orb]; [subst base; cbn [app]; by rewrite Hc|].
  destruct (ends_with base (lit "/")) eqn:He; rewrite strip_prefix_app; (split; [|done]).
  - apply ends_with_slash in He as [b ->]. rewrite <- app_assoc. cbn [app]. rewrite Hsep, Hc. f_equal.
    unfold path_pieces. rewrite split_on_sep by done.
    rewrite List.filter_app. cbn. by rewrite app_nil_r.
  - by rewrite Hsep, Hc.
Qed.

Lemma safe_segment_iff s :
  unsafe_segment s = false <->
  s <> [] /\ s <> lit "." /\ s <> lit ".." /\ (SLASH ∉ s) /\ (BACKSLASH ∉ s) /\ (NUL ∉ s) /\
  has_windows_drive_prefix s = false.
Proof. unfold unsafe_segment. rewrite !orb_false_iff, !bool_decide_eq_false. tauto. Qed.

Lemma hexdigit_range b : is_ascii_hexdigit b = true -> 48 <= b <= 102.
Proof. unfold is_ascii_hexdigit, is_ascii_digit. lia. Qed.

(** A string whose bytes are all ASCII is its own encoding. *)
Lemma as_bytes_small s : Forall (fun b => 0 <= b < 0x80) (as_bytes s) -> as_bytes s = s.
Proof.
  intros Hb. apply as_bytes_ascii. induction s as [|c s IH]; [done|].
  unfold as_bytes in Hb. rewrite bind_cons, Forall_app in Hb. destruct Hb as [Hc Hs].
  constructor; [|by apply IH]. unfold utf8_char in Hc.
  destruct (Z.ltb_spec c 0x80); [done|]. exfalso. revert Hc.
  pose proof (Z.div_pos c 0x40). pose proof (Z.div_pos c 0x1000). pose proof (Z.div_pos c 0x40000).
  repeat case_match; intros Hc%Forall_inv; simpl in Hc; lia.
Qed.

Lemma hex_string sha :
  forallb is_ascii_hexdigit (as_bytes sha) = true -> Forall (fun c => is_ascii_hexdigit c = true) sha.
Proof.
  intros Hf. assert (Hb : Forall (fun b => is_ascii_hexdigit b = true) (as_bytes sha)).
  { apply Forall_forall. intros b Hb%list_elem_of_In. rewrite forallb_forall in Hf. by apply Hf. }
  rewrite as_bytes_small in Hb; [done|]. eapply Forall_impl; [done|]. intros b H%hexdigit_range. simpl. lia.
Qed.

Lemma staging_path_Ok root lib sha filename path :
  staging_path root lib sha filename = Ok path <->
  unsafe_segment lib = false /\ sha <> [] /\ forallb is_ascii_hexdigit (as_bytes sha) = true /\
  exists name, sanitize_filename filename = Ok name /\
    path = path_join (path_join root lib) (sha ++ lit "-" ++ name).
Proof.
  unfold staging_path, validate_segment. rewrite result_bind_Ok. split.
  - intros (_ & [Hl _]%early_Ok & [Hd (name & Hn & [= <-])%result_bind_Ok]%early_Ok).
    rewrite orb_false_iff, bool_decide_eq_false, negb_false_iff in Hd. destruct Hd. eauto 10.
  - intros (Hl & Hs & Hh & name & Hn & ->). exists tt. rewrite Hl, bool_decide_eq_false_2, Hh, Hn by done. done.
Qed.

Lemma staged_segment sha name :
  sha <> [] -> Forall (fun c => is_ascii_hexdigit c = true) sha -> portable_name name ->
  let seg := sha ++ lit "-" ++ name in seg <> [] /\ seg <> lit "." /\ (SLASH ∉ seg).
Proof.
  intros Hne Hsha (Hn & _ & Hp & _). split_and!.
  - by destruct sha.
  - destruct sha as [|c [|d sha]]; [done| |done]. by destruct name.
  - unfold SLASH. rewrite !elem_of_app. intros [Hc|[Hc|Hc]].
    + rewrite Forall_forall in Hsha. apply Hsha, hexdigit_range in Hc. lia.
    + change (lit "-") with [45] in Hc. apply list_elem_of_singleton in Hc. lia.
    + rewrite Forall_forall in Hp. apply Hp, portable_range in Hc. lia.
Qed.

(** The digest ends at the first dash. *)
Lemma staged_segment_inj sha1 name1 sha2 name2 :
  Forall (fun c => is_ascii_hexdigit c = true) sha1 -> Forall (fun c => is_ascii_hexdigit c = true) sha2 ->
  sha1 ++ lit "-" ++ name1 = sha2 ++ lit "-" ++ name2 -> sha1 = sha2 /\ name1 = name2.
Proof.
  change (lit "-") with [45]. intros H1. revert sha2.
  induction H1 as [|c sha1 Hc _ IH]; intros [|d sha2] H2 E; cbn [app] in E.
  - by injection E.
  - injection E as <- _. apply Forall_inv, hexdigit_range in H2. lia.
  - injection E as -> _. apply hexdigit_range in Hc. lia.
  - injection E as -> E. apply Forall_cons in H2 as [_ H2]. destruct (IH sha2 H2 E). by subst.
Qed.

(** Staged files land exactly where they should and never collide.  A staging path
    exists precisely for a safe library id, a non-empty hex digest and a safe filename.
    It is the staging root, one component for the library, and one component made of the
    digest and a name of at most 200 portable characters that does not start with a dot;
    sanitising that name again changes nothing.  Two uploads share a staging path under
    one root only when library, digest and sanitised name all agree. *)
Theorem staging_path_contained root lib sha filename :
  ((exists path, staging_path root lib sha filename = Ok path) <->
     unsafe_segment lib = false /\ sha <> [] /\ forallb is_ascii_hexdigit (as_bytes sha) = true /\
     unsafe_segment filename = false) /\
  forall path, staging_path root lib sha filename = Ok path ->
    exists name, sanitize_filename filename = Ok name /\
      portable_name name /\ sanitize_filename name = Ok name /\
      path_pieces path = path_pieces root ++ [lib; sha ++ lit "-" ++ name] /\
      starts_with path root = true /\
      (forall lib' sha' filename', staging_path root lib' sha' filename' = Ok path ->
         lib' = lib /\ sha' = sha /\ sanitize_filename filename' = Ok name).
Proof.
  assert (Hpath : forall lib sha filename path, staging_path root lib sha filename = Ok path ->
    exists name, sanitize_filename filename = Ok name /\ portable_name name /\
      Forall (fun c => is_ascii_hexdigit c = true) sha /\
      path_pieces path = path_pieces root ++ [lib; sha ++ lit "-" ++ name] /\ starts_with path root = true).
  { clear. intros lib sha filename path (Hl & Hne & Hh & name & Hn & ->)%staging_path_Ok.
    pose proof (sanitize_filename_portable _ _ Hn) as Hp. apply hex_string in Hh.
    destruct (staged_segment sha name Hne Hh Hp) as (H1 & H2 & H3).
    apply safe_segment_iff in Hl as (L1 & L2 & _ & L3 & _).
    destruct (path_pieces_join root lib L1 L2 L3) as [E1 S1].
    destruct (path_pieces_join (path_join root lib) _ H1 H2 H3) as [E2 S2].
    exists name. split_and!; [done..|by rewrite E2, E1, <- app_assoc|].
    unfold starts_with in *. destruct (strip_prefix root (path_join root lib)) as [r1|] eqn:R1; [|done].
    destruct (strip_prefix (path_join root lib) _) as [r2|] eqn:R2; [|done].
    apply strip_prefix_Some in R2 as ->. apply strip_prefix_Some in R1 as ->.
    by rewrite <- app_assoc, strip_prefix_app. }
  split.
  - setoid_rewrite staging_path_Ok. unfold sanitize_filename. setoid_rewrite early_Ok. naive_solver.
  - intros path Hs. destruct (Hpath _ _ _ _ Hs) as (name & Hn & Hp & Hsha & Hpp & Hst).
    exists name. split_and!; [done|done|by apply sanitize_portable|done|done|].
    intros lib' sha' filename' (name' & Hn' & _ & Hsha' & Hpp' & _)%Hpath.
    rewrite Hpp in Hpp'. apply app_inv_head in Hpp'. injection Hpp' as <- E.
    apply staged_segment_inj in E as [<- <-]; done.
Qed.

(** ** Tables *)

Lemma utf8_char_length c : (0 < length (utf8_char c))%nat.
Proof. unfold utf8_char. repeat case_match; simpl; lia. Qed.

Lemma str_len_cons c s : str_len (c :: s) = Z.of_nat (length (utf8_char c)) + str_len s.
Proof. unfold str_len, as_bytes. rewrite bind_cons, length_app. lia. Qed.

Lemma str_len_app s t : str_len (s ++ t) = str_len s + str_len t.
Proof. unfold str_len, as_bytes. rewrite bind_app, length_app. lia. Qed.

Lemma str_len_pos s : s <> [] -> 0 < str_len s.
Proof.
  destruct s as [|c s]; [done|]. intros _. rewrite str_len_cons.
  pose proof (utf8_char_length c). assert (0 <= str_len s) by (unfold str_len; lia). lia.
Qed.

Lemma split_at_byte_app prefix rest : split_at_byte (prefix ++ rest) (str_len prefix) = Some (prefix, rest).
Proof.
  induction prefix as [|c prefix IH].
  - by destruct rest.
  - rewrite str_len_cons. cbn [app split_at_byte]. pose proof (utf8_char_length c).
    assert (0 <= str_len prefix) by (unfold str_len; lia).
    replace (_ =? 0) with false by lia.
    replace (_ - _) with (str_len prefix) by lia. by rewrite IH.
Qed.

(** A line of text: no newline in it, no carriage return at its end. *)
Definition text_line (l : str) : Prop := (10 ∉ l) /\ last l <> Some 13.

Definition unlines (ls : list str) : str := ls ≫= fun l => l ++ [10].

Lemma split_unlines ls : Forall text_line ls -> split_on (Z.eqb 10) (unlines ls) = ls ++ [[]].
Proof.
  unfold unlines. induction 1 as [|l ls [Hl _] _ IH]; [done|]. rewrite bind_cons, <- app_assoc. cbn [app].
  rewrite split_on_piece.
  - cbn [split_on]. change (10 =? 10) with true. cbn iota. by rewrite IH, app_nil_r.
  - apply forallb_forall. intros c Hc%list_elem_of_In. apply negb_true_iff, Z.eqb_neq. by intros <-.
Qed.

Lemma lines_unlines ls : Forall text_line ls -> lines (unlines ls) = ls.
Proof.
  intros Hls. unfold lines. rewrite (split_unlines ls Hls), last_snoc, removelast_last.
  induction Hls as [|l ls [_ Hl] _ IH]; [done|]. rewrite fmap_cons, IH. f_equal.
  unfold strip_cr. destruct (last l) as [c|]; [|done]. by repeat case_match; simplify_eq.
Qed.

Lemma find_str_elem needle s at_ c : find_str needle s = Some at_ -> c ∈ needle -> c ∈ s.
Proof.
  revert at_. induction s as [|d s IH]; intros at_; cbn [find_str]; unfold starts_with.
  - destruct needle; simpl; [|done]. by rewrite elem_of_nil.
  - destruct (strip_prefix needle (d :: s)) as [rest|] eqn:E.
    + intros _ Hc. apply strip_prefix_Some in E as ->. apply elem_of_app. by left.
    + destruct (find_str needle s) as [n|]; [|done]. intros _ Hc. right. by eapply IH.
Qed.

Lemma is_rule_no_name line : is_rule line = true -> find_str (lit "Name") line = None.
Proof.
  unfold is_rule. rewrite andb_true_iff, forallb_forall. intros [_ Hall].
  destruct (find_str (lit "Name") line) as [n|] eqn:E; [|done]. exfalso.
  assert (H78 : 78 ∈ line) by (eapply find_str_elem; [done|]; change (lit "Name") with [78; 97; 109; 101]; by left).
  destruct (trim_elem _ _ H78) as [Hin|]; [|done]. apply list_elem_of_In, Hall in Hin. done.
Qed.

(** A row as the tools print it: metadata up to the column of the names, then the name. *)
Definition table_row (offset : Z) (row : str * str) : Prop :=
  str_len row.1 = offset /\ trim row.2 = row.2 /\ row.2 <> [] /\ is_rule (row.1 ++ row.2) = false.

Lemma parse_rows_table offset rows closing post :
  is_rule closing = true -> Forall (table_row offset) rows ->
  parse_rows offset (((fun row => row.1 ++ row.2) <$> rows) ++ closing :: post) =
    Some ((fun row => row_member row.1 row.2) <$> rows).
Proof.
  intros Hc. induction 1 as [|[prefix name] rows (Hlen & Htrim & Hne & Hrule) _ IH]; cbn [fst snd] in *.
  - simpl. by rewrite Hc.
  - rewrite !fmap_cons. cbn [app parse_rows fst snd]. rewrite Hrule.
    pose proof (str_len_pos name Hne). rewrite str_len_app. replace (_ <=? offset) with false by lia.
    rewrite <- Hlen at 1. rewrite split_at_byte_app, Htrim, bool_decide_eq_false_2 by done. by rewrite IH.
Qed.

(** The lines before the header cannot open a table by themselves. *)
Definition quiet (pre : list str) : Prop :=
  Forall (fun l => find_str (lit "Name") l = None) pre \/ Forall (fun l => is_rule l = false) pre.

Lemma parse_preamble_table pre header rule_line offset rest :
  quiet pre -> find_str (lit "Name") header = Some offset -> is_rule rule_line = true ->
  parse_preamble None (pre ++ header :: rule_line :: rest) = parse_rows offset rest.
Proof.
  intros Hq Hh Hr. assert (Hend : forall o, parse_preamble o (header :: rule_line :: rest) = parse_rows offset rest).
  { intros o. cbn [parse_preamble]. by rewrite Hh, (is_rule_no_name _ Hr), Hr. }
  destruct Hq as [Hq|Hq].
  - induction Hq as [|l pre Hl _ IH]; [apply Hend|]. cbn [app parse_preamble]. by rewrite Hl.
  - generalize (@None Z). induction Hq as [|l pre Hl _ IH]; intros o; [apply Hend|]. cbn [app parse_preamble].
    rewrite Hl. repeat case_match; apply IH.
Qed.

(** The listing of an archive is read back exactly.  For a table as [unrar l] and
    [7z l] print it -- a header row naming the [Name] column, a rule, one row per member
    with its metadata left of that column, a closing rule -- the parser returns one member
    per row, in order, each with the text of its name column, however many spaces it
    holds, and never slices inside a character.  The lines before the header may mention
    [Name] or contain a rule, but not both. *)
Theorem listing_roundtrip pre header rule_line rows closing post offset :
  Forall text_line (pre ++ header :: rule_line :: ((fun row => row.1 ++ row.2) <$> rows) ++ closing :: post) ->
  quiet pre ->
  find_str (lit "Name") header = Some offset ->
  is_rule rule_line = true -> is_rule closing = true ->
  Forall (table_row offset) rows ->
  parse_listing (unlines (pre ++ header :: rule_line :: ((fun row => row.1 ++ row.2) <$> rows) ++ closing :: post)) =
    Some ((fun row => row_member row.1 row.2) <$> rows).
Proof.
  intros Htext Hq Hh Hr Hc Hrows. unfold parse_listing. rewrite lines_unlines by done.
  rewrite (parse_preamble_table _ _ _ _ _ Hq Hh Hr). by apply parse_rows_table.
Qed.

Definition demo_rule : str := lit "----------- ---------- ---------- -----  ----".

Definition demo_rows : list (str * str) :=
  [(lit "    ..A....   15559021 2019-04-02 19:40  ", lit "Three Body/01 - Chapter 1.mp3");
   (lit "    ...D...          0 2019-04-02 19:40  ", lit "Three Body")].

Lemma listing_roundtrip_witness :
  parse_listing (unlines ([lit "Archive: x.rar"] ++ lit " Attributes      Size     Date   Time    Name" ::
    demo_rule :: ((fun row => row.1 ++ row.2) <$> demo_rows) ++ demo_rule :: [lit "  15559021  2"])) =
  Some [ {| am_path := lit "Three Body/01 - Chapter 1.mp3"; am_byte_size := 15559021; am_is_dir := false |};
         {| am_path := lit "Three Body"; am_byte_size := 0; am_is_dir := true |} ].
Proof.
  etrans; [apply (listing_roundtrip _ _ _ _ _ _ 41)|by vm_compute].
  - apply (bool_decide_unpack (Forall text_line _)). by vm_compute.
  - left. apply (bool_decide_unpack (Forall _ _)). by vm_compute.
  - by vm_compute.
  - by vm_compute.
  - by vm_compute.
  - repeat constructor; by vm_compute.
Defined.

(** A 7-Zip archive whose path mentions [Name]: the two dashes 7-Zip prints above the
    archive's properties are taken for the rule under the header. *)
Example seven_zip_name_in_path :
  parse_listing (unlines (lit <$>
    ["Listing archive: Name.7z"; ""; "--"; "Path = /drop/Wind/Name.7z"; "Type = 7z"; "";
     "   Date      Time    Attr         Size   Compressed  Name";
     "------------------- ----- ------------ ------------  ------------------------";
     "2019-04-02 19:40:00 ....A     15559021     15000000  01.mp3";
     "------------------- ----- ------------ ------------  ------------------------"]%string)) =
  Some [ {| am_path := lit "/Name.7z"; am_byte_size := 0; am_is_dir := false |};
         {| am_path := lit "Attr         Size   Compressed  Name"; am_byte_size := 0; am_is_dir := true |} ].
Proof. by vm_compute. Qed.
