(* ===== verification/Explode.v ===== *)
(** * Exploding a delivered archive into its publications

    Models the tree walk of [src/crates/ingest/src/archive.rs] ([classify], [visit],
    [partition_directory], [attach_orphan_covers]) and the path predicates it uses from
    [src/crates/media/src/common.rs] ([dir_is_audio_book] and what it calls).  The
    extracted tree is a value of [node]; a directory that cannot be read makes the walk
    fail.  Symbolic links are not modelled. *)

From stdpp Require Import base list strings sorting.
From Stdlib Require Import ZArith Lia.
From S2P Require Import Prelude MediaTypes IngestPaths.

#[local] Open Scope Z_scope.
#[local] Open Scope coppice_scope.

(** A file with the MIME string its bytes sniff as, a directory and whether it can be
    read, or something else (a socket, a device). *)
Inductive node :=
| File (name : str) (sniffed : option str)
| Dir (name : str) (readable : bool) (entries : list node)
| Special (name : str).

Definition node_name (n : node) : str :=
  match n with File name _ | Dir name _ _ | Special name => name end.

(** ** Path predicates *)

(** The [__MACOSX] test compares the first component of the path, which is never that
    below an absolute extraction directory. *)
Definition is_hidden_file (name : str) : bool := starts_with name (lit ".").

Section predicates.
Context `{Lowercase}.

Definition naive_content_type (name : str) : ContentType :=
  match default [] (name_extension name) with
  | [] => UNKNOWN
  | e => from_extension e
  end.

Definition path_is_audio (name : str) : bool := is_audio (naive_content_type name).

(** [ContentType::from_path] with the sniffed MIME string. *)
Definition content_type_of (name : str) (sniffed : option str) : ContentType :=
  match from_mime <$> sniffed with
  | Some UNKNOWN | None => from_extension (default [] (name_extension name))
  | Some ct => ct
  end.

Definition is_supported (name : str) (sniffed : option str) : bool :=
  let ct := content_type_of name sniffed in
  negb (bool_decide (ct = UNKNOWN)) && negb (is_image ct).

Definition is_default_ignored (name : str) (sniffed : option str) : bool :=
  if is_hidden_file name then true else negb (is_supported name sniffed).

(** The loop of [dir_is_audio_book], with no ignore rules. *)
Fixpoint audio_book_loop (audio_files : Z) (entries : list node) : bool :=
  match entries with
  | [] => 0 <? audio_files
  | entry :: entries =>
      let name := node_name entry in
      if is_hidden_file name then audio_book_loop audio_files entries
      else
        match entry with
        | Dir _ _ _ => false
        | File _ sniffed =>
            if path_is_audio name then audio_book_loop (audio_files + 1) entries
            else if negb (is_default_ignored name sniffed) then false
            else audio_book_loop audio_files entries
        | Special _ =>
            if path_is_audio name then audio_book_loop (audio_files + 1) entries
            else if negb (is_default_ignored name None) then false
            else audio_book_loop audio_files entries
        end
  end.

Definition dir_is_audio_book (readable : bool) (entries : list node) : bool :=
  if readable then audio_book_loop 0 entries else false.

End predicates.

(** ** The walk *)

(** A path below the extraction root, as its components. *)
Abbreviation path := (list str).

Record ExplodedItem := {
  ei_kind : IngestMediaKind;
  ei_path : path;
  ei_filename : str;
  ei_relative_path : option str;
  ei_sidecars : list path;
}.

Record Explosion := { items : list ExplodedItem; notes : list str }.

Inductive ExplodeError := IoError.

(** [Vec::sort] and [sort_by] on a string key: stable. *)
Fixpoint insert_by {A} (key : A -> str) (x : A) (l : list A) : list A :=
  match l with
  | [] => [x]
  | y :: l' => if str_le (key x) (key y) then x :: l else y :: insert_by key x l'
  end.

Definition sort_by {A} (key : A -> str) (l : list A) : list A := foldr (insert_by key) [] l.

Definition relative_display (p : path) : str := replace_backslash (str_join [SLASH] p).

Definition relative_directory (p : path) : option str :=
  let value := relative_display p in
  if bool_decide (value = []) then None else Some value.

Definition entry_skipped (name : str) : bool :=
  starts_with name (lit ".") || bool_decide (name = lit "__MACOSX").

Definition other_note (p : path) : str :=
  relative_display p ++ lit ": not a publication, sidecar, or page".

Definition sidecar_note (p : path) : str :=
  relative_display p ++ lit ": sidecar with no single publication to attach to".

Definition pages_note (directory : path) (pages : Z) : str :=
  relative_display directory ++ lit ": " ++ show_Z pages ++
  lit " loose image(s) ignored; a container of pages is a comic, not a delivery".

(** [partition_directory]: the sidecars and the audio parts, sorted. *)
Definition regular_files (entries : list node) : list str :=
  omap (fun n => match n with
    | File name _ => if starts_with name (lit ".") then None else Some name
    | _ => None
    end) entries.

Definition partition_directory (directory : path) (entries : list node) : list path * list path :=
  let names := regular_files (sort_by node_name entries) in
  let audio := fun name => bool_decide (classify_member name = Publication Audio) in
  ((fun name => directory ++ [name]) <$> List.filter (fun name => negb (audio name)) names,
   (fun name => directory ++ [name]) <$> List.filter audio names).

Definition push_item (ex : Explosion) (item : ExplodedItem) : Explosion :=
  {| items := items ex ++ [item]; notes := notes ex |}.

Definition push_note (ex : Explosion) (note : str) : Explosion :=
  {| items := items ex; notes := notes ex ++ [note] |}.

(** [items.last_mut()] and [sidecars.extend]. *)
Definition extend_last (l : list ExplodedItem) (sidecars : list path) : list ExplodedItem :=
  match last l with
  | Some item =>
      removelast l ++ [ {| ei_kind := ei_kind item; ei_path := ei_path item; ei_filename := ei_filename item;
                           ei_relative_path := ei_relative_path item;
                           ei_sidecars := ei_sidecars item ++ sidecars |} ]
  | None => l
  end.

(** The locals of the loop over a directory. *)
Record Locals := { lc_ex : Explosion; lc_directory_items : Z; lc_loose : list path; lc_pages : Z }.

Section walk.
Context `{Lowercase}.

(** One entry; [walk] visits a subdirectory. *)
Definition visit_entry (directory : path) (st : Locals)
    (step : node * (Explosion -> result Explosion ExplodeError)) : result Locals ExplodeError :=
  let '(entry, walk) := step in
  let '{| lc_ex := ex; lc_directory_items := directory_items; lc_loose := loose; lc_pages := pages |} := st in
  let name := node_name entry in
  let p := directory ++ [name] in
  if entry_skipped name then Ok st
  else
    match entry with
    | Dir _ _ _ =>
        let? ex' := walk ex in
        Ok {| lc_ex := ex';
              lc_directory_items := directory_items + (Z.of_nat (length (items ex')) - Z.of_nat (length (items ex)));
              lc_loose := loose; lc_pages := pages |}
    | Special _ => Ok st
    | File _ _ =>
        match classify_member name with
        | Publication kind =>
            Ok {| lc_ex := push_item ex {| ei_kind := kind; ei_path := p; ei_filename := name;
                             ei_relative_path := relative_directory directory; ei_sidecars := [] |};
                  lc_directory_items := directory_items + 1; lc_loose := loose; lc_pages := pages |}
        | Sidecar =>
            Ok {| lc_ex := ex; lc_directory_items := directory_items; lc_loose := loose ++ [p]; lc_pages := pages |}
        | Page =>
            Ok {| lc_ex := ex; lc_directory_items := directory_items; lc_loose := loose; lc_pages := pages + 1 |}
        | Other =>
            Ok {| lc_ex := push_note ex (other_note p); lc_directory_items := directory_items;
                  lc_loose := loose; lc_pages := pages |}
        end
    end.

Fixpoint visit_entries (directory : path) (st : Locals)
    (steps : list (node * (Explosion -> result Explosion ExplodeError))) : result Locals ExplodeError :=
  match steps with
  | [] => Ok st
  | step :: steps => let? st := visit_entry directory st step in visit_entries directory st steps
  end.

(** After the loop: sidecars go to the only item, or into the notes, and pages are noted. *)
Definition finish_directory (directory : path) (st : Locals) : Explosion :=
  let '{| lc_ex := ex; lc_directory_items := directory_items; lc_loose := loose; lc_pages := pages |} := st in
  let '(ex, loose) :=
    if (directory_items =? 1) && negb (bool_decide (loose = [])) then
      ({| items := extend_last (items ex) loose; notes := notes ex |},
       if bool_decide (items ex = []) then loose else [])
    else (ex, loose) in
  let ex := fold_left (fun ex sidecar => push_note ex (sidecar_note sidecar)) loose ex in
  if 0 <? pages then push_note ex (pages_note directory pages) else ex.

Definition audio_item (directory : path) (entries : list node) : ExplodedItem := {|
  ei_kind := Audio; ei_path := directory; ei_filename := default [] (last directory);
  ei_relative_path := relative_directory (removelast directory);
  ei_sidecars := (partition_directory directory entries).1;
|}.

(** The walk of a directory node; the entries are visited in the order of their names. *)
Fixpoint visit (directory : path) (n : node) (ex : Explosion) : result Explosion ExplodeError :=
  match n with
  | Dir _ readable entries =>
      if negb (bool_decide (directory = [])) && dir_is_audio_book readable entries then
        Ok (push_item ex (audio_item directory entries))
      else if negb readable then Err IoError
      else
        let steps := map (fun c => (c, visit (directory ++ [node_name c]) c)) entries in
        let? st := visit_entries directory {| lc_ex := ex; lc_directory_items := 0; lc_loose := []; lc_pages := 0 |}
                     (sort_by (fun step => node_name step.1) steps) in
        Ok (finish_directory directory st)
  | _ => Ok ex
  end.

Definition orphan_note (note : str) : bool := negb (is_none (find_str (lit "no single publication") note)).

(** The sidecars at the root, sorted. *)
Definition partition_root_sidecars (entries : list node) : list path :=
  (fun name => [name]) <$> List.filter (fun name => bool_decide (classify_member name = Sidecar))
    (sort_by (fun name => name) (regular_files entries)).

Definition add_sidecars (item : ExplodedItem) (sidecars : list path) : ExplodedItem :=
  let all := fold_left (fun acc s => if bool_decide (s ∈ acc) then acc else acc ++ [s]) sidecars (ei_sidecars item) in
  {| ei_kind := ei_kind item; ei_path := ei_path item; ei_filename := ei_filename item;
     ei_relative_path := ei_relative_path item; ei_sidecars := sort_by (str_join [0]) all |}.

Definition attach_orphan_covers (entries : list node) (ex : Explosion) : Explosion :=
  match items ex with
  | [item] =>
      if existsb orphan_note (notes ex) then
        {| items := [add_sidecars item (partition_root_sidecars entries)];
           notes := List.filter (fun note => negb (orphan_note note)) (notes ex) |}
      else ex
  | _ => ex
  end.

(** The extracted root directory. *)
Definition classify (readable : bool) (entries : list node) : result Explosion ExplodeError :=
  let? ex := visit [] (Dir [] readable entries) {| items := []; notes := [] |} in
  let ex := {| items := sort_by ei_filename (items ex); notes := sort_by (fun note => note) (notes ex) |} in
  Ok (attach_orphan_covers entries ex).

End walk.

(** ** Sorting *)

Lemma insert_by_perm {A} (key : A -> str) x l : insert_by key x l ≡ₚ x :: l.
Proof.
  induction l as [|y l IH]; simpl; [done|]. destruct (str_le _ _); [done|]. by rewrite IH, Permutation_swap.
Qed.

Lemma sort_by_perm {A} (key : A -> str) l : sort_by key l ≡ₚ l.
Proof. induction l as [|x l IH]; simpl; [done|]. by rewrite insert_by_perm, IH. Qed.

Lemma insert_by_sorted {A} (key : A -> str) x l :
  Sorted (fun a b => str_ord (key a) (key b)) l -> Sorted (fun a b => str_ord (key a) (key b)) (insert_by key x l).
Proof.
  induction l as [|y l IH]; simpl; [by repeat constructor|]. intros Hs.
  destruct (str_le (key x) (key y)) eqn:E; [by constructor; [|constructor]|].
  apply Sorted_inv in Hs as [Hs Hh]. constructor; [by apply IH|].
  assert (Hyx : str_ord (key y) (key x)) by (destruct (str_le_total (key x) (key y)) as [?|?]; [congruence|done]).
  destruct l as [|z l]; simpl in *; [by constructor|]. inversion Hh; subst.
  destruct (str_le (key x) (key z)); by constructor.
Qed.

Lemma sort_by_sorted {A} (key : A -> str) l : Sorted (fun a b => str_ord (key a) (key b)) (sort_by key l).
Proof. induction l as [|x l IH]; simpl; [constructor|]. by apply insert_by_sorted. Qed.

Lemma sort_by_pair {A B} (key : A -> str) (f : A -> B) l :
  sort_by (fun s => key s.1) (map (fun a => (a, f a)) l) = map (fun a => (a, f a)) (sort_by key l).
Proof.
  induction l as [|x l IH]; simpl; [done|]. unfold sort_by in *. rewrite IH. clear IH.
  induction (foldr (insert_by key) [] l) as [|y l' IH]; simpl; [done|]. destruct (str_le _ _); [done|].
  simpl. by rewrite IH.
Qed.

(** ** What a walk must account for *)

(** Induction on trees. *)
Lemma node_induction (P : node -> Prop) :
  (forall name sniffed, P (File name sniffed)) ->
  (forall name, P (Special name)) ->
  (forall name readable entries, Forall P entries -> P (Dir name readable entries)) ->
  forall n, P n.
Proof.
  intros Hf Hs Hd. fix IH 1. intros [name sniffed|name readable entries|name]; [apply Hf| |apply Hs].
  apply Hd. induction entries as [|n entries IHe]; constructor; [apply IH|apply IHe].
Qed.

(** The regular files below a directory that no component hides. *)
Inductive visible_in : list node -> path -> Prop :=
| visible_file entries name sniffed :
    File name sniffed ∈ entries -> entry_skipped name = false -> visible_in entries [name]
| visible_dir entries name readable sub p :
    Dir name readable sub ∈ entries -> entry_skipped name = false -> visible_in sub p ->
    visible_in entries (name :: p).

(** The note that speaks about a file, according to what the file is. *)
Definition file_class (p : path) : Member := classify_member (default [] (last p)).

Inductive note_about : str -> path -> Prop :=
| about_other p : file_class p = Other -> note_about (other_note p) p
| about_sidecar p : file_class p = Sidecar -> note_about (sidecar_note p) p
| about_page directory name pages :
    classify_member name = Page -> note_about (pages_note directory pages) (directory ++ [name]).

(** A file is accounted for: it is an item, describes one, is a part of a folder
    audiobook, or a note speaks about it. *)
Definition accounted (ex : Explosion) (p : path) : Prop :=
  (exists item, item ∈ items ex /\ (ei_path item = p \/ p ∈ ei_sidecars item)) \/
  (exists item name, item ∈ items ex /\ ei_kind item = Audio /\ p = ei_path item ++ [name]) \/
  (exists note, note ∈ notes ex /\ note_about note p).

(** An item only gains sidecars. *)
Definition item_le (a b : ExplodedItem) : Prop :=
  ei_kind a = ei_kind b /\ ei_path a = ei_path b /\ ei_filename a = ei_filename b /\
  exists extra, ei_sidecars b = ei_sidecars a ++ extra.

Definition grows (ex ex' : Explosion) : Prop :=
  (exists old new, items ex' = old ++ new /\ Forall2 item_le (items ex) old) /\
  notes ex `prefix_of` notes ex'.

#[export] Instance item_le_refl : Reflexive item_le.
Proof. intros a. split_and!; try done. exists []. by rewrite app_nil_r. Qed.

#[export] Instance item_le_trans : Transitive item_le.
Proof.
  intros a b c (? & ? & ? & x & Hx) (? & ? & ? & y & Hy). split_and!; [congruence..|].
  exists (x ++ y). by rewrite Hy, Hx, app_assoc.
Qed.

#[export] Instance grows_refl : Reflexive grows.
Proof. intros ex. split; [|done]. exists (items ex), []. by rewrite app_nil_r. Qed.

#[export] Instance grows_trans : Transitive grows.
Proof.
  intros x y z [(o1 & n1 & E1 & F1) N1] [(o2 & n2 & E2 & F2) N2]. split; [|by etrans].
  rewrite E1 in F2. apply Forall2_app_inv_l in F2 as (o3 & o4 & F3 & F4 & ->).
  exists o3, (o4 ++ n2). split; [by rewrite E2, app_assoc|]. by etrans.
Qed.

Lemma grows_item ex ex' item :
  grows ex ex' -> item ∈ items ex -> exists item', item' ∈ items ex' /\ item_le item item'.
Proof.
  intros [(old & new & E & F) _] [i Hi]%list_elem_of_lookup.
  destruct (Forall2_lookup_l _ _ _ _ _ F Hi) as (item' & Hi' & Hle). exists item'. split; [|done].
  rewrite E. apply elem_of_app. left. by eapply list_elem_of_lookup_2.
Qed.

Lemma grows_note ex ex' note : grows ex ex' -> note ∈ notes ex -> note ∈ notes ex'.
Proof. intros [_ [tail ->]] Hn. apply elem_of_app. by left. Qed.

Lemma accounted_grows ex ex' p : grows ex ex' -> accounted ex p -> accounted ex' p.
Proof.
  intros Hg [(item & Hin & Hp)|[(item & name & Hin & Hk & ->)|(note & Hn & Hp)]].
  - destruct (grows_item _ _ _ Hg Hin) as (item' & Hin' & _ & Hpath & _ & extra & Hs). left. exists item'.
    split; [done|]. destruct Hp as [<-|Hp]; [by left|right]. rewrite Hs. apply elem_of_app. by left.
  - destruct (grows_item _ _ _ Hg Hin) as (item' & Hin' & Hkind & Hpath & _). right; left.
    exists item', name. by rewrite <- Hkind, <- Hpath.
  - do 2 right. exists note. split; [by eapply grows_note|done].
Qed.

(** What an item is: its path and kind. *)
Definition described (item : ExplodedItem) : path * IngestMediaKind := (ei_path item, ei_kind item).

(** ** Publications *)

Section spec.
Context `{Lowercase}.

(** The publications of a tree: a folder audiobook below the root counts as one, every
    other visible publication file as one each. *)
Fixpoint publications (directory : path) (n : node) : list (path * IngestMediaKind) :=
  match n with
  | Dir _ readable entries =>
      if negb (bool_decide (directory = [])) && dir_is_audio_book readable entries then [(directory, Audio)]
      else flat_map (fun c =>
        if entry_skipped (node_name c) then []
        else
          match c with
          | File name _ =>
              match classify_member name with Publication kind => [(directory ++ [name], kind)] | _ => [] end
          | Dir name _ _ => publications (directory ++ [name]) c
          | Special _ => []
          end) entries
  | _ => []
  end.

Definition entry_publications (directory : path) (c : node) : list (path * IngestMediaKind) :=
  if entry_skipped (node_name c) then []
  else
    match c with
    | File name _ =>
        match classify_member name with Publication kind => [(directory ++ [name], kind)] | _ => [] end
    | Dir name _ _ => publications (directory ++ [name]) c
    | Special _ => []
    end.

(** A walk from [ex] to [ex'] below [directory] that did its work. *)
Definition walked (directory : path) (n : node) (ex ex' : Explosion) : Prop :=
  grows ex ex' /\
  described <$> items ex' ≡ₚ (described <$> items ex) ++ publications directory n /\
  (forall name readable entries p, n = Dir name readable entries -> visible_in entries p ->
     accounted ex' (directory ++ p)).

(** The loop has accounted for the files of [seen], up to the sidecars and pages it still
    holds. *)
Definition pending_or_accounted (directory : path) (st : Locals) (p : path) : Prop :=
  accounted (lc_ex st) (directory ++ p) \/
  (directory ++ p ∈ lc_loose st /\ file_class (directory ++ p) = Sidecar) \/
  (exists name, p = [name] /\ classify_member name = Page /\ 0 < lc_pages st).

Definition advanced (directory : path) (seen : list node) (st st' : Locals) : Prop :=
  grows (lc_ex st) (lc_ex st') /\
  described <$> items (lc_ex st') ≡ₚ
    (described <$> items (lc_ex st)) ++ flat_map (entry_publications directory) seen /\
  lc_directory_items st' - lc_directory_items st =
    Z.of_nat (length (items (lc_ex st'))) - Z.of_nat (length (items (lc_ex st))) /\
  lc_loose st `prefix_of` lc_loose st' /\ lc_pages st <= lc_pages st' /\
  (0 <= lc_pages st -> forall p, visible_in seen p -> pending_or_accounted directory st' p).

Lemma pending_advances directory seen st st' p :
  advanced directory seen st st' -> pending_or_accounted directory st p -> pending_or_accounted directory st' p.
Proof.
  intros (Hg & _ & _ & [tail Hl] & Hp & _) [Ha|[[Hin Hc]|(name & -> & Hc & Hpos)]].
  - left. by eapply accounted_grows.
  - right; left. split; [|done]. rewrite Hl. apply elem_of_app. by left.
  - right; right. exists name. split_and!; [done|done|lia].
Qed.

Lemma visible_single c p :
  visible_in [c] p -> entry_skipped (node_name c) = false /\
  ((exists name sniffed, c = File name sniffed /\ p = [name]) \/
   (exists name readable sub p', c = Dir name readable sub /\ p = name :: p' /\ visible_in sub p')).
Proof.
  inversion 1 as [es name sn Hin Hs|es name r sub p' Hin Hs Hv]; subst;
    apply list_elem_of_singleton in Hin as <-; simpl; split; eauto 10.
Qed.

Lemma visible_app l1 l2 p : visible_in (l1 ++ l2) p -> visible_in l1 p \/ visible_in l2 p.
Proof.
  inversion 1 as [es name sn Hin Hs|es name r sub p' Hin Hs Hv]; subst;
    apply elem_of_app in Hin as [?|?]; eauto using visible_in.
Qed.

Lemma visible_perm l1 l2 p : l1 ≡ₚ l2 -> visible_in l1 p -> visible_in l2 p.
Proof. intros E. inversion 1; subst; econstructor; eauto; by rewrite <- E. Qed.

(** An entry that is skipped, or leaves the explosion alone, and is no visible file. *)
Lemma advanced_same directory c st :
  entry_publications directory c = [] ->
  (forall p, visible_in [c] p -> pending_or_accounted directory st p) -> advanced directory [c] st st.
Proof.
  intros Hp Hv. unfold advanced. cbn [flat_map]. rewrite Hp. cbn [app]. rewrite app_nil_r.
  split_and!; try done; try lia.
Qed.

Lemma push_item_grows ex item : grows ex (push_item ex item).
Proof. split; [|done]. by exists (items ex), [item]. Qed.

Lemma push_note_grows ex note : grows ex (push_note ex note).
Proof. split; [|by exists [note]]. exists (items ex), []. by rewrite app_nil_r. Qed.

Lemma visit_file_advanced directory name sniffed walk st st' :
  entry_skipped name = false ->
  visit_entry directory st (File name sniffed, walk) = Ok st' ->
  advanced directory [File name sniffed] st st'.
Proof.
  intros Hskip. destruct st as [ex di loose pages]. unfold visit_entry. cbn [node_name]. rewrite Hskip.
  assert (Hone : forall p, visible_in [File name sniffed] p -> p = [name]).
  { intros p [_ [(? & ? & [= <- <-] & ->)|(? & ? & ? & ? & ? & _)]]%visible_single; done. }
  unfold advanced. cbn [flat_map]. unfold entry_publications. cbn [node_name]. rewrite Hskip, app_nil_r.
  destruct (classify_member name) as [kind| | |] eqn:Ec; intros [= <-]; cbn [lc_ex lc_loose lc_pages lc_directory_items].
  - split_and!; [apply push_item_grows| | |done|lia|].
    + unfold push_item. cbn [items]. by rewrite fmap_app.
    + unfold push_item. cbn [items]. rewrite length_app. simpl. lia.
    + intros _ p ->%Hone. left. left. eexists. split; [apply elem_of_app; right; by left|by left].
  - split_and!; [done|by rewrite app_nil_r|lia|by exists [directory ++ [name]]|lia|].
    intros _ p ->%Hone. right; left. split; [apply elem_of_app; right; by left|].
    unfold file_class. by rewrite last_snoc.
  - split_and!; [done|by rewrite app_nil_r|lia|done|lia|].
    intros Hp p ->%Hone. right; right. exists name. split_and!; [done|done|]. simpl. lia.
  - split_and!; [apply push_note_grows|by rewrite app_nil_r|simpl; lia|done|lia|].
    intros _ p ->%Hone. left. do 2 right. eexists. split; [apply elem_of_app; right; by left|].
    constructor. unfold file_class. by rewrite last_snoc.
Qed.

Lemma visit_dir_advanced directory name readable sub st st' :
  (forall d ex ex', visit d (Dir name readable sub) ex = Ok ex' -> walked d (Dir name readable sub) ex ex') ->
  entry_skipped name = false ->
  visit_entry directory st (Dir name readable sub, visit (directory ++ [name]) (Dir name readable sub)) = Ok st' ->
  advanced directory [Dir name readable sub] st st'.
Proof.
  intros IH Hskip. destruct st as [ex di loose pages]. unfold visit_entry. cbn [node_name]. rewrite Hskip.
  intros (ex' & Hw & [= <-])%result_bind_Ok. apply IH in Hw as (Hg & Hp & Ha).
  unfold advanced. cbn [flat_map lc_ex lc_loose lc_pages lc_directory_items]. rewrite app_nil_r.
  unfold entry_publications at 1. cbn [node_name]. rewrite Hskip.
  split_and!; [done|done|lia|done|lia|].
  intros _ p [_ [(? & ? & ? & _)|(n & r & s & p' & [= <- <- <-] & -> & Hv)]]%visible_single; [done|].
  left. cbn [lc_ex]. rewrite cons_middle, app_assoc. by eapply Ha.
Qed.

Lemma visit_entry_advanced directory c st st' :
  (forall d ex ex', visit d c ex = Ok ex' -> walked d c ex ex') ->
  visit_entry directory st (c, visit (directory ++ [node_name c]) c) = Ok st' ->
  advanced directory [c] st st'.
Proof.
  intros IH Hv. destruct (entry_skipped (node_name c)) eqn:Hskip.
  - assert (st' = st) as ->.
    { destruct st. unfold visit_entry in Hv. rewrite Hskip in Hv. congruence. }
    apply advanced_same; [unfold entry_publications; by rewrite Hskip|].
    intros p [Hs _]%visible_single. congruence.
  - destruct c as [name sniffed|name readable sub|name].
    + by eapply visit_file_advanced.
    + by eapply visit_dir_advanced.
    + assert (st' = st) as ->.
      { destruct st. unfold visit_entry in Hv. rewrite Hskip in Hv. congruence. }
      apply advanced_same; [unfold entry_publications; by rewrite Hskip|].
      intros p [_ [(? & ? & ? & _)|(? & ? & ? & ? & ? & _)]]%visible_single; done.
Qed.

Lemma advanced_trans directory l1 l2 st st1 st2 :
  0 <= lc_pages st -> advanced directory l1 st st1 -> advanced directory l2 st1 st2 ->
  advanced directory (l1 ++ l2) st st2.
Proof.
  intros Hpos H1 H2. pose proof H1 as (G1 & P1 & D1 & L1 & N1 & V1). pose proof H2 as (G2 & P2 & D2 & L2 & N2 & V2).
  split_and!; [by etrans| |lia|by etrans|lia|].
  - rewrite P2, P1, flat_map_app. by rewrite app_assoc.
  - intros _ p [Hv|Hv]%visible_app; [|apply V2; [lia|done]].
    eapply pending_advances; [done|]. by apply V1.
Qed.

Lemma visit_entries_advanced directory cs st st' :
  Forall (fun c => forall d ex ex', visit d c ex = Ok ex' -> walked d c ex ex') cs ->
  0 <= lc_pages st ->
  visit_entries directory st (map (fun c => (c, visit (directory ++ [node_name c]) c)) cs) = Ok st' ->
  advanced directory cs st st'.
Proof.
  intros Hcs. revert st. induction Hcs as [|c cs Hc _ IH]; intros st Hpos; cbn [map visit_entries].
  - intros [= <-]. split_and!; [done|by cbn; rewrite app_nil_r|lia|done|lia|].
    intros _ p Hv. inversion Hv; subst; by apply not_elem_of_nil in H0.
  - intros (st1 & H1 & H2)%result_bind_Ok. apply visit_entry_advanced in H1; [|done].
    change (c :: cs) with ([c] ++ cs). eapply advanced_trans; [done..|]. apply IH; [|done].
    destruct H1 as (_ & _ & _ & _ & ? & _). lia.
Qed.

Lemma extend_last_grows l sidecars :
  exists old, extend_last l sidecars = old /\ Forall2 item_le l old /\ described <$> old = described <$> l.
Proof.
  eexists. split; [done|]. unfold extend_last. destruct (last l) as [item|] eqn:El; [|done].
  apply last_Some in El as [l' ->]. rewrite removelast_last. split.
  - apply Forall2_app; [done|]. constructor; [|constructor]. split_and!; try done. by eexists.
  - by rewrite !fmap_app.
Qed.

(** Noting the sidecars that are left. *)
Lemma note_sidecars loose ex :
  let ex' := fold_left (fun ex s => push_note ex (sidecar_note s)) loose ex in
  grows ex ex' /\ items ex' = items ex /\
  forall s, s ∈ loose -> file_class s = Sidecar -> accounted ex' s.
Proof.
  revert ex. induction loose as [|s loose IH]; intros ex; simpl.
  - split_and!; [done|done|]. intros s Hs. by apply not_elem_of_nil in Hs.
  - destruct (IH (push_note ex (sidecar_note s))) as (Hg & Hi & Ha). split_and!.
    + etrans; [apply push_note_grows|done].
    + by rewrite Hi.
    + intros s' [->|Hs]%elem_of_cons Hc; [|by apply Ha]. eapply accounted_grows; [done|].
      do 2 right. eexists. split; [apply elem_of_app; right; by left|by constructor].
Qed.

Lemma finish_directory_walked directory st n0 :
  lc_directory_items st = Z.of_nat (length (items (lc_ex st))) - Z.of_nat n0 ->
  let ex' := finish_directory directory st in
  grows (lc_ex st) ex' /\ described <$> items ex' = described <$> items (lc_ex st) /\
  (forall p, pending_or_accounted directory st p -> accounted ex' (directory ++ p)).
Proof.
  destruct st as [ex di loose pages]. cbn [lc_ex lc_directory_items]. intros Hdi. unfold finish_directory.
  set (attach := (di =? 1) && negb (bool_decide (loose = []))).
  assert (Hmid : exists ex1 loose1,
    (if attach then ({| items := extend_last (items ex) loose; notes := notes ex |},
                     if bool_decide (items ex = []) then loose else []) else (ex, loose)) = (ex1, loose1) /\
    grows ex ex1 /\ described <$> items ex1 = described <$> items ex /\
    forall s, s ∈ loose -> accounted ex1 s \/ s ∈ loose1).
  { destruct attach eqn:Ea; [|exists ex, loose; split_and!; [done|reflexivity|done|auto] ].
    do 2 eexists. split; [done|]. destruct (extend_last_grows (items ex) loose) as (old & Hold & Hle & Hd).
    split_and!; [|by rewrite <- Hd, <- Hold|].
    - split; [|done]. exists old, []. by rewrite app_nil_r.
    - intros s Hs. left. apply andb_true_iff in Ea as [Hone%Z.eqb_eq _].
      destruct (last (items ex)) as [item|] eqn:El.
      + left. cbn [items]. unfold extend_last. rewrite El. eexists. split; [apply elem_of_app; right; by left|].
        right. apply elem_of_app. by right.
      + apply last_None in El. rewrite El in Hdi. simpl in Hdi. lia. }
  destruct Hmid as (ex1 & loose1 & -> & Hg1 & Hd1 & Hl1).
  destruct (note_sidecars loose1 ex1) as (Hg2 & Hi2 & Ha2).
  set (ex2 := fold_left _ _ _) in *. clearbody ex2.
  set (ex3 := if 0 <? pages then push_note ex2 (pages_note directory pages) else ex2).
  assert (Hg3 : grows ex2 ex3) by (subst ex3; destruct (0 <? pages); [apply push_note_grows|done]).
  assert (Hi3 : items ex3 = items ex2) by (subst ex3; by destruct (0 <? pages)).
  split_and!; [by etrans; [etrans|]|by rewrite Hi3, Hi2|].
  intros p [Ha|[[Hin Hc]|(name & -> & Hc & Hpos)]]; cbn [lc_ex lc_loose lc_pages] in *.
  - eapply accounted_grows; [|exact Ha]. by etrans; [etrans|].
  - destruct (Hl1 _ Hin) as [Ha|Hin1].
    + eapply accounted_grows; [|exact Ha]. by etrans.
    + eapply accounted_grows; [exact Hg3|]. by apply Ha2.
  - do 2 right. eexists. split; [|by apply (about_page directory name pages)].
    subst ex3. rewrite (proj2 (Z.ltb_lt _ _)) by done. apply elem_of_app. right. by left.
Qed.

(** A folder audiobook has no visible subdirectory. *)
Lemma audio_book_flat k entries name readable sub :
  audio_book_loop k entries = true -> Dir name readable sub ∈ entries -> is_hidden_file name = true.
Proof.
  revert k. induction entries as [|e entries IH]; intros k; cbn [audio_book_loop]; [by intros _ ?%not_elem_of_nil|].
  intros Hl [<-|Hin]%elem_of_cons.
  - cbn [node_name] in Hl. by destruct (is_hidden_file name).
  - destruct (is_hidden_file (node_name e)); [by eapply IH|].
    destruct e; [destruct (path_is_audio _); [by eapply IH|]; destruct (negb _); [done|by eapply IH]|done|].
    destruct (path_is_audio _); [by eapply IH|]; destruct (negb _); [done|by eapply IH].
Qed.

Lemma audio_book_walked directory name readable entries ex :
  directory <> [] -> dir_is_audio_book readable entries = true ->
  walked directory (Dir name readable entries) ex (push_item ex (audio_item directory entries)).
Proof.
  intros Hd Hb. split_and!; [apply push_item_grows| |].
  - cbn [publications]. rewrite bool_decide_eq_false_2, Hb by done. unfold push_item. cbn [items]. by rewrite fmap_app.
  - intros ? ? ? p [= <- <- <-] Hv. right; left. exists (audio_item directory entries).
    unfold dir_is_audio_book in Hb. destruct readable; [|done].
    inversion Hv as [es nm sn Hin Hs|es nm r sub p' Hin Hs Hv']; subst.
    + exists nm. split_and!; [apply elem_of_app; right; by left|done..].
    + pose proof (audio_book_flat _ _ _ _ _ Hb Hin) as Hh. unfold entry_skipped in Hs.
      unfold is_hidden_file in Hh. by rewrite Hh in Hs.
Qed.

Lemma visit_walked n directory ex ex' : visit directory n ex = Ok ex' -> walked directory n ex ex'.
Proof.
  revert directory ex ex'. induction n as [name sniffed|name|name readable entries IH] using node_induction;
    intros directory ex ex'.
  - cbn [visit]. intros [= <-]. split_and!; [done|by rewrite app_nil_r|done].
  - cbn [visit]. intros [= <-]. split_and!; [done|by rewrite app_nil_r|done].
  - cbn [visit]. destruct (negb (bool_decide (directory = [])) && dir_is_audio_book readable entries) eqn:Eb.
    + apply andb_true_iff in Eb as [Hd%negb_true_iff%bool_decide_eq_false Hb]. intros [= <-].
      by apply audio_book_walked.
    + destruct readable; cbn [negb]; [|done]. rewrite sort_by_pair.
      intros (st & Hst & [= <-])%result_bind_Ok.
      apply visit_entries_advanced in Hst; [|by rewrite (sort_by_perm node_name entries)|done].
      destruct Hst as (Hg & Hp & Hdi & _ & _ & Hv). cbn [lc_ex lc_directory_items] in *.
      destruct (finish_directory_walked directory st (length (items ex)) ltac:(lia)) as (Hg' & Hd' & Ha).
      split_and!; [by etrans| |].
      * rewrite Hd', Hp. cbn [publications]. rewrite Eb. apply Permutation_app_head.
        apply Permutation_flat_map, sort_by_perm.
      * intros ? ? ? p [= <- <- <-] Hvis. apply Ha, Hv; [done|].
        eapply visible_perm; [symmetry; apply sort_by_perm|done].
Qed.

(** ** Classification *)

Lemma accounted_perm ex ex' p :
  items ex ≡ₚ items ex' -> notes ex ≡ₚ notes ex' -> accounted ex p -> accounted ex' p.
Proof. intros Hi Hn. unfold accounted. setoid_rewrite Hi. by setoid_rewrite Hn. Qed.

Lemma fold_add_elem (sidecars acc : list path) s :
  s ∈ fold_left (fun acc s => if bool_decide (s ∈ acc) then acc else acc ++ [s]) sidecars acc <->
  s ∈ acc \/ s ∈ sidecars.
Proof.
  revert acc. induction sidecars as [|x sidecars IH]; intros acc; simpl.
  - rewrite elem_of_nil. tauto.
  - rewrite IH, elem_of_cons. case_bool_decide as Hx; [naive_solver|].
    rewrite elem_of_app, list_elem_of_singleton. naive_solver.
Qed.

Lemma add_sidecars_elem item sidecars s :
  s ∈ ei_sidecars (add_sidecars item sidecars) <-> s ∈ ei_sidecars item \/ s ∈ sidecars.
Proof. unfold add_sidecars. cbn [ei_sidecars]. by rewrite sort_by_perm, fold_add_elem. Qed.

Lemma root_sidecar_elem entries name :
  visible_in entries [name] -> classify_member name = Sidecar -> [name] ∈ partition_root_sidecars entries.
Proof.
  intros Hv Hc. inversion Hv as [es nm sn Hin Hs|es nm r sub p' Hin Hs Hv']; subst; [|by inversion Hv'].
  unfold partition_root_sidecars. apply list_elem_of_fmap. exists name. split; [done|].
  apply list_elem_of_In, filter_In. split; [|by rewrite bool_decide_eq_true]. apply list_elem_of_In.
  rewrite sort_by_perm. unfold regular_files. apply list_elem_of_omap. exists (File name sn). split; [done|].
  unfold entry_skipped in Hs. apply orb_false_iff in Hs as [-> _]. done.
Qed.

(** Attaching covers to the only item keeps every account but those of the notes it
    drops. *)
Lemma attach_accounted entries ex p :
  visible_in entries p -> accounted ex p ->
  let ex' := attach_orphan_covers entries ex in
  accounted ex' p \/
  (length (items ex') = 1%nat /\ exists note, orphan_note note = true /\ note_about note p /\
     ~ (exists name, p = [name] /\ classify_member name = Sidecar)).
Proof.
  intros Hv Ha. unfold attach_orphan_covers. destruct (items ex) as [|item [|]] eqn:Ei; [by left| |by left].
  destruct (existsb orphan_note (notes ex)); [|by left]. cbn zeta.
  destruct Ha as [(it & Hin & Hp)|[(it & name & Hin & Hk & ->)|(note & Hn & Hp)]].
  - rewrite Ei in Hin. apply list_elem_of_singleton in Hin as ->. left. left. eexists. split; [by left|].
    rewrite add_sidecars_elem. naive_solver.
  - rewrite Ei in Hin. apply list_elem_of_singleton in Hin as ->. left. right; left. eexists _, name. split; [by left|done].
  - destruct (orphan_note note) eqn:Eo.
    + destruct (decide (length p = 1%nat /\ file_class p = Sidecar)) as [[Hl Hc]|Hno].
      * destruct p as [|name [|]]; [done| |done]. left. left. eexists. split; [by left|].
        right. rewrite add_sidecars_elem. right. by apply root_sidecar_elem.
      * right. split; [done|]. exists note. split_and!; [done|done|]. intros (name & -> & Hc). by destruct Hno.
    + left. do 2 right. exists note. split; [|done]. cbn [notes]. apply list_elem_of_In, filter_In.
      split; [by apply list_elem_of_In|by rewrite Eo].
Qed.

Fixpoint readable_tree (n : node) : bool :=
  match n with
  | Dir _ readable entries => readable && forallb readable_tree entries
  | _ => true
  end.

Lemma visit_total n directory ex : readable_tree n = true -> exists ex', visit directory n ex = Ok ex'.
Proof.
  revert directory ex. induction n as [name sniffed|name|name readable entries IH] using node_induction;
    intros directory ex; cbn [visit readable_tree]; [by eauto..|].
  intros [-> Hall]%andb_true_iff. destruct (_ && _); [by eauto|]. cbn [negb]. rewrite sort_by_pair.
  assert (Hs : Forall (fun c => forall d ex, exists ex', visit d c ex = Ok ex') (sort_by node_name entries)).
  { rewrite (sort_by_perm node_name entries). rewrite Forall_forall in IH |- *. intros c Hc d e. apply IH; [done|].
    rewrite forallb_forall in Hall. apply Hall. by apply list_elem_of_In. }
  generalize {| lc_ex := ex; lc_directory_items := 0; lc_loose := []; lc_pages := 0 |}.
  induction Hs as [|c cs Hc _ IHs]; intros st; cbn [map visit_entries result_bind]; [by eauto|].
  assert (Hst : exists st', visit_entry directory st (c, visit (directory ++ [node_name c]) c) = Ok st').
  { destruct st as [e di loose pages]. unfold visit_entry. destruct (entry_skipped _); [by eauto|].
    destruct c as [nm sn|nm r sub|nm]; [destruct (classify_member _); by eauto| |by eauto].
    destruct (Hc (directory ++ [nm]) e) as [e' He]. cbn [node_name]. rewrite He. by eauto. }
  destruct Hst as [st' ->]. cbn [result_bind]. apply IHs.
Qed.

(** An extracted archive becomes exactly its publications, and its files are
    accounted for.  When every directory can be read, classification succeeds.  The items
    are, sorted by filename, one per folder audiobook and one per visible publication
    file outside such folders, each with its kind.  Every visible file is an item, a
    sidecar of one, a part of a folder audiobook, or the subject of a note; the only
    exception is a delivery of exactly one item, where the notes about sidecars without an
    owner are dropped and only those of the root are attached instead. *)
Theorem classify_exact readable entries :
  (readable_tree (Dir [] readable entries) = true -> exists ex, classify readable entries = Ok ex) /\
  (forall ex, classify readable entries = Ok ex ->
     described <$> items ex ≡ₚ publications [] (Dir [] readable entries) /\
     Sorted (fun a b => str_ord (ei_filename a) (ei_filename b)) (items ex) /\
     (forall p, visible_in entries p ->
        accounted ex p \/
        (length (items ex) = 1%nat /\ exists note, orphan_note note = true /\ note_about note p /\
           ~ (exists name, p = [name] /\ classify_member name = Sidecar)))).
Proof.
  split.
  - intros Hr. destruct (visit_total _ [] {| items := []; notes := [] |} Hr) as [ex0 H0].
    unfold classify. rewrite H0. cbn [result_bind]. by eauto.
  - unfold classify. intros ex (ex0 & H0 & [= <-])%result_bind_Ok.
    apply visit_walked in H0 as (_ & Hp & Ha). cbn [items fmap list_fmap app] in Hp.
    set (ex1 := {| items := sort_by ei_filename (items ex0); notes := _ |}).
    assert (Hi1 : items ex1 ≡ₚ items ex0) by apply sort_by_perm.
    assert (Hn1 : notes ex1 ≡ₚ notes ex0) by apply sort_by_perm.
    split_and!.
    + rewrite <- Hp, <- Hi1. unfold attach_orphan_covers.
      destruct (items ex1) as [|item [|]] eqn:E; [by rewrite E| |by rewrite E].
      destruct (existsb _ _); [done|by rewrite E].
    + assert (Hs : Sorted (fun a b => str_ord (ei_filename a) (ei_filename b)) (items ex1)) by apply sort_by_sorted.
      unfold attach_orphan_covers. destruct (items ex1) as [|item [|]] eqn:E; [by rewrite E| |by rewrite E].
      destruct (existsb _ _); [by repeat constructor|by rewrite E].
    + intros p Hv. apply attach_accounted; [done|]. eapply accounted_perm; [by symmetry|by symmetry|].
      by apply (Ha [] readable entries p).
Qed.

End spec.

(** ** Two deliveries *)

#[local] Instance demo_lower : Lowercase := {| to_lowercase := map to_ascii_lowercase |}.

(** The note about a sidecar in a subdirectory without a publication is dropped when the
    delivery holds one book. *)
Example orphan_note_lost :
  let entries := [File (lit "book.epub") None; Dir (lit "extra") true [File (lit "info.nfo") None]] in
  exists item, classify true entries = Ok {| items := [item]; notes := [] |} /\
    ei_path item = [lit "book.epub"] /\ ei_sidecars item = [] /\ visible_in entries [lit "extra"; lit "info.nfo"].
Proof.
  eexists. split; [by vm_compute|]. split; [done|]. split; [done|].
  eapply (visible_dir _ (lit "extra")); [right; left; done|done|]. eapply visible_file; [by left|done].
Qed.

(** A text file beside the parts keeps a folder of audio from being one book. *)
Example text_file_splits_audiobook :
  let parts := [File (lit "01.mp3") None; File (lit "02.mp3") None] in
  (exists item, classify true [Dir (lit "Book") true (parts ++ [File (lit "info.nfo") None])] =
     Ok {| items := [item]; notes := [] |} /\ ei_path item = [lit "Book"]) /\
  (exists one two, classify true [Dir (lit "Book") true (parts ++ [File (lit "info.txt") None])] =
     Ok {| items := [one; two]; notes := [sidecar_note [lit "Book"; lit "info.txt"]] |}).
Proof. split; [eexists|eexists _, _]; split_and?; by vm_compute. Qed.
