(* ===== verification/IngestProgress.v ===== *)
(** * The ingest progress stream

    Models [src/crates/ingest/src/progress.rs]: durable progress events with a bounded
    retention, their zero-padded cursors, and subscriptions that replay stored events and
    then follow the live broadcast.  The event table is a list in primary-key order with
    its auto-increment counter; any SQL statement may fail ([hub_faults]).  The broadcast
    channel is the log of everything sent; a receiver is a position in it. *)

From stdpp Require Import base list strings sorting.
From Stdlib Require Import ZArith Lia Sorted.
From S2P Require Import Prelude IngestContract.

#[local] Open Scope Z_scope.
#[local] Open Scope coppice_scope.

(** ** Events and cursors *)

Record IngestProgressEvent := {
  pe_cursor : str;
  pe_library_id : str;
  pe_drop_item_id : str;
  pe_analysis_job_id : option str;
  pe_phase : AnalysisPhase;
  pe_status : DropItemStatus;
  pe_completed : Z;
  pe_total : Z;
  pe_score : option Z;
  pe_message : str;
}.

Definition with_cursor (e : IngestProgressEvent) (cursor : str) : IngestProgressEvent := {|
  pe_cursor := cursor; pe_library_id := pe_library_id e; pe_drop_item_id := pe_drop_item_id e;
  pe_analysis_job_id := pe_analysis_job_id e; pe_phase := pe_phase e; pe_status := pe_status e;
  pe_completed := pe_completed e; pe_total := pe_total e; pe_score := pe_score e; pe_message := pe_message e |}.

Record StoredProgressEvent := { event_id : str; emitted_at : Z; event : IngestProgressEvent }.

Record CursorExpired := { oldest : str }.

(** [format!("{cursor:012}")]: zeros between the sign and the digits, twelve in all. *)
Definition format_cursor (cursor : Z) : str :=
  let digits := show_nonneg (Z.abs cursor) in
  if cursor <? 0 then 45 :: replicate (11 - length digits) 48 ++ digits
  else replicate (12 - length digits) 48 ++ digits.

Definition parse_cursor (cursor : str) : option Z :=
  if bool_decide (cursor = []) then None
  else
    match parse_u64 cursor with
    | Some value => if i64_max <? value then None else Some value
    | None => None
    end.

(** [as i64] of a [u64]. *)
Definition as_i64 (n : Z) : Z := if n <=? i64_max then n else n - 2 ^ 64.

Definition saturating_add_u64 (a b : Z) : Z := Z.min u64_max (a + b).

(** ** The hub *)

(** [payload] is [None] when the stored JSON is not an event. *)
Record Row := {
  row_cursor : Z;
  row_library_id : str;
  row_drop_item_id : str;
  row_payload : option IngestProgressEvent;
  row_created_at : Z;
}.

Record Hub := {
  hub_rows : list Row;
  hub_next : Z;
  hub_sent : list StoredProgressEvent;
  hub_faults : list bool;
}.

Inductive HubError := HubDatabase.

Abbreviation HubM A := (Hub -> result A HubError * Hub).

Definition set_rows (h : Hub) (rows : list Row) : Hub :=
  {| hub_rows := rows; hub_next := hub_next h; hub_sent := hub_sent h; hub_faults := hub_faults h |}.

Definition hub_statement {A} (run : Hub -> A * Hub) : HubM A := fun h =>
  match hub_faults h with
  | [] => let '(a, h) := run h in (Ok a, h)
  | fault :: faults =>
      let h := {| hub_rows := hub_rows h; hub_next := hub_next h; hub_sent := hub_sent h; hub_faults := faults |} in
      if (fault : bool) then (Err HubDatabase, h) else let '(a, h) := run h in (Ok a, h)
  end.

(** [model.insert]: auto-increment stops at the largest [i64]. *)
Definition insert_row (mk : Z -> Row) : HubM Row :=
  inserted <-- hub_statement (fun h =>
    if i64_max <? hub_next h then (None, h)
    else
      let row := mk (hub_next h) in
      (Some row, {| hub_rows := hub_rows h ++ [row]; hub_next := hub_next h + 1;
                    hub_sent := hub_sent h; hub_faults := hub_faults h |})) ;;
  match inserted with Some row => db_ret row | None => db_err HubDatabase end.

(** [update.update] of the payload: updating no row is an error. *)
Definition update_payload (cursor : Z) (payload : option IngestProgressEvent) : HubM unit :=
  found <-- hub_statement (fun h =>
    (existsb (fun row => row_cursor row =? cursor) (hub_rows h),
     set_rows h ((fun row =>
       if row_cursor row =? cursor then
         {| row_cursor := row_cursor row; row_library_id := row_library_id row;
            row_drop_item_id := row_drop_item_id row; row_payload := payload; row_created_at := row_created_at row |}
       else row) <$> hub_rows h))) ;;
  if found then db_ret tt else db_err HubDatabase.

Definition delete_where (p : Row -> bool) : HubM unit := hub_statement (fun h =>
  (tt, set_rows h (List.filter (fun row => negb (p row)) (hub_rows h)))).

Definition send (record : StoredProgressEvent) : HubM unit := fun h =>
  (Ok tt, {| hub_rows := hub_rows h; hub_next := hub_next h; hub_sent := hub_sent h ++ [record];
             hub_faults := hub_faults h |}).

Definition prune (retention cursor : Z) : HubM unit :=
  if retention =? 0 then delete_where (fun _ => true)
  else if retention <? cursor then delete_where (fun row => row_cursor row <=? cursor - retention)
  else db_ret tt.

(** [now] is the clock. *)
Definition emit (retention now : Z) (e : IngestProgressEvent) : HubM IngestProgressEvent :=
  let e := with_cursor e [] in
  inserted <-- insert_row (fun cursor =>
    {| row_cursor := cursor; row_library_id := pe_library_id e; row_drop_item_id := pe_drop_item_id e;
       row_payload := Some e; row_created_at := now |}) ;;
  let e := with_cursor e (format_cursor (row_cursor inserted)) in
  _ <-- update_payload (row_cursor inserted) (Some e) ;;
  _ <-- prune retention (row_cursor inserted) ;;
  _ <-- send {| event_id := pe_cursor e; emitted_at := row_created_at inserted; event := e |} ;;
  db_ret e.

(** ** Subscriptions *)

Record ProgressFilters := {
  f_library_id : option str;
  f_drop_item_id : option str;
  f_analysis_job_id : option str;
}.

Definition event_matches (e : IngestProgressEvent) (f : ProgressFilters) : bool :=
  is_none_or (f_library_id f) (fun value => bool_decide (value = pe_library_id e))
  && is_none_or (f_drop_item_id f) (fun value => bool_decide (value = pe_drop_item_id e))
  && is_none_or (f_analysis_job_id f) (fun value => bool_decide (pe_analysis_job_id e = Some value)).

Definition oldest_cursor (rows : list Row) : option str :=
  (fun row => format_cursor (row_cursor row)) <$> head rows.

Definition expired_at (oldest_seen : option str) : CursorExpired :=
  {| oldest := default (format_cursor 1) oldest_seen |}.

(** The cursor to resume after, or the error; [oldest_seen] is what the query returned. *)
Definition resume_after (oldest_seen after : option str) : result (option Z) CursorExpired :=
  match after with
  | None => Ok None
  | Some after =>
      match parse_cursor after with
      | None => Err (expired_at oldest_seen)
      | Some after_cursor =>
          match oldest_seen with
          | None => Ok (Some after_cursor)
          | Some oldest_seen =>
              let oldest_cursor := default 1 (parse_cursor oldest_seen) in
              early (saturating_add_u64 after_cursor 1 <? oldest_cursor)
                {| oldest := format_cursor (as_i64 oldest_cursor) |} (Ok (Some after_cursor))
          end
      end
  end.

(** The loop over the rows. *)
Fixpoint replay_loop (oldest_seen : option str) (f : ProgressFilters) (last_cursor : Z)
    (replay : list StoredProgressEvent) (rows : list Row)
  : result (list StoredProgressEvent * Z) CursorExpired :=
  match rows with
  | [] => Ok (replay, last_cursor)
  | row :: rows =>
      match row_payload row with
      | None => Err (expired_at oldest_seen)
      | Some e =>
          let id := format_cursor (row_cursor row) in
          let e := with_cursor e id in
          replay_loop oldest_seen f (Z.max last_cursor (row_cursor row))
            (if event_matches e f
             then replay ++ [ {| event_id := id; emitted_at := row_created_at row; event := e |} ]
             else replay) rows
      end
  end.

Record Subscription := {
  sub_replay : list StoredProgressEvent;
  sub_position : nat;
  sub_filters : ProgressFilters;
  sub_last_cursor : Z;
}.

(** The replay, once both queries are answered. *)
Definition open_subscription (oldest_seen : option str) (f : ProgressFilters) (position : nat)
    (after_cursor : option Z) (rows : list Row) : result Subscription CursorExpired :=
  let rows :=
    match after_cursor with
    | Some after_cursor => List.filter (fun row => as_i64 after_cursor <? row_cursor row) rows
    | None => rows
    end in
  let? replayed := replay_loop oldest_seen f (default 0 after_cursor) [] rows in
  Ok {| sub_replay := replayed.1; sub_position := position; sub_filters := f; sub_last_cursor := replayed.2 |}.

(** [subscribe_stored].  The receiver is made first; other tasks may emit before each of
    the two queries, so each has its own snapshot, [None] when it fails. *)
Definition subscribe_stored (f : ProgressFilters) (after : option str)
    (sent_before : list StoredProgressEvent) (oldest_rows replay_rows : option (list Row))
  : result Subscription CursorExpired :=
  let position := length sent_before in
  match oldest_rows with
  | None => Err {| oldest := format_cursor 1 |}
  | Some oldest_rows =>
      let oldest_seen := oldest_cursor oldest_rows in
      let? after_cursor := resume_after oldest_seen after in
      match replay_rows with
      | None => Err (expired_at oldest_seen)
      | Some rows => open_subscription oldest_seen f position after_cursor rows
      end
  end.

(** ** Live items *)

Inductive Live :=
| Deliver (record : StoredProgressEvent) (unread : list StoredProgressEvent) (last_cursor : Z)
| Expired (error : CursorExpired) (unread : list StoredProgressEvent) (last_cursor : Z)
| Pending (last_cursor : Z).

(** The loop of [next_live_item] on what is unread and not yet overwritten. *)
Fixpoint live_loop (f : ProgressFilters) (last_cursor : Z) (unread : list StoredProgressEvent) : Live :=
  match unread with
  | [] => Pending last_cursor
  | record :: unread =>
      let cursor := default 0 (parse_cursor (pe_cursor (event record))) in
      if (cursor <=? last_cursor) || negb (event_matches (event record) f) then live_loop f last_cursor unread
      else Deliver record unread cursor
  end.

(** A receiver further behind than the channel's capacity has lagged: it reports it and
    goes on at the oldest record still held. *)
Definition next_live_item (capacity : nat) (f : ProgressFilters) (last_cursor : Z)
    (unread : list StoredProgressEvent) : Live :=
  if (capacity <? length unread)%nat then
    Expired {| oldest := format_cursor (as_i64 (saturating_add_u64 last_cursor 1)) |}
      (drop (length unread - capacity) unread) last_cursor
  else live_loop f last_cursor unread.

(** Polling the live stream until it is pending; every item consumes a record or a lag,
    so the unread records and one more bound the polls. *)
Fixpoint poll_all (fuel : nat) (capacity : nat) (f : ProgressFilters) (last_cursor : Z)
    (unread : list StoredProgressEvent) : list (result StoredProgressEvent CursorExpired) :=
  match fuel with
  | O => []
  | S fuel =>
      match next_live_item capacity f last_cursor unread with
      | Deliver record unread last_cursor => Ok record :: poll_all fuel capacity f last_cursor unread
      | Expired error unread last_cursor => Err error :: poll_all fuel capacity f last_cursor unread
      | Pending _ => []
      end
  end.

(** Everything a subscription has yielded once it is pending at [sent]. *)
Definition stream (capacity : nat) (sub : Subscription) (sent : list StoredProgressEvent)
  : list (result StoredProgressEvent CursorExpired) :=
  (Ok <$> sub_replay sub) ++
  poll_all (S (S (length sent))) capacity (sub_filters sub) (sub_last_cursor sub) (drop (sub_position sub) sent).

(** ** Cursors *)

Lemma dec_value_zeros n ds : dec_value (replicate n 48 ++ ds) = dec_value ds.
Proof. unfold dec_value. induction n as [|n IH]; [done|]. exact IH. Qed.

Lemma dec_value_cons d ds :
  dec_value (d :: ds) = (d - 48) * 10 ^ Z.of_nat (length ds) + dec_value ds.
Proof.
  induction ds as [|x ds IH] using rev_ind; [unfold dec_value; simpl; lia|].
  rewrite app_comm_cons, !dec_value_snoc, IH, length_app. simpl length.
  rewrite Nat2Z.inj_add, Z.pow_add_r by lia. change (10 ^ Z.of_nat 1) with 10. lia.
Qed.

(** Digit strings of one length are ordered as their values. *)
Lemma str_le_digits s t :
  Forall (fun b => is_ascii_digit b = true) s -> Forall (fun b => is_ascii_digit b = true) t ->
  length s = length t -> str_le s t = (dec_value s <=? dec_value t).
Proof.
  intros Hs. revert t. induction Hs as [|a s Ha Hs IH]; intros [|b t] Ht Hlen; try done.
  apply Forall_cons in Ht as [Hb Ht]. injection Hlen as Hlen. cbn [str_le]. rewrite IH by done.
  rewrite !dec_value_cons, Hlen. pose proof (dec_value_bounds s Hs). pose proof (dec_value_bounds t Ht).
  rewrite Hlen in *. set (m := 10 ^ Z.of_nat (length t)) in *.
  destruct (Z.lt_trichotomy a b) as [Hlt|[->|Hgt]].
  - replace (a <? b) with true by lia. cbn [orb]. symmetry. apply Z.leb_le. nia.
  - rewrite Z.ltb_irrefl, Z.eqb_refl. cbn [orb andb]. apply eq_true_iff_eq. rewrite !Z.leb_le. lia.
  - replace (a <? b) with false by lia. replace (a =? b) with false by lia. cbn [orb andb]. symmetry.
    apply Z.leb_gt. nia.
Qed.

Lemma format_cursor_digits c :
  0 <= c -> Forall (fun b => is_ascii_digit b = true) (format_cursor c) /\ dec_value (format_cursor c) = c /\
    format_cursor c <> [].
Proof.
  intros Hc. unfold format_cursor. replace (c <? 0) with false by lia. rewrite Z.abs_eq by done.
  destruct (show_nonneg_spec c Hc) as [Hd Hv]. split_and!.
  - apply Forall_app. split; [|done]. by apply Forall_replicate.
  - by rewrite dec_value_zeros.
  - intros [_ E]%app_eq_nil. by apply show_nonneg_nonempty in E.
Qed.

Lemma parse_u64_digits s :
  s <> [] -> Forall (fun b => is_ascii_digit b = true) s -> dec_value s <= u64_max -> parse_u64 s = Some (dec_value s).
Proof.
  intros Hne Hd Hmax. pose proof (dec_value_bounds s Hd) as Hb.
  assert (Hp : parse_u64 s = parse_digits 0 u64_max false s).
  { destruct s as [|c s]; [done|]. apply Forall_cons in Hd as [Hc%is_ascii_digit_iff _].
    unfold parse_u64, parse_int. destruct c as [|c|c]; try lia.
    repeat (destruct c as [c|c|]; try done; try lia). }
  rewrite Hp. unfold parse_digits. destruct s as [|c s]; [done|]. cbv zeta.
  rewrite (proj2 (forallb_forall _ _)); [|intros x Hx%list_elem_of_In; rewrite Forall_forall in Hd; by apply Hd].
  replace (0 <=? _) with true by lia. by replace (_ <=? u64_max) with true by lia.
Qed.

Lemma parse_format_cursor c : 0 <= c <= i64_max -> parse_cursor (format_cursor c) = Some c.
Proof.
  intros Hc. destruct (format_cursor_digits c ltac:(lia)) as (Hd & Hv & Hne).
  unfold parse_cursor. rewrite bool_decide_eq_false_2 by done.
  rewrite parse_u64_digits, Hv by (try done; rewrite Hv; unfold u64_max, i64_max in *; lia).
  by replace (i64_max <? c) with false by lia.
Qed.

Lemma parse_cursor_range s c : parse_cursor s = Some c -> 0 <= c <= i64_max.
Proof.
  unfold parse_cursor. case_bool_decide; [done|]. destruct (parse_u64 s) as [v|] eqn:E; [|done].
  destruct (Z.ltb_spec i64_max v); [done|]. intros [= <-]. split; [|done].
  revert E. unfold parse_u64, parse_int, parse_digits. repeat case_match; intros; simplify_eq; lia.
Qed.

(** Cursors survive the trip to a client and back, and sort as text the way they
    sort as numbers.  Every cursor of the table is read back from its printed form; below
    a million million the printed forms have twelve characters and their text order is
    the numeric order.  What is not a number in the range of [i64] is refused. *)
Theorem cursor_roundtrip :
  (forall c, 0 <= c <= i64_max -> parse_cursor (format_cursor c) = Some c) /\
  (forall a b, 0 <= a < 10 ^ 12 -> 0 <= b < 10 ^ 12 ->
     length (format_cursor a) = 12%nat /\ str_le (format_cursor a) (format_cursor b) = (a <=? b)) /\
  (forall s c, parse_cursor s = Some c -> 0 <= c <= i64_max).
Proof.
  split; [apply parse_format_cursor|]. split.
  - assert (Hlen : forall c, 0 <= c < 10 ^ 12 -> length (format_cursor c) = 12%nat).
    { intros c Hc. unfold format_cursor. replace (c <? 0) with false by lia. rewrite Z.abs_eq by lia.
      pose proof (dec_digits_length (dec_fuel c) c 12 ltac:(lia) ltac:(lia)).
      rewrite length_app, length_replicate. unfold show_nonneg in *. lia. }
    intros a b Ha Hb. split; [by apply Hlen|].
    destruct (format_cursor_digits a ltac:(lia)) as (Da & Va & _).
    destruct (format_cursor_digits b ltac:(lia)) as (Db & Vb & _).
    rewrite str_le_digits by (try done; by rewrite !Hlen). by rewrite Va, Vb.
  - apply parse_cursor_range.
Qed.

(** ** Retention *)

Definition sent_cursor (s : StoredProgressEvent) : Z := default 0 (parse_cursor (pe_cursor (event s))).

Definition sent_as (s : StoredProgressEvent) (c : Z) : Prop :=
  event_id s = format_cursor c /\ pe_cursor (event s) = format_cursor c.

(** The row that [emit] stored for a record. *)
Definition row_of (s : StoredProgressEvent) (row : Row) : Prop :=
  row_cursor row = sent_cursor s /\ row_payload row = Some (event s) /\ row_created_at row = emitted_at s.

(** Rows at or below this cursor have been pruned. *)
Definition horizon (retention : Z) (h : Hub) : Z :=
  match last (hub_sent h) with
  | Some s => Z.max 0 (sent_cursor s - retention)
  | None => 0
  end.

Record hub_ok (retention : Z) (h : Hub) : Prop := {
  ok_next : 1 <= hub_next h <= i64_max + 1;
  ok_rows_sorted : StronglySorted (fun a b => row_cursor a < row_cursor b) (hub_rows h);
  ok_rows_range : Forall (fun row => horizon retention h < row_cursor row < hub_next h) (hub_rows h);
  ok_rows_decode : Forall (fun row => exists e, row_payload row = Some e) (hub_rows h);
  ok_sent_sorted : StronglySorted (fun a b => sent_cursor a < sent_cursor b) (hub_sent h);
  ok_sent_range : Forall (fun s => 1 <= sent_cursor s < hub_next h /\ sent_as s (sent_cursor s)) (hub_sent h);
  ok_stored : Forall (fun s => horizon retention h < sent_cursor s -> exists row, row ∈ hub_rows h /\ row_of s row)
    (hub_sent h);
}.

(** Any number of emits, one after the other, each possibly failing part way. *)
Inductive emitted (retention : Z) (h : Hub) : Hub -> Prop :=
| emitted_none : emitted retention h h
| emitted_one now e h1 r h2 :
    emitted retention h h1 -> emit retention now e h1 = (r, h2) -> emitted retention h h2.

Definition empty_hub (faults : list bool) : Hub :=
  {| hub_rows := []; hub_next := 1; hub_sent := []; hub_faults := faults |}.

Lemma hub_statement_cases {A} (run : Hub -> A * Hub) h r h' :
  hub_statement run h = (r, h') ->
  exists faults, let h0 := {| hub_rows := hub_rows h; hub_next := hub_next h; hub_sent := hub_sent h;
                              hub_faults := faults |} in
    (r = Err HubDatabase /\ h' = h0) \/ (exists a, run h0 = (a, h') /\ r = Ok a).
Proof.
  unfold hub_statement. destruct (hub_faults h) as [|fault faults] eqn:E.
  - intros Hr. exists []. right. destruct h as [rows next sent f]. cbn in E |- *. subst f.
    destruct (run _) as [a h1]. simplify_eq. eauto.
  - intros Hr. exists faults. destruct fault; [left; by simplify_eq|right].
    destruct (run _) as [a h1] eqn:Er. simplify_eq. eauto.
Qed.

(** The row of an event that has been stamped, and of one that has not. *)
Definition emitted_row (c now : Z) (e : IngestProgressEvent) (cursor : str) : Row :=
  {| row_cursor := c; row_library_id := pe_library_id e; row_drop_item_id := pe_drop_item_id e;
     row_payload := Some (with_cursor e cursor); row_created_at := now |}.

(** Only the faults differ. *)
Definition same_hub (h h' : Hub) : Prop :=
  hub_rows h' = hub_rows h /\ hub_next h' = hub_next h /\ hub_sent h' = hub_sent h.

Lemma insert_row_cases mk h r h' :
  insert_row mk h = (r, h') ->
  (r = Err HubDatabase /\ same_hub h h') \/
  (r = Ok (mk (hub_next h)) /\ hub_next h <= i64_max /\ hub_rows h' = hub_rows h ++ [mk (hub_next h)] /\
   hub_next h' = hub_next h + 1 /\ hub_sent h' = hub_sent h).
Proof.
  unfold insert_row. intros [(e & Hs & ->)|(a & h1 & Hs & Hk)]%db_bind_cases;
    apply hub_statement_cases in Hs as (faults & Hs); cbv zeta in Hs.
  - destruct e, Hs as [[_ ->]|(a & _ & ?)]; [by left|done].
  - destruct Hs as [[? _]|(a' & Hrun & [= <-])]; [done|]. cbn in Hrun.
    destruct (Z.ltb_spec i64_max (hub_next h)); simplify_eq; [left|right]; unfold db_err, db_ret in Hk; simplify_eq; done.
Qed.

Lemma update_payload_cases c payload h r h' rows row :
  hub_rows h = rows ++ [row] -> row_cursor row = c -> Forall (fun x => row_cursor x < c) rows ->
  update_payload c payload h = (r, h') ->
  (r = Err HubDatabase /\ same_hub h h') \/
  (r = Ok tt /\ hub_next h' = hub_next h /\ hub_sent h' = hub_sent h /\
   hub_rows h' = rows ++ [ {| row_cursor := c; row_library_id := row_library_id row;
     row_drop_item_id := row_drop_item_id row; row_payload := payload; row_created_at := row_created_at row |} ]).
Proof.
  intros Hrows Hc Hlt. unfold update_payload.
  intros [(e & Hs & ->)|(found & h1 & Hs & Hk)]%db_bind_cases;
    apply hub_statement_cases in Hs as (faults & Hs); cbv zeta in Hs.
  - destruct e, Hs as [[_ ->]|(a & _ & ?)]; [by left|done].
  - destruct Hs as [[? _]|(a' & Hrun & [= <-])]; [done|]. cbn [hub_rows] in Hrun. rewrite Hrows in Hrun.
    injection Hrun as <- <-. rewrite existsb_app in Hk. cbn [existsb] in Hk. subst c.
    rewrite Z.eqb_refl, orb_true_r in Hk. injection Hk as <- <-. right. split_and!; try done.
    cbn. rewrite fmap_app. cbn. rewrite Z.eqb_refl. f_equal. rewrite <- (list_fmap_id rows) at 2.
    apply list_fmap_ext. intros i x Hx. apply (Forall_lookup_1 _ _ _ _ Hlt) in Hx. simpl in Hx.
    by replace (row_cursor x =? row_cursor row) with false by lia.
Qed.

Lemma prune_cases retention c h r h' :
  prune retention c h = (r, h') ->
  (r = Err HubDatabase /\ same_hub h h') \/
  (r = Ok tt /\ hub_next h' = hub_next h /\ hub_sent h' = hub_sent h /\
   hub_rows h' = List.filter (fun row =>
     negb ((retention =? 0) || (retention <? c) && (row_cursor row <=? c - retention))) (hub_rows h)).
Proof.
  assert (Hdel : forall p, delete_where p h = (r, h') -> (r = Err HubDatabase /\ same_hub h h') \/
    (r = Ok tt /\ hub_next h' = hub_next h /\ hub_sent h' = hub_sent h /\
     hub_rows h' = List.filter (fun row => negb (p row)) (hub_rows h))).
  { intros p Hs. apply hub_statement_cases in Hs as (faults & Hs). cbv zeta in Hs.
    destruct Hs as [[-> ->]|(a & [= <- <-] & ->)]; [by left|by right]. }
  unfold prune. destruct (retention =? 0); [apply Hdel|]. destruct (retention <? c); [apply Hdel|].
  intros [= <- <-]. right. split_and!; try done. symmetry. by apply forallb_filter_id, forallb_forall.
Qed.

(** Nothing happened; a row was added but not sent; or everything happened. *)
Lemma emit_cases retention now e h r h' :
  Forall (fun row => row_cursor row < hub_next h) (hub_rows h) ->
  emit retention now e h = (r, h') ->
  let c := hub_next h in
  (r = Err HubDatabase /\ same_hub h h') \/
  (c <= i64_max /\ hub_next h' = c + 1 /\
   ((exists cursor, r = Err HubDatabase /\ hub_sent h' = hub_sent h /\
       hub_rows h' = hub_rows h ++ [emitted_row c now e cursor]) \/
    (r = Ok (with_cursor e (format_cursor c)) /\
     hub_rows h' = List.filter (fun row => negb ((retention =? 0) || (retention <? c) && (row_cursor row <=? c - retention)))
                     (hub_rows h ++ [emitted_row c now e (format_cursor c)]) /\
     hub_sent h' = hub_sent h ++ [ {| event_id := format_cursor c; emitted_at := now;
                                      event := with_cursor e (format_cursor c) |} ]))).
Proof.
  intros Hlt Hrun. unfold emit in Hrun. cbv zeta.
  apply db_bind_cases in Hrun as [(er & Hins & ->)|(row & h1 & Hins & Hrun)];
    apply insert_row_cases in Hins as [[Her Hsame]|(Hrow & Hmax & Hr1 & Hn1 & Hs1)]; try done; [by left; destruct er|].
  injection Hrow as ->. right. cbn [row_cursor row_created_at] in *.
  assert (Hmid : forall h2, same_hub h1 h2 -> hub_next h2 = hub_next h + 1 /\ hub_sent h2 = hub_sent h /\
    hub_rows h2 = hub_rows h ++ [emitted_row (hub_next h) now e []]).
  { intros h2 (-> & -> & ->). by rewrite Hr1. }
  apply db_bind_cases in Hrun as [(er & Hup & ->)|([] & h2 & Hup & Hrun)];
    (eapply update_payload_cases in Hup as [[Her Hsame]|(Hok & Hn2 & Hs2 & Hr2)]; [| |done..]); try done.
  { destruct er, (Hmid _ Hsame) as (-> & -> & ->). split_and!; [done|done|left]. by exists []. }
  apply db_bind_cases in Hrun as [(er & Hpr & ->)|([] & h3 & Hpr & Hrun)];
    apply prune_cases in Hpr as [[Her (Hr3 & Hn3 & Hs3)]|(Hok' & Hn3 & Hs3 & Hr3)]; try done.
  { destruct er. split_and!; [done|by rewrite Hn3, Hn2, Hn1|left]. exists (format_cursor (hub_next h)).
    split_and!; [done|by rewrite Hs3, Hs2, Hs1|by rewrite Hr3, Hr2]. }
  unfold send in Hrun. cbn in Hrun. injection Hrun as <- <-. cbn.
  split_and!; [done|by rewrite Hn3, Hn2, Hn1|right]. split_and!; [done|by rewrite Hr3, Hr2|by rewrite Hs3, Hs2, Hs1].
Qed.

Lemma horizon_bounds retention h :
  0 <= retention -> 1 <= hub_next h -> Forall (fun s => 1 <= sent_cursor s < hub_next h) (hub_sent h) ->
  0 <= horizon retention h < hub_next h.
Proof.
  intros Hr Hn Hs. unfold horizon. destruct (last (hub_sent h)) as [s|] eqn:El; [|lia].
  apply last_Some in El as [l El]. rewrite El, Forall_app, Forall_singleton in Hs. destruct Hs as [_ Hs]. lia.
Qed.

Lemma sent_range_cursors retention h :
  hub_ok retention h -> Forall (fun s => 1 <= sent_cursor s < hub_next h) (hub_sent h).
Proof. intros Hok. eapply Forall_impl; [exact (ok_sent_range _ _ Hok)|]. by intros s []. Qed.

Lemma sent_cursor_format c now e :
  0 <= c <= i64_max ->
  sent_cursor {| event_id := format_cursor c; emitted_at := now; event := with_cursor e (format_cursor c) |} = c.
Proof. intros Hc. unfold sent_cursor. cbn. by rewrite parse_format_cursor. Qed.

Lemma same_hub_ok retention h h' : hub_ok retention h -> same_hub h h' -> hub_ok retention h'.
Proof.
  intros [] (Hr & Hn & Hs). assert (Hh : horizon retention h' = horizon retention h) by (unfold horizon; by rewrite Hs).
  split; rewrite ?Hh, ?Hr, ?Hn, ?Hs; done.
Qed.

(** A row that is not sent changes no promise. *)
Lemma unsent_row_ok retention h h' now e cursor :
  0 <= retention -> hub_ok retention h -> hub_next h <= i64_max ->
  hub_next h' = hub_next h + 1 -> hub_sent h' = hub_sent h ->
  hub_rows h' = hub_rows h ++ [emitted_row (hub_next h) now e cursor] -> hub_ok retention h'.
Proof.
  intros Hret Hok Hmax Hn Hs Hr. pose proof (horizon_bounds retention h Hret) as Hb.
  specialize (Hb (proj1 (ok_next _ _ Hok)) (sent_range_cursors _ _ Hok)). destruct Hok.
  assert (Hh : horizon retention h' = horizon retention h) by (unfold horizon; by rewrite Hs).
  split; rewrite ?Hh, ?Hr, ?Hn, ?Hs; [lia| | | |done| |].
  - apply StronglySorted_snoc. split; [done|]. eapply Forall_impl; [exact ok_rows_range0|]. by intros row [_ ?].
  - apply Forall_app. split; [|apply Forall_singleton; cbn; lia].
    eapply Forall_impl; [exact ok_rows_range0|]. intros row [? ?]. simpl. lia.
  - apply Forall_app. split; [done|]. apply Forall_singleton. cbn. by eexists.
  - eapply Forall_impl; [exact ok_sent_range0|]. intros s [? ?]. split; [lia|done].
  - eapply Forall_impl; [exact ok_stored0|]. intros s Hst Hlt. destruct (Hst Hlt) as (row & Hin & Hrow).
    exists row. split; [|done]. apply elem_of_app. by left.
Qed.

Definition pruned_by (retention c : Z) (row : Row) : bool :=
  (retention =? 0) || (retention <? c) && (row_cursor row <=? c - retention).

Lemma emit_success_ok retention h h' now e :
  0 <= retention -> hub_ok retention h -> hub_next h <= i64_max ->
  hub_next h' = hub_next h + 1 ->
  hub_rows h' = List.filter (fun row => negb (pruned_by retention (hub_next h) row))
    (hub_rows h ++ [emitted_row (hub_next h) now e (format_cursor (hub_next h))]) ->
  hub_sent h' = hub_sent h ++ [ {| event_id := format_cursor (hub_next h); emitted_at := now;
                                   event := with_cursor e (format_cursor (hub_next h)) |} ] ->
  hub_ok retention h'.
Proof.
  intros Hret Hok Hmax Hn Hr Hs. pose proof (sent_range_cursors _ _ Hok) as Hrange.
  pose proof (horizon_bounds retention h Hret (proj1 (ok_next _ _ Hok)) Hrange) as Hb.
  set (c := hub_next h) in *. set (record := {| event_id := _; emitted_at := _; event := _ |}) in *.
  assert (Hc : sent_cursor record = c) by (apply sent_cursor_format; pose proof (ok_next _ _ Hok); lia).
  assert (Hh : horizon retention h' = Z.max 0 (c - retention)) by (unfold horizon; by rewrite Hs, last_snoc, Hc).
  assert (Hmono : horizon retention h <= horizon retention h').
  { rewrite Hh. unfold horizon. destruct (last (hub_sent h)) as [s|] eqn:El; [|lia].
    apply last_Some in El as [l El]. rewrite El, Forall_app, Forall_singleton in Hrange.
    destruct Hrange as [_ ?]. lia. }
  assert (Hkept : forall row, row ∈ hub_rows h' <->
    pruned_by retention c row = false /\ row ∈ hub_rows h ++ [emitted_row c now e (format_cursor c)]).
  { intros row. rewrite Hr, !list_elem_of_In, filter_In, negb_true_iff. tauto. }
  assert (Hpruned : forall row, 0 < row_cursor row -> row_cursor row <= c ->
    pruned_by retention c row = false <-> horizon retention h' < row_cursor row).
  { intros row H1 H2. rewrite Hh. unfold pruned_by.
    destruct (Z.eqb_spec retention 0), (Z.ltb_spec retention c), (Z.leb_spec (row_cursor row) (c - retention));
      cbn [orb andb]; split; intros; try done; lia. }
  destruct Hok. split; rewrite ?Hn; [lia| | | | | |].
  - rewrite Hr. apply StronglySorted_filter. apply StronglySorted_snoc. split; [done|].
    eapply Forall_impl; [exact ok_rows_range0|]. by intros row [_ ?].
  - apply Forall_forall. intros row [Hp Hin]%Hkept. apply elem_of_app in Hin as [Hin| ->%list_elem_of_singleton].
    + rewrite Forall_forall in ok_rows_range0. apply ok_rows_range0 in Hin. split; [|lia]. apply Hpruned; [lia..|done].
    + split; [|cbn; lia]. apply Hpruned; [cbn; lia..|done].
  - apply Forall_forall. intros row [_ Hin]%Hkept. apply elem_of_app in Hin as [Hin| ->%list_elem_of_singleton].
    + rewrite Forall_forall in ok_rows_decode0. by apply ok_rows_decode0.
    + cbn. by eexists.
  - rewrite Hs. apply StronglySorted_snoc. split; [done|]. rewrite Hc. eapply Forall_impl; [exact Hrange|]. by intros s [_ ?].
  - rewrite Hs. apply Forall_app. split.
    + eapply Forall_impl; [exact ok_sent_range0|]. intros s [? ?]. split; [lia|done].
    + apply Forall_singleton. rewrite Hc. split; [lia|]. done.
  - rewrite Hs. apply Forall_app. split.
    + rewrite Forall_forall in ok_stored0. rewrite Forall_forall in ok_rows_range0. apply Forall_forall. intros s Hin Hlt.
      destruct (ok_stored0 s Hin ltac:(lia)) as (row & Hrow & Hro). exists row. split; [|done].
      apply Hkept. split; [|apply elem_of_app; by left]. pose proof (ok_rows_range0 row Hrow).
      apply Hpruned; [lia..|]. destruct Hro as (-> & _). done.
    + apply Forall_singleton. rewrite Hc. intros Hlt. exists (emitted_row c now e (format_cursor c)). split.
      * apply Hkept. split; [|apply elem_of_app; right; by left]. apply Hpruned; [cbn; lia..|done].
      * split_and!; done.
Qed.

Lemma emit_ok retention now e h r h' :
  0 <= retention -> hub_ok retention h -> emit retention now e h = (r, h') -> hub_ok retention h'.
Proof.
  intros Hret Hok Hrun. apply emit_cases in Hrun as [[_ Hsame]|(Hmax & Hn & [(cursor & _ & Hs & Hr)|(_ & Hr & Hs)])].
  - by eapply same_hub_ok.
  - by eapply unsent_row_ok.
  - by eapply emit_success_ok.
  - eapply Forall_impl; [exact (ok_rows_range _ _ Hok)|]. by intros row [_ ?].
Qed.

Lemma emitted_ok retention h h' : 0 <= retention -> hub_ok retention h -> emitted retention h h' -> hub_ok retention h'.
Proof. intros Hret Hok. induction 1; [done|]. by eapply emit_ok. Qed.

Lemma empty_hub_ok retention faults : hub_ok retention (empty_hub faults).
Proof. split; try by constructor. Qed.

(** What the table holds, under every pattern of failures.  After any number of
    emits, stored and broadcast events are in strictly increasing cursor order, every
    broadcast event carries its own printed cursor, and the retention is exact: an event
    that was broadcast is still stored precisely when it is among the last [retention]
    cursors up to the latest broadcast, and no older row is kept. *)
Theorem retention_exact retention faults h :
  0 <= retention -> emitted retention (empty_hub faults) h ->
  StronglySorted (fun a b => row_cursor a < row_cursor b) (hub_rows h) /\
  StronglySorted (fun a b => sent_cursor a < sent_cursor b) (hub_sent h) /\
  Forall (fun s => sent_as s (sent_cursor s)) (hub_sent h) /\
  (forall latest, last (hub_sent h) = Some latest ->
     (forall s, s ∈ hub_sent h ->
        (exists row, row ∈ hub_rows h /\ row_of s row) <-> sent_cursor latest - retention < sent_cursor s) /\
     Forall (fun row => sent_cursor latest - retention < row_cursor row) (hub_rows h)).
Proof.
  intros Hret Hem. pose proof (emitted_ok _ _ _ Hret (empty_hub_ok retention faults) Hem) as Hok.
  destruct Hok. split_and!; [done|done| |].
  - eapply Forall_impl; [exact ok_sent_range0|]. by intros s [_ ?].
  - intros latest Hl. unfold horizon in *. rewrite Hl in *. rewrite Forall_forall in ok_rows_range0.
    rewrite Forall_forall in ok_stored0. rewrite Forall_forall in ok_sent_range0. split.
    + intros s Hs. destruct (ok_sent_range0 s Hs) as [Hc _]. split.
      * intros (row & Hin & E & _). pose proof (ok_rows_range0 row Hin). lia.
      * intros Hlt. apply ok_stored0; [done|lia].
    + apply Forall_forall. intros row Hin. pose proof (ok_rows_range0 row Hin). lia.
Qed.

(** ** Delivery *)

Lemma emitted_next retention h h' :
  0 <= retention -> hub_ok retention h -> emitted retention h h' ->
  hub_sent h `prefix_of` hub_sent h' /\ hub_next h <= hub_next h' /\
  forall s, s ∈ hub_sent h' -> s ∈ hub_sent h \/ hub_next h <= sent_cursor s.
Proof.
  intros Hret Hok. induction 1 as [|now e h1 r h2 Hem IH Hrun]; [split_and!; [done|lia|by left]|].
  destruct IH as (Hp & Hn & Hall). pose proof (emitted_ok _ _ _ Hret Hok Hem) as Hok1.
  apply emit_cases in Hrun as [[_ (_ & Hn' & Hs')]|(Hmax & Hn' & [(cursor & _ & Hs' & _)|(_ & _ & Hs')])];
    [..|eapply Forall_impl; [exact (ok_rows_range _ _ Hok1)|]; by intros row [_ ?]]; rewrite Hn', Hs'.
  - done.
  - split_and!; [done|lia|done].
  - split_and!; [by etrans; [|eexists]|lia|].
    intros s [Hs| ->%list_elem_of_singleton]%elem_of_app; [by apply Hall|right].
    rewrite sent_cursor_format; [done|]. pose proof (ok_next _ _ Hok1). lia.
Qed.

Definition wanted (f : ProgressFilters) (last_cursor : Z) (s : StoredProgressEvent) : bool :=
  (last_cursor <? sent_cursor s) && event_matches (event s) f.

Lemma filter_ext_Forall {A} (p q : A -> bool) l :
  Forall (fun x => p x = q x) l -> List.filter p l = List.filter q l.
Proof. induction 1 as [|x l Hx _ IH]; simpl; [done|]. by rewrite Hx, IH. Qed.

(** Without lag the live items are the wanted records, in order. *)
Lemma poll_all_exact fuel capacity f last_cursor unread :
  (length unread <= capacity)%nat -> (length unread < fuel)%nat ->
  StronglySorted (fun a b => sent_cursor a < sent_cursor b) unread ->
  poll_all fuel capacity f last_cursor unread = Ok <$> List.filter (wanted f last_cursor) unread.
Proof.
  revert fuel last_cursor. induction unread as [|s unread IH]; intros fuel last_cursor Hcap Hfuel Hs.
  - destruct fuel; [lia|]. cbn. unfold next_live_item. cbn. by destruct (capacity <? 0)%nat eqn:E; [apply Nat.ltb_lt in E; lia|].
  - apply StronglySorted_inv in Hs as [Hs Hall]. simpl in Hcap, Hfuel.
    assert (Hle : forall l, (length l <= capacity)%nat -> forall last, next_live_item capacity f last l = live_loop f last l).
    { intros l Hl last. unfold next_live_item. by rewrite (proj2 (Nat.ltb_ge _ _)). }
    destruct fuel as [|fuel]; [lia|]. cbn [poll_all]. rewrite Hle by done. cbn [live_loop].
    cbn [List.filter]. unfold wanted at 1. fold (sent_cursor s).
    destruct (Z.leb_spec (sent_cursor s) last_cursor); cbn [orb].
    + replace (last_cursor <? sent_cursor s) with false by lia. cbn [andb].
      rewrite <- (IH (S fuel) last_cursor) by (done || lia). cbn [poll_all]. by rewrite Hle by lia.
    + replace (last_cursor <? sent_cursor s) with true by lia. cbn [andb].
      destruct (event_matches (event s) f); cbn [negb].
      * cbn. f_equal. rewrite (IH fuel) by (done || lia). f_equal. apply filter_ext_Forall.
        eapply Forall_impl; [exact Hall|]. intros x Hx. simpl in Hx. unfold wanted.
        by replace (sent_cursor s <? sent_cursor x) with true by lia;
           replace (last_cursor <? sent_cursor x) with true by lia.
      * rewrite <- (IH (S fuel) last_cursor) by (done || lia). cbn [poll_all]. by rewrite Hle by lia.
Qed.

(** The record a stored row is replayed as. *)
Definition replayed (row : Row) : option StoredProgressEvent :=
  (fun e => {| event_id := format_cursor (row_cursor row); emitted_at := row_created_at row;
               event := with_cursor e (format_cursor (row_cursor row)) |}) <$> row_payload row.

Lemma replay_loop_exact oldest_seen f last_cursor acc rows :
  Forall (fun row => exists e, row_payload row = Some e) rows ->
  replay_loop oldest_seen f last_cursor acc rows =
    Ok (acc ++ List.filter (fun s => event_matches (event s) f) (omap replayed rows),
        foldl (fun m row => Z.max m (row_cursor row)) last_cursor rows).
Proof.
  intros Hrows. revert last_cursor acc. induction Hrows as [|row rows [e He] _ IH]; intros last_cursor acc.
  - cbn. by rewrite app_nil_r.
  - cbn [replay_loop omap list_omap foldl]. unfold replayed. rewrite He. cbn [fmap option_fmap option_map].
    rewrite IH. do 2 f_equal. cbn [List.filter event]. destruct (event_matches _ f); [by rewrite <- app_assoc|done].
Qed.

Lemma foldl_max_spec m rows :
  m <= foldl (fun m row => Z.max m (row_cursor row)) m rows /\
  Forall (fun row => row_cursor row <= foldl (fun m row => Z.max m (row_cursor row)) m rows) rows /\
  (foldl (fun m row => Z.max m (row_cursor row)) m rows = m \/
   exists row, row ∈ rows /\ foldl (fun m row => Z.max m (row_cursor row)) m rows = row_cursor row).
Proof.
  revert m. induction rows as [|row rows IH]; intros m; cbn [foldl]; [split_and!; [lia|done|by left]|].
  destruct (IH (Z.max m (row_cursor row))) as (H1 & H2 & H3). split_and!; [lia| |].
  - constructor; [lia|done].
  - destruct H3 as [E|(r & Hin & E)]; rewrite E.
    + destruct (Z.max_spec m (row_cursor row)) as [[? ->]|[? ->]]; [right; exists row; by split; [left|]|by left].
    + right. exists r. by split; [right|].
Qed.

(** Where a subscription resumes: the beginning, or the cursor the client sent. *)
Definition resumes_at (after : option str) (a : Z) : Prop :=
  match after with
  | None => a = 0
  | Some s => parse_cursor s = Some a
  end.

Lemma resumes_at_range after a : resumes_at after a -> 0 <= a <= i64_max.
Proof. destruct after; simpl; [apply parse_cursor_range|intros ->; unfold i64_max; lia]. Qed.

(** The cursor is refused exactly when the event after it is already gone. *)
Lemma resume_after_exact retention h after :
  hub_ok retention h -> 0 <= retention ->
  resume_after (oldest_cursor (hub_rows h)) after =
    match after with
    | None => Ok None
    | Some s =>
        match parse_cursor s with
        | None => Err (expired_at (oldest_cursor (hub_rows h)))
        | Some c =>
            match head (hub_rows h) with
            | Some row =>
                if c + 1 <? row_cursor row then Err {| oldest := format_cursor (row_cursor row) |} else Ok (Some c)
            | None => Ok (Some c)
            end
        end
    end.
Proof.
  intros Hok Hret. unfold resume_after. destruct after as [s|]; [|done].
  destruct (parse_cursor s) as [c|] eqn:Ec; [|done]. apply parse_cursor_range in Ec.
  unfold oldest_cursor. destruct (head (hub_rows h)) as [row|] eqn:Eh; [|done]. cbn [fmap option_fmap option_map].
  assert (Hrow : 0 < row_cursor row <= i64_max).
  { pose proof (horizon_bounds retention h Hret (proj1 (ok_next _ _ Hok)) (sent_range_cursors _ _ Hok)).
    pose proof (ok_next _ _ Hok). pose proof (ok_rows_range _ _ Hok) as Hr.
    destruct (hub_rows h) as [|r rows]; [done|]. injection Eh as ->. apply Forall_inv in Hr. lia. }
  rewrite parse_format_cursor by lia. cbn [default from_option id]. unfold saturating_add_u64, as_i64.
  rewrite Z.min_r by (unfold u64_max, i64_max in *; lia).
  replace (row_cursor row <=? i64_max) with true by lia. done.
Qed.

Lemma subscribe_parts retention h2 f after sent rows1 sub :
  hub_ok retention h2 -> 0 <= retention ->
  subscribe_stored f after sent (Some rows1) (Some (hub_rows h2)) = Ok sub ->
  exists a, resumes_at after a /\ sub_filters sub = f /\ sub_position sub = length sent /\
    let rows := List.filter (fun row => a <? row_cursor row) (hub_rows h2) in
    sub_replay sub = List.filter (fun s => event_matches (event s) f) (omap replayed rows) /\
    sub_last_cursor sub = foldl (fun m row => Z.max m (row_cursor row)) a rows.
Proof.
  intros Hok Hret. unfold subscribe_stored. intros (ac & Hres & Hrest)%result_bind_Ok.
  assert (Ha : resumes_at after (default 0 ac)).
  { destruct after as [s|]; [|by injection Hres as <-]. simpl in Hres |- *.
    destruct (parse_cursor s) as [c|]; [|done]. destruct (oldest_cursor rows1); [|by injection Hres as <-].
    by apply early_Ok in Hres as [_ [= <-]]. }
  unfold open_subscription in Hrest.
  exists (default 0 ac). split; [done|]. pose proof (resumes_at_range _ _ Ha) as Hr.
  assert (Hrows : match ac with
    | Some after_cursor => List.filter (fun row => as_i64 after_cursor <? row_cursor row) (hub_rows h2)
    | None => hub_rows h2 end = List.filter (fun row => default 0 ac <? row_cursor row) (hub_rows h2)).
  { destruct ac as [c|]; cbn [default from_option id] in *.
    - unfold as_i64. by replace (c <=? i64_max) with true by lia.
    - symmetry. apply forallb_filter_id, forallb_forall. intros row Hin%list_elem_of_In.
      pose proof (horizon_bounds retention h2 Hret (proj1 (ok_next _ _ Hok)) (sent_range_cursors _ _ Hok)).
      pose proof (ok_rows_range _ _ Hok) as Hrr. rewrite Forall_forall in Hrr. specialize (Hrr row Hin). simpl in Hrr. lia. }
  rewrite Hrows in Hrest. clear Hrows. rewrite replay_loop_exact in Hrest.
  - cbn in Hrest. injection Hrest as <-. cbn. done.
  - pose proof (ok_rows_decode _ _ Hok) as Hd. rewrite Forall_forall in Hd |- *.
    intros row Hin%list_elem_of_In%filter_In. apply Hd, list_elem_of_In, Hin.
Qed.

Lemma replayed_cursor row s : 0 <= row_cursor row <= i64_max -> replayed row = Some s -> sent_cursor s = row_cursor row.
Proof.
  intros Hr. unfold replayed. destruct (row_payload row) as [e|]; [|done]. intros [= <-].
  by apply sent_cursor_format.
Qed.

(** A broadcast record is replayed as itself. *)
Lemma replayed_sent s row c : sent_as s c -> sent_cursor s = c -> row_of s row -> replayed row = Some s.
Proof.
  intros [Hid Hcur] Hc (Hrc & Hp & Hcr). unfold replayed. rewrite Hp. cbn. f_equal.
  destruct s as [id at_ e]. cbn in *. rewrite Hrc, Hc, Hid, Hcr. f_equal. destruct e. cbn in *. by rewrite <- Hcur.
Qed.

Lemma replayed_sorted rows :
  StronglySorted (fun a b => row_cursor a < row_cursor b) rows ->
  Forall (fun row => 0 <= row_cursor row <= i64_max) rows ->
  StronglySorted (fun a b => sent_cursor a < sent_cursor b) (omap replayed rows).
Proof.
  intros Hs Hr. induction Hs as [|row rows _ IH Hall]; [constructor|]. apply Forall_cons in Hr as [Hrow Hr].
  cbn [omap list_omap]. destruct (replayed row) as [s|] eqn:E; [|by apply IH]. constructor; [by apply IH|].
  apply Forall_forall. intros s' (row' & Hin & E')%list_elem_of_omap.
  rewrite Forall_forall in Hall. rewrite Forall_forall in Hr.
  rewrite (replayed_cursor row s Hrow E), (replayed_cursor row' s' (Hr _ Hin) E'). by apply Hall.
Qed.

(** What a subscription yields when its receiver has not lagged. *)
Definition yielded (f : ProgressFilters) (a : Z) (rows : list Row) (unread : list StoredProgressEvent)
  : list StoredProgressEvent :=
  let rows := List.filter (fun row => a <? row_cursor row) rows in
  List.filter (fun s => event_matches (event s) f) (omap replayed rows) ++
  List.filter (wanted f (foldl (fun m row => Z.max m (row_cursor row)) a rows)) unread.

Lemma yielded_sound retention h f a unread :
  0 <= retention -> hub_ok retention h -> 0 <= a ->
  StronglySorted (fun a b => sent_cursor a < sent_cursor b) unread ->
  StronglySorted (fun a b => sent_cursor a < sent_cursor b) (yielded f a (hub_rows h) unread) /\
  Forall (fun s => wanted f a s = true) (yielded f a (hub_rows h) unread).
Proof.
  intros Hret Hok Ha Hun. unfold yielded.
  set (rows := List.filter (fun row => a <? row_cursor row) (hub_rows h)).
  set (m := foldl _ a rows). destruct (foldl_max_spec a rows) as (Hm & Hmax & _). fold m in Hm, Hmax.
  pose proof (horizon_bounds retention h Hret (proj1 (ok_next _ _ Hok)) (sent_range_cursors _ _ Hok)).
  assert (Hrows : forall row, row ∈ rows -> a < row_cursor row /\ 0 <= row_cursor row <= i64_max).
  { intros row [Hin Hlt]%list_elem_of_In%filter_In. apply list_elem_of_In in Hin.
    pose proof (ok_rows_range _ _ Hok) as Hr. rewrite Forall_forall in Hr. specialize (Hr row Hin). simpl in Hr.
    pose proof (ok_next _ _ Hok). lia. }
  assert (Hrep : forall s, s ∈ List.filter (fun s => event_matches (event s) f) (omap replayed rows) ->
    a < sent_cursor s <= m /\ event_matches (event s) f = true).
  { intros s [Hin Hmat]%list_elem_of_In%filter_In. apply list_elem_of_In, list_elem_of_omap in Hin as (row & Hin & E).
    rewrite (replayed_cursor row s (proj2 (Hrows _ Hin)) E). rewrite Forall_forall in Hmax.
    pose proof (Hmax row Hin). pose proof (Hrows row Hin). simpl in *. split; [lia|done]. }
  assert (Hlive : forall s, s ∈ List.filter (wanted f m) unread -> m < sent_cursor s /\ event_matches (event s) f = true).
  { intros s [_ Hw]%list_elem_of_In%filter_In. unfold wanted in Hw. apply andb_true_iff in Hw as [? ?]. split; [lia|done]. }
  split.
  - apply StronglySorted_app_2.
    + intros x y [Hx _]%Hrep [Hy _]%Hlive. lia.
    + apply StronglySorted_filter, replayed_sorted.
      * apply StronglySorted_filter. by apply (ok_rows_sorted _ _ Hok).
      * apply Forall_forall. intros row Hin. by apply Hrows.
    + by apply StronglySorted_filter.
  - apply Forall_app. split; apply Forall_forall; intros s Hs; unfold wanted; apply andb_true_iff.
    + apply Hrep in Hs as [? ?]. split; [lia|done].
    + apply Hlive in Hs as [? ?]. split; [lia|done].
Qed.

Lemma yielded_complete retention h f a unread s :
  0 <= retention -> hub_ok retention h -> wanted f a s = true ->
  (s ∈ hub_sent h /\ horizon retention h < sent_cursor s) \/ (s ∈ unread /\ hub_next h <= sent_cursor s) ->
  s ∈ yielded f a (hub_rows h) unread.
Proof.
  intros Hret Hok Hw. unfold wanted in Hw. apply andb_true_iff in Hw as [Ha Hmat]. unfold yielded.
  set (rows := List.filter (fun row => a <? row_cursor row) (hub_rows h)). rewrite elem_of_app. intros [[Hs Hh]|[Hs Hn]].
  - left. pose proof (ok_stored _ _ Hok) as Hst. rewrite Forall_forall in Hst. destruct (Hst s Hs Hh) as (row & Hin & Hro).
    pose proof (ok_sent_range _ _ Hok) as Hsr. rewrite Forall_forall in Hsr. destruct (Hsr s Hs) as [_ Has].
    apply list_elem_of_In, filter_In. split; [|done]. apply list_elem_of_In, list_elem_of_omap. exists row.
    split; [|by eapply replayed_sent]. apply list_elem_of_In, filter_In. split; [by apply list_elem_of_In|].
    destruct Hro as (-> & _). done.
  - right. apply list_elem_of_In, filter_In. split; [by apply list_elem_of_In|]. unfold wanted. apply andb_true_iff.
    split; [|done]. destruct (foldl_max_spec a rows) as (_ & _ & [->|(row & Hin & ->)]); [done|].
    apply list_elem_of_In, filter_In in Hin as [Hin%list_elem_of_In _].
    pose proof (ok_rows_range _ _ Hok) as Hr. rewrite Forall_forall in Hr. specialize (Hr row Hin). simpl in Hr. lia.
Qed.

(** A subscriber misses nothing and sees nothing twice.  Emits run one after the
    other and may fail part way; a client subscribes meanwhile, its receiver made at
    [h0], its queries answered at [h1] and [h2], and polls until it is pending at [h3],
    not having fallen further behind than the channel holds.  Then the stream has yielded
    no error, its events are in strictly increasing cursor order, all after the client's
    cursor and matching its filters, and every broadcast event that it wanted -- stored
    before, during or after the subscription -- has been delivered, unless it had been
    pruned by the time the rows were read. *)
Theorem stream_exact retention faults h0 h1 h2 h3 f after sub capacity :
  0 <= retention ->
  emitted retention (empty_hub faults) h0 -> emitted retention h0 h1 -> emitted retention h1 h2 ->
  emitted retention h2 h3 ->
  subscribe_stored f after (hub_sent h0) (Some (hub_rows h1)) (Some (hub_rows h2)) = Ok sub ->
  (length (hub_sent h3) - length (hub_sent h0) <= capacity)%nat ->
  exists a out, resumes_at after a /\
    stream capacity sub (hub_sent h3) = Ok <$> out /\
    StronglySorted (fun x y => sent_cursor x < sent_cursor y) out /\
    Forall (fun s => wanted f a s = true) out /\
    (forall s, s ∈ hub_sent h3 -> wanted f a s = true -> s ∈ out \/ sent_cursor s <= horizon retention h2).
Proof.
  intros Hret E0 E1 E2 E3 Hsub Hcap.
  pose proof (emitted_ok _ _ _ Hret (empty_hub_ok retention faults) E0) as Ok0.
  pose proof (emitted_ok _ _ _ Hret Ok0 E1) as Ok1. pose proof (emitted_ok _ _ _ Hret Ok1 E2) as Ok2.
  pose proof (emitted_ok _ _ _ Hret Ok2 E3) as Ok3.
  destruct (emitted_next _ _ _ Hret Ok0 E1) as (P1 & _ & _). destruct (emitted_next _ _ _ Hret Ok1 E2) as (P2 & _ & _).
  destruct (emitted_next _ _ _ Hret Ok2 E3) as (P3 & _ & Hnew).
  assert (P02 : hub_sent h0 `prefix_of` hub_sent h2) by (by etrans).
  destruct (subscribe_parts _ _ _ _ _ _ _ Ok2 Hret Hsub) as (a & Ha & Hf & Hpos & Hrep & Hlast).
  destruct P02 as [t2 P02]. destruct P3 as [t3 P3]. set (unread := t2 ++ t3).
  assert (Hun : drop (sub_position sub) (hub_sent h3) = unread).
  { rewrite Hpos, P3, P02, <- app_assoc. by rewrite drop_app_length. }
  assert (Hsorted : StronglySorted (fun x y => sent_cursor x < sent_cursor y) unread).
  { pose proof (ok_sent_sorted _ _ Ok3) as Hs. rewrite P3, P02, <- app_assoc in Hs. by apply StronglySorted_app_1_r in Hs. }
  assert (Hlen : (length (hub_sent h3) = length (hub_sent h0) + length unread)%nat).
  { rewrite P3, P02, <- app_assoc, length_app. done. }
  exists a, (yielded f a (hub_rows h2) unread).
  destruct (yielded_sound retention h2 f a unread Hret Ok2 (proj1 (resumes_at_range _ _ Ha)) Hsorted) as [S1 S2].
  split_and!; [done| |done|done|].
  - unfold stream. rewrite Hun, Hrep, Hf, Hlast, poll_all_exact by (done || lia). unfold yielded. by rewrite fmap_app.
  - intros s Hs Hw. destruct (decide (sent_cursor s <= horizon retention h2)) as [|Hh]; [by right|left].
    apply (yielded_complete retention); [done..|]. destruct (Hnew s Hs) as [H2|H2]; [left; split; [done|lia]|right].
    split; [|done]. rewrite P3, elem_of_app in Hs. destruct Hs as [Hs|Hs].
    + exfalso. pose proof (ok_sent_range _ _ Ok2) as Hr. rewrite Forall_forall in Hr.
      destruct (Hr s Hs) as [? _]. lia.
    + apply elem_of_app. by right.
Qed.

(** The cursor's successor is gone, or the cursor is no cursor. *)
Definition cursor_expired (rows : list Row) (after : option str) : Prop :=
  exists s, after = Some s /\
    (parse_cursor s = None \/
     exists c row, parse_cursor s = Some c /\ head rows = Some row /\ c + 1 < row_cursor row).

(** A subscription is refused exactly when events would be missing.  With its
    queries answered, subscribing fails if and only if the client's cursor is not a
    cursor, or the event right after it is older than the oldest row; the error then names
    the oldest row, from which a client can start over and is accepted. *)
Theorem subscribe_expiry_exact retention faults h1 h2 f after sent :
  0 <= retention -> emitted retention (empty_hub faults) h1 -> emitted retention h1 h2 ->
  ((exists e, subscribe_stored f after sent (Some (hub_rows h1)) (Some (hub_rows h2)) = Err e) <->
     cursor_expired (hub_rows h1) after) /\
  (forall e row, subscribe_stored f after sent (Some (hub_rows h1)) (Some (hub_rows h2)) = Err e ->
     head (hub_rows h1) = Some row ->
     oldest e = format_cursor (row_cursor row) /\ ~ cursor_expired (hub_rows h1) (Some (oldest e))).
Proof.
  intros Hret E1 E2. pose proof (emitted_ok _ _ _ Hret (empty_hub_ok retention faults) E1) as Ok1.
  pose proof (emitted_ok _ _ _ Hret Ok1 E2) as Ok2.
  assert (Hrest : forall ac, exists sub,
    open_subscription (oldest_cursor (hub_rows h1)) f (length sent) ac (hub_rows h2) = Ok sub).
  { intros ac. unfold open_subscription. cbv zeta. rewrite replay_loop_exact; [cbn; by eexists|].
    pose proof (ok_rows_decode _ _ Ok2) as Hd. destruct ac; [|done]. rewrite Forall_forall in Hd |- *.
    intros row Hin%list_elem_of_In%filter_In. apply Hd, list_elem_of_In, Hin. }
  unfold subscribe_stored. rewrite (resume_after_exact retention) by done. split.
  - destruct after as [s|].
    + destruct (parse_cursor s) as [c|] eqn:Ec.
      * destruct (head (hub_rows h1)) as [row|] eqn:Eh.
        -- destruct (Z.ltb_spec (c + 1) (row_cursor row)) as [Hlt|Hge]; cbn [result_bind].
           ++ split; [intros _|by eauto]. exists s. split; [done|]. right. by exists c, row.
           ++ destruct (Hrest (Some c)) as [sub ->]. split; [by intros [??]|].
              intros (s' & [= <-] & [?|(c' & row' & ? & ? & ?)]); simplify_eq. lia.
        -- cbn [result_bind]. destruct (Hrest (Some c)) as [sub ->]. split; [by intros [??]|].
           intros (s' & [= <-] & [?|(c' & row' & ? & ? & ?)]); simplify_eq.
      * cbn [result_bind]. split; [intros _|by eauto]. exists s. by split; [|left].
    + cbn [result_bind]. destruct (Hrest None) as [sub ->]. split; [by intros [??]|]. by intros (s & ? & _).
  - intros e row He Hhead.
    assert (Hold : oldest e = format_cursor (row_cursor row)).
    { destruct after as [s|]; [|cbn [result_bind] in He; destruct (Hrest None) as [sub Hs]; congruence].
      rewrite Hhead in He. destruct (parse_cursor s) as [c|].
      - destruct (c + 1 <? row_cursor row); cbn [result_bind] in He; [by injection He as <-|].
        destruct (Hrest (Some c)) as [sub Hs]. congruence.
      - cbn [result_bind] in He. injection He as <-. unfold expired_at, oldest_cursor. by rewrite Hhead. }
    split; [done|]. rewrite Hold.
    pose proof (horizon_bounds retention h1 Hret (proj1 (ok_next _ _ Ok1)) (sent_range_cursors _ _ Ok1)).
    pose proof (ok_rows_range _ _ Ok1) as Hr. rewrite Forall_forall in Hr. pose proof (ok_next _ _ Ok1).
    assert (Hin : row ∈ hub_rows h1) by (destruct (hub_rows h1); [done|injection Hhead as ->; by left]).
    specialize (Hr row Hin). simpl in Hr.
    intros (s & [= <-] & [Hn|(c & row' & Hc & Hh' & Hlt)]).
    + by rewrite parse_format_cursor in Hn by lia.
    + rewrite parse_format_cursor in Hc by lia. simplify_eq. lia.
Qed.

(** ** Concrete runs *)

Definition demo_event (item : string) : IngestProgressEvent := {|
  pe_cursor := []; pe_library_id := lit "library"; pe_drop_item_id := lit item; pe_analysis_job_id := None;
  pe_phase := Quality; pe_status := Analyzing; pe_completed := 0; pe_total := 1; pe_score := None;
  pe_message := lit item |}.

Definition demo_hub (items : list string) : Hub :=
  fold_left (fun h item => (emit 2 0 (demo_event item) h).2) items (empty_hub []).

Lemma demo_emitted items more : emitted 2 (demo_hub items) (demo_hub (items ++ more)).
Proof.
  induction more as [|item more IH] using rev_ind; [rewrite app_nil_r; constructor|].
  rewrite app_assoc. unfold demo_hub at 2. rewrite fold_left_app. eapply (emitted_one _ _ 0 (demo_event item)); [exact IH|].
  unfold demo_hub. cbn [fold_left]. apply surjective_pairing.
Qed.

Definition everything : ProgressFilters :=
  {| f_library_id := Some (lit "library"); f_drop_item_id := None; f_analysis_job_id := None |}.

Lemma retention_exact_witness :
  0 <= 2 /\ emitted 2 (empty_hub []) (demo_hub ["one"; "two"; "three"]%string) /\
  StronglySorted (fun a b => row_cursor a < row_cursor b) (hub_rows (demo_hub ["one"; "two"; "three"]%string)).
Proof.
  assert (He : emitted 2 (empty_hub []) (demo_hub ["one"; "two"; "three"]%string)) by exact (demo_emitted [] _).
  split_and!; [lia|done|]. exact (proj1 (retention_exact 2 [] _ ltac:(lia) He)).
Defined.

(** Subscribed after one event, rows read after two, polled after three. *)
Lemma stream_exact_witness : exists sub a out,
  subscribe_stored everything None (hub_sent (demo_hub ["one"]%string))
    (Some (hub_rows (demo_hub ["one"]%string))) (Some (hub_rows (demo_hub ["one"; "two"]%string))) = Ok sub /\
  resumes_at None a /\
  stream 4 sub (hub_sent (demo_hub ["one"; "two"; "three"]%string)) = Ok <$> out /\
  StronglySorted (fun x y => sent_cursor x < sent_cursor y) out.
Proof.
  destruct (subscribe_stored everything None (hub_sent (demo_hub ["one"]%string))
    (Some (hub_rows (demo_hub ["one"]%string))) (Some (hub_rows (demo_hub ["one"; "two"]%string)))) as [sub|] eqn:E;
    [|by vm_compute in E].
  destruct (stream_exact 2 [] (demo_hub ["one"]%string) (demo_hub ["one"]%string) (demo_hub ["one"; "two"]%string)
    (demo_hub ["one"; "two"; "three"]%string) everything None sub 4 ltac:(lia)
    (demo_emitted [] _) (demo_emitted ["one"]%string []) (demo_emitted ["one"]%string ["two"]%string)
    (demo_emitted ["one"; "two"]%string ["three"]%string) E ltac:(vm_compute; lia))
    as (a & out & Ha & Hs & Ho & _).
  exists sub, a, out. by split_and!.
Defined.

Lemma subscribe_expiry_exact_witness :
  cursor_expired (hub_rows (demo_hub ["one"; "two"; "three"]%string)) (Some (lit "000000000000")) /\
  exists e, subscribe_stored everything (Some (lit "000000000000")) []
    (Some (hub_rows (demo_hub ["one"; "two"; "three"]%string)))
    (Some (hub_rows (demo_hub ["one"; "two"; "three"]%string))) = Err e.
Proof.
  assert (Hx : cursor_expired (hub_rows (demo_hub ["one"; "two"; "three"]%string)) (Some (lit "000000000000"))).
  { exists (lit "000000000000"). split; [done|]. right. eexists 0, _. split; [by vm_compute|]. split; [by vm_compute|].
    by vm_compute. }
  split; [done|].
  exact (proj2 (proj1 (subscribe_expiry_exact 2 [] _ _ everything (Some (lit "000000000000")) [] ltac:(lia)
    (demo_emitted [] ["one"; "two"; "three"]%string) (demo_emitted ["one"; "two"; "three"]%string []))) Hx).
Defined.

(** Two emits that interleave can broadcast in the other order; the earlier cursor is then
    dropped by a live subscriber. *)
Example out_of_order_dropped :
  let h := demo_hub ["one"; "two"]%string in
  exists first second, hub_sent h = [first; second] /\
    event_matches (event first) everything = true /\
    poll_all 3 4 everything 0 [first; second] = [Ok first; Ok second] /\
    poll_all 3 4 everything 0 [second; first] = [Ok second].
Proof. eexists _, _. split; [by vm_compute|]. by vm_compute. Qed.
