(* ===== verification/IngestJobs.v ===== *)
(** * Analysis jobs

    Models the durable analysis queue of [src/crates/ingest/src/coordinator.rs] with the
    job and item statements of [store.rs] it is built from: enqueueing staged items and
    library media, pausing, resuming, cancelling and retrying, and the spawned task that
    runs a job under a semaphore of two permits.

    The tables are explicit state, and so is the list of spawned tasks: each task holds
    the point its [run] has reached, and tasks interleave with each other and with calls
    of the coordinator at every database statement of [run].  A call of the coordinator
    is one step.  SQL statements succeed.  What the analysis of a file finds is an
    oracle: a run is the list of row updates it makes and its outcome. *)

From stdpp Require Import base gmap list strings.
From Stdlib Require Import ZArith Lia.
From S2P Require Import Prelude JobWorker Float64 ReadingState IngestContract.

#[local] Open Scope Z_scope.
#[local] Open Scope coppice_scope.

(** ** Targets and plans *)

Inductive AnalysisTarget := DropItem (id : str) | Media (id : str).

#[export] Instance AnalysisTarget_eq_dec : EqDecision AnalysisTarget.
Proof. solve_decision. Defined.

Definition target_id (t : AnalysisTarget) : str := match t with DropItem id | Media id => id end.

(** The derived codec: one key, the variant in screaming snake case. *)
Definition target_to_value (t : AnalysisTarget) : value :=
  match t with
  | DropItem id => JObject [(lit "DROP_ITEM", JString id)]
  | Media id => JObject [(lit "MEDIA", JString id)]
  end.

Definition target_from_value (v : value) : option AnalysisTarget :=
  match v with
  | JObject [(variant, JString id)] =>
      if bool_decide (variant = lit "DROP_ITEM") then Some (DropItem id)
      else if bool_decide (variant = lit "MEDIA") then Some (Media id)
      else None
  | _ => None
  end.

(** The keys of a JSON object are kept sorted. *)
Definition analysis_plan (targets : list AnalysisTarget) (providers : option (list str)) : value :=
  JObject (match providers with Some ps => [(lit "providers", JArray (JString <$> ps))] | None => [] end ++
           [(lit "targets", JArray (target_to_value <$> targets))]).

Definition analysis_providers_from_plan (plan : value) : option (list str) :=
  match json_get (lit "providers") plan ≫= as_array with
  | Some providers =>
      match omap as_str providers with [] => None | ps => Some ps end
  | None => None
  end.

Definition analysis_targets_from_plan (plan : value) (drop_item_id : option str) : list AnalysisTarget :=
  let parsed :=
    match json_get (lit "targets") plan ≫= as_array with
    | Some targets => omap target_from_value targets
    | None => []
    end in
  match parsed with
  | _ :: _ => parsed
  | [] => match drop_item_id with Some id => [DropItem id] | None => [] end
  end.

(** ** Rows *)

Record Job := {
  j_drop_item_id : option str;
  j_media_id : option str;
  j_status : JobStatus;
  j_phase : AnalysisPhase;
  j_priority : Z;
  j_attempts : Z;
  j_plan : value;
  j_error : option str;
  j_created_at : Z;
  j_started_at : option Z;
  j_finished_at : option Z;
}.

(** The columns of a drop item that the queue touches. *)
Record Item := {
  i_status : DropItemStatus;
  i_revision : Z;
  i_analysis_job_id : option str;
  i_error : option str;
}.

Record Db := { db_jobs : gmap str Job; db_items : gmap str Item; db_media : gset str }.

Inductive IngestError := NotFound (message : str) | BadRequest (message : str) | InternalError (message : str).

Definition ingest_error_fmt (e : IngestError) : str :=
  match e with
  | NotFound m => lit "Requested resource could not be found: " ++ m
  | BadRequest m | InternalError m => m
  end.

Definition job_not_found (id : str) : IngestError := NotFound (lit "analysis job " ++ id).
Definition item_not_found (id : str) : IngestError := NotFound (lit "ingest item " ++ id).

(** [JobStatus::is_pending]. *)
Definition is_pending (s : JobStatus) : bool :=
  match s with Running | Paused | Queued => true | _ => false end.

Definition set_job (db : Db) (id : str) (job : Job) : Db :=
  {| db_jobs := <[id := job]> (db_jobs db); db_items := db_items db; db_media := db_media db |}.

Definition set_item (db : Db) (id : str) (item : Item) : Db :=
  {| db_jobs := db_jobs db; db_items := <[id := item]> (db_items db); db_media := db_media db |}.

(** A statement on one job row: [NotFound] when it is gone. *)
Definition with_job (db : Db) (id : str) (f : Job -> Job) : result (Job * Db) IngestError :=
  match db_jobs db !! id with
  | None => Err (job_not_found id)
  | Some job => Ok (f job, set_job db id (f job))
  end.

Definition with_item (db : Db) (id : str) (f : Item -> Item) : result (Item * Db) IngestError :=
  match db_items db !! id with
  | None => Err (item_not_found id)
  | Some item => Ok (f item, set_item db id (f item))
  end.

Definition update_job_status (now : Z) (id : str) (status : JobStatus) (error : option str) (db : Db)
  : result (Job * Db) IngestError :=
  with_job db id (fun j => {|
    j_drop_item_id := j_drop_item_id j; j_media_id := j_media_id j; j_status := status; j_phase := j_phase j;
    j_priority := j_priority j; j_attempts := j_attempts j; j_plan := j_plan j;
    j_error := match error with Some _ => error | None => j_error j end;
    j_created_at := j_created_at j; j_started_at := j_started_at j;
    j_finished_at := if is_resolved status then Some now else j_finished_at j |}).

Definition start_job (now : Z) (id : str) (db : Db) : result (Job * Db) IngestError :=
  with_job db id (fun j => {|
    j_drop_item_id := j_drop_item_id j; j_media_id := j_media_id j; j_status := Running; j_phase := j_phase j;
    j_priority := j_priority j; j_attempts := saturating_add_i32 (j_attempts j) 1; j_plan := j_plan j;
    j_error := None; j_created_at := j_created_at j; j_started_at := Some now; j_finished_at := j_finished_at j |}).

Definition update_job_phase (id : str) (phase : AnalysisPhase) (score : option Z) (db : Db)
  : result (Job * Db) IngestError :=
  with_job db id (fun j => {|
    j_drop_item_id := j_drop_item_id j; j_media_id := j_media_id j; j_status := j_status j; j_phase := phase;
    j_priority := default (j_priority j) score; j_attempts := j_attempts j; j_plan := j_plan j;
    j_error := j_error j; j_created_at := j_created_at j; j_started_at := j_started_at j;
    j_finished_at := j_finished_at j |}).

Definition finish_job (now : Z) (id : str) (score : Z) (db : Db) : result (Job * Db) IngestError :=
  with_job db id (fun j => {|
    j_drop_item_id := j_drop_item_id j; j_media_id := j_media_id j; j_status := Completed; j_phase := Done;
    j_priority := score; j_attempts := j_attempts j; j_plan := j_plan j; j_error := j_error j;
    j_created_at := j_created_at j; j_started_at := j_started_at j; j_finished_at := Some now |}).

Definition fail_job (now : Z) (id error : str) (db : Db) : result (Job * Db) IngestError :=
  with_job db id (fun j => {|
    j_drop_item_id := j_drop_item_id j; j_media_id := j_media_id j; j_status := JobWorker.Failed; j_phase := j_phase j;
    j_priority := j_priority j; j_attempts := j_attempts j; j_plan := j_plan j; j_error := Some error;
    j_created_at := j_created_at j; j_started_at := j_started_at j; j_finished_at := Some now |}).

Definition bump (item : Item) (status : DropItemStatus) (job : option str) (error : option str) : Item :=
  {| i_status := status; i_revision := saturating_add_i32 (i_revision item) 1; i_analysis_job_id := job; i_error := error |}.

Definition set_item_analysis_result (id : str) (score : Z) (has_candidates : bool) (db : Db)
  : result (Item * Db) IngestError :=
  with_item db id (fun item =>
    bump item (if (score <? 100) || has_candidates then AwaitingReview else Ready) (i_analysis_job_id item) None).

Definition fail_item (id reason : str) (db : Db) : result (Item * Db) IngestError :=
  with_item db id (fun item => bump item IngestContract.Failed (i_analysis_job_id item) (Some reason)).

(** Newest first: by creation time, then by id. *)
Definition newer (a b : str * Job) : bool :=
  (j_created_at b.2 <? j_created_at a.2) || ((j_created_at a.2 =? j_created_at b.2) && negb (str_le a.1 b.1)).

Definition newest (l : list (str * Job)) : option (str * Job) :=
  fold_left (fun best kv =>
    match best with
    | None => Some kv
    | Some b => if newer kv b then Some kv else best
    end) l None.

Definition latest_job_for_item (item_id : str) (db : Db) : option (str * Job) :=
  newest (List.filter (fun kv => bool_decide (j_drop_item_id kv.2 = Some item_id)) (map_to_list (db_jobs db))).

Definition fresh_job (now : Z) (drop_item_id media_id : option str) (plan : value) : Job := {|
  j_drop_item_id := drop_item_id; j_media_id := media_id; j_status := Queued; j_phase := Staging; j_priority := 0;
  j_attempts := 0; j_plan := plan; j_error := None; j_created_at := now; j_started_at := None; j_finished_at := None |}.

(** [uuid] is the generated id; the job found or made comes with its id. *)
Definition create_analysis_job (now : Z) (uuid item_id : str) (item : Item) (force : bool) (db : Db)
  : (str * Job) * Db :=
  let create :=
    let job := fresh_job now (Some item_id) None (analysis_plan [DropItem item_id] None) in
    let db := set_job db uuid job in
    ((uuid, job), set_item db item_id (bump item Staged (Some uuid) (i_error item))) in
  if force then create
  else
    match latest_job_for_item item_id db with
    | Some existing => if is_pending (j_status existing.2) then (existing, db) else create
    | None => create
    end.

Definition create_media_analysis_job (now : Z) (uuid : str) (media_ids : list str) (providers : option (list str)) (db : Db)
  : (str * Job) * Db :=
  let job := fresh_job now None (match media_ids with [single] => Some single | _ => None end)
               (analysis_plan (Media <$> media_ids) providers) in
  ((uuid, job), set_job db uuid job).

Definition job_targets (id : str) (job : Job) : result (list AnalysisTarget) IngestError :=
  match analysis_targets_from_plan (j_plan job) (j_drop_item_id job) with
  | [] => Err (InternalError (lit "analysis job " ++ id ++ lit " has no target"))
  | targets => Ok targets
  end.

Definition media_id_of (t : AnalysisTarget) : option str := match t with Media id => Some id | DropItem _ => None end.

(** The newest match; among equal creation times the database chooses, here by id. *)
Definition latest_pending_media_job_matching (media_ids : list str) (db : Db) : option (str * Job) :=
  let waiting := fun kv : str * Job =>
    (bool_decide (j_status kv.2 = Queued) || bool_decide (j_status kv.2 = Running)) && is_none (j_drop_item_id kv.2) in
  newest (List.filter (fun kv => waiting kv &&
    bool_decide (omap media_id_of (analysis_targets_from_plan (j_plan kv.2) (j_drop_item_id kv.2)) = media_ids))
    (map_to_list (db_jobs db))).

(** ** The coordinator *)

(** One update of a run. *)
Inductive Write :=
| SetPhase (phase : AnalysisPhase) (score : option Z)
| ItemResult (item_id : str) (score : Z) (has_candidates : bool)
| ItemFail (item_id reason : str).

Definition apply_write (job_id : str) (w : Write) (db : Db) : result Db IngestError :=
  match w with
  | SetPhase phase score => let? r := update_job_phase job_id phase score db in Ok r.2
  | ItemResult item_id score has => let? r := set_item_analysis_result item_id score has db in Ok r.2
  | ItemFail item_id reason => let? r := fail_item item_id reason db in Ok r.2
  end.

(** What [run_phases] and [run_media_phases] return: score and candidate count, or the
    displayed error. *)
Abbreviation Outcome := (result (Z * nat) str).

(** Where a spawned [run] is: waiting for a permit; past the check of the job's status;
    inside the phases; or about to write the result, its permit given back. *)
Inductive Pc :=
| Waiting
| Acquired (job : Job)
| Working (todo : list Write) (outcome : Outcome)
| Finishing (outcome : Outcome).

Record Task := { tk_job : str; tk_pc : Pc }.

Record System := { sy_db : Db; sy_tasks : list Task }.

Abbreviation SysM A := (System -> result A IngestError * System).

Definition read {A} (q : Db -> A) : SysM A := fun s => (Ok (q (sy_db s)), s).

Definition ok_or {A} (o : option A) (e : IngestError) : SysM A :=
  match o with Some a => db_ret a | None => db_err e end.

Definition write {A} (w : Db -> result (A * Db) IngestError) : SysM A := fun s =>
  match w (sy_db s) with
  | Ok (a, db) => (Ok a, {| sy_db := db; sy_tasks := sy_tasks s |})
  | Err e => (Err e, s)
  end.

Definition spawn (job_id : str) : SysM unit := fun s =>
  (Ok tt, {| sy_db := sy_db s; sy_tasks := sy_tasks s ++ [ {| tk_job := job_id; tk_pc := Waiting |} ] |}).

(** [enqueue]: each item comes with the id a new job would get. *)
Definition enqueue_one (now : Z) (force : bool) (item_id uuid : str) : SysM (str * Job) :=
  item <-- read (fun db => db_items db !! item_id) ;;
  item <-- ok_or item (item_not_found item_id) ;;
  existing <-- read (latest_job_for_item item_id) ;;
  let create :=
    job <-- write (fun db => Ok (create_analysis_job now uuid item_id item force db)) ;;
    _ <-- spawn job.1 ;;
    db_ret job in
  match existing with
  | Some existing => if negb force && is_pending (j_status existing.2) then db_ret existing else create
  | None => create
  end.

Fixpoint enqueue (now : Z) (force : bool) (items : list (str * str)) : SysM (list (str * Job)) :=
  match items with
  | [] => db_ret []
  | (item_id, uuid) :: items =>
      job <-- enqueue_one now force item_id uuid ;;
      jobs <-- enqueue now force items ;;
      db_ret (job :: jobs)
  end.

Fixpoint check_media (media_ids : list str) : SysM unit :=
  match media_ids with
  | [] => db_ret tt
  | id :: media_ids =>
      known <-- read (fun db => bool_decide (id ∈ db_media db)) ;;
      if known then check_media media_ids else db_err (NotFound (lit "media " ++ id))
  end.

Definition enqueue_media (now : Z) (uuid : str) (media_ids : list str) (providers : option (list str)) (force : bool)
  : SysM (str * Job) :=
  if bool_decide (media_ids = []) then db_err (BadRequest (lit "no media selected"))
  else
    _ <-- check_media media_ids ;;
    existing <-- read (latest_pending_media_job_matching media_ids) ;;
    match (if force then None else existing) with
    | Some existing => db_ret existing
    | None =>
        job <-- write (fun db => Ok (create_media_analysis_job now uuid media_ids providers db)) ;;
        _ <-- spawn job.1 ;;
        db_ret job
    end.

Definition find_job (job_id : str) : SysM Job :=
  job <-- read (fun db => db_jobs db !! job_id) ;;
  ok_or job (job_not_found job_id).

Definition pause (now : Z) (job_id : str) : SysM Job :=
  job <-- find_job job_id ;;
  if bool_decide (j_status job = Queued) || bool_decide (j_status job = Running)
  then write (update_job_status now job_id Paused None)
  else db_ret job.

Definition resume (now : Z) (job_id : str) : SysM Job :=
  job <-- find_job job_id ;;
  if bool_decide (j_status job = Paused) then
    job <-- write (update_job_status now job_id Queued None) ;;
    _ <-- spawn job_id ;;
    db_ret job
  else db_ret job.

Definition cancel (now : Z) (job_id : str) : SysM Job :=
  job <-- find_job job_id ;;
  if is_pending (j_status job) then write (update_job_status now job_id Cancelled (Some (lit "cancelled")))
  else db_ret job.

Definition retry (now : Z) (uuid job_id : str) : SysM (str * Job) :=
  job <-- find_job job_id ;;
  match job_targets job_id job with
  | Err e => db_err e
  | Ok [DropItem id] =>
      jobs <-- enqueue now true [(id, uuid)] ;;
      ok_or (head jobs) (InternalError (lit "retry did not enqueue a job"))
  | Ok targets => enqueue_media now uuid (target_id <$> targets) None true
  end.

Definition requeue (now : Z) (uuid item_id : str) (force : bool) : SysM (str * Job) :=
  jobs <-- enqueue now force [(item_id, uuid)] ;;
  ok_or (last jobs) (InternalError (lit "requeue did not enqueue a job")).

(** [discard]: the row goes, and with it every job that references it. *)
Definition discard (item_id : str) : SysM unit := fun s =>
  let db := sy_db s in
  match db_items db !! item_id with
  | None => (Err (item_not_found item_id), s)
  | Some _ =>
      (Ok tt, {| sy_db := {| db_jobs := filter (fun kv => j_drop_item_id kv.2 <> Some item_id) (db_jobs db);
                             db_items := delete item_id (db_items db); db_media := db_media db |};
                 sy_tasks := sy_tasks s |})
  end.

(** ** Runs *)

Record Run := { run_writes : list Write; run_outcome : Outcome }.

(** The updates of [run_phases] for a score and a number of candidates. *)
Definition item_writes (item_id : str) (score : Z) (candidates : nat) : list Write :=
  [ SetPhase Staging None; SetPhase Parsing None; SetPhase Pages None; SetPhase Quality None;
    SetPhase Identify (Some score); SetPhase Lookup (Some score);
    ItemResult item_id score (0 <? candidates)%nat; SetPhase Done (Some score) ].

(** The updates of [run_media_phases] for one media row. *)
Definition media_writes (score : Z) : list Write :=
  [ SetPhase Staging None; SetPhase Parsing None; SetPhase Pages None; SetPhase Quality None;
    SetPhase Identify (Some score); SetPhase Done (Some score) ].

(** The runs a job can have: the phases complete, or an error stops them part way, after
    failing the item when the preprocess hook is to blame. *)
Inductive run_of : list AnalysisTarget -> Run -> Prop :=
| item_completes id score candidates :
    0 <= score <= 100 ->
    run_of [DropItem id] {| run_writes := item_writes id score candidates; run_outcome := Ok (score, candidates) |}
| item_hook_fails id reason :
    run_of [DropItem id] {| run_writes := [SetPhase Staging None; ItemFail id reason]; run_outcome := Err reason |}
| item_stops id score candidates n error :
    run_of [DropItem id] {| run_writes := take n (item_writes id score candidates); run_outcome := Err error |}
| media_completes ids scores candidates :
    length scores = length ids -> Forall (fun s => 0 <= s <= 100) scores ->
    run_of (Media <$> ids) {| run_writes := scores ≫= media_writes;
                              run_outcome := Ok (foldr Z.min 255 scores, candidates) |}
| media_stops ids scores n error :
    run_of (Media <$> ids) {| run_writes := take n (scores ≫= media_writes); run_outcome := Err error |}.

Definition is_media (t : AnalysisTarget) : bool := match t with Media _ => true | DropItem _ => false end.

(** The next statement of a task that may run, and where it is afterwards ([None] when
    [run] has returned). *)
Definition advance (now : Z) (run : Run) (job_id : str) (pc : Pc) (db : Db) : Db * option Pc :=
  match pc with
  | Waiting =>
      match db_jobs db !! job_id with
      | None => (db, None)
      | Some job =>
          if bool_decide (j_status job = Paused) || bool_decide (j_status job = Cancelled) then (db, None)
          else (db, Some (Acquired job))
      end
  | Acquired job =>
      match start_job now job_id db with
      | Err _ => (db, None)
      | Ok (_, db) =>
          match job_targets job_id job with
          | Err _ => (db, None)
          | Ok [DropItem id] =>
              match db_items db !! id with
              | None => (db, None)
              | Some _ => (db, Some (Working (run_writes run) (run_outcome run)))
              end
          | Ok targets =>
              if forallb is_media targets then (db, Some (Working (run_writes run) (run_outcome run)))
              else (db, Some (Finishing (Err (lit "analysis job " ++ job_id ++ lit " has empty or mixed targets"))))
          end
      end
  | Working [] outcome => (db, Some (Finishing outcome))
  | Working (w :: todo) outcome =>
      match apply_write job_id w db with
      | Ok db => (db, Some (Working todo outcome))
      | Err e => (db, Some (Finishing (Err (ingest_error_fmt e))))
      end
  | Finishing (Ok (score, _)) =>
      (match finish_job now job_id score db with Ok (_, db) => db | Err _ => db end, None)
  | Finishing (Err e) =>
      (match fail_job now job_id e db with Ok (_, db) => db | Err _ => db end, None)
  end.

Definition holds_permit (t : Task) : bool :=
  match tk_pc t with Acquired _ | Working _ _ => true | _ => false end.

Definition permits_held (s : System) : nat := length (List.filter holds_permit (sy_tasks s)).

(** One step of one task.  A waiting task needs one of the two permits. *)
Inductive task_step : System -> System -> Prop :=
| task_advances now run l1 t l2 db db' pc' :
    (tk_pc t = Waiting -> (permits_held {| sy_db := db; sy_tasks := l1 ++ t :: l2 |} < 2)%nat) ->
    (forall job targets, tk_pc t = Acquired job -> job_targets (tk_job t) job = Ok targets ->
       forallb is_media targets = true \/ (exists id, targets = [DropItem id]) -> run_of targets run) ->
    advance now run (tk_job t) (tk_pc t) db = (db', pc') ->
    task_step {| sy_db := db; sy_tasks := l1 ++ t :: l2 |}
      {| sy_db := db';
         sy_tasks := l1 ++ match pc' with Some pc => [ {| tk_job := tk_job t; tk_pc := pc |} ] | None => [] end ++ l2 |}.

(** An id no row and no task uses. *)
Definition fresh (s : System) (uuid : str) : Prop :=
  db_jobs (sy_db s) !! uuid = None /\ Forall (fun t => tk_job t <> uuid) (sy_tasks s).

(** Calls of the coordinator and changes of other rows by the rest of the server: new and
    updated items, media that come and go. *)
Inductive call_step : System -> System -> Prop :=
| call_enqueue now force item_id uuid s : fresh s uuid -> call_step s (enqueue_one now force item_id uuid s).2
| call_enqueue_media now uuid ids providers force s :
    fresh s uuid -> call_step s (enqueue_media now uuid ids providers force s).2
| call_pause now id s : call_step s (pause now id s).2
| call_resume now id s : call_step s (resume now id s).2
| call_cancel now id s : call_step s (cancel now id s).2
| call_retry now uuid id s : fresh s uuid -> call_step s (retry now uuid id s).2
| call_discard id s : call_step s (discard id s).2
| call_rows s items media :
    dom (db_items (sy_db s)) ⊆ dom items ->
    call_step s {| sy_db := {| db_jobs := db_jobs (sy_db s); db_items := items; db_media := media |};
                   sy_tasks := sy_tasks s |}.

Definition initial (items : gmap str Item) (media : gset str) : System :=
  {| sy_db := {| db_jobs := ∅; db_items := items; db_media := media |}; sy_tasks := [] |}.

Inductive reachable : System -> Prop :=
| reach_initial items media : reachable (initial items media)
| reach_task s s' : reachable s -> task_step s s' -> reachable s'
| reach_call s s' : reachable s -> call_step s s' -> reachable s'.

(** ** Plans *)

Lemma omap_targets (targets : list AnalysisTarget) : omap target_from_value (target_to_value <$> targets) = targets.
Proof. induction targets as [|[id|id] targets IH]; [done|..]; cbn; by f_equal. Qed.

Lemma omap_strings (ps : list str) : omap as_str (JString <$> ps) = ps.
Proof. induction ps as [|p ps IH]; [done|]. cbn. by f_equal. Qed.

Lemma plan_targets targets providers drop_item_id :
  targets <> [] -> analysis_targets_from_plan (analysis_plan targets providers) drop_item_id = targets.
Proof.
  intros Hne. unfold analysis_targets_from_plan.
  assert (E : json_get (lit "targets") (analysis_plan targets providers) = Some (JArray (target_to_value <$> targets))).
  { unfold analysis_plan. by destruct providers. }
  rewrite E. cbn [mbind option_bind as_array]. rewrite omap_targets. by destruct targets.
Qed.

(** What is stored as a job's plan is read back as it was meant.  The targets of a
    plan survive the trip through JSON whatever the job's own columns say, and so does a
    non-empty list of providers; no list and an empty one both mean every provider.  A
    plan without targets falls back to the job's item. *)
Theorem plan_roundtrip targets providers drop_item_id :
  analysis_targets_from_plan (analysis_plan targets providers) drop_item_id =
    (match targets with
     | [] => match drop_item_id with Some id => [DropItem id] | None => [] end
     | _ => targets
     end) /\
  analysis_providers_from_plan (analysis_plan targets providers) =
    match providers with Some (p :: ps) => Some (p :: ps) | _ => None end.
Proof.
  split.
  - destruct targets as [|t targets]; [by destruct providers, drop_item_id|]. by apply plan_targets.
  - unfold analysis_providers_from_plan. destruct providers as [ps|]; [|done]. unfold analysis_plan.
    match goal with |- context [json_get (lit "providers") ?plan] =>
      change (json_get (lit "providers") plan) with (Some (JArray (JString <$> ps) : value)) end.
    cbn [mbind option_bind as_array]. rewrite omap_strings. by destruct ps.
Qed.

(** ** The invariant *)

Definition starting (t : Task) : Prop := match tk_pc t with Waiting | Acquired _ => True | _ => False end.
Definition active (t : Task) : Prop := match tk_pc t with Working _ _ | Finishing _ => True | _ => False end.

(** A job of one staged item that exists, or of library media. *)
Definition job_typed (items : gmap str Item) (job : Job) : Prop :=
  let targets := analysis_targets_from_plan (j_plan job) (j_drop_item_id job) in
  (exists id, targets = [DropItem id] /\ j_drop_item_id job = Some id /\ is_Some (items !! id)) \/
  (targets <> [] /\ forallb is_media targets = true /\ j_drop_item_id job = None).

(** The task that will run a queued job, and the one that runs a running job. *)
Definition job_manned (tasks : list Task) (id : str) (job : Job) : Prop :=
  (j_status job = Queued -> exists t, t ∈ tasks /\ tk_job t = id /\ starting t) /\
  (j_status job = Running -> exists t, t ∈ tasks /\ tk_job t = id /\ active t).

Definition same_work (a b : Job) : Prop := j_plan a = j_plan b /\ j_drop_item_id a = j_drop_item_id b.

Record jobs_ok (db : Db) (tasks : list Task) : Prop := {
  ok_typed : map_Forall (fun _ job => job_typed (db_items db) job) (db_jobs db);
  ok_manned : map_Forall (job_manned tasks) (db_jobs db);
  ok_snapshot : forall t snap job, t ∈ tasks -> tk_pc t = Acquired snap -> db_jobs db !! tk_job t = Some job ->
    same_work snap job;
}.

Lemma job_typed_same items a b : same_work a b -> job_typed items a -> job_typed items b.
Proof. unfold same_work, job_typed. by intros [-> ->]. Qed.

Lemma job_manned_more tasks tasks' id job :
  (forall t, t ∈ tasks -> t ∈ tasks') -> job_manned tasks id job -> job_manned tasks' id job.
Proof. intros Hsub [H1 H2]. split; intros Hst; [destruct (H1 Hst) as (t & ? & ?)|destruct (H2 Hst) as (t & ? & ?)]; eauto. Qed.

(** Changing one job's row, its work kept. *)
Lemma jobs_ok_update db tasks tasks' id job job' :
  jobs_ok db tasks -> db_jobs db !! id = Some job -> same_work job job' ->
  (forall i j, i <> id -> db_jobs db !! i = Some j -> job_manned tasks i j -> job_manned tasks' i j) ->
  job_manned tasks' id job' ->
  (forall t snap, t ∈ tasks' -> tk_pc t = Acquired snap -> t ∈ tasks \/ (tk_job t = id /\ same_work snap job)) ->
  jobs_ok (set_job db id job') tasks'.
Proof.
  intros [Ht Hm Hs] Hj Hsame Hother Hman Hsnap. split; cbn [db_jobs db_items set_job].
  - apply map_Forall_insert_2; [|done]. eapply job_typed_same; [done|]. by apply (Ht id).
  - apply map_Forall_lookup. intros i j. rewrite lookup_insert_Some. intros [[<- <-]|[Hne Hi]]; [done|].
    apply Hother; [done..|]. by apply (Hm i).
  - intros t snap j Hin Hpc. rewrite lookup_insert_Some. intros [[E <-]|[Hne Hi]].
    + destruct (Hsnap t snap Hin Hpc) as [Hold|[_ Hw]].
      * rewrite E in Hj. pose proof (Hs t snap job Hold Hpc Hj). unfold same_work in *. intuition congruence.
      * unfold same_work in *. intuition congruence.
    + destruct (Hsnap t snap Hin Hpc) as [Hold|[Heq _]]; [by eapply Hs|congruence].
Qed.

(** Changing an item's row. *)
Lemma jobs_ok_items db tasks items media :
  jobs_ok db tasks -> dom (db_items db) ⊆ dom items ->
  jobs_ok {| db_jobs := db_jobs db; db_items := items; db_media := media |} tasks.
Proof.
  intros [Ht Hm Hs] Hdom. split; [|done|done]. intros id job Hj.
  destruct (Ht id job Hj) as [(i & E & Hd & Hi)|?]; [left|by right]. exists i. split_and!; [done..|].
  apply elem_of_dom, Hdom, elem_of_dom. done.
Qed.

Lemma set_item_ok db tasks id item item' :
  jobs_ok db tasks -> db_items db !! id = Some item -> jobs_ok (set_item db id item') tasks.
Proof. intros Hok Hi. apply jobs_ok_items; [done|]. rewrite dom_insert. set_solver. Qed.

(** A new job comes with a task. *)
Lemma jobs_ok_create db tasks uuid job :
  jobs_ok db tasks -> db_jobs db !! uuid = None -> Forall (fun t => tk_job t <> uuid) tasks ->
  job_typed (db_items db) job -> j_status job = Queued ->
  jobs_ok (set_job db uuid job) (tasks ++ [ {| tk_job := uuid; tk_pc := Waiting |} ]).
Proof.
  intros [Ht Hm Hs] Hnone Hfresh Htyped Hq. split; cbn [db_jobs db_items set_job].
  - by apply map_Forall_insert_2.
  - apply map_Forall_insert_2.
    + split; intros; [|congruence]. eexists. split; [apply elem_of_app; right; by left|]. done.
    + intros i j Hi. eapply job_manned_more; [|by apply (Hm i)]. intros t Ht'. apply elem_of_app. by left.
  - intros t snap j [Hin| ->%list_elem_of_singleton]%elem_of_app Hpc; [|done].
    rewrite lookup_insert_ne; [by apply Hs|]. rewrite Forall_forall in Hfresh. intros E. by apply (Hfresh t).
Qed.

(** ** Calls keep it *)

Definition sys_jobs_ok (s : System) : Prop := jobs_ok (sy_db s) (sy_tasks s).

Lemma update_status_ok now id status error db tasks tasks' job db' :
  jobs_ok db tasks -> update_job_status now id status error db = Ok (job, db') ->
  (forall t, t ∈ tasks -> t ∈ tasks') ->
  (forall t snap, t ∈ tasks' -> tk_pc t = Acquired snap -> t ∈ tasks) ->
  (status = Queued -> exists t, t ∈ tasks' /\ tk_job t = id /\ starting t) -> status <> Running ->
  jobs_ok db' tasks'.
Proof.
  intros Hok Hu Hsub Hsnap Hq Hr. unfold update_job_status, with_job in Hu.
  destruct (db_jobs db !! id) as [j|] eqn:Ej; [|done]. injection Hu as <- <-.
  eapply jobs_ok_update; [done|done|done| | |].
  - intros i ji _ _. by apply job_manned_more.
  - split; cbn [j_status]; [done|intros; congruence].
  - intros t snap Hin Hpc. left. by eapply Hsnap.
Qed.

Lemma find_job_run id s :
  find_job id s = match db_jobs (sy_db s) !! id with Some j => (Ok j, s) | None => (Err (job_not_found id), s) end.
Proof. unfold find_job, read, ok_or, db_bind, db_ret, db_err. by destruct (db_jobs (sy_db s) !! id). Qed.

Lemma update_status_found now id status error db job :
  db_jobs db !! id = Some job -> exists r, update_job_status now id status error db = Ok r.
Proof. unfold update_job_status, with_job. intros ->. by eexists. Qed.

Lemma pause_ok now id s : sys_jobs_ok s -> sys_jobs_ok (pause now id s).2.
Proof.
  intros Hok. unfold pause, db_bind. rewrite find_job_run.
  destruct (db_jobs (sy_db s) !! id) as [job|] eqn:Ej; [|done]. destruct (_ || _); [|done].
  unfold write. destruct (update_status_found now id Paused None _ _ Ej) as [[j db'] Hu]. rewrite Hu.
  eapply update_status_ok; [exact Hok|exact Hu|done|done|done|done].
Qed.

Lemma cancel_ok now id s : sys_jobs_ok s -> sys_jobs_ok (cancel now id s).2.
Proof.
  intros Hok. unfold cancel, db_bind. rewrite find_job_run.
  destruct (db_jobs (sy_db s) !! id) as [job|] eqn:Ej; [|done]. destruct (is_pending _); [|done].
  unfold write. destruct (update_status_found now id Cancelled (Some (lit "cancelled")) _ _ Ej) as [[j db'] Hu].
  rewrite Hu. eapply update_status_ok; [exact Hok|exact Hu|done|done|done|done].
Qed.

Lemma resume_ok now id s : sys_jobs_ok s -> sys_jobs_ok (resume now id s).2.
Proof.
  intros Hok. unfold resume, db_bind. rewrite find_job_run.
  destruct (db_jobs (sy_db s) !! id) as [job|] eqn:Ej; [|done]. case_bool_decide; [|done].
  unfold write. destruct (update_status_found now id Queued None _ _ Ej) as [[j db'] Hu]. rewrite Hu.
  cbn. eapply update_status_ok; [exact Hok|exact Hu|..|done].
  - intros t Ht. apply elem_of_app. by left.
  - by intros t snap [Ht| ->%list_elem_of_singleton]%elem_of_app.
  - intros _. eexists. split; [apply elem_of_app; right; by left|done].
Qed.

Lemma discard_ok id s : sys_jobs_ok s -> sys_jobs_ok (discard id s).2.
Proof.
  intros [Ht Hm Hs]. unfold discard. destruct (db_items (sy_db s) !! id) as [item|] eqn:Ei; [|by split].
  split; cbn [sy_db sy_tasks snd db_jobs db_items].
  - intros i job. rewrite map_lookup_filter_Some. intros [Hi Hne]. simpl in Hne.
    destruct (Ht i job Hi) as [(x & E & Hd & Hx)|?]; [left|by right]. exists x. split_and!; [done..|].
    rewrite lookup_delete_ne; [done|]. congruence.
  - intros i job. rewrite map_lookup_filter_Some. intros [Hi _]. by apply (Hm i).
  - intros t snap job Hin Hpc. rewrite map_lookup_filter_Some. intros [Hi _]. by eapply Hs.
Qed.

Lemma enqueue_create_ok now uuid item_id item force s :
  sys_jobs_ok s -> fresh s uuid -> db_items (sy_db s) !! item_id = Some item ->
  (force = true \/ match latest_job_for_item item_id (sy_db s) with
                   | Some e => is_pending (j_status e.2) = false | None => True end) ->
  let '(job, db) := create_analysis_job now uuid item_id item force (sy_db s) in
  job.1 = uuid /\ jobs_ok db (sy_tasks s ++ [ {| tk_job := uuid; tk_pc := Waiting |} ]).
Proof.
  intros Hok [Hnone Hfresh] Hi Hf. unfold create_analysis_job.
  set (job := fresh_job now (Some item_id) None (analysis_plan [DropItem item_id] None)).
  assert (Hc : jobs_ok (set_item (set_job (sy_db s) uuid job) item_id (bump item Staged (Some uuid) (i_error item)))
                 (sy_tasks s ++ [ {| tk_job := uuid; tk_pc := Waiting |} ])).
  { eapply set_item_ok; [|exact Hi]. apply jobs_ok_create; try done. left. exists item_id.
    split_and!; [by apply plan_targets|done|by eexists]. }
  destruct force; [done|]. destruct Hf as [?|Hf]; [done|].
  destruct (latest_job_for_item item_id (sy_db s)) as [e|]; [|done]. by rewrite Hf.
Qed.

Lemma enqueue_one_ok now force item_id uuid s :
  sys_jobs_ok s -> fresh s uuid -> sys_jobs_ok (enqueue_one now force item_id uuid s).2.
Proof.
  intros Hok Hfresh. unfold enqueue_one, db_bind, read, ok_or.
  destruct (db_items (sy_db s) !! item_id) as [item|] eqn:Ei; [|done]. cbn [db_ret].
  pose proof (enqueue_create_ok now uuid item_id item force s Hok Hfresh Ei) as Hc.
  assert (Hcreate : (force = true \/ match latest_job_for_item item_id (sy_db s) with
                   | Some e => is_pending (j_status e.2) = false | None => True end) ->
    sys_jobs_ok ((fun s0 => match write (fun db => Ok (create_analysis_job now uuid item_id item force db)) s0 with
      | (Ok a, db') => match spawn a.1 db' with (Ok _, db'0) => db_ret a db'0 | (Err e, db'0) => (Err e, db'0) end
      | (Err e, db') => (Err e, db') end) s).2).
  { intros Hf. specialize (Hc Hf). unfold write.
    destruct (create_analysis_job now uuid item_id item force (sy_db s)) as [[id job] db]. destruct Hc as [Hid Hc].
    cbn in Hid |- *. by subst id. }
  destruct (latest_job_for_item item_id (sy_db s)) as [e|] eqn:El.
  - destruct force; cbn [negb andb]; [apply Hcreate; by left|].
    destruct (is_pending (j_status e.2)) eqn:Ep; [done|]. apply Hcreate. by right.
  - apply Hcreate. by right.
Qed.

Lemma check_media_same ids s : (check_media ids s).2 = s.
Proof.
  induction ids as [|id ids IH]; [done|]. cbn [check_media]. unfold db_bind, read. by case_bool_decide.
Qed.

Lemma enqueue_media_ok now uuid ids providers force s :
  sys_jobs_ok s -> fresh s uuid -> sys_jobs_ok (enqueue_media now uuid ids providers force s).2.
Proof.
  intros Hok [Hnone Hfresh]. unfold enqueue_media. case_bool_decide as Hne; [done|]. unfold db_bind at 1.
  pose proof (check_media_same ids s) as Hs. destruct (check_media ids s) as [[[]|e] s']; simpl in Hs; subst s'; [|done].
  unfold db_bind at 1, read. destruct (if force then None else _) as [e|]; [done|]. cbn.
  apply jobs_ok_create; [done..| |done]. right.
  assert (Hne' : Media <$> ids <> []) by (by destruct ids). cbn [fresh_job j_plan j_drop_item_id].
  rewrite plan_targets by done. split_and!; [done| |done].
  clear. induction ids; [done|]. by cbn.
Qed.

Lemma retry_ok now uuid id s : sys_jobs_ok s -> fresh s uuid -> sys_jobs_ok (retry now uuid id s).2.
Proof.
  intros Hok Hf. unfold retry. unfold db_bind at 1. rewrite find_job_run.
  destruct (db_jobs (sy_db s) !! id) as [job|]; [|done].
  pose proof (enqueue_media_ok now uuid) as Hmedia.
  destruct (job_targets id job) as [[|[i|i] [|]]|]; try (by apply Hmedia); [|done].
  pose proof (enqueue_one_ok now true i uuid s Hok Hf) as Hone. cbn [enqueue]. unfold db_bind, ok_or, db_ret, db_err.
  by destruct (enqueue_one now true i uuid s) as [[j|e] s'].
Qed.

Lemma call_step_ok s s' : sys_jobs_ok s -> call_step s s' -> sys_jobs_ok s'.
Proof.
  intros Hok Hstep. destruct Hstep;
    eauto using enqueue_one_ok, enqueue_media_ok, pause_ok, resume_ok, cancel_ok, retry_ok, discard_ok, jobs_ok_items.
  by apply jobs_ok_items.
Qed.

(** ** Tasks keep it *)

(** What a task leaves in its place. *)
Definition in_place (t : Task) (pc : option Pc) : list Task :=
  match pc with Some pc => [ {| tk_job := tk_job t; tk_pc := pc |} ] | None => [] end.

(** Jobs other than the task's own keep their tasks. *)
Lemma manned_other l1 t l2 pc id job :
  id <> tk_job t -> job_manned (l1 ++ t :: l2) id job -> job_manned (l1 ++ in_place t pc ++ l2) id job.
Proof.
  intros Hne [H1 H2]. assert (Hkeep : forall u, u ∈ l1 ++ t :: l2 -> tk_job u = id -> u ∈ l1 ++ in_place t pc ++ l2).
  { intros u Hu Hid. rewrite !elem_of_app, elem_of_cons in *. destruct Hu as [?|[->|?]]; [auto|done|auto]. }
  split; intros Hst; [destruct (H1 Hst) as (u & ? & ? & ?)|destruct (H2 Hst) as (u & ? & ? & ?)]; eauto.
Qed.

(** The task's own job, by where the task was and is. *)
Lemma manned_own l1 t l2 pc job job' :
  job_manned (l1 ++ t :: l2) (tk_job t) job ->
  (j_status job' = Queued -> (j_status job = Queued /\ ~ starting t) \/
     exists pc', pc = Some pc' /\ starting {| tk_job := tk_job t; tk_pc := pc' |}) ->
  (j_status job' = Running -> (j_status job = Running /\ ~ active t) \/
     exists pc', pc = Some pc' /\ active {| tk_job := tk_job t; tk_pc := pc' |}) ->
  job_manned (l1 ++ in_place t pc ++ l2) (tk_job t) job'.
Proof.
  intros [H1 H2] Hq Hr.
  assert (Hkeep : forall u, u ∈ l1 ++ t :: l2 -> u <> t -> u ∈ l1 ++ in_place t pc ++ l2).
  { intros u Hu Hne. rewrite !elem_of_app, elem_of_cons in *. naive_solver. }
  assert (Hnew : forall pc', pc = Some pc' -> {| tk_job := tk_job t; tk_pc := pc' |} ∈ l1 ++ in_place t pc ++ l2).
  { intros pc' ->. rewrite !elem_of_app. right; left. by left. }
  split; intros Hst.
  - destruct (Hq Hst) as [[Hs Hn]|(pc' & E & Hs)]; [|by eauto].
    destruct (H1 Hs) as (u & Hin & Hid & Hu). exists u. split; [|done]. apply Hkeep; [done|]. by intros ->.
  - destruct (Hr Hst) as [[Hs Hn]|(pc' & E & Hs)]; [|by eauto].
    destruct (H2 Hs) as (u & Hin & Hid & Hu). exists u. split; [|done]. apply Hkeep; [done|]. by intros ->.
Qed.

(** A step of a task whose own row, if any, changes from [job] to [job']. *)
Lemma task_own_ok db l1 t l2 pc job job' :
  jobs_ok db (l1 ++ t :: l2) -> db_jobs db !! tk_job t = Some job -> same_work job job' ->
  (j_status job' = Queued -> (j_status job = Queued /\ ~ starting t) \/
     exists pc', pc = Some pc' /\ starting {| tk_job := tk_job t; tk_pc := pc' |}) ->
  (j_status job' = Running -> (j_status job = Running /\ ~ active t) \/
     exists pc', pc = Some pc' /\ active {| tk_job := tk_job t; tk_pc := pc' |}) ->
  (forall snap, pc = Some (Acquired snap) -> same_work snap job) ->
  jobs_ok (set_job db (tk_job t) job') (l1 ++ in_place t pc ++ l2).
Proof.
  intros Hok Hj Hsame Hq Hr Hsnap. eapply jobs_ok_update; [done|done|done| | |].
  - intros i ji Hne _. by apply manned_other.
  - eapply manned_own; [by apply (ok_manned _ _ Hok)|done|done].
  - intros u snap Hin Hpc. rewrite !elem_of_app in Hin. destruct Hin as [Hin|[Hin|Hin]].
    + left. rewrite elem_of_app. by left.
    + right. destruct pc as [pc'|]; [|by apply not_elem_of_nil in Hin].
      apply list_elem_of_singleton in Hin as ->. cbn in Hpc |- *. split; [done|]. apply Hsnap. by f_equal.
    + left. rewrite elem_of_app, elem_of_cons. auto.
Qed.

(** The same when the row stays as it is. *)
Lemma task_same_ok db l1 t l2 pc job :
  jobs_ok db (l1 ++ t :: l2) -> db_jobs db !! tk_job t = Some job ->
  (j_status job = Queued -> ~ starting t \/ exists pc', pc = Some pc' /\ starting {| tk_job := tk_job t; tk_pc := pc' |}) ->
  (j_status job = Running -> ~ active t \/ exists pc', pc = Some pc' /\ active {| tk_job := tk_job t; tk_pc := pc' |}) ->
  (forall snap, pc = Some (Acquired snap) -> same_work snap job) ->
  jobs_ok db (l1 ++ in_place t pc ++ l2).
Proof.
  intros Hok Hj Hq Hr Hsnap.
  assert (E : set_job db (tk_job t) job = db) by (destruct db; unfold set_job; cbn in *; by rewrite insert_id).
  rewrite <- E. eapply task_own_ok; [done|done|done| | |done]; intros Hst;
    [destruct (Hq Hst)|destruct (Hr Hst)]; auto.
Qed.

(** The task's job is gone. *)
Lemma task_gone_ok db l1 t l2 pc :
  jobs_ok db (l1 ++ t :: l2) -> db_jobs db !! tk_job t = None ->
  jobs_ok db (l1 ++ in_place t pc ++ l2).
Proof.
  intros [Ht Hm Hs] Hn. split; [done| |].
  - intros i j Hi. apply manned_other; [congruence|]. by apply (Hm i).
  - intros u snap j Hin Hpc Hj. apply (Hs u snap j); [|done|done].
    rewrite !elem_of_app in Hin. rewrite elem_of_app, elem_of_cons. destruct Hin as [?|[Hin|?]]; [auto| |auto].
    destruct pc as [pc'|]; [|by apply not_elem_of_nil in Hin]. apply list_elem_of_singleton in Hin as ->. cbn in Hj. congruence.
Qed.

Lemma waiting_ok now run db db' l1 t l2 pc :
  jobs_ok db (l1 ++ t :: l2) -> tk_pc t = Waiting -> advance now run (tk_job t) Waiting db = (db', pc) ->
  jobs_ok db' (l1 ++ in_place t pc ++ l2).
Proof.
  intros Hok Hpc. cbn [advance]. destruct (db_jobs db !! tk_job t) as [job|] eqn:Ej.
  - destruct (_ || _) eqn:Est; intros [= <- <-].
    + rewrite orb_true_iff, !bool_decide_eq_true in Est. eapply task_same_ok; [done|done| | |done];
        intros; exfalso; destruct Est; congruence.
    + eapply task_same_ok; [done|done| | |].
      * intros _. right. by eexists.
      * intros _. left. unfold active. rewrite Hpc. tauto.
      * by intros snap [= <-].
  - intros [= <- <-]. by apply task_gone_ok.
Qed.

Lemma acquired_ok now run db db' l1 t l2 pc snap :
  jobs_ok db (l1 ++ t :: l2) -> tk_pc t = Acquired snap -> advance now run (tk_job t) (Acquired snap) db = (db', pc) ->
  jobs_ok db' (l1 ++ in_place t pc ++ l2).
Proof.
  intros Hok Hpc. cbn [advance]. unfold start_job, with_job. destruct (db_jobs db !! tk_job t) as [job|] eqn:Ej.
  2: { intros [= <- <-]. by apply task_gone_ok. }
  set (job' := {| j_status := Running |}). cbv beta iota.
  assert (Hsnap : same_work snap job).
  { eapply (ok_snapshot _ _ Hok t); [|done|done]. rewrite elem_of_app. right. by left. }
  assert (Hrun : forall pc', active {| tk_job := tk_job t; tk_pc := pc' |} ->
    jobs_ok (set_job db (tk_job t) job') (l1 ++ in_place t (Some pc') ++ l2)).
  { intros pc' Ha. eapply task_own_ok; [done|done|done|done| |].
    - intros _. right. by eauto.
    - intros s' [= ->]. done. }
  pose proof (ok_typed _ _ Hok _ _ Ej) as Htyped. unfold job_typed in Htyped.
  unfold job_targets. destruct Hsnap as [-> ->].
  destruct Htyped as [(i & -> & _ & [item Hi])|(Hne & Hm & _)].
  - cbn [set_job db_items]. rewrite Hi. intros [= <- <-]. by apply Hrun.
  - destruct (analysis_targets_from_plan _ _) as [|[i|i] rest]; [done|done|].
    rewrite Hm. intros [= <- <-]. by apply Hrun.
Qed.

(** A write of a run keeps the table's shape. *)
Lemma apply_write_ok id w db db' :
  apply_write id w db = Ok db' ->
  (exists job job', db_jobs db !! id = Some job /\ same_work job job' /\ j_status job' = j_status job /\ db' = set_job db id job') \/
  (exists i item item', db_items db !! i = Some item /\ db' = set_item db i item').
Proof.
  destruct w; cbn [apply_write]; intros ([x y] & Hw & [= <-])%result_bind_Ok; cbn [snd].
  - left. unfold update_job_phase, with_job in Hw. destruct (db_jobs db !! id) as [job|]; [|done].
    injection Hw as <- <-. exists job. eexists. split; [done|]. split; [|split]; [..|reflexivity]; done.
  - right. unfold set_item_analysis_result, with_item in Hw. destruct (db_items db !! item_id) as [item|] eqn:E; [|done].
    injection Hw as <- <-. by exists item_id, item, (bump item (if (score <? 100) || has_candidates then AwaitingReview else Ready) (i_analysis_job_id item) None).
  - right. unfold fail_item, with_item in Hw. destruct (db_items db !! item_id) as [item|] eqn:E; [|done].
    injection Hw as <- <-. by exists item_id, item, (bump item IngestContract.Failed (i_analysis_job_id item) (Some reason)).
Qed.

(** A step between active states that leaves the job's status alone. *)
Lemma active_move_ok db l1 t l2 pc' :
  jobs_ok db (l1 ++ t :: l2) -> active t -> active {| tk_job := tk_job t; tk_pc := pc' |} ->
  jobs_ok db (l1 ++ in_place t (Some pc') ++ l2).
Proof.
  intros Hok Ha Ha'. assert (Hns : ~ starting t) by (unfold active, starting in *; destruct (tk_pc t); tauto).
  destruct (db_jobs db !! tk_job t) as [job|] eqn:Ej; [|by apply task_gone_ok].
  eapply task_same_ok; [done|done|by left|by right; eauto|].
  intros snap [= ->]. done.
Qed.

Lemma working_ok now run db db' l1 t l2 pc todo outcome :
  jobs_ok db (l1 ++ t :: l2) -> tk_pc t = Working todo outcome ->
  advance now run (tk_job t) (Working todo outcome) db = (db', pc) ->
  jobs_ok db' (l1 ++ in_place t pc ++ l2).
Proof.
  intros Hok Hpc. assert (Ha : active t) by (unfold active; by rewrite Hpc).
  assert (Hns : ~ starting t) by (unfold starting; rewrite Hpc; tauto).
  cbn [advance]. destruct todo as [|w todo]; [intros [= <- <-]; by apply active_move_ok|].
  destruct (apply_write (tk_job t) w db) as [db1|e] eqn:Ew; intros [= <- <-]; [|by apply active_move_ok].
  apply apply_write_ok in Ew as [(job & job' & Hj & Hw & Hst & ->)|(i & item & item' & Hi & ->)].
  - eapply task_own_ok; [done|done|done| | |done]; rewrite Hst; intros; [by left|right; by eexists].
  - eapply set_item_ok; [|done]. by apply active_move_ok.
Qed.

Lemma finishing_ok now run db db' l1 t l2 pc outcome :
  jobs_ok db (l1 ++ t :: l2) -> tk_pc t = Finishing outcome ->
  advance now run (tk_job t) (Finishing outcome) db = (db', pc) ->
  jobs_ok db' (l1 ++ in_place t pc ++ l2).
Proof.
  intros Hok Hpc. cbn [advance]. unfold finish_job, fail_job, with_job.
  destruct (db_jobs db !! tk_job t) as [job|] eqn:Ej; destruct outcome as [[score n]|e]; intros [= <- <-].
  1,2: by eapply task_own_ok.
  all: by apply task_gone_ok.
Qed.

Lemma task_step_ok s s' : sys_jobs_ok s -> task_step s s' -> sys_jobs_ok s'.
Proof.
  intros Hok Hstep. destruct Hstep as [now run l1 t l2 db db' pc' _ _ Ha]. unfold sys_jobs_ok in *. cbn [sy_db sy_tasks] in *.
  change (jobs_ok db' (l1 ++ in_place t pc' ++ l2)).
  destruct (tk_pc t) as [|snap|todo outcome|outcome] eqn:Ep;
    [by eapply waiting_ok|by eapply acquired_ok|by eapply working_ok|by eapply finishing_ok].
Qed.

Lemma reachable_jobs_ok s : reachable s -> sys_jobs_ok s.
Proof.
  induction 1 as [items media|s s' _ IH Hs|s s' _ IH Hs].
  - split; cbn; [apply map_Forall_empty|apply map_Forall_empty|by intros ? ? ? ?%not_elem_of_nil].
  - by eapply task_step_ok.
  - by eapply call_step_ok.
Qed.

(** ** Permits *)

Definition appended (s s' : System) : Prop :=
  exists ws, sy_tasks s' = sy_tasks s ++ ws /\ Forall (fun t => tk_pc t = Waiting) ws.

Lemma appended_none s s' : sy_tasks s' = sy_tasks s -> appended s s'.
Proof. intros E. exists []. by rewrite app_nil_r. Qed.

Lemma appended_one s s' id : sy_tasks s' = sy_tasks s ++ [ {| tk_job := id; tk_pc := Waiting |} ] -> appended s s'.
Proof. intros E. eexists. split; [exact E|]. by repeat constructor. Qed.

Lemma write_tasks {A} (w : Db -> result (A * Db) IngestError) s : sy_tasks (write w s).2 = sy_tasks s.
Proof. unfold write. by destruct (w (sy_db s)) as [[a db]|e]. Qed.

Lemma status_call_appended now id st error (guard : Job -> bool) s :
  appended s (db_bind (find_job id) (fun job => if guard job then write (update_job_status now id st error) else db_ret job) s).2.
Proof.
  apply appended_none. unfold db_bind. rewrite find_job_run. destruct (db_jobs (sy_db s) !! id) as [job|]; [|done].
  destruct (guard job); [apply write_tasks|done].
Qed.

Lemma enqueue_one_appended now force item_id uuid s : appended s (enqueue_one now force item_id uuid s).2.
Proof.
  unfold enqueue_one, db_bind, read, ok_or. destruct (db_items (sy_db s) !! item_id) as [item|]; [|by apply appended_none].
  cbn [db_ret]. destruct (latest_job_for_item item_id (sy_db s)) as [e|]; [destruct (_ && _)|];
    [by apply appended_none|..]; unfold write, spawn;
    destruct (create_analysis_job now uuid item_id item force (sy_db s)) as [[id job] db]; by eapply appended_one.
Qed.

Lemma enqueue_media_appended now uuid ids providers force s : appended s (enqueue_media now uuid ids providers force s).2.
Proof.
  unfold enqueue_media. case_bool_decide; [by apply appended_none|]. unfold db_bind at 1.
  pose proof (check_media_same ids s) as Hs.
  destruct (check_media ids s) as [[[]|e] s']; simpl in Hs; subst s'; [|by apply appended_none].
  unfold db_bind at 1, read. destruct (if force then None else _) as [e|]; [by apply appended_none|]. by eapply appended_one.
Qed.

Lemma call_step_appended s s' : call_step s s' -> appended s s'.
Proof.
  destruct 1 as [now force item_id uuid s|now uuid ids providers force s|now id s|now id s|now id s|now uuid id s|id s|s items media];
    [apply enqueue_one_appended|apply enqueue_media_appended|apply status_call_appended| |apply status_call_appended| | |by apply appended_none].
  - unfold resume, db_bind. rewrite find_job_run. destruct (db_jobs (sy_db s) !! id) as [job|] eqn:Ej; [|by apply appended_none].
    case_bool_decide; [|by apply appended_none]. unfold write.
    destruct (update_status_found now id Queued None _ _ Ej) as [[j db'] ->]. by eapply appended_one.
  - unfold retry. unfold db_bind at 1. rewrite find_job_run. destruct (db_jobs (sy_db s) !! id) as [job|]; [|by apply appended_none].
    destruct (job_targets id job) as [[|[i|i] [|]]|]; try apply enqueue_media_appended; [|by apply appended_none].
    pose proof (enqueue_one_appended now true i uuid s) as Hone. cbn [enqueue]. unfold db_bind, ok_or, db_ret, db_err.
    by destruct (enqueue_one now true i uuid s) as [[j|e] s'].
  - apply appended_none. unfold discard. by destruct (db_items (sy_db s) !! id).
Qed.

Lemma permits_mid db l1 t l2 :
  permits_held {| sy_db := db; sy_tasks := l1 ++ t :: l2 |} =
    (permits_held {| sy_db := db; sy_tasks := l1 ++ l2 |} + if holds_permit t then 1 else 0)%nat.
Proof.
  unfold permits_held. cbn [sy_tasks]. rewrite !List.filter_app, !length_app. cbn [List.filter].
  destruct (holds_permit t); simpl; lia.
Qed.

(** The order of a task's program points: the number of points before it has started, then
    what is left to do. *)
Definition before_start (t : Task) : nat := match tk_pc t with Waiting => 2 | Acquired _ => 1 | _ => 0 end.
Definition left_to_do (t : Task) : nat :=
  match tk_pc t with Working todo _ => 2 + length todo | Finishing _ => 1 | _ => 0 end.

Definition weight (f : Task -> nat) (s : System) : nat := sum_list_with f (sy_tasks s).

Lemma weight_mid f db l1 t l2 :
  weight f {| sy_db := db; sy_tasks := l1 ++ t :: l2 |} = (weight f {| sy_db := db; sy_tasks := l1 ++ l2 |} + f t)%nat.
Proof. unfold weight. cbn. rewrite !sum_list_with_app. simpl. lia. Qed.

(** Where a task is after its next statement. *)
Lemma advance_cases now run id pc db db' pc' :
  advance now run id pc db = (db', pc') ->
  match pc with
  | Waiting => pc' = None \/ exists job, pc' = Some (Acquired job)
  | Acquired _ => pc' = None \/ (exists todo outcome, pc' = Some (Working todo outcome)) \/ exists o, pc' = Some (Finishing o)
  | Working [] _ => exists o, pc' = Some (Finishing o)
  | Working (_ :: todo) outcome => pc' = Some (Working todo outcome) \/ exists o, pc' = Some (Finishing o)
  | Finishing _ => pc' = None
  end.
Proof.
  destruct pc as [|snap|[|w todo] outcome|[[score n]|e]]; cbn [advance]; repeat case_match; intros; simplify_eq; eauto 6.
Qed.

Lemma task_step_permits s s' : (permits_held s <= 2)%nat -> task_step s s' -> (permits_held s' <= 2)%nat.
Proof.
  intros Hp Hstep. destruct Hstep as [now run l1 t l2 db db' pc' Hg _ Ha].
  apply advance_cases in Ha. rewrite permits_mid in Hp, Hg.
  assert (Hn : forall n db0, permits_held {| sy_db := db0; sy_tasks := l1 ++ l2 |} = n ->
                permits_held {| sy_db := db'; sy_tasks := l1 ++ l2 |} = n) by done.
  specialize (Hn _ db eq_refl). destruct pc' as [pc'|]; cbn [app].
  - rewrite permits_mid, Hn. unfold holds_permit in *. cbn [tk_pc].
    destruct (tk_pc t) as [|snap|todo outcome|outcome]; cbn in *.
    + specialize (Hg eq_refl). destruct pc'; lia.
    + destruct pc'; lia.
    + destruct pc'; lia.
    + done.
  - rewrite Hn. lia.
Qed.

Lemma reachable_permits s : reachable s -> (permits_held s <= 2)%nat.
Proof.
  induction 1 as [items media|s s' _ IH Hs|s s' _ IH Hs]; [cbn; lia|by eapply task_step_permits|].
  apply call_step_appended in Hs as (ws & E & Hw). unfold permits_held in *. rewrite E, List.filter_app.
  assert (E' : List.filter holds_permit ws = []).
  { clear - Hw. induction Hw as [|t ws Ht _ IH]; [done|]. cbn. unfold holds_permit at 1. by rewrite Ht. }
  by rewrite E', app_nil_r.
Qed.

(** C32.  The tables of the analysis queue stay well formed under every interleaving of
    calls and tasks.  At most two tasks hold a permit; every job's plan decodes to either
    exactly one staged item, which exists and is the item its row references, or to one or
    more media rows; a queued job always has a task that will run it, and a running job a
    task that is running it. *)
Theorem jobs_well_formed s :
  reachable s ->
  (permits_held s <= 2)%nat /\
  map_Forall (fun _ job => job_typed (db_items (sy_db s)) job) (db_jobs (sy_db s)) /\
  map_Forall (job_manned (sy_tasks s)) (db_jobs (sy_db s)).
Proof.
  intros Hr. pose proof (reachable_jobs_ok s Hr) as [Ht Hm _]. split_and!; [by apply reachable_permits|done|done].
Qed.

(** ** Draining *)

(** On every schedule of the tasks, [P] holds after finitely many steps. *)
Inductive eventually (P : System -> Prop) (s : System) : Prop :=
| eventually_now : P s -> eventually P s
| eventually_later :
    (exists s', task_step s s') -> (forall s', task_step s s' -> eventually P s') -> eventually P s.

Lemma task_step_weight s s' :
  task_step s s' ->
  (weight before_start s' < weight before_start s)%nat \/
  (weight before_start s' = weight before_start s /\ weight left_to_do s' < weight left_to_do s)%nat.
Proof.
  destruct 1 as [now run l1 t l2 db db' pc' _ _ Ha]. apply advance_cases in Ha.
  rewrite !(weight_mid _ db). assert (Hn : forall f, weight f {| sy_db := db'; sy_tasks := l1 ++ l2 |} =
    weight f {| sy_db := db; sy_tasks := l1 ++ l2 |}) by done.
  destruct pc' as [pc'|]; cbn [app]; rewrite ?(weight_mid _ db'), !Hn; unfold before_start, left_to_do; cbn [tk_pc];
    destruct (tk_pc t) as [|snap|[|w todo] outcome|outcome];
    repeat match goal with
    | H : _ \/ _ |- _ => destruct H
    | H : exists _, _ |- _ => destruct H
    end; simplify_eq; simpl; lia.
Qed.

Lemma media_ids targets : forallb is_media targets = true -> targets = Media <$> (target_id <$> targets).
Proof.
  induction targets as [|[id|id] targets IH]; [done|done|]. cbn. intros H. by rewrite <- IH.
Qed.

(** A run exists for every job that can start. *)
Lemma run_exists targets :
  forallb is_media targets = true \/ (exists id, targets = [DropItem id]) -> exists run, run_of targets run.
Proof.
  intros [Hm|[id ->]].
  - rewrite (media_ids targets Hm). eexists. exact (media_stops _ [] 0 []).
  - eexists. exact (item_stops id 0 0 0 []).
Qed.

#[local] Instance waiting_dec t : Decision (tk_pc t = Waiting).
Proof. destruct (tk_pc t); [by left|by right..]. Defined.

Lemma task_progress s : sy_tasks s <> [] -> exists s', task_step s s'.
Proof.
  destruct s as [db tasks]. cbn. intros Hne.
  assert (Hgo : forall l1 t l2, tasks = l1 ++ t :: l2 ->
    (tk_pc t = Waiting -> (permits_held {| sy_db := db; sy_tasks := tasks |} < 2)%nat) ->
    exists s', task_step {| sy_db := db; sy_tasks := tasks |} s').
  { intros l1 t l2 -> Hg.
    assert (Hrun : exists run, forall job targets, tk_pc t = Acquired job -> job_targets (tk_job t) job = Ok targets ->
      forallb is_media targets = true \/ (exists id, targets = [DropItem id]) -> run_of targets run).
    { destruct (tk_pc t) as [|snap| |]; try (by exists {| run_writes := []; run_outcome := Err [] |}).
      destruct (job_targets (tk_job t) snap) as [targets|] eqn:Et;
        [|exists {| run_writes := []; run_outcome := Err [] |}; by intros job targets [= <-]; rewrite Et].
      destruct (decide (forallb is_media targets = true)) as [Hm|Hm].
      - destruct (run_exists targets (or_introl Hm)) as [run Hr]. exists run. intros job ts [= <-]. rewrite Et. by intros [= <-].
      - destruct targets as [|[id|id] [|]];
          try (exists {| run_writes := []; run_outcome := Err [] |}; intros job ts [= <-]; rewrite Et;
               intros [= <-] [?|[? ?]]; done).
        exists {| run_writes := take 0 (item_writes id 0 0); run_outcome := Err [] |}.
        intros job ts [= <-]. rewrite Et. intros [= <-] _. apply item_stops. }
    destruct Hrun as [run Hrun]. destruct (advance 0 run (tk_job t) (tk_pc t) db) as [db' pc'] eqn:Ea.
    eexists. by eapply task_advances. }
  destruct (decide (Forall (fun t => tk_pc t = Waiting) tasks)) as [Hall|Hsome].
  - destruct tasks as [|t l2]; [done|]. apply (Hgo [] t l2 eq_refl). intros _. unfold permits_held. cbn [sy_tasks].
    assert (E : List.filter holds_permit (t :: l2) = []).
    { clear - Hall. induction Hall as [|u l Hu _ IH]; [done|]. cbn. unfold holds_permit at 1. by rewrite Hu. }
    rewrite E. simpl. lia.
  - apply not_Forall_Exists in Hsome; [|apply _].
    apply Exists_exists in Hsome as (t & Hin & Hpc). apply list_elem_of_split in Hin as (l1 & l2 & E).
    apply (Hgo l1 t l2 E). done.
Qed.

(** C33.  The analysis queue always drains.  From every reachable state, once callers
    leave it alone, whatever order the tasks run in and whatever the analyses find, after
    finitely many steps no task is left and no job is queued or running: each has
    completed, failed or been cancelled, or is still paused. *)
Theorem jobs_drain s :
  reachable s ->
  eventually (fun s' => sy_tasks s' = [] /\
    map_Forall (fun _ job => j_status job = Paused \/ is_resolved (j_status job) = true) (db_jobs (sy_db s'))) s.
Proof.
  intros Hr. remember (weight before_start s) as n eqn:En. remember (weight left_to_do s) as m eqn:Em.
  revert m s Hr En Em. induction n as [n IHn] using lt_wf_ind. intros m.
  induction m as [m IHm] using lt_wf_ind. intros s Hr En Em.
  destruct (decide (sy_tasks s = [])) as [E|Hne].
  - apply eventually_now. split; [done|]. pose proof (ok_manned _ _ (reachable_jobs_ok s Hr)) as Hm. rewrite E in Hm.
    intros id job Hj. destruct (Hm id job Hj) as [Hq Hrun].
    destruct (j_status job); [|by left|by right..|];
      [destruct (Hrun eq_refl) as (t & Ht & _)|destruct (Hq eq_refl) as (t & Ht & _)]; by apply not_elem_of_nil in Ht.
  - apply eventually_later; [by apply task_progress|]. intros s' Hstep.
    assert (Hr' : reachable s') by (by eapply reach_task). subst n m.
    destruct (task_step_weight _ _ Hstep) as [Hlt|[Heq Hlt]]; [by eapply IHn|].
    by eapply IHm.
Qed.

(** ** Concrete runs *)

(** The only task makes its next step. *)
Definition solo (run : Run) (s : System) : System :=
  match sy_tasks s with
  | [t] =>
      let '(db, pc) := advance 0 run (tk_job t) (tk_pc t) (sy_db s) in
      {| sy_db := db; sy_tasks := in_place t pc |}
  | _ => s
  end.

Lemma solo_step run s t :
  sy_tasks s = [t] ->
  (forall job targets, tk_pc t = Acquired job -> job_targets (tk_job t) job = Ok targets -> run_of targets run) ->
  task_step s (solo run s).
Proof.
  destruct s as [db tasks]. cbn. intros -> Hrun. unfold solo. cbn.
  destruct (advance 0 run (tk_job t) (tk_pc t) db) as [db' pc'] eqn:Ea.
  rewrite <- (app_nil_r (in_place t pc')). apply (task_advances 0 run [] t [] db db' pc'); [|by intros job targets E1 E2 _; eapply Hrun|done].
  intros Hw. unfold permits_held, holds_permit. cbn. rewrite Hw. simpl. lia.
Qed.

Definition demo_item : Item := {| i_status := Received; i_revision := 1; i_analysis_job_id := None; i_error := None |}.

Definition demo_run : Run :=
  {| run_writes := item_writes (lit "item") 100 0; run_outcome := Ok (100, 0%nat) |}.

Definition demo_queued : System :=
  (enqueue_one 0 false (lit "item") (lit "job") (initial {[ lit "item" := demo_item ]} ∅)).2.

Lemma demo_queued_reachable : reachable demo_queued.
Proof. eapply reach_call; [apply reach_initial|]. apply call_enqueue. by split. Qed.

#[local] Ltac solo_reach :=
  eapply reach_task; [|eapply solo_step; [vm_compute; reflexivity|]];
  [|intros job targets; vm_compute; intros; simplify_eq; first [done|exact (item_completes (lit "item") 100 0 ltac:(lia))]].

Lemma jobs_well_formed_witness :
  reachable demo_queued /\ map_Forall (job_manned (sy_tasks demo_queued)) (db_jobs (sy_db demo_queued)).
Proof.
  split; [apply demo_queued_reachable|].
  exact (proj2 (proj2 (jobs_well_formed demo_queued demo_queued_reachable))).
Defined.

Lemma jobs_drain_witness : reachable demo_queued /\ eventually (fun s' => sy_tasks s' = [] /\
    map_Forall (fun _ job => j_status job = Paused \/ is_resolved (j_status job) = true) (db_jobs (sy_db s'))) demo_queued.
Proof. split; [apply demo_queued_reachable|]. exact (jobs_drain demo_queued demo_queued_reachable). Defined.

Definition demo_status (s : System) : option JobStatus := j_status <$> db_jobs (sy_db s) !! lit "job".

(** Cancelling a job that is being analysed is undone when the analysis finishes. *)
Example cancelled_job_completes : exists s s',
  reachable s /\ demo_status s = Some Cancelled /\
  reachable s' /\ demo_status s' = Some Completed /\ s' = Nat.iter 10 (solo demo_run) s.
Proof.
  exists (cancel 0 (lit "job") (solo demo_run (solo demo_run demo_queued))).2. eexists.
  assert (Hs : reachable (cancel 0 (lit "job") (solo demo_run (solo demo_run demo_queued))).2).
  { eapply reach_call; [|apply call_cancel]. do 2 solo_reach. apply demo_queued_reachable. }
  split; [done|]. split; [by vm_compute|]. split; [|split; [|reflexivity]; by vm_compute].
  cbn [Nat.iter nat_rect]. do 10 solo_reach. done.
Qed.

(** The second of two tasks makes its next step. *)
Definition second (run : Run) (s : System) : System :=
  match sy_tasks s with
  | [u; t] =>
      let '(db, pc) := advance 0 run (tk_job t) (tk_pc t) (sy_db s) in
      {| sy_db := db; sy_tasks := u :: in_place t pc |}
  | _ => s
  end.

Lemma second_step run s u t :
  sy_tasks s = [u; t] ->
  (forall job targets, tk_pc t = Acquired job -> job_targets (tk_job t) job = Ok targets -> run_of targets run) ->
  task_step s (second run s).
Proof.
  destruct s as [db tasks]. cbn. intros -> Hrun. unfold second. cbn.
  destruct (advance 0 run (tk_job t) (tk_pc t) db) as [db' pc'] eqn:Ea.
  rewrite <- (app_nil_r (in_place t pc')). change (u :: in_place t pc' ++ []) with ([u] ++ in_place t pc' ++ []).
  apply (task_advances 0 run [u] t [] db db' pc'); [|by intros job targets E1 E2 _; eapply Hrun|done].
  intros Hw. assert (Ht : holds_permit t = false) by (unfold holds_permit; by rewrite Hw).
  unfold permits_held. cbn [sy_tasks app List.filter]. rewrite Ht. destruct (holds_permit u); simpl; lia.
Qed.

(** Pausing a running job does not stop its task, so resuming it starts a second one. *)
Example resumed_job_runs_twice : exists s t u,
  reachable s /\ sy_tasks s = [t; u] /\ tk_job t = lit "job" /\ tk_job u = lit "job" /\ active t /\ active u.
Proof.
  exists (second demo_run (second demo_run
    (resume 0 (lit "job") (pause 0 (lit "job") (solo demo_run (solo demo_run demo_queued))).2).2)).
  eexists _, _. split; [|split; [by vm_compute|done]].
  do 2 (eapply reach_task; [|eapply second_step; [vm_compute; reflexivity|]];
    [|intros job targets; vm_compute; intros; simplify_eq; first [done|exact (item_completes (lit "item") 100 0 ltac:(lia))]]).
  eapply reach_call; [|apply call_resume]. eapply reach_call; [|apply call_pause].
  do 2 solo_reach. apply demo_queued_reachable.
Qed.
