(* ===== verification/MetadataTypes.v ===== *)
(** * Provider metadata

    The data of [src/crates/integrations/metadata/src/types/] that providers return and
    the server scores and applies, with the names and ids of the providers
    ([MetadataProvider] of [src/crates/models/src/shared/enums.rs], [id] of each client)
    and the identifiers of editions ([editions.rs]).  Confidences are [f32]: [SpecFloat]
    at precision 24 with exponent bound 128. *)

From stdpp Require Import base list strings sets.
From Stdlib Require Import ZArith Lia SpecFloat.
From S2P Require Import Prelude Float64.

#[local] Open Scope Z_scope.
#[local] Open Scope coppice_scope.

(** ** binary32 *)

Abbreviation f32 := spec_float.

Definition prec32 : Z := 24.
Definition emax32 : Z := 128.

Definition f32_zero : f32 := S754_zero false.
Definition f32_one : f32 := S754_finite false 8388608 (-23).

Definition f32_of_Z (z : Z) : f32 := binary_normalize prec32 emax32 z 0 false.

Definition fadd32 : f32 -> f32 -> f32 := SFadd prec32 emax32.
Definition fmul32 : f32 -> f32 -> f32 := SFmul prec32 emax32.

(** A decimal literal is the rounded quotient; both parts are small enough to be exact. *)
Definition f32_lit (n d : Z) : f32 := SFdiv prec32 emax32 (f32_of_Z n) (f32_of_Z d).
Definition f64_lit (n d : Z) : f64 := fdiv (f64_of_Z n) (f64_of_Z d).

(** [f64 as f32]. *)
Definition f32_of_f64 (x : f64) : f32 :=
  match x with
  | S754_finite s m e => binary_round prec32 emax32 s m e
  | _ => x
  end.

(** [min] and [max] of floats: NaN loses against a number. *)
Definition fmin (x y : spec_float) : spec_float :=
  if is_nan x then y else if is_nan y then x else if flt y x then y else x.

Definition fmax (x y : spec_float) : spec_float :=
  if is_nan x then y else if is_nan y then x else if flt x y then y else x.

(** *** No operation of the scorers makes a NaN *)

Lemma binary_round_aux_not_nan pr em s m e l : 0 <= m -> is_nan (binary_round_aux pr em s m e l) = false.
Proof.
  intros Hm. unfold binary_round_aux.
  pose proof (shr_fexp_nonneg pr em m e l Hm) as H1. destruct (shr_fexp pr em m e l) as [mrs e']. cbn [fst] in H1.
  destruct (round_nearest_even_bounds (shr_m mrs) (loc_of_shr_record mrs)) as [B _].
  pose proof (shr_fexp_nonneg pr em (round_nearest_even (shr_m mrs) (loc_of_shr_record mrs)) e' loc_Exact ltac:(lia)) as H2.
  destruct (shr_fexp pr em (round_nearest_even _ _) e' loc_Exact) as [mrs' e'']. cbn [fst] in H2.
  destruct (shr_m mrs') as [|p|p]; [done| |lia]. by destruct (_ <=? _).
Qed.

Lemma binary_round_not_nan pr em s m e : is_nan (binary_round pr em s m e) = false.
Proof. unfold binary_round. destruct (shl_align _ _ _). by apply binary_round_aux_not_nan. Qed.

Lemma fadd32_not_nan x y : is_nan x = false -> is_finite y = true -> is_nan (fadd32 x y) = false.
Proof.
  destruct x as [sx|sx| |sx mx ex], y as [sy|sy| |sy my ey]; try done; intros _ _; unfold fadd32, SFadd.
  - by destruct sx, sy.
  - unfold binary_normalize. destruct (cond_Zopp _ _ + _); [done|apply binary_round_not_nan..].
Qed.

Lemma fmul32_not_nan x y :
  is_nan x = false -> match y with S754_finite _ _ _ => true | _ => false end = true -> is_nan (fmul32 x y) = false.
Proof.
  destruct x as [sx|sx| |sx mx ex], y as [sy|sy| |sy my ey]; try done; intros _ _. by apply binary_round_aux_not_nan.
Qed.

Lemma f32_of_f64_not_nan x : is_nan x = false -> is_nan (f32_of_f64 x) = false.
Proof. destruct x; [done..|]. intros _. apply binary_round_not_nan. Qed.

Lemma fclamp_unit32 x : is_nan x = false ->
  fle f32_zero (fclamp x f32_zero f32_one) = true /\ fle (fclamp x f32_zero f32_one) f32_one = true.
Proof. by apply fclamp_bounds. Qed.

Lemma fmin_one x : is_nan (fmin x f32_one) = false /\ fle (fmin x f32_one) f32_one = true.
Proof.
  unfold fmin. destruct (is_nan x) eqn:Hx; [done|]. cbn [is_nan f32_one].
  destruct (flt f32_one x) eqn:E; [done|]. split; [done|]. by apply flt_false.
Qed.

(** ** What providers return *)

Inductive PublicationStatus := Ongoing | Completed | Hiatus | Cancelled | Upcoming.

(** The derived [Debug]. *)
Definition publication_status_debug (s : PublicationStatus) : str :=
  lit match s with
      | Ongoing => "Ongoing" | Completed => "Completed" | Hiatus => "Hiatus"
      | Cancelled => "Cancelled" | Upcoming => "Upcoming"
      end.

Record ExternalMediaMetadata := {
  em_provider : str;
  em_external_id : str;
  em_title : option str;
  em_summary : option str;
  em_page_count : option Z;
  em_series_name : option str;
  em_series_external_id : option str;
  em_number : option f32;
  em_day : option Z;
  em_month : option Z;
  em_year : option Z;
  em_genres : option (list str);
  em_tags : option (list str);
  em_isbn : option str;
  em_isbn_13 : option str;
  em_writers : option (list str);
  em_artists : option (list str);
  em_colorists : option (list str);
  em_letterers : option (list str);
  em_cover_artists : option (list str);
  em_cover_url : option str;
  em_provider_url : option str;
  em_subtitle : option str;
  em_narrators : option (list str);
  em_publisher : option str;
  em_runtime_minutes : option Z;
  em_has_ebook : option bool;
  em_has_audiobook : option bool;
  em_audio_seconds : option Z;
  em_abridged : option bool;
  em_language : option str;
}.

Definition default_media_metadata : ExternalMediaMetadata :=
  Build_ExternalMediaMetadata [] [] None None None None None None None None None None None None None None None None
    None None None None None None None None None None None None None.

Record ExternalSeriesMetadata := {
  es_provider : str;
  es_external_id : str;
  es_title : str;
  es_alternative_titles : list str;
  es_summary : option str;
  es_status : option PublicationStatus;
  es_year : option Z;
  es_end_year : option Z;
  es_genres : option (list str);
  es_tags : option (list str);
  es_age_rating : option str;
  es_authors : option (list str);
  es_artists : option (list str);
  es_publisher : option str;
  es_cover_url : option str;
  es_volume_count : option Z;
}.

Definition default_series_metadata : ExternalSeriesMetadata :=
  Build_ExternalSeriesMetadata [] [] [] [] None None None None None None None None None None None None.

Inductive ExternalMetadata :=
| MediaMeta (m : ExternalMediaMetadata)
| SeriesMeta (s : ExternalSeriesMetadata).

Record ConfidenceFactor := { cf_factor : str; cf_weight : f32; cf_matched : bool }.

Record MatchCandidate := {
  mc_provider : str;
  mc_external_id : str;
  mc_metadata : ExternalMetadata;
  mc_confidence : f32;
  mc_confidence_factors : list ConfidenceFactor;
}.

Record SearchQuery := {
  sq_title : str;
  sq_author : option str;
  sq_isbn : option str;
  sq_year : option Z;
  sq_limit : option Z;
  sq_number : option f32;
}.

Record SearchOutcome := { so_candidates : list MatchCandidate; so_requested : Z }.

(** [SearchOutcome::failed], saturating at zero. *)
Definition failed (o : SearchOutcome) : Z := Z.max 0 (so_requested o - Z.of_nat (length (so_candidates o))).

(** ** Providers *)

Inductive MetadataProvider :=
| Hardcover | ComicVine | AniList | Mal | MangaDex | MangaUpdates | OpenLibrary | GoogleBooks | Metron | Audible.

Definition all_providers : list MetadataProvider :=
  [Hardcover; ComicVine; AniList; Mal; MangaDex; MangaUpdates; OpenLibrary; GoogleBooks; Metron; Audible].

Lemma all_providers_complete p : p ∈ all_providers.
Proof. destruct p; unfold all_providers; set_solver. Qed.

(** [Display], in screaming snake case. *)
Definition provider_type_to_string (p : MetadataProvider) : str :=
  lit match p with
      | Hardcover => "HARDCOVER" | ComicVine => "COMIC_VINE" | AniList => "ANI_LIST" | Mal => "MAL"
      | MangaDex => "MANGA_DEX" | MangaUpdates => "MANGA_UPDATES" | OpenLibrary => "OPEN_LIBRARY"
      | GoogleBooks => "GOOGLE_BOOKS" | Metron => "METRON" | Audible => "AUDIBLE"
      end.

(** [MetadataProvider::id] of the client of each provider, which names the provider of a
    candidate. *)
Definition client_id (p : MetadataProvider) : str :=
  lit match p with
      | Hardcover => "hardcover" | ComicVine => "comic_vine" | AniList => "anilist" | Mal => "mal"
      | MangaDex => "mangadex" | MangaUpdates => "mangaupdates" | OpenLibrary => "openlibrary"
      | GoogleBooks => "googlebooks" | Metron => "metron" | Audible => "audible"
      end.

(** ** Edition identifiers *)

Inductive EditionIdentifier := Isbn (v : str) | Asin (v : str) | OpenLibraryWork (v : str).

Definition to_ascii_uppercase (b : Z) : Z := if is_ascii_lower b then b - 32 else b.

(** [rsplit('/').next()]: what follows the last slash. *)
Definition after_last_slash (s : str) : str := default [] (last (split_on (Z.eqb 47) s)).

Definition normalized (e : EditionIdentifier) : option EditionIdentifier :=
  match e with
  | Isbn v =>
      let digits := to_ascii_uppercase <$> List.filter is_ascii_alphanumeric v in
      then_some ((str_len digits =? 10) || (str_len digits =? 13)) (Isbn digits)
  | Asin v =>
      let v := to_ascii_uppercase <$> trim v in
      then_some (negb (bool_decide (v = []))) (Asin v)
  | OpenLibraryWork v =>
      let v := to_ascii_uppercase <$> trim (after_last_slash v) in
      then_some (negb (bool_decide (v = []))) (OpenLibraryWork v)
  end.
