(* ===== verification/MetadataScoring.v ===== *)
(** * Scoring provider matches

    Models [src/crates/integrations/metadata/src/scoring.rs] ([MatchScorer]: how well a
    search result answers a query) and [scoring/cross_provider.rs]
    ([CrossProviderScorer]: which results of different providers are the same work).
    The similarity measures of the [strsim] crate and the Unicode tables are classes of
    functions.  Confidences are [f32]. *)

From stdpp Require Import base list strings sorting sets.
From Stdlib Require Import ZArith Lia SpecFloat.
From S2P Require Import Prelude Float64 MetadataTypes.

#[local] Open Scope Z_scope.
#[local] Open Scope coppice_scope.

Class Strsim := {
  jaro_winkler : str -> str -> f64;
  sorensen_dice : str -> str -> f64;
}.

(** [char::to_lowercase] and [char::is_alphanumeric]. *)
Class UnicodeChars := {
  char_to_lowercase : Z -> str;
  char_is_alphanumeric : Z -> bool;
}.

(** ** Token overlap *)

Section overlap.
Context `{Lowercase} `{Strsim}.

Definition STOP_WORDS : list str :=
  lit <$> ["a"; "an"; "the"; "of"; "and"; "for"; "in"; "to"; "or"; "is"; "at"; "by"; "on"; "with"; "from"]%string.

(** Ampersand, colon, comma, hyphen, quotes and brackets. *)
Definition is_title_punctuation (c : Z) : bool := bool_decide (c ∈ [38; 58; 44; 45; 39; 34; 40; 41; 91; 93]).

Definition tokenize (title : str) : list str :=
  let cleaned := map (fun c => if is_title_punctuation c then 32 else c) title in
  List.filter (fun w => negb (bool_decide (w = [])) && negb (bool_decide (w ∈ STOP_WORDS)))
    (to_lowercase <$> split_whitespace cleaned).

Definition tokens_match (a b : str) : bool := bool_decide (a = b) || flt (f64_lit 90 100) (jaro_winkler a b).

Definition hits (from against : list str) (matches : str -> str -> bool) : Z :=
  Z.of_nat (length (List.filter (fun t => existsb (matches t) against) from)).

Definition coverage (hit total : Z) : f64 := fdiv (f64_of_Z hit) (f64_of_Z total).

Definition token_overlap_score (query_title candidate_title : str) : f64 :=
  let q_tokens := tokenize query_title in
  let c_tokens := tokenize candidate_title in
  if bool_decide (q_tokens = []) || bool_decide (c_tokens = []) then f64_zero
  else
    let candidate_coverage :=
      coverage (hits c_tokens q_tokens (fun ct qt => tokens_match qt ct)) (Z.of_nat (length c_tokens)) in
    let query_coverage := coverage (hits q_tokens c_tokens tokens_match) (Z.of_nat (length q_tokens)) in
    fadd (fmul (f64_lit 7 10) candidate_coverage) (fmul (f64_lit 3 10) query_coverage).

Definition title_similarity : str -> str -> f64 := token_overlap_score.

End overlap.

Definition normalize_isbn (isbn : str) : str :=
  to_ascii_uppercase <$> List.filter (fun c => is_ascii_digit c || (c =? 120) || (c =? 88)) isbn.

(** ** [MatchScorer] *)

Definition ISBN_FLOOR : f32 := f32_lit 98 100.
Definition EXACT_TITLE_FLOOR : f32 := f32_lit 90 100.
Definition ALT_TITLE_FLOOR : f32 := f32_lit 80 100.
Definition FUZZY_CEILING : f32 := f32_lit 75 100.
Definition FUZZY_THRESHOLD : f64 := f64_lit 70 100.
Definition AUTHOR_BONUS : f32 := f32_lit 5 100.

Definition factor (name : string) (weight : f32) (matched : bool) : ConfidenceFactor :=
  {| cf_factor := lit name; cf_weight := weight; cf_matched := matched |}.

Definition extract_candidate_fields (metadata : ExternalMetadata) : option str * list str * list str :=
  match metadata with
  | SeriesMeta s => (Some (es_title s), es_alternative_titles s, default [] (es_authors s))
  | MediaMeta m => (em_title m, [], default [] (em_writers m))
  end.

Definition check_isbn_match (query_isbn : str) (metadata : ExternalMetadata) : bool :=
  let query := normalize_isbn query_isbn in
  if bool_decide (query = []) then false
  else
    match metadata with
    | MediaMeta m =>
        existsb (fun isbn => bool_decide (normalize_isbn isbn = query)) (omap id [em_isbn m; em_isbn_13 m])
    | SeriesMeta _ => false
    end.

Section scorer.
Context `{Lowercase} `{Strsim}.

Definition names_match (a b : str) : bool :=
  eq_ignore_ascii_case a b || flt (f64_lit 90 100) (jaro_winkler (to_lowercase a) (to_lowercase b)).

(** The linear scale from the threshold to the ceiling. *)
Definition fuzzy_scale (sim : f64) : f32 :=
  if fle FUZZY_THRESHOLD sim then
    fmul32 FUZZY_CEILING
      (f32_of_f64 (fdiv (fsub sim FUZZY_THRESHOLD) (fsub f64_one FUZZY_THRESHOLD)))
  else f32_zero.

Definition score_title (query_title candidate_title : str) (alt_titles : list str) : f32 * list ConfidenceFactor :=
  if eq_ignore_ascii_case query_title candidate_title then
    (EXACT_TITLE_FLOOR, [factor "title_exact" EXACT_TITLE_FLOOR true])
  else if existsb (eq_ignore_ascii_case query_title) alt_titles then
    (ALT_TITLE_FLOOR, [factor "title_alt" ALT_TITLE_FLOOR true])
  else
    let q_lower := to_lowercase query_title in
    let c_lower := to_lowercase candidate_title in
    let string_sim := fmax (sorensen_dice q_lower c_lower) (jaro_winkler q_lower c_lower) in
    let token_sim := token_overlap_score query_title candidate_title in
    let fuzzy_score := fuzzy_scale (fmax string_sim token_sim) in
    let name := if flt string_sim token_sim then "title_token_overlap"%string else "title_fuzzy"%string in
    (fuzzy_score, [factor name fuzzy_score (flt f32_zero fuzzy_score)]).

Definition scored (candidate : MatchCandidate) (confidence : f32) (factors : list ConfidenceFactor) : MatchCandidate :=
  {| mc_provider := mc_provider candidate; mc_external_id := mc_external_id candidate; mc_metadata := mc_metadata candidate;
     mc_confidence := confidence; mc_confidence_factors := factors |}.

Definition score_candidate (query : SearchQuery) (candidate : MatchCandidate) : MatchCandidate :=
  let '(candidate_title, candidate_alt_titles, candidate_authors) := extract_candidate_fields (mc_metadata candidate) in
  let author_matched := is_some_and (sq_author query) (fun qa => existsb (names_match qa) candidate_authors) in
  let factors :=
    match sq_author query with Some _ => [factor "author" AUTHOR_BONUS author_matched] | None => [] end in
  let author_bonus := if author_matched then AUTHOR_BONUS else f32_zero in
  let by_title factors :=
    let '(title_score, title_factors) :=
      score_title (sq_title query) (default [] candidate_title) candidate_alt_titles in
    scored candidate (fmin (fadd32 title_score author_bonus) f32_one) (factors ++ title_factors) in
  match sq_isbn query with
  | Some isbn =>
      let matched := check_isbn_match isbn (mc_metadata candidate) in
      let factors := factors ++ [factor "isbn" ISBN_FLOOR matched] in
      if matched then scored candidate (fmin (fadd32 ISBN_FLOOR author_bonus) f32_one) factors else by_title factors
  | None => by_title factors
  end.

(** [b.confidence.partial_cmp(&a.confidence).unwrap_or(Equal)] is not [Greater]. *)
Definition confidence_before (a b : MatchCandidate) : Prop :=
  default Eq (SFcompare (mc_confidence b) (mc_confidence a)) <> Gt.

#[export] Instance confidence_before_dec a b : Decision (confidence_before a b).
Proof. unfold confidence_before. apply _. Defined.

Definition score_and_sort (query : SearchQuery) (candidates : list MatchCandidate) : list MatchCandidate :=
  merge_sort confidence_before (score_candidate query <$> candidates).

End scorer.

(** ** [CrossProviderScorer] *)

Definition AUTO_MATCH_THRESHOLD : f32 := f32_lit 90 100.
Definition TITLE_WEIGHT : f32 := f32_lit 75 100.
Definition ALTERNATIVE_TITLE_WEIGHT : f32 := f32_lit 70 100.
Definition YEAR_MATCH_WEIGHT : f32 := f32_lit 8 100.
Definition AUTHOR_MATCH_WEIGHT : f32 := f32_lit 10 100.
Definition PUBLISHER_MATCH_WEIGHT : f32 := f32_lit 4 100.
Definition FORMAT_MATCH_WEIGHT : f32 := f32_lit 3 100.
Definition MIN_TITLE_SIMILARITY : f64 := f64_lit 65 100.
Definition AUTHOR_SIMILARITY_THRESHOLD : f64 := f64_lit 92 100.
Definition PUBLISHER_SIMILARITY_THRESHOLD : f64 := f64_lit 92 100.

Record CrossProviderCandidate := {
  xc_candidate : MatchCandidate;
  xc_format : option str;
  xc_provider_url : option str;
}.

(** [CrossProviderCandidate::new]. *)
Definition cross_candidate (candidate : MatchCandidate) : CrossProviderCandidate :=
  {| xc_candidate := candidate; xc_format := None;
     xc_provider_url := match mc_metadata candidate with MediaMeta m => em_provider_url m | SeriesMeta _ => None end |}.

Record CrossProviderScore := { xs_confidence : f32; xs_confidence_factors : list ConfidenceFactor }.

Definition is_auto_match (s : CrossProviderScore) : bool := fle AUTO_MATCH_THRESHOLD (xs_confidence s).

Record ProviderReference := { pr_provider : str; pr_external_id : str; pr_url : option str }.

Record MergedWorkCandidate := {
  mw_candidates : list CrossProviderCandidate;
  mw_confidence : f32;
  mw_confidence_factors : list ConfidenceFactor;
  mw_external_references : list ProviderReference;
}.

Record Evidence := {
  ev_title : option str;
  ev_alternative_titles : list str;
  ev_year : option Z;
  ev_authors : list str;
  ev_publisher : option str;
}.

Definition evidence (metadata : ExternalMetadata) : Evidence :=
  match metadata with
  | SeriesMeta s =>
      {| ev_title := Some (es_title s); ev_alternative_titles := es_alternative_titles s; ev_year := es_year s;
         ev_authors := default [] (es_authors s); ev_publisher := es_publisher s |}
  | MediaMeta m =>
      {| ev_title := em_title m; ev_alternative_titles := []; ev_year := em_year m;
         ev_authors := default [] (em_writers m); ev_publisher := em_publisher m |}
  end.

Definition is_series (metadata : ExternalMetadata) : bool :=
  match metadata with SeriesMeta _ => true | MediaMeta _ => false end.

Record NormalizedTitle := { nt_value : str; nt_alternative : bool }.
Record TitleEvidence := { te_similarity : f64; te_alternative : bool }.

Section cross.
Context `{Lowercase} `{Strsim} `{UnicodeChars}.

(** One character of the loop, on the text so far and whether a space is pending. *)
Definition normalize_char (st : str * bool) (c : Z) : str * bool :=
  let '(normalized, pending_space) := st in
  if char_is_alphanumeric c then
    ((if pending_space && negb (bool_decide (normalized = [])) then normalized ++ [32] else normalized) ++ [c], false)
  else (normalized, true).

Definition normalize_text (value : str) : str :=
  (fold_left normalize_char (value ≫= char_to_lowercase) ([], false)).1.

Definition normalized_people (people : list str) : list str :=
  List.filter (fun person => negb (bool_decide (person = [])))
    ((fun person => str_join [32] (merge_sort str_ord (split_whitespace (normalize_text person)))) <$> people).

Definition cross_names_match (left right : str) : bool :=
  bool_decide (left = right) || fle AUTHOR_SIMILARITY_THRESHOLD (jaro_winkler left right).

Definition values_match (left right : str) (threshold : f64) : option bool :=
  let left := normalize_text left in
  let right := normalize_text right in
  if bool_decide (left = []) || bool_decide (right = []) then None
  else Some (bool_decide (left = right) || fle threshold (jaro_winkler left right)).

Definition normalize_format (format : str) : str :=
  let normalized := normalize_text format in
  let named name := bool_decide (normalized = lit name) in
  if named "comic book" || named "comic books" || named "graphic novel" || named "graphic novels" then lit "comic"
  else if named "manga series" then lit "manga"
  else if named "light novels" then lit "light novel"
  else if named "web novels" then lit "web novel"
  else if named "oneshot" then lit "one shot"
  else normalized.

Definition push_normalized_title (titles : list NormalizedTitle) (value : str) (alternative : bool) : list NormalizedTitle :=
  let value := normalize_text value in
  if bool_decide (value = []) then titles else titles ++ [ {| nt_value := value; nt_alternative := alternative |} ].

Definition normalized_titles (e : Evidence) : list NormalizedTitle :=
  let titles := match ev_title e with Some title => push_normalized_title [] title false | None => [] end in
  fold_left (fun titles alternative => push_normalized_title titles alternative true) (ev_alternative_titles e) titles.

Definition pair_title_similarity (left right : str) : f64 :=
  if bool_decide (left = right) then f64_one
  else
    fmax (fmax (fmax (sorensen_dice left right) (jaro_winkler left right)) (title_similarity left right))
      (title_similarity right left).

Definition better_title (best : TitleEvidence) (pair : NormalizedTitle * NormalizedTitle) : TitleEvidence :=
  let similarity := pair_title_similarity (nt_value pair.1) (nt_value pair.2) in
  let alternative := nt_alternative pair.1 || nt_alternative pair.2 in
  if flt (te_similarity best) similarity
     || (feq similarity (te_similarity best) && te_alternative best && negb alternative)
  then {| te_similarity := similarity; te_alternative := alternative |}
  else best.

Definition title_evidence (left right : Evidence) : TitleEvidence :=
  fold_left better_title
    (normalized_titles left ≫= fun l => (fun r => (l, r)) <$> normalized_titles right)
    {| te_similarity := f64_zero; te_alternative := false |}.

(** The evidence beside the title: a contribution and its factor, or nothing when one side
    does not say. *)
Definition year_evidence (left right : Evidence) : option (f32 * bool) :=
  match ev_year left, ev_year right with
  | Some l, Some r =>
      let diff := Z.abs (l - r) in
      Some (if diff <=? 1 then (YEAR_MATCH_WEIGHT, true)
            else if diff <=? 3 then (SFopp (f32_lit 3 100), false)
            else (SFopp (f32_lit 12 100), false))
  | _, _ => None
  end.

Definition author_evidence (left right : Evidence) : option (f32 * bool) :=
  let left_authors := normalized_people (ev_authors left) in
  let right_authors := normalized_people (ev_authors right) in
  if bool_decide (left_authors = []) || bool_decide (right_authors = []) then None
  else
    let matched := existsb (fun l => existsb (cross_names_match l) right_authors) left_authors in
    Some (if matched then AUTHOR_MATCH_WEIGHT else SFopp (f32_lit 8 100), matched).

Definition publisher_evidence (left right : Evidence) : option (f32 * bool) :=
  match ev_publisher left, ev_publisher right with
  | Some l, Some r =>
      (fun matched : bool => (if matched then PUBLISHER_MATCH_WEIGHT else SFopp (f32_lit 3 100), matched)) <$>
        values_match l r PUBLISHER_SIMILARITY_THRESHOLD
  | _, _ => None
  end.

Definition format_evidence (left right : CrossProviderCandidate) : option (f32 * bool) :=
  match xc_format left, xc_format right with
  | Some l, Some r =>
      let l := normalize_format l in
      let r := normalize_format r in
      if bool_decide (l = []) || bool_decide (r = []) then None
      else let matched := bool_decide (l = r) in Some (if matched then FORMAT_MATCH_WEIGHT else SFopp (f32_lit 20 100), matched)
  | _, _ => None
  end.

(** [confidence += contribution; factors.push(..)] *)
Definition add_evidence (name : string) (found : option (f32 * bool)) (st : f32 * list ConfidenceFactor)
  : f32 * list ConfidenceFactor :=
  match found with
  | Some (contribution, matched) => (fadd32 st.1 contribution, st.2 ++ [factor name contribution matched])
  | None => st
  end.

Definition title_contribution (title : TitleEvidence) : f32 :=
  let weight :=
    if feq (te_similarity title) f64_one && te_alternative title then ALTERNATIVE_TITLE_WEIGHT else TITLE_WEIGHT in
  if fle MIN_TITLE_SIMILARITY (te_similarity title) then fmul32 weight (f32_of_f64 (te_similarity title)) else f32_zero.

Definition title_factor (title : TitleEvidence) : string :=
  if feq (te_similarity title) f64_one then
    if te_alternative title then "title_alternative" else "title_exact"
  else if te_alternative title then "title_alternative_similarity" else "title_similarity".

Definition same_provider (left right : CrossProviderCandidate) : bool :=
  eq_ignore_ascii_case (trim (mc_provider (xc_candidate left))) (trim (mc_provider (xc_candidate right))).

Definition score_pair (left right : CrossProviderCandidate) : CrossProviderScore :=
  if same_provider left right then
    {| xs_confidence := f32_zero; xs_confidence_factors := [factor "provider" f32_zero false] |}
  else if negb (Bool.eqb (is_series (mc_metadata (xc_candidate left))) (is_series (mc_metadata (xc_candidate right)))) then
    {| xs_confidence := f32_zero;
       xs_confidence_factors := [factor "provider" f32_zero true; factor "metadata_kind" f32_zero false] |}
  else
    let left_evidence := evidence (mc_metadata (xc_candidate left)) in
    let right_evidence := evidence (mc_metadata (xc_candidate right)) in
    let title := title_evidence left_evidence right_evidence in
    let contribution := title_contribution title in
    let '(confidence, factors) :=
      add_evidence "format" (format_evidence left right)
        (add_evidence "publisher" (publisher_evidence left_evidence right_evidence)
           (add_evidence "author" (author_evidence left_evidence right_evidence)
              (add_evidence "year" (year_evidence left_evidence right_evidence)
                 (contribution,
                  [factor "provider" f32_zero true;
                   factor (title_factor title) contribution (fle MIN_TITLE_SIMILARITY (te_similarity title))])))) in
    {| xs_confidence := fclamp confidence f32_zero f32_one; xs_confidence_factors := factors |}.

(** *** Ranking *)

Definition then_with (first second : comparison) : comparison := match first with Eq => second | _ => first end.

Definition str_cmp (s t : str) : comparison := if str_le s t then if str_le t s then Eq else Lt else Gt.

Definition option_cmp (s t : option str) : comparison :=
  match s, t with
  | None, None => Eq | None, Some _ => Lt | Some _, None => Gt
  | Some s, Some t => str_cmp s t
  end.

(** [partial_cmp(..).unwrap_or(Ordering::Equal)] *)
Definition float_cmp (x y : f32) : comparison := default Eq (SFcompare x y).

Definition rank_cmp (left right : CrossProviderCandidate * CrossProviderScore) : comparison :=
  then_with (float_cmp (xs_confidence right.2) (xs_confidence left.2))
    (then_with (str_cmp (mc_provider (xc_candidate left.1)) (mc_provider (xc_candidate right.1)))
       (str_cmp (mc_external_id (xc_candidate left.1)) (mc_external_id (xc_candidate right.1)))).

Definition not_after {A} (cmp : A -> A -> comparison) (a b : A) : Prop := cmp a b <> Gt.

#[export] Instance not_after_dec {A} (cmp : A -> A -> comparison) a b : Decision (not_after cmp a b).
Proof. unfold not_after. apply _. Defined.

Definition rank_candidates (reference : CrossProviderCandidate) (candidates : list CrossProviderCandidate)
  : list (CrossProviderCandidate * CrossProviderScore) :=
  merge_sort (not_after rank_cmp) ((fun c => (c, score_pair reference c)) <$> candidates).

(** *** Grouping *)

Definition metadata_title (metadata : ExternalMetadata) : str :=
  match metadata with SeriesMeta s => es_title s | MediaMeta m => default [] (em_title m) end.

Definition candidate_order (left right : CrossProviderCandidate) : comparison :=
  let l := xc_candidate left in
  let r := xc_candidate right in
  then_with (str_cmp (mc_provider l) (mc_provider r))
    (then_with (str_cmp (mc_external_id l) (mc_external_id r))
       (then_with (str_cmp (metadata_title (mc_metadata l)) (metadata_title (mc_metadata r)))
          (then_with (option_cmp (xc_format left) (xc_format right))
             (option_cmp (xc_provider_url left) (xc_provider_url right))))).

(** Whether a candidate matches every member of a group, and its weakest pair. *)
Inductive GroupMatch := Incomplete | Complete (weakest : option CrossProviderScore).

(** Indexing panics ([None]) outside the vector. *)
Fixpoint group_match (cs : list CrossProviderCandidate) (candidate : CrossProviderCandidate) (group : list nat)
    (weakest : option CrossProviderScore) : option GroupMatch :=
  match group with
  | [] => Some (Complete weakest)
  | i :: group =>
      member ← cs !! i;
      let pair := score_pair candidate member in
      if negb (is_auto_match pair) then Some Incomplete
      else
        group_match cs candidate group
          (if is_none_or weakest (fun w => flt (xs_confidence pair) (xs_confidence w)) then Some pair else weakest)
  end.

Fixpoint best_group (cs : list CrossProviderCandidate) (candidate : CrossProviderCandidate) (groups : list (list nat))
    (index : nat) (best : option (nat * CrossProviderScore)) : option (option (nat * CrossProviderScore)) :=
  match groups with
  | [] => Some best
  | group :: groups =>
      outcome ← group_match cs candidate group None;
      best_group cs candidate groups (S index)
        match outcome with
        | Incomplete | Complete None => best
        | Complete (Some weakest) =>
            if is_none_or best (fun b => flt (xs_confidence b.2) (xs_confidence weakest)) then Some (index, weakest) else best
        end
  end.

Definition place_candidate (cs : list CrossProviderCandidate) (groups : list (list nat)) (i : nat) : option (list (list nat)) :=
  candidate ← cs !! i;
  best ← best_group cs candidate groups 0 None;
  match best with
  | Some (index, _) => group ← groups !! index; Some (<[index := group ++ [i]]> groups)
  | None => Some (groups ++ [[i]])
  end.

Fixpoint place_all (cs : list CrossProviderCandidate) (groups : list (list nat)) (indices : list nat)
  : option (list (list nat)) :=
  match indices with
  | [] => Some groups
  | i :: indices => groups ← place_candidate cs groups i; place_all cs groups indices
  end.

Fixpoint ordered_pairs {A} (l : list A) : list (A * A) :=
  match l with [] => [] | x :: l => ((fun y => (x, y)) <$> l) ++ ordered_pairs l end.

Fixpoint weakest_pair (slots : list (option CrossProviderCandidate)) (pairs : list (nat * nat))
    (weakest : option CrossProviderScore) : option (option CrossProviderScore) :=
  match pairs with
  | [] => Some weakest
  | (l, r) :: pairs =>
      left ← slots !! l ≫= id;
      right ← slots !! r ≫= id;
      let score := score_pair left right in
      weakest_pair slots pairs
        (if is_none_or weakest (fun w => flt (xs_confidence score) (xs_confidence w)) then Some score else weakest)
  end.

Definition no_score : CrossProviderScore := {| xs_confidence := f32_zero; xs_confidence_factors := [] |}.

Definition weakest_group_score (slots : list (option CrossProviderCandidate)) (group : list nat) : option CrossProviderScore :=
  default no_score <$> weakest_pair slots (ordered_pairs group) None.

(** [candidates[index].take().expect(..)] for each member. *)
Fixpoint take_members (slots : list (option CrossProviderCandidate)) (group : list nat)
  : option (list CrossProviderCandidate * list (option CrossProviderCandidate)) :=
  match group with
  | [] => Some ([], slots)
  | i :: group =>
      candidate ← slots !! i ≫= id;
      '(members, slots) ← take_members (<[i := None]> slots) group;
      Some (candidate :: members, slots)
  end.

Definition is_decimal_id (external_id : str) : bool :=
  negb (bool_decide (external_id = [])) && forallb is_ascii_digit (as_bytes external_id).

Definition canonical_provider_url (provider external_id : str) : option str :=
  let named name := eq_ignore_ascii_case provider (lit name) in
  if bool_decide (external_id = []) || negb (forallb (fun b => is_ascii_alphanumeric b || (b =? 45)) (as_bytes external_id))
  then None
  else if named "anilist" && is_decimal_id external_id then Some (lit "https://anilist.co/manga/" ++ external_id)
  else if named "mal" && is_decimal_id external_id then Some (lit "https://myanimelist.net/manga/" ++ external_id)
  else if named "mangadex" then Some (lit "https://mangadex.org/title/" ++ external_id)
  else if named "mangaupdates" && is_decimal_id external_id then
    Some (lit "https://www.mangaupdates.com/series.html?id=" ++ external_id)
  else if named "metron" && is_decimal_id external_id then Some (lit "https://metron.cloud/series/" ++ external_id ++ lit "/")
  else None.

Definition provider_reference (c : CrossProviderCandidate) : ProviderReference :=
  let provider := mc_provider (xc_candidate c) in
  let external_id := mc_external_id (xc_candidate c) in
  let given := xc_provider_url c ≫= fun url => then_some (negb (bool_decide (trim url = []))) url in
  {| pr_provider := provider; pr_external_id := external_id;
     pr_url := or_else given (canonical_provider_url provider external_id) |}.

Definition reference_cmp (left right : ProviderReference) : comparison :=
  then_with (str_cmp (pr_provider left) (pr_provider right)) (str_cmp (pr_external_id left) (pr_external_id right)).

Definition same_reference (left right : ProviderReference) : bool :=
  bool_decide (pr_provider left = pr_provider right) && bool_decide (pr_external_id left = pr_external_id right).

(** [Vec::dedup_by]: an element equal to the last one kept is dropped. *)
Fixpoint dedup_from {A} (same : A -> A -> bool) (kept : A) (l : list A) : list A :=
  match l with
  | [] => []
  | x :: l => if same x kept then dedup_from same kept l else x :: dedup_from same x l
  end.

Definition dedup_by {A} (same : A -> A -> bool) (l : list A) : list A :=
  match l with [] => [] | x :: l => x :: dedup_from same x l end.

Definition external_references (members : list CrossProviderCandidate) : list ProviderReference :=
  dedup_by same_reference (merge_sort (not_after reference_cmp) (provider_reference <$> members)).

Fixpoint collect_groups (slots : list (option CrossProviderCandidate)) (groups : list (list nat))
  : option (list MergedWorkCandidate) :=
  match groups with
  | [] => Some []
  | group :: groups =>
      score ← weakest_group_score slots group;
      '(members, slots) ← take_members slots group;
      merged ← collect_groups slots groups;
      Some ({| mw_candidates := members; mw_confidence := xs_confidence score;
               mw_confidence_factors := xs_confidence_factors score;
               mw_external_references := external_references members |} :: merged)
  end.

Definition work_order (left right : MergedWorkCandidate) : comparison :=
  match head (mw_external_references left), head (mw_external_references right) with
  | None, None => Eq | None, Some _ => Lt | Some _, None => Gt
  | Some l, Some r => reference_cmp l r
  end.

Definition merged_cmp (left right : MergedWorkCandidate) : comparison :=
  then_with (float_cmp (mw_confidence right) (mw_confidence left)) (work_order left right).

(** [None] would be a panic. *)
Definition merge_same_work_candidates (candidates : list CrossProviderCandidate) : option (list MergedWorkCandidate) :=
  let cs := merge_sort (not_after candidate_order) candidates in
  groups ← place_all cs [] (seq 0 (length cs));
  merged ← collect_groups (Some <$> cs) groups;
  Some (merge_sort (not_after merged_cmp) merged).

End cross.

(** ** Search scores *)

Section scorer_facts.
Context `{Lowercase} `{Strsim}.

Lemma score_candidate_confidence query c :
  exists title_score bonus, (bonus = AUTHOR_BONUS \/ bonus = f32_zero) /\
    title_score = (if is_some_and (sq_isbn query) (fun isbn => check_isbn_match isbn (mc_metadata c)) then ISBN_FLOOR
                   else let '(title, alts, _) := extract_candidate_fields (mc_metadata c) in
                        (score_title (sq_title query) (default [] title) alts).1) /\
    mc_confidence (score_candidate query c) = fmin (fadd32 title_score bonus) f32_one.
Proof.
  unfold score_candidate. destruct (extract_candidate_fields (mc_metadata c)) as [[title alts] authors].
  set (matched := is_some_and (sq_author query) _).
  eexists _, (if matched then AUTHOR_BONUS else f32_zero). split; [destruct matched; auto|]. split; [done|].
  destruct (sq_isbn query) as [isbn|]; cbn [is_some_and].
  - destruct (check_isbn_match isbn (mc_metadata c)); [done|]. by destruct (score_title _ _ alts).
  - by destruct (score_title _ _ alts).
Qed.

(** A floor, with or without the author's bonus. *)
Lemma floor_kept floor bonus :
  floor = ISBN_FLOOR \/ floor = EXACT_TITLE_FLOOR \/ floor = ALT_TITLE_FLOOR ->
  bonus = AUTHOR_BONUS \/ bonus = f32_zero ->
  fle floor (fmin (fadd32 floor bonus) f32_one) = true.
Proof. by intros [->|[->| ->]] [->| ->]. Qed.

Lemma confidence_not_nan query c :
  is_nan (mc_confidence (score_candidate query c)) = false /\
  fle (mc_confidence (score_candidate query c)) f32_one = true.
Proof. destruct (score_candidate_confidence query c) as (t & b & _ & _ & ->). apply fmin_one. Qed.

#[local] Instance confidence_before_total : Total confidence_before.
Proof.
  intros a b. unfold confidence_before.
  destruct (is_nan (mc_confidence a)) eqn:Ha; [left; rewrite SFcompare_nan; auto; done|].
  destruct (is_nan (mc_confidence b)) eqn:Hb; [left; rewrite SFcompare_nan; auto; done|].
  pose proof (SFcompare_spec _ _ Ha Hb) as H1. pose proof (SFcompare_spec _ _ Hb Ha) as H2.
  destruct (SFcompare (mc_confidence b) (mc_confidence a)) as [[]|], (SFcompare (mc_confidence a) (mc_confidence b)) as [[]|];
    cbn [default from_option id]; auto; try done.
  by destruct (key_lt_asym _ _ H1).
Qed.

Lemma confidence_before_fle a b :
  is_nan (mc_confidence a) = false -> is_nan (mc_confidence b) = false ->
  confidence_before a b -> fle (mc_confidence b) (mc_confidence a) = true.
Proof.
  intros Ha Hb Hab. unfold confidence_before in Hab. pose proof (SFcompare_spec _ _ Hb Ha) as Hc.
  apply fle_iff. split_and!; [done..|].
  destruct (SFcompare (mc_confidence b) (mc_confidence a)) as [[]|]; cbn [default from_option id] in Hab; naive_solver.
Qed.

(** Search results are scored as documented and returned best first.  Whatever the
    similarity measures return, a confidence is a number of at most one; an ISBN that
    agrees up to separators gives at least 0.98, an equal title at least 0.90, an equal
    alternative title at least 0.80, with or without the author's bonus; the results are
    those of the search, in descending order of confidence. *)
Theorem match_scores_exact query candidates :
  let out := score_and_sort query candidates in
  out ≡ₚ score_candidate query <$> candidates /\
  Sorted (fun a b => fle (mc_confidence b) (mc_confidence a) = true) out /\
  forall c, c ∈ candidates ->
    let s := score_candidate query c in
    let '(title, alts, _) := extract_candidate_fields (mc_metadata c) in
    (mc_provider s, mc_external_id s, mc_metadata s) = (mc_provider c, mc_external_id c, mc_metadata c) /\
    is_nan (mc_confidence s) = false /\ fle (mc_confidence s) f32_one = true /\
    (is_some_and (sq_isbn query) (fun isbn => check_isbn_match isbn (mc_metadata c)) = true ->
       fle ISBN_FLOOR (mc_confidence s) = true) /\
    (is_some_and (sq_isbn query) (fun isbn => check_isbn_match isbn (mc_metadata c)) = false ->
       (eq_ignore_ascii_case (sq_title query) (default [] title) = true -> fle EXACT_TITLE_FLOOR (mc_confidence s) = true) /\
       (existsb (eq_ignore_ascii_case (sq_title query)) alts = true -> fle ALT_TITLE_FLOOR (mc_confidence s) = true)).
Proof.
  intros out. assert (Hperm : out ≡ₚ score_candidate query <$> candidates) by apply merge_sort_Permutation.
  split; [done|]. split.
  - assert (Hs : Sorted confidence_before out) by (apply Sorted_merge_sort; apply _).
    assert (Hn : Forall (fun c => is_nan (mc_confidence c) = false) out).
    { rewrite Hperm. apply Forall_fmap, Forall_true. intros c. apply confidence_not_nan. }
    clear Hperm. induction Hs as [|c l Hs IH Hh]; [constructor|]. inversion Hn; subst. constructor; [by apply IH|].
    inversion Hh as [|b l' Hb]; subst; constructor. inversion H4; subst. by apply confidence_before_fle.
  - intros c _. destruct (score_candidate_confidence query c) as (t & b & Hb & Ht & Hc).
    destruct (confidence_not_nan query c) as [Hn Hle].
    destruct (extract_candidate_fields (mc_metadata c)) as [[title alts] authors] eqn:Ee.
    split_and!; try done.
    + unfold score_candidate. rewrite Ee. destruct (sq_isbn query) as [isbn|]; [destruct (check_isbn_match _ _)|];
        [done|by destruct (score_title _ _ alts)..].
    + intros Hi. rewrite Hi in Ht. rewrite Hc, Ht. apply floor_kept; auto.
    + intros Hi. rewrite Hi in Ht. rewrite Hc. unfold score_title in Ht. split; intros Hm; rewrite ?Hm in Ht.
      * rewrite Ht. apply floor_kept; auto.
      * destruct (eq_ignore_ascii_case _ _); rewrite Ht; destruct Hb as [->| ->]; done.
Qed.

End scorer_facts.

(** ** Pair scores *)

Section pair_facts.
Context `{Lowercase} `{Strsim} `{UnicodeChars}.

(** The similarity kept is never NaN, whatever the measures return. *)
Lemma title_evidence_not_nan l r : is_nan (te_similarity (title_evidence l r)) = false.
Proof.
  unfold title_evidence.
  assert (Hinv : forall pairs best, is_nan (te_similarity best) = false ->
            is_nan (te_similarity (fold_left better_title pairs best)) = false).
  { induction pairs as [|p pairs IH]; intros best Hb; [done|]. apply IH. unfold better_title. 
    destruct (_ || _) eqn:E; [|done]. cbn [te_similarity]. apply orb_true_iff in E as [E|E].
    - by apply flt_iff in E as (_ & ? & _).
    - apply andb_true_iff in E as [[E _]%andb_true_iff _]. destruct (is_nan (pair_title_similarity _ _)) eqn:En; [|done].
      unfold feq, SFeqb in E. rewrite SFcompare_nan in E by auto. done. }
  by apply Hinv.
Qed.

Lemma title_contribution_not_nan t : is_nan (te_similarity t) = false -> is_nan (title_contribution t) = false.
Proof.
  intros Ht. unfold title_contribution. destruct (fle _ _); [|done].
  set (w := if feq _ _ && _ then ALTERNATIVE_TITLE_WEIGHT else TITLE_WEIGHT).
  assert (Hw : exists m e, w = S754_finite false m e) by (subst w; destruct (_ && _); eexists _, _; reflexivity).
  destruct Hw as (m & e & ->). pose proof (f32_of_f64_not_nan _ Ht) as Hx. revert Hx.
  destruct (f32_of_f64 (te_similarity t)); try done. intros _. by apply binary_round_aux_not_nan.
Qed.

Definition weights (found : option (f32 * bool)) (possible : list (f32 * bool)) : Prop :=
  match found with Some w => w ∈ possible | None => True end.

Definition year_weights : list (f32 * bool) :=
  [(YEAR_MATCH_WEIGHT, true); (SFopp (f32_lit 3 100), false); (SFopp (f32_lit 12 100), false)].
Definition author_weights : list (f32 * bool) := [(AUTHOR_MATCH_WEIGHT, true); (SFopp (f32_lit 8 100), false)].
Definition publisher_weights : list (f32 * bool) := [(PUBLISHER_MATCH_WEIGHT, true); (SFopp (f32_lit 3 100), false)].
Definition format_weights : list (f32 * bool) := [(FORMAT_MATCH_WEIGHT, true); (SFopp (f32_lit 20 100), false)].

Lemma evidence_weights left right l r :
  weights (year_evidence l r) year_weights /\ weights (author_evidence l r) author_weights /\
  weights (publisher_evidence l r) publisher_weights /\ weights (format_evidence left right) format_weights.
Proof.
  split_and!.
  - unfold year_evidence. destruct (ev_year l), (ev_year r); try exact I. cbn [weights].
    destruct (_ <=? 1); [left|]. destruct (_ <=? 3); [right; left|right; right; left].
  - unfold author_evidence. destruct (_ || _); [exact I|]. cbn [weights].
    destruct (existsb _ _); [left|right; left].
  - unfold publisher_evidence. destruct (ev_publisher l), (ev_publisher r); try exact I.
    destruct (values_match _ _ _) as [[]|]; [left|right; left|exact I].
  - unfold format_evidence. destruct (xc_format left), (xc_format right); try exact I. destruct (_ || _); [exact I|].
    cbn [weights]. case_bool_decide; [left|right; left].
Qed.

(** The sum of a title contribution and evidence. *)
Definition total (title : f32) (year author publisher format : option (f32 * bool)) : f32 :=
  let add st (found : option (f32 * bool)) := match found with Some w => fadd32 st w.1 | None => st end in
  add (add (add (add title year) author) publisher) format.

Lemma score_pair_confidence left right :
  same_provider left right = false ->
  is_series (mc_metadata (xc_candidate left)) = is_series (mc_metadata (xc_candidate right)) ->
  let l := evidence (mc_metadata (xc_candidate left)) in
  let r := evidence (mc_metadata (xc_candidate right)) in
  xs_confidence (score_pair left right) =
    fclamp (total (title_contribution (title_evidence l r)) (year_evidence l r) (author_evidence l r)
              (publisher_evidence l r) (format_evidence left right)) f32_zero f32_one.
Proof.
  intros Hp Hk l r. unfold score_pair. rewrite Hp, Hk, Bool.eqb_reflx. cbn [negb]. fold l r.
  unfold add_evidence, total.
  destruct (year_evidence l r) as [[]|], (author_evidence l r) as [[]|], (publisher_evidence l r) as [[]|],
    (format_evidence left right) as [[]|]; done.
Qed.

Lemma total_not_nan title y a p f :
  is_nan title = false -> weights y year_weights -> weights a author_weights -> weights p publisher_weights ->
  weights f format_weights -> is_nan (total title y a p f) = false.
Proof.
  intros Ht Hy Ha Hp Hf. unfold total.
  assert (Hstep : forall st found possible, is_nan st = false -> Forall (fun w => is_finite w.1 = true) possible ->
    weights found possible -> is_nan match found with Some w => fadd32 st w.1 | None => st end = false).
  { intros st [w|] possible Hst Hall Hw; [|done]. apply fadd32_not_nan; [done|].
    by apply (proj1 (Forall_forall _ _) Hall). }
  apply (Hstep _ f format_weights); [|vm_compute; by repeat constructor|done].
  apply (Hstep _ p publisher_weights); [|vm_compute; by repeat constructor|done].
  apply (Hstep _ a author_weights); [|vm_compute; by repeat constructor|done].
  apply (Hstep _ y year_weights); [done|vm_compute; by repeat constructor|done].
Qed.

(** Without a matching title the rest is never enough: every combination. *)
Definition options {A} (l : list A) : list (option A) := None :: (Some <$> l).

Lemma no_title_no_match :
  forallb (fun y => forallb (fun a => forallb (fun p => forallb (fun f =>
     negb (fle AUTO_MATCH_THRESHOLD (fclamp (total f32_zero y a p f) f32_zero f32_one)))
     (options format_weights)) (options publisher_weights)) (options author_weights)) (options year_weights) = true.
Proof. vm_compute. reflexivity. Qed.

Lemma weights_options found possible : weights found possible -> found ∈ options possible.
Proof.
  unfold options. destruct found as [w|]; cbn [weights]; intros Hw; [right|left].
  by apply list_elem_of_fmap_2.
Qed.

Lemma no_title_confidence y a p f :
  weights y year_weights -> weights a author_weights -> weights p publisher_weights -> weights f format_weights ->
  fle AUTO_MATCH_THRESHOLD (fclamp (total f32_zero y a p f) f32_zero f32_one) = false.
Proof.
  intros Hy%weights_options Ha%weights_options Hp%weights_options Hf%weights_options.
  rewrite list_elem_of_In in Hy, Ha, Hp, Hf. pose proof no_title_no_match as Hall.
  rewrite forallb_forall in Hall. specialize (Hall _ Hy). rewrite forallb_forall in Hall. specialize (Hall _ Ha).
  rewrite forallb_forall in Hall. specialize (Hall _ Hp). rewrite forallb_forall in Hall. specialize (Hall _ Hf).
  by apply negb_true_iff in Hall.
Qed.

(** Scores of pairs are sound.  Whatever the similarity measures return, a confidence
    lies between zero and one.  Two records reach the automatic threshold only when they
    come from different providers, are of the same kind, and their best pair of titles,
    alternatives included, is at least 0.65 similar: year, author, publisher and format
    together are never enough. *)
Theorem score_pair_sound left right :
  let s := score_pair left right in
  fle f32_zero (xs_confidence s) = true /\ fle (xs_confidence s) f32_one = true /\
  (is_auto_match s = true ->
     same_provider left right = false /\
     is_series (mc_metadata (xc_candidate left)) = is_series (mc_metadata (xc_candidate right)) /\
     fle MIN_TITLE_SIMILARITY
       (te_similarity (title_evidence (evidence (mc_metadata (xc_candidate left)))
                         (evidence (mc_metadata (xc_candidate right))))) = true).
Proof.
  intros s. destruct (same_provider left right) eqn:Ep.
  { subst s. unfold score_pair. rewrite Ep. done. }
  destruct (decide (is_series (mc_metadata (xc_candidate left)) = is_series (mc_metadata (xc_candidate right)))) as [Ek|Ek].
  2: { subst s. unfold score_pair. rewrite Ep. apply Bool.eqb_false_iff in Ek. rewrite Ek. done. }
  set (l := evidence (mc_metadata (xc_candidate left))) in *. set (r := evidence (mc_metadata (xc_candidate right))) in *.
  pose proof (score_pair_confidence left right Ep Ek) as Es. fold s l r in Es. cbv zeta in Es.
  destruct (evidence_weights left right l r) as (Hy & Ha & Hp & Hf).
  pose proof (total_not_nan _ _ _ _ _ (title_contribution_not_nan _ (title_evidence_not_nan l r)) Hy Ha Hp Hf) as Hn.
  destruct (fclamp_unit32 _ Hn) as [Hlo Hhi]. rewrite Es. split_and!; try done.
  unfold is_auto_match. rewrite Es. intros Hm. split_and!; [done..|].
  destruct (fle MIN_TITLE_SIMILARITY _) eqn:E; [done|]. unfold title_contribution in Hm. rewrite E in Hm.
  by rewrite (no_title_confidence _ _ _ _ Hy Ha Hp Hf) in Hm.
Qed.

End pair_facts.

(** ** Orders *)

Lemma str_cmp_opp s t : str_cmp t s = CompOpp (str_cmp s t).
Proof.
  unfold str_cmp. destruct (str_le s t) eqn:E1, (str_le t s) eqn:E2; try done.
  destruct (str_le_total s t); congruence.
Qed.

Lemma option_cmp_opp s t : option_cmp t s = CompOpp (option_cmp s t).
Proof. destruct s, t; simpl; [apply str_cmp_opp|done..]. Qed.

Lemma float_cmp_opp x y : float_cmp y x = CompOpp (float_cmp x y).
Proof.
  unfold float_cmp.
  destruct (is_nan x) eqn:Hx; [rewrite !SFcompare_nan; auto; done|].
  destruct (is_nan y) eqn:Hy; [rewrite !SFcompare_nan; auto; done|].
  pose proof (SFcompare_spec _ _ Hx Hy) as H1. pose proof (SFcompare_spec _ _ Hy Hx) as H2.
  pose proof (key_lt_asym (fkey x) (fkey y)). pose proof (key_lt_irrefl (fkey x)).
  destruct (SFcompare x y) as [[]|], (SFcompare y x) as [[]|]; cbn [default from_option id CompOpp]; try done;
    try rewrite H1 in *; try rewrite H2 in *; tauto.
Qed.

Lemma then_with_opp a b : CompOpp (then_with a b) = then_with (CompOpp a) (CompOpp b).
Proof. by destruct a. Qed.

Lemma not_after_total {A} (cmp : A -> A -> comparison) :
  (forall a b, cmp b a = CompOpp (cmp a b)) -> Total (not_after cmp).
Proof. intros Hopp a b. unfold not_after. rewrite (Hopp a b). destruct (cmp a b); [left|left|right]; done. Qed.

Lemma reference_cmp_opp l r : reference_cmp r l = CompOpp (reference_cmp l r).
Proof. unfold reference_cmp. by rewrite then_with_opp, <- !str_cmp_opp. Qed.

Lemma work_order_opp l r : work_order r l = CompOpp (work_order l r).
Proof. unfold work_order. destruct (head _), (head _); try done. apply reference_cmp_opp. Qed.

Lemma merged_cmp_opp l r : merged_cmp r l = CompOpp (merged_cmp l r).
Proof. unfold merged_cmp. by rewrite then_with_opp, <- work_order_opp, <- float_cmp_opp. Qed.

Lemma str_cmp_spec s t :
  match str_cmp s t with Eq => s = t | Lt => str_le s t = true /\ s <> t | Gt => str_le t s = true /\ s <> t end.
Proof.
  unfold str_cmp. destruct (str_le s t) eqn:E1, (str_le t s) eqn:E2.
  - by apply str_le_antisymm.
  - split; [done|]. intros ->. congruence.
  - split; [done|]. intros ->. congruence.
  - destruct (str_le_total s t); congruence.
Qed.

Definition key (r : ProviderReference) : str * str := (pr_provider r, pr_external_id r).

Lemma reference_cmp_eq l r : reference_cmp l r = Eq <-> key l = key r.
Proof.
  unfold reference_cmp, key, then_with.
  pose proof (str_cmp_spec (pr_provider l) (pr_provider r)) as H1.
  pose proof (str_cmp_spec (pr_external_id l) (pr_external_id r)) as H2.
  destruct (str_cmp (pr_provider l) (pr_provider r)), (str_cmp (pr_external_id l) (pr_external_id r));
    rewrite pair_eq; split; try done; tauto.
Qed.

Lemma same_reference_iff l r : same_reference l r = true <-> key l = key r.
Proof. unfold same_reference, key. rewrite andb_true_iff, !bool_decide_eq_true, pair_eq. done. Qed.

Lemma str_cmp_lt_trans s t u : str_cmp s t = Lt -> str_cmp t u = Lt -> str_cmp s u = Lt.
Proof.
  intros H1 H2. pose proof (str_cmp_spec s t) as S1. pose proof (str_cmp_spec t u) as S2. rewrite H1 in S1. rewrite H2 in S2.
  destruct S1 as [L1 N1], S2 as [L2 N2]. pose proof (str_cmp_spec s u) as S3. destruct (str_cmp s u); [|done|].
  - subst. by destruct N1; apply str_le_antisymm.
  - destruct S3 as [L3 N3]. destruct N1. apply str_le_antisymm; [done|]. by apply str_le_trans with u.
Qed.

Lemma str_cmp_eq s t : str_cmp s t = Eq <-> s = t.
Proof.
  pose proof (str_cmp_spec s t) as S1. destruct (str_cmp s t); split; try done; tauto.
Qed.

#[local] Instance reference_lt_trans : Transitive (fun l r => reference_cmp l r = Lt).
Proof.
  intros a b c. unfold reference_cmp, then_with.
  destruct (str_cmp (pr_provider a) (pr_provider b)) eqn:E1, (str_cmp (pr_provider b) (pr_provider c)) eqn:E2; try done.
  - apply str_cmp_eq in E1 as ->. rewrite E2. apply str_cmp_lt_trans.
  - apply str_cmp_eq in E1 as ->. by rewrite E2.
  - apply str_cmp_eq in E2 as <-. by rewrite E1.
  - by rewrite (str_cmp_lt_trans _ _ _ E1 E2).
Qed.

#[local] Instance reference_not_after_trans : Transitive (not_after reference_cmp).
Proof.
  intros a b c H1 H2. unfold not_after in *.
  destruct (reference_cmp a b) eqn:E1; [| |done].
  - apply reference_cmp_eq in E1. unfold key in E1. injection E1 as E1 E1'. unfold reference_cmp. by rewrite E1, E1'.
  - destruct (reference_cmp b c) eqn:E2; [| |done].
    + apply reference_cmp_eq in E2. unfold key in E2. injection E2 as E2 E2'.
      unfold reference_cmp in *. by rewrite <- E2, <- E2', E1.
    + by rewrite (reference_lt_trans _ _ _ E1 E2).
Qed.

(** Removing the repetitions of a sorted list leaves a strictly sorted one. *)
Lemma dedup_from_sorted kept l :
  StronglySorted (not_after reference_cmp) (kept :: l) ->
  StronglySorted (fun a b => reference_cmp a b = Lt) (kept :: dedup_from same_reference kept l) /\
  forall k, k ∈ key <$> (kept :: dedup_from same_reference kept l) <-> k ∈ key <$> (kept :: l).
Proof.
  revert kept. induction l as [|x l IH]; intros kept Hs; simpl.
  - split; [repeat constructor|done].
  - inversion Hs as [|? ? Hs' Hall]; subst. inversion Hall as [|? ? Hx Hrest]; subst.
    destruct (same_reference x kept) eqn:E.
    + apply same_reference_iff in E. destruct (IH kept) as [Hsort Hkeys].
      { constructor; [by inversion Hs'|done]. }
      split; [done|]. intros k. rewrite Hkeys, !fmap_cons, !elem_of_cons, E. naive_solver.
    + destruct (IH x Hs') as [Hsort Hkeys]. split.
      * constructor; [done|]. assert (Hlt : reference_cmp kept x = Lt).
        { destruct (reference_cmp kept x) eqn:Ex; [|done|done]. apply reference_cmp_eq in Ex.
          by rewrite (proj2 (same_reference_iff x kept) (eq_sym Ex)) in E. }
        constructor; [done|]. inversion Hsort as [|? ? _ Hsx]; subst. eapply Forall_impl; [done|].
        intros y Hy. by apply (reference_lt_trans kept x y).
      * intros k. specialize (Hkeys k). rewrite !fmap_cons, !elem_of_cons in Hkeys. rewrite !fmap_cons, !elem_of_cons. tauto.
Qed.

Lemma external_references_exact members :
  StronglySorted (fun a b => reference_cmp a b = Lt) (external_references members) /\
  forall k, k ∈ key <$> external_references members <->
    k ∈ (fun c => (mc_provider (xc_candidate c), mc_external_id (xc_candidate c))) <$> members.
Proof.
  pose proof (not_after_total _ reference_cmp_opp).
  assert (E : (fun c => (mc_provider (xc_candidate c), mc_external_id (xc_candidate c))) <$> members =
              key <$> (provider_reference <$> members)) by (by rewrite <- list_fmap_compose).
  unfold external_references. set (refs := provider_reference <$> members) in *.
  assert (Hp : merge_sort (not_after reference_cmp) refs ≡ₚ refs) by apply merge_sort_Permutation.
  assert (Hs : StronglySorted (not_after reference_cmp) (merge_sort (not_after reference_cmp) refs))
    by (apply StronglySorted_merge_sort; apply _).
  rewrite E. assert (Hk : forall k, k ∈ key <$> refs <-> k ∈ key <$> merge_sort (not_after reference_cmp) refs)
    by (intros k; by rewrite Hp).
  setoid_rewrite Hk. clear Hk Hp. destruct (merge_sort _ refs) as [|x l]; [split; [constructor|done]|].
  by apply dedup_from_sorted.
Qed.

(** ** Groups *)

Section grouping.
Context `{Lowercase} `{Strsim} `{UnicodeChars}.

(** Whether the later of two candidates, given by their indices, matches the earlier. *)
Definition linked (cs : list CrossProviderCandidate) (verdict : bool) (i j : nat) : Prop :=
  exists ci cj, cs !! i = Some ci /\ cs !! j = Some cj /\ is_auto_match (score_pair cj ci) = verdict.

Record groups_ok (cs : list CrossProviderCandidate) (n : nat) (groups : list (list nat)) : Prop := {
  go_indices : concat groups ≡ₚ seq 0 n;
  go_nonempty : Forall (fun g => g <> []) groups;
  go_linked : Forall (ForallOrdPairs (linked cs true)) groups;
  go_separate : ForallOrdPairs (fun g h => exists i j, i ∈ g /\ head h = Some j /\ linked cs false i j) groups;
}.

Lemma group_match_spec cs n c g w :
  cs !! n = Some c -> Forall (fun i => (i < length cs)%nat) g ->
  exists o, group_match cs c g w = Some o /\
    match o with
    | Incomplete => exists i, i ∈ g /\ linked cs false i n
    | Complete w' => Forall (fun i => linked cs true i n) g /\ (w' = None -> g = [])
    end.
Proof.
  intros Hc Hg. revert w. induction Hg as [|i g Hi Hg IH]; intros w; cbn [group_match].
  { eexists. split; [done|]. by split. }
  destruct (lookup_lt_is_Some_2 cs i Hi) as [ci Hci]. rewrite Hci. cbn [mbind option_bind].
  destruct (is_auto_match (score_pair c ci)) eqn:Ea; cbn [negb].
  2: { eexists. split; [done|]. exists i. split; [left|]. by exists ci, c. }
  set (w' := if is_none_or w _ then Some (score_pair c ci) else w). destruct (IH w') as (o & Eo & Ho).
  exists o. split; [done|]. destruct o as [|w''].
  - destruct Ho as (k & Hk & Hl). exists k. split; [by right|done].
  - destruct Ho as [Hall Hnone]. split; [constructor; [by exists ci, c|done]|]. intros ->.
    specialize (Hnone eq_refl). subst g. cbn [group_match] in Eo. injection Eo as Eo. subst w'. destruct w as [w|]; [|done].
    cbn [is_none_or] in Eo. by destruct (flt _ _).
Qed.

Lemma best_group_spec cs n c groups index best :
  cs !! n = Some c -> Forall (Forall (fun i => (i < length cs)%nat)) groups -> Forall (fun g => g <> []) groups ->
  exists b, best_group cs c groups index best = Some b /\
    (b = None -> best = None /\ Forall (fun g => exists i, i ∈ g /\ linked cs false i n) groups) /\
    (forall k s, b = Some (k, s) -> best = Some (k, s) \/
       exists g, groups !! (k - index)%nat = Some g /\ (index <= k)%nat /\ Forall (fun i => linked cs true i n) g).
Proof.
  intros Hc Hv Hne. revert index best. induction Hv as [|g groups Hg Hv IH]; intros index best; cbn [best_group].
  { exists best. split; [done|]. split; [by split|]. intros k s ->. by left. }
  inversion Hne as [|? ? Hgne Hne']; subst. destruct (group_match_spec cs n c g None Hc Hg) as (o & -> & Ho). cbn [mbind option_bind].
  set (best' := match o with Incomplete | Complete None => best | Complete (Some weakest) => _ end).
  destruct (IH Hne' (S index) best') as (b & Eb & Hnone & Hsome). exists b. split; [done|].
  assert (Hshift : forall k s, b = Some (k, s) -> best' = Some (k, s) \/
     exists g', (g :: groups) !! (k - index)%nat = Some g' /\ (index <= k)%nat /\ Forall (fun i => linked cs true i n) g').
  { intros k s Hb. destruct (Hsome k s Hb) as [?|(g' & Hg' & Hk & Hl)]; [by left|]. right. exists g'.
    split; [|split; [lia|done]]. by replace (k - index)%nat with (S (k - S index)) by lia. }
  destruct o as [|[weakest|]]; subst best'.
  - split; [|done]. intros Hb. destruct (Hnone Hb). by split; [|constructor].
  - split.
    + intros Hb. destruct (Hnone Hb) as [Hbest _]. by destruct (is_none_or best _) eqn:E; [|subst best].
    + intros k s Hb. destruct (Hshift k s Hb) as [Hbest|?]; [|by right]. destruct (is_none_or best _); [|by left].
      injection Hbest as <- <-. right. exists g. rewrite Nat.sub_diag. split; [done|]. split; [done|]. apply Ho.
  - destruct Ho as [_ Ho]. by specialize (Ho eq_refl).
Qed.

Lemma FOP_snoc {A} (R : A -> A -> Prop) l x : ForallOrdPairs R l -> Forall (fun y => R y x) l -> ForallOrdPairs R (l ++ [x]).
Proof.
  induction 1 as [|y l Hy Hl IH]; intros Hx; simpl; [repeat constructor|]. inversion Hx; subst.
  constructor; [|by apply IH]. apply Forall_app. by split; [|constructor].
Qed.

Lemma FOP_replace {A} (R : A -> A -> Prop) l1 x x' l2 :
  (forall a, R a x -> R a x') -> (forall b, R x b -> R x' b) ->
  ForallOrdPairs R (l1 ++ x :: l2) -> ForallOrdPairs R (l1 ++ x' :: l2).
Proof.
  intros Hbefore Hafter. induction l1 as [|y l1 IH]; simpl; intros Hp; inversion Hp as [|? ? Hall Hrest]; subst; constructor.
  - eapply Forall_impl; [done|]. auto.
  - done.
  - apply Forall_app in Hall as [Ha Hb]. inversion Hb; subst. apply Forall_app. split; [done|]. by constructor; [apply Hbefore|].
  - by apply IH.
Qed.

Lemma groups_in_range cs n groups : groups_ok cs n groups -> (n <= length cs)%nat ->
  Forall (Forall (fun i => (i < length cs)%nat)) groups.
Proof.
  intros Hok Hn. apply Forall_concat. rewrite (go_indices _ _ _ Hok). apply Forall_seq. lia.
Qed.

Lemma place_candidate_ok cs n groups :
  groups_ok cs n groups -> (n < length cs)%nat ->
  exists groups', place_candidate cs groups n = Some groups' /\ groups_ok cs (S n) groups'.
Proof.
  intros Hok Hn. destruct (lookup_lt_is_Some_2 cs n Hn) as [c Hc]. unfold place_candidate. rewrite Hc. cbn [mbind option_bind].
  destruct (best_group_spec cs n c groups 0 None Hc (groups_in_range _ _ _ Hok ltac:(lia)) (go_nonempty _ _ _ Hok))
    as (b & -> & Hnone & Hsome). cbn [mbind option_bind]. destruct Hok as [Hi Hne Hl Hs]. destruct b as [[k s]|].
  - destruct (Hsome k s eq_refl) as [?|(g & Hg & _ & Hall)]; [done|]. rewrite Nat.sub_0_r in Hg. rewrite Hg. cbn [mbind option_bind].
    eexists. split; [done|]. destruct (list_elem_of_split_length _ _ _ Hg) as (l1 & l2 & -> & ->).
    rewrite insert_app_r_alt, Nat.sub_diag by lia. cbn [insert list_insert].
    apply Forall_app in Hne as [Hne1 Hne2], Hl as [Hl1 Hl2]. inversion Hne2; inversion Hl2; subst. constructor.
    + rewrite seq_S. rewrite <- Hi. rewrite !concat_app. cbn [concat]. cbn [Nat.add]. solve_Permutation.
    + apply Forall_app. split; [done|]. constructor; [|done]. by destruct g.
    + apply Forall_app. split; [done|]. constructor; [|done]. by apply FOP_snoc.
    + apply (FOP_replace _ l1 g); [| |done].
      * intros a (i & j & Hia & Hj & Hf). exists i, j. split; [done|]. split; [by destruct g|done].
      * intros h (i & j & Hig & Hj & Hf). exists i, j. split; [set_solver|done].
  - destruct (Hnone eq_refl) as [_ Hall]. eexists. split; [done|]. constructor.
    + rewrite seq_S, concat_app, Hi. done.
    + apply Forall_app. by repeat constructor.
    + apply Forall_app. by repeat constructor.
    + apply FOP_snoc; [done|]. eapply Forall_impl; [done|]. intros g (i & Hig & Hf). by exists i, n.
Qed.

Lemma place_all_ok cs : exists groups, place_all cs [] (seq 0 (length cs)) = Some groups /\ groups_ok cs (length cs) groups.
Proof.
  assert (Hgen : forall m n groups, groups_ok cs n groups -> (n + m = length cs)%nat ->
            exists groups', place_all cs groups (seq n m) = Some groups' /\ groups_ok cs (n + m) groups').
  { induction m as [|m IH]; intros n groups Hok Hlen; cbn [seq place_all].
    - exists groups. by rewrite Nat.add_0_r.
    - destruct (place_candidate_ok cs n groups Hok ltac:(lia)) as (g' & -> & Hok'). cbn [mbind option_bind].
      rewrite <- Nat.add_succ_comm. apply IH; [done|lia]. }
  apply (Hgen (length cs) 0%nat []); [|lia]. by repeat constructor.
Qed.

(** *** Collecting the groups *)

Definition weaker (w : option CrossProviderScore) (pair : CrossProviderCandidate * CrossProviderCandidate)
  : option CrossProviderScore :=
  let score := score_pair pair.1 pair.2 in
  if is_none_or w (fun w => flt (xs_confidence score) (xs_confidence w)) then Some score else w.

(** The confidence of a group: that of its weakest pair, zero for a single member. *)
Definition weakest_of (members : list CrossProviderCandidate) (confidence : f32) : Prop :=
  ((length members <= 1)%nat -> confidence = f32_zero) /\
  ((2 <= length members)%nat ->
     exists a b, (a, b) ∈ ordered_pairs members /\ confidence = xs_confidence (score_pair a b)) /\
  forall a b, (a, b) ∈ ordered_pairs members -> fle confidence (xs_confidence (score_pair a b)) = true.

Lemma score_not_nan a b : is_nan (xs_confidence (score_pair a b)) = false.
Proof. destruct (score_pair_sound a b) as [Hs _]. by apply fle_not_nan_r in Hs. Qed.

Lemma weaker_fold pairs w :
  (forall s, w = Some s -> is_nan (xs_confidence s) = false) ->
  match fold_left weaker pairs w with
  | None => w = None /\ pairs = []
  | Some s => (w = Some s \/ exists a b, (a, b) ∈ pairs /\ s = score_pair a b) /\
      (forall s', w = Some s' -> fle (xs_confidence s) (xs_confidence s') = true) /\
      (forall a b, (a, b) ∈ pairs -> fle (xs_confidence s) (xs_confidence (score_pair a b)) = true)
  end.
Proof.
  revert w. induction pairs as [|[a b] pairs IH]; intros w Hw; cbn [fold_left].
  { destruct w as [s|]; [|done]. split; [by left|]. split; [intros s' [= <-]; apply fle_refl; auto|]. set_solver. }
  assert (Hw' : forall s, weaker w (a, b) = Some s -> is_nan (xs_confidence s) = false /\
            fle (xs_confidence s) (xs_confidence (score_pair a b)) = true /\
            (s = score_pair a b \/ w = Some s) /\
            forall s', w = Some s' -> fle (xs_confidence s) (xs_confidence s') = true).
  { intros s. unfold weaker; cbn [fst snd]. pose proof (score_not_nan a b) as Hn. destruct w as [w|]; cbn [is_none_or].
    - specialize (Hw w eq_refl). destruct (flt _ _) eqn:E; intros [= <-].
      + split_and!; [done|by apply fle_refl|by left|]. intros s' [= <-]. by apply flt_fle.
      + split_and!; [done|by apply flt_false|by right|]. intros s' [= <-]. by apply fle_refl.
    - intros [= <-]. split_and!; [done|by apply fle_refl|by left|done]. }
  specialize (IH (weaker w (a, b)) (fun s E => proj1 (Hw' s E))). destruct (fold_left weaker pairs (weaker w (a, b))) as [s|].
  - destruct IH as (Hfrom & Hle & Hall).
    assert (exists s0, weaker w (a, b) = Some s0) as [s0 E0].
    { unfold weaker. destruct w as [w|]; cbn [is_none_or]; [destruct (flt _ _)|]; eauto. }
    destruct (Hw' s0 E0) as (_ & Hle0 & Hfrom0 & Hold). specialize (Hle s0 E0). split_and!.
    + destruct Hfrom as [E|(x & y & Hxy & ->)]; [|right; exists x, y; split; [by right|done]].
      rewrite E0 in E. injection E as ->. destruct Hfrom0 as [->|]; [|by left]. right. exists a, b. split; [left|done].
    + intros s' Hs'. apply fle_trans with (xs_confidence s0); [done|]. by apply Hold.
    + intros x y [[= -> ->]|Hxy]%elem_of_cons; [by apply fle_trans with (xs_confidence s0)|by apply Hall].
  - destruct IH as [E _]. exfalso. revert E. unfold weaker. destruct w as [w|]; cbn [is_none_or]; [destruct (flt _ _)|]; done.
Qed.

Lemma ordered_pairs_nil {A} (l : list A) : ordered_pairs l = [] <-> (length l <= 1)%nat.
Proof. destruct l as [|x [|y l]]; simpl; split; try done; lia. Qed.

Lemma weakest_of_fold members :
  weakest_of members (xs_confidence (default no_score (fold_left weaker (ordered_pairs members) None))).
Proof.
  pose proof (weaker_fold (ordered_pairs members) None ltac:(done)) as Hf. unfold weakest_of.
  destruct (fold_left weaker (ordered_pairs members) None) as [s|]; cbn [default from_option id].
  - destruct Hf as ([?|(a & b & Hab & ->)] & _ & Hall); [done|]. split_and!; [|eauto|done].
    intros Hl%ordered_pairs_nil. by rewrite Hl, elem_of_nil in Hab.
  - destruct Hf as [_ Hnil]. rewrite Hnil. split_and!; [done| |set_solver].
    apply ordered_pairs_nil in Hnil. lia.
Qed.

(** The slots still hold the members of the groups to come. *)
Definition holds (cs : list CrossProviderCandidate) (slots : list (option CrossProviderCandidate)) (i : nat) : Prop :=
  exists c, cs !! i = Some c /\ slots !! i = Some (Some c).

Abbreviation picked cs := (Forall2 (fun (i : nat) c => (cs : list CrossProviderCandidate) !! i = Some c)).

Lemma weakest_pair_fold slots ips cps w :
  Forall2 (fun ij ab => slots !! ij.1 = Some (Some ab.1) /\ slots !! ij.2 = Some (Some ab.2)) ips cps ->
  weakest_pair slots ips w = Some (fold_left weaker cps w).
Proof.
  intros Hp. revert w. induction Hp as [|[i j] [a b] ips cps [Hi Hj] Hp IH]; intros w; simpl in *; [done|].
  rewrite Hi, Hj. simpl. apply IH.
Qed.

Lemma picked_exists cs slots g : Forall (holds cs slots) g -> exists members, picked cs g members /\
  Forall2 (fun i c => slots !! i = Some (Some c)) g members.
Proof.
  induction 1 as [|i g (c & Hc & Hs) _ (members & Hm & Hsm)]; [exists []; by split|]. exists (c :: members). by split; constructor.
Qed.

Lemma Forall2_pairs {A B} (P : A -> B -> Prop) l k :
  Forall2 P l k -> Forall2 (fun ij ab => P ij.1 ab.1 /\ P ij.2 ab.2) (ordered_pairs l) (ordered_pairs k).
Proof.
  induction 1 as [|i c g members Hi Hg IH]; simpl; [constructor|]. apply Forall2_app; [|done].
  apply Forall2_fmap. eapply Forall2_impl; [done|]. simpl. auto.
Qed.

Lemma Forall2_impl_in {A B} (P Q : A -> B -> Prop) l k :
  Forall2 P l k -> (forall x y, x ∈ l -> P x y -> Q x y) -> Forall2 Q l k.
Proof.
  induction 1 as [|x y l k Hxy Hl IH]; intros Hpq; constructor; [apply Hpq; [left|done]|].
  apply IH. intros a b Ha. apply Hpq. by right.
Qed.

Lemma take_members_ok slots g members :
  NoDup g -> Forall2 (fun i c => slots !! i = Some (Some c)) g members ->
  exists slots', take_members slots g = Some (members, slots') /\ forall i, i ∉ g -> slots' !! i = slots !! i.
Proof.
  intros Hnd Hm. revert slots Hm. revert members. induction Hnd as [|i g Hi Hnd IH]; intros members slots Hm.
  { inversion Hm; subst. by exists slots. }
  inversion Hm as [|? c ? members' Hc Hm']; subst. cbn [take_members]. rewrite Hc. cbn [mbind option_bind id].
  destruct (IH members' (<[i := None]> slots)) as (slots' & E & Hframe).
  { eapply Forall2_impl_in; [done|]. intros k d Hk Hd. rewrite list_lookup_insert_ne; [done|]. intros ->. done. }
  rewrite E. cbn [mbind option_bind]. exists slots'. split; [done|]. intros k [Hki Hkg]%not_elem_of_cons.
  rewrite Hframe by done. by apply list_lookup_insert_ne.
Qed.

Definition work_of (cs : list CrossProviderCandidate) (g : list nat) (w : MergedWorkCandidate) : Prop :=
  picked cs g (mw_candidates w) /\ weakest_of (mw_candidates w) (mw_confidence w) /\
  mw_external_references w = external_references (mw_candidates w).

Lemma collect_groups_ok cs slots groups :
  NoDup (concat groups) -> Forall (Forall (holds cs slots)) groups ->
  exists merged, collect_groups slots groups = Some merged /\ Forall2 (work_of cs) groups merged.
Proof.
  revert slots. induction groups as [|g groups IH]; intros slots Hnd Hh; cbn [collect_groups].
  { exists []. by split. }
  inversion Hh as [|? ? Hg Hrest]; subst. cbn [concat] in Hnd. apply NoDup_app in Hnd as (Hndg & Hdisj & Hnd).
  destruct (picked_exists _ _ _ Hg) as (members & Hm & Hsm). unfold weakest_group_score.
  rewrite (weakest_pair_fold _ _ _ _ (Forall2_pairs _ _ _ Hsm)). cbn [fmap option_fmap option_map mbind option_bind].
  destruct (take_members_ok slots g members Hndg Hsm) as (slots' & -> & Hframe). cbn [mbind option_bind].
  destruct (IH slots' Hnd) as (merged & -> & Hw).
  { rewrite Forall_forall in Hrest. apply Forall_forall. intros h Hin. specialize (Hrest h Hin).
    rewrite Forall_forall in Hrest. apply Forall_forall. intros i Hi. destruct (Hrest i Hi) as (c & Hc & Hs). exists c. split; [done|].
    rewrite Hframe; [done|]. intros Hig. apply (Hdisj i Hig), list_elem_of_In, in_concat. exists h.
    by rewrite <- !list_elem_of_In. }
  cbn [mbind option_bind]. eexists. split; [done|]. constructor; [|done]. split; [done|]. split; [apply weakest_of_fold|done].
Qed.

Lemma picked_concat cs groups works :
  Forall2 (work_of cs) groups works -> picked cs (concat groups) (concat (mw_candidates <$> works)).
Proof. induction 1 as [|g w groups works (Hp & _) _ IH]; simpl; [constructor|]. by apply Forall2_app. Qed.

Lemma picked_omap cs g members : picked cs g members -> members = omap (fun i => cs !! i) g.
Proof. induction 1 as [|i c g members Hi _ IH]; simpl; [done|]. by rewrite Hi, IH. Qed.

Lemma omap_after_fmap {A B C} (f : B -> option C) (g : A -> B) (l : list A) : omap f (g <$> l) = omap (fun x => f (g x)) l.
Proof. induction l as [|x l IH]; [done|]. rewrite fmap_cons. cbn [omap list_omap]. by rewrite <- IH. Qed.

Lemma Forall2_in_r {A B} (P : A -> B -> Prop) l k y : Forall2 P l k -> y ∈ k -> exists x, x ∈ l /\ P x y.
Proof.
  induction 1 as [|x z l k Hxz _ IH]; [set_solver|]. intros [->|Hy]%elem_of_cons; [exists x; split; [left|done]|].
  destruct (IH Hy) as (w & Hw & Hp). exists w. split; [by right|done].
Qed.

Lemma omap_seq {A} (l : list A) : omap (fun i => l !! i) (seq 0 (length l)) = l.
Proof.
  induction l as [|x l IH]; [done|]. cbn [length seq]. cbn [omap list_omap]. simpl. f_equal.
  rewrite <- fmap_S_seq, omap_after_fmap. exact IH.
Qed.

(** Facts about indices become facts about the members they pick. *)
Lemma FOP_picked cs (R : nat -> nat -> Prop) (Q : CrossProviderCandidate -> CrossProviderCandidate -> Prop) g members :
  picked cs g members -> ForallOrdPairs R g ->
  (forall i j a b, R i j -> cs !! i = Some a -> cs !! j = Some b -> Q a b) -> ForallOrdPairs Q members.
Proof.
  intros Hp HR HRQ. revert HR. induction Hp as [|i c g members Hi Hp IH]; intros HR; [constructor|].
  inversion HR as [|? ? Hall Hrest]; subst. constructor; [|by apply IH].
  clear IH HR Hrest. induction Hp as [|j d g members Hj Hp IH]; [constructor|]. inversion Hall; subst.
  constructor; [by eapply HRQ|by apply IH].
Qed.

Lemma picked_elem cs g members i c : picked cs g members -> i ∈ g -> cs !! i = Some c -> c ∈ members.
Proof.
  induction 1 as [|j d g members Hj _ IH]; [set_solver|]. intros [->|Hi]%elem_of_cons Hc; [|right; by apply IH].
  rewrite Hj in Hc. injection Hc as ->. left.
Qed.

Lemma picked_head cs g members j c : picked cs g members -> head g = Some j -> cs !! j = Some c -> head members = Some c.
Proof. destruct 1 as [|i d g members Hi _]; [done|]. simpl. intros [= ->]. by rewrite Hi. Qed.

Definition apart (g h : list CrossProviderCandidate) : Prop :=
  exists a b, a ∈ g /\ head h = Some b /\ is_auto_match (score_pair b a) = false.

Lemma groups_apart cs groups works :
  Forall2 (work_of cs) groups works ->
  ForallOrdPairs (fun g h => exists i j, i ∈ g /\ head h = Some j /\ linked cs false i j) groups ->
  ForallOrdPairs apart (mw_candidates <$> works).
Proof.
  intros Hw Hs. revert Hs. induction Hw as [|g w groups works (Hp & _) Hw IH]; intros Hs; simpl; [constructor|].
  inversion Hs as [|? ? Hall Hrest]; subst. constructor; [|by apply IH]. clear IH Hs Hrest.
  induction Hw as [|h v groups works (Hv & _) Hw IH]; [constructor|]. inversion Hall as [|? ? Hh Hall']; subst.
  constructor; [|by apply IH]. destruct Hh as (i & j & Hi & Hj & ci & cj & Hci & Hcj & Hf).
  exists ci, cj. split; [by eapply picked_elem|]. split; [by eapply picked_head|done].
Qed.

(** Grouping the results of several providers is conservative and loses nothing.
    It always returns; every result is in exactly one group; within a group each result
    matches every earlier one, so a weak bridge never joins two works; the groups, in the
    order they were opened, could not have been joined: the result that opened the later
    one fails to match a member of the earlier.  A group reports the confidence of its
    weakest pair, zero when it has a single member, and one reference per provider and
    id, sorted; groups come in descending order of confidence. *)
Theorem grouping_exact candidates :
  exists merged, merge_same_work_candidates candidates = Some merged /\
    concat (mw_candidates <$> merged) ≡ₚ candidates /\
    Sorted (not_after merged_cmp) merged /\
    (forall w, w ∈ merged ->
       mw_candidates w <> [] /\
       ForallOrdPairs (fun a b => is_auto_match (score_pair b a) = true) (mw_candidates w) /\
       weakest_of (mw_candidates w) (mw_confidence w) /\
       StronglySorted (fun a b => reference_cmp a b = Lt) (mw_external_references w) /\
       (forall k, k ∈ key <$> mw_external_references w <->
          k ∈ (fun c => (mc_provider (xc_candidate c), mc_external_id (xc_candidate c))) <$> mw_candidates w)) /\
    exists opened, opened ≡ₚ mw_candidates <$> merged /\ ForallOrdPairs apart opened.
Proof.
  unfold merge_same_work_candidates. set (cs := merge_sort (not_after candidate_order) candidates).
  assert (Hcs : cs ≡ₚ candidates) by apply merge_sort_Permutation. clearbody cs.
  destruct (place_all_ok cs) as (groups & -> & Hok). cbn [mbind option_bind].
  pose proof (groups_in_range _ _ _ Hok ltac:(lia)) as Hrange. destruct Hok as [Hi Hne Hl Hs].
  destruct (collect_groups_ok cs (Some <$> cs) groups) as (works & -> & Hw).
  { rewrite Hi. apply NoDup_seq. }
  { eapply Forall_impl; [done|]. intros g Hg. eapply Forall_impl; [done|]. intros i Hlt. simpl in Hlt.
    destruct (lookup_lt_is_Some_2 cs i Hlt) as [c Hc]. exists c. by rewrite list_lookup_fmap, Hc. }
  cbn [mbind option_bind]. eexists. split; [done|].
  assert (Hp : merge_sort (not_after merged_cmp) works ≡ₚ works) by apply merge_sort_Permutation.
  split_and!.
  - rewrite Hp, <- Hcs. rewrite (picked_omap _ _ _ (picked_concat _ _ _ Hw)), Hi. by rewrite omap_seq.
  - pose proof (not_after_total _ merged_cmp_opp). by apply Sorted_merge_sort.
  - intros w Hin. rewrite Hp in Hin. destruct (Forall2_in_r _ _ _ _ Hw Hin) as (g & Hg & Hpick & Hweak & ->).
    rewrite Forall_forall in Hne, Hl. destruct (external_references_exact (mw_candidates w)) as [Hsort Hkeys]. split_and!; try done.
    + intros E. rewrite E in Hpick. inversion Hpick; subst. by apply (Hne []).
    + eapply FOP_picked; [done|by apply Hl|]. intros i j a b (ci & cj & Ha & Hb & Hm) Hia Hjb. congruence.
  - exists (mw_candidates <$> works). split; [by rewrite Hp|]. by eapply groups_apart.
Qed.

End grouping.
