(* ===== verification/MetadataMerge.v ===== *)
(** * Applying a provider match to stored metadata

    Models [src/crates/integrations/metadata/src/merge/merger.rs] ([FieldMerger]) and its
    caller [src/core/src/filesystem/metadata/apply.rs]: how the candidate a user or
    auto-apply chose changes a media or series row, under a merge strategy, locked and
    excluded fields, and user overrides.  Every SQL statement may fail.  Numbers of
    [rust_decimal] are reached through classes. *)

From stdpp Require Import base gmap list strings sorting.
From Stdlib Require Import ZArith Lia SpecFloat.
From S2P Require Import Prelude Float64 ReadingState MetadataTypes IngestContract IngestApply.

#[local] Open Scope Z_scope.
#[local] Open Scope coppice_scope.

Abbreviation Field := Public.MetadataField.

#[export] Instance Public_MetadataField_eq_dec : EqDecision Field.
Proof. solve_decision. Defined.

(** ** [FieldMerger] *)

Record FieldMerger := {
  fm_strategy : MergeStrategy;
  fm_locked_fields : list Field;
  fm_exclude_fields : list Field;
  fm_overrides : list (Field * value);
}.

(** Collecting pairs into a [HashMap]: a later pair replaces an earlier one. *)
Definition overrides_get (m : FieldMerger) (f : Field) : option value :=
  snd <$> List.find (fun kv => bool_decide (kv.1 = f)) (rev (fm_overrides m)).

Definition can_write (m : FieldMerger) (f : Field) : bool :=
  negb (bool_decide (f ∈ fm_locked_fields m)) && negb (bool_decide (f ∈ fm_exclude_fields m)).

Definition has_override (m : FieldMerger) (f : Field) : bool :=
  can_write m f && negb (is_none (overrides_get m f)).

(** [decode] is [serde_json::from_value::<T>]. *)
Definition apply_scalar_override {T} (decode : value -> option T) (m : FieldMerger) (f : Field)
  : option (option T) :=
  if negb (can_write m f) then None
  else
    match overrides_get m f with
    | Some v => if is_null v then Some None else Some <$> decode v
    | None => None
    end.

Definition string_list (v : value) : option (list str) := as_array v ≫= mapM as_str.

Definition comma_join (items : list str) : str := str_join (lit ", ") items.

Definition apply_comma_list_override (m : FieldMerger) (f : Field) : option (option str) :=
  if negb (can_write m f) then None
  else
    match overrides_get m f with
    | Some v =>
        if is_null v then Some None
        else
          let items := default [] (string_list v) in
          if bool_decide (items = []) then Some None else Some (Some (comma_join items))
    | None => None
    end.

Definition merge_scalar {T} (m : FieldMerger) (f : Field) (existing external : option T) : option (option T) :=
  if negb (can_write m f) then None
  else
    match external with
    | None => None
    | Some external =>
        match fm_strategy m with
        | FillGaps | FillAndMergeLists => if is_none existing then Some (Some external) else None
        | PreferExternal | PreferExternalAndMergeLists => Some (Some external)
        end
    end.

Definition merge_required_scalar {T} (m : FieldMerger) (f : Field) (existing : T) (external : option T) : option T :=
  if negb (can_write m f) then None
  else
    match external with
    | None => None
    | Some external =>
        match fm_strategy m with
        | FillGaps | FillAndMergeLists => None
        | PreferExternal | PreferExternalAndMergeLists => Some external
        end
    end.

Definition list_items (column : str) : list str :=
  List.filter (fun s => negb (bool_decide (s = []))) (trim <$> split_on (Z.eqb 44) column).

(** The merged items; the [HashSet] of stored items is iterated in no particular order
    and sorted with the rest. *)
Definition merged_items (existing : option str) (external : list str) : list str :=
  let existing_items := remove_dups (default [] (list_items <$> existing)) in
  let added :=
    List.filter (fun s => negb (bool_decide (s = [])) && negb (bool_decide (s ∈ existing_items))) (trim <$> external) in
  merge_sort str_ord (existing_items ++ added).

Definition merge_comma_list (m : FieldMerger) (f : Field) (existing : option str) (external : option (list str))
  : option (option str) :=
  if negb (can_write m f) then None
  else
    match external with
    | None | Some [] => None
    | Some items =>
        match fm_strategy m with
        | FillGaps =>
            if is_none_or existing (fun s => bool_decide (trim s = [])) then Some (Some (comma_join items)) else None
        | PreferExternal => Some (Some (comma_join items))
        | PreferExternalAndMergeLists | FillAndMergeLists =>
            let merged := merged_items existing items in
            if bool_decide (merged = []) then None else Some (Some (comma_join merged))
        end
    end.

(** ** Rows *)

(** What the code asks of [rust_decimal]: [from_f32], deserialization, zero and [>=]. *)
Class DecimalCodec `{DecimalOps} := {
  decimal_of_f32 : f32 -> option Decimal;
  decimal_of_value : value -> option Decimal;
  decimal_zero : Decimal;
  decimal_ge : Decimal -> Decimal -> bool;
}.

Section rows.
Context `{DecimalCodec}.

(** The columns of [media_metadata] that a match can change, and the locks. *)
Record MediaRow := {
  mr_title : option str;
  mr_summary : option str;
  mr_series : option str;
  mr_number : option Decimal;
  mr_year : option Z;
  mr_page_count : option Z;
  mr_day : option Z;
  mr_month : option Z;
  mr_identifier_isbn : option str;
  mr_genres : option str;
  mr_writers : option str;
  mr_colorists : option str;
  mr_letterers : option str;
  mr_cover_artists : option str;
  mr_pencillers : option str;
  mr_metadata_source : option str;
  mr_metadata_external_id : option str;
  mr_locked_fields : option value;
}.

(** The columns of [series_metadata] that a match can change, and the locks. *)
Record SeriesRow := {
  sr_title : option str;
  sr_summary : option str;
  sr_publisher : option str;
  sr_year : option Z;
  sr_age_rating : option Z;
  sr_status : option str;
  sr_total_issues : option Z;
  sr_genres : option str;
  sr_writers : option str;
  sr_metadata_source : option str;
  sr_metadata_external_id : option str;
  sr_locked_fields : option value;
}.

(** [if let Some(v) = write { active.column = Set(v); }] *)
Definition set_if {A} (active : A) (write : option A) : A := default active write.

Definition from_i32 (v : value) : option Z :=
  match v with JInt n => then_some ((i32_min <=? n) && (n <=? i32_max)) n | _ => None end.

Definition external_isbn (ext : ExternalMediaMetadata) : option str := or_else (em_isbn ext) (em_isbn_13 ext).
Definition external_number (ext : ExternalMediaMetadata) : option Decimal := em_number ext ≫= decimal_of_f32.

(** The first block of [apply_media_fields]: what the strategy takes from the match. *)
Definition merge_media_fields (m : FieldMerger) (model active : MediaRow) (ext : ExternalMediaMetadata) : MediaRow := {|
  mr_title := set_if (mr_title active) (merge_scalar m Public.Title (mr_title model) (em_title ext));
  mr_summary := set_if (mr_summary active) (merge_scalar m Public.Summary (mr_summary model) (em_summary ext));
  mr_series := set_if (mr_series active) (merge_scalar m Public.Series (mr_series model) (em_series_name ext));
  mr_number := set_if (mr_number active) (merge_scalar m Public.Number (mr_number model) (external_number ext));
  mr_year := set_if (mr_year active) (merge_scalar m Public.Year (mr_year model) (em_year ext));
  mr_page_count := set_if (mr_page_count active) (merge_scalar m Public.PageCount (mr_page_count model) (em_page_count ext));
  mr_day := set_if (mr_day active) (merge_scalar m Public.ReleaseDate (mr_day model) (em_day ext));
  mr_month := set_if (mr_month active) (merge_scalar m Public.ReleaseDate (mr_month model) (em_month ext));
  mr_identifier_isbn :=
    set_if (mr_identifier_isbn active) (merge_scalar m Public.Isbn (mr_identifier_isbn model) (external_isbn ext));
  mr_genres := set_if (mr_genres active) (merge_comma_list m Public.Genres (mr_genres model) (em_genres ext));
  mr_writers := set_if (mr_writers active) (merge_comma_list m Public.Writers (mr_writers model) (em_writers ext));
  mr_colorists := set_if (mr_colorists active) (merge_comma_list m Public.Colorists (mr_colorists model) (em_colorists ext));
  mr_letterers := set_if (mr_letterers active) (merge_comma_list m Public.Letterers (mr_letterers model) (em_letterers ext));
  mr_cover_artists :=
    set_if (mr_cover_artists active) (merge_comma_list m Public.CoverArtists (mr_cover_artists model) (em_cover_artists ext));
  mr_pencillers := set_if (mr_pencillers active) (merge_comma_list m Public.Artists (mr_pencillers model) (em_artists ext));
  mr_metadata_source := mr_metadata_source active;
  mr_metadata_external_id := mr_metadata_external_id active;
  mr_locked_fields := mr_locked_fields active;
|}.

(** The second block: what the user asked for instead. *)
Definition override_media_fields (m : FieldMerger) (active : MediaRow) : MediaRow := {|
  mr_title := set_if (mr_title active) (apply_scalar_override as_str m Public.Title);
  mr_summary := set_if (mr_summary active) (apply_scalar_override as_str m Public.Summary);
  mr_series := set_if (mr_series active) (apply_scalar_override as_str m Public.Series);
  mr_number := set_if (mr_number active) (apply_scalar_override decimal_of_value m Public.Number);
  mr_year := set_if (mr_year active) (apply_scalar_override from_i32 m Public.Year);
  mr_page_count := set_if (mr_page_count active) (apply_scalar_override from_i32 m Public.PageCount);
  mr_day := mr_day active;
  mr_month := mr_month active;
  mr_identifier_isbn := set_if (mr_identifier_isbn active) (apply_scalar_override as_str m Public.Isbn);
  mr_genres := set_if (mr_genres active) (apply_comma_list_override m Public.Genres);
  mr_writers := set_if (mr_writers active) (apply_comma_list_override m Public.Writers);
  mr_colorists := set_if (mr_colorists active) (apply_comma_list_override m Public.Colorists);
  mr_letterers := set_if (mr_letterers active) (apply_comma_list_override m Public.Letterers);
  mr_cover_artists := set_if (mr_cover_artists active) (apply_comma_list_override m Public.CoverArtists);
  mr_pencillers := set_if (mr_pencillers active) (apply_comma_list_override m Public.Artists);
  mr_metadata_source := mr_metadata_source active;
  mr_metadata_external_id := mr_metadata_external_id active;
  mr_locked_fields := mr_locked_fields active;
|}.

Definition apply_media_fields (m : FieldMerger) (model active : MediaRow) (ext : ExternalMediaMetadata) : MediaRow :=
  override_media_fields m (merge_media_fields m model active ext).

Definition build_media_metadata_insert (ext : ExternalMediaMetadata) (provider external_id : str) : MediaRow := {|
  mr_title := em_title ext; mr_summary := em_summary ext; mr_series := em_series_name ext;
  mr_number := external_number ext; mr_year := em_year ext; mr_page_count := em_page_count ext;
  mr_day := em_day ext; mr_month := em_month ext; mr_identifier_isbn := external_isbn ext;
  mr_genres := comma_join <$> em_genres ext; mr_writers := comma_join <$> em_writers ext;
  mr_colorists := comma_join <$> em_colorists ext; mr_letterers := comma_join <$> em_letterers ext;
  mr_cover_artists := comma_join <$> em_cover_artists ext; mr_pencillers := comma_join <$> em_artists ext;
  mr_metadata_source := Some provider; mr_metadata_external_id := Some external_id; mr_locked_fields := None;
|}.

Definition external_age_rating (ext : ExternalSeriesMetadata) : option Z := es_age_rating ext ≫= parse_i32.
Definition external_status (ext : ExternalSeriesMetadata) : option str := publication_status_debug <$> es_status ext.

Definition merge_series_fields (m : FieldMerger) (model active : SeriesRow) (ext : ExternalSeriesMetadata) : SeriesRow := {|
  sr_title := set_if (sr_title active) (merge_scalar m Public.Title (sr_title model) (Some (es_title ext)));
  sr_summary := set_if (sr_summary active) (merge_scalar m Public.Summary (sr_summary model) (es_summary ext));
  sr_publisher := set_if (sr_publisher active) (merge_scalar m Public.Publisher (sr_publisher model) (es_publisher ext));
  sr_year := set_if (sr_year active) (merge_scalar m Public.Year (sr_year model) (es_year ext));
  sr_age_rating :=
    set_if (sr_age_rating active) (merge_scalar m Public.AgeRating (sr_age_rating model) (external_age_rating ext));
  sr_status := set_if (sr_status active) (merge_scalar m Public.Status (sr_status model) (external_status ext));
  sr_total_issues :=
    set_if (sr_total_issues active) (merge_scalar m Public.VolumeCount (sr_total_issues model) (es_volume_count ext));
  sr_genres := set_if (sr_genres active) (merge_comma_list m Public.Genres (sr_genres model) (es_genres ext));
  sr_writers := set_if (sr_writers active) (merge_comma_list m Public.Writers (sr_writers model) (es_authors ext));
  sr_metadata_source := sr_metadata_source active;
  sr_metadata_external_id := sr_metadata_external_id active;
  sr_locked_fields := sr_locked_fields active;
|}.

Definition override_series_fields (m : FieldMerger) (active : SeriesRow) : SeriesRow := {|
  sr_title := set_if (sr_title active) (apply_scalar_override as_str m Public.Title);
  sr_summary := set_if (sr_summary active) (apply_scalar_override as_str m Public.Summary);
  sr_publisher := set_if (sr_publisher active) (apply_scalar_override as_str m Public.Publisher);
  sr_year := set_if (sr_year active) (apply_scalar_override from_i32 m Public.Year);
  sr_age_rating := set_if (sr_age_rating active) (apply_scalar_override from_i32 m Public.AgeRating);
  sr_status := set_if (sr_status active) (apply_scalar_override as_str m Public.Status);
  sr_total_issues := set_if (sr_total_issues active) (apply_scalar_override from_i32 m Public.VolumeCount);
  sr_genres := set_if (sr_genres active) (apply_comma_list_override m Public.Genres);
  sr_writers := set_if (sr_writers active) (apply_comma_list_override m Public.Writers);
  sr_metadata_source := sr_metadata_source active;
  sr_metadata_external_id := sr_metadata_external_id active;
  sr_locked_fields := sr_locked_fields active;
|}.

Definition apply_series_fields (m : FieldMerger) (model active : SeriesRow) (ext : ExternalSeriesMetadata) : SeriesRow :=
  override_series_fields m (merge_series_fields m model active ext).

Definition build_series_metadata_insert (ext : ExternalSeriesMetadata) (provider external_id : str) : SeriesRow := {|
  sr_title := Some (es_title ext); sr_summary := es_summary ext; sr_publisher := es_publisher ext;
  sr_year := es_year ext; sr_age_rating := external_age_rating ext; sr_status := external_status ext;
  sr_total_issues := es_volume_count ext; sr_genres := comma_join <$> es_genres ext;
  sr_writers := comma_join <$> es_authors ext; sr_metadata_source := Some provider;
  sr_metadata_external_id := Some external_id; sr_locked_fields := None;
|}.

Definition with_source_media (row : MediaRow) (provider external_id : str) : MediaRow := {|
  mr_title := mr_title row; mr_summary := mr_summary row; mr_series := mr_series row; mr_number := mr_number row;
  mr_year := mr_year row; mr_page_count := mr_page_count row; mr_day := mr_day row; mr_month := mr_month row;
  mr_identifier_isbn := mr_identifier_isbn row; mr_genres := mr_genres row; mr_writers := mr_writers row;
  mr_colorists := mr_colorists row; mr_letterers := mr_letterers row; mr_cover_artists := mr_cover_artists row;
  mr_pencillers := mr_pencillers row; mr_metadata_source := Some provider; mr_metadata_external_id := Some external_id;
  mr_locked_fields := mr_locked_fields row;
|}.

Definition with_source_series (row : SeriesRow) (provider external_id : str) : SeriesRow := {|
  sr_title := sr_title row; sr_summary := sr_summary row; sr_publisher := sr_publisher row; sr_year := sr_year row;
  sr_age_rating := sr_age_rating row; sr_status := sr_status row; sr_total_issues := sr_total_issues row;
  sr_genres := sr_genres row; sr_writers := sr_writers row; sr_metadata_source := Some provider;
  sr_metadata_external_id := Some external_id; sr_locked_fields := sr_locked_fields row;
|}.

Definition parse_locked_fields (json : option value) : list Field :=
  default [] (json ≫= fun v => as_array v ≫= mapM Public.of_value).

(** ** The database *)

Inductive FetchStatus := AwaitingReview | NotStarted | InProgress | Fetched | Matched | NoMatch | FetchFailed | RateLimited.

Record FetchRecord := { fr_status : FetchStatus; fr_accepted : option MatchCandidate }.

Record MatchDb := {
  db_series_rows : gmap str SeriesRow;
  db_media_rows : gmap str MediaRow;
  db_series_records : gmap str FetchRecord;
  db_media_records : gmap str FetchRecord;
  db_faults : list bool;
}.

Inductive CoreError := DbFailed | InternalError (message : str).

Abbreviation MatchM A := (MatchDb -> result A CoreError * MatchDb).

Definition next_fault (db : MatchDb) : MatchDb :=
  {| db_series_rows := db_series_rows db; db_media_rows := db_media_rows db;
     db_series_records := db_series_records db; db_media_records := db_media_records db;
     db_faults := tl (db_faults db) |}.

Definition match_statement {A} (run : MatchDb -> A * MatchDb) : MatchM A := fun db =>
  if default false (head (db_faults db)) then (Err DbFailed, next_fault db)
  else (Ok (run (next_fault db)).1, (run (next_fault db)).2).

Definition put_media (id : str) (row : MediaRow) (db : MatchDb) : MatchDb :=
  {| db_series_rows := db_series_rows db; db_media_rows := <[id := row]> (db_media_rows db);
     db_series_records := db_series_records db; db_media_records := db_media_records db; db_faults := db_faults db |}.

Definition put_series (id : str) (row : SeriesRow) (db : MatchDb) : MatchDb :=
  {| db_series_rows := <[id := row]> (db_series_rows db); db_media_rows := db_media_rows db;
     db_series_records := db_series_records db; db_media_records := db_media_records db; db_faults := db_faults db |}.

Definition put_media_record (id : str) (r : FetchRecord) (db : MatchDb) : MatchDb :=
  {| db_series_rows := db_series_rows db; db_media_rows := db_media_rows db;
     db_series_records := db_series_records db; db_media_records := <[id := r]> (db_media_records db);
     db_faults := db_faults db |}.

Definition put_series_record (id : str) (r : FetchRecord) (db : MatchDb) : MatchDb :=
  {| db_series_rows := db_series_rows db; db_media_rows := db_media_rows db;
     db_series_records := <[id := r]> (db_series_records db); db_media_records := db_media_records db;
     db_faults := db_faults db |}.

(** [mark_fetch_status_accepted]; [records] and [put] select the table. *)
Definition mark_fetch_status_accepted (records : MatchDb -> gmap str FetchRecord)
    (put : str -> FetchRecord -> MatchDb -> MatchDb) (id : str) (candidate : MatchCandidate) : MatchM unit :=
  found <-- match_statement (fun db => (records db !! id, db)) ;;
  match found with
  | None => db_ret tt
  | Some _ =>
      match_statement (fun db => (tt, put id {| fr_status := Fetched; fr_accepted := Some candidate |} db))
  end.

Definition media_merger (row : MediaRow) (strategy : MergeStrategy) (exclude : list Field) (overrides : list (Field * value))
  : FieldMerger :=
  {| fm_strategy := strategy; fm_locked_fields := parse_locked_fields (mr_locked_fields row);
     fm_exclude_fields := exclude; fm_overrides := overrides |}.

(** The row written: merged into the stored one, or inserted. *)
Definition media_row_after (existing : option MediaRow) (ext : ExternalMediaMetadata) (candidate : MatchCandidate)
    (strategy : MergeStrategy) (exclude_fields : list Field) (overrides : list (Field * value)) : MediaRow :=
  match existing with
  | Some model =>
      apply_media_fields (media_merger model strategy exclude_fields overrides) model
        (with_source_media model (mc_provider candidate) (mc_external_id candidate)) ext
  | None => build_media_metadata_insert ext (mc_provider candidate) (mc_external_id candidate)
  end.

Definition apply_media_match (media_id : str) (candidate : MatchCandidate) (strategy : MergeStrategy)
    (exclude_fields : list Field) (overrides : list (Field * value)) : MatchM unit :=
  match mc_metadata candidate with
  | SeriesMeta _ => db_err (InternalError (lit "Candidate metadata is not media type for media " ++ media_id))
  | MediaMeta ext =>
      existing <-- match_statement (fun db => (db_media_rows db !! media_id, db)) ;;
      let row := media_row_after existing ext candidate strategy exclude_fields overrides in
      _ <-- match_statement (fun db => (tt, put_media media_id row db)) ;;
      mark_fetch_status_accepted db_media_records put_media_record media_id candidate
  end.

Definition series_merger (row : SeriesRow) (strategy : MergeStrategy) (exclude : list Field) (overrides : list (Field * value))
  : FieldMerger :=
  {| fm_strategy := strategy; fm_locked_fields := parse_locked_fields (sr_locked_fields row);
     fm_exclude_fields := exclude; fm_overrides := overrides |}.

(** The row written: merged into the stored one, or inserted. *)
Definition series_row_after (existing : option SeriesRow) (ext : ExternalSeriesMetadata) (candidate : MatchCandidate)
    (strategy : MergeStrategy) (exclude_fields : list Field) (overrides : list (Field * value)) : SeriesRow :=
  match existing with
  | Some model =>
      apply_series_fields (series_merger model strategy exclude_fields overrides) model
        (with_source_series model (mc_provider candidate) (mc_external_id candidate)) ext
  | None => build_series_metadata_insert ext (mc_provider candidate) (mc_external_id candidate)
  end.

Definition apply_series_match (series_id : str) (candidate : MatchCandidate) (strategy : MergeStrategy)
    (exclude_fields : list Field) (overrides : list (Field * value)) : MatchM unit :=
  match mc_metadata candidate with
  | MediaMeta _ => db_err (InternalError (lit "Candidate metadata is not series type for series " ++ series_id))
  | SeriesMeta ext =>
      existing <-- match_statement (fun db => (db_series_rows db !! series_id, db)) ;;
      let row := series_row_after existing ext candidate strategy exclude_fields overrides in
      _ <-- match_statement (fun db => (tt, put_series series_id row db)) ;;
      mark_fetch_status_accepted db_series_records put_series_record series_id candidate
  end.

(** ** Auto-apply *)

Record AutoApplyConfig := {
  ac_enabled : bool;
  ac_threshold : Decimal;
  ac_strategy : MergeStrategy;
  ac_exclude_fields : list Field;
}.

(** Of a provider's row: its type and its auto-apply document, already deserialized
    ([None] when absent or malformed). *)
Record ProviderConfig := { pc_provider_type : MetadataProvider; pc_auto_apply : option AutoApplyConfig }.

Fixpoint find_auto_apply_candidate (candidates : list MatchCandidate) (configs : list ProviderConfig)
  : option (MatchCandidate * AutoApplyConfig) :=
  match candidates with
  | [] => None
  | candidate :: candidates =>
      let applies config :=
        ac_enabled config && decimal_ge (default decimal_zero (decimal_of_f32 (mc_confidence candidate))) (ac_threshold config) in
      match List.find (fun c => bool_decide (provider_type_to_string (pc_provider_type c) = mc_provider candidate)) configs
            ≫= pc_auto_apply with
      | Some config => if applies config then Some (candidate, config) else find_auto_apply_candidate candidates configs
      | None => find_auto_apply_candidate candidates configs
      end
  end.

End rows.

(** ** Lists *)

#[local] Instance str_ord_anti : AntiSymm (=) str_ord.
Proof. intros s t. apply str_le_antisymm. Qed.

(** An item as it is stored: trimmed, not blank, without the separator. *)
Definition clean_item (s : str) : Prop := trim s = s /\ s <> [] /\ (44 ∉ s).

Definition offered_items (external : list str) : list str :=
  List.filter (fun s => negb (bool_decide (s = []))) (trim <$> external).

Lemma elem_of_offered s external : s ∈ offered_items external <-> s <> [] /\ exists raw, raw ∈ external /\ s = trim raw.
Proof.
  unfold offered_items. rewrite list_elem_of_In, filter_In, <- list_elem_of_In, negb_true_iff, bool_decide_eq_false.
  rewrite list_elem_of_fmap. naive_solver.
Qed.

Lemma split_on_avoids p s piece c : piece ∈ split_on p s -> c ∈ piece -> p c = false.
Proof.
  revert piece. induction s as [|d s IH]; intros piece; simpl.
  - rewrite list_elem_of_singleton. intros ->. by rewrite elem_of_nil.
  - destruct (p d) eqn:Ed.
    + rewrite elem_of_cons. intros [->|Hp]; [by rewrite elem_of_nil|by apply IH].
    + destruct (split_on p s) as [|q qs].
      * rewrite list_elem_of_singleton. intros ->. rewrite list_elem_of_singleton. by intros ->.
      * rewrite elem_of_cons. intros [->|Hq]; [|apply IH; by right].
        rewrite elem_of_cons. intros [->|Hc]; [done|]. apply (IH q); [by left|done].
Qed.

Lemma list_items_clean column : Forall clean_item (list_items column).
Proof.
  apply Forall_forall. intros s. change (list_items column) with (offered_items (split_on (Z.eqb 44) column)).
  intros (Hne & raw & Hraw & ->)%elem_of_offered. split; [apply trim_trim|]. split; [done|].
  intros Hc%elem_of_trim. pose proof (split_on_avoids _ _ _ _ Hraw Hc) as E. by rewrite Z.eqb_refl in E.
Qed.

Lemma split_on_not_nil p s : split_on p s <> [].
Proof. destruct s as [|c s]; simpl; [done|]. destruct (p c); [done|]. by destruct (split_on p s). Qed.

Lemma split_comma_join s rest :
  44 ∉ s -> rest <> [] -> split_on (Z.eqb 44) (comma_join (s :: rest)) =
    s :: match split_on (Z.eqb 44) (comma_join rest) with [] => [] | q :: qs => (32 :: q) :: qs end.
Proof.
  intros Hs Hne. destruct rest as [|t rest]; [done|].
  change (comma_join (s :: t :: rest)) with (s ++ 44 :: 32 :: comma_join (t :: rest)).
  rewrite split_on_piece.
  - cbn [split_on Z.eqb]. simpl. rewrite app_nil_r. 
    destruct (split_on _ (comma_join (t :: rest))) eqn:E; [by apply split_on_not_nil in E|done].
  - apply forallb_forall. intros c Hc%list_elem_of_In. apply negb_true_iff, Z.eqb_neq. by intros <-.
Qed.

(** What is stored reads back as it was. *)
Lemma list_items_join items : Forall clean_item items -> list_items (comma_join items) = items.
Proof.
  intros Hall. unfold list_items.
  assert (E : items <> [] -> trim <$> split_on (Z.eqb 44) (comma_join items) = items).
  { induction Hall as [|s rest (Ht & Hne & Hc) Hall IH]; [done|]. intros _.
    destruct rest as [|t rest'] eqn:Er.
    - change (comma_join [s]) with s. rewrite <- (app_nil_r s) at 1. rewrite split_on_piece.
      + simpl. rewrite app_nil_r. by rewrite Ht.
      + apply forallb_forall. intros c Hin%list_elem_of_In. apply negb_true_iff, Z.eqb_neq. by intros <-.
    - rewrite split_comma_join by done. rewrite <- Er in *. specialize (IH ltac:(by rewrite Er)).
      destruct (split_on (Z.eqb 44) (comma_join rest)) as [|q qs] eqn:Es; [by rewrite Er in IH|].
      rewrite fmap_cons, Ht. f_equal. rewrite fmap_cons in *. by rewrite trim_space. }
  destruct items as [|s rest]; [done|]. rewrite E by done.
  assert (forall l, Forall clean_item l -> List.filter (fun s => negb (bool_decide (s = []))) l = l) as Hid.
  { clear. induction 1 as [|x l (_ & Hx & _) _ IH]; simpl; [done|]. by rewrite bool_decide_eq_false_2, IH. }
  by apply Hid.
Qed.

Lemma merged_items_elem existing external s :
  s ∈ merged_items existing external <-> s ∈ default [] (list_items <$> existing) \/ s ∈ offered_items external.
Proof.
  unfold merged_items. rewrite merge_sort_Permutation, elem_of_app, elem_of_remove_dups.
  rewrite (list_elem_of_In (List.filter _ _)), filter_In, <- list_elem_of_In, andb_true_iff, !negb_true_iff.
  rewrite !bool_decide_eq_false, elem_of_remove_dups, elem_of_offered, list_elem_of_fmap.
  destruct (decide (s ∈ default [] (list_items <$> existing))); naive_solver.
Qed.

Lemma merged_items_clean existing external :
  Forall (fun s => 44 ∉ s) external -> Forall clean_item (merged_items existing external).
Proof.
  intros Hext. apply Forall_forall. intros s [Hs|Hs]%merged_items_elem.
  - destruct existing as [column|]; [|set_solver]. simpl in Hs.
    by apply (proj1 (Forall_forall _ _) (list_items_clean column)).
  - apply elem_of_offered in Hs as (Hne & raw & Hraw & ->). split; [apply trim_trim|]. split; [done|].
    intros Hc%elem_of_trim. by apply (proj1 (Forall_forall _ _) Hext raw Hraw).
Qed.

Lemma merged_items_sorted existing external : StronglySorted str_ord (merged_items existing external).
Proof. apply StronglySorted_merge_sort; apply _. Qed.

Lemma NoDup_list_filter {A} (p : A -> bool) (l : list A) : NoDup l -> NoDup (List.filter p l).
Proof.
  induction 1 as [|x l Hx _ IH]; simpl; [constructor|]. destruct (p x); [|done].
  constructor; [|done]. rewrite list_elem_of_In, filter_In, <- list_elem_of_In. tauto.
Qed.

Lemma merged_items_NoDup existing external :
  NoDup (offered_items external) -> NoDup (merged_items existing external).
Proof.
  intros Hnd. unfold merged_items. rewrite merge_sort_Permutation. apply NoDup_app. split_and!.
  - apply NoDup_remove_dups.
  - intros s Hs. rewrite list_elem_of_In, filter_In, andb_true_iff, !negb_true_iff, !bool_decide_eq_false. tauto.
  - assert (E : forall q l, List.filter (fun s : str => negb (bool_decide (s = [])) && q s) l =
                  List.filter q (List.filter (fun s => negb (bool_decide (s = []))) l)).
    { intros q. induction l as [|x l IH]; simpl; [done|]. destruct (bool_decide (x = [])); simpl; [done|].
      destruct (q x); by rewrite IH. }
    rewrite E. by apply NoDup_list_filter.
Qed.

(** Merging a match again changes nothing. *)
Lemma merged_items_stable existing external :
  Forall (fun s => 44 ∉ s) external -> NoDup (offered_items external) ->
  merged_items (Some (comma_join (merged_items existing external))) external = merged_items existing external.
Proof.
  intros Hext Hnd. set (merged := merged_items existing external).
  apply (StronglySorted_unique str_ord); [apply merged_items_sorted..|].
  unfold merged_items at 1. rewrite merge_sort_Permutation. cbn [fmap option_fmap option_map default from_option].
  rewrite list_items_join by by apply merged_items_clean. unfold id.
  assert (Hm : NoDup merged) by by apply merged_items_NoDup.
  replace (List.filter _ _) with (@nil str).
  - rewrite app_nil_r. apply NoDup_Permutation; [apply NoDup_remove_dups|done|]. intros s. apply elem_of_remove_dups.
  - symmetry. apply elem_of_nil_inv. intros s.
    rewrite list_elem_of_In, filter_In, <- list_elem_of_In, andb_true_iff, !negb_true_iff, !bool_decide_eq_false.
    intros (Hs & Hne & Hnot). apply Hnot, elem_of_remove_dups, merged_items_elem. right.
    apply elem_of_offered. split; [done|]. apply list_elem_of_fmap in Hs as (raw & -> & Hraw). eauto.
Qed.

(** ** United lists *)

Definition occurring (s : str) (items : list str) : nat := length (filter (fun t => t = s) items).

(** The stored items once each and the offered items that are not among them as often as
    they are offered, in order. *)
Definition united (stored offered merged : list str) : Prop :=
  StronglySorted str_ord merged /\
  forall s, occurring s merged = if bool_decide (s ∈ stored) then 1%nat else occurring s offered.

Lemma occurring_app s l k : occurring s (l ++ k) = (occurring s l + occurring s k)%nat.
Proof. unfold occurring. by rewrite filter_app, length_app. Qed.

Lemma occurring_absent s l : s ∉ l -> occurring s l = 0%nat.
Proof.
  intros Hs. apply length_zero_iff_nil, elem_of_nil_inv. intros t [-> Ht]%list_elem_of_filter. done.
Qed.

Lemma occurring_once s l : NoDup l -> s ∈ l -> occurring s l = 1%nat.
Proof.
  intros Hnd (before & after & ->)%list_elem_of_split. apply NoDup_app in Hnd as (_ & Hb & [Ha _]%NoDup_cons).
  rewrite occurring_app, (occurring_absent s before) by (intros Hs; apply (Hb s Hs); by left).
  unfold occurring. rewrite filter_cons_True by done. cbn. f_equal. by apply (occurring_absent s).
Qed.

Lemma occurring_filter s (p : str -> bool) l : occurring s (List.filter p l) = if p s then occurring s l else 0%nat.
Proof.
  unfold occurring. induction l as [|t l IH]; cbn [List.filter]; [by destruct (p s)|]. destruct (decide (t = s)) as [->|Hne].
  - rewrite (filter_cons_True _ s l) by done. destruct (p s) eqn:Hp; [|done]. rewrite filter_cons_True by done. cbn. by rewrite IH.
  - rewrite (filter_cons_False _ t l) by done. destruct (p t); [|done]. by rewrite filter_cons_False.
Qed.

Lemma merged_items_united existing external :
  united (default [] (list_items <$> existing)) (offered_items external) (merged_items existing external).
Proof.
  split; [apply merged_items_sorted|]. intros s. unfold merged_items. set (stored := default [] (list_items <$> existing)).
  transitivity (occurring s (remove_dups stored ++ List.filter
      (fun s => negb (bool_decide (s = [])) && negb (bool_decide (s ∈ remove_dups stored))) (trim <$> external))).
  { unfold occurring. apply Permutation_length, filter_Permutation, merge_sort_Permutation. }
  rewrite occurring_app, occurring_filter. unfold offered_items. rewrite occurring_filter.
  pose proof (elem_of_remove_dups stored s) as Hdups.
  destruct (decide (s ∈ stored)) as [Hs|Hs].
  - rewrite (bool_decide_eq_true_2 (s ∈ stored)), (bool_decide_eq_true_2 (s ∈ remove_dups stored)) by tauto. rewrite andb_false_r.
    rewrite occurring_once; [done|apply NoDup_remove_dups|tauto].
  - rewrite (bool_decide_eq_false_2 (s ∈ stored)), (bool_decide_eq_false_2 (s ∈ remove_dups stored)) by tauto. rewrite andb_true_r.
    by rewrite (occurring_absent s (remove_dups stored)) by tauto.
Qed.

(** ** Rows after a match *)

Definition prefers_external (s : MergeStrategy) : bool :=
  match s with PreferExternal | PreferExternalAndMergeLists => true | _ => false end.

(** A locked or excluded field, and the value a user asked for: the last of its overrides. *)
Definition protected (m : FieldMerger) (f : Field) : Prop := f ∈ fm_locked_fields m \/ f ∈ fm_exclude_fields m.

Definition asked_for (m : FieldMerger) (f : Field) (v : value) : Prop :=
  exists before after, fm_overrides m = before ++ (f, v) :: after /\ f ∉ after.*1.

Lemma can_write_spec m f : reflect (~ protected m f) (can_write m f).
Proof.
  apply iff_reflect. unfold can_write, protected. rewrite andb_true_iff, !negb_true_iff, !bool_decide_eq_false. tauto.
Qed.

Lemma overrides_get_None m f : f ∉ (fm_overrides m).*1 -> overrides_get m f = None.
Proof.
  intros Hf. unfold overrides_get. apply fmap_None, find_None_iff. intros [g v] Hin. apply bool_decide_eq_false.
  cbn. intros ->. apply Hf, list_elem_of_fmap. exists (f, v). split; [done|].
  apply list_elem_of_In, in_rev, list_elem_of_In, Hin.
Qed.

Lemma overrides_get_Some m f v : asked_for m f v -> overrides_get m f = Some v.
Proof.
  intros (before & after & E & Hf). unfold overrides_get. rewrite E, rev_app_distr. simpl. rewrite <- app_assoc. clear E.
  induction after as [|[g w] after IH] using rev_ind; simpl; [by rewrite bool_decide_eq_true_2|].
  rewrite fmap_app, not_elem_of_app in Hf. destruct Hf as [Hf Hg]. rewrite rev_unit. simpl.
  rewrite bool_decide_eq_false_2 by (intros ->; apply Hg; by left). by apply IH.
Qed.

(** What a scalar column holds after a match: a protected field keeps its value; a user
    override wins, null clearing the column; otherwise the strategy decides whether the
    provider's value comes before or after the stored one. *)
Definition scalar_outcome {T} (m : FieldMerger) (f : Field) (decode : value -> option T) (stored offer result : option T)
  : Prop :=
  let taken := if prefers_external (fm_strategy m) then offer orelse stored else stored orelse offer in
  (protected m f -> result = stored) /\
  (~ protected m f -> f ∉ (fm_overrides m).*1 -> result = taken) /\
  (forall v, ~ protected m f -> asked_for m f v ->
     result = if is_null v then None else decode v orelse taken).

Definition items_of (column : option str) : list str := default [] (list_items <$> column).

(** What a list column holds after a match.  The provider's list replaces the stored one,
    fills a blank, or is united with it, depending on the strategy; an empty list changes
    nothing. *)
Definition list_outcome (m : FieldMerger) (f : Field) (stored : option str) (offer : option (list str)) (result : option str)
  : Prop :=
  let offered := default [] offer in
  (protected m f -> result = stored) /\
  (~ protected m f -> f ∉ (fm_overrides m).*1 ->
     (offered = [] -> result = stored) /\
     (offered <> [] ->
        match fm_strategy m with
        | FillGaps => result = if is_none_or stored (fun s => bool_decide (trim s = [])) then Some (comma_join offered) else stored
        | PreferExternal => result = Some (comma_join offered)
        | PreferExternalAndMergeLists | FillAndMergeLists =>
            exists merged, united (items_of stored) (offered_items offered) merged /\
              result = match merged with [] => stored | _ => Some (comma_join merged) end
        end /\
        (merges_lists (fm_strategy m) = true -> Forall (fun s => 44 ∉ s) offered ->
           forall s, s ∈ items_of result <-> s ∈ items_of stored \/ s ∈ offered_items offered))) /\
  (forall v, ~ protected m f -> asked_for m f v ->
     result = match default [] (string_list v) with [] => None | items => Some (comma_join items) end).

Lemma scalar_written {T} m f decode (stored offer : option T) :
  scalar_outcome m f decode stored offer
    (set_if (set_if stored (merge_scalar m f stored offer)) (apply_scalar_override decode m f)).
Proof.
  unfold scalar_outcome, set_if, merge_scalar, apply_scalar_override, prefers_external, or_else, is_none.
  destruct (can_write_spec m f) as [Hp|Hp]; cbn [negb]; split_and!; try done.
  - intros _ Hf. rewrite overrides_get_None by done. by destruct (fm_strategy m), offer, stored.
  - intros v _ Hv. rewrite (overrides_get_Some m f v) by done. destruct (is_null v); [done|].
    by destruct (decode v), (fm_strategy m), offer, stored.
Qed.

Lemma list_written m f stored offer :
  list_outcome m f stored offer
    (set_if (set_if stored (merge_comma_list m f stored offer)) (apply_comma_list_override m f)).
Proof.
  unfold list_outcome, set_if, merge_comma_list, apply_comma_list_override.
  destruct (can_write_spec m f) as [Hp|Hp]; cbn [negb]; split_and!; try done.
  - intros _ Hf. rewrite overrides_get_None by done. cbn [default from_option id]. split; [by destruct offer as [[]|]|].
    destruct offer as [[|x offer]|]; [done| |done]. cbn [default from_option id]. set (items := x :: offer). intros _.
    assert (Hmerge : forall result,
      result = default stored (if bool_decide (merged_items stored items = []) then None
                               else Some (Some (comma_join (merged_items stored items)))) ->
      (exists merged, united (items_of stored) (offered_items items) merged /\
         result = match merged with [] => stored | _ => Some (comma_join merged) end) /\
      (Forall (fun s => 44 ∉ s) items -> forall s, s ∈ items_of result <-> s ∈ items_of stored \/ s ∈ offered_items items)).
    { intros result ->. split.
      { exists (merged_items stored items). split; [apply merged_items_united|]. by destruct (merged_items stored items). }
      intros Hext. case_bool_decide as Hnil; cbn [default from_option id].
      - assert (Hs : forall s, s ∈ items_of stored \/ s ∈ offered_items items -> False)
          by (intros s Hs%merged_items_elem; by rewrite Hnil, elem_of_nil in Hs).
        naive_solver.
      - assert (E : items_of (Some (comma_join (merged_items stored items))) = merged_items stored items)
          by (apply list_items_join, merged_items_clean, Hext).
        rewrite E. intros s. apply merged_items_elem. }
    destruct (fm_strategy m); cbn [merges_lists].
    + split; [|done]. by destruct (is_none_or _ _).
    + done.
    + destruct (Hmerge _ eq_refl) as [Hunited Hitems]. split; [done|]. by intros _.
    + destruct (Hmerge _ eq_refl) as [Hunited Hitems]. split; [done|]. by intros _.
  - intros v _ Hv. rewrite (overrides_get_Some m f v) by done. unfold string_list. destruct v; cbn [is_null]; try done.
    cbn [as_array]. simpl. by destruct (mapM as_str _) as [[]|].
Qed.

Section matches.
Context `{DecimalCodec}.

Definition without_overrides (m : FieldMerger) : FieldMerger :=
  {| fm_strategy := fm_strategy m; fm_locked_fields := fm_locked_fields m;
     fm_exclude_fields := fm_exclude_fields m; fm_overrides := [] |}.

Lemma scalar_merged {T} m f decode (stored offer : option T) :
  scalar_outcome (without_overrides m) f decode stored offer (set_if stored (merge_scalar m f stored offer)).
Proof.
  pose proof (scalar_written (without_overrides m) f decode stored offer) as Hw.
  replace (apply_scalar_override decode (without_overrides m) f) with (@None (option T)) in Hw; [done|].
  unfold apply_scalar_override. by destruct (can_write _ f).
Qed.

(** The columns of a media row after a match; a release date cannot be overridden. *)
Record media_outcome (m : FieldMerger) (model : MediaRow) (ext : ExternalMediaMetadata) (row : MediaRow) : Prop := {
  mo_title : scalar_outcome m Public.Title as_str (mr_title model) (em_title ext) (mr_title row);
  mo_summary : scalar_outcome m Public.Summary as_str (mr_summary model) (em_summary ext) (mr_summary row);
  mo_series : scalar_outcome m Public.Series as_str (mr_series model) (em_series_name ext) (mr_series row);
  mo_number : scalar_outcome m Public.Number decimal_of_value (mr_number model) (external_number ext) (mr_number row);
  mo_year : scalar_outcome m Public.Year from_i32 (mr_year model) (em_year ext) (mr_year row);
  mo_pages : scalar_outcome m Public.PageCount from_i32 (mr_page_count model) (em_page_count ext) (mr_page_count row);
  mo_day : scalar_outcome (without_overrides m) Public.ReleaseDate from_i32 (mr_day model) (em_day ext) (mr_day row);
  mo_month : scalar_outcome (without_overrides m) Public.ReleaseDate from_i32 (mr_month model) (em_month ext) (mr_month row);
  mo_isbn : scalar_outcome m Public.Isbn as_str (mr_identifier_isbn model) (external_isbn ext) (mr_identifier_isbn row);
  mo_genres : list_outcome m Public.Genres (mr_genres model) (em_genres ext) (mr_genres row);
  mo_writers : list_outcome m Public.Writers (mr_writers model) (em_writers ext) (mr_writers row);
  mo_colorists : list_outcome m Public.Colorists (mr_colorists model) (em_colorists ext) (mr_colorists row);
  mo_letterers : list_outcome m Public.Letterers (mr_letterers model) (em_letterers ext) (mr_letterers row);
  mo_cover_artists : list_outcome m Public.CoverArtists (mr_cover_artists model) (em_cover_artists ext) (mr_cover_artists row);
  mo_pencillers : list_outcome m Public.Artists (mr_pencillers model) (em_artists ext) (mr_pencillers row);
  mo_locks : mr_locked_fields row = mr_locked_fields model;
}.

(** The columns of a media row that was not there: what the provider offers. *)
Record media_inserted (ext : ExternalMediaMetadata) (row : MediaRow) : Prop := {
  mi_title : mr_title row = em_title ext;
  mi_summary : mr_summary row = em_summary ext;
  mi_series : mr_series row = em_series_name ext;
  mi_number : mr_number row = external_number ext;
  mi_year : mr_year row = em_year ext;
  mi_pages : mr_page_count row = em_page_count ext;
  mi_date : (mr_day row, mr_month row) = (em_day ext, em_month ext);
  mi_isbn : mr_identifier_isbn row = external_isbn ext;
  mi_genres : mr_genres row = comma_join <$> em_genres ext;
  mi_writers : mr_writers row = comma_join <$> em_writers ext;
  mi_colorists : mr_colorists row = comma_join <$> em_colorists ext;
  mi_letterers : mr_letterers row = comma_join <$> em_letterers ext;
  mi_cover_artists : mr_cover_artists row = comma_join <$> em_cover_artists ext;
  mi_pencillers : mr_pencillers row = comma_join <$> em_artists ext;
  mi_locks : mr_locked_fields row = None;
}.

Record series_outcome (m : FieldMerger) (model : SeriesRow) (ext : ExternalSeriesMetadata) (row : SeriesRow) : Prop := {
  so_title : scalar_outcome m Public.Title as_str (sr_title model) (Some (es_title ext)) (sr_title row);
  so_summary : scalar_outcome m Public.Summary as_str (sr_summary model) (es_summary ext) (sr_summary row);
  so_publisher : scalar_outcome m Public.Publisher as_str (sr_publisher model) (es_publisher ext) (sr_publisher row);
  so_year : scalar_outcome m Public.Year from_i32 (sr_year model) (es_year ext) (sr_year row);
  so_age_rating : scalar_outcome m Public.AgeRating from_i32 (sr_age_rating model) (external_age_rating ext) (sr_age_rating row);
  so_status : scalar_outcome m Public.Status as_str (sr_status model) (external_status ext) (sr_status row);
  so_issues : scalar_outcome m Public.VolumeCount from_i32 (sr_total_issues model) (es_volume_count ext) (sr_total_issues row);
  so_genres : list_outcome m Public.Genres (sr_genres model) (es_genres ext) (sr_genres row);
  so_writers : list_outcome m Public.Writers (sr_writers model) (es_authors ext) (sr_writers row);
  so_locks : sr_locked_fields row = sr_locked_fields model;
}.

Lemma media_fields_outcome m model ext provider external_id :
  media_outcome m model ext (apply_media_fields m model (with_source_media model provider external_id) ext).
Proof.
  unfold apply_media_fields. constructor; cbn; try apply scalar_written; try apply list_written; try done.
  all: apply (scalar_merged m Public.ReleaseDate from_i32).
Qed.

Lemma series_fields_outcome m model ext provider external_id :
  series_outcome m model ext (apply_series_fields m model (with_source_series model provider external_id) ext).
Proof.
  unfold apply_series_fields. constructor; cbn; try apply scalar_written; try apply list_written; done.
Qed.

Definition same_tables (db db' : MatchDb) : Prop :=
  db_series_rows db' = db_series_rows db /\ db_media_rows db' = db_media_rows db /\
  db_series_records db' = db_series_records db /\ db_media_records db' = db_media_records db.

(** A statement fails and changes nothing, or does its work. *)
Lemma match_statement_cases {A} (run : MatchDb -> A * MatchDb) db r db' :
  match_statement run db = (r, db') ->
  exists db1, same_tables db db1 /\ (r = Err DbFailed /\ db' = db1 \/ r = Ok (run db1).1 /\ db' = (run db1).2).
Proof.
  unfold match_statement. case_match; intros [= <- <-]; exists (next_fault db); (split; [by split_and!|]); auto.
Qed.

Lemma alter_const {A} (m : gmap str A) k v : alter (fun _ => v) k m = if decide (is_Some (m !! k)) then <[k := v]> m else m.
Proof.
  apply map_eq. intros j. destruct (decide (k = j)) as [<-|Hne]; case_decide as Hk; simplify_map_eq; try done.
  - destruct Hk as [x ->]. done.
  - by rewrite <- eq_None_not_Some in Hk; rewrite Hk.
Qed.

(** Accepting a candidate, for either table of fetch records. *)
Lemma mark_accepted {X} records put (untouched : MatchDb -> X) id candidate db r db' :
  (forall db db', same_tables db db' -> records db' = records db /\ untouched db' = untouched db) ->
  (forall id record db, records (put id record db) = <[id := record]> (records db) /\
     untouched (put id record db) = untouched db) ->
  mark_fetch_status_accepted records put id candidate db = (r, db') ->
  untouched db' = untouched db /\
  records db' = if is_ok r
                then alter (fun _ => {| fr_status := Fetched; fr_accepted := Some candidate |}) id (records db)
                else records db.
Proof.
  intros Hsame Hput. unfold mark_fetch_status_accepted.
  intros [(e & Hs & ->)|(found & db1 & Hs & Hrun)]%db_bind_cases;
    apply match_statement_cases in Hs as (dbs & E & [[? ->]|[? ->]]); simplify_eq; cbn [fst snd is_ok] in *;
    destruct (Hsame _ _ E) as [<- <-]; [done|].
  rewrite alter_const. destruct (records dbs !! id) as [record|] eqn:Er.
  - rewrite decide_True by eauto.
    apply match_statement_cases in Hrun as (db2 & F & [[-> ->]|[-> ->]]); destruct (Hsame _ _ F) as [<- <-];
      cbn [fst snd is_ok]; [done|]. destruct (Hput id {| fr_status := Fetched; fr_accepted := Some candidate |} db2). done.
  - rewrite decide_False by (intros [? ?]; done). by injection Hrun as <- <-.
Qed.

(** C36.  Applying a match to a media row, under every pattern of failures.  A candidate
    of the wrong kind is refused without touching anything.  Otherwise only the row of
    that media can change.  When it has a row, the columns are exactly what the stored
    values, the locks, the exclusions, the overrides and the strategy say: protected fields
    keep their values, overrides win, scalars are filled or replaced, lists are filled,
    replaced or united, sorted, with the stored items once each and the other offered ones
    as often as they are offered.  When it has none, the new row holds what the provider
    offers, whatever the exclusions and overrides.  When the call succeeds the row is written
    and the fetch record, if any, accepts the candidate; when it fails the row is the old or
    the new one and no record changed. *)
Theorem media_match_exact media_id candidate strategy exclude overrides db r db' :
  apply_media_match media_id candidate strategy exclude overrides db = (r, db') ->
  db_series_rows db' = db_series_rows db /\ db_series_records db' = db_series_records db /\
  match mc_metadata candidate with
  | SeriesMeta _ => is_ok r = false /\ db' = db
  | MediaMeta ext =>
      exists row,
        (forall model, db_media_rows db !! media_id = Some model ->
           media_outcome (media_merger model strategy exclude overrides) model ext row) /\
        (db_media_rows db !! media_id = None -> media_inserted ext row) /\
        mr_metadata_source row = Some (mc_provider candidate) /\
        mr_metadata_external_id row = Some (mc_external_id candidate) /\
        (db_media_rows db' = db_media_rows db \/ db_media_rows db' = <[media_id := row]> (db_media_rows db)) /\
        (is_ok r = false -> db_media_records db' = db_media_records db) /\
        (is_ok r = true ->
           db_media_rows db' = <[media_id := row]> (db_media_rows db) /\
           db_media_records db' =
             alter (fun _ => {| fr_status := Fetched; fr_accepted := Some candidate |}) media_id (db_media_records db))
  end.
Proof.
  unfold apply_media_match. destruct (mc_metadata candidate) as [ext|ext]; [|by intros [= <- <-]].
  set (row := media_row_after (db_media_rows db !! media_id) ext candidate strategy exclude overrides).
  assert (Hrow : (forall model, db_media_rows db !! media_id = Some model ->
                    media_outcome (media_merger model strategy exclude overrides) model ext row) /\
                 (db_media_rows db !! media_id = None -> media_inserted ext row) /\
                 mr_metadata_source row = Some (mc_provider candidate) /\
                 mr_metadata_external_id row = Some (mc_external_id candidate)).
  { subst row. split; [intros model ->; apply media_fields_outcome|]. split; [intros ->; by constructor|].
    by destruct (db_media_rows db !! media_id). }
  intros [(e & Hs & ->)|(existing & db1 & Hs & Hrun)]%db_bind_cases;
    apply match_statement_cases in Hs as (dbs & (E1 & E2 & E3 & E4) & [[? ->]|[? ->]]); simplify_eq; cbn [fst snd is_ok] in *.
  { split_and!; [done..|]. exists row. rewrite ?E1, ?E2, ?E3, ?E4. naive_solver. }
  rewrite ?E1, ?E2 in Hrun. fold row in Hrun. clearbody row.
  apply db_bind_cases in Hrun as [(e & Hs & ->)|([] & db2 & Hs & Hrun)];
    apply match_statement_cases in Hs as (dbt & (F1 & F2 & F3 & F4) & [[? ->]|[? ->]]); simplify_eq; cbn [fst snd is_ok] in *.
  { rewrite F1, F2, F3, F4, E1, E2, E3, E4. split_and!; [done..|]. exists row. naive_solver. }
  destruct (mark_accepted db_media_records put_media_record
              (fun db => (db_series_rows db, db_media_rows db, db_series_records db)) _ _ _ _ _
              ltac:(intros ? ? (-> & -> & -> & ->); done) ltac:(intros; split; done) Hrun) as [Hu Hr].
  cbn in Hu, Hr. injection Hu as G1 G2 G3. rewrite Hr, G1, G2, G3, ?F1, ?F2, ?F3, ?F4, E1, E2, E3, E4.
  split_and!; [done..|]. exists row. destruct (is_ok r); naive_solver.
Qed.

(** The same for a series row. *)
Theorem series_match_exact series_id candidate strategy exclude overrides db r db' :
  apply_series_match series_id candidate strategy exclude overrides db = (r, db') ->
  db_media_rows db' = db_media_rows db /\ db_media_records db' = db_media_records db /\
  match mc_metadata candidate with
  | MediaMeta _ => is_ok r = false /\ db' = db
  | SeriesMeta ext =>
      exists row,
        (forall model, db_series_rows db !! series_id = Some model ->
           series_outcome (series_merger model strategy exclude overrides) model ext row) /\
        sr_metadata_source row = Some (mc_provider candidate) /\
        sr_metadata_external_id row = Some (mc_external_id candidate) /\
        (db_series_rows db' = db_series_rows db \/ db_series_rows db' = <[series_id := row]> (db_series_rows db)) /\
        (is_ok r = false -> db_series_records db' = db_series_records db) /\
        (is_ok r = true ->
           db_series_rows db' = <[series_id := row]> (db_series_rows db) /\
           db_series_records db' =
             alter (fun _ => {| fr_status := Fetched; fr_accepted := Some candidate |}) series_id (db_series_records db))
  end.
Proof.
  unfold apply_series_match. destruct (mc_metadata candidate) as [ext|ext]; [by intros [= <- <-]|].
  set (row := series_row_after (db_series_rows db !! series_id) ext candidate strategy exclude overrides).
  assert (Hrow : (forall model, db_series_rows db !! series_id = Some model ->
                    series_outcome (series_merger model strategy exclude overrides) model ext row) /\
                 sr_metadata_source row = Some (mc_provider candidate) /\
                 sr_metadata_external_id row = Some (mc_external_id candidate)).
  { subst row. split; [intros model ->; apply series_fields_outcome|]. by destruct (db_series_rows db !! series_id). }
  intros [(e & Hs & ->)|(existing & db1 & Hs & Hrun)]%db_bind_cases;
    apply match_statement_cases in Hs as (dbs & (E1 & E2 & E3 & E4) & [[? ->]|[? ->]]); simplify_eq; cbn [fst snd is_ok] in *.
  { split_and!; [done..|]. exists row. rewrite ?E1, ?E2, ?E3, ?E4. naive_solver. }
  rewrite ?E1, ?E2 in Hrun. fold row in Hrun. clearbody row.
  apply db_bind_cases in Hrun as [(e & Hs & ->)|([] & db2 & Hs & Hrun)];
    apply match_statement_cases in Hs as (dbt & (F1 & F2 & F3 & F4) & [[? ->]|[? ->]]); simplify_eq; cbn [fst snd is_ok] in *.
  { rewrite F1, F2, F3, F4, E1, E2, E3, E4. split_and!; [done..|]. exists row. naive_solver. }
  destruct (mark_accepted db_series_records put_series_record
              (fun db => (db_series_rows db, db_media_rows db, db_media_records db)) _ _ _ _ _
              ltac:(intros ? ? (-> & -> & -> & ->); done) ltac:(intros; split; done) Hrun) as [Hu Hr].
  cbn in Hu, Hr. injection Hu as G1 G2 G3. rewrite Hr, G1, G2, G3, ?F1, ?F2, ?F3, ?F4, E1, E2, E3, E4.
  split_and!; [done..|]. exists row. destruct (is_ok r); naive_solver.
Qed.

(** *** Applying a match twice *)

Definition after_scalar {T} (decode : value -> option T) (m : FieldMerger) (f : Field) (stored offer : option T) : option T :=
  set_if (set_if stored (merge_scalar m f stored offer)) (apply_scalar_override decode m f).

Definition after_list (m : FieldMerger) (f : Field) (stored : option str) (offer : option (list str)) : option str :=
  set_if (set_if stored (merge_comma_list m f stored offer)) (apply_comma_list_override m f).

Lemma after_scalar_twice {T} decode m f (stored offer : option T) :
  after_scalar decode m f (after_scalar decode m f stored offer) offer = after_scalar decode m f stored offer.
Proof.
  unfold after_scalar, set_if, merge_scalar, apply_scalar_override, is_none. destruct (can_write m f); cbn [negb]; [|done].
  destruct (overrides_get m f) as [v|]; [destruct (is_null v), (decode v)|];
    destruct offer, stored, (fm_strategy m); done.
Qed.

Lemma merged_scalar_twice {T} m f (stored offer : option T) :
  let once := set_if stored (merge_scalar m f stored offer) in
  set_if once (merge_scalar m f once offer) = once.
Proof.
  unfold set_if, merge_scalar, is_none. destruct (can_write m f); [|done].
  by destruct offer, stored, (fm_strategy m).
Qed.

Definition clean_offer (offer : option (list str)) : Prop :=
  Forall (fun s => 44 ∉ s) (default [] offer) /\ NoDup (offered_items (default [] offer)).

Lemma after_list_twice m f stored offer :
  clean_offer offer -> after_list m f (after_list m f stored offer) offer = after_list m f stored offer.
Proof.
  intros [Hc Hnd]. unfold after_list, set_if. destruct (apply_comma_list_override m f) as [v|] eqn:Eo; [done|].
  cbn [default from_option id]. unfold merge_comma_list.
  destruct (can_write m f); cbn [negb]; [|done]. destruct offer as [[|x offer]|]; [done| |done]. cbn [default from_option id] in *.
  set (items := x :: offer) in *. destruct (fm_strategy m).
  - destruct (is_none_or stored _) eqn:E; cbn [default from_option id]; [|by rewrite E].
    by destruct (is_none_or (Some _) _).
  - done.
  - case_bool_decide as Hm; cbn [default from_option id]; [by rewrite bool_decide_eq_true_2|].
    by rewrite merged_items_stable, bool_decide_eq_false_2.
  - case_bool_decide as Hm; cbn [default from_option id]; [by rewrite bool_decide_eq_true_2|].
    by rewrite merged_items_stable, bool_decide_eq_false_2.
Qed.

(** The columns of a computed row. *)
Lemma media_fields_columns m model ext provider external_id :
  apply_media_fields m model (with_source_media model provider external_id) ext = {|
    mr_title := after_scalar as_str m Public.Title (mr_title model) (em_title ext);
    mr_summary := after_scalar as_str m Public.Summary (mr_summary model) (em_summary ext);
    mr_series := after_scalar as_str m Public.Series (mr_series model) (em_series_name ext);
    mr_number := after_scalar decimal_of_value m Public.Number (mr_number model) (external_number ext);
    mr_year := after_scalar from_i32 m Public.Year (mr_year model) (em_year ext);
    mr_page_count := after_scalar from_i32 m Public.PageCount (mr_page_count model) (em_page_count ext);
    mr_day := set_if (mr_day model) (merge_scalar m Public.ReleaseDate (mr_day model) (em_day ext));
    mr_month := set_if (mr_month model) (merge_scalar m Public.ReleaseDate (mr_month model) (em_month ext));
    mr_identifier_isbn := after_scalar as_str m Public.Isbn (mr_identifier_isbn model) (external_isbn ext);
    mr_genres := after_list m Public.Genres (mr_genres model) (em_genres ext);
    mr_writers := after_list m Public.Writers (mr_writers model) (em_writers ext);
    mr_colorists := after_list m Public.Colorists (mr_colorists model) (em_colorists ext);
    mr_letterers := after_list m Public.Letterers (mr_letterers model) (em_letterers ext);
    mr_cover_artists := after_list m Public.CoverArtists (mr_cover_artists model) (em_cover_artists ext);
    mr_pencillers := after_list m Public.Artists (mr_pencillers model) (em_artists ext);
    mr_metadata_source := Some provider; mr_metadata_external_id := Some external_id;
    mr_locked_fields := mr_locked_fields model |}.
Proof. reflexivity. Qed.

(** Accepting the same match twice is the same as accepting it once, whatever the
    strategy, locks, exclusions and overrides, as long as no item of the provider's lists
    contains a comma or is listed twice. *)
Theorem media_match_idempotent m model ext provider external_id :
  clean_offer (em_genres ext) -> clean_offer (em_writers ext) -> clean_offer (em_colorists ext) ->
  clean_offer (em_letterers ext) -> clean_offer (em_cover_artists ext) -> clean_offer (em_artists ext) ->
  let once := apply_media_fields m model (with_source_media model provider external_id) ext in
  apply_media_fields m once (with_source_media once provider external_id) ext = once.
Proof.
  intros H1 H2 H3 H4 H5 H6. cbv zeta. rewrite !media_fields_columns.
  cbn [mr_title mr_summary mr_series mr_number mr_year mr_page_count mr_day mr_month mr_identifier_isbn mr_genres
       mr_writers mr_colorists mr_letterers mr_cover_artists mr_pencillers mr_locked_fields].
  rewrite !after_scalar_twice, !merged_scalar_twice, !after_list_twice by done. reflexivity.
Qed.

(** Auto-apply picks the first candidate whose provider's configuration, found by
    the printed provider type, is enabled and whose confidence reaches the threshold.  But
    the clients name their candidates by their own ids, which are never the printed type:
    candidates as the clients make them are never applied, whatever is configured. *)
Theorem auto_apply_choice candidates configs :
  (forall candidate config, find_auto_apply_candidate candidates configs = Some (candidate, config) ->
     exists before after, candidates = before ++ candidate :: after /\
       find_auto_apply_candidate before configs = None /\
       ac_enabled config = true /\
       decimal_ge (default decimal_zero (decimal_of_f32 (mc_confidence candidate))) (ac_threshold config) = true /\
       exists c, c ∈ configs /\ pc_auto_apply c = Some config /\
         mc_provider candidate = provider_type_to_string (pc_provider_type c)) /\
  (Forall (fun c => exists p, mc_provider c = client_id p) candidates ->
     find_auto_apply_candidate candidates configs = None).
Proof.
  split.
  - intros candidate config. induction candidates as [|c candidates IH]; [done|]. cbn [find_auto_apply_candidate].
    set (found := List.find _ configs ≫= pc_auto_apply).
    assert (Hskip : (find_auto_apply_candidate [c] configs = None) ->
       find_auto_apply_candidate candidates configs = Some (candidate, config) ->
       exists before after, c :: candidates = before ++ candidate :: after /\
         find_auto_apply_candidate before configs = None /\ ac_enabled config = true /\
         decimal_ge (default decimal_zero (decimal_of_f32 (mc_confidence candidate))) (ac_threshold config) = true /\
         exists c, c ∈ configs /\ pc_auto_apply c = Some config /\
           mc_provider candidate = provider_type_to_string (pc_provider_type c)).
    { intros Hc (before & after & -> & Hb & Hrest)%IH. exists (c :: before), after. split_and!; try apply Hrest; [done|].
      cbn [find_auto_apply_candidate] in Hc |- *. destruct (_ ≫= pc_auto_apply); [|done]. by destruct (_ && _). }
    cbn [find_auto_apply_candidate] in Hskip. fold found in Hskip. destruct found as [config'|] eqn:Ef; [|by apply Hskip].
    destruct (_ && _) eqn:Ea; [|by apply Hskip]. intros [= -> ->]. apply andb_true_iff in Ea as [Ea1 Ea2].
    subst found. apply bind_Some in Ef as (pc & Hpc%List.find_some & Hauto). destruct Hpc as [Hin Heq%bool_decide_eq_true].
    exists [], candidates. split_and!; try done. exists pc. by rewrite list_elem_of_In.
  - induction 1 as [|c candidates [p Hp] _ IH]; [done|]. cbn [find_auto_apply_candidate].
    replace (List.find _ configs) with (@None ProviderConfig); [done|]. symmetry.
    apply find_None_iff. intros pc _. apply bool_decide_eq_false. rewrite Hp. by destruct p, (pc_provider_type pc).
Qed.

End matches.

(** *** Examples *)

#[local] Instance demo_decimal : DecimalOps :=
  {| Decimal := Z; decimal_of_f64 := fun x => Some (f64_to_i64 x); decimal_parse_f64 := fun d => Some (f64_of_Z d) |}.

#[local] Instance demo_decimal_codec : DecimalCodec :=
  {| decimal_of_f32 := fun x => Some (f64_to_i64 x); decimal_of_value := as_i64; decimal_zero := (0 : Decimal);
     decimal_ge := fun a b : Decimal => b <=? a |}.

Definition demo_ext : ExternalMediaMetadata := {|
  em_provider := lit "hardcover"; em_external_id := lit "1"; em_title := Some (lit "New"); em_summary := Some (lit "About");
  em_page_count := None; em_series_name := None; em_series_external_id := None; em_number := None; em_day := None;
  em_month := None; em_year := Some 1999; em_genres := Some [lit "Horror"; lit "Comedy"]; em_tags := None; em_isbn := None;
  em_isbn_13 := None; em_writers := None; em_artists := None; em_colorists := None; em_letterers := None;
  em_cover_artists := None; em_cover_url := None; em_provider_url := None; em_subtitle := None; em_narrators := None;
  em_publisher := None; em_runtime_minutes := None; em_has_ebook := None; em_has_audiobook := None;
  em_audio_seconds := None; em_abridged := None; em_language := None |}.

Definition demo_match : MatchCandidate :=
  {| mc_provider := lit "hardcover"; mc_external_id := lit "1"; mc_metadata := MediaMeta demo_ext;
     mc_confidence := f32_one; mc_confidence_factors := [] |}.

Definition demo_stored : MediaRow := {|
  mr_title := Some (lit "Old"); mr_summary := None; mr_series := None; mr_number := None; mr_year := None;
  mr_page_count := None; mr_day := None; mr_month := None; mr_identifier_isbn := None; mr_genres := Some (lit "Drama, Comedy");
  mr_writers := None; mr_colorists := None; mr_letterers := None; mr_cover_artists := None; mr_pencillers := None;
  mr_metadata_source := None; mr_metadata_external_id := None;
  mr_locked_fields := Some (JArray [JString (lit "TITLE")]) |}.

Definition demo_db : MatchDb :=
  {| db_series_rows := ∅; db_media_rows := {[ lit "book" := demo_stored ]}; db_series_records := ∅;
     db_media_records := {[ lit "book" := {| fr_status := AwaitingReview; fr_accepted := None |} ]}; db_faults := [] |}.

(** The title is locked, the summary filled, the genres united. *)
Lemma media_match_exact_witness :
  let r := apply_media_match (lit "book") demo_match FillAndMergeLists [] [] demo_db in
  (mr_title <$> db_media_rows r.2 !! lit "book") = Some (Some (lit "Old")) /\
  (mr_summary <$> db_media_rows r.2 !! lit "book") = Some (Some (lit "About")) /\
  (mr_genres <$> db_media_rows r.2 !! lit "book") = Some (Some (lit "Comedy, Drama, Horror")) /\
  db_series_rows r.2 = db_series_rows demo_db.
Proof.
  intros r. split_and!; [vm_compute; reflexivity..|].
  eapply (media_match_exact (lit "book") demo_match FillAndMergeLists [] [] demo_db r.1 r.2). apply surjective_pairing.
Defined.

Lemma media_match_idempotent_witness :
  let m := media_merger demo_stored FillAndMergeLists [] [] in
  let once := apply_media_fields m demo_stored (with_source_media demo_stored (lit "hardcover") (lit "1")) demo_ext in
  apply_media_fields m once (with_source_media once (lit "hardcover") (lit "1")) demo_ext = once.
Proof.
  intros m once. apply (media_match_idempotent m demo_stored demo_ext (lit "hardcover") (lit "1"));
    (split; [vm_compute; repeat constructor; set_solver|apply (bool_decide_unpack _); vm_compute; exact I]).
Defined.

(** Without a stored row the request is not looked at: an excluded field is written and an
    override is dropped. *)
Example insert_ignores_request :
  let exclude := [Public.Title] in
  let overrides := [(Public.Summary, JString (lit "Mine"))] in
  let row := media_row_after None demo_ext demo_match FillGaps exclude overrides in
  mr_title row = Some (lit "New") /\ mr_summary row = Some (lit "About").
Proof. vm_compute. done. Qed.

(** An item the provider lists twice is stored twice, and once after the next match. *)
Example duplicate_item_kept :
  let items := [lit "Horror"; lit "Horror"] in
  comma_join (merged_items None items) = lit "Horror, Horror" /\
  comma_join (merged_items (Some (lit "Horror, Horror")) items) = lit "Horror".
Proof. vm_compute. done. Qed.
