(* ===== verification/SearchCache.v ===== *)
(** * The cache of provider searches

    Models [src/crates/integrations/metadata/src/search_cache.rs]: [TtlCache], a bounded
    map with a time to live, and [BriefSearchCache], which puts it in front of a provider.
    A clock reading is an argument of every call; the map is iterated in no particular
    order.  The searches of several users interleave: a search that misses asks the
    provider, and stores what it got when the answer arrives. *)

From stdpp Require Import base gmap list strings.
From Stdlib Require Import ZArith Lia.
From S2P Require Import Prelude.

#[local] Open Scope Z_scope.
#[local] Open Scope coppice_scope.

(** ** [TtlCache] *)

Section ttl.
Context {K V : Type} `{Countable K}.

Record CacheEntry := { ce_inserted_at : Z; ce_value : V }.

Record TtlCache := { tc_ttl : Z; tc_capacity : nat; tc_entries : gmap K CacheEntry }.

Definition new (ttl : Z) (capacity : nat) : TtlCache :=
  {| tc_ttl := ttl; tc_capacity := Nat.max capacity 1; tc_entries := ∅ |}.

Definition with_entries (c : TtlCache) (entries : gmap K CacheEntry) : TtlCache :=
  {| tc_ttl := tc_ttl c; tc_capacity := tc_capacity c; tc_entries := entries |}.

(** [entry.inserted_at.elapsed() < ttl]; an instant in the future has elapsed zero. *)
Definition live (ttl now : Z) (e : CacheEntry) : bool := Z.max 0 (now - ce_inserted_at e) <? ttl.

Definition get (now : Z) (key : K) (c : TtlCache) : option V :=
  tc_entries c !! key ≫= fun e => then_some (live (tc_ttl c) now e) (ce_value e).

(** [min_by_key]: the first of the oldest entries. *)
Definition oldest_key (entries : list (K * CacheEntry)) : option K :=
  match entries with
  | [] => None
  | first :: rest =>
      Some (fold_left (fun best kv => if ce_inserted_at kv.2 <? ce_inserted_at best.2 then kv else best) rest first).1
  end.

(** Room for a new key in a full cache: the expired entries go, then the oldest one. *)
Definition make_room (now : Z) (c : TtlCache) (entries : gmap K CacheEntry) : gmap K CacheEntry :=
  let kept := filter (fun kv => live (tc_ttl c) now kv.2 = true) entries in
  if (tc_capacity c <=? size kept)%nat then
    match oldest_key (map_to_list kept) with Some k => delete k kept | None => kept end
  else kept.

Definition insert (now : Z) (key : K) (value : V) (c : TtlCache) : TtlCache :=
  let entries := tc_entries c in
  let entries :=
    if (tc_capacity c <=? size entries)%nat && is_none (entries !! key) then make_room now c entries else entries in
  with_entries c (<[key := {| ce_inserted_at := now; ce_value := value |}]> entries).

Definition len (now : Z) (c : TtlCache) : nat :=
  length (List.filter (fun kv => live (tc_ttl c) now kv.2) (map_to_list (tc_entries c))).

Definition is_empty (now : Z) (c : TtlCache) : bool := (len now c =? 0)%nat.

(** *** Facts *)

Lemma oldest_key_spec entries k :
  oldest_key entries = Some k -> exists e, (k, e) ∈ entries /\ Forall (fun kv => ce_inserted_at e <= ce_inserted_at kv.2) entries.
Proof.
  destruct entries as [|first rest]; [done|]. simpl. intros [= <-].
  assert (Hgen : forall rest best, let m := fold_left (fun best kv =>
            if ce_inserted_at kv.2 <? ce_inserted_at best.2 then kv else best) rest best in
            (m = best \/ m ∈ rest) /\ ce_inserted_at m.2 <= ce_inserted_at best.2 /\
            Forall (fun kv : K * CacheEntry => ce_inserted_at m.2 <= ce_inserted_at kv.2) rest).
  { clear. induction rest as [|kv rest IH]; intros best m; subst m; simpl; [split_and!; [by left|lia|constructor]|].
    destruct (Z.ltb_spec (ce_inserted_at kv.2) (ce_inserted_at best.2)).
    - destruct (IH kv) as ([->|Hin] & Hle & Hall); (split_and!; [|lia|constructor; [lia|done]]).
      + right. left.
      + right. by right.
    - destruct (IH best) as ([->|Hin] & Hle & Hall); (split_and!; [|lia|constructor; [lia|done]]).
      + by left.
      + right. by right. }
  destruct (Hgen rest first) as (Hin & Hle & Hall). set (m := fold_left _ rest first) in *. exists m.2.
  split; [|by constructor]. rewrite <- surjective_pairing. destruct Hin as [->|Hin]; [left|by right].
Qed.

Lemma make_room_subset now c entries : make_room now c entries ⊆ entries.
Proof.
  unfold make_room. assert (Hf := map_filter_subseteq (fun kv : K * CacheEntry => live (tc_ttl c) now kv.2 = true) entries).
  destruct (_ <=? _)%nat; [|done]. destruct (oldest_key _); [|done]. etrans; [apply delete_subseteq|done].
Qed.

Lemma make_room_size now c entries :
  (0 < tc_capacity c)%nat -> (size entries <= tc_capacity c)%nat -> (size (make_room now c entries) < tc_capacity c)%nat.
Proof.
  intros Hc Hs. unfold make_room. set (kept := filter _ entries).
  assert (Hk : (size kept <= size entries)%nat) by (apply map_subseteq_size, map_filter_subseteq).
  destruct (Nat.leb_spec (tc_capacity c) (size kept)) as [Hge|]; [|lia].
  destruct (oldest_key (map_to_list kept)) as [k|] eqn:E.
  - destruct (oldest_key_spec _ _ E) as (e & Hin%elem_of_map_to_list & _). rewrite map_size_delete_Some by eauto. lia.
  - destruct (map_to_list kept) as [|] eqn:El; [|done].
    rewrite <- length_map_to_list, El in Hge. simpl in Hge. lia.
Qed.

(** What an insertion does to the other keys: a live entry is lost only when the cache is
    full of live entries, and then exactly one that is at least as old as all of them. *)
Lemma insert_others now key value c k e :
  k <> key -> tc_entries c !! k = Some e -> live (tc_ttl c) now e = true ->
  tc_entries (insert now key value c) !! k = Some e \/
  ((tc_capacity c <= size (filter (fun kv => live (tc_ttl c) now kv.2 = true) (tc_entries c)))%nat /\
   forall k' e', tc_entries c !! k' = Some e' -> live (tc_ttl c) now e' = true ->
     ce_inserted_at e <= ce_inserted_at e' /\
     (k' <> key -> k' <> k -> tc_entries (insert now key value c) !! k' = Some e')).
Proof.
  intros Hk He Hlive. unfold insert. cbn [tc_entries with_entries]. rewrite lookup_insert_ne by done.
  destruct (_ && _); [|by left]. unfold make_room. set (kept := filter _ (tc_entries c)).
  assert (Hkept : forall k e, tc_entries c !! k = Some e -> live (tc_ttl c) now e = true -> kept !! k = Some e).
  { intros k1 e1 H1' H2. by apply map_lookup_filter_Some. }
  destruct (Nat.leb_spec (tc_capacity c) (size kept)); [|left; by apply Hkept].
  destruct (oldest_key (map_to_list kept)) as [o|] eqn:E; [|left; by apply Hkept].
  destruct (decide (o = k)) as [->|Hne]; [|left; rewrite lookup_delete_ne by done; by apply Hkept].
  right. split; [done|]. destruct (oldest_key_spec _ _ E) as (e0 & Hin%elem_of_map_to_list & Hall).
  rewrite (Hkept _ _ He Hlive) in Hin. injection Hin as <-. intros k' e' He' Hlive'.
  split.
  - rewrite Forall_forall in Hall. apply (Hall (k', e')). by apply elem_of_map_to_list, Hkept.
  - intros Hkey' Hk'. rewrite lookup_insert_ne, lookup_delete_ne by done. by apply Hkept.
Qed.

End ttl.

Arguments CacheEntry : clear implicits.
Arguments TtlCache K V {_ _}.

(** ** [BriefSearchCache] *)

Record CacheKey := { ck_scope : str; ck_query : str; ck_limit : Z }.

#[export] Instance CacheKey_eq_dec : EqDecision CacheKey.
Proof. solve_decision. Defined.

#[export] Instance CacheKey_countable : Countable CacheKey.
Proof.
  apply (inj_countable' (fun k => (ck_scope k, ck_query k, ck_limit k))
           (fun k => {| ck_scope := k.1.1; ck_query := k.1.2; ck_limit := k.2 |})).
  by intros [].
Defined.

Section brief.
Context `{Lowercase} {O E : Type}.

Definition normalize_query (title : str) : str := str_join [32] (to_lowercase <$> split_whitespace title).

Definition cache_key (scope title : str) (limit : option Z) : CacheKey :=
  {| ck_scope := scope; ck_query := normalize_query title; ck_limit := default 10 limit |}.

(** The part of [search_media_brief] before the provider is asked, and the part after. *)
Definition search_begin (now : Z) (scope title : str) (limit : option Z) (c : TtlCache CacheKey O) : option O :=
  get now (cache_key scope title limit) c.

Definition search_end (now : Z) (scope title : str) (limit : option Z) (answer : result O E) (c : TtlCache CacheKey O)
  : result O E * TtlCache CacheKey O :=
  match answer with
  | Ok outcome => (Ok outcome, insert now (cache_key scope title limit) outcome c)
  | Err e => (Err e, c)
  end.

(** A search that nothing interrupts. *)
Definition search_media_brief (now : Z) (scope title : str) (limit : option Z) (provider : result O E)
    (c : TtlCache CacheKey O) : result O E * TtlCache CacheKey O :=
  match search_begin now scope title limit c with
  | Some hit => (Ok hit, c)
  | None => search_end now scope title limit provider c
  end.

(** An outcome the provider returned: for whom, for what, when. *)
Record Answer := { an_scope : str; an_title : str; an_limit : option Z; an_at : Z; an_outcome : O }.

(** The cache, the latest reading of the clock, the outcomes the provider returned in the
    order they came, and the searches still waiting for the provider. *)
Record Searches := {
  ss_cache : TtlCache CacheKey O;
  ss_now : Z;
  ss_answers : list Answer;
  ss_waiting : list (str * str * option Z);
}.

Inductive search_step : Searches -> Searches -> Prop :=
| search_hits s now scope title limit hit :
    ss_now s <= now -> search_begin now scope title limit (ss_cache s) = Some hit ->
    search_step s {| ss_cache := ss_cache s; ss_now := now; ss_answers := ss_answers s; ss_waiting := ss_waiting s |}
| search_misses s now scope title limit :
    ss_now s <= now -> search_begin now scope title limit (ss_cache s) = None ->
    search_step s {| ss_cache := ss_cache s; ss_now := now; ss_answers := ss_answers s;
                     ss_waiting := ss_waiting s ++ [(scope, title, limit)] |}
| search_answered s now w1 scope title limit w2 outcome r cache' :
    ss_now s <= now -> ss_waiting s = w1 ++ (scope, title, limit) :: w2 ->
    search_end now scope title limit (Ok outcome) (ss_cache s) = (r, cache') ->
    search_step s {| ss_cache := cache'; ss_now := now;
                     ss_answers := ss_answers s ++ [{| an_scope := scope; an_title := title; an_limit := limit; an_at := now; an_outcome := outcome |}];
                     ss_waiting := w1 ++ w2 |}
| search_failed s now w1 scope title limit w2 e r cache' :
    ss_now s <= now -> ss_waiting s = w1 ++ (scope, title, limit) :: w2 ->
    search_end now scope title limit (Err e) (ss_cache s) = (r, cache') ->
    search_step s {| ss_cache := cache'; ss_now := now; ss_answers := ss_answers s; ss_waiting := w1 ++ w2 |}.

Definition searches_start (ttl : Z) (capacity : nat) (now : Z) : Searches :=
  {| ss_cache := new ttl capacity; ss_now := now; ss_answers := []; ss_waiting := [] |}.

(** The same words up to case and spacing, for the same account, and the same number of
    results, ten if none is given. *)
Definition same_search (scope title : str) (limit : option Z) (a : Answer) : Prop :=
  an_scope a = scope /\
  str_join [32] (to_lowercase <$> split_whitespace (an_title a)) = str_join [32] (to_lowercase <$> split_whitespace title) /\
  default 10 (an_limit a) = default 10 limit.

Lemma same_search_key scope title limit a :
  same_search scope title limit a <-> cache_key (an_scope a) (an_title a) (an_limit a) = cache_key scope title limit.
Proof. unfold same_search, cache_key, normalize_query. split; [by intros (-> & -> & ->)|]. by intros [= -> -> ->]. Qed.

(** The last answer with a key. *)
Definition latest (key : CacheKey) (answers : list Answer) (a : Answer) : Prop :=
  exists before after, answers = before ++ a :: after /\ cache_key (an_scope a) (an_title a) (an_limit a) = key /\
    Forall (fun b => cache_key (an_scope b) (an_title b) (an_limit b) <> key) after.

Lemma latest_new key answers a : cache_key (an_scope a) (an_title a) (an_limit a) = key -> latest key (answers ++ [a]) a.
Proof. intros Hk. by exists answers, []. Qed.

Lemma latest_kept key answers a b :
  latest key answers a -> cache_key (an_scope b) (an_title b) (an_limit b) <> key -> latest key (answers ++ [b]) a.
Proof.
  intros (before & after & -> & Hk & Hafter) Hb. exists before, (after ++ [b]). rewrite <- (assoc_L (++)). split_and!; [done..|].
  apply Forall_app. by split; [|constructor].
Qed.

Record searches_ok (ttl : Z) (capacity : nat) (s : Searches) : Prop := {
  so_ttl : tc_ttl (ss_cache s) = ttl;
  so_capacity : tc_capacity (ss_cache s) = Nat.max capacity 1;
  so_size : (size (tc_entries (ss_cache s)) <= Nat.max capacity 1)%nat;
  so_latest : forall key e, tc_entries (ss_cache s) !! key = Some e ->
    (exists a, latest key (ss_answers s) a /\ an_at a = ce_inserted_at e /\ an_outcome a = ce_value e) /\ ce_inserted_at e <= ss_now s;
}.

Lemma insert_size now key value (c : TtlCache CacheKey O) :
  (0 < tc_capacity c)%nat -> (size (tc_entries c) <= tc_capacity c)%nat ->
  (size (tc_entries (insert now key value c)) <= tc_capacity c)%nat.
Proof.
  intros Hc Hs. unfold insert. cbn [tc_entries with_entries].
  destruct (tc_entries c !! key) as [e|] eqn:Ek; cbn [is_none].
  - rewrite andb_false_r. by rewrite map_size_insert_Some by eauto.
  - rewrite andb_true_r. destruct (Nat.leb_spec (tc_capacity c) (size (tc_entries c))).
    + pose proof (make_room_size now c (tc_entries c) Hc Hs) as Hroom. rewrite map_size_insert_None; [lia|].
      destruct (make_room now c (tc_entries c) !! key) as [e|] eqn:E'; [|done].
      pose proof (lookup_weaken _ _ _ _ E' (make_room_subset now c (tc_entries c))). congruence.
    + rewrite map_size_insert_None by done. lia.
Qed.

Lemma search_step_ok ttl capacity s s' : searches_ok ttl capacity s -> search_step s s' -> searches_ok ttl capacity s'.
Proof.
  intros [Ht Hc Hs Hl] Hstep.
  assert (Hkeep : forall now waiting, ss_now s <= now -> searches_ok ttl capacity
            {| ss_cache := ss_cache s; ss_now := now; ss_answers := ss_answers s; ss_waiting := waiting |}).
  { intros now waiting Hnow. constructor; try done. intros key e He. destruct (Hl key e He). split; [done|]. simpl. lia. }
  destruct Hstep as [| |? now w1 scope title limit w2 outcome r cache' Hnow _ Hend|? now w1 scope title limit w2 e r cache' Hnow _ Hend];
    try by apply Hkeep.
  - injection Hend as <- <-. set (key := cache_key scope title limit). constructor; cbn [ss_cache ss_answers ss_now]; try done.
    + rewrite <- Hc. apply insert_size; rewrite Hc; [lia|done].
    + intros k e. unfold insert. cbn [tc_entries with_entries].
      destruct (decide (key = k)) as [<-|Hne].
      * rewrite lookup_insert_eq. intros [= <-]. split; [|simpl; lia]. eexists. split; [by apply latest_new|done].
      * rewrite lookup_insert_ne by done. intros He.
        destruct (Hl k e) as [(a & Ha & Hat) ?]; [|split; [exists a; split; [by apply latest_kept|done]|lia]]. destruct (_ && _); [|done].
        by apply (lookup_weaken _ _ _ _ He), make_room_subset.
  - injection Hend as <- <-. by apply Hkeep.
Qed.

Lemma searches_reachable ttl capacity start s :
  rtc search_step (searches_start ttl capacity start) s -> searches_ok ttl capacity s.
Proof.
  intros Hrun. refine (rtc_ind_r (searches_ok ttl capacity) _ _ _ s Hrun); [|intros ? ? _ Hstep Hok; by eapply search_step_ok].
  constructor; [done|done|simpl; rewrite map_size_empty; lia|]. intros key e. simpl. by rewrite lookup_empty.
Qed.

(** C37.  The cache is transparent up to its time to live, however searches interleave and
    whichever fail.  It never holds more than its capacity; and whenever a search finds
    something, that is an outcome the provider returned for the same scope, the same words up
    to case and spacing and the same limit (ten by default), younger than the time to live,
    and no later answer of the provider was for these. *)
Theorem search_cache_transparent ttl capacity start s :
  rtc search_step (searches_start ttl capacity start) s ->
  (size (tc_entries (ss_cache s)) <= Nat.max capacity 1)%nat /\
  forall now scope title limit hit,
    ss_now s <= now -> search_begin now scope title limit (ss_cache s) = Some hit ->
    exists before a after,
      ss_answers s = before ++ a :: after /\ an_outcome a = hit /\ an_at a <= now < an_at a + ttl /\
      same_search scope title limit a /\ Forall (fun b => ~ same_search scope title limit b) after.
Proof.
  intros [Ht Hc Hs Hl]%searches_reachable. split; [done|]. intros now scope title limit hit Hnow Hhit.
  unfold search_begin, get in Hhit. apply bind_Some in Hhit as (e & He & Hlive). apply then_some_Some in Hlive as [Hlive <-].
  destruct (Hl _ _ He) as [(a & (before & after & Hans & Hk & Hafter) & Hat & Hout) Hins].
  exists before, a, after. split_and!; [done|done|..].
  - lia.
  - unfold live in Hlive. apply Z.ltb_lt in Hlive. lia.
  - by apply same_search_key.
  - eapply Forall_impl; [exact Hafter|]. intros b Hb Hsame. by apply Hb, same_search_key.
Qed.

End brief.

(** Two searches for one query, the second served from the cache. *)
#[local] Instance demo_lower : Lowercase := {| to_lowercase := map to_ascii_lowercase |}.

Definition demo_searches : Searches (O := Z) :=
  {| ss_cache := (search_end (E := unit) 5 (lit "me") (lit "Dune") None (Ok 42) (new 60 8)).2; ss_now := 5;
     ss_answers := [{| an_scope := lit "me"; an_title := lit "Dune"; an_limit := None; an_at := 5; an_outcome := 42 |}]; ss_waiting := [] |}.

Lemma search_cache_transparent_witness :
  exists before a after,
    ss_answers demo_searches = before ++ a :: after /\ an_outcome a = 42 /\ an_at a <= 30 < an_at a + 60 /\
    same_search (lit "me") (lit " dune ") (Some 10) a /\ Forall (fun b => ~ same_search (lit "me") (lit " dune ") (Some 10) b) after.
Proof.
  apply (search_cache_transparent (E := unit) 60 8 0 demo_searches).
  - eapply rtc_l; [apply (search_misses (searches_start 60 8 0) 3 (lit "me") (lit "Dune") None); [simpl; lia|vm_compute; reflexivity]|].
    apply rtc_once.
    refine (search_answered (E := unit) {| ss_cache := new 60 8; ss_now := 3; ss_answers := [];
              ss_waiting := [(lit "me", lit "Dune", None)] |} 5 [] (lit "me") (lit "Dune") None [] 42 (Ok 42) _ _ _ _);
      [simpl; lia|reflexivity|reflexivity].
  - simpl. lia.
  - vm_compute. reflexivity.
Defined.

(** Another account is not served what this one found. *)
Example other_scope_misses : search_begin 30 (lit "you") (lit "Dune") None (ss_cache demo_searches) = None.
Proof. vm_compute. reflexivity. Qed.
