(* ===== verification/PageCache.v ===== *)
(** * The page cache of remote sources

    Models [src/crates/provider/src/cache.rs]: a directory of cached pages bounded in
    bytes, with an index in memory that knows sizes and recency.  The index is behind a
    lock; file operations happen outside of it, may fail, and interleave with those of
    other calls.  A call is a [Task] that advances one lock section or one file operation
    at a time.  File names are relative to the root of the cache; the MD5 digest is the
    class [Digest]. *)

From stdpp Require Import base gmap list strings sorting fin_maps.
From Stdlib Require Import ZArith Lia.
From S2P Require Import Prelude MediaTypes.

#[local] Open Scope Z_scope.
#[local] Open Scope coppice_scope.

(** [{:x}] of an MD5 digest. *)
Class Digest := { md5_hex : str -> str }.

Class DigestLaws `{Digest} : Prop := { md5_hex_slash item : 47 ∉ md5_hex item }.

(** ** Keys *)

Record PageKey := { pk_source : str; pk_item : str; pk_page : N }.

Definition sanitize_component (value : str) : str :=
  map (fun c => if is_ascii_alphanumeric c || bool_decide (c ∈ [45; 95; 46]) then c else 95) value.

(** [{:05}] of a [u32]. *)
Definition pad5 (n : Z) : str := replicate (5 - length (show_nonneg n)) 48 ++ show_nonneg n.

Definition item_prefix `{Digest} (source item : str) : str :=
  sanitize_component source ++ [47] ++ md5_hex item ++ [47].

Definition index_key `{Digest} (key : PageKey) : str :=
  item_prefix (pk_source key) (pk_item key) ++ pad5 (Z.of_N (pk_page key)).

Definition file_path (index_key extension : str) : str := index_key ++ [46] ++ extension.

(** ** The index *)

Record Entry := { en_extension : str; en_size : Z; en_last_used : Z }.

Record State := { st_entries : gmap str Entry; st_total_bytes : Z; st_clock : Z }.

Definition default_state : State := {| st_entries := ∅; st_total_bytes := 0; st_clock := 0 |}.

Definition wrap_u64 (z : Z) : Z := z mod 2 ^ 64.

Definition touch (key : str) (s : State) : option Entry * State :=
  let clock := wrap_u64 (st_clock s + 1) in
  match st_entries s !! key with
  | None => (None, {| st_entries := st_entries s; st_total_bytes := st_total_bytes s; st_clock := clock |})
  | Some e =>
      let e := {| en_extension := en_extension e; en_size := en_size e; en_last_used := clock |} in
      (Some e, {| st_entries := <[key := e]> (st_entries s); st_total_bytes := st_total_bytes s; st_clock := clock |})
  end.

Definition index_insert (key extension : str) (size : Z) (s : State) : option Entry * State :=
  let clock := wrap_u64 (st_clock s + 1) in
  let previous := st_entries s !! key in
  let total :=
    match previous with Some p => wrap_u64 (st_total_bytes s - en_size p) | None => st_total_bytes s end in
  (previous,
   {| st_entries := <[key := {| en_extension := extension; en_size := size; en_last_used := clock |}]> (st_entries s);
      st_total_bytes := wrap_u64 (total + size); st_clock := clock |}).

Definition index_remove (key : str) (s : State) : option Entry * State :=
  match st_entries s !! key with
  | None => (None, s)
  | Some e =>
      (Some e, {| st_entries := delete key (st_entries s); st_total_bytes := wrap_u64 (st_total_bytes s - en_size e);
                  st_clock := st_clock s |})
  end.

(** Entries by age; the map is iterated in no particular order. *)
Definition older (a b : str * Z) : Prop := a.2 <= b.2.

#[export] Instance older_dec a b : Decision (older a b).
Proof. unfold older. apply _. Defined.

Definition by_age (s : State) : list (str * Z) :=
  merge_sort older ((fun kv => (kv.1, en_last_used kv.2)) <$> map_to_list (st_entries s)).

Fixpoint evict_loop (max_bytes : Z) (keys : list (str * Z)) (s : State) : list (str * Entry) * State :=
  match keys with
  | [] => ([], s)
  | (key, _) :: keys =>
      if st_total_bytes s <=? max_bytes then ([], s)
      else
        match index_remove key s with
        | (Some e, s) => let '(evicted, s) := evict_loop max_bytes keys s in ((key, e) :: evicted, s)
        | (None, s) => evict_loop max_bytes keys s
        end
  end.

Definition evict_to (max_bytes : Z) (s : State) : list (str * Entry) * State :=
  if st_total_bytes s <=? max_bytes then ([], s) else evict_loop max_bytes (by_age s) s.

(** The entries of one item, in no particular order. *)
Fixpoint remove_keys (keys : list str) (s : State) : list (str * Entry) * State :=
  match keys with
  | [] => ([], s)
  | key :: keys =>
      match index_remove key s with
      | (Some e, s) => let '(removed, s) := remove_keys keys s in ((key, e) :: removed, s)
      | (None, s) => remove_keys keys s
      end
  end.

Definition invalidate_index `{Digest} (source item : str) (s : State) : list (str * Entry) * State :=
  remove_keys (List.filter (fun key => starts_with key (item_prefix source item)) (map_to_list (st_entries s)).*1) s.

(** ** Opening a directory *)

(** [rsplit_once('.')]. *)
Definition rsplit_once_dot (name : str) : option (str * str) :=
  match drop_while (fun c => negb (c =? 46)) (rev name) with
  | [] => None
  | _ :: before => Some (rev before, rev (take_while (fun c => negb (c =? 46)) (rev name)))
  end.

(** What [read_dir] and the metadata calls report; [None] where a call fails.  A page is
    a regular file or not, with its length and its age in seconds when the platform knows
    it and it is after the epoch. *)
Record PageFile := { pf_name : str; pf_metadata : option (bool * Z * option Z) }.

Record Dir (A : Type) := { di_name : str; di_is_dir : option bool; di_entries : option (list A) }.
Arguments di_name {A} _. Arguments di_is_dir {A} _. Arguments di_entries {A} _.

Abbreviation ItemDir := (Dir PageFile).
Abbreviation SourceDir := (Dir ItemDir).

(** Index key, extension, size and age. *)
Abbreviation Found := (str * str * Z * Z)%type.

(** One page: a left-over temporary file is deleted, which may fail silently. *)
Definition scan_page (source item : str) (page : PageFile) : result (option Found) unit :=
  if ends_with (pf_name page) (lit ".tmp") then Ok None
  else
    match rsplit_once_dot (pf_name page) with
    | None => Ok None
    | Some (stem, extension) =>
        match pf_metadata page with
        | None => Err tt
        | Some (is_file, len, modified) =>
            if negb is_file then Ok None
            else Ok (Some (source ++ [47] ++ item ++ [47] ++ stem, extension, len, default 0 modified))
        end
    end.

Fixpoint collect_results {A B E} (f : A -> result (list B) E) (l : list A) : result (list B) E :=
  match l with
  | [] => Ok []
  | x :: l => let? found := f x in let? rest := collect_results f l in Ok (found ++ rest)
  end.

Definition scan_dir {A B} (f : str -> A -> result (list B) unit) (d : Dir A) : result (list B) unit :=
  match di_is_dir d with
  | None => Err tt
  | Some false => Ok []
  | Some true => match di_entries d with None => Err tt | Some entries => collect_results (f (di_name d)) entries end
  end.

Definition scan (root : option (list SourceDir)) : result (list Found) unit :=
  match root with
  | None => Err tt
  | Some sources =>
      collect_results
        (scan_dir (fun source =>
           scan_dir (fun item page => let? found := scan_page source item page in Ok (option_list found))))
        sources
  end.

Definition found_before (a b : Found) : Prop := a.2 <= b.2.

#[export] Instance found_before_dec a b : Decision (found_before a b).
Proof. unfold found_before. apply _. Defined.

Definition index_found (s : State) (f : Found) : State :=
  let '(key, extension, size, _) := f in (index_insert key extension size s).2.

Definition open_index (files : list Found) : State := fold_left index_found (merge_sort found_before files) default_state.

(** [open]: the index of the files found and the files evicted from it. *)
Definition open (max_bytes : Z) (root : option (list SourceDir)) : result (list (str * Entry) * State) unit :=
  let? files := scan root in Ok (evict_to max_bytes (open_index files)).

(** ** Calls *)

(** The files by path, and the index. *)
Record World := { wo_files : gmap str (list Z); wo_state : State }.

Definition with_state (w : World) (s : State) : World := {| wo_files := wo_files w; wo_state := s |}.
Definition with_files (w : World) (files : gmap str (list Z)) : World := {| wo_files := files; wo_state := wo_state w |}.

Definition put_extension (content_type : ContentType) : str :=
  match extension content_type with [] => lit "bin" | ext => ext end.

Definition temporary_path (path uuid : str) : str := path ++ [46] ++ uuid ++ lit ".tmp".

Inductive Answer :=
| Hit (page : PageKey) (content_type : ContentType) (bytes : list Z)
| Miss
| Stored
| IoFailed
| Removed.

(** Where a call is between two awaits. *)
Inductive Task :=
| GetReading (page : PageKey) (extension : str)
| GetDropping (key : str)
| PutWriting (key extension : str) (bytes : list Z) (temporary : str)
| PutRenaming (key extension : str) (bytes : list Z) (temporary : str)
| PutDiscarding (temporary : str)
| PutIndexing (key extension : str) (bytes : list Z)
| PutSweeping (size : Z) (path : str)
| PutEnforcing (size : Z)
| Removing (answer : Answer) (paths : list str).

Inductive Outcome := Next (t : Task) | Return (a : Answer).

Definition removing (answer : Answer) (gone : list (str * Entry)) : Outcome :=
  match gone with [] => Return answer | _ => Next (Removing answer ((fun kv => file_path kv.1 (en_extension kv.2)) <$> gone)) end.

Section calls.
Context `{Lowercase, Digest}.

(** One lock section or file operation.  [ok] is whether the operation succeeds; a write
    that fails may leave [torn] behind. *)
Definition task_step (max_bytes : Z) (ok : bool) (torn : option (list Z)) (t : Task) (w : World) : World * Outcome :=
  match t with
  | GetReading page extension =>
      match wo_files w !! file_path (index_key page) extension with
      | Some bytes => if ok then (w, Return (Hit page (from_extension extension) bytes)) else (w, Next (GetDropping (index_key page)))
      | None => (w, Next (GetDropping (index_key page)))
      end
  | GetDropping key => (with_state w (index_remove key (wo_state w)).2, Return Miss)
  | PutWriting key extension bytes temporary =>
      if ok then
        (with_files w (<[temporary := bytes]> (wo_files w)), Next (PutRenaming key extension bytes temporary))
      else
        (with_files w match torn with Some part => <[temporary := part]> (wo_files w) | None => wo_files w end,
         Return IoFailed)
  | PutRenaming key extension bytes temporary =>
      match wo_files w !! temporary with
      | Some content =>
          if ok then
            (with_files w (<[file_path key extension := content]> (delete temporary (wo_files w))),
             Next (PutIndexing key extension bytes))
          else (w, Next (PutDiscarding temporary))
      | None => (w, Next (PutDiscarding temporary))
      end
  | PutDiscarding temporary =>
      (if ok then with_files w (delete temporary (wo_files w)) else w, Return IoFailed)
  | PutIndexing key extension bytes =>
      let size := Z.of_nat (length bytes) in
      let '(previous, s) := index_insert key extension size (wo_state w) in
      (with_state w s,
       Next match previous with
            | Some p =>
                if bool_decide (en_extension p = extension) then PutEnforcing size
                else PutSweeping size (file_path key (en_extension p))
            | None => PutEnforcing size
            end)
  | PutSweeping size path => (if ok then with_files w (delete path (wo_files w)) else w, Next (PutEnforcing size))
  | PutEnforcing _ =>
      let '(evicted, s) := evict_to max_bytes (wo_state w) in
      (with_state w s, removing Stored evicted)
  | Removing answer [] => (w, Return answer)
  | Removing answer (path :: paths) =>
      (if ok then with_files w (delete path (wo_files w)) else w,
       match paths with [] => Return answer | _ => Next (Removing answer paths) end)
  end.

Definition get_begin (key : PageKey) (w : World) : World * Outcome :=
  match touch (index_key key) (wo_state w) with
  | (None, s) => (with_state w s, Return Miss)
  | (Some e, s) => (with_state w s, Next (GetReading key (en_extension e)))
  end.

(** [ok] is whether the directory of the item can be created. *)
Definition put_begin (ok : bool) (uuid : str) (key : PageKey) (content_type : ContentType) (bytes : list Z) : Outcome :=
  let path := file_path (index_key key) (put_extension content_type) in
  if ok then Next (PutWriting (index_key key) (put_extension content_type) bytes (temporary_path path uuid))
  else Return IoFailed.

Definition invalidate_begin (source item : str) (w : World) : World * Outcome :=
  let '(gone, s) := invalidate_index source item (wo_state w) in (with_state w s, removing Removed gone).

(** A call that nothing interrupts; [script] says how its operations fare. *)
Fixpoint run_call (max_bytes : Z) (script : list (bool * option (list Z))) (o : Outcome) (w : World)
  : World * option Answer :=
  match o with
  | Return a => (w, Some a)
  | Next t =>
      match script with
      | [] => (w, None)
      | (ok, torn) :: script => let '(w, o) := task_step max_bytes ok torn t w in run_call max_bytes script o w
      end
  end.

Definition contains (key : PageKey) (s : State) : bool := negb (is_none (st_entries s !! index_key key)).

Definition cached_content_type (key : PageKey) (s : State) : option ContentType :=
  (fun e => from_extension (en_extension e)) <$> st_entries s !! index_key key.

(** [get_or_fetch]: [fetched] is what the source answers when it is asked. *)
Definition get_or_fetch {E} (max_bytes : Z) (get_script put_script : list (bool * option (list Z))) (dir_ok : bool)
    (uuid : str) (key : PageKey) (fetched : result (ContentType * list Z) E) (w : World)
  : World * option (result (ContentType * list Z) E) :=
  let '(w, o) := get_begin key w in
  match run_call max_bytes get_script o w with
  | (w, None) => (w, None)
  | (w, Some (Hit _ content_type bytes)) => (w, Some (Ok (content_type, bytes)))
  | (w, Some _) =>
      match fetched with
      | Err e => (w, Some (Err e))
      | Ok (content_type, bytes) =>
          match run_call max_bytes put_script (put_begin dir_ok uuid key content_type bytes) w with
          | (w, None) => (w, None)
          | (w, Some _) => (w, Some (Ok (content_type, bytes)))
          end
      end
  end.

(** ** Interleaved calls *)

(** The bytes a put still answers for: it has not brought the cache below its bound. *)
Definition task_weight (t : Task) : Z :=
  match t with
  | PutWriting _ _ bytes _ | PutRenaming _ _ bytes _ | PutIndexing _ _ bytes => Z.of_nat (length bytes)
  | PutSweeping size _ | PutEnforcing size => size
  | _ => 0
  end.

Definition weights (ts : list Task) : Z := sum_Z (task_weight <$> ts).

Definition task_temporary (t : Task) : option str :=
  match t with
  | PutWriting _ _ _ temporary | PutRenaming _ _ _ temporary | PutDiscarding temporary => Some temporary
  | _ => None
  end.

(** The world, the calls in progress, and what was asked and answered so far. *)
Record System := {
  sy_world : World;
  sy_tasks : list Task;
  sy_puts : list (PageKey * ContentType * list Z);
  sy_answers : list Answer;
}.

Definition next_tasks (o : Outcome) : list Task := match o with Next t => [t] | Return _ => [] end.
Definition next_answers (o : Outcome) : list Answer := match o with Next _ => [] | Return a => [a] end.

(** A put is admitted while the cache and the puts in progress fit in a [u64], and its
    UUID is not in use. *)
Inductive cache_step (max_bytes : Z) : System -> System -> Prop :=
| get_begins s key w o :
    get_begin key (sy_world s) = (w, o) ->
    cache_step max_bytes s
      {| sy_world := w; sy_tasks := sy_tasks s ++ next_tasks o; sy_puts := sy_puts s;
         sy_answers := sy_answers s ++ next_answers o |}
| put_begins s ok uuid key content_type bytes o :
    put_begin ok uuid key content_type bytes = o ->
    max_bytes + weights (sy_tasks s) + Z.of_nat (length bytes) <= u64_max ->
    temporary_path (file_path (index_key key) (put_extension content_type)) uuid ∉ omap task_temporary (sy_tasks s) ->
    cache_step max_bytes s
      {| sy_world := sy_world s; sy_tasks := sy_tasks s ++ next_tasks o;
         sy_puts := sy_puts s ++ [(key, content_type, bytes)];
         sy_answers := sy_answers s ++ next_answers o |}
| invalidate_begins s source item w o :
    invalidate_begin source item (sy_world s) = (w, o) ->
    cache_step max_bytes s
      {| sy_world := w; sy_tasks := sy_tasks s ++ next_tasks o; sy_puts := sy_puts s;
         sy_answers := sy_answers s ++ next_answers o |}
| task_steps s t1 t t2 ok torn w o :
    sy_tasks s = t1 ++ t :: t2 ->
    task_step max_bytes ok torn t (sy_world s) = (w, o) ->
    cache_step max_bytes s
      {| sy_world := w; sy_tasks := t1 ++ next_tasks o ++ t2; sy_puts := sy_puts s;
         sy_answers := sy_answers s ++ next_answers o |}.

End calls.

(** ** Proofs *)

(** *** The index *)

Definition index_size (m : gmap str Entry) : Z := map_fold (fun _ e acc => en_size e + acc) 0 m.

Record state_ok (s : State) : Prop := {
  so_total : st_total_bytes s = index_size (st_entries s);
  so_sizes : map_Forall (fun _ e => 0 <= en_size e) (st_entries s);
  so_fits : index_size (st_entries s) <= u64_max;
}.

Lemma index_size_delete m k e : m !! k = Some e -> index_size m = en_size e + index_size (delete k m).
Proof. intros Hk. unfold index_size. rewrite (map_fold_delete_L _ _ k e m); [done| |done]. intros; lia. Qed.

Lemma index_size_insert m k e : m !! k = None -> index_size (<[k := e]> m) = en_size e + index_size m.
Proof. intros Hk. unfold index_size. rewrite map_fold_insert_L; [done| |done]. intros; lia. Qed.

(** Replacing an entry replaces its size. *)
Lemma index_size_replace m k e :
  index_size (<[k := e]> m) = en_size e + index_size m - default 0 (en_size <$> m !! k).
Proof.
  destruct (m !! k) as [e'|] eqn:Hk; cbn.
  - rewrite <- insert_delete_eq, index_size_insert, (index_size_delete m k e') by (done || apply lookup_delete_eq). lia.
  - rewrite index_size_insert by done. lia.
Qed.

Lemma index_size_nonneg m : map_Forall (fun _ e => 0 <= en_size e) m -> 0 <= index_size m.
Proof.
  induction m as [|k e m Hk IH] using map_ind; [done|].
  intros [He Hm]%map_Forall_insert; [|done]. rewrite index_size_insert by done. specialize (IH Hm). lia.
Qed.

Lemma wrap_u64_id z : in_u64 z -> wrap_u64 z = z.
Proof. unfold in_u64, u64_max, wrap_u64. intros. apply Z.mod_small. lia. Qed.

Lemma default_state_ok : state_ok default_state.
Proof. split; [done|apply map_Forall_empty|done]. Qed.

Lemma touch_ok key s :
  state_ok s -> state_ok (touch key s).2 /\ index_size (st_entries (touch key s).2) = index_size (st_entries s) /\
  (touch key s).1 = (fun e => {| en_extension := en_extension e; en_size := en_size e;
                                 en_last_used := wrap_u64 (st_clock s + 1) |}) <$> st_entries s !! key /\
  (forall k, en_extension <$> st_entries (touch key s).2 !! k = en_extension <$> st_entries s !! k).
Proof.
  intros [Ht Hs Hf]. unfold touch. destruct (st_entries s !! key) as [e|] eqn:Hk; cbn; [|by split_and!].
  assert (E : index_size (<[key := {| en_extension := en_extension e; en_size := en_size e;
                 en_last_used := wrap_u64 (st_clock s + 1) |}]> (st_entries s)) = index_size (st_entries s))
    by (rewrite index_size_replace, Hk; cbn; lia).
  split_and!; [|done|done|].
  - constructor; cbn; [by rewrite E| |by rewrite E]. apply map_Forall_insert_2; [cbn; by apply (Hs key)|done].
  - intros k. destruct (decide (key = k)) as [<-|Hne]; [by rewrite lookup_insert_eq, Hk|by rewrite lookup_insert_ne].
Qed.

Lemma index_insert_ok key extension size s :
  state_ok s -> 0 <= size -> index_size (st_entries s) + size <= u64_max ->
  state_ok (index_insert key extension size s).2 /\
  index_size (st_entries (index_insert key extension size s).2) <= index_size (st_entries s) + size.
Proof.
  intros [Ht Hs Hf] Hsize Hfit. unfold index_insert. cbn.
  set (e := {| en_extension := _; en_size := _; en_last_used := _ |}).
  assert (Hn : map_Forall (fun _ e => 0 <= en_size e) (<[key := e]> (st_entries s)))
    by (apply map_Forall_insert_2; done).
  pose proof (index_size_nonneg _ Hn) as Hpos. pose proof (index_size_nonneg _ Hs) as Hpos'.
  pose proof (index_size_replace (st_entries s) key e) as E. change (en_size e) with size in E. rewrite E in *.
  assert (Hd : 0 <= default 0 (en_size <$> st_entries s !! key) <= index_size (st_entries s)).
  { destruct (st_entries s !! key) as [p|] eqn:Hk; cbn; [|lia]. rewrite (index_size_delete _ _ _ Hk).
    pose proof (Hs _ _ Hk) as Hp. cbn in Hp. pose proof (index_size_nonneg _ (map_Forall_delete _ _ key Hs)). lia. }
  split; [|lia]. constructor; cbn [st_total_bytes st_entries]; rewrite ?E; [|done|lia]. clear E.
  destruct (st_entries s !! key) as [p|]; cbn in *; rewrite ?(wrap_u64_id (_ - _)), Ht by (unfold in_u64; lia);
    rewrite wrap_u64_id by (unfold in_u64; lia); lia.
Qed.

Lemma index_remove_ok key s :
  state_ok s -> state_ok (index_remove key s).2 /\
  st_entries (index_remove key s).2 = delete key (st_entries s) /\
  (index_remove key s).1 = st_entries s !! key /\
  index_size (st_entries (index_remove key s).2) <= index_size (st_entries s).
Proof.
  intros [Ht Hs Hf]. unfold index_remove. destruct (st_entries s !! key) as [e|] eqn:Hk; cbn.
  - pose proof (index_size_delete _ _ _ Hk) as E. pose proof (Hs _ _ Hk) as He. cbn in He.
    assert (Hn : map_Forall (fun _ e => 0 <= en_size e) (delete key (st_entries s))) by (by apply map_Forall_delete).
    pose proof (index_size_nonneg _ Hn).
    split_and!; [constructor; cbn; [|done|lia]|done..|lia].
    rewrite wrap_u64_id by (unfold in_u64; lia). lia.
  - by rewrite delete_id.
Qed.

Lemma elem_of_option_list {A} (o : option A) x : x ∈ option_list o <-> o = Some x.
Proof. destruct o; cbn; rewrite ?list_elem_of_singleton, ?elem_of_nil; naive_solver. Qed.

Lemma remove_keys_cons key keys s :
  remove_keys (key :: keys) s =
    (((pair key) <$> option_list (index_remove key s).1) ++ (remove_keys keys (index_remove key s).2).1,
     (remove_keys keys (index_remove key s).2).2).
Proof. cbn. destruct (index_remove key s) as [[e|] s']; cbn; by destruct (remove_keys keys s'). Qed.

Lemma remove_keys_ok keys s :
  state_ok s -> state_ok (remove_keys keys s).2 /\
  index_size (st_entries (remove_keys keys s).2) <= index_size (st_entries s) /\
  (forall k, st_entries (remove_keys keys s).2 !! k = if bool_decide (k ∈ keys) then None else st_entries s !! k) /\
  (forall k e, (k, e) ∈ (remove_keys keys s).1 <-> k ∈ keys /\ st_entries s !! k = Some e).
Proof.
  revert s. induction keys as [|key keys IH]; intros s Hok.
  { cbn [remove_keys fst snd]. split; [done|split; [done|split]]; intros k; [by rewrite bool_decide_eq_false_2 by apply not_elem_of_nil|].
    intros e. rewrite !elem_of_nil. naive_solver. }
  rewrite remove_keys_cons. cbn [fst snd].
  destruct (index_remove_ok key s Hok) as (Hok' & E & Er & Hle). rewrite Er. set (s' := (index_remove key s).2) in *.
  destruct (IH s' Hok') as (Hk & Hl & Hlook & Hin). split; [done|split; [lia|split]]; intros k.
  - rewrite Hlook, E. rewrite (bool_decide_ext (k ∈ key :: keys) (k = key \/ k ∈ keys)) by (by rewrite elem_of_cons).
    destruct (decide (key = k)) as [<-|Hne].
    + rewrite lookup_delete_eq, (bool_decide_eq_true_2 (key = key \/ _)) by auto. by case_bool_decide.
    + rewrite lookup_delete_ne by done. repeat case_bool_decide; naive_solver.
  - intros e'. rewrite elem_of_app, list_elem_of_fmap, Hin, E, elem_of_cons.
    setoid_rewrite elem_of_option_list. destruct (decide (key = k)) as [<-|Hne].
    + rewrite lookup_delete_eq. naive_solver.
    + rewrite lookup_delete_ne by done. naive_solver.
Qed.

(** Evicting: what goes, what stays, and why. *)
Record evicted_ok (max_bytes : Z) (s : State) (evicted : list (str * Entry)) (s' : State) : Prop := {
  ev_state : state_ok s';
  ev_bound : index_size (st_entries s') <= max_bytes;
  ev_split k : st_entries s !! k = or_else (st_entries s' !! k) (snd <$> List.find (fun kv => bool_decide (kv.1 = k)) evicted);
  ev_gone k e : (k, e) ∈ evicted -> st_entries s' !! k = None /\ st_entries s !! k = Some e;
  ev_oldest k e k' e' : (k, e) ∈ evicted -> st_entries s' !! k' = Some e' -> en_last_used e <= en_last_used e';
  ev_order : Sorted.StronglySorted (fun a b => en_last_used a.2 <= en_last_used b.2) evicted;
  ev_needed k e rest : evicted = rest ++ [(k, e)] -> max_bytes < index_size (st_entries s') + en_size e;
}.

Definition ages_ok (keys : list (str * Z)) (s : State) : Prop :=
  Sorted.StronglySorted older keys /\ NoDup keys.*1 /\
  (forall k u, (k, u) ∈ keys <-> en_last_used <$> st_entries s !! k = Some u).

Lemma nothing_evicted max_bytes s :
  state_ok s -> st_total_bytes s <= max_bytes -> evicted_ok max_bytes s [] s.
Proof.
  intros Hok Hle. split; [done|by rewrite <- so_total| | | |constructor|].
  - intros k. cbn. by destruct (st_entries s !! k).
  - by intros k e ?%elem_of_nil.
  - by intros ?????%elem_of_nil.
  - intros k e rest Hr. by destruct rest.
Qed.

Lemma evict_loop_ok max_bytes keys s :
  0 <= max_bytes -> state_ok s -> ages_ok keys s ->
  evicted_ok max_bytes s (evict_loop max_bytes keys s).1 (evict_loop max_bytes keys s).2.
Proof.
  intros Hmax. revert s. induction keys as [|[key used] keys IH]; intros s Hok (Hsort & Hnd & Hin); cbn [evict_loop].
  { cbn [fst snd]. apply nothing_evicted; [done|]. rewrite (so_total s Hok).
    assert (st_entries s = ∅) as -> by (apply map_empty; intros k; destruct (st_entries s !! k) as [e|] eqn:Hk; [|done];
      specialize (Hin k (en_last_used e)); rewrite Hk, elem_of_nil in Hin; cbn in Hin; naive_solver). done. }
  destruct (Z.leb_spec (st_total_bytes s) max_bytes) as [Hle|Hlt]; [by apply nothing_evicted|].
  destruct (index_remove_ok key s Hok) as (Hok' & E & Er & _).
  assert (Hkey : exists e, st_entries s !! key = Some e /\ en_last_used e = used).
  { assert (Hk : (key, used) ∈ (key, used) :: keys) by left. apply Hin, fmap_Some in Hk as (e & -> & ->). eauto. }
  destruct Hkey as (e & Hk & Hu). rewrite Hk in Er.
  destruct (index_remove key s) as [r s1] eqn:Ei. cbn in Hok', E, Er. subst r.
  apply Sorted.StronglySorted_inv in Hsort as [Hsort Hall]. cbn in Hnd. apply NoDup_cons in Hnd as [Hnot Hnd].
  assert (Hages : ages_ok keys s1).
  { split_and!; [done|done|]. intros k u. rewrite E. destruct (decide (key = k)) as [<-|Hne].
    - rewrite lookup_delete_eq. split; [|done]. intros Hku. destruct Hnot. apply list_elem_of_fmap. by exists (key, u).
    - rewrite lookup_delete_ne, <- Hin, elem_of_cons by done. naive_solver. }
  specialize (IH s1 Hok' Hages). destruct (evict_loop max_bytes keys s1) as [evicted s'] eqn:El. cbn [fst snd] in *.
  destruct IH as [I1 I2 I3 I4 I5 Io I6].
  assert (Hfirst : forall k' e', st_entries s1 !! k' = Some e' -> en_last_used e <= en_last_used e').
  { intros k' e' Hs1. rewrite List.Forall_forall in Hall. rewrite Hu.
    apply (Hall (k', en_last_used e')), list_elem_of_In, Hages. by rewrite Hs1. }
  split; [done|done| | | | |].
  - intros k. cbn. case_bool_decide as Hkk; cbn.
    + subst k. rewrite Hk. destruct (st_entries s' !! key) as [e'|] eqn:E'; [|done].
      specialize (I3 key). by rewrite E, lookup_delete_eq, E' in I3.
    + by rewrite <- I3, E, lookup_delete_ne.
  - intros k e' [[= -> ->]|Hke]%elem_of_cons.
    + split; [|done]. specialize (I3 key). rewrite E, lookup_delete_eq in I3. by destruct (st_entries s' !! key).
    + destruct (I4 _ _ Hke) as [? Hs1]. split; [done|]. rewrite E in Hs1. by apply lookup_delete_Some in Hs1 as [_ ?].
  - intros k e' k' e'' [[= -> ->]|Hke]%elem_of_cons Hk'; [|by eapply I5].
    apply (Hfirst k'). by rewrite I3, Hk'.
  - constructor; [done|]. apply List.Forall_forall. intros [k' e'] Hke%list_elem_of_In. cbn. apply (Hfirst k'), I4, Hke.
  - intros k e' rest Hr. destruct (decide (evicted = [])) as [->|Hne].
    + destruct rest as [|? [|]]; [|done..]. cbn in Hr. injection Hr as Hrk Hre. subst k e'.
      assert (st_entries s' = st_entries s1) as ->
        by (apply map_eq; intros k; rewrite (I3 k); cbn; by destruct (st_entries s' !! k)).
      rewrite E. rewrite (so_total s Hok), (index_size_delete _ _ _ Hk) in Hlt. lia.
    + destruct rest as [|x rest]; [by destruct evicted|]. injection Hr as _ Hr. by eapply I6.
Qed.

#[local] Instance older_total : Total older.
Proof. intros a b. unfold older. lia. Qed.

#[local] Instance older_trans : Transitive older.
Proof. intros a b c. unfold older. lia. Qed.

Lemma by_age_ok s : ages_ok (by_age s) s.
Proof.
  assert (Hp : by_age s ≡ₚ (fun kv => (kv.1, en_last_used kv.2)) <$> map_to_list (st_entries s))
    by apply merge_sort_Permutation.
  split_and!.
  - apply StronglySorted_merge_sort; apply _.
  - rewrite Hp, <- list_fmap_compose. apply (NoDup_fst_map_to_list (st_entries s)).
  - intros k u. rewrite Hp, list_elem_of_fmap, fmap_Some. split.
    + intros ([k' e] & [= -> ->] & He%elem_of_map_to_list). eauto.
    + intros (e & He & ->). exists (k, e). by rewrite elem_of_map_to_list.
Qed.

Lemma evict_to_ok max_bytes s :
  0 <= max_bytes -> state_ok s -> evicted_ok max_bytes s (evict_to max_bytes s).1 (evict_to max_bytes s).2.
Proof.
  intros Hmax Hok. unfold evict_to. destruct (Z.leb_spec (st_total_bytes s) max_bytes); [by apply nothing_evicted|].
  apply evict_loop_ok; [done|done|apply by_age_ok].
Qed.

(** *** Paths *)

Definition plain_extension (e : str) : Prop := (46 ∉ e) /\ e <> lit "tmp".

Lemma put_extension_plain content_type : plain_extension (put_extension content_type).
Proof. destruct content_type; (split; [apply (bool_decide_unpack _); vm_compute; exact I|done]). Qed.

Lemma after_dot_inj (a b c d : str) : 46 ∉ b -> 46 ∉ d -> a ++ 46 :: b = c ++ 46 :: d -> a = c /\ b = d.
Proof.
  intros Hb Hd. revert c. induction a as [|x a IH]; intros [|y c]; cbn.
  - by intros [= ->].
  - intros [= <- ->]. rewrite elem_of_app, elem_of_cons in Hb. naive_solver.
  - intros [= -> <-]. rewrite elem_of_app, elem_of_cons in Hd. naive_solver.
  - intros [= -> E]. destruct (IH c E) as [-> ->]. done.
Qed.

Lemma file_path_inj k e k' e' :
  46 ∉ e -> 46 ∉ e' -> file_path k e = file_path k' e' -> k = k' /\ e = e'.
Proof. apply after_dot_inj. Qed.

Lemma temporary_path_apart path uuid k e : plain_extension e -> temporary_path path uuid <> file_path k e.
Proof.
  intros [He Ht] E. unfold temporary_path, file_path in E.
  replace (path ++ [46] ++ uuid ++ lit ".tmp") with ((path ++ [46] ++ uuid) ++ 46 :: lit "tmp") in E
    by (rewrite <- !app_assoc; done).
  apply after_dot_inj in E as [_ E]; [by destruct Ht| |done]. apply (bool_decide_unpack _); vm_compute; exact I.
Qed.

(** *** Keys *)

Section keys.
Context `{Digest} `{!DigestLaws}.

Lemma before_slash_inj (a b c d : str) : 47 ∉ a -> 47 ∉ c -> a ++ 47 :: b = c ++ 47 :: d -> a = c /\ b = d.
Proof.
  intros Ha Hc. revert c Hc. induction a as [|x a IH]; intros [|y c] Hc; cbn.
  - by intros [= ->].
  - intros [= <- _]. destruct Hc. by left.
  - intros [= -> _]. destruct Ha. by left.
  - intros [= -> E]. apply not_elem_of_cons in Ha as [_ Ha], Hc as [_ Hc]. destruct (IH Ha c Hc E) as [-> ->]. done.
Qed.

Lemma sanitize_no_slash v : 47 ∉ sanitize_component v.
Proof.
  unfold sanitize_component. rewrite list_elem_of_In, in_map_iff. intros (c & E & _).
  destruct (is_ascii_alphanumeric c || bool_decide (c ∈ [45; 95; 46])) eqn:Hc; [|done]. subst c. by vm_compute in Hc.
Qed.

Lemma item_prefix_inj source item rest source' item' rest' :
  item_prefix source item ++ rest = item_prefix source' item' ++ rest' ->
  sanitize_component source = sanitize_component source' /\ md5_hex item = md5_hex item' /\ rest = rest'.
Proof.
  assert (E : forall s i r, item_prefix s i ++ r = sanitize_component s ++ 47 :: (md5_hex i ++ 47 :: r))
    by (intros; unfold item_prefix; by rewrite <- !app_assoc).
  rewrite !E. intros [-> E1]%before_slash_inj; [|apply sanitize_no_slash..].
  apply before_slash_inj in E1 as [-> ->]; [done|apply md5_hex_slash..].
Qed.

Lemma pad5_inj n n' : 0 <= n -> 0 <= n' -> pad5 n = pad5 n' -> n = n'.
Proof.
  assert (Hpad : forall k l, dec_value (replicate k 48 ++ l) = dec_value l) by (induction k as [|k IHk]; intros l; [done|exact (IHk l)]).
  assert (Hval : forall n, 0 <= n -> dec_value (pad5 n) = n) by (intros m Hm; unfold pad5; rewrite Hpad; by apply show_nonneg_spec).
  intros Hn Hn' E. by rewrite <- (Hval n Hn), E, Hval.
Qed.

(** Keys are equal exactly when their parts are. *)
Lemma index_key_inj a b :
  index_key a = index_key b <->
  sanitize_component (pk_source a) = sanitize_component (pk_source b) /\ md5_hex (pk_item a) = md5_hex (pk_item b) /\
  pk_page a = pk_page b.
Proof.
  unfold index_key. split; [|intros (E1 & E2 & E3); unfold item_prefix; by rewrite E1, E2, E3].
  intros (E1 & E2 & E3%pad5_inj)%item_prefix_inj; [|lia..]. split_and!; [done|done|lia].
Qed.

(** A character that the name of a directory does not keep: no letter, no digit, no dash and
    no dot. *)
Definition blurred (c : Z) : Prop := ~ (48 <= c <= 57 \/ 65 <= c <= 90 \/ 97 <= c <= 122 \/ c = 45 \/ c = 46).

(** Two keys that share a page: the same number, items of one digest, and sources that are
    alike but for such characters. *)
Definition same_page (a b : PageKey) : Prop :=
  pk_page a = pk_page b /\ md5_hex (pk_item a) = md5_hex (pk_item b) /\
  Forall2 (fun c d => c = d \/ blurred c /\ blurred d) (pk_source a) (pk_source b).

Lemma sanitize_char c :
  (if is_ascii_alphanumeric c || bool_decide (c ∈ [45; 95; 46]) then c else 95) = if decide (48 <= c <= 57 \/ 65 <= c <= 90 \/ 97 <= c <= 122 \/ c = 45 \/ c = 46) then c else 95.
Proof.
  assert (Hiff : is_ascii_alphanumeric c || bool_decide (c ∈ [45; 95; 46]) = true <->
    (48 <= c <= 57 \/ 65 <= c <= 90 \/ 97 <= c <= 122 \/ c = 45 \/ c = 46) \/ c = 95).
  { unfold is_ascii_alphanumeric. rewrite orb_true_iff, bool_decide_eq_true, !elem_of_cons, elem_of_nil.
    unfold is_ascii_alphabetic, is_ascii_lower, is_ascii_upper, is_ascii_digit.
    rewrite ?orb_true_iff, ?andb_true_iff, ?Z.leb_le. lia. }
  destruct (_ || _), (decide _); try done.
  - destruct Hiff as [Hiff _]. destruct (Hiff eq_refl); [done|by subst].
  - destruct Hiff as [_ Hiff]. discriminate Hiff. by left.
Qed.

Lemma sanitize_alike a b :
  sanitize_component a = sanitize_component b <-> Forall2 (fun c d => c = d \/ blurred c /\ blurred d) a b.
Proof.
  unfold sanitize_component. revert b. induction a as [|c a IH]; intros [|d b]; cbn [map].
  - by split.
  - split; [done|]. intros Hl. by inversion Hl.
  - split; [done|]. intros Hl. by inversion Hl.
  - rewrite Forall2_cons, <- IH, !sanitize_char. unfold blurred.
    set (c' := if decide _ then c else 95). set (d' := if decide _ then d else 95).
    assert (Hcd : c' = d' <-> c = d \/ ~ (48 <= c <= 57 \/ 65 <= c <= 90 \/ 97 <= c <= 122 \/ c = 45 \/ c = 46) /\
                                      ~ (48 <= d <= 57 \/ 65 <= d <= 90 \/ 97 <= d <= 122 \/ d = 45 \/ d = 46))
      by (subst c' d'; destruct (decide _), (decide _); lia).
    rewrite <- Hcd. split; [by intros [= -> ->]|by intros [-> ->]].
Qed.

Lemma index_key_same a b : index_key a = index_key b <-> same_page a b.
Proof. rewrite index_key_inj, sanitize_alike. unfold same_page. tauto. Qed.

(** Where a page is in the directory. *)
Definition directory_path (page : PageKey) (extension : str) : str :=
  sanitize_component (pk_source page) ++ lit "/" ++ md5_hex (pk_item page) ++ lit "/" ++ pad5 (Z.of_N (pk_page page)) ++ lit "." ++ extension.

Lemma directory_path_eq page e : file_path (index_key page) e = directory_path page e.
Proof. unfold file_path, index_key, item_prefix, directory_path. by rewrite <- !app_assoc. Qed.

End keys.

(** *** Interleaved calls *)

Section sound.
Context `{Lowercase, Digest} `{!LowercaseLaws}.

Lemma put_extension_type content_type : from_extension (put_extension content_type) = content_type.
Proof.
  assert (E : to_lowercase (put_extension content_type) = put_extension content_type) 
    by (rewrite to_lowercase_ascii; destruct content_type; try done; apply (bool_decide_unpack _); vm_compute; exact I).
  unfold from_extension. rewrite E. by destruct content_type.
Qed.

(** Where the bytes of a page file come from: a put, or the directory that was opened. *)
Definition origin (files0 : gmap str (list Z)) (puts : list (PageKey * ContentType * list Z)) (k e : str) (b : list Z) : Prop :=
  (exists page content_type, k = index_key page /\ e = put_extension content_type /\ (page, content_type, b) ∈ puts) \/
  files0 !! file_path k e = Some b.

Definition page_path (path : str) : Prop := exists k e, path = file_path k e /\ plain_extension e.

Definition is_temporary (path : str) : Prop := exists final uuid, path = temporary_path final uuid.

Definition answer_ok (files0 : gmap str (list Z)) (puts : list (PageKey * ContentType * list Z)) (a : Answer) : Prop :=
  match a with
  | Hit page content_type b => exists e, content_type = from_extension e /\ origin files0 puts (index_key page) e b
  | _ => True
  end.

(** What every task in progress relies on. *)
Definition task_ok (files0 : gmap str (list Z)) (puts : list (PageKey * ContentType * list Z)) (files : gmap str (list Z))
    (t : Task) : Prop :=
  match t with
  | GetReading _ e => plain_extension e
  | GetDropping _ => True
  | PutWriting k e b temporary => plain_extension e /\ origin files0 puts k e b /\ is_temporary temporary
  | PutRenaming k e b temporary =>
      plain_extension e /\ origin files0 puts k e b /\ is_temporary temporary /\ files !! temporary = Some b
  | PutDiscarding temporary => is_temporary temporary
  | PutIndexing _ e _ => plain_extension e
  | PutSweeping size path => 0 <= size /\ page_path path
  | PutEnforcing size => 0 <= size
  | Removing answer paths => answer_ok files0 puts answer /\ Forall page_path paths
  end.

(** The bytes of puts that are in the index but not yet below the bound. *)
Definition indexed_weight (t : Task) : Z :=
  match t with PutSweeping size _ | PutEnforcing size => size | _ => 0 end.

Record system_ok (max_bytes : Z) (files0 : gmap str (list Z)) (s : System) : Prop := {
  sk_state : state_ok (wo_state (sy_world s));
  sk_plain : map_Forall (fun _ e => plain_extension (en_extension e)) (st_entries (wo_state (sy_world s)));
  sk_files k e b : plain_extension e -> wo_files (sy_world s) !! file_path k e = Some b -> origin files0 (sy_puts s) k e b;
  sk_bound : index_size (st_entries (wo_state (sy_world s))) <= max_bytes + sum_Z (indexed_weight <$> sy_tasks s);
  sk_fits : max_bytes + weights (sy_tasks s) <= u64_max;
  sk_tasks : Forall (task_ok files0 (sy_puts s) (wo_files (sy_world s))) (sy_tasks s);
  sk_temporaries : NoDup (omap task_temporary (sy_tasks s));
  sk_answers : Forall (answer_ok files0 (sy_puts s)) (sy_answers s);
}.

(** What one step does, whichever call makes it: [temporary] is the temporary file it owns,
    [weight] and [indexed] the bytes it answered for before. *)
Record effect (max_bytes : Z) files0 puts (temporary : option str) (weight indexed : Z) (w w' : World) (o : Outcome) : Prop := {
  ef_state : state_ok (wo_state w');
  ef_plain : map_Forall (fun _ e => plain_extension (en_extension e)) (st_entries (wo_state w'));
  ef_files k e b : plain_extension e -> wo_files w' !! file_path k e = Some b ->
    wo_files w !! file_path k e = Some b \/ origin files0 puts k e b;
  ef_temporaries p : is_temporary p -> Some p <> temporary -> wo_files w' !! p = wo_files w !! p;
  ef_bound others : 0 <= others -> index_size (st_entries (wo_state w)) <= max_bytes + others + indexed ->
    index_size (st_entries (wo_state w')) <= max_bytes + others + sum_Z (indexed_weight <$> next_tasks o);
  ef_weight : weights (next_tasks o) <= weight;
  ef_tasks : Forall (task_ok files0 puts (wo_files w')) (next_tasks o);
  ef_owned : omap task_temporary (next_tasks o) = [] \/ omap task_temporary (next_tasks o) = option_list temporary;
  ef_answers : Forall (answer_ok files0 puts) (next_answers o);
}.

Lemma removed_paths max_bytes s evicted s' :
  evicted_ok max_bytes s evicted s' -> map_Forall (fun _ e => plain_extension (en_extension e)) (st_entries s) ->
  Forall page_path ((fun kv => file_path kv.1 (en_extension kv.2)) <$> evicted).
Proof.
  intros Hev Hplain. apply Forall_forall. intros p ([k e] & -> & Hin)%list_elem_of_fmap.
  exists k, (en_extension e). split; [done|]. by eapply (Hplain k), Hev.
Qed.

(** Deleting page files, or nothing. *)
Lemma delete_effect (files : gmap str (list Z)) path : page_path path ->
  (forall k e b, delete path files !! file_path k e = Some b -> files !! file_path k e = Some b) /\
  (forall p, is_temporary p -> delete path files !! p = files !! p).
Proof.
  intros (k & e & -> & Hp). split.
  - intros k' e' b Hb. by apply lookup_delete_Some in Hb as [_ ?].
  - intros p (final & uuid & ->). rewrite lookup_delete_ne; [done|]. intros E. by eapply (temporary_path_apart final uuid k e).
Qed.

Lemma removing_effect max_bytes files0 puts w s answer gone weight indexed :
  answer_ok files0 puts answer -> state_ok s ->
  map_Forall (fun _ e => plain_extension (en_extension e)) (st_entries s) ->
  (forall others, 0 <= others -> index_size (st_entries (wo_state w)) <= max_bytes + others + indexed ->
     index_size (st_entries s) <= max_bytes + others) ->
  Forall page_path ((fun kv => file_path kv.1 (en_extension kv.2)) <$> gone) -> 0 <= weight ->
  effect max_bytes files0 puts None weight indexed w (with_state w s) (removing answer gone).
Proof.
  intros Ha Hs Hp Hb Hpaths Hw. split; try done; cbn.
  - intros k e b _ Hf. by left.
  - intros others Ho Hi. specialize (Hb others Ho Hi). destruct gone; cbn; lia.
  - by destruct gone.
  - destruct gone; [done|]. by apply Forall_singleton.
  - left. by destruct gone.
  - destruct gone; [|done]. by apply Forall_singleton.
Qed.

(** A step that leaves the index alone. *)
Lemma files_effect max_bytes files0 puts temporary weight indexed w files o :
  state_ok (wo_state w) -> map_Forall (fun _ e => plain_extension (en_extension e)) (st_entries (wo_state w)) ->
  (forall k e b, plain_extension e -> files !! file_path k e = Some b ->
     wo_files w !! file_path k e = Some b \/ origin files0 puts k e b) ->
  (forall p, is_temporary p -> Some p <> temporary -> files !! p = wo_files w !! p) ->
  sum_Z (indexed_weight <$> next_tasks o) = indexed -> weights (next_tasks o) <= weight ->
  Forall (task_ok files0 puts files) (next_tasks o) ->
  omap task_temporary (next_tasks o) = [] \/ omap task_temporary (next_tasks o) = option_list temporary ->
  Forall (answer_ok files0 puts) (next_answers o) ->
  effect max_bytes files0 puts temporary weight indexed w (with_files w files) o.
Proof. intros Hs Hp Hf Ht Hi Hw Htasks Ho Ha. split; try done. cbn. intros others _ Hb. lia. Qed.

Lemma with_files_id w : with_files w (wo_files w) = w.
Proof. by destruct w. Qed.

Lemma temporary_files (files : gmap str (list Z)) temporary content k e :
  is_temporary temporary -> plain_extension e -> <[temporary := content]> files !! file_path k e = files !! file_path k e.
Proof. intros (final & uuid & ->) He. rewrite lookup_insert_ne; [done|]. by apply temporary_path_apart. Qed.

Lemma index_insert_plain key extension size s :
  plain_extension extension -> map_Forall (fun _ e => plain_extension (en_extension e)) (st_entries s) ->
  map_Forall (fun _ e => plain_extension (en_extension e)) (st_entries (index_insert key extension size s).2).
Proof. intros He Hp. cbn. by apply map_Forall_insert_2. Qed.

Ltac side := cbn; auto using Forall_nil; try done; try lia; try (by apply Forall_singleton).

Lemma put_rename_effect max_bytes files0 puts w k e b final uuid :
  state_ok (wo_state w) -> map_Forall (fun _ e => plain_extension (en_extension e)) (st_entries (wo_state w)) ->
  plain_extension e -> origin files0 puts k e b ->
  effect max_bytes files0 puts (Some (temporary_path final uuid)) (Z.of_nat (length b)) 0 w
    (with_files w (<[file_path k e := b]> (delete (temporary_path final uuid) (wo_files w)))) (Next (PutIndexing k e b)).
Proof.
  intros Hs Hp He Hor. apply files_effect; side.
  - intros k' e' b' He'. destruct (decide (file_path k' e' = file_path k e)) as [E|Hne].
    + apply file_path_inj in E as [-> ->]; [|apply He'|apply He]. rewrite lookup_insert_eq. intros [= <-]. auto.
    + rewrite lookup_insert_ne, lookup_delete_ne by (done || by apply temporary_path_apart). auto.
  - intros p (final' & uuid' & ->) Hne. rewrite lookup_insert_ne by (intros E; symmetry in E; by eapply temporary_path_apart).
    apply lookup_delete_ne. congruence.
Qed.

Lemma put_index_effect max_bytes files0 puts w k e size t' :
  state_ok (wo_state w) -> map_Forall (fun _ e => plain_extension (en_extension e)) (st_entries (wo_state w)) ->
  plain_extension e -> 0 <= size -> index_size (st_entries (wo_state w)) + size <= u64_max ->
  t' = PutEnforcing size \/
    (exists p, st_entries (wo_state w) !! k = Some p /\ t' = PutSweeping size (file_path k (en_extension p))) ->
  effect max_bytes files0 puts None size 0 w (with_state w (index_insert k e size (wo_state w)).2) (Next t').
Proof.
  intros Hs Hp He Hsize Hfit Ht'. pose proof (index_insert_plain k e size (wo_state w) He Hp) as Hpl.
  destruct (index_insert_ok k e size (wo_state w) Hs Hsize Hfit) as [Hok Hle]. split; cbn [wo_state with_state]; auto.
  - intros others _ Hi. destruct Ht' as [->|(p & _ & ->)]; cbn in *; lia.
  - destruct Ht' as [->|(p & _ & ->)]; cbn; lia.
  - apply Forall_singleton. destruct Ht' as [->|(p & Hkp & ->)]; cbn; [lia|]. split; [lia|].
    exists k, (en_extension p). split; [done|]. by apply (Hp k).
  - left. by destruct Ht' as [->|(p & _ & ->)].
Qed.

Lemma put_enforce_effect max_bytes files0 puts w size :
  0 <= max_bytes -> state_ok (wo_state w) ->
  map_Forall (fun _ e => plain_extension (en_extension e)) (st_entries (wo_state w)) -> 0 <= size ->
  effect max_bytes files0 puts None size size w (with_state w (evict_to max_bytes (wo_state w)).2)
    (removing Stored (evict_to max_bytes (wo_state w)).1).
Proof.
  intros Hmax Hs Hp Hsize. pose proof (evict_to_ok max_bytes (wo_state w) Hmax Hs) as Hev.
  pose proof Hev as [E1 E2 E3 _ _ _ _]. apply removing_effect; auto; [done| | |].
  - intros k e Hk. apply (Hp k). by rewrite E3, Hk.
  - intros; lia.
  - by eapply removed_paths.
Qed.

Lemma task_step_effect max_bytes files0 puts ok torn t w w' o :
  0 <= max_bytes -> state_ok (wo_state w) ->
  map_Forall (fun _ e => plain_extension (en_extension e)) (st_entries (wo_state w)) ->
  (forall k e b, plain_extension e -> wo_files w !! file_path k e = Some b -> origin files0 puts k e b) ->
  task_ok files0 puts (wo_files w) t ->
  index_size (st_entries (wo_state w)) - indexed_weight t + task_weight t <= u64_max ->
  task_step max_bytes ok torn t w = (w', o) ->
  effect max_bytes files0 puts (task_temporary t) (task_weight t) (indexed_weight t) w w' o.
Proof.
  intros Hmax Hs Hp Hf Ht Hfit Hstep.
  assert (Hsame : forall temporary weight o', sum_Z (indexed_weight <$> next_tasks o') = indexed_weight t ->
    weights (next_tasks o') <= weight -> Forall (task_ok files0 puts (wo_files w)) (next_tasks o') ->
    omap task_temporary (next_tasks o') = [] \/ omap task_temporary (next_tasks o') = option_list temporary ->
    Forall (answer_ok files0 puts) (next_answers o') ->
    effect max_bytes files0 puts temporary weight (indexed_weight t) w w o').
  { intros. rewrite <- (with_files_id w) at 2. apply files_effect; auto. }
  destruct t as [page e|k|k e b tmp|k e b tmp|tmp|k e b|size path|size|answer [|path paths]]; cbn [task_step task_ok] in Hstep, Ht.
  - assert (Hmiss : effect max_bytes files0 puts None 0 0 w w (Next (GetDropping (index_key page))))
      by (apply Hsame; auto using Forall_nil; [done|by repeat constructor]).
    destruct (wo_files w !! file_path (index_key page) e) as [b|] eqn:Hb; [destruct ok|]; injection Hstep as <- <-; [|exact Hmiss..].
    apply Hsame; auto using Forall_nil; [done|]. apply Forall_singleton. exists e. split; [done|]. by apply Hf.
  - injection Hstep as <- <-. destruct (index_remove_ok k _ Hs) as (Hok & E & _ & Hle). split; side.
    rewrite E. by apply map_Forall_delete.
  - destruct Ht as (He & Hor & Htmp).
    assert (Hwritten : forall content,
      (forall k' e' b', plain_extension e' -> <[tmp := content]> (wo_files w) !! file_path k' e' = Some b' ->
         wo_files w !! file_path k' e' = Some b' \/ origin files0 puts k' e' b') /\
      (forall p, is_temporary p -> Some p <> Some tmp -> <[tmp := content]> (wo_files w) !! p = wo_files w !! p)).
    { intros content. split; [intros k' e' b' He'; rewrite temporary_files by done; auto|].
      intros p _ Hne. apply lookup_insert_ne. congruence. }
    destruct ok; injection Hstep as <- <-; [|destruct torn as [part|]; apply files_effect; side; apply Hwritten].
    apply files_effect; side; [apply Hwritten..|]. apply Forall_singleton. cbn. by rewrite lookup_insert_eq.
  - destruct Ht as (He & Hor & (final & uuid & ->) & Hb). rewrite Hb in Hstep.
    destruct ok; injection Hstep as <- <-; [by apply put_rename_effect|apply Hsame; side].
    apply Forall_singleton. by exists final, uuid.
  - injection Hstep as <- <-. destruct ok; [|apply Hsame; side]. destruct Ht as (final & uuid & ->).
    apply files_effect; side.
    + intros k' e' b' He'. rewrite lookup_delete_ne by (by apply temporary_path_apart). auto.
    + intros p _ Hne. apply lookup_delete_ne. congruence.
  - cbn [task_step] in Hstep. rewrite (surjective_pairing (index_insert _ _ _ _)) in Hstep. injection Hstep as <- <-.
    apply put_index_effect; auto; [lia|cbn in Hfit; lia|]. cbn [index_insert fst].
    destruct (st_entries (wo_state w) !! k) as [p|]; [|by left]. case_bool_decide; [by left|right]. eauto.
  - destruct Ht as [Hsz Hpath]. injection Hstep as <- <-. destruct ok; [|apply Hsame; side].
    destruct (delete_effect (wo_files w) path Hpath) as [D1 D2]. apply files_effect; side.
  - rewrite (surjective_pairing (evict_to _ _)) in Hstep. injection Hstep as <- <-. by apply put_enforce_effect.
  - destruct Ht as [Ha _]. injection Hstep as <- <-. apply Hsame; side.
  - destruct Ht as [Ha [Hpath Hpaths]%Forall_cons]. injection Hstep as <- <-.
    destruct (delete_effect (wo_files w) path Hpath) as [D1 D2].
    destruct ok; [apply files_effect|apply Hsame]; side; destruct paths; side.
Qed.

(** *** The invariant *)

Lemma sum_Z_app l l' : sum_Z (l ++ l') = sum_Z l + sum_Z l'.
Proof. unfold sum_Z. induction l as [|x l IH]; cbn [app fold_right]; [done|]. rewrite IH. lia. Qed.

Lemma sum_Z_perm l l' : l ≡ₚ l' -> sum_Z l = sum_Z l'.
Proof. unfold sum_Z. induction 1; cbn [fold_right] in *; lia. Qed.

Lemma weights_app l l' : weights (l ++ l') = weights l + weights l'.
Proof. unfold weights. by rewrite fmap_app, sum_Z_app. Qed.

Lemma task_weights files0 puts files t : task_ok files0 puts files t -> 0 <= indexed_weight t <= task_weight t.
Proof. destruct t; cbn; lia. Qed.

Lemma tasks_weights files0 puts files ts :
  Forall (task_ok files0 puts files) ts -> 0 <= sum_Z (indexed_weight <$> ts) <= weights ts.
Proof.
  unfold weights, sum_Z. induction 1 as [|t ts Ht _ IH]; [done|]. rewrite !fmap_cons. cbn [fold_right].
  pose proof (task_weights _ _ _ _ Ht). lia.
Qed.

(** The other tasks do not notice a step. *)
Lemma others_ok max_bytes files0 puts temporary weight indexed w w' o ts :
  effect max_bytes files0 puts temporary weight indexed w w' o ->
  Forall (fun p => Some p <> temporary) (omap task_temporary ts) ->
  Forall (task_ok files0 puts (wo_files w)) ts -> Forall (task_ok files0 puts (wo_files w')) ts.
Proof.
  intros Heff. induction ts as [|t ts IH]; [done|]. cbn. intros Hne [Ht Hts]%Forall_cons. constructor.
  - destruct t; try done. cbn in Hne, Ht |- *. apply Forall_cons in Hne as [Hne _].
    destruct Ht as (? & ? & Htmp & Hb). split_and!; try done. by rewrite (ef_temporaries _ _ _ _ _ _ _ _ _ Heff).
  - apply IH; [|done]. destruct (task_temporary t); [by apply Forall_cons in Hne as [_ Hne]|done].
Qed.

(** A step of one call, [old] its task before (if it was running), preserves the invariant. *)
Lemma effect_preserves max_bytes files0 s t1 old t2 temporary w' o :
  system_ok max_bytes files0 s -> sy_tasks s = t1 ++ old ++ t2 -> omap task_temporary old = option_list temporary ->
  effect max_bytes files0 (sy_puts s) temporary (weights old) (sum_Z (indexed_weight <$> old)) (sy_world s) w' o ->
  system_ok max_bytes files0
    {| sy_world := w'; sy_tasks := t1 ++ next_tasks o ++ t2; sy_puts := sy_puts s;
       sy_answers := sy_answers s ++ next_answers o |}.
Proof.
  intros [S1 S2 S3 S4 S5 S6 S7 S8] Et Htmp Heff. pose proof Heff as [E1 E2 E3 E4 E5 E6 E7 E8 E9].
  rewrite Et in S4, S5, S6, S7. rewrite !Forall_app in S6. destruct S6 as (T1 & T2 & T3).
  rewrite !omap_app, Htmp in S7. apply NoDup_app in S7 as (N1 & N2 & (N3 & N4 & N5)%NoDup_app).
  rewrite !fmap_app, !sum_Z_app in S4. rewrite !weights_app in S5.
  assert (Hother : forall ts, (ts = t1 \/ ts = t2) -> Forall (task_ok files0 (sy_puts s) (wo_files w')) ts).
  { intros ts Hts. eapply others_ok; [done| |by destruct Hts as [->| ->]]. apply Forall_forall. intros p Hp Ep. subst temporary.
    cbn in *. destruct Hts as [->| ->]; [eapply N2; [done|]; by left|eapply N4; [by left|done]]. }
  split; cbn [sy_world sy_tasks sy_puts sy_answers]; [done|done| | | | | |].
  - intros k e b He Hb. destruct (E3 k e b He Hb); [by apply S3|done].
  - rewrite !fmap_app, !sum_Z_app. pose proof (tasks_weights _ _ _ _ T1). pose proof (tasks_weights _ _ _ _ T3).
    transitivity (max_bytes + (sum_Z (indexed_weight <$> t1) + sum_Z (indexed_weight <$> t2)) +
                  sum_Z (indexed_weight <$> next_tasks o)); [apply E5|]; lia.
  - rewrite !weights_app. lia.
  - rewrite !Forall_app. auto.
  - rewrite !omap_app. destruct E8 as [-> | ->].
    + cbn. apply NoDup_app. split_and!; [done| |done]. intros p Hp. specialize (N2 p Hp). by rewrite elem_of_app in N2; naive_solver.
    + apply NoDup_app. split_and!; [done|done|]. by apply NoDup_app.
  - rewrite Forall_app. auto.
Qed.

Lemma get_begin_effect max_bytes files0 puts key w w' o :
  state_ok (wo_state w) -> map_Forall (fun _ e => plain_extension (en_extension e)) (st_entries (wo_state w)) ->
  get_begin key w = (w', o) -> effect max_bytes files0 puts None 0 0 w w' o.
Proof.
  intros Hs Hp. unfold get_begin. destruct (touch_ok (index_key key) _ Hs) as (Hok & E & Er & Hext).
  destruct (touch (index_key key) (wo_state w)) as [found s]. cbn in Hok, E, Er, Hext.
  assert (Hpl : map_Forall (fun _ e => plain_extension (en_extension e)) (st_entries s)).
  { intros k e Hk. specialize (Hext k). rewrite Hk in Hext. symmetry in Hext.
    apply fmap_Some in Hext as (e' & He' & ->). by apply (Hp k). }
  destruct found as [e|]; intros [= <- <-]; split; side; cbn; rewrite ?E; intros; side.
  apply Forall_singleton. symmetry in Er. apply fmap_Some in Er as (e' & He' & ->). exact (Hp _ _ He').
Qed.

Lemma invalidate_begin_effect max_bytes files0 puts source item w w' o :
  state_ok (wo_state w) -> map_Forall (fun _ e => plain_extension (en_extension e)) (st_entries (wo_state w)) ->
  invalidate_begin source item w = (w', o) -> effect max_bytes files0 puts None 0 0 w w' o.
Proof.
  intros Hs Hp. unfold invalidate_begin, invalidate_index. set (keys := List.filter _ _).
  destruct (remove_keys_ok keys _ Hs) as (Hok & Hle & Hlook & Hin).
  destruct (remove_keys keys (wo_state w)) as [gone s]. cbn in Hok, Hle, Hlook, Hin. intros [= <- <-].
  apply removing_effect; auto; [done| |intros; lia| |done].
  - intros k e Hk. rewrite Hlook in Hk. case_bool_decide; [done|]. by apply (Hp k).
  - apply Forall_forall. intros p ([k e] & -> & Hke)%list_elem_of_fmap. exists k, (en_extension e). split; [done|].
    apply (Hp k). by apply Hin.
Qed.

(** Asking for more changes nothing for those who asked before. *)
Lemma origin_more files0 puts more k e b : origin files0 puts k e b -> origin files0 (puts ++ more) k e b.
Proof. intros [(page & c & -> & -> & Hin)|Hf]; [left; exists page, c; rewrite elem_of_app; auto|by right]. Qed.

Lemma answer_more files0 puts more a : answer_ok files0 puts a -> answer_ok files0 (puts ++ more) a.
Proof. destruct a; try done. cbn. intros (e & -> & Ho). eauto using origin_more. Qed.

Lemma task_more files0 puts more files t : task_ok files0 puts files t -> task_ok files0 (puts ++ more) files t.
Proof. destruct t; cbn; naive_solver eauto using origin_more, answer_more. Qed.

Lemma put_begin_preserves max_bytes files0 s ok uuid key content_type bytes :
  system_ok max_bytes files0 s -> max_bytes + weights (sy_tasks s) + Z.of_nat (length bytes) <= u64_max ->
  temporary_path (file_path (index_key key) (put_extension content_type)) uuid ∉ omap task_temporary (sy_tasks s) ->
  let o := put_begin ok uuid key content_type bytes in
  system_ok max_bytes files0
    {| sy_world := sy_world s; sy_tasks := sy_tasks s ++ next_tasks o;
       sy_puts := sy_puts s ++ [(key, content_type, bytes)]; sy_answers := sy_answers s ++ next_answers o |}.
Proof.
  intros [S1 S2 S3 S4 S5 S6 S7 S8] Hfit Hfresh o.
  split; cbn [sy_world sy_tasks sy_puts sy_answers]; [done|done| | | | | |].
  - eauto using origin_more.
  - rewrite fmap_app, sum_Z_app. subst o. destruct ok; cbn; lia.
  - rewrite weights_app. subst o. destruct ok; cbn; lia.
  - apply Forall_app. split; [eapply Forall_impl; [done|intros; by apply task_more]|].
    subst o. destruct ok; [|constructor]. apply Forall_singleton. split_and!; [apply put_extension_plain| |by do 2 eexists].
    left. exists key, content_type. split_and!; [done|done|]. rewrite elem_of_app, list_elem_of_singleton. auto.
  - rewrite omap_app. subst o. destruct ok; [|by rewrite app_nil_r]. cbn. apply NoDup_app.
    split_and!; [done| |apply NoDup_singleton]. intros p Hp ->%list_elem_of_singleton. done.
  - apply Forall_app. split; [eapply Forall_impl; [done|intros; by apply answer_more]|]. subst o. by destruct ok; repeat constructor.
Qed.

Lemma cache_step_ok max_bytes files0 s s' :
  0 <= max_bytes -> system_ok max_bytes files0 s -> cache_step max_bytes s s' -> system_ok max_bytes files0 s'.
Proof.
  intros Hmax Hok Hstep. pose proof Hok as [S1 S2 S3 S4 S5 S6 S7 S8]. destruct Hstep as
    [s key w o Hb|s ok uuid key content_type bytes o <- Hfit Hfresh|s source item w o Hb|s t1 t t2 ok torn w o Et Hstep].
  - rewrite <- (app_nil_r (next_tasks o)). eapply (effect_preserves _ _ _ _ [] _ None); [done|by rewrite app_nil_r|done|].
    by apply (get_begin_effect _ _ _ key).
  - by apply put_begin_preserves.
  - rewrite <- (app_nil_r (next_tasks o)). eapply (effect_preserves _ _ _ _ [] _ None); [done|by rewrite app_nil_r|done|].
    by apply (invalidate_begin_effect _ _ _ source item).
  - rewrite Et, Forall_app, Forall_cons in S6. destruct S6 as (T1 & T & T2).
    pose proof (tasks_weights _ _ _ _ T1). pose proof (tasks_weights _ _ _ _ T2). pose proof (task_weights _ _ _ _ T).
    rewrite Et, weights_app in S5. rewrite Et, fmap_app, sum_Z_app in S4.
    change (weights (t :: t2)) with (task_weight t + weights t2) in S5.
    change (sum_Z (indexed_weight <$> t :: t2)) with (indexed_weight t + sum_Z (indexed_weight <$> t2)) in S4.
    eapply (effect_preserves _ _ _ _ [t] _ (task_temporary t)); [done|done|by cbn; destruct (task_temporary t)|].
    change (weights [t]) with (task_weight t + 0). change (sum_Z (indexed_weight <$> [t])) with (indexed_weight t + 0).
    rewrite !Z.add_0_r. eapply task_step_effect; eauto. lia.
Qed.

(** *** Opening *)

Lemma rsplit_once_dot_spec name stem e : rsplit_once_dot name = Some (stem, e) -> name = stem ++ 46 :: e /\ 46 ∉ e.
Proof.
  unfold rsplit_once_dot. pose proof (take_drop_while (fun c => negb (c =? 46)) (rev name)) as E.
  pose proof (take_while_Forall (fun c => negb (c =? 46)) (rev name)) as Hall.
  destruct (drop_while _ (rev name)) as [|c before] eqn:Ed; [done|]. intros [= <- <-].
  assert (Hc : c = 46).
  { pose proof (drop_while_head (fun c => negb (c =? 46)) (rev name) c) as Hh. rewrite Ed in Hh.
    specialize (Hh eq_refl). apply negb_false_iff, Z.eqb_eq in Hh. done. }
  subst c. split.
  - apply (f_equal (@rev Z)) in E. rewrite rev_app_distr, rev_involutive in E. rewrite <- E at 1. cbn [rev].
    by rewrite <- app_assoc.
  - rewrite list_elem_of_In, <- in_rev, <- list_elem_of_In. rewrite Forall_forall in Hall. intros Hin%Hall. done.
Qed.

Lemma scan_page_plain source item page k e size age :
  scan_page source item page = Ok (Some (k, e, size, age)) -> plain_extension e.
Proof.
  unfold scan_page. destruct (ends_with (pf_name page) (lit ".tmp")) eqn:Ht; [done|].
  destruct (rsplit_once_dot (pf_name page)) as [[stem e']|] eqn:Er; [|done].
  destruct (pf_metadata page) as [[[[] len] modified]|]; [|done..]. intros [= <- -> <- <-].
  apply rsplit_once_dot_spec in Er as [E He]. split; [done|]. intros ->. rewrite E in Ht. unfold ends_with in Ht.
  apply andb_false_iff in Ht as [Ht|Ht].
  - apply bool_decide_eq_false in Ht. apply Ht. rewrite length_app. cbn [length lit].
    rewrite drop_app_length'; [done|]. cbn. lia.
  - apply Nat.leb_gt in Ht. rewrite length_app in Ht. cbn in Ht. lia.
Qed.

Lemma collect_results_Ok {A B E} (f : A -> result (list B) E) l found b :
  collect_results f l = Ok found -> b ∈ found -> exists x fx, x ∈ l /\ f x = Ok fx /\ b ∈ fx.
Proof.
  revert found. induction l as [|x l IH]; intros found; cbn; [intros [= <-] Hb; by apply elem_of_nil in Hb|].
  intros (fx & Ex & (rest & El & [= <-])%result_bind_Ok)%result_bind_Ok [Hb|Hb]%elem_of_app.
  - exists x, fx. split_and!; [by left|done..].
  - destruct (IH rest El Hb) as (y & fy & ? & ? & ?). exists y, fy. split_and!; [by right|done..].
Qed.

Lemma scan_dir_Ok {A B} (f : str -> A -> result (list B) unit) d found b :
  scan_dir f d = Ok found -> b ∈ found -> exists x fx, f (di_name d) x = Ok fx /\ b ∈ fx.
Proof.
  unfold scan_dir. destruct (di_is_dir d) as [[]|]; [|intros [= <-] Hb; by apply elem_of_nil in Hb|done].
  destruct (di_entries d) as [entries|]; [|done]. intros Hc Hb.
  destruct (collect_results_Ok _ _ _ _ Hc Hb) as (x & fx & _ & ? & ?). eauto.
Qed.

Lemma scan_plain root found k e size age : scan root = Ok found -> (k, e, size, age) ∈ found -> plain_extension e.
Proof.
  unfold scan. destruct root as [sources|]; [|done]. intros Hs Hin.
  destruct (collect_results_Ok _ _ _ _ Hs Hin) as (source & found1 & _ & H1' & Hin1).
  destruct (scan_dir_Ok _ _ _ _ H1' Hin1) as (item & found2 & H2' & Hin2).
  destruct (scan_dir_Ok _ _ _ _ H2' Hin2) as (page & found3 & H3' & Hin3).
  apply result_bind_Ok in H3' as (o & Hp & [= <-]). apply elem_of_option_list in Hin3. subst o. by eapply scan_page_plain.
Qed.

Definition found_size (f : Found) : Z := f.1.2.
Definition found_plain (f : Found) : Prop := plain_extension f.1.1.2.

Lemma open_index_ok files s :
  state_ok s -> map_Forall (fun _ e => plain_extension (en_extension e)) (st_entries s) ->
  Forall (fun f => 0 <= found_size f) files -> Forall found_plain files ->
  index_size (st_entries s) + sum_Z (found_size <$> files) <= u64_max ->
  state_ok (fold_left index_found files s) /\
  map_Forall (fun _ e => plain_extension (en_extension e)) (st_entries (fold_left index_found files s)).
Proof.
  revert s. induction files as [|[[[k e] size] age] files IH]; intros s Hs Hp Hsz Hpl Hfit; [done|]. cbn [fold_left].
  apply Forall_cons in Hsz as [Hsize Hsz], Hpl as [He Hpl]. rewrite fmap_cons in Hfit.
  change (sum_Z (found_size (k, e, size, age) :: (found_size <$> files))) with (size + sum_Z (found_size <$> files)) in Hfit.
  cbn in Hsize, He. assert (0 <= sum_Z (found_size <$> files)).
  { apply sum_Z_nonneg. intros z (f & -> & Hf)%list_elem_of_fmap. rewrite Forall_forall in Hsz. by apply Hsz. }
  cbn [index_found]. destruct (index_insert_ok k e size s Hs Hsize) as [Hok Hle]; [lia|].
  apply IH; try done; [by apply index_insert_plain|lia].
Qed.

(** The system a process starts with: the directory indexed, the evicted files being
    deleted. *)
Definition started (max_bytes : Z) (files0 : gmap str (list Z)) (root : option (list SourceDir)) : option System :=
  match open max_bytes root with
  | Err _ => None
  | Ok (evicted, s) =>
      Some {| sy_world := {| wo_files := files0; wo_state := s |}; sy_tasks := next_tasks (removing Stored evicted);
              sy_puts := []; sy_answers := [] |}
  end.

Lemma started_ok max_bytes files0 root found s :
  in_u64 max_bytes -> scan root = Ok found -> Forall (fun f => 0 <= found_size f) found ->
  sum_Z (found_size <$> found) <= u64_max -> started max_bytes files0 root = Some s -> system_ok max_bytes files0 s.
Proof.
  intros [Hmax Hmax'] Hscan Hsz Hfit. unfold started, open. rewrite Hscan. cbn.
  assert (Hperm : merge_sort found_before found ≡ₚ found) by apply merge_sort_Permutation.
  destruct (open_index_ok (merge_sort found_before found) default_state) as [Hs Hp].
  { apply default_state_ok. }
  { apply map_Forall_empty. }
  { by rewrite Hperm. }
  { rewrite Hperm. apply Forall_forall. intros [[[k e] size] age] Hin. by eapply scan_plain. }
  { cbn [default_state st_entries]. rewrite (sum_Z_perm _ (found_size <$> found)) by (by rewrite Hperm). done. }
  fold (open_index found) in Hs, Hp. pose proof (evict_to_ok max_bytes _ Hmax Hs) as Hev.
  pose proof (removed_paths _ _ _ _ Hev Hp) as Hpaths. destruct Hev as [E1 E2 E3 _ _ _ _].
  destruct (evict_to max_bytes (open_index found)) as [evicted st]. cbn in *. intros [= <-].
  split; cbn; [done| | | | | | |].
  - intros k e Hk. apply (Hp k). by rewrite E3, Hk.
  - intros k e b _ Hb. by right.
  - destruct evicted; cbn; lia.
  - destruct evicted; cbn; lia.
  - destruct evicted; [constructor|]. apply Forall_singleton. done.
  - destruct evicted; constructor.
  - constructor.
Qed.

(** C38.  The page cache under every interleaving of gets, puts and invalidations, and
    every pattern of failing file operations.  Its byte count is the sum of the sizes in
    its index, without overflow; it exceeds its bound by no more than the pages of puts
    still in progress, so that at rest it is within the bound; and a hit is never torn or
    mixed up: it is the type and the bytes that some put asked to store for a page of the same
    number, an item of the same digest and a source that is the same up to characters that
    directory names do not keep, or the content of the file of that page in the directory that
    was opened. *)
Theorem page_cache_sound `{!DigestLaws} max_bytes files0 root found s0 s :
  in_u64 max_bytes -> scan root = Ok found -> Forall (fun f => 0 <= found_size f) found ->
  sum_Z (found_size <$> found) <= u64_max ->
  started max_bytes files0 root = Some s0 -> rtc (cache_step max_bytes) s0 s ->
  st_total_bytes (wo_state (sy_world s)) = index_size (st_entries (wo_state (sy_world s))) /\
  index_size (st_entries (wo_state (sy_world s))) <= max_bytes + weights (sy_tasks s) /\
  forall page content_type bytes, Hit page content_type bytes ∈ sy_answers s ->
    (exists put_page, same_page put_page page /\ (put_page, content_type, bytes) ∈ sy_puts s) \/
    (exists e, content_type = from_extension e /\ files0 !! directory_path page e = Some bytes).
Proof.
  intros Hmax Hscan Hsz Hfit Hstart Hsteps. pose proof (started_ok _ _ _ _ _ Hmax Hscan Hsz Hfit Hstart) as Hok.
  clear Hstart. induction Hsteps as [s|s1 s2 s3 Hstep _ IH]; [|apply IH, (cache_step_ok _ _ s1); [apply Hmax|done..]].
  destruct Hok as [S1 S2 S3 S4 S5 S6 S7 S8]. split; [apply S1|]. split.
  - pose proof (tasks_weights _ _ _ _ S6). lia.
  - intros page content_type bytes Hin. rewrite Forall_forall in S8.
    destruct (S8 _ Hin) as (e & -> & [(p & c & Hk & -> & Hp)|Hf]).
    + left. exists p. rewrite put_extension_type. split; [by apply index_key_same|done].
    + right. exists e. by rewrite <- directory_path_eq.
Qed.

(** *** A put, then a get *)

(** The newest entry is evicted last, and only when it is larger than the bound. *)
Lemma newest_kept max_bytes s evicted s' k e :
  evicted_ok max_bytes s evicted s' -> st_entries s !! k = Some e -> en_size e <= max_bytes ->
  (forall k' e', st_entries s !! k' = Some e' -> k' <> k -> en_last_used e' < en_last_used e) ->
  st_entries s' !! k = Some e.
Proof.
  intros [E1 E2 E3 E4 E5 E6 E7] Hk Hsize Hnew. pose proof (E3 k) as Ek. rewrite Hk in Ek.
  destruct (st_entries s' !! k) as [e'|] eqn:Hk'; [by injection Ek as <-|]. cbn in Ek. symmetry in Ek.
  apply fmap_Some in Ek as ([k1 e1] & [Hin Hk1]%find_some & ->). apply bool_decide_eq_true in Hk1. cbn in *. subst k1.
  apply list_elem_of_In in Hin. destruct (exists_last (l := evicted)) as (rest & [k2 e2] & E).
  { intros ->. by apply elem_of_nil in Hin. }
  assert (Hlast : en_last_used e1 <= en_last_used e2).
  { rewrite E in Hin, E6. apply elem_of_app in Hin as [Hin|[= <- <-]%list_elem_of_singleton]; [|lia].
    apply (StronglySorted_app_1_elem_of _ _ _ (k, e1) (k2, e2) E6); [done|by left]. }
  assert (k2 = k) as ->.
  { destruct (decide (k2 = k)) as [|Hne]; [done|]. assert ((k2, e2) ∈ evicted) as [_ H2]%E4
      by (rewrite E, elem_of_app; right; by left). specialize (Hnew _ _ H2 Hne). lia. }
  assert (e2 = e1) as ->.
  { assert ((k, e2) ∈ evicted) as [_ H2]%E4 by (rewrite E, elem_of_app; right; by left). congruence. }
  assert (st_entries s' = ∅) as Hempty.
  { apply map_empty. intros k'. destruct (st_entries s' !! k') as [e'|] eqn:He'; [|done]. exfalso.
    pose proof (E5 _ _ _ _ Hin He') as Hle. assert (Hs : st_entries s !! k' = Some e') by (by rewrite E3, He').
    specialize (Hnew k' e' Hs). destruct (decide (k' = k)) as [->|Hne]; [congruence|]. specialize (Hnew Hne). lia. }
  specialize (E7 _ _ _ E). rewrite Hempty in E7. change (index_size ∅) with 0 in E7. lia.
Qed.

Abbreviation Script := (list (bool * option (list Z))).

Definition all_ok (script : Script) : Prop := Forall (fun step => step.1 = true) script.

(** A call that ends within [n] undisturbed steps. *)
Definition completes (max_bytes : Z) (n : nat) (o : Outcome) (w w' : World) (a : Answer) : Prop :=
  forall script, all_ok script -> (n <= length script)%nat -> run_call max_bytes script o w = (w', Some a).

Lemma completes_return max_bytes n w a : completes max_bytes n (Return a) w w a.
Proof. intros script _ _. by destruct script. Qed.

Lemma completes_step max_bytes n t w w1 o w' a :
  (forall torn, task_step max_bytes true torn t w = (w1, o)) -> completes max_bytes n o w1 w' a ->
  completes max_bytes (S n) (Next t) w w' a.
Proof.
  intros Hstep Hrest [|[ok torn] script] Hok Hlen; cbn in Hlen; [lia|]. apply Forall_cons in Hok as [Heq Hok]. cbn in Heq.
  cbn [run_call]. rewrite Heq, Hstep. apply Hrest; [done|lia].
Qed.

Lemma removing_completes max_bytes a paths w :
  exists w', completes max_bytes (length paths) (Next (Removing a paths)) w w' a /\ wo_state w' = wo_state w /\
    (forall p, p ∉ paths -> wo_files w' !! p = wo_files w !! p) \/ paths = [].
Proof.
  revert w. induction paths as [|path paths IH]; intros w; [exists w; auto|].
  set (w1 := with_files w (delete path (wo_files w))). destruct paths as [|path' paths].
  - exists w1. left. split_and!; [|done|].
    + eapply completes_step; [done|]. apply completes_return.
    + intros p Hp. apply lookup_delete_ne. intros <-. apply Hp. by left.
  - destruct (IH w1) as (w' & [(Hc & Hs & Hf)|]); [|done]. exists w'. left. split_and!; [|by rewrite Hs|].
    + eapply completes_step; [done|]. exact Hc.
    + intros p [Hne Hp]%not_elem_of_cons. rewrite Hf by done. by apply lookup_delete_ne.
Qed.

(** Bringing the cache below its bound, to the end. *)
Lemma enforcing_completes max_bytes size w :
  let evicted := (evict_to max_bytes (wo_state w)).1 in
  exists n w', completes max_bytes n (Next (PutEnforcing size)) w w' Stored /\
    wo_state w' = (evict_to max_bytes (wo_state w)).2 /\
    (forall p, p ∉ ((fun kv => file_path kv.1 (en_extension kv.2)) <$> evicted) -> wo_files w' !! p = wo_files w !! p).
Proof.
  intros evicted. set (w1 := with_state w (evict_to max_bytes (wo_state w)).2).
  assert (Hstep : forall torn, task_step max_bytes true torn (PutEnforcing size) w = (w1, removing Stored evicted))
    by (intros torn; cbn [task_step]; by rewrite (surjective_pairing (evict_to _ _))).
  destruct (decide (evicted = [])) as [E|E].
  - exists 1%nat, w1. split_and!; [|done|done]. eapply completes_step; [exact Hstep|]. rewrite E. apply completes_return.
  - set (paths := (fun kv => file_path kv.1 (en_extension kv.2)) <$> evicted) in *.
    destruct (removing_completes max_bytes Stored paths w1) as (w' & [(Hc & Hs & Hf)|Hnil]).
    + exists (S (length paths)), w'. split_and!; [|by rewrite Hs|done]. eapply completes_step; [exact Hstep|].
      unfold removing. destruct evicted; [done|]. exact Hc.
    + by destruct evicted.
Qed.

(** What holds of a world that no call is working on. *)
Record world_ok (w : World) : Prop := {
  wk_state : state_ok (wo_state w);
  wk_plain : map_Forall (fun _ e => plain_extension (en_extension e)) (st_entries (wo_state w));
  wk_clock : map_Forall (fun _ e => en_last_used e <= st_clock (wo_state w)) (st_entries (wo_state w));
  wk_time : 0 <= st_clock (wo_state w) < u64_max;
}.

(** From the index on: the entry is made, the previous file and the evicted ones go. *)
Lemma indexing_completes max_bytes w k e bytes :
  0 <= max_bytes -> world_ok w -> plain_extension e -> Z.of_nat (length bytes) <= max_bytes ->
  index_size (st_entries (wo_state w)) + Z.of_nat (length bytes) <= u64_max ->
  wo_files w !! file_path k e = Some bytes ->
  let s1 := (index_insert k e (Z.of_nat (length bytes)) (wo_state w)).2 in
  exists n w', completes max_bytes n (Next (PutIndexing k e bytes)) w w' Stored /\
    evicted_ok max_bytes s1 (evict_to max_bytes s1).1 (wo_state w') /\
    wo_files w' !! file_path k e = Some bytes /\ en_extension <$> st_entries (wo_state w') !! k = Some e.
Proof.
  intros Hmax [Hs Hp Hc Ht] He Hsize Hfit Hfile s1. set (size := Z.of_nat (length bytes)) in *.
  destruct (index_insert_ok k e size (wo_state w) Hs ltac:(lia) Hfit) as [Hok _].
  pose proof (index_insert_plain k e size (wo_state w) He Hp) as Hpl. fold s1 in Hok, Hpl.
  pose proof (evict_to_ok max_bytes s1 Hmax Hok) as Hev.
  assert (Hclock : wrap_u64 (st_clock (wo_state w) + 1) = st_clock (wo_state w) + 1)
    by (apply wrap_u64_id; unfold in_u64; lia).
  assert (Hkept : exists new, st_entries (evict_to max_bytes s1).2 !! k = Some new /\ en_extension new = e).
  { eexists. split; [|shelve]. eapply newest_kept; [exact Hev|apply lookup_insert_eq|done|].
    intros k' e' Hk' Hne. cbn in Hk'. rewrite lookup_insert_ne in Hk' by done. cbn. rewrite Hclock.
    pose proof (Hc _ _ Hk') as Hle. cbn in Hle. lia. Unshelve. done. }
  destruct Hkept as (new & Hnew & Hext).
  assert (Hpath : file_path k e ∉ (fun kv => file_path kv.1 (en_extension kv.2)) <$> (evict_to max_bytes s1).1).
  { intros ([k' e'] & E & Hin)%list_elem_of_fmap. cbn in E. destruct (ev_gone _ _ _ _ Hev _ _ Hin) as [Hgone Hin1].
    apply file_path_inj in E as [<- _]; [congruence|apply He|apply (Hpl _ _ Hin1)]. }
  set (next := match st_entries (wo_state w) !! k with
               | Some p => if bool_decide (en_extension p = e) then PutEnforcing size
                           else PutSweeping size (file_path k (en_extension p))
               | None => PutEnforcing size end).
  assert (Hnext : exists n w2, wo_state w2 = s1 /\ wo_files w2 !! file_path k e = Some bytes /\
    forall n' w', completes max_bytes n' (Next (PutEnforcing size)) w2 w' Stored ->
      completes max_bytes (n + n') (Next next) (with_state w s1) w' Stored).
  { subst next. destruct (st_entries (wo_state w) !! k) as [p|] eqn:Hk; [case_bool_decide as Heq|].
    1,3: exists 0%nat, (with_state w s1); split_and!; done.
    exists 1%nat, (with_files (with_state w s1) (delete (file_path k (en_extension p)) (wo_files w))). split_and!; [done| |].
    - cbn. rewrite lookup_delete_ne; [done|]. intros [_ E]%file_path_inj; [done|apply (Hp _ _ Hk)|apply He].
    - intros n' w' Hc'. eapply completes_step; [done|]. exact Hc'. }
  destruct Hnext as (n & w2 & Hst & Hf2 & Hrun).
  destruct (enforcing_completes max_bytes size w2) as (n' & w' & Hc' & Hst' & Hf'). rewrite Hst in Hst', Hf'.
  exists (S (n + n')), w'. rewrite Hst'. split_and!; [|done|by rewrite Hf'|by rewrite Hnew; cbn; f_equal].
  eapply completes_step; [|by apply Hrun]. intros torn. reflexivity.
Qed.

(** What is put can be got.  A page no larger than the bound, put into a cache at
    rest, is stored within finitely many operations; a get that follows returns the same
    type and bytes; the cache is within its bound, and what it gave up for the page was
    used no later than anything it kept. *)
Theorem put_then_get max_bytes uuid key content_type bytes w :
  0 <= max_bytes -> world_ok w -> Z.of_nat (length bytes) <= max_bytes ->
  index_size (st_entries (wo_state w)) + Z.of_nat (length bytes) <= u64_max ->
  exists n w', completes max_bytes n (put_begin true uuid key content_type bytes) w w' Stored /\
    completes max_bytes 1 (get_begin key w').2 (get_begin key w').1 (get_begin key w').1
      (Hit key content_type bytes) /\
    st_total_bytes (wo_state w') <= max_bytes /\
    (forall k e, st_entries (wo_state w) !! k = Some e -> st_entries (wo_state w') !! k = None ->
       forall k' e', st_entries (wo_state w') !! k' = Some e' -> k' <> index_key key ->
         st_entries (wo_state w) !! k' = Some e' /\ en_last_used e <= en_last_used e').
Proof.
  intros Hmax Hok Hsize Hfit. set (k := index_key key). set (e := put_extension content_type).
  set (tmp := temporary_path (file_path k e) uuid).
  assert (He : plain_extension e) by apply put_extension_plain.
  set (w2 := with_files w (<[file_path k e := bytes]> (delete tmp (<[tmp := bytes]> (wo_files w))))).
  assert (Hok2 : world_ok w2) by (by destruct Hok; constructor).
  destruct (indexing_completes max_bytes w2 k e bytes) as (n & w' & Hrun & Hev & Hfile & Hext); try done.
  { apply lookup_insert_eq. }
  exists (S (S n)), w'. split_and!.
  - eapply completes_step; [done|]. eapply completes_step; [|exact Hrun].
    intros torn. cbn [task_step with_files wo_files]. fold tmp. by rewrite lookup_insert_eq.
  - unfold get_begin, touch. fold k. apply fmap_Some in Hext as (new & Hnew & Hx). rewrite Hnew. cbn [fst snd en_extension].
    eapply completes_step; [|apply completes_return]. intros torn. cbn [task_step with_state wo_files].
    fold k. rewrite <- Hx, Hfile. subst e. by rewrite put_extension_type.
  - rewrite (so_total _ (ev_state _ _ _ _ Hev)). apply Hev.
  - intros k1 e1 Hk1 Hgone k2 e2 Hk2 Hne. destruct Hev as [_ _ E3 _ E5 _ _].
    assert (Hk1e : k1 <> k) by (intros ->; by rewrite Hgone in Hext).
    pose proof (E3 k1) as G1. pose proof (E3 k2) as G2. rewrite Hgone in G1. rewrite Hk2 in G2. cbn in G1, G2.
    rewrite lookup_insert_ne in G1, G2 by done. split; [done|]. cbn in Hk1. rewrite Hk1 in G1. symmetry in G1.
    apply fmap_Some in G1 as ([k1' e1'] & [Hin Heq]%find_some & ->). apply list_elem_of_In in Hin. by eapply E5.
Qed.

End sound.

(** *** Invalidation *)

Section invalidation.
Context `{Digest} `{!DigestLaws}.

(** Invalidating an item takes exactly its pages out of the index. *)
Lemma invalidate_exact source item key s :
  state_ok s ->
  st_entries (invalidate_index source item s).2 !! index_key key =
    if bool_decide (sanitize_component (pk_source key) = sanitize_component source /\ md5_hex (pk_item key) = md5_hex item)
    then None else st_entries s !! index_key key.
Proof.
  intros Hok. unfold invalidate_index. destruct (remove_keys_ok (List.filter (fun key => starts_with key (item_prefix source item))
    (map_to_list (st_entries s)).*1) s Hok) as (_ & _ & -> & _).
  rewrite (bool_decide_ext _ (starts_with (index_key key) (item_prefix source item) = true /\ is_Some (st_entries s !! index_key key))).
  2:{ rewrite list_elem_of_In, filter_In, <- list_elem_of_In, list_elem_of_fmap. split.
      - intros [([k e] & -> & Hin%elem_of_map_to_list) Hst]. eauto.
      - intros [Hst [e He]]. split; [|done]. exists (index_key key, e). by rewrite elem_of_map_to_list. }
  assert (Hiff : starts_with (index_key key) (item_prefix source item) = true <->
    sanitize_component (pk_source key) = sanitize_component source /\ md5_hex (pk_item key) = md5_hex item).
  { rewrite starts_with_iff. unfold index_key. split.
    - intros [rest (? & ? & _)%item_prefix_inj]. done.
    - intros [E1 E2]. exists (pad5 (Z.of_N (pk_page key))). unfold item_prefix. by rewrite E1, E2. }
  destruct (st_entries s !! index_key key) as [e|]; repeat case_bool_decide; naive_solver.
Qed.

End invalidation.

(** *** Examples *)

#[local] Instance demo_digest : Digest := {| md5_hex := fun _ => lit "ab" |}.
#[local] Instance demo_digest_laws : DigestLaws.
Proof. constructor. intros item. apply (bool_decide_unpack _). vm_compute. exact I. Qed.
#[local] Instance demo_lower : Lowercase := {| to_lowercase := map to_ascii_lowercase |}.
#[local] Instance demo_lower_laws : LowercaseLaws.
Proof. constructor. done. Qed.

Definition demo_key : PageKey := {| pk_source := lit "mock"; pk_item := lit "c1"; pk_page := 0%N |}.

Definition demo_page : PageFile := {| pf_name := lit "00000.png"; pf_metadata := Some (true, 3, None) |}.

Definition demo_root : option (list SourceDir) :=
  Some [{| di_name := lit "mock"; di_is_dir := Some true;
           di_entries := Some [{| di_name := lit "ab"; di_is_dir := Some true; di_entries := Some [demo_page] |}] |}].

Definition demo_files : gmap str (list Z) := {[ lit "mock/ab/00000.png" := [1; 2; 3] ]}.

(** Running a system by hand: advance a task, or begin a call. *)
Definition advance (i : nat) (s : System) : System :=
  match sy_tasks s !! i with
  | None => s
  | Some t =>
      let '(w, o) := task_step 10 true None t (sy_world s) in
      {| sy_world := w; sy_tasks := take i (sy_tasks s) ++ next_tasks o ++ drop (S i) (sy_tasks s); sy_puts := sy_puts s;
         sy_answers := sy_answers s ++ next_answers o |}
  end.

Definition begin_get (key : PageKey) (s : System) : System :=
  let '(w, o) := get_begin key (sy_world s) in
  {| sy_world := w; sy_tasks := sy_tasks s ++ next_tasks o; sy_puts := sy_puts s; sy_answers := sy_answers s ++ next_answers o |}.

Definition begin_invalidate (source item : str) (s : System) : System :=
  let '(w, o) := invalidate_begin source item (sy_world s) in
  {| sy_world := w; sy_tasks := sy_tasks s ++ next_tasks o; sy_puts := sy_puts s; sy_answers := sy_answers s ++ next_answers o |}.

Definition begin_put (key : PageKey) (content_type : ContentType) (bytes : list Z) (s : System) : System :=
  let o := put_begin true (lit "u") key content_type bytes in
  {| sy_world := sy_world s; sy_tasks := sy_tasks s ++ next_tasks o; sy_puts := sy_puts s ++ [(key, content_type, bytes)];
     sy_answers := sy_answers s ++ next_answers o |}.

Lemma advance_run s0 i s : rtc (cache_step 10) s0 s -> rtc (cache_step 10) s0 (advance i s).
Proof.
  intros Hs. unfold advance. destruct (sy_tasks s !! i) as [t|] eqn:Et; [|done]. eapply rtc_r; [done|].
  destruct (task_step 10 true None t (sy_world s)) as [w o] eqn:E.
  eapply task_steps; [|done]. symmetry. by apply take_drop_middle.
Qed.

Lemma begin_get_run s0 key s : rtc (cache_step 10) s0 s -> rtc (cache_step 10) s0 (begin_get key s).
Proof.
  intros Hs. eapply rtc_r; [done|]. unfold begin_get. destruct (get_begin key (sy_world s)) as [w o] eqn:E. by apply (get_begins _ _ key).
Qed.

Lemma begin_invalidate_run s0 source item s :
  rtc (cache_step 10) s0 s -> rtc (cache_step 10) s0 (begin_invalidate source item s).
Proof.
  intros Hs. eapply rtc_r; [done|]. unfold begin_invalidate. destruct (invalidate_begin source item (sy_world s)) as [w o] eqn:E.
  by apply (invalidate_begins _ _ source item).
Qed.

Definition demo_start (max_bytes : Z) : System :=
  default {| sy_world := {| wo_files := ∅; wo_state := default_state |}; sy_tasks := []; sy_puts := []; sy_answers := [] |}
    (started max_bytes demo_files demo_root).

(** A page of the directory is found and read. *)
Lemma page_cache_sound_witness :
  let s := advance 0 (begin_get demo_key (demo_start 10)) in
  sy_answers s = [Hit demo_key PNG [1; 2; 3]] /\
  st_total_bytes (wo_state (sy_world s)) = index_size (st_entries (wo_state (sy_world s))).
Proof.
  intros s. split; [vm_compute; reflexivity|].
  apply (page_cache_sound 10 demo_files demo_root [(lit "mock/ab/00000", lit "png", 3, 0)] (demo_start 10) s).
  - unfold in_u64, u64_max. lia.
  - vm_compute. reflexivity.
  - repeat constructor. vm_compute. discriminate.
  - vm_compute. discriminate.
  - vm_compute. reflexivity.
  - apply advance_run, begin_get_run, rtc_refl.
Defined.

Lemma put_then_get_witness :
  exists n w', completes 10 n (put_begin true (lit "u") demo_key JPEG [7; 8]) (sy_world (demo_start 10)) w' Stored /\
    st_total_bytes (wo_state w') <= 10.
Proof.
  destruct (put_then_get 10 (lit "u") demo_key JPEG [7; 8] (sy_world (demo_start 10))) as (n & w' & Hput & _ & Hle & _).
  - lia.
  - constructor.
    + constructor; [vm_compute; reflexivity| |vm_compute; discriminate].
      apply (bool_decide_unpack _). vm_compute. exact I.
    + intros k e Hk. apply elem_of_map_to_list in Hk.
      replace (map_to_list (st_entries (wo_state (sy_world (demo_start 10)))))
        with [(lit "mock/ab/00000", {| en_extension := lit "png"; en_size := 3; en_last_used := 1 |})] in Hk by (vm_compute; reflexivity).
      apply list_elem_of_singleton in Hk as [= -> ->]. exact (put_extension_plain PNG).
    + apply (bool_decide_unpack _). vm_compute. exact I.
    + vm_compute. split; [discriminate|reflexivity].
  - cbn. lia.
  - vm_compute. discriminate.
  - exists n, w'. split; [exact Hput|exact Hle].
Defined.

(** A get whose file has just been deleted drops the entry by key, even when the page was
    stored again in between: at rest a file is on disk that the index does not know, and
    that no eviction will ever delete. *)
Definition before_put : System :=
  advance 0 (advance 1 (begin_invalidate (lit "mock") (lit "c1") (begin_get demo_key (demo_start 10)))).

Definition orphan_run : System :=
  advance 0 (advance 1 (advance 1 (advance 1 (advance 1 (begin_put demo_key PNG [1; 2; 3] before_put))))).

Example dropped_entry_orphans_file :
  rtc (cache_step 10) (demo_start 10) orphan_run /\
  sy_tasks orphan_run = [] /\ st_entries (wo_state (sy_world orphan_run)) = ∅ /\
  wo_files (sy_world orphan_run) !! lit "mock/ab/00000.png" = Some [1; 2; 3].
Proof.
  split; [|vm_compute; done]. do 5 apply advance_run. eapply rtc_r; [|eapply (put_begins 10 before_put true (lit "u")); [done|..]].
  - do 2 apply advance_run. apply begin_invalidate_run, begin_get_run, rtc_refl.
  - vm_compute. discriminate.
  - apply (bool_decide_unpack _). vm_compute. exact I.
Qed.

(** A source may be named [..]: its pages are stored beside the root of the cache. *)
Example source_escapes_root :
  sanitize_component (lit "..") = lit ".." /\
  index_key {| pk_source := lit ".."; pk_item := lit "c1"; pk_page := 0%N |} = lit "../ab/00000".
Proof. vm_compute. done. Qed.

(** Two files of one page, left by a crash between publishing the new one and deleting
    the old one: only one is indexed, the other is never deleted. *)
Example stale_extension_forgotten :
  let files := [(lit "mock/ab/00000", lit "jpg", 3, 0); (lit "mock/ab/00000", lit "png", 4, 1)] in
  st_total_bytes (open_index files) = 4 /\ length (map_to_list (st_entries (open_index files))) = 1%nat.
Proof. vm_compute. done. Qed.

(** Two sources whose names differ in a character that directory names do not keep share
    their pages: the second is served what was stored for the first. *)
Definition colon_key : PageKey := {| pk_source := lit "a:b"; pk_item := lit "c1"; pk_page := 0%N |}.
Definition underscore_key : PageKey := {| pk_source := lit "a_b"; pk_item := lit "c1"; pk_page := 0%N |}.

Example sources_share_pages :
  let stored := advance 0 (advance 0 (advance 0 (advance 0 (begin_put colon_key PNG [1; 2; 3] (demo_start 10))))) in
  sy_answers (advance 0 (begin_get underscore_key stored)) = [Stored; Hit underscore_key PNG [1; 2; 3]].
Proof. vm_compute. reflexivity. Qed.
