(* ===== verification/SourceHealth.v ===== *)
(** * The health of remote sources

    Models [src/crates/provider/src/health.rs], with the challenge test and the configured
    headers of [http.rs] and the themes of [catalog.rs]: every source of the catalogue is
    probed over HTTP, and its row says whether it is reachable, since when it is not, and
    whether that makes it dead.

    A probe runs against a [Web], which answers every request of the run.  URLs, headers
    and JSON are parsed by libraries: the class [WebText].  Every statement may fail, as
    the next fault says.  The targets of a run are probed concurrently; they have no row in
    common unless the catalogue lists a source twice, so they are modelled one after the
    other, in the order in which they finish. *)

From stdpp Require Import base gmap list strings sorting.
From Stdlib Require Import ZArith Lia.
From S2P Require Import Prelude Float64.

#[local] Open Scope Z_scope.
#[local] Open Scope coppice_scope.

(** ** Data *)

Inductive HealthStatus := Unknown | Healthy | Degraded | Dead.

#[export] Instance HealthStatus_eq_dec : EqDecision HealthStatus.
Proof. solve_decision. Defined.

Definition health_word (st : HealthStatus) : str :=
  match st with Unknown => lit "UNKNOWN" | Healthy => lit "OK" | Degraded => lit "DEGRADED" | Dead => lit "DEAD" end.

Definition health_parse (value : str) : HealthStatus :=
  if bool_decide (value = lit "OK") then Healthy
  else if bool_decide (value = lit "DEGRADED") then Degraded
  else if bool_decide (value = lit "DEAD") then Dead
  else Unknown.

Inductive SourceTheme := Madara | MangaThemesia | Mmrcms.

#[export] Instance SourceTheme_eq_dec : EqDecision SourceTheme.
Proof. solve_decision. Defined.

Definition latest_path (theme : SourceTheme) : str :=
  match theme with
  | Madara => lit "/manga/?m_orderby=latest"
  | MangaThemesia => lit "/manga/?order=update"
  | Mmrcms => lit "/latest-release"
  end.

Definition theme_word (theme : SourceTheme) : str :=
  match theme with Madara => lit "MADARA" | MangaThemesia => lit "MANGA_THEMESIA" | Mmrcms => lit "MMRCMS" end.

Definition theme_parse (value : str) : option SourceTheme :=
  if bool_decide (value = lit "MADARA") then Some Madara
  else if bool_decide (value = lit "MANGA_THEMESIA") then Some MangaThemesia
  else if bool_decide (value = lit "MMRCMS") then Some Mmrcms
  else None.

(** [str::contains]. *)
Fixpoint holds_text (s piece : str) : bool :=
  starts_with s piece || match s with [] => false | _ :: s => holds_text s piece end.

Definition detect (html : str) : option SourceTheme :=
  let lower := map to_ascii_lowercase html in
  let has piece := holds_text lower (lit piece) in
  if has "wp-content/themes/madara" || has "madara-core" || has "wp-manga" then Some Madara
  else if has "ts_reader" || has "wp-content/themes/mangastream" || has "wp-content/themes/mangareader" || has "mangathemesia"
  then Some MangaThemesia
  else if has "/latest-release" && (has "mangas-list" || has "cms-") then Some Mmrcms
  else None.

Record CatalogSource := { cs_id : str; cs_name : str; cs_lang : str; cs_base_url : str }.

Record HealthProbe := {
  hp_http_status : option Z;
  hp_latency_ms : option Z;
  hp_redirect_url : option str;
  hp_theme : option SourceTheme;
  hp_latest_path_ok : option bool;
  hp_challenged : bool;
  hp_error : option str;
}.

Record HealthRow := {
  hr_source_id : str;
  hr_name : str;
  hr_lang : str;
  hr_base_url : str;
  hr_theme : option str;
  hr_status : str;
  hr_http_status : option Z;
  hr_latency_ms : option Z;
  hr_redirect_url : option str;
  hr_latest_path_ok : option bool;
  hr_consecutive_failures : Z;
  hr_error : option str;
  hr_checked_at : option Z;
}.

(** The rows of configured sources that a probe reads. *)
Record Instance_ := { in_id : str; in_base_url : str; in_enabled : bool; in_request_headers : option str }.

Record HealthTarget := { ht_base_url : str; ht_sources : list CatalogSource; ht_known_theme : option SourceTheme }.

Record SourceStatusChange := { sc_source_id : str; sc_name : str; sc_status : HealthStatus }.

Record ChallengedInstance := { ci_instance_id : str; ci_host : str; ci_url : str }.

Record HealthRunSummary := {
  hs_probed_urls : Z;
  hs_updated_sources : Z;
  hs_ok : Z;
  hs_degraded : Z;
  hs_dead : Z;
  hs_changed : list SourceStatusChange;
  hs_challenged : list ChallengedInstance;
}.

Definition no_summary : HealthRunSummary :=
  {| hs_probed_urls := 0; hs_updated_sources := 0; hs_ok := 0; hs_degraded := 0; hs_dead := 0; hs_changed := []; hs_challenged := [] |}.

Definition merge (a b : HealthRunSummary) : HealthRunSummary :=
  {| hs_probed_urls := hs_probed_urls a + hs_probed_urls b; hs_updated_sources := hs_updated_sources a + hs_updated_sources b;
     hs_ok := hs_ok a + hs_ok b; hs_degraded := hs_degraded a + hs_degraded b; hs_dead := hs_dead a + hs_dead b;
     hs_changed := hs_changed a ++ hs_changed b; hs_challenged := hs_challenged a ++ hs_challenged b |}.

(** ** Requests *)

Definition Headers : Type := list (str * str).

(** An answer; the value of a header that is not text is [None]. *)
Record Response := { rs_status : Z; rs_headers : list (str * option str); rs_url : str; rs_body : option (list Z) }.

Inductive Method := Head | Get.

(** What the requests of one probe are answered with, the first and the second for the
    landing page ([Landing]), then one for its markup and one for the latest updates, and
    the milliseconds until the first answer. *)
Inductive Purpose := Landing | Markup | Latest.

Record Web := { web_send : Purpose -> Method -> str -> Headers -> result Response str; web_elapsed_ms : Z }.

(** The libraries: the host of a URL, decoding of bytes, a JSON object as a sorted map,
    and which texts are names and values of headers. *)
Class WebText := {
  url_host : str -> option str;
  from_utf8_lossy : list Z -> str;
  json_object : str -> option (list (str * json f64));
  header_name : str -> option str;
  header_value : str -> option str;
}.

Section health.
Context `{WebText}.

Definition trim_slashes (url : str) : str := drop_while_end (Z.eqb 47) url.

Definition host_of (url : str) : str := default url (url_host url).

Definition challenge_host (status : Z) (headers : list (str * option str)) (url : str) : option str :=
  if negb ((status =? 403) || (status =? 503)) then None
  else
    let mitigated := is_some_and ((List.find (fun kv => bool_decide (kv.1 = lit "cf-mitigated")) headers) ≫= snd)
                       (fun value => eq_ignore_ascii_case (trim value) (lit "challenge")) in
    let marker := existsb (fun kv => starts_with kv.1 (lit "cf-chl")) headers in
    then_some (mitigated || marker) (host_of url).

Inductive HeaderError := BadName (name : str) | BadValue (name : str).

Definition parse_pair (name value : str) : result (str * str) HeaderError :=
  match header_name name with
  | None => Err (BadName name)
  | Some parsed_name => match header_value value with None => Err (BadValue name) | Some parsed_value => Ok (parsed_name, parsed_value) end
  end.

Definition parse_headers (raw : option str) : Headers :=
  match raw with
  | None => []
  | Some raw =>
      let raw := trim raw in
      if bool_decide (raw = []) then []
      else
        match json_object raw with
        | None => []
        | Some fields =>
            omap (fun kv => match kv.2 with JString value => match parse_pair kv.1 value with Ok parsed => Some parsed | Err _ => None end | _ => None end) fields
        end
  end.

(** ** Probing *)

Definition DEAD_AFTER_FAILURES : Z := 3.
Definition CHALLENGE_ERROR : str := lit "cloudflare challenge".
Definition THEME_SNIFF_LIMIT : nat := Z.to_nat (512 * 1024).

Definition no_probe : HealthProbe :=
  {| hp_http_status := None; hp_latency_ms := None; hp_redirect_url := None; hp_theme := None; hp_latest_path_ok := None;
     hp_challenged := false; hp_error := None |}.

Definition ok_status (status : Z) : bool := (200 <=? status) && (status <? 400).

Definition reachable (p : HealthProbe) : bool := is_some_and (hp_http_status p) ok_status.

Definition next_state (p : HealthProbe) (previous_failures dead_after : Z) : HealthStatus * Z :=
  if hp_challenged p then (Degraded, 0)
  else if negb (reachable p) then
    let failures := Z.min (previous_failures + 1) i32_max in
    (if Z.max dead_after 1 <=? failures then Dead else Degraded, failures)
  else match hp_latest_path_ok p with Some false => (Degraded, 0) | _ => (Healthy, 0) end.

Definition redirect_target (base_url final_url : str) : option str :=
  if bool_decide (trim_slashes base_url = trim_slashes final_url) then None else Some final_url.

Definition probe_with (web : Web) (base_url : str) (known_theme : option SourceTheme) (headers : Headers) : HealthProbe :=
  let response :=
    match web_send web Landing Head base_url headers with
    | Ok response =>
        if negb ((rs_status response =? 405) || (rs_status response =? 501) || (rs_status response =? 403)) then Ok response
        else web_send web Landing Get base_url headers
    | Err _ => web_send web Landing Get base_url headers
    end in
  match response with
  | Err error =>
      {| hp_http_status := None; hp_latency_ms := None; hp_redirect_url := None; hp_theme := None; hp_latest_path_ok := None;
         hp_challenged := false; hp_error := Some error |}
  | Ok response =>
      let answered (theme : option SourceTheme) (latest : option bool) (challenged : bool) (error : option str) :=
        {| hp_http_status := Some (rs_status response); hp_latency_ms := Some (Z.min (web_elapsed_ms web) 4294967295);
           hp_redirect_url := redirect_target base_url (rs_url response); hp_theme := theme; hp_latest_path_ok := latest;
           hp_challenged := challenged; hp_error := error |} in
      match challenge_host (rs_status response) (rs_headers response) (rs_url response) with
      | Some _ => answered None None true (Some CHALLENGE_ERROR)
      | None =>
          if negb (ok_status (rs_status response)) then answered None None false (Some (lit "HTTP " ++ show_nonneg (rs_status response)))
          else
            let theme :=
              match known_theme with
              | Some theme => Some theme
              | None =>
                  match web_send web Markup Get base_url headers with
                  | Ok page => (fun bytes => from_utf8_lossy (take THEME_SNIFF_LIMIT bytes)) <$> rs_body page
                  | Err _ => None
                  end ≫= detect
              end in
            let latest :=
              (fun theme =>
                 match web_send web Latest Get (trim_slashes base_url ++ latest_path theme) headers with
                 | Ok page => (200 <=? rs_status page) && (rs_status page <? 300)
                 | Err _ => false
                 end) <$> theme in
            answered theme latest false None
      end
  end.

Definition probe (web : Web) (base_url : str) (known_theme : option SourceTheme) : HealthProbe := probe_with web base_url known_theme [].

(** ** The table *)

Record HealthDb := { hd_rows : gmap str HealthRow; hd_instances : list Instance_; hd_faults : list bool }.

Definition HealthDB (A : Type) : Type := HealthDb -> result A unit * HealthDb.

Definition on_health {A} (run : HealthDb -> A * HealthDb) : HealthDB A := fun db =>
  match hd_faults db with
  | true :: faults => (Err tt, {| hd_rows := hd_rows db; hd_instances := hd_instances db; hd_faults := faults |})
  | faults => let '(a, db) := run {| hd_rows := hd_rows db; hd_instances := hd_instances db; hd_faults := tail faults |} in (Ok a, db)
  end.

Definition read_health {A} (f : HealthDb -> A) : HealthDB A := on_health (fun db => (f db, db)).

Definition upsert_health (row : HealthRow) : HealthDB unit := on_health (fun db =>
  (tt, {| hd_rows := <[hr_source_id row := row]> (hd_rows db); hd_instances := hd_instances db; hd_faults := hd_faults db |})).

(** ** Plans *)

Definition themes_of (rows : gmap str HealthRow) (id : str) : option SourceTheme := ((rows !! id) ≫= hr_theme) ≫= theme_parse.

(** The sources of one base URL, in the order of the catalogue. *)
Definition sharing (base_url : str) (sources : list CatalogSource) : list CatalogSource :=
  List.filter (fun s => bool_decide (trim_slashes (cs_base_url s) = base_url)) sources.

Definition base_urls (sources : list CatalogSource) : gset str :=
  list_to_set ((fun s => trim_slashes (cs_base_url s)) <$> sources).

Definition listed (entries : list (list CatalogSource)) : list CatalogSource :=
  List.filter (fun s => negb (bool_decide (cs_base_url s = []))) (concat entries).

Definition target_of (rows : gmap str HealthRow) (sources : list CatalogSource) (base_url : str) : HealthTarget :=
  let shared := sharing base_url sources in
  {| ht_base_url := base_url; ht_sources := shared; ht_known_theme := find_map (fun s => themes_of rows (cs_id s)) shared |}.

Definition before (priority : list str) (a b : HealthTarget) : Prop :=
  let first t := bool_decide (ht_base_url t ∈ priority) in
  if bool_decide (first a = first b) then str_ord (ht_base_url a) (ht_base_url b) else first a = true.

#[global] Instance before_dec priority a b : Decision (before priority a b).
Proof. unfold before. destruct (bool_decide (_ = _)); apply _. Defined.

(** The sources of the catalogue are those of its entries, in order.  Two stable sorts, by
    URL and then by whether it is of an enabled instance. *)
Definition plan (entries : list (list CatalogSource)) (priority : list str) : HealthDB (list HealthTarget) :=
  rows <-- read_health hd_rows ;;
  let sources := listed entries in
  db_ret (merge_sort (before (trim_slashes <$> priority)) (target_of rows sources <$> elements (base_urls sources))).

(** [listing] is the order in which the table yields its rows. *)
Definition target_for (listing : gmap str HealthRow -> list HealthRow) (entries : list (list CatalogSource)) (base_url : str) : HealthDB HealthTarget :=
  let base_url := trim_slashes base_url in
  let sources := sharing base_url (concat entries) in
  match sources with
  | [] => db_ret {| ht_base_url := base_url; ht_sources := []; ht_known_theme := None |}
  | _ =>
      rows <-- read_health (fun db => List.filter (fun r => existsb (fun s => bool_decide (cs_id s = hr_source_id r)) sources) (listing (hd_rows db))) ;;
      db_ret {| ht_base_url := base_url; ht_sources := sources; ht_known_theme := find_map (fun r => hr_theme r ≫= theme_parse) rows |}
  end.

(** ** Runs *)

(** The answers of one run, for the anonymous probe of every URL and for the probe of every instance. *)
Record Run := { run_anonymous : str -> Web; run_instance : str -> Web }.

Fixpoint try_instances (run : Run) (target : HealthTarget) (url host : str) (instances : list Instance_) (cleared : option HealthProbe)
    (challenged : list ChallengedInstance) : option HealthProbe * list ChallengedInstance :=
  match instances with
  | [] => (cleared, challenged)
  | i :: instances =>
      if negb (bool_decide (trim_slashes (in_base_url i) = ht_base_url target)) then try_instances run target url host instances cleared challenged
      else
        let headers := parse_headers (in_request_headers i) in
        let gated := try_instances run target url host instances cleared
                       (challenged ++ [{| ci_instance_id := in_id i; ci_host := host; ci_url := url |}]) in
        match headers with
        | [] => gated
        | _ =>
            let p := probe_with (run_instance run (in_id i)) (ht_base_url target) (ht_known_theme target) headers in
            if negb (hp_challenged p) then try_instances run target url host instances (cleared orelse Some p) challenged else gated
        end
  end.

Definition clear_with_configured_headers (run : Run) (target : HealthTarget) (anonymous : HealthProbe)
  : HealthDB (HealthProbe * list ChallengedInstance) :=
  let url := default (ht_base_url target) (hp_redirect_url anonymous) in
  instances <-- read_health (fun db => List.filter in_enabled (hd_instances db)) ;;
  let '(cleared, challenged) := try_instances run target url (host_of url) instances None [] in
  db_ret (default anonymous cleared, challenged).

Definition row_of (now : Z) (p : HealthProbe) (source : CatalogSource) (previous : option HealthRow) (status : HealthStatus) (failures : Z)
  : HealthRow :=
  {| hr_source_id := cs_id source; hr_name := cs_name source; hr_lang := cs_lang source; hr_base_url := cs_base_url source;
     hr_theme := (theme_word <$> hp_theme p) orelse (previous ≫= hr_theme); hr_status := health_word status;
     hr_http_status := hp_http_status p; hr_latency_ms := (fun ms => Z.min ms i32_max) <$> hp_latency_ms p;
     hr_redirect_url := hp_redirect_url p; hr_latest_path_ok := hp_latest_path_ok p; hr_consecutive_failures := failures;
     hr_error := hp_error p; hr_checked_at := Some now |}.

Definition counted (status : HealthStatus) (source : CatalogSource) (previous : option HealthRow) (s : HealthRunSummary) : HealthRunSummary :=
  {| hs_probed_urls := hs_probed_urls s; hs_updated_sources := hs_updated_sources s;
     hs_ok := hs_ok s + (if bool_decide (status = Healthy) then 1 else 0);
     hs_degraded := hs_degraded s + (if bool_decide (status = Degraded) then 1 else 0);
     hs_dead := hs_dead s + (if bool_decide (status = Dead) then 1 else 0);
     hs_changed := hs_changed s ++
       (if is_some_and previous (fun row => negb (bool_decide (health_parse (hr_status row) = status)))
        then [{| sc_source_id := cs_id source; sc_name := cs_name source; sc_status := status |}] else []);
     hs_challenged := hs_challenged s |}.

Definition one_updated (s : HealthRunSummary) : HealthRunSummary :=
  {| hs_probed_urls := hs_probed_urls s; hs_updated_sources := hs_updated_sources s + 1; hs_ok := hs_ok s;
     hs_degraded := hs_degraded s; hs_dead := hs_dead s; hs_changed := hs_changed s; hs_challenged := hs_challenged s |}.

Fixpoint record_sources (now dead_after : Z) (p : HealthProbe) (existing : gmap str HealthRow) (sources : list CatalogSource)
    (summary : HealthRunSummary) : HealthDB HealthRunSummary :=
  match sources with
  | [] => db_ret summary
  | source :: sources =>
      let previous := existing !! cs_id source in
      let previous_failures := default 0 (hr_consecutive_failures <$> previous) in
      let '(status, failures) := next_state p previous_failures dead_after in
      let summary := counted status source previous summary in
      _ <-- upsert_health (row_of now p source previous status failures) ;;
      record_sources now dead_after p existing sources (one_updated summary)
  end.

Definition probe_target (run : Run) (now dead_after : Z) (target : HealthTarget) : HealthDB HealthRunSummary :=
  let anonymous := probe (run_anonymous run (ht_base_url target)) (ht_base_url target) (ht_known_theme target) in
  probed <-- (if hp_challenged anonymous then clear_with_configured_headers run target anonymous else db_ret (anonymous, [])) ;;
  let '(p, challenged) := probed in
  existing <-- read_health (fun db => filter (fun kv => Exists (fun s => cs_id s = kv.1) (ht_sources target)) (hd_rows db)) ;;
  record_sources now dead_after p existing (ht_sources target)
    {| hs_probed_urls := 1; hs_updated_sources := 0; hs_ok := 0; hs_degraded := 0; hs_dead := 0; hs_changed := []; hs_challenged := challenged |}.

(** Every target is probed, whichever fail; the first failure is the answer. *)
Fixpoint probe_targets (run : Run) (now dead_after : Z) (targets : list HealthTarget) : HealthDb -> list (result HealthRunSummary unit) * HealthDb :=
  fun db =>
  match targets with
  | [] => ([], db)
  | target :: targets =>
      let '(r, db) := probe_target run now dead_after target db in
      let '(rs, db) := probe_targets run now dead_after targets db in
      (r :: rs, db)
  end.

Fixpoint merge_all (results : list (result HealthRunSummary unit)) (summary : HealthRunSummary) : result HealthRunSummary unit :=
  match results with
  | [] => Ok summary
  | Ok s :: results => merge_all results (merge summary s)
  | Err e :: _ => Err e
  end.

(** [finishing] is the order in which the targets finish. *)
Definition check_catalog (finishing : list HealthTarget -> list HealthTarget) (run : Run) (now dead_after : Z)
    (entries : list (list CatalogSource)) (priority : list str) : HealthDB HealthRunSummary :=
  targets <-- plan entries priority ;;
  fun db =>
    let '(results, db) := probe_targets run now dead_after (finishing targets) db in
    (merge_all results no_summary, db).

(** ** One run *)

Definition anonymous_probe (run : Run) (target : HealthTarget) : HealthProbe :=
  probe (run_anonymous run (ht_base_url target)) (ht_base_url target) (ht_known_theme target).

(** The probes of a target with the headers that its enabled instances are configured with,
    in the order of the instances; an instance without headers has none. *)
Definition reprobes (run : Run) (instances : list Instance_) (target : HealthTarget) : list HealthProbe :=
  (fun i => probe_with (run_instance run (in_id i)) (ht_base_url target) (ht_known_theme target) (parse_headers (in_request_headers i))) <$>
    List.filter (fun i => in_enabled i && bool_decide (trim_slashes (in_base_url i) = ht_base_url target) &&
                          negb (bool_decide (length (parse_headers (in_request_headers i)) = 0%nat))) instances.

(** The probe a run records for a target: the anonymous one or, where that was challenged,
    the first with an instance's headers that was not; also when that one failed. *)
Definition observed_probe (run : Run) (instances : list Instance_) (target : HealthTarget) : HealthProbe :=
  if hp_challenged (anonymous_probe run target)
  then default (anonymous_probe run target) (List.find (fun p => negb (hp_challenged p)) (reprobes run instances target))
  else anonymous_probe run target.

Lemma try_instances_first run target url host instances : forall cleared challenged,
  (try_instances run target url host (List.filter in_enabled instances) cleared challenged).1 =
  cleared orelse List.find (fun p => negb (hp_challenged p)) (reprobes run instances target).
Proof.
  unfold reprobes. induction instances as [|i instances IH]; intros cleared challenged; [by destruct cleared|].
  cbn [List.filter]. destruct (in_enabled i) eqn:Ee; cbn [andb]; [|apply IH]. cbn [try_instances].
  case_bool_decide as Hu; cbn [negb andb]; [|apply IH]. destruct (parse_headers (in_request_headers i)) as [|h hs] eqn:Eh; [apply IH|].
  cbn [length bool_decide negb]. rewrite bool_decide_eq_false_2 by done. cbn [negb fmap list_fmap List.find]. rewrite Eh.
  set (p := probe_with _ _ _ _). destruct (hp_challenged p); cbn [negb]; rewrite IH; [done|]. by destruct cleared.
Qed.

(** The row a probe leaves for a source, given the row it had. *)
Definition recorded (now dead_after : Z) (p : HealthProbe) (source : CatalogSource) (previous : option HealthRow) : HealthRow :=
  let '(status, failures) := next_state p (default 0 (hr_consecutive_failures <$> previous)) dead_after in
  row_of now p source previous status failures.

Definition status_now (dead_after : Z) (p : HealthProbe) (previous : option HealthRow) : HealthStatus :=
  (next_state p (default 0 (hr_consecutive_failures <$> previous)) dead_after).1.

Definition write_rows (f : CatalogSource -> HealthRow) (sources : list CatalogSource) (rows : gmap str HealthRow) : gmap str HealthRow :=
  foldl (fun m s => <[cs_id s := f s]> m) rows sources.

Definition add_rows (dead_after : Z) (p : HealthProbe) (rows : gmap str HealthRow) (sources : list CatalogSource) (s : HealthRunSummary)
  : HealthRunSummary :=
  foldl (fun s source => one_updated (counted (status_now dead_after p (rows !! cs_id source)) source (rows !! cs_id source) s)) s sources.

Lemma write_rows_other f sources rows id :
  id ∉ cs_id <$> sources -> write_rows f sources rows !! id = rows !! id.
Proof.
  unfold write_rows. revert rows. induction sources as [|s sources IH]; intros rows; cbn; [done|].
  rewrite not_elem_of_cons. intros [Hne Hni]. rewrite IH by done. by apply lookup_insert_ne.
Qed.

Lemma write_rows_own f sources rows s :
  NoDup (cs_id <$> sources) -> s ∈ sources -> write_rows f sources rows !! cs_id s = Some (f s).
Proof.
  unfold write_rows. revert rows. induction sources as [|s' sources IH]; intros rows Hnd Hs; cbn; [by apply not_elem_of_nil in Hs|].
  cbn in Hnd. apply NoDup_cons in Hnd as [Hni Hnd]. apply elem_of_cons in Hs as [<-|Hs]; [|by apply IH].
  fold (write_rows f sources (<[cs_id s := f s]> rows)). rewrite write_rows_other by done. apply lookup_insert_eq.
Qed.

Lemma write_rows_ext f g sources rows :
  (forall s, s ∈ sources -> f s = g s) -> write_rows f sources rows = write_rows g sources rows.
Proof.
  unfold write_rows. revert rows. induction sources as [|s sources IH]; intros rows Hfg; cbn; [done|].
  rewrite (Hfg s) by set_solver. apply IH. set_solver.
Qed.

Lemma add_rows_ext dead_after p rows rows' sources sum :
  (forall s, s ∈ sources -> rows !! cs_id s = rows' !! cs_id s) -> add_rows dead_after p rows sources sum = add_rows dead_after p rows' sources sum.
Proof.
  unfold add_rows. revert sum. induction sources as [|s sources IH]; intros sum Hrows; cbn; [done|].
  rewrite (Hrows s) by set_solver. apply IH. set_solver.
Qed.

#[local] Abbreviation db_of rows instances := {| hd_rows := rows; hd_instances := instances; hd_faults := [] |}.

Lemma record_sources_exact now dead_after p existing sources sum rows instances :
  record_sources now dead_after p existing sources sum (db_of rows instances)
  = (Ok (add_rows dead_after p existing sources sum),
     db_of (write_rows (fun s => recorded now dead_after p s (existing !! cs_id s)) sources rows) instances).
Proof.
  unfold add_rows, write_rows, status_now, recorded.
  revert sum rows. induction sources as [|s sources IH]; intros sum rows; cbn; [done|].
  destruct (next_state p _ dead_after) as [status failures] eqn:Hn. cbn. rewrite IH. done.
Qed.

Lemma existing_rows (sources : list CatalogSource) (rows : gmap str HealthRow) s :
  s ∈ sources -> filter (fun kv : str * HealthRow => Exists (fun s => cs_id s = kv.1) sources) rows !! cs_id s = rows !! cs_id s.
Proof.
  intros Hs. destruct (rows !! cs_id s) as [row|] eqn:Hr.
  - apply map_lookup_filter_Some_2; [done|]. apply Exists_exists. by exists s.
  - by apply map_lookup_filter_None_2; left.
Qed.

(** What a run over one target does when every statement succeeds. *)
Lemma probe_target_exact run now dead_after target rows instances :
  let p := observed_probe run instances target in
  exists challenged,
  probe_target run now dead_after target (db_of rows instances)
  = (Ok (add_rows dead_after p rows (ht_sources target)
           {| hs_probed_urls := 1; hs_updated_sources := 0; hs_ok := 0; hs_degraded := 0; hs_dead := 0; hs_changed := []; hs_challenged := challenged |}),
     db_of (write_rows (fun s => recorded now dead_after p s (rows !! cs_id s)) (ht_sources target) rows) instances).
Proof.
  intros p. unfold probe_target, p, observed_probe. clear p. fold (anonymous_probe run target).
  set (anonymous := anonymous_probe run target).
  assert (Hrest : forall p challenged,
    (existing <-- read_health (fun db => filter (fun kv => Exists (fun s => cs_id s = kv.1) (ht_sources target)) (hd_rows db)) ;;
     record_sources now dead_after p existing (ht_sources target)
       {| hs_probed_urls := 1; hs_updated_sources := 0; hs_ok := 0; hs_degraded := 0; hs_dead := 0; hs_changed := []; hs_challenged := challenged |})
      (db_of rows instances)
    = (Ok (add_rows dead_after p rows (ht_sources target)
             {| hs_probed_urls := 1; hs_updated_sources := 0; hs_ok := 0; hs_degraded := 0; hs_dead := 0; hs_changed := []; hs_challenged := challenged |}),
       db_of (write_rows (fun s => recorded now dead_after p s (rows !! cs_id s)) (ht_sources target) rows) instances)).
  { intros p challenged. cbn. rewrite record_sources_exact. f_equal.
    - f_equal. apply add_rows_ext. intros s Hs. by apply existing_rows.
    - f_equal. apply write_rows_ext. intros s Hs. by rewrite existing_rows. }
  destruct (hp_challenged anonymous) eqn:Hc.
  - cbv zeta. set (url := default (ht_base_url target) (hp_redirect_url anonymous)).
    assert (Hfirst : (try_instances run target url (host_of url) (List.filter in_enabled instances) None []).1 =
      List.find (fun p => negb (hp_challenged p)) (reprobes run instances target)) by (by rewrite try_instances_first).
    destruct (try_instances run target url (host_of url) (List.filter in_enabled instances) None []) as [cleared challenged] eqn:Ht.
    cbn [fst] in Hfirst. rewrite <- Hfirst. exists challenged. rewrite <- (Hrest (default anonymous cleared) challenged).
    unfold clear_with_configured_headers. fold url. unfold db_bind at 1 2, read_health at 1, on_health at 1.
    cbn [hd_faults hd_instances hd_rows tail]. rewrite Ht. done.
  - exists []. apply Hrest.
Qed.

(** ** The history of a source *)

(** One run over one target, at a time. *)
Record RunStep := { st_run : Run; st_now : Z; st_target : HealthTarget }.

Definition run_steps (dead_after : Z) (steps : list RunStep) (db : HealthDb) : HealthDb :=
  foldl (fun db st => (probe_target (st_run st) (st_now st) dead_after (st_target st) db).2) db steps.

(** The probe that a run is documented to record: the anonymous one or, where that was
    challenged, the first with an instance's headers that got through. *)
Definition documented_probe (run : Run) (instances : list Instance_) (target : HealthTarget) : HealthProbe :=
  if hp_challenged (anonymous_probe run target)
  then default (anonymous_probe run target)
         (List.find (fun p => negb (hp_challenged p) && reachable p) (reprobes run instances target))
  else anonymous_probe run target.

(** Where a target was challenged, every probe with configured headers is challenged too or
    gets through: none breaks off or is answered with another error. *)
Definition clean (instances : list Instance_) (st : RunStep) : Prop :=
  hp_challenged (anonymous_probe (st_run st) (st_target st)) = true ->
  Forall (fun p => hp_challenged p = true \/ reachable p = true) (reprobes (st_run st) instances (st_target st)).

Lemma documented_observed instances st :
  clean instances st -> observed_probe (st_run st) instances (st_target st) = documented_probe (st_run st) instances (st_target st).
Proof.
  unfold observed_probe, documented_probe, clean. destruct (hp_challenged (anonymous_probe _ _)); [|done]. intros Hc. specialize (Hc eq_refl).
  f_equal. induction Hc as [|p ps Hp _ IH]; [done|]. cbn. rewrite IH. destruct (hp_challenged p); [done|]. destruct Hp as [?| ->]; done.
Qed.

(** The probes that were of a source. *)
Definition is_of (id : str) (st : RunStep) : bool := bool_decide (id ∈ cs_id <$> ht_sources (st_target st)).

Definition probes_of (instances : list Instance_) (id : str) (steps : list RunStep) : list HealthProbe :=
  (fun st => documented_probe (st_run st) instances (st_target st)) <$> List.filter (is_of id) steps.

(** A failure is a probe that was neither challenged nor answered well. *)
Definition failing (p : HealthProbe) : bool := negb (hp_challenged p) && negb (reachable p).

(** How many failures there are since the last probe that was none. *)
Fixpoint leading (probes : list HealthProbe) : Z :=
  match probes with p :: probes => if failing p then leading probes + 1 else 0 | [] => 0 end.

Definition failures_in_a_row (probes : list HealthProbe) : Z := leading (reverse probes).

Definition verdict (dead_after : Z) (probes : list HealthProbe) (p : HealthProbe) : HealthStatus :=
  if failing p then if Z.max dead_after 1 <=? failures_in_a_row probes then Dead else Degraded
  else if hp_challenged p || bool_decide (hp_latest_path_ok p = Some false) then Degraded
  else Healthy.

(** What the row of a source says, after its probes. *)
Definition row_tells (dead_after : Z) (probes : list HealthProbe) (row : option HealthRow) : Prop :=
  match last probes with
  | None => row = None
  | Some p => exists r, row = Some r /\
      hr_consecutive_failures r = Z.min (failures_in_a_row probes) i32_max /\
      health_parse (hr_status r) = verdict dead_after probes p /\
      hr_theme r = theme_word <$> last (omap hp_theme probes) /\
      hr_http_status r = hp_http_status p /\ hr_latest_path_ok r = hp_latest_path_ok p /\ hr_error r = hp_error p
  end.

Lemma health_parse_word st : health_parse (health_word st) = st.
Proof. by destruct st. Qed.

Lemma leading_nonneg probes : 0 <= leading probes.
Proof. induction probes as [|p probes IH]; cbn; [lia|]. destruct (failing p); lia. Qed.

Lemma failures_snoc probes p :
  failures_in_a_row (probes ++ [p]) = if failing p then failures_in_a_row probes + 1 else 0.
Proof. unfold failures_in_a_row. by rewrite reverse_snoc. Qed.

(** A new probe takes the row one step on. *)
Lemma row_tells_snoc now dead_after probes p source row :
  dead_after <= i32_max -> row_tells dead_after probes row ->
  row_tells dead_after (probes ++ [p]) (Some (recorded now dead_after p source row)).
Proof.
  intros Hda Hrow. unfold row_tells at 1. rewrite last_snoc.
  assert (default 0 (hr_consecutive_failures <$> row) = Z.min (failures_in_a_row probes) i32_max /\
                  row ≫= hr_theme = theme_word <$> last (omap hp_theme probes)) as [Hf Ht].
  { unfold row_tells in Hrow. destruct (last probes) as [q|] eqn:Hl.
    - destruct Hrow as (r & -> & Hc & _ & Hth & _). done.
    - apply last_None in Hl as ->. subst row. done. }
  eexists; split; [done|]. unfold recorded. rewrite Hf. unfold verdict. rewrite failures_snoc.
  pose proof (leading_nonneg (reverse probes)) as Hpos. fold (failures_in_a_row probes) in Hpos.
  assert (Htheme : (theme_word <$> hp_theme p) orelse (row ≫= hr_theme) = theme_word <$> last (omap hp_theme (probes ++ [p]))).
  { rewrite Ht, omap_app. cbn. destruct (hp_theme p); cbn; [by rewrite last_snoc|]. by rewrite app_nil_r. }
  unfold next_state, failing, i32_max in *. destruct (hp_challenged p), (reachable p); cbn [negb andb orb].
  1-2: by split_and!.
  - destruct (hp_latest_path_ok p) as [[]|] eqn:Hlatest; by split_and!.
  - cbn [row_of hr_consecutive_failures hr_status hr_theme hr_http_status hr_latest_path_ok hr_error]. rewrite health_parse_word, Htheme. repeat split; [lia|].
    destruct (Z.leb_spec (Z.max dead_after 1) (Z.min (Z.min (failures_in_a_row probes) (2 ^ 31 - 1) + 1) (2 ^ 31 - 1)));
      destruct (Z.leb_spec (Z.max dead_after 1) (failures_in_a_row probes + 1)); done || lia.
Qed.

Lemma run_steps_db dead_after steps rows instances :
  exists rows', run_steps dead_after steps (db_of rows instances) = db_of rows' instances.
Proof.
  unfold run_steps. revert rows. induction steps as [|st steps IH]; intros rows; cbn; [by eexists|].
  destruct (probe_target_exact (st_run st) (st_now st) dead_after (st_target st) rows instances) as [challenged ->]. apply IH.
Qed.

Lemma run_steps_tells dead_after steps rows instances id :
  dead_after <= i32_max -> rows !! id = None -> Forall (fun st => NoDup (cs_id <$> ht_sources (st_target st))) steps ->
  Forall (clean instances) steps ->
  row_tells dead_after (probes_of instances id steps) (hd_rows (run_steps dead_after steps (db_of rows instances)) !! id).
Proof.
  intros Hda Hid. induction steps as [|st steps IH] using rev_ind; intros Hnd Hcl; [by cbn|].
  apply Forall_app in Hnd as [Hsteps Hst], Hcl as [Hcls Hcl]. specialize (IH Hsteps Hcls). rewrite Forall_singleton in Hst, Hcl.
  unfold run_steps, probes_of in *. rewrite foldl_snoc, List.filter_app, fmap_app.
  destruct (run_steps_db dead_after steps rows instances) as [rows' Hdb]. unfold run_steps in Hdb. rewrite Hdb in *. cbn [hd_rows] in IH.
  destruct (probe_target_exact (st_run st) (st_now st) dead_after (st_target st) rows' instances) as [challenged ->].
  cbn [snd hd_rows List.filter]. unfold is_of at 2. case_bool_decide as Hin.
  - apply list_elem_of_fmap in Hin as (s & -> & Hs). rewrite write_rows_own; [|exact Hst|exact Hs].
    rewrite documented_observed by done. by apply row_tells_snoc.
  - rewrite app_nil_r, write_rows_other by done. done.
Qed.

(** A challenge is no failure: only an anonymous probe that was not challenged fails. *)
Lemma documented_failing run instances target :
  failing (documented_probe run instances target) = failing (anonymous_probe run target).
Proof.
  unfold documented_probe, failing. destruct (hp_challenged (anonymous_probe run target)) eqn:Hc; [|by rewrite Hc].
  destruct (List.find _ _) as [p|] eqn:Hf; cbn; [|by rewrite Hc].
  apply find_Some_iff in Hf as [_ [Hp%negb_true_iff Hr]%andb_true_iff]. by rewrite Hp, Hr.
Qed.

Lemma unfailing_row dead_after probes row :
  Forall (fun p => failing p = false) probes -> row_tells dead_after probes row ->
  forall r, row = Some r -> health_parse (hr_status r) <> Dead /\ hr_consecutive_failures r = 0.
Proof.
  intros Hall Hrow r ->. unfold row_tells in Hrow. destruct (last probes) as [p|] eqn:Hl; [|done].
  destruct Hrow as (r' & [= <-] & Hc & Hs & _).
  assert (Hp : failing p = false) by (by eapply Forall_forall in Hall; [|by apply last_Some_elem_of]).
  assert (Hz : failures_in_a_row probes = 0).
  { apply last_Some in Hl as [l ->]. by rewrite failures_snoc, Hp. }
  rewrite Hc, Hs, Hz. unfold verdict. rewrite Hp. split; [by destruct (_ || _)|done].
Qed.

(** C27. What the row of a source says of its probes.  However many runs go over however many
    targets, when every statement succeeds, no target lists a source twice, and every probe
    that is repeated with configured headers because of a challenge is challenged again or
    gets through, the row of a source that had none is: absent before the first probe of it;
    afterwards it counts the failing probes since the last one that did not fail (at most the
    largest i32), is dead exactly when that count has reached the threshold and at least one,
    degraded after fewer failures, after a challenge and after a broken page of updates, and
    healthy otherwise; it keeps the last theme any probe found, and the last probe's answer.
    The probe of a run is the anonymous one or, when that is challenged, the first with the
    headers of an enabled instance of that URL that gets through.  So a challenge never counts
    as a failure: a source whose anonymous probes were all challenged or answered is not dead.
    [gated_source_dies] shows that this fails when a repeated probe breaks off. *)
Theorem health_history dead_after steps db id :
  dead_after <= i32_max -> hd_faults db = [] -> hd_rows db !! id = None ->
  Forall (fun st => NoDup (cs_id <$> ht_sources (st_target st))) steps -> Forall (clean (hd_instances db)) steps ->
  let row := hd_rows (run_steps dead_after steps db) !! id in
  row_tells dead_after (probes_of (hd_instances db) id steps) row /\
  (Forall (fun st => is_of id st = true ->
     let anonymous := anonymous_probe (st_run st) (st_target st) in hp_challenged anonymous = true \/ reachable anonymous = true) steps ->
   forall r, row = Some r -> health_parse (hr_status r) <> Dead /\ hr_consecutive_failures r = 0).
Proof.
  destruct db as [rows instances faults]. cbn [hd_rows hd_instances hd_faults]. intros Hda -> Hid Hnd Hcl. cbv zeta.
  pose proof (run_steps_tells dead_after steps rows instances id Hda Hid Hnd Hcl) as Htells. split; [done|].
  intros Hgated. apply (unfailing_row dead_after (probes_of instances id steps)); [|done].
  unfold probes_of. apply Forall_fmap, Forall_forall. intros st Hst. apply list_elem_of_In, filter_In in Hst as [Hst Hof].
  apply list_elem_of_In in Hst. cbn. rewrite documented_failing. rewrite Forall_forall in Hgated. unfold failing.
  destruct (Hgated st Hst Hof) as [->| ->]; [done|by rewrite andb_false_r].
Qed.

(** ** A run over the catalogue *)

Definition count_status (st : CatalogSource -> HealthStatus) (sources : list CatalogSource) (v : HealthStatus) : Z :=
  Z.of_nat (length (List.filter (fun s => bool_decide (st s = v)) sources)).

(** The changes to announce: of the sources that had a row, with another status. *)
Definition changes (st : CatalogSource -> HealthStatus) (rows : gmap str HealthRow) (sources : list CatalogSource) : list SourceStatusChange :=
  sources ≫= fun s =>
    if is_some_and (rows !! cs_id s) (fun row => negb (bool_decide (health_parse (hr_status row) = st s)))
    then [{| sc_source_id := cs_id s; sc_name := cs_name s; sc_status := st s |}] else [].

Definition tallied (st : CatalogSource -> HealthStatus) (rows : gmap str HealthRow) (sources : list CatalogSource) : HealthRunSummary :=
  {| hs_probed_urls := 0; hs_updated_sources := Z.of_nat (length sources);
     hs_ok := count_status st sources Healthy; hs_degraded := count_status st sources Degraded; hs_dead := count_status st sources Dead;
     hs_changed := changes st rows sources; hs_challenged := [] |}.

(** The status a table holds for a source. *)
Definition told (rows : gmap str HealthRow) (s : CatalogSource) : HealthStatus :=
  default Unknown ((fun row => health_parse (hr_status row)) <$> rows !! cs_id s).

Definition summary_eq (a b : HealthRunSummary) : Prop :=
  hs_probed_urls a = hs_probed_urls b /\ hs_updated_sources a = hs_updated_sources b /\ hs_ok a = hs_ok b /\
  hs_degraded a = hs_degraded b /\ hs_dead a = hs_dead b /\ hs_changed a = hs_changed b /\ hs_challenged a = hs_challenged b.

Lemma summary_eq_eq a b : summary_eq a b -> a = b.
Proof. destruct a, b. unfold summary_eq. cbn. by intros (-> & -> & -> & -> & -> & -> & ->). Qed.

Lemma add_rows_tallied dead_after p rows sources sum :
  add_rows dead_after p rows sources sum = merge sum (tallied (fun s => status_now dead_after p (rows !! cs_id s)) rows sources).
Proof.
  unfold add_rows. revert sum. induction sources as [|s sources IH]; intros sum; cbn [foldl].
  - apply summary_eq_eq. unfold summary_eq, tallied, count_status, changes. cbn. rewrite !app_nil_r. split_and!; first [done|lia].
  - rewrite IH. apply summary_eq_eq. unfold summary_eq, tallied, count_status, changes. cbn. rewrite !app_nil_r, <- !(assoc_L (++)).
    repeat case_bool_decide; cbn; split_and!; first [done|lia].
Qed.

Lemma tallied_app st rows l l' : tallied st rows (l ++ l') = merge (tallied st rows l) (tallied st rows l').
Proof.
  apply summary_eq_eq. unfold summary_eq, tallied, count_status, changes. cbn.
  rewrite !List.filter_app, bind_app, !length_app. split_and!; first [done|lia].
Qed.

Lemma tallied_ext st st' rows rows0 l :
  (forall s, s ∈ l -> st s = st' s /\ rows !! cs_id s = rows0 !! cs_id s) -> tallied st rows l = tallied st' rows0 l.
Proof.
  intros Hst. assert (Hc : forall v, count_status st l v = count_status st' l v).
  { intros v. unfold count_status. do 2 f_equal. apply List.filter_ext_in. intros s Hs. apply list_elem_of_In in Hs. by rewrite (proj1 (Hst s Hs)). }
  unfold tallied. rewrite !Hc. f_equal. unfold changes. clear Hc. induction l as [|s l IH]; cbn; [done|].
  rewrite IH by set_solver. destruct (Hst s) as [-> ->]; [set_solver|]. done.
Qed.

Lemma merge_assoc a b c : merge (merge a b) c = merge a (merge b c).
Proof. apply summary_eq_eq. unfold summary_eq. cbn. rewrite <- !(assoc_L (++)). split_and!; first [done|lia]. Qed.

Lemma recorded_told (now dead_after : Z) (p : HealthProbe) (s : CatalogSource) (rows rows' : gmap str HealthRow) :
  rows' !! cs_id s = Some (recorded now dead_after p s (rows !! cs_id s)) -> told rows' s = status_now dead_after p (rows !! cs_id s).
Proof.
  intros Hr. unfold told. rewrite Hr. unfold recorded, status_now. destruct (next_state _ _ _) as [status failures]. cbn. apply health_parse_word.
Qed.

(** What probing some targets leaves, when no source is in two of them. *)
Lemma probe_targets_exact run now dead_after ts rows instances :
  NoDup (cs_id <$> (ts ≫= ht_sources)) ->
  exists rows' challenged results,
  probe_targets run now dead_after ts (db_of rows instances) = (results, db_of rows' instances) /\
  (forall t s, t ∈ ts -> s ∈ ht_sources t ->
     rows' !! cs_id s = Some (recorded now dead_after (observed_probe run instances t) s (rows !! cs_id s))) /\
  (forall id, id ∉ cs_id <$> (ts ≫= ht_sources) -> rows' !! id = rows !! id) /\
  (forall sum, merge_all results sum
     = Ok (merge sum (merge {| hs_probed_urls := Z.of_nat (length ts); hs_updated_sources := 0; hs_ok := 0; hs_degraded := 0; hs_dead := 0;
                              hs_changed := []; hs_challenged := challenged |} (tallied (told rows') rows (ts ≫= ht_sources))))).
Proof.
  revert rows. induction ts as [|t ts IH]; intros rows Hnd.
  - exists rows, [], []. split_and!; [done|set_solver|done|]. intros sum. cbn. f_equal. apply summary_eq_eq. unfold summary_eq, tallied, count_status, changes. cbn.
    rewrite !app_nil_r. split_and!; first [done|lia].
  - cbn in Hnd. rewrite fmap_app in Hnd. apply NoDup_app in Hnd as (Hndt & Hdis & Hnd).
    destruct (probe_target_exact run now dead_after t rows instances) as [challenged Ht].
    set (rows1 := write_rows _ _ rows) in Ht.
    destruct (IH rows1 Hnd) as (rows' & rest & results & Hts & Hown & Hother & Hsum).
    assert (Hlater : forall s, s ∈ ts ≫= ht_sources -> rows1 !! cs_id s = rows !! cs_id s).
    { intros s Hs. apply write_rows_other. intros Hin. by apply (Hdis _ Hin), list_elem_of_fmap_2. }
    assert (Hfirst : forall s, s ∈ ht_sources t ->
      rows' !! cs_id s = Some (recorded now dead_after (observed_probe run instances t) s (rows !! cs_id s))).
    { intros s Hs. rewrite Hother by by apply Hdis, list_elem_of_fmap_2. unfold rows1. by rewrite write_rows_own. }
    exists rows', (challenged ++ rest). eexists. split; [cbn [probe_targets]; rewrite Ht, Hts; done|]. split_and!.
    + intros t' s [-> | Ht']%elem_of_cons Hs; [by apply Hfirst|]. rewrite (Hown t') by done. rewrite Hlater; [done|]. apply list_elem_of_bind. eauto.
    + intros id. cbn. rewrite fmap_app, not_elem_of_app. intros [Hni1 Hni2]. rewrite Hother by done. by apply write_rows_other.
    + intros sum. cbn [merge_all]. rewrite Hsum, add_rows_tallied. f_equal. rewrite !merge_assoc. f_equal.
      rewrite (tallied_ext _ (told rows') rows rows (ht_sources t))
        by (intros s Hs; split; [symmetry; eapply recorded_told; by apply Hfirst|done]).
      rewrite (tallied_ext (told rows') (told rows') rows1 rows) by (intros s Hs; split; [done|by apply Hlater]).
      cbn [mbind list_bind]. fold (ts ≫= ht_sources). rewrite tallied_app.
      apply summary_eq_eq. unfold summary_eq. cbn. rewrite !app_nil_r. split_and!; first [done|lia].
Qed.

(** Grouping by a key, over keys that are all different, only reorders. *)
Lemma group_perm {A B} `{EqDecision B} (key : A -> B) (keys : list B) (l : list A) :
  NoDup keys ->
  (keys ≫= fun k => List.filter (fun a => bool_decide (key a = k)) l) ≡ₚ List.filter (fun a => bool_decide (key a ∈ keys)) l.
Proof.
  induction keys as [|k keys IH]; intros Hnd.
  - cbn. induction l as [|a l IHl]; cbn; [done|]. rewrite bool_decide_eq_false_2 by apply not_elem_of_nil. done.
  - apply NoDup_cons in Hnd as [Hni Hnd]. cbn. fold (keys ≫= fun k => List.filter (fun a => bool_decide (key a = k)) l).
    rewrite IH by done. clear IH. induction l as [|a l IHl]; cbn; [done|].
    destruct (decide (key a = k)) as [<-|Hne].
    + rewrite (bool_decide_eq_true_2 (key a = key a)), (bool_decide_eq_false_2 (key a ∈ keys)), bool_decide_eq_true_2 by set_solver.
      cbn. by rewrite IHl.
    + rewrite (bool_decide_eq_false_2 (key a = k)) by done.
      rewrite (bool_decide_ext (key a ∈ k :: keys) (key a ∈ keys)) by set_solver.
      case_bool_decide; [|done]. rewrite <- Permutation_middle. by rewrite IHl.
Qed.

Lemma targets_sources rows sources : (target_of rows sources <$> elements (base_urls sources)) ≫= ht_sources ≡ₚ sources.
Proof.
  assert (Hfm : forall us, (target_of rows sources <$> us) ≫= ht_sources
    = us ≫= fun u => List.filter (fun s => bool_decide (trim_slashes (cs_base_url s) = u)) sources).
  { intros us. induction us as [|u us IHus]; cbn; [done|]. by rewrite <- IHus. }
  rewrite Hfm, group_perm by apply NoDup_elements.
  rewrite (List.filter_ext_in _ (fun _ => true)); [by rewrite List.filter_true|]. intros s Hs. apply list_elem_of_In in Hs.
  apply bool_decide_eq_true_2, elem_of_elements. unfold base_urls. apply elem_of_list_to_set, list_elem_of_fmap. by exists s.
Qed.

#[export] Instance count_status_perm : Proper (eq ==> Permutation ==> eq ==> eq) count_status.
Proof.
  intros st _ <- l l' Hl v _ <-. unfold count_status. f_equal. induction Hl as [|s l l' Hl IH|s s' l|l l' l'' H1 IH1 H2 IH2]; cbn; [done| | |].
  - destruct (bool_decide _); [|done]. cbn. by rewrite IH.
  - by repeat case_bool_decide.
  - by rewrite IH1.
Qed.

(** The planned targets: the ones of enabled instances first, each group by its URL. *)
Lemma plan_sorted entries priority rows instances targets db :
  plan entries priority (db_of rows instances) = (Ok targets, db) -> Sorted (before (trim_slashes <$> priority)) targets.
Proof.
  cbn. intros [= <- <-]. apply Sorted_merge_sort. intros a b. unfold before.
  rewrite (bool_decide_ext (bool_decide (ht_base_url b ∈ trim_slashes <$> priority) = _) (bool_decide (ht_base_url a ∈ trim_slashes <$> priority)
     = bool_decide (ht_base_url b ∈ trim_slashes <$> priority))) by naive_solver.
  destruct (bool_decide (ht_base_url a ∈ _)), (bool_decide (ht_base_url b ∈ _)); cbn; try (by left); try (by right); apply (total str_ord).
Qed.

Lemma catalog_run finishing run now dead_after entries priority rows instances :
  (forall ts, finishing ts ≡ₚ ts) -> NoDup (cs_id <$> listed entries) ->
  exists rows' sum,
  check_catalog finishing run now dead_after entries priority (db_of rows instances) = (Ok sum, db_of rows' instances) /\
  (forall s, s ∈ listed entries ->
     rows' !! cs_id s = Some (recorded now dead_after
       (observed_probe run instances (target_of rows (listed entries) (trim_slashes (cs_base_url s)))) s (rows !! cs_id s))) /\
  (forall id, id ∉ cs_id <$> listed entries -> rows' !! id = rows !! id) /\
  hs_probed_urls sum = Z.of_nat (size (base_urls (listed entries))) /\
  hs_updated_sources sum = Z.of_nat (length (listed entries)) /\
  hs_ok sum = count_status (told rows') (listed entries) Healthy /\
  hs_degraded sum = count_status (told rows') (listed entries) Degraded /\
  hs_dead sum = count_status (told rows') (listed entries) Dead /\
  hs_changed sum ≡ₚ changes (told rows') rows (listed entries).
Proof.
  intros Hfin Hnd. unfold check_catalog, plan. cbn -[probe_targets listed].
  set (targets := merge_sort _ _). set (sources := listed entries) in *.
  assert (Hts : finishing targets ≡ₚ target_of rows sources <$> elements (base_urls sources))
    by (rewrite Hfin; apply merge_sort_Permutation).
  assert (Hsrc : finishing targets ≫= ht_sources ≡ₚ sources) by (by rewrite Hts, targets_sources).
  destruct (probe_targets_exact run now dead_after (finishing targets) rows instances) as (rows' & challenged & results & -> & Hown & Hother & Hsum);
    [by rewrite Hsrc|].
  rewrite Hsum. exists rows'. eexists. split; [done|]. split_and!.
  - intros s Hs. apply Hown.
    + rewrite Hts. apply list_elem_of_fmap. eexists. split; [done|]. apply elem_of_elements, elem_of_list_to_set, list_elem_of_fmap. by exists s.
    + apply list_elem_of_In, List.filter_In. split; [by apply list_elem_of_In|]. by apply bool_decide_eq_true_2.
  - intros id Hid. apply Hother. by rewrite Hsrc.
  - cbn. rewrite Hts, length_fmap. change (size (base_urls sources)) with (length (elements (base_urls sources))). lia.
  - cbn. rewrite Hsrc. done.
  - cbn. by rewrite Hsrc.
  - cbn. by rewrite Hsrc.
  - cbn. by rewrite Hsrc.
  - cbn. unfold changes. by rewrite Hsrc.
Qed.

(** C28. A run over the catalogue is its probes, in whatever order they finish.  When every
    statement succeeds and the catalogue lists no source twice, the run succeeds; every
    source with a URL has the row that the one probe of its URL leaves from its former row,
    every other row is as it was; and the summary is the truth about the new table: one probe
    for every different URL, one update for every source, the numbers of healthy, degraded
    and dead sources of the table, and as announced changes exactly the sources that had a
    row before with another status. *)
Theorem catalog_exact finishing run now dead_after entries priority db :
  (forall ts, finishing ts ≡ₚ ts) -> NoDup (cs_id <$> listed entries) -> hd_faults db = [] ->
  exists rows' sum,
  check_catalog finishing run now dead_after entries priority db
    = (Ok sum, {| hd_rows := rows'; hd_instances := hd_instances db; hd_faults := [] |}) /\
  (forall s, s ∈ listed entries ->
     rows' !! cs_id s = Some (recorded now dead_after
       (observed_probe run (hd_instances db) (target_of (hd_rows db) (listed entries) (trim_slashes (cs_base_url s)))) s
       (hd_rows db !! cs_id s))) /\
  (forall id, id ∉ cs_id <$> listed entries -> rows' !! id = hd_rows db !! id) /\
  hs_probed_urls sum = Z.of_nat (size (base_urls (listed entries))) /\
  hs_updated_sources sum = Z.of_nat (length (listed entries)) /\
  hs_ok sum = count_status (told rows') (listed entries) Healthy /\
  hs_degraded sum = count_status (told rows') (listed entries) Degraded /\
  hs_dead sum = count_status (told rows') (listed entries) Dead /\
  hs_changed sum ≡ₚ changes (told rows') (hd_rows db) (listed entries).
Proof. destruct db as [rows instances faults]. cbn [hd_rows hd_instances hd_faults]. intros Hfin Hnd ->. by apply catalog_run. Qed.

End health.

(** ** Examples *)

(** A library that knows one stored text, the object of one cookie. *)
#[local] Instance sample_text : WebText := {|
  url_host := fun url => Some url;
  from_utf8_lossy := fun bytes => bytes;
  json_object := fun raw => if bool_decide (raw = lit "{cookie}") then Some [(lit "cookie", JString (lit "cf"))] else None;
  header_name := Some;
  header_value := Some;
|}.

Definition sample_source : CatalogSource := {| cs_id := lit "7"; cs_name := lit "Alpha"; cs_lang := lit "en"; cs_base_url := lit "https://a/" |}.

Definition sample_target : HealthTarget := {| ht_base_url := lit "https://a"; ht_sources := [sample_source]; ht_known_theme := None |}.

(** A host that challenges whoever comes, and one that resets the connection. *)
Definition gated : Web := {|
  web_send := fun _ _ url _ => Ok {| rs_status := 403; rs_headers := [(lit "cf-mitigated", Some (lit "challenge"))]; rs_url := url; rs_body := None |};
  web_elapsed_ms := 5 |}.

Definition broken : Web := {| web_send := fun _ _ _ _ => Err (lit "connection reset"); web_elapsed_ms := 5 |}.

Definition sample_step (now : Z) : RunStep :=
  {| st_run := {| run_anonymous := fun _ => gated; run_instance := fun _ => broken |}; st_now := now; st_target := sample_target |}.

Definition sample_db : HealthDb :=
  {| hd_rows := ∅;
     hd_instances := [{| in_id := lit "i"; in_base_url := lit "https://a/"; in_enabled := true; in_request_headers := Some (lit "{cookie}") |}];
     hd_faults := [] |}.

Definition sample_steps : list RunStep := [sample_step 1; sample_step 2; sample_step 3].

(** A host that is down for three runs, and then challenges. *)
Definition down_step (now : Z) (web : Web) : RunStep :=
  {| st_run := {| run_anonymous := fun _ => web; run_instance := fun _ => gated |}; st_now := now; st_target := sample_target |}.

Definition down_steps : list RunStep := [down_step 1 broken; down_step 2 broken; down_step 3 broken].

Lemma down_clean web now : clean (hd_instances sample_db) (down_step now web).
Proof. intros _. constructor; [left; vm_compute; reflexivity|constructor]. Qed.

Definition told_status (steps : list RunStep) : option (HealthStatus * Z) :=
  (fun row => (health_parse (hr_status row), hr_consecutive_failures row)) <$> hd_rows (run_steps DEAD_AFTER_FAILURES steps sample_db) !! lit "7".

Lemma health_history_witness :
  row_tells DEAD_AFTER_FAILURES (probes_of (hd_instances sample_db) (lit "7") (down_steps ++ [down_step 4 gated]))
    (hd_rows (run_steps DEAD_AFTER_FAILURES (down_steps ++ [down_step 4 gated]) sample_db) !! lit "7") /\
  told_status down_steps = Some (Dead, 3) /\ told_status (down_steps ++ [down_step 4 gated]) = Some (Degraded, 0).
Proof.
  split; [|split; vm_compute; reflexivity]. refine (proj1 (health_history _ _ sample_db _ _ _ _ _ _)); [by vm_compute|done|done| |].
  - repeat (constructor; [apply NoDup_singleton|]). constructor.
  - repeat (constructor; [apply down_clean|]). constructor.
Defined.

Lemma catalog_exact_witness :
  exists rows' sum,
  check_catalog reverse (st_run (sample_step 1)) 1 DEAD_AFTER_FAILURES [[sample_source]] [] sample_db
    = (Ok sum, {| hd_rows := rows'; hd_instances := hd_instances sample_db; hd_faults := [] |}) /\
  hs_probed_urls sum = 1 /\ hs_updated_sources sum = 1.
Proof.
  destruct (catalog_exact reverse (st_run (sample_step 1)) 1 DEAD_AFTER_FAILURES [[sample_source]] [] sample_db)
    as (rows' & sum & Hrun & _ & _ & Hp & Hu & _).
  - intros ts. apply reverse_Permutation.
  - apply NoDup_singleton.
  - done.
  - exists rows', sum. split; [exact Hrun|]. rewrite Hp, Hu. split; vm_compute; reflexivity.
Defined.

(** A challenge can count as a failure: the host challenges every anonymous probe, the probe
    with the configured headers does not get an answer at all, is taken for one that got
    through, and after three runs the gated source is dead. *)
Example gated_source_dies :
  hp_challenged (probe gated (lit "https://a") None) = true /\
  (fun row => (health_parse (hr_status row), hr_consecutive_failures row, hr_error row))
    <$> hd_rows (run_steps DEAD_AFTER_FAILURES sample_steps sample_db) !! lit "7" = Some (Dead, 3, Some (lit "connection reset")).
Proof. split; [vm_compute; reflexivity|vm_compute; reflexivity]. Qed.
