(* ===== verification/Notifications.v ===== *)
(** * Notifications

    Models the routing of [src/crates/notify/src/routing.rs], the channels of [channel.rs],
    [ntfy.rs], [webhook.rs], [email.rs] and [registry.rs], the pipeline of
    [src/core/src/notification.rs] and the dispatch job of [src/core/src/job/notification.rs],
    with the mutations and queries of [src/crates/graphql/src/mutation/notification.rs] and
    [query/notification.rs].

    An event of the server becomes a notification with an audience; the rules of the
    accounts say by which channels it goes out; a job delivers it, trying again after a
    failure of the transport, with the settings an account stored for the channel, secrets
    decrypted.

    Texts of the interface (labels and descriptions of settings) are left out.  Cryptography,
    MIME types and mail are libraries: the class [Library].  The network and other requests
    of the server are in the state: [World] holds the answers to come, and what others do to
    the database before each statement, before each request and during each delay. *)

From stdpp Require Import base gmap list strings sorting.
From Stdlib Require Import ZArith Lia.
From S2P Require Import Prelude Float64.

#[local] Open Scope Z_scope.
#[local] Open Scope coppice_scope.

(** ** Kinds *)

Inductive NotificationKind :=
| DevicePaired | DeviceFirstSeen | IngestAwaitingReview | QualityFailed | ScanFinished | AnalysisJobFailed | ProviderMatchDone
| Test_ | RecommendationReceived | RecommendationAccepted | RecommendationDeclined | RecommendationRevoked | RequestStatusUpdated.

#[export] Instance NotificationKind_eq_dec : EqDecision NotificationKind.
Proof. solve_decision. Defined.

(** [strum::Display], in SCREAMING_SNAKE_CASE. *)
Definition kind_name (kind : NotificationKind) : str :=
  match kind with
  | DevicePaired => lit "DEVICE_PAIRED"
  | DeviceFirstSeen => lit "DEVICE_FIRST_SEEN"
  | IngestAwaitingReview => lit "INGEST_AWAITING_REVIEW"
  | QualityFailed => lit "QUALITY_FAILED"
  | ScanFinished => lit "SCAN_FINISHED"
  | AnalysisJobFailed => lit "ANALYSIS_JOB_FAILED"
  | ProviderMatchDone => lit "PROVIDER_MATCH_DONE"
  | Test_ => lit "TEST"
  | RecommendationReceived => lit "RECOMMENDATION_RECEIVED"
  | RecommendationAccepted => lit "RECOMMENDATION_ACCEPTED"
  | RecommendationDeclined => lit "RECOMMENDATION_DECLINED"
  | RecommendationRevoked => lit "RECOMMENDATION_REVOKED"
  | RequestStatusUpdated => lit "REQUEST_STATUS_UPDATED"
  end.

Definition routable (kind : NotificationKind) : bool := negb (bool_decide (kind = Test_)).

Definition is_administrative (kind : NotificationKind) : bool :=
  match kind with
  | DevicePaired | DeviceFirstSeen | RecommendationReceived | RecommendationAccepted | RecommendationDeclined
  | RecommendationRevoked | RequestStatusUpdated | Test_ => false
  | _ => true
  end.

Definition tags (kind : NotificationKind) : str :=
  match kind with
  | DevicePaired => lit "link"
  | DeviceFirstSeen => lit "eyes"
  | IngestAwaitingReview => lit "inbox_tray"
  | QualityFailed => lit "warning"
  | ScanFinished => lit "books"
  | AnalysisJobFailed => lit "x"
  | ProviderMatchDone => lit "mag"
  | Test_ => lit "wave"
  | RecommendationReceived => lit "mail"
  | RecommendationAccepted => lit "white_check_mark"
  | RecommendationDeclined => lit "no_entry_sign"
  | RecommendationRevoked => lit "unlock"
  | RequestStatusUpdated => lit "inbox_tray"
  end.

(** ** Routing *)

Definition ANY_EVENT : str := lit "*".

Record Rule := { ru_user_id : str; ru_event_kind : str; ru_channel_id : str; ru_enabled : bool }.

Record Target := { ta_user_id : str; ta_channel_id : str }.

#[export] Instance Target_eq_dec : EqDecision Target.
Proof. solve_decision. Defined.

Inductive Audience := Users (users : list str) | Subscribers.

(** The first loop: the channels with a rule for this very kind, and those of them it is
    enabled for. *)
Definition exact_step (user_id kind_name : str) (acc : gset str * gset str) (rule : Rule) : gset str * gset str :=
  let '(exact, enabled) := acc in
  if bool_decide (ru_user_id rule = user_id) && bool_decide (ru_event_kind rule = kind_name)
  then ({[ru_channel_id rule]} ∪ exact, if ru_enabled rule then {[ru_channel_id rule]} ∪ enabled else enabled ∖ {[ru_channel_id rule]})
  else (exact, enabled).

Definition any_step (user_id : str) (exact enabled : gset str) (rule : Rule) : gset str :=
  if bool_decide (ru_user_id rule = user_id) && bool_decide (ru_event_kind rule = ANY_EVENT) && ru_enabled rule &&
     negb (bool_decide (ru_channel_id rule ∈ exact))
  then {[ru_channel_id rule]} ∪ enabled else enabled.

Definition sorted_texts (s : gset str) : list str := merge_sort str_ord (elements s).

Definition resolve_channels (rules : list Rule) (user_id : str) (kind : NotificationKind) : list str :=
  if negb (routable kind) then []
  else
    let '(exact, enabled) := foldl (exact_step user_id (kind_name kind)) (∅, ∅) rules in
    sorted_texts (foldl (any_step user_id exact) enabled rules).

Definition target_ord (a b : Target) : Prop :=
  if bool_decide (ta_user_id a = ta_user_id b) then str_ord (ta_channel_id a) (ta_channel_id b) else str_ord (ta_user_id a) (ta_user_id b).

#[export] Instance target_ord_dec a b : Decision (target_ord a b).
Proof. unfold target_ord. destruct (bool_decide _); apply _. Defined.

(** [Vec::dedup]. *)
Fixpoint dedup {A} `{EqDecision A} (l : list A) : list A :=
  match l with
  | a :: l => match l with b :: _ => if bool_decide (a = b) then dedup l else a :: dedup l | [] => [a] end
  | [] => []
  end.

Definition resolve_targets (rules : list Rule) (audience : Audience) (kind : NotificationKind) : list Target :=
  let users := match audience with Users users => users | Subscribers => sorted_texts (list_to_set (ru_user_id <$> rules)) end in
  dedup (merge_sort target_ord
    (users ≫= fun user_id => (fun channel_id => {| ta_user_id := user_id; ta_channel_id := channel_id |}) <$> resolve_channels rules user_id kind)).

(** ** What routing means *)

(** The rules of an account for a channel and a kind, and the last of them. *)
Definition rules_for (rules : list Rule) (user_id event_kind channel_id : str) : list Rule :=
  List.filter (fun r => bool_decide (ru_user_id r = user_id) && bool_decide (ru_event_kind r = event_kind) && bool_decide (ru_channel_id r = channel_id)) rules.

(** An account gets a kind by a channel when its own rule for the kind says so, and without
    one when an enabled rule for every kind does. *)
Definition wants (rules : list Rule) (user_id channel_id : str) (kind : NotificationKind) : bool :=
  routable kind &&
  match last (rules_for rules user_id (kind_name kind) channel_id) with
  | Some rule => ru_enabled rule
  | None => existsb ru_enabled (rules_for rules user_id ANY_EVENT channel_id)
  end.

Definition addressed (rules : list Rule) (audience : Audience) (user_id : str) : Prop :=
  match audience with Users users => user_id ∈ users | Subscribers => user_id ∈ ru_user_id <$> rules end.

#[export] Instance target_ord_total : Total target_ord.
Proof.
  intros [u c] [u' c']. unfold target_ord. cbn. repeat case_bool_decide; try congruence; apply (total str_ord).
Qed.

Lemma str_ord_antisymm s t : str_ord s t -> str_ord t s -> s = t.
Proof. apply str_le_antisymm. Qed.

Lemma target_ord_antisymm a b : target_ord a b -> target_ord b a -> a = b.
Proof.
  destruct a as [u c], b as [u' c']. unfold target_ord. cbn. repeat case_bool_decide; subst; try congruence.
  - intros H1 H2. by rewrite (str_ord_antisymm c c').
  - intros H1 H2. by destruct (str_ord_antisymm u u').
Qed.

#[export] Instance target_ord_trans : Transitive target_ord.
Proof.
  intros [u c] [v d] [w e]. unfold target_ord. cbn. repeat case_bool_decide; subst; try congruence; try apply transitivity.
  intros H1 H2. by destruct (str_ord_antisymm w v).
Qed.

Lemma dedup_cons {A} `{EqDecision A} (a b : A) l : dedup (a :: b :: l) = if bool_decide (a = b) then dedup (b :: l) else a :: dedup (b :: l).
Proof. done. Qed.

Lemma dedup_elem {A} `{EqDecision A} (x : A) l : x ∈ dedup l <-> x ∈ l.
Proof.
  induction l as [|a [|b l] IH]; [done|done|]. rewrite dedup_cons. case_bool_decide as Hab.
  - rewrite IH, <- Hab, !elem_of_cons. naive_solver.
  - rewrite (elem_of_cons (dedup (b :: l))), IH, (elem_of_cons (b :: l)). done.
Qed.

Lemma dedup_sorted {A} `{EqDecision A} (R : relation A) l : StronglySorted R l -> StronglySorted R (dedup l).
Proof.
  induction l as [|a [|b l] IH]; intros Hs; [done|done|]. rewrite dedup_cons. apply StronglySorted_inv in Hs as [Hs Ha].
  case_bool_decide; [by apply IH|]. constructor; [by apply IH|].
  apply Forall_forall. intros x Hx. rewrite dedup_elem in Hx. rewrite Forall_forall in Ha. by apply Ha.
Qed.

Lemma dedup_nodup {A} `{EqDecision A} (R : relation A) l :
  (forall x y, R x y -> R y x -> x = y) -> StronglySorted R l -> NoDup (dedup l).
Proof.
  intros Hanti. induction l as [|a [|b l] IH]; intros Hs; [constructor|apply NoDup_singleton|].
  rewrite dedup_cons. apply StronglySorted_inv in Hs as [Hs Ha]. case_bool_decide as Hab; [by apply IH|].
  apply NoDup_cons. split; [|by apply IH]. rewrite dedup_elem. intros Hin. apply Hab.
  apply elem_of_cons in Hin as [->|Hin]; [done|]. apply Hanti.
  - by apply Forall_cons in Ha as [Ha _].
  - apply StronglySorted_inv in Hs as [_ Hb]. rewrite Forall_forall in Hb. by apply Hb.
Qed.

Lemma sorted_texts_elem s x : x ∈ sorted_texts s <-> x ∈ s.
Proof. unfold sorted_texts. rewrite merge_sort_Permutation. apply elem_of_elements. Qed.

(** The two sets of the first loop. *)
Lemma exact_loop rules user_id kind exact enabled channel_id :
  let acc := foldl (exact_step user_id kind) (exact, enabled) rules in
  (channel_id ∈ acc.1 <-> channel_id ∈ exact \/ rules_for rules user_id kind channel_id <> []) /\
  (channel_id ∈ acc.2 <-> match last (rules_for rules user_id kind channel_id) with Some r => ru_enabled r = true | None => channel_id ∈ enabled end).
Proof.
  induction rules as [|rule rules IH] using rev_ind; cbn zeta in *; [cbn; naive_solver|].
  rewrite foldl_snoc. unfold rules_for in *. rewrite List.filter_app. cbn.
  destruct (foldl (exact_step user_id kind) (exact, enabled) rules) as [ex en]. cbn in IH |- *. destruct IH as [IH1 IH2].
  case_bool_decide as Hu; case_bool_decide as Hk; cbn [andb]; rewrite ?app_nil_r; try done.
  case_bool_decide as Hc; cbn [fst snd].
  - rewrite last_snoc. split; [split; [intros _; right; by destruct (List.filter _ rules)|set_solver]|]. destruct (ru_enabled rule); set_solver.
  - rewrite app_nil_r. split; [set_solver|]. destruct (ru_enabled rule); [|]; rewrite <- IH2; set_solver.
Qed.

(** The second loop adds what the rules for every kind say. *)
Lemma any_loop (rules : list Rule) (user_id : str) (exact enabled : gset str) (channel_id : str) :
  (channel_id ∈ foldl (any_step user_id exact) enabled rules) <->
  (channel_id ∈ enabled) \/ ((channel_id ∉ exact) /\ existsb ru_enabled (rules_for rules user_id ANY_EVENT channel_id) = true).
Proof.
  induction rules as [|rule rules IH] using rev_ind; [cbn; naive_solver|].
  rewrite foldl_snoc. unfold rules_for in *. rewrite List.filter_app, existsb_app. cbn [List.filter].
  unfold any_step at 1. case_bool_decide as Hu; case_bool_decide as Hk; cbn [andb negb]; cbn [existsb]; rewrite ?orb_false_r; try done.
  destruct (decide (ru_channel_id rule = channel_id)) as [Hc|Hc].
  - rewrite (bool_decide_eq_true_2 (ru_channel_id rule = channel_id)) by done. cbn [existsb].
    destruct (ru_enabled rule); cbn [andb orb]; [|by rewrite orb_false_r]. subst.
    case_bool_decide; cbn [negb]; rewrite ?orb_true_r; set_solver.
  - rewrite (bool_decide_eq_false_2 (ru_channel_id rule = channel_id)) by done. cbn [existsb]. rewrite orb_false_r.
    destruct (ru_enabled rule); cbn [andb]; [|done]. case_bool_decide; cbn [negb]; set_solver.
Qed.

Lemma resolve_channels_elem rules user_id kind channel_id :
  channel_id ∈ resolve_channels rules user_id kind <-> wants rules user_id channel_id kind = true.
Proof.
  unfold resolve_channels, wants. destruct (routable kind); cbn [negb andb]; [|set_solver].
  destruct (foldl (exact_step user_id (kind_name kind)) (∅, ∅) rules) as [exact enabled] eqn:Hloop.
  destruct (exact_loop rules user_id (kind_name kind) ∅ ∅ channel_id) as [Hex Hen]. rewrite Hloop in Hex, Hen. cbn in Hex, Hen.
  rewrite sorted_texts_elem, any_loop, Hex, Hen. clear.
  destruct (last (rules_for rules user_id (kind_name kind) channel_id)) as [rule|] eqn:Hl.
  - assert (rules_for rules user_id (kind_name kind) channel_id <> []) by (intros Heq; by rewrite Heq in Hl). naive_solver.
  - apply last_None in Hl. rewrite Hl. set_solver.
Qed.

(** C29. Who is notified.  For every list of rules, audience and kind, the deliveries are
    exactly the pairs of an account of the audience and a channel such that the last rule of
    the account for this kind and channel is enabled or, when there is none, some rule for
    every kind and this channel is; a test is never routed.  They are in order and no two
    are the same. *)
Theorem routing_exact rules audience kind :
  let targets := resolve_targets rules audience kind in
  (forall t, t ∈ targets <-> addressed rules audience (ta_user_id t) /\ wants rules (ta_user_id t) (ta_channel_id t) kind = true) /\
  NoDup targets /\ StronglySorted target_ord targets.
Proof.
  cbn zeta. unfold resolve_targets.
  set (all := _ ≫= _). assert (Hs : StronglySorted target_ord (merge_sort target_ord all)) by apply (StronglySorted_merge_sort _ _).
  split_and!.
  - intros [u c]. rewrite dedup_elem, merge_sort_Permutation. cbn. unfold all. rewrite list_elem_of_bind. unfold addressed.
    setoid_rewrite list_elem_of_fmap. setoid_rewrite resolve_channels_elem.
    assert (Hset : u ∈ sorted_texts (list_to_set (ru_user_id <$> rules)) <-> u ∈ ru_user_id <$> rules)
      by (by rewrite sorted_texts_elem, elem_of_list_to_set).
    destruct audience; [|rewrite <- Hset]; naive_solver.
  - by eapply dedup_nodup; [apply target_ord_antisymm|].
  - by apply dedup_sorted.
Qed.

(** An account that muted one kind on a channel that gets everything else. *)
Example muted_kind :
  resolve_targets [{| ru_user_id := lit "a"; ru_event_kind := ANY_EVENT; ru_channel_id := lit "ntfy"; ru_enabled := true |};
                   {| ru_user_id := lit "a"; ru_event_kind := ANY_EVENT; ru_channel_id := lit "email"; ru_enabled := true |};
                   {| ru_user_id := lit "a"; ru_event_kind := lit "SCAN_FINISHED"; ru_channel_id := lit "email"; ru_enabled := false |}]
    Subscribers ScanFinished = [{| ta_user_id := lit "a"; ta_channel_id := lit "ntfy" |}].
Proof. vm_compute. reflexivity. Qed.

(** ** Libraries and the world *)

(** [encrypt] draws its nonce; [status_text] is how a status is shown; [request_error]
    is what is wrong with a URL and headers, such as a line break in a value; [hmac_sha256_hex] is of
    a key and a message; a library checks mail addresses and builds the message, or fails;
    [smtp_error] is the error the mail transport makes of a reply of the server, if it makes
    one. *)
Class Library := {
  encrypt : Z -> list Z -> list Z -> result (list Z) str;
  decrypt : list Z -> list Z -> result (list Z) str;
  base64_encode : list Z -> str;
  base64_decode : str -> result (list Z) str;
  from_utf8 : list Z -> result str str;
  to_vec : json f64 -> result (list Z) str;
  hmac_sha256_hex : list Z -> list Z -> str;
  status_text : Z -> str;
  request_error : str -> list (str * str) -> option str;
  parse_address : str -> result str str;
  parse_content_type : str -> option str;
  build_mail : list str -> result unit str;
  smtp_host_ok : str -> result unit str;
  smtp_error : Z * str -> option str;
}.

(** What the libraries promise: what was encrypted decrypts and is not empty, what was
    encoded decodes, and only nothing is encoded as nothing. *)
Class LibraryLaws `{Library} := {
  decrypt_encrypt : forall nonce data key sealed, encrypt nonce data key = Ok sealed -> decrypt sealed key = Ok data;
  encrypt_nonempty : forall nonce data key, encrypt nonce data key <> Ok [];
  base64_roundtrip : forall bytes, base64_decode (base64_encode bytes) = Ok bytes;
  base64_nonempty : forall bytes, base64_encode bytes = [] -> bytes = [];
}.

Abbreviation SettingValues := (gmap str (json f64)).

(** A stored [serde_json::Value]: an object, or anything else. *)
Inductive SettingsValue := Object_ (fields : SettingValues) | NotObject (value : json f64).

Record RuleRow := { rr_id : Z; rr_rule : Rule }.

Record UserRow := { us_username : str; us_deleted : bool }.

Record EmailerRow := {
  em_sender_email : str;
  em_sender_display_name : str;
  em_username : str;
  em_encrypted_password : str;
  em_smtp_host : str;
  em_smtp_port : Z;
  em_tls_enabled : bool;
}.

Record NotifyDb := {
  nd_rules : list RuleRow;
  nd_next_rule_id : Z;
  nd_settings : gmap (str * str) SettingsValue;
  nd_users : gmap str UserRow;
  nd_encryption_key : option str;
  nd_primary_emailer : option EmailerRow;
}.

Inductive AttachmentContent := Bytes (bytes : list Z) | Path (path : str).

Record Attachment := { at_filename : str; at_mime : str; at_content : AttachmentContent }.

Record Notification := {
  no_kind : NotificationKind;
  no_title : str;
  no_body : str;
  no_link : option str;
  no_attachment : option Attachment;
}.

Record QueuedDelivery := { qd_user_id : str; qd_channel_id : str; qd_notification : Notification }.

(** What goes out: an HTTP POST, or a mail. *)
Inductive Outgoing :=
| Post (url : str) (headers : list (str * str)) (body : list Z)
| Mail (recipient subject body : str) (attachments : list (str * list Z * str)).

(** How it is answered: with a status (of HTTP, or of SMTP) and a text, or not at all. *)
Definition Answer : Type := result (Z * str) str.

(** A request, and the database as the last statement saw it, of those since the request
    before. *)
Record Sent := { se_seen : option NotifyDb; se_out : Outgoing; se_answer : Answer }.

(** The database; what the last statement since the last request saw of it; the statements
    that fail; the draws, the answers and the changes by others to come; the files; what was
    sent; the queued jobs. *)
Record World := {
  w_db : NotifyDb;
  w_seen : option NotifyDb;
  w_faults : list bool;
  w_random : list Z;
  w_answers : list Answer;
  w_meanwhile : list (NotifyDb -> NotifyDb);
  w_files : gmap str (list Z);
  w_sent : list Sent;
  w_queue : list (list QueuedDelivery);
}.

Definition with_db (db : NotifyDb) (w : World) : World :=
  {| w_db := db; w_seen := w_seen w; w_faults := w_faults w; w_random := w_random w; w_answers := w_answers w; w_meanwhile := w_meanwhile w;
     w_files := w_files w; w_sent := w_sent w; w_queue := w_queue w |}.

Definition with_faults (faults : list bool) (w : World) : World :=
  {| w_db := w_db w; w_seen := w_seen w; w_faults := faults; w_random := w_random w; w_answers := w_answers w; w_meanwhile := w_meanwhile w;
     w_files := w_files w; w_sent := w_sent w; w_queue := w_queue w |}.

Definition with_random (random : list Z) (w : World) : World :=
  {| w_db := w_db w; w_seen := w_seen w; w_faults := w_faults w; w_random := random; w_answers := w_answers w; w_meanwhile := w_meanwhile w;
     w_files := w_files w; w_sent := w_sent w; w_queue := w_queue w |}.

(** Others go on. *)
Definition others (w : World) : World :=
  {| w_db := match w_meanwhile w with f :: _ => f (w_db w) | [] => w_db w end; w_seen := w_seen w; w_faults := w_faults w;
     w_random := w_random w; w_answers := w_answers w; w_meanwhile := tail (w_meanwhile w); w_files := w_files w; w_sent := w_sent w;
     w_queue := w_queue w |}.

(** A statement saw the database. *)
Definition noted (w : World) : World :=
  {| w_db := w_db w; w_seen := Some (w_db w); w_faults := w_faults w; w_random := w_random w; w_answers := w_answers w;
     w_meanwhile := w_meanwhile w; w_files := w_files w; w_sent := w_sent w; w_queue := w_queue w |}.

Definition Code (A E : Type) : Type := World -> result A E * World.

(** One statement, and the error it fails with. *)
Definition statement {A E} (e : E) (run : NotifyDb -> A * NotifyDb) : Code A E := fun w =>
  let w := others w in
  match w_faults w with
  | true :: faults => (Err e, with_faults faults w)
  | faults => let '(a, db) := run (w_db w) in (Ok a, with_db db (noted (with_faults (tail faults) w)))
  end.

Definition select {A E} (e : E) (f : NotifyDb -> A) : Code A E := statement e (fun db => (f db, db)).

Definition draw {E} : Code Z E := fun w => (Ok (default 0 (head (w_random w))), with_random (tail (w_random w)) w).

Definition lift {A E} (r : result A E) : Code A E := fun w => (r, w).

(** ** Errors *)

Inductive ChannelError :=
| MissingSetting (channel key : str)
| InvalidSetting (key reason : str)
| Transport (message : str)
| Rejected (message : str)
| Unreadable (message : str)
| Unsupported.

Definition is_retryable (e : ChannelError) : bool := match e with Transport _ => true | _ => false end.

Inductive CoreError := DbFailed | EncryptionKeyNotSet | EncryptionFailed (message : str) | DecryptionFailed (message : str).

Definition DB_ERROR : str := lit "database error".

(** [to_string] of the errors. *)
Definition core_text (e : CoreError) : str :=
  match e with
  | DbFailed => DB_ERROR
  | EncryptionKeyNotSet => lit "Encryption key must be set"
  | EncryptionFailed m => lit "Failed to encrypt: " ++ m
  | DecryptionFailed m => lit "Failed to decrypt: " ++ m
  end.

Definition map_err {A E E'} (f : E -> E') (c : Code A E) : Code A E' := fun w =>
  match c w with (Ok a, w) => (Ok a, w) | (Err e, w) => (Err (f e), w) end.

(** ** Channels *)

Record SettingDefinition := { sd_key : str; sd_default : json f64; sd_required : bool; sd_secret : bool }.

Record EmailerClientConfig := {
  ec_sender_email : str;
  ec_sender_display_name : str;
  ec_username : str;
  ec_password : option str;
  ec_host : str;
  ec_port : Z;
  ec_tls_enabled : bool;
}.

Inductive Channel := Ntfy | Webhook | Email (config : EmailerClientConfig).

Definition channel_id (c : Channel) : str := match c with Ntfy => lit "ntfy" | Webhook => lit "webhook" | Email _ => lit "email" end.

Definition channel_label (c : Channel) : str := match c with Ntfy => lit "ntfy" | Webhook => lit "Webhook" | Email _ => lit "Email" end.

Definition setting (key default_ : string) (required secret : bool) : SettingDefinition :=
  {| sd_key := lit key; sd_default := JString (lit default_); sd_required := required; sd_secret := secret |}.

Definition channel_settings (c : Channel) : list SettingDefinition :=
  match c with
  | Ntfy => [setting "server_url" "https://ntfy.sh" true false; setting "topic" "" true false; setting "access_token" "" false true]
  | Webhook => [setting "url" "" true false; setting "secret" "" false true]
  | Email _ => [setting "recipient_email" "" true false]
  end.

Fixpoint letters {E} (n : nat) : Code str E :=
  match n with
  | O => db_ret []
  | S n => index <-- draw ;; rest <-- letters n ;; db_ret (97 + index mod 26 :: rest)
  end.

Definition default_topic {E} (user_id : str) : Code str E :=
  random <-- letters 6 ;; db_ret (lit "stump-" ++ take 8 user_id ++ lit "-" ++ random).

Definition schema_defaults (c : Channel) : SettingValues :=
  foldl (fun m d => <[sd_key d := sd_default d]> m) ∅ (channel_settings c).

Definition default_settings {E} (c : Channel) (user_id : str) : Code SettingValues E :=
  match c with
  | Ntfy => topic <-- default_topic user_id ;; db_ret (<[lit "topic" := JString topic]> (schema_defaults c))
  | _ => db_ret (schema_defaults c)
  end.

Definition registry_get (channels : list Channel) (id : str) : option Channel :=
  List.find (fun c => bool_decide (channel_id c = id)) channels.

Record Recipient := { re_user_id : str; re_username : str; re_settings : SettingValues }.

Definition text_of (value : json f64) : option str := match value with JString s => Some s | _ => None end.

Definition optional_str (r : Recipient) (key : str) : option str :=
  let trimmed := trim <$> ((re_settings r !! key) ≫= text_of) in
  trimmed ≫= fun value => if bool_decide (value = []) then None else Some value.

Definition required_str (r : Recipient) (channel key : str) : result str ChannelError :=
  match optional_str r key with Some value => Ok value | None => Err (MissingSetting channel key) end.

Section notifications.
Context `{Library}.

(** ** Secrets *)

Definition fetch_encryption_key : Code str CoreError :=
  key <-- select DbFailed nd_encryption_key ;;
  lift (match key with Some key => Ok key | None => Err EncryptionKeyNotSet end).

Definition encrypt_string (nonce : Z) (value key : str) : result str CoreError :=
  match encrypt nonce (as_bytes value) (as_bytes key) with Ok bytes => Ok (base64_encode bytes) | Err e => Err (EncryptionFailed e) end.

Definition decrypt_string (sealed key : str) : result str CoreError :=
  match base64_decode sealed with
  | Err e => Err (DecryptionFailed e)
  | Ok bytes =>
      match decrypt bytes (as_bytes key) with
      | Err e => Err (DecryptionFailed e)
      | Ok plain => match from_utf8 plain with Ok text => Ok text | Err e => Err (DecryptionFailed e) end
      end
  end.

(** The value of a secret that is to be sealed or opened: a text that is not empty. *)
Definition secret_text (d : SettingDefinition) (values : SettingValues) : option str :=
  if sd_secret d then ((values !! sd_key d) ≫= text_of) ≫= (fun value => if bool_decide (value = []) then None else Some value)
  else None.

Fixpoint encrypt_secret_values (definitions : list SettingDefinition) (values : SettingValues) (key : str) : Code SettingValues CoreError :=
  match definitions with
  | [] => db_ret values
  | d :: definitions =>
      match secret_text d values with
      | None => encrypt_secret_values definitions values key
      | Some value =>
          nonce <-- draw ;;
          sealed <-- lift (encrypt_string nonce value key) ;;
          encrypt_secret_values definitions (<[sd_key d := JString sealed]> values) key
      end
  end.

Fixpoint decrypt_secret_values (definitions : list SettingDefinition) (values : SettingValues) (key : str) : result SettingValues ChannelError :=
  match definitions with
  | [] => Ok values
  | d :: definitions =>
      match secret_text d values with
      | None => decrypt_secret_values definitions values key
      | Some sealed =>
          match decrypt_string sealed key with
          | Err e => Err (Rejected (core_text e))
          | Ok value => decrypt_secret_values definitions (<[sd_key d := JString value]> values) key
          end
      end
  end.

Definition redact_secret_values (definitions : list SettingDefinition) (values : SettingValues) : SettingValues :=
  foldl (fun m d => if sd_secret d then delete (sd_key d) m else m) values definitions.

(** ** Recipients *)

Definition recipient_for (key : str) (c : Channel) (user_id : str) : Code Recipient ChannelError :=
  stored <-- select (Transport DB_ERROR) (fun db => nd_settings db !! (user_id, channel_id c)) ;;
  user <-- select (Transport DB_ERROR) (fun db => nd_users db !! user_id) ;;
  match user with
  | Some {| us_username := username; us_deleted := false |} =>
      settings <-- default_settings c user_id ;;
      let settings := match stored with Some (Object_ stored) => stored ∪ settings | _ => settings end in
      settings <-- lift (decrypt_secret_values (channel_settings c) settings key) ;;
      db_ret {| re_user_id := user_id; re_username := username; re_settings := settings |}
  | _ => db_err (Rejected (lit "notification recipient no longer exists"))
  end.

Definition emailer_config (emailer : EmailerRow) (key : str) : result EmailerClientConfig ChannelError :=
  match decrypt_string (em_encrypted_password emailer) key with
  | Err e => Err (Rejected (core_text e))
  | Ok password => Ok {|
      ec_sender_email := em_sender_email emailer; ec_sender_display_name := em_sender_display_name emailer;
      ec_username := em_username emailer; ec_password := Some password; ec_host := em_smtp_host emailer;
      ec_port := Z.max 0 (Z.min 65535 (em_smtp_port emailer)); ec_tls_enabled := em_tls_enabled emailer |}
  end.

(** Failures only make the email channel unavailable. *)
Definition channel_registry {E} : Code (list Channel) E := fun w =>
  let '(emailer, w) := select DbFailed nd_primary_emailer w in
  match emailer with
  | Ok (Some emailer) =>
      let '(key, w) := fetch_encryption_key w in
      match key with
      | Ok key => match emailer_config emailer key with Ok config => (Ok [Email config; Ntfy; Webhook], w) | Err _ => (Ok [Ntfy; Webhook], w) end
      | Err _ => (Ok [Ntfy; Webhook], w)
      end
  | _ => (Ok [Ntfy; Webhook], w)
  end.

(** ** The mutations and the queries *)

Inductive MutationError :=
| OfChannel (e : ChannelError)
| OfCore (e : CoreError)
| UnknownChannel (id : str)
| NotKeyed
| UnknownSetting (key id : str)
| CorruptedSettings
| Forbidden.

Record AuthUser := { au_id : str; au_is_server_owner : bool }.

Definition effective_settings (c : Channel) (user_id : str) : Code SettingValues MutationError :=
  key <-- map_err OfCore fetch_encryption_key ;;
  recipient <-- map_err OfChannel (recipient_for key c user_id) ;;
  db_ret (redact_secret_values (channel_settings c) (re_settings recipient)).

Definition find_channel (id : str) : Code Channel MutationError :=
  channels <-- channel_registry ;;
  lift (match registry_get channels id with Some c => Ok c | None => Err (UnknownChannel id) end).

Definition put_settings (user_id id : str) (values : SettingValues) (db : NotifyDb) : NotifyDb :=
  {| nd_rules := nd_rules db; nd_next_rule_id := nd_next_rule_id db; nd_settings := <[(user_id, id) := Object_ values]> (nd_settings db);
     nd_users := nd_users db; nd_encryption_key := nd_encryption_key db; nd_primary_emailer := nd_primary_emailer db |}.

Definition set_notification_channel_settings (user : AuthUser) (id : str) (settings : SettingsValue) : Code (str * SettingValues) MutationError :=
  c <-- find_channel id ;;
  match settings with
  | NotObject _ => db_err NotKeyed
  | Object_ incoming =>
      match List.find (fun key => negb (existsb (fun d => bool_decide (sd_key d = key)) (channel_settings c))) (sorted_texts (dom incoming)) with
      | Some key => db_err (UnknownSetting key id)
      | None =>
          row <-- select (OfCore DbFailed) (fun db => nd_settings db !! (au_id user, id)) ;;
          stored <-- match row with
                     | Some stored => db_ret stored
                     | None => defaults <-- default_settings c (au_id user) ;; db_ret (Object_ defaults)
                     end ;;
          match stored with
          | NotObject _ => db_err CorruptedSettings
          | Object_ stored =>
              key <-- map_err OfCore fetch_encryption_key ;;
              sealed <-- map_err OfCore (encrypt_secret_values (channel_settings c) (incoming ∪ stored) key) ;;
              _ <-- statement (OfCore DbFailed) (fun db => (tt, put_settings (au_id user) id sealed db)) ;;
              values <-- effective_settings c (au_id user) ;;
              db_ret (id, values)
          end
      end
  end.

Definition rule_key (r : Rule) : str * str * str := (ru_user_id r, ru_event_kind r, ru_channel_id r).

Definition enabled_set (enabled : bool) (r : RuleRow) : RuleRow :=
  {| rr_id := rr_id r; rr_rule := {| ru_user_id := ru_user_id (rr_rule r); ru_event_kind := ru_event_kind (rr_rule r);
                                     ru_channel_id := ru_channel_id (rr_rule r); ru_enabled := enabled |} |}.

(** The rule with the key of a new one, with its flag, or the new one with the next id. *)
Definition upsert_rule (rule : Rule) (db : NotifyDb) : RuleRow * NotifyDb :=
  let put rows next := {| nd_rules := rows; nd_next_rule_id := next; nd_settings := nd_settings db; nd_users := nd_users db;
                          nd_encryption_key := nd_encryption_key db; nd_primary_emailer := nd_primary_emailer db |} in
  let same r := bool_decide (rule_key (rr_rule r) = rule_key rule) in
  match List.find same (nd_rules db) with
  | Some row => (enabled_set (ru_enabled rule) row,
                 put (map (fun r => if same r then enabled_set (ru_enabled rule) r else r) (nd_rules db)) (nd_next_rule_id db))
  | None => let row := {| rr_id := nd_next_rule_id db; rr_rule := rule |} in (row, put (nd_rules db ++ [row]) (nd_next_rule_id db + 1))
  end.

Definition set_notification_rule (user : AuthUser) (kind : NotificationKind) (id : str) (enabled : bool) : Code RuleRow MutationError :=
  if is_administrative kind && negb (au_is_server_owner user) then db_err Forbidden
  else
    _ <-- find_channel id ;;
    statement (OfCore DbFailed)
      (upsert_rule {| ru_user_id := au_id user; ru_event_kind := kind_name kind; ru_channel_id := id; ru_enabled := enabled |}).

Definition notification_rules (user : AuthUser) : Code (list RuleRow) MutationError :=
  select (OfCore DbFailed) (fun db => List.filter (fun r => bool_decide (ru_user_id (rr_rule r) = au_id user)) (nd_rules db)).

Fixpoint settings_of (user_id : str) (channels : list Channel) : Code (list (str * SettingValues)) MutationError :=
  match channels with
  | [] => db_ret []
  | c :: channels => values <-- effective_settings c user_id ;; rest <-- settings_of user_id channels ;; db_ret ((channel_id c, values) :: rest)
  end.

Definition notification_channel_settings (user : AuthUser) : Code (list (str * SettingValues)) MutationError :=
  channels <-- channel_registry ;; settings_of (au_id user) channels.

(** ** Sending *)

Definition load (a : Attachment) : Code (list Z) ChannelError := fun w =>
  match at_content a with
  | Bytes bytes => (Ok bytes, w)
  | Path path =>
      match w_files w !! path with
      | Some bytes => (Ok bytes, w)
      | None => (Err (Unreadable (path ++ lit ": No such file or directory (os error 2)")), w)
      end
  end.

(** The network answers; what was sent is noted. *)
Definition transmit (out : Outgoing) : Code (Z * str) str := fun w =>
  let w := others w in
  let answer := default (Err (lit "timed out")) (head (w_answers w)) in
  (answer,
   {| w_db := w_db w; w_seen := None; w_faults := w_faults w; w_random := w_random w; w_answers := tail (w_answers w);
      w_meanwhile := w_meanwhile w; w_files := w_files w;
      w_sent := w_sent w ++ [{| se_seen := w_seen w; se_out := out; se_answer := answer |}]; w_queue := w_queue w |}).

Definition post (url : str) (headers : list (str * str)) (body : list Z) : Code (Z * str) ChannelError :=
  match request_error url headers with
  | Some error => db_err (Transport error)
  | None => map_err Transport (transmit (Post url headers body))
  end.

(** A channel's reading of an answer. *)
Definition verdict_of (refusal : str) (status : Z) : result unit ChannelError :=
  if (200 <=? status) && (status <? 300) then Ok tt
  else if (400 <=? status) && (status <? 500) then Err (Rejected refusal)
  else Err (Transport refusal).

Definition ntfy_send (r : Recipient) (n : Notification) : Code unit ChannelError :=
  server <-- lift (required_str r (lit "ntfy") (lit "server_url")) ;;
  topic <-- lift (required_str r (lit "ntfy") (lit "topic")) ;;
  let url := drop_while_end (Z.eqb 47) server ++ lit "/" ++ topic in
  let headers := [(lit "X-Title", no_title n); (lit "X-Tags", tags (no_kind n)); (lit "X-Message", no_body n)]
    ++ match no_link n with Some link => [(lit "X-Click", link)] | None => [] end
    ++ match optional_str r (lit "access_token") with Some token => [(lit "Authorization", lit "Bearer " ++ token)] | None => [] end in
  answer <-- match no_attachment n with
             | Some a =>
                 bytes <-- load a ;;
                 post url (headers ++ [(lit "X-Filename", at_filename a); (lit "content-type", at_mime a)]) bytes
             | None => post url headers (as_bytes (no_body n))
             end ;;
  lift (verdict_of (lit "ntfy returned " ++ status_text answer.1 ++ lit ": " ++ answer.2) answer.1).

Definition opt_text (value : option str) : json f64 := match value with Some s => JString s | None => JNull end.

Definition webhook_render (n : Notification) : json f64 :=
  JObject [(lit "attachment", match no_attachment n with
                              | Some a => JObject [(lit "filename", JString (at_filename a)); (lit "mime", JString (at_mime a))]
                              | None => JNull
                              end);
           (lit "body", JString (no_body n)); (lit "kind", JString (kind_name (no_kind n))); (lit "link", opt_text (no_link n));
           (lit "title", JString (no_title n))].

Definition signature (secret : str) (body : list Z) : option str :=
  if bool_decide (secret = []) then None else Some (lit "sha256=" ++ hmac_sha256_hex (as_bytes secret) body).

Definition webhook_send (r : Recipient) (n : Notification) : Code unit ChannelError :=
  url <-- lift (required_str r (lit "webhook") (lit "url")) ;;
  let secret := default [] (optional_str r (lit "secret")) in
  body <-- lift (match to_vec (webhook_render n) with Ok body => Ok body | Err e => Err (Rejected e) end) ;;
  let headers := (lit "content-type", lit "application/json")
    :: match signature secret body with Some s => [(lit "X-Stump-Signature", s)] | None => [] end in
  answer <-- post url headers body ;;
  lift (verdict_of (lit "webhook returned " ++ status_text answer.1) answer.1).

Inductive EmailError := InvalidEmail (message : str) | EmailBuildFailed (message : str) | NoPassword | SendFailed (message : str).

Definition map_email_error (e : EmailError) : ChannelError :=
  match e with
  | InvalidEmail m => Rejected m
  | EmailBuildFailed m => Rejected m
  | NoPassword => Rejected (lit "the emailer config is missing a password")
  | SendFailed m => Transport m
  end.

Definition attachment_payload (a : Attachment) : Code (str * list Z * str) ChannelError :=
  bytes <-- load a ;; db_ret (at_filename a, bytes, default (lit "text/plain; charset=utf-8") (parse_content_type (at_mime a))).

Definition build_message (config : EmailerClientConfig) (subject recipient body : str) (attachments : list (str * list Z * str))
  : result Outgoing EmailError :=
  match parse_address (ec_sender_email config) with
  | Err e => Err (InvalidEmail e)
  | Ok sender =>
      match parse_address recipient with
      | Err e => Err (InvalidEmail e)
      | Ok to => match build_mail [sender; to; subject] with Err e => Err (EmailBuildFailed e) | Ok _ => Ok (Mail to subject body attachments) end
      end
  end.

Definition send_message (config : EmailerClientConfig) (subject recipient body : str) (attachments : list (str * list Z * str)) : Code unit EmailError :=
  mail <-- lift (build_message config subject recipient body attachments) ;;
  match ec_password config with
  | None => db_err NoPassword
  | Some _ =>
      _ <-- lift (if ec_tls_enabled config then match smtp_host_ok (ec_host config) with Ok _ => Ok tt | Err e => Err (SendFailed e) end else Ok tt) ;;
      reply <-- map_err SendFailed (transmit mail) ;;
      lift (match smtp_error reply with None => Ok tt | Some e => Err (SendFailed e) end)
  end.

Definition mail_body (n : Notification) : str := match no_link n with Some link => no_body n ++ [10; 10] ++ link | None => no_body n end.

Definition email_send (config : EmailerClientConfig) (r : Recipient) (n : Notification) : Code unit ChannelError :=
  to <-- lift (required_str r (lit "email") (lit "recipient_email")) ;;
  payloads <-- match no_attachment n with Some a => payload <-- attachment_payload a ;; db_ret [payload] | None => db_ret [] end ;;
  map_err map_email_error (send_message config (no_title n) to (mail_body n) payloads).

Definition send (c : Channel) (r : Recipient) (n : Notification) : Code unit ChannelError :=
  match c with Ntfy => ntfy_send r n | Webhook => webhook_send r n | Email config => email_send config r n end.

Definition test_message (label : str) : Notification :=
  {| no_kind := Test_; no_title := lit "Coppice test notification"; no_body := lit "Your " ++ label ++ lit " channel is configured correctly.";
     no_link := None; no_attachment := None |}.

Definition test_notification_channel (user : AuthUser) (id : str) : Code bool MutationError :=
  c <-- find_channel id ;;
  key <-- map_err OfCore fetch_encryption_key ;;
  recipient <-- map_err OfChannel (recipient_for key c (au_id user)) ;;
  _ <-- map_err OfChannel (send c recipient (test_message (channel_label c))) ;;
  db_ret true.

(** ** The dispatch job *)

Definition RETRY_DELAYS : list Z := [1; 2; 4].

(** While a delivery sleeps, others go on. *)
Definition sleep (seconds : Z) (w : World) : World := others w.

Fixpoint deliver_with_retry (key : str) (c : Channel) (d : QueuedDelivery) (retry_delays : list Z) : Code unit ChannelError :=
  recipient <-- recipient_for key c (qd_user_id d) ;;
  fun w =>
    match send c recipient (qd_notification d) w with
    | (Ok _, w) => (Ok tt, w)
    | (Err e, w) =>
        if negb (is_retryable e) then (Err e, w)
        else
          match retry_delays with
          | [] => (Err (Transport (lit "all retry attempts exhausted")), w)
          | delay :: retry_delays => deliver_with_retry key c d retry_delays (sleep delay w)
          end
    end.

Definition deliver (channels : list Channel) (retry_delays : list Z) (d : QueuedDelivery) : Code unit ChannelError :=
  match registry_get channels (qd_channel_id d) with
  | None => db_err (Rejected (lit "unknown channel `" ++ qd_channel_id d ++ lit "`"))
  | Some c =>
      key <-- map_err (fun e => Transport (core_text e)) fetch_encryption_key ;;
      deliver_with_retry key c d retry_delays
  end.

(** The counts of delivered and failed notifications; in memory they stay far below u32. *)
Record NotificationDispatchOutput := { out_sent : Z; out_failed : Z }.

Definition update (a b : NotificationDispatchOutput) : NotificationDispatchOutput :=
  {| out_sent := out_sent a + out_sent b; out_failed := out_failed a + out_failed b |}.

(** A task never fails: a delivery that does is counted and logged. *)
Definition execute_task (channels : list Channel) (retry_delays : list Z) (task : QueuedDelivery) (w : World)
  : NotificationDispatchOutput * option ChannelError * World :=
  match deliver channels retry_delays task w with
  | (Ok _, w) => ({| out_sent := 1; out_failed := 0 |}, None, w)
  | (Err e, w) => ({| out_sent := 0; out_failed := 1 |}, Some e, w)
  end.

Fixpoint run_tasks (channels : list Channel) (retry_delays : list Z) (tasks : list QueuedDelivery) (output : NotificationDispatchOutput) (w : World)
  : NotificationDispatchOutput * World :=
  match tasks with
  | [] => (output, w)
  | task :: tasks => let '(out, _, w) := execute_task channels retry_delays task w in run_tasks channels retry_delays tasks (update output out) w
  end.

Definition run_dispatch_job (deliveries : list QueuedDelivery) (w : World) : NotificationDispatchOutput * World :=
  match channel_registry (E := ChannelError) w with
  | (Ok channels, w) => run_tasks channels RETRY_DELAYS deliveries {| out_sent := 0; out_failed := 0 |} w
  | (Err _, w) => ({| out_sent := 0; out_failed := 0 |}, w)
  end.

(** ** Events *)

(** The events that can be routed, with what of them is used; the others are [OtherEvent]. *)
Inductive CoreEvent :=
| DevicePairedEvent (user_id device_name : str)
| DeviceSeenEvent (user_id protocol : str) (first_seen : bool)
| IngestAwaitingReviewEvent (source_filename : str) (created_by : option str)
| QualityFailedEvent (score : Z) (failed_checks : list str) (created_by : option str)
| AnalysisJobFailedEvent (error : str)
| ProviderMatchDoneEvent (candidate_count : Z) (created_by : option str)
| LibraryScanOutput (created_media updated_media skipped_files : Z)
| OtherEvent.

Record RoutedNotification := { rn_kind : NotificationKind; rn_audience : Audience; rn_notification : Notification }.

Definition audience_or_subscribers (created_by : option str) : Audience :=
  match created_by with Some user_id => Users [user_id] | None => Subscribers end.

Definition routed (kind : NotificationKind) (audience : Audience) (title body : str) : option RoutedNotification :=
  Some {| rn_kind := kind; rn_audience := audience;
          rn_notification := {| no_kind := kind; no_title := title; no_body := body; no_link := None; no_attachment := None |} |}.

Definition route_event (event : CoreEvent) : option RoutedNotification :=
  match event with
  | DevicePairedEvent user_id device_name =>
      routed DevicePaired (Users [user_id]) (lit "Device paired") (device_name ++ lit " was paired with your account.")
  | DeviceSeenEvent user_id protocol true =>
      routed DeviceFirstSeen (Users [user_id]) (lit "Device first seen")
        (lit "A " ++ protocol ++ lit " device connected to your account for the first time.")
  | IngestAwaitingReviewEvent source_filename created_by =>
      routed IngestAwaitingReview (audience_or_subscribers created_by) (lit "Ingest awaiting review")
        (source_filename ++ lit " finished analysis and needs a decision.")
  | QualityFailedEvent score failed_checks created_by =>
      routed QualityFailed (audience_or_subscribers created_by) (lit "Quality check failed")
        (lit "Quality score " ++ show_Z score ++ lit ": " ++ show_nonneg (Z.of_nat (length failed_checks)) ++ lit " check(s) failed ("
         ++ str_join (lit ", ") failed_checks ++ lit ").")
  | AnalysisJobFailedEvent error => routed AnalysisJobFailed Subscribers (lit "Analysis job failed") error
  | ProviderMatchDoneEvent candidate_count created_by =>
      if 0 <? candidate_count
      then routed ProviderMatchDone (audience_or_subscribers created_by) (lit "Metadata match found")
             (show_Z candidate_count ++ lit " metadata candidate(s) are ready for review.")
      else None
  | LibraryScanOutput created updated skipped =>
      routed ScanFinished Subscribers (lit "Library scan finished")
        (show_nonneg created ++ lit " media added, " ++ show_nonneg updated ++ lit " updated, " ++ show_nonneg skipped ++ lit " skipped.")
  | _ => None
  end.

(** [Ctx::enqueue]: the job is stored, which may fail, and queued. *)
Definition enqueue (deliveries : list QueuedDelivery) : Code unit CoreError :=
  _ <-- statement DbFailed (fun db => (tt, db)) ;;
  fun w => (Ok tt, {| w_db := w_db w; w_seen := w_seen w; w_faults := w_faults w; w_random := w_random w; w_answers := w_answers w;
             w_meanwhile := w_meanwhile w; w_files := w_files w; w_sent := w_sent w; w_queue := w_queue w ++ [deliveries] |}).

Definition dispatch_routed (r : RoutedNotification) : Code unit CoreError :=
  rules <-- select DbFailed (fun db => rr_rule <$> nd_rules db) ;;
  match resolve_targets rules (rn_audience r) (rn_kind r) with
  | [] => db_ret tt
  | targets => enqueue ((fun t => {| qd_user_id := ta_user_id t; qd_channel_id := ta_channel_id t; qd_notification := rn_notification r |}) <$> targets)
  end.

Definition enqueue_user_notification (user_id : str) (n : Notification) : Code unit CoreError :=
  dispatch_routed {| rn_kind := no_kind n; rn_audience := Users [user_id]; rn_notification := n |}.

(** One event of the listener: a failure is only logged. *)
Definition on_event (event : CoreEvent) (w : World) : World :=
  match route_event event with None => w | Some r => (dispatch_routed r w).2 end.

(** ** Deliveries *)

Definition active (user_id : str) (db : NotifyDb) : bool :=
  match nd_users db !! user_id with Some user => negb (us_deleted user) | None => false end.

Definition accepted (s : Sent) : bool :=
  match se_out s, se_answer s with
  | Post _ _ _, Ok (status, _) => (200 <=? status) && (status <? 300)
  | Mail _ _ _ _, Ok reply => match smtp_error reply with None => true | Some _ => false end
  | _, Err _ => false
  end.

(** A POST that was answered with 4xx. *)
Definition refused (s : Sent) : bool :=
  match se_out s, se_answer s with
  | Post _ _ _, Ok (status, _) => (400 <=? status) && (status <? 500)
  | _, _ => false
  end.

(** A statement saw the account, and not as deleted, since the request before. *)
Definition looked_up (user_id : str) (s : Sent) : bool := match se_seen s with Some db => active user_id db | None => false end.

(** Code that makes no statement and no request. *)
Definition quiet {A E} (c : Code A E) : Prop :=
  forall w, w_sent (c w).2 = w_sent w /\ w_seen (c w).2 = w_seen w.

Lemma quiet_bind {A B E} (c : Code A E) (k : A -> Code B E) : quiet c -> (forall a, quiet (k a)) -> quiet (db_bind c k).
Proof.
  intros Hc Hk w. unfold db_bind. specialize (Hc w). destruct (c w) as [[a|e] w']; [|done].
  cbn in Hc. destruct (Hk a w') as [-> ->]. done.
Qed.

Lemma quiet_ret {A E} (a : A) : quiet (db_ret (E := E) a).
Proof. done. Qed.

Lemma quiet_err {A E} (e : E) : quiet (db_err (A := A) e).
Proof. done. Qed.

Lemma quiet_lift {A E} (r : result A E) : quiet (lift r).
Proof. done. Qed.

Lemma quiet_draw {E} : quiet (draw (E := E)).
Proof. done. Qed.

Lemma quiet_load a : quiet (load a).
Proof. intros w. unfold load. destruct (at_content a); [done|]. by destruct (w_files w !! path). Qed.

#[local] Hint Resolve quiet_ret quiet_err quiet_lift quiet_draw quiet_load : core.

Lemma quiet_letters {E} n : quiet (letters (E := E) n).
Proof. induction n; cbn; [done|]. apply quiet_bind; [done|]. intros. by apply quiet_bind. Qed.

Lemma quiet_default_settings {E} c user_id : quiet (default_settings (E := E) c user_id).
Proof. destruct c; cbn; [|done|done]. apply quiet_bind; [|done]. apply quiet_bind; [apply quiet_letters|done]. Qed.

(** A query sends nothing; when it succeeds, it saw the database it answers from. *)
Lemma select_saw {A E} (e : E) (f : NotifyDb -> A) w :
  let outcome := select e f w in
  w_sent outcome.2 = w_sent w /\
  match outcome.1 with Ok a => exists db, w_seen outcome.2 = Some db /\ a = f db | Err _ => True end.
Proof. unfold select, statement. destruct (w_faults (others w)) as [|[] faults]; cbn; split; try done; by eexists. Qed.

(** A recipient is an account that was there when it was looked up. *)
Lemma recipient_saw key c user_id w :
  let outcome := recipient_for key c user_id w in
  w_sent outcome.2 = w_sent w /\
  match outcome.1 with Ok _ => exists db, w_seen outcome.2 = Some db /\ active user_id db = true | Err _ => True end.
Proof.
  cbn zeta. destruct (recipient_for key c user_id w) as [outcome w'] eqn:Hrun. unfold recipient_for in Hrun. cbn [fst snd].
  pose proof (select_saw (Transport DB_ERROR) (fun db => nd_settings db !! (user_id, channel_id c)) w) as [Hs1 _].
  apply db_bind_cases in Hrun as [(e & H1 & ->)|(stored & w1 & H1 & Hrun)]; rewrite H1 in Hs1; cbn in Hs1; [done|].
  pose proof (select_saw (Transport DB_ERROR) (fun db => nd_users db !! user_id) w1) as [Hs2 Hsaw].
  apply db_bind_cases in Hrun as [(e & H2 & ->)|(user & w2 & H2 & Hrun)]; rewrite H2 in Hs2, Hsaw; cbn in Hs2, Hsaw; rewrite Hs1 in Hs2; [done|].
  destruct Hsaw as (db & Hseen & Huser). destruct user as [[username []]|]; [by injection Hrun as <- <-| |by injection Hrun as <- <-].
  match type of Hrun with ?c w2 = _ => assert (Hq : quiet c) end.
  { apply quiet_bind; [apply quiet_default_settings|]. intros m. by apply quiet_bind. }
  destruct (Hq w2) as [Hs3 Hseen3]. rewrite Hrun in Hs3, Hseen3. cbn in Hs3, Hseen3.
  split; [congruence|]. destruct outcome; [|done]. exists db. split; [congruence|]. unfold active. by rewrite <- Huser.
Qed.

(** What trying to send does. *)
Definition sends_once (w : World) (outcome : result unit ChannelError * World) : Prop :=
  (w_sent outcome.2 = w_sent w /\ outcome.1 <> Ok tt) \/
  exists s, w_sent outcome.2 = w_sent w ++ [s] /\ se_seen s = w_seen w /\
    match outcome.1 with Ok _ => accepted s = true | Err e => accepted s = false /\ is_retryable e = negb (refused s) end.

Lemma sends_bind {A} (c : Code A ChannelError) (k : A -> Code unit ChannelError) w :
  quiet c -> (forall a w, sends_once w (k a w)) -> sends_once w (db_bind c k w).
Proof.
  intros Hc Hk. unfold db_bind, sends_once. specialize (Hc w). destruct (c w) as [[a|e] w']; cbn in Hc; destruct Hc as [Hs Hdb].
  - specialize (Hk a w'). unfold sends_once in Hk. by rewrite Hs, Hdb in Hk.
  - by left.
Qed.

Lemma post_sends url headers body (refusal : Z * str -> str) w :
  sends_once w ((answer <-- post url headers body ;; lift (verdict_of (refusal answer) answer.1)) w).
Proof.
  unfold post, sends_once. destruct (request_error url headers) as [error|]; [by left|].
  unfold db_bind, map_err, transmit. destruct (default _ _) as [[status text]|error] eqn:Ha; cbn; (right; eexists; split; [done|]; split; [done|]).
  - unfold verdict_of, accepted, refused. cbn.
    destruct ((200 <=? status) && (status <? 300)) eqn:Hok; cbn; [done|].
    destruct ((400 <=? status) && (status <? 500)) eqn:Hno; cbn; done.
  - done.
Qed.

Lemma mail_sends config subject recipient body attachments w :
  sends_once w (map_err map_email_error (send_message config subject recipient body attachments) w).
Proof.
  unfold send_message, map_err, sends_once, db_bind, lift.
  destruct (build_message _ _ _ _ _) as [mail|e] eqn:Hm; [|by left].
  destruct (ec_password config); [|by left].
  destruct (if ec_tls_enabled config then _ else _) as [|e] eqn:Hhost; [|by left].
  unfold build_message in Hm. destruct (parse_address _) as [sender|]; [|done]. destruct (parse_address recipient) as [to|]; [|done].
  destruct (build_mail _); [|done]. injection Hm as <-.
  unfold transmit. destruct (default _ _) as [reply|error] eqn:Ha; cbn; (right; eexists).
  - destruct (smtp_error reply) eqn:He; (split; [done|]; split; [done|]; unfold accepted, refused; cbn; by rewrite ?He).
  - done.
Qed.

(** An attachment is loaded before the request is made. *)
Lemma bind_assoc {A B C E} (c : Code A E) (k : A -> Code B E) (l : B -> Code C E) w :
  db_bind (db_bind c k) l w = db_bind c (fun a => db_bind (k a) l) w.
Proof. unfold db_bind. by destruct (c w) as [[a|e] w']. Qed.

Lemma send_sends c r n w : sends_once w (send c r n w).
Proof.
  destruct c as [| |config]; cbn [send]; unfold ntfy_send, webhook_send, email_send.
  - set (refusal := fun answer : Z * str => lit "ntfy returned " ++ status_text answer.1 ++ lit ": " ++ answer.2).
    apply sends_bind; [done|intros server w1]. apply sends_bind; [done|intros topic w2].
    destruct (no_attachment n); [|apply (post_sends _ _ _ refusal)].
    rewrite bind_assoc. apply sends_bind; [done|]. intros bytes w3. apply (post_sends _ _ _ refusal).
  - apply sends_bind; [done|intros url w1]. apply sends_bind; [done|intros body w2].
    apply (post_sends _ _ _ (fun answer => lit "webhook returned " ++ status_text answer.1)).
  - apply sends_bind; [done|intros to w1]. apply sends_bind; [|intros; apply mail_sends].
    destruct (no_attachment n); [|done]. apply quiet_bind; [|done]. by apply quiet_bind.
Qed.

(** What can be said of the sends of one delivery. *)
Definition tried (user_id : str) (delays : list Z) (tries : list Sent) (outcome : result unit ChannelError) : Prop :=
  (length tries <= S (length delays))%nat /\
  Forall (fun s => looked_up user_id s = true) tries /\
  (forall pre s post_, tries = pre ++ s :: post_ -> post_ <> [] -> accepted s = false /\ refused s = false) /\
  (outcome = Ok tt <-> exists s, last tries = Some s /\ accepted s = true).

Lemma tried_none user_id delays e : tried user_id delays [] (Err e).
Proof. split_and!; [cbn; lia|done|intros [] ? ? Heq; done|]. split; [done|]. by intros (s & ? & _). Qed.

Lemma tried_one user_id delays s r :
  looked_up user_id s = true -> match r with Ok _ => accepted s = true | Err _ => accepted s = false end ->
  tried user_id delays [s] r.
Proof.
  intros Ha Hr. split_and!; [cbn; lia|by constructor| |].
  - intros [|x [|y pre]] s' post_ Heq Hpost; by simplify_eq/=.
  - cbn. destruct r as [[]|e]; (split; [|intros (? & [= <-] & ?); congruence]); [by exists s|done].
Qed.

(** A try that may be repeated, and the tries after it. *)
Lemma tried_more user_id delay delays s tries r :
  looked_up user_id s = true -> accepted s = false -> refused s = false ->
  tried user_id delays tries r -> tried user_id (delay :: delays) (s :: tries) r.
Proof.
  intros Ha Hacc Href (Hlen & Hall & Hmid & Hok). split_and!; [cbn; lia|by constructor| |].
  - intros [|x pre] s' post_ Heq Hpost; [by simplify_eq/=|]. injection Heq as -> Heq. by eapply Hmid.
  - rewrite Hok. destruct tries as [|s' tries]; [|done]. split; intros (? & Hl & Hx); [done|]. injection Hl as <-. congruence.
Qed.

Lemma delivery_run key c d delays w :
  let outcome := deliver_with_retry key c d delays w in
  exists tries, w_sent outcome.2 = w_sent w ++ tries /\ tried (qd_user_id d) delays tries outcome.1.
Proof.
  revert w. induction delays as [|delay delays IH]; intros w; cbn zeta.
  all: cbn [deliver_with_retry]; unfold db_bind.
  all: pose proof (recipient_saw key c (qd_user_id d) w) as [Hs Hsaw];
    destruct (recipient_for key c (qd_user_id d) w) as [[r|e] w1]; cbn in Hs, Hsaw;
    [destruct Hsaw as (db & Hseen & Hact)|exists []; rewrite app_nil_r; split; [done|apply tried_none]].
  all: pose proof (send_sends c r (qd_notification d) w1) as Hsend;
    destruct (send c r (qd_notification d) w1) as [[[]|e] w2]; unfold sends_once in Hsend; cbn [fst snd] in Hsend |- *;
    destruct Hsend as [[Hw2 Hres]|(s & Hw2 & Hss & Hres)]; try done;
    try (assert (Hlook : looked_up (qd_user_id d) s = true) by (unfold looked_up; by rewrite Hss, Hseen)); rewrite Hs in Hw2.
  - exists [s]. split; [done|]. by apply tried_one.
  - exists []. rewrite app_nil_r. destruct (is_retryable e); (split; [done|apply tried_none]).
  - exists [s]. destruct (is_retryable e); (split; [done|apply tried_one; naive_solver]).
  - exists [s]. split; [done|]. by apply tried_one.
  - destruct (is_retryable e); cbn [negb]; [|exists []; rewrite app_nil_r; split; [done|apply tried_none]].
    destruct (IH (sleep delay w2)) as (tries & Hsent & Htried). exists tries. cbn [sleep others w_sent] in Hsent. rewrite Hsent, Hw2.
    split; [done|]. destruct Htried as (? & ? & ? & ?). split_and!; try done. cbn. lia.
  - destruct Hres as [Hacc Href]. destruct (is_retryable e); cbn [negb]; [|exists [s]; split; [done|by apply tried_one]].
    destruct (IH (sleep delay w2)) as (tries & Hsent & Htried). exists (s :: tries). cbn [sleep others w_sent] in Hsent.
    rewrite Hsent, Hw2, <- (assoc_L (++)). split; [done|]. apply tried_more; try done. by destruct (refused s).
Qed.

(** C30. What a delivery may send.  Whatever others do to the database before each of its
    statements, before each request and during its delays, whichever statements fail and
    whatever the network answers, a delivery goes out at most once more than there are
    delays; before each time, and after the time before, its account was looked up and found
    there and not deleted (between that and the request others may delete it); every time but
    the last it was not taken, and not refused with 4xx if it was a POST; and the delivery
    succeeds exactly when the last answer took it.  A mail that is not taken goes out again
    whatever the reply, a permanent refusal too. *)
Theorem delivery_safe key c d delays w :
  let outcome := deliver_with_retry key c d delays w in
  exists tries,
    w_sent outcome.2 = w_sent w ++ tries /\
    (length tries <= S (length delays))%nat /\
    Forall (fun s => looked_up (qd_user_id d) s = true) tries /\
    (forall pre s post_, tries = pre ++ s :: post_ -> post_ <> [] -> accepted s = false /\ refused s = false) /\
    (outcome.1 = Ok tt <-> exists s, last tries = Some s /\ accepted s = true).
Proof. apply delivery_run. Qed.

(** Every delivery of a job is counted, whatever becomes of the others. *)
Lemma run_tasks_counts channels delays tasks output w :
  let out := (run_tasks channels delays tasks output w).1 in
  out_sent out + out_failed out = out_sent output + out_failed output + Z.of_nat (length tasks).
Proof.
  revert output w. induction tasks as [|task tasks IH]; intros output w; cbn [run_tasks]; [cbn; lia|].
  unfold execute_task. destruct (deliver channels delays task w) as [[[]|e] w']; cbn zeta in IH |- *; rewrite IH; cbn; lia.
Qed.

(** ** Settings *)

Section settings.
Context `{!LibraryLaws}.

Definition readable (value : str) : Prop := from_utf8 (as_bytes value) = Ok value.

(** Encryption works with a key, on every input. *)
Definition encrypts (key : str) : Prop := forall nonce data, exists sealed, encrypt nonce data (as_bytes key) = Ok sealed.

Lemma encrypt_decrypt nonce value key :
  encrypts key -> readable value -> exists sealed, encrypt_string nonce value key = Ok sealed /\ sealed <> [] /\ decrypt_string sealed key = Ok value.
Proof.
  intros Henc Hread. destruct (Henc nonce (as_bytes value)) as [bytes Hb]. exists (base64_encode bytes).
  unfold encrypt_string, decrypt_string. rewrite Hb, base64_roundtrip, (decrypt_encrypt _ _ _ _ Hb), Hread.
  split_and!; [done| |done]. intros Hnil. apply base64_nonempty in Hnil as ->. by apply encrypt_nonempty in Hb.
Qed.

Lemma secret_text_Some d values value :
  secret_text d values = Some value <-> sd_secret d = true /\ values !! sd_key d = Some (JString value) /\ value <> [].
Proof.
  unfold secret_text. destruct (sd_secret d); [|naive_solver].
  destruct (values !! sd_key d) as [[]|]; cbn; try naive_solver. case_bool_decide; naive_solver.
Qed.

(** Sealing leaves everything as it is but the secrets, which become texts that open. *)
Lemma sealing definitions values key w :
  encrypts key -> NoDup (sd_key <$> definitions) ->
  (forall d value, d ∈ definitions -> secret_text d values = Some value -> readable value) ->
  exists sealed random,
    encrypt_secret_values definitions values key w = (Ok sealed, with_random random w) /\
    (forall k, (forall d, d ∈ definitions -> sd_key d = k -> secret_text d values = None) -> sealed !! k = values !! k) /\
    (forall d value, d ∈ definitions -> secret_text d values = Some value ->
       exists text, sealed !! sd_key d = Some (JString text) /\ text <> [] /\ decrypt_string text key = Ok value).
Proof.
  intros Henc. revert values w. induction definitions as [|d definitions IH]; intros values w Hnd Hread.
  { exists values, (w_random w). split_and!; [by destruct w|done|set_solver]. }
  apply NoDup_cons in Hnd as [Hni Hnd]. cbn [encrypt_secret_values].
  destruct (secret_text d values) as [value|] eqn:Hd.
  - apply secret_text_Some in Hd as Hd'. destruct Hd' as (Hsec & Hval & _).
    destruct (encrypt_decrypt (default 0 (head (w_random w))) value key Henc) as (text & Htext & Hne & Hdec); [by eapply Hread; [left|]|].
    unfold db_bind, draw, lift. rewrite Htext.
    assert (Hother : forall d', d' ∈ definitions -> secret_text d' (<[sd_key d := JString text]> values) = secret_text d' values).
    { intros d' Hd'. unfold secret_text. rewrite lookup_insert_ne; [done|]. intros Heq. apply Hni. rewrite Heq. by apply list_elem_of_fmap_2. }
    destruct (IH (<[sd_key d := JString text]> values) (with_random (tail (w_random w)) w) Hnd) as (sealed & random & Hrun & Hsame & Hopen).
    { intros d' v Hd' Hv. rewrite Hother in Hv by done. eapply Hread; [by right|done]. }
    exists sealed, random. split; [by rewrite Hrun|]. split.
    + intros k Hk. rewrite Hsame; [|intros d' Hd' Heq; rewrite Hother by done; by apply Hk; [right|]].
      apply lookup_insert_ne. intros Heq. specialize (Hk d (list_elem_of_here _ _) Heq). congruence.
    + intros d' v [->|Hd']%elem_of_cons Hv; [|by apply Hopen; [|rewrite Hother]].
      exists text. rewrite Hsame.
      * rewrite lookup_insert_eq. by simplify_eq.
      * intros d2 Hd2 Heq. exfalso. apply Hni. rewrite <- Heq. by apply list_elem_of_fmap_2.
  - destruct (IH values w Hnd) as (sealed & random & Hrun & Hsame & Hopen); [by intros d' v Hd'; apply Hread; right|].
    exists sealed, random. split; [done|]. split.
    + intros k Hk. apply Hsame. intros d' Hd'. apply Hk. by right.
    + intros d' v [->|Hd']%elem_of_cons Hv; [congruence|by apply Hopen].
Qed.

Lemma opening definitions values key :
  NoDup (sd_key <$> definitions) ->
  (forall d text, d ∈ definitions -> secret_text d values = Some text -> exists value, decrypt_string text key = Ok value) ->
  exists opened,
    decrypt_secret_values definitions values key = Ok opened /\
    (forall k, (forall d, d ∈ definitions -> sd_key d = k -> secret_text d values = None) -> opened !! k = values !! k) /\
    (forall d text value, d ∈ definitions -> secret_text d values = Some text -> decrypt_string text key = Ok value ->
       opened !! sd_key d = Some (JString value)).
Proof.
  revert values. induction definitions as [|d definitions IH]; intros values Hnd Hdec.
  { exists values. split_and!; [done|done|set_solver]. }
  apply NoDup_cons in Hnd as [Hni Hnd]. cbn [decrypt_secret_values].
  destruct (secret_text d values) as [text|] eqn:Hd.
  - destruct (Hdec d text) as [value Hvalue]; [by left|done|]. rewrite Hvalue.
    assert (Hother : forall d', d' ∈ definitions -> secret_text d' (<[sd_key d := JString value]> values) = secret_text d' values).
    { intros d' Hd'. unfold secret_text. rewrite lookup_insert_ne; [done|]. intros Heq. apply Hni. rewrite Heq. by apply list_elem_of_fmap_2. }
    destruct (IH (<[sd_key d := JString value]> values) Hnd) as (opened & Hrun & Hsame & Hopen).
    { intros d' t Hd' Ht. rewrite Hother in Ht by done. eapply Hdec; [by right|done]. }
    exists opened. split; [done|]. split.
    + intros k Hk. rewrite Hsame; [|intros d' Hd' Heq; rewrite Hother by done; by apply Hk; [right|]].
      apply lookup_insert_ne. intros Heq. specialize (Hk d (list_elem_of_here _ _) Heq). congruence.
    + intros d' t v [->|Hd']%elem_of_cons Ht Hv; [|by eapply Hopen; [|rewrite Hother|]].
      rewrite Hsame.
      * rewrite lookup_insert_eq. assert (t = text) as -> by congruence. congruence.
      * intros d2 Hd2 Heq. exfalso. apply Hni. rewrite <- Heq. by apply list_elem_of_fmap_2.
  - destruct (IH values Hnd) as (opened & Hrun & Hsame & Hopen); [by intros d' t Hd'; apply Hdec; right|].
    exists opened. split; [done|]. split.
    + intros k Hk. apply Hsame. intros d' Hd'. apply Hk. by right.
    + intros d' t v [->|Hd']%elem_of_cons Ht Hv; [congruence|by eapply Hopen].
Qed.

Lemma channel_keys_nodup c : NoDup (sd_key <$> channel_settings c).
Proof. destruct c; apply (bool_decide_unpack _); vm_compute; exact I. Qed.

(** The defaults of a channel set no secret. *)
Lemma default_settings_run {E} c user_id w :
  exists defaults random,
    default_settings (E := E) c user_id w = (Ok defaults, with_random random w) /\
    (forall d, d ∈ channel_settings c -> is_Some (defaults !! sd_key d) /\ secret_text d defaults = None).
Proof.
  assert (Hschema : forall d, d ∈ channel_settings c -> is_Some (schema_defaults c !! sd_key d) /\ secret_text d (schema_defaults c) = None).
  { intros d Hd. destruct c; cbn in Hd; repeat (apply elem_of_cons in Hd as [->|Hd]; [split; [by eexists|done]|]); by apply not_elem_of_nil in Hd. }
  destruct c as [| |config].
  - cbn. eexists _, _. split; [done|]. intros d Hd. destruct (Hschema d Hd) as [Hsome Hnone].
    destruct (decide (sd_key d = lit "topic")) as [Heq|Hne].
    + rewrite Heq, lookup_insert_eq. split; [by eexists|].
      cbn in Hd; repeat (apply elem_of_cons in Hd as [->|Hd]; [done|]); by apply not_elem_of_nil in Hd.
    + rewrite lookup_insert_ne by done. split; [done|]. unfold secret_text in *. by rewrite lookup_insert_ne.
  - exists (schema_defaults Webhook), (w_random w). split; [by destruct w|done].
  - exists (schema_defaults (Email config)), (w_random w). split; [by destruct w|done].
Qed.

(** No statement fails, and nobody else writes. *)
Definition undisturbed (w : World) : Prop := w_faults w = [] /\ w_meanwhile w = [].

Lemma select_run {A E} (e : E) (f : NotifyDb -> A) w : undisturbed w -> select e f w = (Ok (f (w_db w)), noted w).
Proof. intros [Hf Hm]. unfold select, statement, others. cbn. rewrite Hf. destruct w. cbn in *. by subst. Qed.

Lemma fetch_key_run key w : undisturbed w -> nd_encryption_key (w_db w) = Some key -> fetch_encryption_key w = (Ok key, noted w).
Proof. intros Hf Hk. unfold fetch_encryption_key. rewrite (db_bind_run _ _ _ _ _ (select_run _ _ _ Hf)). by rewrite Hk. Qed.

(** The channels of a database, when its statements succeed. *)
Definition channels_of (db : NotifyDb) : list Channel :=
  match nd_primary_emailer db, nd_encryption_key db with
  | Some emailer, Some key => match emailer_config emailer key with Ok config => [Email config; Ntfy; Webhook] | Err _ => [Ntfy; Webhook] end
  | _, _ => [Ntfy; Webhook]
  end.

Lemma find_channel_run id c w :
  undisturbed w -> registry_get (channels_of (w_db w)) id = Some c -> find_channel id w = (Ok c, noted w) /\ channel_id c = id.
Proof.
  intros Hf Hget. assert (Hf' : undisturbed (noted w)) by done.
  assert (Hreg : channel_registry (E := MutationError) w = (Ok (channels_of (w_db w)), noted w)).
  { unfold channel_registry, channels_of. rewrite select_run by done. destruct (nd_primary_emailer (w_db w)) as [emailer|]; [|done].
    unfold fetch_encryption_key. rewrite (db_bind_run _ _ _ _ _ (select_run _ _ _ Hf')). unfold lift. cbn [w_db noted].
    destruct (nd_encryption_key (w_db w)) as [key|]; [|done]. by destruct (emailer_config emailer key). }
  unfold find_channel. rewrite (db_bind_run _ _ _ _ _ Hreg), Hget. split; [done|].
  apply List.find_some in Hget as [_ Hid]. by apply bool_decide_eq_true_1 in Hid.
Qed.

Lemma same_key c d d' : d ∈ channel_settings c -> d' ∈ channel_settings c -> sd_key d = sd_key d' -> d = d'.
Proof.
  intros [i Hi]%list_elem_of_lookup [j Hj]%list_elem_of_lookup Hk.
  assert (i = j) as ->; [|congruence].
  apply (NoDup_lookup _ i j (sd_key d) (channel_keys_nodup c)); rewrite list_lookup_fmap, ?Hi, ?Hj; cbn; by rewrite ?Hk.
Qed.

(** What holds where no secret is set holds at the key of a definition that sets none. *)
Lemma unset_key (c : Channel) (values a b : SettingValues) (d : SettingDefinition) :
  (forall k, (forall d, d ∈ channel_settings c -> sd_key d = k -> secret_text d values = None) -> a !! k = b !! k) ->
  d ∈ channel_settings c -> secret_text d values = None -> a !! sd_key d = b !! sd_key d.
Proof. intros Hsame Hd Hn. apply Hsame. intros d' Hd' Hk. by rewrite (same_key c d' d). Qed.

(** The value of every key, when it is known at secrets that are set and elsewhere. *)
Lemma by_key (c : Channel) (values : SettingValues) (P : str -> Prop) :
  (forall k, (forall d, d ∈ channel_settings c -> sd_key d = k -> secret_text d values = None) -> P k) ->
  (forall d value, d ∈ channel_settings c -> secret_text d values = Some value -> P (sd_key d)) -> forall k, P k.
Proof.
  intros Helse Hset k. destruct (decide (Exists (fun d => sd_key d = k /\ secret_text d values <> None) (channel_settings c))) as [Hex|Hno].
  - apply Exists_exists in Hex as (d & Hd & <- & Hv). destruct (secret_text d values) eqn:?; [|done]. by eapply Hset.
  - apply Helse. intros d Hd Hk. destruct (secret_text d values) eqn:Hv; [|done]. exfalso. apply Hno, Exists_exists. exists d. by rewrite Hv.
Qed.

(** What an account gets once values were sealed into its row. *)
Lemma recipient_run (key : str) (c : Channel) (user_id : str) (values sealed : SettingValues) (w : World) (user : UserRow) :
  undisturbed w -> nd_users (w_db w) !! user_id = Some user -> us_deleted user = false ->
  nd_settings (w_db w) !! (user_id, channel_id c) = Some (Object_ sealed) ->
  (forall k, (forall d, d ∈ channel_settings c -> sd_key d = k -> secret_text d values = None) -> sealed !! k = values !! k) ->
  (forall d value, d ∈ channel_settings c -> secret_text d values = Some value ->
     exists text, sealed !! sd_key d = Some (JString text) /\ text <> [] /\ decrypt_string text key = Ok value) ->
  exists r random, recipient_for key c user_id w = (Ok r, with_random random (noted w)) /\
    forall k v, values !! k = Some v -> re_settings r !! k = Some v.
Proof.
  intros Hf Huser Hdel Hrow Hsame Hopen. unfold recipient_for.
  assert (Hf' : undisturbed (noted w)) by done.
  rewrite (db_bind_run _ _ _ _ _ (select_run _ _ _ Hf)), (db_bind_run _ _ _ _ _ (select_run _ _ _ Hf')). cbn [w_db noted]. rewrite Hrow, Huser.
  change (noted (noted w)) with (noted w).
  destruct user as [username deleted]. cbn in Hdel. subst deleted.
  destruct (default_settings_run (E := ChannelError) c user_id (noted w)) as (defaults & random & Hdef & Hdefaults).
  rewrite (db_bind_run _ _ _ _ _ Hdef).
  assert (Hset : forall d value, d ∈ channel_settings c -> secret_text d values = Some value ->
    exists text, secret_text d (sealed ∪ defaults) = Some text /\ decrypt_string text key = Ok value).
  { intros d value Hd Hv. destruct (Hopen d value Hd Hv) as (text & Hs & Hne & Hdec). exists text. split; [|done].
    apply secret_text_Some in Hv as [Hsec _]. apply secret_text_Some. split_and!; [done|by apply lookup_union_Some_l|done]. }
  assert (Hunset : forall d, d ∈ channel_settings c -> secret_text d values = None -> secret_text d (sealed ∪ defaults) = None).
  { intros d Hd Hn. destruct (Hdefaults d Hd) as [_ Hnone]. pose proof (unset_key _ _ _ _ d Hsame Hd Hn) as Heq. unfold secret_text in *.
    rewrite lookup_union, Heq. by destruct (sd_secret d), (values !! sd_key d), (defaults !! sd_key d). }
  destruct (opening (channel_settings c) (sealed ∪ defaults) key (channel_keys_nodup c)) as (opened & Hrun & Hsame' & Hopen').
  { intros d text Hd Ht. destruct (secret_text d values) as [value|] eqn:Hv.
    - destruct (Hset d value Hd Hv) as (text' & ? & ?). exists value. congruence.
    - rewrite Hunset in Ht by done. done. }
  cbv zeta. eexists _, random. split; [unfold lift; rewrite Hrun; done|].
  cbn [re_settings]. apply (by_key c values (fun k => forall v, values !! k = Some v -> opened !! k = Some v)).
  - intros k Hk v Hv. rewrite Hsame' by (intros d Hd Heq; apply Hunset; [done|by apply Hk]). apply lookup_union_Some_l. by rewrite Hsame.
  - intros d value Hd Hv v Hk. destruct (Hset d value Hd Hv) as (text & Ht & Hdec). rewrite (Hopen' d text value) by done.
    apply secret_text_Some in Hv as (_ & Hval & _). congruence.
Qed.

(** The settings an account has in its row, as they are stored, or the defaults of the
    channel when it has no row. *)
Definition stored_settings (c : Channel) (user_id : str) (w : World) : option SettingValues :=
  match nd_settings (w_db w) !! (user_id, channel_id c) with
  | Some (Object_ stored) => Some stored
  | Some (NotObject _) => None
  | None => match default_settings (E := MutationError) c user_id w with (Ok defaults, _) => Some defaults | (Err _, _) => None end
  end.

Definition is_secret (c : Channel) (key : str) : bool := existsb (fun d => sd_secret d && bool_decide (sd_key d = key)) (channel_settings c).

Lemma redact_lookup (definitions : list SettingDefinition) (values : SettingValues) (k : str) :
  redact_secret_values definitions values !! k = if existsb (fun d => sd_secret d && bool_decide (sd_key d = k)) definitions then None else values !! k.
Proof.
  unfold redact_secret_values. revert values. induction definitions as [|d definitions IH]; intros values; cbn; [done|]. rewrite IH.
  destruct (sd_secret d); cbn; [|done]. case_bool_decide as Hk; cbn.
  - subst k. rewrite lookup_delete_eq. by destruct (existsb _ _).
  - by rewrite lookup_delete_ne.
Qed.

Lemma stored_run (c : Channel) (user_id : str) (stored : SettingValues) (w : World) :
  stored_settings c user_id w = Some stored ->
  exists random,
  match nd_settings (w_db w) !! (user_id, channel_id c) with
  | Some stored => db_ret (E := MutationError) stored
  | None => defaults <-- default_settings c user_id ;; db_ret (Object_ defaults)
  end w = (Ok (Object_ stored), with_random random w).
Proof.
  unfold stored_settings. destruct (nd_settings (w_db w) !! _) as [[m|]|]; [|done|].
  - intros [= ->]. exists (w_random w). by destruct w.
  - destruct (default_settings_run (E := MutationError) c user_id w) as (defaults & random & Hd & _). rewrite Hd. intros [= ->].
    exists random. by rewrite (db_bind_run _ _ _ _ _ Hd).
Qed.

Lemma known_keys (c : Channel) (incoming : SettingValues) :
  (forall k, is_Some (incoming !! k) -> k ∈ sd_key <$> channel_settings c) ->
  List.find (fun key => negb (existsb (fun d => bool_decide (sd_key d = key)) (channel_settings c))) (sorted_texts (dom incoming)) = None.
Proof.
  intros Hknown. destruct (List.find _ _) as [k|] eqn:Hf; [|done]. apply List.find_some in Hf as [Hk Hno].
  apply list_elem_of_In, sorted_texts_elem, elem_of_dom, Hknown, list_elem_of_fmap in Hk as (d & -> & Hd).
  apply negb_true_iff in Hno. rewrite <- not_true_iff_false in Hno. exfalso. apply Hno, existsb_exists. exists d.
  split; [by apply list_elem_of_In|]. by apply bool_decide_eq_true_2.
Qed.

(** Settings do not depend on what was seen. *)
Lemma noted_stored (c : Channel) (user_id : str) (w : World) : stored_settings c user_id (noted w) = stored_settings c user_id w.
Proof. by destruct c. Qed.

(** The state and the answer after settings were written. *)
Lemma settings_run (user : AuthUser) (id : str) (incoming stored : SettingValues) (c : Channel) (key : str) (account : UserRow) (w : World) :
  undisturbed w -> nd_encryption_key (w_db w) = Some key -> encrypts key ->
  nd_users (w_db w) !! au_id user = Some account -> us_deleted account = false ->
  registry_get (channels_of (w_db w)) id = Some c ->
  (forall k, is_Some (incoming !! k) -> k ∈ sd_key <$> channel_settings c) ->
  stored_settings c (au_id user) w = Some stored ->
  (forall d value, d ∈ channel_settings c -> secret_text d (incoming ∪ stored) = Some value -> readable value) ->
  exists values w' r w'',
    set_notification_channel_settings user id (Object_ incoming) w = (Ok (id, values), w') /\
    recipient_for key c (au_id user) w' = (Ok r, w'') /\
    (forall k v, (incoming ∪ stored) !! k = Some v ->
       re_settings r !! k = Some v /\ values !! k = if is_secret c k then None else Some v) /\
    (forall row, row <> (au_id user, id) -> nd_settings (w_db w') !! row = nd_settings (w_db w) !! row).
Proof.
  intros Hf Hkey Henc Hacc Hdel Hget Hknown Hstored Hread.
  destruct (find_channel_run id c w Hf Hget) as [Hfind Hid]. subst id.
  rewrite <- noted_stored in Hstored. destruct (stored_run c (au_id user) stored (noted w) Hstored) as [random1 Hrow].
  set (w1 := noted (with_random random1 (noted w))) in *.
  destruct (sealing (channel_settings c) (incoming ∪ stored) key w1 Henc (channel_keys_nodup c) Hread) as (sealed & random2 & Hseal & Hsame & Hopen).
  set (w2 := with_db (put_settings (au_id user) (channel_id c) sealed (w_db w)) (with_random random2 w1)).
  assert (Hf2 : undisturbed (noted w2)) by done.
  assert (Hrow2 : nd_settings (w_db (noted w2)) !! (au_id user, channel_id c) = Some (Object_ sealed)) by apply lookup_insert_eq.
  destruct (recipient_run key c (au_id user) (incoming ∪ stored) sealed (noted w2) account Hf2 Hacc Hdel Hrow2 Hsame Hopen) as (r & random3 & Hr & Hvals).
  change (noted (noted w2)) with (noted w2) in Hr. set (w3 := with_random random3 (noted w2)) in *.
  assert (Hrow3 : nd_settings (w_db w3) !! (au_id user, channel_id c) = Some (Object_ sealed)) by apply lookup_insert_eq.
  destruct (recipient_run key c (au_id user) (incoming ∪ stored) sealed w3 account Hf2 Hacc Hdel Hrow3 Hsame Hopen) as (r' & random4 & Hr' & Hvals').
  exists (redact_secret_values (channel_settings c) (re_settings r)), w3, r', (with_random random4 (noted w3)). split_and!.
  - unfold set_notification_channel_settings. rewrite (db_bind_run _ _ _ _ _ Hfind), known_keys by done.
    assert (Hf1 : undisturbed (noted w)) by done.
    rewrite (db_bind_run _ _ _ _ _ (select_run _ _ _ Hf1)), (db_bind_run _ _ _ _ _ Hrow).
    rewrite (db_bind_run _ _ _ key w1) by (unfold map_err; rewrite (fetch_key_run key); done).
    rewrite (db_bind_run _ _ _ sealed (with_random random2 w1)) by (unfold map_err; by rewrite Hseal).
    rewrite (db_bind_run _ _ _ tt w2) by (destruct Hf as [Hf Hm]; unfold statement, others, w2, with_db, noted; cbn; by rewrite Hf, Hm).
    unfold effective_settings.
    rewrite (db_bind_run _ _ _ (redact_secret_values (channel_settings c) (re_settings r)) w3); [done|].
    rewrite (db_bind_run _ _ _ key (noted w2)) by (unfold map_err; rewrite (fetch_key_run key); done).
    rewrite (db_bind_run _ _ _ r w3) by (unfold map_err; by rewrite Hr). done.
  - done.
  - intros k v Hk. split; [by apply Hvals'|]. rewrite redact_lookup. unfold is_secret. destruct (existsb _ _); [done|]. by apply Hvals.
  - intros row Hne. cbn. by apply lookup_insert_ne.
Qed.

(** C31. Storing settings.  When no statement and no encryption fails and nobody else writes
    meanwhile, an account that submits known keys for a channel of the server is answered, and
    from then on its deliveries use every submitted value, secrets as they were submitted, and
    the value of the row, or the default without one, for every key it did not submit that is
    no secret; the answer shows the same values without the secrets; and no other row changes.
    A secret of the row that is not submitted again is not part of this: it is sealed a second
    time, as the example after this shows. *)
Theorem settings_stored (user : AuthUser) (id : str) (incoming stored : SettingValues) (c : Channel) (key : str) (account : UserRow) (w : World) :
  undisturbed w -> nd_encryption_key (w_db w) = Some key -> encrypts key ->
  nd_users (w_db w) !! au_id user = Some account -> us_deleted account = false ->
  registry_get (channels_of (w_db w)) id = Some c ->
  (forall k, is_Some (incoming !! k) -> k ∈ sd_key <$> channel_settings c) ->
  stored_settings c (au_id user) w = Some stored ->
  (forall d value, d ∈ channel_settings c -> secret_text d (incoming ∪ stored) = Some value -> readable value) ->
  exists values w' r w'',
    set_notification_channel_settings user id (Object_ incoming) w = (Ok (id, values), w') /\
    recipient_for key c (au_id user) w' = (Ok r, w'') /\
    (forall k v, (incoming ∪ stored) !! k = Some v -> is_Some (incoming !! k) \/ is_secret c k = false ->
       re_settings r !! k = Some v /\ values !! k = if is_secret c k then None else Some v) /\
    (forall row, row <> (au_id user, id) -> nd_settings (w_db w') !! row = nd_settings (w_db w) !! row).
Proof.
  intros Hw Hkey Henc Hacc Hdel Hget Hknown Hstored Hread.
  destruct (settings_run user id incoming stored c key account w Hw Hkey Henc Hacc Hdel Hget Hknown Hstored Hread)
    as (values & w' & r & w'' & Hset & Hr & Hvals & Hframe).
  exists values, w', r, w''. split_and!; [done|done| |done]. intros k v Hk _. by apply Hvals.
Qed.

End settings.

(** An event that is routed queues one delivery for every target, in one job, if there are
    any. *)
Lemma dispatch_queues r w :
  undisturbed w ->
  let targets := resolve_targets (rr_rule <$> nd_rules (w_db w)) (rn_audience r) (rn_kind r) in
  let deliveries := (fun t => {| qd_user_id := ta_user_id t; qd_channel_id := ta_channel_id t; qd_notification := rn_notification r |}) <$> targets in
  (dispatch_routed r w).1 = Ok tt /\ w_queue (dispatch_routed r w).2 = w_queue w ++ match targets with [] => [] | _ => [deliveries] end.
Proof.
  intros Hf. cbn zeta. unfold dispatch_routed. rewrite (db_bind_run _ _ _ _ _ (select_run _ _ _ Hf)).
  destruct (resolve_targets _ _ _) as [|t targets]; [by rewrite app_nil_r|].
  destruct Hf as [Hf Hm]. unfold enqueue, db_bind, statement. cbn. by rewrite Hf.
Qed.

End notifications.

(** ** Examples *)

(** Libraries that keep texts readable, put the nonce first when they encrypt, and refuse
    line breaks in headers. *)
#[local] Instance sample_library : Library := {|
  encrypt := fun nonce data _ => Ok (nonce :: data);
  decrypt := fun sealed _ => match sealed with _ :: data => Ok data | [] => Err (lit "too short") end;
  base64_encode := fun bytes => bytes;
  base64_decode := fun text => Ok text;
  from_utf8 := fun bytes => Ok bytes;
  to_vec := fun _ => Ok [];
  hmac_sha256_hex := fun _ _ => [];
  status_text := show_nonneg;
  request_error := fun _ headers => if existsb (fun kv => existsb (Z.eqb 10) kv.2) headers then Some (lit "builder error") else None;
  parse_address := fun text => Ok text;
  parse_content_type := fun text => Some text;
  build_mail := fun _ => Ok tt;
  smtp_host_ok := fun _ => Ok tt;
  smtp_error := fun reply => if reply.1 <? 400 then None else Some reply.2;
|}.

#[local] Instance sample_laws : LibraryLaws.
Proof. split; cbn; try done. by intros nonce data key sealed [= <-]. Qed.

Definition sample_user : AuthUser := {| au_id := lit "u"; au_is_server_owner := false |}.

Definition sample_account : UserRow := {| us_username := lit "al"; us_deleted := false |}.

Definition sample_world : World := {|
  w_db := {| nd_rules := []; nd_next_rule_id := 1; nd_settings := ∅; nd_users := {[lit "u" := sample_account]};
             nd_encryption_key := Some (lit "k"); nd_primary_emailer := None |};
  w_seen := None; w_faults := []; w_random := [11; 12; 13; 14; 15; 16; 17; 18; 19; 20; 21; 22; 23; 24; 25]; w_answers := []; w_meanwhile := []; w_files := ∅; w_sent := []; w_queue := [] |}.

Definition text_at (key : string) (r : result Recipient ChannelError) : option str :=
  match r with Ok r => (re_settings r !! lit key) ≫= text_of | Err _ => None end.

Definition token_and_topic : SettingValues := {[lit "access_token" := JString (lit "tk"); lit "topic" := JString (lit "mine")]}.

Lemma settings_stored_witness :
  exists values w' r w'',
    set_notification_channel_settings sample_user (lit "ntfy") (Object_ token_and_topic) sample_world = (Ok (lit "ntfy", values), w') /\
    recipient_for (lit "k") Ntfy (lit "u") w' = (Ok r, w'') /\
    re_settings r !! lit "access_token" = Some (JString (lit "tk")) /\ values !! lit "access_token" = None.
Proof.
  destruct (default_settings_run (E := MutationError) Ntfy (lit "u") sample_world) as (stored & random & Hd & _).
  destruct (settings_stored sample_user (lit "ntfy") token_and_topic stored Ntfy (lit "k") sample_account sample_world)
    as (values & w' & r & w'' & Hset & Hr & Hvals & _).
  - done.
  - done.
  - intros nonce data. by eexists.
  - done.
  - done.
  - done.
  - intros k [v Hv]. unfold token_and_topic in Hv. apply lookup_insert_Some in Hv as [[<- _]|[_ Hv]].
    + by do 2 right; left.
    + apply lookup_singleton_Some in Hv as [<- _]. by right; left.
  - unfold stored_settings. change (au_id sample_user) with (lit "u"). by rewrite Hd.
  - intros d value Hin (Hsec & Hval & _)%secret_text_Some. repeat (apply elem_of_cons in Hin as [->|Hin]; [try done|]); [|by apply not_elem_of_nil in Hin].
    rewrite (lookup_union_Some_l _ _ (sd_key (setting "access_token" "" false true)) (JString (lit "tk"))) in Hval by done. by simplify_eq.
  - destruct (Hvals (lit "access_token") (JString (lit "tk"))) as [H1 H2]; [by apply lookup_union_Some_l|by left|].
    assert (Hsec : is_secret Ntfy (lit "access_token") = true) by (vm_compute; reflexivity). rewrite Hsec in H2.
    exists values, w', r, w''. split; [exact Hset|]. split; [exact Hr|]. split; [exact H1|exact H2].
Defined.

(** A token survives as long as it is submitted with every change; a change of the topic
    alone seals the stored token again, and deliveries then carry the sealed text. *)
Example secret_sealed_twice :
  let w1 := (set_notification_channel_settings sample_user (lit "ntfy") (Object_ token_and_topic) sample_world).2 in
  let w2 := (set_notification_channel_settings sample_user (lit "ntfy") (Object_ {[lit "topic" := JString (lit "other")]}) w1).2 in
  text_at "access_token" (recipient_for (lit "k") Ntfy (lit "u") w1).1 = Some (lit "tk") /\
  text_at "access_token" (recipient_for (lit "k") Ntfy (lit "u") w2).1 <> Some (lit "tk").
Proof. split; [vm_compute; reflexivity|vm_compute; discriminate]. Qed.

(** Without stored settings every delivery draws a topic of its own. *)
Example default_topic_drifts :
  let '(first, w1) := recipient_for (lit "k") Ntfy (lit "u") sample_world in
  text_at "topic" first = Some (lit "stump-u-lmnopq") /\
  text_at "topic" (recipient_for (lit "k") Ntfy (lit "u") w1).1 = Some (lit "stump-u-rstuvw").
Proof. vm_compute. split; reflexivity. Qed.

(** A body of two lines is no header: four attempts fail and nothing was sent. *)
Example two_lines_unsendable :
  let d := {| qd_user_id := lit "u"; qd_channel_id := lit "ntfy";
              qd_notification := {| no_kind := AnalysisJobFailed; no_title := lit "Analysis job failed"; no_body := lit "a" ++ [10] ++ lit "b";
                                    no_link := None; no_attachment := None |} |} in
  let '(outcome, w') := deliver_with_retry (lit "k") Ntfy d RETRY_DELAYS sample_world in
  is_ok outcome = false /\ w_sent w' = [].
Proof. vm_compute. split; reflexivity. Qed.

Definition sample_notification : Notification :=
  {| no_kind := DevicePaired; no_title := lit "Device paired"; no_body := lit "a was paired."; no_link := None; no_attachment := None |}.

Definition sample_delivery (channel : string) : QueuedDelivery :=
  {| qd_user_id := lit "u"; qd_channel_id := lit channel; qd_notification := sample_notification |}.

Definition with_row (user_id id : str) (values : SettingValues) (w : World) : World := with_db (put_settings user_id id values (w_db w)) w.

(** The answers of the network, and what others do. *)
Definition with_net (answers : list Answer) (meanwhile : list (NotifyDb -> NotifyDb)) (w : World) : World :=
  {| w_db := w_db w; w_seen := w_seen w; w_faults := w_faults w; w_random := w_random w; w_answers := answers; w_meanwhile := meanwhile;
     w_files := w_files w; w_sent := w_sent w; w_queue := w_queue w |}.

Definition sample_emailer : EmailerClientConfig :=
  {| ec_sender_email := lit "coppice@host"; ec_sender_display_name := lit "Coppice"; ec_username := lit "coppice"; ec_password := Some (lit "p");
     ec_host := lit "host"; ec_port := 465; ec_tls_enabled := true |}.

(** A mail to a mailbox that does not exist is refused for good, and goes out four times. *)
Example unknown_mailbox_retried :
  let refusal : Answer := Ok (550, lit "5.1.1 no such user") in
  let w := with_net [refusal; refusal; refusal; refusal] []
             (with_row (lit "u") (lit "email") {[lit "recipient_email" := JString (lit "gone@host")]} sample_world) in
  let '(outcome, w') := deliver_with_retry (lit "k") (Email sample_emailer) (sample_delivery "email") RETRY_DELAYS w in
  is_ok outcome = false /\ length (w_sent w') = 4%nat.
Proof. vm_compute. split; reflexivity. Qed.

Definition delete_account (user_id : str) (db : NotifyDb) : NotifyDb :=
  {| nd_rules := nd_rules db; nd_next_rule_id := nd_next_rule_id db; nd_settings := nd_settings db; nd_users := delete user_id (nd_users db);
     nd_encryption_key := nd_encryption_key db; nd_primary_emailer := nd_primary_emailer db |}.

(** An account that is deleted during a delay gets nothing more; one that is deleted between
    its lookup and the request still gets that one. *)
Example deleted_meanwhile :
  let w meanwhile := with_net [Err (lit "timed out"); Ok (200, [])] meanwhile sample_world in
  let sent meanwhile := length (w_sent (deliver_with_retry (lit "k") Ntfy (sample_delivery "ntfy") RETRY_DELAYS (w meanwhile)).2) in
  sent [] = 2%nat /\ sent [id; id; id; delete_account (lit "u")] = 1%nat /\ sent [id; id; delete_account (lit "u")] = 1%nat /\
  sent [id; delete_account (lit "u")] = 0%nat.
Proof. vm_compute. split_and!; reflexivity. Qed.
