(* ===== verification/Devices.v ===== *)
(** * The registry of devices

    Models [src/crates/devices/src/service.rs] and [credential.rs] over the tables of
    [src/crates/models/src/entity/device.rs], [device_credential.rs], [api_key.rs] and
    [liseur_sync_token.rs]: clients that an account registered, the API keys and tokens
    minted for them, and what those may do.

    Every statement may fail, as the next fault says; a transaction that does not commit is
    undone.  Identifiers and secrets are drawn, a statement that needs a new one fails when it
    is taken, and hashing is the class [Hashing].  Library scopes, sightings and
    telemetry are left out. *)

From stdpp Require Import base gmap list strings sorting.
From Stdlib Require Import ZArith Lia.
From S2P Require Import Prelude Permissions.

#[local] Open Scope Z_scope.
#[local] Open Scope coppice_scope.

(** ** Kinds *)

Inductive DeviceKind :=
| Kobo | Koreader | Coppice | Crosspoint | Mihon | Komelia | Liseur | Opds | Abs | Api | Web | Worker | SourceWorker | Kavita.

#[export] Instance DeviceKind_eq_dec : EqDecision DeviceKind.
Proof. solve_decision. Defined.

Inductive DeviceProtocol := KoboSync | KoreaderSync | KomgaApi | OpdsFeed | LiseurSync_ | NativeApi.

#[export] Instance DeviceProtocol_eq_dec : EqDecision DeviceProtocol.
Proof. solve_decision. Defined.

Inductive DeviceCredentialKind := ApiKey | LiseurToken | Session_.

#[export] Instance DeviceCredentialKind_eq_dec : EqDecision DeviceCredentialKind.
Proof. solve_decision. Defined.

Inductive CredentialIssuance := InteractiveSession | DelegatedCredential.

Inductive APIKeyPermissions := Inherit | Custom (granted : list UserPermission).

Inductive DeviceError :=
| NotFound | DeviceForbidden | InheritedCredentialRequiresSession | DeviceRevoked | InvalidName (message : str) | CredentialFailed (message : str)
| DatabaseFailed.

Definition protocol_for (kind : DeviceKind) : DeviceProtocol :=
  match kind with
  | Kobo => KoboSync
  | Koreader | Coppice | Crosspoint => KoreaderSync
  | Mihon | Komelia => KomgaApi
  | Opds => OpdsFeed
  | Abs | Kavita => NativeApi
  | Liseur => LiseurSync_
  | Api | Web => NativeApi
  | Worker | SourceWorker => NativeApi
  end.

Definition credential_kind_for (kind : DeviceKind) : DeviceCredentialKind := match kind with Liseur => LiseurToken | _ => ApiKey end.

Definition api_key_permissions_for (kind : DeviceKind) (allow_komf_metadata_editing : bool) : APIKeyPermissions :=
  match kind with
  | Kobo => Custom [AccessKoboSync; DownloadFile]
  | Crosspoint => Custom [AccessKoreaderSync]
  | Koreader | Coppice => Custom [AccessKoreaderSync; DownloadFile]
  | Mihon | Komelia | Opds | Abs | Kavita =>
      Custom (DownloadFile :: if bool_decide (kind = Komelia) && allow_komf_metadata_editing then [EditMetadata] else [])
  | Worker => Custom [AccessWorker; DownloadFile]
  | SourceWorker => Custom [AccessRemoteSource]
  | Liseur | Api | Web => Inherit
  end.

Definition required_permissions (kind : DeviceKind) (allow_komf_metadata_editing : bool) : list UserPermission :=
  match api_key_permissions_for kind allow_komf_metadata_editing with Custom granted => granted | Inherit => [] end
  ++ if bool_decide (credential_kind_for kind = ApiKey) then [AccessApiKeys] else [].

Definition authorize_credential_issuance (kind : DeviceKind) (issuance : CredentialIssuance) : result unit DeviceError :=
  match issuance, kind with
  | DelegatedCredential, (Api | Web) => Err InheritedCredentialRequiresSession
  | _, _ => Ok tt
  end.

(** The account of a request. *)
Record DeviceUser := { du_id : str; du_username : str; du_auth : AuthUser }.

Definition authorize_creation (user : DeviceUser) (kind : DeviceKind) (allow_komf_metadata_editing : bool) : result unit DeviceError :=
  if allow_komf_metadata_editing && negb (has_permission (du_auth user) EditMetadata) then Err DeviceForbidden
  else if is_server_owner (du_auth user) then Ok tt
  else if existsb (fun p => negb (bool_decide (p ∈ permissions (du_auth user)))) (required_permissions kind allow_komf_metadata_editing)
  then Err DeviceForbidden
  else Ok tt.

Definition kind_label (kind : DeviceKind) : str :=
  match kind with
  | Kobo => lit "Kobo"
  | Koreader => lit "KOReader"
  | Crosspoint => lit "CrossPoint"
  | Coppice => lit "Coppice"
  | Komelia => lit "Komelia"
  | Mihon => lit "Mihon"
  | Liseur => lit "Liseur"
  | Opds => lit "OPDS reader"
  | Abs => lit "Audiobookshelf client"
  | Kavita => lit "Kavita"
  | Api => lit "API client"
  | Web => lit "Browser"
  | Worker => lit "Worker"
  | SourceWorker => lit "Source worker"
  end.

(** ** Names *)

Definition MAX_NAME_CHARS : Z := 128.

Definition validate_name (name : str) : result str DeviceError :=
  let name := trim name in
  if bool_decide (name = []) then Err (InvalidName (lit "name must not be empty"))
  else if MAX_NAME_CHARS <? Z.of_nat (length name) then Err (InvalidName (lit "name must be at most 128 characters"))
  else Ok name.

(** The unbounded search for a number, given enough fuel: one more candidate than there are
    names. *)
Fixpoint number_from (taken : gset str) (base : str) (n : Z) (fuel : nat) : str :=
  let candidate := base ++ lit " " ++ show_nonneg n in
  match fuel with
  | O => candidate
  | S fuel => if bool_decide (candidate ∈ taken) then number_from taken base (n + 1) fuel else candidate
  end.

Definition numbered_name (taken : gset str) (base : str) : str :=
  if bool_decide (base ∈ taken) then number_from taken base 2 (size taken) else base.

(** ** Tables *)

(** Of every table the columns that the operations here read or change; a key has no expiry,
    and a token has the scopes and the lifetime of a device token. *)
Record DeviceRow := { dv_id : str; dv_user_id : str; dv_name : str; dv_kind : DeviceKind; dv_revoked_at : option Z }.

(** [ak_device] and [tk_registered] are not columns: they say for which device a key was
    minted here, and whether a token was. *)
Record ApiKeyRow := { ak_user_id : str; ak_name : str; ak_hash : str; ak_permissions : APIKeyPermissions; ak_device : option str }.

Record TokenRow := { tk_user_id : str; tk_device_id : str; tk_hash : str; tk_name : str; tk_revoked_at : option Z; tk_registered : bool }.

Record CredentialRow := { cr_id : Z; cr_device_id : str; cr_protocol : DeviceProtocol; cr_kind : DeviceCredentialKind; cr_ref : str }.

Record Registry := {
  rg_devices : gmap str DeviceRow;
  rg_keys : gmap str ApiKeyRow;
  rg_tokens : gmap str TokenRow;
  rg_sessions : gset str;
  rg_credentials : list CredentialRow;
  rg_next_credential : Z;
}.

(** The tables, the statements that fail, the clock, and the pairs of an identifier and a
    secret that are drawn. *)
Record DeviceDb := { db_tables : Registry; db_faults : list bool; db_now : Z; db_draws : list (str * str) }.

Definition with_tables (t : Registry) (db : DeviceDb) : DeviceDb :=
  {| db_tables := t; db_faults := db_faults db; db_now := db_now db; db_draws := db_draws db |}.

Definition set_devices (d : gmap str DeviceRow) (t : Registry) : Registry :=
  {| rg_devices := d; rg_keys := rg_keys t; rg_tokens := rg_tokens t; rg_sessions := rg_sessions t; rg_credentials := rg_credentials t;
     rg_next_credential := rg_next_credential t |}.

Definition set_keys (k : gmap str ApiKeyRow) (t : Registry) : Registry :=
  {| rg_devices := rg_devices t; rg_keys := k; rg_tokens := rg_tokens t; rg_sessions := rg_sessions t; rg_credentials := rg_credentials t;
     rg_next_credential := rg_next_credential t |}.

Definition set_tokens (k : gmap str TokenRow) (t : Registry) : Registry :=
  {| rg_devices := rg_devices t; rg_keys := rg_keys t; rg_tokens := k; rg_sessions := rg_sessions t; rg_credentials := rg_credentials t;
     rg_next_credential := rg_next_credential t |}.

Definition set_sessions (k : gset str) (t : Registry) : Registry :=
  {| rg_devices := rg_devices t; rg_keys := rg_keys t; rg_tokens := rg_tokens t; rg_sessions := k; rg_credentials := rg_credentials t;
     rg_next_credential := rg_next_credential t |}.

Definition set_credentials (k : list CredentialRow) (next : Z) (t : Registry) : Registry :=
  {| rg_devices := rg_devices t; rg_keys := rg_keys t; rg_tokens := rg_tokens t; rg_sessions := rg_sessions t; rg_credentials := k;
     rg_next_credential := next |}.

Definition Op (A : Type) : Type := DeviceDb -> result A DeviceError * DeviceDb.

Definition stmt {A} (run : Registry -> result (A * Registry) DeviceError) : Op A := fun db =>
  let db' := {| db_tables := db_tables db; db_faults := tail (db_faults db); db_now := db_now db; db_draws := db_draws db |} in
  match db_faults db with
  | true :: _ => (Err DatabaseFailed, db')
  | _ => match run (db_tables db) with Ok (a, t) => (Ok a, with_tables t db') | Err e => (Err e, db') end
  end.

Definition read {A} (f : Registry -> A) : Op A := stmt (fun t => Ok (f t, t)).

Definition write (f : Registry -> Registry) : Op unit := stmt (fun t => Ok (tt, f t)).

Definition of_result {A} (r : result A DeviceError) : Op A := fun db => (r, db).

Definition clock : Op Z := fun db => (Ok (db_now db), db).

Definition draw : Op (str * str) := fun db =>
  (Ok (default ([], []) (head (db_draws db))),
   {| db_tables := db_tables db; db_faults := db_faults db; db_now := db_now db; db_draws := tail (db_draws db) |}).

(** A transaction: beginning and committing may fail, and what fails is undone. *)
Definition transaction {A} (body : Op A) : Op A := fun db =>
  match (_ <-- read (fun _ => tt) ;; a <-- body ;; _ <-- read (fun _ => tt) ;; db_ret a) db with
  | (Ok a, db') => (Ok a, db')
  | (Err e, db') => (Err e, with_tables (db_tables db) db')
  end.

(** ** Credentials *)

Class Hashing := { hash_key : str -> str; hash_secret : str -> str }.

Record IssuedCredential := { ic_kind : DeviceCredentialKind; ic_protocol : DeviceProtocol; ic_ref : str; ic_secret : str }.

Section registry.
Context `{Hashing}.

(** The short token of a key is unique. *)
Definition mint_api_key (user_id name : str) (granted : APIKeyPermissions) (device_id : str) : Op (str * str) :=
  drawn <-- draw ;;
  let '(short_token, secret) := drawn in
  _ <-- stmt (fun t =>
    match rg_keys t !! short_token with
    | Some _ => Err DatabaseFailed
    | None => Ok (tt, set_keys (<[short_token := {| ak_user_id := user_id; ak_name := name; ak_hash := hash_key secret;
                                                    ak_permissions := granted; ak_device := Some device_id |}]> (rg_keys t)) t)
    end) ;;
  db_ret (short_token, secret).

Definition mint_token (user_id device_id name : str) : Op (str * str) :=
  drawn <-- draw ;;
  let '(token_id, secret) := drawn in
  _ <-- stmt (fun t =>
    match rg_tokens t !! token_id with
    | Some _ => Err DatabaseFailed
    | None => Ok (tt, set_tokens (<[token_id := {| tk_user_id := user_id; tk_device_id := device_id; tk_hash := hash_secret secret;
                                                   tk_name := name; tk_revoked_at := None; tk_registered := true |}]> (rg_tokens t)) t)
    end) ;;
  db_ret (token_id, secret).

Definition credential_specs (kind : DeviceKind) : list (DeviceCredentialKind * DeviceProtocol) :=
  match kind with
  | Coppice => [(ApiKey, KoreaderSync); (LiseurToken, LiseurSync_)]
  | _ => [(credential_kind_for kind, protocol_for kind)]
  end.

(** A credential is unique by its kind and reference. *)
Definition insert_credential (device_id : str) (protocol : DeviceProtocol) (kind : DeviceCredentialKind) (ref_ : str) : Op unit :=
  stmt (fun t =>
    if existsb (fun c => bool_decide (cr_kind c = kind) && bool_decide (cr_ref c = ref_)) (rg_credentials t) then Err DatabaseFailed
    else Ok (tt, set_credentials (rg_credentials t ++ [{| cr_id := rg_next_credential t; cr_device_id := device_id; cr_protocol := protocol;
                                                          cr_kind := kind; cr_ref := ref_ |}]) (rg_next_credential t + 1) t)).

Definition mint_one (device : DeviceRow) (allow_komf : bool) (kind : DeviceCredentialKind) : Op (str * str) :=
  match kind with
  | ApiKey => mint_api_key (dv_user_id device) (dv_name device) (api_key_permissions_for (dv_kind device) allow_komf) (dv_id device)
  | LiseurToken => mint_token (dv_user_id device) (dv_id device) (dv_name device)
  | Session_ => db_err (CredentialFailed (lit "session credentials are bound by a login, not minted"))
  end.

Fixpoint mint_all (device : DeviceRow) (allow_komf : bool) (specs : list (DeviceCredentialKind * DeviceProtocol)) : Op (list IssuedCredential) :=
  match specs with
  | [] => db_ret []
  | (kind, protocol) :: specs =>
      minted <-- mint_one device allow_komf kind ;;
      _ <-- insert_credential (dv_id device) protocol kind minted.1 ;;
      rest <-- mint_all device allow_komf specs ;;
      db_ret ({| ic_kind := kind; ic_protocol := protocol; ic_ref := minted.1; ic_secret := minted.2 |} :: rest)
  end.

(** The primary credential first. *)
Definition mint_credential (device : DeviceRow) (allow_komf : bool) : Op (list IssuedCredential) :=
  issued <-- mint_all device allow_komf (credential_specs (dv_kind device)) ;;
  match issued with
  | [] => db_err (CredentialFailed (lit "device kind has no credential specification"))
  | _ => db_ret issued
  end.

Definition credentials_of (device_id : str) (t : Registry) : list CredentialRow :=
  List.filter (fun c => bool_decide (cr_device_id c = device_id)) (rg_credentials t).

Definition revoked_token (now : Z) (k : TokenRow) : TokenRow :=
  {| tk_user_id := tk_user_id k; tk_device_id := tk_device_id k; tk_hash := tk_hash k; tk_name := tk_name k; tk_revoked_at := Some now;
     tk_registered := tk_registered k |}.

(** Deleting a key is limited to the account of the device. *)
Definition discard_one (device : DeviceRow) (now : Z) (c : CredentialRow) (t : Registry) : Registry :=
  match cr_kind c with
  | ApiKey =>
      match rg_keys t !! cr_ref c with
      | Some key => if bool_decide (ak_user_id key = dv_user_id device) then set_keys (delete (cr_ref c) (rg_keys t)) t else t
      | None => t
      end
  | LiseurToken =>
      match rg_tokens t !! cr_ref c with
      | Some token =>
          if bool_decide (tk_revoked_at token = None) then set_tokens (<[cr_ref c := revoked_token now token]> (rg_tokens t)) t else t
      | None => t
      end
  | Session_ => set_sessions (rg_sessions t ∖ {[cr_ref c]}) t
  end.

Fixpoint discard_each (device : DeviceRow) (now : Z) (credentials : list CredentialRow) : Op unit :=
  match credentials with
  | [] => db_ret tt
  | c :: credentials => _ <-- write (discard_one device now c) ;; discard_each device now credentials
  end.

Definition discard_credentials (device : DeviceRow) : Op unit :=
  credentials <-- read (credentials_of (dv_id device)) ;;
  now <-- clock ;;
  _ <-- discard_each device now credentials ;;
  write (fun t => set_credentials (List.filter (fun c => negb (bool_decide (cr_device_id c = dv_id device))) (rg_credentials t)) (rg_next_credential t) t).

(** ** The service *)

Definition visible_to (user : DeviceUser) (device : DeviceRow) : bool :=
  is_server_owner (du_auth user) || bool_decide (dv_user_id device = du_id user).

Definition get (user : DeviceUser) (device_id : str) : Op DeviceRow :=
  found <-- read (fun t => (rg_devices t !! device_id) ≫= fun d => if visible_to user d then Some d else None) ;;
  of_result (match found with Some device => Ok device | None => Err NotFound end).

Definition existing_names (user_id : str) (t : Registry) : gset str :=
  list_to_set (dv_name <$> List.filter (fun d => bool_decide (dv_user_id d = user_id)) (map_to_list (rg_devices t)).*2).

(** The name is shown in quotation marks; escapes inside it are left out. *)
Definition name_taken (name : str) : DeviceError := InvalidName (lit "a device named " ++ [34] ++ name ++ [34] ++ lit " already exists").

Definition choose_name (user : DeviceUser) (kind : DeviceKind) (name : option str) : Op str :=
  match name with
  | Some name =>
      name <-- of_result (validate_name name) ;;
      taken <-- read (existing_names (du_id user)) ;;
      of_result (if bool_decide (name ∈ taken) then Err (name_taken name) else Ok name)
  | None =>
      taken <-- read (existing_names (du_id user)) ;;
      db_ret (numbered_name taken (du_username user ++ lit "'s " ++ kind_label kind))
  end.

Definition insert_device (device : DeviceRow) : Op unit :=
  stmt (fun t => match rg_devices t !! dv_id device with
                 | Some _ => Err DatabaseFailed
                 | None => Ok (tt, set_devices (<[dv_id device := device]> (rg_devices t)) t)
                 end).

Definition create_device_in_transaction (user : DeviceUser) (issuance : CredentialIssuance) (kind : DeviceKind) (name : option str) (allow_komf : bool)
  : Op (DeviceRow * list IssuedCredential) :=
  _ <-- of_result (authorize_credential_issuance kind issuance) ;;
  _ <-- of_result (authorize_creation user kind allow_komf) ;;
  name <-- choose_name user kind name ;;
  drawn <-- draw ;;
  let device := {| dv_id := drawn.1; dv_user_id := du_id user; dv_name := name; dv_kind := kind; dv_revoked_at := None |} in
  _ <-- insert_device device ;;
  issued <-- mint_credential device allow_komf ;;
  db_ret (device, issued).

Definition create_device (user : DeviceUser) (issuance : CredentialIssuance) (kind : DeviceKind) (name : option str) (allow_komf : bool)
  : Op (DeviceRow * list IssuedCredential) :=
  transaction (create_device_in_transaction user issuance kind name allow_komf).

Definition komf_metadata_editing_for_device (device : DeviceRow) : Op bool :=
  if negb (bool_decide (dv_kind device = Komelia)) then db_ret false
  else
    credentials <-- read (credentials_of (dv_id device)) ;;
    match List.find (fun c => bool_decide (cr_kind c = ApiKey)) credentials with
    | None => db_ret false
    | Some c =>
        key <-- read (fun t => rg_keys t !! cr_ref c) ;;
        db_ret match key with
               | Some {| ak_user_id := user_id; ak_permissions := Custom granted |} =>
                   bool_decide (user_id = dv_user_id device) && bool_decide (EditMetadata ∈ granted)
               | _ => false
               end
    end.

(** What a rotation reads first, and its transaction. *)
Definition rotate_read (user : DeviceUser) (issuance : CredentialIssuance) (device_id : str) : Op (DeviceRow * bool) :=
  device <-- get user device_id ;;
  _ <-- of_result (authorize_credential_issuance (dv_kind device) issuance) ;;
  if negb (bool_decide (dv_revoked_at device = None)) then db_err DeviceRevoked
  else
    allow_komf <-- komf_metadata_editing_for_device device ;;
    if allow_komf && negb (has_permission (du_auth user) EditMetadata) then db_err DeviceForbidden
    else db_ret (device, allow_komf).

Definition rotate_write (device : DeviceRow) (allow_komf : bool) : Op (list IssuedCredential) :=
  transaction (_ <-- discard_credentials device ;; mint_credential device allow_komf).

Definition rotate_credential (user : DeviceUser) (issuance : CredentialIssuance) (device_id : str) : Op (list IssuedCredential) :=
  found <-- rotate_read user issuance device_id ;; rotate_write found.1 found.2.

Definition revoked_row (now : Z) (d : DeviceRow) : DeviceRow :=
  {| dv_id := dv_id d; dv_user_id := dv_user_id d; dv_name := dv_name d; dv_kind := dv_kind d; dv_revoked_at := Some now |}.

Definition revoke_write (device : DeviceRow) : Op DeviceRow :=
  transaction (
    _ <-- discard_credentials device ;;
    now <-- clock ;;
    stmt (fun t => match rg_devices t !! dv_id device with
                   | Some d => Ok (revoked_row now d, set_devices (<[dv_id device := revoked_row now d]> (rg_devices t)) t)
                   | None => Err DatabaseFailed
                   end)).

Definition revoke (user : DeviceUser) (device_id : str) : Op DeviceRow :=
  device <-- get user device_id ;;
  if negb (bool_decide (dv_revoked_at device = None)) then db_ret device else revoke_write device.

Definition renamed_key (name : str) (k : ApiKeyRow) : ApiKeyRow :=
  {| ak_user_id := ak_user_id k; ak_name := name; ak_hash := ak_hash k; ak_permissions := ak_permissions k; ak_device := ak_device k |}.

Definition renamed_token (name : str) (k : TokenRow) : TokenRow :=
  {| tk_user_id := tk_user_id k; tk_device_id := tk_device_id k; tk_hash := tk_hash k; tk_name := name; tk_revoked_at := tk_revoked_at k;
     tk_registered := tk_registered k |}.

Definition rename_one (device : DeviceRow) (name : str) (c : CredentialRow) (t : Registry) : Registry :=
  match cr_kind c with
  | ApiKey => set_keys (alter (fun k => if bool_decide (ak_user_id k = dv_user_id device) then renamed_key name k else k) (cr_ref c) (rg_keys t)) t
  | LiseurToken => set_tokens (alter (renamed_token name) (cr_ref c) (rg_tokens t)) t
  | Session_ => t
  end.

(** Nothing is asked of the database for a session. *)
Fixpoint rename_each (device : DeviceRow) (name : str) (credentials : list CredentialRow) : Op unit :=
  match credentials with
  | [] => db_ret tt
  | c :: credentials =>
      _ <-- (if bool_decide (cr_kind c = Session_) then db_ret tt else write (rename_one device name c)) ;; rename_each device name credentials
  end.

Definition renamed_row (name : str) (d : DeviceRow) : DeviceRow :=
  {| dv_id := dv_id d; dv_user_id := dv_user_id d; dv_name := name; dv_kind := dv_kind d; dv_revoked_at := dv_revoked_at d |}.

Definition rename_write (device : DeviceRow) (name : str) : Op DeviceRow :=
  transaction (
    credentials <-- read (credentials_of (dv_id device)) ;;
    _ <-- rename_each device name credentials ;;
    stmt (fun t => match rg_devices t !! dv_id device with
                   | Some d => Ok (renamed_row name d, set_devices (<[dv_id device := renamed_row name d]> (rg_devices t)) t)
                   | None => Err DatabaseFailed
                   end)).

Definition rename (user : DeviceUser) (device_id name : str) : Op DeviceRow :=
  device <-- get user device_id ;;
  name <-- of_result (validate_name name) ;;
  if bool_decide (name = dv_name device) then db_ret device
  else
    taken <-- read (existing_names (dv_user_id device)) ;;
    if bool_decide (name ∈ taken) then db_err (name_taken name) else rename_write device name.

(** The live device of a credential. *)
Definition device_for_key (kind : DeviceCredentialKind) (ref_ : str) : Op (option DeviceRow) :=
  read (fun t =>
    match List.find (fun c => bool_decide (cr_kind c = kind) && bool_decide (cr_ref c = ref_)) (rg_credentials t) with
    | Some c => (rg_devices t !! cr_device_id c) ≫= fun d => if bool_decide (dv_revoked_at d = None) then Some d else None
    | None => None
    end).

(** ** Reasoning about operations *)

(** What holds of the tables after an operation that succeeds. *)
Definition triple {A} (P : Registry -> Prop) (c : Op A) (Q : A -> Registry -> Prop) : Prop :=
  forall db a db', P (db_tables db) -> c db = (Ok a, db') -> Q a (db_tables db').

Lemma triple_bind {A B} P (c : Op A) (Q : A -> Registry -> Prop) (k : A -> Op B) R :
  triple P c Q -> (forall a, triple (Q a) (k a) R) -> triple P (db_bind c k) R.
Proof.
  intros Hc Hk db b db' HP Hrun. apply db_bind_cases in Hrun as [(e & _ & ?)|(a & db1 & Ha & Hb)]; [done|].
  eapply Hk; [by eapply Hc|done].
Qed.

Lemma triple_ret {A} (P : Registry -> Prop) (a : A) : triple P (db_ret a) (fun b t => b = a /\ P t).
Proof. intros db b db' HP [= <- <-]. done. Qed.

Lemma triple_err {A} P e (Q : A -> Registry -> Prop) : triple P (db_err e) Q.
Proof. by intros db a db' _ ?. Qed.

Lemma triple_of {A} P (r : result A DeviceError) : triple P (of_result r) (fun a t => r = Ok a /\ P t).
Proof. intros db b db' HP [= -> <-]. done. Qed.

Lemma triple_stmt {A} P (run : Registry -> result (A * Registry) DeviceError) (Q : A -> Registry -> Prop) :
  (forall t a t', P t -> run t = Ok (a, t') -> Q a t') -> triple P (stmt run) Q.
Proof.
  intros HQ db a db' HP. unfold stmt. destruct (db_faults db) as [|[] faults]; [|done|];
    (destruct (run (db_tables db)) as [[a' t]|e] eqn:Hrun; [|done]); intros [= <- <-]; by eapply HQ.
Qed.

Lemma triple_read {A} P (f : Registry -> A) : triple P (read f) (fun a t => a = f t /\ P t).
Proof. apply triple_stmt. by intros t a t' HP [= <- <-]. Qed.

Lemma triple_clock P : triple P clock (fun _ => P).
Proof. by intros db a db' HP [= <- <-]. Qed.

Lemma triple_draw P : triple P draw (fun _ => P).
Proof. by intros db a db' HP [= <- <-]. Qed.

Lemma triple_pre {A} (P P' : Registry -> Prop) (c : Op A) Q : triple P' c Q -> (forall t, P t -> P' t) -> triple P c Q.
Proof. intros Hc HP db a db' Hdb. apply Hc. by apply HP. Qed.

Lemma triple_post {A} P (c : Op A) (Q Q' : A -> Registry -> Prop) : triple P c Q -> (forall a t, Q a t -> Q' a t) -> triple P c Q'.
Proof. intros Hc HQ db a db' Hdb Hrun. apply HQ. by eapply Hc. Qed.

(** A transaction has the effect of its body, or none. *)
Lemma transaction_cases {A} P (body : Op A) Q db r db' :
  triple P body Q -> P (db_tables db) -> transaction body db = (r, db') ->
  match r with Ok a => Q a (db_tables db') | Err _ => db_tables db' = db_tables db end.
Proof.
  intros Hbody HP. unfold transaction.
  assert (Hall : triple P (_ <-- read (fun _ => tt) ;; a <-- body ;; _ <-- read (fun _ => tt) ;; db_ret a) Q).
  { eapply triple_bind; [apply triple_read|]. intros u. eapply triple_bind; [by eapply triple_pre; [apply Hbody|intros t [_ ?]]|].
    intros a. eapply triple_bind; [apply triple_read|]. intros u'. eapply triple_post; [apply triple_ret|]. by intros b t [-> [_ ?]]. }
  destruct (db_bind _ _ db) as [[a|e] db1] eqn:Hrun; intros [= <- <-]; [|done]. by eapply Hall.
Qed.

Lemma triple_transaction {A} P (body : Op A) Q : triple P body Q -> triple P (transaction body) Q.
Proof. intros Hbody db a db' HP Hrun. by apply (transaction_cases P body Q) in Hrun. Qed.

(** ** The invariant *)

(** What a credential of a device stands for. *)
Definition backed (t : Registry) (d : DeviceRow) (c : CredentialRow) : Prop :=
  match cr_kind c with
  | ApiKey => exists k, rg_keys t !! cr_ref c = Some k /\ ak_user_id k = dv_user_id d /\ ak_device k = Some (dv_id d) /\
      exists komf, ak_permissions k = api_key_permissions_for (dv_kind d) komf
  | LiseurToken => exists k, rg_tokens t !! cr_ref c = Some k /\ tk_user_id k = dv_user_id d /\ tk_device_id k = dv_id d /\ tk_revoked_at k = None
  | Session_ => True
  end.

Definition names (c : CredentialRow) : DeviceCredentialKind * str := (cr_kind c, cr_ref c).

Record registry_ok (t : Registry) : Prop := {
  ok_ids : forall id d, rg_devices t !! id = Some d -> dv_id d = id;
  ok_backed : forall c, c ∈ rg_credentials t -> exists d, rg_devices t !! cr_device_id c = Some d /\ dv_revoked_at d = None /\ backed t d c;
  ok_unique : NoDup (names <$> rg_credentials t);
  ok_keys : forall ref_ k device_id, rg_keys t !! ref_ = Some k -> ak_device k = Some device_id ->
    exists c, c ∈ rg_credentials t /\ names c = (ApiKey, ref_) /\ cr_device_id c = device_id;
  ok_tokens : forall ref_ k, rg_tokens t !! ref_ = Some k -> tk_registered k = true -> tk_revoked_at k = None ->
    exists c, c ∈ rg_credentials t /\ names c = (LiseurToken, ref_) /\ cr_device_id c = tk_device_id k;
  ok_names : forall i j d d', rg_devices t !! i = Some d -> rg_devices t !! j = Some d' ->
    dv_user_id d = dv_user_id d' -> dv_name d = dv_name d' -> i = j;
}.

(** A device that was read before is still there, under whatever name; and live. *)
Definition known_device (t : Registry) (d : DeviceRow) : Prop :=
  exists d', rg_devices t !! dv_id d = Some d' /\ dv_user_id d' = dv_user_id d /\ dv_kind d' = dv_kind d.

Definition live_device (t : Registry) (d : DeviceRow) : Prop :=
  exists d', rg_devices t !! dv_id d = Some d' /\ dv_user_id d' = dv_user_id d /\ dv_kind d' = dv_kind d /\ dv_revoked_at d' = None.

Lemma live_known t d : live_device t d -> known_device t d.
Proof. intros (d' & ? & ? & ? & _). by exists d'. Qed.

Lemma fresh_name (credentials : list CredentialRow) kind ref_ :
  existsb (fun c => bool_decide (cr_kind c = kind) && bool_decide (cr_ref c = ref_)) credentials = false -> (kind, ref_) ∉ names <$> credentials.
Proof.
  intros Hno Hin. apply list_elem_of_fmap in Hin as (c & Heq & Hc). rewrite <- not_true_iff_false in Hno. apply Hno, existsb_exists.
  exists c. split; [by apply list_elem_of_In|]. injection Heq as -> ->. by rewrite !bool_decide_eq_true_2.
Qed.

(** A new key or token, and the credential for it, keep the tables in order. *)
Lemma add_key t d protocol ref_ k next komf :
  registry_ok t -> live_device t d -> rg_keys t !! ref_ = None -> (ApiKey, ref_) ∉ names <$> rg_credentials t ->
  ak_user_id k = dv_user_id d -> ak_device k = Some (dv_id d) -> ak_permissions k = api_key_permissions_for (dv_kind d) komf ->
  let c := {| cr_id := rg_next_credential t; cr_device_id := dv_id d; cr_protocol := protocol; cr_kind := ApiKey; cr_ref := ref_ |} in
  registry_ok (set_credentials (rg_credentials t ++ [c]) next (set_keys (<[ref_ := k]> (rg_keys t)) t)).
Proof.
  intros [Hids Hback Huniq Hkeys Htoks Hnames] (dd & Hd & Hdu & Hdk & Hlive) Hnew Hni Hu Hdev Hperm c. split; cbn.
  - done.
  - intros c' [Hc'|Hc'%list_elem_of_singleton]%elem_of_app.
    + destruct (Hback c' Hc') as (d' & Hd' & Hl' & Hb). exists d'. split_and!; [done..|]. unfold backed in *. cbn.
      destruct (cr_kind c') eqn:Hk; [|done|done]. rewrite lookup_insert_ne; [done|]. intros Heq. apply Hni.
      apply list_elem_of_fmap. exists c'. unfold names. by rewrite Hk, <- Heq.
    + subst c'. exists dd. split_and!; [done..|]. unfold backed. cbn. rewrite lookup_insert_eq, (Hids _ _ Hd), Hdu, ?Hdk. exists k. eauto.
  - rewrite fmap_app. apply NoDup_app. split_and!; [done| |apply NoDup_singleton]. intros x Hx Hx'%list_elem_of_singleton. by subst x.
  - intros r k' id. rewrite lookup_insert_Some. intros [[<- <-]|[Hne Hk']] Hid.
    + exists c. split_and!; [apply elem_of_app; right; by left|done|]. cbn. congruence.
    + destruct (Hkeys r k' id Hk' Hid) as (c' & Hc' & ? & ?). exists c'. split_and!; [apply elem_of_app; by left|done|done].
  - intros r k' Hk' Hreg Hrev. destruct (Htoks r k' Hk' Hreg Hrev) as (c' & Hc' & ? & ?). exists c'. split_and!; [apply elem_of_app; by left|done|done].
  - done.
Qed.

Lemma add_token t d protocol ref_ k next :
  registry_ok t -> live_device t d -> rg_tokens t !! ref_ = None -> (LiseurToken, ref_) ∉ names <$> rg_credentials t ->
  tk_user_id k = dv_user_id d -> tk_device_id k = dv_id d -> tk_revoked_at k = None ->
  let c := {| cr_id := rg_next_credential t; cr_device_id := dv_id d; cr_protocol := protocol; cr_kind := LiseurToken; cr_ref := ref_ |} in
  registry_ok (set_credentials (rg_credentials t ++ [c]) next (set_tokens (<[ref_ := k]> (rg_tokens t)) t)).
Proof.
  intros [Hids Hback Huniq Hkeys Htoks Hnames] (dd & Hd & Hdu & Hdk & Hlive) Hnew Hni Hu Hdev Hrev c. split; cbn.
  - done.
  - intros c' [Hc'|Hc'%list_elem_of_singleton]%elem_of_app.
    + destruct (Hback c' Hc') as (d' & Hd' & Hl' & Hb). exists d'. split_and!; [done..|]. unfold backed in *. cbn.
      destruct (cr_kind c') eqn:Hk; [done| |done]. rewrite lookup_insert_ne; [done|]. intros Heq. apply Hni.
      apply list_elem_of_fmap. exists c'. unfold names. by rewrite Hk, <- Heq.
    + subst c'. exists dd. split_and!; [done..|]. unfold backed. cbn. rewrite lookup_insert_eq, (Hids _ _ Hd), Hdu, ?Hdk. exists k. eauto.
  - rewrite fmap_app. apply NoDup_app. split_and!; [done| |apply NoDup_singleton]. intros x Hx Hx'%list_elem_of_singleton. by subst x.
  - intros r k' id Hk' Hid. destruct (Hkeys r k' id Hk' Hid) as (c' & Hc' & ? & ?). exists c'. split_and!; [apply elem_of_app; by left|done|done].
  - intros r k'. rewrite lookup_insert_Some. intros [[<- <-]|[Hne Hk']] Hreg Hrev'.
    + exists c. split_and!; [apply elem_of_app; right; by left|done|]. done.
    + destruct (Htoks r k' Hk' Hreg Hrev') as (c' & Hc' & ? & ?). exists c'. split_and!; [apply elem_of_app; by left|done|done].
  - done.
Qed.

Definition in_order (d : DeviceRow) (t : Registry) : Prop := registry_ok t /\ live_device t d.

(** The tables between the insertion of a key or token and that of its credential. *)
Definition half_minted (d : DeviceRow) (kind : DeviceCredentialKind) (ref_ : str) (t : Registry) : Prop :=
  exists t0, in_order d t0 /\
    match kind with
    | ApiKey => exists k komf, rg_keys t0 !! ref_ = None /\ ak_user_id k = dv_user_id d /\ ak_device k = Some (dv_id d) /\
        ak_permissions k = api_key_permissions_for (dv_kind d) komf /\ t = set_keys (<[ref_ := k]> (rg_keys t0)) t0
    | LiseurToken => exists k, rg_tokens t0 !! ref_ = None /\ tk_user_id k = dv_user_id d /\ tk_device_id k = dv_id d /\ tk_revoked_at k = None /\
        t = set_tokens (<[ref_ := k]> (rg_tokens t0)) t0
    | Session_ => False
    end.

Lemma mint_one_triple d komf kind : triple (in_order d) (mint_one d komf kind) (fun minted => half_minted d kind minted.1).
Proof.
  destruct kind; cbn [mint_one]; unfold mint_api_key, mint_token; [| |apply triple_err].
  - eapply triple_bind; [apply triple_draw|]. intros [ref_ secret].
    eapply triple_bind; [|intros u; eapply triple_post; [apply triple_ret|]; intros b t [-> Hhalf]; exact Hhalf].
    apply triple_stmt. intros t a t' Hok. destruct (rg_keys t !! ref_) eqn:Hnew; [done|]. intros [= <- <-].
    exists t. split; [done|]. exists {| ak_user_id := dv_user_id d; ak_name := dv_name d; ak_hash := hash_key secret;
      ak_permissions := api_key_permissions_for (dv_kind d) komf; ak_device := Some (dv_id d) |}, komf. done.
  - eapply triple_bind; [apply triple_draw|]. intros [ref_ secret].
    eapply triple_bind; [|intros u; eapply triple_post; [apply triple_ret|]; intros b t [-> Hhalf]; exact Hhalf].
    apply triple_stmt. intros t a t' Hok. destruct (rg_tokens t !! ref_) eqn:Hnew; [done|]. intros [= <- <-].
    exists t. split; [done|]. exists {| tk_user_id := dv_user_id d; tk_device_id := dv_id d; tk_hash := hash_secret secret; tk_name := dv_name d;
      tk_revoked_at := None; tk_registered := true |}. done.
Qed.

Lemma insert_credential_triple d protocol kind ref_ :
  triple (half_minted d kind ref_) (insert_credential (dv_id d) protocol kind ref_) (fun _ => in_order d).
Proof.
  apply triple_stmt. intros t a t' (t0 & [Hok Hlive] & Hkind). destruct (existsb _ _) eqn:Hno; [done|]. intros [= <- <-].
  apply fresh_name in Hno. destruct kind; [destruct Hkind as (k & komf & Hnew & Hu & Hd & Hp & ->)|destruct Hkind as (k & Hnew & Hu & Hd & Hr & ->)|done].
  - split; [by apply (add_key t0 d protocol ref_ k _ komf)|done].
  - split; [by apply (add_token t0 d protocol ref_ k)|done].
Qed.

Lemma mint_all_triple d komf specs : triple (in_order d) (mint_all d komf specs) (fun _ => in_order d).
Proof.
  induction specs as [|[kind protocol] specs IH]; cbn [mint_all].
  - eapply triple_post; [apply triple_ret|]. by intros ? ? [_ ?].
  - eapply triple_bind; [apply mint_one_triple|]. intros minted. eapply triple_bind; [apply insert_credential_triple|]. intros u.
    eapply triple_bind; [apply IH|]. intros rest. eapply triple_post; [apply triple_ret|]. by intros ? ? [_ ?].
Qed.

Lemma mint_credential_triple d komf : triple (in_order d) (mint_credential d komf) (fun _ => in_order d).
Proof.
  eapply triple_bind; [apply mint_all_triple|]. intros [|issued rest]; [apply triple_err|].
  eapply triple_post; [apply triple_ret|]. by intros ? ? [_ ?].
Qed.

(** ** Discarding *)

(** What discarding some credentials of a device does to the tables. *)
Record discarded (d : DeviceRow) (cs : list CredentialRow) (t t' : Registry) : Prop := {
  di_devices : rg_devices t' = rg_devices t;
  di_credentials : rg_credentials t' = rg_credentials t;
  di_keys : forall ref_, (ApiKey, ref_) ∉ names <$> cs -> rg_keys t' !! ref_ = rg_keys t !! ref_;
  di_keys_gone : forall ref_ k, (ApiKey, ref_) ∈ names <$> cs -> rg_keys t' !! ref_ = Some k -> ak_user_id k <> dv_user_id d;
  di_keys_old : forall ref_ k, rg_keys t' !! ref_ = Some k -> rg_keys t !! ref_ = Some k;
  di_tokens : forall ref_, (LiseurToken, ref_) ∉ names <$> cs -> rg_tokens t' !! ref_ = rg_tokens t !! ref_;
  di_tokens_gone : forall ref_ k, (LiseurToken, ref_) ∈ names <$> cs -> rg_tokens t' !! ref_ = Some k -> tk_revoked_at k <> None;
}.

Lemma discard_one_spec d now c t : discarded d [c] t (discard_one d now c t).
Proof.
  assert (Hone : forall kind ref_, (kind, ref_) ∈ names <$> [c] <-> cr_kind c = kind /\ cr_ref c = ref_).
  { intros kind ref_. cbn. rewrite list_elem_of_singleton. unfold names. naive_solver. }
  unfold discard_one. split.
  - repeat case_match; try case_bool_decide; done.
  - repeat case_match; try case_bool_decide; done.
  - intros r. rewrite Hone. intros Hno. repeat case_match; try case_bool_decide; try done. cbn. rewrite lookup_delete_ne; naive_solver.
  - intros r k. rewrite Hone. intros [-> <-]. destruct (rg_keys t !! cr_ref c) as [key|] eqn:Hkey; [|congruence].
    case_bool_decide; cbn; [by rewrite lookup_delete_eq|]. congruence.
  - intros r k. repeat case_match; try case_bool_decide; try done. cbn. rewrite lookup_delete_Some. by intros [_ ?].
  - intros r. rewrite Hone. intros Hno. repeat case_match; try case_bool_decide; try done. cbn. rewrite lookup_insert_ne; naive_solver.
  - intros r k. rewrite Hone. intros [-> <-]. destruct (rg_tokens t !! cr_ref c) as [token|] eqn:Htok; [|congruence].
    case_bool_decide; cbn; [rewrite lookup_insert_eq; by intros [= <-]|]. congruence.
Qed.

Lemma discarded_trans d cs cs' t t' t'' : discarded d cs t t' -> discarded d cs' t' t'' -> discarded d (cs ++ cs') t t''.
Proof.
  intros [D1 C1 K1 G1 O1 T1 R1] [D2 C2 K2 G2 O2 T2 R2]. split; [congruence|congruence|..]; intros r.
  - rewrite fmap_app, not_elem_of_app. intros [? ?]. rewrite K2, K1; done.
  - intros k. rewrite fmap_app. intros Hin Hk. destruct (decide ((ApiKey, r) ∈ names <$> cs')) as [Hin'|Hni]; [by eapply G2|].
    apply elem_of_app in Hin as [Hin|Hin]; [|done]. rewrite K2 in Hk by done. by eapply G1.
  - intros k Hk. by apply O1, O2.
  - rewrite fmap_app, not_elem_of_app. intros [? ?]. rewrite T2, T1; done.
  - intros k. rewrite fmap_app. intros Hin Hk. destruct (decide ((LiseurToken, r) ∈ names <$> cs')) as [Hin'|Hni]; [by eapply R2|].
    apply elem_of_app in Hin as [Hin|Hin]; [|done]. rewrite T2 in Hk by done. by eapply R1.
Qed.

Lemma discard_each_triple d now cs t0 : forall cs0,
  triple (discarded d cs0 t0) (discard_each d now cs) (fun _ => discarded d (cs0 ++ cs) t0).
Proof.
  induction cs as [|c cs IH]; intros cs0; cbn [discard_each].
  - rewrite app_nil_r. eapply triple_post; [apply triple_ret|]. by intros ? ? [_ ?].
  - rewrite cons_middle, app_assoc. eapply triple_bind; [|intros u; apply IH]. apply triple_stmt. intros t a t' Hd [= <- <-].
    eapply discarded_trans; [done|apply discard_one_spec].
Qed.

Definition without (device_id : str) (t : Registry) : Registry :=
  set_credentials (List.filter (fun c => negb (bool_decide (cr_device_id c = device_id))) (rg_credentials t)) (rg_next_credential t) t.

Lemma without_elem device_id t c : c ∈ rg_credentials (without device_id t) <-> c ∈ rg_credentials t /\ cr_device_id c <> device_id.
Proof.
  cbn. rewrite !list_elem_of_In, List.filter_In, negb_true_iff, bool_decide_eq_false. done.
Qed.

Lemma credentials_of_elem device_id t c : c ∈ credentials_of device_id t <-> c ∈ rg_credentials t /\ cr_device_id c = device_id.
Proof. unfold credentials_of. rewrite !list_elem_of_In, List.filter_In, bool_decide_eq_true. done. Qed.

Lemma filter_sublist {A} (p : A -> bool) l : List.filter p l `sublist_of` l.
Proof. induction l as [|a l IH]; cbn; [done|]. destruct (p a); by constructor. Qed.

(** Two credentials of the same name are one. *)
Lemma same_name t c c' : registry_ok t -> c ∈ rg_credentials t -> c' ∈ rg_credentials t -> names c = names c' -> c = c'.
Proof.
  intros Hok [i Hi]%list_elem_of_lookup [j Hj]%list_elem_of_lookup Hn.
  assert (i = j) as ->; [|congruence].
  apply (NoDup_lookup _ i j (names c) (ok_unique _ Hok)); rewrite list_lookup_fmap, ?Hi, ?Hj; cbn; congruence.
Qed.

(** Once its credentials are discarded a device has none, and the rest is in order. *)
Lemma discarded_ok d t t' :
  registry_ok t -> known_device t d -> discarded d (credentials_of (dv_id d) t) t t' -> registry_ok (without (dv_id d) t').
Proof.
  intros Hok (dd & Hd & Hdu & _) [Ddev Dcred Dk Dkg Dko Dt Dtg].
  assert (Hkept : forall c, c ∈ rg_credentials (without (dv_id d) t') -> c ∈ rg_credentials t /\ names c ∉ names <$> credentials_of (dv_id d) t).
  { intros c Hc. apply without_elem in Hc as [Hc Hne]. rewrite Dcred in Hc. split; [done|]. intros Hin.
    apply list_elem_of_fmap in Hin as (c' & Hn & [Hc' Heq]%credentials_of_elem). apply Hne. by rewrite (same_name t c c'). }
  assert (Hback : forall c, c ∈ rg_credentials t -> cr_device_id c <> dv_id d -> c ∈ rg_credentials (without (dv_id d) t')).
  { intros c Hc Hne. apply without_elem. by rewrite Dcred. }
  split; cbn -[rg_credentials without].
  - change (rg_devices (without (dv_id d) t')) with (rg_devices t'). rewrite Ddev. apply (ok_ids _ Hok).
  - intros c Hc. destruct (Hkept c Hc) as [Hc0 Hni]. destruct (ok_backed _ Hok c Hc0) as (d' & Hd' & Hl' & Hb). exists d'.
    split; [cbn; by rewrite Ddev|]. split; [done|]. unfold backed, names in *. destruct (cr_kind c); [|by rewrite Dt|done].
    cbn. by rewrite Dk.
  - eapply sublist_NoDup; [apply (ok_unique _ Hok)|].
    apply fmap_sublist. cbn. rewrite Dcred. apply filter_sublist.
  - intros r k id Hk Hdev. cbn in Hk. apply Dko in Hk as Hk0. destruct (ok_keys _ Hok r k id Hk0 Hdev) as (c & Hc & Hn & Hid).
    exists c. split; [|done]. apply Hback; [done|]. intros Heq.
    assert (Hin : (ApiKey, r) ∈ names <$> credentials_of (dv_id d) t).
    { apply list_elem_of_fmap. exists c. split; [done|]. by apply credentials_of_elem. }
    apply (Dkg r k Hin Hk). destruct (ok_backed _ Hok c Hc) as (d' & Hd' & _ & Hb). rewrite Heq, Hd in Hd'. injection Hd' as <-.
    unfold backed in Hb. injection Hn as Hkind Href. rewrite Hkind, Href in Hb. destruct Hb as (k' & Hk' & Hu & _). congruence.
  - intros r k Hk Hreg Hrev. cbn in Hk.
    destruct (decide ((LiseurToken, r) ∈ names <$> credentials_of (dv_id d) t)) as [Hin|Hni]; [by destruct (Dtg r k Hin Hk)|].
    rewrite Dt in Hk by done. destruct (ok_tokens _ Hok r k Hk Hreg Hrev) as (c & Hc & Hn & Hid). exists c. split; [|done].
    apply Hback; [done|]. intros Heq. apply Hni, list_elem_of_fmap. exists c. split; [done|]. by apply credentials_of_elem.
  - cbn. rewrite Ddev. apply (ok_names _ Hok).
Qed.

Lemma discard_credentials_triple d devices :
  triple (fun t => registry_ok t /\ known_device t d /\ rg_devices t = devices) (discard_credentials d)
    (fun _ t => registry_ok t /\ rg_devices t = devices /\ credentials_of (dv_id d) t = []).
Proof.
  eapply triple_bind; [apply triple_read|]. intros cs. eapply triple_bind; [apply triple_clock|]. intros now.
  intros db a db' (-> & Hok & Hknown & Hdevs) Hrun. set (t0 := db_tables db) in *.
  apply db_bind_cases in Hrun as [(e & _ & ?)|(u & db1 & Heach & Hrun)]; [done|].
  assert (Hrefl : discarded d [] t0 t0) by (split; try done; intros r k Hin; by apply not_elem_of_nil in Hin).
  apply (discard_each_triple d now _ t0 [] db u db1 Hrefl) in Heach as Hd.
  assert (Hw : db_tables db' = without (dv_id d) (db_tables db1)).
  { revert Hrun. apply (triple_stmt (fun t => t = db_tables db1) _ (fun _ t => t = without (dv_id d) (db_tables db1))); [|done].
    by intros t b t' -> [= <- <-]. }
  rewrite Hw. split; [by apply (discarded_ok d t0)|]. split.
  - cbn. by rewrite (di_devices _ _ _ _ Hd).
  - apply elem_of_nil_inv. intros c [Hc Heq]%credentials_of_elem. apply without_elem in Hc as [_ Hne]. done.
Qed.

(** Rotating the credentials of a device that still is live. *)
Lemma rotate_body_triple d komf :
  triple (in_order d) (_ <-- discard_credentials d ;; mint_credential d komf) (fun _ => registry_ok).
Proof.
  intros db a db' [Hok Hlive] Hrun. set (devices := rg_devices (db_tables db)).
  assert (Ht : triple (fun t => registry_ok t /\ known_device t d /\ rg_devices t = devices)
                 (_ <-- discard_credentials d ;; mint_credential d komf) (fun _ => registry_ok)).
  { eapply triple_bind; [apply discard_credentials_triple|]. intros u.
    eapply triple_post; [eapply triple_pre; [apply mint_credential_triple|]|by intros b t [? _]].
    intros t (Hok' & Hdevs & _). split; [done|]. destruct Hlive as (d' & Hd' & Hrest). exists d'. rewrite Hdevs. done. }
  eapply Ht; [|exact Hrun]. split_and!; [done|by apply live_known|done].
Qed.

(** Reading changes no table, whatever the outcome. *)
Definition keeps {A} (c : Op A) : Prop := forall db, db_tables (c db).2 = db_tables db.

Lemma keeps_db_bind {A B} (c : Op A) (k : A -> Op B) : keeps c -> (forall a, keeps (k a)) -> keeps (db_bind c k).
Proof. intros Hc Hk db. unfold db_bind. specialize (Hc db). destruct (c db) as [[a|e] db']; [|done]. cbn in Hc. by rewrite Hk. Qed.

Lemma keeps_db_ret {A} (a : A) : keeps (db_ret a).
Proof. done. Qed.

Lemma keeps_db_err {A} e : keeps (A := A) (db_err e).
Proof. done. Qed.

Lemma keeps_of {A} (r : result A DeviceError) : keeps (of_result r).
Proof. done. Qed.

Lemma keeps_read {A} (f : Registry -> A) : keeps (read f).
Proof. intros db. unfold read, stmt. by destruct (db_faults db) as [|[] faults]. Qed.

#[local] Hint Resolve keeps_db_ret keeps_db_err keeps_of keeps_read : core.

Lemma keeps_get user id : keeps (get user id).
Proof. by apply keeps_db_bind. Qed.

Lemma get_found user id db d db' : get user id db = (Ok d, db') -> rg_devices (db_tables db') !! id = Some d /\ db_tables db' = db_tables db.
Proof.
  intros Hg. pose proof (keeps_get user id db) as Hk. rewrite Hg in Hk. split; [|done].
  assert (Ht : triple (fun _ => True) (get user id) (fun d t => rg_devices t !! id = Some d)); [|by eapply Ht].
  eapply triple_bind; [apply triple_read|]. intros found. eapply triple_post; [apply triple_of|]. intros d' t [Hd [-> _]].
  destruct (rg_devices t !! id) as [d0|]; [|done]. cbn in Hd. by destruct (visible_to user d0); simplify_eq.
Qed.

Lemma rotate_read_found user issuance id db d komf db' :
  rotate_read user issuance id db = (Ok (d, komf), db') ->
  exists db1, get user id db = (Ok d, db1) /\ db_tables db' = db_tables db /\ dv_revoked_at d = None.
Proof.
  intros Hr. apply db_bind_cases in Hr as [(e & _ & ?)|(d0 & db1 & Hg & Hr)]; [done|].
  destruct (get_found _ _ _ _ _ Hg) as [Hd Ht].
  apply db_bind_cases in Hr as [(e & _ & ?)|([] & db2 & [= Ha <-] & Hr)]; [done|].
  destruct (bool_decide (dv_revoked_at d0 = None)) eqn:Hlive; [|done]. apply bool_decide_eq_true in Hlive. cbn in Hr.
  apply db_bind_cases in Hr as [(e & _ & ?)|(allow & db3 & Hk & Hr)]; [done|].
  assert (Hkeep : keeps (komf_metadata_editing_for_device d0)).
  { unfold komf_metadata_editing_for_device. destruct (negb (bool_decide (dv_kind d0 = Komelia))); [apply keeps_db_ret|]. apply keeps_db_bind; [apply keeps_read|]. intros cs.
    destruct (List.find _ cs); [|apply keeps_db_ret]. apply keeps_db_bind; [apply keeps_read|]. intros key. apply keeps_db_ret. }
  specialize (Hkeep db1). rewrite Hk in Hkeep. cbn in Hkeep. destruct (allow && _); [done|]. injection Hr as -> -> <-.
  exists db1. split_and!; [done|congruence|done].
Qed.

(** ** Renaming *)

Definition key_like (k k' : ApiKeyRow) : Prop := ak_user_id k = ak_user_id k' /\ ak_device k = ak_device k' /\ ak_permissions k = ak_permissions k'.

Definition token_like (k k' : TokenRow) : Prop :=
  tk_user_id k = tk_user_id k' /\ tk_device_id k = tk_device_id k' /\ tk_revoked_at k = tk_revoked_at k' /\ tk_registered k = tk_registered k'.

(** The same tables, but for the names of keys and tokens. *)
Definition named_alike (t t' : Registry) : Prop :=
  rg_devices t' = rg_devices t /\ rg_credentials t' = rg_credentials t /\
  (forall r, option_Forall2 key_like (rg_keys t !! r) (rg_keys t' !! r)) /\
  (forall r, option_Forall2 token_like (rg_tokens t !! r) (rg_tokens t' !! r)).

#[export] Instance key_like_equiv : Equivalence key_like.
Proof. unfold key_like. split; [done|intros k k'; naive_solver|]. intros k k' k'' (-> & -> & ->) (-> & -> & ->). done. Qed.

#[export] Instance token_like_equiv : Equivalence token_like.
Proof. unfold token_like. split; [done|intros k k'; naive_solver|]. intros k k' k'' (-> & -> & -> & ->) (-> & -> & -> & ->). done. Qed.

Lemma rename_one_alike d name c t : named_alike t (rename_one d name c t).
Proof.
  unfold rename_one. destruct (cr_kind c).
  - split_and!; [done|done| |done]. intros r. cbn. destruct (decide (cr_ref c = r)) as [<-|Hne].
    + rewrite lookup_alter_eq. destruct (rg_keys t !! cr_ref c); constructor. by case_bool_decide.
    + by rewrite lookup_alter_ne.
  - split_and!; [done|done|done|]. intros r. cbn. destruct (decide (cr_ref c = r)) as [<-|Hne].
    + rewrite lookup_alter_eq. by destruct (rg_tokens t !! cr_ref c); constructor.
    + by rewrite lookup_alter_ne.
  - done.
Qed.

Lemma named_alike_trans t t' t'' : named_alike t t' -> named_alike t' t'' -> named_alike t t''.
Proof.
  intros (D1 & C1 & K1 & T1) (D2 & C2 & K2 & T2). split_and!; [congruence|congruence| |]; intros r.
  - specialize (K1 r). specialize (K2 r). destruct K1; inversion K2; constructor. by etrans.
  - specialize (T1 r). specialize (T2 r). destruct T1; inversion T2; constructor. by etrans.
Qed.

Lemma named_alike_ok t t' : registry_ok t -> named_alike t t' -> registry_ok t'.
Proof.
  intros Hok (D & C & K & T). split; rewrite ?D, ?C; [apply (ok_ids _ Hok)| |apply (ok_unique _ Hok)| | |apply (ok_names _ Hok)].
  - intros c Hc. destruct (ok_backed _ Hok c Hc) as (d & Hd & Hl & Hb). exists d. split_and!; [done..|]. unfold backed in *.
    destruct (cr_kind c); [| |done].
    + destruct Hb as (k & Hk & Hu & Hdev & komf & Hp). pose proof (K (cr_ref c)) as HK. rewrite Hk in HK. inversion HK as [? k' (E1 & E2 & E3)|]; subst.
      exists k'. split_and!; [done|congruence|congruence|]. exists komf. congruence.
    + destruct Hb as (k & Hk & Hu & Hdev & Hr). pose proof (T (cr_ref c)) as HT. rewrite Hk in HT. inversion HT as [? k' (E1 & E2 & E3 & E4)|]; subst.
      exists k'. split_and!; [done|congruence|congruence|congruence].
  - intros r k' id Hk' Hdev. pose proof (K r) as HK. rewrite Hk' in HK. inversion HK as [k ? (E1 & E2 & E3) Hk|]; subst.
    apply (ok_keys _ Hok r k id); [done|congruence].
  - intros r k' Hk' Hreg Hrev. pose proof (T r) as HT. rewrite Hk' in HT. inversion HT as [k ? (E1 & E2 & E3 & E4) Hk|]; subst.
    destruct (ok_tokens _ Hok r k) as (c & ? & ? & ?); [done|congruence|congruence|]. exists c. split_and!; [done|done|congruence].
Qed.

Lemma rename_each_triple d name cs t0 : triple (named_alike t0) (rename_each d name cs) (fun _ => named_alike t0).
Proof.
  induction cs as [|c cs IH]; cbn [rename_each]; [eapply triple_post; [apply triple_ret|]; by intros ? ? [_ ?]|].
  eapply triple_bind; [|intros u; apply IH]. case_bool_decide; [eapply triple_post; [apply triple_ret|]; by intros ? ? [_ ?]|].
  apply triple_stmt. intros t a t' Ha [= <- <-]. eapply named_alike_trans; [done|apply rename_one_alike].
Qed.

(** A device row of the same account and kind, live if the old one was or without
    credentials, with a name of its own. *)
Lemma replace_device t d d' :
  registry_ok t -> rg_devices t !! dv_id d = Some d -> dv_id d' = dv_id d -> dv_user_id d' = dv_user_id d -> dv_kind d' = dv_kind d ->
  (dv_revoked_at d' = dv_revoked_at d \/ credentials_of (dv_id d) t = []) ->
  (dv_name d' = dv_name d \/ forall i o, rg_devices t !! i = Some o -> dv_user_id o = dv_user_id d -> dv_name o <> dv_name d') ->
  registry_ok (set_devices (<[dv_id d := d']> (rg_devices t)) t).
Proof.
  intros Hok Hd Hid Hu Hk Hlive Hname. split; cbn; [| |apply (ok_unique _ Hok)|apply (ok_keys _ Hok)|apply (ok_tokens _ Hok)|].
  - intros i o. rewrite lookup_insert_Some. intros [[<- <-]|[_ Ho]]; [done|by apply (ok_ids _ Hok)].
  - intros c Hc. destruct (ok_backed _ Hok c Hc) as (o & Ho & Hl & Hb). destruct (decide (cr_device_id c = dv_id d)) as [Heq|Hne].
    + rewrite Heq, Hd in Ho. injection Ho as <-. exists d'. rewrite Heq, lookup_insert_eq. split; [done|].
      destruct Hlive as [Hlive|Hnone]; [|exfalso; by apply (not_elem_of_nil c); rewrite <- Hnone; apply credentials_of_elem].
      split; [congruence|]. unfold backed in *. cbn. by rewrite Hid, Hu, Hk.
    + exists o. by rewrite lookup_insert_ne.
  - intros i j o o'. rewrite !lookup_insert_Some. intros [[<- <-]|[Hi Ho]] [[<- <-]|[Hj Ho']] Huo Hno; [done| | |by eapply (ok_names _ Hok)].
    + destruct Hname as [Hsame|Hnew]; [by eapply (ok_names _ Hok); [done|exact Ho'|congruence|congruence]|].
      exfalso. apply (Hnew j o' Ho'); congruence.
    + destruct Hname as [Hsame|Hnew]; [by eapply (ok_names _ Hok); [exact Ho|done|congruence|congruence]|].
      exfalso. apply (Hnew i o Ho); congruence.
Qed.

(** ** New devices *)

Lemma existing_name user_id t i o : rg_devices t !! i = Some o -> dv_user_id o = user_id -> dv_name o ∈ existing_names user_id t.
Proof.
  intros Ho Hu. apply elem_of_list_to_set, list_elem_of_fmap. exists o. split; [done|]. apply list_elem_of_In, List.filter_In.
  split; [|by apply bool_decide_eq_true_2]. apply list_elem_of_In, list_elem_of_fmap. exists (i, o). split; [done|]. by apply elem_of_map_to_list.
Qed.

Lemma shown_apart n m : 0 <= n -> 0 <= m -> show_nonneg n = show_nonneg m -> n = m.
Proof. intros Hn Hm Heq. destruct (show_nonneg_spec n Hn) as [_ H1], (show_nonneg_spec m Hm) as [_ H2]. congruence. Qed.

(** The numbers tried from [n] on. *)
Lemma number_from_new taken base : forall fuel n, 0 <= n ->
  (forall seen, seen ⊆ taken -> (forall x, x ∈ seen -> forall m, n <= m -> x <> base ++ lit " " ++ show_nonneg m) ->
     (size taken <= size seen + fuel)%nat -> number_from taken base n fuel ∉ taken).
Proof.
  induction fuel as [|fuel IH]; intros n Hn seen Hsub Hfree Hsize; cbn [number_from].
  - intros Hin. assert (Hext : {[base ++ lit " " ++ show_nonneg n]} ∪ seen ⊆ taken) by set_solver.
    apply subseteq_size in Hext. rewrite size_union in Hext; [rewrite size_singleton in Hext; lia|].
    apply disjoint_singleton_l. intros Hs. by apply (Hfree _ Hs n).
  - case_bool_decide as Hin; [|done]. apply (IH (n + 1) ltac:(lia) ({[base ++ lit " " ++ show_nonneg n]} ∪ seen)); [set_solver| |].
    + intros x [->%elem_of_singleton|Hx]%elem_of_union m Hm; [|by apply Hfree; [|lia]].
      intros Heq. apply app_inv_head in Heq. apply app_inv_head in Heq. apply shown_apart in Heq; lia.
    + rewrite size_union; [rewrite size_singleton; lia|]. apply disjoint_singleton_l. intros Hs. by apply (Hfree _ Hs n).
Qed.

(** A name is found, and nobody has it. *)
Lemma numbered_name_new taken base : numbered_name taken base ∉ taken.
Proof.
  unfold numbered_name. case_bool_decide; [|done]. apply (number_from_new taken base (size taken) 2 ltac:(lia) ∅); [set_solver..|lia].
Qed.

Lemma choose_name_triple user kind name (P : Registry -> Prop) :
  triple P (choose_name user kind name) (fun name t => P t /\ name ∉ existing_names (du_id user) t).
Proof.
  destruct name as [name|]; cbn [choose_name].
  - eapply triple_bind; [apply triple_of|]. intros valid. eapply triple_bind; [apply triple_read|]. intros taken.
    eapply triple_post; [apply triple_of|]. intros chosen t [Hc [-> [_ HP]]]. by case_bool_decide; simplify_eq.
  - eapply triple_bind; [apply triple_read|]. intros taken. eapply triple_post; [apply triple_ret|]. intros chosen t [-> [-> HP]].
    split; [done|]. apply numbered_name_new.
Qed.

Lemma insert_device_ok t d :
  registry_ok t -> rg_devices t !! dv_id d = None -> dv_name d ∉ existing_names (dv_user_id d) t ->
  registry_ok (set_devices (<[dv_id d := d]> (rg_devices t)) t).
Proof.
  intros Hok Hnew Hname. split; cbn; [| |apply (ok_unique _ Hok)|apply (ok_keys _ Hok)|apply (ok_tokens _ Hok)|].
  - intros i o. rewrite lookup_insert_Some. intros [[<- <-]|[_ Ho]]; [done|by apply (ok_ids _ Hok)].
  - intros c Hc. destruct (ok_backed _ Hok c Hc) as (o & Ho & Hl & Hb). exists o. split; [|done].
    rewrite lookup_insert_ne; [done|]. intros Heq. congruence.
  - intros i j o o'. rewrite !lookup_insert_Some. intros [[<- <-]|[Hi Ho]] [[<- <-]|[Hj Ho']] Huo Hno; [done| | |by eapply (ok_names _ Hok)].
    + exfalso. apply Hname. rewrite Hno. by apply (existing_name _ _ j).
    + exfalso. apply Hname. rewrite <- Hno. by apply (existing_name _ _ i).
Qed.

(** Creating a device needs its account to be allowed to, and leaves the tables in order. *)
Lemma create_triple user issuance kind name komf :
  triple registry_ok (create_device_in_transaction user issuance kind name komf)
    (fun created t => in_order created.1 t /\ dv_user_id created.1 = du_id user /\ dv_kind created.1 = kind /\
       authorize_credential_issuance kind issuance = Ok tt /\ authorize_creation user kind komf = Ok tt).
Proof.
  eapply triple_bind; [apply triple_of|]. intros []. eapply triple_bind; [apply triple_of|]. intros [].
  eapply triple_bind; [apply choose_name_triple|]. intros chosen. eapply triple_bind; [apply triple_draw|]. intros drawn.
  set (d := {| dv_id := drawn.1; dv_user_id := du_id user; dv_name := chosen; dv_kind := kind; dv_revoked_at := None |}).
  eapply triple_bind with (Q := fun _ t => in_order d t /\ authorize_credential_issuance kind issuance = Ok tt /\ authorize_creation user kind komf = Ok tt).
  - apply triple_stmt. intros t a t' [(Hauth & Hiss & Hok) Hname]. destruct (rg_devices t !! dv_id d) eqn:Hnew; [done|]. intros [= <- <-].
    split; [|done]. split; [by apply insert_device_ok|]. exists d. cbn. by rewrite lookup_insert_eq.
  - intros u db a db' [Hin Hauth] Hrun. apply db_bind_cases in Hrun as [(e & _ & ?)|(issued & db1 & Hmint & [= <- <-])]; [done|].
    cbn. split; [by eapply mint_credential_triple|]. done.
Qed.

(** ** Calls *)

Inductive RegistryCall :=
| CCreate (issuance : CredentialIssuance) (kind : DeviceKind) (name : option str) (allow_komf : bool)
| CRotate (issuance : CredentialIssuance) (device_id : str)
| CRevoke (device_id : str)
| CRename (device_id name : str).

Definition run_call (user : DeviceUser) (call : RegistryCall) (db : DeviceDb) : DeviceDb :=
  match call with
  | CCreate issuance kind name komf => (create_device user issuance kind name komf db).2
  | CRotate issuance id => (rotate_credential user issuance id db).2
  | CRevoke id => (revoke user id db).2
  | CRename id name => (rename user id name db).2
  end.

Lemma transaction_ok {A} P (body : Op A) db :
  triple P body (fun _ => registry_ok) -> P (db_tables db) -> registry_ok (db_tables db) -> registry_ok (db_tables (transaction body db).2).
Proof.
  intros Hbody HP Hok. destruct (transaction body db) as [r db'] eqn:Hrun. apply (transaction_cases P _ (fun _ => registry_ok)) in Hrun; [|done|done].
  destruct r; [done|]. cbn. by rewrite Hrun.
Qed.

Lemma keeps_rotate_read user issuance id : keeps (rotate_read user issuance id).
Proof.
  apply keeps_db_bind; [apply keeps_get|]. intros d. apply keeps_db_bind; [done|]. intros u. destruct (negb _); [apply keeps_db_err|].
  apply keeps_db_bind; [|intros allow; by destruct (allow && _)].
  unfold komf_metadata_editing_for_device. destruct (negb _); [apply keeps_db_ret|]. apply keeps_db_bind; [apply keeps_read|]. intros cs.
  destruct (List.find _ cs); [|apply keeps_db_ret]. apply keeps_db_bind; [apply keeps_read|]. intros key. apply keeps_db_ret.
Qed.

(** *** The transactions, run at any time after their device was read *)

Lemma rotate_write_ok d komf db :
  registry_ok (db_tables db) -> live_device (db_tables db) d -> registry_ok (db_tables (rotate_write d komf db).2).
Proof. intros Hok Hlive. by apply (transaction_ok (in_order d)); [apply rotate_body_triple|split|]. Qed.

Lemma revoke_write_ok d db :
  registry_ok (db_tables db) -> known_device (db_tables db) d -> registry_ok (db_tables (revoke_write d db).2).
Proof.
  intros Hok Hknown. set (devices := rg_devices (db_tables db)).
  apply (transaction_ok (fun t => registry_ok t /\ known_device t d /\ rg_devices t = devices)); [|done|done].
  eapply triple_bind; [apply discard_credentials_triple|]. intros u. eapply triple_bind; [apply triple_clock|]. intros now.
  apply triple_stmt. intros t a t' (Hok' & Hdevs & Hnone). destruct (rg_devices t !! dv_id d) as [d'|] eqn:Hd; [|done]. intros [= <- <-].
  pose proof (ok_ids _ Hok' _ _ Hd) as Hid. rewrite <- Hid in Hd, Hnone. rewrite <- Hid. apply (replace_device t d' (revoked_row now d')); try done; [by right|by left].
Qed.

Lemma rename_write_ok d name db :
  registry_ok (db_tables db) -> known_device (db_tables db) d -> name ∉ existing_names (dv_user_id d) (db_tables db) ->
  registry_ok (db_tables (rename_write d name db).2).
Proof.
  intros Hok (dd & Hdd & Hu & _) Hname. apply (transaction_ok (fun t => t = db_tables db)); [|done|done].
  eapply triple_bind; [apply triple_read|]. intros cs.
  eapply triple_bind; [eapply triple_pre; [apply (rename_each_triple d name cs (db_tables db))|by intros t [_ ->]]|]. intros u.
  apply triple_stmt. intros t a t' Halike. pose proof (named_alike_ok _ _ Hok Halike) as Hok'. destruct Halike as (Hdev & _).
  rewrite Hdev, Hdd. intros [= <- <-]. pose proof (ok_ids _ Hok _ _ Hdd) as Hid. rewrite <- Hdev, <- Hid.
  apply (replace_device t dd (renamed_row name dd)); try done; [by rewrite Hdev, Hid|by left|].
  right. intros i o Ho Huo Hn. apply Hname. cbn in Hn. rewrite <- Hn, <- Hu. apply (existing_name _ _ i); [by rewrite <- Hdev|done].
Qed.

(** *** Devices stay *)

(** What an operation does to the tables, whether it succeeds or fails. *)
Definition does {A} (R : Registry -> Registry -> Prop) (c : Op A) : Prop := forall db, R (db_tables db) (db_tables (c db).2).

Definition devices_stay (t t' : Registry) : Prop := forall id d, rg_devices t !! id = Some d ->
  exists d', rg_devices t' !! id = Some d' /\ dv_user_id d' = dv_user_id d /\ dv_kind d' = dv_kind d.

#[export] Instance devices_stay_order : PreOrder devices_stay.
Proof.
  split; [by intros t id d Hd; exists d|]. intros t1 t2 t3 S1 S2 id d Hd. destruct (S1 id d Hd) as (d1 & Hd1 & Eu & Ek).
  destruct (S2 id d1 Hd1) as (d2 & Hd2 & Eu2 & Ek2). exists d2. split_and!; [done|congruence|congruence].
Qed.

Lemma does_bind {A B} R (c : Op A) (k : A -> Op B) : PreOrder R -> does R c -> (forall a, does R (k a)) -> does R (db_bind c k).
Proof. intros HR Hc Hk db. unfold db_bind. specialize (Hc db). destruct (c db) as [[a|e] db']; [|done]. etrans; [exact Hc|apply Hk]. Qed.

Lemma does_keeps {A} R (c : Op A) : PreOrder R -> keeps c -> does R c.
Proof. intros HR Hc db. rewrite Hc. reflexivity. Qed.

Lemma does_stmt {A} R (run : Registry -> result (A * Registry) DeviceError) :
  PreOrder R -> (forall t a t', run t = Ok (a, t') -> R t t') -> does R (stmt run).
Proof.
  intros HR Hrun db. unfold stmt. destruct (db_faults db) as [|[] faults]; [|reflexivity|];
    (destruct (run (db_tables db)) as [[a t]|e] eqn:E; [by eapply Hrun|reflexivity]).
Qed.

Lemma does_transaction {A} R (body : Op A) : PreOrder R -> does R body -> does R (transaction body).
Proof.
  intros HR Hb db. unfold transaction.
  assert (Hall : does R (_ <-- read (fun _ => tt) ;; a <-- body ;; _ <-- read (fun _ => tt) ;; db_ret a)).
  { apply does_bind; [done|apply does_keeps; [done|apply keeps_read]|intros _]. apply does_bind; [done|done|intros a].
    apply does_bind; [done|apply does_keeps; [done|apply keeps_read]|intros _]. by apply does_keeps. }
  specialize (Hall db). destruct (db_bind _ _ db) as [[a|e] db']; [done|]. cbn. reflexivity.
Qed.

(** A statement that leaves the devices alone, or changes one of them. *)
Lemma same_devices_stay t t' : rg_devices t' = rg_devices t -> devices_stay t t'.
Proof. intros E id d Hd. exists d. by rewrite E. Qed.

Lemma discard_one_devices d now c t : rg_devices (discard_one d now c t) = rg_devices t.
Proof. apply (di_devices _ _ _ _ (discard_one_spec d now c t)). Qed.

Lemma rename_one_devices d name c t : rg_devices (rename_one d name c t) = rg_devices t.
Proof. apply (rename_one_alike d name c t). Qed.

Ltac walking :=
  repeat first
    [ match goal with
      | |- does _ (db_bind _ _) => apply does_bind; [apply _| |intros ?]
      | |- does _ (transaction _) => apply does_transaction; [apply _|]
      | |- does _ (read _) => apply does_keeps; [apply _|apply keeps_read]
      | |- does _ (of_result _) => apply does_keeps; [apply _|apply keeps_of]
      | |- does _ (db_ret _) => apply does_keeps; [apply _|apply keeps_db_ret]
      | |- does _ (db_err _) => apply does_keeps; [apply _|apply keeps_db_err]
      | |- does _ clock => by apply does_keeps; [apply _|]
      | |- does _ draw => by apply does_keeps; [apply _|]
      | |- does _ (let '(_, _) := ?x in _) => destruct x
      | |- does _ (match ?x with _ => _ end) => destruct x
      | |- does _ (write _) => apply does_stmt; [apply _|]; intros t0 ? ? [= <- <-]
      | |- does _ (stmt _) => apply does_stmt; [apply _|]; intros t0 ? ? E0
      end ].

Lemma discard_stays d : does devices_stay (discard_credentials d).
Proof.
  unfold discard_credentials. walking; [|by apply same_devices_stay].
  match goal with |- does _ (discard_each _ _ ?cs) => induction cs as [|c cs IH]; cbn [discard_each]; walking; [|exact IH] end.
  apply same_devices_stay, discard_one_devices.
Qed.

Lemma mint_one_stays d komf kind : does devices_stay (mint_one d komf kind).
Proof.
  unfold mint_one, mint_api_key, mint_token. destruct kind; walking; destruct (_ !! _); simplify_eq; by apply same_devices_stay.
Qed.

Lemma insert_credential_stays id protocol kind ref_ : does devices_stay (insert_credential id protocol kind ref_).
Proof. unfold insert_credential. walking. destruct (existsb _ _); simplify_eq. by apply same_devices_stay. Qed.

Lemma insert_device_stays d : does devices_stay (insert_device d).
Proof.
  unfold insert_device. walking. destruct (rg_devices t0 !! dv_id d) eqn:Hd; [done|]. injection E0 as <- <-.
  intros i o Ho. exists o. cbn. rewrite lookup_insert_ne; [done|congruence].
Qed.

Lemma mint_stays d komf : does devices_stay (mint_credential d komf).
Proof.
  unfold mint_credential. walking. generalize (credential_specs (dv_kind d)). intros specs.
  induction specs as [|[kind protocol] specs IH]; cbn [mint_all]; walking; [apply mint_one_stays|apply insert_credential_stays|exact IH].
Qed.

Lemma rotate_stays d komf : does devices_stay (rotate_write d komf).
Proof. unfold rotate_write. walking; [apply discard_stays|apply mint_stays]. Qed.

(** One device row is written over, with its account and kind. *)
Lemma replaced_stay t (d d' : DeviceRow) (id : str) :
  rg_devices t !! id = Some d -> dv_user_id d' = dv_user_id d -> dv_kind d' = dv_kind d ->
  devices_stay t (set_devices (<[id := d']> (rg_devices t)) t).
Proof.
  intros Hd Hu Hk i o Ho. cbn. destruct (decide (i = id)) as [->|Hne].
  - rewrite Hd in Ho. injection Ho as <-. exists d'. by rewrite lookup_insert_eq.
  - exists o. by rewrite lookup_insert_ne.
Qed.

Lemma revoke_stays d : does devices_stay (revoke_write d).
Proof.
  unfold revoke_write. walking; [apply discard_stays|]. destruct (rg_devices t0 !! dv_id d) as [d0|] eqn:Hd; [|done].
  injection E0 as <- <-. by apply (replaced_stay t0 d0).
Qed.

Lemma rename_stays d name : does devices_stay (rename_write d name).
Proof.
  unfold rename_write. walking.
  - match goal with |- does _ (rename_each _ _ ?cs) => induction cs as [|c cs IH]; cbn [rename_each]; walking; [|exact IH] end.
    apply same_devices_stay, rename_one_devices.
  - destruct (rg_devices t0 !! dv_id d) as [d0|] eqn:Hd; [|done]. injection E0 as <- <-. by apply (replaced_stay t0 d0).
Qed.

Lemma create_stays user issuance kind name komf : does devices_stay (create_device user issuance kind name komf).
Proof.
  unfold create_device, create_device_in_transaction, choose_name. walking; first [apply mint_stays|apply insert_device_stays].
Qed.

(** ** Every interleaving *)

(** The operations in their parts: devices are read, and transactions run for devices that
    were read at any earlier time, whatever else was read in between.  A rotation runs on a
    device that is still live, and a renaming gives a name that still is free; time and the
    world go on. *)
Inductive registry_step : DeviceDb * list DeviceRow -> DeviceDb * list DeviceRow -> Prop :=
| rs_create db seen user issuance kind name komf :
    registry_step (db, seen) ((create_device user issuance kind name komf db).2, seen)
| rs_get db seen user id d db' :
    get user id db = (Ok d, db') -> registry_step (db, seen) (db', d :: seen)
| rs_rotate db seen d komf :
    d ∈ seen -> (exists d', rg_devices (db_tables db) !! dv_id d = Some d' /\ dv_revoked_at d' = None) ->
    registry_step (db, seen) ((rotate_write d komf db).2, seen)
| rs_revoke db seen d :
    d ∈ seen -> registry_step (db, seen) ((revoke_write d db).2, seen)
| rs_rename db seen d name :
    d ∈ seen -> name ∉ existing_names (dv_user_id d) (db_tables db) ->
    registry_step (db, seen) ((rename_write d name db).2, seen)
| rs_world db db' seen :
    db_tables db' = db_tables db -> registry_step (db, seen) (db', seen).

Definition seen_ok (t : Registry) (seen : list DeviceRow) : Prop := forall d, d ∈ seen -> known_device t d.

Lemma seen_stays t t' seen : devices_stay t t' -> seen_ok t seen -> seen_ok t' seen.
Proof.
  intros Hs Hseen d Hd. destruct (Hseen d Hd) as (d1 & Hd1 & Eu & Ek). destruct (Hs _ _ Hd1) as (d2 & Hd2 & Eu2 & Ek2).
  exists d2. split_and!; [done|congruence|congruence].
Qed.

Lemma registry_step_ok x y :
  registry_step x y -> registry_ok (db_tables x.1) -> seen_ok (db_tables x.1) x.2 ->
  registry_ok (db_tables y.1) /\ seen_ok (db_tables y.1) y.2.
Proof.
  intros Hstep Hok Hseen. destruct Hstep as [db seen user issuance kind name komf|db seen user id d db' Hg|db seen d komf Hin (d' & Hd' & Hl)
    |db seen d Hin|db seen d name Hin Hfree|db db' seen Ht]; cbn [fst snd] in *.
  - split; [|eapply seen_stays; [apply create_stays|done]].
    apply (transaction_ok registry_ok); [|done|done]. eapply triple_post; [apply create_triple|]. by intros a t [[? _] _].
  - destruct (get_found _ _ _ _ _ Hg) as [Hd Ht]. rewrite Ht in *. split; [done|]. intros e [->|He]%elem_of_cons; [|by apply Hseen].
    exists d. by rewrite (ok_ids _ Hok _ _ Hd).
  - split; [|eapply seen_stays; [apply rotate_stays|done]]. apply rotate_write_ok; [done|].
    destruct (Hseen d Hin) as (d1 & Hd1 & Hu & Hk). exists d1. split_and!; [done..|congruence].
  - split; [|eapply seen_stays; [apply revoke_stays|done]]. by apply revoke_write_ok; [|apply Hseen].
  - split; [|eapply seen_stays; [apply rename_stays|done]]. by apply rename_write_ok; [|apply Hseen|].
  - by rewrite Ht.
Qed.

Lemma registry_steps_ok x y :
  rtc registry_step x y -> registry_ok (db_tables x.1) -> seen_ok (db_tables x.1) x.2 ->
  registry_ok (db_tables y.1) /\ seen_ok (db_tables y.1) y.2.
Proof. induction 1 as [|x y z Hs _ IH]; [done|]. intros Hok Hseen. destruct (registry_step_ok _ _ Hs Hok Hseen). by apply IH. Qed.

(** *** A call that runs alone *)

Lemma get_steps user id db seen :
  match get user id db with
  | (Ok d, db') => rtc registry_step (db, seen) (db', d :: seen) /\ rg_devices (db_tables db') !! id = Some d
  | (Err e, db') => rtc registry_step (db, seen) (db', seen)
  end.
Proof.
  pose proof (keeps_get user id db) as Hk. destruct (get user id db) as [[d|e] db'] eqn:Hg; cbn in Hk.
  - split; [by eapply rtc_once, rs_get|]. apply (get_found _ _ _ _ _ Hg).
  - by apply rtc_once, rs_world.
Qed.

Lemma run_call_steps user call db seen :
  registry_ok (db_tables db) -> exists seen', rtc registry_step (db, seen) (run_call user call db, seen').
Proof.
  intros Hok. destruct call as [issuance kind name komf|issuance id|id|id name]; cbn [run_call].
  - exists seen. apply rtc_once, rs_create.
  - unfold rotate_credential. pose proof (keeps_rotate_read user issuance id db) as Hk.
    destruct (rotate_read user issuance id db) as [[[d komf]|e] db1] eqn:Hr; cbn in Hk.
    2: { rewrite (db_bind_fail _ _ _ _ _ Hr). exists seen. by apply rtc_once, rs_world. }
    rewrite (db_bind_run _ _ _ _ _ Hr). cbn [fst snd]. destruct (rotate_read_found _ _ _ _ _ _ _ Hr) as (db2 & Hg & Ht & Hlive).
    destruct (get_found _ _ _ _ _ Hg) as [Hd Ht2]. exists (d :: seen).
    eapply rtc_l; [by eapply rs_get|]. eapply rtc_l; [apply (rs_world db2 db1); congruence|]. apply rtc_once, rs_rotate; [by left|].
    exists d. rewrite Ht2 in Hd. rewrite (ok_ids _ Hok _ _ Hd), Ht. done.
  - unfold revoke. pose proof (get_steps user id db seen) as Hs. destruct (get user id db) as [[d|e] db1] eqn:Hg.
    2: { rewrite (db_bind_fail _ _ _ _ _ Hg). by exists seen. }
    rewrite (db_bind_run _ _ _ _ _ Hg). destruct Hs as [Hs _]. exists (d :: seen). destruct (negb _); [done|].
    eapply rtc_r; [exact Hs|]. apply rs_revoke. by left.
  - unfold rename. pose proof (get_steps user id db seen) as Hs. destruct (get user id db) as [[d|e] db1] eqn:Hg.
    2: { rewrite (db_bind_fail _ _ _ _ _ Hg). by exists seen. }
    rewrite (db_bind_run _ _ _ _ _ Hg). destruct Hs as [Hs _]. exists (d :: seen).
    unfold of_result, db_bind at 1. destruct (validate_name name) as [valid|e]; [|done]. case_bool_decide; [done|].
    pose proof (keeps_read (existing_names (dv_user_id d)) db1) as Hk2.
    destruct (read (existing_names (dv_user_id d)) db1) as [[taken|e] db2] eqn:Hread; cbn in Hk2.
    2: { rewrite (db_bind_fail _ _ _ _ _ Hread). eapply rtc_r; [exact Hs|]. by apply rs_world. }
    rewrite (db_bind_run _ _ _ _ _ Hread).
    assert (Hs2 : rtc registry_step (db, seen) (db2, d :: seen)) by (eapply rtc_r; [exact Hs|]; by apply rs_world).
    case_bool_decide as Htaken; [done|]. eapply rtc_r; [exact Hs2|]. apply rs_rename; [by left|].
    destruct (triple_read (fun _ => True) (existing_names (dv_user_id d)) db1 taken db2) as [-> _]; done.
Qed.

Definition run_calls (calls : list (DeviceUser * RegistryCall)) (db : DeviceDb) : DeviceDb :=
  foldl (fun db c => run_call c.1 c.2 db) db calls.

Lemma run_calls_steps calls : forall db seen, registry_ok (db_tables db) -> seen_ok (db_tables db) seen ->
  exists seen', rtc registry_step (db, seen) (run_calls calls db, seen').
Proof.
  unfold run_calls. induction calls as [|c calls IH]; intros db seen Hok Hseen; cbn; [by exists seen|].
  destruct (run_call_steps c.1 c.2 db seen Hok) as [seen1 Hs]. destruct (registry_steps_ok _ _ Hs Hok Hseen) as [Hok1 Hseen1].
  destruct (IH _ _ Hok1 Hseen1) as [seen2 Hs2]. exists seen2. by etrans.
Qed.

(** C20. The registry of devices.  However the reads and the transactions of calls
    interleave and whichever statements fail, as long as no rotation's transaction runs on a
    device that was revoked since the rotation read it, and no renaming's gives a name that
    was taken since it looked: every credential belongs to one device that is there and not
    revoked; a key among them is in the table of keys, belongs to the account of the device
    and may do what the kind of the device allows; a token among them is its account's and
    not revoked; every key and every token that was minted for a device is one of its
    credentials, unless it is revoked; so nothing minted for a revoked device is left; and no
    account has two devices of one name.  Calls that run one after the other are such
    interleavings.  [rotation_revives_revoked] and [rename_takes_taken_name] show that the
    code does not prevent the two races. *)
Theorem registry_well_formed db0 :
  registry_ok (db_tables db0) ->
  (forall calls, exists seen, rtc registry_step (db0, []) (run_calls calls db0, seen)) /\
  forall db seen, rtc registry_step (db0, []) (db, seen) ->
    let t := db_tables db in
    registry_ok t /\
    (forall id d, rg_devices t !! id = Some d -> dv_revoked_at d <> None ->
       (forall c, c ∈ rg_credentials t -> cr_device_id c <> id) /\
       (forall ref_ k, rg_keys t !! ref_ = Some k -> ak_device k <> Some id) /\
       (forall ref_ k, rg_tokens t !! ref_ = Some k -> tk_registered k = true -> tk_device_id k = id -> tk_revoked_at k <> None)).
Proof.
  intros Hok. assert (Hnil : seen_ok (db_tables db0) []) by (intros d Hd; by apply elem_of_nil in Hd).
  split; [intros calls; by apply run_calls_steps|]. intros db seen Hsteps. cbn zeta.
  destruct (registry_steps_ok _ _ Hsteps Hok Hnil) as [Hok' _]. cbn in Hok'. split; [done|]. intros id d Hd Hrev.
  assert (Hnone : forall c, c ∈ rg_credentials (db_tables db) -> cr_device_id c <> id).
  { intros c Hc Heq. destruct (ok_backed _ Hok' c Hc) as (d' & Hd' & Hl & _). congruence. }
  split_and!; [done| |].
  - intros r k Hk Hdev. destruct (ok_keys _ Hok' r k id Hk Hdev) as (c & Hc & _ & Heq). by apply (Hnone c).
  - intros r k Hk Hreg Hdev Hr. destruct (ok_tokens _ Hok' r k Hk Hreg Hr) as (c & Hc & _ & Heq). apply (Hnone c Hc). congruence.
Qed.

End registry.

(** ** Examples *)

#[local] Instance sample_hashing : Hashing := {| hash_key := fun s => s; hash_secret := fun s => s |}.

Definition empty_registry : Registry :=
  {| rg_devices := ∅; rg_keys := ∅; rg_tokens := ∅; rg_sessions := ∅; rg_credentials := []; rg_next_credential := 1 |}.

Definition owner : DeviceUser := {| du_id := lit "u"; du_username := lit "al"; du_auth := {| is_server_owner := true; permissions := [] |} |}.

Definition sample_registry : DeviceDb :=
  {| db_tables := empty_registry; db_faults := []; db_now := 7;
     db_draws := [(lit "d1", []); (lit "k1", lit "s1"); (lit "k2", lit "s2"); (lit "k3", lit "s3")] |}.

Lemma empty_registry_ok : registry_ok empty_registry.
Proof. split; cbn; try done; [|constructor]. intros c Hc. by apply not_elem_of_nil in Hc. Qed.

Definition sample_calls : list (DeviceUser * RegistryCall) :=
  [(owner, CCreate InteractiveSession Kobo None false); (owner, CRotate InteractiveSession (lit "d1")); (owner, CRevoke (lit "d1"))].

Lemma registry_well_formed_witness :
  registry_ok (db_tables (run_calls sample_calls sample_registry)) /\
  rg_credentials (db_tables (run_calls sample_calls sample_registry)) = [].
Proof.
  split; [|vm_compute; reflexivity]. destruct (registry_well_formed sample_registry empty_registry_ok) as [Hcalls Hall].
  destruct (Hcalls sample_calls) as [seen Hsteps]. exact (proj1 (Hall _ _ Hsteps)).
Defined.

(** A rotation reads the device before its transaction.  When the device is revoked in
    between, the transaction mints a new key for it. *)
Example rotation_revives_revoked :
  let db1 := run_call owner (CCreate InteractiveSession Kobo None false) sample_registry in
  match rotate_read owner InteractiveSession (lit "d1") db1 with
  | (Ok (device, komf), db2) =>
      let db3 := run_call owner (CRevoke (lit "d1")) db2 in
      let '(outcome, db4) := rotate_write device komf db3 in
      is_ok outcome = true /\
      (fun d => is_none (dv_revoked_at d)) <$> rg_devices (db_tables db4) !! lit "d1" = Some false /\
      ak_device <$> rg_keys (db_tables db4) !! lit "k2" = Some (Some (lit "d1"))
  | _ => False
  end.
Proof. vm_compute. split_and!; reflexivity. Qed.

(** A renaming looks for the name before its transaction.  When a device of that name is
    made in between, the account has two devices of one name. *)
Example rename_takes_taken_name :
  let db1 := run_call owner (CCreate InteractiveSession Kobo (Some (lit "a")) false)
    {| db_tables := empty_registry; db_faults := []; db_now := 7;
       db_draws := [(lit "d1", []); (lit "k1", lit "s1"); (lit "d2", []); (lit "k2", lit "s2")] |} in
  match get owner (lit "d1") db1 with
  | (Ok device, db2) =>
      bool_decide (lit "b" ∈ existing_names (lit "u") (db_tables db2)) = false /\
      let db3 := run_call owner (CCreate InteractiveSession Kobo (Some (lit "b")) false) db2 in
      let db4 := (rename_write device (lit "b") db3).2 in
      (fun d => (dv_user_id d, dv_name d)) <$> (map_to_list (rg_devices (db_tables db4))).*2 =
        [(lit "u", lit "b"); (lit "u", lit "b")]
  | _ => False
  end.
Proof. vm_compute. split; reflexivity. Qed.
