(* ===== verification/DevicePairing.v ===== *)
(** * Pairing a device

    Models [src/apps/server/src/routers/api/v2/device_pairing.rs], the mutations of
    [src/crates/graphql/src/mutation/device_pairing.rs] and the table of
    [src/crates/models/src/entity/device_pairing.rs], and the part of the deletion of an
    account ([delete_user_account] of [src/crates/graphql/src/mutation/user.rs], without
    [hard_delete]) that concerns devices: a device without credentials asks to be paired, an
    account approves it with the code or the nonce the device shows, and the next poll of the
    device gets the credentials that [Devices] mints for that account.

    Requests interleave: a task is a request that is under way, and a step runs one of its
    statements or its transaction, which may fail; accounts change at any time.  Ghost
    tables record what was approved and what was minted.  Hashing of codes is the class
    [Bcrypt]; QR codes, endpoints and events are left out. *)

From stdpp Require Import base gmap list strings sorting.
From Stdlib Require Import ZArith Lia.
From S2P Require Import Prelude Permissions Devices.

#[local] Open Scope Z_scope.
#[local] Open Scope coppice_scope.

Definition PAIRING_TTL_SECS : Z := 5 * 60.
Definition MAX_FAILED_ATTEMPTS : Z := 5.
Definition MAX_PENDING_PER_IP : Z := 10.
Definition MAX_NAME_LEN : Z := 100.

Inductive DevicePairingStatus := Pending | Approved | Denied | Expired.

#[export] Instance DevicePairingStatus_eq_dec : EqDecision DevicePairingStatus.
Proof. solve_decision. Defined.

Record PairingRow := {
  pa_id : str;
  pa_kind : DeviceKind;
  pa_name : option str;
  pa_code_hash : str;
  pa_nonce : str;
  pa_remote_ip : str;
  pa_user_id : option str;
  pa_status : DevicePairingStatus;
  pa_failed_attempts : Z;
  pa_credential_issued : bool;
  pa_allow_komf : bool;
  pa_created_at : Z;
  pa_expires_at : Z;
  pa_approved_at : option Z;
}.

Definition is_expired_at (p : PairingRow) (now : Z) : bool := pa_expires_at p <=? now.

Definition effective_status (p : PairingRow) (now : Z) : DevicePairingStatus :=
  match pa_status p with Pending => if is_expired_at p now then Expired else Pending | status => status end.

(** Updates of a row. *)
Definition set_state (status : DevicePairingStatus) (user_id : option str) (p : PairingRow) : PairingRow :=
  {| pa_id := pa_id p; pa_kind := pa_kind p; pa_name := pa_name p; pa_code_hash := pa_code_hash p; pa_nonce := pa_nonce p;
     pa_remote_ip := pa_remote_ip p; pa_user_id := user_id; pa_status := status; pa_failed_attempts := pa_failed_attempts p;
     pa_credential_issued := pa_credential_issued p; pa_allow_komf := pa_allow_komf p; pa_created_at := pa_created_at p;
     pa_expires_at := pa_expires_at p; pa_approved_at := pa_approved_at p |}.

Definition set_grant (allow_komf : bool) (approved_at : option Z) (p : PairingRow) : PairingRow :=
  {| pa_id := pa_id p; pa_kind := pa_kind p; pa_name := pa_name p; pa_code_hash := pa_code_hash p; pa_nonce := pa_nonce p;
     pa_remote_ip := pa_remote_ip p; pa_user_id := pa_user_id p; pa_status := pa_status p; pa_failed_attempts := pa_failed_attempts p;
     pa_credential_issued := pa_credential_issued p; pa_allow_komf := allow_komf; pa_created_at := pa_created_at p;
     pa_expires_at := pa_expires_at p; pa_approved_at := approved_at |}.

Definition set_issued (issued : bool) (p : PairingRow) : PairingRow :=
  {| pa_id := pa_id p; pa_kind := pa_kind p; pa_name := pa_name p; pa_code_hash := pa_code_hash p; pa_nonce := pa_nonce p;
     pa_remote_ip := pa_remote_ip p; pa_user_id := pa_user_id p; pa_status := pa_status p; pa_failed_attempts := pa_failed_attempts p;
     pa_credential_issued := issued; pa_allow_komf := pa_allow_komf p; pa_created_at := pa_created_at p;
     pa_expires_at := pa_expires_at p; pa_approved_at := pa_approved_at p |}.

Definition set_failed (failed : Z) (p : PairingRow) : PairingRow :=
  {| pa_id := pa_id p; pa_kind := pa_kind p; pa_name := pa_name p; pa_code_hash := pa_code_hash p; pa_nonce := pa_nonce p;
     pa_remote_ip := pa_remote_ip p; pa_user_id := pa_user_id p; pa_status := pa_status p; pa_failed_attempts := failed;
     pa_credential_issued := pa_credential_issued p; pa_allow_komf := pa_allow_komf p; pa_created_at := pa_created_at p;
     pa_expires_at := pa_expires_at p; pa_approved_at := pa_approved_at p |}.

Record Account := { ac_user : DeviceUser; ac_deleted : bool; ac_locked : bool }.

(** Who sends a mutation, and by what authority. *)
Record Requester := { rq_user : DeviceUser; rq_locked : bool; rq_issuance : CredentialIssuance }.

(** An approval that is to be written: of which pairing, by whom, with which proof, whether
    metadata editing is granted, and when the pairing was read. *)
Inductive Proof_ := ByCode (code : str) | ByNonce (nonce : str).

Record Approval := { ap_pairing : str; ap_by : Requester; ap_proof : Proof_; ap_allow_komf : bool; ap_at : Z }.

(** A credential set that was minted: for which pairing, account and device. *)
Record Mint := { mi_pairing : str; mi_user_id : str; mi_device : DeviceRow }.

Record PairingDb := {
  pd_pairings : gmap str PairingRow;
  pd_accounts : gmap str Account;
  pd_registry : DeviceDb;
  pd_approvals : list Approval;
  pd_mints : list Mint;
}.

Definition put_pairings (rows : gmap str PairingRow) (db : PairingDb) : PairingDb :=
  {| pd_pairings := rows; pd_accounts := pd_accounts db; pd_registry := pd_registry db; pd_approvals := pd_approvals db; pd_mints := pd_mints db |}.

(** ** Requests *)

Inductive PairingError :=
| PDatabase | PNotFound | PBadName | PTooMany | PRandom | PForbidden | PHash | PDevice (e : DeviceError) | PExpired | PAlreadyApproved | PDenied
| PNotKomelia | PMissing (missing : list UserPermission) | PProofShape | PWrong (remaining : Z) | PSpent | PNotPending.

Inductive PairingAnswer :=
| PErr (e : PairingError)
| PStarted (id code nonce : str) (expires_at : Z)
| PBare (status : DevicePairingStatus)
| PIssued (id nonce : str) (device : DeviceRow) (username : str) (credentials : list IssuedCredential)
| PRow (row : PairingRow).

Inductive PairingTask :=
| StartCount (kind : DeviceKind) (name : option str) (remote_ip : str)
| StartInsert (kind : DeviceKind) (name : option str) (remote_ip code nonce code_hash : str)
| PollRead (id nonce : str)
| PollExpire (id : str)
| PollClaim (id nonce : str)
| PollIssue (id nonce : str)
| PollRollback (id : str) (e : DeviceError)
| PollRelease (id : str) (e : DeviceError)
| ApproveLoad (rq : Requester) (id : str) (code nonce : option str) (allow_komf : bool)
| ExpireThenRefuse (id : str)
| ApproveCount (rq : Requester) (row : PairingRow)
| ApproveRecount (rq : Requester) (row : PairingRow)
| ApproveDeny (rq : Requester) (id : str)
| ApproveWrite (approval : Approval)
| Reload (id : str)
| DenyLoad (rq : Requester) (id : str)
| DenyWrite (rq : Requester) (id : str)
| Answered (answer : PairingAnswer).

(** What the world decides about a step: the time, whether its statement fails, and what is
    drawn. *)
Record Choice := { ch_now : Z; ch_fault : bool; ch_raw : list Z; ch_id : str; ch_nonce : str; ch_salt : Z; ch_registry : list bool; ch_draws : list (str * str) }.

Class Bcrypt := { verify : str -> str -> option bool; hash_password : Z -> str -> option str }.

Section pairing.
Context `{Bcrypt} `{Hashing}.

Definition normalize_name (name : option str) : result (option str) PairingError :=
  match name with
  | None => Ok None
  | Some name =>
      let trimmed := trim name in
      if bool_decide (trimmed = []) then Ok None
      else if MAX_NAME_LEN <? Z.of_nat (length trimmed) then Err PBadName
      else Ok (Some trimmed)
  end.

Definition CODE_SPACE : Z := 1000000.
Definition CODE_LIMIT : Z := 4294967295 - 4294967295 mod CODE_SPACE.

Definition padded (width : nat) (n : Z) : str := let s := show_nonneg n in replicate (width - length s) 48 ++ s.

(** Draws of 32 bits until one is below the limit; the generator may fail. *)
Fixpoint generate_code (raw : list Z) : option str :=
  match raw with
  | [] => None
  | r :: raw => if r <? CODE_LIMIT then Some (padded 6 (r mod CODE_SPACE)) else generate_code raw
  end.

Definition guard (rq : Requester) (p : UserPermission) : bool :=
  is_server_owner (du_auth (rq_user rq)) || (bool_decide (p ∈ permissions (du_auth (rq_user rq))) && negb (rq_locked rq)).

(** The proof of an approval: exactly one of a code and a nonce. *)
Definition proof_matches (row : PairingRow) (code nonce : option str) : result (Proof_ * bool) PairingError :=
  match code, nonce with
  | Some code, None =>
      match verify (trim code) (pa_code_hash row) with Some ok => Ok (ByCode code, ok) | None => Err PHash end
  | None, Some nonce => Ok (ByNonce nonce, bool_decide (pa_nonce row = trim nonce))
  | _, _ => Err PProofShape
  end.

(** What an approval of a pending row comes to, before anything is written. *)
Definition judge_approval (rq : Requester) (row : PairingRow) (code nonce : option str) (allow_komf : bool) : result (Proof_ * bool) PairingError :=
  match authorize_credential_issuance (pa_kind row) (rq_issuance rq) with
  | Err e => Err (PDevice e)
  | Ok _ =>
      if allow_komf && negb (bool_decide (pa_kind row = Komelia)) then Err PNotKomelia
      else if allow_komf && negb (has_permission (du_auth (rq_user rq)) EditMetadata) then Err (PMissing [EditMetadata])
      else
        match List.filter (fun p => negb (has_permission (du_auth (rq_user rq)) p)) (required_permissions (pa_kind row) false) with
        | _ :: _ as missing => Err (PMissing missing)
        | [] => proof_matches row code nonce
        end
  end.

(** A pending row, or why there is none and whether it is to be marked as expired. *)
Definition pending_or (row : PairingRow) (now : Z) : result unit (PairingError * bool) :=
  match effective_status row now with
  | Pending => Ok tt
  | Expired => Err (PExpired, bool_decide (pa_status row = Pending))
  | Approved => Err (PAlreadyApproved, false)
  | Denied => Err (PDenied, false)
  end.

(** An update of the row of a pairing, if its guard holds. *)
Definition update_row (id : str) (cond : PairingRow -> bool) (f : PairingRow -> PairingRow) (db : PairingDb) : bool * PairingDb :=
  match pd_pairings db !! id with
  | Some row => if cond row then (true, put_pairings (<[id := f row]> (pd_pairings db)) db) else (false, db)
  | None => (false, db)
  end.

Definition is_pending (row : PairingRow) : bool := bool_decide (pa_status row = Pending).

Definition persist_expiry (id : str) (db : PairingDb) : PairingDb := (update_row id is_pending (fun p => set_state Expired (pa_user_id p) p) db).2.

Definition claim_credential (id : str) (db : PairingDb) : bool * PairingDb :=
  update_row id (fun p => bool_decide (pa_status p = Approved) && negb (pa_credential_issued p)) (set_issued true) db.

Definition release_credential_claim (id : str) (db : PairingDb) : PairingDb := (update_row id (fun _ => true) (set_issued false) db).2.

Definition deny (id user_id : str) (db : PairingDb) : bool * PairingDb := update_row id is_pending (set_state Denied (Some user_id)) db.

(** The transaction that mints: the claim is checked again, and the account is. *)
Definition issue_credential (c : Choice) (id nonce : str) (db : PairingDb) : PairingTask * PairingDb :=
  match pd_pairings db !! id with
  | None => (Answered (PErr PNotFound), db)
  | Some row =>
      if negb (bool_decide (pa_status row = Approved)) || negb (pa_credential_issued row) then (Answered (PErr PForbidden), db)
      else
        match pa_user_id row with
        | None => (Answered (PErr PForbidden), db)
        | Some user_id =>
            match pd_accounts db !! user_id with
            | Some {| ac_user := approver; ac_deleted := false; ac_locked := false |} =>
                let registry := {| db_tables := db_tables (pd_registry db); db_faults := ch_registry c; db_now := ch_now c; db_draws := ch_draws c |} in
                match create_device_in_transaction approver InteractiveSession (pa_kind row) (pa_name row)
                        (bool_decide (pa_kind row = Komelia) && pa_allow_komf row) registry with
                | (Ok (device, issued), registry) =>
                    (Answered (PIssued id nonce device (du_username approver) issued),
                     {| pd_pairings := pd_pairings db; pd_accounts := pd_accounts db; pd_registry := registry; pd_approvals := pd_approvals db;
                        pd_mints := pd_mints db ++ [{| mi_pairing := id; mi_user_id := user_id; mi_device := device |}] |})
                | (Err e, _) => (PollRollback id e, db)
                end
            | _ =>
                (Answered (PErr PForbidden),
                 put_pairings (<[id := set_grant false None (set_issued false (set_state Denied None row))]> (pd_pairings db)) db)
            end
        end
  end.

Definition approve_row (a : Approval) (db : PairingDb) : bool * PairingDb :=
  let '(approved, db') := update_row (ap_pairing a) is_pending
    (fun p => set_grant (ap_allow_komf a) (Some (ap_at a)) (set_state Approved (Some (du_id (rq_user (ap_by a)))) p)) db in
  (approved,
   if approved then
     {| pd_pairings := pd_pairings db'; pd_accounts := pd_accounts db'; pd_registry := pd_registry db';
        pd_approvals := pd_approvals db' ++ [a]; pd_mints := pd_mints db' |}
   else db').

Definition open_for_ip (remote_ip : str) (now : Z) (db : PairingDb) : Z :=
  Z.of_nat (length (List.filter (fun p => bool_decide (pa_remote_ip p = remote_ip) && is_pending p && (now <? pa_expires_at p)) (map_to_list (pd_pairings db)).*2)).

(** A failed statement ends the request. *)
Definition failing_task : PairingTask := Answered (PErr PDatabase).

(** What a new pairing is refused for, and its secrets. *)
Definition start_pairing (c : Choice) (kind : DeviceKind) (name : option str) (remote_ip : str) (db : PairingDb) : PairingTask * PairingDb :=
  match normalize_name name with
  | Err e => (Answered (PErr e), db)
  | Ok name =>
      if ch_fault c then (failing_task, db)
      else if MAX_PENDING_PER_IP <=? open_for_ip remote_ip (ch_now c) db then (Answered (PErr PTooMany), db)
      else
        match generate_code (ch_raw c) with
        | None => (Answered (PErr PRandom), db)
        | Some code =>
            match hash_password (ch_salt c) code with
            | None => (Answered (PErr PHash), db)
            | Some code_hash => (StartInsert kind name remote_ip code (ch_nonce c) code_hash, db)
            end
        end
  end.

(** Identifiers are unique. *)
Definition insert_pairing (c : Choice) (kind : DeviceKind) (name : option str) (remote_ip code nonce code_hash : str) (db : PairingDb) : PairingTask * PairingDb :=
  if ch_fault c || negb (is_none (pd_pairings db !! ch_id c)) then (failing_task, db)
  else
    let row := {| pa_id := ch_id c; pa_kind := kind; pa_name := name; pa_code_hash := code_hash; pa_nonce := nonce; pa_remote_ip := remote_ip;
                  pa_user_id := None; pa_status := Pending; pa_failed_attempts := 0; pa_credential_issued := false; pa_allow_komf := false;
                  pa_created_at := ch_now c; pa_expires_at := ch_now c + PAIRING_TTL_SECS; pa_approved_at := None |} in
    (Answered (PStarted (ch_id c) code nonce (pa_expires_at row)), put_pairings (<[ch_id c := row]> (pd_pairings db)) db).

(** The row of a poll, by its identifier and nonce. *)
Definition pairing_status (c : Choice) (id nonce : str) (db : PairingDb) : PairingTask * PairingDb :=
  if ch_fault c then (failing_task, db)
  else
    match pd_pairings db !! id with
    | None => (Answered (PErr PNotFound), db)
    | Some row =>
        if negb (bool_decide (pa_nonce row = nonce)) then (Answered (PErr PNotFound), db)
        else
          let status := effective_status row (ch_now c) in
          if bool_decide (status = Expired) && negb (bool_decide (pa_status row = status)) then (PollExpire id, db)
          else if negb (bool_decide (status = Approved)) || pa_credential_issued row then (Answered (PBare status), db)
          else (PollClaim id nonce, db)
    end.

(** A request to approve, up to its first write. *)
Definition approve_device_pairing (c : Choice) (rq : Requester) (id : str) (code nonce : option str) (allow_komf : bool) (db : PairingDb) : PairingTask * PairingDb :=
  if negb (guard rq AccessApiKeys) then (Answered (PErr PForbidden), db)
  else if ch_fault c then (failing_task, db)
  else
    match pd_pairings db !! id with
    | None => (Answered (PErr PNotFound), db)
    | Some row =>
        match pending_or row (ch_now c) with
        | Err (e, mark) => (if mark : bool then ExpireThenRefuse id else Answered (PErr e), db)
        | Ok _ =>
            match judge_approval rq row code nonce allow_komf with
            | Err e => (Answered (PErr e), db)
            | Ok (proof, true) =>
                (ApproveWrite {| ap_pairing := id; ap_by := rq; ap_proof := proof; ap_allow_komf := allow_komf; ap_at := ch_now c |}, db)
            | Ok (_, false) => (ApproveCount rq row, db)
            end
        end
    end.

(** What a wrong proof comes to, after it was counted. *)
Definition record_failed_attempt (c : Choice) (rq : Requester) (row : PairingRow) (db : PairingDb) : PairingTask * PairingDb :=
  if ch_fault c then (failing_task, db)
  else
    let failed := match pd_pairings db !! pa_id row with Some now_ => pa_failed_attempts now_ | None => pa_failed_attempts row + 1 end in
    (if MAX_FAILED_ATTEMPTS <=? failed then ApproveDeny rq (pa_id row) else Answered (PErr (PWrong (MAX_FAILED_ATTEMPTS - failed))), db).

(** A request to deny, up to its write. *)
Definition deny_device_pairing (c : Choice) (rq : Requester) (id : str) (db : PairingDb) : PairingTask * PairingDb :=
  if negb (guard rq AccessApiKeys) then (Answered (PErr PForbidden), db)
  else if ch_fault c then (failing_task, db)
  else
    match pd_pairings db !! id with
    | None => (Answered (PErr PNotFound), db)
    | Some row =>
        match pending_or row (ch_now c) with
        | Err (e, mark) => (if mark : bool then ExpireThenRefuse id else Answered (PErr e), db)
        | Ok _ => (DenyWrite rq id, db)
        end
    end.

(** One statement of a task. *)
Definition run_task (c : Choice) (t : PairingTask) (db : PairingDb) : PairingTask * PairingDb :=
  match t with
  | StartCount kind name remote_ip => start_pairing c kind name remote_ip db
  | StartInsert kind name remote_ip code nonce code_hash => insert_pairing c kind name remote_ip code nonce code_hash db
  | PollRead id nonce => pairing_status c id nonce db
  | PollExpire id => if ch_fault c then (failing_task, db) else (Answered (PBare Expired), persist_expiry id db)
  | PollClaim id nonce =>
      if ch_fault c then (failing_task, db)
      else let '(claimed, db) := claim_credential id db in (if claimed then PollIssue id nonce else Answered (PBare Approved), db)
  | PollIssue id nonce => if ch_fault c then (failing_task, db) else issue_credential c id nonce db
  | PollRollback id e => (if ch_fault c then failing_task else PollRelease id e, db)
  | PollRelease id e => (Answered (PErr (PDevice e)), if ch_fault c then db else release_credential_claim id db)
  | ApproveLoad rq id code nonce allow_komf => approve_device_pairing c rq id code nonce allow_komf db
  | ExpireThenRefuse id => if ch_fault c then (failing_task, db) else (Answered (PErr PExpired), persist_expiry id db)
  | ApproveCount rq row =>
      if ch_fault c then (failing_task, db)
      else (ApproveRecount rq row, (update_row (pa_id row) is_pending (fun p => set_failed (pa_failed_attempts p + 1) p) db).2)
  | ApproveRecount rq row => record_failed_attempt c rq row db
  | ApproveDeny rq id => if ch_fault c then (failing_task, db) else (Answered (PErr PSpent), (deny id (du_id (rq_user rq)) db).2)
  | ApproveWrite a =>
      if ch_fault c then (failing_task, db)
      else let '(approved, db) := approve_row a db in (if approved then Reload (ap_pairing a) else Answered (PErr PNotPending), db)
  | Reload id =>
      if ch_fault c then (failing_task, db)
      else (Answered (match pd_pairings db !! id with Some row => PRow row | None => PErr PNotFound end), db)
  | DenyLoad rq id => deny_device_pairing c rq id db
  | DenyWrite rq id =>
      if ch_fault c then (failing_task, db)
      else let '(denied, db) := deny id (du_id (rq_user rq)) db in (if denied then Reload id else Answered (PErr PNotPending), db)
  | Answered answer => (Answered answer, db)
  end.

(** ** The interleaved system *)

Record PairingSystem := { ps_db : PairingDb; ps_tasks : list PairingTask }.

(** Requests that can come in. *)
Definition is_request (t : PairingTask) : bool :=
  match t with StartCount _ _ _ | PollRead _ _ | ApproveLoad _ _ _ _ _ | DenyLoad _ _ => true | _ => false end.

Definition step_task (c : Choice) (i : nat) (s : PairingSystem) : option PairingSystem :=
  t ← ps_tasks s !! i;
  let '(t', db) := run_task c t (ps_db s) in
  Some {| ps_db := db; ps_tasks := <[i := t']> (ps_tasks s) |}.

Definition put_accounts (accounts : gmap str Account) (db : PairingDb) : PairingDb :=
  {| pd_pairings := pd_pairings db; pd_accounts := accounts; pd_registry := pd_registry db; pd_approvals := pd_approvals db; pd_mints := pd_mints db |}.

(** ** Deleting an account *)

(** What is left of the registry: the devices of the account are revoked, and its keys, tokens
    and sessions are gone. *)
Definition retire_account (user_id : str) (sessions : gset str) (now : Z) (t : Registry) : Registry :=
  let mine (d : DeviceRow) := bool_decide (dv_user_id d = user_id) in
  {| rg_devices := (fun d => if mine d then revoked_row now d else d) <$> rg_devices t;
     rg_keys := filter (fun kv => ak_user_id kv.2 <> user_id) (rg_keys t);
     rg_tokens := filter (fun kv => tk_user_id kv.2 <> user_id) (rg_tokens t);
     rg_sessions := rg_sessions t ∖ sessions;
     rg_credentials := List.filter (fun c => negb (from_option mine false (rg_devices t !! cr_device_id c))) (rg_credentials t);
     rg_next_credential := rg_next_credential t |}.

Definition unbind (user_id : str) (p : PairingRow) : PairingRow :=
  if bool_decide (pa_user_id p = Some user_id) && bool_decide (pa_status p = Approved) && negb (pa_credential_issued p)
  then set_state Denied (pa_user_id p) p else p.

Definition delete_account (actor : DeviceUser) (user_id : str) (sessions : gset str) (now : Z) (db : PairingDb) : PairingDb :=
  match pd_accounts db !! user_id with
  | Some account =>
      if negb (is_server_owner (du_auth actor)) || bool_decide (du_id actor = user_id) || is_server_owner (du_auth (ac_user account)) then db
      else
        {| pd_pairings := unbind user_id <$> pd_pairings db;
           pd_accounts := <[user_id := {| ac_user := ac_user account; ac_deleted := true; ac_locked := ac_locked account |}]> (pd_accounts db);
           pd_registry := with_tables (retire_account user_id sessions now (db_tables (pd_registry db))) (pd_registry db);
           pd_approvals := pd_approvals db; pd_mints := pd_mints db |}
  | None => db
  end.

(** Accounts that are added or changed keep their identifiers, and a deleted one stays deleted. *)
Definition accounts_grow (accounts accounts' : gmap str Account) : Prop :=
  (forall id a, accounts' !! id = Some a -> du_id (ac_user a) = id /\ (ac_deleted a = true -> exists a0, accounts !! id = Some a0 /\ ac_deleted a0 = true)) /\
  (forall id a, accounts !! id = Some a -> exists a', accounts' !! id = Some a' /\ ac_deleted a' = ac_deleted a).

Inductive pairing_step : PairingSystem -> PairingSystem -> Prop :=
| request_step s t : is_request t = true -> pairing_step s {| ps_db := ps_db s; ps_tasks := ps_tasks s ++ [t] |}
| statement_step c i s s' : step_task c i s = Some s' -> pairing_step s s'
| account_step s accounts : accounts_grow (pd_accounts (ps_db s)) accounts ->
    pairing_step s {| ps_db := put_accounts accounts (ps_db s); ps_tasks := ps_tasks s |}
| delete_step s actor user_id sessions now :
    pairing_step s {| ps_db := delete_account actor user_id sessions now (ps_db s); ps_tasks := ps_tasks s |}.

(** ** What stays true *)

(** What never changes of a row. *)
Definition frozen (p : PairingRow) : str * DeviceKind * str * str * Z := (pa_id p, pa_kind p, pa_code_hash p, pa_nonce p, pa_expires_at p).

Definition proof_valid (proof : Proof_) (p : PairingRow) : Prop :=
  match proof with
  | ByCode code => verify (trim code) (pa_code_hash p) = Some true
  | ByNonce nonce => pa_nonce p = trim nonce
  end.

(** An approval the rules allow. *)
Record approval_ok (a : Approval) (p : PairingRow) : Prop := {
  al_guard : guard (ap_by a) AccessApiKeys = true;
  al_issuance : authorize_credential_issuance (pa_kind p) (rq_issuance (ap_by a)) = Ok tt;
  al_komf : ap_allow_komf a = true -> pa_kind p = Komelia /\ has_permission (du_auth (rq_user (ap_by a))) EditMetadata = true;
  al_required : Forall (fun q => has_permission (du_auth (rq_user (ap_by a))) q = true) (required_permissions (pa_kind p) false);
  al_proof : proof_valid (ap_proof a) p;
  al_in_time : ap_at a < pa_expires_at p;
}.

Record row_ok (approvals : list Approval) (id : str) (p : PairingRow) : Prop := {
  ro_id : pa_id p = id;
  ro_issued : pa_credential_issued p = true -> pa_status p = Approved;
  ro_approved : pa_status p = Approved -> exists a, a ∈ approvals /\ ap_pairing a = id /\ pa_user_id p = Some (du_id (rq_user (ap_by a))) /\
    pa_allow_komf p = ap_allow_komf a;
  ro_pending : pa_status p = Pending -> id ∉ ap_pairing <$> approvals;
}.

(** The pairings whose one claim is taken: a poll that is issuing holds it, and a mint spent
    it. *)
Definition holds (t : PairingTask) : option str :=
  match t with PollIssue id _ | PollRollback id _ | PollRelease id _ => Some id | _ => None end.

Definition holders (db : PairingDb) (tasks : list PairingTask) : list str := omap holds tasks ++ (mi_pairing <$> pd_mints db).

Definition claimed (db : PairingDb) (id : str) : Prop :=
  exists p, pd_pairings db !! id = Some p /\ pa_status p = Approved /\ pa_credential_issued p = true.

Definition mint_ok (db : PairingDb) (m : Mint) : Prop :=
  exists a p, a ∈ pd_approvals db /\ ap_pairing a = mi_pairing m /\ mi_user_id m = du_id (rq_user (ap_by a)) /\
    pd_pairings db !! mi_pairing m = Some p /\ dv_user_id (mi_device m) = mi_user_id m /\ dv_kind (mi_device m) = pa_kind p.

Definition task_ok (db : PairingDb) (t : PairingTask) : Prop :=
  match t with
  | ApproveWrite a => exists p, pd_pairings db !! ap_pairing a = Some p /\ approval_ok a p
  | PollClaim id nonce | PollIssue id nonce => exists p, pd_pairings db !! id = Some p /\ pa_nonce p = nonce
  | Answered (PIssued id nonce device _ _) =>
      exists p m, pd_pairings db !! id = Some p /\ pa_nonce p = nonce /\ m ∈ pd_mints db /\ mi_pairing m = id /\ mi_device m = device
  | _ => True
  end.

(** No device of the account is live. *)
Definition retired (user_id : str) (t : Registry) : Prop :=
  forall i d, rg_devices t !! i = Some d -> dv_user_id d = user_id -> dv_revoked_at d <> None.

Record pairing_ok (db : PairingDb) (tasks : list PairingTask) : Prop := {
  pk_rows : forall id p, pd_pairings db !! id = Some p -> row_ok (pd_approvals db) id p;
  pk_approvals : forall a, a ∈ pd_approvals db -> exists p, pd_pairings db !! ap_pairing a = Some p /\ approval_ok a p;
  pk_approved_once : NoDup (ap_pairing <$> pd_approvals db);
  pk_claimed : forall id, id ∈ holders db tasks -> claimed db id;
  pk_claimed_once : NoDup (holders db tasks);
  pk_mints : forall m, m ∈ pd_mints db -> mint_ok db m;
  pk_tasks : forall t, t ∈ tasks -> task_ok db t;
  pk_registry : registry_ok (db_tables (pd_registry db));
  pk_accounts : forall id a, pd_accounts db !! id = Some a -> du_id (ac_user a) = id;
  pk_deleted : forall id a, pd_accounts db !! id = Some a -> ac_deleted a = true -> retired id (db_tables (pd_registry db));
}.

(** The order of tasks does not matter. *)
Lemma pairing_ok_perm db tasks tasks' : tasks ≡ₚ tasks' -> pairing_ok db tasks -> pairing_ok db tasks'.
Proof.
  intros Hp [? ? ? Hc Ho ? Ht ? ? ?].
  assert (Hh : holders db tasks ≡ₚ holders db tasks').
  { unfold holders. by rewrite Hp. }
  split; try done.
  - intros id Hid. apply Hc. by rewrite Hh.
  - by rewrite <- Hh.
  - intros t Hin. apply Ht. by rewrite Hp.
Qed.

(** A step of one task, with it in front. *)
Lemma insert_front {A} (l : list A) i a b : l !! i = Some a -> exists rest, l ≡ₚ a :: rest /\ <[i := b]> l ≡ₚ b :: rest.
Proof.
  intros Hi. exists (take i l ++ drop (S i) l). split.
  - rewrite <- (take_drop_middle l i a Hi) at 1. symmetry. apply Permutation_middle.
  - rewrite insert_take_drop by (by eapply lookup_lt_Some). symmetry. apply Permutation_middle.
Qed.

(** A database that only adds to what was approved and minted, and keeps the rows. *)
Record evolves (db db' : PairingDb) : Prop := {
  ev_rows : forall id p, pd_pairings db !! id = Some p -> exists p', pd_pairings db' !! id = Some p' /\ frozen p' = frozen p;
  ev_approvals : pd_approvals db ⊆ pd_approvals db';
  ev_mints : pd_mints db ⊆ pd_mints db';
}.

Lemma frozen_fields p p' : frozen p' = frozen p ->
  pa_id p' = pa_id p /\ pa_kind p' = pa_kind p /\ pa_code_hash p' = pa_code_hash p /\ pa_nonce p' = pa_nonce p /\ pa_expires_at p' = pa_expires_at p.
Proof. intros [=]. done. Qed.

Lemma approval_frozen a p p' : frozen p' = frozen p -> approval_ok a p -> approval_ok a p'.
Proof.
  intros (_ & Hk & Hc & Hn & He)%frozen_fields [? ? ? ? Hp ?]. split; rewrite ?Hk, ?He; try done.
  unfold proof_valid in *. destruct (ap_proof a); congruence.
Qed.

Lemma task_evolves db db' t : evolves db db' -> task_ok db t -> task_ok db' t.
Proof.
  intros [Hr Ha Hm]. destruct t; cbn; try done.
  1-2: intros (p & Hp & Hn); destruct (Hr _ p Hp) as (p' & Hp' & (_ & _ & _ & Hn' & _)%frozen_fields); exists p'; split; [done|congruence].
  - intros (p & Hp & Hok). destruct (Hr _ p Hp) as (p' & Hp' & Hf). exists p'. split; [done|by apply (approval_frozen _ p)].
  - destruct answer; try done. intros (p & m & Hp & Hn & Hin & Hid & Hdev).
    destruct (Hr _ p Hp) as (p' & Hp' & (_ & _ & _ & Hn' & _)%frozen_fields). exists p', m. split_and!; try done; [congruence|by apply Hm].
Qed.

Lemma mint_evolves db db' m : evolves db db' -> mint_ok db m -> mint_ok db' m.
Proof.
  intros [Hr Ha _] (a & p & Hin & Hid & Hu & Hp & Hd & Hk). destruct (Hr _ p Hp) as (p' & Hp' & (_ & Hk' & _)%frozen_fields).
  exists a, p'. split_and!; try done; [by apply Ha|congruence].
Qed.

Lemma approvals_evolve db db' a : evolves db db' ->
  (exists p, pd_pairings db !! ap_pairing a = Some p /\ approval_ok a p) -> exists p, pd_pairings db' !! ap_pairing a = Some p /\ approval_ok a p.
Proof.
  intros [Hr _ _] (p & Hp & Hok). destruct (Hr _ p Hp) as (p' & Hp' & Hf). exists p'. split; [done|by apply (approval_frozen _ p)].
Qed.

(** ** Moves *)

(** A task goes on, or lets go of its claim. *)
Lemma move_task db t t' rest :
  pairing_ok db (t :: rest) -> holds t' = None \/ holds t' = holds t -> task_ok db t' -> pairing_ok db (t' :: rest).
Proof.
  intros [? ? ? Hc Ho ? Ht ? ? ?] Hh Ht'.
  assert (Hsub : holders db (t' :: rest) `sublist_of` holders db (t :: rest)).
  { unfold holders. apply sublist_app; [|done]. cbn. destruct Hh as [->| ->]; [|done]. destruct (holds t); [by constructor|done]. }
  split; try done.
  - intros id Hid. apply Hc. by eapply sublist_subseteq.
  - by eapply sublist_NoDup.
  - intros u [->|Hu]%elem_of_cons; [done|]. apply Ht. by right.
Qed.

(** A task takes the claim of a pairing. *)
Lemma take_claim db t t' rest id :
  pairing_ok db (t :: rest) -> holds t = None -> holds t' = Some id -> id ∉ holders db (t :: rest) -> claimed db id -> task_ok db t' ->
  pairing_ok db (t' :: rest).
Proof.
  intros [? ? ? Hc Ho ? Ht ? ? ?] Hno Hh Hni Hcl Ht'.
  assert (Heq : holders db (t' :: rest) = id :: holders db (t :: rest)) by (unfold holders; cbn; by rewrite Hh, Hno).
  split; try done; rewrite ?Heq.
  - intros i [->|Hi]%elem_of_cons; [done|by apply Hc].
  - by constructor.
  - intros u [->|Hu]%elem_of_cons; [done|]. apply Ht. by right.
Qed.

Lemma put_row_evolves db id p p' : pd_pairings db !! id = Some p -> frozen p' = frozen p -> evolves db (put_pairings (<[id := p']> (pd_pairings db)) db).
Proof.
  intros Hp Hf. split; cbn; try done. intros i q Hq. destruct (decide (i = id)) as [->|Hne].
  - exists p'. rewrite lookup_insert_eq. split; [done|congruence].
  - exists q. by rewrite lookup_insert_ne.
Qed.

(** A row changes, and with its claim taken stays claimed. *)
Lemma put_row db tasks id p p' :
  pairing_ok db tasks -> pd_pairings db !! id = Some p -> frozen p' = frozen p -> row_ok (pd_approvals db) id p' ->
  (id ∈ holders db tasks -> pa_status p' = Approved /\ pa_credential_issued p' = true) ->
  pairing_ok (put_pairings (<[id := p']> (pd_pairings db)) db) tasks.
Proof.
  intros [Hrows Happ ? Hc Ho Hm Ht ? ? ?] Hp Hf Hrow Hcl. pose proof (put_row_evolves db id p p' Hp Hf) as Hev.
  split; try done.
  - cbn. intros i q Hq. apply lookup_insert_Some in Hq as [[<- <-]|[_ Hq]]; [done|by apply Hrows].
  - intros a Ha. apply (approvals_evolve db); [done|by apply Happ].
  - intros i Hi. change (i ∈ holders db tasks) in Hi. unfold claimed. cbn. destruct (decide (i = id)) as [->|Hne].
    + exists p'. rewrite lookup_insert_eq. split; [done|by apply Hcl].
    + rewrite lookup_insert_ne by done. by apply Hc.
  - intros m Hin. by apply (mint_evolves db), Hm.
  - intros t Hin. by apply (task_evolves db), Ht.
Qed.

(** Updates of a pending row to another state that is not the approved one. *)
Lemma settle_row db tasks id f :
  pairing_ok db tasks ->
  (forall p, frozen (f p) = frozen p /\ pa_credential_issued (f p) = pa_credential_issued p /\
     (pa_status (f p) = Pending \/ pa_status (f p) = Denied \/ pa_status (f p) = Expired)) ->
  pairing_ok (update_row id is_pending f db).2 tasks.
Proof.
  intros Hok Hf. unfold update_row. destruct (pd_pairings db !! id) as [p|] eqn:Hp; [|done].
  unfold is_pending. case_bool_decide as Hpend; [|done]. cbn. destruct (Hf p) as (Hfr & Hiss & Hst).
  pose proof (pk_rows _ _ Hok id p Hp) as [Hid Hi Ha Hn].
  assert (Hfree : pa_credential_issued p = false) by (destruct (pa_credential_issued p); [by rewrite Hi in Hpend|done]).
  apply (put_row db tasks id p); try done.
  - split.
    + by destruct (frozen_fields _ _ Hfr) as [-> _].
    + by rewrite Hiss, Hfree.
    + intros Happ. destruct Hst as [?|[?|?]]; congruence.
    + intros _. by apply Hn.
  - intros Hin. destruct (pk_claimed _ _ Hok id Hin) as (p0 & Hp0 & _ & Hi0). congruence.
Qed.

Lemma persist_expiry_ok db tasks id : pairing_ok db tasks -> pairing_ok (persist_expiry id db) tasks.
Proof. intros Hok. apply settle_row; [done|]. intros p. split_and!; try done. by right; right. Qed.

Lemma deny_ok db tasks id user_id : pairing_ok db tasks -> pairing_ok (deny id user_id db).2 tasks.
Proof. intros Hok. apply settle_row; [done|]. intros p. split_and!; try done. by right; left. Qed.

Lemma count_ok db tasks id : pairing_ok db tasks ->
  pairing_ok (update_row id is_pending (fun p => set_failed (pa_failed_attempts p + 1) p) db).2 tasks.
Proof.
  intros Hok. unfold update_row. destruct (pd_pairings db !! id) as [p|] eqn:Hp; [|done]. destruct (is_pending p) eqn:Hpend; [|done]. cbn.
  apply (put_row db tasks id p); try done.
  - by destruct (pk_rows _ _ Hok id p Hp).
  - intros Hin. destruct (pk_claimed _ _ Hok id Hin) as (p0 & Hp0 & Hs & Hi). rewrite Hp in Hp0. by simplify_eq.
Qed.

(** The claim is taken by one update. *)
Lemma claim_ok db id nonce rest :
  pairing_ok db (PollClaim id nonce :: rest) ->
  pairing_ok (claim_credential id db).2 ((if (claim_credential id db).1 then PollIssue id nonce else Answered (PBare Approved)) :: rest).
Proof.
  intros Hok. unfold claim_credential, update_row.
  destruct (pd_pairings db !! id) as [p|] eqn:Hp; [|apply (move_task _ _ _ _ Hok); [by left|done]].
  destruct (bool_decide _ && _) eqn:Hc; [|apply (move_task _ _ _ _ Hok); [by left|done]]. cbn.
  apply andb_true_iff in Hc as [Hs%bool_decide_eq_true Hfree%negb_true_iff].
  assert (Hni : id ∉ holders db (PollClaim id nonce :: rest)).
  { intros Hin. destruct (pk_claimed _ _ Hok id Hin) as (p0 & Hp0 & _ & Hi). congruence. }
  destruct (pk_rows _ _ Hok id p Hp) as [Hid Hi Ha Hn].
  apply (take_claim _ (PollClaim id nonce) _ _ id); try done.
  - apply (put_row db _ id p); try done.
  - exists (set_issued true p). cbn. by rewrite lookup_insert_eq.
  - cbn. exists (set_issued true p). rewrite lookup_insert_eq. split; [done|]. cbn.
    destruct (pk_tasks _ _ Hok (PollClaim id nonce)) as (p0 & Hp0 & Hno); [by left|]. congruence.
Qed.

(** Letting go of a claim that was taken. *)
Lemma release_ok db id e rest t' :
  pairing_ok db (PollRelease id e :: rest) -> holds t' = None -> task_ok db t' -> pairing_ok (release_credential_claim id db) (t' :: rest).
Proof.
  intros Hok Hno Ht'. assert (Hni : id ∉ holders db (t' :: rest)).
  { pose proof (pk_claimed_once _ _ Hok) as Hnd. unfold holders in *. cbn in *. rewrite Hno. by apply NoDup_cons in Hnd as [? _]. }
  destruct (pk_claimed _ _ Hok id) as (p & Hp & Hs & Hi); [by left|].
  destruct (pk_rows _ _ Hok id p Hp) as [Hid _ Ha Hn].
  unfold release_credential_claim, update_row. rewrite Hp. cbn.
  apply (put_row db _ id p); try done.
  apply (move_task _ _ _ _ Hok); [by left|done].
Qed.

(** An approval is written to a pending row, which none was written to before. *)
Lemma approve_ok db a rest t' :
  pairing_ok db (ApproveWrite a :: rest) -> holds t' = None -> (forall db', task_ok db' t') -> pairing_ok (approve_row a db).2 (t' :: rest).
Proof.
  intros Hok Hno Ht'. assert (Hok' : pairing_ok db (t' :: rest)) by (apply (move_task _ _ _ _ Hok); [by left|done]).
  unfold approve_row, update_row. destruct (pd_pairings db !! ap_pairing a) as [p|] eqn:Hp; [|done].
  unfold is_pending. case_bool_decide as Hpend; [|done]. cbn [snd fst put_pairings pd_pairings pd_accounts pd_registry pd_approvals pd_mints].
  set (p' := set_grant _ _ _). set (db' := Build_PairingDb _ _ _ _ _).
  destruct (pk_rows _ _ Hok' _ p Hp) as [Hid Hi Ha Hn].
  assert (Hev : evolves db db').
  { split; cbn; [|set_solver|done]. intros i q Hq. destruct (decide (i = ap_pairing a)) as [->|Hne].
    - exists p'. rewrite lookup_insert_eq. split; [done|]. rewrite Hp in Hq. by injection Hq as <-.
    - exists q. by rewrite lookup_insert_ne. }
  assert (Hfree : forall i, i ∈ holders db (t' :: rest) -> i <> ap_pairing a).
  { intros i Hin ->. destruct (pk_claimed _ _ Hok' _ Hin) as (p0 & Hp0 & Hs & _). congruence. }
  assert (Hau : exists q, pd_pairings db !! ap_pairing a = Some q /\ approval_ok a q) by (apply (pk_tasks _ _ Hok (ApproveWrite a)); by left).
  destruct Hok' as [Hrows Happ Hu Hc Ho Hm Ht ? ? ?]. split; try done.
  - cbn. intros i q Hq. apply lookup_insert_Some in Hq as [[<- <-]|[Hne Hq]].
    + split; try done. cbn. intros _. exists a. set_solver.
    + destruct (Hrows i q Hq) as [? ? Hq1 Hq2]. split; try done.
      * intros Hs. destruct (Hq1 Hs) as (b & Hb & ?). exists b. split; [set_solver|done].
      * intros Hs. rewrite fmap_app. set_solver.
  - intros b [Hb| ->%list_elem_of_singleton]%elem_of_app; apply (approvals_evolve db); try done. by apply Happ.
  - cbn. rewrite fmap_app. apply NoDup_app. split_and!; [done| |apply NoDup_singleton].
    intros i Hin ->%list_elem_of_singleton. by apply Hn.
  - intros i Hin. change (i ∈ holders db (t' :: rest)) in Hin. unfold claimed. cbn.
    rewrite lookup_insert_ne by (apply not_eq_sym, Hfree, Hin). by apply Hc.
  - intros m Hin. by apply (mint_evolves db), Hm.
  - intros t Hin. by apply (task_evolves db), Ht.
Qed.

(** A new pairing. *)
Lemma start_ok db tasks p :
  pairing_ok db tasks -> pd_pairings db !! pa_id p = None -> pa_status p = Pending -> pa_credential_issued p = false ->
  pairing_ok (put_pairings (<[pa_id p := p]> (pd_pairings db)) db) tasks.
Proof.
  intros [Hrows Happ ? Hc Ho Hm Ht ? ? ?] Hnew Hpend Hfree.
  assert (Hev : evolves db (put_pairings (<[pa_id p := p]> (pd_pairings db)) db)).
  { split; cbn; try done. intros i q Hq. exists q. rewrite lookup_insert_ne by congruence. done. }
  split; try done.
  - cbn. intros i q Hq. apply lookup_insert_Some in Hq as [[<- <-]|[_ Hq]]; [|by apply Hrows]. split; try congruence.
    intros _ (a & Heq & Ha)%list_elem_of_fmap. destruct (Happ a Ha) as (q & Hq & _). congruence.
  - intros a Ha. by apply (approvals_evolve db), Happ.
  - intros i Hin. destruct (Hc i Hin) as (q & Hq & ?). exists q. cbn. rewrite lookup_insert_ne by congruence. done.
  - intros m Hin. by apply (mint_evolves db), Hm.
  - intros t Hin. by apply (task_evolves db), Ht.
Qed.

(** *** Minting leaves the devices of other accounts alone *)

Lemma mint_one_devices (d : DeviceRow) (komf : bool) (kind : DeviceCredentialKind) (D : gmap str DeviceRow) :
  triple (fun t => rg_devices t = D) (mint_one d komf kind) (fun _ t => rg_devices t = D).
Proof.
  destruct kind; cbn [mint_one]; unfold mint_api_key, mint_token; [| |apply triple_err];
    (eapply triple_bind; [apply triple_draw|]; intros [ref_ secret]; eapply triple_bind;
      [|intros u; eapply triple_post; [apply triple_ret|]; intros b t [_ Hd]; exact Hd];
     apply triple_stmt; intros t a t' Hd; destruct (_ !! ref_); [done|]; by intros [= <- <-]).
Qed.

Lemma mint_all_devices (d : DeviceRow) (komf : bool) (specs : list (DeviceCredentialKind * DeviceProtocol)) (D : gmap str DeviceRow) :
  triple (fun t => rg_devices t = D) (mint_all d komf specs) (fun _ t => rg_devices t = D).
Proof.
  induction specs as [|[kind protocol] specs IH]; cbn [mint_all].
  - eapply triple_post; [apply triple_ret|]. by intros ? ? [_ ?].
  - eapply triple_bind; [apply mint_one_devices|]. intros minted. eapply triple_bind with (Q := fun _ t => rg_devices t = D).
    + apply triple_stmt. intros t a t' Hd. destruct (existsb _ _); [done|]. intros [= <- <-]. exact Hd.
    + intros u. eapply triple_bind; [apply IH|]. intros rest. eapply triple_post; [apply triple_ret|]. by intros ? ? [_ ?].
Qed.

Lemma create_retired user issuance kind name komf other :
  other <> du_id user ->
  triple (retired other) (create_device_in_transaction user issuance kind name komf) (fun _ => retired other).
Proof.
  intros Hother. eapply triple_bind; [apply triple_of|]. intros []. eapply triple_bind; [apply triple_of|]. intros [].
  eapply triple_bind; [apply choose_name_triple|]. intros chosen. eapply triple_bind; [apply triple_draw|]. intros drawn.
  eapply triple_bind with (Q := fun _ => retired other).
  - apply triple_stmt. intros t a t' [(_ & _ & Hr) _]. destruct (rg_devices t !! _); [done|]. intros [= <- <-].
    intros i d Hd Hu. cbn in Hd. apply lookup_insert_Some in Hd as [[_ <-]|[_ Hd]]; [by destruct Hother|]. by apply (Hr i d).
  - intros u db a db' Hr Hrun. apply db_bind_cases in Hrun as [(e & _ & ?)|(issued & db1 & Hmint & [= <- <-])]; [done|].
    apply db_bind_cases in Hmint as [(e & _ & ?)|(issued' & db2 & Hall & Hend)]; [done|].
    apply (mint_all_devices _ _ _ (rg_devices (db_tables db)) db) in Hall; [|done].
    destruct issued'; [done|]. injection Hend as <- <-. unfold retired. rewrite Hall. exact Hr.
Qed.

(** *** The transaction that mints *)

Lemma minted_ok db id nonce rest p user_id (approver : DeviceUser) device registry username issued :
  pairing_ok db (PollIssue id nonce :: rest) -> pd_pairings db !! id = Some p -> pa_status p = Approved -> pa_user_id p = Some user_id ->
  registry_ok (db_tables registry) -> dv_user_id device = user_id -> dv_kind device = pa_kind p ->
  (forall u a, pd_accounts db !! u = Some a -> ac_deleted a = true -> retired u (db_tables registry)) ->
  pairing_ok
    {| pd_pairings := pd_pairings db; pd_accounts := pd_accounts db; pd_registry := registry; pd_approvals := pd_approvals db;
       pd_mints := pd_mints db ++ [{| mi_pairing := id; mi_user_id := user_id; mi_device := device |}] |}
    (Answered (PIssued id nonce device username issued) :: rest).
Proof.
  intros Hok Hp Hs Hu Hreg Hdev Hkind Hdel. set (m := Build_Mint _ _ _). set (db' := Build_PairingDb _ _ _ _ _).
  assert (Hev : evolves db db') by (split; cbn; [|done|set_solver]; intros i q Hq; by exists q).
  assert (Hperm : holders db' (Answered (PIssued id nonce device username issued) :: rest) ≡ₚ holders db (PollIssue id nonce :: rest)).
  { unfold holders. cbn. rewrite fmap_app, app_assoc. cbn. symmetry. apply Permutation_cons_append. }
  destruct (pk_tasks _ _ Hok (PollIssue id nonce)) as (p0 & Hp0 & Hn); [by left|].
  destruct (ro_approved _ _ _ (pk_rows _ _ Hok id p Hp) Hs) as (a & Ha & Hid & Hby & _).
  destruct Hok as [Hrows Happ Hun Hc Ho Hm Ht ? Hacc ?]. split; try done.
  - intros i. rewrite Hperm. apply Hc.
  - by rewrite Hperm.
  - intros m' [Hin| ->%list_elem_of_singleton]%elem_of_app; [by apply (mint_evolves db), Hm|].
    exists a, p. split_and!; try done. cbn. congruence.
  - intros t [->|Hin]%elem_of_cons; [|apply (task_evolves db); [done|]; apply Ht; by right].
    exists p, m. split_and!; try done; [congruence|cbn; set_solver].
Qed.

Lemma issue_ok c db id nonce rest :
  pairing_ok db (PollIssue id nonce :: rest) ->
  pairing_ok (issue_credential c id nonce db).2 ((issue_credential c id nonce db).1 :: rest).
Proof.
  intros Hok. assert (Hend : forall e, pairing_ok db (Answered (PErr e) :: rest)).
  { intros e. apply (move_task _ _ _ _ Hok); [by left|done]. }
  unfold issue_credential. destruct (pd_pairings db !! id) as [p|] eqn:Hp; [|apply Hend].
  destruct (_ || _) eqn:Hcl; [apply Hend|]. apply orb_false_iff in Hcl as [Hs%negb_false_iff%bool_decide_eq_true Hi%negb_false_iff].
  destruct (pa_user_id p) as [user_id|] eqn:Hu; [|apply Hend].
  assert (Hgone : pairing_ok (put_pairings (<[id := set_grant false None (set_issued false (set_state Denied None p))]> (pd_pairings db)) db)
                             (Answered (PErr PForbidden) :: rest)).
  { apply (put_row db _ id p); try done.
    - split; try done. cbn. apply (pk_rows _ _ Hok id p Hp).
    - intros Hin. pose proof (pk_claimed_once _ _ Hok) as Hnd. unfold holders in *. cbn in *. by apply NoDup_cons in Hnd as [? _]. }
  destruct (pd_accounts db !! user_id) as [[approver [] locked]|] eqn:Hacc; [done| |done]. destruct locked; [done|]. cbn zeta.
  set (registry := Build_DeviceDb _ _ _ _). set (komf := (_ && _)%bool).
  destruct (create_device_in_transaction _ _ _ _ _ registry) as [[[device issued]|e] registry'] eqn:Hrun;
    [|apply (move_task _ _ _ _ Hok); [by right|done]].
  assert (Hthem : du_id approver = user_id) by apply (pk_accounts _ _ Hok user_id _ Hacc).
  destruct (create_triple approver InteractiveSession (pa_kind p) (pa_name p) komf registry _ _ (pk_registry _ _ Hok) Hrun)
    as ([Hreg _] & Hdev & Hkind & _). cbn in Hdev, Hkind.
  apply (minted_ok db id nonce rest p user_id approver); try done; [congruence|].
  intros u b Hb Hdel. assert (Hne : u <> du_id approver) by (intros ->; congruence || naive_solver).
  apply (create_retired approver InteractiveSession (pa_kind p) (pa_name p) komf u Hne registry _ _ (pk_deleted _ _ Hok u b Hb Hdel) Hrun).
Qed.

(** *** Deleting an account *)

Lemma retired_device user_id now (t : Registry) sessions i d' :
  rg_devices (retire_account user_id sessions now t) !! i = Some d' ->
  exists d, rg_devices t !! i = Some d /\ dv_id d' = dv_id d /\ dv_user_id d' = dv_user_id d /\ dv_name d' = dv_name d /\
    (dv_user_id d = user_id -> dv_revoked_at d' <> None).
Proof.
  cbn. rewrite lookup_fmap. destruct (rg_devices t !! i) as [d|]; [|done]. cbn. intros [= <-]. exists d. by case_bool_decide.
Qed.

Lemma kept_credential user_id now (t : Registry) sessions c :
  c ∈ rg_credentials (retire_account user_id sessions now t) <->
  c ∈ rg_credentials t /\ (forall d, rg_devices t !! cr_device_id c = Some d -> dv_user_id d <> user_id).
Proof.
  cbn. rewrite !list_elem_of_In, List.filter_In, negb_true_iff. destruct (rg_devices t !! cr_device_id c) as [d|]; cbn.
  - rewrite bool_decide_eq_false. naive_solver.
  - naive_solver.
Qed.

(** The account of a key or token that a credential stands for. *)
Lemma key_account t c k : registry_ok t -> c ∈ rg_credentials t -> cr_kind c = ApiKey -> rg_keys t !! cr_ref c = Some k ->
  forall d, rg_devices t !! cr_device_id c = Some d -> dv_user_id d = ak_user_id k.
Proof.
  intros Hok Hc Hkind Hk d Hd. destruct (ok_backed _ Hok c Hc) as (d0 & Hd0 & _ & Hb). unfold backed in Hb. rewrite Hkind in Hb.
  destruct Hb as (k0 & Hk0 & Hu & _). congruence.
Qed.

Lemma token_account t c k : registry_ok t -> c ∈ rg_credentials t -> cr_kind c = LiseurToken -> rg_tokens t !! cr_ref c = Some k ->
  forall d, rg_devices t !! cr_device_id c = Some d -> dv_user_id d = tk_user_id k.
Proof.
  intros Hok Hc Hkind Hk d Hd. destruct (ok_backed _ Hok c Hc) as (d0 & Hd0 & _ & Hb). unfold backed in Hb. rewrite Hkind in Hb.
  destruct Hb as (k0 & Hk0 & Hu & _). congruence.
Qed.

Lemma retire_ok user_id sessions now t : registry_ok t -> registry_ok (retire_account user_id sessions now t).
Proof.
  intros Hok. split.
  - intros i d' (d & Hd & -> & _)%retired_device. by apply (ok_ids _ Hok).
  - intros c [Hc Hne]%kept_credential. destruct (ok_backed _ Hok c Hc) as (d & Hd & Hl & Hb). specialize (Hne d Hd). exists d. split_and!; [|done|].
    + cbn. rewrite lookup_fmap, Hd. cbn. by rewrite bool_decide_eq_false_2.
    + unfold backed in *. destruct (cr_kind c); [| |done].
      * destruct Hb as (k & Hk & Hu & ?). exists k. split; [|done]. apply map_lookup_filter_Some. split; [done|]. cbn. congruence.
      * destruct Hb as (k & Hk & Hu & ?). exists k. split; [|done]. apply map_lookup_filter_Some. split; [done|]. cbn. congruence.
  - eapply sublist_NoDup; [apply (ok_unique _ Hok)|]. apply fmap_sublist. apply filter_sublist.
  - intros r k id [Hk Hne]%map_lookup_filter_Some Hdev. destruct (ok_keys _ Hok r k id Hk Hdev) as (c & Hc & [= Hkind <-] & Hid).
    exists c. split_and!; [|by unfold names; rewrite Hkind|done]. apply kept_credential. split; [done|]. intros d Hd.
    by rewrite (key_account t c k Hok Hc Hkind Hk d Hd).
  - intros r k [Hk Hne]%map_lookup_filter_Some Hreg Hrev. destruct (ok_tokens _ Hok r k Hk Hreg Hrev) as (c & Hc & [= Hkind <-] & Hid).
    exists c. split_and!; [|by unfold names; rewrite Hkind|done]. apply kept_credential. split; [done|]. intros d Hd.
    by rewrite (token_account t c k Hok Hc Hkind Hk d Hd).
  - intros i j d1 d2 (d & Hd & _ & -> & -> & _)%retired_device (d' & Hd' & _ & -> & -> & _)%retired_device. by apply (ok_names _ Hok).
Qed.

Lemma retire_retired user_id sessions now t other :
  other = user_id \/ retired other t -> retired other (retire_account user_id sessions now t).
Proof.
  intros Hor i d' Hd' Hu. pose proof Hd' as (d & Hd & _ & Hu' & _ & Hme)%retired_device. destruct (decide (dv_user_id d = user_id)); [by apply Hme|].
  destruct Hor as [->|Hr]; [congruence|]. cbn in Hd'. rewrite lookup_fmap, Hd in Hd'. cbn in Hd'. rewrite bool_decide_eq_false_2 in Hd' by done.
  injection Hd' as <-. by apply (Hr i d).
Qed.

Lemma unbind_row approvals id user_id p : row_ok approvals id p -> row_ok approvals id (unbind user_id p).
Proof.
  intros Hp. unfold unbind. destruct (_ && _) eqn:Hun; [|done]. apply andb_true_iff in Hun as [_ Hfree%negb_true_iff].
  destruct Hp. split; try done. cbn. congruence.
Qed.

Lemma unbind_frozen user_id p : frozen (unbind user_id p) = frozen p.
Proof. unfold unbind. by destruct (_ && _). Qed.

Lemma delete_ok actor user_id sessions now db tasks : pairing_ok db tasks -> pairing_ok (delete_account actor user_id sessions now db) tasks.
Proof.
  intros Hok. unfold delete_account. destruct (pd_accounts db !! user_id) as [account|] eqn:Hacc; [|done]. destruct (_ || _); [done|].
  set (db' := Build_PairingDb _ _ _ _ _). destruct Hok as [Hrows Happ ? Hc Ho Hm Ht ? Ha Hd].
  assert (Hev : evolves db db').
  { split; cbn; try done. intros i p Hp. exists (unbind user_id p). rewrite lookup_fmap, Hp. split; [done|apply unbind_frozen]. }
  split; try done.
  - cbn. intros i p' Hp'. rewrite lookup_fmap in Hp'. destruct (pd_pairings db !! i) as [p|] eqn:Hp; [|done]. injection Hp' as <-.
    by apply unbind_row, Hrows.
  - intros a Hin. by apply (approvals_evolve db), Happ.
  - intros i Hin. destruct (Hc i Hin) as (p & Hp & Hs & Hi). exists p. cbn. rewrite lookup_fmap, Hp. cbn. unfold unbind.
    rewrite Hi, andb_false_r. done.
  - intros m Hin. by apply (mint_evolves db), Hm.
  - intros t Hin. by apply (task_evolves db), Ht.
  - by apply retire_ok.
  - cbn. intros i a Hi. apply lookup_insert_Some in Hi as [[<- <-]|[_ Hi]]; [|by apply Ha]. cbn. by apply (Ha user_id).
  - cbn. intros i a Hi Hdel. apply retire_retired. apply lookup_insert_Some in Hi as [[<- <-]|[_ Hi]]; [by left|]. right. by apply (Hd i a).
Qed.

Lemma accounts_ok db tasks accounts :
  pairing_ok db tasks -> accounts_grow (pd_accounts db) accounts -> pairing_ok (put_accounts accounts db) tasks.
Proof.
  intros [? ? ? ? ? ? Ht ? Ha Hd] [Hnew _]. split; try done.
  - intros id a Hid. by apply (Hnew id a).
  - intros id a Hid Hdel. destruct (Hnew id a Hid) as [_ (a0 & Ha0 & Hdel0)%(fun f => f Hdel)]. by apply (Hd id a0).
Qed.

(** *** Every step *)

Lemma judge_sound rq p code nonce allow_komf proof :
  judge_approval rq p code nonce allow_komf = Ok (proof, true) ->
  authorize_credential_issuance (pa_kind p) (rq_issuance rq) = Ok tt /\
  (allow_komf = true -> pa_kind p = Komelia /\ has_permission (du_auth (rq_user rq)) EditMetadata = true) /\
  Forall (fun q => has_permission (du_auth (rq_user rq)) q = true) (required_permissions (pa_kind p) false) /\ proof_valid proof p.
Proof.
  unfold judge_approval. destruct (authorize_credential_issuance _ _) as [[]|e]; [|done].
  destruct (allow_komf && negb (bool_decide (pa_kind p = Komelia))) eqn:Hk; [done|].
  destruct (allow_komf && negb (has_permission _ EditMetadata)) eqn:He; [done|].
  destruct (List.filter _ _) as [|q missing] eqn:Hmiss; [|done]. intros Hproof. split_and!; [done| | |].
  - intros ->. cbn in Hk, He. apply negb_false_iff in Hk, He. by apply bool_decide_eq_true in Hk.
  - apply Forall_forall. intros q Hq%list_elem_of_In. destruct (has_permission _ q) eqn:Hp; [done|].
    assert (Hin : q ∈ ([] : list UserPermission)) by (rewrite <- Hmiss; apply list_elem_of_In, List.filter_In; by rewrite Hp).
    by apply not_elem_of_nil in Hin.
  - unfold proof_matches in Hproof. destruct code as [code|], nonce as [nonce|]; try done.
    + destruct (verify _ _) as [ok|] eqn:Hv; [|done]. by injection Hproof as <- ->.
    + injection Hproof as <- Hn. cbn. by apply bool_decide_eq_true in Hn.
Qed.

Lemma pending_in_time p now : pending_or p now = Ok tt -> now < pa_expires_at p.
Proof.
  unfold pending_or, effective_status, is_expired_at. destruct (pa_status p); try done. destruct (Z.leb_spec (pa_expires_at p) now); [done|lia].
Qed.

Lemma approve_load_ok c rq id code nonce allow_komf db rest :
  pairing_ok db (ApproveLoad rq id code nonce allow_komf :: rest) ->
  let r := run_task c (ApproveLoad rq id code nonce allow_komf) db in pairing_ok r.2 (r.1 :: rest).
Proof.
  intros Hok. assert (Hgo : forall t, holds t = None -> task_ok db t -> pairing_ok db (t :: rest)).
  { intros t Hh Ht. apply (move_task _ _ _ _ Hok); [by left|done]. }
  cbn. unfold approve_device_pairing. destruct (guard rq AccessApiKeys) eqn:Hg; [|by apply Hgo]. cbn. destruct (ch_fault c); [by apply Hgo|].
  destruct (pd_pairings db !! id) as [p|] eqn:Hp; [|by apply Hgo].
  destruct (pending_or p (ch_now c)) as [[]|[e []]] eqn:Hpend; [|by apply Hgo|by apply Hgo].
  destruct (judge_approval _ _ _ _ _) as [[proof []]|e] eqn:Hj; [|by apply Hgo|by apply Hgo].
  apply judge_sound in Hj as (? & ? & ? & ?). apply Hgo; [done|]. exists p. split; [done|]. split; try done. by apply pending_in_time.
Qed.

Lemma run_task_ok c t db rest : pairing_ok db (t :: rest) -> pairing_ok (run_task c t db).2 ((run_task c t db).1 :: rest).
Proof.
  intros Hok. assert (Hgo : forall t', holds t' = None -> task_ok db t' -> pairing_ok db (t' :: rest)).
  { intros t' Hh Ht. apply (move_task _ _ _ _ Hok); [by left|done]. }
  destruct t; try (by apply approve_load_ok); cbn [run_task];
    unfold start_pairing, insert_pairing, pairing_status, record_failed_attempt, deny_device_pairing.
  - destruct (normalize_name name); [|by apply Hgo]. repeat (destruct (_ : bool); [by apply Hgo|]).
    destruct (generate_code _); [|by apply Hgo]. by destruct (hash_password _ _); apply Hgo.
  - destruct (_ || _) eqn:Hnew; [by apply Hgo|]. apply orb_false_iff in Hnew as [_ Hnew%negb_false_iff]. cbn [fst snd].
    set (p := Build_PairingRow _ _ _ _ _ _ _ _ _ _ _ _ _ _). change (ch_id c) with (pa_id p).
    apply start_ok; try done; [by apply Hgo|]. cbn. by destruct (pd_pairings db !! ch_id c).
  - destruct (ch_fault c); [by apply Hgo|]. destruct (pd_pairings db !! id) as [p|] eqn:Hp; [|by apply Hgo].
    case_bool_decide as Hn; [|by apply Hgo]. cbn [negb]. destruct (_ && _); [by apply Hgo|]. destruct (_ || _); [by apply Hgo|].
    apply Hgo; [done|]. by exists p.
  - destruct (ch_fault c); [by apply Hgo|]. by apply persist_expiry_ok, Hgo.
  - destruct (ch_fault c); [by apply Hgo|]. pose proof (claim_ok db id nonce rest Hok) as Hc. by destruct (claim_credential id db).
  - destruct (ch_fault c); [by apply Hgo|by apply issue_ok].
  - destruct (ch_fault c); [by apply Hgo|]. apply (move_task _ _ _ _ Hok); [by right|done].
  - destruct (ch_fault c); [by apply Hgo|]. by apply (release_ok db id e).
  - destruct (ch_fault c); [by apply Hgo|]. by apply persist_expiry_ok, Hgo.
  - destruct (ch_fault c); [by apply Hgo|]. by apply count_ok, Hgo.
  - destruct (ch_fault c); [by apply Hgo|]. by destruct (_ : bool); apply Hgo.
  - destruct (ch_fault c); [by apply Hgo|]. by apply deny_ok, Hgo.
  - destruct (ch_fault c); [by apply Hgo|].
    pose proof (approve_ok db approval rest (Reload (ap_pairing approval)) Hok eq_refl (fun _ => I)) as H1.
    pose proof (approve_ok db approval rest (Answered (PErr PNotPending)) Hok eq_refl (fun _ => I)) as H2.
    destruct (approve_row approval db) as [[] db']; [exact H1|exact H2].
  - destruct (ch_fault c); [by apply Hgo|]. by destruct (pd_pairings db !! id); apply Hgo.
  - destruct (guard rq AccessApiKeys); [|by apply Hgo]. cbn [negb]. destruct (ch_fault c); [by apply Hgo|].
    destruct (pd_pairings db !! id); [|by apply Hgo]. by destruct (pending_or _ _) as [|[? []]]; apply Hgo.
  - destruct (ch_fault c); [by apply Hgo|].
    assert (Hd : forall t', holds t' = None -> (forall db', task_ok db' t') -> pairing_ok (deny id (du_id (rq_user rq)) db).2 (t' :: rest)).
    { intros t' Hh Ht. by apply deny_ok, Hgo. }
    destruct (deny id (du_id (rq_user rq)) db) as [[] db']; by apply Hd.
  - done.
Qed.

Lemma pairing_step_ok s s' : pairing_step s s' -> pairing_ok (ps_db s) (ps_tasks s) -> pairing_ok (ps_db s') (ps_tasks s').
Proof.
  intros Hstep Hok. destruct Hstep as [s t Hreq|c i s s' Hrun|s accounts Hgrow|s actor user_id sessions now]; cbn.
  - destruct Hok as [? ? ? Hc Ho ? Ht ? ? ?].
    assert (Hsame : holders (ps_db s) (ps_tasks s ++ [t]) = holders (ps_db s) (ps_tasks s)).
    { unfold holders. rewrite omap_app. by destruct t; cbn; rewrite ?app_nil_r. }
    split; try done; rewrite ?Hsame; try done. intros u [Hu| ->%list_elem_of_singleton]%elem_of_app; [by apply Ht|]. by destruct t.
  - unfold step_task in Hrun. destruct (ps_tasks s !! i) as [t|] eqn:Hi; [|done]. cbn in Hrun.
    pose proof (fun rest => run_task_ok c t (ps_db s) rest) as Hone. destruct (run_task c t (ps_db s)) as [t' db']. injection Hrun as <-. cbn in *.
    destruct (insert_front (ps_tasks s) i t t' Hi) as (rest & Hfrom & Hto).
    apply (pairing_ok_perm _ (t' :: rest)); [done|]. apply Hone. by eapply pairing_ok_perm.
  - by apply accounts_ok.
  - by apply delete_ok.
Qed.

(** Before the first request: accounts and their devices. *)
Record pairing_start (s : PairingSystem) : Prop := {
  st_none : pd_pairings (ps_db s) = ∅ /\ pd_approvals (ps_db s) = [] /\ pd_mints (ps_db s) = [] /\ ps_tasks s = [];
  st_registry : registry_ok (db_tables (pd_registry (ps_db s)));
  st_accounts : forall id a, pd_accounts (ps_db s) !! id = Some a -> du_id (ac_user a) = id;
  st_deleted : forall id a, pd_accounts (ps_db s) !! id = Some a -> ac_deleted a = true -> retired id (db_tables (pd_registry (ps_db s)));
}.

Lemma start_pairing_ok s : pairing_start s -> pairing_ok (ps_db s) (ps_tasks s).
Proof.
  intros [(Hp & Ha & Hm & Ht) ? ? ?]. split; unfold holders; rewrite ?Hp, ?Ha, ?Hm, ?Ht; try done; try constructor;
    intros ? Hin; by apply not_elem_of_nil in Hin.
Qed.

Lemma reachable_pairing_ok s s' : pairing_start s -> rtc pairing_step s s' -> pairing_ok (ps_db s') (ps_tasks s').
Proof. intros Hs%start_pairing_ok Hrtc. induction Hrtc as [|s s1 s' Hstep _ IH]; [done|]. by eapply IH, pairing_step_ok. Qed.

(** C21. Pairing hands out credentials once, and to whom it should.  However the requests of
    devices and accounts interleave, whichever of their statements fail, and whatever accounts
    are added, changed or deleted in between: credentials are minted at most once for a
    pairing; for one that was approved, once, before it expired, by an account that may approve
    it and has every permission the kind of the device needs, with the code or the nonce of
    that pairing; the device that is minted is of the kind that was asked for and belongs to
    the account that approved; only a request that shows the nonce of the pairing is answered
    with them; and no account that was deleted has a live device, key or token. *)
Theorem pairing_safe s s' :
  pairing_start s -> rtc pairing_step s s' ->
  let db := ps_db s' in
  NoDup (mi_pairing <$> pd_mints db) /\ NoDup (ap_pairing <$> pd_approvals db) /\
  (forall m, m ∈ pd_mints db -> exists a p, a ∈ pd_approvals db /\ ap_pairing a = mi_pairing m /\ pd_pairings db !! mi_pairing m = Some p /\
     approval_ok a p /\ dv_user_id (mi_device m) = du_id (rq_user (ap_by a)) /\ dv_kind (mi_device m) = pa_kind p /\ pa_credential_issued p = true) /\
  (forall id nonce device username issued, Answered (PIssued id nonce device username issued) ∈ ps_tasks s' ->
     exists p m, pd_pairings db !! id = Some p /\ nonce = pa_nonce p /\ m ∈ pd_mints db /\ mi_pairing m = id /\ mi_device m = device) /\
  registry_ok (db_tables (pd_registry db)) /\
  (forall user_id account, pd_accounts db !! user_id = Some account -> ac_deleted account = true ->
     forall i d, rg_devices (db_tables (pd_registry db)) !! i = Some d -> dv_user_id d = user_id ->
     dv_revoked_at d <> None /\ credentials_of i (db_tables (pd_registry db)) = []).
Proof.
  intros Hs Hrtc. cbn zeta. pose proof (reachable_pairing_ok s s' Hs Hrtc) as [Hrows Happ Hu Hc Ho Hm Ht Hreg Ha Hd].
  split_and!; try done.
  - unfold holders in Ho. by apply NoDup_app in Ho as (_ & _ & ?).
  - intros m Hin. destruct (Hm m Hin) as (a & p & Hina & Hid & Hby & Hp & Hdev & Hk). destruct (Happ a Hina) as (p0 & Hp0 & Hok).
    rewrite Hid, Hp in Hp0. injection Hp0 as <-. exists a, p. split_and!; try done; [congruence|].
    destruct (Hc (mi_pairing m)) as (p0 & Hp0 & _ & ?); [|congruence]. apply elem_of_app. right. by apply list_elem_of_fmap_2.
  - intros id nonce device username issued Hin. destruct (Ht _ Hin) as (p & m & ? & ? & ?). by exists p, m.
  - intros u account Hacc Hdel i d Hi Hown. pose proof (Hd u account Hacc Hdel i d Hi Hown) as Hrev. split; [done|].
    apply elem_of_nil_inv. intros cr [Hin Hof]%credentials_of_elem. destruct (ok_backed _ Hreg cr Hin) as (d0 & Hd0 & Hl & _). congruence.
Qed.

End pairing.

(** ** Examples *)

#[local] Instance sample_bcrypt : Bcrypt := {| verify := fun s h => Some (bool_decide (s = h)); hash_password := fun _ s => Some s |}.
#[local] Instance sample_pairing_hashing : Hashing := {| hash_key := fun s => s; hash_secret := fun s => s |}.

(** A schedule: what comes in, and which task runs next. *)
Inductive Event := ERequest (t : PairingTask) | ETask (i : nat) (c : Choice) | EDelete (actor : DeviceUser) (user_id : str).

Definition play_one (e : Event) (s : PairingSystem) : option PairingSystem :=
  match e with
  | ERequest t => if is_request t then Some {| ps_db := ps_db s; ps_tasks := ps_tasks s ++ [t] |} else None
  | ETask i c => step_task c i s
  | EDelete actor user_id => Some {| ps_db := delete_account actor user_id ∅ 9 (ps_db s); ps_tasks := ps_tasks s |}
  end.

Fixpoint play (es : list Event) (s : PairingSystem) : option PairingSystem :=
  match es with [] => Some s | e :: es => s' ← play_one e s; play es s' end.

Lemma play_rtc es : forall s s', play es s = Some s' -> rtc pairing_step s s'.
Proof.
  induction es as [|e es IH]; cbn; intros s s' Hplay; [injection Hplay as <-; apply rtc_refl|].
  destruct (play_one e s) as [s1|] eqn:Hone; [|done]. eapply rtc_l; [|by apply IH].
  destruct e as [t|i c|actor u]; cbn in Hone.
  - destruct (is_request t) eqn:Hr; [|done]. injection Hone as <-. by apply request_step.
  - by eapply statement_step.
  - injection Hone as <-. apply delete_step.
Qed.

Definition admin : DeviceUser := {| du_id := lit "o"; du_username := lit "al"; du_auth := {| is_server_owner := true; permissions := [] |} |}.

Definition reader : DeviceUser :=
  {| du_id := lit "v"; du_username := lit "bo"; du_auth := {| is_server_owner := false; permissions := [AccessApiKeys; AccessKoboSync; DownloadFile] |} |}.

Definition pairing_accounts : gmap str Account :=
  <[lit "o" := {| ac_user := admin; ac_deleted := false; ac_locked := false |}]>
  (<[lit "v" := {| ac_user := reader; ac_deleted := false; ac_locked := false |}]> ∅).

Definition pairing_begin : PairingSystem :=
  {| ps_db := {| pd_pairings := ∅; pd_accounts := pairing_accounts;
                 pd_registry := {| db_tables := empty_registry; db_faults := []; db_now := 0; db_draws := [] |}; pd_approvals := []; pd_mints := [] |};
     ps_tasks := [] |}.

Lemma pairing_begin_ok : pairing_start pairing_begin.
Proof.
  split; [done|apply empty_registry_ok| |].
  - intros id a Hid. change (pairing_accounts !! id = Some a) in Hid. unfold pairing_accounts in Hid. apply lookup_insert_Some in Hid as [[<- <-]|[_ Hid]]; [done|]. apply lookup_insert_Some in Hid as [[<- <-]|[_ Hid]]; [done|].
    by rewrite lookup_empty in Hid.
  - intros id a _ _ i d Hd. cbn in Hd. by rewrite lookup_empty in Hd.
Qed.

Definition sample_choice : Choice :=
  {| ch_now := 7; ch_fault := false; ch_raw := [123456]; ch_id := lit "p"; ch_nonce := lit "n"; ch_salt := 0; ch_registry := [];
     ch_draws := [(lit "d1", []); (lit "k1", lit "s1")] |}.

Definition failing_choice : Choice :=
  {| ch_now := 7; ch_fault := true; ch_raw := []; ch_id := []; ch_nonce := []; ch_salt := 0; ch_registry := []; ch_draws := [] |}.

Definition approver : Requester := {| rq_user := reader; rq_locked := false; rq_issuance := InteractiveSession |}.

Definition guess (code : str) : Event := ERequest (ApproveLoad approver (lit "p") (Some code) None false).

Definition runs (order : list nat) : list Event := (fun i => ETask i sample_choice) <$> order.

(** A pairing is started and approved with its code, and the device asks for its credentials. *)
Definition sample_pairing : list Event :=
  [ERequest (StartCount Kobo None (lit "ip"))] ++ runs [0; 0]%nat ++ [guess (lit "123456 ")] ++ runs [1; 1; 1]%nat ++
  [ERequest (PollRead (lit "p") (lit "n"))] ++ runs [2; 2]%nat.

Definition sample_outcome (s : PairingSystem) : list (str * str) * bool * option bool :=
  ((fun m => (mi_pairing m, mi_user_id m)) <$> pd_mints (ps_db s),
   bool_decide (rg_credentials (db_tables (pd_registry (ps_db s))) = []),
   (fun d => is_none (dv_revoked_at d)) <$> rg_devices (db_tables (pd_registry (ps_db s))) !! lit "d1").

Lemma pairing_safe_witness :
  exists s', play (sample_pairing ++ runs [2]%nat ++ [EDelete admin (lit "v")]) pairing_begin = Some s' /\
    sample_outcome s' = ([(lit "p", lit "v")], true, Some false) /\ NoDup (mi_pairing <$> pd_mints (ps_db s')).
Proof.
  eexists. split; [vm_compute; reflexivity|]. split; [vm_compute; reflexivity|].
  refine (proj1 (pairing_safe pairing_begin _ pairing_begin_ok (play_rtc (sample_pairing ++ runs [2]%nat ++ [EDelete admin (lit "v")]) _ _ _))).
  vm_compute; reflexivity.
Defined.

(** When a statement fails after the claim was taken, the claim stays taken: the pairing reads
    as approved and issued, and nothing was minted for it. *)
Example claim_without_credential :
  match play (sample_pairing ++ [ETask 2 failing_choice; ERequest (PollRead (lit "p") (lit "n"))] ++ runs [3]%nat) pairing_begin with
  | Some s => pd_mints (ps_db s) = [] /\ ps_tasks s !! 3%nat = Some (Answered (PBare Approved)) /\
      pa_credential_issued <$> pd_pairings (ps_db s) !! lit "p" = Some true
  | None => False
  end.
Proof. vm_compute. split_and!; reflexivity. Qed.

(** Guesses that come in at once are all judged before one of them is counted: six wrong ones
    do not stop the seventh. *)
Example guesses_race :
  match play ([ERequest (StartCount Kobo None (lit "ip"))] ++ runs [0; 0]%nat ++
              (guess <$> [lit "0"; lit "1"; lit "2"; lit "3"; lit "4"; lit "5"; lit "123456"]) ++ runs [1; 2; 3; 4; 5; 6; 7; 7]%nat) pairing_begin with
  | Some s => pa_status <$> pd_pairings (ps_db s) !! lit "p" = Some Approved /\
      length (List.filter (fun t => match t with ApproveCount _ _ => true | _ => false end) (ps_tasks s)) = 6%nat
  | None => False
  end.
Proof. vm_compute. split_and!; reflexivity. Qed.
