(* ===== verification/WorkerQueue.v ===== *)
(** * The queue of remote work

    Models [src/crates/worker/src/service.rs], [hub.rs], the matching and registry of
    [kind.rs], [protocol.rs], [event.rs] and the upload of
    [src/apps/server/src/routers/api/v2/workers.rs]: jobs that a worker on another machine
    may run, offered over its socket, or that the server runs itself.

    Calls are asynchronous and interleave at every database statement, lock and file
    operation.  A call is a program [Prog] of such atomic actions; [exec] runs one action,
    given what the world decides ([Choice]): the clock, whether the statement fails, what a
    local runner and the validator answer.  [system_step] runs any call that is under
    way.  Frames are values: their JSON is derived. *)

From stdpp Require Import base gmap list strings sorting.
From Stdlib Require Import ZArith Lia.
From S2P Require Import Prelude Float64.

#[local] Open Scope Z_scope.
#[local] Open Scope coppice_scope.

Abbreviation Json := (json f64).

(** ** Rows and frames *)

Inductive WorkerJobStatus := Queued | Claimed | Running | Done | Failed | NeedsWorker.

#[export] Instance WorkerJobStatus_eq_dec : EqDecision WorkerJobStatus.
Proof. solve_decision. Defined.

Definition is_terminal (st : WorkerJobStatus) : bool := match st with Done | Failed => true | _ => false end.

Definition is_assigned (st : WorkerJobStatus) : bool := match st with Queued | Claimed | Running => true | _ => false end.

Definition status_word (st : WorkerJobStatus) : str :=
  match st with
  | Queued => lit "queued"
  | Claimed => lit "claimed"
  | Running => lit "running"
  | Done => lit "done"
  | Failed => lit "failed"
  | NeedsWorker => lit "needs_worker"
  end.

Record JobRow := {
  wj_id : str;
  wj_kind : str;
  wj_input : Json;
  wj_requires : Json;
  wj_status : WorkerJobStatus;
  wj_worker_id : option str;
  wj_priority : Z;
  wj_progress : f64;
  wj_progress_message : option str;
  wj_result : option Json;
  wj_error : option str;
  wj_created_at : Z;
  wj_updated_at : Z;
  wj_started_at : option Z;
  wj_finished_at : option Z;
}.

Inductive WorkerFrame :=
| Hello (capabilities : Json) (name version : option str)
| Claim (job_id : str)
| Progress (job_id : str) (fraction : f64) (message : option str)
| Result (job_id : str) (output : Json)
| Fail_ (job_id : str) (error : str).

Inductive ServerFrame :=
| JobOffer (id kind : str) (input : Json) (priority : Z)
| CancelJob (job_id : str).

Record WorkerJobChanged := {
  wc_id : str;
  wc_kind : str;
  wc_status : WorkerJobStatus;
  wc_worker_id : option str;
  wc_progress : f64;
  wc_message : option str;
  wc_error : option str;
}.

Definition changed_of (job : JobRow) : WorkerJobChanged :=
  {| wc_id := wj_id job; wc_kind := wj_kind job; wc_status := wj_status job; wc_worker_id := wj_worker_id job;
     wc_progress := wj_progress job; wc_message := wj_progress_message job; wc_error := wj_error job |}.

Inductive JobOutcome :=
| ODone (result : Json) (output_path : str)
| OFailed (error : str)
| ONeedsWorker.

Inductive WorkerError :=
| Database
| NotFound (id : str)
| NotAssigned (job_id worker_id : str)
| TimedOut (id : str)
| Io
| Invalid (message : str).

(** ** Capabilities *)

Definition is_truthy (v : Json) : bool := match v with JNull | JBool false => false | _ => true end.

Definition entry (key : str) (fields : list (str * Json)) : option Json :=
  snd <$> List.find (fun kv => bool_decide (kv.1 = key)) fields.

Fixpoint satisfies (capabilities requires : Json) {struct requires} : bool :=
  match requires with
  | JNull | JBool false => true
  | JBool true => is_truthy capabilities
  | JObject required =>
      match capabilities with
      | JObject advertised =>
          (fix all (required : list (str * Json)) : bool :=
             match required with
             | [] => true
             | (key, want) :: required => satisfies (default JNull (entry key advertised)) want && all required
             end) required
      | _ => false
      end
  | JArray required =>
      match capabilities with
      | JArray advertised => forallb (fun want => existsb (fun have => value_eq have want) advertised) required
      | _ => false
      end
  | other => value_eq capabilities other
  end.

(** ** The state of the server *)

Record ConnectedWorker := {
  cw_device_id : str;
  cw_name : str;
  cw_version : option str;
  cw_capabilities : Json;
  cw_connected_at : Z;
  cw_last_frame_at : Z;
}.

Record Connection := { cn_worker : ConnectedWorker; cn_epoch : Z }.

(** The channel to a transport is named by the epoch of its connection; [sv_outbound] has
    the channels whose receiver is alive.  [sv_outcomes] are the outcomes that reached the
    callers that wait.  [sv_accepted] records what the validator accepted; no code reads it. *)
Record Server := {
  sv_jobs : gmap str JobRow;
  sv_hub : gmap str Connection;
  sv_epochs : Z;
  sv_outbound : gmap Z (list ServerFrame);
  sv_waiters : gmap str (list nat);
  sv_next_waiter : nat;
  sv_outcomes : gmap nat (str * JobOutcome);
  sv_outputs : gmap str str;
  sv_staged : gmap str str;
  sv_events : list WorkerJobChanged;
  sv_accepted : list (str * Json);
}.

Definition set_jobs (s : Server) (jobs : gmap str JobRow) : Server :=
  {| sv_jobs := jobs; sv_hub := sv_hub s; sv_epochs := sv_epochs s; sv_outbound := sv_outbound s; sv_waiters := sv_waiters s;
     sv_next_waiter := sv_next_waiter s; sv_outcomes := sv_outcomes s; sv_outputs := sv_outputs s; sv_staged := sv_staged s;
     sv_events := sv_events s; sv_accepted := sv_accepted s |}.

Definition set_hub (s : Server) (hub : gmap str Connection) (epochs : Z) (outbound : gmap Z (list ServerFrame)) : Server :=
  {| sv_jobs := sv_jobs s; sv_hub := hub; sv_epochs := epochs; sv_outbound := outbound; sv_waiters := sv_waiters s;
     sv_next_waiter := sv_next_waiter s; sv_outcomes := sv_outcomes s; sv_outputs := sv_outputs s; sv_staged := sv_staged s;
     sv_events := sv_events s; sv_accepted := sv_accepted s |}.

Definition set_waiters (s : Server) (waiters : gmap str (list nat)) (next : nat) (outcomes : gmap nat (str * JobOutcome)) : Server :=
  {| sv_jobs := sv_jobs s; sv_hub := sv_hub s; sv_epochs := sv_epochs s; sv_outbound := sv_outbound s; sv_waiters := waiters;
     sv_next_waiter := next; sv_outcomes := outcomes; sv_outputs := sv_outputs s; sv_staged := sv_staged s;
     sv_events := sv_events s; sv_accepted := sv_accepted s |}.

Definition set_files (s : Server) (outputs staged : gmap str str) : Server :=
  {| sv_jobs := sv_jobs s; sv_hub := sv_hub s; sv_epochs := sv_epochs s; sv_outbound := sv_outbound s; sv_waiters := sv_waiters s;
     sv_next_waiter := sv_next_waiter s; sv_outcomes := sv_outcomes s; sv_outputs := outputs; sv_staged := staged;
     sv_events := sv_events s; sv_accepted := sv_accepted s |}.

Definition set_events (s : Server) (events : list WorkerJobChanged) (accepted : list (str * Json)) : Server :=
  {| sv_jobs := sv_jobs s; sv_hub := sv_hub s; sv_epochs := sv_epochs s; sv_outbound := sv_outbound s; sv_waiters := sv_waiters s;
     sv_next_waiter := sv_next_waiter s; sv_outcomes := sv_outcomes s; sv_outputs := sv_outputs s; sv_staged := sv_staged s;
     sv_events := events; sv_accepted := accepted |}.

(** ** The hub *)

Definition by_device (a b : ConnectedWorker) : Prop := str_ord (cw_device_id a) (cw_device_id b).

#[global] Instance by_device_dec a b : Decision (by_device a b).
Proof. unfold by_device. apply _. Defined.

Definition hub_workers (s : Server) : list ConnectedWorker := (fun kv => cn_worker kv.2) <$> map_to_list (sv_hub s).

Definition connected (s : Server) : list ConnectedWorker := merge_sort by_device (hub_workers s).

Definition capable_worker (requires : Json) (s : Server) : option ConnectedWorker :=
  hd_error (merge_sort by_device (List.filter (fun w => satisfies (cw_capabilities w) requires) (hub_workers s))).

Definition hub_send (device_id : str) (frame : ServerFrame) (s : Server) : bool * Server :=
  match sv_hub s !! device_id with
  | Some c =>
      match sv_outbound s !! cn_epoch c with
      | Some frames => (true, set_hub s (sv_hub s) (sv_epochs s) (<[cn_epoch c := frames ++ [frame]]> (sv_outbound s)))
      | None => (false, s)
      end
  | None => (false, s)
  end.

Definition hub_touch (now : Z) (device_id : str) (s : Server) : Server :=
  match sv_hub s !! device_id with
  | Some c =>
      let w := cn_worker c in
      set_hub s (<[device_id :=
        {| cn_worker := {| cw_device_id := cw_device_id w; cw_name := cw_name w; cw_version := cw_version w;
                           cw_capabilities := cw_capabilities w; cw_connected_at := cw_connected_at w; cw_last_frame_at := now |};
           cn_epoch := cn_epoch c |}]> (sv_hub s)) (sv_epochs s) (sv_outbound s)
  | None => s
  end.

Definition hub_insert (now : Z) (device_id name : str) (version : option str) (capabilities : Json) (epoch : Z) (s : Server) : Server :=
  set_hub s (<[device_id :=
    {| cn_worker := {| cw_device_id := device_id; cw_name := name; cw_version := version; cw_capabilities := capabilities;
                       cw_connected_at := now; cw_last_frame_at := now |};
       cn_epoch := epoch |}]> (sv_hub s)) (sv_epochs s) (sv_outbound s).

Definition hub_detach (device_id : str) (epoch : Z) (s : Server) : bool * Server :=
  match sv_hub s !! device_id with
  | Some c => if cn_epoch c =? epoch then (true, set_hub s (delete device_id (sv_hub s)) (sv_epochs s) (sv_outbound s)) else (false, s)
  | None => (false, s)
  end.

(** ** Actions *)

(** Statements. *)
Inductive DbAct : Type -> Type :=
| GetJob (id : str) : DbAct (option JobRow)
| Query (select : list JobRow -> list JobRow) : DbAct (list JobRow)
| InsertJob (row : JobRow) : DbAct JobRow
| UpdateJob (id : str) (guard : JobRow -> bool) (change : JobRow -> JobRow) : DbAct Z.

Inductive Act : Type -> Type :=
| Db {A} (a : DbAct A) : Act (option A)
| Clock : Act Z
| NewId : Act str
| Connected : Act (list ConnectedWorker)
| CapableWorker (requires : Json) : Act (option ConnectedWorker)
| Send (device_id : str) (frame : ServerFrame) : Act bool
| Touch (device_id : str) : Act unit
| OpenChannel : Act Z
| HubInsert (device_id name : str) (version : option str) (capabilities : Json) (epoch : Z) : Act unit
| HubDetach (device_id : str) (epoch : Z) : Act bool
| Register (id : str) : Act nat
| Unregister (id : str) : Act (list nat)
| Deliver (id : str) (waiter : nat) (outcome : JobOutcome) : Act unit
| Await (waiter : nat) : Act (option JobOutcome)
| MakeOutputDir : Act bool
| StageOutput (id bytes : str) : Act bool
| PublishOutput (id : str) : Act bool
| RemoveOutput (id : str) : Act unit
| Spawn (job : JobRow) : Act unit
| RunLocal (job : JobRow) : Act (result Json str)
| Validate (job : JobRow) (output : Json) : Act (result unit str)
| Announce (job : JobRow) : Act unit.

(** What the world decides when an action runs. *)
Record Choice := {
  cc_now : Z;
  cc_fault : bool;
  cc_id : str;
  cc_timeout : bool;
  cc_written : option str;
  cc_ran : result Json str;
  cc_valid : result unit str;
}.

Definition db_exec {A} (a : DbAct A) (s : Server) : option A * Server :=
  match a in DbAct A return option A * Server with
  | GetJob id => (Some (sv_jobs s !! id), s)
  | Query select => (Some (select (map_to_list (sv_jobs s)).*2), s)
  | InsertJob row =>
      match sv_jobs s !! wj_id row with
      | Some _ => (None, s)
      | None => (Some row, set_jobs s (<[wj_id row := row]> (sv_jobs s)))
      end
  | UpdateJob id guard change =>
      match sv_jobs s !! id with
      | Some row => if guard row then (Some 1, set_jobs s (<[id := change row]> (sv_jobs s))) else (Some 0, s)
      | None => (Some 0, s)
      end
  end.

(** [None] when the action has to wait. *)
Definition exec (c : Choice) {A} (a : Act A) (s : Server) : option (A * Server) :=
  match a in Act A return option (A * Server) with
  | Db a => Some (if cc_fault c then (None, s) else db_exec a s)
  | Clock => Some (cc_now c, s)
  | NewId => Some (cc_id c, s)
  | Connected => Some (connected s, s)
  | CapableWorker requires => Some (capable_worker requires s, s)
  | Send device_id frame => Some (hub_send device_id frame s)
  | Touch device_id => Some (tt, hub_touch (cc_now c) device_id s)
  | OpenChannel =>
      let epoch := sv_epochs s + 1 in
      Some (epoch, set_hub s (sv_hub s) epoch (<[epoch := []]> (sv_outbound s)))
  | HubInsert device_id name version capabilities epoch =>
      Some (tt, hub_insert (cc_now c) device_id name version capabilities epoch s)
  | HubDetach device_id epoch => Some (hub_detach device_id epoch s)
  | Register id =>
      let w := sv_next_waiter s in
      Some (w, set_waiters s (<[id := default [] (sv_waiters s !! id) ++ [w]]> (sv_waiters s)) (S w) (sv_outcomes s))
  | Unregister id =>
      Some (default [] (sv_waiters s !! id), set_waiters s (delete id (sv_waiters s)) (sv_next_waiter s) (sv_outcomes s))
  | Deliver id waiter outcome =>
      Some (tt, set_waiters s (sv_waiters s) (sv_next_waiter s) (<[waiter := (id, outcome)]> (sv_outcomes s)))
  | Await waiter =>
      match sv_outcomes s !! waiter with
      | Some (_, outcome) => Some (Some outcome, s)
      | None => if cc_timeout c then Some (None, s) else None
      end
  | MakeOutputDir => Some (negb (cc_fault c), s)
  | StageOutput id bytes =>
      Some (if cc_fault c then (false, s) else (true, set_files s (sv_outputs s) (<[id := bytes]> (sv_staged s))))
  | PublishOutput id =>
      Some (match sv_staged s !! id with
            | Some bytes => if cc_fault c then (false, s) else (true, set_files s (<[id := bytes]> (sv_outputs s)) (delete id (sv_staged s)))
            | None => (false, s)
            end)
  | RemoveOutput id => Some (tt, if cc_fault c then s else set_files s (delete id (sv_outputs s)) (sv_staged s))
  | Spawn _ => Some (tt, s)
  | RunLocal job =>
      Some (cc_ran c, match cc_written c with
                      | Some bytes => set_files s (<[wj_id job := bytes]> (sv_outputs s)) (sv_staged s)
                      | None => s
                      end)
  | Validate job output =>
      Some (cc_valid c, match cc_valid c with
                        | Ok _ => set_events s (sv_events s) ((wj_id job, output) :: sv_accepted s)
                        | Err _ => s
                        end)
  | Announce job => Some (tt, set_events s (sv_events s ++ [changed_of job]) (sv_accepted s))
  end.

(** ** Programs *)

Inductive Prog (A : Type) : Type :=
| Ret (a : A)
| Vis {X : Type} (act : Act X) (k : X -> Prog A).

Arguments Ret {A} _.
Arguments Vis {A X} _ _.

Fixpoint prog_bind {A B} (p : Prog A) (f : A -> Prog B) : Prog B :=
  match p with
  | Ret a => f a
  | Vis act k => Vis act (fun x => prog_bind (k x) f)
  end.

(** [WorkerResult]; an error ends the call. *)
Definition Call (A : Type) : Type := Prog (result A WorkerError).

Definition call_bind {A B} (c : Call A) (f : A -> Call B) : Call B :=
  prog_bind c (fun r => match r with Ok a => f a | Err e => Ret (Err e) end).

Definition ret {A} (a : A) : Call A := Ret (Ok a).

Definition throw {A} (e : WorkerError) : Call A := Ret (Err e).

Definition act {A} (a : Act A) : Call A := Vis a (fun x => Ret (Ok x)).

Definition db {A} (a : DbAct A) : Call A :=
  Vis (Db a) (fun r => match r with Some x => Ret (Ok x) | None => Ret (Err Database) end).

Notation "x <~ c ;; k" := (call_bind c (fun x => k)) (at level 100, c at next level, right associativity) : coppice_scope.

(** ** The service *)

(** The kinds with a local runner, whether a validator is installed, the claim deadline,
    where outputs are, the budget of the cache and the digest of an upload. *)
Class WorkerHost := {
  local_kind : str -> bool;
  validates : bool;
  claim_deadline : Z;
  output_path : str -> str;
  cache_max_bytes : Z;
  sha256_hex : str -> str;
}.

Section service.
Context `{WorkerHost}.

Record Transition := {
  tr_worker_id_guard : option str;
  tr_worker_id : option (option str);
  tr_progress : option f64;
  tr_message : option (option str);
  tr_error : option str;
  tr_started_at : bool;
  tr_finished_at : bool;
}.

Definition no_change : Transition :=
  {| tr_worker_id_guard := None; tr_worker_id := None; tr_progress := None; tr_message := None; tr_error := None;
     tr_started_at := false; tr_finished_at := false |}.

Definition reassigned (worker_id : option str) (guard : option str) : Transition :=
  {| tr_worker_id_guard := guard; tr_worker_id := Some worker_id; tr_progress := None; tr_message := None; tr_error := None;
     tr_started_at := false; tr_finished_at := false |}.

Definition status_in (from : list WorkerJobStatus) (r : JobRow) : bool := bool_decide (wj_status r ∈ from).

Definition moved (now : Z) (to : WorkerJobStatus) (change : Transition) (r : JobRow) : JobRow :=
  {| wj_id := wj_id r; wj_kind := wj_kind r; wj_input := wj_input r; wj_requires := wj_requires r; wj_status := to;
     wj_worker_id := default (wj_worker_id r) (tr_worker_id change); wj_priority := wj_priority r;
     wj_progress := default (wj_progress r) (tr_progress change);
     wj_progress_message := default (wj_progress_message r) (tr_message change); wj_result := wj_result r;
     wj_error := tr_error change orelse wj_error r; wj_created_at := wj_created_at r; wj_updated_at := now;
     wj_started_at := (if tr_started_at change then Some now else wj_started_at r);
     wj_finished_at := (if tr_finished_at change then Some now else wj_finished_at r) |}.

Definition update_status (id : str) (from : list WorkerJobStatus) (to : WorkerJobStatus) (change : Transition) : Call (option JobRow) :=
  now <~ act Clock ;;
  affected <~ db (UpdateJob id (fun r =>
    status_in from r && match tr_worker_id_guard change with Some w => bool_decide (wj_worker_id r = Some w) | None => true end)
    (moved now to change)) ;;
  if affected =? 0 then ret None else db (GetJob id).

Definition finished (now : Z) (outcome : result Json str) (r : JobRow) : JobRow :=
  {| wj_id := wj_id r; wj_kind := wj_kind r; wj_input := wj_input r; wj_requires := wj_requires r;
     wj_status := (match outcome with Ok _ => Done | Err _ => Failed end); wj_worker_id := wj_worker_id r;
     wj_priority := wj_priority r; wj_progress := (match outcome with Ok _ => f64_one | Err _ => wj_progress r end);
     wj_progress_message := wj_progress_message r;
     wj_result := (match outcome with Ok v => Some v | Err _ => None end);
     wj_error := (match outcome with Ok _ => None | Err e => Some e end);
     wj_created_at := wj_created_at r; wj_updated_at := now; wj_started_at := wj_started_at r; wj_finished_at := Some now |}.

Definition finish_from : list WorkerJobStatus := [Queued; Claimed; Running].

Definition finish_write (id : str) (outcome : result Json str) : Call (option JobRow) :=
  now <~ act Clock ;;
  affected <~ db (UpdateJob id (status_in finish_from) (finished now outcome)) ;;
  if affected =? 0 then ret None else db (GetJob id).

Definition finish (id : str) (outcome : result Json str) : Call (option JobRow) :=
  match outcome with
  | Ok output =>
      if validates then
        found <~ db (GetJob id) ;;
        match found with
        | None => ret None
        | Some job =>
            if status_in finish_from job then
              verdict <~ act (Validate job output) ;;
              finish_write id (match verdict with Ok _ => Ok output | Err error => Err error end)
            else ret None
        end
      else finish_write id (Ok output)
  | Err error => finish_write id (Err error)
  end.

(** *** Outcomes *)

Definition outcome_of (job : JobRow) : JobOutcome :=
  match wj_status job with
  | Done => ODone (default JNull (wj_result job)) (output_path (wj_id job))
  | NeedsWorker => ONeedsWorker
  | _ => OFailed (default (status_word (wj_status job)) (wj_error job))
  end.

Fixpoint deliver_all (id : str) (waiters : list nat) (outcome : JobOutcome) : Call unit :=
  match waiters with
  | [] => ret tt
  | w :: waiters => _ <~ act (Deliver id w outcome) ;; deliver_all id waiters outcome
  end.

Definition wake_waiters (job : JobRow) : Call unit :=
  blocked <~ act (Unregister (wj_id job)) ;;
  deliver_all (wj_id job) blocked (outcome_of job).

(** *** Routing *)

Definition job_frame (job : JobRow) : ServerFrame := JobOffer (wj_id job) (wj_kind job) (wj_input job) (wj_priority job).

Definition offer (job : JobRow) (worker : ConnectedWorker) : Call bool :=
  sent <~ act (Send (cw_device_id worker) (job_frame job)) ;;
  if sent then
    updated <~ update_status (wj_id job) [Queued; NeedsWorker] Queued (reassigned (Some (cw_device_id worker)) None) ;;
    ret (negb (is_none updated))
  else ret false.

Definition with_worker (job : JobRow) (device_id : str) : JobRow :=
  {| wj_id := wj_id job; wj_kind := wj_kind job; wj_input := wj_input job; wj_requires := wj_requires job;
     wj_status := wj_status job; wj_worker_id := Some device_id; wj_priority := wj_priority job; wj_progress := wj_progress job;
     wj_progress_message := wj_progress_message job; wj_result := wj_result job; wj_error := wj_error job;
     wj_created_at := wj_created_at job; wj_updated_at := wj_updated_at job; wj_started_at := wj_started_at job;
     wj_finished_at := wj_finished_at job |}.

Definition as_running (job : JobRow) : JobRow :=
  {| wj_id := wj_id job; wj_kind := wj_kind job; wj_input := wj_input job; wj_requires := wj_requires job;
     wj_status := Running; wj_worker_id := wj_worker_id job; wj_priority := wj_priority job; wj_progress := wj_progress job;
     wj_progress_message := wj_progress_message job; wj_result := wj_result job; wj_error := wj_error job;
     wj_created_at := wj_created_at job; wj_updated_at := wj_updated_at job; wj_started_at := wj_started_at job;
     wj_finished_at := wj_finished_at job |}.

Definition dispatch_avoiding (job : JobRow) (avoid_worker : option str) : Call JobRow :=
  worker <~
    match avoid_worker with
    | Some avoid =>
        workers <~ act Connected ;;
        ret (List.find (fun w => negb (bool_decide (cw_device_id w = avoid)) && satisfies (cw_capabilities w) (wj_requires job)) workers)
    | None => ret None
    end ;;
  worker <~ match worker with Some w => ret (Some w) | None => act (CapableWorker (wj_requires job)) end ;;
  offered <~
    match worker with
    | Some w => taken <~ offer job w ;; ret (then_some taken (with_worker job (cw_device_id w)))
    | None => ret None
    end ;;
  match offered with
  | Some offered => ret offered
  | None =>
      if local_kind (wj_kind job) then _ <~ act (Spawn job) ;; ret (as_running job)
      else
        parked <~ update_status (wj_id job) [Queued] NeedsWorker no_change ;;
        match parked with Some row => ret row | None => throw (NotFound (wj_id job)) end
  end.

Definition dispatch (job : JobRow) : Call JobRow := dispatch_avoiding job None.

(** The task that [run_locally] spawns. *)
Definition local_run (job : JobRow) : Call unit :=
  _ <~ act MakeOutputDir ;;
  started <~ update_status (wj_id job) [Queued] Running
    {| tr_worker_id_guard := None; tr_worker_id := None; tr_progress := None; tr_message := None; tr_error := None;
       tr_started_at := true; tr_finished_at := false |} ;;
  match started with
  | None => ret tt
  | Some row =>
      _ <~ act (Announce row) ;;
      outcome <~ act (RunLocal job) ;;
      done <~ finish (wj_id job) outcome ;;
      match done with
      | Some row => _ <~ act (Announce row) ;; wake_waiters row
      | None => ret tt
      end
  end.

(** *** Queries *)

Definition oldest_first (a b : JobRow) : Prop := wj_created_at a <= wj_created_at b.
Definition latest_first (a b : JobRow) : Prop := wj_created_at b <= wj_created_at a.
Definition urgent_first (a b : JobRow) : Prop :=
  wj_priority b < wj_priority a \/ (wj_priority a = wj_priority b /\ wj_created_at a <= wj_created_at b).

#[global] Instance oldest_first_dec a b : Decision (oldest_first a b).
Proof. unfold oldest_first. apply _. Defined.
#[global] Instance latest_first_dec a b : Decision (latest_first a b).
Proof. unfold latest_first. apply _. Defined.
#[global] Instance urgent_first_dec a b : Decision (urgent_first a b).
Proof. unfold urgent_first. apply _. Defined.

Definition list_jobs (status : option WorkerJobStatus) (limit : nat) : Call (list JobRow) :=
  db (Query (fun rows => take limit (merge_sort latest_first (List.filter (fun r => is_none_or status (fun st => bool_decide (wj_status r = st))) rows)))).

Definition list_of_kind (kind : str) (status : option WorkerJobStatus) (limit : nat) : Call (list JobRow) :=
  db (Query (fun rows => take limit (merge_sort latest_first (List.filter (fun r =>
    bool_decide (wj_kind r = kind) && is_none_or status (fun st => bool_decide (wj_status r = st))) rows)))).

Definition active_of_kind (kind : str) : Call (list JobRow) :=
  db (Query (fun rows => merge_sort oldest_first (List.filter (fun r =>
    bool_decide (wj_kind r = kind) && status_in [Queued; Claimed; Running; NeedsWorker] r) rows))).

(** *** Calls *)

Definition queued_job (id kind : str) (input requires : Json) (priority now : Z) : JobRow :=
  {| wj_id := id; wj_kind := kind; wj_input := input; wj_requires := requires; wj_status := Queued; wj_worker_id := None;
     wj_priority := priority; wj_progress := f64_zero; wj_progress_message := None; wj_result := None; wj_error := None;
     wj_created_at := now; wj_updated_at := now; wj_started_at := None; wj_finished_at := None |}.

Definition enqueue (kind : str) (input requires : Json) (priority : Z) : Call JobRow :=
  now <~ act Clock ;;
  id <~ act NewId ;;
  job <~ db (InsertJob (queued_job id kind input requires priority now)) ;;
  _ <~ act (Announce job) ;;
  dispatch job.

Definition enqueue_and_wait (kind : str) (input requires : Json) (priority : Z) : Call JobOutcome :=
  now <~ act Clock ;;
  id <~ act NewId ;;
  waiter <~ act (Register id) ;;
  job <~ db (InsertJob (queued_job id kind input requires priority now)) ;;
  _ <~ act (Announce job) ;;
  routed <~ dispatch job ;;
  if bool_decide (wj_status routed = NeedsWorker) then
    _ <~ act (Unregister id) ;;
    ret ONeedsWorker
  else
    outcome <~ act (Await waiter) ;;
    match outcome with
    | Some outcome => ret outcome
    | None => _ <~ act (Unregister id) ;; throw (TimedOut id)
    end.

Definition upload_path (id worker_id : str) : Call unit :=
  found <~ db (GetJob id) ;;
  match found with
  | None => throw (NotFound id)
  | Some job =>
      if negb (bool_decide (wj_worker_id job = Some worker_id)) || negb (is_assigned (wj_status job))
      then throw (NotAssigned id worker_id)
      else made <~ act MakeOutputDir ;; if made then ret tt else throw Io
  end.

(** The handler of an upload, with the digest its header declares. *)
Definition upload_output (device_id id : str) (declared : option str) (body : str) : Call (Z * str) :=
  match declared with
  | None => throw (Invalid (lit "x-stump-sha256 is required"))
  | Some declared =>
      if cache_max_bytes <? Z.of_nat (length body) then throw (Invalid (lit "output is larger than the transform cache budget"))
      else
        _ <~ upload_path id device_id ;;
        if bool_decide (sha256_hex body = declared) then
          staged <~ act (StageOutput id body) ;;
          if staged then
            published <~ act (PublishOutput id) ;;
            if published then ret (Z.of_nat (length body), sha256_hex body) else throw Io
          else throw Io
        else throw (Invalid (lit "the uploaded bytes do not match x-stump-sha256"))
  end.

Fixpoint sweep_offers (offered : list JobRow) (released : Z) : Call Z :=
  match offered with
  | [] => ret released
  | job :: offered =>
      match wj_worker_id job with
      | None => sweep_offers offered released
      | Some worker_id =>
          requeued <~ update_status (wj_id job) [Queued] Queued (reassigned None (Some worker_id)) ;;
          match requeued with
          | None => sweep_offers offered released
          | Some requeued =>
              _ <~ act (Announce requeued) ;;
              _ <~ dispatch_avoiding requeued (Some worker_id) ;;
              sweep_offers offered (released + 1)
          end
      end
  end.

Definition sweep_claim_deadlines : Call Z :=
  now <~ act Clock ;;
  offered <~ db (Query (List.filter (fun r =>
    status_in [Queued] r && negb (is_none (wj_worker_id r)) && (wj_updated_at r <? now - claim_deadline)))) ;;
  sweep_offers offered 0.

Fixpoint resend (device_id : str) (assigned : list JobRow) (resumed : Z) : Call Z :=
  match assigned with
  | [] => ret resumed
  | job :: assigned =>
      sent <~ act (Send device_id (job_frame job)) ;;
      resend device_id assigned (if sent then resumed + 1 else resumed)
  end.

Fixpoint unpark (parked : list JobRow) : Call unit :=
  match parked with
  | [] => ret tt
  | job :: parked =>
      worker <~ act (CapableWorker (wj_requires job)) ;;
      match worker with
      | None => unpark parked
      | Some _ =>
          requeued <~ update_status (wj_id job) [NeedsWorker] Queued no_change ;;
          match requeued with
          | Some requeued => _ <~ dispatch requeued ;; unpark parked
          | None => unpark parked
          end
      end
  end.

Definition on_worker_connected (device_id : str) : Call Z :=
  assigned <~ db (Query (fun rows => merge_sort oldest_first (List.filter (fun r =>
    bool_decide (wj_worker_id r = Some device_id) && status_in [Queued; Claimed; Running] r) rows))) ;;
  resumed <~ resend device_id assigned 0 ;;
  parked <~ db (Query (fun rows => merge_sort urgent_first (List.filter (status_in [NeedsWorker]) rows))) ;;
  _ <~ unpark parked ;;
  ret resumed.

Fixpoint release_offers (unclaimed : list JobRow) : Call unit :=
  match unclaimed with
  | [] => ret tt
  | job :: unclaimed =>
      released <~ update_status (wj_id job) [Queued] Queued (reassigned None None) ;;
      match released with
      | Some released => _ <~ dispatch released ;; release_offers unclaimed
      | None => release_offers unclaimed
      end
  end.

Definition on_worker_disconnected (device_id : str) : Call unit :=
  unclaimed <~ db (Query (List.filter (fun r => bool_decide (wj_worker_id r = Some device_id) && status_in [Queued] r))) ;;
  release_offers unclaimed.

(** The epoch names the channel the transport drains. *)
Definition attach_worker (device_id device_name : str) (hello : WorkerFrame) : Call Z :=
  match hello with
  | Hello capabilities name version =>
      epoch <~ act OpenChannel ;;
      _ <~ act (HubInsert device_id (default device_name name) version capabilities epoch) ;;
      _ <~ on_worker_connected device_id ;;
      ret epoch
  | _ => throw (Invalid (lit "the first frame on a worker socket must be `hello`"))
  end.

Definition detach_worker (device_id : str) (epoch : Z) : Call unit :=
  detached <~ act (HubDetach device_id epoch) ;;
  if detached then on_worker_disconnected device_id else ret tt.

Definition assert_holder (device_id job_id : str) : Call unit :=
  found <~ db (GetJob job_id) ;;
  match found with
  | None => throw (NotFound job_id)
  | Some job => if bool_decide (wj_worker_id job = Some device_id) then ret tt else throw (NotAssigned job_id device_id)
  end.

Definition apply_frame (device_id job_id : str) (from : list WorkerJobStatus) (to : WorkerJobStatus) (change : Transition) : Call unit :=
  _ <~ assert_holder device_id job_id ;;
  moved <~ update_status job_id from to change ;;
  match moved with
  | Some job => act (Announce job)
  | None => ret tt
  end.

Definition complete (device_id job_id : str) (outcome : result Json str) : Call unit :=
  _ <~ assert_holder device_id job_id ;;
  done <~ finish job_id outcome ;;
  match done with
  | None => ret tt
  | Some job =>
      _ <~ (if bool_decide (wj_status job = Failed) then act (RemoveOutput job_id) else ret tt) ;;
      _ <~ act (Announce job) ;;
      wake_waiters job
  end.

Definition handle_frame (device_id : str) (frame : WorkerFrame) : Call unit :=
  _ <~ act (Touch device_id) ;;
  match frame with
  | Hello _ _ _ => ret tt
  | Claim job_id =>
      apply_frame device_id job_id [Queued] Claimed
        {| tr_worker_id_guard := Some device_id; tr_worker_id := None; tr_progress := None; tr_message := None; tr_error := None;
           tr_started_at := true; tr_finished_at := false |}
  | Progress job_id fraction message =>
      apply_frame device_id job_id [Claimed; Running] Running
        {| tr_worker_id_guard := None; tr_worker_id := None; tr_progress := Some (fclamp fraction f64_zero f64_one);
           tr_message := Some message; tr_error := None; tr_started_at := false; tr_finished_at := false |}
  | Result job_id output => complete device_id job_id (Ok output)
  | Fail_ job_id error => complete device_id job_id (Err error)
  end.

Definition cancel (id reason : str) : Call JobRow :=
  found <~ db (GetJob id) ;;
  match found with
  | None => throw (NotFound id)
  | Some job =>
      if is_terminal (wj_status job) then ret job
      else
        _ <~ match wj_worker_id job with
             | Some worker_id => act (Send worker_id (CancelJob id))
             | None => ret false
             end ;;
        updated <~ update_status id [Queued; Claimed; Running; NeedsWorker] Failed
          {| tr_worker_id_guard := None; tr_worker_id := None; tr_progress := None; tr_message := None; tr_error := Some reason;
             tr_started_at := false; tr_finished_at := true |} ;;
        let cancelled := default job updated in
        _ <~ act (RemoveOutput id) ;;
        _ <~ wake_waiters cancelled ;;
        ret cancelled
  end.

(** ** The server at work *)

Inductive Request :=
| REnqueue (kind : str) (input requires : Json) (priority : Z)
| REnqueueAndWait (kind : str) (input requires : Json) (priority : Z)
| RUpload (device_id id : str) (declared : option str) (body : str)
| RSweep
| RAttach (device_id device_name : str) (hello : WorkerFrame)
| RDetach (device_id : str) (epoch : Z)
| RFrame (device_id : str) (frame : WorkerFrame)
| RCancel (id reason : str).

Inductive Reply :=
| AJob (job : JobRow)
| AOutcome (outcome : JobOutcome)
| ACount (n : Z)
| AUploaded (bytes : Z) (digest : str)
| ADone.

Definition answering {A} (f : A -> Reply) (c : Call A) : Call Reply := a <~ c ;; ret (f a).

Definition serve (request : Request) : Call Reply :=
  match request with
  | REnqueue kind input requires priority => answering AJob (enqueue kind input requires priority)
  | REnqueueAndWait kind input requires priority => answering AOutcome (enqueue_and_wait kind input requires priority)
  | RUpload device_id id declared body => answering (fun p => AUploaded p.1 p.2) (upload_output device_id id declared body)
  | RSweep => answering ACount sweep_claim_deadlines
  | RAttach device_id device_name hello => answering ACount (attach_worker device_id device_name hello)
  | RDetach device_id epoch => answering (fun _ => ADone) (detach_worker device_id epoch)
  | RFrame device_id frame => answering (fun _ => ADone) (handle_frame device_id frame)
  | RCancel id reason => answering AJob (cancel id reason)
  end.

(** The calls under way, and the answers of those that ended. *)
Record System := {
  sy_server : Server;
  sy_tasks : list (Call Reply);
}.

Definition spawned {A} (a : Act A) : list (Call Reply) :=
  match a with
  | Spawn job => [answering (fun _ => ADone) (local_run job)]
  | _ => []
  end.

(** One action of task [t]. *)
Definition advance (c : Choice) (t : nat) (sys : System) : option System :=
  match sy_tasks sys !! t with
  | Some (Vis a k) =>
      match exec c a (sy_server sys) with
      | Some (x, s) => Some {| sy_server := s; sy_tasks := <[t := k x]> (sy_tasks sys) ++ spawned a |}
      | None => None
      end
  | _ => None
  end.

(** A call begins, a call does its next action, or a transport goes away.  [faults] says
    whether actions may fail. *)
Inductive system_step (faults : bool) : System -> System -> Prop :=
| begin_step sys request :
    system_step faults sys {| sy_server := sy_server sys; sy_tasks := sy_tasks sys ++ [serve request] |}
| action_step c t sys sys' :
    (cc_fault c = true -> faults = true) -> advance c t sys = Some sys' -> system_step faults sys sys'
| drop_step sys epoch :
    system_step faults sys
      {| sy_server := set_hub (sy_server sys) (sv_hub (sy_server sys)) (sv_epochs (sy_server sys)) (delete epoch (sv_outbound (sy_server sys)));
         sy_tasks := sy_tasks sys |}.

End service.

(** ** What a call may rely on *)

(** Facts that stay true once they are: what the validator accepted, and the row of a job
    that ended. *)
Inductive Fact := Accepted (id : str) (output : Json) | Ended (row : JobRow).

Definition holds (s : Server) (f : Fact) : Prop :=
  match f with
  | Accepted id output => (id, output) ∈ sv_accepted s
  | Ended row => sv_jobs s !! wj_id row = Some row /\ is_terminal (wj_status row) = true
  end.

Section knowledge.
Context `{WorkerHost}.

(** What has to be known before a statement: an update leaves jobs that ended alone, keeps
    ids, and makes a job done only with an output that was accepted. *)
Definition db_needs {A} (a : DbAct A) (K : Fact -> Prop) : Prop :=
  match a with
  | UpdateJob id guard change => forall r, guard r = true ->
      is_terminal (wj_status r) = false /\ wj_id (change r) = wj_id r /\
      (wj_status (change r) = Done -> exists v, wj_result (change r) = Some v /\ (validates = true -> K (Accepted id v)))
  | InsertJob row => wj_status row = Queued
  | _ => True
  end.

Definition needs {A} (a : Act A) (K : Fact -> Prop) : Prop :=
  match a with
  | Db a => db_needs a K
  | Deliver id _ (ODone v _) => exists row, K (Ended row) /\ wj_id row = id /\ wj_status row = Done /\ v = default JNull (wj_result row)
  | _ => True
  end.

(** What an answer can be, and what is known from it. *)
Definition db_fits {A} (a : DbAct A) : option A -> Prop :=
  match a in DbAct A return option A -> Prop with
  | GetJob id => fun x => forall r, x = Some (Some r) -> wj_id r = id
  | InsertJob row => fun x => forall r, x = Some r -> r = row
  | _ => fun _ => True
  end.

Definition fits {A} (a : Act A) : A -> Prop :=
  match a in Act A return A -> Prop with
  | Db a => db_fits a
  | _ => fun _ => True
  end.

Definition db_learns {A} (a : DbAct A) : option A -> Fact -> Prop :=
  match a in DbAct A return option A -> Fact -> Prop with
  | GetJob id => fun x f => exists r, x = Some (Some r) /\ is_terminal (wj_status r) = true /\ f = Ended r
  | _ => fun _ _ => False
  end.

Definition learns {A} (a : Act A) : A -> Fact -> Prop :=
  match a in Act A return A -> Fact -> Prop with
  | Db a => db_learns a
  | Validate job output => fun x f => x = Ok tt /\ f = Accepted (wj_id job) output
  | _ => fun _ _ => False
  end.

(** A program that never lacks what its actions need, whatever happens between them. *)
Fixpoint justified {A} (p : Prog A) (K : Fact -> Prop) (Q : A -> (Fact -> Prop) -> Prop) : Prop :=
  match p with
  | Ret a => Q a K
  | Vis act k => needs act K /\
      forall x (K' : Fact -> Prop), (forall f, K f -> K' f) -> fits act x -> (forall f, learns act x f -> K' f) -> justified (k x) K' Q
  end.

Lemma justified_post {A} (p : Prog A) K Q Q' :
  justified p K Q -> (forall a K', (forall f, K f -> K' f) -> Q a K' -> Q' a K') -> justified p K Q'.
Proof.
  revert K. induction p as [a|X act k IH]; intros K; cbn.
  - intros Hq Himp. by apply Himp.
  - intros [Hn Hk] Himp. split; [done|]. intros x K' HK Hf Hl. apply (IH x K'); [by apply Hk|]. eauto.
Qed.

Lemma justified_bind {A B} (p : Prog A) (f : A -> Prog B) K Q :
  justified p K (fun a K' => justified (f a) K' Q) -> justified (prog_bind p f) K Q.
Proof.
  revert K. induction p as [a|X act k IH]; intros K; cbn; [done|]. intros [Hn Hk]. split; [done|]. eauto.
Qed.

Lemma db_needs_mono {A} (a : DbAct A) (K K' : Fact -> Prop) : (forall f, K f -> K' f) -> db_needs a K -> db_needs a K'.
Proof. destruct a; cbn; naive_solver. Qed.

Lemma needs_mono {A} (a : Act A) (K K' : Fact -> Prop) : (forall f, K f -> K' f) -> needs a K -> needs a K'.
Proof. destruct a as [? a| | | | | | | | | |? |? |id w []| | | | | | | | |]; cbn; try done; [by apply db_needs_mono|naive_solver]. Qed.

Lemma justified_mono {A} (p : Prog A) (K K' : Fact -> Prop) Q :
  (forall a (K1 K2 : Fact -> Prop), (forall f, K1 f -> K2 f) -> Q a K1 -> Q a K2) ->
  (forall f, K f -> K' f) -> justified p K Q -> justified p K' Q.
Proof.
  intros HQ. revert K K'. induction p as [a|X act k IH]; intros K K' HK; cbn; [by apply HQ|].
  intros [Hn Hk]. split; [by eapply needs_mono|]. intros x K2 HK2 Hf Hl. apply Hk; [auto|done|done].
Qed.

(** Calls: errors end them. *)
Definition on_ok {A} (Q : A -> (Fact -> Prop) -> Prop) (r : result A WorkerError) (K : Fact -> Prop) : Prop :=
  match r with Ok a => Q a K | Err _ => True end.

Lemma call_step {A B} (c : Call A) (f : A -> Call B) K Q :
  justified c K (on_ok (fun a K' => justified (f a) K' (on_ok Q))) -> justified (call_bind c f) K (on_ok Q).
Proof.
  intros Hc. apply justified_bind. eapply justified_post; [exact Hc|]. by intros [a|e] K' HK Ha.
Qed.

Lemma act_step {A B} (a : Act A) (f : A -> Call B) K Q :
  needs a K ->
  (forall x (K' : Fact -> Prop), (forall g, K g -> K' g) -> fits a x -> (forall g, learns a x g -> K' g) -> justified (f x) K' (on_ok Q)) ->
  justified (call_bind (act a) f) K (on_ok Q).
Proof. intros Hn Hf. apply call_step. cbn. split; [done|]. auto. Qed.

Lemma db_step {A B} (a : DbAct A) (f : A -> Call B) K Q :
  db_needs a K ->
  (forall x (K' : Fact -> Prop), (forall g, K g -> K' g) -> db_fits a (Some x) -> (forall g, db_learns a (Some x) g -> K' g) ->
    justified (f x) K' (on_ok Q)) ->
  justified (call_bind (db a) f) K (on_ok Q).
Proof. intros Hn Hf. apply call_step. cbn. split; [done|]. intros [x|] K' HK Hfit Hl; cbn; [by apply Hf|done]. Qed.

Lemma get_job_justified id K :
  justified (db (GetJob id)) K (on_ok (fun row K' => forall r, row = Some r -> wj_id r = id /\ (is_terminal (wj_status r) = true -> K' (Ended r)))).
Proof.
  cbn. split; [done|]. intros [[r|]|] K' HK Hf Hl; cbn; [|done|done]. intros r' [= <-]. split; [by apply Hf|].
  intros Ht. apply Hl. by exists r.
Qed.

(** *** Guarded writes *)

Lemma status_in_spec from r : status_in from r = true <-> wj_status r ∈ from.
Proof. unfold status_in. apply bool_decide_eq_true. Qed.

Definition live (from : list WorkerJobStatus) : Prop := (Done ∉ from) /\ (Failed ∉ from).

Lemma live_terminal from r : live from -> status_in from r = true -> is_terminal (wj_status r) = false.
Proof. intros [Hd Hf] Hr%status_in_spec. destruct (wj_status r); done. Qed.

Definition row_known (id : str) (row : option JobRow) (K : Fact -> Prop) : Prop :=
  forall r, row = Some r -> wj_id r = id /\ (is_terminal (wj_status r) = true -> K (Ended r)).

Lemma update_status_justified id from to change K :
  live from -> to <> Done -> justified (update_status id from to change) K (on_ok (row_known id)).
Proof.
  intros Hlive Hto. apply act_step; [done|]. intros now K1 HK1 _ _. apply db_step.
  - cbn. intros r [Hr _]%andb_true_iff. split; [by eapply live_terminal|]. split; [done|]. by intros Hd.
  - intros n K2 HK2 _ _. destruct (n =? 0); [by intros r [=]|]. apply get_job_justified.
Qed.

Lemma finish_write_justified id outcome K :
  (forall v, outcome = Ok v -> validates = true -> K (Accepted id v)) ->
  justified (finish_write id outcome) K (on_ok (row_known id)).
Proof.
  intros Hacc. apply act_step; [done|]. intros now K1 HK1 _ _. apply db_step.
  - cbn. intros r Hr. split; [eapply live_terminal; [|exact Hr]; split; by (intros Hin; repeat (apply elem_of_cons in Hin as [Hin|Hin]; [done|]); apply elem_of_nil in Hin)|].
    split; [done|]. destruct outcome as [v|e]; [|done]. intros _. exists v. split; [done|]. intros Hv. by apply HK1, Hacc.
  - intros n K2 HK2 _ _. destruct (n =? 0); [by intros r [=]|]. apply get_job_justified.
Qed.

Lemma finish_justified id outcome K : justified (finish id outcome) K (on_ok (row_known id)).
Proof.
  unfold finish. destruct outcome as [v|e]; [|by apply finish_write_justified]. destruct validates eqn:Ev.
  - apply db_step; [done|]. intros found K1 HK1 Hf _. destruct found as [job|]; [|by intros r [=]].
    destruct (status_in finish_from job); [|by intros r [=]]. apply act_step; [done|]. intros verdict K2 HK2 _ Hl.
    apply finish_write_justified. intros v' E _. destruct verdict as [[]|e]; [|done]. injection E as <-. apply Hl. cbn.
    split; [done|]. by rewrite (Hf job eq_refl).
  - apply finish_write_justified. intros v' _ Hv. congruence.
Qed.

Lemma deliver_all_justified id waiters outcome K :
  (forall v path, outcome = ODone v path -> exists row, K (Ended row) /\ wj_id row = id /\ wj_status row = Done /\ v = default JNull (wj_result row)) ->
  justified (deliver_all id waiters outcome) K (on_ok (fun _ _ => True)).
Proof.
  revert K. induction waiters as [|w waiters IH]; intros K Ho; [done|]. cbn [deliver_all]. apply act_step.
  - cbn. destruct outcome; [by eapply Ho|done|done].
  - intros _ K1 HK1 _ _. apply IH. intros v path E. destruct (Ho v path E) as (row & ? & ?). eauto.
Qed.

Lemma wake_justified job K :
  (is_terminal (wj_status job) = true -> K (Ended job)) -> justified (wake_waiters job) K (on_ok (fun _ _ => True)).
Proof.
  intros Hk. apply act_step; [done|]. intros blocked K1 HK1 _ _. apply deliver_all_justified. intros v path E.
  unfold outcome_of in E. destruct (wj_status job) eqn:Es; try done. injection E as <- <-. exists job. split_and!; [|done..].
  by apply HK1, Hk.
Qed.

End knowledge.

(** ** Every call is justified *)

Section justifications.
Context `{WorkerHost}.

Definition anything {A} (_ : A) (_ : Fact -> Prop) : Prop := True.

Lemma justified_any {A} (c : Call A) K Q : justified c K (on_ok Q) -> justified c K (on_ok anything).
Proof. intros Hc. eapply justified_post; [exact Hc|]. by intros [] K' HK _. Qed.

(** A call that is followed by others, with nothing to remember of it. *)
Lemma call_then {A B} (c : Call A) (f : A -> Call B) K Q :
  justified c K (on_ok anything) -> (forall a K', (forall g, K g -> K' g) -> justified (f a) K' (on_ok Q)) -> justified (call_bind c f) K (on_ok Q).
Proof. intros Hc Hf. apply call_step. eapply justified_post; [exact Hc|]. intros [a|e] K' HK _; cbn; auto. Qed.

Lemma live_list from : forallb (fun st => negb (is_terminal st)) from = true -> live from.
Proof. rewrite forallb_forall. intros Hf. split; intros Hin%list_elem_of_In; by apply Hf in Hin. Qed.

Lemma update_any id from to change K :
  forallb (fun st => negb (is_terminal st)) from = true -> to <> Done -> justified (update_status id from to change) K (on_ok anything).
Proof. intros. eapply justified_any, update_status_justified; [by apply live_list|done]. Qed.

Ltac any_act := apply act_step; [done|]; intros ? ? ? _ _.
Ltac any_db := apply db_step; [done|]; intros ? ? ? _ _.

Lemma offer_any job w K : justified (offer job w) K (on_ok anything).
Proof.
  unfold offer. apply act_step; [done|]. intros [] K1 _ _ _; [|done]. apply call_then; [by apply update_any|]. done.
Qed.

Lemma dispatch_any job avoid K : justified (dispatch_avoiding job avoid) K (on_ok anything).
Proof.
  unfold dispatch_avoiding. apply call_then; [destruct avoid; [any_act|]; done|]. intros w0 K1 _.
  apply call_then; [destruct w0; done|]. intros w K2 _. apply call_then.
  { destruct w; [|done]. apply call_then; [apply offer_any|done]. }
  intros [offered|] K3 _; [done|]. destruct (local_kind (wj_kind job)); [by any_act|].
  apply call_then; [by apply update_any|]. by intros [row|] K4 _.
Qed.

Lemma local_run_any job K : justified (local_run job) K (on_ok anything).
Proof.
  unfold local_run. any_act. apply call_then; [by apply update_any|]. intros [row|] K2 _; [|done]. any_act. any_act.
  apply call_step. eapply justified_post; [apply finish_justified|]. intros [[row'|]|e] K4 _ Hk; [|done..]. cbn [on_ok].
  any_act. apply wake_justified. intros Ht. destruct (Hk row' eq_refl) as [_ Hend]. auto.
Qed.

Lemma sweep_any offered released K : justified (sweep_offers offered released) K (on_ok anything).
Proof.
  revert released K. induction offered as [|job offered IH]; intros released K; [done|]. cbn [sweep_offers].
  destruct (wj_worker_id job); [|apply IH]. apply call_then; [by apply update_any|]. intros [row|] K1 _; [|apply IH].
  any_act. apply call_then; [apply dispatch_any|]. intros. apply IH.
Qed.

Lemma resend_any device_id assigned resumed K : justified (resend device_id assigned resumed) K (on_ok anything).
Proof. revert resumed K. induction assigned as [|job assigned IH]; intros; [done|]. cbn [resend]. any_act. apply IH. Qed.

Lemma unpark_any parked K : justified (unpark parked) K (on_ok anything).
Proof.
  revert K. induction parked as [|job parked IH]; intros K; [done|]. cbn [unpark]. apply act_step; [done|].
  intros [w|] K1 _ _ _; [|apply IH]. apply call_then; [by apply update_any|]. intros [row|] K2 _; [|apply IH].
  apply call_then; [apply dispatch_any|]. intros. apply IH.
Qed.

Lemma connected_any device_id K : justified (on_worker_connected device_id) K (on_ok anything).
Proof.
  unfold on_worker_connected. any_db. apply call_then; [apply resend_any|]. intros ? ? ?. any_db.
  apply call_then; [apply unpark_any|]. done.
Qed.

Lemma release_any unclaimed K : justified (release_offers unclaimed) K (on_ok anything).
Proof.
  revert K. induction unclaimed as [|job unclaimed IH]; intros K; [done|]. cbn [release_offers].
  apply call_then; [by apply update_any|]. intros [row|] K2 _; [|apply IH]. apply call_then; [apply dispatch_any|]. intros. apply IH.
Qed.

Lemma holder_any device_id job_id K : justified (assert_holder device_id job_id) K (on_ok anything).
Proof. unfold assert_holder. apply db_step; [done|]. intros [job|] K1 _ _ _; [|done]. by destruct (bool_decide _). Qed.

Lemma apply_any device_id job_id from to change K :
  forallb (fun st => negb (is_terminal st)) from = true -> to <> Done -> justified (apply_frame device_id job_id from to change) K (on_ok anything).
Proof.
  intros. unfold apply_frame. apply call_then; [apply holder_any|]. intros _ K1 _. apply call_then; [by apply update_any|].
  by intros [row|] K2 _.
Qed.

Lemma complete_any device_id job_id outcome K : justified (complete device_id job_id outcome) K (on_ok anything).
Proof.
  unfold complete. apply call_then; [apply holder_any|]. intros _ K1 _. apply call_step.
  eapply justified_post; [apply finish_justified|]. intros [[row|]|e] K2 _ Hk; [|done..]. cbn [on_ok].
  apply call_then; [by destruct (bool_decide _)|]. intros _ K3 HK3. any_act. apply wake_justified.
  intros Ht. destruct (Hk row eq_refl) as [_ Hend]. auto.
Qed.

Lemma cancel_any id reason K : justified (cancel id reason) K (on_ok anything).
Proof.
  unfold cancel. apply db_step; [done|]. intros [job|] K1 _ _ _; [|done]. destruct (is_terminal (wj_status job)) eqn:Ht; [done|].
  apply call_then; [by destruct (wj_worker_id job)|]. intros _ K2 _. apply call_step.
  eapply justified_post; [apply update_status_justified; [by apply live_list|done]|]. intros [updated|e] K3 _ Hk; [|done]. cbn [on_ok].
  any_act. apply call_then; [|done]. apply wake_justified. destruct updated as [row|]; cbn; [|congruence].
  intros Hend. destruct (Hk row eq_refl) as [_ Hrow]. auto.
Qed.

Lemma serve_justified request K : justified (serve request) K (on_ok anything).
Proof.
  destruct request as [kind input requires priority|kind input requires priority|device_id id declared body| |device_id name hello|device_id epoch|device_id frame|id reason];
    cbn [serve]; unfold answering; (apply call_then; [|done]).
  - unfold enqueue. any_act. any_act. apply db_step; [done|]. intros job K3 _ _ _. any_act. apply dispatch_any.
  - unfold enqueue_and_wait. any_act. any_act. any_act. apply db_step; [done|]. intros job K3 _ _ _. any_act.
    apply call_then; [apply dispatch_any|]. intros routed K5 _. destruct (bool_decide _); [by any_act|].
    apply act_step; [done|]. intros [o|] K6 _ _ _; [done|by any_act].
  - unfold upload_output. destruct declared; [|done]. destruct (_ <? _); [done|]. apply call_then.
    + unfold upload_path. apply db_step; [done|]. intros [job|] K1 _ _ _; [|done]. destruct (_ || _); [done|].
      apply act_step; [done|]. by intros [] K2 _ _ _.
    + intros _ K1 _. destruct (bool_decide _); [|done]. apply act_step; [done|]. intros [] K2 _ _ _; [|done].
      apply act_step; [done|]. by intros [] K3 _ _ _.
  - unfold sweep_claim_deadlines. any_act. any_db. apply sweep_any.
  - destruct hello; try done. unfold attach_worker. any_act. any_act. apply call_then; [apply connected_any|done].
  - unfold detach_worker. apply act_step; [done|]. intros [] K1 _ _ _; [|done]. any_db. apply release_any.
  - unfold handle_frame. any_act. destruct frame; try done; [by apply apply_any..| |]; apply complete_any.
  - apply cancel_any.
Qed.

(** ** The rows under every interleaving *)

(** A row is under its id; a job that is done has an output, which was accepted; and a
    caller that was told that a job is done was told the truth. *)
Record server_ok (s : Server) : Prop := {
  so_keys id r : sv_jobs s !! id = Some r -> wj_id r = id;
  so_done id r : sv_jobs s !! id = Some r -> wj_status r = Done ->
    exists v, wj_result r = Some v /\ (validates = true -> (id, v) ∈ sv_accepted s);
  so_told w id v path : sv_outcomes s !! w = Some (id, ODone v path) ->
    exists r, sv_jobs s !! id = Some r /\ wj_status r = Done /\ wj_result r = Some v;
}.

(** What an action does to the facts. *)
Record lawful {A} (a : Act A) (s : Server) (x : A) (s' : Server) : Prop := {
  la_ok : server_ok s';
  la_facts f : holds s f -> holds s' f;
  la_fits : fits a x;
  la_learns f : learns a x f -> holds s' f;
}.

Lemma same_rows_lawful s s' :
  server_ok s -> sv_jobs s' = sv_jobs s -> sv_accepted s' = sv_accepted s -> sv_outcomes s' = sv_outcomes s ->
  server_ok s' /\ forall f, holds s f -> holds s' f.
Proof.
  intros [O1 O2 O3] Hj Ha Ho. split; [split; rewrite ?Hj, ?Ha, ?Ho; auto|].
  intros [id v|r]; cbn; by rewrite ?Ha, ?Hj.
Qed.

Lemma update_lawful id guard change s :
  server_ok s -> db_needs (UpdateJob id guard change) (holds s) ->
  forall row, sv_jobs s !! id = Some row -> guard row = true ->
  let s' := set_jobs s (<[id := change row]> (sv_jobs s)) in server_ok s' /\ forall f, holds s f -> holds s' f.
Proof.
  intros [O1 O2 O3] Hn row Hrow Hg s'. cbn in Hn. destruct (Hn row Hg) as (Hlive & Hid & Hdone).
  assert (Hkeep : forall id' r, sv_jobs s !! id' = Some r -> is_terminal (wj_status r) = true -> sv_jobs s' !! id' = Some r).
  { intros id' r Hr Ht. cbn. rewrite lookup_insert_ne; [done|]. intros ->. rewrite Hrow in Hr. injection Hr as ->. congruence. }
  split; [split|].
  - intros id' r. cbn. rewrite lookup_insert. case_decide as E; [|apply O1]. intros [= <-]. subst id'. rewrite Hid. by apply O1.
  - intros id' r. cbn. rewrite lookup_insert. case_decide as E; [|apply O2]. subst id'. intros [= <-] Hd. exact (Hdone Hd).
  - intros w id' v path Ho. cbn in Ho. destruct (O3 w id' v path Ho) as (r & Hr & Hd & Hv). exists r. split_and!; [|done|done].
    apply Hkeep; [done|]. by rewrite Hd.
  - intros [id' v|r]; [done|]. intros [Hr Ht]. split; [by apply Hkeep|done].
Qed.

Lemma exec_lawful c {A} (a : Act A) s x s' :
  server_ok s -> needs a (holds s) -> exec c a s = Some (x, s') -> lawful a s x s'.
Proof.
  intros Hok Hn E.
  assert (Hsame : forall B (a : Act B) y, sv_jobs s' = sv_jobs s -> sv_accepted s' = sv_accepted s -> sv_outcomes s' = sv_outcomes s ->
    fits a y -> (forall f, learns a y f -> holds s f) -> lawful a s y s').
  { intros B b y Hj Ha Ho Hf Hl. destruct (same_rows_lawful s s' Hok Hj Ha Ho) as [Hok' Hfacts]. split; auto. }
  destruct a as [B a| | | | | | | | | | | |id w outcome| | | | | | | |job output|]; cbn [exec] in E;
    try (injection E as <- <-; by apply Hsame).
  - destruct (cc_fault c).
    { injection E as <- <-. apply Hsame; [done..| |]; destruct a; cbn; naive_solver. }
    destruct a as [id|select|row|id guard change]; cbn [db_exec] in E.
    + injection E as <- <-. apply Hsame; [done..| |].
      * cbn. intros r [= Hr]. by eapply so_keys.
      * cbn. intros f (r & [= Hr] & Ht & ->). split; [|done]. by rewrite (so_keys s Hok id r Hr).
    + injection E as <- <-. apply Hsame; [done..| |done]. done.
    + destruct (sv_jobs s !! wj_id row) eqn:Er; injection E as <- <-; [by apply Hsame|].
      destruct Hok as [O1 O2 O3]. cbn in Hn.
      assert (Hkeep : forall id' r, sv_jobs s !! id' = Some r -> <[wj_id row := row]> (sv_jobs s) !! id' = Some r).
      { intros id' r Hr. rewrite lookup_insert_ne; [done|]. by intros <-; rewrite Er in Hr. }
      split; [split| |by cbn; intros r [= <-]|done].
      * intros id' r. cbn. rewrite lookup_insert. case_decide as E; [by intros [= <-]|apply O1].
      * intros id' r. cbn. rewrite lookup_insert. case_decide as E; [intros [= <-]; congruence|apply O2].
      * intros w id' v path Ho. destruct (O3 w id' v path Ho) as (r & Hr & Hd & Hv). exists r. split_and!; [by apply Hkeep|done|done].
      * intros [id' v|r]; [done|]. intros [Hr Ht]. split; [by apply Hkeep|done].
    + destruct (sv_jobs s !! id) as [row|] eqn:Er; [|injection E as <- <-; by apply Hsame].
      destruct (guard row) eqn:Eg; injection E as <- <-; [|by apply Hsame].
      destruct (update_lawful id guard change s Hok Hn row Er Eg) as [Hok' Hfacts]. by split.
  - destruct (hub_send _ _ s) as [b s1] eqn:Es. injection E as <- <-. unfold hub_send in Es.
    destruct (sv_hub s !! _) as [cn|]; [destruct (sv_outbound s !! _)|]; injection Es as <- <-; by apply Hsame.
  - injection E as <- <-. unfold hub_touch in *. destruct (sv_hub s !! _); by apply Hsame.
  - destruct (hub_detach _ _ s) as [b s1] eqn:Es. injection E as <- <-. unfold hub_detach in Es.
    destruct (sv_hub s !! _) as [cn|]; [destruct (_ =? _)|]; injection Es as <- <-; by apply Hsame.
  - injection E as <- <-. destruct Hok as [O1 O2 O3]. split; [split| |done|done]; [exact O1|exact O2| |by intros []].
    intros w' id' v path. cbn. rewrite lookup_insert. case_decide as E; [|apply O3]. intros [= -> ->]. cbn in Hn.
    destruct Hn as (row & [Hrow Ht] & <- & Hd & ->). exists row. split_and!; [done|done|].
    destruct (O2 _ _ Hrow Hd) as (v & -> & _). done.
  - destruct (sv_outcomes s !! _) as [[id o]|]; [|destruct (cc_timeout c); [|done]]; injection E as <- <-; by apply Hsame.
  - destruct (cc_fault c); injection E as <- <-; by apply Hsame.
  - destruct (sv_staged s !! _); [destruct (cc_fault c)|]; injection E as <- <-; by apply Hsame.
  - injection E as <- <-. destruct (cc_fault c); by apply Hsame.
  - injection E as <- <-. destruct (cc_written c); by apply Hsame.
  - injection E as <- <-. destruct (cc_valid c) as [[]|e] eqn:Ev.
    + destruct Hok as [O1 O2 O3]. split; [split| |done|].
      * exact O1.
      * intros id r Hr Hd. destruct (O2 id r Hr Hd) as (v & Hv & Ha). exists v. split; [done|]. intros Hval. right. auto.
      * exact O3.
      * intros [id v|r]; [|done]. intros Hin. by right.
      * cbn. intros f [_ ->]. by left.
    + apply Hsame; [done..|]. by intros f [? _].
Qed.

End justifications.

Section interleavings.
Context `{WorkerHost}.

Definition task_ok (s : Server) (p : Call Reply) : Prop := justified p (holds s) (on_ok anything).

Record system_ok (sys : System) : Prop := {
  sk_server : server_ok (sy_server sys);
  sk_tasks : Forall (task_ok (sy_server sys)) (sy_tasks sys);
}.

Lemma task_ok_mono s s' p : (forall f, holds s f -> holds s' f) -> task_ok s p -> task_ok s' p.
Proof. intros Hf. apply justified_mono; [|done]. by intros [] K1 K2 _. Qed.

Lemma spawned_ok s {A} (a : Act A) : Forall (task_ok s) (spawned a).
Proof.
  destruct a; cbn [spawned]; try constructor; [|constructor]. unfold task_ok, answering. apply call_then; [apply local_run_any|done].
Qed.

Lemma advance_ok c t sys sys' :
  system_ok sys -> advance c t sys = Some sys' ->
  system_ok sys' /\ forall f, holds (sy_server sys) f -> holds (sy_server sys') f.
Proof.
  intros [Hok Ht] E. unfold advance in E. destruct (sy_tasks sys !! t) as [[r|X a k]|] eqn:Ep; try done.
  destruct (exec c a (sy_server sys)) as [[x s']|] eqn:Ex; [|done]. injection E as <-.
  pose proof (Forall_lookup_1 _ _ _ _ Ht Ep) as [Hn Hk].
  destruct (exec_lawful c a _ x s' Hok Hn Ex) as [Hok' Hfacts Hfit Hl]. split; [|exact Hfacts]. split; [exact Hok'|]. cbn [sy_tasks sy_server].
  apply Forall_app. split; [|apply spawned_ok]. apply Forall_insert; [|by apply (Hk x (holds s'))].
  eapply Forall_impl; [exact Ht|]. intros p. by apply task_ok_mono.
Qed.

Lemma step_ok faults sys sys' :
  system_ok sys -> system_step faults sys sys' ->
  system_ok sys' /\ forall f, holds (sy_server sys) f -> holds (sy_server sys') f.
Proof.
  intros Hok Hs. destruct Hs as [sys0 request|c t sys0 sys1 _ E|sys0 epoch].
  - split; [|done]. destruct Hok as [Hok Ht]. split; [done|]. cbn [sy_tasks sy_server]. apply Forall_app. split; [done|]. constructor; [apply serve_justified|constructor].
  - by apply (advance_ok c t).
  - destruct Hok as [Hok Ht]. cbn [sy_server]. destruct (same_rows_lawful (sy_server sys0)
      (set_hub (sy_server sys0) (sv_hub (sy_server sys0)) (sv_epochs (sy_server sys0)) (delete epoch (sv_outbound (sy_server sys0)))) Hok) as [Hok' Hf]; [done..|].
    split; [|done]. split; [done|]. eapply Forall_impl; [exact Ht|]. intros p. by apply task_ok_mono.
Qed.

Lemma run_ok faults sys sys' :
  system_ok sys -> rtc (system_step faults) sys sys' ->
  system_ok sys' /\ forall f, holds (sy_server sys) f -> holds (sy_server sys') f.
Proof.
  intros Hok Hr. induction Hr as [|a b c Hs Hr IH]; [done|]. destruct (step_ok _ _ _ Hok Hs) as [Hok1 Hf1].
  destruct (IH Hok1) as [Hok2 Hf2]. auto.
Qed.

(** A server with its table of jobs, before any call. *)
Definition starting (s : Server) : System := {| sy_server := s; sy_tasks := [] |}.

Lemma starting_ok s : server_ok s -> system_ok (starting s).
Proof. intros Hok. split; [done|constructor]. Qed.

(** C24. What a job came to is final and was checked.  However the calls of clients, the
    frames of workers, reconnections, sweeps, cancellations and local runs interleave, and
    whatever fails: the row of a job that is done or failed never changes again; a job
    that is done has an output, one the validator accepted for this job if there is a
    validator; and a caller that was told that its job is done was given that output. *)
Theorem results_final faults s sys sys' id r :
  server_ok s -> rtc (system_step faults) (starting s) sys -> rtc (system_step faults) sys sys' ->
  sv_jobs (sy_server sys) !! id = Some r -> is_terminal (wj_status r) = true ->
  sv_jobs (sy_server sys') !! id = Some r /\
  (wj_status r = Done -> exists v, wj_result r = Some v /\ (validates = true -> (id, v) ∈ sv_accepted (sy_server sys'))) /\
  (forall w v path, sv_outcomes (sy_server sys') !! w = Some (id, ODone v path) -> wj_status r = Done /\ wj_result r = Some v).
Proof.
  intros Hok Hr Hr' Hrow Ht. destruct (run_ok _ _ _ (starting_ok s Hok) Hr) as [Hok1 _].
  destruct (run_ok _ _ _ Hok1 Hr') as [[Hok2 _] Hf]. pose proof (so_keys _ (sk_server _ Hok1) id r Hrow) as Hid.
  destruct (Hf (Ended r)) as [Hrow' _]; [split; [by rewrite Hid|done]|]. rewrite Hid in Hrow'. split; [done|]. split.
  - intros Hd. exact (so_done _ Hok2 id r Hrow' Hd).
  - intros w v path Ho. destruct (so_told _ Hok2 w id v path Ho) as (r' & Hr2 & Hd & Hv). rewrite Hrow' in Hr2. by injection Hr2 as ->.
Qed.

End interleavings.

(** ** No job is lost *)

(** A job that needs no attention of the server: it ended, it is parked, or a worker has
    it.  Any other is on its way: to be routed, or to be finished by a local run. *)
Definition settled (r : JobRow) : Prop :=
  is_terminal (wj_status r) = true \/ wj_status r = NeedsWorker \/ is_Some (wj_worker_id r).

Inductive Gap := ToRoute | ToFinish.

Definition in_gap (g : Gap) (r : JobRow) : Prop :=
  wj_worker_id r = None /\ wj_status r = match g with ToRoute => Queued | ToFinish => Running end.

Lemma gap_unsettled g r : in_gap g r -> ~ settled r.
Proof. intros [Hw Hs] [Ht|[Hn|[w Hw']]]; destruct g; rewrite ?Hs in *; cbn in *; congruence. Qed.

Lemma gap_unique g g' r : in_gap g r -> in_gap g' r -> g = g'.
Proof. intros [_ Hs] [_ Hs']. destruct g, g'; congruence. Qed.

Section attention.
Context `{WorkerHost}.

(** The next action of a program that will settle job [id], if the job is in gap [g] when
    the action runs: it settles it, hands it to a local run, or leaves it for later. *)
Definition db_reaches (g : Gap) (id : str) {A} (a : DbAct A) : (Gap -> option A -> Prop) -> Prop :=
  match a in DbAct A return (Gap -> option A -> Prop) -> Prop with
  | GetJob id' => fun later => forall row, (id' = id -> exists r, row = Some r /\ in_gap g r /\ wj_id r = id) -> later g (Some row)
  | Query _ => fun later => forall rows, later g (Some rows)
  | InsertJob _ => fun later => forall x, later g x
  | UpdateJob id' guard change => fun later =>
      (id' = id /\ forall r, in_gap g r -> guard r = true /\
         (settled (change r) \/ exists g', in_gap g' (change r) /\ later g' (Some 1))) \/
      (id' <> id /\ forall n, later g (Some n))
  end.

Definition reaches (g : Gap) (id : str) {A} (a : Act A) : (Gap -> A -> Prop) -> Prop :=
  match a in Act A return (Gap -> A -> Prop) -> Prop with
  | Db a => db_reaches g id a
  | Spawn job => fun later => (g = ToRoute /\ wj_id job = id) \/ later g tt
  | _ => fun later => forall x, later g x
  end.

Fixpoint covers {A} (g : Gap) (id : str) (p : Prog A) (Q : Gap -> A -> Prop) : Prop :=
  match p with
  | Ret a => Q g a
  | Vis act k => reaches g id act (fun g' x => covers g' id (k x) Q)
  end.

(** A write that leaves a job in a gap is followed by what settles it. *)
Definition db_owes {A} (a : DbAct A) : (str -> Gap -> option A -> Prop) -> Prop :=
  match a in DbAct A return (str -> Gap -> option A -> Prop) -> Prop with
  | UpdateJob id guard change => fun later => forall r, (settled r \/ exists g, in_gap g r) -> wj_id r = id -> guard r = true ->
      settled (change r) \/ (exists g, in_gap g r /\ in_gap g (change r)) \/ exists g, in_gap g (change r) /\ later id g (Some 1)
  | InsertJob row => fun later => exists g, in_gap g row /\ later (wj_id row) g (Some row)
  | _ => fun _ => True
  end.

Definition owes {A} (a : Act A) : (str -> Gap -> A -> Prop) -> Prop :=
  match a in Act A return (str -> Gap -> A -> Prop) -> Prop with
  | Db a => db_owes a
  | _ => fun _ => True
  end.

Fixpoint dutiful {A} (p : Prog A) (R : str -> Gap -> A -> Prop) : Prop :=
  match p with
  | Ret _ => True
  | Vis act k => owes act (fun id g x => covers g id (k x) (R id)) /\ forall x, dutiful (k x) R
  end.

Lemma db_reaches_mono g id {A} (a : DbAct A) (P P' : Gap -> option A -> Prop) :
  (forall g x, P g x -> P' g x) -> db_reaches g id a P -> db_reaches g id a P'.
Proof.
  intros Hp. destruct a as [id'|select|row|id' guard change]; cbn; [naive_solver..|].
  intros [[-> Hall]|[Hne Hall]]; [left|right; auto]. split; [done|]. intros r Hr. destruct (Hall r Hr) as [Hg [?|(g' & ? & ?)]]; eauto 10.
Qed.

Lemma reaches_mono g id {A} (a : Act A) (P P' : Gap -> A -> Prop) :
  (forall g x, P g x -> P' g x) -> reaches g id a P -> reaches g id a P'.
Proof. intros Hp. destruct a; cbn; try (by eauto). - by apply db_reaches_mono. - intros [?|?]; auto. Qed.

Lemma covers_post {A} g id (p : Prog A) (Q Q' : Gap -> A -> Prop) :
  (forall g a, Q g a -> Q' g a) -> covers g id p Q -> covers g id p Q'.
Proof.
  intros HQ. revert g. induction p as [a|X act k IH]; intros g; cbn; [apply HQ|]. apply reaches_mono. intros g' x. apply IH.
Qed.

Lemma covers_bind {A B} g id (p : Prog A) (f : A -> Prog B) Q :
  covers g id p (fun g' a => covers g' id (f a) Q) -> covers g id (prog_bind p f) Q.
Proof. revert g. induction p as [a|X act k IH]; intros g; cbn; [done|]. apply reaches_mono. intros g' x. apply IH. Qed.

Lemma db_owes_mono {A} (a : DbAct A) (P P' : str -> Gap -> option A -> Prop) :
  (forall id g x, P id g x -> P' id g x) -> db_owes a P -> db_owes a P'.
Proof.
  intros Hp. destruct a as [id'|select|row|id' guard change]; cbn; [done|done|naive_solver|].
  intros Hall r Hr Hid Hg. destruct (Hall r Hr Hid Hg) as [?|[?|(g & ? & ?)]]; eauto 10.
Qed.

Lemma owes_mono {A} (a : Act A) (P P' : str -> Gap -> A -> Prop) :
  (forall id g x, P id g x -> P' id g x) -> owes a P -> owes a P'.
Proof. intros Hp. destruct a; cbn; try done. by apply db_owes_mono. Qed.

Lemma dutiful_bind {A B} (p : Prog A) (f : A -> Prog B) R :
  dutiful p (fun id g a => covers g id (f a) (R id)) -> (forall a, dutiful (f a) R) -> dutiful (prog_bind p f) R.
Proof.
  intros Hp Hf. induction p as [a|X act k IH]; cbn in *; [apply Hf|]. destruct Hp as [Ho Hk]. split.
  - eapply owes_mono; [|exact Ho]. intros id g x. apply covers_bind.
  - intros x. apply IH, Hk.
Qed.

Lemma dutiful_post {A} (p : Prog A) (R R' : str -> Gap -> A -> Prop) :
  (forall id g a, R id g a -> R' id g a) -> dutiful p R -> dutiful p R'.
Proof.
  intros HR. induction p as [a|X act k IH]; cbn; [done|]. intros [Ho Hk]. split; [|auto]. eapply owes_mono; [|exact Ho].
  intros id g x. apply covers_post, HR.
Qed.

(** *** Calls *)

Definition unless_failed {A} (Q : Gap -> A -> Prop) (g : Gap) (r : result A WorkerError) : Prop :=
  match r with Ok a => Q g a | Err _ => False end.

Lemma covers_call {A B} g id (c : Call A) (f : A -> Call B) Q :
  covers g id c (unless_failed (fun g' a => covers g' id (f a) Q)) -> covers g id (call_bind c f) Q.
Proof. intros Hc. apply covers_bind. eapply covers_post; [|exact Hc]. by intros g' []. Qed.

Lemma dutiful_call {A B} (c : Call A) (f : A -> Call B) R :
  dutiful c (fun id g => unless_failed (fun g' a => covers g' id (f a) (R id)) g) -> (forall a, dutiful (f a) R) ->
  dutiful (call_bind c f) R.
Proof.
  intros Hc Hf. apply dutiful_bind; [|by intros []]. eapply dutiful_post; [|exact Hc]. by intros id g [].
Qed.

Lemma dutiful_act {A B} (a : Act A) (f : A -> Call B) R :
  (forall P, owes a P) -> (forall x, dutiful (f x) R) -> dutiful (call_bind (act a) f) R.
Proof. intros Ho Hf. apply dutiful_call; [split; [apply Ho|done]|done]. Qed.

Lemma dutiful_db {A B} (a : DbAct A) (f : A -> Call B) R :
  (forall P, db_owes a P) -> (forall x, dutiful (f x) R) -> dutiful (call_bind (db a) f) R.
Proof. intros Ho Hf. apply dutiful_call; [split; [apply Ho|by intros []]|done]. Qed.

(** *** Guarded writes *)

Lemma get_covers g id (Q : Gap -> result (option JobRow) WorkerError -> Prop) :
  (forall r, in_gap g r -> wj_id r = id -> Q g (Ok (Some r))) -> covers g id (db (GetJob id)) Q.
Proof. intros Hq row Hrow. destruct (Hrow eq_refl) as (r & -> & Hr & Hid). by apply Hq. Qed.

(** A write that settles whatever it changes. *)
Lemma update_settles id from to change R :
  (forall r, (settled r \/ exists g, in_gap g r) -> status_in from r = true ->
     match tr_worker_id_guard change with Some w => bool_decide (wj_worker_id r = Some w) | None => true end = true ->
     forall now, settled (moved now to change r) \/ exists g, in_gap g r /\ in_gap g (moved now to change r)) ->
  dutiful (update_status id from to change) R.
Proof.
  intros Hs. unfold update_status. apply dutiful_act; [done|]. intros now. apply dutiful_call.
  - split; [|by intros []]. cbn. intros r Hr _ [Hin Hg]%andb_true_iff. destruct (Hs r Hr Hin Hg now) as [?|(g & ? & ?)]; [by left|eauto].
  - intros n. destruct (n =? 0); [done|]. split; [done|by intros []].
Qed.

(** A write that may leave a job to be routed. *)
Lemma update_reopens id from to change g (R : str -> Gap -> result (option JobRow) WorkerError -> Prop) :
  (forall r now, (settled r \/ exists g, in_gap g r) -> status_in from r = true ->
     settled (moved now to change r) \/ in_gap g (moved now to change r)) ->
  (forall r, in_gap g r -> wj_id r = id -> R id g (Ok (Some r))) ->
  dutiful (update_status id from to change) R.
Proof.
  intros Hs HR. unfold update_status. apply dutiful_act; [done|]. intros now. apply dutiful_call.
  - split; [|by intros []]. cbn. intros r Hr _ [Hin _]%andb_true_iff. destruct (Hs r now Hr Hin) as [?|Hg]; [by left|].
    right. right. exists g. split; [done|]. by apply get_covers.
  - intros n. destruct (n =? 0); [done|]. split; [done|by intros []].
Qed.

(** A write that settles the job in a gap. *)
Lemma update_covers g id from to change Q :
  (forall r, in_gap g r -> status_in from r = true /\ forall now, settled (moved now to change r)) ->
  tr_worker_id_guard change = None ->
  covers g id (update_status id from to change) Q.
Proof.
  intros Hs Hg. cbn. intros now. left. split; [done|]. intros r Hr.
  destruct (Hs r Hr) as [Hin Hset]. rewrite Hg, Hin. split; [done|]. left. apply Hset.
Qed.

Lemma in_route_queued r : in_gap ToRoute r -> status_in [Queued] r = true.
Proof. intros [_ Hs]. apply status_in_spec. rewrite Hs. by left. Qed.

End attention.

(** *** Every call attends to its jobs *)

Section attending.
Context `{WorkerHost}.

Lemma moved_settled now to change r :
  is_terminal to = true \/ to = NeedsWorker \/ is_Some (default (wj_worker_id r) (tr_worker_id change)) -> settled (moved now to change r).
Proof. done. Qed.

Lemma dispatch_covers job avoid Q : covers ToRoute (wj_id job) (dispatch_avoiding job avoid) Q.
Proof.
  set (id := wj_id job). unfold dispatch_avoiding. fold id. apply covers_call.
  assert (Hrest : forall w0, covers ToRoute id (worker <~ match w0 with Some w => ret (Some w) | None => act (CapableWorker (wj_requires job)) end ;;
    offered <~ match worker with Some w => taken <~ offer job w ;; ret (then_some taken (with_worker job (cw_device_id w))) | None => ret None end ;;
    match offered with
    | Some offered => ret offered
    | None =>
        if local_kind (wj_kind job) then _ <~ act (Spawn job) ;; ret (as_running job)
        else
          parked <~ update_status id [Queued] NeedsWorker no_change ;;
          match parked with Some row => ret row | None => throw (NotFound id) end
    end) Q); [|destruct avoid; [intros workers; apply Hrest|apply Hrest]].
  intros w0. apply covers_call.
  assert (Hlast : covers ToRoute id (if local_kind (wj_kind job) then _ <~ act (Spawn job) ;; ret (as_running job)
        else
          parked <~ update_status id [Queued] NeedsWorker no_change ;;
          match parked with Some row => ret row | None => throw (NotFound id) end) Q).
  { destruct (local_kind (wj_kind job)); [by left|]. apply covers_call, update_covers; [|done]. intros r Hr.
    split; [by apply in_route_queued|]. intros now. apply moved_settled. auto. }
  assert (Hoffer : forall worker, covers ToRoute id (offered <~
      match worker with Some w => taken <~ offer job w ;; ret (then_some taken (with_worker job (cw_device_id w))) | None => ret None end ;;
    match offered with
    | Some offered => ret offered
    | None =>
        if local_kind (wj_kind job) then _ <~ act (Spawn job) ;; ret (as_running job)
        else
          parked <~ update_status id [Queued] NeedsWorker no_change ;;
          match parked with Some row => ret row | None => throw (NotFound id) end
    end) Q); [|destruct w0; [apply Hoffer|intros w; apply Hoffer]].
  intros [w|]; [|apply Hlast]. apply covers_call, covers_call. unfold offer. apply covers_call. intros [].
  - apply covers_call, update_covers; [|done]. intros r Hr. split.
    + apply status_in_spec. destruct Hr as [_ ->]. by left.
    + intros now. apply moved_settled. right. right. by exists (cw_device_id w).
  - apply Hlast.
Qed.

Lemma finish_write_covers id outcome Q : covers ToFinish id (finish_write id outcome) Q.
Proof.
  cbn. intros now. left. split; [done|]. intros r [_ Hs]. split; [apply status_in_spec; rewrite Hs; by right; right; left|].
  left. left. cbn. by destruct outcome.
Qed.

Lemma finish_covers id outcome Q : covers ToFinish id (finish id outcome) Q.
Proof.
  unfold finish. destruct outcome as [v|e]; [|apply finish_write_covers]. destruct validates; [|apply finish_write_covers].
  apply covers_call, get_covers. intros r [_ Hs] Hid. cbn [unless_failed].
  assert (Hin : status_in finish_from r = true) by (apply status_in_spec; rewrite Hs; by right; right; left). rewrite Hin.
  apply covers_call. intros verdict. apply finish_write_covers.
Qed.

Lemma local_run_covers job Q : covers ToRoute (wj_id job) (local_run job) Q.
Proof.
  unfold local_run. apply covers_call. intros made. apply covers_call. intros now. left. split; [done|]. intros r Hr.
  split; [by rewrite in_route_queued|]. right. exists ToFinish. split; [split; [apply Hr|done]|].
  cbn [Z.eqb]. apply get_covers. intros row _ _. cbn [unless_failed]. apply covers_call. intros []. apply covers_call. intros outcome.
  apply covers_call, finish_covers.
Qed.

(** Writes that settle: towards a terminal status, parking, or with a worker. *)
Lemma ending_dutiful id from to change R :
  is_terminal to = true \/ to = NeedsWorker -> dutiful (update_status id from to change) R.
Proof. intros Hto. apply update_settles. intros r _ _ _ now. left. apply moved_settled. tauto. Qed.

Lemma offer_dutiful job w R : dutiful (offer job w) R.
Proof.
  apply dutiful_act; [done|]. intros []; [|done]. apply dutiful_call; [|by intros]. apply update_settles. intros r _ _ _ now. left.
  apply moved_settled. right. right. by eexists.
Qed.

Lemma dispatch_dutiful job avoid R : dutiful (dispatch_avoiding job avoid) R.
Proof.
  unfold dispatch_avoiding. apply dutiful_call; [destruct avoid; [by apply dutiful_act|done]|]. intros w0.
  apply dutiful_call; [by destruct w0|]. intros w. apply dutiful_call.
  { destruct w; [|done]. apply dutiful_call; [apply offer_dutiful|done]. }
  intros [offered|]; [done|]. destruct (local_kind (wj_kind job)); [by apply dutiful_act|].
  apply dutiful_call; [apply ending_dutiful; auto|]. by intros [].
Qed.

Lemma deliver_dutiful id waiters outcome R : dutiful (deliver_all id waiters outcome) R.
Proof. induction waiters as [|w waiters IH]; [done|]. by apply dutiful_act. Qed.

Lemma wake_dutiful job R : dutiful (wake_waiters job) R.
Proof. apply dutiful_act; [done|]. intros blocked. apply deliver_dutiful. Qed.

Lemma finish_dutiful id outcome R : dutiful (finish id outcome) R.
Proof.
  assert (Hw : forall o, dutiful (finish_write id o) R).
  { intros o. apply dutiful_act; [done|]. intros now. apply dutiful_call.
    - split; [|by intros []]. cbn. intros r _ _ _. left. left. by destruct o.
    - intros n. destruct (n =? 0); [done|]. split; [done|by intros []]. }
  unfold finish. destruct outcome as [v|e]; [|apply Hw]. destruct validates; [|apply Hw]. apply dutiful_db; [done|].
  intros [job|]; [|done]. destruct (status_in finish_from job); [|done]. apply dutiful_act; [done|]. intros verdict. apply Hw.
Qed.

Lemma local_run_dutiful job R : dutiful (local_run job) R.
Proof.
  unfold local_run. apply dutiful_act; [done|]. intros _. apply dutiful_call.
  - apply (update_reopens _ _ _ _ ToFinish).
    + intros r now _ _. unfold settled, in_gap. cbn. destruct (wj_worker_id r); [left; right; right; by eexists|by right].
    + intros r _ _. cbn [unless_failed]. apply covers_call. intros []. apply covers_call. intros outcome. apply covers_call, finish_covers.
  - intros [row|]; [|done]. apply dutiful_act; [done|]. intros _. apply dutiful_act; [done|]. intros outcome.
    apply dutiful_call; [apply finish_dutiful|]. intros [row'|]; [|done]. apply dutiful_act; [done|]. intros _. apply wake_dutiful.
Qed.

(** A job that was released is routed next. *)
Lemma reopen_dutiful {B} id from change (f : JobRow -> Call B) g R :
  tr_worker_id change = Some None \/ tr_worker_id change = None ->
  (forall r, wj_id r = id -> covers ToRoute id (f r) (R id)) -> (forall r, dutiful (f r) R) -> dutiful g R ->
  dutiful (released <~ update_status id from Queued change ;; match released with Some r => f r | None => g end) R.
Proof.
  intros Hw Hc Hf Hg. apply dutiful_call; [|by intros []]. apply (update_reopens _ _ _ _ ToRoute).
  - intros r now _ _. unfold settled, in_gap. cbn. destruct Hw as [-> | ->]; cbn; [by right|].
    destruct (wj_worker_id r); [left; right; right; by eexists|by right].
  - intros r _ Hid. by apply Hc.
Qed.

Lemma sweep_dutiful offered released R : dutiful (sweep_offers offered released) R.
Proof.
  revert released. induction offered as [|job offered IH]; intros released; [done|]. cbn [sweep_offers].
  destruct (wj_worker_id job) as [w|]; [|apply IH].
  apply (reopen_dutiful (wj_id job) _ _ (fun requeued => _ <~ act (Announce requeued) ;; _ <~ dispatch_avoiding requeued (Some w) ;; sweep_offers offered (released + 1)));
    [by left| | |apply IH].
  - intros r <-. apply covers_call. intros []. apply covers_call, dispatch_covers.
  - intros r. apply dutiful_act; [done|]. intros _. apply dutiful_call; [apply dispatch_dutiful|]. intros. apply IH.
Qed.

Lemma routed_dutiful {B} (k : Call B) R : dutiful k R -> forall r, dutiful (_ <~ dispatch r ;; k) R.
Proof. intros Hk r. apply dutiful_call; [apply dispatch_dutiful|done]. Qed.

Lemma routed_covers {B} (k : Call B) r Q : covers ToRoute (wj_id r) (_ <~ dispatch r ;; k) Q.
Proof. apply covers_call, dispatch_covers. Qed.

Lemma unpark_dutiful parked R : dutiful (unpark parked) R.
Proof.
  induction parked as [|job parked IH]; [done|]. cbn [unpark]. apply dutiful_act; [done|]. intros [w|]; [|apply IH].
  apply (reopen_dutiful (wj_id job) _ _ (fun requeued => _ <~ dispatch requeued ;; unpark parked)); [by right| | |apply IH].
  - intros r <-. apply routed_covers.
  - by apply routed_dutiful.
Qed.

Lemma release_dutiful unclaimed R : dutiful (release_offers unclaimed) R.
Proof.
  induction unclaimed as [|job unclaimed IH]; [done|]. cbn [release_offers].
  apply (reopen_dutiful (wj_id job) _ _ (fun released => _ <~ dispatch released ;; release_offers unclaimed)); [by left| | |apply IH].
  - intros r <-. apply routed_covers.
  - by apply routed_dutiful.
Qed.

Lemma resend_dutiful device_id assigned resumed R : dutiful (resend device_id assigned resumed) R.
Proof. revert resumed. induction assigned as [|job assigned IH]; intros; [done|]. apply dutiful_act; [done|]. intros. apply IH. Qed.

Lemma connected_dutiful device_id R : dutiful (on_worker_connected device_id) R.
Proof.
  apply dutiful_db; [done|]. intros assigned. apply dutiful_call; [apply resend_dutiful|]. intros resumed. apply dutiful_db; [done|].
  intros parked. apply dutiful_call; [apply unpark_dutiful|done].
Qed.

Lemma holder_dutiful device_id job_id R : dutiful (assert_holder device_id job_id) R.
Proof. apply dutiful_db; [done|]. intros [job|]; [|done]. by destruct (bool_decide _). Qed.

Lemma frame_dutiful device_id job_id from to change R :
  (forall R', dutiful (update_status job_id from to change) R') -> dutiful (apply_frame device_id job_id from to change) R.
Proof.
  intros Hu. apply dutiful_call; [apply holder_dutiful|]. intros _. apply dutiful_call; [apply Hu|]. by intros [row|].
Qed.

Lemma complete_dutiful device_id job_id outcome R : dutiful (complete device_id job_id outcome) R.
Proof.
  apply dutiful_call; [apply holder_dutiful|]. intros _. apply dutiful_call; [apply finish_dutiful|]. intros [row|]; [|done].
  apply dutiful_call; [by destruct (bool_decide _)|]. intros _. apply dutiful_act; [done|]. intros _. apply wake_dutiful.
Qed.

Lemma insert_dutiful {B} row (f : JobRow -> Call B) R :
  in_gap ToRoute row -> covers ToRoute (wj_id row) (f row) (R (wj_id row)) -> (forall r, dutiful (f r) R) ->
  dutiful (job <~ db (InsertJob row) ;; f job) R.
Proof. intros Hr Hc Hf. apply dutiful_call; [|done]. split; [|by intros []]. cbn. by exists ToRoute. Qed.

Lemma serve_dutiful request R : dutiful (serve request) R.
Proof.
  destruct request as [kind input requires priority|kind input requires priority|device_id id declared body| |device_id name hello|device_id epoch|device_id frame|id reason];
    cbn [serve]; unfold answering; (apply dutiful_call; [|by intros]).
  - unfold enqueue. apply dutiful_act; [done|]. intros now. apply dutiful_act; [done|]. intros id. apply insert_dutiful; [done| |].
    + apply covers_call. intros []. apply dispatch_covers.
    + intros r. apply dutiful_act; [done|]. intros _. apply dispatch_dutiful.
  - unfold enqueue_and_wait. do 3 (apply dutiful_act; [done|]; intros ?). apply insert_dutiful; [done| |].
    + apply covers_call. intros []. apply covers_call, dispatch_covers.
    + intros r. apply dutiful_act; [done|]. intros _. apply dutiful_call; [apply dispatch_dutiful|]. intros routed.
      destruct (bool_decide _); [by apply dutiful_act|]. apply dutiful_act; [done|]. intros [o|]; [done|by apply dutiful_act].
  - unfold upload_output. destruct declared; [|done]. destruct (_ <? _); [done|]. apply dutiful_call.
    + apply dutiful_db; [done|]. intros [job|]; [|done]. destruct (_ || _); [done|]. apply dutiful_act; [done|]. by intros [].
    + intros _. destruct (bool_decide _); [|done]. apply dutiful_act; [done|]. intros []; [|done]. apply dutiful_act; [done|]. by intros [].
  - unfold sweep_claim_deadlines. apply dutiful_act; [done|]. intros now. apply dutiful_db; [done|]. intros. apply sweep_dutiful.
  - destruct hello; try done. unfold attach_worker. do 2 (apply dutiful_act; [done|]; intros ?). apply dutiful_call; [apply connected_dutiful|done].
  - unfold detach_worker. apply dutiful_act; [done|]. intros []; [|done]. apply dutiful_db; [done|]. intros. apply release_dutiful.
  - unfold handle_frame. apply dutiful_act; [done|]. intros _. destruct frame as [| |job_id fraction message| |]; try done.
    + apply frame_dutiful. intros R'. apply update_settles. intros r _ _ Hg now. cbn in Hg. apply bool_decide_eq_true in Hg.
      left. apply moved_settled. right. right. by exists device_id.
    + apply frame_dutiful. intros R'. apply update_settles. intros r Hr Hin _ now. unfold settled, in_gap. cbn.
      destruct (wj_worker_id r) as [w|] eqn:Ew; [left; right; right; by eexists|]. apply status_in_spec in Hin.
      destruct Hr as [[Ht|[Hn|[w Hw]]]|[g [_ Hs]]]; [destruct (wj_status r); try done; set_solver|rewrite Hn in Hin; set_solver|congruence|].
      right. exists g. destruct g; [rewrite Hs in Hin; set_solver|done].
    + apply complete_dutiful.
    + apply complete_dutiful.
  - unfold cancel. apply dutiful_db; [done|]. intros [job|]; [|done]. destruct (is_terminal (wj_status job)); [done|].
    apply dutiful_call; [by destruct (wj_worker_id job)|]. intros _. apply dutiful_call; [apply ending_dutiful; auto|]. intros updated.
    apply dutiful_act; [done|]. intros _. apply dutiful_call; [apply wake_dutiful|done].
Qed.

End attending.

(** *** No interleaving loses a job *)

Section unlost.
Context `{WorkerHost}.

Definition attended (tasks : list (Call Reply)) (id : str) (r : JobRow) : Prop :=
  settled r \/ exists g t p, in_gap g r /\ tasks !! t = Some p /\ covers g id p (fun _ _ => False).

Record unlost (sys : System) : Prop := {
  un_ok : server_ok (sy_server sys);
  un_duties : Forall (fun p => dutiful p (fun _ _ _ => False)) (sy_tasks sys);
  un_rows id r : sv_jobs (sy_server sys) !! id = Some r -> attended (sy_tasks sys) id r;
}.

Lemma attended_more tasks more id r : attended tasks id r -> attended (tasks ++ more) id r.
Proof.
  intros [?|(g & t & p & Hg & Ht & Hc)]; [by left|]. right. exists g, t, p. split_and!; [done|by apply lookup_app_l_Some|done].
Qed.

(** The rows an action that does not fail leaves. *)
Lemma exec_owes c {A} (a : Act A) s x s' id r' (later : str -> Gap -> A -> Prop) :
  cc_fault c = false -> server_ok s -> exec c a s = Some (x, s') -> sv_jobs s' !! id = Some r' -> owes a later ->
  sv_jobs s !! id = Some r' \/
  (exists r, sv_jobs s !! id = Some r /\ ((settled r \/ exists g, in_gap g r) ->
     settled r' \/ (exists g, in_gap g r /\ in_gap g r') \/ exists g, in_gap g r' /\ later id g x)) \/
  (sv_jobs s !! id = None /\ exists g, in_gap g r' /\ later id g x).
Proof.
  intros Hf Hok E Hr Ho. destruct a as [B a| | | | | | | | | | | | | | | | | | | | |]; cbn [exec] in E; try (injection E as <- <-; by left).
  - rewrite Hf in E. destruct a as [id'|select|row|id' guard change]; cbn [db_exec] in E; try (injection E as <- <-; by left).
    + destruct (sv_jobs s !! wj_id row) eqn:Er; injection E as <- <-; [by left|]. cbn in Hr. rewrite lookup_insert in Hr.
      case_decide as Ei; [|by left]. injection Hr as <-. subst id. right. right. split; [done|]. exact Ho.
    + destruct (sv_jobs s !! id') as [row|] eqn:Er; [|injection E as <- <-; by left].
      destruct (guard row) eqn:Eg; injection E as <- <-; [|by left]. cbn in Hr. rewrite lookup_insert in Hr.
      case_decide as Ei; [|by left]. injection Hr as <-. subst id. right. left. exists row. split; [done|].
      intros Hrow. apply Ho; [done|by eapply so_keys|done].
  - destruct (hub_send _ _ s) as [b s1] eqn:Es. injection E as <- <-. unfold hub_send in Es. left.
    destruct (sv_hub s !! _) as [cn|]; [destruct (sv_outbound s !! _)|]; by injection Es as <- <-.
  - injection E as <- <-. left. unfold hub_touch in *. by destruct (sv_hub s !! _).
  - destruct (hub_detach _ _ s) as [b s1] eqn:Es. injection E as <- <-. unfold hub_detach in Es. left.
    destruct (sv_hub s !! _) as [cn|]; [destruct (_ =? _)|]; by injection Es as <- <-.
  - left. destruct (sv_outcomes s !! _) as [[id0 o]|]; [|destruct (cc_timeout c); [|done]]; by injection E as <- <-.
  - left. rewrite Hf in E. by injection E as <- <-.
  - left. rewrite Hf in E. destruct (sv_staged s !! _); by injection E as <- <-.
  - left. rewrite Hf in E. by injection E as <- <-.
  - left. injection E as <- <-. by destruct (cc_written c).
  - left. injection E as <- <-. by destruct (cc_valid c).
Qed.

(** The program that attends to a job, after its next action. *)
Lemma exec_reaches c {A} (a : Act A) s x s' id g r r' (later : Gap -> A -> Prop) :
  cc_fault c = false -> server_ok s -> exec c a s = Some (x, s') -> sv_jobs s !! id = Some r -> in_gap g r ->
  sv_jobs s' !! id = Some r' -> reaches g id a later ->
  settled r' \/ (exists g', in_gap g' r' /\ later g' x) \/ (exists job, spawned a = [answering (fun _ => ADone) (local_run job)] /\ wj_id job = id /\ in_gap ToRoute r').
Proof.
  intros Hf Hok E Hr Hg Hr' Hreach.
  assert (Hsame : sv_jobs s' = sv_jobs s -> r' = r) by (intros Hj; rewrite Hj in Hr'; congruence).
  destruct a as [B a| | | | | | | | | | | | | | | | | |job| | |]; cbn [exec] in E; cbn [reaches] in Hreach;
    try (injection E as <- <-; rewrite Hsame by done; by eauto).
  - rewrite Hf in E. destruct a as [id'|select|row|id' guard change]; cbn [db_exec] in E; cbn [db_reaches] in Hreach.
    + injection E as <- <-. rewrite Hsame by done. right. left. exists g. split; [done|]. apply Hreach. intros ->.
      exists r. split_and!; [done|done|]. by eapply so_keys.
    + injection E as <- <-. rewrite Hsame by done. eauto.
    + destruct (sv_jobs s !! wj_id row) eqn:Er; injection E as <- <-; [rewrite Hsame by done; eauto|].
      cbn in Hr'. rewrite lookup_insert_ne in Hr' by (intros Ei; rewrite Ei in Er; congruence).
      assert (r' = r) as -> by congruence. eauto.
    + destruct Hreach as [[-> Hall]|[Hne Hall]].
      * destruct (Hall r Hg) as [Hguard Hc]. rewrite Hr, Hguard in E. injection E as <- <-. cbn in Hr'. rewrite lookup_insert_eq in Hr'.
        injection Hr' as <-. destruct Hc as [?|(g' & ? & ?)]; [by left|eauto].
      * assert (Hjobs : sv_jobs s' !! id = sv_jobs s !! id /\ exists n, x = Some n).
        { destruct (sv_jobs s !! id') as [row|]; [destruct (guard row)|]; injection E as <- <-; cbn; (split; [|eauto]); try done.
          by rewrite lookup_insert_ne. }
        destruct Hjobs as [Hj [n ->]]. assert (r' = r) as -> by congruence. eauto.
  - destruct (hub_send _ _ s) as [b s1] eqn:Es. injection E as <- <-. unfold hub_send in Es.
    rewrite Hsame; [eauto|]. destruct (sv_hub s !! _) as [cn|]; [destruct (sv_outbound s !! _)|]; by injection Es as <- <-.
  - injection E as <- <-. rewrite Hsame; [eauto|]. unfold hub_touch. by destruct (sv_hub s !! _).
  - destruct (hub_detach _ _ s) as [b s1] eqn:Es. injection E as <- <-. unfold hub_detach in Es.
    rewrite Hsame; [eauto|]. destruct (sv_hub s !! _) as [cn|]; [destruct (_ =? _)|]; by injection Es as <- <-.
  - assert (Hs : s' = s) by (destruct (sv_outcomes s !! _) as [[id0 o]|]; [|destruct (cc_timeout c); [|done]]; by injection E as <- <-).
    rewrite Hsame; [eauto|by rewrite Hs].
  - rewrite Hf in E. injection E as <- <-. rewrite Hsame by done. eauto.
  - rewrite Hf in E. rewrite Hsame; [eauto|]. destruct (sv_staged s !! _); by injection E as <- <-.
  - rewrite Hf in E. injection E as <- <-. rewrite Hsame by done. eauto.
  - injection E as <- <-. rewrite Hsame by done. destruct Hreach as [[-> Hid]|Hl]; [|eauto]. right. right. by exists job.
  - injection E as <- <-. rewrite Hsame; [eauto|]. by destruct (cc_written c).
  - injection E as <- <-. rewrite Hsame; [eauto|]. by destruct (cc_valid c).
Qed.

Lemma advance_unlost c t sys sys' :
  cc_fault c = false -> system_ok sys -> unlost sys -> advance c t sys = Some sys' -> unlost sys'.
Proof.
  intros Hf Hok [Hs Hd Hrows] E. pose proof (advance_ok c t sys sys' Hok E) as [[Hs' _] _]. unfold advance in E.
  destruct (sy_tasks sys !! t) as [[res|X a k]|] eqn:Ep; try done.
  destruct (exec c a (sy_server sys)) as [[x s']|] eqn:Ex; [|done]. injection E as <-. cbn [sy_server sy_tasks] in *.
  pose proof (Forall_lookup_1 _ _ _ _ Hd Ep) as [Hduty Hk]. split; cbn [sy_server sy_tasks]; [done| |].
  - apply Forall_app. split; [by apply Forall_insert|]. destruct a; cbn [spawned]; try constructor; [|constructor].
    unfold answering. apply dutiful_call; [apply local_run_dutiful|done].
  - intros id r' Hr'.
    assert (Ht : <[t := k x]> (sy_tasks sys) !! t = Some (k x)) by (apply list_lookup_insert_eq; by eapply lookup_lt_Some).
    assert (Hnew : forall g, in_gap g r' -> covers g id (k x) (fun _ _ => False) -> attended (<[t := k x]> (sy_tasks sys) ++ spawned a) id r').
    { intros g Hg Hc. apply attended_more. right. exists g, t, (k x). done. }
    (* the job was there, and in a gap some program attends to *)
    assert (Hgap : forall g t' p r, sv_jobs (sy_server sys) !! id = Some r -> in_gap g r -> in_gap g r' \/ t' = t -> sy_tasks sys !! t' = Some p ->
      covers g id p (fun _ _ => False) -> attended (<[t := k x]> (sy_tasks sys) ++ spawned a) id r').
    { intros g t' p r Hr Hg Hor Hp Hc. destruct (decide (t' = t)) as [->|Hne].
      - rewrite Ep in Hp. injection Hp as <-. cbn [covers] in Hc.
        destruct (exec_reaches c a _ x s' id g r r' _ Hf Hs Ex Hr Hg Hr' Hc) as [?|[(g' & ? & ?)|(job & -> & Hid & Hg')]]; [by left|by eapply Hnew|].
        right. exists ToRoute, (length (<[t := k x]> (sy_tasks sys))), (answering (fun _ => ADone) (local_run job)). split_and!; [done| |].
        + rewrite lookup_app_r, Nat.sub_diag by done. done.
        + subst id. unfold answering. apply covers_call, local_run_covers.
      - destruct Hor as [Hg'|]; [|done]. apply attended_more. right. exists g, t', p. by rewrite list_lookup_insert_ne. }
    destruct (exec_owes c a _ x s' id r' _ Hf Hs Ex Hr' Hduty) as [Hr|[(r & Hr & Hc)|(_ & g & Hg & Hc)]]; [| |by apply (Hnew g)].
    + destruct (Hrows id r' Hr) as [?|(g & t' & p & Hg & Hp & Hc)]; [by left|]. by apply (Hgap g t' p r'); auto.
    + destruct (Hrows id r Hr) as [Hset|(g & t' & p & Hg & Hp & Hcov)].
      * destruct Hc as [?|[(g & Hg & _)|(g & Hg & Hcv)]]; [by left|by left|by apply gap_unsettled in Hg|by apply (Hnew g)].
      * destruct Hc as [?|[(g2 & Hg2 & Hg2')|(g2 & Hg2 & Hcv)]]; [right; by exists g|by left| |by apply (Hnew g2)].
        pose proof (gap_unique _ _ _ Hg Hg2) as <-. by apply (Hgap g t' p r); auto.
Qed.

Lemma run_unlost s sys :
  server_ok s -> (forall id r, sv_jobs s !! id = Some r -> settled r) -> rtc (system_step false) (starting s) sys -> unlost sys.
Proof.
  intros Hok Hset Hr.
  assert (Hgen : forall a b, rtc (system_step false) a b -> system_ok a -> unlost a -> unlost b).
  { clear. intros a b Hr. induction Hr as [|a b c Hs Hr IH]; [done|]. intros Hok Hun. destruct (step_ok _ _ _ Hok Hs) as [Hok1 _]. apply IH; [done|].
    destruct Hs as [sys0 request|ch t sys0 sys1 Hf E|sys0 epoch].
    - destruct Hun as [U1 U2 U3]. split; cbn [sy_server sy_tasks]; [done| |intros id r Hr'; by apply attended_more, U3].
      apply Forall_app. split; [done|]. constructor; [apply serve_dutiful|constructor].
    - apply (advance_unlost ch t sys0 sys1); [|done|done|exact E]. destruct (cc_fault ch); [by specialize (Hf eq_refl)|done].
    - destruct Hun as [U1 U2 U3]. split; [apply Hok1|done|done]. }
  apply (Hgen (starting s)); [done|by apply starting_ok|]. split; [done|constructor|]. intros id r Hrow. left. by eapply Hset.
Qed.

(** C25. No job is lost.  As long as statements do not fail, and however everything else
    interleaves: whenever no call is under way, every job has ended, is parked until a
    worker that can run it connects, or is assigned to a worker. *)
Theorem no_job_lost s sys id r :
  server_ok s -> (forall id r, sv_jobs s !! id = Some r -> settled r) ->
  rtc (system_step false) (starting s) sys ->
  (forall t p, sy_tasks sys !! t = Some p -> exists res, p = Ret res) ->
  sv_jobs (sy_server sys) !! id = Some r ->
  is_terminal (wj_status r) = true \/ wj_status r = NeedsWorker \/ exists worker, wj_worker_id r = Some worker.
Proof.
  intros Hok Hset Hr Hend Hrow. destruct (un_rows _ (run_unlost s sys Hok Hset Hr) id r Hrow) as [[?|[?|[w Hw]]]|(g & t & p & Hg & Hp & Hc)]; [eauto..|].
  destruct (Hend t p Hp) as [res ->]. done.
Qed.

End unlost.

(** ** Routing *)

Section routing.
Context `{WorkerHost}.

(** A program that nothing interrupts, at one moment; with the tasks it spawned. *)
Fixpoint run_alone {A} (c : Choice) (p : Prog A) (s : Server) : option (A * Server * list (Call Reply)) :=
  match p with
  | Ret a => Some (a, s, [])
  | Vis a k =>
      match exec c a s with
      | Some (x, s1) =>
          match run_alone c (k x) s1 with
          | Some (res, s2, tasks) => Some (res, s2, spawned a ++ tasks)
          | None => None
          end
      | None => None
      end
  end.

Lemma run_call {A B} c (p : Call A) (f : A -> Call B) s a s1 ts res s2 ts' :
  run_alone c p s = Some (Ok a, s1, ts) -> run_alone c (f a) s1 = Some (res, s2, ts') ->
  run_alone c (call_bind p f) s = Some (res, s2, ts ++ ts').
Proof.
  unfold call_bind. revert s ts. induction p as [r|X act k IH]; intros s ts; cbn.
  - intros [= -> <- <-]. by intros ->.
  - destruct (exec c act s) as [[x s3]|]; [|done]. destruct (run_alone c (k x) s3) as [[[r s4] ts0]|] eqn:E; [|done].
    intros [= -> <- <-] Hf. rewrite (IH x _ _ E Hf). by rewrite app_assoc.
Qed.

#[local] Instance by_device_total : Total by_device.
Proof. intros a b. unfold by_device. apply str_ord_total. Qed.

#[local] Instance by_device_trans : Transitive by_device.
Proof. intros a b c. unfold by_device. apply str_ord_trans. Qed.

(** The worker that is asked: the first by id of those that are able. *)
Lemma capable_first requires s w :
  capable_worker requires s = Some w ->
  w ∈ hub_workers s /\ satisfies (cw_capabilities w) requires = true /\
  forall w', w' ∈ hub_workers s -> satisfies (cw_capabilities w') requires = true -> str_le (cw_device_id w) (cw_device_id w') = true.
Proof.
  unfold capable_worker. destruct (merge_sort _ _) as [|w0 l] eqn:E; [done|]. intros [= ->].
  assert (Hin : forall x, x ∈ w :: l <-> x ∈ hub_workers s /\ satisfies (cw_capabilities x) requires = true).
  { intros x. rewrite <- E, merge_sort_Permutation, list_elem_of_In, filter_In, list_elem_of_In. done. }
  destruct (proj1 (Hin w)) as [Hw Hs]; [by left|]. split_and!; [done|done|]. intros w' Hw' Hs'.
  pose proof (proj2 (Hin w') (conj Hw' Hs')) as [->|Hl]%elem_of_cons; [by destruct (str_le_total (cw_device_id w) (cw_device_id w))|].
  assert (Hsort : StronglySorted by_device (w :: l)) by (rewrite <- E; apply StronglySorted_merge_sort; apply _).
  apply StronglySorted_inv in Hsort as [_ Hsort]. rewrite Forall_forall in Hsort. by apply Hsort.
Qed.

(** The channel to a worker, when its transport is there. *)
Definition channel (s : Server) (device_id : str) : option (Z * list ServerFrame) :=
  c ← sv_hub s !! device_id; frames ← sv_outbound s !! cn_epoch c; Some (cn_epoch c, frames).

(** The worker a job is for: it is connected, advertises what the job requires, and no
    other such worker has an id before it. *)
Definition first_able (requires : Json) (s : Server) (w : ConnectedWorker) : Prop :=
  w ∈ hub_workers s /\ satisfies (cw_capabilities w) requires = true /\
  forall w', w' ∈ hub_workers s -> satisfies (cw_capabilities w') requires = true -> str_le (cw_device_id w) (cw_device_id w') = true.

Lemma none_able requires s w :
  capable_worker requires s = None -> w ∈ hub_workers s -> satisfies (cw_capabilities w) requires = false.
Proof.
  unfold capable_worker. destruct (merge_sort _ _) as [|w0 l] eqn:E; [|done]. intros _ Hw.
  apply not_true_iff_false. intros Hs. assert (Hin : w ∈ @nil ConnectedWorker); [|by apply elem_of_nil in Hin].
  rewrite <- E, merge_sort_Permutation, list_elem_of_In, filter_In, <- list_elem_of_In. done.
Qed.

(** The row of a job with another status, worker and time of change. *)
Definition placed (job : JobRow) (status : WorkerJobStatus) (worker : option str) (updated_at : Z) : JobRow :=
  {| wj_id := wj_id job; wj_kind := wj_kind job; wj_input := wj_input job; wj_requires := wj_requires job; wj_status := status;
     wj_worker_id := worker; wj_priority := wj_priority job; wj_progress := wj_progress job;
     wj_progress_message := wj_progress_message job; wj_result := wj_result job; wj_error := wj_error job;
     wj_created_at := wj_created_at job; wj_updated_at := updated_at; wj_started_at := wj_started_at job;
     wj_finished_at := wj_finished_at job |}.

(** C26. Routing a job.  A job that is queued, routed without interruption by a server whose
    statements do not fail, is for the first connected worker by id that advertises what the
    job requires.  When there is one and its transport is there, the row of the job is
    assigned to it, still queued, and the offer is the last frame on its channel.  When there
    is none, or the transport of that first one is gone (no other is tried, see
    [dead_connection_hides_worker]), the job is handed to a local run if its kind has one, its
    row unchanged until that starts, and else its row is parked.  Nothing else of the server
    changes, and of the row only the worker or the status and the time of the change. *)
Theorem dispatch_exact c job s :
  cc_fault c = false -> sv_jobs s !! wj_id job = Some job -> wj_status job = Queued ->
  let place row := set_jobs s (<[wj_id job := row]> (sv_jobs s)) in
  (exists w epoch frames,
     first_able (wj_requires job) s w /\ channel s (cw_device_id w) = Some (epoch, frames) /\
     run_alone c (dispatch job) s =
       Some (Ok (placed job Queued (Some (cw_device_id w)) (wj_updated_at job)),
             set_hub (place (placed job Queued (Some (cw_device_id w)) (cc_now c))) (sv_hub s) (sv_epochs s)
               (<[epoch := frames ++ [job_frame job]]> (sv_outbound s)), [])) \/
  (((forall w, w ∈ hub_workers s -> satisfies (cw_capabilities w) (wj_requires job) = false) \/
    (exists w, first_able (wj_requires job) s w /\ channel s (cw_device_id w) = None)) /\
   run_alone c (dispatch job) s =
     if local_kind (wj_kind job)
     then Some (Ok (placed job Running (wj_worker_id job) (wj_updated_at job)), s, [answering (fun _ => ADone) (local_run job)])
     else Some (Ok (placed job NeedsWorker (wj_worker_id job) (cc_now c)), place (placed job NeedsWorker (wj_worker_id job) (cc_now c)), [])).
Proof.
  intros Hf Hrow Hq place.
  assert (Hin : forall from, Queued ∈ from -> status_in from job = true) by (intros from Hin; apply status_in_spec; by rewrite Hq).
  set (last := if local_kind (wj_kind job) then _ <~ act (Spawn job) ;; ret (as_running job)
    else parked <~ update_status (wj_id job) [Queued] NeedsWorker no_change ;;
         match parked with Some row => ret row | None => throw (NotFound (wj_id job)) end).
  (* no offer: the last resort *)
  assert (Hlast : forall w, capable_worker (wj_requires job) s = w ->
    run_alone c (match w with Some w => taken <~ offer job w ;; ret (then_some taken (with_worker job (cw_device_id w))) | None => ret None end) s
      = Some (Ok None, s, []) ->
    run_alone c (dispatch job) s =
      if local_kind (wj_kind job)
      then Some (Ok (placed job Running (wj_worker_id job) (wj_updated_at job)), s, [answering (fun _ => ADone) (local_run job)])
      else Some (Ok (placed job NeedsWorker (wj_worker_id job) (cc_now c)), place (placed job NeedsWorker (wj_worker_id job) (cc_now c)), [])).
  { intros w Hw Hoffer.
    assert (Hrun : forall res s' ts, run_alone c last s = Some (res, s', ts) -> run_alone c (dispatch job) s = Some (res, s', ts)).
    { intros res s' ts Hl. apply (run_call c (ret None) _ s None s []); [done|]. apply (run_call c _ _ s w s []); [cbn; by rewrite Hw|].
      by apply (run_call c _ _ s None s []). }
    destruct (local_kind (wj_kind job)) eqn:El; [by apply Hrun|]. set (row := placed _ _ _ _).
    apply Hrun. subst last. apply (run_call c _ _ s (Some row) (place row) []); [|done].
    cbn. rewrite Hf. cbn. rewrite Hrow, Hin by (by left). cbn. rewrite Hf. cbn. by rewrite lookup_insert_eq. }
  destruct (capable_worker (wj_requires job) s) as [w|] eqn:Ew.
  2: { right. split; [left; intros w; by apply none_able|]. by apply (Hlast None). }
  pose proof (capable_first _ _ _ Ew) as Hfirst.
  destruct (channel s (cw_device_id w)) as [[epoch frames]|] eqn:Ech; unfold channel in Ech;
    destruct (sv_hub s !! cw_device_id w) as [cn|] eqn:Ec; cbn [mbind option_bind] in Ech; try done.
  - destruct (sv_outbound s !! cn_epoch cn) as [frames'|] eqn:Eo; [|done]. injection Ech as <- <-. left. exists w, (cn_epoch cn), frames'.
    split; [done|]. split; [unfold channel; by rewrite Ec; cbn; rewrite Eo|].
    cbn. rewrite Ew. cbn. unfold hub_send. rewrite Ec, Eo. cbn. rewrite Hf. cbn. rewrite Hrow, Hin by (by left). cbn. rewrite Hf. cbn.
    rewrite lookup_insert_eq. unfold with_worker. by rewrite Hq.
  - destruct (sv_outbound s !! cn_epoch cn) as [frames'|] eqn:Eo; [done|]. right.
    split; [right; exists w; split; [done|]; unfold channel; by rewrite Ec; cbn; rewrite Eo|].
    apply (Hlast (Some w)); [done|]. cbn. unfold hub_send. by rewrite Ec, Eo.
  - right. split; [right; exists w; split; [done|]; unfold channel; by rewrite Ec|].
    apply (Hlast (Some w)); [done|]. cbn. unfold hub_send. by rewrite Ec.
Qed.

End routing.

(** ** Concrete runs *)

(** What happens, in order. *)
Inductive Event := Begins (request : Request) | Acts (t : nat) (c : Choice) | Drops (epoch : Z).

Section schedules.
Context `{WorkerHost}.

Definition happens (e : Event) (sys : System) : option System :=
  match e with
  | Begins request => Some {| sy_server := sy_server sys; sy_tasks := sy_tasks sys ++ [serve request] |}
  | Acts t c => advance c t sys
  | Drops epoch =>
      Some {| sy_server := set_hub (sy_server sys) (sv_hub (sy_server sys)) (sv_epochs (sy_server sys)) (delete epoch (sv_outbound (sy_server sys)));
              sy_tasks := sy_tasks sys |}
  end.

Fixpoint run_events (events : list Event) (sys : System) : option System :=
  match events with
  | [] => Some sys
  | e :: events => match happens e sys with Some sys => run_events events sys | None => None end
  end.

Definition no_fault (e : Event) : bool := match e with Acts _ c => negb (cc_fault c) | _ => true end.

Lemma run_events_steps faults events sys sys' :
  run_events events sys = Some sys' -> faults = true \/ forallb no_fault events = true -> rtc (system_step faults) sys sys'.
Proof.
  revert sys. induction events as [|e events IH]; intros sys; cbn; [by intros [= <-] _|].
  destruct (happens e sys) as [sys1|] eqn:E; [|done]. intros Hr Hf. apply (rtc_l _ _ sys1).
  - destruct e as [request|t c|epoch]; cbn in E; [injection E as <-; constructor| |injection E as <-; constructor].
    apply (action_step faults c t); [|done]. intros Hc. destruct Hf as [?|Hf]; [done|]. cbn in Hf. by rewrite Hc in Hf.
  - apply IH; [done|]. destruct Hf as [?|Hf]; [by left|right]. by apply andb_true_iff in Hf as [_ ?].
Qed.

End schedules.

(** A server that runs transcodes itself and validates what jobs produce. *)
Definition demo_host : WorkerHost :=
  {| local_kind k := bool_decide (k = lit "transcode"); validates := true; claim_deadline := 30; output_path id := id;
     cache_max_bytes := 1000; sha256_hex b := b |}.

#[local] Existing Instance demo_host.

Definition bare_server : Server :=
  {| sv_jobs := ∅; sv_hub := ∅; sv_epochs := 0; sv_outbound := ∅; sv_waiters := ∅; sv_next_waiter := 0; sv_outcomes := ∅;
     sv_outputs := ∅; sv_staged := ∅; sv_events := []; sv_accepted := [] |}.

Lemma bare_ok : server_ok bare_server.
Proof. split; intros *; cbn; rewrite lookup_empty; done. Qed.

Definition choice (now : Z) : Choice :=
  {| cc_now := now; cc_fault := false; cc_id := lit "j"; cc_timeout := false; cc_written := Some (lit "bytes");
     cc_ran := Ok (JInt 1); cc_valid := Ok tt |}.

Definition failing : Choice :=
  {| cc_now := 0; cc_fault := true; cc_id := lit "j"; cc_timeout := false; cc_written := None; cc_ran := Ok JNull; cc_valid := Ok tt |}.

(** Task [t] does [n] actions. *)
Definition does (t n : nat) : list Event := repeat (Acts t (choice 100)) n.

Definition able : Json := JObject [(lit "transcode", JBool true)].

Definition hello : WorkerFrame := Hello able None None.

Definition status_of (sys : option System) (id : string) : option WorkerJobStatus :=
  sys ← sys; wj_status <$> sv_jobs (sy_server sys) !! lit id.

(** A job that the server runs itself, to its end. *)
Definition local_events : list Event := Begins (REnqueue (lit "transcode") JNull able 0) :: does 0 6 ++ does 1 13.

Definition local_system : System := default (starting bare_server) (run_events local_events (starting bare_server)).

Lemma local_reached faults : rtc (system_step faults) (starting bare_server) local_system.
Proof.
  apply (run_events_steps faults local_events); [|right; by vm_compute]. unfold local_system.
  destruct (run_events local_events (starting bare_server)) eqn:E; [done|].
  assert (Hn : is_none (run_events local_events (starting bare_server)) = false) by (by vm_compute). by rewrite E in Hn.
Qed.

Definition local_row : option JobRow := sv_jobs (sy_server local_system) !! lit "j".

Example local_done : wj_status <$> local_row = Some Done.
Proof. by vm_compute. Qed.

Lemma results_final_witness :
  exists r, local_row = Some r /\ wj_status r = Done /\
    exists v, wj_result r = Some v /\ (validates = true -> (lit "j", v) ∈ sv_accepted (sy_server local_system)).
Proof.
  pose proof local_done as Hd. unfold local_row in *. destruct (sv_jobs (sy_server local_system) !! lit "j") as [r|] eqn:E; [|discriminate Hd].
  injection Hd as Hd. exists r. split; [reflexivity|]. split; [exact Hd|].
  apply (results_final true bare_server local_system local_system (lit "j") r bare_ok (local_reached true) (rtc_refl _ _) E); [by rewrite Hd|exact Hd].
Defined.

Definition is_ret {A} (p : Prog A) : bool := match p with Ret _ => true | Vis _ _ => false end.

Lemma all_ret {A} (l : list (Prog A)) t p : forallb is_ret l = true -> l !! t = Some p -> exists res, p = Ret res.
Proof.
  rewrite forallb_forall. intros Hall Hp%list_elem_of_lookup_2. apply list_elem_of_In, Hall in Hp. destruct p as [res|X a k]; [by exists res|done].
Qed.

Lemma local_ended t p : sy_tasks local_system !! t = Some p -> exists res, p = Ret res.
Proof. apply all_ret. vm_compute. reflexivity. Qed.

Lemma no_job_lost_witness :
  exists r, local_row = Some r /\ (is_terminal (wj_status r) = true \/ wj_status r = NeedsWorker \/ exists worker, wj_worker_id r = Some worker).
Proof.
  pose proof local_done as Hd. destruct local_row as [r|] eqn:Hr; [|discriminate Hd]. exists r. split; [reflexivity|].
  refine (no_job_lost bare_server local_system (lit "j") r bare_ok _ (local_reached false) local_ended Hr).
  intros id r' Hr'. discriminate Hr'.
Defined.

Definition align_job : JobRow := queued_job (lit "a") (lit "align") JNull able 0 7.

(** A server with a worker that is able, and the job unassigned. *)
Definition with_gpu : Server :=
  set_jobs (sy_server (default (starting bare_server) (run_events (Begins (RAttach (lit "w") (lit "gpu") hello) :: does 0 4)
    (starting bare_server)))) {[lit "a" := align_job]}.

Lemma dispatch_exact_witness :
  exists s', run_alone (choice 9) (dispatch align_job) with_gpu = Some (Ok (placed align_job Queued (Some (lit "w")) 7), s', []) /\
    sv_jobs s' !! lit "a" = Some (placed align_job Queued (Some (lit "w")) 9).
Proof.
  assert (Hone : cw_device_id <$> hub_workers with_gpu = [lit "w"]) by (vm_compute; reflexivity).
  assert (Hid : forall w, w ∈ hub_workers with_gpu -> cw_device_id w = lit "w").
  { intros w Hw. apply (list_elem_of_fmap_2 cw_device_id) in Hw. rewrite Hone in Hw. apply list_elem_of_singleton in Hw. exact Hw. }
  destruct (dispatch_exact (choice 9) align_job with_gpu eq_refl eq_refl eq_refl) as [(w & epoch & frames & (Hw & _) & _ & Hrun)|[Hno _]].
  - rewrite (Hid w Hw) in Hrun. eexists. split; [exact Hrun|]. vm_compute. reflexivity.
  - exfalso. destruct Hno as [Hno|(w & (Hw & _) & Hch)].
    + assert (Hall : forallb (fun w => negb (satisfies (cw_capabilities w) (wj_requires align_job))) (hub_workers with_gpu) = false) by (vm_compute; reflexivity).
      apply not_true_iff_false in Hall. apply Hall, forallb_forall. intros w Hw%list_elem_of_In. rewrite (Hno w Hw). reflexivity.
    + rewrite (Hid w Hw) in Hch. vm_compute in Hch. discriminate.
Defined.

(** ** What interleavings can do *)

(** A worker holds the job of a caller that waits, and has uploaded its output. *)
Definition held : Server :=
  {| sv_jobs := {[lit "j" := moved 5 Running (reassigned (Some (lit "w")) None) (queued_job (lit "j") (lit "align") JNull able 0 1)]};
     sv_hub := ∅; sv_epochs := 0; sv_outbound := ∅; sv_waiters := {[lit "j" := [0%nat]]}; sv_next_waiter := 1; sv_outcomes := ∅;
     sv_outputs := {[lit "j" := lit "bytes"]}; sv_staged := ∅; sv_events := []; sv_accepted := [] |}.

(** A cancellation that crosses the result: the job is done, but its output is deleted and
    the caller is told that it failed. *)
Example cancel_spoils_done :
  let sys := run_events (Begins (RCancel (lit "j") (lit "stop")) :: Begins (RFrame (lit "w") (Result (lit "j") (JInt 1))) ::
                         does 0 1 ++ does 1 7 ++ does 0 6) (starting held) in
  status_of sys "j" = Some Done /\
  (sys ← sys; sv_outputs (sy_server sys) !! lit "j") = None /\
  (sys ← sys; sv_outcomes (sy_server sys) !! 0%nat) = Some (lit "j", OFailed (lit "running")).
Proof. split_and!; vm_compute; reflexivity. Qed.

(** A worker that connects while a job is being parked: the job stays parked although a
    connected worker can run it. *)
Example parked_beside_worker :
  let sys := run_events (Begins (REnqueue (lit "align") JNull able 0) :: does 0 5 ++ Begins (RAttach (lit "w") (lit "gpu") hello) ::
                         does 1 4 ++ does 0 3) (starting bare_server) in
  status_of sys "j" = Some NeedsWorker /\
  (sys ← sys; cw_device_id <$> capable_worker able (sy_server sys)) = Some (lit "w").
Proof. split_and!; vm_compute; reflexivity. Qed.

(** An offer that expired, and a statement that fails after it was withdrawn: the job is
    queued and unassigned, and no call is left that would route it. *)
Definition offered : Server :=
  set_jobs held {[lit "j" := moved 5 Queued (reassigned (Some (lit "w")) None) (queued_job (lit "j") (lit "align") JNull able 0 1)]}.

Example failure_loses_job :
  let sys := run_events (Begins RSweep :: does 0 9 ++ [Acts 0 failing]) (starting offered) in
  status_of sys "j" = Some Queued /\
  (sys ← sys; wj_worker_id <$> sv_jobs (sy_server sys) !! lit "j") = Some None /\
  (sys ← sys; Some (forallb is_ret (sy_tasks sys))) = Some true.
Proof. split_and!; vm_compute; reflexivity. Qed.

(** A connection whose first query failed stays in the hub without a transport, and keeps
    jobs from a worker that is there. *)
Example dead_connection_hides_worker :
  let sys := run_events (Begins (RAttach (lit "a") (lit "gpu") hello) :: does 0 2 ++ Acts 0 failing :: Drops 1 ::
                         Begins (RAttach (lit "b") (lit "gpu") hello) :: does 1 4 ++
                         Begins (REnqueue (lit "align") JNull able 0) :: does 2 9) (starting bare_server) in
  status_of sys "j" = Some NeedsWorker /\
  (sys ← sys; fst <$> channel (sy_server sys) (lit "b")) = Some 2.
Proof. split_and!; vm_compute; reflexivity. Qed.

(** A job that is cancelled is not announced. *)
Example cancel_unannounced :
  let sys := run_events (Begins (RCancel (lit "j") (lit "stop")) :: does 0 8) (starting held) in
  status_of sys "j" = Some Failed /\ (sys ← sys; Some (length (sv_events (sy_server sys)))) = Some 0%nat.
Proof. split_and!; vm_compute; reflexivity. Qed.
