(* ===== verification/LiseurSync.v ===== *)
(** * The liseur-sync protocol

    Models [src/crates/liseur-sync/src/lib.rs]: the wire types, the bearer tokens and their
    scopes, the validators, and every handler of the [/v1] routes, over the backend the
    host application supplies.

    The backend is the class [LiseurSyncBackend], one operation per method of the trait,
    over a state of its own.  What the crate takes from elsewhere is a class too: RFC 3339
    timestamps ([Chrono], instants in nanoseconds), the JSON text of a value and the
    derived decoders ([Wire]), SHA-256 ([Sha256]), and the header and file services of the
    HTTP stack ([Http]).  A handler that panics has the outcome [Panicked]; the clock is an
    argument.  Requests whose path, query or body axum refuses before the handler runs
    are not requests of the model, unless the handler takes the refusal as an argument. *)

From stdpp Require Import base gmap list strings sorting.
From Stdlib Require Import ZArith Lia.
From S2P Require Import Prelude Float64.

#[local] Open Scope Z_scope.
#[local] Open Scope coppice_scope.

Abbreviation Value := (json f64).

(** ** What the crate takes from elsewhere *)

Class Chrono := {
  parse_from_rfc3339 : str -> option Z;
  to_rfc3339_micros : Z -> str;
  to_rfc3339_nanos : Z -> str;
  (** [DateTime::<Utc>::MAX_UTC]. *)
  max_utc : Z;
}.

(** RFC 3339 writes years with four digits: a printed instant of the years 1970 to 9999
    reads back as the same instant. *)
Definition year_10000 : Z := 253402300800 * 1000000000.

Class ChronoLaws `{Chrono} : Prop := {
  nanos_roundtrip t : 0 <= t < year_10000 -> parse_from_rfc3339 (to_rfc3339_nanos t) = Some t;
}.

(** [{:?}] of a string. *)
Class DebugText := { debug_str : str -> str }.

Class Sha256 := { sha256_hex : list Z -> str }.

(** ** Constants *)

Definition MAX_OP_BATCH : nat := 500.
Definition MAX_SESSION_BATCH : nat := 1000.
Definition MAX_ANNOTATION_BATCH : nat := 100.
Definition MAX_ID_BYTES : Z := 64.
Definition MAX_REFERENCE_BYTES : Z := 128.
Definition MAX_CLIENT_TS_BYTES : Z := 64.
Definition MAX_LOCATOR_BYTES : Z := 16 * 1024.
Definition MAX_EXCERPT_BYTES : Z := 1024.
Definition MAX_BODY_BYTES : Z := 16 * 1024.
Definition MAX_TOKEN_NAME_BYTES : Z := 256.
Definition MAX_SETTINGS_PER_ACCOUNT : nat := 256.
Definition MAX_SETTING_KEY_BYTES : Z := 128.
Definition MAX_SETTING_VALUE_BYTES : Z := 4 * 1024.
Definition MAX_SESSION_ACTIVE_MS : Z := 9007199254740991.
Definition DEFAULT_ATTACHMENT_MAX_BYTES : Z := 8 * 1024 * 1024.
Definition MAX_MEDIA_TYPE_BYTES : Z := 128.
Definition ATTACHMENT_SHA256_HEADER : str := lit "x-attachment-sha256".
Definition MAX_SERIES_NAME_BYTES : Z := 512.

Definition KNOWN_SCOPES : list str :=
  [lit "sync"; lit "read-insights"; lit "library-read"; lit "library-manage"; lit "library-upload";
   lit "library-delete"; lit "admin"].

Definition ATTACHMENT_KINDS : list str := [lit "markup-svg"; lit "markup-page"; lit "notebook"].

Definition ANNOTATION_COLORS : list str :=
  [lit "yellow"; lit "green"; lit "blue"; lit "pink"; lit "purple"; lit "orange"; lit "red"; lit "olive";
   lit "cyan"; lit "gray"].

Definition ANNOTATION_DRAWERS : list str := [lit "lighten"; lit "underline"; lit "strikeout"; lit "invert"].

Definition LISEUR_ANNOTATION_COLORS : list str :=
  [lit "yellow"; lit "green"; lit "blue"; lit "pink"; lit "purple"; lit "orange"].

Definition EXTENDED_ANNOTATION_CAPABILITIES_HEADER : str := lit "x-liseur-annotation-capabilities".
Definition EXTENDED_ANNOTATION_COLOR_DRAWER_CAPABILITY : str := lit "annotation-color-drawer-v1".

Definition hours (n : Z) : Z := n * 3600 * 1000000000.

(** ** Errors *)

Record Refusal := {
  rf_status : Z;
  rf_code : str;
  rf_message : str;
  rf_item_index : option nat;
  rf_session_id : option str;
  rf_op_id : option str;
  rf_work_id : option str;
  rf_limit : option Z;
}.

Inductive LiseurSyncError :=
| Unauthorized
| Forbidden (message : str)
| BadRequest (message : str)
| NotFound (message : str)
| Gone (message : str)
| Conflict (message : str)
| PayloadTooLarge (message : str)
| TimeInFuture (message : str)
| ItemRefusal (refusal : Refusal)
| IdentityConflict (work_ids : list str)
| Internal (message : str).

(** How a call ends other than by returning: with an error, or by a panic. *)
Inductive Stop := Refused (e : LiseurSyncError) | Panicked.

(** ** Tokens *)

Inductive LiseurTokenKind := LoginSession | Device.

#[export] Instance token_kind_eq : EqDecision LiseurTokenKind.
Proof. solve_decision. Defined.

Record AuthContext := { au_user_id : str; au_is_server_owner : bool }.

Record LiseurToken := {
  tk_context : AuthContext;
  tk_device_id : str;
  tk_name : str;
  tk_scopes : list str;
  tk_kind : LiseurTokenKind;
  tk_token_id : option str;
}.

Definition has_scope (token : LiseurToken) (scope : str) : bool :=
  existsb (fun candidate => bool_decide (candidate = scope)) (tk_scopes token).

Definition allows_scope (token : LiseurToken) (scope : str) : bool :=
  has_scope token scope || has_scope token (lit "admin").

Definition is_login_session (token : LiseurToken) : bool := bool_decide (tk_kind token = LoginSession).

Record LoginResult := { lg_auth_token : str; lg_expires_in : Z }.

Record TokenCreateRequest := {
  tr_name : str;
  tr_scope : option str;
  tr_scopes : option (list str);
  tr_expires_in_seconds : option Z;
}.

Record TokenCreateResult := {
  tc_token_id : str;
  tc_device_id : str;
  tc_name : str;
  tc_scope : option str;
  tc_scopes : list str;
  tc_secret : str;
  tc_expires_at : option str;
}.

Record TokenIntrospection := {
  ti_id : str;
  ti_device_id : str;
  ti_name : str;
  ti_scope : option str;
  ti_scopes : list str;
  ti_account_id : str;
  ti_session_active_ms : bool;
}.

(** [position] of a scope among the known ones. *)
Definition scope_position (scope : str) : nat :=
  match list_find (fun known => known = scope) KNOWN_SCOPES with Some (i, _) => i | None => 0 end.

Definition scope_before (a b : str) : Prop := (scope_position a <= scope_position b)%nat.

#[export] Instance scope_before_dec a b : Decision (scope_before a b).
Proof. unfold scope_before. apply _. Defined.

Section scopes.
Context `{DebugText}.

Fixpoint collect_scopes (scopes : list str) (seen : gset str) (normalized : list str)
  : result (list str) str :=
  match scopes with
  | [] => Ok normalized
  | scope :: scopes =>
      if negb (bool_decide (scope ∈ KNOWN_SCOPES)) then Err (lit "invalid scope " ++ debug_str scope)
      else if bool_decide (scope ∈ seen) then collect_scopes scopes seen normalized
      else collect_scopes scopes ({[scope]} ∪ seen) (normalized ++ [scope])
  end.

Definition normalize_scopes (scopes : list str) : result (list str) str :=
  let? normalized := collect_scopes scopes ∅ [] in
  if bool_decide (normalized = []) then Err (lit "at least one scope is required")
  else Ok (merge_sort scope_before normalized).

(** [Option::transpose]. *)
Definition transpose {A E} (o : option (result A E)) : result (option A) E :=
  match o with
  | None => Ok None
  | Some (Ok a) => Ok (Some a)
  | Some (Err e) => Err e
  end.

Definition requested_scopes (request : TokenCreateRequest) : result (list str) str :=
  let? scalar := transpose ((fun scope => normalize_scopes [scope]) <$> tr_scope request) in
  let? array := transpose (normalize_scopes <$> tr_scopes request) in
  match scalar, array with
  | None, None => Err (lit "scope or scopes required")
  | Some scopes, None | None, Some scopes => Ok scopes
  | Some scalar, Some array =>
      if bool_decide (scalar = array) then Ok scalar
      else Err (lit "scope and scopes must describe the same set")
  end.
End scopes.

Definition require_library_read (token : LiseurToken) : result unit LiseurSyncError :=
  if is_login_session token || negb (allows_scope token (lit "library-read"))
  then Err (Forbidden (lit "library-read scope required")) else Ok tt.

Definition require_library_manage (token : LiseurToken) : result unit LiseurSyncError :=
  if is_login_session token || negb (allows_scope token (lit "library-manage"))
  then Err (Forbidden (lit "library-manage scope required")) else Ok tt.

Definition require_sync (token : LiseurToken) : result unit LiseurSyncError :=
  if is_login_session token then Err (Forbidden (lit "sync scope required"))
  else if allows_scope token (lit "sync") then Ok tt
  else Err (Forbidden (lit "sync scope required")).

(** ** Wire types *)

Record Identifier := { id_kind : str; id_value : str }.

Record ResolveRequest := {
  rr_identifiers : list Identifier;
  rr_title : option str;
  rr_author : option str;
  rr_confirmed : bool;
}.

Record ResolveResult := { rv_work_id : str; rv_confidence : str; rv_created : bool }.

Record OpInput := {
  oi_op_id : str;
  oi_work_id : str;
  oi_edition_sha : option str;
  oi_client_ts : str;
  oi_progression : option f64;
  oi_locator : option Value;
  oi_foreign_pos : option str;
}.

Record OpRecord := {
  or_op_id : str;
  or_work_id : str;
  or_edition_sha : option str;
  or_client_ts : str;
  or_progression : f64;
  or_locator : option Value;
  or_foreign_pos : option str;
  or_seq : Z;
  or_device_id : str;
  or_origin : str;
  or_received_at : str;
}.

Record OpResult := { os_op_id : str; os_status : str; os_seq : option Z; os_reason : option str }.

Record ChangesPage := { cp_ops : list OpRecord; cp_high_water : Z; cp_has_more : bool }.

Record SessionInput := {
  si_session_id : str;
  si_work_id : str;
  si_edition_sha : option str;
  si_started_at : str;
  si_ended_at : str;
  si_start_progression : option f64;
  si_end_progression : option f64;
  si_idle_ms : Z;
  si_active_ms : option Z;
}.

Record SettingValue := { sv_value : str; sv_updated_at : str }.

Record SettingUpdate := { su_key : str; su_value : str; su_updated_at : str }.

Record HeadsPage := { hp_ops : list OpRecord; hp_snapshot_seq : Z }.

Record AnnotationInput := {
  ai_id : str;
  ai_base_rev : Z;
  ai_work_id : str;
  ai_edition_sha : option str;
  ai_kind : str;
  ai_locator : option Value;
  ai_progression : option f64;
  ai_excerpt : str;
  ai_color : option str;
  ai_drawer : option str;
  ai_body : str;
  ai_client_ts : str;
}.

Record AnnotationRecord := {
  ar_id : str;
  ar_rev : Z;
  ar_seq : Z;
  ar_work_id : option str;
  ar_edition_sha : option str;
  ar_kind : option str;
  ar_locator : option Value;
  ar_progression : option f64;
  ar_excerpt : option str;
  ar_color : option str;
  ar_drawer : option str;
  ar_body : option str;
  ar_device_id : option str;
  ar_client_ts : option str;
  ar_updated_at : str;
  ar_deleted : bool;
  ar_deleted_at : option str;
}.

Record AnnotationResult := {
  an_id : str;
  an_status : str;
  an_rev : option Z;
  an_seq : option Z;
  an_reason : option str;
  an_server : option AnnotationRecord;
}.

Record DeleteAnnotationResult := {
  da_id : str;
  da_status : str;
  da_rev : Z;
  da_seq : Z;
  da_server : option AnnotationRecord;
}.

Record AttachmentUpload := { up_kind : str; up_media_type : str; up_sha256 : str; up_bytes : list Z }.

Record AttachmentUploadResult := { ur_id : str; ur_sha256 : str; ur_byte_size : Z }.

Record AttachmentRecord := {
  at_id : str;
  at_annotation_id : str;
  at_kind : str;
  at_media_type : str;
  at_byte_size : Z;
  at_sha256 : str;
  at_created_at : str;
}.

(** The derived decoders, and the text of a JSON value. *)
Class Wire := {
  json_text : Value -> option str;
  annotation_of_value : Value -> option AnnotationInput;
}.

(** *** The catalogue *)

Record CatalogFolder := { cf_folder_id : str; cf_name : str; cf_accepts_uploads : bool }.
Record CatalogFoldersPage := { fp_folders : list CatalogFolder; fp_next_after : option str }.
Record CatalogContributor := { cc_name : str; cc_role : str }.
Record CatalogSeriesMembership := { cm_id : str; cm_name : str; cm_position : option f64; cm_source : str }.

Record CatalogBook := {
  cb_book_id : str;
  cb_folder_id : str;
  cb_title : str;
  cb_author : option str;
  cb_contributors : list CatalogContributor;
  cb_series : list CatalogSeriesMembership;
  cb_series_claim_updated_at : option str;
  cb_series_source : str;
  cb_size_bytes : Z;
  cb_status : str;
  cb_missing : bool;
  cb_cover_url : option str;
  cb_updated_at : str;
  cb_sha256 : option str;
}.

Record CatalogBooksPage := { bp_books : list CatalogBook; bp_next_cursor : option str }.
Record CatalogDownload := { cd_path : str; cd_filename : str; cd_media_type : str }.
Record CatalogCover := { co_content_type : str; co_bytes : list Z }.

Record CatalogBookSeries := {
  bs_book_id : str;
  bs_source : str;
  bs_series : list CatalogSeriesMembership;
  bs_folder : list CatalogSeriesMembership;
  bs_shared : option (list CatalogSeriesMembership);
  bs_personal : option (list CatalogSeriesMembership);
  bs_shared_updated_at : option str;
  bs_personal_updated_at : option str;
  bs_outcome : option str;
}.

Record CatalogSeriesName := {
  sn_id : str;
  sn_name : str;
  sn_scanned_name : str;
  sn_name_source : str;
  sn_book_count : Z;
}.

Record CatalogResolveResult := {
  cr_book_id : str;
  cr_work_id : str;
  cr_confidence : str;
  cr_created : bool;
  cr_identifiers : list Identifier;
}.

(** ** Headers

    Names in lower case, values as bytes; [get] is the first value of a name. *)

Abbreviation HeaderMap := (list (str * list Z)).

Definition header_get (headers : HeaderMap) (name : str) : option (list Z) :=
  snd <$> List.find (fun kv => bool_decide (kv.1 = name)) headers.

(** [HeaderValue::to_str]: visible ASCII and tabs only. *)
Definition to_str (value : list Z) : option str :=
  then_some (forallb (fun b => ((32 <=? b) && (b <? 127)) || (b =? 9)) value) value.

Definition header_str (headers : HeaderMap) (name : str) : option str := header_get headers name ≫= to_str.

Definition supports_extended_annotation_fields (headers : HeaderMap) : bool :=
  is_some_and (header_str headers EXTENDED_ANNOTATION_CAPABILITIES_HEADER) (fun capabilities =>
    existsb (fun capability => bool_decide (trim capability = EXTENDED_ANNOTATION_COLOR_DRAWER_CAPABILITY))
      (split_on (Z.eqb 44) capabilities)).

(** ** What a client is shown *)

Definition annotation_record_for_client (record : AnnotationRecord) (supports_extended : bool)
  : AnnotationRecord :=
  if supports_extended then record
  else
    {| ar_id := ar_id record; ar_rev := ar_rev record; ar_seq := ar_seq record; ar_work_id := ar_work_id record;
       ar_edition_sha := ar_edition_sha record; ar_kind := ar_kind record; ar_locator := ar_locator record;
       ar_progression := ar_progression record; ar_excerpt := ar_excerpt record;
       ar_color :=
         if is_some_and (ar_color record) (fun color => negb (bool_decide (color ∈ LISEUR_ANNOTATION_COLORS)))
         then None else ar_color record;
       ar_drawer := None;
       ar_body := ar_body record; ar_device_id := ar_device_id record; ar_client_ts := ar_client_ts record;
       ar_updated_at := ar_updated_at record; ar_deleted := ar_deleted record;
       ar_deleted_at := ar_deleted_at record |}.

Definition with_server (result : AnnotationResult) (server : option AnnotationRecord) : AnnotationResult :=
  {| an_id := an_id result; an_status := an_status result; an_rev := an_rev result; an_seq := an_seq result;
     an_reason := an_reason result; an_server := server |}.

Definition annotation_results_for_client (results : list AnnotationResult) (supports_extended : bool)
  : list AnnotationResult :=
  (fun result => with_server result
     ((fun record => annotation_record_for_client record supports_extended) <$> an_server result)) <$> results.

Definition delete_annotation_for_client (result : DeleteAnnotationResult) (supports_extended : bool)
  : DeleteAnnotationResult :=
  {| da_id := da_id result; da_status := da_status result; da_rev := da_rev result; da_seq := da_seq result;
     da_server := (fun record => annotation_record_for_client record supports_extended) <$> da_server result |}.

(** ** Validators *)

(** [!(0.0..=1.0).contains(&p) || !p.is_finite()]. *)
Definition out_of_unit (p : f64) : bool := negb (fle f64_zero p && fle p f64_one) || negb (is_finite p).

Definition identifier_kinds : list str := [lit "sha256"; lit "partial-md5"; lit "source"; lit "dc"; lit "ta"].

Fixpoint validate_identifiers (identifiers : list Identifier) : result unit str :=
  match identifiers with
  | [] => Ok tt
  | identifier :: identifiers =>
      let kind := trim (id_kind identifier) in
      let value := trim (id_value identifier) in
      early (bool_decide (value = []) || (512 <? str_len value)) (lit "identifier value required (at most 512 bytes)")
        (early (negb (bool_decide (kind ∈ identifier_kinds))) (lit "identifier kind is not supported")
           (validate_identifiers identifiers))
  end.

Section validators.
Context `{Chrono} `{Wire}.

(** A refusal of an operation: its code, its message and the limit it names. *)
Definition missing_field (message : string) : str * str * option Z := (lit "missing_field", lit message, None).
Definition bad_time (message : string) : str * str * option Z := (lit "bad_time", lit message, None).

Definition validate_locator {E} (locator : option Value) (invalid too_large : E) : result unit E :=
  match locator with
  | None => Ok tt
  | Some locator =>
      match json_text locator with
      | None => Err invalid
      | Some text => if MAX_LOCATOR_BYTES <? str_len text then Err too_large else Ok tt
      end
  end.

Definition validate_op (now : Z) (op : OpInput) : result unit (str * str * option Z) :=
  early (bool_decide (oi_op_id op = []) || (MAX_ID_BYTES <? str_len (oi_op_id op)))
    (missing_field "op_id required (at most 64 bytes)")
  (early (bool_decide (oi_work_id op = []) || (MAX_REFERENCE_BYTES <? str_len (oi_work_id op)))
    (missing_field "work_id required (at most 128 bytes)")
  (early (is_some_and (oi_edition_sha op) (fun sha => MAX_REFERENCE_BYTES <? str_len sha))
    (missing_field "edition_sha too large")
  match oi_progression op with
  | None => Err (missing_field "progression required")
  | Some progression =>
      early (out_of_unit progression)
        (lit "progression_out_of_range", lit "progression out of range [0,1]", None)
      (let? _ := validate_locator (oi_locator op) (missing_field "invalid locator")
                   (lit "locator_too_large", lit "locator too large", Some MAX_LOCATOR_BYTES) in
       early (MAX_CLIENT_TS_BYTES <? str_len (oi_client_ts op)) (bad_time "bad client_ts")
       match parse_from_rfc3339 (oi_client_ts op) with
       | None => Err (bad_time "bad client_ts")
       | Some timestamp =>
           early (now + hours 24 <? timestamp)
             (lit "time_in_future", lit "client_ts is too far in the future", None) (Ok tt)
       end)
  end)).

Definition validate_session (session : SessionInput) : result unit (str * str) :=
  early (bool_decide (si_session_id session = []) || (MAX_ID_BYTES <? str_len (si_session_id session)))
    (lit "missing_field", lit "session_id required (at most 64 bytes)")
  (early (bool_decide (si_work_id session = []) || (MAX_REFERENCE_BYTES <? str_len (si_work_id session)))
    (lit "missing_field", lit "work_id required (at most 128 bytes)")
  (early (is_some_and (si_edition_sha session) (fun sha => MAX_REFERENCE_BYTES <? str_len sha))
    (lit "missing_field", lit "edition_sha too large")
  match parse_from_rfc3339 (si_started_at session) with
  | None => Err (lit "bad_time", lit "bad started_at")
  | Some started =>
  match parse_from_rfc3339 (si_ended_at session) with
  | None => Err (lit "bad_time", lit "bad ended_at")
  | Some ended =>
  early (ended <? started) (lit "bad_time", lit "ended_at before started_at")
  match si_start_progression session with
  | None => Err (lit "missing_field", lit "start_progression required")
  | Some start =>
  match si_end_progression session with
  | None => Err (lit "missing_field", lit "end_progression required")
  | Some end_ =>
  early (out_of_unit start || out_of_unit end_)
    (lit "progression_out_of_range", lit "progression out of range [0,1]")
  (let duration := (ended - started) ÷ 1000000 in
   early ((si_idle_ms session <? 0) || (duration <? si_idle_ms session))
     (lit "idle_out_of_range", lit "idle_ms out of range")
   (early (is_some_and (si_active_ms session)
             (fun active_ms => negb ((0 <=? active_ms) && (active_ms <=? MAX_SESSION_ACTIVE_MS))))
      (lit "active_out_of_range", lit "active_ms out of range")
      (Ok tt)))
  end end end end)).

Definition validate_timestamp (now : Z) (value : str) (allow_future : bool) : result Z unit :=
  early (MAX_CLIENT_TS_BYTES <? str_len value) tt
  match parse_from_rfc3339 value with
  | None => Err tt
  | Some timestamp => early (negb allow_future && (now + hours 24 <? timestamp)) tt (Ok timestamp)
  end.

(** What the kind of an annotation asks of its body and its locator. *)
Definition check_kind (annotation : AnnotationInput) : result unit str :=
  let locator_present :=
    is_some_and (ai_locator annotation) (fun value => match value with JNull => false | _ => true end) in
  if bool_decide (ai_kind annotation = lit "note") then
    early (bool_decide (ai_body annotation = [])) (lit "a note requires a body") (Ok tt)
  else if bool_decide (ai_kind annotation ∈ [lit "highlight"; lit "bookmark"]) then
    early (negb locator_present) (ai_kind annotation ++ lit " requires a locator") (Ok tt)
  else Err (lit "kind must be highlight, note or bookmark").

Definition check_decoration (annotation : AnnotationInput) : result unit str :=
  let color := default [] (ai_color annotation) in
  let highlight := bool_decide (ai_kind annotation = lit "highlight") in
  early (negb (bool_decide (color = [])) && negb (bool_decide (color ∈ ANNOTATION_COLORS)))
    (lit "color must be one of the palette tokens")
  (early (negb (bool_decide (color = [])) && negb highlight) (lit "color belongs to a highlight")
  match ai_drawer annotation ≫= (fun drawer => then_some (negb (bool_decide (drawer = []))) drawer) with
  | None => Ok tt
  | Some drawer =>
      early (negb (bool_decide (drawer ∈ ANNOTATION_DRAWERS)))
        (lit "drawer must be one of the KOReader highlight styles")
      (early (negb highlight) (lit "drawer belongs to a highlight") (Ok tt))
  end).

Definition validate_annotation (now : Z) (annotation : AnnotationInput) : result unit str :=
  early (bool_decide (ai_id annotation = []) || (MAX_ID_BYTES <? str_len (ai_id annotation)))
    (lit "id required (at most 64 bytes)")
  (early (ai_base_rev annotation <? 0) (lit "base_rev must be >= 0")
  (early (bool_decide (ai_work_id annotation = []) || (MAX_REFERENCE_BYTES <? str_len (ai_work_id annotation)))
    (lit "work_id required (at most 128 bytes)")
  (early (is_some_and (ai_edition_sha annotation) (fun sha => MAX_REFERENCE_BYTES <? str_len sha))
    (lit "edition_sha too large")
  (let? _ := check_kind annotation in
   early (bool_decide (ai_kind annotation = lit "bookmark") && negb (bool_decide (ai_body annotation = [])))
     (lit "a bookmark carries no body")
   (let? _ := validate_locator (ai_locator annotation) (lit "invalid locator") (lit "locator too large") in
    early (is_some_and (ai_progression annotation) out_of_unit) (lit "progression out of range [0,1]")
    (early (MAX_EXCERPT_BYTES <? str_len (ai_excerpt annotation)) (lit "excerpt too large")
    (early (MAX_BODY_BYTES <? str_len (ai_body annotation)) (lit "body too large")
    (let? _ := check_decoration annotation in
     match validate_timestamp now (ai_client_ts annotation) false with
     | Ok _ => Ok tt
     | Err _ => Err (lit "bad client_ts")
     end)))))))).

(** *** Settings *)

Inductive SettingValueField := SMissing | SNull | SString (value : str) | SOther.

Definition setting_value_of (v : Value) : SettingValueField :=
  match v with
  | JNull => SNull
  | JString value => SString value
  | _ => SOther
  end.

Record SettingRequest := { sr_value : SettingValueField; sr_updated_at : str }.

Definition validated_setting (now : Z) (key : str) (setting : SettingRequest)
  : result SettingUpdate LiseurSyncError :=
  early (bool_decide (key = [])) (BadRequest (lit "empty settings key"))
  (early (MAX_SETTING_KEY_BYTES <? str_len key) (BadRequest (lit "settings key too long: " ++ key))
  (let? value :=
     match sr_value setting with
     | SMissing => Ok []
     | SString value => Ok value
     | SNull => Err (BadRequest (lit "settings value may not be null for key " ++ key))
     | SOther => Err (BadRequest (lit "settings value must be a string for key " ++ key))
     end in
   early (MAX_SETTING_VALUE_BYTES <? str_len value)
     (BadRequest (lit "settings value too long for key " ++ key))
   (early (bool_decide (0 ∈ key) || bool_decide (0 ∈ value))
     (BadRequest (lit "settings key or value contains a character that cannot be stored"))
   match parse_from_rfc3339 (sr_updated_at setting) with
   | None => Err (BadRequest (lit "invalid updated_at for key " ++ key))
   | Some updated_at =>
       early (now + hours 24 <? updated_at)
         (TimeInFuture (lit "updated_at in the future for key " ++ key))
         (Ok {| su_key := key; su_value := value; su_updated_at := to_rfc3339_micros updated_at |})
   end))).

Fixpoint collect_settings (now : Z) (request : list (str * SettingRequest))
  : result (list SettingUpdate) LiseurSyncError :=
  match request with
  | [] => Ok []
  | (key, setting) :: request =>
      let? update := validated_setting now key setting in
      let? updates := collect_settings now request in
      Ok (update :: updates)
  end.

Definition setting_before (a b : SettingUpdate) : Prop := str_ord (su_key a) (su_key b).

#[export] Instance setting_before_dec a b : Decision (setting_before a b).
Proof. unfold setting_before. apply _. Defined.

(** The request is a hash map: its entries come in any order. *)
Definition validated_settings (now : Z) (request : list (str * SettingRequest))
  : result (list SettingUpdate) LiseurSyncError :=
  early (bool_decide (request = [])) (BadRequest (lit "no settings provided"))
  (early (MAX_SETTINGS_PER_ACCOUNT <? length request)%nat (BadRequest (lit "too many settings in one request"))
  (let? updates := collect_settings now request in
   Ok (merge_sort setting_before updates))).

End validators.

Definition validate_personal_series_name_scope (scope : str) : result unit LiseurSyncError :=
  if bool_decide (scope = lit "personal") then Ok tt
  else Err (BadRequest (lit "Stump supports only personal series-name overlays")).

Definition validate_series_name (name : str) : result unit LiseurSyncError :=
  early (MAX_SERIES_NAME_BYTES <? str_len name) (BadRequest (lit "series name is too long"))
  (early (bool_decide (trim name = [])) (BadRequest (lit "a series name cannot be empty")) (Ok tt)).

(** *** Attachments *)

Definition validate_attachment_annotation_id (id : str) : result unit LiseurSyncError :=
  let safe :=
    negb (bool_decide (id = [])) && (str_len id <=? MAX_ID_BYTES) && negb (starts_with id [46]) &&
    forallb (fun byte => is_ascii_alphanumeric byte || bool_decide (byte ∈ [45; 95; 46])) (as_bytes id) in
  if safe then Ok tt
  else Err (BadRequest (lit "an annotation carrying attachments needs an id of [A-Za-z0-9._-] not starting with a dot")).

Definition accepted_media_types (kind : str) : list str :=
  if bool_decide (kind = lit "markup-svg") then [lit "image/svg+xml"]
  else if bool_decide (kind = lit "markup-page") then [lit "image/jpeg"; lit "image/png"]
  else
    [lit "application/pdf"; lit "application/epub+zip"; lit "application/zip";
     lit "application/vnd.openxmlformats-officedocument.wordprocessingml.document"; lit "text/html";
     lit "text/plain"; lit "image/jpeg"; lit "image/png"; lit "image/svg+xml"].

Definition attachment_media_type (kind : str) (headers : HeaderMap) : result str LiseurSyncError :=
  match header_str headers (lit "content-type") ≫=
        (fun value => then_some (str_len value <=? MAX_MEDIA_TYPE_BYTES) value) with
  | None => Err (BadRequest (lit "Content-Type required"))
  | Some raw =>
      let media_type := map to_ascii_lowercase (trim (default [] (head (split_on (Z.eqb 59) raw)))) in
      if bool_decide (media_type ∈ accepted_media_types kind) then Ok media_type
      else Err (BadRequest (kind ++ lit " accepts " ++ str_join (lit ", ") (accepted_media_types kind)))
  end.

Definition is_ascii_hexdigit (b : Z) : bool :=
  is_ascii_digit b || ((97 <=? b) && (b <=? 102)) || ((65 <=? b) && (b <=? 70)).

Definition attachment_digest (headers : HeaderMap) : result str LiseurSyncError :=
  match (map to_ascii_lowercase ∘ trim <$> header_str headers ATTACHMENT_SHA256_HEADER) ≫=
        (fun value => then_some ((str_len value =? 64) && forallb is_ascii_hexdigit (as_bytes value)) value) with
  | None => Err (BadRequest (lit "X-Attachment-Sha256 must be 64 hex characters"))
  | Some digest => Ok digest
  end.

(** [axum::body::to_bytes]: a stream that breaks off has no bytes. *)
Definition to_bytes (body : option (list Z)) (limit : Z) : option (list Z) :=
  body ≫= (fun bytes => then_some (Z.of_nat (length bytes) <=? limit) bytes).

Definition read_attachment `{Sha256} (annotation_id kind : str) (headers : HeaderMap) (body : option (list Z))
    (max_bytes : Z) : result AttachmentUpload LiseurSyncError :=
  let too_large := PayloadTooLarge (lit "attachment exceeds " ++ show_nonneg max_bytes ++ lit " bytes") in
  let? _ := validate_attachment_annotation_id annotation_id in
  early (negb (bool_decide (kind ∈ ATTACHMENT_KINDS)))
    (BadRequest (lit "kind must be one of " ++ str_join (lit ", ") ATTACHMENT_KINDS))
  (let? media_type := attachment_media_type kind headers in
   let? expected := attachment_digest headers in
   early (is_some_and (header_str headers (lit "content-length") ≫= parse_u64) (fun declared => max_bytes <? declared))
     too_large
   match to_bytes body max_bytes with
   | None => Err too_large
   | Some bytes =>
       early (bool_decide (bytes = [])) (BadRequest (lit "attachment body is empty"))
       (let actual := sha256_hex bytes in
        early (negb (bool_decide (actual = expected)))
          (Conflict (lit "X-Attachment-Sha256 does not match the uploaded bytes"))
          (Ok {| up_kind := kind; up_media_type := media_type; up_sha256 := actual; up_bytes := bytes |}))
   end).

(** ** The backend *)

Section monad.
Context {S : Type}.

(** A call of the backend, and a handler. *)
Definition Call (A : Type) : Type := S -> result A Stop * S.

(** [r?] for a result that needs no backend. *)
Definition lift {A} (r : result A LiseurSyncError) : Call A := fun s =>
  (match r with Ok a => Ok a | Err e => Err (Refused e) end, s).

End monad.

Arguments Call : clear implicits.

Class LiseurSyncBackend (S : Type) := {
  bk_login : str -> str -> Call S LoginResult;
  bk_authenticate : str -> Call S LiseurToken;
  bk_mint_token : str -> str -> list str -> option Z -> Call S TokenCreateResult;
  bk_revoke_token : str -> str -> Call S unit;
  bk_settings : str -> Call S (gmap str SettingValue);
  bk_put_settings : str -> list SettingUpdate -> Call S unit;
  bk_folders : AuthContext -> option str -> nat -> Call S CatalogFoldersPage;
  bk_folder_books : AuthContext -> str -> option str -> nat -> Call S CatalogBooksPage;
  bk_folder_search : AuthContext -> str -> str -> Call S (list CatalogBook);
  bk_book : AuthContext -> str -> Call S CatalogBook;
  bk_book_download : AuthContext -> str -> Call S CatalogDownload;
  bk_book_cover : AuthContext -> str -> Call S CatalogCover;
  bk_book_series : AuthContext -> str -> option str -> Call S CatalogBookSeries;
  bk_set_series_name : AuthContext -> str -> str -> str -> Call S CatalogSeriesName;
  bk_clear_series_name : AuthContext -> str -> str -> Call S CatalogSeriesName;
  bk_resolve_catalog_book : AuthContext -> str -> bool -> Call S CatalogResolveResult;
  bk_resolve_work : str -> ResolveRequest -> Call S ResolveResult;
  bk_append_ops : str -> str -> list OpInput -> Call S (list OpResult);
  bk_changes : str -> Z -> nat -> Call S ChangesPage;
  bk_heads : str -> Call S HeadsPage;
  bk_positions : str -> str -> nat -> Call S (list OpRecord);
  bk_append_sessions : str -> str -> list SessionInput -> Call S nat;
  bk_append_annotations : str -> str -> list AnnotationInput -> Call S (list AnnotationResult);
  bk_annotation_changes : str -> Z -> nat -> Call S (list AnnotationRecord * Z * bool);
  bk_work_annotations_with_deleted : str -> str -> bool -> Call S (list AnnotationRecord);
  bk_delete_annotation : str -> str -> Z -> Call S DeleteAnnotationResult;
  bk_attachment_max_bytes : Z;
  bk_put_attachment : str -> str -> AttachmentUpload -> Call S AttachmentUploadResult;
  bk_attachments : str -> str -> Call S (list AttachmentRecord);
}.

(** ** Responses *)

(** What a handler answers with; errors carry their JSON body. *)
Inductive Body :=
| BError (body : Value)
| BLogin (r : LoginResult)
| BToken (r : TokenCreateResult)
| BIntrospection (r : TokenIntrospection)
| BSettings (settings : gmap str SettingValue)
| BTokenStatus (status : str)
| BResolve (r : ResolveResult)
| BOps (results : list OpResult)
| BChanges (page : ChangesPage)
| BHeads (page : HeadsPage)
| BPositions (ops : list OpRecord)
| BSessions (accepted : nat)
| BAnnotations (results : list AnnotationResult)
| BAnnotationChanges (annotations : list AnnotationRecord) (high_water : Z) (has_more : bool)
| BWorkAnnotations (annotations : list AnnotationRecord)
| BRevConflict (server : option AnnotationRecord)
| BDeleted (id status : str) (rev seq : Z)
| BAttachments (attachments : list AttachmentRecord)
| BUploaded (r : AttachmentUploadResult)
| BFolders (page : CatalogFoldersPage)
| BBooks (page : CatalogBooksPage)
| BSearch (books : list CatalogBook)
| BBook (book : CatalogBook)
| BBookSeries (series : CatalogBookSeries)
| BSeriesName (name : CatalogSeriesName)
| BCatalogResolve (r : CatalogResolveResult)
| BCover (content_type : str) (bytes : list Z)
| BFile (path : str) (request_headers : HeaderMap) (content_type disposition : str).

Record Response := { rs_status : Z; rs_body : Body }.

Definition ok (body : Body) : Response := {| rs_status := 200; rs_body := body |}.

Definition field {A} (name : string) (f : A -> Value) (o : option A) : list (str * Value) :=
  match o with Some a => [(lit name, f a)] | None => [] end.

Definition error_status (error : LiseurSyncError) : Z :=
  match error with
  | Unauthorized => 401
  | Forbidden _ => 403
  | BadRequest _ | TimeInFuture _ => 400
  | NotFound _ => 404
  | Gone _ => 410
  | Conflict _ | IdentityConflict _ => 409
  | PayloadTooLarge _ => 413
  | ItemRefusal r => rf_status r
  | Internal _ => 500
  end.

Definition error_body (error : LiseurSyncError) : Value :=
  match error with
  | IdentityConflict work_ids =>
      JObject [(lit "error", JString (lit "identifiers resolve to multiple works"));
               (lit "works", JArray (JString <$> work_ids))]
  | TimeInFuture message =>
      JObject [(lit "error", JString message); (lit "code", JString (lit "time_in_future"))]
  | ItemRefusal r =>
      JObject ([(lit "error", JString (rf_message r)); (lit "code", JString (rf_code r))]
        ++ field "item_index" (fun n : nat => JInt (Z.of_nat n)) (rf_item_index r)
        ++ field "session_id" JString (rf_session_id r)
        ++ field "op_id" JString (rf_op_id r)
        ++ field "work_id" JString (rf_work_id r)
        ++ field "limit" JInt (rf_limit r))
  | Unauthorized => JObject [(lit "error", JString (lit "authentication required"))]
  | Forbidden message | BadRequest message | NotFound message | Gone message | Conflict message
  | PayloadTooLarge message | Internal message => JObject [(lit "error", JString message)]
  end.

Definition error_response (error : LiseurSyncError) : Response :=
  {| rs_status := error_status error; rs_body := BError (error_body error) |}.

(** ** Handlers *)

(** What an extractor found instead of a JSON body. *)
Record JsonRejection := { rj_status : Z }.

Definition parse_json {A} (json : result A JsonRejection) : result A LiseurSyncError :=
  match json with
  | Ok a => Ok a
  | Err _ => Err (BadRequest (lit "invalid JSON body"))
  end.

Definition parse_sized_json {A} (json : result A JsonRejection) : result A LiseurSyncError :=
  match json with
  | Ok a => Ok a
  | Err rejection =>
      if rj_status rejection =? 413 then Err (PayloadTooLarge (lit "request body too large"))
      else Err (BadRequest (lit "invalid JSON body"))
  end.

Definition batch_too_large (limit : Z) : LiseurSyncError :=
  ItemRefusal {| rf_status := 400; rf_code := lit "batch_too_large"; rf_message := lit "batch too large";
                 rf_item_index := None; rf_session_id := None; rf_op_id := None; rf_work_id := None;
                 rf_limit := Some limit |}.

(** An id is repeated in a refusal only when it is itself within bounds. *)
Definition bounded_id (id : str) : option str :=
  then_some (negb (bool_decide (id = [])) && (str_len id <=? MAX_ID_BYTES)) id.

Record CursorQuery := { cq_since : option Z; cq_limit : option Z }.

Definition cursor_params (query : CursorQuery) : result (Z * nat) LiseurSyncError :=
  let since := default 0 (cq_since query) in
  early (since <? 0) (BadRequest (lit "since must be >= 0"))
  (Ok (since,
       match cq_limit query with
       | Some limit => if (1 <=? limit) && (limit <=? 500) then Z.to_nat limit else 500%nat
       | None => 500%nat
       end)).

Definition position_limit (limit : option Z) : nat :=
  match limit with
  | Some limit => if (1 <=? limit) && (limit <=? 200) then Z.to_nat limit else 50
  | None => 50
  end.

Definition catalog_limit (limit : option nat) : result nat LiseurSyncError :=
  let limit := default 50%nat limit in
  if ((1 <=? limit) && (limit <=? 200))%nat then Ok limit
  else Err (BadRequest (lit "limit must be between 1 and 200")).

Record Uri := { uri_scheme : option str }.

Definition request_origin (uri : Uri) (headers : HeaderMap) : str :=
  let scheme :=
    default (lit "http")
      (uri_scheme uri orelse
       (trim <$> (header_str headers (lit "x-forwarded-proto") ≫= fun value => head (split_on (Z.eqb 44) value)))) in
  let host :=
    default (lit "localhost")
      (header_str headers (lit "host") ≫= fun value => then_some (negb (bool_decide (value = []))) value) in
  scheme ++ lit "://" ++ host.

Definition with_cover_url (origin : str) (book : CatalogBook) : CatalogBook :=
  {| cb_book_id := cb_book_id book; cb_folder_id := cb_folder_id book; cb_title := cb_title book;
     cb_author := cb_author book; cb_contributors := cb_contributors book; cb_series := cb_series book;
     cb_series_claim_updated_at := cb_series_claim_updated_at book; cb_series_source := cb_series_source book;
     cb_size_bytes := cb_size_bytes book; cb_status := cb_status book; cb_missing := cb_missing book;
     cb_cover_url := Some (drop_while_end (Z.eqb 47) origin ++ lit "/v1/books/" ++ cb_book_id book ++ lit "/cover");
     cb_updated_at := cb_updated_at book; cb_sha256 := cb_sha256 book |}.

(** [HeaderValue::from_str] accepts or not; the file service that answers a download,
    with the error it may end in. *)
Class Http := {
  header_value_ok : str -> bool;
  serve_file_error : str -> HeaderMap -> option str;
}.

Definition invalid_annotation (id reason : str) : AnnotationResult :=
  {| an_id := id; an_status := lit "invalid"; an_rev := None; an_seq := None; an_reason := Some reason;
     an_server := None |}.

(** [raw.get("id").and_then(Value::as_str).unwrap_or_default()]. *)
Definition raw_id (raw : Value) : str :=
  match raw with
  | JObject fields =>
      match snd <$> List.find (fun kv => bool_decide (kv.1 = lit "id")) fields with
      | Some (JString id) => id
      | _ => []
      end
  | _ => []
  end.

(** What the loop over the raw annotations leaves: a result for each invalid one, and the
    valid ones with their positions. *)
Record Triage := {
  tg_results : list (option AnnotationResult);
  tg_valid : list AnnotationInput;
  tg_positions : list nat;
}.

Definition triage_step `{Chrono} `{Wire} (now : Z) (t : Triage) (entry : nat * Value) : Triage :=
  let '(index, raw) := entry in
  let invalid result :=
    {| tg_results := <[index := Some result]> (tg_results t); tg_valid := tg_valid t;
       tg_positions := tg_positions t |} in
  match annotation_of_value raw with
  | None => invalid (invalid_annotation (raw_id raw) (lit "malformed annotation"))
  | Some annotation =>
      match validate_annotation now annotation with
      | Err reason => invalid (invalid_annotation (ai_id annotation) reason)
      | Ok _ =>
          {| tg_results := tg_results t; tg_valid := tg_valid t ++ [annotation];
             tg_positions := tg_positions t ++ [index] |}
      end
  end.

Definition triage `{Chrono} `{Wire} (now : Z) (raws : list Value) : Triage :=
  fold_left (triage_step now) (imap pair raws)
    {| tg_results := replicate (length raws) None; tg_valid := []; tg_positions := [] |}.

Definition place_results (results : list (option AnnotationResult)) (placed : list (nat * AnnotationResult))
  : list (option AnnotationResult) :=
  fold_left (fun results pr => <[pr.1 := Some pr.2]> results) placed results.

Section handlers.
Context {S : Type} `{LiseurSyncBackend S} `{Chrono} `{Wire} `{Sha256} `{DebugText} `{Http}.

Definition login (json : result (str * str) JsonRejection) : Call S Response :=
  request <-- lift (parse_json json) ;;
  result <-- bk_login request.1 request.2 ;;
  db_ret (ok (BLogin result)).

Definition create_token (auth : AuthContext) (token : LiseurToken) (json : result TokenCreateRequest JsonRejection)
  : Call S Response :=
  _ <-- lift (early (negb (is_login_session token)) Unauthorized (Ok tt)) ;;
  request <-- lift (parse_json json) ;;
  _ <-- lift (early (bool_decide (tr_name request = []) || (MAX_TOKEN_NAME_BYTES <? str_len (tr_name request)))
                (BadRequest (lit "name required (at most 256 bytes)"))
             (early (is_some_and (tr_expires_in_seconds request) (fun seconds => seconds <? 0))
                (BadRequest (lit "expires_in_seconds must be >= 0")) (Ok tt))) ;;
  scopes <-- lift (match requested_scopes request with Ok scopes => Ok scopes | Err error => Err (BadRequest error) end) ;;
  _ <-- lift (early (bool_decide (lit "admin" ∈ scopes) && negb (au_is_server_owner auth))
                (Forbidden (lit "admin scope requires an administrator account")) (Ok tt)) ;;
  result <-- bk_mint_token (au_user_id auth) (tr_name request) scopes (tr_expires_in_seconds request) ;;
  db_ret {| rs_status := 201; rs_body := BToken result |}.

Definition token_introspection (token : LiseurToken) : Call S Response :=
  _ <-- lift (early (is_login_session token) Unauthorized (Ok tt)) ;;
  db_ret (ok (BIntrospection
    {| ti_id := default [] (tk_token_id token); ti_device_id := tk_device_id token; ti_name := tk_name token;
       ti_scope := match tk_scopes token with [scope] => Some scope | _ => None end;
       ti_scopes := tk_scopes token; ti_account_id := au_user_id (tk_context token);
       ti_session_active_ms := true |})).

Definition get_settings (auth : AuthContext) (token : LiseurToken) : Call S Response :=
  _ <-- lift (require_sync token) ;;
  settings <-- bk_settings (au_user_id auth) ;;
  db_ret (ok (BSettings settings)).

Definition put_settings (now : Z) (auth : AuthContext) (token : LiseurToken)
    (json : result (list (str * SettingRequest)) JsonRejection) : Call S Response :=
  _ <-- lift (require_sync token) ;;
  request <-- lift (parse_sized_json json) ;;
  settings <-- lift (validated_settings now request) ;;
  _ <-- bk_put_settings (au_user_id auth) settings ;;
  settings <-- bk_settings (au_user_id auth) ;;
  db_ret (ok (BSettings settings)).

Definition revoke_token (token_id : str) (auth : AuthContext) (token : LiseurToken) : Call S Response :=
  _ <-- lift (early (negb (is_login_session token)) Unauthorized (Ok tt)) ;;
  _ <-- bk_revoke_token (au_user_id auth) token_id ;;
  db_ret (ok (BTokenStatus (lit "revoked"))).

Definition resolve_work (auth : AuthContext) (token : LiseurToken) (json : result ResolveRequest JsonRejection)
  : Call S Response :=
  request <-- lift (parse_json json) ;;
  _ <-- lift (require_sync token) ;;
  _ <-- lift (early (bool_decide (length (rr_identifiers request) = 0%nat))
                (BadRequest (lit "identifiers required")) (Ok tt)) ;;
  _ <-- lift (match validate_identifiers (rr_identifiers request) with
              | Ok _ => Ok tt | Err e => Err (BadRequest e) end) ;;
  result <-- bk_resolve_work (au_user_id auth) request ;;
  db_ret {| rs_status := if rv_created result then 201 else 200; rs_body := BResolve result |}.

(** The first operation that does not validate, with its position. *)
Fixpoint check_ops (now : Z) (index : nat) (ops : list OpInput) : result unit LiseurSyncError :=
  match ops with
  | [] => Ok tt
  | op :: ops =>
      match validate_op now op with
      | Err (code, message, limit) =>
          Err (ItemRefusal {| rf_status := 400; rf_code := code; rf_message := message;
                              rf_item_index := Some index; rf_session_id := None;
                              rf_op_id := bounded_id (oi_op_id op); rf_work_id := None; rf_limit := limit |})
      | Ok _ => check_ops now (Datatypes.S index) ops
      end
  end.

Definition push_ops (now : Z) (auth : AuthContext) (token : LiseurToken)
    (json : result (list OpInput) JsonRejection) : Call S Response :=
  ops <-- lift (parse_sized_json json) ;;
  _ <-- lift (require_sync token) ;;
  _ <-- lift (early (bool_decide (length ops = 0%nat)) (BadRequest (lit "ops required"))
             (early (MAX_OP_BATCH <? length ops)%nat (batch_too_large (Z.of_nat MAX_OP_BATCH)) (Ok tt))) ;;
  _ <-- lift (check_ops now 0 ops) ;;
  results <-- bk_append_ops (au_user_id auth) (tk_device_id token) ops ;;
  db_ret (ok (BOps results)).

Definition changes (auth : AuthContext) (token : LiseurToken) (query : CursorQuery) : Call S Response :=
  _ <-- lift (require_sync token) ;;
  params <-- lift (cursor_params query) ;;
  page <-- bk_changes (au_user_id auth) params.1 params.2 ;;
  db_ret (ok (BChanges page)).

Definition heads (auth : AuthContext) (token : LiseurToken) : Call S Response :=
  _ <-- lift (require_sync token) ;;
  page <-- bk_heads (au_user_id auth) ;;
  db_ret (ok (BHeads page)).

Definition positions (work_id : str) (auth : AuthContext) (token : LiseurToken) (limit : option Z)
  : Call S Response :=
  _ <-- lift (require_sync token) ;;
  ops <-- bk_positions (au_user_id auth) work_id (position_limit limit) ;;
  db_ret (ok (BPositions ops)).

Fixpoint check_sessions (index : nat) (sessions : list SessionInput) : result unit LiseurSyncError :=
  match sessions with
  | [] => Ok tt
  | session :: sessions =>
      match validate_session session with
      | Err (code, message) =>
          Err (ItemRefusal {| rf_status := 400; rf_code := code; rf_message := message;
                              rf_item_index := Some index;
                              rf_session_id := bounded_id (si_session_id session);
                              rf_op_id := None; rf_work_id := None; rf_limit := None |})
      | Ok _ => check_sessions (Datatypes.S index) sessions
      end
  end.

Definition push_sessions (auth : AuthContext) (token : LiseurToken)
    (json : result (list SessionInput) JsonRejection) : Call S Response :=
  sessions <-- lift (parse_sized_json json) ;;
  _ <-- lift (require_sync token) ;;
  _ <-- lift (early (bool_decide (length sessions = 0%nat)) (BadRequest (lit "sessions required"))
             (early (MAX_SESSION_BATCH <? length sessions)%nat (batch_too_large (Z.of_nat MAX_SESSION_BATCH)) (Ok tt))) ;;
  _ <-- lift (check_sessions 0 sessions) ;;
  accepted <-- bk_append_sessions (au_user_id auth) (tk_device_id token) sessions ;;
  db_ret (ok (BSessions accepted)).

(** [result.expect(..)] for every slot. *)
Definition expect_all {A} (results : list (option A)) : Call S (list A) := fun s =>
  match mapM id results with
  | Some results => (Ok results, s)
  | None => (Err Panicked, s)
  end.

Definition push_annotations (now : Z) (auth : AuthContext) (token : LiseurToken) (headers : HeaderMap)
    (json : result (list Value) JsonRejection) : Call S Response :=
  annotations <-- lift (parse_json json) ;;
  _ <-- lift (require_sync token) ;;
  let supports_extended := supports_extended_annotation_fields headers in
  _ <-- lift (early (bool_decide (length annotations = 0%nat)) (BadRequest (lit "annotations required"))
             (early (MAX_ANNOTATION_BATCH <? length annotations)%nat (BadRequest (lit "batch too large")) (Ok tt))) ;;
  let t := triage now annotations in
  results <--
    match tg_valid t with
    | [] => db_ret (tg_results t)
    | valid =>
        backend_results <-- bk_append_annotations (au_user_id auth) (tk_device_id token) valid ;;
        _ <-- lift (early (negb (length backend_results =? length (tg_positions t))%nat)
                      (Internal (lit "annotation backend returned an unexpected result count")) (Ok tt)) ;;
        db_ret (place_results (tg_results t) (zip (tg_positions t) backend_results))
    end ;;
  results <-- expect_all results ;;
  db_ret (ok (BAnnotations (annotation_results_for_client results supports_extended))).

Definition annotation_changes (auth : AuthContext) (token : LiseurToken) (headers : HeaderMap) (query : CursorQuery)
  : Call S Response :=
  _ <-- lift (require_sync token) ;;
  let supports_extended := supports_extended_annotation_fields headers in
  params <-- lift (cursor_params query) ;;
  page <-- bk_annotation_changes (au_user_id auth) params.1 params.2 ;;
  let '(annotations, high_water, has_more) := page in
  db_ret (ok (BAnnotationChanges
    ((fun annotation => annotation_record_for_client annotation supports_extended) <$> annotations)
    high_water has_more)).

Definition work_annotations (work_id : str) (auth : AuthContext) (token : LiseurToken) (headers : HeaderMap)
    (include_deleted : bool) : Call S Response :=
  _ <-- lift (require_sync token) ;;
  let supports_extended := supports_extended_annotation_fields headers in
  annotations <-- bk_work_annotations_with_deleted (au_user_id auth) work_id include_deleted ;;
  db_ret (ok (BWorkAnnotations
    ((fun annotation => annotation_record_for_client annotation supports_extended) <$> annotations))).

Definition delete_annotation (id : str) (auth : AuthContext) (token : LiseurToken) (headers : HeaderMap)
    (rev : option Z) : Call S Response :=
  _ <-- lift (require_sync token) ;;
  let supports_extended := supports_extended_annotation_fields headers in
  rev <-- lift (match rev ≫= (fun rev => then_some (1 <=? rev) rev) with
                | Some rev => Ok rev
                | None => Err (BadRequest (lit "rev query parameter required"))
                end) ;;
  result <-- bk_delete_annotation (au_user_id auth) id rev ;;
  let result := delete_annotation_for_client result supports_extended in
  if bool_decide (da_status result = lit "conflict")
  then db_ret {| rs_status := 409; rs_body := BRevConflict (da_server result) |}
  else db_ret (ok (BDeleted (da_id result) (da_status result) (da_rev result) (da_seq result))).

Definition list_attachments (annotation_id : str) (auth : AuthContext) (token : LiseurToken) : Call S Response :=
  _ <-- lift (require_sync token) ;;
  attachments <-- bk_attachments (au_user_id auth) annotation_id ;;
  db_ret (ok (BAttachments attachments)).

Definition put_attachment (annotation_id kind : str) (auth : AuthContext) (token : LiseurToken)
    (headers : HeaderMap) (body : option (list Z)) : Call S Response :=
  _ <-- lift (require_sync token) ;;
  upload <-- lift (read_attachment annotation_id kind headers body bk_attachment_max_bytes) ;;
  result <-- bk_put_attachment (au_user_id auth) annotation_id upload ;;
  db_ret (ok (BUploaded result)).

(** *** The catalogue *)

Definition folders (auth : AuthContext) (token : LiseurToken) (after : option str) (limit : option nat)
  : Call S Response :=
  _ <-- lift (require_library_read token) ;;
  limit <-- lift (catalog_limit limit) ;;
  page <-- bk_folders auth after limit ;;
  db_ret (ok (BFolders page)).

Definition folder_books (folder_id : str) (auth : AuthContext) (token : LiseurToken) (cursor : option str)
    (limit : option nat) (headers : HeaderMap) (uri : Uri) : Call S Response :=
  _ <-- lift (require_library_read token) ;;
  limit <-- lift (catalog_limit limit) ;;
  let origin := request_origin uri headers in
  page <-- bk_folder_books auth folder_id cursor limit ;;
  db_ret (ok (BBooks {| bp_books := with_cover_url origin <$> bp_books page; bp_next_cursor := bp_next_cursor page |})).

Definition folder_search (folder_id : str) (auth : AuthContext) (token : LiseurToken) (q : option str)
    (headers : HeaderMap) (uri : Uri) : Call S Response :=
  _ <-- lift (require_library_read token) ;;
  books <-- bk_folder_search auth folder_id (default [] q) ;;
  db_ret (ok (BSearch (with_cover_url (request_origin uri headers) <$> books))).

Definition book (book_id : str) (auth : AuthContext) (token : LiseurToken) (headers : HeaderMap) (uri : Uri)
  : Call S Response :=
  _ <-- lift (require_library_read token) ;;
  found <-- bk_book auth book_id ;;
  db_ret (ok (BBook (with_cover_url (request_origin uri headers) found))).

Definition book_series (book_id : str) (auth : AuthContext) (token : LiseurToken) (scope : option str)
  : Call S Response :=
  _ <-- lift (require_library_read token) ;;
  series <-- bk_book_series auth book_id scope ;;
  db_ret (ok (BBookSeries series)).

Definition set_series_name (series_id : str) (auth : AuthContext) (token : LiseurToken) (scope name : str)
  : Call S Response :=
  _ <-- lift (require_library_manage token) ;;
  _ <-- lift (validate_personal_series_name_scope scope) ;;
  _ <-- lift (validate_series_name name) ;;
  result <-- bk_set_series_name auth series_id scope name ;;
  db_ret (ok (BSeriesName result)).

Definition clear_series_name (series_id : str) (auth : AuthContext) (token : LiseurToken) (scope : option str)
  : Call S Response :=
  _ <-- lift (require_library_manage token) ;;
  let scope := default (lit "personal") (scope ≫= fun scope => then_some (negb (bool_decide (scope = []))) scope) in
  _ <-- lift (validate_personal_series_name_scope scope) ;;
  result <-- bk_clear_series_name auth series_id scope ;;
  db_ret (ok (BSeriesName result)).

Definition book_cover (book_id : str) (auth : AuthContext) (token : LiseurToken) : Call S Response :=
  _ <-- lift (require_library_read token) ;;
  cover <-- bk_book_cover auth book_id ;;
  db_ret (ok (BCover (if header_value_ok (co_content_type cover) then co_content_type cover else lit "image/jpeg")
                (co_bytes cover))).

(** Backslashes, quotes and line breaks become underscores. *)
Definition safe_filename (filename : str) : str :=
  map (fun c => if bool_decide (c ∈ [92; 34; 13; 10]) then 95 else c) filename.

Definition book_download (book_id : str) (auth : AuthContext) (token : LiseurToken) (headers : HeaderMap)
  : Call S Response :=
  _ <-- lift (require_library_read token) ;;
  file <-- bk_book_download auth book_id ;;
  _ <-- lift (match serve_file_error (cd_path file) headers with
              | Some error => Err (Internal error)
              | None => Ok tt
              end) ;;
  let disposition := lit "attachment; filename=" ++ [34] ++ safe_filename (cd_filename file) ++ [34] in
  db_ret (ok (BFile (cd_path file) headers
    (if header_value_ok (cd_media_type file) then cd_media_type file else lit "application/octet-stream")
    (if header_value_ok disposition then disposition else lit "attachment"))).

Definition resolve_catalog_book (book_id : str) (auth : AuthContext) (token : LiseurToken) (confirmed : option bool)
  : Call S Response :=
  _ <-- lift (require_library_read token) ;;
  _ <-- lift (require_sync token) ;;
  result <-- bk_resolve_catalog_book auth book_id (default false confirmed) ;;
  db_ret {| rs_status := if cr_created result then 201 else 200; rs_body := BCatalogResolve result |}.

Definition deferred_catalog : Response := error_response (NotFound (lit "catalog entity route is not implemented")).
Definition deferred_events : Response := error_response (NotFound (lit "live event stream is not implemented")).

(** ** Routes *)

(** A request of the protected routes, with what the extractors make of it. *)
Inductive Endpoint :=
| GetSettings
| PutSettings (json : result (list (str * SettingRequest)) JsonRejection)
| PushSessions (json : result (list SessionInput) JsonRejection)
| GetToken
| CreateToken (json : result TokenCreateRequest JsonRejection)
| RevokeToken (token_id : str)
| ResolveWork (json : result ResolveRequest JsonRejection)
| PushOps (json : result (list OpInput) JsonRejection)
| GetChanges (query : CursorQuery)
| GetHeads
| GetPositions (work_id : str) (limit : option Z)
| PushAnnotations (json : result (list Value) JsonRejection)
| GetAnnotationChanges (query : CursorQuery)
| DeleteAnnotation (id : str) (rev : option Z)
| ListAttachments (annotation_id : str)
| PutAttachment (annotation_id kind : str) (body : option (list Z))
| GetWorkAnnotations (work_id : str) (include_deleted : bool)
| GetFolders (after : option str) (limit : option nat)
| GetFolderBooks (folder_id : str) (cursor : option str) (limit : option nat)
| SearchFolder (folder_id : str) (q : option str)
| GetBook (book_id : str)
| GetBookCover (book_id : str)
| DownloadBook (book_id : str)
| GetBookSeries (book_id : str) (scope : option str)
| ResolveCatalogBook (book_id : str) (confirmed : option bool)
| SeriesOrder
| GetEvents
| SetSeriesName (series_id scope name : str)
| ClearSeriesName (series_id : str) (scope : option str).

Definition endpoint (now : Z) (uri : Uri) (headers : HeaderMap) (e : Endpoint) (auth : AuthContext) (token : LiseurToken)
  : Call S Response :=
  match e with
  | GetSettings => get_settings auth token
  | PutSettings json => put_settings now auth token json
  | PushSessions json => push_sessions auth token json
  | GetToken => token_introspection token
  | CreateToken json => create_token auth token json
  | RevokeToken token_id => revoke_token token_id auth token
  | ResolveWork json => resolve_work auth token json
  | PushOps json => push_ops now auth token json
  | GetChanges query => changes auth token query
  | GetHeads => heads auth token
  | GetPositions work_id limit => positions work_id auth token limit
  | PushAnnotations json => push_annotations now auth token headers json
  | GetAnnotationChanges query => annotation_changes auth token headers query
  | DeleteAnnotation id rev => delete_annotation id auth token headers rev
  | ListAttachments annotation_id => list_attachments annotation_id auth token
  | PutAttachment annotation_id kind body => put_attachment annotation_id kind auth token headers body
  | GetWorkAnnotations work_id include_deleted => work_annotations work_id auth token headers include_deleted
  | GetFolders after limit => folders auth token after limit
  | GetFolderBooks folder_id cursor limit => folder_books folder_id auth token cursor limit headers uri
  | SearchFolder folder_id q => folder_search folder_id auth token q headers uri
  | GetBook book_id => book book_id auth token headers uri
  | GetBookCover book_id => book_cover book_id auth token
  | DownloadBook book_id => book_download book_id auth token headers
  | GetBookSeries book_id scope => book_series book_id auth token scope
  | ResolveCatalogBook book_id confirmed => resolve_catalog_book book_id auth token confirmed
  | SeriesOrder => db_ret deferred_catalog
  | GetEvents => db_ret deferred_events
  | SetSeriesName series_id scope name => set_series_name series_id auth token scope name
  | ClearSeriesName series_id scope => clear_series_name series_id auth token scope
  end.

(** The bearer token of a request. *)
Definition bearer (headers : HeaderMap) : option str :=
  (header_str headers (lit "authorization") ≫= strip_prefix (lit "Bearer ")) ≫=
  (fun value => then_some (negb (bool_decide (value = []))) value).

Definition token_auth (headers : HeaderMap) (next : AuthContext -> LiseurToken -> Call S Response) : Call S Response :=
  token <-- lift (match bearer headers with Some token => Ok token | None => Err Unauthorized end) ;;
  authenticated <-- bk_authenticate token ;;
  next (tk_context authenticated) authenticated.

(** What the client gets: nothing when the handler panics. *)
Definition respond (c : Call S Response) : S -> option Response * S := fun s =>
  match c s with
  | (Ok response, s') => (Some response, s')
  | (Err (Refused error), s') => (Some (error_response error), s')
  | (Err Panicked, s') => (None, s')
  end.

Definition serve (now : Z) (uri : Uri) (headers : HeaderMap) (e : Endpoint) : S -> option Response * S :=
  respond (token_auth headers (endpoint now uri headers e)).

End handlers.

(** Steps into the handler of an endpoint. *)
Ltac unfold_handlers :=
  unfold get_settings, put_settings, push_sessions, token_introspection, create_token, revoke_token, resolve_work,
    push_ops, changes, heads, positions, push_annotations, annotation_changes, delete_annotation, list_attachments,
    put_attachment, work_annotations, folders, folder_books, folder_search, book, book_cover, book_download,
    book_series, resolve_catalog_book, set_series_name, clear_series_name.

(** ** Authorization *)

Section authorization.
Context {S : Type} `{LiseurSyncBackend S} `{Chrono} `{Wire} `{Sha256} `{DebugText} `{Http}.

(** The token a request needs: a login session manages tokens, a device token with the
    scope of the route does the rest; [admin] stands for every scope. *)
Definition grants (token : LiseurToken) (scope : string) : Prop :=
  tk_kind token = Device /\ (lit scope ∈ tk_scopes token \/ lit "admin" ∈ tk_scopes token).

Definition permitted (token : LiseurToken) (e : Endpoint) : Prop :=
  match e with
  | CreateToken _ | RevokeToken _ => tk_kind token = LoginSession
  | GetToken => tk_kind token = Device
  | SeriesOrder | GetEvents => True
  | GetFolders _ _ | GetFolderBooks _ _ _ | SearchFolder _ _ | GetBook _ | GetBookCover _ | DownloadBook _
  | GetBookSeries _ _ => grants token "library-read"
  | SetSeriesName _ _ _ | ClearSeriesName _ _ => grants token "library-manage"
  | ResolveCatalogBook _ _ => grants token "library-read" /\ grants token "sync"
  | _ => grants token "sync"
  end.

(** A call that only does what [R] allows. *)
Definition acts {A} (R : S -> S -> Prop) (c : Call S A) : Prop := forall s, R s (c s).2.

(** A backend whose calls do what [R] allows for the user they are made for. *)
Record backend_respects (R : str -> S -> S -> Prop) : Prop := {
  br_order user : PreOrder (R user);
  br_mint_token user name scopes expiry : acts (R user) (bk_mint_token user name scopes expiry);
  br_revoke_token user token_id : acts (R user) (bk_revoke_token user token_id);
  br_settings user : acts (R user) (bk_settings user);
  br_put_settings user updates : acts (R user) (bk_put_settings user updates);
  br_folders auth after limit : acts (R (au_user_id auth)) (bk_folders auth after limit);
  br_folder_books auth id cursor limit : acts (R (au_user_id auth)) (bk_folder_books auth id cursor limit);
  br_folder_search auth id q : acts (R (au_user_id auth)) (bk_folder_search auth id q);
  br_book auth id : acts (R (au_user_id auth)) (bk_book auth id);
  br_book_download auth id : acts (R (au_user_id auth)) (bk_book_download auth id);
  br_book_cover auth id : acts (R (au_user_id auth)) (bk_book_cover auth id);
  br_book_series auth id scope : acts (R (au_user_id auth)) (bk_book_series auth id scope);
  br_set_series_name auth id scope name : acts (R (au_user_id auth)) (bk_set_series_name auth id scope name);
  br_clear_series_name auth id scope : acts (R (au_user_id auth)) (bk_clear_series_name auth id scope);
  br_resolve_catalog_book auth id confirmed : acts (R (au_user_id auth)) (bk_resolve_catalog_book auth id confirmed);
  br_resolve_work user request : acts (R user) (bk_resolve_work user request);
  br_append_ops user device ops : acts (R user) (bk_append_ops user device ops);
  br_changes user since limit : acts (R user) (bk_changes user since limit);
  br_heads user : acts (R user) (bk_heads user);
  br_positions user work_id limit : acts (R user) (bk_positions user work_id limit);
  br_append_sessions user device sessions : acts (R user) (bk_append_sessions user device sessions);
  br_append_annotations user device annotations : acts (R user) (bk_append_annotations user device annotations);
  br_annotation_changes user since limit : acts (R user) (bk_annotation_changes user since limit);
  br_work_annotations user work_id deleted : acts (R user) (bk_work_annotations_with_deleted user work_id deleted);
  br_delete_annotation user id rev : acts (R user) (bk_delete_annotation user id rev);
  br_put_attachment user id upload : acts (R user) (bk_put_attachment user id upload);
  br_attachments user id : acts (R user) (bk_attachments user id);
}.

Lemma acts_ret {A} (R : S -> S -> Prop) (a : A) : PreOrder R -> acts R (db_ret a).
Proof. by intros HR s. Qed.

Lemma acts_lift {A} (R : S -> S -> Prop) (r : result A LiseurSyncError) : PreOrder R -> acts R (lift r).
Proof. by intros HR s. Qed.

Lemma acts_expect_all {A} (R : S -> S -> Prop) (results : list (option A)) : PreOrder R -> acts R (expect_all results).
Proof. intros HR s. unfold expect_all. by destruct (mapM id results). Qed.

Lemma acts_bind {A B} (R : S -> S -> Prop) (c : Call S A) (k : A -> Call S B) :
  PreOrder R -> acts R c -> (forall a, acts R (k a)) -> acts R (db_bind c k).
Proof.
  intros HR Hc Hk s. unfold db_bind. pose proof (Hc s) as Hs. destruct (c s) as [[a|e] s1]; cbn in *; [|done].
  etrans; [exact Hs|apply Hk].
Qed.

(** Steps through a handler: what needs no backend, and the calls of the backend. *)
Ltac acting Hpre HR :=
  repeat first
    [ apply (acts_ret _ _ Hpre) | apply (acts_lift _ _ Hpre) | apply (acts_expect_all _ _ Hpre)
    | apply (acts_bind _ _ _ Hpre); [|intros ?] | solve [eapply HR] ].

Lemma endpoint_acts R now uri headers e auth token :
  backend_respects R -> acts (R (au_user_id auth)) (endpoint now uri headers e auth token).
Proof.
  intros HR. pose proof (br_order R HR (au_user_id auth)) as Hpre.
  destruct e; cbn [endpoint]; unfold_handlers; acting Hpre HR.
  - destruct (tg_valid _); acting Hpre HR.
  - destruct a1 as [[annotations high_water] has_more]. acting Hpre HR.
  - case_bool_decide; acting Hpre HR.
Qed.

(** A refusal: an error status, and the backend untouched. *)
Definition refuses (c : Call S Response) : Prop :=
  forall s, exists error, c s = (Err (Refused error), s) /\ 400 <= error_status error.

Lemma refuses_lift {A} (r : result A LiseurSyncError) (k : A -> Call S Response) :
  match r with Ok a => refuses (k a) | Err error => 400 <= error_status error end -> refuses (db_bind (lift r) k).
Proof. unfold db_bind, lift. destruct r as [a|error]; intros Hr s; [apply Hr|]. by exists error. Qed.

Lemma has_scope_iff token scope : has_scope token scope = true <-> scope ∈ tk_scopes token.
Proof.
  unfold has_scope. rewrite existsb_exists. setoid_rewrite bool_decide_eq_true. setoid_rewrite <- list_elem_of_In.
  naive_solver.
Qed.

Lemma allows_scope_iff token scope :
  allows_scope token scope = true <-> scope ∈ tk_scopes token \/ lit "admin" ∈ tk_scopes token.
Proof. unfold allows_scope. by rewrite orb_true_iff, !has_scope_iff. Qed.

Lemma login_session_iff token : is_login_session token = false <-> tk_kind token = Device.
Proof. unfold is_login_session. rewrite bool_decide_eq_false. by destruct (tk_kind token). Qed.

Lemma require_sync_refuses token : ~ grants token "sync" -> exists m, require_sync token = Err (Forbidden m).
Proof.
  unfold grants. rewrite <- login_session_iff, <- allows_scope_iff. unfold require_sync.
  destruct (is_login_session token), (allows_scope token (lit "sync")); naive_solver.
Qed.

Lemma require_library_read_refuses token :
  ~ grants token "library-read" -> exists m, require_library_read token = Err (Forbidden m).
Proof.
  unfold grants. rewrite <- login_session_iff, <- allows_scope_iff. unfold require_library_read.
  destruct (is_login_session token), (allows_scope token (lit "library-read")); naive_solver.
Qed.

Lemma require_library_manage_refuses token :
  ~ grants token "library-manage" -> exists m, require_library_manage token = Err (Forbidden m).
Proof.
  unfold grants. rewrite <- login_session_iff, <- allows_scope_iff. unfold require_library_manage.
  destruct (is_login_session token), (allows_scope token (lit "library-manage")); naive_solver.
Qed.

Lemma parse_json_refuses {A} (json : result A JsonRejection) (k : A -> Call S Response) :
  (forall a, refuses (k a)) -> refuses (db_bind (lift (parse_json json)) k).
Proof. intros Hk. apply refuses_lift. by destruct json; cbn. Qed.

Lemma parse_sized_json_refuses {A} (json : result A JsonRejection) (k : A -> Call S Response) :
  (forall a, refuses (k a)) -> refuses (db_bind (lift (parse_sized_json json)) k).
Proof. intros Hk. apply refuses_lift. destruct json as [a|rj]; cbn; [done|]. by destruct (rj_status rj =? 413). Qed.

Lemma grants_both token :
  ~ (grants token "library-read" /\ grants token "sync") ->
  (exists m, require_library_read token = Err (Forbidden m)) \/
  (require_library_read token = Ok tt /\ exists m, require_sync token = Err (Forbidden m)).
Proof.
  unfold grants. rewrite <- login_session_iff, <- !allows_scope_iff. unfold require_library_read, require_sync.
  destruct (is_login_session token), (allows_scope token (lit "library-read")), (allows_scope token (lit "sync"));
    naive_solver.
Qed.

Lemma endpoint_refuses now uri headers e auth token :
  ~ permitted token e -> refuses (endpoint now uri headers e auth token).
Proof.
  destruct e; cbn [permitted endpoint]; intros Hp; try (by destruct Hp); unfold_handlers;
    try (apply parse_json_refuses; intros ?); try (apply parse_sized_json_refuses; intros ?);
    try (apply refuses_lift;
         first [ destruct (require_sync_refuses token Hp) as [? ->]; done
               | destruct (require_library_read_refuses token Hp) as [? ->]; done
               | destruct (require_library_manage_refuses token Hp) as [? ->]; done
               | rewrite <- login_session_iff in Hp; by destruct (is_login_session token)
               | destruct (is_login_session token) eqn:E; [destruct Hp; by apply bool_decide_eq_true in E|done] ]).
  apply refuses_lift. destruct (grants_both token Hp) as [[? ->]|[-> [? Hs]]]; [done|].
  apply refuses_lift. by rewrite Hs.
Qed.

(** C23.  Every protected route, over any backend.  Without a bearer token nothing
    happens; a token the backend refuses gets that refusal; and a token without the kind
    and the scope of the route gets an error while the backend is left as authentication
    left it.  Whatever a request does is done through calls made for the account of its
    token: a relation the calls for each account keep is kept by the request. *)
Theorem serve_authorized R now uri headers e s :
  backend_respects R ->
  match bearer headers with
  | None => serve now uri headers e s = (Some (error_response Unauthorized), s)
  | Some secret =>
      match bk_authenticate secret s with
      | (Err (Refused error), s1) => serve now uri headers e s = (Some (error_response error), s1)
      | (Err Panicked, s1) => serve now uri headers e s = (None, s1)
      | (Ok token, s1) =>
          R (au_user_id (tk_context token)) s1 (serve now uri headers e s).2 /\
          (~ permitted token e ->
           exists response, serve now uri headers e s = (Some response, s1) /\ 400 <= rs_status response)
      end
  end.
Proof.
  intros HR. unfold serve, respond, token_auth. destruct (bearer headers) as [secret|]; [|done].
  unfold db_bind, lift. destruct (bk_authenticate secret s) as [[token|[error|]] s1]; [|done..].
  pose proof (endpoint_acts R now uri headers e (tk_context token) token HR s1) as Hacts. split.
  - by destruct (endpoint now uri headers e (tk_context token) token s1) as [[response|[error|]] s2].
  - intros Hp. destruct (endpoint_refuses now uri headers e (tk_context token) token Hp s1) as (error & -> & Hs).
    eauto.
Qed.

End authorization.

(** ** Scopes *)

Section scope_lemmas.
Context `{DebugText}.

Lemma scope_position_known scope : scope ∈ KNOWN_SCOPES -> KNOWN_SCOPES !! scope_position scope = Some scope.
Proof.
  intros Hin. unfold scope_position. destruct (list_find _ KNOWN_SCOPES) as [[i known]|] eqn:E.
  - by apply list_find_Some in E as (E & -> & _).
  - apply list_find_None in E. rewrite Forall_forall in E. by destruct (E _ Hin).
Qed.

Lemma collect_scopes_exact scopes seen normalized l :
  NoDup normalized -> (forall x, x ∈ seen <-> x ∈ normalized) ->
  collect_scopes scopes seen normalized = Ok l ->
  Forall (.∈ KNOWN_SCOPES) scopes /\ NoDup l /\ forall x, x ∈ l <-> x ∈ normalized \/ x ∈ scopes.
Proof.
  revert seen normalized. induction scopes as [|scope scopes IH]; intros seen normalized Hnd Hseen; cbn.
  - intros [= ->]. split_and!; [done|done|]. intros x. rewrite elem_of_nil. tauto.
  - case_bool_decide as Hk; cbn; [|done]. case_bool_decide as Hs.
    + intros (Hall & Hl & Hx)%IH; [|done..]. split_and!; [by constructor|done|]. intros x. rewrite Hx, elem_of_cons.
      apply Hseen in Hs. naive_solver.
    + assert (Hnew : NoDup (normalized ++ [scope])).
      { apply NoDup_app. split_and!; [done| |apply NoDup_singleton]. intros x Hx ->%list_elem_of_singleton.
        by apply Hs, Hseen. }
      intros (Hall & Hl & Hx)%IH; [|done|set_solver]. split_and!; [by constructor|done|].
      intros x. rewrite Hx. set_solver.
Qed.

Lemma collect_scopes_total scopes seen normalized :
  Forall (.∈ KNOWN_SCOPES) scopes -> exists l, collect_scopes scopes seen normalized = Ok l.
Proof.
  intros Hall. revert seen normalized. induction Hall as [|scope scopes Hk _ IH]; intros seen normalized; cbn; [eauto|].
  rewrite bool_decide_eq_true_2 by done. cbn. case_bool_decide; apply IH.
Qed.

#[local] Instance scope_before_total : Total scope_before.
Proof. intros a b. unfold scope_before. lia. Qed.

#[local] Instance scope_before_trans : Transitive scope_before.
Proof. intros a b c. unfold scope_before. lia. Qed.

(** The known scopes that were asked for, in the order of the table. *)
Definition scopes_of (scopes : list str) : list str := List.filter (fun known => bool_decide (known ∈ scopes)) KNOWN_SCOPES.

Lemma known_scopes_sorted : StronglySorted scope_before KNOWN_SCOPES.
Proof. repeat constructor; by vm_compute. Qed.

Lemma known_scopes_nodup : NoDup KNOWN_SCOPES.
Proof. apply (bool_decide_unpack (NoDup KNOWN_SCOPES)). by vm_compute. Qed.

Lemma elem_of_scopes_of scopes : Forall (.∈ KNOWN_SCOPES) scopes -> forall x, x ∈ scopes_of scopes <-> x ∈ scopes.
Proof.
  intros Hall x. unfold scopes_of. rewrite list_elem_of_In, filter_In, bool_decide_eq_true, <- list_elem_of_In.
  rewrite Forall_forall in Hall. naive_solver.
Qed.

Lemma scopes_of_ext a b : (forall x, x ∈ a <-> x ∈ b) -> scopes_of a = scopes_of b.
Proof. intros E. apply filter_ext. intros x. by apply bool_decide_ext. Qed.

Lemma sort_scopes_exact l scopes :
  NoDup l -> (forall x, x ∈ l <-> x ∈ scopes) -> Forall (.∈ KNOWN_SCOPES) scopes ->
  merge_sort scope_before l = scopes_of scopes.
Proof.
  intros Hnd Hl Hall. pose proof (elem_of_scopes_of scopes Hall) as Hin. rewrite Forall_forall in Hall.
  apply (StronglySorted_unique_strong scope_before).
  - intros a b Ha Hb H1 H2. rewrite merge_sort_Permutation in Ha.
    assert (E : scope_position a = scope_position b) by (unfold scope_before in *; lia).
    pose proof (scope_position_known a (Hall a (proj1 (Hl a) Ha))) as Ea.
    pose proof (scope_position_known b (Hall b (proj1 (Hin b) Hb))) as Eb. rewrite E in Ea. congruence.
  - by apply StronglySorted_merge_sort; typeclasses eauto.
  - apply StronglySorted_filter, known_scopes_sorted.
  - rewrite merge_sort_Permutation. apply NoDup_Permutation; [done|apply NoDup_ListNoDup, List.NoDup_filter, NoDup_ListNoDup, known_scopes_nodup|].
    intros x. by rewrite Hl, Hin.
Qed.

Lemma normalize_scopes_exact scopes l :
  normalize_scopes scopes = Ok l <->
  scopes <> [] /\ Forall (.∈ KNOWN_SCOPES) scopes /\ l = scopes_of scopes.
Proof.
  unfold normalize_scopes. split.
  - rewrite result_bind_Ok. intros (n & (Hall & Hnd & Hx)%collect_scopes_exact & E); [|apply NoDup_nil_2|set_solver].
    case_bool_decide as Hn; [done|]. injection E as <-.
    split_and!; [|done|].
    + intros ->. apply Hn. destruct n as [|x n]; [done|]. specialize (Hx x). set_solver.
    + apply sort_scopes_exact; [done| |done]. intros x. rewrite Hx. set_solver.
  - intros (Hne & Hall & ->). destruct (collect_scopes_total scopes ∅ [] Hall) as [n E]. rewrite E. cbn.
    apply collect_scopes_exact in E as (_ & Hnd & Hx); [|apply NoDup_nil_2|set_solver].
    rewrite bool_decide_eq_false_2.
    + f_equal. apply sort_scopes_exact; [done| |done]. intros x. rewrite Hx. set_solver.
    + intros ->. destruct scopes as [|x scopes]; [done|]. specialize (Hx x). set_solver.
Qed.

(** The scopes a request names, in either form. *)
Definition named_scopes (request : TokenCreateRequest) : list str :=
  default (option_list (tr_scope request)) (tr_scopes request).

Lemma requested_scopes_exact request l :
  requested_scopes request = Ok l <->
  named_scopes request <> [] /\ Forall (.∈ KNOWN_SCOPES) (named_scopes request) /\
  (forall scope, tr_scope request = Some scope -> forall x, x ∈ named_scopes request <-> x = scope) /\
  l = scopes_of (named_scopes request).
Proof.
  unfold requested_scopes, named_scopes.
  destruct (tr_scope request) as [a|], (tr_scopes request) as [b|]; cbn [fmap option_fmap option_map transpose default option_list].
  - split.
    + rewrite result_bind_Ok. intros (o & Ha & E). rewrite result_bind_Ok in E. destruct E as (o' & Hb & E).
      destruct (normalize_scopes [a]) as [la|] eqn:Ea; [|done]. destruct (normalize_scopes b) as [lb|] eqn:Eb; [|done].
      injection Ha as <-. injection Hb as <-. case_bool_decide as Hl; [|done]. injection E as <-. subst lb.
      apply normalize_scopes_exact in Ea as (_ & Hka & ->). apply normalize_scopes_exact in Eb as (Hne & Hkb & Hl).
      split_and!; [done|done| |done]. intros scope [= <-] x.
      rewrite <- (elem_of_scopes_of b Hkb), <- Hl, (elem_of_scopes_of [a] Hka). set_solver.
    + intros (Hne & Hkb & Hsame & ->). specialize (Hsame a eq_refl).
      assert (Hka : a ∈ KNOWN_SCOPES) by (rewrite Forall_forall in Hkb; apply Hkb; by apply Hsame).
      assert (Ea : normalize_scopes [a] = Ok (scopes_of [a])).
      { apply normalize_scopes_exact. split_and!; [done|by constructor|done]. }
      assert (Eb : normalize_scopes b = Ok (scopes_of b)) by (by apply normalize_scopes_exact).
      rewrite Ea, Eb. cbn [result_bind transpose].
      assert (E : scopes_of [a] = scopes_of b) by (apply scopes_of_ext; intros x; rewrite Hsame; set_solver).
      by rewrite E, bool_decide_eq_true_2.
  - destruct (normalize_scopes [a]) as [la|e] eqn:Ea; cbn.
    + apply normalize_scopes_exact in Ea as (Hne & Hk & ->). split; [|by intros (_ & _ & _ & ->)].
      intros [= <-]. split_and!; [done|done| |done]. intros scope [= <-] x. set_solver.
    + split; [done|]. intros (Hne & Hk & _ & ->).
      assert (E : normalize_scopes [a] = Ok (scopes_of [a])) by (by apply normalize_scopes_exact). congruence.
  - destruct (normalize_scopes b) as [lb|e] eqn:Eb; cbn.
    + apply normalize_scopes_exact in Eb as (Hne & Hk & ->). split; [|by intros (_ & _ & _ & ->)].
      by intros [= <-].
    + split; [done|]. intros (Hne & Hk & _ & ->).
      assert (E : normalize_scopes b = Ok (scopes_of b)) by (by apply normalize_scopes_exact). congruence.
  - split; [done|]. by intros (? & _).
Qed.

End scope_lemmas.

(** ** What the validators accept *)

Section valid.
Context `{Chrono} `{Wire}.

Definition bounded (id : str) (limit : Z) : Prop := id <> [] /\ str_len id <= limit.

Definition at_most (limit : Z) (o : option str) : Prop := forall s, o = Some s -> str_len s <= limit.

Definition locator_fits (o : option Value) : Prop :=
  forall locator, o = Some locator -> exists text, json_text locator = Some text /\ str_len text <= MAX_LOCATOR_BYTES.

(** A timestamp that parses and is at most a day ahead of the server. *)
Definition timely (now : Z) (ts : str) : Prop :=
  exists t, parse_from_rfc3339 ts = Some t /\ t <= now + 24 * 3600 * 1000000000.

Record op_valid (now : Z) (op : OpInput) : Prop := {
  ov_op_id : bounded (oi_op_id op) 64;
  ov_work_id : bounded (oi_work_id op) 128;
  ov_edition : at_most 128 (oi_edition_sha op);
  ov_progression : exists p, oi_progression op = Some p /\ in_unit p;
  ov_locator : locator_fits (oi_locator op);
  ov_client_ts : str_len (oi_client_ts op) <= 64 /\ timely now (oi_client_ts op);
}.

Lemma early_bounded {A E} id limit (e : E) (k : result A E) a :
  early (bool_decide (id = []) || (limit <? str_len id)) e k = Ok a <-> bounded id limit /\ k = Ok a.
Proof. rewrite early_Ok, orb_false_iff, bool_decide_eq_false, Z.ltb_ge. unfold bounded. tauto. Qed.

Lemma early_at_most {A E} o limit (e : E) (k : result A E) a :
  early (is_some_and o (fun s => limit <? str_len s)) e k = Ok a <-> at_most limit o /\ k = Ok a.
Proof.
  rewrite early_Ok. unfold at_most. destruct o as [s|]; cbn; [rewrite Z.ltb_ge|]; naive_solver.
Qed.

Lemma out_of_unit_iff p : out_of_unit p = false <-> in_unit p.
Proof.
  unfold out_of_unit. rewrite orb_false_iff, !negb_false_iff, andb_true_iff. split; [by intros []|].
  intros Hp. split; [apply Hp|by apply in_unit_finite].
Qed.

Lemma validate_locator_exact {E} o (invalid too_large : E) :
  validate_locator o invalid too_large = Ok tt <-> locator_fits o.
Proof.
  unfold validate_locator, locator_fits. destruct o as [locator|]; [|naive_solver].
  destruct (json_text locator) as [text|] eqn:Et.
  - destruct (Z.ltb_spec MAX_LOCATOR_BYTES (str_len text)).
    + split; [done|]. intros Hl. destruct (Hl _ eq_refl) as (t & Ht & Hlen). rewrite Et in Ht. injection Ht as <-. lia.
    + split; [|done]. intros _ l [= <-]. eauto.
  - split; [done|]. intros Hl. destruct (Hl _ eq_refl) as (t & Ht & _). congruence.
Qed.

Lemma bind_unit_Ok {A E} (r : result unit E) (k : unit -> result A E) a :
  result_bind r k = Ok a <-> r = Ok tt /\ k tt = Ok a.
Proof. destruct r as [[]|]; naive_solver. Qed.

Lemma bind_locator_exact {A E} o (invalid too_large : E) (k : unit -> result A E) a :
  result_bind (validate_locator o invalid too_large) k = Ok a <-> locator_fits o /\ k tt = Ok a.
Proof. by rewrite bind_unit_Ok, validate_locator_exact. Qed.

Lemma timely_exact {E} now ts (e e' : E) :
  match parse_from_rfc3339 ts with
  | None => Err e
  | Some t => early (now + hours 24 <? t) e' (Ok tt)
  end = Ok tt <-> timely now ts.
Proof.
  unfold timely, hours. destruct (parse_from_rfc3339 ts) as [t|]; [|naive_solver].
  rewrite early_Ok, Z.ltb_ge. split; [intros [? _]; eauto with lia|]. intros (t' & [= <-] & ?). split; [lia|done].
Qed.

Lemma validate_op_exact now op : validate_op now op = Ok tt <-> op_valid now op.
Proof.
  unfold validate_op. rewrite early_bounded, early_bounded, early_at_most.
  destruct (oi_progression op) as [p|] eqn:Ep.
  - rewrite early_Ok, bind_locator_exact, early_Ok, Z.ltb_ge, timely_exact, out_of_unit_iff. split.
    + intros (? & ? & ? & ? & ? & ? & ?). by split; eauto.
    + intros [? ? ? (p' & Hp & Hu) ? [? ?]]. rewrite Ep in Hp. injection Hp as <-. by split_and!.
  - split; [by intros (_ & _ & _ & ?)|]. intros [_ _ _ (p' & Hp & _) _ _]. congruence.
Qed.

(** *** Sessions *)

Record session_valid (session : SessionInput) : Prop := {
  sn_session_id : bounded (si_session_id session) 64;
  sn_work_id : bounded (si_work_id session) 128;
  sn_edition : at_most 128 (si_edition_sha session);
  sn_times : exists started ended,
    parse_from_rfc3339 (si_started_at session) = Some started /\
    parse_from_rfc3339 (si_ended_at session) = Some ended /\ started <= ended /\
    0 <= si_idle_ms session /\ si_idle_ms session * 1000000 <= ended - started;
  sn_progressions : exists p q, si_start_progression session = Some p /\ si_end_progression session = Some q /\
    in_unit p /\ in_unit q;
  sn_active : forall ms, si_active_ms session = Some ms -> 0 <= ms < 2 ^ 53;
}.

Lemma idle_exact a d : 0 <= d -> (a <? 0) || (d ÷ 1000000 <? a) = false <-> 0 <= a /\ a * 1000000 <= d.
Proof.
  intros Hd. rewrite Z.quot_div_nonneg by lia. rewrite orb_false_iff, !Z.ltb_ge.
  pose proof (Z.div_mod d 1000000 ltac:(lia)). pose proof (Z.mod_pos_bound d 1000000 ltac:(lia)). lia.
Qed.

Lemma validate_session_exact session : validate_session session = Ok tt <-> session_valid session.
Proof.
  unfold validate_session. rewrite early_bounded, early_bounded, early_at_most.
  split.
  - intros (H1 & H2 & H3 & E). destruct (parse_from_rfc3339 (si_started_at session)) as [started|] eqn:Es; [|done].
    destruct (parse_from_rfc3339 (si_ended_at session)) as [ended|] eqn:Ee; [|done].
    rewrite early_Ok, Z.ltb_ge in E. destruct E as [Ho E].
    destruct (si_start_progression session) as [p|] eqn:Ep; [|done].
    destruct (si_end_progression session) as [q|] eqn:Eq; [|done].
    rewrite early_Ok, orb_false_iff, !out_of_unit_iff in E. destruct E as [[Hp Hq] E]. cbv zeta in E.
    rewrite early_Ok, idle_exact, early_Ok in E by lia. destruct E as [[Hi Hd] [Ha _]].
    split; [done..|eauto 10|eauto 10|]. intros ms Hms. rewrite Hms in Ha. cbn in Ha.
    rewrite negb_false_iff, andb_true_iff in Ha. unfold MAX_SESSION_ACTIVE_MS in Ha. lia.
  - intros [H1 H2 H3 (started & ended & Es & Ee & Ho & Hi & Hd) (p & q & Ep & Eq & Hp & Hq) Ha]. split_and!; [done..|].
    rewrite Es, Ee, Ep, Eq. rewrite early_Ok, Z.ltb_ge. split; [done|].
    rewrite early_Ok, orb_false_iff, !out_of_unit_iff. split; [done|]. cbv zeta.
    rewrite early_Ok, idle_exact, early_Ok by lia. split_and!; [done..| |done].
    destruct (si_active_ms session) as [ms|]; [|done]. cbn. specialize (Ha ms eq_refl).
    rewrite negb_false_iff, andb_true_iff. unfold MAX_SESSION_ACTIVE_MS. lia.
Qed.

(** *** Annotations *)

Record annotation_valid (now : Z) (a : AnnotationInput) : Prop := {
  av_id : bounded (ai_id a) 64;
  av_base_rev : 0 <= ai_base_rev a;
  av_work_id : bounded (ai_work_id a) 128;
  av_edition : at_most 128 (ai_edition_sha a);
  av_kind :
    (ai_kind a = lit "note" /\ ai_body a <> []) \/
    ((ai_kind a = lit "highlight" \/ (ai_kind a = lit "bookmark" /\ ai_body a = [])) /\
     exists locator, ai_locator a = Some locator /\ locator <> JNull);
  av_locator : locator_fits (ai_locator a);
  av_progression : forall p, ai_progression a = Some p -> in_unit p;
  av_excerpt : str_len (ai_excerpt a) <= 1024;
  av_body : str_len (ai_body a) <= 16384;
  av_color : forall color, ai_color a = Some color -> color <> [] ->
    color ∈ ANNOTATION_COLORS /\ ai_kind a = lit "highlight";
  av_drawer : forall drawer, ai_drawer a = Some drawer -> drawer <> [] ->
    drawer ∈ ANNOTATION_DRAWERS /\ ai_kind a = lit "highlight";
  av_client_ts : str_len (ai_client_ts a) <= 64 /\ timely now (ai_client_ts a);
}.

Lemma check_kind_exact {A} a (k : result A str) r :
  result_bind (check_kind a) (fun _ =>
    early (bool_decide (ai_kind a = lit "bookmark") && negb (bool_decide (ai_body a = []))) (lit "a bookmark carries no body") k)
    = Ok r <->
  ((ai_kind a = lit "note" /\ ai_body a <> []) \/
   ((ai_kind a = lit "highlight" \/ (ai_kind a = lit "bookmark" /\ ai_body a = [])) /\
    exists locator, ai_locator a = Some locator /\ locator <> JNull)) /\ k = Ok r.
Proof.
  rewrite bind_unit_Ok, early_Ok. unfold check_kind.
  rewrite andb_false_iff, bool_decide_eq_false, negb_false_iff, bool_decide_eq_true.
  assert (Hl : is_some_and (ai_locator a) (fun value => match value with JNull => false | _ => true end) = true <->
               exists locator, ai_locator a = Some locator /\ locator <> JNull).
  { destruct (ai_locator a) as [[]|]; cbn; naive_solver. }
  case_bool_decide as Hn; [|case_bool_decide as Hk].
  - rewrite Hn, early_Ok, bool_decide_eq_false. split.
    + intros ([Hb _] & _ & E). split; [by left|done].
    + intros [[[_ Hb]|[[?|[? _]] _]] E]; [|done..]. split_and!; [done|done|by left|done].
  - rewrite early_Ok, negb_false_iff, Hl. split.
    + intros ([Hx _] & Hb & E). split; [right|done]. split; [|done].
      apply elem_of_cons in Hk as [?|Hk%list_elem_of_singleton]; [by left|right]. naive_solver.
    + intros [[[? _]|[Hx Hy]] E]; [done|]. split_and!; [done|done| |done].
      destruct Hx as [->|[? ?]]; [by left|by right].
  - split; [by intros (? & _)|]. intros [[[? _]|[Hx _]] _]; [done|]. destruct Hk. set_solver.
Qed.

Lemma check_decoration_exact a :
  check_decoration a = Ok tt <->
  (forall color, ai_color a = Some color -> color <> [] -> color ∈ ANNOTATION_COLORS /\ ai_kind a = lit "highlight") /\
  (forall drawer, ai_drawer a = Some drawer -> drawer <> [] -> drawer ∈ ANNOTATION_DRAWERS /\ ai_kind a = lit "highlight").
Proof.
  unfold check_decoration. rewrite !early_Ok, !andb_false_iff, !negb_false_iff, !bool_decide_eq_true.
  assert (Hc : (default [] (ai_color a) = [] \/ default [] (ai_color a) ∈ ANNOTATION_COLORS) /\
               (default [] (ai_color a) = [] \/ ai_kind a = lit "highlight") <->
    forall color, ai_color a = Some color -> color <> [] -> color ∈ ANNOTATION_COLORS /\ ai_kind a = lit "highlight").
  { destruct (ai_color a) as [color|]; cbn; [|naive_solver]. split; [naive_solver|]. intros Hx.
    destruct (decide (color = [])); [by split; left|]. destruct (Hx _ eq_refl); [done|]. by split; right. }
  rewrite <- Logic.and_assoc, Hc. apply and_iff_compat_l.
  destruct (ai_drawer a) as [drawer|]; cbn; [|naive_solver].
  case_bool_decide as Hd; cbn.
  - subst drawer. split; [|done]. by intros _ d [= <-].
  - rewrite !early_Ok, !negb_false_iff, !bool_decide_eq_true. split; [naive_solver|]. intros Hx.
    destruct (Hx _ eq_refl Hd). done.
Qed.

Lemma validate_annotation_exact now a : validate_annotation now a = Ok tt <-> annotation_valid now a.
Proof.
  unfold validate_annotation. rewrite early_bounded, early_Ok, early_bounded, early_at_most, check_kind_exact.
  rewrite bind_locator_exact, !early_Ok, !Z.ltb_ge, bind_unit_Ok, check_decoration_exact.
  assert (Ht : match validate_timestamp now (ai_client_ts a) false with Ok _ => Ok tt | Err _ => Err (lit "bad client_ts") end
               = Ok tt <-> str_len (ai_client_ts a) <= 64 /\ timely now (ai_client_ts a)).
  { unfold validate_timestamp, early. destruct (Z.ltb_spec MAX_CLIENT_TS_BYTES (str_len (ai_client_ts a)));
      unfold MAX_CLIENT_TS_BYTES, timely, hours in *; [split; [done|lia]|].
    destruct (parse_from_rfc3339 (ai_client_ts a)) as [t|]; cbn; [|naive_solver].
    destruct (Z.ltb_spec (now + 24 * 3600 * 1000000000) t); naive_solver lia. }
  rewrite Ht.
  assert (Hp : is_some_and (ai_progression a) out_of_unit = false <-> forall p, ai_progression a = Some p -> in_unit p).
  { destruct (ai_progression a) as [p|]; cbn; [rewrite out_of_unit_iff|]; naive_solver. }
  rewrite Hp. split.
  - intros (? & ? & ? & ? & ? & ? & ? & ? & ? & (? & ?) & ?). by split.
  - intros []. split_and!; first [done | apply av_client_ts0].
Qed.

End valid.

(** ** The handlers *)

Section handler_theorems.
Context {S : Type} `{LiseurSyncBackend S} `{Chrono} `{Wire} `{Sha256} `{DebugText} `{Http}.

(** *** Tokens *)

(** A request for a token that is honoured, and the scopes it asks for. *)
Record token_request_ok (auth : AuthContext) (token : LiseurToken) (request : TokenCreateRequest) : Prop := {
  to_session : tk_kind token = LoginSession;
  to_name : bounded (tr_name request) 256;
  to_expiry : forall seconds, tr_expires_in_seconds request = Some seconds -> 0 <= seconds;
  to_named : named_scopes request <> [] /\ Forall (.∈ KNOWN_SCOPES) (named_scopes request);
  to_both : forall scope, tr_scope request = Some scope -> forall x, x ∈ named_scopes request <-> x = scope;
  to_admin : lit "admin" ∈ named_scopes request -> au_is_server_owner auth = true;
}.

Lemma lift_bind {A B} (r : result A LiseurSyncError) (k : A -> Call S B) s :
  db_bind (lift r) k s = match r with Ok a => k a s | Err e => (Err (Refused e), s) end.
Proof. by destruct r. Qed.

(** A token is minted exactly for the requests it should be: by a login session,
    with a name of 1 to 256 bytes, no negative lifetime, known scopes, both forms of the
    scopes in agreement, and [admin] only for a server owner.  The backend is then asked
    for exactly the scopes named, each once, in the order of the table; every other
    request is refused and the backend untouched. *)
Theorem create_token_exact auth token json s :
  (forall request, json = Ok request -> token_request_ok auth token request ->
     create_token auth token json s =
     (result <-- bk_mint_token (au_user_id auth) (tr_name request) (scopes_of (named_scopes request))
                   (tr_expires_in_seconds request) ;;
      db_ret {| rs_status := 201; rs_body := BToken result |}) s) /\
  (~ (exists request, json = Ok request /\ token_request_ok auth token request) ->
     exists error, create_token auth token json s = (Err (Refused error), s)).
Proof.
  unfold create_token. rewrite lift_bind.
  destruct (early (negb (is_login_session token)) Unauthorized (Ok tt)) as [[]|e1] eqn:E1.
  - rewrite early_Ok, negb_false_iff in E1. destruct E1 as [E1 _]. apply bool_decide_eq_true in E1.
    rewrite lift_bind. destruct json as [request|rej]; cbn [parse_json].
    + rewrite lift_bind. match goal with |- context [match early ?c ?e ?k with _ => _ end] =>
        destruct (early c e k) as [[]|e2] eqn:E2 end.
      * rewrite early_bounded, early_Ok in E2. destruct E2 as (Hn & Hx & _). rewrite lift_bind.
        destruct (requested_scopes request) as [scopes|e3] eqn:E3.
        -- apply requested_scopes_exact in E3 as (Hne & Hk & Hboth & ->). rewrite lift_bind.
           assert (Ha : lit "admin" ∈ scopes_of (named_scopes request) <-> lit "admin" ∈ named_scopes request)
             by (by apply elem_of_scopes_of).
           match goal with |- context [match early ?c ?e ?k with _ => _ end] =>
             destruct (early c e k) as [[]|e4] eqn:E4 end.
           ++ split; [by intros ? [= <-]|]. intros Hno. destruct Hno. exists request. split; [done|].
              split; try done.
              ** intros seconds Hs. rewrite Hs in Hx. cbn in Hx. lia.
              ** rewrite early_Ok, andb_false_iff, bool_decide_eq_false, negb_false_iff in E4. naive_solver.
           ++ split; [|eauto]. intros ? [= <-] [_ _ _ _ _ Hadm]. unfold early in E4.
              rewrite Ha in Hadm || rewrite <- Ha in Hadm. case_bool_decide as Hin; [|done]. by rewrite Hadm in E4.
        -- split; [|eauto]. intros ? [= <-] [_ _ _ [Hne Hk] Hboth _].
           assert (E : requested_scopes request = Ok (scopes_of (named_scopes request)))
             by (by apply requested_scopes_exact). congruence.
      * split; [|eauto]. intros ? [= <-] [_ Hn Hx _ _ _].
        match type of E2 with ?l = _ => assert (E : l = Ok tt) end; [|congruence].
        rewrite early_bounded, early_Ok. split_and!; [apply Hn..| |done].
        destruct (tr_expires_in_seconds request) as [x|]; [|done]. cbn. specialize (Hx x eq_refl). lia.
    + split; [done|eauto].
  - split; [|eauto]. intros request -> [Hs _ _ _ _ _]. unfold is_login_session in E1.
    by rewrite bool_decide_eq_true_2 in E1.
Qed.

(** *** Positions *)

(** The first operation that is not valid, with its position. *)
Lemma check_ops_exact now ops index :
  match check_ops now index ops with
  | Ok _ => Forall (op_valid now) ops
  | Err error =>
      exists i op refusal, ops !! i = Some op /\ ~ op_valid now op /\ Forall (op_valid now) (take i ops) /\
        error = ItemRefusal refusal /\ rf_status refusal = 400 /\ rf_item_index refusal = Some (index + i)%nat
  end.
Proof.
  revert index. induction ops as [|op ops IH]; intros index; cbn; [done|].
  destruct (validate_op now op) as [[]|[[code message] limit]] eqn:E.
  - apply validate_op_exact in E. specialize (IH (Datatypes.S index)).
    destruct (check_ops now (Datatypes.S index) ops) as [|error]; [by constructor|].
    destruct IH as (i & op' & refusal & Hi & Hv & Ht & -> & Hs & Hx). exists (Datatypes.S i), op', refusal.
    split_and!; [done|done|by constructor|done|done|]. rewrite Hx. f_equal. lia.
  - exists 0%nat, op. eexists. split_and!; [done| |by constructor|done|done|]; [|cbn; f_equal; lia].
    intros Hv%validate_op_exact. congruence.
Qed.

(** A batch of positions is handed to the backend exactly when the token grants
    syncing, the batch has 1 to 500 operations and every one of them is valid; it is
    handed over whole, for the account and device of the token.  Otherwise the backend is
    untouched, and when a single operation is to blame the refusal names the first one. *)
Theorem push_ops_exact now token ops s :
  let auth := tk_context token in
  (grants token "sync" /\ (1 <= length ops <= 500)%nat /\ Forall (op_valid now) ops ->
     push_ops now auth token (Ok ops) s =
     (results <-- bk_append_ops (au_user_id auth) (tk_device_id token) ops ;; db_ret (ok (BOps results))) s) /\
  (~ (grants token "sync" /\ (1 <= length ops <= 500)%nat /\ Forall (op_valid now) ops) ->
     exists error, push_ops now auth token (Ok ops) s = (Err (Refused error), s) /\
       (grants token "sync" -> (1 <= length ops <= 500)%nat ->
        exists i op refusal, ops !! i = Some op /\ ~ op_valid now op /\ Forall (op_valid now) (take i ops) /\
          error = ItemRefusal refusal /\ rf_item_index refusal = Some i)).
Proof.
  intros auth. unfold push_ops. rewrite lift_bind. cbn [parse_sized_json]. rewrite lift_bind.
  destruct (require_sync token) as [[]|e] eqn:Es.
  - assert (Hg : grants token "sync").
    { unfold grants. rewrite <- login_session_iff, <- allows_scope_iff. unfold require_sync in Es.
      by destruct (is_login_session token), (allows_scope token (lit "sync")). }
    rewrite lift_bind. match goal with |- context [match early ?c ?e ?k with _ => _ end] =>
      destruct (early c e k) as [[]|e2] eqn:E2 end.
    + rewrite !early_Ok, bool_decide_eq_false, Nat.ltb_ge in E2. destruct E2 as (Hne & Hl & _).
      unfold MAX_OP_BATCH in Hl. rewrite lift_bind. pose proof (check_ops_exact now ops 0) as Hc.
      destruct (check_ops now 0 ops) as [[]|e3].
      * split; [done|]. intros []. split_and!; [done|lia|lia|done].
      * destruct Hc as (i & op & refusal & Hi & Hv & Ht & -> & Hst & Hx). split.
        -- intros (_ & _ & Hall). destruct Hv. by eapply Forall_lookup_1.
        -- intros _. eexists. split; [done|]. intros _ _. exists i, op, refusal. done.
    + assert (Hl : ~ (1 <= length ops <= 500)%nat).
      { intros Hl. match type of E2 with ?l = _ => assert (E : l = Ok tt) end; [|congruence].
        rewrite !early_Ok, bool_decide_eq_false, Nat.ltb_ge. unfold MAX_OP_BATCH. split_and!; [lia|lia|done]. }
      split; [by intros (_ & ? & _)|]. intros _. eexists. split; [done|]. intros _ ?. by destruct Hl.
  - assert (Hg : ~ grants token "sync").
    { unfold grants. rewrite <- login_session_iff, <- allows_scope_iff. unfold require_sync in Es.
      destruct (is_login_session token), (allows_scope token (lit "sync")); naive_solver. }
    split; [by intros (? & _)|]. intros _. eexists. split; [done|]. done.
Qed.

(** *** Annotations *)

(** What becomes of one raw annotation: invalid, with its result, or handed on. *)
Definition verdict (now : Z) (raw : Value) : AnnotationResult + AnnotationInput :=
  match annotation_of_value raw with
  | None => inl (invalid_annotation (raw_id raw) (lit "malformed annotation"))
  | Some a =>
      match validate_annotation now a with
      | Err reason => inl (invalid_annotation (ai_id a) reason)
      | Ok _ => inr a
      end
  end.

Definition handed_on (now : Z) (raws : list Value) : list AnnotationInput :=
  omap (fun raw => match verdict now raw with inl _ => None | inr a => Some a end) raws.

(** The results in the order of the request: the invalid ones in their places, those of
    the backend in the others. *)
Fixpoint merged (now : Z) (raws : list Value) (backend : list AnnotationResult) : list AnnotationResult :=
  match raws with
  | [] => []
  | raw :: raws =>
      match verdict now raw, backend with
      | inl invalid, _ => invalid :: merged now raws backend
      | inr _, result :: backend => result :: merged now raws backend
      | inr _, [] => []
      end
  end.

Fixpoint positions_from (now : Z) (base : nat) (raws : list Value) : list nat :=
  match raws with
  | [] => []
  | raw :: raws =>
      match verdict now raw with
      | inl _ => positions_from now (Datatypes.S base) raws
      | inr _ => base :: positions_from now (Datatypes.S base) raws
      end
  end.

Definition slot (now : Z) (raw : Value) : option AnnotationResult :=
  match verdict now raw with inl invalid => Some invalid | inr _ => None end.

Lemma triage_step_verdict now t index raw :
  triage_step now t (index, raw) =
  match verdict now raw with
  | inl invalid => {| tg_results := <[index := Some invalid]> (tg_results t); tg_valid := tg_valid t;
                      tg_positions := tg_positions t |}
  | inr a => {| tg_results := tg_results t; tg_valid := tg_valid t ++ [a]; tg_positions := tg_positions t ++ [index] |}
  end.
Proof.
  unfold triage_step, verdict. destruct (annotation_of_value raw) as [a|]; [|done].
  by destruct (validate_annotation now a).
Qed.

Lemma triage_run now raws before t :
  tg_results t = before ++ replicate (length raws) None ->
  fold_left (triage_step now) (imap (fun i raw => (length before + i, raw)%nat) raws) t =
  {| tg_results := before ++ (slot now <$> raws); tg_valid := tg_valid t ++ handed_on now raws;
     tg_positions := tg_positions t ++ positions_from now (length before) raws |}.
Proof.
  revert before t. induction raws as [|raw raws IH]; intros before t Ht; cbn in Ht.
  - cbn. destruct t as [results valid positions]. cbn in *. by rewrite Ht, !app_nil_r.
  - cbn [imap fold_left]. rewrite Nat.add_0_r, triage_step_verdict.
    assert (Eimap : imap ((fun i raw => (length before + i, raw)%nat) ∘ Datatypes.S) raws =
                    imap (fun i x => (length (before ++ [slot now raw]) + i, x)%nat) raws).
    { apply imap_ext. intros i x _. rewrite length_app. cbn. f_equal. lia. }
    rewrite Eimap. cbn [fmap list_fmap handed_on omap list_omap positions_from].
    destruct (verdict now raw) as [invalid|a] eqn:Ev.
    + rewrite (IH (before ++ [slot now raw])).
      2: { cbn. rewrite Ht, insert_app_r_alt, Nat.sub_diag by lia. unfold slot. rewrite Ev. cbn. by rewrite <- app_assoc. }
      cbn. by rewrite length_app, Nat.add_1_r, <- app_assoc.
    + rewrite (IH (before ++ [slot now raw])).
      2: { cbn. rewrite Ht. unfold slot. rewrite Ev, <- app_assoc. done. }
      cbn. by rewrite length_app, Nat.add_1_r, <- !app_assoc.
Qed.

Lemma triage_exact now raws :
  triage now raws = {| tg_results := slot now <$> raws; tg_valid := handed_on now raws;
                       tg_positions := positions_from now 0 raws |}.
Proof. apply (triage_run now raws []). done. Qed.

Lemma positions_handed now base raws : length (positions_from now base raws) = length (handed_on now raws).
Proof.
  revert base. induction raws as [|raw raws IH]; intros base; cbn; [done|].
  destruct (verdict now raw); cbn; [done|]. by rewrite IH.
Qed.

Lemma place_results_exact now raws before backend :
  length backend = length (handed_on now raws) ->
  place_results (before ++ (slot now <$> raws)) (zip (positions_from now (length before) raws) backend) =
  before ++ (Some <$> merged now raws backend).
Proof.
  revert before backend. induction raws as [|raw raws IH]; intros before backend; cbn; [done|].
  unfold slot at 1. destruct (verdict now raw) as [invalid|a] eqn:Ev.
  - intros Hl. specialize (IH (before ++ [Some invalid]) backend Hl).
    rewrite length_app in IH. cbn in IH. rewrite Nat.add_1_r, <- !app_assoc in IH. exact IH.
  - destruct backend as [|result backend]; [done|]. cbn. intros [= Hl].
    rewrite insert_app_r_alt, Nat.sub_diag by lia. cbn.
    specialize (IH (before ++ [Some result]) backend Hl).
    rewrite length_app in IH. cbn in IH. rewrite Nat.add_1_r, <- !app_assoc in IH. exact IH.
Qed.

Lemma mapM_Some {A} (l : list A) : mapM id (Some <$> l) = Some l.
Proof. induction l as [|x l IH]; [done|]. cbn. cbn in IH. by rewrite IH. Qed.

Lemma merged_invalid now raws : handed_on now raws = [] -> slot now <$> raws = Some <$> merged now raws [].
Proof.
  induction raws as [|raw raws IH]; cbn; [done|]. unfold slot at 1. destruct (verdict now raw); [|done].
  intros E. cbn. f_equal. by apply IH.
Qed.

(** A batch of annotations never fails for the invalid ones among them, and never
    panics.  The valid ones are handed to the backend together, in order, and the answer
    has one result per annotation in the order of the request: an invalid one's own, or
    the one the backend gave for it.  Only the backend's failure, or a wrong number of
    results, fails the batch. *)
Theorem push_annotations_exact now token headers raws s :
  grants token "sync" -> (1 <= length raws <= 100)%nat ->
  let auth := tk_context token in
  let answer backend :=
    ok (BAnnotations (annotation_results_for_client (merged now raws backend)
                        (supports_extended_annotation_fields headers))) in
  push_annotations now auth token headers (Ok raws) s =
  match handed_on now raws with
  | [] => (Ok (answer []), s)
  | valid =>
      match bk_append_annotations (au_user_id auth) (tk_device_id token) valid s with
      | (Ok results, s') =>
          if (length results =? length valid)%nat then (Ok (answer results), s')
          else (Err (Refused (Internal (lit "annotation backend returned an unexpected result count"))), s')
      | (Err e, s') => (Err e, s')
      end
  end.
Proof.
  intros Hg Hl auth answer. unfold push_annotations. rewrite lift_bind. cbn [parse_json]. rewrite lift_bind.
  assert (Es : require_sync token = Ok tt).
  { unfold grants in Hg. rewrite <- login_session_iff, <- allows_scope_iff in Hg. destruct Hg as [H1' H2'].
    unfold require_sync. by rewrite H1', H2'. }
  rewrite Es, lift_bind. unfold early at 1 2, MAX_ANNOTATION_BATCH.
  rewrite bool_decide_eq_false_2, (proj2 (Nat.ltb_ge _ _)) by lia. rewrite triage_exact. cbn [tg_valid tg_results tg_positions].
  destruct (handed_on now raws) as [|a valid] eqn:Ev.
  - unfold db_bind at 1. cbn [db_ret]. unfold db_bind, expect_all. by rewrite (merged_invalid _ _ Ev), mapM_Some.
  - unfold db_bind at 1 2. destruct (bk_append_annotations _ _ _ s) as [[results|e] s']; [|done].
    rewrite lift_bind, positions_handed, Ev. unfold early.
    destruct (length results =? length (a :: valid))%nat eqn:Elen; [|done]. apply Nat.eqb_eq in Elen.
    cbn [negb db_ret]. rewrite <- Ev in Elen. pose proof (place_results_exact now raws [] results Elen) as Hp.
    cbn [app length] in Hp. rewrite Hp. unfold db_bind, expect_all. by rewrite mapM_Some.
Qed.

End handler_theorems.

(** ** Settings *)

Section settings_valid.
Context `{Chrono} `{Wire}.

(** The update a setting of a request stands for. *)
Record setting_ok (now : Z) (key : str) (setting : SettingRequest) (u : SettingUpdate) : Prop := {
  sk_key : su_key u = key /\ bounded key 128 /\ 0 ∉ key;
  sk_value : sr_value setting = SString (su_value u) \/ (sr_value setting = SMissing /\ su_value u = []);
  sk_bounds : str_len (su_value u) <= 4096 /\ 0 ∉ su_value u;
  sk_time : exists t, parse_from_rfc3339 (sr_updated_at setting) = Some t /\ t <= now + 24 * 3600 * 1000000000 /\
    su_updated_at u = to_rfc3339_micros t;
}.

Lemma validated_setting_exact now key setting u :
  validated_setting now key setting = Ok u <-> setting_ok now key setting u.
Proof.
  unfold validated_setting. rewrite !early_Ok, bool_decide_eq_false, Z.ltb_ge, result_bind_Ok.
  setoid_rewrite early_Ok. setoid_rewrite early_Ok. setoid_rewrite orb_false_iff. setoid_rewrite bool_decide_eq_false.
  setoid_rewrite Z.ltb_ge. split.
  - intros (Hk & Hkl & value & Hv & Hl & [H0k H0v] & E).
    destruct (parse_from_rfc3339 (sr_updated_at setting)) as [t|] eqn:Et; [|done].
    rewrite early_Ok, Z.ltb_ge in E. destruct E as [Ht [= <-]]. split; cbn; [done| |done|].
    + destruct (sr_value setting); try done; injection Hv as <-; [by right|by left].
    + exists t. unfold hours in Ht. split_and!; [done|lia|done].
  - intros [(Hk & [Hne Hkl] & H0k) Hv [Hl H0v] (t & Et & Ht & Hu)]. destruct u as [k value ts]. cbn in *. subst k ts.
    split_and!; [done|done|]. exists value. split; [by destruct Hv as [->|[-> ->]]|]. split_and!; [done..|].
    rewrite Et, early_Ok, Z.ltb_ge. unfold hours. split; [lia|done].
Qed.

Lemma collect_settings_exact now request us :
  collect_settings now request = Ok us <-> Forall2 (fun kv u => setting_ok now kv.1 kv.2 u) request us.
Proof.
  revert us. induction request as [|[key setting] request IH]; intros us; cbn.
  - split; [intros [= <-]; constructor|by intros ->%Forall2_nil_inv_l].
  - rewrite result_bind_Ok. setoid_rewrite result_bind_Ok. split.
    + intros (u & Hu & us' & Hus & [= <-]). constructor; [by apply validated_setting_exact|by apply IH].
    + intros (u & us' & Hu & Hus & ->)%Forall2_cons_inv_l. exists u. split; [by apply validated_setting_exact|].
      exists us'. split; [by apply IH|done].
Qed.

Lemma validated_settings_exact now request updates :
  validated_settings now request = Ok updates <->
  (1 <= length request <= 256)%nat /\
  exists us, Forall2 (fun kv u => setting_ok now kv.1 kv.2 u) request us /\ updates = merge_sort setting_before us.
Proof.
  unfold validated_settings. rewrite !early_Ok, bool_decide_eq_false, Nat.ltb_ge, result_bind_Ok.
  setoid_rewrite collect_settings_exact. unfold MAX_SETTINGS_PER_ACCOUNT. split.
  - intros (Hne & Hl & us & Hus & [= <-]). split; [|eauto]. destruct request; [done|cbn in *; lia].
  - intros (Hl & us & Hus & ->). split_and!; [by destruct request; [cbn in Hl; lia|]|lia|eauto].
Qed.
End settings_valid.

(** ** Attachments *)

Section attachments.
Context `{Sha256}.

(** An annotation id that is safe as a file name. *)
Definition safe_id (id : str) : Prop :=
  bounded id 64 /\ head id <> Some 46 /\
  Forall (fun c => is_ascii_alphanumeric c = true \/ c = 45 \/ c = 95 \/ c = 46) id.

Lemma utf8_ascii c : Forall (fun b => b < 0x80) (utf8_char c) -> utf8_char c = [c].
Proof.
  unfold utf8_char. destruct (Z.ltb_spec c 0x80); [done|]. intros Hall. exfalso.
  assert (0 <= c / 0x40 /\ 0 <= c / 0x1000 /\ 0 <= c / 0x40000) by (split_and!; apply Z.div_pos; lia).
  destruct (c <? 0x800); [|destruct (c <? 0x10000)]; apply Forall_inv in Hall; lia.
Qed.

Lemma ascii_bytes (p : Z -> bool) s :
  (forall b, p b = true -> b < 0x80) -> forallb p (as_bytes s) = true -> as_bytes s = s.
Proof.
  intros Hp. unfold as_bytes. induction s as [|c s IH]; [done|]. rewrite bind_cons, forallb_app, andb_true_iff.
  intros [Hc Hs]. rewrite (IH Hs), (utf8_ascii c); [done|]. apply Forall_forall. intros b Hb%list_elem_of_In.
  rewrite forallb_forall in Hc. by apply Hp, Hc.
Qed.

Lemma safe_byte b : is_ascii_alphanumeric b || bool_decide (b ∈ [45; 95; 46]) = true <->
  is_ascii_alphanumeric b = true \/ b = 45 \/ b = 95 \/ b = 46.
Proof. rewrite orb_true_iff, bool_decide_eq_true. set_solver. Qed.

Lemma alphanumeric_ascii b : is_ascii_alphanumeric b = true -> b < 0x80.
Proof.
  unfold is_ascii_alphanumeric, is_ascii_alphabetic, is_ascii_upper, is_ascii_lower, is_ascii_digit.
  rewrite !orb_true_iff, !andb_true_iff. lia.
Qed.

Lemma safe_id_exact id : validate_attachment_annotation_id id = Ok tt <-> safe_id id.
Proof.
  assert (Hd : starts_with id [46] = false <-> head id <> Some 46).
  { unfold starts_with. destruct id as [|c id]; [done|]. cbn [strip_prefix head]. destruct (Z.eqb_spec 46 c); naive_solver. }
  unfold validate_attachment_annotation_id, safe_id, bounded.
  match goal with |- (if ?b then _ else _) = _ <-> _ => destruct b eqn:E end.
  - rewrite !andb_true_iff, !negb_true_iff, Hd, bool_decide_eq_false, Z.leb_le in E. destruct E as [[[Hne Hl] Hh] Hall].
    split; [intros _|done]. split_and!; [done|done|done|].
    assert (Hb : as_bytes id = id).
    { eapply ascii_bytes; [|exact Hall]. intros b [Hb|Hb]%safe_byte; [by apply alphanumeric_ascii|lia]. }
    rewrite Hb in Hall.
    apply Forall_forall. intros b Hin%list_elem_of_In. apply safe_byte. by apply (proj1 (forallb_forall _ _) Hall).
  - split; [done|]. intros ([Hne Hl] & Hh & Hall). exfalso. enough (Et : true = false) by done. rewrite <- E. symmetry.
    rewrite !andb_true_iff, !negb_true_iff, Hd, bool_decide_eq_false, Z.leb_le. split_and!; [done..|].
    assert (as_bytes id = id) as ->.
    { apply as_bytes_ascii. eapply Forall_impl; [exact Hall|]. cbn. intros b [Hb|Hb]; [by apply alphanumeric_ascii|lia]. }
    apply forallb_forall. intros b Hb%list_elem_of_In. apply safe_byte. rewrite Forall_forall in Hall. by apply Hall.
Qed.

(** An upload that is accepted: what it must carry. *)
Record upload_ok (annotation_id kind : str) (headers : HeaderMap) (body : option (list Z)) (max_bytes : Z)
    (u : AttachmentUpload) : Prop := {
  uo_id : safe_id annotation_id;
  uo_kind : up_kind u = kind /\ kind ∈ ATTACHMENT_KINDS;
  uo_media_type : attachment_media_type kind headers = Ok (up_media_type u);
  uo_digest : attachment_digest headers = Ok (up_sha256 u) /\ up_sha256 u = sha256_hex (up_bytes u);
  uo_body : body = Some (up_bytes u) /\ up_bytes u <> [] /\ Z.of_nat (length (up_bytes u)) <= max_bytes;
  uo_declared : forall n, header_str headers (lit "content-length") ≫= parse_u64 = Some n -> n <= max_bytes;
}.

(** An attachment is accepted exactly when its id is a safe file name, its kind and media
    type are known, its length is within the limit both as declared and as received, and
    its bytes have the digest the client announced. *)
Theorem read_attachment_exact annotation_id kind headers body max_bytes u :
  read_attachment annotation_id kind headers body max_bytes = Ok u <->
  upload_ok annotation_id kind headers body max_bytes u.
Proof.
  unfold read_attachment. rewrite bind_unit_Ok, safe_id_exact, early_Ok, negb_false_iff, bool_decide_eq_true, result_bind_Ok.
  setoid_rewrite result_bind_Ok. setoid_rewrite early_Ok. split.
  - intros (Hid & Hk & media_type & Hm & expected & He & Hd & E). unfold to_bytes in E.
    destruct body as [bytes|]; [|done]. cbn in E. destruct (Z.leb_spec (Z.of_nat (length bytes)) max_bytes); [|done]. cbn in E.
    rewrite !early_Ok, bool_decide_eq_false, negb_false_iff, bool_decide_eq_true in E.
    destruct E as (Hne & Hs & [= <-]).
    split; cbn [up_kind up_media_type up_sha256 up_bytes]; [done|done|done|by rewrite Hs|done|].
    intros n Hn. rewrite Hn in Hd. cbn in Hd. lia.
  - intros [Hid [Hk Hin] Hm [He Hs] (-> & Hne & Hl) Hd]. split_and!; [done|done|].
    exists (up_media_type u). split; [done|]. exists (up_sha256 u). split; [done|]. split.
    + destruct (header_str headers (lit "content-length") ≫= parse_u64) as [n|]; [|done]. cbn. specialize (Hd n eq_refl). lia.
    + unfold to_bytes. cbn. rewrite (proj2 (Z.leb_le _ _) Hl). cbn.
      rewrite !early_Ok, bool_decide_eq_false, negb_false_iff, bool_decide_eq_true. split_and!; [done|done|].
      destruct u. cbn in *. by subst.
Qed.

End attachments.

(** ** Concrete inputs *)

(** A backend that only notes for whom it was called, and knows one device token. *)
Definition note {A} (user : str) : Call (list str) A := fun s => (Err (Refused (NotFound (lit "nothing here"))), s ++ [user]).

Definition demo_token : LiseurToken :=
  {| tk_context := {| au_user_id := lit "u"; au_is_server_owner := false |}; tk_device_id := lit "d";
     tk_name := lit "reader"; tk_scopes := [lit "sync"]; tk_kind := Device; tk_token_id := None |}.

#[local] Instance demo_backend : LiseurSyncBackend (list str) := {|
  bk_login _ _ := note [];
  bk_authenticate secret := fun s =>
    (if bool_decide (secret = lit "secret") then Ok demo_token else Err (Refused Unauthorized), s);
  bk_mint_token user _ _ _ := note user;
  bk_revoke_token user _ := note user;
  bk_settings user := note user;
  bk_put_settings user _ := note user;
  bk_folders auth _ _ := note (au_user_id auth);
  bk_folder_books auth _ _ _ := note (au_user_id auth);
  bk_folder_search auth _ _ := note (au_user_id auth);
  bk_book auth _ := note (au_user_id auth);
  bk_book_download auth _ := note (au_user_id auth);
  bk_book_cover auth _ := note (au_user_id auth);
  bk_book_series auth _ _ := note (au_user_id auth);
  bk_set_series_name auth _ _ _ := note (au_user_id auth);
  bk_clear_series_name auth _ _ := note (au_user_id auth);
  bk_resolve_catalog_book auth _ _ := note (au_user_id auth);
  bk_resolve_work user _ := note user;
  bk_append_ops user _ _ := note user;
  bk_changes user _ _ := note user;
  bk_heads user := note user;
  bk_positions user _ _ := note user;
  bk_append_sessions user _ _ := note user;
  bk_append_annotations user _ annotations := fun s =>
    (Ok ((fun a => {| an_id := ai_id a; an_status := lit "applied"; an_rev := Some 1; an_seq := Some 1; an_reason := None;
                      an_server := None |}) <$> annotations), s ++ [user]);
  bk_annotation_changes user _ _ := note user;
  bk_work_annotations_with_deleted user _ _ := note user;
  bk_delete_annotation user _ _ := note user;
  bk_attachment_max_bytes := DEFAULT_ATTACHMENT_MAX_BYTES;
  bk_put_attachment user _ _ := note user;
  bk_attachments user _ := note user;
|}.

(** Every timestamp is the epoch; every value prints as nothing. *)
#[local] Instance demo_chrono : Chrono :=
  {| parse_from_rfc3339 _ := Some 0; to_rfc3339_micros _ := []; to_rfc3339_nanos _ := []; max_utc := 0 |}.

Definition demo_annotation : AnnotationInput :=
  {| ai_id := lit "a"; ai_base_rev := 0; ai_work_id := lit "w"; ai_edition_sha := None; ai_kind := lit "note";
     ai_locator := None; ai_progression := None; ai_excerpt := []; ai_color := None; ai_drawer := None;
     ai_body := lit "text"; ai_client_ts := [] |}.

#[local] Instance demo_wire : Wire :=
  {| json_text _ := Some [];
     annotation_of_value v := match v with JNull => None | _ => Some demo_annotation end |}.

#[local] Instance demo_sha : Sha256 := {| sha256_hex _ := [] |}.
#[local] Instance demo_debug : DebugText := {| debug_str s := s |}.
#[local] Instance demo_http : Http := {| header_value_ok _ := true; serve_file_error _ _ := None |}.

(** What was noted before stays, and what is added is for the user. *)
Definition noted_for (user : str) (s s' : list str) : Prop := exists l, s' = s ++ l /\ Forall (eq user) l.

Lemma noted_for_order user : PreOrder (noted_for user).
Proof.
  split.
  - intros s. exists []. by rewrite app_nil_r.
  - intros s1 s2 s3 (l & -> & Hl) (l' & -> & Hl'). exists (l ++ l'). rewrite app_assoc. split; [done|]. by apply Forall_app.
Qed.

Lemma demo_respects : backend_respects noted_for.
Proof. split; [apply noted_for_order|..]; intros; intros s; (eexists; split; [reflexivity|by repeat constructor]). Qed.

Lemma serve_authorized_witness :
  backend_respects noted_for /\ bearer [(lit "authorization", lit "Bearer secret")] = Some (lit "secret") /\
  exists response,
    serve 0 {| uri_scheme := None |} [(lit "authorization", lit "Bearer secret")] (SetSeriesName [] [] []) [] =
      (Some response, []) /\ 400 <= rs_status response.
Proof.
  split; [exact demo_respects|]. split; [by vm_compute|].
  pose proof (serve_authorized noted_for 0 {| uri_scheme := None |} [(lit "authorization", lit "Bearer secret")]
    (SetSeriesName [] [] []) [] demo_respects) as Hserve.
  change (bearer [(lit "authorization", lit "Bearer secret")]) with (Some (lit "secret")) in Hserve. cbn iota in Hserve.
  change (bk_authenticate (lit "secret") []) with (Ok (E := Stop) demo_token, @nil str) in Hserve. cbn iota in Hserve.
  destruct Hserve as [_ Hrefused]. apply Hrefused. intros [_ Hs]. revert Hs. cbn [tk_scopes demo_token].
  rewrite !list_elem_of_singleton. by intros [?|?].
Defined.

(** A malformed annotation between two good ones. *)
Lemma push_annotations_exact_witness :
  grants demo_token "sync" /\
  exists results,
    push_annotations 0 (tk_context demo_token) demo_token [] (Ok [JBool true; JNull; JBool true]) [] =
      (Ok (ok (BAnnotations results)), [lit "u"]) /\
    an_status <$> results = [lit "applied"; lit "invalid"; lit "applied"].
Proof.
  assert (Hg : grants demo_token "sync") by (split; [done|left; by apply list_elem_of_singleton]).
  split; [exact Hg|].
  pose proof (push_annotations_exact 0 demo_token [] [JBool true; JNull; JBool true] [] Hg ltac:(cbn; lia)) as Hp.
  eexists. split; [etrans; [exact Hp|vm_compute; reflexivity]|reflexivity].
Defined.
