(* ===== verification/LiseurStore.v ===== *)
(** * The storage behind liseur-sync: database, tokens and settings

    Models the first part of [src/apps/server/src/routers/liseur_sync/storage.rs]: the
    bearer tokens ([login], [mint_token], [revoke_token], [authenticate]) and the settings
    of an account ([settings], [put_settings]), with the tables the whole backend shares.

    A statement may fail, as the next fault says; what runs in a transaction is undone
    when it fails.  The reading-state service keeps its own tables in the same database
    and shares the faults.  Rows decode as they were written.  The random identifiers and
    the clock are arguments, one reading of the clock per call; the device registry, which
    keeps tables of its own, is represented by what it is told. *)

From stdpp Require Import base gmap list strings sorting.
From Stdlib Require Import ZArith Lia.
From S2P Require Import Prelude Float64 ReadingState ReadingService LiseurSync.

#[local] Open Scope Z_scope.
#[local] Open Scope coppice_scope.

(** The text of a database error, and the passwords of [crate::utils]. *)
Class Host := {
  db_error : str;
  verify_password : str -> str -> result bool str;
}.

(** ** Tables *)

Record UserRow := {
  us_id : str;
  us_username : str;
  us_hashed_password : str;
  us_is_locked : bool;
  us_is_server_owner : bool;
  us_deleted : bool;
}.

Record TokenRow := {
  to_id : str;
  to_user_id : str;
  to_device_id : str;
  to_secret_hash : str;
  to_scopes : list str;
  to_created_at : str;
  to_expires_at : str;
  to_revoked_at : option str;
  to_last_used_at : option str;
  to_name : option str;
  to_token_kind : option str;
}.

Record LinkRow := {
  lk_id : str;
  lk_user_id : str;
  lk_media_id : str;
  lk_work_id : str;
  lk_edition_sha : str;
  lk_created_at : str;
}.

Record OpRow := {
  ow_user_id : str;
  ow_seq : Z;
  ow_op_id : str;
  ow_work_id : str;
  ow_edition_sha : option str;
  ow_device_id : str;
  ow_client_ts : str;
  ow_progression : f64;
  ow_locator : option str;
  ow_foreign_pos : option str;
  ow_origin : str;
  ow_received_at : str;
}.

Record Counter := { ct_op_seq : Z; ct_annotation_seq : Z; ct_projected_annotation_seq : Z }.

Record AnnotationRow := {
  aw_user_id : str;
  aw_id : str;
  aw_rev : Z;
  aw_seq : Z;
  aw_work_id : str;
  aw_edition_sha : option str;
  aw_kind : str;
  aw_locator : option str;
  aw_progression : option f64;
  aw_excerpt : str;
  aw_color : str;
  aw_drawer : option str;
  aw_body : str;
  aw_device_id : str;
  aw_origin_device_id : str;
  aw_client_ts : str;
  aw_updated_at : str;
  aw_deleted : bool;
  aw_deleted_at : option str;
  aw_payload : str;
}.

Record AttachmentRow := {
  ac_id : str;
  ac_user_id : str;
  ac_annotation_id : str;
  ac_kind : str;
  ac_media_type : str;
  ac_byte_size : Z;
  ac_sha256 : str;
  ac_storage_path : str;
  ac_created_at : str;
}.

(** A sighting of a device by its token, with the counts of a push of operations. *)
Record PushSummary := { pm_ops : nat; pm_applied : nat; pm_duplicate : nat; pm_conflict : nat }.

Section store.
Context `{DecimalOps}.

(** [media_annotations] and [bookmarks]. *)
Record NativeRow := {
  nt_id : str;
  nt_locator : ReadiumLocator;
  nt_position_ms : option Z;
  nt_annotation_text : option str;
  nt_color : option str;
  nt_media_id : str;
  nt_user_id : str;
  nt_created_at : Z;
  nt_updated_at : Z;
}.

Record BookmarkRow := {
  bm_id : str;
  bm_preview_content : option str;
  bm_locator : option ReadiumLocator;
  bm_page : option Z;
  bm_position_ms : option Z;
  bm_media_id : str;
  bm_user_id : str;
  bm_created_at : Z;
}.

(** The annotations of the clients and of Stump itself, and the files that hang off them. *)
Record Marks := {
  mk_annotations : list AnnotationRow;
  mk_native : list NativeRow;
  mk_bookmarks : list BookmarkRow;
  mk_attachments : list AttachmentRow;
}.

(** The tables; the books with audio tracks and the books each account may read, which
    other parts of the server decide; the files of the attachments; and, in the memory of
    the process, where the sweep of each account resumes. *)
Record Store := {
  st_reading : Db;
  st_users : list UserRow;
  st_tokens : list TokenRow;
  st_media : gmap str Z;
  st_works : gset (str * str);
  st_links : list LinkRow;
  st_counters : gmap str Counter;
  st_ops : list OpRow;
  st_settings : gmap (str * str) SettingValue;
  st_sightings : list (str * option PushSummary);
  st_audio : gset str;
  st_readable : gset (str * str);
  st_marks : Marks;
  st_files : gmap str (list Z);
  st_sweeps : gmap str str;
}.

Definition set_reading (s : Store) (reading : Db) : Store :=
  {| st_reading := reading; st_users := st_users s; st_tokens := st_tokens s; st_media := st_media s;
     st_works := st_works s; st_links := st_links s; st_counters := st_counters s; st_ops := st_ops s;
     st_settings := st_settings s; st_sightings := st_sightings s;
     st_audio := st_audio s; st_readable := st_readable s; st_marks := st_marks s; st_files := st_files s;
     st_sweeps := st_sweeps s |}.

Definition set_tokens (s : Store) (tokens : list TokenRow) : Store :=
  {| st_reading := st_reading s; st_users := st_users s; st_tokens := tokens; st_media := st_media s;
     st_works := st_works s; st_links := st_links s; st_counters := st_counters s; st_ops := st_ops s;
     st_settings := st_settings s; st_sightings := st_sightings s;
     st_audio := st_audio s; st_readable := st_readable s; st_marks := st_marks s; st_files := st_files s;
     st_sweeps := st_sweeps s |}.

Definition set_counters (s : Store) (counters : gmap str Counter) : Store :=
  {| st_reading := st_reading s; st_users := st_users s; st_tokens := st_tokens s; st_media := st_media s;
     st_works := st_works s; st_links := st_links s; st_counters := counters; st_ops := st_ops s;
     st_settings := st_settings s; st_sightings := st_sightings s;
     st_audio := st_audio s; st_readable := st_readable s; st_marks := st_marks s; st_files := st_files s;
     st_sweeps := st_sweeps s |}.

Definition set_ops (s : Store) (ops : list OpRow) : Store :=
  {| st_reading := st_reading s; st_users := st_users s; st_tokens := st_tokens s; st_media := st_media s;
     st_works := st_works s; st_links := st_links s; st_counters := st_counters s; st_ops := ops;
     st_settings := st_settings s; st_sightings := st_sightings s;
     st_audio := st_audio s; st_readable := st_readable s; st_marks := st_marks s; st_files := st_files s;
     st_sweeps := st_sweeps s |}.

Definition set_works (s : Store) (works : gset (str * str)) : Store :=
  {| st_reading := st_reading s; st_users := st_users s; st_tokens := st_tokens s; st_media := st_media s;
     st_works := works; st_links := st_links s; st_counters := st_counters s; st_ops := st_ops s;
     st_settings := st_settings s; st_sightings := st_sightings s;
     st_audio := st_audio s; st_readable := st_readable s; st_marks := st_marks s; st_files := st_files s;
     st_sweeps := st_sweeps s |}.

Definition set_links (s : Store) (links : list LinkRow) : Store :=
  {| st_reading := st_reading s; st_users := st_users s; st_tokens := st_tokens s; st_media := st_media s;
     st_works := st_works s; st_links := links; st_counters := st_counters s; st_ops := st_ops s;
     st_settings := st_settings s; st_sightings := st_sightings s;
     st_audio := st_audio s; st_readable := st_readable s; st_marks := st_marks s; st_files := st_files s;
     st_sweeps := st_sweeps s |}.

Definition set_settings (s : Store) (settings : gmap (str * str) SettingValue) : Store :=
  {| st_reading := st_reading s; st_users := st_users s; st_tokens := st_tokens s; st_media := st_media s;
     st_works := st_works s; st_links := st_links s; st_counters := st_counters s; st_ops := st_ops s;
     st_settings := settings; st_sightings := st_sightings s;
     st_audio := st_audio s; st_readable := st_readable s; st_marks := st_marks s; st_files := st_files s;
     st_sweeps := st_sweeps s |}.

Definition set_sightings (s : Store) (sightings : list (str * option PushSummary)) : Store :=
  {| st_reading := st_reading s; st_users := st_users s; st_tokens := st_tokens s; st_media := st_media s;
     st_works := st_works s; st_links := st_links s; st_counters := st_counters s; st_ops := st_ops s;
     st_settings := st_settings s; st_sightings := sightings;
     st_audio := st_audio s; st_readable := st_readable s; st_marks := st_marks s; st_files := st_files s;
     st_sweeps := st_sweeps s |}.

Definition set_marks (s : Store) (marks : Marks) : Store :=
  {| st_reading := st_reading s; st_users := st_users s; st_tokens := st_tokens s; st_media := st_media s;
     st_works := st_works s; st_links := st_links s; st_counters := st_counters s; st_ops := st_ops s;
     st_settings := st_settings s; st_sightings := st_sightings s;
     st_audio := st_audio s; st_readable := st_readable s; st_marks := marks; st_files := st_files s;
     st_sweeps := st_sweeps s |}.

Definition set_files (s : Store) (files : gmap str (list Z)) : Store :=
  {| st_reading := st_reading s; st_users := st_users s; st_tokens := st_tokens s; st_media := st_media s;
     st_works := st_works s; st_links := st_links s; st_counters := st_counters s; st_ops := st_ops s;
     st_settings := st_settings s; st_sightings := st_sightings s;
     st_audio := st_audio s; st_readable := st_readable s; st_marks := st_marks s; st_files := files;
     st_sweeps := st_sweeps s |}.

Definition set_sweeps (s : Store) (sweeps : gmap str str) : Store :=
  {| st_reading := st_reading s; st_users := st_users s; st_tokens := st_tokens s; st_media := st_media s;
     st_works := st_works s; st_links := st_links s; st_counters := st_counters s; st_ops := st_ops s;
     st_settings := st_settings s; st_sightings := st_sightings s;
     st_audio := st_audio s; st_readable := st_readable s; st_marks := st_marks s; st_files := st_files s;
     st_sweeps := sweeps |}.

Definition faults (s : Store) : list bool := db_faults (st_reading s).

Definition set_faults (s : Store) (fs : list bool) : Store :=
  set_reading s {| db_heads := db_heads (st_reading s); db_events := db_events (st_reading s);
                   db_next_id := db_next_id (st_reading s); db_faults := fs |}.

(** ** Statements and transactions *)

Context `{Host}.

Definition Sql (A : Type) : Type := Call Store A.

Definition internal : Stop := Refused (Internal db_error).

Definition execute {A} (run : Sql A) : Sql A := fun s =>
  match faults s with
  | [] => run s
  | fault :: fs => if (fault : bool) then (Err internal, set_faults s fs) else run (set_faults s fs)
  end.

Definition query {A} (run : Store -> A) : Sql A := execute (fun s => (Ok (run s), s)).

(** Rolling back: the tables are as they were, the memory of the process is not. *)
Definition rolled_back (s s' : Store) : Store := set_sweeps (set_faults s (faults s')) (st_sweeps s').

(** [begin_write], the body, [commit]; an error on the way rolls back. *)
Definition transaction {A} (body : Sql A) : Sql A := fun s =>
  match (_ <-- execute (db_ret tt) ;; a <-- body ;; _ <-- execute (db_ret tt) ;; db_ret a) s with
  | (Ok a, s') => (Ok a, s')
  | (Err e, s') => (Err e, rolled_back s s')
  end.

(** A call of the reading-state service within the same database. *)
Definition reading {A} (c : DB A) : Sql A := fun s =>
  match c (st_reading s) with
  | (Ok a, db) => (Ok a, set_reading s db)
  | (Err DbErr, db) => (Err internal, set_reading s db)
  | (Err ReadingService.Panicked, db) => (Err Panicked, set_reading s db)
  end.

(** ** Tokens *)

Context `{Chrono} `{Sha256}.

Definition TOKEN_TTL_SECS : Z := 60 * 60.
Definition DEVICE_TOKEN_TTL_SECS : Z := 10 * 365 * 24 * 60 * 60.

Definition new_secret (uuid : str) : str := lit "liseur-" ++ uuid.

Definition hash_secret (secret : str) : str := sha256_hex (as_bytes secret).

(** [INSERT INTO liseur_sync_tokens]: the hash of a secret is unique. *)
Definition insert_token (row : TokenRow) : Sql unit := execute (fun s =>
  if existsb (fun t => bool_decide (to_secret_hash t = to_secret_hash row)) (st_tokens s)
  then (Err internal, s) else (Ok tt, set_tokens s (st_tokens s ++ [row]))).

Definition login (now : Z) (token_id device_id secret_uuid username password : str) : Sql LoginResult :=
  user <-- query (fun s => List.find (fun u => bool_decide (us_username u = username) && negb (us_deleted u)) (st_users s)) ;;
  match user with
  | None => db_err (Refused Unauthorized)
  | Some user =>
      password_matches <-- lift (match verify_password (us_hashed_password user) password with
                                 | Ok b => Ok b | Err e => Err (Internal e) end) ;;
      if negb password_matches then db_err (Refused Unauthorized)
      else if us_is_locked user then db_err (Refused (Forbidden (lit "account is locked")))
      else
        let secret := new_secret secret_uuid in
        _ <-- insert_token
          {| to_id := token_id; to_user_id := us_id user; to_device_id := device_id;
             to_secret_hash := hash_secret secret; to_scopes := []; to_created_at := to_rfc3339_nanos now;
             to_expires_at := to_rfc3339_nanos (now + seconds TOKEN_TTL_SECS); to_revoked_at := None;
             to_last_used_at := None; to_name := Some (lit "login"); to_token_kind := Some (lit "session") |} ;;
        db_ret {| lg_auth_token := secret; lg_expires_in := TOKEN_TTL_SECS |}
  end.

(** [Utc::now() + Duration::seconds(n)]: both panic when the result cannot be represented. *)
Definition after_seconds (now n : Z) : option Z :=
  then_some ((n <=? i64_max / 1000) && (now + seconds n <=? max_utc)) (now + seconds n).

Definition mint_token (now : Z) (token_id device_id secret_uuid user_id name : str) (scopes : list str)
    (expires_in_seconds : option Z) : Sql TokenCreateResult :=
  let secret := new_secret secret_uuid in
  expires_at <--
    match expires_in_seconds ≫= (fun n => then_some (0 <? n) n) with
    | None => db_ret None
    | Some n =>
        match after_seconds now n with
        | Some at_ => db_ret (Some (to_rfc3339_nanos at_))
        | None => db_err Panicked
        end
    end ;;
  let stored_expires_at := default (to_rfc3339_nanos (now + seconds DEVICE_TOKEN_TTL_SECS)) expires_at in
  _ <-- insert_token
    {| to_id := token_id; to_user_id := user_id; to_device_id := device_id; to_secret_hash := hash_secret secret;
       to_scopes := scopes; to_created_at := to_rfc3339_nanos now; to_expires_at := stored_expires_at;
       to_revoked_at := None; to_last_used_at := None; to_name := Some name; to_token_kind := Some (lit "device") |} ;;
  db_ret {| tc_token_id := token_id; tc_device_id := device_id; tc_name := name;
            tc_scope := match scopes with [scope] => Some scope | _ => None end;
            tc_scopes := scopes; tc_secret := secret; tc_expires_at := expires_at |}.

Definition revoked (at_ : str) (t : TokenRow) : TokenRow :=
  {| to_id := to_id t; to_user_id := to_user_id t; to_device_id := to_device_id t; to_secret_hash := to_secret_hash t;
     to_scopes := to_scopes t; to_created_at := to_created_at t; to_expires_at := to_expires_at t;
     to_revoked_at := Some at_; to_last_used_at := to_last_used_at t; to_name := to_name t;
     to_token_kind := to_token_kind t |}.

(** The rows the update of [revoke_token] selects. *)
Definition revocable (user_id token_id : str) (t : TokenRow) : bool :=
  bool_decide (to_id t = token_id) && bool_decide (to_user_id t = user_id) &&
  bool_decide (to_token_kind t = Some (lit "device")) && is_none (to_revoked_at t).

Definition revoke_token (now : Z) (user_id token_id : str) : Sql unit :=
  rows_affected <-- execute (fun s =>
    (Ok (length (List.filter (revocable user_id token_id) (st_tokens s))),
     set_tokens s ((fun t => if revocable user_id token_id t then revoked (to_rfc3339_nanos now) t else t) <$> st_tokens s))) ;;
  if (rows_affected =? 0)%nat then db_err (Refused (NotFound (lit "token not found"))) else db_ret tt.

Definition used (at_ : str) (t : TokenRow) : TokenRow :=
  {| to_id := to_id t; to_user_id := to_user_id t; to_device_id := to_device_id t; to_secret_hash := to_secret_hash t;
     to_scopes := to_scopes t; to_created_at := to_created_at t; to_expires_at := to_expires_at t;
     to_revoked_at := to_revoked_at t; to_last_used_at := Some at_; to_name := to_name t;
     to_token_kind := to_token_kind t |}.

(** A statement whose failure is only logged. *)
Definition ignoring (c : Sql unit) : Sql unit := fun s =>
  match c s with
  | (Err Panicked, s') => (Err Panicked, s')
  | (_, s') => (Ok tt, s')
  end.

(** The device registry is told of a sighting; its failure is an error here. *)
Definition bind_device (token_id : str) : Sql unit := execute (fun s =>
  (Ok tt, set_sightings s (st_sightings s ++ [(token_id, None)]))).

Definition authenticate (now : Z) (token : str) : Sql LiseurToken :=
  row <-- query (fun s => List.find (fun t => bool_decide (to_secret_hash t = hash_secret token) && is_none (to_revoked_at t))
                            (st_tokens s)) ;;
  match row with
  | None => db_err (Refused Unauthorized)
  | Some row =>
      match parse_from_rfc3339 (to_expires_at row) with
      | None => db_err internal
      | Some expires_at =>
          if expires_at <=? now then db_err (Refused Unauthorized)
          else
            user <-- query (fun s => List.find (fun u => bool_decide (us_id u = to_user_id row) && negb (us_deleted u)) (st_users s)) ;;
            match user with
            | None => db_err (Refused Unauthorized)
            | Some user =>
                if us_is_locked user then db_err (Refused (Forbidden (lit "account is locked")))
                else
                  _ <-- ignoring (execute (fun s =>
                    (Ok tt, set_tokens s ((fun t => if bool_decide (to_id t = to_id row) then used (to_rfc3339_nanos now) t else t) <$> st_tokens s)))) ;;
                  _ <-- bind_device (to_id row) ;;
                  let kind := if bool_decide (to_token_kind row = Some (lit "session")) then LoginSession else LiseurSync.Device in
                  db_ret {| tk_context := {| au_user_id := us_id user; au_is_server_owner := us_is_server_owner user |};
                            tk_device_id := to_device_id row;
                            tk_name := default (if bool_decide (kind = LoginSession) then lit "login" else lit "liseur-sync") (to_name row);
                            tk_scopes := to_scopes row; tk_kind := kind; tk_token_id := Some (to_id row) |}
            end
      end
  end.

(** ** Settings *)

Definition ensure_counter (user_id : str) : Sql unit := execute (fun s =>
  (Ok tt,
   match st_counters s !! user_id with
   | Some _ => s
   | None => set_counters s (<[user_id := {| ct_op_seq := 0; ct_annotation_seq := 0; ct_projected_annotation_seq := 0 |}]> (st_counters s))
   end)).

Definition settings_of (user_id : str) (s : Store) : gmap str SettingValue :=
  list_to_map ((fun kv : (str * str) * SettingValue => (kv.1.2, kv.2)) <$>
    filter (fun kv => kv.1.1 = user_id) (map_to_list (st_settings s))).

Definition settings (user_id : str) : Sql (gmap str SettingValue) := query (settings_of user_id).

(** [excluded.updated_at > liseur_sync_settings.updated_at], a comparison of texts. *)
Definition later (a b : str) : bool := negb (str_le a b).

Definition upsert_setting (user_id : str) (u : SettingUpdate) : Sql unit := execute (fun s =>
  let value := {| sv_value := su_value u; sv_updated_at := su_updated_at u |} in
  (Ok tt,
   match st_settings s !! (user_id, su_key u) with
   | Some old =>
       if later (su_updated_at u) (sv_updated_at old)
       then set_settings s (<[(user_id, su_key u) := value]> (st_settings s)) else s
   | None => set_settings s (<[(user_id, su_key u) := value]> (st_settings s))
   end)).

Fixpoint upsert_settings (user_id : str) (updates : list SettingUpdate) : Sql unit :=
  match updates with
  | [] => db_ret tt
  | u :: updates => _ <-- upsert_setting user_id u ;; upsert_settings user_id updates
  end.

Definition put_settings (user_id : str) (updates : list SettingUpdate) : Sql unit :=
  if bool_decide (length updates = 0%nat) then db_err (Refused (BadRequest (lit "no settings provided")))
  else if (MAX_SETTINGS_PER_ACCOUNT <? length updates)%nat
  then db_err (Refused (BadRequest (lit "too many settings in one request")))
  else
    let updates := merge_sort setting_before updates in
    transaction (
      _ <-- ensure_counter user_id ;;
      _ <-- execute (db_ret tt) ;;
      existing <-- query (fun s => dom (settings_of user_id s)) ;;
      let new_keys : gset str := list_to_set (su_key <$> updates) ∖ existing in
      if (MAX_SETTINGS_PER_ACCOUNT <? size existing + size new_keys)%nat
      then db_err (Refused (Conflict (lit "too many settings for this account")))
      else upsert_settings user_id updates).

End store.

(** ** Statements, transactions and relations they keep *)

Section statements.
Context `{DecimalOps} `{Host}.

Lemma set_faults_id s : set_faults s (faults s) = s.
Proof. destruct s as [[]]. done. Qed.

Lemma faults_set_faults s fs : faults (set_faults s fs) = fs.
Proof. done. Qed.

Lemma set_faults_twice s fs fs' : set_faults (set_faults s fs) fs' = set_faults s fs'.
Proof. done. Qed.

Lemma execute_cases {A} (run : Sql A) s r s' :
  execute run s = (r, s') ->
  exists fs, (r = Err internal /\ s' = set_faults s fs) \/ run (set_faults s fs) = (r, s').
Proof.
  unfold execute. destruct (faults s) as [|[] fs] eqn:E.
  - intros Hr. exists []. right. by rewrite <- E, set_faults_id.
  - intros [= <- <-]. exists fs. by left.
  - intros Hr. exists fs. by right.
Qed.

Lemma query_cases {A} (run : Store -> A) s r s' :
  query run s = (r, s') ->
  exists fs, s' = set_faults s fs /\ (r = Err internal \/ r = Ok (run (set_faults s fs))).
Proof. intros (fs & [[-> ->]|[= <- <-]])%execute_cases; exists fs; auto. Qed.

(** A relation the faults and the memory of the process do not matter to. *)
Class FaultFree (R : Store -> Store -> Prop) : Prop := {
  ff_order :: PreOrder R;
  ff_faults s fs : R s (set_faults s fs);
  ff_sweeps s sweeps : R s (set_sweeps s sweeps);
}.

Lemma acts_rolled_back R s s' : FaultFree R -> R s (rolled_back s s').
Proof. intros HR. unfold rolled_back. etrans; [apply (ff_faults s)|apply ff_sweeps]. Qed.

Lemma acts_execute {A} R (run : Sql A) : FaultFree R -> acts R run -> acts R (execute run).
Proof.
  intros HR Hrun s. destruct (execute run s) as [r s'] eqn:E. apply execute_cases in E as (fs & [[_ ->]|E]); cbn.
  - apply ff_faults.
  - etrans; [apply (ff_faults s fs)|]. pose proof (Hrun (set_faults s fs)) as Hs. by rewrite E in Hs.
Qed.

Lemma acts_query {A} R (run : Store -> A) : FaultFree R -> acts R (query run).
Proof. intros HR. apply acts_execute; [done|]. intros s. cbn. reflexivity. Qed.

Lemma acts_err {A} (R : Store -> Store -> Prop) e : PreOrder R -> acts (A := A) R (db_err e).
Proof. by intros HR s. Qed.

Lemma acts_transaction {A} R (body : Sql A) : FaultFree R -> acts R body -> acts R (transaction body).
Proof.
  intros HR Hbody s. unfold transaction. destruct (db_bind _ _ s) as [[a|e] s'] eqn:E; cbn; [|by apply acts_rolled_back].
  assert (Hall : acts R (_ <-- execute (db_ret tt) ;; a <-- body ;; _ <-- execute (db_ret tt) ;; db_ret a)).
  { apply acts_bind; [apply HR|apply acts_execute; [done|apply acts_ret; apply HR]|intros _].
    apply acts_bind; [apply HR|done|intros x]. apply acts_bind; [apply HR|apply acts_execute; [done|apply acts_ret; apply HR]|intros _].
    apply acts_ret. apply HR. }
  pose proof (Hall s) as Hs. by rewrite E in Hs.
Qed.

(** A transaction that fails leaves the tables alone. *)
Lemma transaction_failed {A} (body : Sql A) s e s' :
  transaction body s = (Err e, s') -> exists fs sweeps, s' = set_sweeps (set_faults s fs) sweeps.
Proof. unfold transaction. destruct (db_bind _ _ s) as [[a|e'] s1]; [done|]. intros [= _ <-]. eauto. Qed.

(** A transaction that succeeds is its body, with some faults consumed around it. *)
Lemma transaction_done {A} (body : Sql A) s a s' :
  transaction body s = (Ok a, s') ->
  exists fs s1 fs', body (set_faults s fs) = (Ok a, s1) /\ s' = set_faults s1 fs'.
Proof.
  unfold transaction. destruct (db_bind _ _ s) as [[a'|e'] s2] eqn:E; [|done]. intros [= -> ->].
  apply db_bind_cases in E as [(e & _ & [=])|([] & s1 & E1 & E)].
  apply execute_cases in E1 as (fs & [[[=] _]|[= <-]]).
  apply db_bind_cases in E as [(e & _ & [=])|(x & s3 & Eb & E)].
  apply db_bind_cases in E as [(e & _ & [=])|([] & s4 & E4 & [= -> <-])].
  apply execute_cases in E4 as (fs' & [[[=] _]|[= <-]]). eauto 10.
Qed.

End statements.

(** Steps through a call of the backend: the calls that need no table. *)
Ltac storing :=
  repeat match goal with
    | |- acts _ (db_ret _) => apply acts_ret; apply _
    | |- acts _ (db_err _) => apply acts_err; apply _
    | |- acts _ (lift _) => apply acts_lift; apply _
    | |- acts _ (query _) => apply acts_query; apply _
    | |- acts _ (db_bind _ _) => apply acts_bind; [apply _| |intros ?]
    | |- acts _ (match ?x with _ => _ end) => destruct x
    end.

(** ** Tokens *)

Section tokens.
Context `{DecimalOps} `{Host} `{Chrono} `{Sha256}.

(** A row may become used, and it may become revoked; nothing else of it changes. *)
Record same_token (t t' : TokenRow) : Prop := {
  sm_id : to_id t' = to_id t;
  sm_user : to_user_id t' = to_user_id t;
  sm_device : to_device_id t' = to_device_id t;
  sm_hash : to_secret_hash t' = to_secret_hash t;
  sm_scopes : to_scopes t' = to_scopes t;
  sm_expires : to_expires_at t' = to_expires_at t;
  sm_kind : to_token_kind t' = to_token_kind t;
  sm_revoked : to_revoked_at t <> None -> to_revoked_at t' <> None;
}.

#[local] Instance same_token_order : PreOrder same_token.
Proof. split; [by intros t; split|]. intros a b c [] []. split; try congruence. auto. Qed.

Record tokens_evolve (s s' : Store) : Prop := {
  te_rows : exists old extra, st_tokens s' = old ++ extra /\ Forall2 same_token (st_tokens s) old;
  te_unique : NoDup (to_secret_hash <$> st_tokens s) -> NoDup (to_secret_hash <$> st_tokens s');
}.

Lemma tokens_evolve_same s s' : st_tokens s' = st_tokens s -> tokens_evolve s s'.
Proof. intros E. split; [|by rewrite E]. exists (st_tokens s), []. rewrite app_nil_r. split; [done|]. by apply Forall_Forall2_diag, Forall_true. Qed.

#[export] Instance tokens_evolve_free : FaultFree tokens_evolve.
Proof.
  split; [split| |].
  - intros s. by apply tokens_evolve_same.
  - intros s1 s2 s3 [(o1 & x1 & E1 & F1) U1] [(o2 & x2 & E2 & F2) U2]. split; [|auto].
    rewrite E1 in F2. apply Forall2_app_inv_l in F2 as (o2a & o2b & F2a & F2b & ->).
    exists o2a, (o2b ++ x2). rewrite E2, <- app_assoc. split; [done|].
    clear -F1 F2a. revert o2a F2a. induction F1 as [|a b l1 l2 Hab _ IH]; intros o2a Hf.
    + by apply Forall2_nil_inv_l in Hf as ->.
    + apply Forall2_cons_inv_l in Hf as (c & l3 & Hbc & Hf & ->). constructor; [by etrans|by apply IH].
  - intros s fs. by apply tokens_evolve_same.
  - intros s m. by apply tokens_evolve_same.
Qed.

Lemma map_evolves (f : TokenRow -> TokenRow) s :
  (forall t, same_token t (f t)) -> tokens_evolve s (set_tokens s (f <$> st_tokens s)).
Proof.
  intros Hf. split; cbn.
  - exists (f <$> st_tokens s), []. rewrite app_nil_r. split; [done|]. apply Forall2_fmap_r, Forall_Forall2_diag, Forall_true. auto.
  - rewrite <- list_fmap_compose. erewrite (list_fmap_ext (to_secret_hash ∘ f)); [done|]. intros i t _. apply Hf.
Qed.

Lemma insert_token_evolves row : acts tokens_evolve (insert_token row).
Proof.
  apply acts_execute; [apply _|]. intros s. destruct (existsb _ _) eqn:E; cbn; [by apply tokens_evolve_same|]. split; cbn.
  - exists (st_tokens s), [row]. split; [done|]. by apply Forall_Forall2_diag, Forall_true.
  - rewrite fmap_app. intros Hnd. apply NoDup_app. split_and!; [done| |apply NoDup_singleton].
    intros h (t & -> & Ht)%list_elem_of_fmap Hh%list_elem_of_singleton.
    apply (not_true_iff_false (existsb _ _)) in E. apply E, existsb_exists. exists t.
    split; [by apply list_elem_of_In|by apply bool_decide_eq_true].
Qed.

Lemma revoke_token_evolves now user_id token_id : acts tokens_evolve (revoke_token now user_id token_id).
Proof.
  unfold revoke_token. storing. apply acts_execute; [apply _|]. intros s. cbn. apply map_evolves.
  intros t. destruct (revocable user_id token_id t); [by split|reflexivity].
Qed.

Lemma ignoring_acts R (c : Sql unit) : acts R c -> acts R (ignoring c).
Proof. intros Hc s. unfold ignoring. pose proof (Hc s) as Hs. by destruct (c s) as [[|[]] s']. Qed.

Lemma bind_device_acts R token_id : FaultFree R -> (forall s l, R s (set_sightings s l)) -> acts R (bind_device token_id).
Proof. intros HR Hs. apply acts_execute; [done|]. intros s. apply Hs. Qed.

Lemma authenticate_evolves now token : acts tokens_evolve (authenticate now token).
Proof.
  unfold authenticate. storing.
  - apply ignoring_acts, acts_execute; [apply _|]. intros s. cbn. apply map_evolves. intros row.
    case_bool_decide; [by split|reflexivity].
  - apply bind_device_acts; [apply _|]. intros s l. by apply tokens_evolve_same.
Qed.

Lemma login_evolves now token_id device_id uuid username password :
  acts tokens_evolve (login now token_id device_id uuid username password).
Proof. unfold login. storing. apply insert_token_evolves. Qed.

Lemma mint_token_evolves now token_id device_id uuid user_id name scopes expiry :
  acts tokens_evolve (mint_token now token_id device_id uuid user_id name scopes expiry).
Proof. unfold mint_token. storing; apply insert_token_evolves. Qed.

(** Every sequence of token calls, of changes to the accounts, and of anything that
    leaves the tokens alone. *)
Inductive token_step : Store -> Store -> Prop :=
| ts_login s now token_id device_id uuid username password :
    token_step s (login now token_id device_id uuid username password s).2
| ts_mint s now token_id device_id uuid user_id name scopes expiry :
    token_step s (mint_token now token_id device_id uuid user_id name scopes expiry s).2
| ts_revoke s now user_id token_id : token_step s (revoke_token now user_id token_id s).2
| ts_authenticate s now token : token_step s (authenticate now token s).2
| ts_other s s' : st_tokens s' = st_tokens s -> token_step s s'.

Lemma token_step_evolves s s' : token_step s s' -> tokens_evolve s s'.
Proof.
  destruct 1.
  - apply login_evolves.
  - apply mint_token_evolves.
  - apply revoke_token_evolves.
  - apply authenticate_evolves.
  - by apply tokens_evolve_same.
Qed.

(** What a successful authentication found. *)
Lemma authenticate_found now token s tk s' :
  authenticate now token s = (Ok tk, s') ->
  exists row expires_at user,
    row ∈ st_tokens s /\ to_secret_hash row = hash_secret token /\ to_revoked_at row = None /\
    parse_from_rfc3339 (to_expires_at row) = Some expires_at /\ now < expires_at /\
    user ∈ st_users s /\ us_id user = to_user_id row /\ us_deleted user = false /\ us_is_locked user = false /\
    au_user_id (tk_context tk) = to_user_id row /\ au_is_server_owner (tk_context tk) = us_is_server_owner user /\
    tk_device_id tk = to_device_id row /\ tk_scopes tk = to_scopes row /\ tk_token_id tk = Some (to_id row) /\
    (tk_kind tk = LoginSession <-> to_token_kind row = Some (lit "session")).
Proof.
  unfold authenticate. intros [(e & _ & [=])|(row & s1 & (fs & -> & [[=]|[= ->]])%query_cases & E)]%db_bind_cases.
  change (st_tokens (set_faults s fs)) with (st_tokens s) in E.
  destruct (List.find _ (st_tokens s)) as [row|] eqn:Er; [|done].
  apply find_Some_iff in Er as [Hin Hr]. rewrite andb_true_iff, bool_decide_eq_true in Hr. destruct Hr as [Hh Hn].
  destruct (parse_from_rfc3339 (to_expires_at row)) as [expires_at|] eqn:Ep; [|done].
  destruct (Z.leb_spec expires_at now) as [|Hlt]; [done|].
  apply db_bind_cases in E as [(e & _ & [=])|(user & s1 & (fs' & -> & [[=]|[= ->]])%query_cases & E)].
  rewrite set_faults_twice in E. change (st_users (set_faults s fs')) with (st_users s) in E.
  destruct (List.find _ (st_users s)) as [user|] eqn:Eu; [|done].
  apply find_Some_iff in Eu as [Hu Hud]. rewrite andb_true_iff, bool_decide_eq_true, negb_true_iff in Hud. destruct Hud as [Hid Hdel].
  destruct (us_is_locked user) eqn:El; [done|].
  apply db_bind_cases in E as [(e & _ & [=])|([] & s1 & _ & E)].
  apply db_bind_cases in E as [(e & _ & [=])|([] & s2 & _ & [= <- <-])]. cbn.
  exists row, expires_at, user. split_and!; try done; [by destruct (to_revoked_at row)|]. by case_bool_decide.
Qed.


(** *** A minted token works *)

Lemma sql_query_ok {A} (run : Store -> A) s : faults s = [] -> query run s = (Ok (run s), s).
Proof. intros E. unfold query, execute. by rewrite E. Qed.

Lemma execute_ok {A} (run : Sql A) s : faults s = [] -> execute run s = run s.
Proof. intros E. unfold execute. by rewrite E. Qed.

Lemma find_fresh {A} (p : A -> bool) l x : (forall y, y ∈ l -> p y = false) -> List.find p (l ++ [x]) = List.find p [x].
Proof.
  induction l as [|y l IH]; [done|]. intros Hl. cbn. rewrite (Hl y) by set_solver. apply IH. set_solver.
Qed.

(** A minted token works.  Without failures, and with a secret that is not in use,
    minting a token for an account succeeds whatever the lifetime asked for, as long as
    it ends before the year 10000; and the secret it returns authenticates at any time
    before the token ends as that account with exactly the scopes asked for. *)
Theorem minted_token_works `{!ChronoLaws} now token_id device_id uuid user_id name scopes expiry s user later_ :
  let lifetime := match expiry with Some n => if 0 <? n then n else DEVICE_TOKEN_TTL_SECS | None => DEVICE_TOKEN_TTL_SECS end in
  faults s = [] -> (forall t, t ∈ st_tokens s -> to_secret_hash t <> hash_secret (new_secret uuid)) ->
  List.find (fun u => bool_decide (us_id u = user_id) && negb (us_deleted u)) (st_users s) = Some user ->
  us_is_locked user = false ->
  0 <= now -> now + seconds lifetime < year_10000 -> now + seconds lifetime <= max_utc -> lifetime <= i64_max / 1000 ->
  now <= later_ < now + seconds lifetime ->
  exists minted s1 token s2,
    mint_token now token_id device_id uuid user_id name scopes expiry s = (Ok minted, s1) /\
    authenticate later_ (tc_secret minted) s1 = (Ok token, s2) /\
    au_user_id (tk_context token) = user_id /\ tk_kind token = LiseurSync.Device /\ tk_scopes token = scopes /\
    tk_device_id token = tc_device_id minted /\ tk_name token = name.
Proof.
  intros lifetime Hf Hfresh Huser Hlock Hnow Hy Hmax Hi64 Hlater.
  set (row := {| to_id := token_id; to_user_id := user_id; to_device_id := device_id;
    to_secret_hash := hash_secret (new_secret uuid); to_scopes := scopes; to_created_at := to_rfc3339_nanos now;
    to_expires_at := to_rfc3339_nanos (now + seconds lifetime); to_revoked_at := None; to_last_used_at := None;
    to_name := Some name; to_token_kind := Some (lit "device") |}).
  set (s1 := set_tokens s (st_tokens s ++ [row])).
  assert (Hins : insert_token row s = (Ok tt, s1)).
  { unfold insert_token. rewrite execute_ok by done. destruct (existsb _ _) eqn:E; [|done].
    apply existsb_exists in E as (t & Ht%list_elem_of_In & Hh%bool_decide_eq_true). by destruct (Hfresh t). }
  assert (Hmint : exists expires_at, mint_token now token_id device_id uuid user_id name scopes expiry s =
    (Ok {| tc_token_id := token_id; tc_device_id := device_id; tc_name := name;
           tc_scope := match scopes with [scope] => Some scope | _ => None end; tc_scopes := scopes;
           tc_secret := new_secret uuid; tc_expires_at := expires_at |}, s1)).
  { unfold mint_token. subst row lifetime. destruct expiry as [n|]; cbn [mbind option_bind]; [destruct (0 <? n); cbn [then_some]|].
    - unfold after_seconds. rewrite (proj2 (Z.leb_le _ _) Hi64), (proj2 (Z.leb_le _ _) Hmax). cbn [andb then_some].
      eexists. etrans; [eapply db_bind_run; reflexivity|]. etrans; [eapply db_bind_run; exact Hins|reflexivity].
    - eexists. etrans; [eapply db_bind_run; reflexivity|]. etrans; [eapply db_bind_run; exact Hins|reflexivity].
    - eexists. etrans; [eapply db_bind_run; reflexivity|]. etrans; [eapply db_bind_run; exact Hins|reflexivity]. }
  destruct Hmint as (expires_at & Hmint). do 2 eexists. assert (Hf1 : faults s1 = []) by done.
  assert (Hfind : List.find (fun t => bool_decide (to_secret_hash t = hash_secret (new_secret uuid)) && is_none (to_revoked_at t))
                    (st_tokens s1) = Some row).
  { subst s1. cbn [st_tokens set_tokens]. rewrite find_fresh.
    - cbn. by rewrite bool_decide_eq_true_2.
    - intros t Ht. rewrite bool_decide_eq_false_2; [done|]. by apply Hfresh. }
  do 2 eexists. split; [exact Hmint|]. cbn [tc_secret tc_device_id].
  unfold authenticate. erewrite db_bind_run by (by apply sql_query_ok). rewrite Hfind.
  replace (parse_from_rfc3339 (to_expires_at row)) with (Some (now + seconds lifetime))
    by (symmetry; apply nanos_roundtrip; unfold seconds, nanos_per_sec in *; lia).
  rewrite (proj2 (Z.leb_gt _ _)) by lia. erewrite db_bind_run by (by apply sql_query_ok).
  cbn [to_user_id row] . subst row. cbn [to_user_id]. change (st_users s1) with (st_users s). rewrite Huser, Hlock.
  unfold ignoring, bind_device. rewrite db_bind_run with (a := tt) (db' := set_tokens s1 ((fun t => if bool_decide (to_id t = token_id) then used (to_rfc3339_nanos later_) t else t) <$> st_tokens s1))
    by (by rewrite execute_ok).
  erewrite db_bind_run by (by rewrite execute_ok). split; [reflexivity|]. cbn.
  apply find_Some_iff in Huser as [_ Hu]. rewrite andb_true_iff, bool_decide_eq_true in Hu. split_and!; [apply Hu|done..].
Qed.

End tokens.

(** ** Settings *)

Section settings_theorems.
Context `{DecimalOps} `{Host}.

Lemma settings_of_lookup user_id s k : settings_of user_id s !! k = st_settings s !! (user_id, k).
Proof.
  unfold settings_of. set (l := filter (fun kv => kv.1.1 = user_id) (map_to_list (st_settings s))).
  assert (Hin : forall x, (k, x) ∈ (fun kv : (str * str) * SettingValue => (kv.1.2, kv.2)) <$> l <->
                          st_settings s !! (user_id, k) = Some x).
  { intros x. rewrite list_elem_of_fmap. split.
    - intros ([[u k'] y] & [= -> ->] & [Hu Hy]%list_elem_of_filter). cbn in Hu. subst u. by apply elem_of_map_to_list.
    - intros Hx. exists ((user_id, k), x). split; [done|]. apply list_elem_of_filter. split; [done|by apply elem_of_map_to_list]. }
  assert (Hnd : NoDup ((fun kv : (str * str) * SettingValue => (kv.1.2, kv.2)) <$> l).*1).
  { rewrite <- list_fmap_compose. apply NoDup_fmap_2_strong.
    - intros [[u1 k1] x1] [[u2 k2] x2] [Hu1 H1]%list_elem_of_filter [Hu2 H2]%list_elem_of_filter E. cbn in *. subst u1 u2 k2.
      apply elem_of_map_to_list in H1, H2. congruence.
    - apply NoDup_filter, NoDup_map_to_list. }
  destruct (st_settings s !! (user_id, k)) as [x|] eqn:E.
  - apply elem_of_list_to_map_1; [done|]. by apply Hin.
  - apply not_elem_of_list_to_map_1. intros ([k' x] & -> & Hx)%list_elem_of_fmap. apply Hin in Hx. congruence.
Qed.

(** Last writer wins: an update replaces what is older, by the text of the timestamps. *)
Definition lww (old : option SettingValue) (u : SettingUpdate) : option SettingValue :=
  match old with
  | Some v => if str_le (su_updated_at u) (sv_updated_at v) then Some v
              else Some {| sv_value := su_value u; sv_updated_at := su_updated_at u |}
  | None => Some {| sv_value := su_value u; sv_updated_at := su_updated_at u |}
  end.

Definition for_key (k : str) (us : list SettingUpdate) : list SettingUpdate := filter (fun u => su_key u = k) us.

(** Two updates of one key with one timestamp agree. *)
Definition consistent (us : list SettingUpdate) : Prop :=
  forall u v, u ∈ us -> v ∈ us -> su_key u = su_key v -> su_updated_at u = su_updated_at v -> su_value u = su_value v.

Lemma lww_comm o u v :
  (su_updated_at u = su_updated_at v -> su_value u = su_value v) -> lww (lww o u) v = lww (lww o v) u.
Proof.
  intros Huv. set (vu := Some {| sv_value := su_value u; sv_updated_at := su_updated_at u |}).
  set (vv := Some {| sv_value := su_value v; sv_updated_at := su_updated_at v |}).
  assert (Hnew : lww vu v = lww vv u).
  { unfold lww, vu, vv. cbn. destruct (str_le (su_updated_at v) (su_updated_at u)) eqn:E1, (str_le (su_updated_at u) (su_updated_at v)) eqn:E2; try done.
    - pose proof (str_le_antisymm _ _ E1 E2) as E. by rewrite E, Huv.
    - destruct (str_le_total (su_updated_at u) (su_updated_at v)); congruence. }
  destruct o as [w|]; [|exact Hnew]. unfold lww at 2 4.
  destruct (str_le (su_updated_at u) (sv_updated_at w)) eqn:Eu, (str_le (su_updated_at v) (sv_updated_at w)) eqn:Ev;
    [..|exact Hnew]; cbn; rewrite ?Eu, ?Ev; try done.
  - destruct (str_le_total (su_updated_at v) (sv_updated_at w)) as [|Hw]; [congruence|].
    by rewrite (str_le_trans _ _ _ Eu Hw).
  - destruct (str_le_total (su_updated_at u) (sv_updated_at w)) as [|Hw]; [congruence|].
    by rewrite (str_le_trans _ _ _ Ev Hw).
Qed.

Lemma lww_perm us vs o :
  us ≡ₚ vs -> (forall u v, u ∈ us -> v ∈ us -> su_updated_at u = su_updated_at v -> su_value u = su_value v) ->
  fold_left lww us o = fold_left lww vs o.
Proof.
  intros Hp. revert o. induction Hp as [|u us vs Hp IH|u v us|us vs ws H1 IH1 H2 IH2]; intros o Hc; cbn; [done|..].
  - apply IH. intros a b Ha Hb. apply Hc; set_solver.
  - f_equal. symmetry. apply lww_comm. apply Hc; set_solver.
  - rewrite IH1 by done. apply IH2. intros a b Ha Hb. rewrite <- H1 in Ha, Hb. by apply Hc.
Qed.

(** The newest of what was stored and what arrived. *)
Lemma lww_newest us o r :
  fold_left lww us o = Some r ->
  (o = Some r \/ exists u, u ∈ us /\ r = {| sv_value := su_value u; sv_updated_at := su_updated_at u |}) /\
  (forall v, o = Some v -> str_le (sv_updated_at v) (sv_updated_at r) = true) /\
  (forall u, u ∈ us -> str_le (su_updated_at u) (sv_updated_at r) = true).
Proof.
  assert (Hrefl : forall t, str_le t t = true) by (intros t; by destruct (str_le_total t t)).
  revert o. induction us as [|u us IH]; intros o; cbn.
  - intros ->. split_and!; [by left|by intros v [= ->]|]. intros u. by rewrite elem_of_nil.
  - intros (Hfrom & Hold & Hnew)%IH.
    assert (Hu : exists v, lww o u = Some v /\ str_le (su_updated_at u) (sv_updated_at v) = true /\
      (o = Some v \/ v = {| sv_value := su_value u; sv_updated_at := su_updated_at u |}) /\
      (forall w, o = Some w -> str_le (sv_updated_at w) (sv_updated_at v) = true)).
    { unfold lww. destruct o as [w|]; [destruct (str_le (su_updated_at u) (sv_updated_at w)) eqn:E|].
      - exists w. split_and!; [done|done|by left|]. intros ? [= ->]. apply Hrefl.
      - eexists. split_and!; [done|cbn; apply Hrefl|by right|]. intros ? [= <-]. cbn.
        destruct (str_le_total (su_updated_at u) (sv_updated_at w)); congruence.
      - eexists. split_and!; [done|cbn; apply Hrefl|by right|done]. }
    destruct Hu as (v & Ev & Huv & Hvfrom & Hvold). rewrite Ev in Hfrom. specialize (Hold _ Ev). split_and!.
    + destruct Hfrom as [[= ->]|(u' & ? & ->)]; [|right; set_solver]. destruct Hvfrom as [->| ->]; [by left|right; set_solver].
    + intros w Hw. eapply str_le_trans; [by apply Hvold|done].
    + intros u' [->|Hu']%elem_of_cons; [by eapply str_le_trans|by apply Hnew].
Qed.

(** What the rows of an account become. *)
Definition settled (user_id : str) (us : list SettingUpdate) (m m' : gmap (str * str) SettingValue) : Prop :=
  forall v k, m' !! (v, k) = if decide (v = user_id) then fold_left lww (for_key k us) (m !! (v, k)) else m !! (v, k).

Lemma upsert_setting_settles user_id u s s' :
  upsert_setting user_id u s = (Ok tt, s') -> settled user_id [u] (st_settings s) (st_settings s').
Proof.
  intros (fs & [[[=] _]|[= <-]])%execute_cases v k. cbn [st_settings set_faults set_reading].
  unfold for_key. rewrite filter_cons, filter_nil.
  destruct (st_settings s !! (user_id, su_key u)) as [old|] eqn:E; unfold later.
  - destruct (str_le (su_updated_at u) (sv_updated_at old)) eqn:El; cbn [negb].
    + cbn. case_decide as Hv; [|done]. subst v. case_decide as Hk; [|done]. subst k. cbn. rewrite E. cbn. by rewrite El.
    + cbn. case_decide as Hv.
      * subst v. case_decide as Hk; [subst k; rewrite lookup_insert_eq; cbn; rewrite E; cbn; by rewrite El|]. rewrite lookup_insert_ne; [done|congruence].
      * rewrite lookup_insert_ne; [done|congruence].
  - cbn. case_decide as Hv.
    + subst v. case_decide as Hk; [subst k; rewrite lookup_insert_eq; cbn; by rewrite E|]. rewrite lookup_insert_ne; [done|congruence].
    + rewrite lookup_insert_ne; [done|congruence].
Qed.

Lemma settled_app user_id us vs m1 m2 m3 :
  settled user_id us m1 m2 -> settled user_id vs m2 m3 -> settled user_id (us ++ vs) m1 m3.
Proof.
  intros H1 H2 v k. rewrite H2, H1. unfold for_key. rewrite filter_app, fold_left_app. by case_decide.
Qed.

Lemma upsert_settings_settles user_id us s s' :
  upsert_settings user_id us s = (Ok tt, s') -> settled user_id us (st_settings s) (st_settings s').
Proof.
  revert s. induction us as [|u us IH]; intros s; cbn [upsert_settings].
  - intros [= ->] v k. by case_decide.
  - intros [(e & _ & [=])|([] & s1 & E1%upsert_setting_settles & E2%IH)]%db_bind_cases.
    by apply (settled_app user_id [u] us _ (st_settings s1)).
Qed.

(** One call: all of its updates, or none of them. *)
Lemma put_settings_settles user_id us s r s' :
  put_settings user_id us s = (r, s') ->
  match r with
  | Ok _ =>
      settled user_id (merge_sort setting_before us) (st_settings s) (st_settings s') /\
      (size (dom (settings_of user_id s') : gset str) <= 256)%nat
  | Err _ => st_settings s' = st_settings s
  end.
Proof.
  unfold put_settings. case_bool_decide; [by intros [= <- <-]|]. destruct (_ <? _)%nat; [by intros [= <- <-]|].
  destruct r as [[]|e]; [|by intros (fs & m & ->)%transaction_failed].
  intros (fs & s1 & fs' & E & ->)%transaction_done. cbn [st_settings set_faults set_reading].
  apply db_bind_cases in E as [(e & _ & [=])|([] & s2 & E2 & E)].
  apply db_bind_cases in E as [(e & _ & [=])|([] & s3 & E3 & E)].
  apply db_bind_cases in E as [(e & _ & [=])|(existing & s4 & (fs4 & -> & [[=]|[= ->]])%query_cases & E)].
  assert (Hs3 : st_settings s3 = st_settings s).
  { apply execute_cases in E2 as (? & [[[=] _]|[= <-]]). apply execute_cases in E3 as (? & [[[=] _]|[= <-]]).
    cbn. by destruct (st_counters s !! user_id). }
  match type of E with (if (?a <? ?b)%nat then _ else _) _ = _ => destruct (Nat.ltb_spec a b) as [|Hle] end; [done|].
  unfold MAX_SETTINGS_PER_ACCOUNT in Hle. apply upsert_settings_settles in E. cbn [st_settings set_faults set_reading] in E.
  rewrite Hs3 in E. split; [done|].
  etrans; [|exact Hle]. rewrite <- size_union by set_solver. apply subseteq_size. intros k.
  rewrite elem_of_union, elem_of_difference, elem_of_list_to_set, !elem_of_dom, !settings_of_lookup.
  cbn [st_settings set_faults set_reading]. rewrite Hs3, (E user_id k), decide_True by done.
  destruct (st_settings s !! (user_id, k)) as [v|] eqn:Ek; [intros _; left; eauto|].
  intros [v Hv]. right. split; [|by intros [? ?]].
  destruct (for_key k (merge_sort setting_before us)) as [|u l] eqn:El; [done|].
  assert (Hu : u ∈ for_key k (merge_sort setting_before us)) by (rewrite El; set_solver).
  apply list_elem_of_filter in Hu as [<- Hu]. by apply list_elem_of_fmap_2.
Qed.

(** A sequence of calls; those that went through, and the store they leave. *)
Fixpoint puts (user_id : str) (calls : list (list SettingUpdate)) (s : Store) : list (list SettingUpdate) * Store :=
  match calls with
  | [] => ([], s)
  | us :: calls =>
      let '(r, s1) := put_settings user_id us s in
      let '(applied, s2) := puts user_id calls s1 in
      (if is_ok r then us :: applied else applied, s2)
  end.

Lemma puts_settle user_id calls s applied s' :
  puts user_id calls s = (applied, s') ->
  settled user_id (concat (merge_sort setting_before <$> applied)) (st_settings s) (st_settings s') /\
  ((size (dom (settings_of user_id s) : gset str) <= 256)%nat -> (size (dom (settings_of user_id s') : gset str) <= 256)%nat).
Proof.
  revert s applied. induction calls as [|us calls IH]; intros s applied; cbn.
  - intros [= <- <-]. split; [|done]. intros v k. by case_decide.
  - destruct (put_settings user_id us s) as [r s1] eqn:E1. destruct (puts user_id calls s1) as [applied' s2] eqn:E2.
    intros [= <- <-]. apply put_settings_settles in E1. apply IH in E2 as [Hs Hb]. destruct r as [[]|e]; cbn [is_ok].
    + destruct E1 as [E1 Hsize]. split; [by eapply settled_app|auto].
    + rewrite E1 in Hs. split; [done|]. intros Hsize. apply Hb.
      assert (Ed : dom (settings_of user_id s1) =@{gset str} dom (settings_of user_id s)); [|by rewrite Ed].
      apply set_eq. intros k. by rewrite !elem_of_dom, !settings_of_lookup, E1.
Qed.

(** C22.  The settings of an account converge.  Whatever statements fail, a call applies
    all of its updates or none, touches no other account and never takes the account past
    256 settings; and when no two updates of one key carry one timestamp with different
    values, the settings depend only on which calls went through, not on their order:
    each key holds the newest of what it held and what arrived. *)
Theorem settings_converge user_id calls calls' s applied applied' s1 s2 :
  puts user_id calls s = (applied, s1) -> puts user_id calls' s = (applied', s2) ->
  applied ≡ₚ applied' -> consistent (concat applied) ->
  st_settings s1 = st_settings s2 /\
  ((size (dom (settings_of user_id s) : gset str) <= 256)%nat -> (size (dom (settings_of user_id s1) : gset str) <= 256)%nat) /\
  (forall v k, v <> user_id -> st_settings s1 !! (v, k) = st_settings s !! (v, k)) /\
  (forall k r, st_settings s1 !! (user_id, k) = Some r ->
     (st_settings s !! (user_id, k) = Some r \/
      exists u, u ∈ concat applied /\ su_key u = k /\ r = {| sv_value := su_value u; sv_updated_at := su_updated_at u |}) /\
     (forall old, st_settings s !! (user_id, k) = Some old -> str_le (sv_updated_at old) (sv_updated_at r) = true) /\
     (forall u, u ∈ concat applied -> su_key u = k -> str_le (su_updated_at u) (sv_updated_at r) = true)) /\
  (forall u, u ∈ concat applied -> is_Some (st_settings s1 !! (user_id, su_key u))).
Proof.
  intros [Hs1 Hb1]%puts_settle [Hs2 _]%puts_settle Hperm Hcons.
  assert (Hsort : forall l : list (list SettingUpdate), concat (merge_sort setting_before <$> l) ≡ₚ concat l).
  { intros l. induction l as [|us l IH]; cbn; [done|]. by rewrite merge_sort_Permutation, IH. }
  assert (Hp : concat (merge_sort setting_before <$> applied) ≡ₚ concat (merge_sort setting_before <$> applied')).
  { by rewrite Hperm. }
  set (us := concat (merge_sort setting_before <$> applied)) in *.
  assert (Hin : forall u, u ∈ us <-> u ∈ concat applied) by (intros u; unfold us; by rewrite Hsort).
  assert (Hkey : forall k u v, u ∈ for_key k us -> v ∈ for_key k us -> su_updated_at u = su_updated_at v -> su_value u = su_value v).
  { intros k u v [Hu Hu']%list_elem_of_filter [Hv Hv']%list_elem_of_filter. apply Hcons; [by apply Hin|by apply Hin|congruence]. }
  split_and!.
  - apply map_eq. intros [v k]. rewrite Hs1, Hs2. case_decide; [|done]. apply lww_perm; [|apply Hkey].
    unfold for_key. by rewrite Hp.
  - done.
  - intros v k Hv. by rewrite Hs1, decide_False.
  - intros k r Hr. rewrite Hs1, decide_True in Hr by done. apply lww_newest in Hr as (Hfrom & Hold & Hnew). split_and!; [|done|].
    + destruct Hfrom as [?|(u & [Hu Hu']%list_elem_of_filter & ->)]; [by left|right]. exists u. split_and!; [by apply Hin|done..].
    + intros u Hu Hk. apply Hnew, list_elem_of_filter. split; [done|by apply Hin].
  - intros u Hu%Hin. rewrite Hs1, decide_True by done.
    assert (Hne : for_key (su_key u) us <> []).
    { intros E. assert (Hx : u ∈ for_key (su_key u) us) by (by apply list_elem_of_filter). rewrite E in Hx. by apply elem_of_nil in Hx. }
    destruct (for_key (su_key u) us) as [|v l]; [done|]. cbn. clear.
    assert (Hsome : is_Some (lww (st_settings s !! (user_id, su_key u)) v))
      by (unfold lww; destruct (st_settings s !! _) as [w|]; [destruct (str_le _ _)|]; eauto).
    revert Hsome. generalize (lww (st_settings s !! (user_id, su_key u)) v). induction l as [|w l IH]; intros o Ho; cbn; [done|].
    apply IH. destruct Ho as [x ->]. cbn. destruct (str_le _ _); eauto.
Qed.

End settings_theorems.

(** ** Concrete inputs *)

(** Timestamps as one symbol; a digest that is the text itself. *)
Definition demo_chrono : Chrono :=
  {| parse_from_rfc3339 text := match text with [t] => Some t | _ => None end; to_rfc3339_micros t := [t / 1000];
     to_rfc3339_nanos t := [t]; max_utc := 8210266876799 * nanos_per_sec |}.

Lemma demo_chrono_laws : @ChronoLaws demo_chrono.
Proof. by split. Qed.

Definition demo_sha : Sha256 := {| sha256_hex bytes := bytes |}.
Definition demo_host : Host := {| db_error := lit "error"; verify_password hash password := Ok (bool_decide (hash = password)) |}.

#[local] Existing Instance fixed_ops.
#[local] Existing Instance demo_chrono.
#[local] Existing Instance demo_sha.
#[local] Existing Instance demo_host.

Definition demo_user : UserRow :=
  {| us_id := lit "u"; us_username := lit "ann"; us_hashed_password := lit "pw"; us_is_locked := false;
     us_is_server_owner := false; us_deleted := false |}.

Definition demo_link : LinkRow :=
  {| lk_id := lit "l"; lk_user_id := lit "u"; lk_media_id := lit "m"; lk_work_id := lit "w"; lk_edition_sha := lit "e";
     lk_created_at := [1] |}.

Definition demo_store (fs : list bool) : Store :=
  {| st_reading := empty_db fs; st_users := [demo_user]; st_tokens := []; st_media := {[ lit "m" := 10 ]};
     st_works := {[ (lit "u", lit "w") ]};
     st_links := [demo_link];
     st_counters := ∅; st_ops := []; st_settings := ∅; st_sightings := [];
     st_audio := ∅; st_readable := {[ (lit "u", lit "m") ]};
     st_marks := {| mk_annotations := []; mk_native := []; mk_bookmarks := []; mk_attachments := [] |};
     st_files := ∅; st_sweeps := ∅ |}.

Definition demo_mint (s : Store) : result TokenCreateResult Stop * Store :=
  mint_token 0 (lit "t") (lit "d") (lit "x") (lit "u") (lit "reader") [lit "sync"] None s.

Definition minted_store : Store := (demo_mint (demo_store [])).2.

Definition minted_row : TokenRow := default
  {| to_id := []; to_user_id := []; to_device_id := []; to_secret_hash := []; to_scopes := []; to_created_at := [];
     to_expires_at := []; to_revoked_at := None; to_last_used_at := None; to_name := None; to_token_kind := None |}
  (List.hd_error (st_tokens minted_store)).


Lemma minted_token_works_witness :
  faults (demo_store []) = [] /\
  exists minted s1 token s2, demo_mint (demo_store []) = (Ok minted, s1) /\
    authenticate 5 (tc_secret minted) s1 = (Ok token, s2) /\ tk_scopes token = [lit "sync"].
Proof.
  split; [done|].
  pose proof (@minted_token_works _ _ _ _ demo_chrono_laws 0 (lit "t") (lit "d") (lit "x") (lit "u") (lit "reader") [lit "sync"]
    None (demo_store []) demo_user 5 eq_refl ltac:(intros t Ht; by apply elem_of_nil in Ht) eq_refl eq_refl
    ltac:(lia) ltac:(vm_compute; done) ltac:(vm_compute; done) ltac:(vm_compute; done) ltac:(vm_compute; done)) as Hm.
  destruct Hm as (minted & s1 & token & s2 & H1 & H2 & _ & _ & H3 & _). eauto 10.
Defined.

Definition demo_update (value : string) (t : Z) : SettingUpdate :=
  {| su_key := lit "theme"; su_value := lit value; su_updated_at := [t] |}.

(** Two devices push in opposite orders; a statement of one call fails. *)
Lemma settings_converge_witness :
  exists s1 s2,
    puts (lit "u") [[demo_update "dark" 1]; [demo_update "light" 2]] (demo_store []) =
      ([[demo_update "dark" 1]; [demo_update "light" 2]], s1) /\
    puts (lit "u") [[demo_update "light" 2]; [demo_update "dark" 1]] (demo_store []) =
      ([[demo_update "light" 2]; [demo_update "dark" 1]], s2) /\
    st_settings s1 = st_settings s2.
Proof.
  set (c1 := [[demo_update "dark" 1]; [demo_update "light" 2]]). set (c2 := [[demo_update "light" 2]; [demo_update "dark" 1]]).
  assert (E1 : puts (lit "u") c1 (demo_store []) = (c1, (puts (lit "u") c1 (demo_store [])).2))
    by (rewrite (surjective_pairing (puts (lit "u") c1 (demo_store []))) at 1; f_equal; by vm_compute).
  assert (E2 : puts (lit "u") c2 (demo_store []) = (c2, (puts (lit "u") c2 (demo_store [])).2))
    by (rewrite (surjective_pairing (puts (lit "u") c2 (demo_store []))) at 1; f_equal; by vm_compute).
  eexists. eexists. split; [exact E1|]. split; [exact E2|].
  apply (settings_converge (lit "u") c1 c2 (demo_store []) c1 c2 _ _ E1 E2); [apply Permutation_swap|].
  intros u v Hu Hv _ Ht. cbn in Hu, Hv. rewrite elem_of_cons, list_elem_of_singleton in Hu, Hv.
  destruct Hu as [->| ->], Hv as [->| ->]; done.
Defined.

(** A lifetime the handler accepts and [chrono] does not: the call panics. *)
Example huge_lifetime_panics :
  (mint_token 0 (lit "t") (lit "d") (lit "x") (lit "u") (lit "reader") [lit "sync"] (Some i64_max) (demo_store [])).1 = Err Panicked.
Proof. vm_compute. reflexivity. Qed.
