(* ===== verification/LiseurOps.v ===== *)
(** * The operation log of liseur-sync

    Models the position part of [src/apps/server/src/routers/liseur_sync/storage.rs]: the
    per-account log of position operations ([append_ops]), the mirroring of positions
    other protocols reported ([mirror_heads]), and the ways a client reads the log
    ([changes], [heads], [positions]).  An accepted operation moves the reading head of
    the book its work is linked to, through [ReadingService.apply].  Resolving a book may
    merge a work that edition pairing made into the work the book is known by
    ([merge_liseur_work] of
    [src/crates/migrations/src/m20260963_000000_repair_liseur_pair_work_identity.rs]),
    which moves stored operations from one to the other.

    The decoders of locators and of stored JSON are the class [LocatorWire]. *)

From stdpp Require Import base gmap list strings sorting.
From Stdlib Require Import ZArith Lia SpecFloat.
From S2P Require Import Prelude Float64 ReadingState ReadingService LiseurSync LiseurStore.

#[local] Open Scope Z_scope.
#[local] Open Scope coppice_scope.

Class LocatorWire `{DecimalOps} := {
  locator_of_value : Value -> option ReadiumLocator;
  value_of_locator : ReadiumLocator -> option Value;
  value_of_text : str -> option Value;
}.

(** [f64::EPSILON] and [f64::abs]. *)
Definition f64_epsilon : f64 := S754_finite false 4503599627370496 (-104).
Definition fabs : f64 -> f64 := SFabs.

(** [Display] for [SourceProtocol]. *)
Definition protocol_name (p : SourceProtocol) : str :=
  lit match p with
      | Stump => "stump" | Komga => "komga" | Kobo => "kobo" | Koreader => "koreader" | Opds => "opds"
      | Liseur => "liseur" | Kavita => "kavita" | Abs => "abs"
      end.

Section log.
Context `{DecimalOps} `{Host} `{Chrono} `{Wire} `{!LocatorWire}.

(** ** Works, links and counters *)

Definition linked_media (user_id work_id : str) : Sql (option (str * Z)) :=
  row <-- query (fun s => List.find (fun l => bool_decide (lk_user_id l = user_id) && bool_decide (lk_work_id l = work_id)) (st_links s)) ;;
  match row with
  | None => db_ret None
  | Some row => query (fun s => pair (lk_media_id row) <$> st_media s !! lk_media_id row)
  end.

Definition work_exists (user_id work_id : str) : Sql bool :=
  query (fun s => bool_decide ((user_id, work_id) ∈ st_works s)).

Definition bump_op_seq (c : Counter) : Counter :=
  {| ct_op_seq := ct_op_seq c + 1; ct_annotation_seq := ct_annotation_seq c;
     ct_projected_annotation_seq := ct_projected_annotation_seq c |}.

Definition next_op_seq (user_id : str) : Sql Z :=
  _ <-- execute (fun s => (Ok tt, set_counters s (alter bump_op_seq user_id (st_counters s)))) ;;
  row <-- query (fun s => st_counters s !! user_id) ;;
  match row with
  | Some c => db_ret (ct_op_seq c)
  | None => db_err (Refused (Internal (lit "liseur-sync counter disappeared")))
  end.

Definition high_water (user_id : str) : Sql Z :=
  query (fun s => match st_counters s !! user_id with Some c => ct_op_seq c | None => 0 end).

(** ** Rows *)

Definition locator_from_db (raw : option str) : option Value := raw ≫= value_of_text.

Definition locator_to_db (locator : option Value) : Sql (option str) :=
  match locator with
  | None => db_ret None
  | Some locator => match json_text locator with Some text => db_ret (Some text) | None => db_err internal end
  end.

Definition op_record (row : OpRow) : OpRecord :=
  {| or_op_id := ow_op_id row; or_work_id := ow_work_id row; or_edition_sha := ow_edition_sha row;
     or_client_ts := ow_client_ts row; or_progression := ow_progression row;
     or_locator := locator_from_db (ow_locator row); or_foreign_pos := ow_foreign_pos row; or_seq := ow_seq row;
     or_device_id := ow_device_id row; or_origin := ow_origin row; or_received_at := ow_received_at row |}.

Definition is_op (user_id op_id : str) (row : OpRow) : bool :=
  bool_decide (ow_user_id row = user_id) && bool_decide (ow_op_id row = op_id).

Definition find_op (user_id op_id : str) : Sql (option OpRow) :=
  query (fun s => List.find (is_op user_id op_id) (st_ops s)).

(** [INSERT INTO liseur_sync_ops]: sequence numbers and operation ids are unique per account. *)
Definition insert_op (row : OpRow) : Sql unit := execute (fun s =>
  if existsb (fun r => bool_decide (ow_user_id r = ow_user_id row) &&
                       (bool_decide (ow_seq r = ow_seq row) || bool_decide (ow_op_id r = ow_op_id row))) (st_ops s)
  then (Err internal, s) else (Ok tt, set_ops s (st_ops s ++ [row]))).

(** The comparison stops at the first difference; only an operation equal so far needs
    its progression. *)
Definition op_matches (row : OpRow) (op : OpInput) : Sql bool :=
  incoming_locator <-- locator_to_db (oi_locator op) ;;
  if bool_decide (ow_work_id row = oi_work_id op) && bool_decide (ow_edition_sha row = oi_edition_sha op) &&
     bool_decide (ow_client_ts row = oi_client_ts op)
  then
    match oi_progression op with
    | None => db_err Panicked
    | Some p =>
        db_ret (flt (fabs (fsub (ow_progression row) p)) f64_epsilon && bool_decide (ow_locator row = incoming_locator) &&
                bool_decide (ow_foreign_pos row = oi_foreign_pos op))
    end
  else db_ret false.

(** ** The reading head *)

Definition nullable {A} (f : A -> Value) (o : option A) : Value := match o with Some a => f a | None => JNull end.

(** [serde_json::to_value(op)]. *)
Definition op_value (op : OpInput) : Value :=
  JObject [(lit "client_ts", JString (oi_client_ts op));
           (lit "edition_sha", nullable JString (oi_edition_sha op));
           (lit "foreign_pos", nullable JString (oi_foreign_pos op));
           (lit "locator", nullable id (oi_locator op));
           (lit "op_id", JString (oi_op_id op));
           (lit "progression", nullable JFloat (oi_progression op));
           (lit "work_id", JString (oi_work_id op))].

Definition op_update (device_id : str) (op : OpInput) (progression : f64) : ProtocolUpdate :=
  let locator :=
    (oi_locator op ≫= locator_of_value) ≫= (fun l => then_some (negb (bool_decide (href l = []))) l) in
  {| u_protocol := Liseur;
     u_device_id := Some device_id;
     u_updated_at := parse_from_rfc3339 (oi_client_ts op);
     u_position := match locator with Some l => PLocator l | None => PNone end;
     u_progression := Some progression;
     u_completed := then_some (fle f64_one progression) true;
     u_raw_payload := op_value op |}.

Definition apply_op_to_head (now : Z) (user_id device_id : str) (op : OpInput) : Sql unit :=
  media <-- linked_media user_id (oi_work_id op) ;;
  match media with
  | None => db_ret tt
  | Some (media_id, pages) =>
      match oi_progression op with
      | None => db_err Panicked
      | Some progression =>
          _ <-- reading (apply now user_id (publication_of_media media_id pages) (op_update device_id op progression)) ;;
          db_ret tt
      end
  end.

(** ** Pushing *)

Definition unknown_work (index : nat) (op : OpInput) : LiseurSyncError :=
  ItemRefusal {| rf_status := 400; rf_code := lit "unknown_work"; rf_message := lit "unknown work: " ++ oi_work_id op;
                 rf_item_index := Some index; rf_session_id := None; rf_op_id := Some (oi_op_id op);
                 rf_work_id := Some (oi_work_id op); rf_limit := None |}.

Definition op_applied (op : OpInput) (seq : Z) : OpResult :=
  {| os_op_id := oi_op_id op; os_status := lit "applied"; os_seq := Some seq; os_reason := None |}.

Definition op_duplicate (op : OpInput) (seq : Z) : OpResult :=
  {| os_op_id := oi_op_id op; os_status := lit "duplicate"; os_seq := Some seq; os_reason := None |}.

Definition op_conflict (op : OpInput) : OpResult :=
  {| os_op_id := oi_op_id op; os_status := lit "conflict"; os_seq := None;
     os_reason := Some (lit "op_id was already used with a different payload") |}.

Definition op_row (now : Z) (user_id device_id : str) (op : OpInput) (progression : f64) (locator : option str) (seq : Z) : OpRow :=
  {| ow_user_id := user_id; ow_seq := seq; ow_op_id := oi_op_id op; ow_work_id := oi_work_id op;
     ow_edition_sha := oi_edition_sha op; ow_device_id := device_id; ow_client_ts := oi_client_ts op;
     ow_progression := progression; ow_locator := locator; ow_foreign_pos := oi_foreign_pos op;
     ow_origin := lit "native"; ow_received_at := to_rfc3339_nanos now |}.

Definition append_op (now : Z) (user_id device_id : str) (index : nat) (op : OpInput) : Sql OpResult :=
  known <-- work_exists user_id (oi_work_id op) ;;
  if negb known then db_err (Refused (unknown_work index op))
  else
    existing <-- find_op user_id (oi_op_id op) ;;
    match existing with
    | Some existing =>
        matches <-- op_matches existing op ;;
        db_ret (if (matches : bool) then op_duplicate op (ow_seq existing) else op_conflict op)
    | None =>
        seq <-- next_op_seq user_id ;;
        match oi_progression op with
        | None => db_err Panicked
        | Some progression =>
            locator <-- locator_to_db (oi_locator op) ;;
            _ <-- insert_op (op_row now user_id device_id op progression locator seq) ;;
            _ <-- apply_op_to_head now user_id device_id op ;;
            db_ret (op_applied op seq)
        end
    end.

Fixpoint append_loop (now : Z) (user_id device_id : str) (index : nat) (ops : list OpInput) : Sql (list OpResult) :=
  match ops with
  | [] => db_ret []
  | op :: ops =>
      result <-- append_op now user_id device_id index op ;;
      results <-- append_loop now user_id device_id (S index) ops ;;
      db_ret (result :: results)
  end.

Definition count_status (status : string) (results : list OpResult) : nat :=
  length (List.filter (fun r => bool_decide (os_status r = lit status)) results).

(** The device of the token is told of the push; a failure is only logged. *)
Definition record_device_sync (user_id device_id : str) (results : list OpResult) : Sql unit :=
  ignoring (
    token <-- query (fun s => List.find (fun t => bool_decide (to_user_id t = user_id) && bool_decide (to_device_id t = device_id)
                                                  && is_none (to_revoked_at t)) (st_tokens s)) ;;
    match token with
    | None => db_ret tt
    | Some token =>
        execute (fun s => (Ok tt, set_sightings s (st_sightings s ++ [(to_id token,
          Some {| pm_ops := length results; pm_applied := count_status "applied" results;
                  pm_duplicate := count_status "duplicate" results; pm_conflict := count_status "conflict" results |})])))
    end).

Definition append_ops (now : Z) (user_id device_id : str) (ops : list OpInput) : Sql (list OpResult) :=
  results <-- transaction (
    _ <-- ensure_counter user_id ;;
    append_loop now user_id device_id 0 ops) ;;
  _ <-- record_device_sync user_id device_id results ;;
  db_ret results.

(** ** Mirroring *)

Definition mirrored_op_id (event_id : Z) : str := lit "stump-head:" ++ show_Z event_id.

Definition mirror_row (now : Z) (user_id work_id edition_sha : str) (head : HeadRow) (locator : option str) (seq : Z) : OpRow :=
  {| ow_user_id := user_id; ow_seq := seq; ow_op_id := mirrored_op_id (h_event_id head); ow_work_id := work_id;
     ow_edition_sha := Some edition_sha;
     ow_device_id := default (lit "stump:" ++ protocol_name (h_source_protocol head)) (h_source_device_id head);
     ow_client_ts := to_rfc3339_nanos (h_updated_at head); ow_progression := h_progression head;
     ow_locator := locator; ow_foreign_pos := None; ow_origin := protocol_name (h_source_protocol head);
     ow_received_at := to_rfc3339_nanos now |}.

Definition mirror_head (now : Z) (user_id : str) (by_media : gmap str (str * str)) (media_id : str) (head : HeadRow) : Sql unit :=
  if bool_decide (h_source_protocol head = Liseur) then db_ret tt
  else
    existing <-- find_op user_id (mirrored_op_id (h_event_id head)) ;;
    match existing, by_media !! media_id with
    | None, Some (work_id, edition_sha) =>
        seq <-- next_op_seq user_id ;;
        locator <--
          match h_locator head with
          | None => db_ret None
          | Some l => match value_of_locator l with Some v => db_ret (Some v) | None => db_err internal end
          end ;;
        locator <-- locator_to_db locator ;;
        insert_op (mirror_row now user_id work_id edition_sha head locator seq)
    | _, _ => db_ret tt
    end.

Fixpoint mirror_loop (now : Z) (user_id : str) (by_media : gmap str (str * str)) (heads : list (str * HeadRow)) : Sql unit :=
  match heads with
  | [] => db_ret tt
  | (media_id, head) :: heads =>
      _ <-- mirror_head now user_id by_media media_id head ;;
      mirror_loop now user_id by_media heads
  end.

Definition links_by_media (links : list LinkRow) : gmap str (str * str) :=
  fold_left (fun m l => <[lk_media_id l := (lk_work_id l, lk_edition_sha l)]> m) links ∅.

(** The transaction of [mirror_heads], for heads that were read before it. *)
Definition mirror_write (now : Z) (user_id : str) (by_media : gmap str (str * str)) (heads : gmap str HeadRow) : Sql unit :=
  transaction (
    _ <-- ensure_counter user_id ;;
    mirror_loop now user_id by_media (map_to_list heads)).

Definition mirror_heads (now : Z) (user_id : str) : Sql unit :=
  links <-- query (fun s => List.filter (fun l => bool_decide (lk_user_id l = user_id)) (st_links s)) ;;
  if bool_decide (length links = 0%nat) then db_ret tt
  else
    let by_media := links_by_media links in
    heads <-- reading (ReadingService.heads user_id (map_to_list by_media).*1) ;;
    mirror_write now user_id by_media heads.

(** ** Merging works *)

(** [UPDATE ... SET work_id = identity WHERE user_id = user AND work_id = losing], on one
    row. *)
Definition move_work (user_id losing identity row_user row_work : str) : str :=
  if bool_decide (row_user = user_id) && bool_decide (row_work = losing) then identity else row_work.

Definition with_work (work_id : str) (r : OpRow) : OpRow :=
  {| ow_user_id := ow_user_id r; ow_seq := ow_seq r; ow_op_id := ow_op_id r; ow_work_id := work_id;
     ow_edition_sha := ow_edition_sha r; ow_device_id := ow_device_id r; ow_client_ts := ow_client_ts r;
     ow_progression := ow_progression r; ow_locator := ow_locator r; ow_foreign_pos := ow_foreign_pos r;
     ow_origin := ow_origin r; ow_received_at := ow_received_at r |}.

Definition move_op (user_id losing identity : str) (r : OpRow) : OpRow :=
  with_work (move_work user_id losing identity (ow_user_id r) (ow_work_id r)) r.

Definition move_link (user_id losing identity : str) (l : LinkRow) : LinkRow :=
  {| lk_id := lk_id l; lk_user_id := lk_user_id l; lk_media_id := lk_media_id l;
     lk_work_id := move_work user_id losing identity (lk_user_id l) (lk_work_id l);
     lk_edition_sha := lk_edition_sha l; lk_created_at := lk_created_at l |}.

Definition move_annotation (user_id losing identity : str) (r : AnnotationRow) : AnnotationRow :=
  {| aw_user_id := aw_user_id r; aw_id := aw_id r; aw_rev := aw_rev r; aw_seq := aw_seq r;
     aw_work_id := move_work user_id losing identity (aw_user_id r) (aw_work_id r);
     aw_edition_sha := aw_edition_sha r; aw_kind := aw_kind r; aw_locator := aw_locator r;
     aw_progression := aw_progression r; aw_excerpt := aw_excerpt r; aw_color := aw_color r; aw_drawer := aw_drawer r;
     aw_body := aw_body r; aw_device_id := aw_device_id r; aw_origin_device_id := aw_origin_device_id r;
     aw_client_ts := aw_client_ts r; aw_updated_at := aw_updated_at r; aw_deleted := aw_deleted r;
     aw_deleted_at := aw_deleted_at r; aw_payload := aw_payload r |}.

(** [merge_liseur_work], on the tables of the store; the caller's transaction is around
    it.  The aliases, editions and sessions, and the metadata and reviews of works, are
    not in the store. *)
Definition merge_liseur_work (user_id losing identity : str) : Sql unit :=
  _ <-- execute (fun s => (Ok tt, set_links s (move_link user_id losing identity <$> st_links s))) ;;
  _ <-- execute (fun s => (Ok tt, set_ops s (move_op user_id losing identity <$> st_ops s))) ;;
  _ <-- execute (fun s => (Ok tt, set_marks s
          {| mk_annotations := move_annotation user_id losing identity <$> mk_annotations (st_marks s);
             mk_native := mk_native (st_marks s); mk_bookmarks := mk_bookmarks (st_marks s);
             mk_attachments := mk_attachments (st_marks s) |})) ;;
  execute (fun s => (Ok tt, set_works s (st_works s ∖ {[(user_id, losing)]}))).

(** ** Reading the log *)

Definition seq_before (a b : OpRow) : Prop := ow_seq a <= ow_seq b.
Definition seq_after (a b : OpRow) : Prop := ow_seq b <= ow_seq a.

#[export] Instance seq_before_dec a b : Decision (seq_before a b).
Proof. unfold seq_before. apply _. Defined.

#[export] Instance seq_after_dec a b : Decision (seq_after a b).
Proof. unfold seq_after. apply _. Defined.

(** [ORDER BY seq ASC LIMIT limit] of the operations after a cursor. *)
Definition rows_since (user_id : str) (since : Z) (limit : nat) (s : Store) : list OpRow :=
  take limit (merge_sort seq_before
    (filter (fun r => ow_user_id r = user_id /\ since < ow_seq r) (st_ops s))).

Definition read_page (user_id : str) (since : Z) (limit : nat) (high_water : Z) : Sql ChangesPage :=
  rows <-- query (rows_since user_id since (limit + 1)) ;;
  db_ret {| cp_ops := op_record <$> take limit rows; cp_high_water := high_water;
            cp_has_more := (limit <? length rows)%nat |}.

Definition changes (now : Z) (user_id : str) (since : Z) (limit : nat) : Sql ChangesPage :=
  _ <-- mirror_heads now user_id ;;
  high_water <-- high_water user_id ;;
  read_page user_id since limit high_water.

(** The first row of each (work, device). *)
Fixpoint first_of_each (seen : gset (str * str)) (rows : list OpRow) : list OpRecord :=
  match rows with
  | [] => []
  | row :: rows =>
      let key := (ow_work_id row, ow_device_id row) in
      if bool_decide (key ∈ seen) then first_of_each seen rows
      else op_record row :: first_of_each ({[key]} ∪ seen) rows
  end.

Definition heads (now : Z) (user_id : str) : Sql HeadsPage :=
  _ <-- mirror_heads now user_id ;;
  snapshot_seq <-- high_water user_id ;;
  rows <-- query (fun s => merge_sort seq_after (filter (fun r => ow_user_id r = user_id) (st_ops s))) ;;
  db_ret {| hp_ops := first_of_each ∅ rows; hp_snapshot_seq := snapshot_seq |}.

Definition positions (now : Z) (user_id work_id : str) (limit : nat) : Sql (list OpRecord) :=
  _ <-- mirror_heads now user_id ;;
  known <-- work_exists user_id work_id ;;
  if negb known then db_err (Refused (NotFound (lit "work not found")))
  else
    rows <-- query (fun s => take limit (merge_sort seq_after
      (filter (fun r => ow_user_id r = user_id /\ ow_work_id r = work_id) (st_ops s)))) ;;
    db_ret (op_record <$> rows).

End log.

(** ** The log is well formed *)

Section invariant.
Context `{DecimalOps} `{Host} `{Chrono} `{Wire} `{!LocatorWire}.

Definition user_ops (user_id : str) (s : Store) : list OpRow := filter (fun r => ow_user_id r = user_id) (st_ops s).

Definition op_seq_of (user_id : str) (s : Store) : Z :=
  match st_counters s !! user_id with Some c => ct_op_seq c | None => 0 end.

(** The operations of an account are numbered from one, without gaps, in the order they
    were stored, the counter is the last number, and no operation id repeats. *)
Record log_wf (s : Store) : Prop := {
  lw_counter user_id : 0 <= op_seq_of user_id s;
  lw_seqs user_id : ow_seq <$> user_ops user_id s = seqZ 1 (op_seq_of user_id s);
  lw_ids user_id : NoDup (ow_op_id <$> user_ops user_id s);
}.

(** Operations are only ever appended. *)
Record log_grows (s s' : Store) : Prop := {
  lg_append : exists extra, st_ops s' = st_ops s ++ extra;
  lg_wf : log_wf s -> log_wf s';
}.

Lemma same_log_grows s s' :
  st_ops s' = st_ops s -> (forall u, op_seq_of u s' = op_seq_of u s) -> log_grows s s'.
Proof.
  intros Eo Ec. split; [exists []; by rewrite app_nil_r|]. intros [W1 W2 W3]. unfold user_ops in *.
  split; intros u; unfold user_ops; rewrite ?Ec, ?Eo; auto.
Qed.

#[export] Instance log_grows_free : FaultFree log_grows.
Proof.
  split; [split| |].
  - intros s. by apply same_log_grows.
  - intros s1 s2 s3 [(x1 & E1) W1] [(x2 & E2) W2]. split; [|auto]. exists (x1 ++ x2). by rewrite E2, E1, app_assoc.
  - intros s fs. by apply same_log_grows.
  - intros s m. by apply same_log_grows.
Qed.

(** A call that does what [R] allows when it succeeds. *)
Definition oks {A} (R : Store -> Store -> Prop) (c : Sql A) : Prop := forall s a s', c s = (Ok a, s') -> R s s'.

Lemma oks_acts {A} R (c : Sql A) : acts R c -> oks R c.
Proof. intros Hc s a s' E. pose proof (Hc s) as Hs. by rewrite E in Hs. Qed.

Lemma oks_bind {A B} R (c : Sql A) (k : A -> Sql B) :
  PreOrder R -> oks R c -> (forall a, oks R (k a)) -> oks R (db_bind c k).
Proof.
  intros HR Hc Hk s b s' [(e & _ & [=])|(a & s1 & E1 & E2)]%db_bind_cases. etrans; [by eapply Hc|by eapply Hk].
Qed.

Lemma oks_transaction {A} R (body : Sql A) : FaultFree R -> oks R body -> acts R (transaction body).
Proof.
  intros HR Hbody s. destruct (transaction body s) as [[a|e] s'] eqn:E; cbn.
  - apply transaction_done in E as (fs & s1 & fs' & E & ->). etrans; [apply (ff_faults s fs)|].
    etrans; [by eapply Hbody|apply ff_faults].
  - apply transaction_failed in E as (fs & m & ->). etrans; [apply (ff_faults s fs)|apply ff_sweeps].
Qed.

Lemma next_op_seq_done user_id s n s' :
  next_op_seq user_id s = (Ok n, s') ->
  exists c fs, st_counters s !! user_id = Some c /\ n = ct_op_seq c + 1 /\
    s' = set_faults (set_counters s (alter bump_op_seq user_id (st_counters s))) fs.
Proof.
  intros [(e & _ & [=])|([] & s1 & E1 & E)]%db_bind_cases. apply execute_cases in E1 as (fs & [[[=] _]|[= <-]]).
  apply db_bind_cases in E as [(e & _ & [=])|(row & s2 & (fs2 & -> & [[=]|[= ->]])%query_cases & E)].
  cbn [st_counters set_counters set_faults set_reading] in E. rewrite lookup_alter_eq in E.
  destruct (st_counters s !! user_id) as [c|]; [|done]. injection E as <- <-. exists c, fs2. done.
Qed.

Lemma insert_op_done row s s' :
  insert_op row s = (Ok tt, s') ->
  exists fs, s' = set_faults (set_ops s (st_ops s ++ [row])) fs /\
    (forall r, r ∈ st_ops s -> ow_user_id r = ow_user_id row -> ow_op_id r <> ow_op_id row).
Proof.
  intros (fs & [[[=] _]|E])%execute_cases. cbn [st_ops set_faults set_reading] in E.
  destruct (existsb _ _) eqn:Ex; [done|]. injection E as <-. exists fs. split; [done|].
  intros r Hr Hu Hid. apply (not_true_iff_false (existsb _ _)) in Ex. apply Ex, existsb_exists. exists r.
  split; [by apply list_elem_of_In|]. rewrite (bool_decide_eq_true_2 _ Hu), (bool_decide_eq_true_2 _ Hid). by rewrite orb_true_r.
Qed.

Lemma locator_to_db_done locator s r s' :
  locator_to_db locator s = (r, s') -> s' = s /\ forall s2, locator_to_db locator s2 = (r, s2).
Proof.
  unfold locator_to_db. destruct locator as [l|]; [destruct (json_text l)|]; intros [= <- <-]; done.
Qed.

(** One numbered insertion. *)
Lemma numbered_grows s s' user_id row c :
  st_counters s !! user_id = Some c -> ow_user_id row = user_id -> ow_seq row = ct_op_seq c + 1 ->
  (forall r, r ∈ st_ops s -> ow_user_id r = ow_user_id row -> ow_op_id r <> ow_op_id row) ->
  st_counters s' = alter bump_op_seq user_id (st_counters s) -> st_ops s' = st_ops s ++ [row] -> log_grows s s'.
Proof.
  intros Hc Hu Hseq Hfresh Ec Eo. split; [eauto|]. intros [W1 W2 W3].
  assert (Hother : forall u, u <> user_id -> op_seq_of u s' = op_seq_of u s /\ user_ops u s' = user_ops u s).
  { intros u Hne. unfold op_seq_of, user_ops. rewrite Ec, Eo, lookup_alter_ne by done. split; [done|].
    rewrite filter_app, filter_cons_False, filter_nil, app_nil_r by congruence. done. }
  assert (Hown : op_seq_of user_id s' = op_seq_of user_id s + 1 /\ user_ops user_id s' = user_ops user_id s ++ [row]).
  { unfold op_seq_of, user_ops. rewrite Ec, Eo, lookup_alter_eq, Hc. cbn. split; [done|].
    by rewrite filter_app, filter_cons_True, filter_nil by done. }
  assert (Hn : op_seq_of user_id s = ct_op_seq c) by (unfold op_seq_of; by rewrite Hc).
  destruct Hown as [Hown1 Hown2].
  split; intros u; (destruct (decide (u = user_id)) as [->|Hne]; [|destruct (Hother u Hne) as [H1' H2']; rewrite ?H1', ?H2'; auto]).
  - specialize (W1 user_id). lia.
  - rewrite Hown1, Hown2, fmap_app, W2. specialize (W1 user_id). rewrite seqZ_app by lia. f_equal.
    cbn [fmap list_fmap]. rewrite Hseq, Hn. rewrite seqZ_cons, seqZ_nil by lia. f_equal. lia.
  - rewrite Hown2, fmap_app. apply NoDup_app. split_and!; [done| |apply NoDup_singleton].
    intros id (r & -> & Hr)%list_elem_of_fmap Hid%list_elem_of_singleton.
    apply list_elem_of_filter in Hr as [Hru Hr]. apply (Hfresh r Hr); [congruence|done].
Qed.

(** *** What a push does *)

Lemma acts_reading {A} R (c : DB A) : (forall s db, R s (set_reading s db)) -> acts R (reading c).
Proof. intros HR s. unfold reading. destruct (c (st_reading s)) as [[a|[]] db]; apply HR. Qed.

Lemma apply_op_to_head_acts R now user_id device_id op :
  FaultFree R -> (forall s db, R s (set_reading s db)) -> acts R (apply_op_to_head now user_id device_id op).
Proof.
  intros HR Hr. unfold apply_op_to_head, linked_media. storing. by apply acts_reading.
Qed.

(** The log and the counters are untouched. *)
Definition same_log (s s' : Store) : Prop := st_ops s' = st_ops s /\ st_counters s' = st_counters s.

#[export] Instance same_log_free : FaultFree same_log.
Proof. split; [split| |]; unfold same_log; [done| |done|done]. intros s1 s2 s3 [] []. split; congruence. Qed.

Lemma same_log_log_grows s s' : same_log s s' -> log_grows s s'.
Proof. intros [E1 E2]. apply same_log_grows; [done|]. intros u. unfold op_seq_of. by rewrite E2. Qed.

Lemma op_matches_done row op s r s' :
  op_matches row op s = (r, s') -> s' = s /\ forall s2, op_matches row op s2 = (r, s2).
Proof.
  unfold op_matches, db_bind. destruct (locator_to_db (oi_locator op) s) as [[l|e] s1] eqn:El;
    apply locator_to_db_done in El as [-> El].
  - intros E. assert (s' = s) as ->.
    { destruct (_ && _ && _); [|by injection E]. by destruct (oi_progression op); injection E. }
    split; [done|]. intros s2. rewrite El. destruct (_ && _ && _); [|by injection E as <-].
    by destruct (oi_progression op); injection E as <-.
  - intros [= <- <-]. split; [done|]. intros s2. by rewrite El.
Qed.

(** A push of one operation that does not fail: the id was known, and the operation is
    compared with what it named; or it was new, and it is stored under the next number. *)
Lemma append_op_done now user_id device_id index op s r s' :
  append_op now user_id device_id index op s = (Ok r, s') ->
  (user_id, oi_work_id op) ∈ st_works s /\
  ((exists row b, List.find (is_op user_id (oi_op_id op)) (st_ops s) = Some row /\
      (forall s2, op_matches row op s2 = (Ok b, s2)) /\ same_log s s' /\ st_works s' = st_works s /\
      r = if b then op_duplicate op (ow_seq row) else op_conflict op) \/
   (exists c progression locator, List.find (is_op user_id (oi_op_id op)) (st_ops s) = None /\
      st_counters s !! user_id = Some c /\ oi_progression op = Some progression /\
      (forall s2, locator_to_db (oi_locator op) s2 = (Ok locator, s2)) /\
      r = op_applied op (ct_op_seq c + 1) /\ st_works s' = st_works s /\
      st_ops s' = st_ops s ++ [op_row now user_id device_id op progression locator (ct_op_seq c + 1)] /\
      log_grows s s')).
Proof.
  intros [(e & _ & [=])|(known & s1 & (fs1 & -> & [[=]|[= ->]])%query_cases & E)]%db_bind_cases.
  cbn [st_works set_faults set_reading] in E. case_bool_decide as Hw; cbn [negb] in E; [|done]. split; [done|].
  apply db_bind_cases in E as [(e & _ & [=])|(existing & s2 & (fs2 & -> & [[=]|[= ->]])%query_cases & E)].
  cbn [st_ops set_faults set_reading] in E.
  destruct (List.find (is_op user_id (oi_op_id op)) (st_ops s)) as [row|] eqn:Ef.
  - left. apply db_bind_cases in E as [(e & _ & [=])|(b & s3 & [-> Em]%op_matches_done & [= <- <-])].
    exists row, b. by split_and!.
  - right. apply db_bind_cases in E as [(e & _ & [=])|(n & s3 & (c & fs3 & Hc & -> & ->)%next_op_seq_done & E)].
    cbn [st_counters set_faults set_reading] in Hc. destruct (oi_progression op) as [p|] eqn:Ep; [|done].
    apply db_bind_cases in E as [(e & _ & [=])|(locator & s4 & [-> El]%locator_to_db_done & E)].
    apply db_bind_cases in E as [(e & _ & [=])|([] & s5 & (fs5 & -> & Hfresh)%insert_op_done & E)].
    apply db_bind_cases in E as [(e & _ & [=])|([] & s6 & Eh & [= <- <-])].
    pose proof (apply_op_to_head_acts (fun s s' => same_log s s' /\ st_works s' = st_works s) now user_id device_id op) as Hh.
    assert (Hfree : FaultFree (fun s s' => same_log s s' /\ st_works s' = st_works s)).
    { split; [split| |]; [done| |done|done]. intros ? ? ? [F1 E1] [F2 E2]. split; [by etrans|congruence]. }
    specialize (Hh Hfree ltac:(done)). apply oks_acts in Hh. destruct (Hh _ _ _ Eh) as [[Eo Ec] Ew].
    cbn [st_ops st_counters st_works set_ops set_counters set_faults set_reading] in Eo, Ec, Ew, Hfresh.
    exists c, p, locator. split_and!; try done.
    by eapply (numbered_grows s s6 user_id (op_row now user_id device_id op p locator (ct_op_seq c + 1)) c).
Qed.

Lemma append_loop_grows now user_id device_id index ops : oks log_grows (append_loop now user_id device_id index ops).
Proof.
  revert index. induction ops as [|op ops IH]; intros index; cbn [append_loop].
  - apply oks_acts, acts_ret. apply _.
  - apply oks_bind; [apply _| |intros r; apply oks_bind; [apply _|apply IH|intros ?; apply oks_acts, acts_ret; apply _]].
    intros s r s' (_ & [(row & b & _ & _ & Hs & _)|(c & p & l & _ & _ & _ & _ & _ & _ & _ & Hg)])%append_op_done; [|done].
    by apply same_log_log_grows.
Qed.

Lemma ensure_counter_grows user_id : acts log_grows (ensure_counter user_id).
Proof.
  apply acts_execute; [apply _|]. intros s. cbn. destruct (st_counters s !! user_id) as [c|] eqn:E; [by apply same_log_grows|].
  apply same_log_grows; [done|]. intros u. unfold op_seq_of. cbn. destruct (decide (u = user_id)) as [->|Hne].
  - by rewrite lookup_insert_eq, E.
  - by rewrite lookup_insert_ne.
Qed.

Lemma record_device_sync_acts R user_id device_id results :
  FaultFree R -> (forall s l, R s (set_sightings s l)) -> acts R (record_device_sync user_id device_id results).
Proof.
  intros HR Hs. apply ignoring_acts. storing. apply acts_execute; [done|]. intros s. apply Hs.
Qed.

Lemma append_ops_grows now user_id device_id ops : acts log_grows (append_ops now user_id device_id ops).
Proof.
  unfold append_ops. storing.
  - apply oks_transaction; [apply _|]. apply oks_bind; [apply _|apply oks_acts, ensure_counter_grows|intros _; apply append_loop_grows].
  - apply record_device_sync_acts; [apply _|]. intros s l. by apply same_log_grows.
Qed.

(** *** Mirroring *)

Lemma mirror_head_done now user_id by_media media_id head s s' :
  mirror_head now user_id by_media media_id head s = (Ok tt, s') ->
  (same_log s s' /\
   (h_source_protocol head = Liseur \/ is_Some (List.find (is_op user_id (mirrored_op_id (h_event_id head))) (st_ops s)) \/
    by_media !! media_id = None)) \/
  (exists c work_id edition_sha locator,
     h_source_protocol head <> Liseur /\ by_media !! media_id = Some (work_id, edition_sha) /\
     st_counters s !! user_id = Some c /\
     List.find (is_op user_id (mirrored_op_id (h_event_id head))) (st_ops s) = None /\
     st_ops s' = st_ops s ++ [mirror_row now user_id work_id edition_sha head locator (ct_op_seq c + 1)] /\ log_grows s s').
Proof.
  unfold mirror_head. case_bool_decide as Hp; [intros [= <-]; left; split; [reflexivity|auto]|].
  intros [(e & _ & [=])|(existing & s1 & (fs1 & -> & [[=]|[= ->]])%query_cases & E)]%db_bind_cases.
  cbn [st_ops set_faults set_reading] in E.
  destruct (List.find (is_op user_id (mirrored_op_id (h_event_id head))) (st_ops s)) as [row|] eqn:Ef.
  { injection E as <-. left. split; [done|]. right. left. eauto. }
  destruct (by_media !! media_id) as [[work_id edition_sha]|] eqn:Eb; [|injection E as <-; left; split; [done|auto]].
  right. apply db_bind_cases in E as [(e & _ & [=])|(n & s3 & (c & fs3 & Hc & -> & ->)%next_op_seq_done & E)].
  cbn [st_counters set_faults set_reading] in Hc.
  apply db_bind_cases in E as [(e & _ & [=])|(value & s4 & Ev & E)].
  assert (s4 = set_faults (set_counters (set_faults s fs1) (alter bump_op_seq user_id (st_counters (set_faults s fs1)))) fs3) as ->.
  { destruct (h_locator head) as [l|]; [destruct (value_of_locator l)|]; by injection Ev. }
  apply db_bind_cases in E as [(e & _ & [=])|(locator & s5 & [-> El]%locator_to_db_done & E)].
  apply insert_op_done in E as (fs6 & -> & Hfresh). cbn [st_ops set_counters set_faults set_reading] in Hfresh.
  exists c, work_id, edition_sha, locator. split_and!; try done.
  by eapply (numbered_grows s _ user_id (mirror_row now user_id work_id edition_sha head locator (ct_op_seq c + 1)) c).
Qed.

Lemma mirror_loop_grows now user_id by_media hs : oks log_grows (mirror_loop now user_id by_media hs).
Proof.
  induction hs as [|[media_id h] hs IH]; cbn [mirror_loop].
  - apply oks_acts, acts_ret. apply _.
  - apply oks_bind; [apply _| |intros _; apply IH].
    intros s [] s' [[Hs _]|(c & w & e & l & _ & _ & _ & _ & _ & Hg)]%mirror_head_done; [|done]. by apply same_log_log_grows.
Qed.

Lemma mirror_write_grows now user_id by_media hs : acts log_grows (mirror_write now user_id by_media hs).
Proof.
  apply oks_transaction; [apply _|]. apply oks_bind; [apply _|apply oks_acts, ensure_counter_grows|intros _; apply mirror_loop_grows].
Qed.

Lemma mirror_heads_grows now user_id : acts log_grows (mirror_heads now user_id).
Proof.
  unfold mirror_heads. storing.
  - apply acts_reading. intros s db. by apply same_log_grows.
  - apply mirror_write_grows.
Qed.

End invariant.

(** ** Every sequence of steps *)

Section runs.
Context `{DecimalOps} `{Host} `{Chrono} `{Wire} `{!LocatorWire}.

(** *** Merged works *)

(** A row later: the same but for the work, which merges of works of its account that
    [may] allows have moved it to. *)
Definition moves (may : str -> str -> str -> Prop) (r r' : OpRow) : Prop :=
  r' = with_work (ow_work_id r') r /\ rtc (may (ow_user_id r)) (ow_work_id r) (ow_work_id r').

Lemma moves_refl may r : moves may r r.
Proof. split; [by destruct r|done]. Qed.

Lemma moves_trans may r1 r2 r3 : moves may r1 r2 -> moves may r2 r3 -> moves may r1 r3.
Proof.
  intros [E1 H1'] [E2 H2']. split.
  - rewrite E2. rewrite E1. by destruct r1, r2, r3.
  - etrans; [exact H1'|]. rewrite E1 in H2'. exact H2'.
Qed.

#[export] Instance moves_preorder may : PreOrder (moves may).
Proof. split; [exact (moves_refl may)|exact (moves_trans may)]. Qed.

Lemma moves_same may r r' :
  moves may r r' -> ow_user_id r' = ow_user_id r /\ ow_seq r' = ow_seq r /\ ow_op_id r' = ow_op_id r.
Proof. intros [-> _]. done. Qed.

Lemma moves_user_ops may user_id l l' :
  Forall2 (moves may) l l' ->
  Forall2 (moves may) (filter (fun r => ow_user_id r = user_id) l) (filter (fun r => ow_user_id r = user_id) l').
Proof.
  induction 1 as [|r r' l l' Hr _ IH]; [constructor|]. destruct (moves_same _ _ _ Hr) as (Eu & _).
  rewrite !filter_cons, Eu. case_decide; [by constructor|done].
Qed.

Lemma moves_fmap {A} (f : OpRow -> A) may l l' :
  (forall r r', moves may r r' -> f r' = f r) -> Forall2 (moves may) l l' -> f <$> l' = f <$> l.
Proof. intros Hf. induction 1 as [|r r' l l' Hr _ IH]; [done|]. cbn. f_equal; [by apply Hf|done]. Qed.

(** Operations are appended, and what was there is moved at most. *)
Record log_evolves (may : str -> str -> str -> Prop) (s s' : Store) : Prop := {
  le_rows : exists old extra, st_ops s' = old ++ extra /\ Forall2 (moves may) (st_ops s) old;
  le_wf : log_wf s -> log_wf s';
}.

Lemma grows_evolves may s s' : log_grows s s' -> log_evolves may s s'.
Proof. intros [(x & E) W]. split; [|done]. exists (st_ops s), x. split; [done|]. by apply Forall2_same_length_lookup_2; [|intros i r r' ? ?; simplify_eq]. Qed.

#[export] Instance log_evolves_free may : FaultFree (log_evolves may).
Proof.
  split; [split| |].
  - intros s. apply grows_evolves. reflexivity.
  - intros s1 s2 s3 [(o1 & x1 & E1 & H1') W1] [(o2 & x2 & E2 & H2') W2]. split; [|auto].
    rewrite E1 in H2'. apply Forall2_app_inv_l in H2' as (o3 & x3 & Ho & Hx & ->). exists o3, (x3 ++ x2).
    split; [by rewrite E2, app_assoc|]. eapply Forall2_trans; [|exact H1'|exact Ho]. apply moves_trans.
  - intros s fs. apply grows_evolves, ff_faults.
  - intros s m. apply grows_evolves, ff_sweeps.
Qed.

Lemma move_op_moves (may : str -> str -> str -> Prop) user_id losing identity r :
  may user_id losing identity -> moves may r (move_op user_id losing identity r).
Proof.
  intros Hm. split; [done|]. cbn. unfold move_work. destruct (bool_decide (ow_user_id r = user_id)) eqn:Eu; [|done].
  destruct (bool_decide (ow_work_id r = losing)) eqn:Ew; [|done]. apply bool_decide_eq_true in Eu as ->, Ew as ->.
  by apply rtc_once.
Qed.

(** Rows that were moved are a log as good as the old. *)
Lemma moved_wf may s s' :
  Forall2 (moves may) (st_ops s) (st_ops s') -> (forall u, op_seq_of u s' = op_seq_of u s) -> log_wf s -> log_wf s'.
Proof.
  intros Hm Ec [W1 W2 W3]. split; intros u; rewrite ?Ec; [done| |].
  - rewrite <- W2. apply (moves_fmap ow_seq may); [by intros r r' (_ & E & _)%moves_same|by apply moves_user_ops].
  - assert (E : ow_op_id <$> user_ops u s' = ow_op_id <$> user_ops u s); [|by rewrite E].
    apply (moves_fmap ow_op_id may); [by intros r r' (_ & _ & E)%moves_same|by apply moves_user_ops].
Qed.

Lemma merge_evolves (may : str -> str -> str -> Prop) user_id losing identity :
  may user_id losing identity -> acts (log_evolves may) (merge_liseur_work user_id losing identity).
Proof.
  intros Hm. unfold merge_liseur_work. storing; apply acts_execute; try apply _; intros s; cbn.
  1,3,4: by apply grows_evolves, same_log_grows.
  assert (Hall : Forall2 (moves may) (st_ops s) (move_op user_id losing identity <$> st_ops s)).
  { induction (st_ops s) as [|r l IH]; [constructor|]. constructor; [by apply move_op_moves|done]. }
  split; [exists (move_op user_id losing identity <$> st_ops s), []; by rewrite app_nil_r|].
  by apply (moved_wf may).
Qed.

(** The atomic steps that write: a push, the mirroring of heads that were read at any
    earlier time, a merge of two works that [may] allows, and whatever else goes on in the
    database: pushed annotations, settings, tokens, positions of other protocols, and so
    on, which leave the operations and their numbering alone.  (Deleting an account, and
    moving one to another with the command line, also take the log along; they are not
    steps.) *)
Inductive log_step (may : str -> str -> str -> Prop) : Store -> Store -> Prop :=
| ls_append s now user_id device_id ops : log_step may s (append_ops now user_id device_id ops s).2
| ls_mirror s now user_id by_media hs : log_step may s (mirror_write now user_id by_media hs s).2
| ls_merge s user_id losing identity :
    may user_id losing identity -> log_step may s (transaction (merge_liseur_work user_id losing identity) s).2
| ls_other s s' : st_ops s' = st_ops s -> (forall u, op_seq_of u s' = op_seq_of u s) -> log_step may s s'.

Lemma log_step_evolves may s s' : log_step may s s' -> log_evolves may s s'.
Proof.
  destruct 1.
  - apply grows_evolves, append_ops_grows.
  - apply grows_evolves, mirror_write_grows.
  - apply (acts_transaction (log_evolves may)); [apply _|by apply merge_evolves].
  - by apply grows_evolves, same_log_grows.
Qed.

Lemma log_steps_evolve may s s' : rtc (log_step may) s s' -> log_evolves may s s'.
Proof. induction 1 as [s|s1 s2 s3 Hstep _ IH]; [reflexivity|]. etrans; [by apply log_step_evolves|done]. Qed.

(** The calls as the code runs them are such sequences. *)
Lemma mirror_heads_steps may now user_id s : rtc (log_step may) s (mirror_heads now user_id s).2.
Proof.
  unfold mirror_heads, db_bind. destruct (query _ s) as [[links|e] s1] eqn:E1;
    apply query_cases in E1 as (fs & -> & _); [|by apply rtc_once, ls_other].
  case_bool_decide; [by apply rtc_once, ls_other|].
  unfold reading. destruct (ReadingService.heads _ _ _) as [[hs|[]] db]; cbn; [|by apply rtc_once, ls_other..].
  eapply rtc_l; [by apply (ls_other may s (set_reading s db))|]. apply rtc_once. apply ls_mirror.
Qed.

Lemma changes_steps may now user_id since limit s : rtc (log_step may) s (changes now user_id since limit s).2.
Proof.
  unfold changes, db_bind. pose proof (mirror_heads_steps may now user_id s) as Hm.
  destruct (mirror_heads now user_id s) as [[[]|e] s1]; [|done]. cbn in Hm. eapply rtc_r; [exact Hm|].
  destruct (high_water user_id s1) as [[hw|e] s2] eqn:E2; apply query_cases in E2 as (fs & -> & _); [|by apply ls_other].
  unfold read_page, db_bind. destruct (query _ _) as [[rows|e] s3] eqn:E3; apply query_cases in E3 as (fs3 & -> & _); by apply ls_other.
Qed.

(** C7.  The operation log of every account, however pushes, the mirroring of positions,
    merges of works and everything else that leaves the log alone follow each other, and
    whatever statements fail: operations are numbered 1, 2, 3 and so on without a gap, in
    the order they were stored; the counter is the last number; no operation id is stored
    twice; and nothing that was stored is removed or changed, but that a merge of two
    works of the account moves the operations of the one to the other. *)
Theorem op_log_well_formed may s s' :
  log_wf s -> rtc (log_step may) s s' ->
  log_wf s' /\ exists old extra, st_ops s' = old ++ extra /\ Forall2 (moves may) (st_ops s) old.
Proof. intros Hwf Hsteps%log_steps_evolve. split; [by apply Hsteps|apply Hsteps]. Qed.

(** ** The feed *)

Lemma merge_sort_sorted {A} (R : A -> A -> Prop) `{!forall x y, Decision (R x y)} `{!Total R} `{!Transitive R} (l : list A) :
  (forall x y, x ∈ l -> y ∈ l -> R x y -> R y x -> x = y) -> StronglySorted R l -> merge_sort R l = l.
Proof.
  intros Ha Hs. apply (StronglySorted_unique_strong R).
  - intros x y Hx Hy. rewrite merge_sort_Permutation in Hx. by apply Ha.
  - by apply StronglySorted_merge_sort; typeclasses eauto.
  - done.
  - apply merge_sort_Permutation.
Qed.

#[local] Instance seq_before_total : Total seq_before.
Proof. intros a b. unfold seq_before. lia. Qed.

#[local] Instance seq_before_trans : Transitive seq_before.
Proof. intros a b c. unfold seq_before. lia. Qed.

#[local] Instance seq_after_total : Total seq_after.
Proof. intros a b. unfold seq_after. lia. Qed.

#[local] Instance seq_after_trans : Transitive seq_after.
Proof. intros a b c. unfold seq_after. lia. Qed.

(** Rows numbered from [k]. *)
Lemma numbered_sorted k l : ow_seq <$> l = seqZ k (Z.of_nat (length l)) -> StronglySorted seq_before l.
Proof.
  revert k. induction l as [|r l IH]; intros k; cbn [length]; [constructor|].
  rewrite seqZ_cons by lia. cbn [fmap list_fmap]. intros [= Hr Hl].
  replace (Z.pred (Z.of_nat (S (length l)))) with (Z.of_nat (length l)) in Hl by lia. constructor; [by eapply IH|].
  apply Forall_forall. intros x Hx. apply (list_elem_of_fmap_2 ow_seq) in Hx. rewrite Hl in Hx.
  apply elem_of_seqZ in Hx. unfold seq_before. lia.
Qed.

Lemma numbered_distinct k l x y :
  ow_seq <$> l = seqZ k (Z.of_nat (length l)) -> x ∈ l -> y ∈ l -> ow_seq x = ow_seq y -> x = y.
Proof.
  intros Hl [i Hi]%list_elem_of_lookup [j Hj]%list_elem_of_lookup E.
  assert (Hnd : NoDup (ow_seq <$> l)) by (rewrite Hl; apply NoDup_seqZ).
  assert (i = j) as ->; [|congruence].
  apply (NoDup_lookup (ow_seq <$> l) i j (ow_seq x) Hnd); rewrite list_lookup_fmap, ?Hi, ?Hj; cbn; congruence.
Qed.

Lemma numbered_after k since l :
  ow_seq <$> l = seqZ k (Z.of_nat (length l)) ->
  filter (fun r => since < ow_seq r) l = drop (Z.to_nat (since + 1 - k)) l.
Proof.
  revert k. induction l as [|r l IH]; intros k; cbn [length]; [by rewrite drop_nil|].
  rewrite seqZ_cons by lia. cbn [fmap list_fmap]. intros [= Hr Hl].
  replace (Z.pred (Z.of_nat (S (length l)))) with (Z.of_nat (length l)) in Hl by lia. specialize (IH _ Hl).
  rewrite filter_cons. case_decide as Hs.
  - replace (Z.to_nat (since + 1 - k)) with 0%nat by lia. rewrite IH.
    by replace (Z.to_nat (since + 1 - Z.succ k)) with 0%nat by lia.
  - rewrite IH. replace (Z.to_nat (since + 1 - k)) with (S (Z.to_nat (since + 1 - Z.succ k))) by lia. done.
Qed.

Lemma user_ops_numbered user_id s :
  log_wf s -> ow_seq <$> user_ops user_id s = seqZ 1 (Z.of_nat (length (user_ops user_id s))) /\
  op_seq_of user_id s = Z.of_nat (length (user_ops user_id s)).
Proof.
  intros [W1 W2 _]. specialize (W1 user_id). specialize (W2 user_id).
  assert (E : Z.of_nat (length (user_ops user_id s)) = op_seq_of user_id s); [|by rewrite E].
  rewrite <- (length_fmap ow_seq), W2, length_seqZ. lia.
Qed.

(** A page of the log is the next stretch of it. *)
Lemma rows_since_exact user_id since limit s :
  log_wf s -> 0 <= since -> rows_since user_id since limit s = take limit (drop (Z.to_nat since) (user_ops user_id s)).
Proof.
  intros Hwf Hs. destruct (user_ops_numbered user_id s Hwf) as [Hn _]. unfold rows_since.
  assert (E : filter (fun r => ow_user_id r = user_id /\ since < ow_seq r) (st_ops s) = drop (Z.to_nat since) (user_ops user_id s)).
  { transitivity (filter (fun r => since < ow_seq r) (user_ops user_id s)).
    - unfold user_ops. rewrite list_filter_filter. apply list_filter_iff. intros r. tauto.
    - rewrite (numbered_after 1) by done. f_equal. lia. }
  rewrite E. f_equal. apply merge_sort_sorted; [apply _..| |].
  - intros x y Hx Hy. unfold seq_before. intros ? ?. apply (numbered_distinct 1 _ x y Hn); [..|lia].
    + rewrite <- (take_drop (Z.to_nat since) (user_ops user_id s)). set_solver.
    + rewrite <- (take_drop (Z.to_nat since) (user_ops user_id s)). set_solver.
  - pose proof (numbered_sorted 1 _ Hn) as Hsort. rewrite <- (take_drop (Z.to_nat since) (user_ops user_id s)) in Hsort.
    revert Hsort. generalize (take (Z.to_nat since) (user_ops user_id s)). intros l. induction l as [|x l IH]; [done|].
    cbn. intros [Hl _]%StronglySorted_inv. by apply IH.
Qed.

(** A client that follows the feed: the database, the number it has read up to, and what
    it was given. *)
Record Reader := { rd_store : Store; rd_cursor : Z; rd_delivered : list OpRecord }.

Definition next_cursor (cursor : Z) (page : ChangesPage) : Z :=
  match last (cp_ops page) with Some op => or_seq op | None => cursor end.

(** Fetching a page, whatever high water was read before; and everything else. *)
Inductive feed_step (may : str -> str -> str -> Prop) (user_id : str) : Reader -> Reader -> Prop :=
| fd_other s s' cursor delivered :
    log_step may s s' ->
    feed_step may user_id {| rd_store := s; rd_cursor := cursor; rd_delivered := delivered |}
                      {| rd_store := s'; rd_cursor := cursor; rd_delivered := delivered |}
| fd_fetch s s' cursor delivered limit hw page :
    (1 <= limit)%nat -> read_page user_id cursor limit hw s = (Ok page, s') ->
    feed_step may user_id {| rd_store := s; rd_cursor := cursor; rd_delivered := delivered |}
                      {| rd_store := s'; rd_cursor := next_cursor cursor page; rd_delivered := delivered ++ cp_ops page |}.

(** What a client was given for a row: the record of the row as it was then. *)
Definition given (may : str -> str -> str -> Prop) (op : OpRecord) (row : OpRow) : Prop :=
  exists then_, op = op_record then_ /\ moves may then_ row.

Lemma given_now may rows : Forall2 (given may) (op_record <$> rows) rows.
Proof. induction rows as [|r rows IH]; constructor; [|done]. exists r. split; [done|reflexivity]. Qed.

Lemma given_later may ops rows rows' : Forall2 (given may) ops rows -> Forall2 (moves may) rows rows' -> Forall2 (given may) ops rows'.
Proof.
  intros Hg Hm. eapply Forall2_trans; [|exact Hg|exact Hm]. intros op r r' (r0 & -> & Hr0) Hr1.
  exists r0. split; [done|by etrans].
Qed.

Record reader_ok (may : str -> str -> str -> Prop) (user_id : str) (r : Reader) : Prop := {
  ro_wf : log_wf (rd_store r);
  ro_cursor : 0 <= rd_cursor r <= Z.of_nat (length (user_ops user_id (rd_store r)));
  ro_delivered : Forall2 (given may) (rd_delivered r) (take (Z.to_nat (rd_cursor r)) (user_ops user_id (rd_store r)));
}.

(** A page: the next operations of the log, and whether there are more. *)
Lemma read_page_exact user_id cursor limit hw s page s' :
  log_wf s -> 0 <= cursor -> read_page user_id cursor limit hw s = (Ok page, s') ->
  exists fs, s' = set_faults s fs /\
    cp_ops page = op_record <$> take limit (drop (Z.to_nat cursor) (user_ops user_id s)) /\
    (cp_has_more page = true <-> (limit < length (drop (Z.to_nat cursor) (user_ops user_id s)))%nat).
Proof.
  intros Hwf Hc [(e & _ & [=])|(rows & s1 & (fs & -> & [[=]|[= ->]])%query_cases & [= <- <-])]%db_bind_cases.
  exists fs. split; [done|]. cbn [cp_ops cp_has_more].
  assert (Hwf' : log_wf (set_faults s fs)) by (by apply (ff_faults (R := log_grows) s fs)).
  rewrite rows_since_exact by done. change (user_ops user_id (set_faults s fs)) with (user_ops user_id s).
  rewrite take_take, length_take, Nat.ltb_lt. replace (limit `min` (limit + 1))%nat with limit by lia. split; [done|]. lia.
Qed.

Lemma take_length_self {A} n (l : list A) : take (length (take n l)) l = take n l.
Proof.
  rewrite length_take. destruct (Nat.le_ge_cases n (length l)); [by rewrite Nat.min_l|].
  rewrite Nat.min_r by done. by rewrite !take_ge.
Qed.

Lemma next_cursor_exact user_id cursor limit hw s page s' :
  log_wf s -> 0 <= cursor <= Z.of_nat (length (user_ops user_id s)) -> read_page user_id cursor limit hw s = (Ok page, s') ->
  next_cursor cursor page = cursor + Z.of_nat (length (cp_ops page)).
Proof.
  intros Hwf Hc E. apply read_page_exact in E as (fs & _ & Ho & _); [|done|lia].
  destruct (user_ops_numbered user_id s Hwf) as [Hn _]. unfold next_cursor. rewrite Ho, fmap_last, length_fmap.
  set (l := take limit (drop (Z.to_nat cursor) (user_ops user_id s))).
  destruct l as [|x l'] eqn:El; [cbn; lia|].
  destruct (last (x :: l')) as [y|] eqn:Ey; [|by apply last_None in Ey]. cbn [fmap option_fmap option_map op_record or_seq].
  rewrite last_lookup in Ey. cbn [length Nat.pred] in Ey. rewrite <- El in Ey. unfold l in Ey.
  apply lookup_take_Some in Ey as [Ey _]. rewrite lookup_drop in Ey.
  assert (Hy : (ow_seq <$> user_ops user_id s) !! (Z.to_nat cursor + length l')%nat = Some (ow_seq y))
    by (by rewrite list_lookup_fmap, Ey).
  rewrite Hn in Hy. apply lookup_seqZ in Hy as [-> _]. cbn [length]. lia.
Qed.

Lemma evolves_user_ops may user_id s s' :
  log_evolves may s s' -> exists old extra, user_ops user_id s' = old ++ extra /\ Forall2 (moves may) (user_ops user_id s) old.
Proof.
  intros [(old & x & E & Hm) _]. unfold user_ops. rewrite E, filter_app. eexists _, _. split; [done|]. by apply moves_user_ops.
Qed.

Lemma feed_step_ok may user_id r r' : reader_ok may user_id r -> feed_step may user_id r r' -> reader_ok may user_id r'.
Proof.
  intros [Hwf Hc Hd] Hstep. destruct Hstep as [s s' cursor delivered Hstep%log_step_evolves|s s' cursor delivered limit hw page Hl E];
    cbn [rd_store rd_cursor rd_delivered] in *.
  - destruct (evolves_user_ops may user_id _ _ Hstep) as (old & extra & Ex & Hm). pose proof (Forall2_length _ _ _ Hm) as Hlen.
    split; cbn.
    + by apply Hstep.
    + rewrite Ex, length_app. lia.
    + rewrite Ex, take_app_le by lia. eapply given_later; [exact Hd|]. by apply Forall2_take.
  - pose proof (next_cursor_exact _ _ _ _ _ _ _ Hwf Hc E) as Hn.
    apply read_page_exact in E as (fs & -> & Ho & _); [|done|lia].
    assert (Hlen : (length (cp_ops page) <= length (user_ops user_id s) - Z.to_nat cursor)%nat)
      by (rewrite Ho, length_fmap, length_take, length_drop; lia).
    split; cbn [rd_store rd_cursor rd_delivered].
    + by apply (ff_faults (R := log_grows) s fs).
    + change (user_ops user_id (set_faults s fs)) with (user_ops user_id s). lia.
    + change (user_ops user_id (set_faults s fs)) with (user_ops user_id s). rewrite Hn.
      replace (Z.to_nat (cursor + Z.of_nat (length (cp_ops page)))) with (Z.to_nat cursor + length (cp_ops page))%nat by lia.
      rewrite <- take_take_drop. apply Forall2_app; [done|].
      rewrite Ho, length_fmap, take_length_self. apply given_now.
Qed.

(** C8.  A client that follows the change feed of its account from the start, fetching
    pages of any size while the log grows, works are merged and anything else happens
    that leaves the log alone, is given the operations of the log in order, each exactly
    once: what it holds always is the beginning of the log, each operation as it was when
    it was given, which a merge may since have moved to another work; a page holds the
    next operations as they are; one that says there is no more completes the log, and
    one that says there is more is full, so that the client catches up. *)
Theorem feed_exact may user_id s0 r :
  log_wf s0 -> rtc (feed_step may user_id) {| rd_store := s0; rd_cursor := 0; rd_delivered := [] |} r ->
  Forall2 (given may) (rd_delivered r) (take (Z.to_nat (rd_cursor r)) (user_ops user_id (rd_store r))) /\
  forall limit hw page s',
    read_page user_id (rd_cursor r) limit hw (rd_store r) = (Ok page, s') ->
    cp_ops page = op_record <$> take limit (drop (Z.to_nat (rd_cursor r)) (user_ops user_id (rd_store r))) /\
    (cp_has_more page = false -> Forall2 (given may) (rd_delivered r ++ cp_ops page) (user_ops user_id (rd_store r))) /\
    (cp_has_more page = true -> length (cp_ops page) = limit).
Proof.
  intros Hwf Hsteps. assert (Hok : reader_ok may user_id r).
  { assert (Hr0 : reader_ok may user_id {| rd_store := s0; rd_cursor := 0; rd_delivered := [] |})
      by (split; cbn; [done|lia|constructor]).
    revert Hr0. induction Hsteps as [r|r1 r2 r3 Hstep _ IH]; [done|]. intros Hr1. apply IH. by eapply feed_step_ok. }
  destruct Hok as [W C D]. split; [done|]. intros limit hw page s' E.
  apply read_page_exact in E as (fs & _ & Ho & Hm); [|done|lia]. split; [done|]. rewrite Ho. split; intros Hmore.
  - rewrite <- (take_drop (Z.to_nat (rd_cursor r)) (user_ops user_id (rd_store r))) at 2. apply Forall2_app; [done|].
    rewrite (take_ge (drop _ _)); [apply given_now|].
    apply not_true_iff_false in Hmore. rewrite Hm in Hmore. lia.
  - apply Hm in Hmore. rewrite length_fmap, length_take. lia.
Qed.

End runs.

(** ** Pushing again *)

Section retry.
Context `{DecimalOps} `{Host} `{Chrono} `{Wire} `{!LocatorWire}.

(** What a push that succeeded knows of one operation: a stored row it agrees with, or one
    it does not. *)
Definition settled_op (user_id : str) (ops : list OpRow) (op : OpInput) (r : OpResult) : Prop :=
  exists row b, List.find (is_op user_id (oi_op_id op)) ops = Some row /\
    (forall s, op_matches row op s = (Ok b, s)) /\
    if (b : bool) then os_op_id r = oi_op_id op /\ os_seq r = Some (ow_seq row) /\ os_status r <> lit "conflict"
    else r = op_conflict op.

(** The answer to pushing it again. *)
Definition again (r : OpResult) : OpResult :=
  if bool_decide (os_status r = lit "conflict") then r
  else {| os_op_id := os_op_id r; os_status := lit "duplicate"; os_seq := os_seq r; os_reason := None |}.

Lemma find_prefix {A} (p : A -> bool) l l' x : List.find p l = Some x -> List.find p (l ++ l') = Some x.
Proof. induction l as [|y l IH]; cbn; [done|]. by destruct (p y). Qed.

Lemma find_snoc {A} (p : A -> bool) l x : List.find p l = None -> p x = true -> List.find p (l ++ [x]) = Some x.
Proof. induction l as [|y l IH]; cbn; [by intros _ ->|]. by destruct (p y). Qed.

Lemma settled_op_grows user_id s s' op r : log_grows s s' -> settled_op user_id (st_ops s) op r -> settled_op user_id (st_ops s') op r.
Proof.
  intros [(x & ->) _] (row & b & Hf & Hm & Hr). exists row, b. split; [|done]. by apply find_prefix.
Qed.

(** The works of the operations take no part in a merge. *)
Definition apart (user_id : str) (ops : list OpInput) (u losing identity : str) : Prop :=
  u = user_id -> Forall (fun op => oi_work_id op <> losing /\ oi_work_id op <> identity) ops.

(** Which work a row is moved to does not matter for an operation of neither work. *)
Lemma op_matches_moves user_id (ops : list OpInput) op row row' s :
  op ∈ ops -> ow_user_id row = user_id -> moves (apart user_id ops) row row' -> op_matches row' op s = op_matches row op s.
Proof.
  intros Hop Hu [E Hw].
  assert (Hd : bool_decide (ow_work_id row' = oi_work_id op) = bool_decide (ow_work_id row = oi_work_id op)).
  { clear E. rewrite Hu in Hw. induction Hw as [w|w1 w2 w3 Hm _ IH]; [done|]. rewrite IH.
    pose proof (Hm eq_refl) as Hall. rewrite Forall_forall in Hall. destruct (Hall op Hop) as [Hl Hi].
    rewrite (bool_decide_eq_false_2 (w1 = _)), (bool_decide_eq_false_2 (w2 = _)); congruence. }
  unfold op_matches. rewrite Hd. rewrite E. done.
Qed.

Lemma find_moves may user_id op_id l old row :
  Forall2 (moves may) l old -> List.find (is_op user_id op_id) l = Some row ->
  exists row', List.find (is_op user_id op_id) old = Some row' /\ moves may row row'.
Proof.
  induction 1 as [|r r' l old Hr _ IH]; [done|]. cbn. destruct (moves_same _ _ _ Hr) as (Eu & _ & Ei).
  unfold is_op at 1 3. rewrite Eu, Ei. destruct (_ && _); [|done]. intros [= <-]. eauto.
Qed.

Lemma settled_op_evolves user_id (ops : list OpInput) s s' op r :
  op ∈ ops -> log_evolves (apart user_id ops) s s' -> settled_op user_id (st_ops s) op r -> settled_op user_id (st_ops s') op r.
Proof.
  intros Hop [(old & x & -> & Hold) _] (row & b & Hf & Hm & Hr).
  destruct (find_moves _ _ _ _ _ _ Hold Hf) as (row' & Hf' & Hrow).
  exists row', b. split; [by apply find_prefix|].
  assert (Hu : ow_user_id row = user_id).
  { apply find_Some_iff in Hf as [_ Hop']. unfold is_op in Hop'.
    rewrite andb_true_iff, !bool_decide_eq_true in Hop'. by destruct Hop'. }
  split; [intros s0; by rewrite (op_matches_moves user_id ops op row row')|].
  destruct (moves_same _ _ _ Hrow) as (_ & -> & _). done.
Qed.

(** The distance of a number in the unit interval to itself is less than any. *)
Lemma fsub_self_small p : in_unit p -> flt (fabs (fsub p p)) f64_epsilon = true.
Proof.
  intros Hp%in_unit_finite. destruct p as [s|s| |s m e]; try done.
  - by destruct s.
  - unfold fsub, SFsub. rewrite Z.sub_diag. by vm_compute.
Qed.

Lemma append_op_settles now user_id device_id index op s r s' :
  (forall p, oi_progression op = Some p -> in_unit p) ->
  append_op now user_id device_id index op s = (Ok r, s') -> settled_op user_id (st_ops s') op r.
Proof.
  intros Hunit (_ & [(row & b & Hf & Hm & [Eo _] & _ & ->)|(c & p & l & Hf & _ & Hp & Hl & -> & _ & Eo & _)])%append_op_done.
  - rewrite Eo. exists row, b. split_and!; [done|done|]. by destruct b.
  - rewrite Eo. exists (op_row now user_id device_id op p l (ct_op_seq c + 1)), true. split_and!.
    + apply find_snoc; [done|]. unfold is_op. by rewrite !bool_decide_eq_true_2.
    + intros s2. unfold op_matches, db_bind. rewrite Hl. cbn [op_row ow_work_id ow_edition_sha ow_client_ts].
      rewrite !bool_decide_eq_true_2 by done. cbn [andb]. rewrite Hp. unfold db_ret. cbn [op_row ow_progression ow_locator ow_foreign_pos].
      by rewrite (fsub_self_small _ (Hunit _ Hp)).
    + done.
    + done.
    + by vm_compute.
Qed.

Lemma append_loop_settles now user_id device_id index ops s rs s' :
  Forall (fun op => forall p, oi_progression op = Some p -> in_unit p) ops ->
  append_loop now user_id device_id index ops s = (Ok rs, s') ->
  Forall2 (settled_op user_id (st_ops s')) ops rs.
Proof.
  intros Hall. revert index s rs. induction Hall as [|op ops Hop _ IH]; intros index s rs; cbn [append_loop].
  - intros [= <- <-]. constructor.
  - intros [(e & _ & [=])|(r & s1 & E1 & E)]%db_bind_cases.
    apply db_bind_cases in E as [(e & _ & [=])|(rs' & s2 & E2 & [= <- <-])].
    constructor; [|by eapply IH]. apply append_op_settles in E1; [|done].
    eapply settled_op_grows; [|done]. by eapply append_loop_grows.
Qed.

(** A second push, when nothing fails and the works are still there. *)
Lemma append_op_again now user_id device_id index op s r :
  faults s = [] -> (user_id, oi_work_id op) ∈ st_works s -> settled_op user_id (st_ops s) op r ->
  append_op now user_id device_id index op s = (Ok (again r), s).
Proof.
  intros Hf Hw (row & b & Hfind & Hm & Hr). unfold append_op.
  erewrite db_bind_run by (by apply sql_query_ok). rewrite bool_decide_eq_true_2 by done. cbn [negb].
  erewrite db_bind_run by (by apply sql_query_ok). rewrite Hfind. erewrite db_bind_run by apply Hm. unfold db_ret.
  f_equal. f_equal. unfold again. destruct b.
  - destruct Hr as (Hid & Hseq & Hs). rewrite bool_decide_eq_false_2 by done. unfold op_duplicate. by rewrite Hid, Hseq.
  - subst r. by rewrite bool_decide_eq_true_2.
Qed.

Lemma append_loop_again now user_id device_id index ops rs s :
  faults s = [] -> Forall (fun op => (user_id, oi_work_id op) ∈ st_works s) ops ->
  Forall2 (settled_op user_id (st_ops s)) ops rs ->
  append_loop now user_id device_id index ops s = (Ok (again <$> rs), s).
Proof.
  intros Hf Hw Hs. revert index. induction Hs as [|op r ops rs Hop _ IH]; intros index; cbn [append_loop]; [done|].
  apply Forall_cons in Hw as [Hw1 Hw2]. erewrite db_bind_run by (by apply append_op_again).
  erewrite db_bind_run by (by apply IH). done.
Qed.

(** C9.  Pushing is idempotent.  When a push of operations with progressions in the unit
    interval went through, then at any later time, whatever was pushed, mirrored and
    merged in between, as long as none of its works took part in a merge and all of them
    still are there, pushing the same batch again for the same account, with no statement
    failing, stores nothing: every operation is answered as a duplicate with the number it
    was given, or with the conflict it had.  [merged_push_refused] shows what a merge of
    its work does to a batch. *)
Theorem push_again now user_id device_id ops s results s1 s2 now' device_id' :
  Forall (fun op => forall p, oi_progression op = Some p -> in_unit p) ops ->
  append_ops now user_id device_id ops s = (Ok results, s1) ->
  rtc (log_step (apart user_id ops)) s1 s2 -> faults s2 = [] -> Forall (fun op => (user_id, oi_work_id op) ∈ st_works s2) ops ->
  exists s3, append_ops now' user_id device_id' ops s2 = (Ok (again <$> results), s3) /\
    st_ops s3 = st_ops s2 /\ db_heads (st_reading s3) = db_heads (st_reading s2) /\
    forall u, op_seq_of u s3 = op_seq_of u s2.
Proof.
  intros Hunit E Hsteps Hf Hw. apply db_bind_cases in E as [(e & _ & [=])|(rs & sa & E1 & E)].
  apply db_bind_cases in E as [(e & _ & [=])|([] & sb & E2 & [= <- <-])].
  assert (Hset : Forall2 (settled_op user_id (st_ops s2)) ops rs).
  { apply transaction_done in E1 as (fs & sc & fs' & E1 & ->).
    apply db_bind_cases in E1 as [(e & _ & [=])|([] & sd & _ & E1)].
    apply append_loop_settles in E1; [|done].
    assert (Hev : log_evolves (apart user_id ops) sc s2).
    { etrans; [apply (ff_faults sc fs')|]. etrans; [|by apply log_steps_evolve]. apply grows_evolves.
      eapply oks_acts; [|exact E2]. apply record_device_sync_acts; [apply _|]. intros ? ?. by apply same_log_grows. }
    apply Forall2_same_length_lookup. split; [by apply Forall2_length in E1|]. intros i op r Hop Hr.
    eapply settled_op_evolves; [by eapply list_elem_of_lookup_2|exact Hev|]. by eapply Forall2_lookup_lr. }
  set (s2c := match st_counters s2 !! user_id with Some _ => s2
              | None => set_counters s2 (<[user_id := {| ct_op_seq := 0; ct_annotation_seq := 0; ct_projected_annotation_seq := 0 |}]> (st_counters s2)) end).
  assert (Hc : ensure_counter user_id s2 = (Ok tt, s2c)) by (unfold ensure_counter; by rewrite execute_ok).
  assert (Hfc : faults s2c = []) by (unfold s2c; by destruct (st_counters s2 !! user_id)).
  assert (Hoc : st_ops s2c = st_ops s2) by (unfold s2c; by destruct (st_counters s2 !! user_id)).
  assert (Hwc : st_works s2c = st_works s2) by (unfold s2c; by destruct (st_counters s2 !! user_id)).
  assert (Hrc : st_reading s2c = st_reading s2) by (unfold s2c; by destruct (st_counters s2 !! user_id)).
  assert (Hsc : forall u, op_seq_of u s2c = op_seq_of u s2).
  { intros u. unfold op_seq_of, s2c. destruct (st_counters s2 !! user_id) as [c|] eqn:Ec; [done|]. cbn.
    destruct (decide (u = user_id)) as [->|]; [by rewrite lookup_insert_eq, Ec|by rewrite lookup_insert_ne]. }
  assert (Et : transaction (_ <-- ensure_counter user_id ;; append_loop now' user_id device_id' 0 ops) s2 = (Ok (again <$> rs), s2c)).
  { unfold transaction. erewrite db_bind_run by (by rewrite execute_ok).
    erewrite db_bind_run; [|erewrite db_bind_run by exact Hc; apply append_loop_again; [done|by rewrite Hwc|by rewrite Hoc]].
    erewrite db_bind_run by (by rewrite execute_ok). done. }
  unfold append_ops. erewrite db_bind_run by exact Et.
  destruct (record_device_sync user_id device_id' (again <$> rs) s2c) as [r s3] eqn:E3.
  assert (Hr : r = Ok tt).
  { unfold record_device_sync, ignoring in E3. destruct (db_bind _ _ s2c) as [[[]|[]] s4] eqn:E4; try congruence.
    exfalso. unfold db_bind in E4. rewrite sql_query_ok in E4 by done. destruct (List.find _ _) as [t|]; [|done].
    by rewrite execute_ok in E4. }
  subst r. erewrite db_bind_run by exact E3. exists s3. split; [done|].
  assert (Hs3 : st_ops s3 = st_ops s2c /\ st_reading s3 = st_reading s2c /\ st_counters s3 = st_counters s2c).
  { unfold record_device_sync, ignoring, db_bind in E3. rewrite sql_query_ok in E3 by done.
    destruct (List.find _ _) as [t|]; [|by injection E3 as <-]. rewrite execute_ok in E3 by done. by injection E3 as <-. }
  destruct Hs3 as (Ho3 & Hr3 & Hc3). split_and!; [congruence|congruence|]. intros u. rewrite <- Hsc. unfold op_seq_of. by rewrite Hc3.
Qed.

(** *** Finished books *)

(** No push un-finishes a book.  Whatever a liseur client pushes and whatever fails,
    a book that an account has finished stays finished. *)
Theorem push_keeps_finished now user_id device_id ops s key :
  finished (st_reading s) key -> finished (st_reading (append_ops now user_id device_id ops s).2) key.
Proof.
  set (R := fun s s' : Store => finished (st_reading s) key -> finished (st_reading s') key).
  assert (Hfree : FaultFree R).
  { split; [split| |]; unfold R; [by intros ?|intros ? ? ?; auto|by intros ? ?|by intros ? ?]. }
  assert (Hread : forall publication op p, acts R (reading (apply now user_id publication (op_update device_id op p)))).
  { intros publication op p s1 Hfin. unfold reading.
    pose proof (run_call_finished (st_reading s1) key (now, user_id, publication, op_update device_id op p) Hfin) as Hrun.
    unfold run_call in Hrun. destruct (apply _ _ _ _ (st_reading s1)) as [[a|[]] db]; cbn in *; apply Hrun;
      intros [_ Hc]; cbn in Hc; by destruct (fle f64_one _). }
  assert (Hone : forall index op, acts R (append_op now user_id device_id index op)).
  { intros index op. unfold append_op, work_exists, find_op, op_matches, next_op_seq, locator_to_db, insert_op,
      apply_op_to_head, linked_media. storing;
      first [apply Hread|apply acts_execute; [done|]; intros s1; unfold R; try destruct (existsb _ _); done]. }
  assert (Hloop : forall index, acts R (append_loop now user_id device_id index ops)).
  { induction ops as [|op ops' IH]; intros index; cbn [append_loop]; storing; [apply Hone|apply IH]. }
  enough (Hall : acts R (append_ops now user_id device_id ops)) by apply (Hall s).
  unfold append_ops. storing.
  - apply acts_transaction; [done|]. storing; [|apply Hloop]. apply acts_execute; [done|]. intros s1. unfold R. cbn. by destruct (st_counters s1 !! user_id).
  - apply record_device_sync_acts; [done|]. by intros s1 l Hfin.
Qed.

End retry.

(** ** Mirroring *)

Section mirroring.
Context `{DecimalLaws} `{Host} `{Chrono} `{Wire} `{!LocatorWire}.

Lemma links_by_media_lookup links media_id :
  match links_by_media links !! media_id with
  | Some (work_id, edition_sha) =>
      exists l, l ∈ links /\ lk_media_id l = media_id /\ lk_work_id l = work_id /\ lk_edition_sha l = edition_sha
  | None => forall l, l ∈ links -> lk_media_id l <> media_id
  end.
Proof.
  unfold links_by_media. induction links as [|l links IH] using rev_ind; cbn.
  - rewrite lookup_empty. intros l. by rewrite elem_of_nil.
  - rewrite fold_left_app. cbn. destruct (decide (lk_media_id l = media_id)) as [<-|Hne].
    + rewrite lookup_insert_eq. exists l. set_solver.
    + rewrite lookup_insert_ne by done. destruct (fold_left _ links ∅ !! media_id) as [[w e]|].
      * destruct IH as (l' & Hl' & Hm). exists l'. set_solver.
      * intros l' [Hl'|Hl'%list_elem_of_singleton]%elem_of_app; [by apply IH|by subst].
Qed.

(** A row that mirrors the head of a linked book. *)
Definition mirrors (now : Z) (user_id : str) (by_media : gmap str (str * str)) (hs : list (str * HeadRow)) (row : OpRow) : Prop :=
  exists media_id h work_id edition_sha locator seq,
    (media_id, h) ∈ hs /\ h_source_protocol h <> Liseur /\ by_media !! media_id = Some (work_id, edition_sha) /\
    row = mirror_row now user_id work_id edition_sha h locator seq.

Lemma show_Z_inj n m : show_Z n = show_Z m -> n = m.
Proof.
  assert (Hd : forall k, 0 <= k -> forall l, show_nonneg k <> 45 :: l).
  { intros k Hk l E. destruct (show_nonneg_spec k Hk) as [Hall _]. rewrite E in Hall. by apply Forall_cons in Hall as [[=] _]. }
  assert (Hi : forall j k, 0 <= j -> 0 <= k -> show_nonneg j = show_nonneg k -> j = k).
  { intros j k Hj Hk E. destruct (show_nonneg_spec j Hj) as [_ E1], (show_nonneg_spec k Hk) as [_ E2]. congruence. }
  unfold show_Z. destruct (Z.ltb_spec n 0), (Z.ltb_spec m 0); intros E.
  - injection E as E. apply Hi in E; lia.
  - symmetry in E. by apply Hd in E.
  - by apply Hd in E.
  - by apply Hi.
Qed.

Lemma mirrored_op_id_inj n m : mirrored_op_id n = mirrored_op_id m -> n = m.
Proof. intros E%app_inv_head. by apply show_Z_inj. Qed.

(** A loop that went through: the move of every head that is due was in the log, or a row
    for it was added; and nothing else was. *)
Lemma mirror_loop_done now user_id by_media hs s s' :
  (forall a b, a ∈ hs -> b ∈ hs -> h_event_id a.2 = h_event_id b.2 -> a = b) ->
  mirror_loop now user_id by_media hs s = (Ok tt, s') ->
  exists extra, st_ops s' = st_ops s ++ extra /\ Forall (mirrors now user_id by_media hs) extra /\
  forall media_id h, (media_id, h) ∈ hs -> h_source_protocol h <> Liseur -> is_Some (by_media !! media_id) ->
    is_Some (List.find (is_op user_id (mirrored_op_id (h_event_id h))) (st_ops s)) \/
    exists row, row ∈ extra /\ mirrors now user_id by_media [(media_id, h)] row.
Proof.
  revert s. induction hs as [|[media_id h] hs IH]; intros s Hids; cbn [mirror_loop].
  - intros [= <-]. exists []. rewrite app_nil_r. split_and!; [done|constructor|]. intros m h Hin. by apply elem_of_nil in Hin.
  - intros [(e & _ & [=])|([] & s1 & E1 & E2)]%db_bind_cases.
    apply IH in E2 as (extra & Ex & Hex & Hall); [|intros a b Ha Hb; apply Hids; set_solver].
    assert (Hex' : Forall (mirrors now user_id by_media ((media_id, h) :: hs)) extra).
    { eapply Forall_impl; [exact Hex|]. intros row (m & h' & w & e & l & n & Hin & Hrest). exists m, h', w, e, l, n.
      split; [set_solver|done]. }
    apply mirror_head_done in E1 as [[[Eo _] Hwhy]|(c & w & e & l & Hp & Hb & _ & Hf & Eo & _)].
    + exists extra. rewrite Ex, Eo. split_and!; [done|done|].
      intros m h' [[= -> ->]|Hin]%elem_of_cons Hp Hb; [|rewrite <- Eo; by apply Hall].
      left. destruct Hwhy as [?|[Hrow|Hn]]; [done|done|rewrite Hn in Hb; by destruct Hb].
    + set (new := mirror_row now user_id w e h l (ct_op_seq c + 1)) in *. exists (new :: extra).
      assert (Hnew : mirrors now user_id by_media [(media_id, h)] new) by (exists media_id, h, w, e, l, (ct_op_seq c + 1); set_solver).
      rewrite Ex, Eo, <- app_assoc. split_and!; [done| |].
      * constructor; [|done]. destruct Hnew as (m & h' & w' & e' & l' & n' & Hin & Hrest). exists m, h', w', e', l', n'.
        split; [set_solver|done].
      * intros m h' Hin Hp' Hb'. destruct (decide (h_event_id h' = h_event_id h)) as [Eid|Hid].
        { assert ((m, h') = (media_id, h)) as [= -> ->] by (apply Hids; [done|by left|done]). right. exists new. set_solver. }
        apply elem_of_cons in Hin as [[= -> ->]|Hin]; [done|].
        destruct (Hall m h' Hin Hp' Hb') as [[row Hrow]|(row & Hrow & Hm)]; [|right; exists row; set_solver].
        left. rewrite Eo in Hrow. destruct (List.find (is_op user_id (mirrored_op_id (h_event_id h'))) (st_ops s)) as [r0|] eqn:E0; [eauto|].
        exfalso. rewrite find_fresh in Hrow; [|by apply find_None_iff]. cbn in Hrow. unfold is_op in Hrow.
        rewrite (bool_decide_eq_false_2 (ow_op_id new = _)), andb_false_r in Hrow; [done|].
        cbn. intros E%mirrored_op_id_inj. done.
Qed.

Lemma heads_done user_id media_ids db hs db' :
  db_wf db -> ReadingService.heads user_id media_ids db = (Ok hs, db') ->
  forall media_id h, hs !! media_id = Some h <-> media_id ∈ media_ids /\ db_heads db !! (user_id, media_id) = Some h.
Proof.
  intros Hwf E media_id h. unfold ReadingService.heads in E. destruct media_ids as [|m ms].
  { injection E as <- <-. rewrite lookup_empty. set_solver. }
  apply db_bind_cases in E as [(e & _ & [=])|(rows & db1 & Es & [= <- <-])].
  apply statement_cases in Es as [[[=] _]|(db0 & (Hh & He & Hn) & [= <- <-])].
  assert (Hin : forall m' h', (m', h') ∈ (fun h => (h_media_id h, h)) <$> heads_in db0 user_id (m :: ms) <->
                 m' ∈ m :: ms /\ db_heads db !! (user_id, m') = Some h').
  { intros m' h'. assert (E0 : heads_in db0 user_id (m :: ms) = heads_in db user_id (m :: ms)) by (unfold heads_in; by rewrite Hh).
    rewrite E0, list_elem_of_fmap. split.
    - intros (x & [= -> ->] & Hx). apply (heads_in_spec _ _ _ _ Hwf) in Hx as [? ?]. done.
    - intros [Hm Hx]. destruct (wf_heads _ Hwf _ _ Hx) as (_ & Hmid & _). cbn in Hmid. exists h'. split; [by rewrite Hmid|].
      apply heads_in_spec; [done|]. by rewrite Hmid. }
  split.
  - intros Hl%elem_of_list_to_map_2. by apply Hin.
  - intros Hx. apply elem_of_list_to_map_1'; [|by apply Hin]. intros y Hy. apply Hin in Hy as [_ Hy]. destruct Hx. congruence.
Qed.

(** A head names the provenance row that made it, so no two heads name one. *)
Lemma heads_by_event db key key' h h' :
  db_wf db -> db_heads db !! key = Some h -> db_heads db !! key' = Some h' -> h_event_id h = h_event_id h' -> key = key'.
Proof.
  intros Hwf Hh Hh' E. destruct (wf_heads _ Hwf _ _ Hh) as (_ & _ & _ & e & He & Hid & _ & Hu & Hm & _).
  destruct (wf_heads _ Hwf _ _ Hh') as (_ & _ & _ & e' & He' & Hid' & _ & Hu' & Hm' & _).
  assert (e = e') as <-; [|destruct key, key'; cbn in *; congruence].
  apply list_elem_of_lookup in He as [i Hi], He' as [j Hj].
  assert (i = j) as ->; [|congruence].
  assert (Hnd : NoDup (e_id <$> db_events db)).
  { pose proof (wf_ids_sorted _ Hwf) as Hs. clear -Hs. induction Hs as [|x l _ IH Hx]; constructor; [|done].
    intros Hin. rewrite Forall_forall in Hx. specialize (Hx x Hin). lia. }
  apply (NoDup_lookup _ i j (e_id e) Hnd); rewrite list_lookup_fmap, ?Hi, ?Hj; cbn; congruence.
Qed.

(** [row] is the operation for the move that [h], the head of a linked book, records. *)
Definition mirror_of_head (now : Z) (user_id : str) (s : Store) (media_id : str) (h : HeadRow) (row : OpRow) : Prop :=
  h_source_protocol h <> Liseur /\
  ow_user_id row = user_id /\ ow_op_id row = mirrored_op_id (h_event_id h) /\
  ow_progression row = h_progression h /\ ow_client_ts row = to_rfc3339_nanos (h_updated_at h) /\
  ow_origin row = protocol_name (h_source_protocol h) /\
  exists l, l ∈ st_links s /\ lk_user_id l = user_id /\ lk_media_id l = media_id /\
    ow_work_id row = lk_work_id l /\ ow_edition_sha row = Some (lk_edition_sha l).

(** C10.  Mirroring.  When it goes through, it adds to the log, for every book of the
    account that is linked to a work and whose position was last moved by another
    protocol, an operation for that very move, under the work and edition of a link of the
    book, with the progression, time and protocol of the move; unless the log already had
    an operation with the id of the move, because it was mirrored before or because a
    client used that id ([used_mirror_id]).  It adds nothing else: a position that a
    liseur client pushed is never echoed back, and as operation ids do not repeat, each
    move is mirrored once. *)
Theorem mirror_exact now user_id s s' :
  db_wf (st_reading s) -> mirror_heads now user_id s = (Ok tt, s') ->
  exists extra, st_ops s' = st_ops s ++ extra /\
    (forall l h, l ∈ st_links s -> lk_user_id l = user_id -> db_heads (st_reading s) !! (user_id, lk_media_id l) = Some h ->
       h_source_protocol h <> Liseur ->
       (exists row, row ∈ st_ops s /\ ow_user_id row = user_id /\ ow_op_id row = mirrored_op_id (h_event_id h)) \/
       (exists row, row ∈ extra /\ mirror_of_head now user_id s (lk_media_id l) h row)) /\
    Forall (fun row => exists media_id h, db_heads (st_reading s) !! (user_id, media_id) = Some h /\
      mirror_of_head now user_id s media_id h row) extra.
Proof.
  intros Hwf. unfold mirror_heads.
  intros [(e & _ & [=])|(links & s1 & (fs & -> & [[=]|[= ->]])%query_cases & E)]%db_bind_cases.
  cbn [st_links set_faults set_reading] in E. set (links := List.filter _ (st_links s)) in E.
  assert (Hlinks : forall l, l ∈ links <-> l ∈ st_links s /\ lk_user_id l = user_id).
  { intros l. unfold links. rewrite !list_elem_of_In, filter_In, bool_decide_eq_true. done. }
  case_bool_decide as Hlen.
  { injection E as <-. exists []. rewrite app_nil_r. split_and!; [done| |constructor].
    intros l h Hl Hu. destruct links as [|x ls]; [|done]. assert (Hx : l ∈ @nil LinkRow) by (by apply Hlinks). by apply elem_of_nil in Hx. }
  apply db_bind_cases in E as [(e & _ & [=])|(hs & s2 & Er & E)].
  unfold reading in Er. cbn [st_reading set_faults set_reading] in Er.
  match type of Er with context [ReadingService.heads _ _ ?db] => set (db0 := db) in Er end.
  destruct (ReadingService.heads user_id _ db0) as [[hs'|[]] db] eqn:Eh; [|done..]. injection Er as <- <-.
  assert (Hwf0 : db_wf db0) by (destruct Hwf as [W1 W2 W3]; split; done).
  pose proof (heads_done _ _ _ _ _ Hwf0 Eh) as Hhs. cbn [db_heads db0] in Hhs.
  apply transaction_done in E as (fs3 & s4 & fs4 & E & ->). cbn [st_ops set_faults set_reading].
  apply db_bind_cases in E as [(e & _ & [=])|([] & s5 & E5 & E)].
  assert (Eo5 : st_ops s5 = st_ops s).
  { apply execute_cases in E5 as (? & [[[=] _]|[= <-]]). cbn. by destruct (st_counters s !! user_id). }
  assert (Hmirror : forall hl row, (forall m h, (m, h) ∈ hl -> db_heads (st_reading s) !! (user_id, m) = Some h) ->
    mirrors now user_id (links_by_media links) hl row ->
    exists m h, (m, h) ∈ hl /\ mirror_of_head now user_id s m h row).
  { intros hl row Hhl (m & h & w & e & loc & n & Hin & Hp & Hb & ->). exists m, h. split; [done|].
    pose proof (links_by_media_lookup links m) as Hlk. rewrite Hb in Hlk. destruct Hlk as (l & Hl & <- & <- & <-).
    apply Hlinks in Hl as [Hl Hu]. split_and!; try done. exists l. done. }
  assert (Hin : forall m h, (m, h) ∈ map_to_list hs' -> db_heads (st_reading s) !! (user_id, m) = Some h)
    by (intros m h Hm%elem_of_map_to_list; by apply Hhs in Hm as [_ Hm]).
  apply mirror_loop_done in E as (extra & Ex & Hex & Hall).
  - rewrite Eo5 in Ex, Hall. exists extra. split_and!; [done| |].
    + intros l h Hl Hu Hh Hp.
      assert (Hb : is_Some (links_by_media links !! lk_media_id l)).
      { pose proof (links_by_media_lookup links (lk_media_id l)) as Hlk. destruct (links_by_media links !! lk_media_id l); [eauto|].
        destruct (Hlk l); [by apply Hlinks|done]. }
      destruct (Hall (lk_media_id l) h) as [[row Hrow]|(row & Hrow & Hm)]; [|done|done| |].
      * apply elem_of_map_to_list, Hhs. split; [|done]. destruct Hb as [x Hx]. apply list_elem_of_fmap. exists (lk_media_id l, x).
        split; [done|]. by apply elem_of_map_to_list.
      * left. apply find_Some_iff in Hrow as [Hrin Hop]. unfold is_op in Hop. rewrite andb_true_iff, !bool_decide_eq_true in Hop.
        exists row. done.
      * right. exists row. split; [done|].
        apply Hmirror in Hm as (m' & h' & [= -> ->]%list_elem_of_singleton & Hm); [done|].
        by intros m' h' [= -> ->]%list_elem_of_singleton.
    + eapply Forall_impl; [exact Hex|]. intros row (m & h & Hmh & Hm)%Hmirror; [|exact Hin]. exists m, h. split; [by apply Hin|done].
  - intros [m h] [m' h'] Ha Hb Eid. cbn in Eid. apply Hin in Ha, Hb.
    assert (Ek : (user_id, m) = (user_id, m')) by (eapply heads_by_event; eauto). congruence.
Qed.

(** ** The latest positions *)

Lemma first_of_each_spec seen rows op :
  op ∈ first_of_each seen rows <->
  exists l1 row l2, rows = l1 ++ row :: l2 /\ op = op_record row /\ ((ow_work_id row, ow_device_id row) ∉ seen) /\
    forall r, r ∈ l1 -> (ow_work_id r, ow_device_id r) <> (ow_work_id row, ow_device_id row).
Proof.
  revert seen. induction rows as [|x rows IH]; intros seen; cbn.
  - rewrite elem_of_nil. split; [done|]. by intros ([|] & row & l2 & [=] & _).
  - case_bool_decide as Hs.
    + rewrite IH. split.
      * intros (l1 & row & l2 & -> & -> & Hn & Hl). exists (x :: l1), row, l2. split_and!; try done.
        intros r [->|Hr]%elem_of_cons; [by intros E; rewrite E in Hs|by apply Hl].
      * intros ([|y l1] & row & l2 & E & -> & Hn & Hl); injection E as -> ->; [done|]. exists l1, row, l2.
        split_and!; try done. intros r Hr. apply Hl. set_solver.
    + rewrite elem_of_cons, IH. split.
      * intros [->|(l1 & row & l2 & -> & -> & Hn & Hl)].
        -- exists [], x, rows. split_and!; try done. intros r Hr. by apply elem_of_nil in Hr.
        -- rewrite not_elem_of_union, not_elem_of_singleton in Hn. destruct Hn as [Hn1 Hn2].
           exists (x :: l1), row, l2. split_and!; try done.
           intros r [->|Hr]%elem_of_cons; [by intros E; apply Hn1|by apply Hl].
      * intros ([|y l1] & row & l2 & E & -> & Hn & Hl); injection E as -> ->; [by left|right]. exists l1, row, l2.
        split_and!; try done; [|intros r Hr; apply Hl; set_solver].
        rewrite not_elem_of_union, not_elem_of_singleton. split; [|done]. intros E. apply (Hl y); [set_solver|done].
Qed.

#[local] Instance seq_after_total' : Total seq_after.
Proof. intros a b. unfold seq_after. lia. Qed.

#[local] Instance seq_after_trans' : Transitive seq_after.
Proof. intros a b c. unfold seq_after. lia. Qed.

(** The heads of an account: for every work and device, the latest operation that
    device stored for that work, and nothing else; and the number up to which they are
    current is the last number of the log. *)
Theorem heads_latest now user_id s page s' :
  log_wf s -> heads now user_id s = (Ok page, s') ->
  hp_snapshot_seq page = Z.of_nat (length (user_ops user_id s')) /\
  forall op, op ∈ hp_ops page <->
    exists row, row ∈ user_ops user_id s' /\ op = op_record row /\
      forall r, r ∈ user_ops user_id s' -> ow_work_id r = ow_work_id row -> ow_device_id r = ow_device_id row ->
        ow_seq r <= ow_seq row.
Proof.
  intros Hwf [(e & _ & [=])|([] & s1 & E1 & E)]%db_bind_cases.
  apply db_bind_cases in E as [(e & _ & [=])|(hw & s2 & (fs2 & -> & [[=]|[= ->]])%query_cases & E)].
  apply db_bind_cases in E as [(e & _ & [=])|(rows & s3 & (fs3 & -> & [[=]|[= ->]])%query_cases & [= <- <-])].
  assert (Hwf1 : log_wf s1). { pose proof (mirror_heads_grows now user_id s) as Hg. rewrite E1 in Hg. by apply Hg. }
  cbn [hp_snapshot_seq hp_ops]. rewrite !set_faults_twice. change (user_ops user_id (set_faults s1 fs3)) with (user_ops user_id s1).
  destruct (user_ops_numbered user_id s1 Hwf1) as [Hn Hs]. split; [exact Hs|]. intros op. rewrite first_of_each_spec.
  change (filter (fun r => ow_user_id r = user_id) (st_ops (set_faults s1 fs3))) with (user_ops user_id s1).
  assert (Hp : merge_sort seq_after (user_ops user_id s1) ≡ₚ user_ops user_id s1) by apply merge_sort_Permutation.
  assert (Hsort : StronglySorted seq_after (merge_sort seq_after (user_ops user_id s1))) by (apply StronglySorted_merge_sort; typeclasses eauto).
  split.
  - intros (l1 & row & l2 & E & -> & _ & Hl). change (merge_sort seq_after (user_ops user_id s1) = l1 ++ row :: l2) in E. exists row.
    assert (Hrow : row ∈ user_ops user_id s1) by (rewrite <- Hp, E; set_solver). split_and!; [done|done|].
    intros r Hr Hw Hd. rewrite <- Hp, E in Hr. apply elem_of_app in Hr as [Hr|[->|Hr]%elem_of_cons]; [|lia|].
    + destruct (Hl r Hr). congruence.
    + rewrite E in Hsort. clear -Hsort Hr. induction l1 as [|y l1 IH]; cbn in Hsort; apply StronglySorted_inv in Hsort as [Hs Hy]; [|auto].
      rewrite Forall_forall in Hy. by apply Hy.
  - intros (row & Hrow & -> & Hmax). rewrite <- Hp in Hrow. apply list_elem_of_split in Hrow as (l1 & l2 & E).
    exists l1, row, l2. split_and!; [done|done|set_solver|]. intros r Hr Hkey.
    assert (Hrin : r ∈ user_ops user_id s1) by (rewrite <- Hp, E; set_solver).
    assert (Hle : ow_seq r <= ow_seq row) by (apply Hmax; [done|congruence..]).
    assert (Hge : ow_seq row <= ow_seq r).
    { rewrite E in Hsort. clear -Hsort Hr. induction l1 as [|y l1 IH]; [by apply elem_of_nil in Hr|].
      cbn in Hsort. apply StronglySorted_inv in Hsort as [Hs Hy]. apply elem_of_cons in Hr as [->|Hr]; [|auto].
      rewrite Forall_forall in Hy. apply Hy. set_solver. }
    assert (r = row) as ->. { apply (numbered_distinct 1 (user_ops user_id s1)); [done|done|rewrite <- Hp, E; set_solver|lia]. }
    assert (Hnd : NoDup (user_ops user_id s1)) by (eapply NoDup_fmap_1; rewrite Hn; apply NoDup_seqZ).
    rewrite <- Hp, E in Hnd. apply NoDup_app in Hnd as (_ & Hnd & _). apply (Hnd row Hr). set_solver.
Qed.

End mirroring.

(** ** Concrete inputs *)

#[local] Existing Instance fixed_ops.
#[local] Existing Instance fixed_laws.
#[local] Existing Instance demo_chrono.
#[local] Existing Instance demo_host.
#[local] Instance demo_wire : Wire := {| json_text _ := Some []; annotation_of_value _ := None |}.
#[local] Instance demo_locators : LocatorWire :=
  {| locator_of_value _ := None; value_of_locator _ := Some JNull; value_of_text _ := None |}.

Definition half : f64 := S754_finite false 4503599627370496 (-53).

Definition demo_op (id : string) (p : f64) : OpInput :=
  {| oi_op_id := lit id; oi_work_id := lit "w"; oi_edition_sha := None; oi_client_ts := [7]; oi_progression := Some p;
     oi_locator := None; oi_foreign_pos := None |}.

Definition demo_push (ops : list OpInput) (s : Store) : result (list OpResult) Stop * Store :=
  append_ops 10 (lit "u") (lit "d") ops s.

Definition pushed : Store := (demo_push [demo_op "a" half; demo_op "b" f64_one] (demo_store [])).2.

Lemma demo_store_wf fs : log_wf (demo_store fs).
Proof. split; intros u; [done|done|constructor]. Qed.

Lemma push_run may s ops : rtc (log_step may) s (demo_push ops s).2.
Proof. apply rtc_once, ls_append. Qed.

(** The work the book is known by takes over the work of the demonstration. *)
Definition demo_merge (s : Store) : Store := (transaction (merge_liseur_work (lit "u") (lit "w") (lit "i")) s).2.

Definition all_merges (user_id losing identity : str) : Prop := True.

(** A push after one that fails, and then a merge. *)
Lemma op_log_well_formed_witness :
  let s' := demo_merge (demo_push [demo_op "b" half] (demo_push [demo_op "a" half] (demo_store [true])).2).2 in
  log_wf (demo_store [true]) /\ log_wf s' /\ ow_work_id <$> st_ops s' = [lit "i"].
Proof.
  intros s'. split; [apply demo_store_wf|].
  destruct (op_log_well_formed all_merges (demo_store [true]) s' (demo_store_wf [true])) as [Hwf _].
  - eapply rtc_l; [apply ls_append|]. eapply rtc_l; [apply ls_append|]. apply rtc_once, ls_merge. exact I.
  - split; [exact Hwf|]. vm_compute. reflexivity.
Defined.

Lemma feed_exact_witness :
  exists page s',
    read_page (lit "u") 0 1 2 pushed = (Ok page, s') /\ cp_has_more page = true /\ length (cp_ops page) = 1%nat.
Proof.
  destruct (read_page (lit "u") 0 1 2 pushed) as [[page|e] s'] eqn:E; [|apply (f_equal (fun r => is_ok r.1)) in E; by vm_compute in E].
  exists page, s'.
  assert (Hm : cp_has_more page = true).
  { apply (f_equal (fun r => match r.1 with Ok p => cp_has_more p | Err _ => false end)) in E. etrans; [symmetry; exact E|by vm_compute]. }
  split; [done|]. split; [done|].
  assert (Hsteps : rtc (feed_step all_merges (lit "u")) {| rd_store := demo_store []; rd_cursor := 0; rd_delivered := [] |}
                     {| rd_store := pushed; rd_cursor := 0; rd_delivered := [] |}) by (apply rtc_once, fd_other, ls_append).
  pose proof (feed_exact all_merges (lit "u") (demo_store []) _ (demo_store_wf []) Hsteps) as [_ Hfeed].
  by apply (Hfeed 1%nat 2 page s' E).
Defined.

Lemma demo_unit :
  Forall (fun op => forall p, oi_progression op = Some p -> in_unit p) [demo_op "a" half; demo_op "b" f64_one].
Proof. apply Forall_cons. split; [intros p [= <-]; by vm_compute|]. apply Forall_singleton. intros p [= <-]. by vm_compute. Qed.

(** In between, works of the account that are not the batch's are merged. *)
Definition merged_others : Store := (transaction (merge_liseur_work (lit "u") (lit "x") (lit "i")) pushed).2.

Lemma push_again_witness :
  exists s3, demo_push [demo_op "a" half; demo_op "b" f64_one] merged_others =
    (Ok [op_duplicate (demo_op "a" half) 1; op_duplicate (demo_op "b" f64_one) 2], s3) /\ st_ops s3 = st_ops merged_others.
Proof.
  set (batch := [demo_op "a" half; demo_op "b" f64_one]).
  assert (E : demo_push batch (demo_store []) =
    (Ok [op_applied (demo_op "a" half) 1; op_applied (demo_op "b" f64_one) 2], pushed)).
  { unfold pushed. rewrite (surjective_pairing (demo_push _ (demo_store []))) at 1. f_equal; by vm_compute. }
  assert (Hw : Forall (fun op => (lit "u", oi_work_id op) ∈ st_works merged_others) batch).
  { apply (bool_decide_unpack _). vm_compute. exact I. }
  assert (Hs : rtc (log_step (apart (lit "u") batch)) pushed merged_others).
  { apply rtc_once, ls_merge. intros _. apply Forall_cons. split; [done|]. apply Forall_singleton. done. }
  destruct (push_again 10 (lit "u") (lit "d") batch (demo_store []) _ pushed merged_others 10 (lit "d")
    demo_unit E Hs eq_refl Hw) as (s3 & E3 & Eo & _). exists s3. split; [exact E3|exact Eo].
Defined.

(** Having read to the end, the client starts again from the middle. *)
Lemma push_keeps_finished_witness :
  finished (st_reading pushed) (lit "u", lit "m") /\
  finished (st_reading (demo_push [demo_op "c" half] pushed).2) (lit "u", lit "m").
Proof.
  assert (Hf : finished (st_reading pushed) (lit "u", lit "m")).
  { assert (Hc : h_completed <$> db_heads (st_reading pushed) !! (lit "u", lit "m") = Some true) by (by vm_compute).
    apply fmap_Some in Hc as (h & Hh & Hc). exists h. exact (conj Hh (eq_sym Hc)). }
  split; [exact Hf|]. apply (push_keeps_finished 10 (lit "u") (lit "d") [demo_op "c" half] pushed). exact Hf.
Defined.

(** A Komga client reads to page seven of ten. *)
Definition komga_update : ProtocolUpdate :=
  {| u_protocol := Komga; u_device_id := None; u_updated_at := Some 20; u_position := PPage 7; u_progression := None;
     u_completed := None; u_raw_payload := JNull |}.

Definition komga_reads (s : Store) : Store :=
  set_reading s (apply 20 (lit "u") (publication_of_media (lit "m") 10) komga_update (st_reading s)).2.

Lemma mirror_exact_witness :
  db_wf (st_reading (komga_reads (demo_store []))) /\
  exists s' row, mirror_heads 30 (lit "u") (komga_reads (demo_store [])) = (Ok tt, s') /\ row ∈ st_ops s' /\
    ow_op_id row = lit "stump-head:1".
Proof.
  assert (Hwf : db_wf (st_reading (komga_reads (demo_store [])))).
  { apply apply_wf; [by vm_compute|split; [by vm_compute|done]|apply empty_db_wf]. }
  split; [exact Hwf|].
  destruct (mirror_heads 30 (lit "u") (komga_reads (demo_store []))) as [[[]|e] s'] eqn:E;
    [|apply (f_equal (fun r => is_ok r.1)) in E; by vm_compute in E].
  destruct (mirror_exact 30 (lit "u") _ s' Hwf E) as (extra & Ex & Hall & _).
  destruct (db_heads (st_reading (komga_reads (demo_store []))) !! (lit "u", lit "m")) as [h|] eqn:Eh;
    [|apply (f_equal is_none) in Eh; by vm_compute in Eh].
  assert (Hp : h_source_protocol h = Komga).
  { apply (f_equal (fmap h_source_protocol)) in Eh. apply (inj Some). etrans; [symmetry; exact Eh|]. by vm_compute. }
  assert (He : h_event_id h = 1).
  { apply (f_equal (fmap h_event_id)) in Eh. apply (inj Some). etrans; [symmetry; exact Eh|]. by vm_compute. }
  destruct (Hall demo_link h) as [(row & Hin & _)|(row & Hin & _ & _ & Hid & _)];
    [apply list_elem_of_singleton; reflexivity|reflexivity|exact Eh|rewrite Hp; discriminate| |].
  { change (row ∈ @nil OpRow) in Hin. apply elem_of_nil in Hin. contradiction. }
  exists s', row. split; [reflexivity|]. split; [rewrite Ex; apply elem_of_app; right; exact Hin|]. rewrite Hid, He. vm_compute. reflexivity.
Defined.

Lemma heads_latest_witness :
  exists page s', heads 30 (lit "u") pushed = (Ok page, s') /\
    hp_snapshot_seq page = Z.of_nat (length (user_ops (lit "u") s')).
Proof.
  destruct (heads 30 (lit "u") pushed) as [[page|e] s'] eqn:E; [|apply (f_equal (fun r => is_ok r.1)) in E; by vm_compute in E].
  exists page, s'. split; [done|].
  assert (Hwf : log_wf pushed) by (apply (le_wf _ _ _ (log_steps_evolve all_merges _ _ (push_run all_merges (demo_store []) _))), demo_store_wf).
  apply (heads_latest 30 (lit "u") pushed page s' Hwf E).
Defined.

(** The ids of mirrored operations are not reserved: a client that used one keeps the move
    it would stand for out of the log. *)
Example used_mirror_id :
  let s := komga_reads (demo_push [demo_op "stump-head:2" half] (demo_store [])).2 in
  let s' := (mirror_heads 30 (lit "u") s).2 in
  h_source_protocol <$> db_heads (st_reading s) !! (lit "u", lit "m") = Some Komga /\ ow_origin <$> st_ops s' = [lit "native"].
Proof. by vm_compute. Qed.

(** A merge does not tell the feed: a client that has read to the end of the log is told
    that there is nothing new, and goes on holding operations of a work that is gone. *)
Example merge_unannounced :
  let given := (read_page (lit "u") 0 10 2 pushed).1 in
  let after := read_page (lit "u") 2 10 2 (demo_merge pushed) in
  (match given with Ok page => or_work_id <$> cp_ops page | Err _ => [] end) = [lit "w"; lit "w"] /\
  (match after.1 with Ok page => (cp_ops page, cp_has_more page) | Err _ => ([], true) end) = ([], false) /\
  ow_work_id <$> st_ops (demo_merge pushed) = [lit "i"; lit "i"].
Proof. by vm_compute. Qed.

(** And a batch that was applied, pushed again after its work was merged away, is refused. *)
Example merged_push_refused :
  (demo_push [demo_op "a" half] (demo_merge pushed)).1 = Err (Refused (unknown_work 0 (demo_op "a" half))).
Proof. vm_compute. reflexivity. Qed.
