(* ===== verification/LiseurAnnotations.v ===== *)
(** * The annotations behind liseur-sync

    Models the annotation part of [src/apps/server/src/routers/liseur_sync/storage.rs] with
    the identities of [src/crates/models/src/shared/liseur_annotation_projection.rs]: the
    compare-and-set records of an account and their feed ([append_annotations],
    [delete_annotation], [annotation_changes], [work_annotations_with_deleted]), the
    mirrors of Stump's own annotations and bookmarks among them ([reconcile_native_works]
    and its callers, [writeback_native_annotation]), and the projections of the clients'
    records into Stump's own tables ([reconcile_annotation_projections]).

    A row decodes as it was written, except for its locator, which is stored as JSON text
    and reads as nothing when the text does not parse.  Which books an account may read is
    decided elsewhere, as [st_readable]; a hash map is read in the order of a [gmap]; the
    column [updated_at] of a native row, written as text, is the instant it denotes.  The
    signal to the exporter after a change is not modelled. *)

From stdpp Require Import base gmap list strings sorting.
From Stdlib Require Import ZArith Lia SpecFloat.
From S2P Require Import Prelude Float64 ReadingState ReadingService LiseurSync LiseurStore LiseurOps.

#[local] Open Scope Z_scope.
#[local] Open Scope coppice_scope.

(** ** Identities *)

Definition STUMP_NATIVE_ANNOTATION_ID_PREFIX : str := lit "stump-native:".

Definition stump_native_annotation_id (kind native_id : str) : str :=
  STUMP_NATIVE_ANNOTATION_ID_PREFIX ++ kind ++ lit ":" ++ native_id.

(** [str::split_once(':')]. *)
Definition split_once_colon (s : str) : option (str * str) :=
  match drop_while (fun c => negb (c =? 58)) s with
  | [] => None
  | _ :: rest => Some (take_while (fun c => negb (c =? 58)) s, rest)
  end.

Definition parse_stump_native_annotation_id (id : str) : option (str * str) :=
  rest ← strip_prefix STUMP_NATIVE_ANNOTATION_ID_PREFIX id;
  '(kind, native_id) ← split_once_colon rest;
  if bool_decide (native_id = []) || negb (bool_decide (kind = lit "annotation") || bool_decide (kind = lit "bookmark"))
  then None else Some (kind, native_id).

Definition is_stump_native_annotation_id (id : str) : bool := starts_with id STUMP_NATIVE_ANNOTATION_ID_PREFIX.

Definition LISEUR_SYNC_PROJECTION_ID_PREFIX : str := lit "liseur-sync:".

Definition liseur_sync_projection_id (user_id annotation_id : str) : str :=
  LISEUR_SYNC_PROJECTION_ID_PREFIX ++ user_id ++ lit ":" ++ annotation_id.

Definition is_liseur_sync_projection_id (id : str) : bool := starts_with id LISEUR_SYNC_PROJECTION_ID_PREFIX.

(** ** JSON *)

(** [Value::get] and [Value::as_str]. *)
Definition value_get (key : string) (v : Value) : option Value :=
  match v with
  | JObject fields => snd <$> List.find (fun kv => bool_decide (kv.1 = lit key)) fields
  | _ => None
  end.

Definition value_as_str (v : Value) : option str := match v with JString s => Some s | _ => None end.

Definition wrap_i64 (n : Z) : Z := (n + 2 ^ 63) mod 2 ^ 64 - 2 ^ 63.

Section annotations.
Context `{DecimalOps} `{Host} `{Chrono} `{Wire} `{!LocatorWire}.

Definition ok_or {A} (o : option A) (e : Stop) : Sql A :=
  match o with Some a => db_ret a | None => db_err e end.

Definition internal_error (message : string) : Stop := Refused (Internal (lit message)).

Definition annotations (s : Store) : list AnnotationRow := mk_annotations (st_marks s).
Definition native_rows (s : Store) : list NativeRow := mk_native (st_marks s).
Definition bookmarks (s : Store) : list BookmarkRow := mk_bookmarks (st_marks s).
Definition attachment_rows (s : Store) : list AttachmentRow := mk_attachments (st_marks s).

Definition set_annotations (s : Store) (rows : list AnnotationRow) : Store :=
  set_marks s {| mk_annotations := rows; mk_native := native_rows s; mk_bookmarks := bookmarks s;
                 mk_attachments := attachment_rows s |}.

Definition set_native (s : Store) (rows : list NativeRow) : Store :=
  set_marks s {| mk_annotations := annotations s; mk_native := rows; mk_bookmarks := bookmarks s;
                 mk_attachments := attachment_rows s |}.

Definition set_bookmarks (s : Store) (rows : list BookmarkRow) : Store :=
  set_marks s {| mk_annotations := annotations s; mk_native := native_rows s; mk_bookmarks := rows;
                 mk_attachments := attachment_rows s |}.

Definition set_attachments (s : Store) (rows : list AttachmentRow) : Store :=
  set_marks s {| mk_annotations := annotations s; mk_native := native_rows s; mk_bookmarks := bookmarks s;
                 mk_attachments := rows |}.

(** ** Records *)

Definition bump_annotation_seq (c : Counter) : Counter :=
  {| ct_op_seq := ct_op_seq c; ct_annotation_seq := ct_annotation_seq c + 1;
     ct_projected_annotation_seq := ct_projected_annotation_seq c |}.

Definition next_annotation_seq (user_id : str) : Sql Z :=
  _ <-- execute (fun s => (Ok tt, set_counters s (alter bump_annotation_seq user_id (st_counters s)))) ;;
  row <-- query (fun s => st_counters s !! user_id) ;;
  match row with
  | Some c => db_ret (ct_annotation_seq c)
  | None => db_err (internal_error "liseur-sync counter disappeared")
  end.

Definition stored_locator (row : AnnotationRow) : option Value := locator_from_db (aw_locator row).

Definition known_drawer (drawer : str) : option str := then_some (bool_decide (drawer ∈ ANNOTATION_DRAWERS)) drawer.

Definition annotation_drawer (row : AnnotationRow) : option str :=
  match aw_drawer row with
  | Some drawer => known_drawer drawer
  | None =>
      match value_of_text (aw_payload row) ≫= value_get "drawer" with
      | Some drawer => value_as_str drawer ≫= known_drawer
      | None => ((stored_locator row ≫= value_get "drawer") ≫= value_as_str) ≫= known_drawer
      end
  end.

(** [(!text.is_empty()).then(|| text.clone())]. *)
Definition non_empty (text : str) : option str := then_some (negb (bool_decide (text = []))) text.

Definition annotation_record (row : AnnotationRow) : AnnotationRecord :=
  if aw_deleted row then
    {| ar_id := aw_id row; ar_rev := aw_rev row; ar_seq := aw_seq row; ar_work_id := Some (aw_work_id row);
       ar_edition_sha := None; ar_kind := None; ar_locator := None; ar_progression := None; ar_excerpt := None;
       ar_color := None; ar_drawer := None; ar_body := None; ar_device_id := None; ar_client_ts := None;
       ar_updated_at := aw_updated_at row; ar_deleted := true; ar_deleted_at := aw_deleted_at row |}
  else
    {| ar_id := aw_id row; ar_rev := aw_rev row; ar_seq := aw_seq row; ar_work_id := Some (aw_work_id row);
       ar_edition_sha := aw_edition_sha row; ar_kind := Some (aw_kind row); ar_locator := stored_locator row;
       ar_progression := aw_progression row; ar_excerpt := non_empty (aw_excerpt row);
       ar_color := non_empty (aw_color row); ar_drawer := annotation_drawer row; ar_body := non_empty (aw_body row);
       ar_device_id := Some (aw_device_id row); ar_client_ts := Some (aw_client_ts row);
       ar_updated_at := aw_updated_at row; ar_deleted := false; ar_deleted_at := None |}.

Definition annotation_color_for_update (incoming : AnnotationInput) (stored : AnnotationRow) : str :=
  if negb (bool_decide (ai_kind incoming = lit "highlight")) then []
  else
    match ai_color incoming with
    | Some color => color
    | None =>
        if bool_decide (aw_color stored ∈ ANNOTATION_COLORS) && negb (bool_decide (aw_color stored ∈ LISEUR_ANNOTATION_COLORS))
        then aw_color stored else []
    end.

Definition annotation_drawer_for_update (incoming : AnnotationInput) (stored : AnnotationRow) : option str :=
  if negb (bool_decide (ai_kind incoming = lit "highlight")) then None
  else
    match ai_drawer incoming with
    | Some drawer => non_empty drawer
    | None => annotation_drawer stored
    end.

Definition is_annotation (user_id id : str) (row : AnnotationRow) : bool :=
  bool_decide (aw_user_id row = user_id) && bool_decide (aw_id row = id).

Definition find_annotation (user_id id : str) : Sql (option AnnotationRow) :=
  query (fun s => List.find (is_annotation user_id id) (annotations s)).

(** [serde_json::to_string(annotation)], a text of the object with the fields in the order
    of the struct. *)
Definition annotation_value (a : AnnotationInput) : Value :=
  JObject ([(lit "id", JString (ai_id a)); (lit "base_rev", JInt (ai_base_rev a)); (lit "work_id", JString (ai_work_id a));
            (lit "edition_sha", nullable JString (ai_edition_sha a)); (lit "kind", JString (ai_kind a));
            (lit "locator", nullable id (ai_locator a)); (lit "progression", nullable JFloat (ai_progression a));
            (lit "excerpt", JString (ai_excerpt a))] ++
           field "color" JString (ai_color a) ++ field "drawer" JString (ai_drawer a) ++
           [(lit "body", JString (ai_body a)); (lit "client_ts", JString (ai_client_ts a))]).

Definition annotation_payload (a : AnnotationInput) : Sql str := ok_or (json_text (annotation_value a)) internal.

Definition annotations_same_payload (stored : AnnotationRow) (incoming_payload device_id : str) : bool :=
  bool_decide (aw_payload stored = incoming_payload) && bool_decide (aw_device_id stored = device_id).

(** [INSERT INTO liseur_sync_annotations]: the id of a record is unique per account. *)
Definition insert_annotation (row : AnnotationRow) : Sql unit := execute (fun s =>
  if existsb (is_annotation (aw_user_id row) (aw_id row)) (annotations s)
  then (Err internal, s) else (Ok tt, set_annotations s (annotations s ++ [row]))).

(** [UPDATE liseur_sync_annotations ... WHERE user_id = ... AND annotation_id = ...]. *)
Definition update_annotation (user_id id : str) (f : AnnotationRow -> AnnotationRow) : Sql unit := execute (fun s =>
  (Ok tt, set_annotations s ((fun row => if is_annotation user_id id row then f row else row) <$> annotations s))).

(** ** Stump's own annotations *)

Definition with_text (l : ReadiumLocator) (t : option ReadiumText) : ReadiumLocator :=
  {| chapter_title := chapter_title l; href := href l; title := title l; locations := locations l; text := t;
     kobo_span := kobo_span l; type_ := type_ l |}.

Definition with_highlight (t : ReadiumText) (highlight : option str) : ReadiumText :=
  {| text_after := text_after t; text_before := text_before t; text_highlight := highlight |}.

(** [locator.text.get_or_insert(...).highlight = Some(highlight)]. *)
Definition set_highlight (l : ReadiumLocator) (highlight : str) : ReadiumLocator :=
  with_text l (Some (with_highlight
    (default {| text_after := None; text_before := None; text_highlight := None |} (text l)) (Some highlight))).

Definition clear_highlight (l : ReadiumLocator) : ReadiumLocator :=
  with_text l ((fun t => with_highlight t None) <$> text l).

Definition highlight_of (l : ReadiumLocator) : option str := text l ≫= text_highlight.

(** [map_or(true, |highlight| highlight.trim().is_empty())]. *)
Definition blank_highlight (l : ReadiumLocator) : bool :=
  match highlight_of l with Some highlight => bool_decide (trim highlight = []) | None => true end.

(** A locator that names a resource and a place in it. *)
Definition anchored (l : ReadiumLocator) : bool := negb (bool_decide (trim (href l) = [])) && negb (is_none (locations l)).

Definition native_progression (l : ReadiumLocator) : option f64 :=
  locations_ ← locations l;
  decimal ← loc_total_progression locations_ orelse loc_progression locations_;
  progression ← decimal_parse_f64 decimal;
  then_some (is_finite progression && (fle f64_zero progression && fle progression f64_one)) progression.

Definition native_update_locator (kind : str) (incoming : AnnotationInput) (stored : AnnotationRow) : option ReadiumLocator :=
  value ← (ai_locator incoming ≫= (fun v => then_some (match v with JNull => false | _ => true end) v))
            orelse stored_locator stored;
  locator ← locator_of_value value;
  if negb (anchored locator) then None
  else if bool_decide (kind = lit "note") then Some (clear_highlight locator)
  else if bool_decide (kind = lit "highlight") then
    let locator :=
      if negb (bool_decide (trim (ai_excerpt incoming) = [])) then set_highlight locator (ai_excerpt incoming) else locator in
    if blank_highlight locator then None else Some locator
  else if bool_decide (kind = lit "bookmark") then Some locator
  else None.

Definition native_update_invalid_reason (incoming : AnnotationInput) (stored : AnnotationRow) : option str :=
  match parse_stump_native_annotation_id (ai_id incoming) with
  | None => Some (lit "native annotation identity is invalid")
  | Some (kind, _) =>
      if negb (bool_decide (ai_work_id incoming = aw_work_id stored)) then Some (lit "native annotation work cannot change")
      else if bool_decide (kind = lit "annotation") &&
              (bool_decide (ai_kind incoming = lit "note") || bool_decide (ai_kind incoming = lit "highlight"))
      then then_some (is_none (native_update_locator (ai_kind incoming) incoming stored))
             (lit "native annotations require a valid Readium locator")
      else if bool_decide (kind = lit "bookmark") && bool_decide (ai_kind incoming = lit "bookmark")
      then then_some (is_none (native_update_locator (lit "bookmark") incoming stored))
             (lit "native bookmarks require a valid Readium locator")
      else Some (lit "native annotation kind cannot change")
  end.

(** [serde_json::to_string(&locator)] goes through. *)
Definition locator_text (l : ReadiumLocator) : Sql str := ok_or (value_of_locator l ≫= json_text) internal.

Definition is_native (user_id id : str) (row : NativeRow) : bool :=
  bool_decide (nt_id row = id) && bool_decide (nt_user_id row = user_id).

Definition is_bookmark (user_id id : str) (row : BookmarkRow) : bool :=
  bool_decide (bm_id row = id) && bool_decide (bm_user_id row = user_id).

Definition page_of (l : ReadiumLocator) : option Z := locations l ≫= loc_position.

(** The incoming annotation as [writeback_native_annotation] leaves it. *)
Definition rewritten (a : AnnotationInput) (edition_sha : option str) (progression : option f64) (excerpt : str)
    (color : option str) (body : str) (locator : Value) : AnnotationInput :=
  {| ai_id := ai_id a; ai_base_rev := ai_base_rev a; ai_work_id := ai_work_id a; ai_edition_sha := edition_sha;
     ai_kind := ai_kind a; ai_locator := Some locator; ai_progression := progression; ai_excerpt := excerpt;
     ai_color := color; ai_drawer := ai_drawer a; ai_body := body; ai_client_ts := ai_client_ts a |}.

Definition writeback_native_annotation (now : Z) (user_id : str) (incoming : AnnotationInput) (stored : AnnotationRow)
  : Sql AnnotationInput :=
  identity <-- ok_or (parse_stump_native_annotation_id (ai_id incoming))
                     (internal_error "native annotation identity is invalid") ;;
  let '(kind, native_id) := identity in
  locator <-- ok_or (native_update_locator (ai_kind incoming) incoming stored)
                    (internal_error "native annotation locator is invalid") ;;
  let progression := native_progression locator in
  if bool_decide (kind = lit "annotation") then
    let color := annotation_color_for_update incoming stored in
    let excerpt := if bool_decide (ai_kind incoming = lit "highlight") then default [] (highlight_of locator) else [] in
    _ <-- locator_text locator ;;
    rows_affected <-- execute (fun s =>
      (Ok (length (List.filter (is_native user_id native_id) (native_rows s))),
       set_native s ((fun row =>
         if is_native user_id native_id row then
           {| nt_id := nt_id row; nt_locator := locator; nt_position_ms := nt_position_ms row;
              nt_annotation_text := non_empty (ai_body incoming); nt_color := non_empty color;
              nt_media_id := nt_media_id row; nt_user_id := nt_user_id row; nt_created_at := nt_created_at row;
              nt_updated_at := now |}
         else row) <$> native_rows s))) ;;
    if negb (rows_affected =? 1)%nat then db_err (internal_error "native annotation disappeared during update")
    else
      value <-- ok_or (value_of_locator locator) internal ;;
      db_ret (rewritten incoming (aw_edition_sha stored) progression excerpt (Some color) (ai_body incoming) value)
  else if bool_decide (kind = lit "bookmark") then
    let preview :=
      if negb (bool_decide (ai_excerpt incoming = [])) then Some (ai_excerpt incoming) else highlight_of locator in
    _ <-- locator_text locator ;;
    rows_affected <-- execute (fun s =>
      (Ok (length (List.filter (is_bookmark user_id native_id) (bookmarks s))),
       set_bookmarks s ((fun row =>
         if is_bookmark user_id native_id row then
           {| bm_id := bm_id row; bm_preview_content := preview; bm_locator := Some locator; bm_page := page_of locator;
              bm_position_ms := bm_position_ms row; bm_media_id := bm_media_id row; bm_user_id := bm_user_id row;
              bm_created_at := bm_created_at row |}
         else row) <$> bookmarks s))) ;;
    if negb (rows_affected =? 1)%nat then db_err (internal_error "native bookmark disappeared during update")
    else
      value <-- ok_or (value_of_locator locator) internal ;;
      db_ret (rewritten incoming (aw_edition_sha stored) progression (default [] preview) (Some []) [] value)
  else db_err (internal_error "unsupported native annotation identity").

(** [DELETE FROM ... WHERE id = ... AND user_id = ...], with the number of rows. *)
Definition delete_native (user_id id : str) : Sql nat := execute (fun s =>
  (Ok (length (List.filter (is_native user_id id) (native_rows s))),
   set_native s (List.filter (fun row => negb (is_native user_id id row)) (native_rows s)))).

Definition delete_bookmark (user_id id : str) : Sql nat := execute (fun s =>
  (Ok (length (List.filter (is_bookmark user_id id) (bookmarks s))),
   set_bookmarks s (List.filter (fun row => negb (is_bookmark user_id id row)) (bookmarks s)))).

Definition delete_native_annotation_source (user_id id : str) : Sql unit :=
  match parse_stump_native_annotation_id id with
  | None => db_err (Refused (BadRequest (lit "native annotation identity is invalid")))
  | Some (kind, native_id) =>
      rows_affected <--
        (if bool_decide (kind = lit "annotation") then delete_native user_id native_id
         else if bool_decide (kind = lit "bookmark") then delete_bookmark user_id native_id
         else db_err (Refused (BadRequest (lit "native annotation identity is invalid")))) ;;
      if negb (rows_affected =? 1)%nat then db_err (Refused (NotFound (lit "native annotation not found"))) else db_ret tt
  end.

(** ** Projections *)

Definition delete_native_annotation_projection (user_id projection_id : str) : Sql unit :=
  _ <-- delete_native user_id projection_id ;;
  _ <-- delete_bookmark user_id projection_id ;;
  db_ret tt.

(** [projection_link_order_by]. *)
Definition link_rank (edition_sha : str) (audio : gset str) (l : LinkRow) : Z :=
  2 * (if negb (bool_decide (edition_sha = [])) && bool_decide (lk_edition_sha l = edition_sha) then 0 else 1) +
  (if bool_decide (lk_media_id l ∈ audio) then 1 else 0).

Definition link_before (edition_sha : str) (audio : gset str) (a b : LinkRow) : Prop :=
  link_rank edition_sha audio a < link_rank edition_sha audio b \/
  link_rank edition_sha audio a = link_rank edition_sha audio b /\
    (later (lk_created_at b) (lk_created_at a) = true \/
     lk_created_at a = lk_created_at b /\ str_le (lk_id a) (lk_id b) = true).

#[export] Instance link_before_dec edition_sha audio a b : Decision (link_before edition_sha audio a b).
Proof. unfold link_before. apply _. Defined.

Definition links_of (user_id work_id : str) (s : Store) : list LinkRow :=
  List.filter (fun l => bool_decide (lk_user_id l = user_id) && bool_decide (lk_work_id l = work_id)) (st_links s).

Definition annotation_media (user_id : str) (row : AnnotationRow) (s : Store) : option str :=
  lk_media_id <$> List.hd_error (merge_sort (link_before (default [] (aw_edition_sha row)) (st_audio s))
                          (links_of user_id (aw_work_id row) s)).

Definition linked_annotation_media_id (user_id : str) (row : AnnotationRow) : Sql (option str) :=
  query (annotation_media user_id row).

Definition readium_projection_locator (row : AnnotationRow) : option ReadiumLocator :=
  value ← stored_locator row;
  locator ← locator_of_value value;
  then_some (anchored locator) locator.

(** [insert] of an active model: the identity is the primary key. *)
Definition insert_native (row : NativeRow) : Sql unit := execute (fun s =>
  if existsb (fun r => bool_decide (nt_id r = nt_id row)) (native_rows s)
  then (Err internal, s) else (Ok tt, set_native s (native_rows s ++ [row]))).

Definition insert_bookmark (row : BookmarkRow) : Sql unit := execute (fun s =>
  if existsb (fun r => bool_decide (bm_id r = bm_id row)) (bookmarks s)
  then (Err internal, s) else (Ok tt, set_bookmarks s (bookmarks s ++ [row]))).

(** The locator of a projected highlight or note. *)
Definition projected_locator (row : AnnotationRow) (l : ReadiumLocator) : ReadiumLocator :=
  if bool_decide (aw_kind row = lit "note") then clear_highlight l
  else if blank_highlight l && negb (bool_decide (aw_excerpt row = [])) then set_highlight l (aw_excerpt row) else l.

Definition projected_native (user_id : str) (row : AnnotationRow) (l : ReadiumLocator) (media_id : str)
    (created_at updated_at : Z) : NativeRow :=
  {| nt_id := liseur_sync_projection_id user_id (aw_id row); nt_locator := projected_locator row l; nt_position_ms := None;
     nt_annotation_text := non_empty (aw_body row);
     nt_color := then_some (bool_decide (aw_kind row = lit "highlight") && negb (bool_decide (aw_color row = [])) &&
                            bool_decide (aw_color row ∈ ANNOTATION_COLORS)) (aw_color row);
     nt_media_id := media_id; nt_user_id := user_id; nt_created_at := created_at; nt_updated_at := updated_at |}.

Definition projected_bookmark (user_id : str) (row : AnnotationRow) (l : ReadiumLocator) (media_id : str)
    (created_at : Z) : BookmarkRow :=
  {| bm_id := liseur_sync_projection_id user_id (aw_id row);
     bm_preview_content := if negb (bool_decide (aw_excerpt row = [])) then Some (aw_excerpt row) else highlight_of l;
     bm_locator := Some l; bm_page := page_of l; bm_position_ms := None; bm_media_id := media_id; bm_user_id := user_id;
     bm_created_at := created_at |}.

Definition stamped_native (created_at updated_at : Z) (row : NativeRow) : NativeRow :=
  {| nt_id := nt_id row; nt_locator := nt_locator row; nt_position_ms := nt_position_ms row;
     nt_annotation_text := nt_annotation_text row; nt_color := nt_color row; nt_media_id := nt_media_id row;
     nt_user_id := nt_user_id row; nt_created_at := created_at; nt_updated_at := updated_at |}.

Definition stamped_bookmark (created_at : Z) (row : BookmarkRow) : BookmarkRow :=
  {| bm_id := bm_id row; bm_preview_content := bm_preview_content row; bm_locator := bm_locator row; bm_page := bm_page row;
     bm_position_ms := bm_position_ms row; bm_media_id := bm_media_id row; bm_user_id := bm_user_id row;
     bm_created_at := created_at |}.

(** The active model stamps the row with the clock; the update afterwards restores the
    times of the record. *)
Definition project_annotation (now : Z) (user_id : str) (row : AnnotationRow) : Sql unit :=
  if is_stump_native_annotation_id (aw_id row) then db_ret tt
  else
    let projection_id := liseur_sync_projection_id user_id (aw_id row) in
    let highlight_or_note := bool_decide (aw_kind row = lit "highlight") || bool_decide (aw_kind row = lit "note") in
    if aw_deleted row || negb (highlight_or_note || bool_decide (aw_kind row = lit "bookmark"))
    then delete_native_annotation_projection user_id projection_id
    else
      match readium_projection_locator row with
      | None => delete_native_annotation_projection user_id projection_id
      | Some locator =>
          media <-- linked_annotation_media_id user_id row ;;
          match media with
          | None => delete_native_annotation_projection user_id projection_id
          | Some media_id =>
              _ <-- delete_native_annotation_projection user_id projection_id ;;
              created_at <-- ok_or (parse_from_rfc3339 (aw_client_ts row)) internal ;;
              updated_at <-- ok_or (parse_from_rfc3339 (aw_updated_at row)) internal ;;
              if highlight_or_note then
                _ <-- insert_native (projected_native user_id row locator media_id now now) ;;
                execute (fun s =>
                  (Ok tt, set_native s ((fun r => if is_native user_id projection_id r then stamped_native created_at updated_at r else r)
                                          <$> native_rows s)))
              else
                _ <-- insert_bookmark (projected_bookmark user_id row locator media_id now) ;;
                execute (fun s =>
                  (Ok tt, set_bookmarks s ((fun r => if is_bookmark user_id projection_id r then stamped_bookmark created_at r else r)
                                             <$> bookmarks s)))
          end
      end.

Fixpoint project_all (now : Z) (user_id : str) (rows : list AnnotationRow) : Sql unit :=
  match rows with
  | [] => db_ret tt
  | row :: rows => _ <-- project_annotation now user_id row ;; project_all now user_id rows
  end.

Definition feed_before (a b : AnnotationRow) : Prop := aw_seq a <= aw_seq b.

#[export] Instance feed_before_dec a b : Decision (feed_before a b).
Proof. unfold feed_before. apply _. Defined.

Definition records_between (user_id : str) (low high : Z) (s : Store) : list AnnotationRow :=
  merge_sort feed_before (filter (fun r => aw_user_id r = user_id /\ low < aw_seq r <= high) (annotations s)).

Definition set_projected (high_water : Z) (c : Counter) : Counter :=
  {| ct_op_seq := ct_op_seq c; ct_annotation_seq := ct_annotation_seq c;
     ct_projected_annotation_seq := Z.max (ct_projected_annotation_seq c) high_water |}.

Definition reconcile_annotation_projections (now : Z) (user_id : str) : Sql unit :=
  counter <-- query (fun s => st_counters s !! user_id) ;;
  match counter with
  | None => db_ret tt
  | Some c =>
      let high_water := ct_annotation_seq c in
      let projected := ct_projected_annotation_seq c in
      if high_water <=? projected then db_ret tt
      else
        rows <-- query (records_between user_id projected high_water) ;;
        _ <-- project_all now user_id rows ;;
        execute (fun s => (Ok tt, set_counters s (alter (set_projected high_water) user_id (st_counters s))))
  end.

(** ** Mirrors of Stump's own annotations *)

Record NativeMediaLink := { ln_work_id : str; ln_edition_sha : option str }.

Record NativeAnnotationCandidate := {
  ca_id : str;
  ca_work_id : str;
  ca_edition_sha : option str;
  ca_kind : str;
  ca_locator : Value;
  ca_progression : option f64;
  ca_excerpt : str;
  ca_color : str;
  ca_body : str;
  ca_client_ts : str;
  ca_updated_at : str;
}.

Definition candidate_input (c : NativeAnnotationCandidate) (base_rev : Z) (client_ts : str) : AnnotationInput :=
  {| ai_id := ca_id c; ai_base_rev := base_rev; ai_work_id := ca_work_id c; ai_edition_sha := ca_edition_sha c;
     ai_kind := ca_kind c; ai_locator := Some (ca_locator c); ai_progression := ca_progression c;
     ai_excerpt := ca_excerpt c; ai_color := non_empty (ca_color c); ai_drawer := None; ai_body := ca_body c;
     ai_client_ts := client_ts |}.

Definition timestamps_match (a b : str) : bool :=
  match parse_from_rfc3339 a, parse_from_rfc3339 b with
  | Some x, Some y => x =? y
  | _, _ => bool_decide (a = b)
  end.

(** [PartialEq] of optional numbers. *)
Definition progression_eq (a b : option f64) : bool :=
  match a, b with
  | Some x, Some y => feq x y
  | None, None => true
  | _, _ => false
  end.

Definition native_candidate_matches (stored : AnnotationRow) (c : NativeAnnotationCandidate) : bool :=
  negb (aw_deleted stored) && bool_decide (aw_work_id stored = ca_work_id c) &&
  bool_decide (aw_edition_sha stored = ca_edition_sha c) && bool_decide (aw_kind stored = ca_kind c) &&
  match stored_locator stored with Some v => value_eq v (ca_locator c) | None => false end &&
  progression_eq (aw_progression stored) (ca_progression c) && bool_decide (aw_excerpt stored = ca_excerpt c) &&
  bool_decide (aw_color stored = ca_color c) && bool_decide (aw_body stored = ca_body c) &&
  (bool_decide (aw_kind stored = lit "bookmark") || timestamps_match (aw_updated_at stored) (ca_updated_at c)).

(** [Ok(None)] and [Ok(Some(candidate))]; [Err] when a locator does not serialize. *)
Definition media_annotation_candidate (row : NativeRow) (link : NativeMediaLink) : option (option NativeAnnotationCandidate) :=
  if is_liseur_sync_projection_id (nt_id row) || negb (is_none (nt_position_ms row)) || negb (anchored (nt_locator row))
  then Some None
  else
    let excerpt := default [] (highlight_of (nt_locator row)) in
    let kind := if bool_decide (trim excerpt = []) then lit "note" else lit "highlight" in
    let body := default [] (nt_annotation_text row) in
    let id := stump_native_annotation_id (lit "annotation") (nt_id row) in
    if bool_decide (kind = lit "note") && bool_decide (body = []) then Some None
    else if 64 <? str_len id then Some None
    else
      let color :=
        if bool_decide (kind = lit "highlight")
        then default [] (nt_color row ≫= (fun color => then_some (bool_decide (color ∈ ANNOTATION_COLORS)) color)) else [] in
      locator ← value_of_locator (nt_locator row);
      Some (Some {| ca_id := id; ca_work_id := ln_work_id link; ca_edition_sha := ln_edition_sha link; ca_kind := kind;
                    ca_locator := locator; ca_progression := native_progression (nt_locator row); ca_excerpt := excerpt;
                    ca_color := color; ca_body := body; ca_client_ts := to_rfc3339_nanos (nt_created_at row);
                    ca_updated_at := to_rfc3339_nanos (nt_updated_at row) |}).

Definition bookmark_candidate (row : BookmarkRow) (link : NativeMediaLink) : option (option NativeAnnotationCandidate) :=
  if is_liseur_sync_projection_id (bm_id row) then Some None
  else
    match bm_locator row ≫= (fun l => then_some (anchored l) l) with
    | None => Some None
    | Some l =>
        let id := stump_native_annotation_id (lit "bookmark") (bm_id row) in
        if 64 <? str_len id then Some None
        else
          locator ← value_of_locator l;
          Some (Some {| ca_id := id; ca_work_id := ln_work_id link; ca_edition_sha := ln_edition_sha link;
                        ca_kind := lit "bookmark"; ca_locator := locator; ca_progression := native_progression l;
                        ca_excerpt := default [] ((bm_preview_content row ≫= non_empty) orelse highlight_of l);
                        ca_color := []; ca_body := []; ca_client_ts := to_rfc3339_nanos (bm_created_at row);
                        ca_updated_at := to_rfc3339_nanos (bm_created_at row) |})
    end.

(** *** Looking for candidates *)

(** The account, deleted or not. *)
Definition native_auth_user (user_id : str) : Sql (option UserRow) :=
  query (fun s => List.find (fun u => bool_decide (us_id u = user_id)) (st_users s)).

(** [annotation_id LIKE 'stump-native:%'], which ignores the case of ASCII letters. *)
Definition like_native (id : str) : bool := starts_with (map to_ascii_lowercase id) STUMP_NATIVE_ANNOTATION_ID_PREFIX.

Definition sweep_works (user_id : str) (s : Store) : list str :=
  (lk_work_id <$> List.filter (fun l => bool_decide (lk_user_id l = user_id)) (st_links s)) ++
  (aw_work_id <$> List.filter (fun r => bool_decide (aw_user_id r = user_id) && negb (aw_deleted r) && like_native (aw_id r))
                    (annotations s)).

Definition native_sweep_window (user_id : str) (after : option str) (limit : nat) : Sql (list str) :=
  query (fun s => take limit (merge_sort str_ord
    (List.filter (fun work_id => later work_id (default [] after)) (remove_dups (sweep_works user_id s))))).

Definition in_works (user_id : str) (works : list str) (l : LinkRow) : bool :=
  bool_decide (lk_user_id l = user_id) && bool_decide (lk_work_id l ∈ works).

Definition works_links (user_id : str) (works : list str) (s : Store) : list LinkRow :=
  List.filter (in_works user_id works) (st_links s).

Definition native_link (l : LinkRow) : NativeMediaLink :=
  {| ln_work_id := lk_work_id l; ln_edition_sha := Some (lk_edition_sha l) |}.

Definition links_map (links : list LinkRow) : gmap str NativeMediaLink :=
  fold_left (fun m l => <[lk_media_id l := native_link l]> m) links ∅.

(** The candidates of rows whose book has a link, in order. *)
Fixpoint collect_candidates {A} (candidate : A -> NativeMediaLink -> option (option NativeAnnotationCandidate)) (media_id : A -> str)
    (links : gmap str NativeMediaLink) (rows : list A) : option (list NativeAnnotationCandidate) :=
  match rows with
  | [] => Some []
  | row :: rows =>
      match links !! media_id row with
      | None => collect_candidates candidate media_id links rows
      | Some link =>
          found ← candidate row link;
          rest ← collect_candidates candidate media_id links rows;
          Some (match found with Some c => c :: rest | None => rest end)
      end
  end.

Definition native_candidates_for_works (user_id : str) (works : list str) : Sql (list NativeAnnotationCandidate) :=
  links <-- query (fun s => links_map (works_links user_id works s)) ;;
  if bool_decide (links = ∅) then db_ret []
  else
    readable <-- query st_readable ;;
    let links := filter (fun kv : str * NativeMediaLink => (user_id, kv.1) ∈ readable) links in
    if bool_decide (links = ∅) then db_ret []
    else
      let linked s media_id := bool_decide (media_id ∈ (lk_media_id <$> works_links user_id works s)) in
      annotations <-- query (fun s =>
        List.filter (fun r => bool_decide (nt_user_id r = user_id) && linked s (nt_media_id r)) (native_rows s)) ;;
      bookmarks <-- query (fun s =>
        List.filter (fun r => bool_decide (bm_user_id r = user_id) && linked s (bm_media_id r)) (bookmarks s)) ;;
      of_annotations <-- ok_or (collect_candidates media_annotation_candidate nt_media_id links annotations) internal ;;
      of_bookmarks <-- ok_or (collect_candidates bookmark_candidate bm_media_id links bookmarks) internal ;;
      db_ret (of_annotations ++ of_bookmarks).

Definition readable_native_link (user_id media_id : str) : Sql (option NativeMediaLink) :=
  link <-- query (fun s => List.find (fun l => bool_decide (lk_user_id l = user_id) && bool_decide (lk_media_id l = media_id)) (st_links s)) ;;
  match link with
  | None => db_ret None
  | Some link =>
      readable <-- query (fun s => bool_decide ((user_id, media_id) ∈ st_readable s)) ;;
      db_ret (then_some readable (native_link link))
  end.

Definition native_candidate_for_id (user_id id : str) : Sql (option NativeAnnotationCandidate) :=
  match parse_stump_native_annotation_id id with
  | None => db_ret None
  | Some (kind, native_id) =>
      if bool_decide (kind = lit "annotation") then
        row <-- query (fun s => List.find (is_native user_id native_id) (native_rows s)) ;;
        match row with
        | None => db_ret None
        | Some row =>
            link <-- readable_native_link user_id (nt_media_id row) ;;
            match link with
            | Some link => ok_or (media_annotation_candidate row link) internal
            | None => db_ret None
            end
        end
      else if bool_decide (kind = lit "bookmark") then
        row <-- query (fun s => List.find (is_bookmark user_id native_id) (bookmarks s)) ;;
        match row with
        | None => db_ret None
        | Some row =>
            link <-- readable_native_link user_id (bm_media_id row) ;;
            match link with
            | Some link => ok_or (bookmark_candidate row link) internal
            | None => db_ret None
            end
        end
      else db_ret None
  end.

Definition mirrors_of (user_id : str) (works : list str) (s : Store) : gmap str AnnotationRow :=
  fold_left (fun m r => if is_none (parse_stump_native_annotation_id (aw_id r)) then m else <[aw_id r := r]> m)
    (List.filter (fun r => bool_decide (aw_user_id r = user_id) && like_native (aw_id r) && bool_decide (aw_work_id r ∈ works))
       (annotations s)) ∅.

Definition native_mirrors_for_works (user_id : str) (works : list str) : Sql (gmap str AnnotationRow) :=
  query (mirrors_of user_id works).

(** *** Reconciling *)

Definition tombstoned (rev seq : Z) (at_ : str) (r : AnnotationRow) : AnnotationRow :=
  {| aw_user_id := aw_user_id r; aw_id := aw_id r; aw_rev := rev; aw_seq := seq; aw_work_id := aw_work_id r;
     aw_edition_sha := aw_edition_sha r; aw_kind := aw_kind r; aw_locator := aw_locator r;
     aw_progression := aw_progression r; aw_excerpt := aw_excerpt r; aw_color := aw_color r; aw_drawer := aw_drawer r;
     aw_body := aw_body r; aw_device_id := aw_device_id r; aw_origin_device_id := aw_origin_device_id r;
     aw_client_ts := aw_client_ts r; aw_updated_at := at_; aw_deleted := true; aw_deleted_at := Some at_;
     aw_payload := aw_payload r |}.

Definition tombstone_native_mirror (now : Z) (user_id : str) (stored : AnnotationRow) : Sql unit :=
  seq <-- next_annotation_seq user_id ;;
  update_annotation user_id (aw_id stored) (tombstoned (aw_rev stored + 1) seq (to_rfc3339_nanos now)).

Definition native_device : str := lit "stump-native".

Definition mirror_created (user_id : str) (c : NativeAnnotationCandidate) (seq : Z) (locator payload : str) : AnnotationRow :=
  {| aw_user_id := user_id; aw_id := ca_id c; aw_rev := 1; aw_seq := seq; aw_work_id := ca_work_id c;
     aw_edition_sha := ca_edition_sha c; aw_kind := ca_kind c; aw_locator := Some locator;
     aw_progression := ca_progression c; aw_excerpt := ca_excerpt c; aw_color := ca_color c; aw_drawer := None;
     aw_body := ca_body c; aw_device_id := native_device; aw_origin_device_id := native_device;
     aw_client_ts := ca_client_ts c; aw_updated_at := ca_updated_at c; aw_deleted := false; aw_deleted_at := None;
     aw_payload := payload |}.

Definition mirror_updated (c : NativeAnnotationCandidate) (rev seq : Z) (locator payload : str) (r : AnnotationRow) : AnnotationRow :=
  {| aw_user_id := aw_user_id r; aw_id := aw_id r; aw_rev := rev; aw_seq := seq; aw_work_id := ca_work_id c;
     aw_edition_sha := ca_edition_sha c; aw_kind := ca_kind c; aw_locator := Some locator;
     aw_progression := ca_progression c; aw_excerpt := ca_excerpt c; aw_color := ca_color c; aw_drawer := aw_drawer r;
     aw_body := ca_body c; aw_device_id := native_device; aw_origin_device_id := aw_origin_device_id r;
     aw_client_ts := aw_client_ts r; aw_updated_at := ca_updated_at c; aw_deleted := false; aw_deleted_at := None;
     aw_payload := payload |}.

Definition reconcile_native_candidate (user_id : str) (c : NativeAnnotationCandidate) (stored : option AnnotationRow) : Sql unit :=
  match stored with
  | None =>
      seq <-- next_annotation_seq user_id ;;
      payload <-- annotation_payload (candidate_input c 0 (ca_client_ts c)) ;;
      locator <-- ok_or (json_text (ca_locator c)) internal ;;
      insert_annotation (mirror_created user_id c seq locator payload)
  | Some stored =>
      if native_candidate_matches stored c then db_ret tt
      else
        seq <-- next_annotation_seq user_id ;;
        payload <-- annotation_payload (candidate_input c (aw_rev stored) (aw_client_ts stored)) ;;
        locator <-- ok_or (json_text (ca_locator c)) internal ;;
        update_annotation user_id (ca_id c) (mirror_updated c (aw_rev stored + 1) seq locator payload)
  end.

Definition reconcile_native_id (now : Z) (user_id id : str) (stored : option AnnotationRow) : Sql unit :=
  candidate <-- native_candidate_for_id user_id id ;;
  stored <-- match stored with Some stored => db_ret (Some stored) | None => find_annotation user_id id end ;;
  match candidate, stored with
  | Some candidate, stored => reconcile_native_candidate user_id candidate stored
  | None, Some stored => if aw_deleted stored then db_ret tt else tombstone_native_mirror now user_id stored
  | None, None => db_ret tt
  end.

Fixpoint reconcile_each (now : Z) (user_id : str) (ids : list str) : Sql unit :=
  match ids with
  | [] => db_ret tt
  | id :: ids => _ <-- reconcile_native_id now user_id id None ;; reconcile_each now user_id ids
  end.

Definition reconcile_native_ids (now : Z) (user_id : str) (ids : list str) : Sql unit :=
  match List.filter is_stump_native_annotation_id ids with
  | [] => db_ret tt
  | ids =>
      auth_user <-- native_auth_user user_id ;;
      match auth_user with
      | None => db_ret tt
      | Some _ => reconcile_each now user_id ids
      end
  end.

Fixpoint reconcile_candidates (user_id : str) (mirrors : gmap str AnnotationRow) (candidates : list NativeAnnotationCandidate)
  : Sql (gmap str AnnotationRow) :=
  match candidates with
  | [] => db_ret mirrors
  | c :: candidates =>
      stored <-- match mirrors !! ca_id c with
                 | Some stored => db_ret (Some stored)
                 | None => find_annotation user_id (ca_id c)
                 end ;;
      _ <-- reconcile_native_candidate user_id c stored ;;
      reconcile_candidates user_id (delete (ca_id c) mirrors) candidates
  end.

Fixpoint reconcile_mirrors (now : Z) (user_id : str) (mirrors : list AnnotationRow) : Sql unit :=
  match mirrors with
  | [] => db_ret tt
  | stored :: mirrors =>
      _ <-- (if aw_deleted stored then db_ret tt else reconcile_native_id now user_id (aw_id stored) (Some stored)) ;;
      reconcile_mirrors now user_id mirrors
  end.

Definition reconcile_native_works (now : Z) (user_id : str) (works : list str) : Sql unit :=
  match works with
  | [] => db_ret tt
  | _ =>
      mirrors <-- native_mirrors_for_works user_id works ;;
      linked <-- query (fun s => length (works_links user_id works s)) ;;
      if (linked =? 0)%nat && forallb (fun kv : str * AnnotationRow => aw_deleted kv.2) (map_to_list mirrors) then db_ret tt
      else
        auth_user <-- native_auth_user user_id ;;
        match auth_user with
        | None => db_ret tt
        | Some _ =>
            candidates <-- (if (linked =? 0)%nat then db_ret [] else native_candidates_for_works user_id works) ;;
            mirrors <-- reconcile_candidates user_id mirrors candidates ;;
            reconcile_mirrors now user_id ((fun kv : str * AnnotationRow => kv.2) <$> map_to_list mirrors)
        end
  end.

Definition NATIVE_SWEEP_WORKS_PER_POLL : nat := 64.

(** The cursors are in memory: reading and writing them is no statement. *)
Definition reconcile_native_annotations (now : Z) (user_id : str) : Sql unit :=
  after <-- (fun s => (Ok (st_sweeps s !! user_id), s)) ;;
  works <-- native_sweep_window user_id after NATIVE_SWEEP_WORKS_PER_POLL ;;
  _ <-- reconcile_native_works now user_id works ;;
  fun s =>
    (Ok tt, set_sweeps s
       match last works with
       | Some work_id =>
           if (length works =? NATIVE_SWEEP_WORKS_PER_POLL)%nat then <[user_id := work_id]> (st_sweeps s)
           else delete user_id (st_sweeps s)
       | None => delete user_id (st_sweeps s)
       end).

(** ** Writing *)

Definition annotation_applied (id : str) (rev seq : Z) : AnnotationResult :=
  {| an_id := id; an_status := lit "applied"; an_rev := Some rev; an_seq := Some seq; an_reason := None; an_server := None |}.

Definition annotation_duplicate (id : str) (rev seq : Z) : AnnotationResult :=
  {| an_id := id; an_status := lit "duplicate"; an_rev := Some rev; an_seq := Some seq; an_reason := None; an_server := None |}.

Definition annotation_refused (id : str) (status reason : string) (stored : option AnnotationRow) : AnnotationResult :=
  {| an_id := id; an_status := lit status; an_rev := None; an_seq := None; an_reason := Some (lit reason);
     an_server := annotation_record <$> stored |}.

Definition annotation_updated (a : AnnotationInput) (rev seq : Z) (locator : option str) (color : str) (drawer : option str)
    (device_id updated_at payload : str) (r : AnnotationRow) : AnnotationRow :=
  {| aw_user_id := aw_user_id r; aw_id := aw_id r; aw_rev := rev; aw_seq := seq; aw_work_id := aw_work_id r;
     aw_edition_sha := ai_edition_sha a; aw_kind := ai_kind a; aw_locator := locator; aw_progression := ai_progression a;
     aw_excerpt := ai_excerpt a; aw_color := color; aw_drawer := drawer; aw_body := ai_body a; aw_device_id := device_id;
     aw_origin_device_id := aw_origin_device_id r; aw_client_ts := ai_client_ts a; aw_updated_at := updated_at;
     aw_deleted := false; aw_deleted_at := None; aw_payload := payload |}.

Definition annotation_created (user_id device_id : str) (a : AnnotationInput) (seq : Z) (locator : option str)
    (updated_at payload : str) : AnnotationRow :=
  {| aw_user_id := user_id; aw_id := ai_id a; aw_rev := 1; aw_seq := seq; aw_work_id := ai_work_id a;
     aw_edition_sha := ai_edition_sha a; aw_kind := ai_kind a; aw_locator := locator; aw_progression := ai_progression a;
     aw_excerpt := ai_excerpt a; aw_color := default [] (ai_color a); aw_drawer := ai_drawer a ≫= non_empty;
     aw_body := ai_body a; aw_device_id := device_id; aw_origin_device_id := device_id; aw_client_ts := ai_client_ts a;
     aw_updated_at := updated_at; aw_deleted := false; aw_deleted_at := None; aw_payload := payload |}.

(** A record whose revision the client knows. *)
Definition write_stored (now : Z) (user_id device_id : str) (a : AnnotationInput) (stored : AnnotationRow) : Sql AnnotationResult :=
  let native := is_stump_native_annotation_id (ai_id a) in
  match (if native then native_update_invalid_reason a stored else None) with
  | Some reason =>
      db_ret {| an_id := ai_id a; an_status := lit "invalid"; an_rev := None; an_seq := None; an_reason := Some reason;
                an_server := Some (annotation_record stored) |}
  | None =>
      a <-- (if native then writeback_native_annotation now user_id a stored else db_ret a) ;;
      payload <-- annotation_payload a ;;
      let color := annotation_color_for_update a stored in
      let drawer := annotation_drawer_for_update a stored in
      seq <-- next_annotation_seq user_id ;;
      locator <-- locator_to_db (ai_locator a) ;;
      _ <-- update_annotation user_id (ai_id a)
              (annotation_updated a (aw_rev stored + 1) seq locator color drawer device_id (to_rfc3339_nanos now) payload) ;;
      db_ret (annotation_applied (ai_id a) (aw_rev stored + 1) seq)
  end.

Definition create_annotation (now : Z) (user_id device_id : str) (a : AnnotationInput) (payload : str) : Sql AnnotationResult :=
  if negb (ai_base_rev a =? 0) then db_ret (annotation_refused (ai_id a) "invalid" "annotation does not exist" None)
  else if is_stump_native_annotation_id (ai_id a)
  then db_ret (annotation_refused (ai_id a) "invalid" "native annotation ids are reserved" None)
  else
    seq <-- next_annotation_seq user_id ;;
    locator <-- locator_to_db (ai_locator a) ;;
    _ <-- insert_annotation (annotation_created user_id device_id a seq locator (to_rfc3339_nanos now) payload) ;;
    db_ret (annotation_applied (ai_id a) 1 seq).

Definition append_annotation (now : Z) (user_id device_id : str) (a : AnnotationInput) : Sql AnnotationResult :=
  known <-- work_exists user_id (ai_work_id a) ;;
  if negb known then db_ret (annotation_refused (ai_id a) "invalid" "unknown work" None)
  else
    payload <-- annotation_payload a ;;
    existing <-- find_annotation user_id (ai_id a) ;;
    match existing with
    | None => create_annotation now user_id device_id a payload
    | Some stored =>
        if aw_deleted stored then db_ret (annotation_refused (ai_id a) "conflict" "annotation is deleted" (Some stored))
        else if negb (ai_base_rev a =? aw_rev stored) then
          db_ret (if (wrap_i64 (ai_base_rev a + 1) =? aw_rev stored) && annotations_same_payload stored payload device_id
                  then annotation_duplicate (ai_id a) (aw_rev stored) (aw_seq stored)
                  else annotation_refused (ai_id a) "conflict" "annotation revision conflict" (Some stored))
        else write_stored now user_id device_id a stored
    end.

Fixpoint append_each (now : Z) (user_id device_id : str) (batch : list AnnotationInput) : Sql (list AnnotationResult) :=
  match batch with
  | [] => db_ret []
  | a :: batch =>
      result <-- append_annotation now user_id device_id a ;;
      results <-- append_each now user_id device_id batch ;;
      db_ret (result :: results)
  end.

Definition any_applied (results : list AnnotationResult) : bool :=
  existsb (fun r => bool_decide (an_status r = lit "applied")) results.

Definition append_annotations (now : Z) (user_id device_id : str) (batch : list AnnotationInput) : Sql (list AnnotationResult) :=
  transaction (
    _ <-- ensure_counter user_id ;;
    _ <-- reconcile_native_ids now user_id (ai_id <$> batch) ;;
    results <-- append_each now user_id device_id batch ;;
    _ <-- (if any_applied results then reconcile_annotation_projections now user_id else db_ret tt) ;;
    db_ret results).

(** ** Reading *)

Definition annotation_high_water (user_id : str) : Sql Z :=
  query (fun s => match st_counters s !! user_id with Some c => ct_annotation_seq c | None => 0 end).

Definition records_since (user_id : str) (since : Z) (limit : nat) (s : Store) : list AnnotationRow :=
  take limit (merge_sort feed_before (filter (fun r => aw_user_id r = user_id /\ since < aw_seq r) (annotations s))).

Definition read_records (user_id : str) (since : Z) (limit : nat) (high_water : Z) : Sql (list AnnotationRecord * Z * bool) :=
  rows <-- query (records_since user_id since (limit + 1)) ;;
  db_ret (annotation_record <$> take limit rows, high_water, (limit <? length rows)%nat).

Definition refresh (now : Z) (user_id : str) (reconcile : Sql unit) : Sql unit :=
  transaction (
    _ <-- ensure_counter user_id ;;
    _ <-- reconcile ;;
    reconcile_annotation_projections now user_id).

Definition annotation_changes (now : Z) (user_id : str) (since : Z) (limit : nat) : Sql (list AnnotationRecord * Z * bool) :=
  _ <-- refresh now user_id (reconcile_native_annotations now user_id) ;;
  high_water <-- annotation_high_water user_id ;;
  read_records user_id since limit high_water.

(** [ORDER BY deleted, progression IS NULL, progression, client_ts, seq]. *)
Definition work_before (a b : AnnotationRow) : Prop :=
  let rest := later (aw_client_ts b) (aw_client_ts a) = true \/ aw_client_ts a = aw_client_ts b /\ aw_seq a <= aw_seq b in
  match aw_deleted a, aw_deleted b with
  | false, true => True
  | true, false => False
  | _, _ =>
      match aw_progression a, aw_progression b with
      | Some _, None => True
      | None, Some _ => False
      | None, None => rest
      | Some x, Some y => flt x y = true \/ feq x y = true /\ rest
      end
  end.

#[export] Instance work_before_dec a b : Decision (work_before a b).
Proof. unfold work_before. destruct (aw_deleted a), (aw_deleted b), (aw_progression a), (aw_progression b); apply _. Defined.

Definition work_annotations_with_deleted (now : Z) (user_id work_id : str) (include_deleted : bool) : Sql (list AnnotationRecord) :=
  known <-- work_exists user_id work_id ;;
  if negb known then db_err (Refused (NotFound (lit "work not found")))
  else
    _ <-- refresh now user_id (reconcile_native_works now user_id [work_id]) ;;
    rows <-- query (fun s => merge_sort work_before
      (filter (fun r => aw_user_id r = user_id /\ aw_work_id r = work_id /\ (include_deleted = true \/ aw_deleted r = false))
         (annotations s))) ;;
    db_ret (annotation_record <$> rows).

Definition work_annotations (now : Z) (user_id work_id : str) : Sql (list AnnotationRecord) :=
  work_annotations_with_deleted now user_id work_id false.

(** ** Deleting *)

Definition is_attachment (user_id annotation_id : str) (r : AttachmentRow) : bool :=
  bool_decide (ac_user_id r = user_id) && bool_decide (ac_annotation_id r = annotation_id).

Definition attachment_before (a b : AttachmentRow) : Prop :=
  later (ac_created_at b) (ac_created_at a) = true \/
  ac_created_at a = ac_created_at b /\ str_le (ac_id a) (ac_id b) = true.

#[export] Instance attachment_before_dec a b : Decision (attachment_before a b).
Proof. unfold attachment_before. apply _. Defined.

(** [annotation_attachment::list]. *)
Definition list_rows (user_id annotation_id : str) : Sql (list AttachmentRow) :=
  query (fun s => merge_sort attachment_before (List.filter (is_attachment user_id annotation_id) (attachment_rows s))).

Definition delete_for_annotation (user_id annotation_id : str) : Sql (list AttachmentRow) :=
  attachments <-- list_rows user_id annotation_id ;;
  match attachments with
  | [] => db_ret []
  | _ =>
      _ <-- execute (fun s =>
        (Ok tt, set_attachments s (List.filter (fun r => negb (is_attachment user_id annotation_id r)) (attachment_rows s)))) ;;
      db_ret attachments
  end.

(** [remove_file]: a file that cannot be removed stays, and the call goes on. *)
Definition remove_file (path : str) : Sql unit := ignoring (execute (fun s => (Ok tt, set_files s (delete path (st_files s))))).

Fixpoint unlink_all (attachments : list AttachmentRow) : Sql unit :=
  match attachments with
  | [] => db_ret tt
  | r :: attachments => _ <-- remove_file (ac_storage_path r) ;; unlink_all attachments
  end.

(** A transaction whose body may return without committing. *)
Inductive Ended (A : Type) := Commit (a : A) | Drop (a : A).

Arguments Commit {A} _.
Arguments Drop {A} _.

Definition transaction_ended {A} (body : Sql (Ended A)) : Sql A := fun s =>
  match (_ <-- execute (db_ret tt) ;; body) s with
  | (Ok (Commit a), s') =>
      match execute (db_ret tt) s' with
      | (Ok _, s'') => (Ok a, s'')
      | (Err e, s'') => (Err e, rolled_back s s'')
      end
  | (Ok (Drop a), s') => (Ok a, rolled_back s s')
  | (Err e, s') => (Err e, rolled_back s s')
  end.

Definition deleted_result (id : str) (status : string) (rev seq : Z) (server : option AnnotationRow) : DeleteAnnotationResult :=
  {| da_id := id; da_status := lit status; da_rev := rev; da_seq := seq; da_server := annotation_record <$> server |}.

Definition delete_annotation (now : Z) (user_id id : str) (rev : Z) : Sql DeleteAnnotationResult :=
  deleted <-- transaction_ended (
    _ <-- ensure_counter user_id ;;
    _ <-- reconcile_native_ids now user_id [id] ;;
    stored <-- find_annotation user_id id ;;
    match stored with
    | None => db_err (Refused (NotFound (lit "annotation not found")))
    | Some stored =>
        if aw_deleted stored
        then db_ret (Commit (deleted_result id "duplicate" (aw_rev stored) (aw_seq stored) None, []))
        else if negb (aw_rev stored =? rev)
        then db_ret (Drop (deleted_result id "conflict" (aw_rev stored) (aw_seq stored) (Some stored), []))
        else
          _ <-- (if is_stump_native_annotation_id id then delete_native_annotation_source user_id id else db_ret tt) ;;
          seq <-- next_annotation_seq user_id ;;
          _ <-- update_annotation user_id id (tombstoned (aw_rev stored + 1) seq (to_rfc3339_nanos now)) ;;
          detached <-- delete_for_annotation user_id id ;;
          _ <-- reconcile_annotation_projections now user_id ;;
          db_ret (Commit (deleted_result id "applied" (aw_rev stored + 1) seq None, detached))
    end) ;;
  let '(result, detached) := deleted in
  _ <-- unlink_all detached ;;
  db_ret result.

End annotations.

(** ** The records of an account and how they evolve *)

(** Steps through a call that went through. *)
Ltac bind_ok E x s1 E1 := apply db_bind_cases in E as [(? & _ & [=])|(x & s1 & E1 & E)]; cbv beta in E.

(** Steps through statements that touch other tables. *)
Ltac quietly :=
  repeat first
    [ progress storing
    | match goal with
      | |- acts _ (ok_or _ _) => unfold ok_or
      | |- acts _ (execute _) => apply acts_execute; [apply _|]; intros ?; cbn; repeat case_match; by split
      | |- acts _ (ignoring _) => apply ignoring_acts
      end ].

Section evolution.
Context `{DecimalOps} `{Host} `{Chrono} `{Wire} `{!LocatorWire}.

Definition record_of (user_id id : str) (s : Store) : option AnnotationRow :=
  List.find (is_annotation user_id id) (annotations s).

Definition ann_seq (user_id : str) (s : Store) : Z :=
  match st_counters s !! user_id with Some c => ct_annotation_seq c | None => 0 end.

Definition record_key (r : AnnotationRow) : str * str := (aw_user_id r, aw_id r).

(** One record per account and id; revisions count from one; every record has a place of
    its own in the feed of its account, up to the counter. *)
Record ann_wf (s : Store) : Prop := {
  wf_keys : NoDup (record_key <$> annotations s);
  wf_seq user_id : 0 <= ann_seq user_id s;
  wf_row user_id id r : record_of user_id id s = Some r -> 1 <= aw_rev r /\ 1 <= aw_seq r <= ann_seq user_id s;
  wf_unique user_id id1 id2 r1 r2 :
    record_of user_id id1 s = Some r1 -> record_of user_id id2 s = Some r2 -> aw_seq r1 = aw_seq r2 -> id1 = id2;
}.

(** A record that changes gets a higher revision and a place above the counter; the
    tombstone of a client's record never changes, and no record goes away. *)
Definition row_evolves (bound : Z) (id : str) (o o' : option AnnotationRow) : Prop :=
  o' = o \/
  exists r', o' = Some r' /\ bound < aw_seq r' /\
    match o with
    | Some r => aw_rev r < aw_rev r' /\ (aw_deleted r = true -> is_stump_native_annotation_id id = true)
    | None => True
    end.

Record evolves (s s' : Store) : Prop := {
  ev_seq user_id : ann_seq user_id s <= ann_seq user_id s';
  ev_row user_id id : row_evolves (ann_seq user_id s) id (record_of user_id id s) (record_of user_id id s');
  ev_wf : ann_wf s -> ann_wf s';
}.

(** The records and their counters are untouched. *)
Definition same_ann (s s' : Store) : Prop :=
  annotations s' = annotations s /\ forall user_id, ann_seq user_id s' = ann_seq user_id s.

#[export] Instance same_ann_free : FaultFree same_ann.
Proof.
  split; [split| |]; unfold same_ann; [done| |done|done]. intros s1 s2 s3 [E1 F1] [E2 F2].
  split; [congruence|]. intros u. by rewrite F2, F1.
Qed.

Lemma same_ann_evolves s s' : same_ann s s' -> evolves s s'.
Proof.
  intros [E F]. assert (Hr : forall u id, record_of u id s' = record_of u id s) by (intros; unfold record_of; by rewrite E).
  split; [intros u; rewrite F; lia|intros u id; by left|]. intros [W1 W2 W3 W4].
  split; [by rewrite E|intros u; by rewrite F|intros u id r; rewrite Hr, F; apply W3|intros u id1 id2 r1 r2; rewrite !Hr; apply W4].
Qed.

Lemma row_evolves_trans b1 b2 id o1 o2 o3 :
  b1 <= b2 -> row_evolves b1 id o1 o2 -> row_evolves b2 id o2 o3 -> row_evolves b1 id o1 o3.
Proof.
  intros Hb H12 [->|(r3 & -> & Hb3 & H23)]; [done|]. right. exists r3. split; [done|].
  destruct H12 as [->|(r2 & -> & Hb2 & H12)]; (split; [lia|]); [destruct o1; naive_solver|].
  destruct o1 as [r1|]; [|done]. destruct H12, H23. split; [lia|auto].
Qed.

#[export] Instance evolves_free : FaultFree evolves.
Proof.
  split; [split| |].
  - intros s. by apply same_ann_evolves.
  - intros s1 s2 s3 [Q1 R1 W1] [Q2 R2 W2]. split; [intros u; specialize (Q1 u); specialize (Q2 u); lia| |auto].
    intros u id. exact (row_evolves_trans _ _ _ _ _ _ (Q1 u) (R1 u id) (R2 u id)).
  - intros s fs. by apply same_ann_evolves.
  - intros s m. by apply same_ann_evolves.
Qed.

(** *** One numbered write *)

(** The tables after writing [row] at its key. *)
Record written (user_id id : str) (row : AnnotationRow) (s s' : Store) : Prop := {
  wr_at : record_of user_id id s' = Some row;
  wr_frame user_id' id' : (user_id', id') <> (user_id, id) -> record_of user_id' id' s' = record_of user_id' id' s;
  wr_keys : NoDup (record_key <$> annotations s) -> NoDup (record_key <$> annotations s');
}.

Definition keeps_key (f : AnnotationRow -> AnnotationRow) : Prop :=
  forall r, record_key (f r) = record_key r.

Lemma is_annotation_iff user_id id r : is_annotation user_id id r = true <-> record_key r = (user_id, id).
Proof. unfold is_annotation, record_key. rewrite andb_true_iff, !bool_decide_eq_true. naive_solver. Qed.

Lemma record_of_key user_id id s r : record_of user_id id s = Some r -> r ∈ annotations s /\ record_key r = (user_id, id).
Proof. intros [Hin Hk]%find_Some_iff. by rewrite is_annotation_iff in Hk. Qed.

Lemma record_of_elem s r : ann_wf s -> r ∈ annotations s -> record_of (aw_user_id r) (aw_id r) s = Some r.
Proof.
  intros W Hr. destruct (record_of (aw_user_id r) (aw_id r) s) as [r'|] eqn:E.
  - apply record_of_key in E as [Hr' Hk]. f_equal. apply list_elem_of_lookup in Hr as [i Hi], Hr' as [j Hj].
    assert (i = j); [|by simplify_eq]. apply (NoDup_lookup _ _ _ (record_key r) (wf_keys s W)); rewrite list_lookup_fmap.
    + by rewrite Hi.
    + rewrite Hj. cbn. by f_equal.
  - unfold record_of in E. rewrite find_None_iff in E. specialize (E r Hr). apply not_true_iff_false in E. by rewrite is_annotation_iff in E.
Qed.

Definition patched (user_id id : str) (f : AnnotationRow -> AnnotationRow) (rows : list AnnotationRow) : list AnnotationRow :=
  (fun row => if is_annotation user_id id row then f row else row) <$> rows.

Lemma patched_key user_id id f r : keeps_key f -> record_key (if is_annotation user_id id r then f r else r) = record_key r.
Proof. intros Hf. destruct (is_annotation user_id id r); [apply Hf|done]. Qed.

Lemma find_patched user_id id f rows user_id' id' : keeps_key f ->
  List.find (is_annotation user_id' id') (patched user_id id f rows) =
  (fun row => if is_annotation user_id id row then f row else row) <$> List.find (is_annotation user_id' id') rows.
Proof.
  intros Hf. induction rows as [|r rows IH]; [done|]. cbn.
  assert (Ek : is_annotation user_id' id' (if is_annotation user_id id r then f r else r) = is_annotation user_id' id' r).
  { apply eq_bool_prop_intro. rewrite !Is_true_true, !is_annotation_iff. by rewrite patched_key. }
  rewrite Ek. by destruct (is_annotation user_id' id' r).
Qed.

Lemma patched_written user_id id f s s' r : keeps_key f ->
  annotations s' = patched user_id id f (annotations s) -> record_of user_id id s = Some r ->
  written user_id id (f r) s s'.
Proof.
  intros Hf Es Hr. split.
  - unfold record_of. rewrite Es, find_patched by done. change (List.find _ (annotations s)) with (record_of user_id id s).
    rewrite Hr. cbn. apply record_of_key in Hr as [_ Hk]. apply is_annotation_iff in Hk. by rewrite Hk.
  - intros u' id' Hne. unfold record_of. rewrite Es, find_patched by done.
    destruct (List.find _ (annotations s)) as [r'|] eqn:E; [|done]. cbn. f_equal.
    destruct (is_annotation user_id id r') eqn:Ei; [|done]. apply is_annotation_iff in Ei.
    apply find_Some_iff in E as [_ E]. apply is_annotation_iff in E. congruence.
  - intros Hnd. rewrite Es. unfold patched. rewrite <- list_fmap_compose.
    erewrite (list_fmap_ext (record_key ∘ _)); [done|]. intros i x _. cbn. by apply patched_key.
Qed.

Lemma inserted_written row s s' :
  annotations s' = annotations s ++ [row] -> record_of (aw_user_id row) (aw_id row) s = None ->
  written (aw_user_id row) (aw_id row) row s s'.
Proof.
  intros Es Hn. assert (Hown : is_annotation (aw_user_id row) (aw_id row) row = true) by by apply is_annotation_iff.
  unfold record_of in *. split.
  - unfold record_of. rewrite Es, find_app, Hn. cbn. by rewrite Hown.
  - intros u' id' Hne. unfold record_of. rewrite Es, find_app.
    destruct (List.find (is_annotation u' id') (annotations s)); [done|]. cbn.
    destruct (is_annotation u' id' row) eqn:E; [|done]. apply is_annotation_iff in E. by destruct Hne.
  - intros Hnd. rewrite Es, fmap_app. apply NoDup_app. split_and!; [done| |apply NoDup_singleton].
    intros k (r & -> & Hr)%list_elem_of_fmap Hk%list_elem_of_singleton. rewrite find_None_iff in Hn.
    specialize (Hn r Hr). apply not_true_iff_false in Hn. rewrite is_annotation_iff in Hn. done.
Qed.

Lemma ann_seq_bumped user_id s s' c : st_counters s !! user_id = Some c ->
  st_counters s' = alter bump_annotation_seq user_id (st_counters s) ->
  ann_seq user_id s = ct_annotation_seq c /\ ann_seq user_id s' = ct_annotation_seq c + 1 /\
  forall u, u <> user_id -> ann_seq u s' = ann_seq u s.
Proof.
  intros Hc Es. unfold ann_seq. rewrite Es, lookup_alter_eq, Hc. split_and!; [done|done|].
  intros u Hne. by rewrite lookup_alter_ne.
Qed.

Lemma write_evolves user_id id row c s s' :
  st_counters s !! user_id = Some c -> st_counters s' = alter bump_annotation_seq user_id (st_counters s) ->
  written user_id id row s s' -> aw_seq row = ct_annotation_seq c + 1 ->
  match record_of user_id id s with
  | Some r => aw_rev row = aw_rev r + 1 /\ (aw_deleted r = true -> is_stump_native_annotation_id id = true)
  | None => aw_rev row = 1
  end ->
  evolves s s'.
Proof.
  intros Hc Es [Hat Hframe Hkeys] Hseq Hrev. destruct (ann_seq_bumped _ _ _ _ Hc Es) as (Q & Q' & Qne).
  assert (Hrow : forall u id', (u, id') <> (user_id, id) \/ (u = user_id /\ id' = id)).
  { intros u id'. destruct (decide ((u, id') = (user_id, id))) as [[= -> ->]|]; auto. }
  split.
  - intros u. destruct (decide (u = user_id)) as [->|Hne]; [lia|]. rewrite Qne by done. lia.
  - intros u id'. destruct (Hrow u id') as [Hne|[-> ->]]; [left; by apply Hframe|]. right. exists row.
    split; [done|]. split; [lia|]. destruct (record_of user_id id s); [|done]. destruct Hrev. split; [lia|done].
  - intros [W1 W2 W3 W4]. split; [auto| | |].
    + intros u. specialize (W2 u). destruct (decide (u = user_id)) as [->|Hne]; [lia|]. by rewrite Qne.
    + intros u id' r Hr. destruct (Hrow u id') as [Hne|[-> ->]].
      * rewrite Hframe in Hr by done. specialize (W3 _ _ _ Hr). destruct (decide (u = user_id)) as [->|Hu]; [lia|].
        by rewrite Qne.
      * rewrite Hat in Hr. injection Hr as <-. specialize (W2 user_id). split; [|lia].
        destruct (record_of user_id id s) as [r|] eqn:E; [|lia]. destruct Hrev as [-> _]. specialize (W3 _ _ _ E). lia.
    + intros u id1 id2 r1 r2 H1' H2' Heq.
      destruct (Hrow u id1) as [N1|[E1 ->]], (Hrow u id2) as [N2|[E2 ->]]; subst; try done.
      * rewrite Hframe in H1', H2' by done. by eapply W4.
      * rewrite Hframe in H1' by done. rewrite Hat in H2'. injection H2' as <-. specialize (W3 _ _ _ H1'). lia.
      * rewrite Hframe in H2' by done. rewrite Hat in H1'. injection H1' as <-. specialize (W3 _ _ _ H2'). lia.
Qed.

Lemma next_annotation_seq_done user_id s n s' :
  next_annotation_seq user_id s = (Ok n, s') ->
  exists c fs, st_counters s !! user_id = Some c /\ n = ct_annotation_seq c + 1 /\
    s' = set_faults (set_counters s (alter bump_annotation_seq user_id (st_counters s))) fs.
Proof.
  intros E. bind_ok E x s1 E1. destruct x. apply execute_cases in E1 as (fs & [[[=] _]|[= <-]]).
  bind_ok E row s2 E2. apply query_cases in E2 as (fs2 & -> & [[=]|[= ->]]).
  cbn [st_counters set_counters set_faults set_reading] in E. rewrite lookup_alter_eq in E.
  destruct (st_counters s !! user_id) as [c|]; [|done]. injection E as <- <-. exists c, fs2. done.
Qed.

Lemma ok_or_done {A} (o : option A) e s a s' : ok_or o e s = (Ok a, s') -> o = Some a /\ s' = s.
Proof. unfold ok_or. destruct o; [intros [= <- <-]|]; done. Qed.

Lemma insert_annotation_done row s s' :
  insert_annotation row s = (Ok tt, s') ->
  record_of (aw_user_id row) (aw_id row) s = None /\ exists fs, s' = set_faults (set_annotations s (annotations s ++ [row])) fs.
Proof.
  intros (fs & [[[=] _]|E])%execute_cases. change (annotations (set_faults s fs)) with (annotations s) in E.
  destruct (existsb _ _) eqn:Ex; [done|]. injection E as <-. split; [|by exists fs].
  apply find_None_iff. intros x Hx. apply not_true_iff_false. intros Hi. apply not_true_iff_false in Ex.
  apply Ex, existsb_exists. exists x. split; [by apply list_elem_of_In|done].
Qed.

Lemma update_annotation_done user_id id f s s' :
  update_annotation user_id id f s = (Ok tt, s') ->
  exists fs, s' = set_faults (set_annotations s (patched user_id id f (annotations s))) fs.
Proof. intros (fs & [[[=] _]|[= <-]])%execute_cases. by exists fs. Qed.

End evolution.

(** ** What the operations do *)

Section operations.
Context `{DecimalOps} `{Host} `{Chrono} `{Wire} `{!LocatorWire}.

(** *** Operations that leave the records alone *)

Lemma ann_seq_alter f user_id s :
  (forall c, ct_annotation_seq (f c) = ct_annotation_seq c) ->
  forall u, ann_seq u (set_counters s (alter f user_id (st_counters s))) = ann_seq u s.
Proof.
  intros Hf u. unfold ann_seq. cbn [st_counters set_counters]. destruct (decide (u = user_id)) as [->|Hne].
  - rewrite lookup_alter_eq. destruct (st_counters s !! user_id); cbn; [apply Hf|done].
  - by rewrite lookup_alter_ne.
Qed.

Lemma ensure_counter_same user_id : acts same_ann (ensure_counter user_id).
Proof.
  apply acts_execute; [apply _|]. intros s. cbn. destruct (st_counters s !! user_id) as [c|] eqn:E; [done|].
  split; [done|]. intros u. unfold ann_seq. cbn [st_counters set_counters].
  destruct (decide (u = user_id)) as [->|Hne]; [by rewrite lookup_insert_eq, E|by rewrite lookup_insert_ne].
Qed.

Lemma delete_projection_same user_id id : acts same_ann (delete_native_annotation_projection user_id id).
Proof. unfold delete_native_annotation_projection, delete_native, delete_bookmark. quietly. Qed.

Lemma project_annotation_same now user_id row : acts same_ann (project_annotation now user_id row).
Proof.
  unfold project_annotation, linked_annotation_media_id, insert_native, insert_bookmark.
  quietly; apply delete_projection_same.
Qed.

Lemma project_all_same now user_id rows : acts same_ann (project_all now user_id rows).
Proof. induction rows as [|row rows IH]; cbn; quietly; [apply project_annotation_same|exact IH]. Qed.

Lemma reconcile_projections_same now user_id : acts same_ann (reconcile_annotation_projections now user_id).
Proof.
  unfold reconcile_annotation_projections. storing; [apply project_all_same|].
  apply acts_execute; [apply _|]. intros s. split; [done|]. by apply ann_seq_alter.
Qed.

Lemma writeback_same now user_id a stored : acts same_ann (writeback_native_annotation now user_id a stored).
Proof. unfold writeback_native_annotation, locator_text. quietly. Qed.

Lemma delete_source_same user_id id : acts same_ann (delete_native_annotation_source user_id id).
Proof. unfold delete_native_annotation_source, delete_native, delete_bookmark. quietly. Qed.

Lemma delete_for_annotation_same user_id id : acts same_ann (delete_for_annotation user_id id).
Proof. unfold delete_for_annotation, list_rows. quietly. Qed.

Lemma unlink_all_same rows : acts same_ann (unlink_all rows).
Proof. induction rows as [|row rows IH]; cbn; unfold remove_file; quietly. exact IH. Qed.

Lemma find_candidate_same user_id id : acts same_ann (native_candidate_for_id user_id id).
Proof. unfold native_candidate_for_id, readable_native_link. quietly. Qed.

Lemma candidates_same user_id works : acts same_ann (native_candidates_for_works user_id works).
Proof. unfold native_candidates_for_works. quietly. Qed.

Lemma oks_same {A} (c : Sql A) : acts same_ann c -> oks evolves c.
Proof. intros Hc. apply oks_acts. intros s. apply same_ann_evolves, Hc. Qed.

(** *** Identities of mirrors *)

Lemma split_once_colon_spec s a b : split_once_colon s = Some (a, b) -> s = a ++ lit ":" ++ b.
Proof.
  unfold split_once_colon. destruct (drop_while _ s) as [|c rest] eqn:E; [done|]. intros [= <- <-].
  rewrite <- (take_drop_while (fun c => negb (c =? 58)) s) at 1. rewrite E. f_equal.
  assert (Hc : negb (c =? 58) = false) by (apply (drop_while_head (fun c => negb (c =? 58)) s c); by rewrite E).
  apply negb_false_iff, Z.eqb_eq in Hc. by subst c.
Qed.

Lemma parse_native_spec id kind native_id :
  parse_stump_native_annotation_id id = Some (kind, native_id) ->
  id = stump_native_annotation_id kind native_id /\ (kind = lit "annotation" \/ kind = lit "bookmark").
Proof.
  unfold parse_stump_native_annotation_id. intros (rest & Hr & E)%bind_Some. apply strip_prefix_Some in Hr as ->.
  apply bind_Some in E as ([k n] & Hs & E). apply split_once_colon_spec in Hs as ->.
  destruct (bool_decide (n = [])); [done|]. cbn in E. split; [|repeat case_bool_decide; naive_solver].
  destruct (negb _); [done|]. by injection E as <- <-.
Qed.

Lemma native_id_is_native kind native_id : is_stump_native_annotation_id (stump_native_annotation_id kind native_id) = true.
Proof. apply starts_with_iff. eexists. done. Qed.

Lemma media_candidate_id row link c :
  media_annotation_candidate row link = Some (Some c) -> ca_id c = stump_native_annotation_id (lit "annotation") (nt_id row).
Proof.
  unfold media_annotation_candidate. destruct (_ || _ || _); [done|]. cbn zeta.
  destruct (bool_decide (_ = lit "note") && _); [done|]. destruct (64 <? _); [done|].
  intros (l & _ & [= <-])%bind_Some. done.
Qed.

Lemma bookmark_candidate_id row link c :
  bookmark_candidate row link = Some (Some c) -> ca_id c = stump_native_annotation_id (lit "bookmark") (bm_id row).
Proof.
  unfold bookmark_candidate. destruct (is_liseur_sync_projection_id _); [done|]. destruct (bm_locator row ≫= _); [|done].
  cbn zeta. destruct (64 <? _); [done|]. intros (l & _ & [= <-])%bind_Some. done.
Qed.

Lemma candidate_for_id_id user_id id s c s' : native_candidate_for_id user_id id s = (Ok (Some c), s') -> ca_id c = id.
Proof.
  unfold native_candidate_for_id. destruct (parse_stump_native_annotation_id id) as [[kind native_id]|] eqn:Ep; [|done].
  apply parse_native_spec in Ep as [-> Hk]. case_bool_decide as K1; [|case_bool_decide as K2; [|done]]; intros E; subst kind.
  - bind_ok E row s1 E1. apply query_cases in E1 as (fs & -> & [[=]|[= ->]]).
    destruct (List.find _ _) as [row|] eqn:Ef; [|done]. apply find_Some_iff in Ef as [_ Hr].
    apply andb_true_iff in Hr as [Hid%bool_decide_eq_true _]. bind_ok E link s2 E2. destruct link as [link|]; [|done].
    apply ok_or_done in E as [E _]. apply media_candidate_id in E. by rewrite E, Hid.
  - bind_ok E row s1 E1. apply query_cases in E1 as (fs & -> & [[=]|[= ->]]).
    destruct (List.find _ _) as [row|] eqn:Ef; [|done]. apply find_Some_iff in Ef as [_ Hr].
    apply andb_true_iff in Hr as [Hid%bool_decide_eq_true _]. bind_ok E link s2 E2. destruct link as [link|]; [|done].
    apply ok_or_done in E as [E _]. apply bookmark_candidate_id in E. by rewrite E, Hid.
Qed.

Lemma collect_candidates_all {A} (P : NativeAnnotationCandidate -> Prop) candidate (media_id : A -> str) links rows cs :
  (forall row link c, candidate row link = Some (Some c) -> P c) ->
  collect_candidates candidate media_id links rows = Some cs -> Forall P cs.
Proof.
  intros HP. revert cs. induction rows as [|row rows IH]; intros cs; cbn; [intros [= <-]; constructor|].
  destruct (links !! media_id row) as [link|]; [|apply IH].
  intros (found & Hf & E)%bind_Some. apply bind_Some in E as (rest & Hr & [= <-]).
  destruct found as [c|]; [|auto]. constructor; [by eapply HP|auto].
Qed.

Lemma candidates_native user_id works s cs s' :
  native_candidates_for_works user_id works s = (Ok cs, s') ->
  Forall (fun c => is_stump_native_annotation_id (ca_id c) = true) cs.
Proof.
  intros E. bind_ok E links s1 E1. case_bool_decide; [injection E as <- <-; constructor|].
  bind_ok E readable s2 E2. cbv zeta in E. case_bool_decide; [injection E as <- <-; constructor|].
  bind_ok E rows s3 E3. bind_ok E marks s4 E4. bind_ok E of_rows s5 E5. bind_ok E of_marks s6 E6.
  injection E as <- <-. apply ok_or_done in E5 as [E5 _], E6 as [E6 _]. apply Forall_app. split.
  - eapply collect_candidates_all; [|exact E5]. intros row link c ->%media_candidate_id. apply native_id_is_native.
  - eapply collect_candidates_all; [|exact E6]. intros row link c ->%bookmark_candidate_id. apply native_id_is_native.
Qed.

(** *** Writes *)

(** What a write at a key does: the store evolves, and every other record stays. *)
Definition touches (user_id id : str) (s s' : Store) : Prop :=
  evolves s s' /\ forall u id', (u, id') <> (user_id, id) -> record_of u id' s' = record_of u id' s.

Lemma same_ann_touches user_id id s s' : same_ann s s' -> touches user_id id s s'.
Proof. intros Hs. split; [by apply same_ann_evolves|]. intros u id' _. unfold record_of. by rewrite (proj1 Hs). Qed.

Lemma touches_trans user_id id s1 s2 s3 : touches user_id id s1 s2 -> touches user_id id s2 s3 -> touches user_id id s1 s3.
Proof. intros [E1 F1] [E2 F2]. split; [by etrans|]. intros u id' Hne. rewrite F2, F1; done. Qed.

(** A number is taken and the row at a key is changed. *)
Lemma numbered_update user_id id f stored n s s1 s2 :
  next_annotation_seq user_id s = (Ok n, s1) ->
  update_annotation user_id id f s1 = (Ok tt, s2) -> keeps_key f -> record_of user_id id s = Some stored ->
  aw_seq (f stored) = n -> aw_rev (f stored) = aw_rev stored + 1 ->
  (aw_deleted stored = true -> is_stump_native_annotation_id id = true) ->
  touches user_id id s s2 /\ record_of user_id id s2 = Some (f stored) /\ ann_seq user_id s < n.
Proof.
  intros (c & fs & Hc & -> & ->)%next_annotation_seq_done (fs2 & ->)%update_annotation_done Hf Hs Hseq Hrev Hdel.
  set (s2 := set_faults _ fs2).
  assert (Hw : written user_id id (f stored) s s2) by (eapply patched_written; done).
  split_and!; [split|by apply Hw|].
  - eapply write_evolves; [exact Hc|done|exact Hw|done|]. by rewrite Hs.
  - intros u id' Hne. by apply Hw.
  - unfold ann_seq. rewrite Hc. lia.
Qed.

Lemma numbered_insert row n s s1 s2 :
  next_annotation_seq (aw_user_id row) s = (Ok n, s1) -> insert_annotation row s1 = (Ok tt, s2) ->
  aw_seq row = n -> aw_rev row = 1 ->
  touches (aw_user_id row) (aw_id row) s s2 /\ record_of (aw_user_id row) (aw_id row) s = None /\
  record_of (aw_user_id row) (aw_id row) s2 = Some row /\ ann_seq (aw_user_id row) s < n.
Proof.
  intros (c & fs & Hc & -> & ->)%next_annotation_seq_done (Hn & fs2 & ->)%insert_annotation_done Hseq Hrev.
  change (record_of (aw_user_id row) (aw_id row) s = None) in Hn. set (s2 := set_faults _ fs2).
  assert (Hw : written (aw_user_id row) (aw_id row) row s s2) by (by apply inserted_written).
  split_and!; [split|done|by apply Hw|].
  - eapply write_evolves; [exact Hc|done|exact Hw|done|]. by rewrite Hn.
  - intros u id' Hne. by apply Hw.
  - unfold ann_seq. rewrite Hc. lia.
Qed.

End operations.

Section reconciling.
Context `{DecimalOps} `{Host} `{Chrono} `{Wire} `{!LocatorWire}.

(** The row a reconciliation writes for a candidate. *)
Record mirror_of (row : AnnotationRow) (c : NativeAnnotationCandidate) : Prop := {
  mo_live : aw_deleted row = false;
  mo_work : aw_work_id row = ca_work_id c;
  mo_edition : aw_edition_sha row = ca_edition_sha c;
  mo_kind : aw_kind row = ca_kind c;
  mo_locator : exists t, json_text (ca_locator c) = Some t /\ aw_locator row = Some t;
  mo_progression : aw_progression row = ca_progression c;
  mo_excerpt : aw_excerpt row = ca_excerpt c;
  mo_color : aw_color row = ca_color c;
  mo_body : aw_body row = ca_body c;
  mo_updated : aw_updated_at row = ca_updated_at c;
}.

Lemma reconcile_candidate_done user_id c stored s s' :
  stored = record_of user_id (ca_id c) s -> is_stump_native_annotation_id (ca_id c) = true ->
  reconcile_native_candidate user_id c stored s = (Ok tt, s') ->
  touches user_id (ca_id c) s s' /\
  exists row, record_of user_id (ca_id c) s' = Some row /\
    ((native_candidate_matches row c = true /\ s' = s) \/ mirror_of row c).
Proof.
  intros Hs Hn. unfold reconcile_native_candidate. destruct stored as [stored|].
  - destruct (native_candidate_matches stored c) eqn:Em.
    { intros [= <-]. split; [by apply same_ann_touches|]. exists stored. auto. }
    intros E. bind_ok E n s1 E1. bind_ok E payload s2 E2. bind_ok E locator s3 E3.
    apply ok_or_done in E2 as [_ ->], E3 as [Et ->].
    eapply numbered_update in E as (Ht & Hr & _); [|exact E1|done|by rewrite <- Hs|..]; [|done..].
    split; [exact Ht|]. eexists. split; [exact Hr|]. right. by split; cbn; eauto.
  - intros E. bind_ok E n s1 E1. bind_ok E payload s2 E2. bind_ok E locator s3 E3.
    apply ok_or_done in E2 as [_ ->], E3 as [Et ->].
    eapply (numbered_insert (mirror_created user_id c n locator payload)) in E as (Ht & _ & Hr & _); [|exact E1|done..].
    split; [exact Ht|]. eexists. split; [exact Hr|]. right. by split; cbn; eauto.
Qed.

Lemma tombstone_done now user_id stored s s' :
  record_of user_id (aw_id stored) s = Some stored -> aw_deleted stored = false ->
  tombstone_native_mirror now user_id stored s = (Ok tt, s') ->
  touches user_id (aw_id stored) s s' /\
  exists row, record_of user_id (aw_id stored) s' = Some row /\ aw_deleted row = true.
Proof.
  intros Hs Hd E. bind_ok E n s1 E1. eapply numbered_update in E as (Ht & Hr & _); [|exact E1|done|exact Hs|..]; [|done..|congruence].
  split; [exact Ht|]. eexists. by split; [exact Hr|].
Qed.

Lemma record_of_same user_id id s s' : same_ann s s' -> record_of user_id id s' = record_of user_id id s.
Proof. intros [E _]. unfold record_of. by rewrite E. Qed.

Lemma find_annotation_done user_id id s o s' :
  find_annotation user_id id s = (Ok o, s') -> o = record_of user_id id s /\ same_ann s s'.
Proof. intros (fs & -> & [[=]|[= ->]])%query_cases. split; [done|]. apply (ff_faults (R := same_ann)). Qed.

(** What an id is reconciled to: the mirror of its candidate, or nothing alive. *)
Definition settled_to (user_id id : str) (candidate : option NativeAnnotationCandidate) (s' : Store) : Prop :=
  match candidate with
  | Some c => exists row, record_of user_id id s' = Some row /\ (native_candidate_matches row c = true \/ mirror_of row c)
  | None => forall row, record_of user_id id s' = Some row -> aw_deleted row = true
  end.

Lemma reconcile_id_done now user_id id stored s s' :
  (forall r, stored = Some r -> record_of user_id id s = Some r) ->
  reconcile_native_id now user_id id stored s = (Ok tt, s') ->
  touches user_id id s s' /\
  exists candidate s1, native_candidate_for_id user_id id s = (Ok candidate, s1) /\ settled_to user_id id candidate s'.
Proof.
  intros Hs E. bind_ok E candidate s1 E1. bind_ok E stored' s2 E2.
  assert (Q1 : same_ann s s1) by (by apply (oks_acts same_ann _ (find_candidate_same user_id id)) in E1).
  assert (stored' = record_of user_id id s2 /\ same_ann s s2) as [Hst Q2].
  { destruct stored as [stored|].
    - injection E2 as <- <-. split; [|done]. rewrite (record_of_same _ _ _ _ Q1). symmetry. by apply Hs.
    - apply find_annotation_done in E2 as [-> Q2]. split; [by rewrite (record_of_same _ _ _ _ Q2)|by etrans]. }
  assert (Ht2 : touches user_id id s s2) by by apply same_ann_touches.
  destruct candidate as [c|].
  - assert (Hid : ca_id c = id) by (by eapply candidate_for_id_id). subst id.
    assert (Hn : is_stump_native_annotation_id (ca_id c) = true).
    { unfold native_candidate_for_id in E1. destruct (parse_stump_native_annotation_id (ca_id c)) as [[k n]|] eqn:Ep; [|done].
      apply parse_native_spec in Ep as [-> _]. apply native_id_is_native. }
    apply reconcile_candidate_done in E as (Ht & row & Hr & Hm); [|done|done].
    split; [by eapply touches_trans|]. exists (Some c), s1. split; [done|]. exists row. naive_solver.
  - destruct stored' as [stored'|].
    + assert (Hid : aw_id stored' = id) by (symmetry in Hst; by apply record_of_key in Hst as [_ [= _ <-]]).
      destruct (aw_deleted stored') eqn:Ed.
      * injection E as <-. split; [done|]. exists None, s1. split; [done|]. intros row. rewrite <- Hst. by intros [= <-].
      * subst id. apply tombstone_done in E as (Ht & row & Hr & Hd); [|by rewrite <- Hst|done].
        split; [by eapply touches_trans|]. exists None, s1. split; [done|]. intros row'. rewrite Hr. by intros [= <-].
    + injection E as <-. split; [done|]. exists None, s1. split; [done|]. intros row. by rewrite <- Hst.
Qed.

Lemma reconcile_each_evolves now user_id ids : oks evolves (reconcile_each now user_id ids).
Proof.
  induction ids as [|id ids IH]; cbn; [by intros s a s' [= _ <-]|]. apply oks_bind; [apply _| |by intros _].
  intros s [] s' E. by apply reconcile_id_done in E as [[Hev _] _].
Qed.

Lemma reconcile_ids_evolves now user_id ids : oks evolves (reconcile_native_ids now user_id ids).
Proof.
  unfold reconcile_native_ids. destruct (List.filter _ ids) as [|id ids']; [by intros s a s' [= _ <-]|].
  apply oks_bind; [apply _| |].
  - apply oks_same. unfold native_auth_user. storing.
  - intros [u|]; [apply reconcile_each_evolves|by intros s a s' [= _ <-]].
Qed.

(** *** A sweep *)

(** The mirrors a sweep holds are the records of the store. *)
Definition current (user_id : str) (mirrors : gmap str AnnotationRow) (s : Store) : Prop :=
  forall id r, mirrors !! id = Some r -> record_of user_id id s = Some r.

Lemma mirrors_of_current user_id works s : ann_wf s -> current user_id (mirrors_of user_id works s) s.
Proof.
  intros Hwf. unfold mirrors_of. set (rows := List.filter _ _).
  assert (Hrows : Forall (fun r => record_of user_id (aw_id r) s = Some r) rows).
  { apply Forall_forall. intros r Hr%list_elem_of_In. apply filter_In in Hr as [Hr Hp].
    apply andb_true_iff in Hp as [[Hu%bool_decide_eq_true _]%andb_true_iff _].
    rewrite <- Hu. apply record_of_elem; [done|by apply list_elem_of_In]. }
  clearbody rows. assert (Hm : current user_id ∅ s) by (intros id r; by rewrite lookup_empty). revert Hm.
  generalize (∅ : gmap str AnnotationRow). induction Hrows as [|r rows Hr _ IH]; intros m Hm; [done|]. cbn. apply IH.
  destruct (is_none _); [done|]. intros id r'. destruct (decide (id = aw_id r)) as [->|Hne].
  - rewrite lookup_insert_eq. by intros [= <-].
  - rewrite lookup_insert_ne by done. apply Hm.
Qed.

Lemma current_touches user_id id mirrors s s' :
  current user_id mirrors s -> touches user_id id s s' -> current user_id (delete id mirrors) s'.
Proof.
  intros Hm [_ Hf] id' r [Hne Hr]%lookup_delete_Some. rewrite Hf by congruence. by apply Hm.
Qed.

Lemma current_same user_id mirrors s s' : current user_id mirrors s -> same_ann s s' -> current user_id mirrors s'.
Proof. intros Hm Hs id r Hr. rewrite (record_of_same _ _ _ _ Hs). by apply Hm. Qed.

Lemma reconcile_candidates_done user_id mirrors cs s mirrors' s' :
  Forall (fun c => is_stump_native_annotation_id (ca_id c) = true) cs -> current user_id mirrors s ->
  reconcile_candidates user_id mirrors cs s = (Ok mirrors', s') -> evolves s s' /\ current user_id mirrors' s'.
Proof.
  intros Hcs. revert mirrors s. induction Hcs as [|c cs Hn _ IH]; intros mirrors s Hm E.
  { by injection E as <- <-. }
  cbn in E. bind_ok E stored s1 E1. bind_ok E x s2 E2. destruct x.
  assert (stored = record_of user_id (ca_id c) s1 /\ same_ann s s1) as [Hst Hs].
  { destruct (mirrors !! ca_id c) as [r|] eqn:Em; [injection E1 as <- <-; split; [symmetry; by apply Hm|done]|].
    apply find_annotation_done in E1 as [-> Hs]. split; [by rewrite (record_of_same _ _ _ _ Hs)|done]. }
  apply reconcile_candidate_done in E2 as [Ht _]; [|done|done].
  apply IH in E as [Hev Hm']; [|by eapply current_touches, Ht; eapply current_same].
  split; [|done]. etrans; [by apply same_ann_evolves|]. etrans; [apply Ht|done].
Qed.

Lemma reconcile_mirrors_evolves now user_id rows s s' :
  NoDup (aw_id <$> rows) -> Forall (fun r => record_of user_id (aw_id r) s = Some r) rows ->
  reconcile_mirrors now user_id rows s = (Ok tt, s') -> evolves s s'.
Proof.
  revert s. induction rows as [|r rows IH]; intros s Hnd Hrows E; [by injection E as <-|].
  cbn in Hnd. apply NoDup_cons in Hnd as [Hnot Hnd]. apply Forall_cons in Hrows as [Hr Hrows].
  cbn in E. bind_ok E x s1 E1. destruct x.
  assert (Ht : touches user_id (aw_id r) s s1).
  { destruct (aw_deleted r); [injection E1 as <-; by apply same_ann_touches|].
    apply reconcile_id_done in E1 as [Ht _]; [done|]. by intros ? [= <-]. }
  etrans; [apply Ht|]. apply IH; [done| |done]. rewrite Forall_forall in *. intros r' Hr'.
  rewrite (proj2 Ht); [by apply Hrows|]. intros [= Heq]. apply Hnot. rewrite <- Heq. by apply list_elem_of_fmap_2.
Qed.

(** What a call does to well-formed records. *)
Definition evolving (s s' : Store) : Prop := ann_wf s -> evolves s s'.

#[export] Instance evolving_free : FaultFree evolving.
Proof.
  split; [split| |]; unfold evolving.
  - intros s _. reflexivity.
  - intros s1 s2 s3 E1 E2 W. pose proof (E1 W) as Hev. etrans; [done|]. apply E2. by apply Hev.
  - intros s fs _. apply ff_faults.
  - intros s m _. apply ff_sweeps.
Qed.

Lemma oks_evolving {A} (c : Sql A) : oks evolves c -> oks evolving c.
Proof. intros Hc s a s' E _. by eapply Hc. Qed.

Lemma reconcile_works_evolving now user_id works : oks evolving (reconcile_native_works now user_id works).
Proof.
  intros s [] s' E Hwf. destruct works as [|work works]; [by injection E as <-|]. unfold reconcile_native_works in E.
  set (ws := work :: works) in *. bind_ok E ms s1 E1. apply query_cases in E1 as (fs & -> & [[=]|[= ->]]).
  bind_ok E linked s2 E2. apply query_cases in E2 as (fs2 & -> & [[=]|[= ->]]).
  set (s0 := set_faults s fs) in *. assert (Q0 : same_ann s s0) by apply (ff_faults (R := same_ann)).
  assert (Hcur : current user_id (mirrors_of user_id ws s0) s0) by (apply mirrors_of_current; by apply (same_ann_evolves s s0)).
  destruct (_ && _); [injection E as <-; apply (ff_faults (R := evolves) s fs2)|].
  bind_ok E auth s3 E3. apply query_cases in E3 as (fs3 & -> & [[=]|[= ->]]).
  destruct (List.find _ _); [|injection E as <-; apply (ff_faults (R := evolves) s fs3)].
  bind_ok E cs s4 E4. bind_ok E ms s5 E5.
  assert (Q4 : same_ann s s4 /\ Forall (fun c => is_stump_native_annotation_id (ca_id c) = true) cs).
  { destruct (_ =? 0)%nat in E4; [injection E4 as <- <-; split; [apply (ff_faults (R := same_ann) s fs3)|constructor]|].
    split; [|by eapply candidates_native]. etrans; [apply (ff_faults (R := same_ann) s fs3)|].
    by eapply (oks_acts same_ann _ (candidates_same user_id ws)). }
  destruct Q4 as [Q4 Hcs]. apply reconcile_candidates_done in E5 as [Hev Hcur']; [|done|by eapply current_same].
  etrans; [by apply same_ann_evolves|]. etrans; [exact Hev|]. eapply reconcile_mirrors_evolves; [| |exact E].
  - assert (Hids : aw_id <$> ((fun kv : str * AnnotationRow => kv.2) <$> map_to_list ms) = (map_to_list ms).*1).
    { rewrite <- list_fmap_compose. apply list_fmap_ext. intros i [id r] Hi. cbn.
      apply list_elem_of_lookup_2, elem_of_map_to_list, Hcur', record_of_key in Hi as [_ [= _ <-]]. done. }
    rewrite Hids. apply NoDup_fst_map_to_list.
  - apply Forall_fmap, Forall_forall. intros [id r] Hr%elem_of_map_to_list%Hcur'. cbn.
    pose proof (record_of_key _ _ _ _ Hr) as [_ [= _ <-]]. done.
Qed.

Lemma reconcile_annotations_evolving now user_id : oks evolving (reconcile_native_annotations now user_id).
Proof.
  unfold reconcile_native_annotations. apply oks_bind; [apply _|by intros s a s' [= _ <-]|intros after].
  apply oks_bind; [apply _|apply oks_evolving, oks_same; unfold native_sweep_window; storing|intros works].
  apply oks_bind; [apply _|apply reconcile_works_evolving|intros _]. intros s a s' [= _ <-]. apply ff_sweeps.
Qed.

End reconciling.

(** ** Pushing, deleting and reading *)

Section calls.
Context `{DecimalOps} `{Host} `{Chrono} `{Wire} `{!LocatorWire}.

Lemma writeback_done now user_id a stored s a' s' :
  writeback_native_annotation now user_id a stored s = (Ok a', s') ->
  ai_id a' = ai_id a /\ ai_base_rev a' = ai_base_rev a /\ same_ann s s'.
Proof.
  intros E. pose proof (oks_acts same_ann _ (writeback_same now user_id a stored) _ _ _ E) as Hs.
  bind_ok E ident s1 E1. destruct ident as [kind native_id]. bind_ok E locator s2 E2. cbv zeta in E.
  assert (Hid : exists e p x col b v, a' = rewritten a e p x col b v); [|by destruct Hid as (? & ? & ? & ? & ? & ? & ->)].
  destruct (bool_decide (kind = lit "annotation")); [|destruct (bool_decide (kind = lit "bookmark")); [|done]];
    bind_ok E t s3 E3; bind_ok E n s4 E4; destruct (negb (n =? 1)%nat); try done; bind_ok E v s5 E5;
    injection E as <- _; eauto 10.
Qed.

(** The outcome of pushing one annotation. *)
Definition pushed_to (user_id device_id : str) (a : AnnotationInput) (r : AnnotationResult) (s s' : Store) : Prop :=
  if bool_decide (an_status r = lit "applied") then
    exists row, record_of user_id (ai_id a) s' = Some row /\ aw_rev row = ai_base_rev a + 1 /\ ann_seq user_id s < aw_seq row /\
      r = annotation_applied (ai_id a) (aw_rev row) (aw_seq row) /\
      aw_device_id row = device_id /\ aw_deleted row = false /\
      (is_stump_native_annotation_id (ai_id a) = false -> json_text (annotation_value a) = Some (aw_payload row)) /\
      match record_of user_id (ai_id a) s with
      | Some old => aw_rev old = ai_base_rev a /\ aw_deleted old = false
      | None => ai_base_rev a = 0 /\ is_stump_native_annotation_id (ai_id a) = false
      end
  else same_ann s s'.

Lemma pushed_quietly user_id device_id a r s s' :
  an_status r <> lit "applied" -> same_ann s s' -> touches user_id (ai_id a) s s' /\ pushed_to user_id device_id a r s s'.
Proof.
  intros Hr Hs. split; [by apply same_ann_touches|]. unfold pushed_to. by rewrite bool_decide_eq_false_2.
Qed.

Lemma write_stored_done now user_id device_id a stored s r s' :
  record_of user_id (ai_id a) s = Some stored -> aw_deleted stored = false -> ai_base_rev a = aw_rev stored ->
  write_stored now user_id device_id a stored s = (Ok r, s') ->
  touches user_id (ai_id a) s s' /\ pushed_to user_id device_id a r s s'.
Proof.
  intros Hst Hd Hb E. unfold write_stored in E. cbv zeta in E. destruct (if is_stump_native_annotation_id _ then _ else _).
  { injection E as <- <-. by apply pushed_quietly. }
  bind_ok E a' s1 E1.
  assert (ai_id a' = ai_id a /\ (is_stump_native_annotation_id (ai_id a) = false -> a' = a) /\ same_ann s s1) as (Hid & Hsame & Q1).
  { destruct (is_stump_native_annotation_id _) in E1 |- *; [|by injection E1 as <- <-].
    apply writeback_done in E1 as (? & _ & ?). done. }
  bind_ok E payload s2 E2. apply ok_or_done in E2 as [Hpay ->]. bind_ok E n s3 E3. bind_ok E locator s4 E4.
  apply locator_to_db_done in E4 as [-> _]. bind_ok E x s5 E5. destruct x. injection E as <- <-. rewrite Hid in E5 |- *.
  eapply numbered_update in E5 as (Ht & Hr & Hn); [|exact E3|done|by rewrite (record_of_same _ _ _ _ Q1)|done|done|congruence].
  assert (Hq : ann_seq user_id s1 = ann_seq user_id s) by apply Q1.
  split; [by eapply touches_trans; [apply same_ann_touches|]|]. unfold pushed_to. cbn [an_status annotation_applied].
  rewrite bool_decide_eq_true_2 by done. eexists. rewrite Hst.
  split_and!; [exact Hr|cbn; lia|cbn; lia|done|done|done|intros Hnn; by rewrite <- (Hsame Hnn)|lia|done].
Qed.

Lemma append_annotation_done now user_id device_id a s r s' :
  append_annotation now user_id device_id a s = (Ok r, s') ->
  touches user_id (ai_id a) s s' /\ pushed_to user_id device_id a r s s'.
Proof.
  intros E. bind_ok E known s1 E1. apply query_cases in E1 as (fs & -> & [[=]|[= ->]]).
  assert (Q1 : same_ann s (set_faults s fs)) by apply (ff_faults (R := same_ann)).
  destruct (negb _). { injection E as <- <-. by apply pushed_quietly. }
  bind_ok E payload s2 E2. apply ok_or_done in E2 as [Hpay ->]. bind_ok E existing s3 E3.
  apply find_annotation_done in E3 as [-> Q3]. assert (Q : same_ann s s3) by by etrans.
  change (record_of user_id (ai_id a) (set_faults s fs)) with (record_of user_id (ai_id a) s) in E.
  assert (Hlift : touches user_id (ai_id a) s3 s' /\ pushed_to user_id device_id a r s3 s' -> touches user_id (ai_id a) s s' /\ pushed_to user_id device_id a r s s').
  { intros [Ht Hp]. split; [by eapply touches_trans; [apply same_ann_touches|]|]. unfold pushed_to in *.
    rewrite (record_of_same _ _ _ _ Q) in Hp. rewrite (proj2 Q user_id) in Hp. case_bool_decide; [done|by etrans]. }
  destruct (record_of user_id (ai_id a) s) as [stored|] eqn:Er.
  - destruct (aw_deleted stored) eqn:Ed. { injection E as <- <-. by apply pushed_quietly. }
    destruct (Z.eqb_spec (ai_base_rev a) (aw_rev stored)) as [Hb|Hb]; cbn [negb] in E.
    + apply Hlift. eapply write_stored_done; [|done|done|exact E]. by rewrite (record_of_same _ _ _ _ Q).
    + injection E as <- <-. apply pushed_quietly; [|done]. by destruct (_ && _).
  - unfold create_annotation in E. destruct (Z.eqb_spec (ai_base_rev a) 0) as [Hb|Hb]; cbn [negb] in E;
      [|injection E as <- <-; by apply pushed_quietly].
    destruct (is_stump_native_annotation_id (ai_id a)) eqn:En. { injection E as <- <-. by apply pushed_quietly. }
    apply Hlift. bind_ok E n s4 E4. bind_ok E locator s5 E5. apply locator_to_db_done in E5 as [-> _].
    bind_ok E x s6 E6. destruct x. injection E as <- <-.
    eapply (numbered_insert (annotation_created user_id device_id a n locator (to_rfc3339_nanos now) payload))
      in E6 as (Ht & Hn & Hr & Hq); [|exact E4|done|done].
    split; [exact Ht|]. unfold pushed_to. cbn [an_status annotation_applied]. rewrite bool_decide_eq_true_2 by done.
    eexists. rewrite (record_of_same _ _ _ _ Q), Er. split_and!; [exact Hr|cbn; lia|exact Hq|done|done|done|done|done|done].
Qed.

(** Each annotation of a batch is pushed at some point of the call. *)
Lemma append_each_done now user_id device_id batch s results s' :
  append_each now user_id device_id batch s = (Ok results, s') ->
  evolves s s' /\
  Forall2 (fun a r => exists s1 s2, evolves s s1 /\ evolves s2 s' /\ pushed_to user_id device_id a r s1 s2) batch results.
Proof.
  revert s results. induction batch as [|a batch IH]; intros s results E; [injection E as <- <-; by split|].
  cbn in E. bind_ok E r s1 E1. bind_ok E rs s2 E2. injection E as <- <-.
  apply append_annotation_done in E1 as [[Hev _] Hp]. apply IH in E2 as [Hev2 Hps]. split; [by etrans|].
  constructor; [exists s, s1; done|]. eapply Forall2_impl; [exact Hps|]. cbn.
  intros a' r' (t1 & t2 & Ht1 & Ht2 & Hp'). exists t1, t2. split_and!; [by etrans|done|done].
Qed.

Lemma append_body_done now user_id device_id batch s results s' :
  (_ <-- ensure_counter user_id ;;
   _ <-- reconcile_native_ids now user_id (ai_id <$> batch) ;;
   results <-- append_each now user_id device_id batch ;;
   _ <-- (if any_applied results then reconcile_annotation_projections now user_id else db_ret tt) ;;
   db_ret results) s = (Ok results, s') ->
  evolves s s' /\
  Forall2 (fun a r => exists s1 s2, evolves s s1 /\ evolves s2 s' /\ pushed_to user_id device_id a r s1 s2) batch results.
Proof.
  intros E. bind_ok E x s1 E1. bind_ok E y s2 E2. bind_ok E rs s3 E3. bind_ok E z s4 E4. injection E as -> ->.
  apply (oks_same _ (ensure_counter_same user_id)) in E1. apply reconcile_ids_evolves in E2.
  apply append_each_done in E3 as [Hev Hps].
  assert (H34 : evolves s3 s').
  { destruct (any_applied results); [by apply (oks_same _ (reconcile_projections_same now user_id)) in E4|by injection E4 as _ <-]. }
  assert (H02 : evolves s s2) by by etrans. split; [etrans; [exact H02|by etrans]|].
  eapply Forall2_impl; [exact Hps|]. cbn. intros a r (t1 & t2 & Ht1 & Ht2 & Hp). exists t1, t2.
  split_and!; [by etrans|by etrans|done].
Qed.

Lemma append_annotations_done now user_id device_id batch s results s' :
  append_annotations now user_id device_id batch s = (Ok results, s') ->
  Forall2 (fun a r => exists s1 s2, evolves s s1 /\ evolves s2 s' /\ pushed_to user_id device_id a r s1 s2) batch results.
Proof.
  intros (fs & s1 & fs' & E & ->)%transaction_done. apply append_body_done in E as [_ Hps].
  eapply Forall2_impl; [exact Hps|]. cbn. intros a r (t1 & t2 & Ht1 & Ht2 & Hp). exists t1, t2.
  split_and!; [by etrans; [apply (ff_faults s fs)|]|by etrans; [|apply ff_faults]|done].
Qed.

Lemma append_annotations_evolves now user_id device_id batch : acts evolves (append_annotations now user_id device_id batch).
Proof.
  apply oks_transaction; [apply _|]. intros s results s' E. by apply append_body_done in E as [Hev _].
Qed.

Lemma refresh_evolving now user_id c : oks evolving c -> acts evolving (refresh now user_id c).
Proof.
  intros Hc. apply oks_transaction; [apply _|]. apply oks_bind; [apply _| |intros _].
  - apply oks_evolving, oks_same, ensure_counter_same.
  - apply oks_bind; [apply _|done|intros _]. apply oks_evolving, oks_same, reconcile_projections_same.
Qed.

Lemma same_evolving {A} (c : Sql A) : acts same_ann c -> acts evolving c.
Proof. intros Hc s _. apply same_ann_evolves, Hc. Qed.

Lemma annotation_changes_evolving now user_id since limit : acts evolving (annotation_changes now user_id since limit).
Proof.
  unfold annotation_changes. apply acts_bind; [apply _|apply refresh_evolving, reconcile_annotations_evolving|intros _].
  apply same_evolving. unfold annotation_high_water, read_records. storing.
Qed.

Lemma work_annotations_evolving now user_id work_id deleted :
  acts evolving (work_annotations_with_deleted now user_id work_id deleted).
Proof.
  unfold work_annotations_with_deleted, work_exists. storing. apply refresh_evolving, reconcile_works_evolving.
Qed.

Lemma acts_transaction_ended {A} R (body : Sql (Ended A)) : FaultFree R -> oks R body -> acts R (transaction_ended body).
Proof.
  intros HR Hb s. unfold transaction_ended. destruct (db_bind _ _ s) as [[[a|a]|e] s'] eqn:E; cbn; [|by apply acts_rolled_back..].
  bind_ok E x s1 E1. apply execute_cases in E1 as (fs & [[[=] _]|[= _ <-]]).
  destruct (execute (db_ret tt) s') as [[y|e] s''] eqn:E2; cbn; [|by apply acts_rolled_back].
  apply execute_cases in E2 as (fs' & [[[=] _]|[= _ <-]]).
  etrans; [apply (ff_faults s fs)|]. etrans; [by eapply Hb|apply ff_faults].
Qed.

Lemma delete_annotation_evolves now user_id id rev : acts evolves (delete_annotation now user_id id rev).
Proof.
  unfold delete_annotation. apply acts_bind; [apply _| |].
  - apply acts_transaction_ended; [apply _|]. intros s ended s' E.
    bind_ok E x s1 E1. apply (oks_same _ (ensure_counter_same user_id)) in E1.
    bind_ok E y s2 E2. apply reconcile_ids_evolves in E2. bind_ok E stored s3 E3.
    apply find_annotation_done in E3 as [Hst Q3]. assert (Q : evolves s s3) by (etrans; [exact E1|]; etrans; [exact E2|by apply same_ann_evolves]).
    etrans; [exact Q|]. destruct stored as [stored|]; [|done]. symmetry in Hst.
    destruct (aw_deleted stored) eqn:Ed; [by injection E as _ <-|]. destruct (negb _); [by injection E as _ <-|].
    bind_ok E z s4 E4. assert (Q4 : same_ann s3 s4).
    { destruct (is_stump_native_annotation_id id); [|by injection E4 as _ <-].
      by apply (oks_acts same_ann _ (delete_source_same user_id id)) in E4. }
    bind_ok E n s5 E5. bind_ok E w s6 E6. destruct w.
    eapply numbered_update in E6 as (Ht & _ & _); [|exact E5|done| |done|done|congruence];
      [|rewrite (record_of_same _ _ _ _ Q4), (record_of_same _ _ _ _ Q3); exact Hst].
    bind_ok E detached s7 E7. apply (oks_same _ (delete_for_annotation_same user_id id)) in E7.
    bind_ok E v s8 E8. apply (oks_same _ (reconcile_projections_same now user_id)) in E8. injection E as _ <-.
    etrans; [by apply same_ann_evolves|]. etrans; [apply Ht|]. by etrans.
  - intros [result detached]. apply acts_bind; [apply _| |intros _; apply acts_ret; apply _].
    intros s. apply same_ann_evolves, unlink_all_same.
Qed.

(** Every sequence of calls, and of anything that leaves the records alone. *)
Inductive ann_step : Store -> Store -> Prop :=
| as_append s now user_id device_id batch : ann_step s (append_annotations now user_id device_id batch s).2
| as_delete s now user_id id rev : ann_step s (delete_annotation now user_id id rev s).2
| as_changes s now user_id since limit : ann_step s (annotation_changes now user_id since limit s).2
| as_work s now user_id work_id deleted : ann_step s (work_annotations_with_deleted now user_id work_id deleted s).2
| as_other s s' : same_ann s s' -> ann_step s s'.

Lemma ann_step_evolving s s' : ann_step s s' -> evolving s s'.
Proof.
  destruct 1.
  - intros _. apply append_annotations_evolves.
  - intros _. apply delete_annotation_evolves.
  - apply annotation_changes_evolving.
  - apply work_annotations_evolving.
  - intros _. by apply same_ann_evolves.
Qed.

Lemma ann_steps_evolve s s' : ann_wf s -> rtc ann_step s s' -> evolves s s'.
Proof.
  intros Hwf Hsteps. assert (Hev : evolving s s'); [|by apply Hev].
  clear Hwf. induction Hsteps as [s|s1 s2 s3 Hs _ IH]; [reflexivity|]. etrans; [by apply ann_step_evolving|done].
Qed.

(** C11.  The annotations of every account, however pushes, deletions, feed polls and
    listings interleave and whichever statements fail: there is one record per id; each
    record has a place of its own in the feed of its account, up to the counter; a record
    that changes gets a higher revision and a place after everything the feed held
    before; no record goes away; and the tombstone of a client's annotation never
    changes again. *)
Theorem annotations_well_formed s s' :
  ann_wf s -> rtc ann_step s s' ->
  ann_wf s' /\
  forall user_id id r, record_of user_id id s = Some r ->
    exists r', record_of user_id id s' = Some r' /\
      (r' = r \/ aw_rev r < aw_rev r' /\ ann_seq user_id s < aw_seq r' /\
                 (aw_deleted r = true -> is_stump_native_annotation_id id = true)).
Proof.
  intros Hwf Hsteps. destruct (ann_steps_evolve s s' Hwf Hsteps) as [_ Hrow Hwf']. split; [auto|].
  intros u id r Hr. specialize (Hrow u id). rewrite Hr in Hrow. destruct Hrow as [->|(r' & -> & Hs & Hrev & Hd)]; [eauto|].
  exists r'. split; [done|]. by right.
Qed.


End calls.

(** ** Following the feed *)

Section feed.
Context `{DecimalOps} `{Host} `{Chrono} `{Wire} `{!LocatorWire}.

(** A client that keeps what the feed gives it, by id. *)
Record Replica := { rp_store : Store; rp_cursor : Z; rp_records : gmap str AnnotationRecord }.

Definition keep_records (known : gmap str AnnotationRecord) (page : list AnnotationRecord) : gmap str AnnotationRecord :=
  fold_left (fun m x => <[ar_id x := x]> m) page known.

Definition after_page (cursor : Z) (page : list AnnotationRecord) : Z :=
  match last page with Some x => ar_seq x | None => cursor end.

(** Fetching a page, whatever high water was read before; and everything else. *)
Inductive replica_step (user_id : str) : Replica -> Replica -> Prop :=
| rs_other s s' cursor known :
    ann_step s s' ->
    replica_step user_id {| rp_store := s; rp_cursor := cursor; rp_records := known |}
                         {| rp_store := s'; rp_cursor := cursor; rp_records := known |}
| rs_fetch s s' cursor known limit hw page hw' more :
    read_records user_id cursor limit hw s = (Ok (page, hw', more), s') ->
    replica_step user_id {| rp_store := s; rp_cursor := cursor; rp_records := known |}
                         {| rp_store := s'; rp_cursor := after_page cursor page; rp_records := keep_records known page |}.

(** The client holds the current record of everything up to its cursor, and nothing that
    never was a record. *)
Record replica_ok (user_id : str) (c : Replica) : Prop := {
  ro_ann : ann_wf (rp_store c);
  ro_bound : 0 <= rp_cursor c <= ann_seq user_id (rp_store c);
  ro_seen id r : record_of user_id id (rp_store c) = Some r -> aw_seq r <= rp_cursor c ->
    rp_records c !! id = Some (annotation_record r);
  ro_known id x : rp_records c !! id = Some x -> is_Some (record_of user_id id (rp_store c));
}.

Lemma record_seq r : ar_seq (annotation_record r) = aw_seq r.
Proof. unfold annotation_record. by destruct (aw_deleted r). Qed.

Lemma record_id r : ar_id (annotation_record r) = aw_id r.
Proof. unfold annotation_record. by destruct (aw_deleted r). Qed.

Definition due (user_id : str) (cursor : Z) (s : Store) : list AnnotationRow :=
  merge_sort feed_before (filter (fun r => aw_user_id r = user_id /\ cursor < aw_seq r) (annotations s)).

Lemma elem_of_due user_id cursor s r : ann_wf s ->
  r ∈ due user_id cursor s <-> record_of user_id (aw_id r) s = Some r /\ cursor < aw_seq r.
Proof.
  intros Hwf. unfold due. rewrite merge_sort_Permutation, list_elem_of_filter. split.
  - intros [[<- Hs] Hr]. split; [by apply record_of_elem|done].
  - intros [Hr Hs]. apply record_of_key in Hr as [Hr Hk]. by injection Hk as Hu.
Qed.

#[local] Instance feed_before_total : Total feed_before.
Proof. intros a b. unfold feed_before. lia. Qed.

#[local] Instance feed_before_trans : Transitive feed_before.
Proof. intros a b c. unfold feed_before. lia. Qed.

Lemma sorted_split (l k : list AnnotationRow) x y :
  StronglySorted feed_before (l ++ k) -> x ∈ l -> y ∈ k -> aw_seq x <= aw_seq y.
Proof. intros Hs Hx Hy. exact (StronglySorted_app_1_elem_of _ _ _ _ _ Hs Hx Hy). Qed.

(** A page is the beginning of what is due: a record up to the last of the page is on it. *)
Lemma due_page user_id cursor limit s r : ann_wf s ->
  record_of user_id (aw_id r) s = Some r -> cursor < aw_seq r ->
  aw_seq r <= after_page cursor (annotation_record <$> take limit (due user_id cursor s)) ->
  r ∈ take limit (due user_id cursor s).
Proof.
  intros Hwf Hr Hlow Hhigh. unfold after_page in Hhigh. rewrite fmap_last in Hhigh.
  destruct (last (take limit (due user_id cursor s))) as [z|] eqn:Ez; cbn in Hhigh; [|lia]. rewrite record_seq in Hhigh.
  assert (Hz : z ∈ take limit (due user_id cursor s)) by by apply last_Some_elem_of.
  assert (Hin : r ∈ due user_id cursor s) by by apply elem_of_due.
  pose proof (take_drop limit (due user_id cursor s)) as Hsplit. rewrite <- Hsplit in Hin.
  apply elem_of_app in Hin as [Hin|Hin]; [done|].
  assert (Hs : StronglySorted feed_before (take limit (due user_id cursor s) ++ drop limit (due user_id cursor s))).
  { rewrite Hsplit. apply StronglySorted_merge_sort; apply _. }
  pose proof (sorted_split _ _ _ _ Hs Hz Hin) as Hle.
  assert (Hzd : z ∈ due user_id cursor s) by (rewrite <- Hsplit; apply elem_of_app; by left).
  apply elem_of_due in Hzd as [Hzr _]; [|done].
  assert (Hid : aw_id z = aw_id r) by (eapply (wf_unique s Hwf); [exact Hzr|exact Hr|lia]).
  rewrite Hid, Hr in Hzr. by injection Hzr as <-.
Qed.

Lemma keep_records_other known page id :
  (forall x, x ∈ page -> ar_id x <> id) -> keep_records known page !! id = known !! id.
Proof.
  unfold keep_records. revert known. induction page as [|x page IH]; intros known Hne; [done|]. cbn.
  rewrite IH by (intros y Hy; apply Hne; by right). apply lookup_insert_ne, Hne. by left.
Qed.

Lemma keep_records_in known page x :
  NoDup (ar_id <$> page) -> x ∈ page -> keep_records known page !! ar_id x = Some x.
Proof.
  unfold keep_records. revert known. induction page as [|y page IH]; intros known Hnd Hx; [by apply not_elem_of_nil in Hx|].
  cbn in Hnd |- *. apply NoDup_cons in Hnd as [Hnot Hnd]. apply elem_of_cons in Hx as [->|Hx]; [|by apply IH].
  change (keep_records (<[ar_id y := y]> known) page !! ar_id y = Some y). rewrite keep_records_other; [apply lookup_insert_eq|].
  intros z Hz Heq. apply Hnot. rewrite <- Heq. by apply list_elem_of_fmap_2.
Qed.

(** The ids of records of one account are distinct. *)
Lemma filtered_ids user_id (P : AnnotationRow -> Prop) `{!forall r, Decision (P r)} s :
  ann_wf s -> (forall r, P r -> aw_user_id r = user_id) -> NoDup (aw_id <$> filter P (annotations s)).
Proof.
  intros Hwf HP. pose proof (wf_keys s Hwf) as Hnd.
  induction (annotations s) as [|r rows IH]; [constructor|]. cbn in Hnd. apply NoDup_cons in Hnd as [Hnot Hnd].
  rewrite filter_cons. destruct (decide (P r)) as [Hr|_]; [|auto]. cbn. apply NoDup_cons. split; [|auto].
  intros (r' & Hid & Hr')%list_elem_of_fmap. apply list_elem_of_filter in Hr' as [Hr' Hin].
  apply Hnot, list_elem_of_fmap. exists r'. split; [|done]. unfold record_key. by rewrite (HP r Hr), (HP r' Hr'), Hid.
Qed.

Lemma due_ids user_id cursor s : ann_wf s -> NoDup (aw_id <$> due user_id cursor s).
Proof.
  intros Hwf. unfold due. rewrite merge_sort_Permutation. eapply (filtered_ids user_id); [done|]. by intros r [].
Qed.

Lemma read_records_done user_id cursor limit hw s page hw' more s' :
  read_records user_id cursor limit hw s = (Ok (page, hw', more), s') ->
  same_ann s s' /\ page = annotation_record <$> take limit (due user_id cursor s) /\
  more = (limit <? length (due user_id cursor s))%nat.
Proof.
  intros E. bind_ok E rows s1 E1. apply query_cases in E1 as (fs & -> & [[=]|[= ->]]). injection E as <- _ <- <-.
  split; [apply (ff_faults (R := same_ann))|]. change (records_since user_id cursor (limit + 1) (set_faults s fs))
    with (take (limit + 1) (due user_id cursor s)). rewrite take_take, length_take. split; [do 2 f_equal; lia|].
  destruct (Nat.ltb_spec limit (length (due user_id cursor s))); [apply Nat.ltb_lt|apply Nat.ltb_ge]; lia.
Qed.

Lemma replica_same user_id s s' cursor known :
  same_ann s s' -> replica_ok user_id {| rp_store := s; rp_cursor := cursor; rp_records := known |} ->
  replica_ok user_id {| rp_store := s'; rp_cursor := cursor; rp_records := known |}.
Proof.
  intros Hs [Hwf Hb Hseen Hknown]; cbn in *. assert (Hrec : forall id, record_of user_id id s' = record_of user_id id s)
    by (intros; by apply record_of_same). pose proof (same_ann_evolves s s' Hs) as Hev. split; cbn.
  - by apply Hev.
  - by rewrite (proj2 Hs).
  - intros id r. rewrite Hrec. apply Hseen.
  - intros id x. rewrite Hrec. apply Hknown.
Qed.

Lemma replica_evolves user_id s s' cursor known :
  evolves s s' -> replica_ok user_id {| rp_store := s; rp_cursor := cursor; rp_records := known |} ->
  replica_ok user_id {| rp_store := s'; rp_cursor := cursor; rp_records := known |}.
Proof.
  intros Hev [Hwf Hb Hseen Hknown]; cbn in *. split; cbn.
  - by apply Hev.
  - pose proof (ev_seq _ _ Hev user_id). lia.
  - intros id r Hr Hle. destruct (ev_row _ _ Hev user_id id) as [Heq|(r' & Heq & Hlt & _)].
    + apply Hseen; [by rewrite <- Heq|done].
    + rewrite Heq in Hr. injection Hr as <-. lia.
  - intros id x Hx. destruct (ev_row _ _ Hev user_id id) as [Heq|(r' & Heq & _)]; rewrite Heq; [by eapply Hknown|done].
Qed.

Lemma replica_page user_id s cursor known limit :
  replica_ok user_id {| rp_store := s; rp_cursor := cursor; rp_records := known |} ->
  let page := annotation_record <$> take limit (due user_id cursor s) in
  replica_ok user_id {| rp_store := s; rp_cursor := after_page cursor page; rp_records := keep_records known page |}.
Proof.
  intros [Hwf Hb Hseen Hknown] page; cbn in *.
  assert (Hpage : forall x, x ∈ page -> exists r, x = annotation_record r /\ r ∈ take limit (due user_id cursor s) /\
            record_of user_id (aw_id r) s = Some r /\ cursor < aw_seq r).
  { intros x (r & -> & Hr)%list_elem_of_fmap. exists r. split; [done|]. split; [done|]. apply elem_of_due; [done|].
    rewrite <- (take_drop limit (due user_id cursor s)). apply elem_of_app. by left. }
  assert (Hnd : NoDup (ar_id <$> page)).
  { unfold page. rewrite <- list_fmap_compose. rewrite (list_fmap_ext (ar_id ∘ annotation_record) aw_id);
      [|intros i r _; apply record_id].
    pose proof (due_ids user_id cursor s Hwf) as Hnd. rewrite <- (take_drop limit (due user_id cursor s)), fmap_app in Hnd.
    by apply NoDup_app in Hnd as [Hnd _]. }
  assert (Hkeep : forall r, r ∈ take limit (due user_id cursor s) -> keep_records known page !! aw_id r = Some (annotation_record r)).
  { intros r Hr. rewrite <- record_id. apply keep_records_in; [done|]. by apply list_elem_of_fmap_2. }
  split; cbn.
  - done.
  - unfold after_page. destruct (last page) as [x|] eqn:Ex; [|done].
    apply last_Some_elem_of, Hpage in Ex as (r & -> & _ & Hr & Hlt). rewrite record_seq.
    pose proof (wf_row s Hwf _ _ _ Hr). lia.
  - intros id r Hr Hle. assert (Hid : aw_id r = id) by by apply record_of_key in Hr as [_ [= _ <-]]. subst id.
    destruct (decide (cursor < aw_seq r)) as [Hlt|Hge].
    + apply Hkeep. by apply due_page.
    + rewrite keep_records_other; [apply Hseen; [done|lia]|]. intros x Hx Heq.
      destruct (Hpage x Hx) as (r' & -> & _ & Hr' & Hlt'). rewrite record_id in Heq. rewrite Heq, Hr in Hr'.
      injection Hr' as <-. lia.
  - intros id x Hx. destruct (decide (Exists (fun y => ar_id y = id) page)) as [Hex|Hno].
    + apply Exists_exists in Hex as (y & Hy & <-). destruct (Hpage y Hy) as (r & -> & _ & Hr & _). rewrite record_id. by exists r.
    + rewrite keep_records_other in Hx; [by eapply Hknown|]. intros y Hy Heq. apply Hno, Exists_exists. eauto.
Qed.

Lemma replica_step_ok user_id c c' : replica_step user_id c c' -> replica_ok user_id c -> replica_ok user_id c'.
Proof.
  intros [s s' cursor known Hstep|s s' cursor known limit hw page hw' more E] Hok.
  - eapply replica_evolves; [|exact Hok]. apply ann_step_evolving; [done|apply Hok].
  - apply read_records_done in E as (Hs & -> & _). eapply replica_same; [exact Hs|]. by apply replica_page.
Qed.

(** C13.  The annotation feed converges.  A client that follows the feed of its account
    from the start, with pages of any size, however pushes, deletions, feed polls and
    listings go on meanwhile and whatever statements fail, always holds the current record
    of every annotation whose place in the feed it has passed; and a page that says there
    is no more leaves it with exactly the records of the account, tombstones included.  A
    page that says there is more is full, so that the client catches up. *)
Theorem annotation_feed_converges user_id s0 c :
  ann_wf s0 -> rtc (replica_step user_id) {| rp_store := s0; rp_cursor := 0; rp_records := ∅ |} c ->
  (forall id r, record_of user_id id (rp_store c) = Some r -> aw_seq r <= rp_cursor c ->
     rp_records c !! id = Some (annotation_record r)) /\
  forall limit hw page hw' more s',
    read_records user_id (rp_cursor c) limit hw (rp_store c) = (Ok (page, hw', more), s') ->
    if more then length page = limit
    else forall id, keep_records (rp_records c) page !! id = annotation_record <$> record_of user_id id s'.
Proof.
  intros Hwf Hsteps.
  assert (Hok : replica_ok user_id c).
  { assert (H0' : replica_ok user_id {| rp_store := s0; rp_cursor := 0; rp_records := ∅ |}).
    { split; cbn; [done|pose proof (wf_seq s0 Hwf user_id); lia| |intros id x; by rewrite lookup_empty].
      intros id r Hr Hle. pose proof (wf_row s0 Hwf _ _ _ Hr). lia. }
    revert H0'. induction Hsteps as [|c1 c2 c3 Hs _ IH]; [done|]. intros Hok. by eapply IH, replica_step_ok. }
  split; [apply Hok|]. intros limit hw page hw' more s' E.
  destruct c as [s cursor known]. cbn in *. apply read_records_done in E as (Hs & -> & ->).
  destruct (Nat.ltb_spec limit (length (due user_id cursor s))) as [Hlt|Hle]; [rewrite length_fmap, length_take; lia|].
  intros id. pose proof (replica_page user_id s cursor known limit Hok) as [Hwf' Hb' Hseen' Hknown']; cbn in *.
  rewrite (record_of_same _ _ _ _ Hs). destruct (record_of user_id id s) as [r|] eqn:Er; cbn.
  - apply Hseen'; [done|]. assert (Hid : aw_id r = id) by by apply record_of_key in Er as [_ [= _ <-]].
    destruct (decide (cursor < aw_seq r)) as [Hlt|Hge].
    + assert (Hin : r ∈ due user_id cursor s) by (apply elem_of_due; [done|]; by rewrite Hid).
      rewrite take_ge by lia. unfold after_page. rewrite fmap_last.
      destruct (last (due user_id cursor s)) as [z|] eqn:Ez; cbn.
      * rewrite record_seq. apply last_Some in Ez as [l El]. rewrite El in Hin.
        apply elem_of_app in Hin as [Hin|Hin%list_elem_of_singleton]; [|by subst].
        eapply (sorted_split l [z]); [rewrite <- El; apply StronglySorted_merge_sort; apply _|done|by apply list_elem_of_singleton].
      * apply last_None in Ez. rewrite Ez in Hin. by apply not_elem_of_nil in Hin.
    + unfold after_page. rewrite take_ge, fmap_last by lia. destruct (last (due user_id cursor s)) as [z|] eqn:Ez; cbn; [|lia].
      rewrite record_seq. apply last_Some_elem_of, elem_of_due in Ez as [_ Hz]; [lia|done].
  - destruct (keep_records _ _ !! id) as [x|] eqn:Ek; [|done]. apply Hknown' in Ek as [r Hr]. congruence.
Qed.

End feed.

(** ** Retries *)

Section retries.
Context `{DecimalOps} `{Host} `{Chrono} `{Wire} `{!LocatorWire}.

Lemma append_each_frame now user_id device_id batch s results s' id :
  append_each now user_id device_id batch s = (Ok results, s') -> id ∉ ai_id <$> batch ->
  record_of user_id id s' = record_of user_id id s.
Proof.
  revert s results. induction batch as [|a batch IH]; intros s results E Hid; [by injection E as _ <-|].
  cbn in E, Hid. apply not_elem_of_cons in Hid as [Hne Hid]. bind_ok E r s1 E1. bind_ok E rs s2 E2. injection E as _ <-.
  rewrite (IH _ _ E2 Hid). apply append_annotation_done in E1 as [[_ Hf] _]. apply Hf. congruence.
Qed.

(** The record an applied push leaves. *)
Definition left_by (user_id device_id : str) (s : Store) (a : AnnotationInput) (r : AnnotationResult) : Prop :=
  exists row, record_of user_id (ai_id a) s = Some row /\ aw_rev row = ai_base_rev a + 1 /\
    r = annotation_applied (ai_id a) (aw_rev row) (aw_seq row) /\ aw_device_id row = device_id /\ aw_deleted row = false /\
    json_text (annotation_value a) = Some (aw_payload row).

Lemma append_each_left now user_id device_id batch s results s' :
  append_each now user_id device_id batch s = (Ok results, s') -> NoDup (ai_id <$> batch) ->
  Forall (fun a => is_stump_native_annotation_id (ai_id a) = false) batch ->
  Forall (fun r => an_status r = lit "applied") results -> Forall2 (left_by user_id device_id s') batch results.
Proof.
  revert s results. induction batch as [|a batch IH]; intros s results E Hnd Hnn Hap; [injection E as <- <-; constructor|].
  cbn in E, Hnd. apply NoDup_cons in Hnd as [Hnot Hnd]. apply Forall_cons in Hnn as [Hn Hnn].
  bind_ok E r s1 E1. bind_ok E rs s2 E2. injection E as <- <-. apply Forall_cons in Hap as [Hr Hap].
  constructor; [|by eapply IH]. apply append_annotation_done in E1 as [_ Hp]. unfold pushed_to in Hp.
  rewrite bool_decide_eq_true_2 in Hp by done. destruct Hp as (row & Hrow & Hrev & _ & -> & Hdev & Hd & Hpay & _).
  exists row. split_and!; [by rewrite (append_each_frame _ _ _ _ _ _ _ _ E2 Hnot)|auto..].
Qed.

Definition duplicated (r : AnnotationResult) : AnnotationResult :=
  {| an_id := an_id r; an_status := lit "duplicate"; an_rev := an_rev r; an_seq := an_seq r; an_reason := an_reason r;
     an_server := an_server r |}.

Lemma wrap_i64_id n : i64_min <= n <= i64_max -> wrap_i64 n = n.
Proof. unfold wrap_i64, i64_min, i64_max. intros Hn. rewrite Z.mod_small; lia. Qed.

Lemma append_annotation_again now user_id device_id a r s :
  faults s = [] -> (user_id, ai_work_id a) ∈ st_works s -> 0 <= ai_base_rev a < i64_max -> left_by user_id device_id s a r ->
  append_annotation now user_id device_id a s = (Ok (duplicated r), s).
Proof.
  intros Hf Hw Hb (row & Hrow & Hrev & -> & Hdev & Hd & Hpay). unfold append_annotation, work_exists.
  rewrite (db_bind_run _ _ _ _ _ (sql_query_ok _ _ Hf)), bool_decide_eq_true_2 by done. cbn [negb].
  unfold annotation_payload. rewrite Hpay. cbn [ok_or]. unfold db_bind at 1, db_ret at 1. unfold find_annotation.
  rewrite (db_bind_run _ _ _ _ _ (sql_query_ok _ _ Hf)).
  change (List.find _ (annotations s)) with (record_of user_id (ai_id a) s). rewrite Hrow, Hd.
  rewrite (proj2 (Z.eqb_neq _ _)) by lia. cbn [negb]. rewrite wrap_i64_id by (unfold i64_min, i64_max in *; lia).
  rewrite Hrev, Z.eqb_refl. unfold annotations_same_payload. by rewrite !bool_decide_eq_true_2.
Qed.

Lemma append_each_again now user_id device_id batch results s :
  faults s = [] -> Forall (fun a => (user_id, ai_work_id a) ∈ st_works s /\ 0 <= ai_base_rev a < i64_max) batch ->
  Forall2 (left_by user_id device_id s) batch results ->
  append_each now user_id device_id batch s = (Ok (duplicated <$> results), s).
Proof.
  intros Hf Hb Hleft. induction Hleft as [|a r batch results Hr _ IH]; [done|]. apply Forall_cons in Hb as [[Hw Ha] Hb]. cbn.
  rewrite (db_bind_run _ _ _ _ _ (append_annotation_again now user_id device_id a r s Hf Hw Ha Hr)).
  by rewrite (db_bind_run _ _ _ _ _ (IH Hb)).
Qed.

Lemma no_native_ids now user_id batch :
  Forall (fun a => is_stump_native_annotation_id (ai_id a) = false) batch ->
  reconcile_native_ids now user_id (ai_id <$> batch) = db_ret tt.
Proof.
  intros Hnn. unfold reconcile_native_ids. assert (E : List.filter is_stump_native_annotation_id (ai_id <$> batch) = []).
  { induction Hnn as [|a batch Ha _ IH]; [done|]. cbn. by rewrite Ha. }
  by rewrite E.
Qed.

Lemma none_applied (results : list AnnotationResult) : any_applied (duplicated <$> results) = false.
Proof. induction results as [|r results IH]; [done|]. exact IH. Qed.


End retries.

(** ** Concrete inputs *)

#[local] Existing Instance fixed_ops.
#[local] Existing Instance demo_chrono.
#[local] Existing Instance demo_host.

Definition demo_locator : ReadiumLocator :=
  {| chapter_title := []; href := lit "c1.xhtml"; title := None;
     locations := Some {| loc_fragments := None; loc_progression := None; loc_position := Some 3;
                          loc_total_progression := None; loc_css_selector := None; loc_partial_cfi := None |};
     text := None; kobo_span := None; type_ := [] |}.

(** The text of an object counts its fields; there is one locator. *)
Definition plain_wire : Wire :=
  {| json_text v := Some (match v with JObject fields => [Z.of_nat (length fields)] | _ => [] end); annotation_of_value _ := None |}.
Definition plain_locators : LocatorWire :=
  {| locator_of_value _ := Some demo_locator; value_of_locator _ := Some JNull; value_of_text _ := Some JNull |}.

#[local] Existing Instance plain_wire.
#[local] Existing Instance plain_locators.

Definition demo_note (id : string) (base_rev : Z) : AnnotationInput :=
  {| ai_id := lit id; ai_base_rev := base_rev; ai_work_id := lit "w"; ai_edition_sha := None; ai_kind := lit "note";
     ai_locator := Some JNull; ai_progression := None; ai_excerpt := []; ai_color := None; ai_drawer := None;
     ai_body := lit "body"; ai_client_ts := [5] |}.

Definition push_notes (batch : list AnnotationInput) (s : Store) : result (list AnnotationResult) Stop * Store :=
  append_annotations 10 (lit "u") (lit "d") batch s.

Definition noted : Store := (push_notes [demo_note "a" 0; demo_note "b" 0] (demo_store [])).2.
Definition edited : Store := (push_notes [demo_note "a" 1] noted).2.

Lemma demo_store_ann_wf fs : ann_wf (demo_store fs).
Proof. split; [constructor|done|done|done]. Qed.

Lemma push_notes_wf s batch : ann_wf s -> ann_wf (push_notes batch s).2.
Proof. intros Hwf. apply (append_annotations_evolves 10 (lit "u") (lit "d") batch s), Hwf. Qed.

Lemma noted_wf : ann_wf noted.
Proof. apply push_notes_wf, demo_store_ann_wf. Qed.

Lemma noted_results : push_notes [demo_note "a" 0; demo_note "b" 0] (demo_store []) =
  (Ok [annotation_applied (lit "a") 1 1; annotation_applied (lit "b") 1 2], noted).
Proof. rewrite (surjective_pairing (push_notes _ _)) at 1. apply (f_equal2 pair); [by vm_compute|reflexivity]. Qed.

Lemma edited_results : push_notes [demo_note "a" 1] noted = (Ok [annotation_applied (lit "a") 2 3], edited).
Proof. rewrite (surjective_pairing (push_notes _ _)) at 1. apply (f_equal2 pair); [by vm_compute|reflexivity]. Qed.

Lemma annotations_well_formed_witness :
  ann_wf noted /\ ann_wf (delete_annotation 20 (lit "u") (lit "a") 1 noted).2.
Proof.
  split; [exact noted_wf|].
  refine (proj1 (annotations_well_formed noted _ noted_wf _)). apply rtc_once, as_delete.
Defined.


(** One page of five holds both notes. *)
Lemma annotation_feed_converges_witness :
  exists page hw s', read_records (lit "u") 0 5 2 noted = (Ok (page, hw, false), s') /\
    forall id, keep_records ∅ page !! id = annotation_record <$> record_of (lit "u") id s'.
Proof.
  destruct (read_records (lit "u") 0 5 2 noted) as [[[[page hw] more]|e] s'] eqn:E;
    [|apply (f_equal (fun r => is_ok r.1)) in E; by vm_compute in E].
  assert (Hm : more = false).
  { apply (f_equal (fun r => match r.1 with Ok p => p.2 | Err _ => true end)) in E. etrans; [symmetry; exact E|by vm_compute]. }
  subst more. exists page, hw, s'. split; [reflexivity|].
  assert (Hsteps : rtc (replica_step (lit "u")) {| rp_store := demo_store []; rp_cursor := 0; rp_records := ∅ |}
                     {| rp_store := noted; rp_cursor := 0; rp_records := ∅ |}) by (apply rtc_once, rs_other, as_append).
  destruct (annotation_feed_converges (lit "u") (demo_store []) _ (demo_store_ann_wf []) Hsteps) as [_ Hfeed].
  exact (Hfeed 5%nat 2 page hw false s' E).
Defined.

