(* ===== verification/LiseurNative.v ===== *)
(** * Stump's own annotations in the liseur-sync feed, and the feed's in Stump's tables

    Two directions of [src/apps/server/src/routers/liseur_sync/storage.rs], modelled in
    [LiseurAnnotations]: the mirrors of native annotations and bookmarks among the records
    of an account, which [reconcile_native_id] keeps equal to what the native row exports;
    and the projections of the clients' records into the native tables, which
    [reconcile_annotation_projections] brings up to the feed. *)

From stdpp Require Import base gmap list strings sorting.
From Stdlib Require Import ZArith Lia SpecFloat.
From S2P Require Import Prelude Float64 ReadingState ReadingService LiseurSync LiseurStore LiseurOps LiseurAnnotations.

#[local] Open Scope Z_scope.
#[local] Open Scope coppice_scope.

(** ** Mirrors *)

Section mirrors.
Context `{DecimalOps} `{Host} `{Chrono} `{Wire} `{!LocatorWire}.

(** What the native row of an id exports as. *)
Definition native_export (user_id id : str) (s : Store) : option (option NativeAnnotationCandidate) :=
  let link media_id :=
    match List.find (fun l => bool_decide (lk_user_id l = user_id) && bool_decide (lk_media_id l = media_id)) (st_links s) with
    | Some l => then_some (bool_decide ((user_id, media_id) ∈ st_readable s)) (native_link l)
    | None => None
    end in
  match parse_stump_native_annotation_id id with
  | None => Some None
  | Some (kind, native_id) =>
      if bool_decide (kind = lit "annotation") then
        match List.find (is_native user_id native_id) (native_rows s) with
        | Some row => match link (nt_media_id row) with Some l => media_annotation_candidate row l | None => Some None end
        | None => Some None
        end
      else
        match List.find (is_bookmark user_id native_id) (bookmarks s) with
        | Some row => match link (bm_media_id row) with Some l => bookmark_candidate row l | None => Some None end
        | None => Some None
        end
  end.

Lemma readable_link_done user_id media_id s o s' :
  readable_native_link user_id media_id s = (Ok o, s') ->
  o = match List.find (fun l => bool_decide (lk_user_id l = user_id) && bool_decide (lk_media_id l = media_id)) (st_links s) with
      | Some l => then_some (bool_decide ((user_id, media_id) ∈ st_readable s)) (native_link l)
      | None => None
      end.
Proof.
  intros E. bind_ok E link s1 E1. apply query_cases in E1 as (fs & -> & [[=]|[= ->]]).
  change (st_links (set_faults s fs)) with (st_links s) in E. destruct (List.find _ (st_links s)); [|by injection E as <-].
  bind_ok E readable s2 E2. apply query_cases in E2 as (fs2 & -> & [[=]|[= ->]]). by injection E as <- _.
Qed.

Lemma candidate_for_id_export user_id id s c s' :
  native_candidate_for_id user_id id s = (Ok c, s') -> native_export user_id id s = Some c.
Proof.
  unfold native_candidate_for_id, native_export.
  destruct (parse_stump_native_annotation_id id) as [[kind native_id]|] eqn:Ep; [|by intros [= <-]].
  apply parse_native_spec in Ep as [_ [-> | ->]].
  - rewrite bool_decide_eq_true_2 by done. intros E. bind_ok E row s1 E1. apply query_cases in E1 as (fs & -> & [[=]|[= ->]]).
    change (native_rows (set_faults s fs)) with (native_rows s) in E. destruct (List.find _ (native_rows s)) as [row|]; [|by injection E as <-].
    bind_ok E link s2 E2. apply readable_link_done in E2. cbn zeta.
    change (st_links (set_faults s fs)) with (st_links s) in E2. change (st_readable (set_faults s fs)) with (st_readable s) in E2.
    rewrite <- E2. destruct link; [by apply ok_or_done in E as [-> _]|by injection E as <-].
  - rewrite !bool_decide_eq_false_2, bool_decide_eq_true_2 by done. intros E. bind_ok E row s1 E1.
    apply query_cases in E1 as (fs & -> & [[=]|[= ->]]).
    change (bookmarks (set_faults s fs)) with (bookmarks s) in E. destruct (List.find _ (bookmarks s)) as [row|]; [|by injection E as <-].
    bind_ok E link s2 E2. apply readable_link_done in E2. cbn zeta.
    change (st_links (set_faults s fs)) with (st_links s) in E2. change (st_readable (set_faults s fs)) with (st_readable s) in E2.
    rewrite <- E2. destruct link; [by apply ok_or_done in E as [-> _]|by injection E as <-].
Qed.

(** What an export depends on. *)
Definition same_native (s s' : Store) : Prop :=
  st_links s' = st_links s /\ st_readable s' = st_readable s /\ native_rows s' = native_rows s /\ bookmarks s' = bookmarks s.

#[export] Instance same_native_free : FaultFree same_native.
Proof.
  split; [split| |]; unfold same_native; [done| |done|done]. intros s1 s2 s3 (A1 & B1 & C1 & D1) (A2 & B2 & C2 & D2).
  split_and!; congruence.
Qed.

Lemma same_native_export user_id id s s' : same_native s s' -> native_export user_id id s' = native_export user_id id s.
Proof. intros (A & B & C & D). unfold native_export. by rewrite A, B, C, D. Qed.

Ltac silently :=
  repeat first
    [ progress storing
    | match goal with
      | |- acts _ (ok_or _ _) => unfold ok_or
      | |- acts _ (execute _) => apply acts_execute; [apply _|]; intros ?; cbn; repeat case_match; done
      end ].

Lemma reconcile_id_native now user_id id stored : acts same_native (reconcile_native_id now user_id id stored).
Proof.
  unfold reconcile_native_id, native_candidate_for_id, readable_native_link, find_annotation, reconcile_native_candidate,
    tombstone_native_mirror, next_annotation_seq, annotation_payload, insert_annotation, update_annotation. silently.
Qed.

(** *** Exports are proper values *)

Lemma feq_finite x : is_finite x = true -> feq x x = true.
Proof.
  unfold feq, SFeqb. destruct x as [s|s| |s m e]; try done. cbn. destruct s; by rewrite Z.compare_refl, Pos.compare_refl.
Qed.

(** The locator of an export comes from a native row, and its progression is a number. *)
Definition proper (c : NativeAnnotationCandidate) : Prop :=
  (exists l, value_of_locator l = Some (ca_locator c)) /\ progression_eq (ca_progression c) (ca_progression c) = true.

Lemma native_progression_eq l : progression_eq (native_progression l) (native_progression l) = true.
Proof.
  destruct (native_progression l) as [p|] eqn:E; [|done]. cbn. unfold native_progression in E.
  apply bind_Some in E as (locs & _ & E). apply bind_Some in E as (d & _ & E). apply bind_Some in E as (q & _ & E).
  apply then_some_Some in E as [Hq ->]. apply andb_true_iff in Hq as [Hq _]. by apply feq_finite.
Qed.

Lemma media_candidate_proper row link c : media_annotation_candidate row link = Some (Some c) -> proper c.
Proof.
  unfold media_annotation_candidate. destruct (_ || _ || _); [done|]. cbn zeta.
  destruct (bool_decide (_ = lit "note") && _); [done|]. destruct (64 <? _); [done|].
  intros (v & Hv & [= <-])%bind_Some. split; [by eexists|apply native_progression_eq].
Qed.

Lemma bookmark_candidate_proper row link c : bookmark_candidate row link = Some (Some c) -> proper c.
Proof.
  unfold bookmark_candidate. destruct (is_liseur_sync_projection_id _); [done|]. destruct (bm_locator row ≫= _) as [l|]; [|done].
  cbn zeta. destruct (64 <? _); [done|]. intros (v & Hv & [= <-])%bind_Some. split; [by eexists|apply native_progression_eq].
Qed.

Lemma export_proper user_id id s c : native_export user_id id s = Some (Some c) -> proper c.
Proof.
  unfold native_export. cbn zeta. destruct (parse_stump_native_annotation_id id) as [[kind native_id]|]; [|done].
  destruct (bool_decide (kind = lit "annotation")).
  - destruct (List.find _ (native_rows s)) as [row|]; [|done]. destruct (List.find _ (st_links s)) as [l|]; [|done].
    destruct (then_some _ (native_link l)) as [k|]; [|done].
    apply media_candidate_proper.
  - destruct (List.find _ (bookmarks s)) as [row|]; [|done]. destruct (List.find _ (st_links s)) as [l|]; [|done].
    destruct (then_some _ (native_link l)) as [k|]; [|done].
    apply bookmark_candidate_proper.
Qed.

Lemma timestamps_match_refl t : timestamps_match t t = true.
Proof. unfold timestamps_match. destruct (parse_from_rfc3339 t); [apply Z.eqb_refl|by apply bool_decide_eq_true]. Qed.

(** The text of a candidate's locator, read back from the database, is an equal value.  The
    decimals of a locator are written as 64-bit floats, and the JSON reader may be off in
    the last digit, so that this need not hold. *)
Definition reads_back (c : NativeAnnotationCandidate) : Prop :=
  forall t, json_text (ca_locator c) = Some t -> exists v, value_of_text t = Some v /\ value_eq v (ca_locator c) = true.

Lemma mirror_matches row c : proper c -> reads_back c -> mirror_of row c -> native_candidate_matches row c = true.
Proof.
  intros [_ Hp] Hback Hm. destruct (mo_locator row c Hm) as (t & Ht & Hloc).
  unfold native_candidate_matches, stored_locator, locator_from_db.
  rewrite (mo_live row c Hm), (mo_work row c Hm), (mo_edition row c Hm), (mo_kind row c Hm), (mo_progression row c Hm),
    (mo_excerpt row c Hm), (mo_color row c Hm), (mo_body row c Hm), (mo_updated row c Hm), Hloc. cbn [mbind option_bind].
  destruct (Hback t Ht) as (v' & -> & Hv). rewrite Hv, Hp, timestamps_match_refl.
  rewrite !bool_decide_eq_true_2 by done. by rewrite orb_true_r.
Qed.

(** A live record that has the content of a candidate.  The locator is the text the
    candidate's locator is written as, or one that reads back as an equal value. *)
Record shows (row : AnnotationRow) (c : NativeAnnotationCandidate) : Prop := {
  sh_live : aw_deleted row = false;
  sh_work : aw_work_id row = ca_work_id c;
  sh_edition : aw_edition_sha row = ca_edition_sha c;
  sh_kind : aw_kind row = ca_kind c;
  sh_locator : exists t, aw_locator row = Some t /\
    (json_text (ca_locator c) = Some t \/ exists v, value_of_text t = Some v /\ value_eq v (ca_locator c) = true);
  sh_progression : progression_eq (aw_progression row) (ca_progression c) = true;
  sh_excerpt : aw_excerpt row = ca_excerpt c;
  sh_color : aw_color row = ca_color c;
  sh_body : aw_body row = ca_body c;
  sh_updated : ca_kind c = lit "bookmark" \/ timestamps_match (aw_updated_at row) (ca_updated_at c) = true;
}.

Lemma mirror_shows row c : proper c -> mirror_of row c -> shows row c.
Proof.
  intros [_ Hp] Hm. destruct (mo_locator row c Hm) as (t & Ht & Hloc).
  split; try apply Hm; [by eauto|by rewrite (mo_progression row c Hm)|right; by rewrite (mo_updated row c Hm), timestamps_match_refl].
Qed.

Lemma match_shows row c : native_candidate_matches row c = true -> shows row c.
Proof.
  unfold native_candidate_matches. rewrite !andb_true_iff, orb_true_iff, !bool_decide_eq_true, negb_true_iff.
  intros (((((((((Hd & Hw) & He) & Hk) & Hl) & Hp) & Hx) & Hc) & Hb) & Hu). split; try done.
  - unfold stored_locator, locator_from_db in Hl. destruct (aw_locator row) as [t|]; [|done]. cbn in Hl. exists t. split; [done|].
    destruct (value_of_text t) as [v|]; [|done]. right. eauto.
  - destruct Hu as [Hu|Hu]; [left; congruence|by right].
Qed.

Definition in_step (user_id id : str) (s : Store) (export : option NativeAnnotationCandidate) : Prop :=
  match export with
  | Some c => exists row, record_of user_id id s = Some row /\ shows row c
  | None => forall row, record_of user_id id s = Some row -> aw_deleted row = true
  end.

(** C15.  Mirrors follow their rows.  Reconciling an id, when it goes through, leaves the
    record of that id in step with what its native row exports at that moment: a live
    record with the same content, or none alive once the row is gone, unlinked or
    unreadable.  And when the text of the exported locator reads back as an equal value,
    it settles: reconciling again changes no record and takes no place in the feed, so
    that a client is not sent a record that did not change.  [unsettled_mirror] shows that
    it does not settle when the locator does not read back. *)
Theorem mirrors_follow now user_id id s s1 :
  reconcile_native_id now user_id id None s = (Ok tt, s1) ->
  exists export, native_export user_id id s = Some export /\ in_step user_id id s1 export /\
    ((forall c, export = Some c -> reads_back c) ->
     forall now' s2, reconcile_native_id now' user_id id None s1 = (Ok tt, s2) -> same_ann s1 s2).
Proof.
  intros E. pose proof (oks_acts same_native _ (reconcile_id_native now user_id id None) _ _ _ E) as Hnat.
  apply reconcile_id_done in E as (_ & export & t & Hexp & Hset); [|done].
  apply candidate_for_id_export in Hexp. exists export. split; [done|]. split.
  { destruct export as [c|]; [|done]. destruct Hset as (row & Hr & [Hm|Hm]); exists row; (split; [done|]); [by apply match_shows|].
    apply mirror_shows; [by eapply export_proper|done]. }
  intros Hback now' s2 E. bind_ok E c s3 E3. bind_ok E stored s4 E4.
  pose proof (oks_acts same_ann _ (find_candidate_same user_id id) _ _ _ E3) as Q3.
  apply candidate_for_id_export in E3. rewrite (same_native_export _ _ _ _ Hnat), Hexp in E3. injection E3 as <-.
  apply find_annotation_done in E4 as [-> Q4]. rewrite (record_of_same _ _ _ _ Q3) in E.
  assert (Q : same_ann s1 s4) by by etrans.
  destruct export as [c|]; cbn in Hset.
  - destruct Hset as (row & Hr & Hset). rewrite Hr in E. cbn in E.
    assert (Hm : native_candidate_matches row c = true).
    { destruct Hset as [Hm|Hm]; [done|]. apply mirror_matches; [by eapply export_proper|by apply Hback|done]. }
    rewrite Hm in E. by injection E as <-.
  - destruct (record_of user_id id s1) as [row|]; [|by injection E as <-]. rewrite (Hset row eq_refl) in E. by injection E as <-.
Qed.

End mirrors.

(** ** Projections *)

Section filters.
Context {A : Type} (p : A -> bool).

Lemma filter_drop_same l : List.filter p (List.filter (fun r => negb (p r)) l) = [].
Proof. induction l as [|r l IH]; [done|]. cbn. destruct (p r) eqn:E; cbn; [done|]. by rewrite E. Qed.

Lemma filter_drop_other q l :
  (forall r, p r = true -> q r = false) -> List.filter p (List.filter (fun r => negb (q r)) l) = List.filter p l.
Proof.
  intros Hpq. induction l as [|r l IH]; [done|]. cbn. destruct (q r) eqn:Eq; cbn; destruct (p r) eqn:Ep; rewrite ?IH; try done.
  rewrite (Hpq r Ep) in Eq. done.
Qed.

Lemma filter_patch_same g l :
  (forall r, p (g r) = p r) -> List.filter p ((fun r => if p r then g r else r) <$> l) = g <$> List.filter p l.
Proof. intros Hg. induction l as [|r l IH]; [done|]. cbn. destruct (p r) eqn:E; cbn; rewrite ?Hg, E, IH; done. Qed.

Lemma filter_patch_other q g l :
  (forall r, p r = true -> q r = false) -> (forall r, p (g r) = p r) ->
  List.filter p ((fun r => if q r then g r else r) <$> l) = List.filter p l.
Proof.
  intros Hpq Hg. induction l as [|r l IH]; [done|]. cbn. destruct (q r) eqn:Eq; cbn; rewrite ?Hg; destruct (p r) eqn:Ep; rewrite ?IH; try done.
  rewrite (Hpq r Ep) in Eq. done.
Qed.

End filters.

Section projections.
Context `{DecimalOps} `{Host} `{Chrono} `{Wire} `{!LocatorWire}.

Definition native_at (user_id id : str) (s : Store) : list NativeRow := List.filter (is_native user_id id) (native_rows s).
Definition bookmark_at (user_id id : str) (s : Store) : list BookmarkRow := List.filter (is_bookmark user_id id) (bookmarks s).

Definition marks_at (user_id id : str) (s : Store) : list NativeRow * list BookmarkRow :=
  (native_at user_id id s, bookmark_at user_id id s).

(** The native rows a record stands for: one annotation or one bookmark when the record is
    alive, its locator names a place and its work has a book; else none. *)
Definition projection_of (user_id : str) (row : AnnotationRow) (s : Store) : list NativeRow * list BookmarkRow :=
  if aw_deleted row then ([], [])
  else
    match readium_projection_locator row, annotation_media user_id row s,
          parse_from_rfc3339 (aw_client_ts row), parse_from_rfc3339 (aw_updated_at row) with
    | Some l, Some media_id, Some created_at, Some updated_at =>
        if bool_decide (aw_kind row = lit "highlight") || bool_decide (aw_kind row = lit "note")
        then ([projected_native user_id row l media_id created_at updated_at], [])
        else if bool_decide (aw_kind row = lit "bookmark") then ([], [projected_bookmark user_id row l media_id created_at])
        else ([], [])
    | _, _, _, _ => ([], [])
    end.

Lemma is_native_iff user_id id r : is_native user_id id r = true <-> nt_user_id r = user_id /\ nt_id r = id.
Proof. unfold is_native. rewrite andb_true_iff, !bool_decide_eq_true. naive_solver. Qed.

Lemma is_bookmark_iff user_id id r : is_bookmark user_id id r = true <-> bm_user_id r = user_id /\ bm_id r = id.
Proof. unfold is_bookmark. rewrite andb_true_iff, !bool_decide_eq_true. naive_solver. Qed.

Lemma native_apart u id user_id id' r : (u, id) <> (user_id, id') -> is_native u id r = true -> is_native user_id id' r = false.
Proof. rewrite is_native_iff. intros Hne [<- <-]. apply not_true_iff_false. rewrite is_native_iff. intros [E1 E2]. congruence. Qed.

Lemma bookmark_apart u id user_id id' r : (u, id) <> (user_id, id') -> is_bookmark u id r = true -> is_bookmark user_id id' r = false.
Proof. rewrite is_bookmark_iff. intros Hne [<- <-]. apply not_true_iff_false. rewrite is_bookmark_iff. intros [E1 E2]. congruence. Qed.

(** What replacing the rows at a key by [expected] does. *)
Record replaced (user_id id : str) (expected : list NativeRow * list BookmarkRow) (s s' : Store) : Prop := {
  rd_at : marks_at user_id id s' = expected;
  rd_frame u id' : (u, id') <> (user_id, id) -> marks_at u id' s' = marks_at u id' s;
  rd_links : st_links s' = st_links s /\ st_audio s' = st_audio s;
}.

Lemma delete_projection_done user_id id s s' :
  delete_native_annotation_projection user_id id s = (Ok tt, s') -> replaced user_id id ([], []) s s'.
Proof.
  intros E. bind_ok E n s1 E1. apply execute_cases in E1 as (fs1 & [[[=] _]|[= _ <-]]).
  bind_ok E m s2 E2. apply execute_cases in E2 as (fs2 & [[[=] _]|[= _ <-]]). injection E as <-.
  split; [| |done]; unfold marks_at, native_at, bookmark_at; cbn.
  - by rewrite !filter_drop_same.
  - intros u id' Hne. by rewrite !filter_drop_other by (intros r; (by apply native_apart) || (by apply bookmark_apart)).
Qed.

Lemma insert_native_done row s s' :
  insert_native row s = (Ok tt, s') -> exists fs, s' = set_faults (set_native s (native_rows s ++ [row])) fs.
Proof. intros (fs & [[[=] _]|E])%execute_cases. destruct (existsb _ _); [done|]. injection E as <-. by exists fs. Qed.

Lemma insert_bookmark_done row s s' :
  insert_bookmark row s = (Ok tt, s') -> exists fs, s' = set_faults (set_bookmarks s (bookmarks s ++ [row])) fs.
Proof. intros (fs & [[[=] _]|E])%execute_cases. destruct (existsb _ _); [done|]. injection E as <-. by exists fs. Qed.

Lemma replaced_trans user_id id e1 e2 s1 s2 s3 :
  replaced user_id id e1 s1 s2 -> replaced user_id id e2 s2 s3 -> replaced user_id id e2 s1 s3.
Proof.
  intros [_ F1 [L1 A1]] [E2 F2 [L2 A2]]. split; [done| |split; congruence]. intros u id' Hne. by rewrite F2, F1.
Qed.

Lemma replaced_faults user_id id e s fs s' : replaced user_id id e (set_faults s fs) s' -> replaced user_id id e s s'.
Proof. intros [E F L]. by split. Qed.

(** A row is inserted where none is, and stamped. *)
Lemma stamp_native_done user_id row created_at updated_at s s1 s' :
  marks_at user_id (nt_id row) s = ([], []) -> nt_user_id row = user_id -> insert_native row s = (Ok tt, s1) ->
  execute (fun s => (Ok tt, set_native s ((fun r => if is_native user_id (nt_id row) r then stamped_native created_at updated_at r else r)
                                            <$> native_rows s))) s1 = (Ok tt, s') ->
  replaced user_id (nt_id row) ([stamped_native created_at updated_at row], []) s s'.
Proof.
  intros Hempty Hu (fs & ->)%insert_native_done (fs2 & [[[=] _]|[= <-]])%execute_cases. injection Hempty as Hn Hb.
  assert (Hown : is_native user_id (nt_id row) row = true) by by apply is_native_iff.
  assert (Hkey : forall u id r, is_native u id (stamped_native created_at updated_at r) = is_native u id r) by done.
  split; [| |done]; unfold marks_at, native_at, bookmark_at; cbn.
  - rewrite filter_patch_same, List.filter_app by done. cbn. unfold native_at in Hn. rewrite Hown, Hn. by f_equal.
  - intros u id' Hne. rewrite filter_patch_other by (done || (intros r; by apply native_apart)). rewrite List.filter_app. cbn.
    destruct (is_native u id' row) eqn:E; [|by rewrite app_nil_r]. apply (native_apart _ _ _ _ _ Hne) in E. congruence.
Qed.

Lemma stamp_bookmark_done user_id row created_at s s1 s' :
  marks_at user_id (bm_id row) s = ([], []) -> bm_user_id row = user_id -> insert_bookmark row s = (Ok tt, s1) ->
  execute (fun s => (Ok tt, set_bookmarks s ((fun r => if is_bookmark user_id (bm_id row) r then stamped_bookmark created_at r else r)
                                               <$> bookmarks s))) s1 = (Ok tt, s') ->
  replaced user_id (bm_id row) ([], [stamped_bookmark created_at row]) s s'.
Proof.
  intros Hempty Hu (fs & ->)%insert_bookmark_done (fs2 & [[[=] _]|[= <-]])%execute_cases. injection Hempty as Hn Hb.
  assert (Hown : is_bookmark user_id (bm_id row) row = true) by by apply is_bookmark_iff.
  assert (Hkey : forall u id r, is_bookmark u id (stamped_bookmark created_at r) = is_bookmark u id r) by done.
  split; [| |done]; unfold marks_at, native_at, bookmark_at; cbn.
  - rewrite filter_patch_same, List.filter_app by done. cbn. unfold bookmark_at in Hb. rewrite Hown, Hb. by f_equal.
  - intros u id' Hne. rewrite filter_patch_other by (done || (intros r; by apply bookmark_apart)). rewrite List.filter_app. cbn.
    destruct (is_bookmark u id' row) eqn:E; [|by rewrite app_nil_r]. apply (bookmark_apart _ _ _ _ _ Hne) in E. congruence.
Qed.

Lemma project_annotation_done now user_id row s s' :
  is_stump_native_annotation_id (aw_id row) = false -> project_annotation now user_id row s = (Ok tt, s') ->
  replaced user_id (liseur_sync_projection_id user_id (aw_id row)) (projection_of user_id row s) s s'.
Proof.
  intros Hnn E. unfold project_annotation in E. rewrite Hnn in E. cbv zeta in E. unfold projection_of.
  set (hn := bool_decide (aw_kind row = lit "highlight") || bool_decide (aw_kind row = lit "note")) in *.
  destruct (aw_deleted row); cbn [orb] in E; [by apply delete_projection_done|].
  destruct (negb (hn || bool_decide (aw_kind row = lit "bookmark"))) eqn:Ek.
  { apply negb_true_iff, orb_false_iff in Ek as [-> ->]. apply delete_projection_done in E. repeat case_match; done. }
  apply negb_false_iff in Ek.
  destruct (readium_projection_locator row) as [l|]; [|by apply delete_projection_done].
  bind_ok E media s1 E1. apply query_cases in E1 as (fs & -> & [[=]|[= ->]]).
  change (annotation_media user_id row (set_faults s fs)) with (annotation_media user_id row s) in E.
  destruct (annotation_media user_id row s) as [media_id|]; [|by apply delete_projection_done, replaced_faults in E].
  bind_ok E x s2 E2. destruct x. apply delete_projection_done in E2.
  bind_ok E created_at s3 E3. apply ok_or_done in E3 as [-> ->]. bind_ok E updated_at s4 E4. apply ok_or_done in E4 as [-> ->].
  assert (Hs : replaced user_id (liseur_sync_projection_id user_id (aw_id row)) ([], []) s s2) by by eapply replaced_faults.
  eapply replaced_trans; [exact Hs|]. destruct hn.
  - bind_ok E y s5 E5. destruct y. exact (stamp_native_done user_id (projected_native user_id row l media_id now now) created_at updated_at s2 s5 s' (rd_at _ _ _ _ _ E2) eq_refl E5 E).
  - bind_ok E y s5 E5. destruct y. cbn [orb] in Ek. rewrite Ek.
    exact (stamp_bookmark_done user_id (projected_bookmark user_id row l media_id now) created_at s2 s5 s' (rd_at _ _ _ _ _ E2) eq_refl E5 E).
Qed.

Lemma projection_id_inj user_id id id' :
  liseur_sync_projection_id user_id id = liseur_sync_projection_id user_id id' -> id = id'.
Proof. unfold liseur_sync_projection_id. intros E. by do 3 apply app_inv_head in E. Qed.

Lemma projection_of_links user_id row s s' :
  st_links s' = st_links s -> st_audio s' = st_audio s -> projection_of user_id row s' = projection_of user_id row s.
Proof. intros El Ea. unfold projection_of, annotation_media, links_of. by rewrite El, Ea. Qed.

Lemma project_all_done now user_id rows s s' :
  NoDup (aw_id <$> rows) -> project_all now user_id rows s = (Ok tt, s') ->
  (forall row, row ∈ rows -> is_stump_native_annotation_id (aw_id row) = false ->
     marks_at user_id (liseur_sync_projection_id user_id (aw_id row)) s' = projection_of user_id row s) /\
  (forall u id, (forall row, row ∈ rows -> (u, id) <> (user_id, liseur_sync_projection_id user_id (aw_id row))) ->
     marks_at u id s' = marks_at u id s) /\
  st_links s' = st_links s /\ st_audio s' = st_audio s.
Proof.
  revert s. induction rows as [|row rows IH]; intros s Hnd E.
  { injection E as <-. split_and!; [intros row Hr; by apply not_elem_of_nil in Hr|done|done|done]. }
  cbn in E, Hnd. apply NoDup_cons in Hnd as [Hnot Hnd]. bind_ok E x s1 E1. destruct x.
  apply IH in E as (Hat & Hframe & Hl & Ha); [|done].
  assert (H1' : (is_stump_native_annotation_id (aw_id row) = true /\ s1 = s) \/
          (is_stump_native_annotation_id (aw_id row) = false /\
           replaced user_id (liseur_sync_projection_id user_id (aw_id row)) (projection_of user_id row s) s s1)).
  { destruct (is_stump_native_annotation_id (aw_id row)) eqn:En; [left|right; split; [done|by eapply project_annotation_done]].
    unfold project_annotation in E1. rewrite En in E1. by injection E1 as <-. }
  assert (Hlinks : st_links s1 = st_links s /\ st_audio s1 = st_audio s) by (destruct H1' as [[_ ->]|[_ Hr]]; [done|apply Hr]).
  assert (Hrow : forall row', row' ∈ rows -> (user_id, liseur_sync_projection_id user_id (aw_id row)) <>
            (user_id, liseur_sync_projection_id user_id (aw_id row'))).
  { intros row' Hr' Heq. apply (f_equal snd), projection_id_inj in Heq. apply Hnot. rewrite Heq. by apply list_elem_of_fmap_2. }
  split_and!; [| |by destruct Hlinks; congruence|by destruct Hlinks; congruence].
  - intros row' [->|Hr']%elem_of_cons Hnn.
    + rewrite Hframe by done. destruct H1' as [[Hn _]|[_ Hr]]; [congruence|apply Hr].
    + rewrite Hat by done. apply projection_of_links; apply Hlinks.
  - intros u id Hne. rewrite Hframe by (intros row' Hr'; apply Hne; by right).
    destruct H1' as [[_ ->]|[_ Hr]]; [done|]. apply Hr, Hne. by left.
Qed.

Lemma project_all_counters now user_id rows : acts (fun s s' => st_counters s' = st_counters s) (project_all now user_id rows).
Proof.
  assert (Hfree : FaultFree (fun s s' : Store => st_counters s' = st_counters s)).
  { split; [split| |]; [done|intros ? ? ?; congruence|done|done]. }
  induction rows as [|row rows IH]; cbn [project_all]; [apply acts_ret; apply _|].
  apply acts_bind; [apply _| |intros _; exact IH].
  unfold project_annotation, delete_native_annotation_projection, delete_native, delete_bookmark, linked_annotation_media_id,
    insert_native, insert_bookmark, ok_or.
  storing; apply acts_execute; try done; intros t; cbn; repeat case_match; done.
Qed.

Definition projected_seq (user_id : str) (s : Store) : Z :=
  match st_counters s !! user_id with Some c => ct_projected_annotation_seq c | None => 0 end.

Lemma elem_of_between user_id low high s r : ann_wf s -> ann_seq user_id s <= high ->
  r ∈ records_between user_id low high s <-> record_of user_id (aw_id r) s = Some r /\ low < aw_seq r.
Proof.
  intros Hwf Hhigh. unfold records_between. rewrite merge_sort_Permutation, list_elem_of_filter. split.
  - intros [[<- Hs] Hr]. split; [by apply record_of_elem|lia].
  - intros [Hr Hs]. pose proof (wf_row s Hwf _ _ _ Hr). apply record_of_key in Hr as [Hr Hk]. injection Hk as Hu.
    split; [|done]. split; [done|lia].
Qed.

(** C16.  Projections are exact.  When bringing the projections up to the feed goes
    through, every record of the account that changed since the last time is shown by
    exactly the native rows it stands for: one annotation or bookmark on the book its
    link names, or none; all other native rows are untouched; and the projection is then
    level with the feed. *)
Theorem projections_exact now user_id s s' :
  ann_wf s -> projected_seq user_id s <= ann_seq user_id s ->
  reconcile_annotation_projections now user_id s = (Ok tt, s') ->
  projected_seq user_id s' = ann_seq user_id s' /\
  (forall row, record_of user_id (aw_id row) s = Some row -> projected_seq user_id s < aw_seq row ->
     is_stump_native_annotation_id (aw_id row) = false ->
     marks_at user_id (liseur_sync_projection_id user_id (aw_id row)) s' = projection_of user_id row s) /\
  (forall u id, (forall row, record_of user_id (aw_id row) s = Some row -> projected_seq user_id s < aw_seq row ->
                   (u, id) <> (user_id, liseur_sync_projection_id user_id (aw_id row))) ->
     marks_at u id s' = marks_at u id s).
Proof.
  intros Hwf Hle E. unfold projected_seq, ann_seq in *. bind_ok E counter s1 E1.
  apply query_cases in E1 as (fs & -> & [[=]|[= ->]]). change (st_counters (set_faults s fs)) with (st_counters s) in E.
  destruct (st_counters s !! user_id) as [c|] eqn:Ec.
  2: { injection E as <-. cbn. rewrite Ec. split; [done|]. split; [|done]. intros row Hr Hlt.
       pose proof (wf_row s Hwf _ _ _ Hr) as Hw. unfold ann_seq in Hw. rewrite Ec in Hw. lia. }
  cbv zeta in E. destruct (Z.leb_spec (ct_annotation_seq c) (ct_projected_annotation_seq c)) as [Hge|Hlt].
  { injection E as <-. cbn. rewrite Ec. split; [lia|]. split; [|done]. intros row Hr Hlt.
    pose proof (wf_row s Hwf _ _ _ Hr) as Hw. unfold ann_seq in Hw. rewrite Ec in Hw. lia. }
  bind_ok E rows s2 E2. apply query_cases in E2 as (fs2 & -> & [[=]|[= ->]]). bind_ok E x s3 E3. destruct x.
  set (rows := records_between user_id _ _ _) in E3.
  assert (Hrows : forall r, r ∈ rows <-> record_of user_id (aw_id r) s = Some r /\ ct_projected_annotation_seq c < aw_seq r).
  { intros r. unfold rows. apply (elem_of_between user_id _ _ (set_faults (set_faults s fs) fs2));
      [by apply (same_ann_evolves s)|]. unfold ann_seq. cbn. rewrite Ec. lia. }
  assert (Hcs : st_counters s3 = st_counters s).
  { assert (Hq : acts (fun s s' => st_counters s' = st_counters s) (project_all now user_id rows)) by apply project_all_counters.
    apply oks_acts in Hq. by rewrite (Hq _ _ _ E3). }
  apply project_all_done in E3 as (Hat & Hframe & _).
  2: { unfold rows, records_between. rewrite merge_sort_Permutation.
       apply (filtered_ids user_id); [by apply (same_ann_evolves s)|by intros r []]. }
  apply execute_cases in E as (fs4 & [[[=] _]|[= <-]]). cbn. rewrite Hcs, lookup_alter_eq, Ec. cbn.
  split; [lia|]. split.
  - intros row Hr Hs Hnn. apply Hat; [by apply Hrows|done].
  - intros u id Hne. apply Hframe. intros row Hr%Hrows. naive_solver.
Qed.

End projections.

(** ** Concrete inputs *)

#[local] Existing Instance fixed_ops.
#[local] Existing Instance demo_chrono.
#[local] Existing Instance demo_host.
#[local] Existing Instance plain_wire.
#[local] Existing Instance plain_locators.

(** A note made in Stump, and its id in the feed. *)
Definition own_note (body : string) (updated_at : Z) : NativeRow :=
  {| nt_id := lit "n1"; nt_locator := demo_locator; nt_position_ms := None; nt_annotation_text := Some (lit body);
     nt_color := None; nt_media_id := lit "m"; nt_user_id := lit "u"; nt_created_at := 1; nt_updated_at := updated_at |}.

Definition own_id : str := stump_native_annotation_id (lit "annotation") (lit "n1").

Definition with_note : Store := set_native (demo_store []) [own_note "first" 2].
Definition polled : Store := (annotation_changes 10 (lit "u") 0 5 with_note).2.

(** The note is edited in Stump, reconciled, and reconciled again. *)
Definition edited_note : Store := set_native polled [own_note "second" 3].
Definition followed : Store := (reconcile_native_id 10 (lit "u") own_id None edited_note).2.

Lemma mirrors_follow_witness :
  (exists row, record_of (lit "u") own_id followed = Some row /\ aw_body row = lit "second") /\
  same_ann followed (reconcile_native_id 20 (lit "u") own_id None followed).2.
Proof.
  assert (E : reconcile_native_id 10 (lit "u") own_id None edited_note = (Ok tt, followed)).
  { unfold followed. rewrite (surjective_pairing (reconcile_native_id _ _ _ _ _)) at 1. f_equal; by vm_compute. }
  destruct (mirrors_follow 10 (lit "u") own_id edited_note followed E) as (export & Hex & Hin & Hsettle).
  destruct export as [c|]; [|apply (f_equal (fun o => match o with Some x => is_none x | None => true end)) in Hex; by vm_compute in Hex].
  split.
  - destruct Hin as (row & Hrow & Hshows). exists row. split; [exact Hrow|]. rewrite (sh_body row c Hshows).
    apply (f_equal (fun o => match o with Some (Some x) => ca_body x | _ => [] end)) in Hex. etrans; [symmetry; exact Hex|].
    vm_compute. reflexivity.
  - apply (Hsettle ltac:(intros c' [= <-] t _; exists JNull; split; [reflexivity|];
      apply (f_equal (fun o => match o with Some (Some x) => value_eq JNull (ca_locator x) | _ => false end)) in Hex;
      etrans; [symmetry; exact Hex|]; vm_compute; reflexivity) 20).
    rewrite (surjective_pairing (reconcile_native_id _ _ _ _ _)) at 1. f_equal; by vm_compute.
Defined.

(** A locator whose decimal does not read back exactly: every reconciliation takes the
    record for changed and gives it a new revision and place, and the feed never ends. *)
Definition lossy_locators : LocatorWire :=
  {| locator_of_value _ := Some demo_locator; value_of_locator _ := Some (JFloat half); value_of_text _ := Some (JFloat f64_one) |}.

Example unsettled_mirror :
  let reconcile s := (@reconcile_native_id _ _ _ _ lossy_locators 10 (lit "u") own_id None s).2 in
  let seen s := (fun r => (aw_rev r, aw_seq r)) <$> record_of (lit "u") own_id s in
  let once := reconcile (set_counters with_note {[ lit "u" := {| ct_op_seq := 0; ct_annotation_seq := 0; ct_projected_annotation_seq := 0 |} ]}) in
  seen once = Some (1, 1) /\ seen (reconcile once) = Some (2, 2) /\ seen (reconcile (reconcile once)) = Some (3, 3).
Proof. vm_compute. repeat split; reflexivity. Qed.

(** Two notes of a client, not projected yet. *)
Definition unproject (c : Counter) : Counter :=
  {| ct_op_seq := ct_op_seq c; ct_annotation_seq := ct_annotation_seq c; ct_projected_annotation_seq := 0 |}.

Definition unprojected : Store := set_counters noted (alter unproject (lit "u") (st_counters noted)).

Lemma reset_wf s user_id f : (forall c, ct_annotation_seq (f c) = ct_annotation_seq c) ->
  ann_wf s -> ann_wf (set_counters s (alter f user_id (st_counters s))).
Proof. intros Hf. apply same_ann_evolves. split; [done|]. by apply ann_seq_alter. Qed.

Lemma unprojected_wf : ann_wf unprojected.
Proof. exact (reset_wf noted (lit "u") unproject (fun c => eq_refl) noted_wf). Qed.

Lemma projections_exact_witness :
  exists s', reconcile_annotation_projections 30 (lit "u") unprojected = (Ok tt, s') /\
    projected_seq (lit "u") s' = ann_seq (lit "u") s'.
Proof.
  destruct (reconcile_annotation_projections 30 (lit "u") unprojected) as [[[]|e] s'] eqn:E;
    [|apply (f_equal (fun r => is_ok r.1)) in E; by vm_compute in E].
  exists s'. split; [reflexivity|].
  refine (proj1 (projections_exact 30 (lit "u") unprojected s' unprojected_wf _ E)). by vm_compute.
Defined.

(** What a client sends to edit the note: no color, as it is not a highlight. *)
Definition edit_own : AnnotationInput :=
  {| ai_id := own_id; ai_base_rev := 1; ai_work_id := lit "w"; ai_edition_sha := Some (lit "e"); ai_kind := lit "note";
     ai_locator := Some JNull; ai_progression := None; ai_excerpt := []; ai_color := None; ai_drawer := None;
     ai_body := lit "second"; ai_client_ts := [5] |}.

(** An edit of a native annotation is rewritten before its payload is stored, so that the
    same push, sent again because the answer was lost, is a conflict and no duplicate. *)
Example native_retry_conflicts :
  let '(first, s1) := push_notes [edit_own] polled in
  let again := (push_notes [edit_own] s1).1 in
  (match first with Ok rs => an_status <$> rs | Err _ => [] end) = [lit "applied"] /\
  (match again with Ok rs => an_status <$> rs | Err _ => [] end) = [lit "conflict"].
Proof. vm_compute. split; reflexivity. Qed.

(** The note changes in Stump, and a client deletes the revision it knows: the conflict it
    is told of names a revision and a place in the feed that are then rolled back, and the
    place is given to another record. *)
Example conflict_names_unstored_revision :
  let s := set_native polled [own_note "second" 3] in
  let '(answer, s1) := delete_annotation 20 (lit "u") own_id 1 s in
  (match answer with Ok d => Some (da_status d, da_rev d, da_seq d) | Err _ => None end) = Some (lit "conflict", 2, 2) /\
  (aw_rev <$> record_of (lit "u") own_id s1) = Some 1 /\
  (match (push_notes [demo_note "x" 0] s1).1 with Ok rs => (fun r => (an_id r, an_seq r)) <$> rs | Err _ => [] end)
    = [(lit "x", Some 2)].
Proof. vm_compute. repeat split; reflexivity. Qed.
