(* ===== verification/LiseurAttachments.v ===== *)
(** * Attachments of liseur-sync annotations

    Models [src/crates/models/src/services/annotation_attachment.rs] and the storage half of
    [src/apps/server/src/routers/liseur_sync/attachments.rs]: the rows that describe the
    files hanging off an annotation, one per kind, and the files themselves, below the
    attachment root and named by their digest.

    A statement or a file operation may fail, as the next fault says; one that fails has
    no effect, but that a failing write leaves what it had written.  Directories are not
    modelled.  The identifier of a new row, the clock and how far a failing write gets are
    arguments. *)

From stdpp Require Import base gmap list strings sorting.
From Stdlib Require Import ZArith Lia SpecFloat.
From S2P Require Import Prelude Float64 ReadingState ReadingService LiseurSync LiseurStore LiseurOps LiseurAnnotations.

#[local] Open Scope Z_scope.
#[local] Open Scope coppice_scope.

(** ** Paths *)

Definition extension_for (media_type : str) : str :=
  if bool_decide (media_type = lit "image/svg+xml") then lit "svg"
  else if bool_decide (media_type = lit "image/jpeg") then lit "jpg"
  else if bool_decide (media_type = lit "image/png") then lit "png"
  else if bool_decide (media_type = lit "application/pdf") then lit "pdf"
  else if bool_decide (media_type = lit "application/epub+zip") then lit "epub"
  else if bool_decide (media_type = lit "application/zip") then lit "zip"
  else if bool_decide (media_type = lit "application/vnd.openxmlformats-officedocument.wordprocessingml.document") then lit "docx"
  else if bool_decide (media_type = lit "text/html") then lit "html"
  else if bool_decide (media_type = lit "text/plain") then lit "txt"
  else lit "bin".

Definition relative_path (annotation_id sha256 media_type : str) : str :=
  annotation_id ++ lit "/" ++ sha256 ++ lit "." ++ extension_for media_type.

(** [Path::with_extension] for a path whose file name has an extension. *)
Definition with_extension (path extension : str) : str := drop_while_end (fun c => negb (c =? 46)) path ++ extension.

Section attachments.
Context `{DecimalOps} `{Host} `{Chrono} `{Wire} `{!LocatorWire}.

(** ** Rows *)

Record NewAttachment := {
  nw_user_id : str;
  nw_annotation_id : str;
  nw_kind : str;
  nw_media_type : str;
  nw_byte_size : Z;
  nw_sha256 : str;
}.

Inductive Upserted :=
| Created (attachment : AttachmentRow)
| Replaced (attachment previous : AttachmentRow)
| Unchanged (attachment : AttachmentRow).

Definition upserted_attachment (u : Upserted) : AttachmentRow :=
  match u with Created a | Replaced a _ | Unchanged a => a end.

Definition is_slot (user_id annotation_id kind : str) (r : AttachmentRow) : bool :=
  is_attachment user_id annotation_id r && bool_decide (ac_kind r = kind).

Definition find_by_kind (user_id annotation_id kind : str) : Sql (option AttachmentRow) :=
  query (fun s => List.find (is_slot user_id annotation_id kind) (attachment_rows s)).

Definition find_attachment (user_id annotation_id attachment_id : str) : Sql (option AttachmentRow) :=
  query (fun s => List.find (fun r => bool_decide (ac_id r = attachment_id) && is_attachment user_id annotation_id r) (attachment_rows s)).

Definition attachment_row (id : str) (new : NewAttachment) (created_at : str) : AttachmentRow :=
  {| ac_id := id; ac_user_id := nw_user_id new; ac_annotation_id := nw_annotation_id new; ac_kind := nw_kind new;
     ac_media_type := nw_media_type new; ac_byte_size := nw_byte_size new; ac_sha256 := nw_sha256 new;
     ac_storage_path := relative_path (nw_annotation_id new) (nw_sha256 new) (nw_media_type new);
     ac_created_at := created_at |}.

(** An update by primary key, and an insert: the identity and the slot are unique. *)
Definition update_attachment (row : AttachmentRow) : Sql unit := execute (fun s =>
  if existsb (fun r => bool_decide (ac_id r = ac_id row)) (attachment_rows s)
  then (Ok tt, set_attachments s ((fun r => if bool_decide (ac_id r = ac_id row) then row else r) <$> attachment_rows s))
  else (Err internal, s)).

Definition insert_attachment (row : AttachmentRow) : Sql unit := execute (fun s =>
  if existsb (fun r => bool_decide (ac_id r = ac_id row) || is_slot (ac_user_id row) (ac_annotation_id row) (ac_kind row) r) (attachment_rows s)
  then (Err internal, s) else (Ok tt, set_attachments s (attachment_rows s ++ [row]))).

Definition upsert (now : Z) (uuid : str) (new : NewAttachment) : Sql Upserted :=
  existing <-- find_by_kind (nw_user_id new) (nw_annotation_id new) (nw_kind new) ;;
  match existing with
  | Some previous =>
      if bool_decide (ac_sha256 previous = nw_sha256 new) && bool_decide (ac_media_type previous = nw_media_type new)
      then db_ret (Unchanged previous)
      else
        let attachment := attachment_row (ac_id previous) new (to_rfc3339_nanos now) in
        _ <-- update_attachment attachment ;;
        db_ret (Replaced attachment previous)
  | None =>
      let attachment := attachment_row uuid new (to_rfc3339_nanos now) in
      _ <-- insert_attachment attachment ;;
      db_ret (Created attachment)
  end.

(** ** Files *)

(** [create_dir_all], [write] and [rename].  A write that fails may not have opened the file
    ([None]), or it has truncated it and written the first bytes. *)
Definition create_dir_all : Sql unit := execute (db_ret tt).

Definition torn_file (torn : option nat) (path : str) (bytes : list Z) (s : Store) : Store :=
  match torn with
  | None => s
  | Some n => set_files s (<[path := take n bytes]> (st_files s))
  end.

Definition write_file (torn : option nat) (path : str) (bytes : list Z) : Sql unit := fun s =>
  match execute (db_ret tt) s with
  | (Ok _, s') => (Ok tt, set_files s' (<[path := bytes]> (st_files s')))
  | (Err e, s') => (Err e, torn_file torn path bytes s')
  end.

Definition rename_file (from to : str) : Sql unit := execute (fun s =>
  match st_files s !! from with
  | Some bytes => (Ok tt, set_files s (<[to := bytes]> (delete from (st_files s))))
  | None => (Err internal, s)
  end).

Definition write_bytes (torn : option nat) (path : str) (bytes : list Z) : Sql unit :=
  let temporary := with_extension path (lit "partial") in
  _ <-- create_dir_all ;;
  _ <-- write_file torn temporary bytes ;;
  rename_file temporary path.

(** ** The calls *)

Definition require_live_annotation (user_id annotation_id : str) : Sql unit :=
  row <-- query (fun s => List.find (is_annotation user_id annotation_id) (annotations s)) ;;
  match row with
  | None => db_err (Refused (NotFound (lit "annotation not found")))
  | Some row => if aw_deleted row then db_err (Refused (NotFound (lit "annotation not found"))) else db_ret tt
  end.

Definition attachment_record (r : AttachmentRow) : AttachmentRecord :=
  {| at_id := ac_id r; at_annotation_id := ac_annotation_id r; at_kind := ac_kind r; at_media_type := ac_media_type r;
     at_byte_size := ac_byte_size r; at_sha256 := ac_sha256 r; at_created_at := ac_created_at r |}.

Definition list_attachments (user_id annotation_id : str) : Sql (list AttachmentRecord) :=
  _ <-- require_live_annotation user_id annotation_id ;;
  rows <-- list_rows user_id annotation_id ;;
  db_ret (attachment_record <$> rows).

(** [match stored]: an error of the rows removes the file that was written. *)
Definition or_unwritten {A} (c : Sql A) (path : str) : Sql A := fun s =>
  match c s with
  | (Ok a, s') => (Ok a, s')
  | (Err Panicked, s') => (Err Panicked, s')
  | (Err _, s') => (_ <-- remove_file path ;; db_err internal) s'
  end.

(** The bytes of the attachment that was replaced. *)
Definition discard_previous (stored : Upserted) (relative : str) : Sql unit :=
  match stored with
  | Replaced _ previous =>
      if bool_decide (ac_storage_path previous = relative) then db_ret tt else remove_file (ac_storage_path previous)
  | _ => db_ret tt
  end.

Definition put (torn : option nat) (now : Z) (uuid user_id annotation_id : str) (upload : AttachmentUpload) : Sql AttachmentUploadResult :=
  _ <-- require_live_annotation user_id annotation_id ;;
  let new := {| nw_user_id := user_id; nw_annotation_id := annotation_id; nw_kind := up_kind upload;
                nw_media_type := up_media_type upload; nw_byte_size := Z.of_nat (length (up_bytes upload));
                nw_sha256 := up_sha256 upload |} in
  let relative := relative_path (nw_annotation_id new) (nw_sha256 new) (nw_media_type new) in
  _ <-- write_bytes torn relative (up_bytes upload) ;;
  stored <-- or_unwritten (upsert now uuid new) relative ;;
  _ <-- discard_previous stored relative ;;
  let attachment := upserted_attachment stored in
  db_ret {| ur_id := ac_id attachment; ur_sha256 := ac_sha256 attachment; ur_byte_size := ac_byte_size attachment |}.

(** What a download answers with: the bytes of the file a row names, and their media type. *)
Definition read_bytes (attachment : AttachmentRow) : Sql (str * list Z) :=
  bytes <-- query (fun s => st_files s !! ac_storage_path attachment) ;;
  match bytes with
  | None => db_err (Refused (NotFound (lit "attachment bytes are missing")))
  | Some bytes => db_ret (ac_media_type attachment, bytes)
  end.

Definition download (user_id annotation_id attachment_id : str) : Sql (str * list Z) :=
  attachment <-- find_attachment user_id annotation_id attachment_id ;;
  match attachment with
  | None => db_err (Refused (NotFound (lit "attachment not found")))
  | Some attachment => read_bytes attachment
  end.

End attachments.

(** ** The path of a file says what is in it *)

Definition blob_path (annotation_id sha256 extension : str) : str :=
  annotation_id ++ 47 :: sha256 ++ 46 :: extension.

Lemma first_split {A} (x : A) l1 r1 l2 r2 :
  x ∉ l1 -> x ∉ l2 -> l1 ++ x :: r1 = l2 ++ x :: r2 -> l1 = l2 /\ r1 = r2.
Proof.
  revert l2. induction l1 as [|a l1 IH]; intros [|b l2] H1 H2 E; cbn in E.
  - by injection E.
  - injection E as <- _. set_solver.
  - injection E as <- _. set_solver.
  - injection E as <- E. destruct (IH l2) as [-> ->]; [set_solver..|done|done].
Qed.

Lemma blob_path_inj id1 sha1 ext1 id2 sha2 ext2 :
  47 ∉ id1 -> 47 ∉ id2 -> 46 ∉ sha1 -> 46 ∉ sha2 ->
  blob_path id1 sha1 ext1 = blob_path id2 sha2 ext2 -> id1 = id2 /\ sha1 = sha2 /\ ext1 = ext2.
Proof. intros I1 I2 S1 S2 [-> E]%first_split; [|done..]. by apply first_split in E as [-> ->]. Qed.

Lemma relative_path_blob id sha media_type : relative_path id sha media_type = blob_path id sha (extension_for media_type).
Proof. done. Qed.

Lemma extension_no_dot media_type : 46 ∉ extension_for media_type.
Proof.
  apply (bool_decide_eq_true (46 ∉ _)). unfold extension_for.
  repeat match goal with |- context [if ?b then _ else _] => destruct b end; reflexivity.
Qed.

Lemma extension_not_partial media_type : extension_for media_type <> lit "partial".
Proof.
  apply (bool_decide_eq_true (extension_for media_type <> _)). unfold extension_for.
  repeat match goal with |- context [if ?b then _ else _] => destruct b end; reflexivity.
Qed.

Lemma filtered_nodup {A B} (f : A -> B) p (l : list A) : NoDup (f <$> l) -> NoDup (f <$> List.filter p l).
Proof.
  induction l as [|r l IH]; [done|]. cbn. intros [Hn D]%NoDup_cons. destruct (p r); cbn; [|by apply IH].
  apply NoDup_cons. split; [|by apply IH]. intros (r' & E & Hr')%list_elem_of_fmap. apply Hn. rewrite E. apply list_elem_of_fmap.
  exists r'. split; [done|]. apply list_elem_of_In in Hr'. apply filter_In in Hr' as [Hr' _]. by apply list_elem_of_In.
Qed.

Lemma partial_path id sha media_type :
  with_extension (relative_path id sha media_type) (lit "partial") = blob_path id sha (lit "partial").
Proof.
  unfold with_extension, drop_while_end. rewrite relative_path_blob. unfold blob_path.
  pose proof (extension_no_dot media_type) as Hd. revert Hd. generalize (extension_for media_type). intros ext Hd.
  assert (E : rev (id ++ 47 :: sha ++ 46 :: ext) = rev ext ++ 46 :: rev (id ++ 47 :: sha)).
  { rewrite !rev_app_distr. cbn. rewrite !rev_app_distr. cbn. rewrite <- !app_assoc. done. }
  rewrite E. assert (Hr : Forall (fun c => negb (c =? 46) = true) (rev ext)).
  { apply Forall_forall. intros c Hc. apply negb_true_iff, Z.eqb_neq. intros ->.
    apply Hd. apply list_elem_of_In. apply list_elem_of_In in Hc. by apply in_rev. }
  clear E Hd. induction (rev ext) as [|c l IH]; cbn.
  - rewrite rev_involutive, <- !app_assoc. done.
  - apply Forall_cons in Hr as [Hc Hr]. rewrite Hc. exact (IH Hr).
Qed.

(** ** The moves of the attachments

    Every call is a sequence of moves on the files and on the rows, between which the
    moves of other calls may come.  Besides the store, the moves keep the uploads that are
    writing: for each temporary file that is open, the bytes its upload means to write. *)

Section moves.
Context `{DecimalOps} `{Host} `{Chrono} `{Wire} `{!LocatorWire} `{Sha256}.

Definition same_attachments (s s' : Store) : Prop := st_files s' = st_files s /\ attachment_rows s' = attachment_rows s.

#[export] Instance same_attachments_free : FaultFree same_attachments.
Proof. split; [split| |]; unfold same_attachments; [done| |done|done]. intros s1 s2 s3 [E1 F1] [E2 F2]. split; congruence. Qed.

(** What a row says about the file it names. *)
Record row_ok (r : AttachmentRow) : Prop := {
  ro_id : 47 ∉ ac_annotation_id r;
  ro_sha : 46 ∉ ac_sha256 r;
  ro_path : ac_storage_path r = relative_path (ac_annotation_id r) (ac_sha256 r) (ac_media_type r);
}.

(** Opening a temporary file truncates it; then it holds more and more of the bytes, until
    they are all there and it is renamed, or the upload gives up and leaves it as it is.
    No other upload opens the file meanwhile. *)
Inductive move : Store * gmap str (list Z) -> Store * gmap str (list Z) -> Prop :=
| mv_open s (open : gmap str (list Z)) id bytes :
    47 ∉ id -> 46 ∉ sha256_hex bytes -> open !! blob_path id (sha256_hex bytes) (lit "partial") = None ->
    move (s, open) (set_files s (<[blob_path id (sha256_hex bytes) (lit "partial") := []]> (st_files s)),
                    <[blob_path id (sha256_hex bytes) (lit "partial") := bytes]> open)
| mv_chunk s (open : gmap str (list Z)) path bytes n :
    open !! path = Some bytes -> move (s, open) (set_files s (<[path := take n bytes]> (st_files s)), open)
| mv_rename s (open : gmap str (list Z)) id sha ext bytes :
    47 ∉ id -> 46 ∉ sha -> open !! blob_path id sha (lit "partial") = Some bytes ->
    st_files s !! blob_path id sha (lit "partial") = Some bytes ->
    move (s, open) (set_files s (<[blob_path id sha ext := bytes]> (delete (blob_path id sha (lit "partial")) (st_files s))),
                    delete (blob_path id sha (lit "partial")) open)
| mv_give_up s (open : gmap str (list Z)) path : move (s, open) (s, delete path open)
| mv_remove s (open : gmap str (list Z)) path : move (s, open) (set_files s (delete path (st_files s)), open)
| mv_insert s (open : gmap str (list Z)) row :
    row_ok row -> ac_id row ∉ ac_id <$> attachment_rows s -> move (s, open) (set_attachments s (attachment_rows s ++ [row]), open)
| mv_update s (open : gmap str (list Z)) row : row_ok row ->
    move (s, open) (set_attachments s ((fun r => if bool_decide (ac_id r = ac_id row) then row else r) <$> attachment_rows s), open)
| mv_delete s (open : gmap str (list Z)) p : move (s, open) (set_attachments s (List.filter p (attachment_rows s)), open)
| mv_other s s' (open : gmap str (list Z)) : same_attachments s s' -> move (s, open) (s', open).

(** Moves that leave no file open that was not. *)
Definition moves (open : gmap str (list Z)) (s s' : Store) : Prop := rtc move (s, open) (s', open).

#[export] Instance moves_free (open : gmap str (list Z)) : FaultFree (moves open).
Proof.
  split; [split| |].
  - intros s. unfold moves. reflexivity.
  - intros s1 s2 s3 M1 M2. unfold moves in *. by etrans.
  - intros s fs. by apply rtc_once, mv_other.
  - intros s m. by apply rtc_once, mv_other.
Qed.

Lemma moves_other {A : Type} (open : gmap str (list Z)) (c : Sql A) : acts same_attachments c -> acts (moves open) c.
Proof. intros Hc s. apply rtc_once, mv_other, Hc. Qed.

(** *** The invariant *)

Record intact (s : Store) : Prop := {
  it_files id sha ext bytes :
    47 ∉ id -> 46 ∉ sha -> ext <> lit "partial" -> st_files s !! blob_path id sha ext = Some bytes -> sha256_hex bytes = sha;
  it_rows r : r ∈ attachment_rows s -> row_ok r;
  it_ids : NoDup (ac_id <$> attachment_rows s);
}.

(** What is being written is what the name of its file says. *)
Definition writing_ok (open : gmap str (list Z)) : Prop :=
  forall path bytes, open !! path = Some bytes ->
    exists id, (47 ∉ id) /\ (46 ∉ sha256_hex bytes) /\ path = blob_path id (sha256_hex bytes) (lit "partial").

Lemma writing_none : writing_ok ∅.
Proof. intros path bytes E. by rewrite lookup_empty in E. Qed.

Lemma writing_digest (open : gmap str (list Z)) id sha bytes :
  writing_ok open -> 47 ∉ id -> 46 ∉ sha -> open !! blob_path id sha (lit "partial") = Some bytes -> sha256_hex bytes = sha.
Proof. intros Hw Hid Hsha (id' & Hid' & Hsha' & E)%Hw. by apply blob_path_inj in E as (_ & -> & _). Qed.

Lemma writing_delete (open : gmap str (list Z)) path : writing_ok open -> writing_ok (delete path open).
Proof. intros Hw p b [_ Hp]%lookup_delete_Some. by apply Hw. Qed.

Lemma move_intact d d' : move d d' -> intact d.1 -> writing_ok d.2 -> intact d'.1 /\ writing_ok d'.2.
Proof.
  intros M I W. assert (I' := I). destruct I' as [F R D].
  destruct M as [s open id bytes Hid Hsha Hn|s open path bytes n Hp|s open id sha ext bytes Hid Hsha Hp Hf|s open path|s open path
    |s open row Hr Hn|s open row Hr|s open p|s s' open [Ef Er]]; cbn [fst snd] in *.
  - split; [split; cbn; [|done..]|].
    + intros id' sha' ext' bytes' Hid' Hsha' Hx. rewrite lookup_insert_Some. intros [[E _]|[_ E]]; [|by eapply F].
      apply blob_path_inj in E as (_ & _ & E); [by subst|done..].
    + intros p b [[<- <-]|[_ Hp]]%lookup_insert_Some; [by exists id|by apply W].
  - split; [|done]. split; cbn; [|done..]. intros id' sha' ext' bytes' Hid' Hsha' Hx. rewrite lookup_insert_Some.
    intros [[E _]|[_ E]]; [|by eapply F]. apply W in Hp as (id0 & Hid0 & Hsha0 & ->).
    apply blob_path_inj in E as (_ & _ & E); [by subst|done..].
  - split; [|by apply (writing_delete open)]. split; cbn; [|done..]. intros id' sha' ext' bytes' Hid' Hsha' Hx. rewrite lookup_insert_Some.
    intros [[E <-]|[_ E]].
    + apply blob_path_inj in E as (_ & <- & _); [|done..]. exact (writing_digest open id sha bytes W Hid Hsha Hp).
    + apply lookup_delete_Some in E as [_ E]. by eapply F.
  - split; [done|by apply (writing_delete open)].
  - split; [|done]. split; cbn; [|done..]. intros id' sha' ext' bytes' Hid' Hsha' Hx [_ E]%lookup_delete_Some. by eapply F.
  - split; [|done]. split; cbn; [done| |].
    + intros r [Hin| ->%list_elem_of_singleton]%elem_of_app; [by apply R|done].
    + rewrite fmap_app. cbn. apply NoDup_app. split; [done|]. split; [|apply NoDup_singleton].
      intros x Hx ->%list_elem_of_singleton. done.
  - split; [|done]. split; cbn; [done| |].
    + intros r (r0 & -> & Hr0)%list_elem_of_fmap. case_bool_decide; [done|by apply R].
    + rewrite <- list_fmap_compose. erewrite list_fmap_ext; [exact D|]. intros i r _. cbn. by case_bool_decide.
  - split; [|done]. split; cbn; [done| |].
    + intros r Hin%list_elem_of_In. apply filter_In in Hin as [Hin _]. by apply R, list_elem_of_In.
    + apply (filtered_nodup ac_id p (attachment_rows s) D).
  - split; [|done]. split; rewrite ?Ef, ?Er; done.
Qed.

Lemma move_steps_intact d d' : rtc move d d' -> intact d.1 -> writing_ok d.2 -> intact d'.1 /\ writing_ok d'.2.
Proof. induction 1 as [|d1 d2 d3 M _ IH]; [done|]. intros I W. destruct (move_intact _ _ M I W). by apply IH. Qed.

Lemma moves_intact (open : gmap str (list Z)) s s' : moves open s s' -> writing_ok open -> intact s -> intact s'.
Proof. intros M W I. by apply (move_steps_intact _ _ M). Qed.

Lemma empty_intact s : st_files s = ∅ -> attachment_rows s = [] -> intact s.
Proof.
  intros Ef Er. split; [intros id sha ext bytes _ _ _; by rewrite Ef|intros r; rewrite Er; by intros ?%elem_of_nil|].
  rewrite Er. constructor.
Qed.

End moves.

(** *** The calls are sequences of moves *)

Section calls.
Context `{DecimalOps} `{Host} `{Chrono} `{Wire} `{!LocatorWire} `{Sha256}.

Lemma reconcile_id_others now user_id id stored : acts same_attachments (reconcile_native_id now user_id id stored).
Proof.
  unfold reconcile_native_id, native_candidate_for_id, readable_native_link, find_annotation, reconcile_native_candidate,
    tombstone_native_mirror, next_annotation_seq, annotation_payload, insert_annotation, update_annotation. quietly.
Qed.

Lemma reconcile_ids_others now user_id ids : acts same_attachments (reconcile_native_ids now user_id ids).
Proof.
  unfold reconcile_native_ids. generalize (List.filter is_stump_native_annotation_id ids). intros ids'.
  assert (He : acts same_attachments (reconcile_each now user_id ids')).
  { induction ids' as [|id ids' IH]; cbn; quietly; [apply reconcile_id_others|exact IH]. }
  destruct ids' as [|id ids']; [apply acts_ret; apply _|]. unfold native_auth_user. storing. exact He.
Qed.

Lemma delete_source_others user_id id : acts same_attachments (delete_native_annotation_source user_id id).
Proof. unfold delete_native_annotation_source, delete_native, delete_bookmark. quietly. Qed.

Lemma projections_others now user_id : acts same_attachments (reconcile_annotation_projections now user_id).
Proof.
  unfold reconcile_annotation_projections, set_projected. storing; [|apply acts_execute; [apply _|]; by intros s].
  generalize (records_between user_id). intros f. match goal with |- acts _ (project_all _ _ ?rows) => induction rows as [|row rows IH] end;
    cbn; [apply acts_ret; apply _|]. apply acts_bind; [apply _| |intros _; exact IH].
  unfold project_annotation, linked_annotation_media_id, insert_native, insert_bookmark,
    delete_native_annotation_projection, delete_native, delete_bookmark. quietly.
Qed.

Lemma remove_file_moves open path : acts (moves open) (remove_file path).
Proof. apply ignoring_acts, acts_execute; [apply _|]. intros s. apply rtc_once, mv_remove. Qed.

Lemma unlink_all_moves open rows : acts (moves open) (unlink_all rows).
Proof.
  induction rows as [|row rows IH]; cbn; [apply acts_ret; apply _|].
  apply acts_bind; [apply _|apply remove_file_moves|intros _; exact IH].
Qed.

Lemma detach_moves open user_id id : acts (moves open) (delete_for_annotation user_id id).
Proof. unfold delete_for_annotation, list_rows. storing. apply acts_execute; [apply _|]. intros s. apply rtc_once, mv_delete. Qed.

Lemma delete_annotation_moves open now user_id id rev : acts (moves open) (delete_annotation now user_id id rev).
Proof.
  unfold delete_annotation. apply acts_bind; [apply _| |intros [result detached]].
  - apply acts_transaction_ended; [apply _|]. apply oks_acts. unfold find_annotation, next_annotation_seq, update_annotation.
    storing; try apply detach_moves; apply moves_other; try (apply acts_execute; [apply _|]; intros s; cbn; by repeat case_match).
    + apply reconcile_ids_others.
    + apply delete_source_others.
    + apply projections_others.
  - apply acts_bind; [apply _|apply unlink_all_moves|intros _; apply acts_ret; apply _].
Qed.

(** *** Uploads *)

(** What [read_attachment] lets through. *)
Record upload_safe (annotation_id : str) (u : AttachmentUpload) : Prop := {
  us_id_safe : 47 ∉ annotation_id;
  us_sha_safe : 46 ∉ up_sha256 u;
  us_digest : sha256_hex (up_bytes u) = up_sha256 u;
}.

Lemma digest_no_dot headers sha : attachment_digest headers = Ok sha -> 46 ∉ sha.
Proof.
  unfold attachment_digest. destruct (_ ≫= _) as [digest|] eqn:E; [|done]. intros [= <-].
  apply bind_Some in E as (v & _ & E). unfold then_some in E. destruct (_ && _) eqn:Eb; [|done]. injection E as <-.
  apply andb_true_iff in Eb as [_ Hb]. assert (Ha : as_bytes v = v).
  { eapply ascii_bytes; [|exact Hb]. intros b. unfold is_ascii_hexdigit, is_ascii_digit. rewrite !orb_true_iff, !andb_true_iff. lia. }
  rewrite Ha in Hb. intros Hin%list_elem_of_In. by apply (proj1 (forallb_forall _ _) Hb) in Hin.
Qed.

Lemma accepted_safe annotation_id kind headers body max_bytes u :
  upload_ok annotation_id kind headers body max_bytes u -> upload_safe annotation_id u.
Proof.
  intros [Hid _ _ [Hd Hs] _ _]. split; [|by eapply digest_no_dot|done]. destruct Hid as (_ & _ & Hall).
  intros Hin. rewrite Forall_forall in Hall. destruct (Hall _ Hin) as [E|E]; [by vm_compute in E|lia].
Qed.

Definition new_attachment (user_id annotation_id : str) (upload : AttachmentUpload) : NewAttachment :=
  {| nw_user_id := user_id; nw_annotation_id := annotation_id; nw_kind := up_kind upload;
     nw_media_type := up_media_type upload; nw_byte_size := Z.of_nat (length (up_bytes upload)); nw_sha256 := up_sha256 upload |}.

Lemma new_row_ok id user_id annotation_id upload created_at :
  upload_safe annotation_id upload -> row_ok (attachment_row id (new_attachment user_id annotation_id upload) created_at).
Proof. intros [Hid Hsha _]. by split. Qed.

(** Writing a temporary file that no other upload has open: as much as is written of it. *)
Lemma torn_moves (open : gmap str (list Z)) id bytes n s :
  47 ∉ id -> 46 ∉ sha256_hex bytes -> open !! blob_path id (sha256_hex bytes) (lit "partial") = None ->
  rtc move (s, open) (set_files s (<[blob_path id (sha256_hex bytes) (lit "partial") := take n bytes]> (st_files s)),
                      <[blob_path id (sha256_hex bytes) (lit "partial") := bytes]> open).
Proof.
  intros Hid Hsha Hn. eapply rtc_l; [by apply mv_open|]. apply rtc_once.
  match goal with |- move (?s1, ?o1) (?s2, _) => assert (E : s2 = set_files s1 (<[blob_path id (sha256_hex bytes) (lit "partial") := take n bytes]> (st_files s1))) end.
  { unfold set_files. cbn. by rewrite insert_insert_eq. }
  rewrite E. apply mv_chunk. by rewrite lookup_insert_eq.
Qed.

Lemma write_bytes_moves (open : gmap str (list Z)) torn annotation_id u media_type :
  upload_safe annotation_id u -> open !! blob_path annotation_id (up_sha256 u) (lit "partial") = None ->
  acts (moves open) (write_bytes torn (relative_path annotation_id (up_sha256 u) media_type) (up_bytes u)).
Proof.
  intros [Hid Hsha Hd] Hopen. unfold write_bytes. rewrite partial_path, relative_path_blob. rewrite <- Hd in *.
  apply acts_bind; [apply _|apply acts_execute; [apply _|apply acts_ret; apply _]|intros _].
  intros s. set (tmp := blob_path annotation_id (sha256_hex (up_bytes u)) (lit "partial")) in *.
  assert (Hback : delete tmp (<[tmp := up_bytes u]> open) = open) by by apply delete_insert_id.
  assert (Htorn : forall n s0, moves open s0 (set_files s0 (<[tmp := take n (up_bytes u)]> (st_files s0)))).
  { intros n s0. unfold moves. eapply rtc_r; [by apply torn_moves|]. rewrite <- Hback at 2. apply mv_give_up. }
  unfold db_bind, write_file. destruct (execute (db_ret tt) s) as [[[]|e] s1] eqn:E1; apply execute_cases in E1 as (fs & E1).
  2: { destruct E1 as [[_ ->]|[=]]. etrans; [apply (ff_faults s fs)|]. destruct torn as [n|]; [apply Htorn|reflexivity]. }
  destruct E1 as [[[=] _]|[= <-]]. etrans; [apply (ff_faults s fs)|]. set (s1 := set_faults s fs).
  set (s2 := set_files s1 (<[tmp := up_bytes u]> (st_files s1))).
  assert (Hwrote : rtc move (s1, open) (s2, <[tmp := up_bytes u]> open)).
  { unfold s2. rewrite <- (take_ge (up_bytes u) (length (up_bytes u))) at 1 by done. by apply torn_moves. }
  destruct (rename_file tmp _ s2) as [r s3] eqn:E2. apply execute_cases in E2 as (fs2 & [[_ ->]|E2]); cbn [snd].
  - unfold moves. etrans; [exact Hwrote|]. eapply rtc_l; [by apply (mv_other _ (set_faults s2 fs2))|].
    rewrite <- Hback at 2. apply rtc_once, mv_give_up.
  - cbn [st_files set_faults set_reading s2 set_files] in E2. rewrite lookup_insert_eq in E2. injection E2 as <- <-.
    unfold moves. etrans; [exact Hwrote|]. eapply rtc_l; [by apply (mv_other _ (set_faults s2 fs2))|].
    rewrite <- Hback at 2. apply rtc_once. apply mv_rename; [done|done|apply lookup_insert_eq|]. cbn. apply lookup_insert_eq.
Qed.

Lemma upsert_moves (open : gmap str (list Z)) now uuid user_id annotation_id u :
  upload_safe annotation_id u -> acts (moves open) (upsert now uuid (new_attachment user_id annotation_id u)).
Proof.
  intros Hu. unfold upsert, find_by_kind, update_attachment, insert_attachment. storing; (apply acts_execute; [apply _|]); intros s.
  - destruct (existsb _ _); [|reflexivity]. by apply rtc_once, mv_update, new_row_ok.
  - destruct (existsb _ _) eqn:E; [reflexivity|]. apply rtc_once, mv_insert; [by apply new_row_ok|].
    intros (r & Er & Hr)%list_elem_of_fmap. apply not_true_iff_false in E. apply E, existsb_exists. exists r.
    split; [by apply list_elem_of_In|]. by rewrite <- Er, bool_decide_eq_true_2.
Qed.

Lemma or_unwritten_acts {A} R (c : Sql A) path : PreOrder R -> acts R c -> acts R (remove_file path) -> acts R (or_unwritten c path).
Proof.
  intros HR Hc Hp s. unfold or_unwritten. specialize (Hc s). destruct (c s) as [[a|[e|]] s'] eqn:E; [done| |done].
  etrans; [exact Hc|]. assert (Hall : acts R (_ <-- remove_file path ;; db_err (A := A) internal)) by (apply acts_bind; [done|done|intros ?; by apply acts_err]).
  apply Hall.
Qed.

Lemma put_moves (open : gmap str (list Z)) torn now uuid user_id annotation_id u :
  upload_safe annotation_id u -> open !! blob_path annotation_id (up_sha256 u) (lit "partial") = None ->
  acts (moves open) (put torn now uuid user_id annotation_id u).
Proof.
  intros Hu Hopen. unfold put, require_live_annotation, discard_previous. storing.
  - by apply write_bytes_moves.
  - apply or_unwritten_acts; [apply _|by apply upsert_moves|apply remove_file_moves].
  - apply remove_file_moves.
Qed.

(** C17. Attachments are what their digest says, as long as no two uploads write the same
    file at once.  Storing and deleting attachments are sequences of moves on the files
    and on the rows: a temporary file is opened, filled bit by bit and renamed when it is
    complete, or left as it is by an upload that fails or is cut off.  However the moves
    of however many calls follow each other, if none opens a temporary file that another
    upload, of the same digest for the same annotation id, is still writing, a download
    that finds a row and later reads the file it names answers with the media type and
    bytes of the digest the row records.  [overlapping_uploads_tear] shows that two
    uploads of one file at once break this. *)
Theorem attachments_intact :
  (forall open torn now uuid user_id annotation_id kind headers body max_bytes u,
    read_attachment annotation_id kind headers body max_bytes = Ok u ->
    open !! with_extension (relative_path annotation_id (up_sha256 u) (up_media_type u)) (lit "partial") = None ->
    acts (moves open) (put torn now uuid user_id annotation_id u)) /\
  (forall open now user_id id rev, acts (moves open) (delete_annotation now user_id id rev)) /\
  (forall s0 s open s1 open1 user_id annotation_id id row media_type bytes s' s2,
    st_files s0 = ∅ -> attachment_rows s0 = [] ->
    rtc move (s0, ∅) (s, open) -> find_attachment user_id annotation_id id s = (Ok (Some row), s') ->
    rtc move (s, open) (s1, open1) -> read_bytes row s1 = (Ok (media_type, bytes), s2) ->
    row ∈ attachment_rows s /\ ac_id row = id /\ is_attachment user_id annotation_id row = true /\
      ac_media_type row = media_type /\ sha256_hex bytes = ac_sha256 row).
Proof.
  split_and!.
  - intros open torn now uuid user_id annotation_id kind headers body max_bytes u E Hopen. rewrite partial_path in Hopen.
    apply put_moves; [|done]. eapply accepted_safe. by apply read_attachment_exact.
  - intros open now user_id id rev. apply delete_annotation_moves.
  - intros s0 s open s1 open1 user_id annotation_id id row media_type bytes s' s2 Ef Er M E M1 E1.
    destruct (move_steps_intact _ _ M) as [I W]; [by apply empty_intact|exact writing_none|]. cbn in I, W.
    destruct (move_steps_intact _ _ M1 I W) as [[F _ _] _]. cbn in F.
    apply query_cases in E as (fs & -> & [[=]|[= E]]). cbn in E. symmetry in E. apply find_some in E as [Hin Hp].
    apply andb_true_iff in Hp as [Hid Ha]. apply bool_decide_eq_true in Hid. apply list_elem_of_In in Hin.
    unfold read_bytes in E1. bind_ok E1 content s3 E3. apply query_cases in E3 as (fs2 & -> & [[=]|[= ->]]). cbn in E1.
    destruct (st_files s1 !! _) as [b|] eqn:Hb in E1; [|done]. injection E1 as <- <- _.
    split_and!; [done..|]. destruct (it_rows _ I row Hin) as [Hi Hs Hpath]. rewrite Hpath, relative_path_blob in Hb.
    exact (F _ _ _ _ Hi Hs (extension_not_partial _) Hb).
Qed.

End calls.

(** ** What is stored is what is served *)

Lemma unique_key {A B} (f : A -> B) l x y : NoDup (f <$> l) -> x ∈ l -> y ∈ l -> f x = f y -> x = y.
Proof.
  induction l as [|a l IH]; intros D Hx Hy E; [by apply elem_of_nil in Hx|]. cbn in D. apply NoDup_cons in D as [Hn D].
  apply elem_of_cons in Hx as [->|Hx]; apply elem_of_cons in Hy as [->|Hy]; [done| | |by apply IH]; exfalso; apply Hn.
  - rewrite E. by apply list_elem_of_fmap_2.
  - rewrite <- E. by apply list_elem_of_fmap_2.
Qed.

Section served.
Context `{DecimalOps} `{Host} `{Chrono} `{Wire} `{!LocatorWire} `{Sha256}.

Lemma attachment_by_id rows user_id annotation_id a :
  NoDup (ac_id <$> rows) -> a ∈ rows -> is_attachment user_id annotation_id a = true ->
  List.find (fun r => bool_decide (ac_id r = ac_id a) && is_attachment user_id annotation_id r) rows = Some a.
Proof.
  intros D Ha Hp. induction rows as [|r rows IH]; [by apply elem_of_nil in Ha|]. cbn. cbn in D. apply NoDup_cons in D as [Hn D].
  apply elem_of_cons in Ha as [<-|Ha]; [by rewrite bool_decide_eq_true_2, Hp|].
  rewrite bool_decide_eq_false_2; [by apply IH|]. intros E. apply Hn. rewrite E. by apply list_elem_of_fmap_2.
Qed.

Lemma slot_attachment user_id annotation_id kind r :
  is_slot user_id annotation_id kind r = true -> is_attachment user_id annotation_id r = true.
Proof. unfold is_slot. by intros [? _]%andb_true_iff. Qed.

(** Storing the row of an upload: what it leaves. *)
Record upserted (user_id annotation_id : str) (u : AttachmentUpload) (s : Store) (stored : Upserted) (s1 : Store) : Prop := {
  un_row : upserted_attachment stored ∈ attachment_rows s1;
  un_is : is_attachment user_id annotation_id (upserted_attachment stored) = true;
  un_path : ac_storage_path (upserted_attachment stored) = relative_path annotation_id (up_sha256 u) (up_media_type u);
  un_media_type : ac_media_type (upserted_attachment stored) = up_media_type u;
  un_files : st_files s1 = st_files s;
  un_faults : faults s1 = faults s;
  un_previous a previous : stored = Replaced a previous ->
    previous ∈ attachment_rows s /\ is_slot user_id annotation_id (up_kind u) previous = true;
  un_others r : r ∈ attachment_rows s -> is_slot user_id annotation_id (up_kind u) r = false -> r ∈ attachment_rows s1;
}.

Lemma new_row_is id user_id annotation_id u created_at :
  is_attachment user_id annotation_id (attachment_row id (new_attachment user_id annotation_id u) created_at) = true.
Proof. unfold is_attachment. cbn. by rewrite !bool_decide_eq_true_2. Qed.

Lemma upsert_done now uuid user_id annotation_id u s :
  intact s -> upload_safe annotation_id u -> faults s = [] -> uuid ∉ ac_id <$> attachment_rows s ->
  exists stored s1, upsert now uuid (new_attachment user_id annotation_id u) s = (Ok stored, s1) /\
    upserted user_id annotation_id u s stored s1.
Proof.
  intros [_ R D] Hu Hf Hn. unfold upsert, find_by_kind. rewrite (db_bind_run _ _ _ _ _ (sql_query_ok _ _ Hf)). cbv beta.
  cbn [nw_user_id nw_annotation_id nw_kind nw_sha256 nw_media_type new_attachment].
  destruct (List.find (is_slot user_id annotation_id (up_kind u)) (attachment_rows s)) as [previous|] eqn:Ef.
  - apply find_some in Ef as [Hin%list_elem_of_In Hs]. pose proof (slot_attachment _ _ _ _ Hs) as Ha.
    destruct (bool_decide (ac_sha256 previous = up_sha256 u)) eqn:E1, (bool_decide (ac_media_type previous = up_media_type u)) eqn:E2;
      cbn [andb].
    1: { apply bool_decide_eq_true in E1, E2. exists (Unchanged previous), s. split; [done|].
         split; cbn [upserted_attachment]; try done. destruct (R _ Hin) as [_ _ ->]. rewrite E1, E2.
         apply andb_true_iff in Ha as [_ Ha%bool_decide_eq_true]. by rewrite Ha. }
    all: set (row := attachment_row (ac_id previous) (new_attachment user_id annotation_id u) (to_rfc3339_nanos now)).
    all: set (rows := (fun r => if bool_decide (ac_id r = ac_id row) then row else r) <$> attachment_rows s).
    all: assert (Hup : update_attachment row s = (Ok tt, set_attachments s rows)) by
      (unfold update_attachment; rewrite (execute_ok _ _ Hf), (proj2 (existsb_exists _ _)); [done|];
       exists previous; split; [by apply list_elem_of_In|by apply bool_decide_eq_true_2]).
    all: exists (Replaced row previous), (set_attachments s rows); rewrite (db_bind_run _ _ _ _ _ Hup); split; [done|].
    all: split; cbn [upserted_attachment]; try done;
      [apply list_elem_of_fmap; exists previous; split; [by rewrite bool_decide_eq_true_2|done]
      |apply new_row_is|by intros a p [= _ <-]
      |intros r Hr Hns; apply list_elem_of_fmap; exists r; split; [|done]; rewrite bool_decide_eq_false_2; [done|]].
    all: intros E; assert (r = previous) as -> by (by apply (unique_key ac_id (attachment_rows s))); congruence.
  - set (row := attachment_row uuid (new_attachment user_id annotation_id u) (to_rfc3339_nanos now)).
    assert (Hi : insert_attachment row s = (Ok tt, set_attachments s (attachment_rows s ++ [row]))).
    { unfold insert_attachment. rewrite (execute_ok _ _ Hf). destruct (existsb _ _) eqn:E; [|done].
      apply existsb_exists in E as (r & Hr & [E%bool_decide_eq_true|E]%orb_true_iff); exfalso.
      - apply Hn. rewrite <- (E : ac_id r = uuid). by apply list_elem_of_fmap_2, list_elem_of_In.
      - pose proof (find_none _ _ Ef r Hr) as Hno. cbn in E. congruence. }
    exists (Created row), (set_attachments s (attachment_rows s ++ [row])). rewrite (db_bind_run _ _ _ _ _ Hi). split; [done|].
    split; cbn [upserted_attachment]; try done; [|apply new_row_is|]; cbn; [set_solver|]. intros r Hr _. set_solver.
Qed.

Lemma write_bytes_done torn path bytes s :
  faults s = [] -> with_extension path (lit "partial") <> path ->
  exists s1, write_bytes torn path bytes s = (Ok tt, s1) /\ faults s1 = [] /\ st_files s1 !! path = Some bytes /\
    attachment_rows s1 = attachment_rows s /\
    forall p, p <> path -> p <> with_extension path (lit "partial") -> st_files s1 !! p = st_files s !! p.
Proof.
  intros Hf Hne. unfold write_bytes, create_dir_all, write_file, rename_file. cbv zeta. generalize dependent (with_extension path (lit "partial")).
  intros tmp Hne.
  erewrite db_bind_run; [|by rewrite (execute_ok _ _ Hf)]. erewrite db_bind_run; [|by rewrite (execute_ok _ _ Hf)].
  rewrite execute_ok by done. cbn [st_files set_files]. rewrite lookup_insert_eq.
  eexists. split; [reflexivity|]. split; [done|]. cbn [st_files set_files]. split; [by rewrite lookup_insert_eq|]. split; [done|].
  intros p Hp Hp'. by rewrite lookup_insert_ne, lookup_delete_ne, lookup_insert_ne.
Qed.

Lemma blob_path_ext id sha ext ext' : blob_path id sha ext = blob_path id sha ext' -> ext = ext'.
Proof. unfold blob_path. intros E. simplify_list_eq. done. Qed.

Lemma remove_file_done path s : faults s = [] -> remove_file path s = (Ok tt, set_files s (delete path (st_files s))).
Proof. intros Hf. unfold remove_file, ignoring. by rewrite (execute_ok _ _ Hf). Qed.

Lemma discard_previous_done user_id annotation_id u s stored s1 relative :
  upserted user_id annotation_id u s stored s1 -> faults s1 = [] -> is_Some (st_files s1 !! relative) ->
  exists s2, discard_previous stored relative s1 = (Ok tt, s2) /\ faults s2 = [] /\ attachment_rows s2 = attachment_rows s1 /\
    st_files s2 !! relative = st_files s1 !! relative /\
    forall p, (forall old, old ∈ attachment_rows s -> is_slot user_id annotation_id (up_kind u) old = true -> ac_storage_path old <> p) ->
      st_files s2 !! p = st_files s1 !! p.
Proof.
  intros Hs Hf [bytes Hb]. unfold discard_previous. destruct stored as [a|a previous|a]; try (by exists s1).
  destruct (un_previous _ _ _ _ _ _ Hs a previous eq_refl) as [Hin Hsl]. case_bool_decide as Eq; [by exists s1|].
  exists (set_files s1 (delete (ac_storage_path previous) (st_files s1))). rewrite remove_file_done by done.
  split_and!; [done..| |]; cbn [st_files set_files]; [by rewrite lookup_delete_ne|].
  intros p Hp. rewrite lookup_delete_ne; [done|]. by apply Hp.
Qed.

(** C18. With a database and a disk that answer, storing an upload that was accepted
    on an annotation that is not deleted goes through, and a download of the id it returns
    answers with the bytes and the media type of the upload.  Every attachment of another
    kind, annotation or account keeps its row; and its file, unless the attachment that is
    replaced named the same file. *)
Theorem put_then_download torn now uuid user_id annotation_id kind headers body max_bytes u live s :
  intact s -> read_attachment annotation_id kind headers body max_bytes = Ok u -> faults s = [] ->
  record_of user_id annotation_id s = Some live -> aw_deleted live = false -> uuid ∉ ac_id <$> attachment_rows s ->
  exists result s',
    put torn now uuid user_id annotation_id u s = (Ok result, s') /\
    download user_id annotation_id (ur_id result) s' = (Ok (up_media_type u, up_bytes u), s') /\
    forall r, r ∈ attachment_rows s -> is_slot user_id annotation_id kind r = false ->
      r ∈ attachment_rows s' /\
      ((forall old, old ∈ attachment_rows s -> is_slot user_id annotation_id kind old = true ->
                    ac_storage_path old <> ac_storage_path r) ->
       is_Some (st_files s !! ac_storage_path r) -> is_Some (st_files s' !! ac_storage_path r)).
Proof.
  intros Hi Hread Hf Hlive Hdel Hn. apply read_attachment_exact in Hread. pose proof (accepted_safe _ _ _ _ _ _ Hread) as Hu.
  destruct Hread as [_ [<- _] _ _ _ _]. unfold put, require_live_annotation.
  erewrite db_bind_run. 2: { rewrite (db_bind_run _ _ _ _ _ (sql_query_ok _ _ Hf)). cbv beta. unfold record_of in Hlive. by rewrite Hlive, Hdel. }
  cbv zeta. change (nw_annotation_id _) with annotation_id. cbn [nw_sha256 nw_media_type].
  set (relative := relative_path annotation_id (up_sha256 u) (up_media_type u)).
  assert (Hpart : with_extension relative (lit "partial") = blob_path annotation_id (up_sha256 u) (lit "partial")) by apply partial_path.
  assert (Hrel : relative = blob_path annotation_id (up_sha256 u) (extension_for (up_media_type u))) by done.
  destruct (write_bytes_done torn relative (up_bytes u) s Hf) as (s1 & Ew & Hf1 & Hw & Hr1 & Hfr).
  { rewrite Hpart, Hrel. intros E%blob_path_ext. by apply (extension_not_partial (up_media_type u)). }
  rewrite (db_bind_run _ _ _ _ _ Ew).
  assert (Hi1 : intact s1).
  { eapply (moves_intact ∅); [|exact writing_none|exact Hi]. pose proof (write_bytes_moves ∅ torn annotation_id u (up_media_type u) Hu (lookup_empty _) s) as Hm.
    change (relative_path _ _ _) with relative in Hm. by rewrite Ew in Hm. }
  destruct (upsert_done now uuid user_id annotation_id u s1 Hi1 Hu Hf1) as (stored & s2 & Eu & Hs); [by rewrite Hr1|].
  assert (Hi2 : intact s2).
  { eapply (moves_intact ∅); [|exact writing_none|exact Hi1]. pose proof (upsert_moves ∅ now uuid user_id annotation_id u Hu s1) as Hm. by rewrite Eu in Hm. }
  erewrite db_bind_run. 2: { unfold or_unwritten. unfold new_attachment in Eu. by rewrite Eu. }
  destruct Hs as [Hrow His Hpath Hmt Hfiles Hf2 Hprev Hoth].
  destruct (discard_previous_done user_id annotation_id u s1 stored s2 relative) as (s3 & Eg & Hf3 & Hr3 & Hfile & Hkeep);
    [by split|by rewrite Hf2|by rewrite Hfiles, Hw|]. fold relative in Hpath.
  rewrite (db_bind_run _ _ _ _ _ Eg).
  eexists _, s3. split; [reflexivity|]. cbn [ur_id]. split.
  - unfold download, find_attachment. rewrite (db_bind_run _ _ _ _ _ (sql_query_ok _ _ Hf3)). cbv beta.
    rewrite Hr3, attachment_by_id; [|apply Hi2|done|done]. unfold read_bytes. rewrite (db_bind_run _ _ _ _ _ (sql_query_ok _ _ Hf3)). cbv beta.
    by rewrite Hpath, Hfile, Hfiles, Hw, Hmt.
  - intros r Hr Hns. rewrite Hr3. split; [apply Hoth; [by rewrite Hr1|done]|]. intros Hp Hsome.
    rewrite Hkeep, Hfiles by (rewrite Hr1; done). destruct (decide (ac_storage_path r = relative)) as [->|Hne]; [by rewrite Hw|].
    rewrite Hfr; [done..|]. rewrite Hpart. intros E. destruct (it_rows _ Hi r Hr) as [Ri Rs Rp].
    rewrite Rp, relative_path_blob in E. apply blob_path_inj in E as (_ & _ & E); [|apply Ri|apply Hu|apply Rs|apply Hu].
    by apply (extension_not_partial (ac_media_type r)).
Qed.

End served.

(** ** Concrete inputs *)

#[local] Existing Instance fixed_ops.
#[local] Existing Instance demo_chrono.
#[local] Existing Instance demo_host.
#[local] Existing Instance plain_wire.
#[local] Existing Instance plain_locators.

(** A digest of the right shape: the sum of the bytes, in its last digit. *)
Definition sum_sha : Sha256 := {| sha256_hex bytes := replicate 63 48 ++ [48 + foldr Z.add 0 bytes mod 10] |}.

#[local] Existing Instance sum_sha.

Definition png_headers (bytes : list Z) : HeaderMap :=
  [(lit "content-type", lit "image/png"); (ATTACHMENT_SHA256_HEADER, sha256_hex bytes)].

Definition png (kind : string) (bytes : list Z) : AttachmentUpload :=
  {| up_kind := lit kind; up_media_type := lit "image/png"; up_sha256 := sha256_hex bytes; up_bytes := bytes |}.

Definition upload_png (user_id uuid kind : string) (bytes : list Z) (s : Store) : Store :=
  (put None 20 (lit uuid) (lit user_id) (lit "a") (png kind bytes) s).2.

Definition served (user_id uuid : string) (s : Store) : result (str * list Z) Stop :=
  (download (lit user_id) (lit "a") (lit uuid) s).1.

Lemma png_read : read_attachment (lit "a") (lit "markup-page") (png_headers [1; 2]) (Some [1; 2]) 100 = Ok (png "markup-page" [1; 2]).
Proof. vm_compute. reflexivity. Qed.

Definition attached : Store := upload_png "u" "x" "markup-page" [1; 2] noted.

Lemma attachments_intact_witness :
  served "u" "x" attached = Ok (lit "image/png", [1; 2]) /\
  exists row, row ∈ attachment_rows attached /\ sha256_hex [1; 2] = ac_sha256 row.
Proof.
  destruct attachments_intact as (Hput & _ & Hserved).
  pose proof (Hput ∅ None 20 (lit "x") (lit "u") _ _ _ _ _ _ png_read (lookup_empty _) noted) as Hm.
  assert (E : served "u" "x" attached = Ok (lit "image/png", [1; 2])) by (vm_compute; reflexivity). split; [exact E|].
  destruct (find_attachment (lit "u") (lit "a") (lit "x") attached) as [[[row|]|e] s'] eqn:Ef;
    [|apply (f_equal (fun r => match r.1 with Ok o => is_none o | Err _ => true end)) in Ef; vm_compute in Ef; discriminate..].
  assert (Eb : read_bytes row attached = (Ok (lit "image/png", [1; 2]), (read_bytes row attached).2)).
  { rewrite (surjective_pairing (read_bytes row attached)) at 1. f_equal.
    apply (f_equal (fun r => match r.1 with Ok (Some row) => (read_bytes row attached).1 | _ => Err internal end)) in Ef.
    etrans; [symmetry; exact Ef|]. vm_compute. reflexivity. }
  destruct (Hserved noted attached ∅ attached ∅ (lit "u") (lit "a") (lit "x") row _ _ s' _ ltac:(by vm_compute) ltac:(by vm_compute)
    Hm Ef (rtc_refl _ _) Eb) as (Hrow & _ & _ & _ & Hsha).
  exists row. split; [exact Hrow|exact Hsha].
Defined.

Lemma noted_intact : intact noted.
Proof. apply empty_intact; by vm_compute. Qed.

Lemma put_then_download_witness :
  exists result s', put None 20 (lit "x") (lit "u") (lit "a") (png "markup-page" [1; 2]) noted = (Ok result, s') /\
    download (lit "u") (lit "a") (ur_id result) s' = (Ok (lit "image/png", [1; 2]), s').
Proof.
  assert (Hl : (aw_deleted <$> record_of (lit "u") (lit "a") noted) = Some false) by (vm_compute; reflexivity).
  apply fmap_Some in Hl as (live & El & Hd). symmetry in Hd.
  destruct (put_then_download None 20 (lit "x") (lit "u") (lit "a") _ _ _ _ _ live noted noted_intact png_read eq_refl El Hd)
    as (result & s' & Ep & Ed & _); [apply (bool_decide_eq_true (_ ∉ _)); by vm_compute|].
  exists result, s'. split; [exact Ep|exact Ed].
Defined.

(** Two kinds of one annotation may carry the same bytes; they share a file, and replacing
    the one takes the bytes of the other. *)
Example replacing_takes_shared_bytes :
  let s := upload_png "u" "y" "notebook" [1; 2] attached in
  served "u" "y" s = Ok (lit "image/png", [1; 2]) /\
  served "u" "y" (upload_png "u" "z" "markup-page" [3; 4] s) = Err (Refused (NotFound (lit "attachment bytes are missing"))).
Proof. vm_compute. split; reflexivity. Qed.

(** The id of an annotation is unique in its account only, and the path does not name the
    account: deleting one's annotation takes the bytes of the other's. *)
Definition two_accounts : Store :=
  let s := set_annotations noted (annotations noted ++
    ((fun r => {| aw_user_id := lit "v"; aw_id := aw_id r; aw_rev := aw_rev r; aw_seq := aw_seq r; aw_work_id := aw_work_id r;
       aw_edition_sha := aw_edition_sha r; aw_kind := aw_kind r; aw_locator := aw_locator r; aw_progression := aw_progression r;
       aw_excerpt := aw_excerpt r; aw_color := aw_color r; aw_drawer := aw_drawer r; aw_body := aw_body r;
       aw_device_id := aw_device_id r; aw_origin_device_id := aw_origin_device_id r; aw_client_ts := aw_client_ts r;
       aw_updated_at := aw_updated_at r; aw_deleted := aw_deleted r; aw_deleted_at := aw_deleted_at r;
       aw_payload := aw_payload r |}) <$> annotations noted)) in
  upload_png "v" "y" "markup-page" [1; 2] (upload_png "u" "x" "markup-page" [1; 2] s).

Example deleting_takes_shared_bytes :
  served "v" "y" two_accounts = Ok (lit "image/png", [1; 2]) /\
  served "v" "y" (delete_annotation 30 (lit "u") (lit "a") 1 two_accounts).2 =
    Err (Refused (NotFound (lit "attachment bytes are missing"))).
Proof. vm_compute. split; reflexivity. Qed.

(** An upload is sent again and the statement that looks for its row fails: the file goes,
    and the row that names it stays. *)
Example failed_retry_takes_bytes :
  let s := set_faults attached [false; false; false; false; true] in
  served "u" "x" attached = Ok (lit "image/png", [1; 2]) /\
  served "u" "x" (upload_png "u" "z" "markup-page" [1; 2] s) = Err (Refused (NotFound (lit "attachment bytes are missing"))).
Proof. vm_compute. split; reflexivity. Qed.

(** Two uploads of the same bytes for one annotation at once share a temporary file: the one
    has written it and is about to rename it when the other opens, and so empties, it.  The
    rename makes the empty file the attachment, and a download serves it. *)
Example overlapping_uploads_tear :
  let path := relative_path (lit "a") (sha256_hex [1; 2]) (lit "image/png") in
  let temporary := with_extension path (lit "partial") in
  let written := (write_file None temporary [1; 2] noted).2 in
  let opened := set_files written (<[temporary := []]> (st_files written)) in
  let renamed := (rename_file temporary path opened).2 in
  let stored := (upsert 20 (lit "x") (new_attachment (lit "u") (lit "a") (png "markup-page" [1; 2])) renamed).2 in
  served "u" "x" stored = Ok (lit "image/png", []) /\ sha256_hex [] <> sha256_hex [1; 2].
Proof. vm_compute. split; [reflexivity|discriminate]. Qed.

(** A write that fails half way leaves a torn temporary file, which no row names. *)
Example torn_upload_unnamed :
  let s := (put (Some 1%nat) 20 (lit "x") (lit "u") (lit "a") (png "markup-page" [1; 2]) (set_faults noted [false; false; true])).2 in
  (map_to_list (st_files s)).*2 = [[1]] /\ attachment_rows s = [].
Proof. vm_compute. split; reflexivity. Qed.
